(* ===== verification/_CoqProject ===== *)
-Q . S2P
Prelude.v
LbRoutes.v
LbPool.v
LbGuard.v
LbRegional.v
LbRequest.v
LbRegistry.v
LbRetire.v
PgJournal.v
PgSource.v
PgCandidate.v
PgWire.v
PgCancel.v
CiPlan.v
CiPaths.v
ArtStore.v
ArtGc.v
ArtSparse.v
CiExpr.v
LbTokens.v
LbAccess.v
LbSpec.v
LbGate.v
LbConfig.v
LbJwt.v
LbSignin.v
LbSite.v
LbFeed.v
LbFront.v
LbRollout.v
LbRolloutRuns.v
LbRolloutSafety.v
LbRolloutSystem.v
