(* ===== verification/Prelude.v ===== *)
(** * Heyo Web Services in Rocq

    The verification of the decision logic of Heyo Web Services, the Rust platform under
    [src/]: a load balancer that owns the VMs behind it ([app-lb]), the replication side of a
    Postgres pooler that replaces its VMs, and the opening of its sessions ([pg-fc]), a
    content-addressed store of disk images ([artifacts]) and a CI service ([ci]).  This file is the root: this overview, then the
    vocabulary every other file uses.

    ** The program and the files

    [app-lb] serves every request by asking, in this order, who may not come in, where the
    host and the path lead, and which VM takes the request; the operator reaches the same
    process through an HTTP API with credentials of its own.

    - [LbRoutes]: [config.rs] ([RouteRule::matches], [specificity], [host_in_domain]) and
      [registry.rs] ([RouteTable]).  The index of rules by host ([build]), its incremental
      maintenance ([updated]) and the lookup ([resolve]), against one list of all rules,
      most specific first ([flat_resolve]).
    - [LbPool]: [deployment.rs].  The backends ([VmBackend]) live behind [Arc]s that the pool
      and the requests share, so the state is a heap of backends and a deployment that names
      locations.  Every method is a function on the two, with the clock as an argument:
      selection, reservation, drains, sizing, the boot embargo.
    - [LbGuard]: [guard.rs].  Prefixes, the match of a rule and its normal form, the digest
      a rule is identified by, the ring of hit counts, the guard's decision, and the file the
      rules survive a restart in.
    - [LbRegional]: [gateway.rs], [regional.rs], and the parts of [secrets.rs] and
      [discovery.rs] they call.  The transport between gateways and its headers; the router
      of a deployment, with the policy snapshots it accepts, the admission that pins a request
      to a generation, the counters its assignments hold, probes, preparation and reports.
    - [LbRequest]: [request_control.rs] and [serve] of [worker_rpc.rs].  One session per
      request, all over the heap of [LbPool] and the assignments of [LbRegional]: a state
      machine that stops where the code awaits, with the selection, the reservation, the wait
      for a cold start, the retries and every way out.
    - [LbRegistry]: the rest of [registry.rs] and the data it stores.  The deployments by id
      with the index of [LbRoutes] beside them, replaced while requests hold the old ones;
      route handoffs to a staged runtime with a router of [LbRegional]; and the state
      directory, as what a reader sees and what a crash of the host leaves, with a fault at
      each system call.  A run is any sequence of operations, crashes and starts.
    - [LbRetire]: [retirement.rs] and its handler in [admin.rs], over [LbRegistry].  A run mixes
      requests to retire with everything the registry does; what the hosts answer is part of
      the request.  Each operation is a sequence of small steps of the world ([micro]), and
      what stays true is proved for those.
    - [LbSpec]: the specs of [config.rs] and their errors, and what [Path::components] makes of
      a path; [LbGate]: the auth gate of a deployment ([AuthGate], [JwtSpec],
      [AuthProviderSpec]) with its checks, its cookie realm, its public paths and the
      fingerprint sessions are signed under; [LbConfig]: [DeploymentSpec::validate] with the
      checks of every block, [normalize], and the names of containers ([vm.rs], [incus.rs]).
    - [LbRollout]: [rollout.rs] and its handlers in [admin.rs].  The worker is a program of
      atomic operations on the registry and of calls of the runtime, which answers as it
      likes; [rstep] runs it between everything else the controller does, crashes and starts
      included ([leaves] and [typed] say what the rest of the controller leaves alone and what a
      request can hold, [faithful] that a prepared spec keeps its id).  [LbRolloutRuns] has the
      invariant of such a run, [LbRolloutSafety] the worker's steps one by one
      ([secure]: no call before what justifies it is on disk), [LbRolloutSystem] what follows for
      every state a run reaches.
    - [LbJwt]: [jwt.rs], the verification of an issuer's tokens and the cache of key sets.
    - [LbSignin]: [auth.rs] and [auth/heyo_login.rs].  What a gate decides about a request and
      what it answers, the two cookies it signs, the sign-in with a provider, the form in front
      of an issuer, signing out; over the store of [LbTokens], the gates of [LbGate] and a
      verifier of JWTs that is a class ([Verifier]), which [LbJwt] implements.  A history is a
      list of requests, each with the stores it met, in which nobody else signs ([honest]).
    - [LbSite]: [site.rs] and [serve_site] of [proxy.rs].  A file system as a map keyed by paths,
      with links; what a request path names in it, the responses with their ranges and
      validators, and the chunks a file is sent in.
    - [LbFeed]: [feed.rs].  The rings of events of the namespaces, and the document they are read as.
    - [LbFront]: [decide], [continue_login] and [forwarding_modifications] of [request_control.rs],
      the probes of [regional.rs] and the filters of [proxy.rs] that carry the plan out.  It puts
      the parts together: the guard, the routes of [LbRegistry], the admission of [LbRegional], the
      gate as a class ([Gatekeeper]) that [LbSignin] implements, the feed and the sites.  A
      decision is one step on the stores, and [LbRequest] is what follows it.
    - [LbTokens]: [tokens.rs], and the token handlers and the start-up of [admin.rs] and
      [main.rs].  The store of minted credentials beside its file, where each write can fail
      at each of its system calls; a run is any sequence of requests, clock steps and
      restarts.
    - [LbAccess]: the gate of [admin.rs] and [federated.rs].  How a request is taken for a
      caller, which tier a route needs, what the caller reaches; it calls [LbTokens.verify]
      and the grant cache of the resolver.

    [pg-fc] replaces the VM of a database by a streaming replica.  Each side writes a journal
    ahead of what it does.

    - [PgJournal]: the records, their validators and the journal file that both stores of
      [replication/physical_store.rs] share, and [execute], which persists a decided write
      before it installs it, with a fault at each step.
    - [PgSource], [PgCandidate]: the two stores, each operation as a decision on the locked
      journal, over [PgJournal.execute]; runs interleave operations, faults and restarts.
    - [PgWire]: [startup.rs], and the keys and the scanner of [cancel.rs].  The messages a client
      opens with, their parameters, the startup a writer tunnel carries, the default option, and
      the key that a server sends first; a socket is the bytes still to arrive on it.
    - [PgCancel]: the map of [cancel.rs], over [PgWire].  A run is any sequence of sessions that
      open, read from their servers and end.

    [artifacts] stores blobs and manifests under the hash of their bytes.

    - [ArtStore]: [store.rs], [digest.rs], [tags.rs], [manifest.rs], [labels.rs], [lock.rs],
      [error.rs], [sys/space.rs], [sys/tmpfile.rs].  The state is a file system of names,
      inodes and link counts; an operation is a program that may fail at any call.
    - [ArtGc]: [gc.rs], mark and sweep over [ArtStore], and the runs that mix collections with
      writers.
    - [ArtSparse]: [sys/sparse.rs].  Copying around holes and punching them, over system
      calls that may be short, interrupted or refused.

    [ci] turns a workflow into jobs.

    - [CiPlan]: [plan.rs], the expansion of a matrix, the keys of the cells and their order.
    - [CiPaths]: [paths.rs], the glob matcher of path filters and the change set.
    - [CiExpr]: [expr.rs], the expressions of a workflow, evaluated while they are parsed,
      and their substitution in text.

    ** What the theorems show

    - Nothing gets past the gate as somebody else, above its tier or outside its deployments
      and namespaces ([LbAccess.access_is_walled]); a revocation
      answered as done stays done through later failures and restarts
      ([LbTokens.revocation_is_final]), and a restart changes nobody's credentials
      ([restart_keeps_credentials]).
    - The gate of a deployment lets in who it says: a request passes exactly with a credential of
      the kind its path asks for, a JWT is accepted exactly when the policy's key signed it
      ([LbJwt.accepted_tokens_are_authentic]), a session was earned by a sign-in that a list
      of the same policy admitted, no redirect leads off the site, who signed in gets in and who signs out is out
      ([LbSignin]).
    - A request reaches a deployment only by all of it: the guard, the routes, the admission, the
      gate ([LbFront.requests_go_through_the_gate]); and the upstream reads in every header what was
      decided, or what the client may say ([LbFront.upstream_sees_what_was_decided]).
    - A site serves what is in its directory, the range that was asked for and nothing else
      ([LbSite]); a feed holds the events that were asked for, under the calendar's dates ([LbFeed]).
    - The optimised routines are the plain ones: the incremental index is the rebuilt one, the
      two-tier lookup the first match of a flat list ([LbRoutes]); the glob matcher and the
      windowed search decide their declarative meaning ([CiPaths], [LbGuard]); the evaluator
      computes the denotation of the documented grammar ([CiExpr.eval_is_the_grammar]).
    - What was accepted can be relied on: mounts without "." segments do not hide one another, no
      mount or path leads out of its place, every secret a spec names is of its own namespace, its backend,
      its sizing and the names of its containers are sound ([LbConfig]), and its gate can be
      passed, by whom it says ([LbGate]).
    - Nothing is leaked under concurrency: whatever interleaves, the requests in flight are the
      sessions and shells that hold a slot ([LbRequest.reservations_are_exact]), a closed
      backend only empties ([closed_backend_only_empties]), the counters of a router are its
      live assignments as long as no request panics with the router's lock held, and frozen after
      ([LbRegional.counters_are_live]), and a drained region stays drained;
      and a request left to itself gets a peer, or there is none
      ([LbRequest.next_peer_answers]).
    - A router only moves forward, pins what it admits, and believes a peer by its whole
      set of headers: what it writes is admitted once, at the other end ([LbRegional]).
    - A write of the registry that was answered survives a crash, a start restores what is
      stored, and over any run requests follow the registered deployments and a handoff
      switches at one point ([LbRegistry]).
    - Over any run in which no deployment with a rollout history is deregistered, with crashes and
      lost answers anywhere, no candidate of a rollout is created twice, no old VM is stopped before the verified generation is on disk, only failed
      candidates are reclaimed and a settled failure left none ([LbRolloutSystem]); that two
      admitted operations do not share a digest is a hypothesis ([collision_free]).
    - A frozen deployment stays frozen through anything ([LbRetire.frozen_is_forever]), is
      reported retired only when every host has attested it ([retired_means_attested]), and
      gets there when they do ([willing_hosts_retire]).
    - What is durable stays durable: the journals reload to what memory holds after any
      sequence of faults, a grant is irrevocable, a candidate only moves forward ([PgSource],
      [PgCandidate]); a reload restores the guard's rules with their history ([LbGuard]).
    - The opening of a session is read as it was meant: whatever a client asks for first, its
      parameters are taken for what they say, a tunnel accepts what means one thing only, and a
      default option changes nothing else; the key of a session is found however its bytes arrive
      ([PgWire]), and a cancel reaches the session whose key it carries ([PgCancel]).
    - Content is kept: what a tag reaches survives failures and the collections that could read the
      tag and its manifest, a collection removes garbage only, names are hashes ([ArtGc]); a sparse
      copy that reports success is exact whatever the kernel does, and punching frees the zero grains and changes no byte ([ArtSparse]).
    - Decisions are exact: a drained upstream is never selected, the size of a pool, the
      embargo after failed boots ([LbPool]); allow before block, exact hit counts ([LbGuard]);
      the cells of a matrix and an order of the jobs that respects their needs, or
      the needs that are missing or a circle among the jobs ([CiPlan]).

    Each file also keeps the facts that modelling turned up where the code does not do what it
    says, as theorems on a concrete reachable state.

    ** Integers, text, time and failure

    Machine integers are [Z] with the wrap-around or saturation of the Rust operation written
    out ([U32], [U64] below).  Text is a [string] of bytes in UTF-8; the characters of a text
    are its code points ([Chars]).  A clock reading is an argument.  [result] is Rust's
    [Result]; a panic is [None] where the code can panic.  A system call that can fail takes
    its outcome from a list of faults or answers that the theorems quantify over.

    ** Fuel

    A recursion that is not structural takes fuel, and running out of it is [None], so a
    theorem that a result is [Some] is one of termination.  The fuel is computed from the input:
    [CiExpr] takes eight calls per token and eight for the parser, and one step per character
    and one for the tokenizer and the substitution; [CiPaths.segment_fuel] is
    the product of both lengths; [CiPlan] takes one wave per job, and one probe per key
    taken; a loop of [ArtSparse] takes the bytes that remain and one retry per answer of the
    kernel; the parsers and the scanner of [PgWire] take one step per byte; a request of [LbRequest] takes three steps per backend of its pool and four more.
    Each is proved to be enough.

    ** What stands for code that is not here

    Hashes, base64, JSON and YAML, the random generator, URL parsing and the comparison of a
    remote resolver's answers are arguments of the definitions that use them.  A theorem that
    needs something of them names it as a hypothesis: that a decoder reads back what the encoder
    wrote, or that a printed address parses to itself.

    ** Not modelled

    The record-only removal of a deployment with a settled rollout history
    ([deregister_retired_record] of [admin.rs]) is not among the steps of [LbRollout]: it ends what
    the rollout theorems speak of, and a deployment registered under the same name afterwards starts
    without a record of the names already used.

    The HTTP, TLS and wire front ends, the drivers of VMs and containers, SQL stores and the
    generated entities of the orchestrator have no logic of their own to state without their
    libraries.  The autoscaler's reconcile loop, the CI dispatcher and its release policy, the
    logical replication store and the writer routing of the pooler, and the retention and compaction
    of [app-obs] have some: they are long sequences of calls to NATS, SQL and HTTP, and what they
    decide is inside those calls.  A decision of [LbFront] does not interleave with others while it
    waits for an issuer, a provider or a candidate.  Concurrency is modelled where the code leaves it visible: between
    collections and writers ([ArtGc]), between two changes of the token store
    ([LbTokens.concurrent_change_undoes_a_revocation]), between requests, shells, probes and
    drains ([LbRequest]) and between admissions and drops ([LbRegional]); elsewhere handlers run one at a time,
    as their locks make them do. *)
From Stdlib Require Import Ascii String ZArith Lia Bool Sorting.Sorted.
From stdpp Require Import base option list strings gmap fin_maps.

Declare Scope hws_scope.
Delimit Scope hws_scope with hws.

(** ** Fallible code

    [result E A] is Rust's [Result<A, E>]; [x <-? m ;; k] is the [?] operator. *)
Inductive result (E A : Type) : Type :=
| Ok (a : A)
| Err (e : E).
Arguments Ok {E A} a.
Arguments Err {E A} e.

Definition rbind {E A B} (m : result E A) (k : A → result E B) : result E B :=
  match m with Ok a => k a | Err e => Err e end.

Notation "x <-? m ;; k" := (rbind m (λ x, k))
  (at level 100, m at next level, right associativity) : hws_scope.
Notation "m ;;? k" := (rbind m (λ _, k))
  (at level 100, right associativity) : hws_scope.
Open Scope hws_scope.

Definition is_ok {E A} (m : result E A) : bool :=
  match m with Ok _ => true | Err _ => false end.

(** [Option::is_some]. *)
Definition is_some {A} (o : option A) : bool :=
  match o with Some _ => true | None => false end.

(** [Option::ok_or]. *)
Definition ok_or {E A} (o : option A) (e : E) : result E A :=
  match o with Some a => Ok a | None => Err e end.

(** [guard_err b e]: an early [return Err(e)] taken when [b] holds. *)
Definition bail_if {E} (b : bool) (e : E) : result E unit :=
  if b then Err e else Ok tt.

Lemma rbind_ok {E A B} (m : result E A) (k : A → result E B) b :
  rbind m k = Ok b ↔ ∃ a, m = Ok a ∧ k a = Ok b.
Proof. destruct m; simpl; naive_solver. Qed.

Lemma seq_ok {E B} (m : result E unit) (k : result E B) b :
  (m ;;? k) = Ok b ↔ m = Ok tt ∧ k = Ok b.
Proof. rewrite rbind_ok. split; [intros ([] & ? & ?)|intros [? ?]; exists tt]; done. Qed.

Lemma bail_if_ok {E} b (e : E) u : bail_if b e = Ok u ↔ b = false.
Proof. destruct b, u; simpl; naive_solver. Qed.

Lemma ok_or_ok {E A} (o : option A) (e : E) a : ok_or o e = Ok a ↔ o = Some a.
Proof. destruct o; simpl; naive_solver. Qed.

(** Inverts every hypothesis that a fallible computation returned [Ok], and reads the
    boolean tests it made as propositions. *)
Ltac inv_bools :=
  repeat match goal with
  | H : negb _ = false |- _ => apply negb_false_iff in H
  | H : negb _ = true |- _ => apply negb_true_iff in H
  | H : _ || _ = false |- _ => apply orb_false_iff in H; destruct H
  | H : _ && _ = true |- _ => apply andb_true_iff in H; destruct H
  | H : String.eqb _ _ = true |- _ => apply String.eqb_eq in H
  | H : String.eqb _ _ = false |- _ => apply String.eqb_neq in H
  | H : bool_decide _ = true |- _ => apply bool_decide_eq_true in H
  | H : bool_decide _ = false |- _ => apply bool_decide_eq_false in H
  | H : Z.eqb _ _ = true |- _ => apply Z.eqb_eq in H
  end.
Ltac inv_ok :=
  repeat match goal with
  | u : unit |- _ => destruct u
  | H : rbind _ _ = Ok _ |- _ =>
    let x := fresh "x" in let Hx := fresh "Hx" in
    apply rbind_ok in H; destruct H as (x & Hx & H)
  | H : bail_if _ _ = Ok _ |- _ => apply bail_if_ok in H
  | H : ok_or _ _ = Ok _ |- _ => apply ok_or_ok in H
  | H : Ok _ = Ok _ |- _ => injection H; clear H; intros; subst
  | H : Err _ = Ok _ |- _ => discriminate H
  | H : (if ?b then _ else _) = Ok _ |- _ => destruct b eqn:?
  | H : match ?o with Some _ => _ | None => _ end = Ok _ |- _ => destruct o eqn:?
  end; inv_bools.

#[global] Instance result_eq_dec {E A} `{EqDecision E, EqDecision A} :
  EqDecision (result E A).
Proof.
  intros [a|e] [a'|e']; [|by right..|];
    [destruct (decide (a = a'))|destruct (decide (e = e'))];
    solve [left; congruence|right; congruence].
Defined.

(** ** Machine integers

    A [u64]/[usize] is a [Z] kept in range; wrap-around and saturation are
    written out. *)
Module U64.
Open Scope Z_scope.
Definition modulus : Z := 2 ^ 64.
Definition max : Z := modulus - 1.
Definition wrap (z : Z) : Z := z mod modulus.
Definition wrapping_add (a b : Z) : Z := wrap (a + b).
Definition saturating_add (a b : Z) : Z := Z.min (a + b) max.
Definition saturating_sub (a b : Z) : Z := Z.max (a - b) 0.
Definition saturating_mul (a b : Z) : Z := Z.min (a * b) max.
Definition in_range (z : Z) : Prop := 0 <= z <= max.
End U64.

Module U32.
Open Scope Z_scope.
Definition modulus : Z := 2 ^ 32.
Definition max : Z := modulus - 1.
Definition wrap (z : Z) : Z := z mod modulus.
Definition saturating_add (a b : Z) : Z := Z.min (a + b) max.
End U32.

(** ** Stable sorting

    [slice::sort_by] is documented to be stable; insertion from the right is the
    reference stable sort. *)
Section sort_by.
Context {A : Type} (cmp : A → A → comparison).

Fixpoint insert_by (x : A) (l : list A) : list A :=
  match l with
  | [] => [x]
  | y :: l' => match cmp x y with
               | Gt => y :: insert_by x l'
               | _ => x :: l
               end
  end.

Definition sort_by (l : list A) : list A := foldr insert_by [] l.

(** A comparison function that is a total preorder. *)
Class TotalCmp : Prop := {
  cmp_antisym : ∀ x y, cmp x y = CompOpp (cmp y x);
  cmp_eq_trans : ∀ x y z, cmp x y ≠ Gt → cmp y z ≠ Gt → cmp x z ≠ Gt;
}.

Definition le_by (x y : A) : Prop := cmp x y ≠ Gt.
Definition equiv_by (x y : A) : bool :=
  match cmp x y with Eq => true | _ => false end.

Context `{!TotalCmp}.

Lemma cmp_refl x : cmp x x = Eq.
Proof. pose proof (cmp_antisym x x) as Hx. by destruct (cmp x x). Qed.

Lemma equiv_by_le x y : equiv_by x y = true ↔ le_by x y ∧ le_by y x.
Proof.
  unfold equiv_by, le_by. rewrite (cmp_antisym y x).
  destruct (cmp x y); simpl; naive_solver.
Qed.

Lemma le_by_gt x y : cmp x y = Gt → le_by y x ∧ ¬ le_by x y.
Proof. unfold le_by. rewrite (cmp_antisym y x). intros ->. naive_solver. Qed.

Lemma insert_by_perm x l : insert_by x l ≡ₚ x :: l.
Proof.
  induction l as [|y l IH]; simpl; [done|].
  destruct (cmp x y); [done..|]. rewrite IH. constructor.
Qed.

Lemma sort_by_perm l : sort_by l ≡ₚ l.
Proof.
  induction l as [|x l IH]; simpl; [done|].
  by rewrite insert_by_perm, IH.
Qed.

Lemma insert_by_sorted x l :
  StronglySorted le_by l → StronglySorted le_by (insert_by x l).
Proof.
  induction 1 as [|y l Hl IH Hy]; simpl; [repeat constructor|].
  destruct (cmp x y) eqn:E.
  1,2: constructor; [by constructor|]; constructor;
       [unfold le_by; by rewrite E|];
       eapply Forall_impl; [exact Hy|]; intros z Hz;
       eapply cmp_eq_trans; [|exact Hz]; by rewrite E.
  constructor; [done|]. rewrite insert_by_perm. constructor; [|done].
  by apply le_by_gt.
Qed.

Lemma sort_by_sorted l : StronglySorted le_by (sort_by l).
Proof. induction l; simpl; [constructor|]. by apply insert_by_sorted. Qed.

(** Stability: an equivalence class keeps its order. *)
Lemma insert_by_stable k x l :
  List.filter (equiv_by k) (insert_by x l) =
  (if equiv_by k x then [x] else []) ++ List.filter (equiv_by k) l.
Proof.
  induction l as [|y l IH]; simpl; [by destruct (equiv_by k x)|].
  destruct (cmp x y) eqn:E; simpl.
  1,2: by destruct (equiv_by k x).
  rewrite IH. destruct (equiv_by k x) eqn:Ex, (equiv_by k y) eqn:Ey; try done.
  apply equiv_by_le in Ex as [? ?]. apply equiv_by_le in Ey as [? ?].
  apply le_by_gt in E as [_ []]. by eapply cmp_eq_trans.
Qed.

Lemma sort_by_stable k l :
  List.filter (equiv_by k) (sort_by l) = List.filter (equiv_by k) l.
Proof.
  induction l as [|x l IH]; simpl; [done|].
  rewrite insert_by_stable, IH. by destruct (equiv_by k x).
Qed.

Lemma equiv_by_refl x : equiv_by x x = true.
Proof. unfold equiv_by. by rewrite cmp_refl. Qed.

Lemma filter_equiv_elem k x l :
  x ∈ List.filter (equiv_by k) l ↔ x ∈ l ∧ equiv_by k x = true.
Proof. rewrite !list_elem_of_In, filter_In. done. Qed.

(** Two sorted lists with the same equivalence classes are the same list. *)
Lemma sorted_classes_eq l1 l2 :
  StronglySorted le_by l1 → StronglySorted le_by l2 →
  (∀ k, List.filter (equiv_by k) l1 = List.filter (equiv_by k) l2) → l1 = l2.
Proof.
  intros Hl1. revert l2. induction Hl1 as [|a l1 Hs1 IH Ha]; intros l2 Hl2 Hcls.
  { destruct l2 as [|b l2]; [done|]. specialize (Hcls b). simpl in Hcls.
    by rewrite equiv_by_refl in Hcls. }
  destruct Hl2 as [|b l2 Hs2 Hb].
  { specialize (Hcls a). simpl in Hcls. by rewrite equiv_by_refl in Hcls. }
  assert (b ∈ a :: l1) as Hbin.
  { assert (b ∈ List.filter (equiv_by b) (a :: l1)) as Hin.
    { rewrite Hcls. simpl. rewrite equiv_by_refl. constructor. }
    by apply filter_equiv_elem in Hin as [? _]. }
  assert (a ∈ b :: l2) as Hain.
  { assert (a ∈ List.filter (equiv_by a) (b :: l2)) as Hin.
    { rewrite <- Hcls. simpl. rewrite equiv_by_refl. constructor. }
    by apply filter_equiv_elem in Hin as [? _]. }
  assert (le_by a b) as Hab.
  { apply elem_of_cons in Hbin as [->|Hbin]; [unfold le_by; by rewrite cmp_refl|].
    by apply (proj1 (Forall_forall _ _) Ha). }
  assert (le_by b a) as Hba.
  { apply elem_of_cons in Hain as [->|Hain]; [unfold le_by; by rewrite cmp_refl|].
    by apply (proj1 (Forall_forall _ _) Hb). }
  assert (equiv_by a b = true) as Heq by (by apply equiv_by_le).
  assert (a = b) as <-.
  { specialize (Hcls a). simpl in Hcls. rewrite equiv_by_refl, Heq in Hcls.
    by injection Hcls. }
  f_equal. apply IH; [done|]. intros k. specialize (Hcls k). simpl in Hcls.
  destruct (equiv_by k a); [by injection Hcls|done].
Qed.

Lemma sort_by_classes_eq l1 l2 :
  (∀ k, List.filter (equiv_by k) l1 = List.filter (equiv_by k) l2) →
  sort_by l1 = sort_by l2.
Proof.
  intros Hcls. apply sorted_classes_eq; [apply sort_by_sorted..|].
  intros k. by rewrite !sort_by_stable.
Qed.
End sort_by.

Lemma nat_cmp_total : TotalCmp Nat.compare.
Proof.
  split; [intros; apply Nat.compare_antisym|].
  intros x y z. rewrite !Nat.compare_nle_iff. lia.
Qed.

(** ** Strings

    A Rust [str] is its UTF-8 byte sequence: Rocq's [string]. *)
Module Str.
Local Open Scope string_scope.
Local Open Scope N_scope.

Definition in_range (lo hi : N) (c : ascii) : bool :=
  (lo <=? N_of_ascii c) && (N_of_ascii c <=? hi).
Definition is_ascii_digit : ascii → bool := in_range 48 57.
Definition is_ascii_uppercase : ascii → bool := in_range 65 90.
Definition is_ascii_lowercase : ascii → bool := in_range 97 122.
Definition is_ascii_alphabetic (c : ascii) : bool :=
  is_ascii_uppercase c || is_ascii_lowercase c.
Definition is_ascii_alphanumeric (c : ascii) : bool :=
  is_ascii_alphabetic c || is_ascii_digit c.
Definition is_ascii_hexdigit (c : ascii) : bool :=
  is_ascii_digit c || in_range 65 70 c || in_range 97 102 c.

Definition lower (c : ascii) : ascii :=
  if is_ascii_uppercase c then ascii_of_N (N_of_ascii c + 32) else c.
Definition upper (c : ascii) : ascii :=
  if is_ascii_lowercase c then ascii_of_N (N_of_ascii c - 32) else c.

Fixpoint map (f : ascii → ascii) (s : string) : string :=
  match s with "" => "" | String c s' => String (f c) (map f s') end.
Definition to_ascii_lowercase : string → string := map lower.
Definition to_ascii_uppercase : string → string := map upper.
Definition eq_ignore_ascii_case (a b : string) : bool :=
  String.eqb (to_ascii_lowercase a) (to_ascii_lowercase b).

(** [bytes().all(f)] and [bytes().any(f)]. *)
Fixpoint all (f : ascii → bool) (s : string) : bool :=
  match s with "" => true | String c s' => f c && all f s' end.
Definition any (f : ascii → bool) (s : string) : bool := negb (all (negb ∘ f) s).

Fixpoint strip_prefix (p s : string) : option string :=
  match p, s with
  | "", _ => Some s
  | String a p', String b s' => if Ascii.eqb a b then strip_prefix p' s' else None
  | String _ _, "" => None
  end.
Definition starts_with (p s : string) : bool :=
  match strip_prefix p s with Some _ => true | None => false end.

(** [s.contains(p)] for a substring [p]. *)
Fixpoint contains (p s : string) : bool :=
  starts_with p s ||
  match s with "" => false | String _ s' => contains p s' end.

Fixpoint drop (n : nat) (s : string) : string :=
  match n, s with
  | O, _ => s
  | S n', String _ s' => drop n' s'
  | S _, "" => ""
  end.
Fixpoint take (n : nat) (s : string) : string :=
  match n, s with
  | S n', String c s' => String c (take n' s')
  | _, _ => ""
  end.

Definition ends_with (p s : string) : bool :=
  (String.length p <=? String.length s)%nat &&
  String.eqb (drop (String.length s - String.length p) s) p.
Definition strip_suffix (p s : string) : option string :=
  if ends_with p s then Some (take (String.length s - String.length p) s) else None.

(** [s.split(c)]: at least one piece. *)
Fixpoint split (c : ascii) (s : string) : list string :=
  match s with
  | "" => [""]
  | String b s' =>
    if Ascii.eqb b c then "" :: split c s'
    else match split c s' with
         | [] => [String b ""]
         | p :: ps => String b p :: ps
         end
  end.

Fixpoint trim_start_matches (c : ascii) (s : string) : string :=
  match s with
  | String b s' => if Ascii.eqb b c then trim_start_matches c s' else s
  | "" => ""
  end.

Lemma map_length f s : String.length (map f s) = String.length s.
Proof. induction s; simpl; congruence. Qed.

Lemma strip_prefix_spec p s r : strip_prefix p s = Some r ↔ s = p +:+ r.
Proof.
  revert s. induction p as [|a p IH]; intros s; simpl.
  { split; [by intros [= ->]|by intros ->]. }
  destruct s as [|b s]; [split; discriminate|].
  destruct (Ascii.eqb_spec a b) as [->|Hne].
  - rewrite IH. split; [by intros ->|by intros [= ->]].
  - split; [discriminate|]. intros [= ->]. done.
Qed.

Lemma starts_with_spec p s : starts_with p s = true ↔ ∃ r, s = p +:+ r.
Proof.
  unfold starts_with. destruct (strip_prefix p s) as [r|] eqn:E.
  - apply strip_prefix_spec in E. naive_solver.
  - split; [done|]. intros [r Hr]. apply strip_prefix_spec in Hr. congruence.
Qed.

Lemma contains_spec p s : contains p s = true ↔ ∃ l r, s = l +:+ p +:+ r.
Proof.
  induction s as [|c s IH]; cbn [contains]; rewrite orb_true_iff, starts_with_spec.
  - split; [intros [[r Hr]|?]; [by exists "", r|done]|].
    intros (l & r & E). left. exists r. destruct l; [done|discriminate].
  - rewrite IH. split.
    + intros [[r Hr]|(l & r & ->)]; [by exists "", r|by exists (String c l), r].
    + intros ([|c' l] & r & E); [left; by exists r|].
      injection E as -> ->. right. by exists l, r.
Qed.

Lemma append_assoc (a b c : string) : (a +:+ b) +:+ c = a +:+ b +:+ c.
Proof.
  induction a as [|d a IH]; [done|].
  change (String d ((a +:+ b) +:+ c) = String d (a +:+ b +:+ c)). by rewrite IH.
Qed.

Lemma all_impl (f g : ascii → bool) s :
  (∀ c, f c = true → g c = true) → all f s = true → all g s = true.
Proof.
  intros Hfg. induction s as [|c s IH]; [done|]. cbn [all].
  intros [Hc Hs]%andb_true_iff. by rewrite Hfg, IH.
Qed.

Lemma drop_app s t : drop (String.length s) (s +:+ t) = t.
Proof. by induction s as [|c s IH]. Qed.
Lemma take_app s t : take (String.length s) (s +:+ t) = s.
Proof. induction s as [|c s IH]; [by destruct t|]. simpl. by f_equal. Qed.

Lemma split_not_nil c s : split c s ≠ [].
Proof.
  destruct s; simpl; [done|]. destruct (Ascii.eqb _ _); [done|].
  by destruct (split c s).
Qed.

Lemma compare_refl s : String.compare s s = Eq.
Proof.
  induction s as [|a s IH]; simpl; [done|].
  unfold Ascii.compare. by rewrite N.compare_refl.
Qed.

Lemma compare_trans s1 s2 s3 :
  String.compare s1 s2 ≠ Gt → String.compare s2 s3 ≠ Gt → String.compare s1 s3 ≠ Gt.
Proof.
  revert s2 s3. induction s1 as [|a s1 IH]; intros [|b s2] [|c s3]; simpl; try done.
  unfold Ascii.compare.
  destruct (N.compare_spec (N_of_ascii a) (N_of_ascii b)),
    (N.compare_spec (N_of_ascii b) (N_of_ascii c)),
    (N.compare_spec (N_of_ascii a) (N_of_ascii c)); try done; try lia.
  apply IH.
Qed.

#[global] Instance compare_total : TotalCmp String.compare.
Proof. split; [apply String.compare_antisym|apply compare_trans]. Qed.

Lemma compare_eq s1 s2 : String.compare s1 s2 = Eq ↔ s1 = s2.
Proof. split; [apply String.compare_eq_iff|]. intros ->. apply compare_refl. Qed.
End Str.

(** ** Boolean filters *)

Lemma filter_filter {A} (f g : A → bool) l :
  List.filter f (List.filter g l) = List.filter (λ x, f x && g x) l.
Proof.
  induction l as [|x l IH]; simpl; [done|].
  destruct (g x); simpl; rewrite IH; by destruct (f x).
Qed.

Lemma filter_filter_comm {A} (f g : A → bool) l :
  List.filter f (List.filter g l) = List.filter g (List.filter f l).
Proof.
  rewrite !filter_filter. apply List.filter_ext. intros x. apply andb_comm.
Qed.

Lemma filter_none {A} (f : A → bool) l :
  (∀ x, x ∈ l → f x = false) → List.filter f l = [].
Proof.
  induction l as [|x l IH]; intros Hf; simpl; [done|].
  rewrite Hf by constructor. apply IH. intros y Hy. apply Hf. by constructor.
Qed.

Lemma filter_all {A} (f : A → bool) l :
  (∀ x, x ∈ l → f x = true) → List.filter f l = l.
Proof.
  induction l as [|x l IH]; intros Hf; simpl; [done|].
  rewrite Hf by constructor. f_equal. apply IH. intros y Hy. apply Hf. by constructor.
Qed.

(** Membership of a list of strings, as the code tests it. *)
Lemma existsb_eqb (x : string) l : existsb (String.eqb x) l = true ↔ x ∈ l.
Proof.
  rewrite existsb_exists. setoid_rewrite String.eqb_eq. setoid_rewrite <- list_elem_of_In.
  naive_solver.
Qed.

Lemma existsb_eqb_false (x : string) l : existsb (String.eqb x) l = false ↔ x ∉ l.
Proof. by rewrite <- not_true_iff_false, existsb_eqb. Qed.

Lemma filter_length_lt {A} (f g : A → bool) l x :
  (∀ y, g y = true → f y = true) → x ∈ l → f x = true → g x = false →
  (length (List.filter g l) < length (List.filter f l))%nat.
Proof.
  intros Hfg Hx Hf Hg.
  assert (∀ l, length (List.filter g l) <= length (List.filter f l))%nat as Hle.
  { clear l Hx. intros l. induction l as [|y l IH]; [done|]. cbn [List.filter]. specialize (Hfg y).
    destruct (g y); [rewrite Hfg by done; cbn [length]; lia|destruct (f y); cbn [length]; lia]. }
  induction l as [|y l IH]; [by apply not_elem_of_nil in Hx|]. cbn [List.filter].
  apply elem_of_cons in Hx as [<-|Hx].
  - rewrite Hf, Hg. specialize (Hle l). cbn [length]. lia.
  - specialize (IH Hx). specialize (Hfg y).
    destruct (g y); [rewrite Hfg by done; cbn [length]; lia|destruct (f y); cbn [length]; lia].
Qed.

Lemma filter_perm {A} (f : A → bool) (l l' : list A) :
  l ≡ₚ l' → List.filter f l ≡ₚ List.filter f l'.
Proof.
  induction 1 as [|x l l' _ IH|x y l|l1 l2 l3 _ IH1 _ IH2]; simpl; [done|..].
  - by destruct (f x); [constructor|].
  - destruct (f x), (f y); try done. constructor.
  - by transitivity (List.filter f l2).
Qed.

(** [find] only looks at elements that can match. *)
Lemma find_filter {A} (f g : A → bool) l :
  (∀ x, f x = true → g x = true) → List.find f (List.filter g l) = List.find f l.
Proof.
  intros Hfg. induction l as [|x l IH]; simpl; [done|].
  destruct (f x) eqn:Ef; [rewrite (Hfg _ Ef); simpl; by rewrite Ef|].
  destruct (g x); simpl; [by rewrite Ef|done].
Qed.

Lemma find_app {A} (f : A → bool) l1 l2 :
  List.find f (l1 ++ l2) =
  match List.find f l1 with Some x => Some x | None => List.find f l2 end.
Proof. induction l1 as [|x l1 IH]; simpl; [done|]. by destruct (f x). Qed.

Section sort_filter.
Context {A : Type} (cmp : A → A → comparison) `{!TotalCmp cmp}.

Lemma StronglySorted_filter (R : A → A → Prop) (f : A → bool) l :
  StronglySorted R l → StronglySorted R (List.filter f l).
Proof.
  induction 1 as [|x l Hl IH Hx]; simpl; [constructor|].
  destruct (f x); [constructor|]; try done.
  rewrite Forall_forall in *. intros y Hy. apply Hx.
  rewrite list_elem_of_In in *. by apply filter_In in Hy as [? _].
Qed.

(** Filtering a sorted list is sorting the filtered one. *)
Lemma filter_sort_by (f : A → bool) l :
  List.filter f (sort_by cmp l) = sort_by cmp (List.filter f l).
Proof.
  apply (sorted_classes_eq cmp);
    [apply StronglySorted_filter, sort_by_sorted; done|apply sort_by_sorted; done|].
  intros k.
  by rewrite sort_by_stable, filter_filter_comm, sort_by_stable, filter_filter_comm
    by done.
Qed.

(** If everything of [l1] precedes everything of [l2], the sort is a concatenation. *)
Lemma sort_by_app l1 l2 :
  (∀ x y, x ∈ l1 → y ∈ l2 → cmp x y = Lt) →
  sort_by cmp (l2 ++ l1) = sort_by cmp l1 ++ sort_by cmp l2.
Proof.
  intros Hlt. apply (sorted_classes_eq cmp); [by apply sort_by_sorted| |].
  - assert (∀ x y, x ∈ sort_by cmp l1 → y ∈ sort_by cmp l2 → cmp x y = Lt) as Hlt'.
    { intros x y. rewrite !(sort_by_perm cmp). apply Hlt. }
    pose proof (sort_by_sorted cmp l2) as Hs2.
    pose proof (sort_by_sorted cmp l1) as Hs1. clear Hlt.
    induction Hs1 as [|x l Hl IH Hx]; simpl; [done|].
    constructor; [apply IH; intros; apply Hlt'; [by constructor|done]|].
    apply Forall_app. split; [done|]. apply Forall_forall. intros y Hy.
    unfold le_by. rewrite (Hlt' x y); [done|constructor|done].
  - intros k. rewrite sort_by_stable by done. rewrite !List.filter_app, !sort_by_stable by done.
    destruct (List.filter (equiv_by cmp k) l1) as [|a l1'] eqn:E1; [by rewrite app_nil_r|].
    destruct (List.filter (equiv_by cmp k) l2) as [|b l2'] eqn:E2; [by rewrite app_nil_r|].
    assert (a ∈ l1 ∧ equiv_by cmp k a = true) as [Ha Hka].
    { apply (filter_equiv_elem cmp). rewrite E1. constructor. }
    assert (b ∈ l2 ∧ equiv_by cmp k b = true) as [Hb Hkb].
    { apply (filter_equiv_elem cmp). rewrite E2. constructor. }
    specialize (Hlt a b Ha Hb).
    apply (equiv_by_le cmp) in Hka as [? ?]. apply (equiv_by_le cmp) in Hkb as [? ?].
    assert (le_by cmp b a) as Hba by (by apply (cmp_eq_trans cmp b k a)).
    unfold le_by in Hba. rewrite (cmp_antisym cmp b a), Hlt in Hba. done.
Qed.
End sort_filter.

(** ** Characters

    [Str.chars s] is [s.chars()]: the encoding of each scalar value.  A byte
    [10xxxxxx] continues the character before it. *)
Module Chars.
Local Open Scope string_scope.

Definition is_continuation (c : ascii) : bool := Str.in_range 128 191 c.

Fixpoint chars (s : string) : list string :=
  match s with
  | "" => []
  | String c s' =>
    match chars s' with
    | (String d _ as p) :: ps =>
      if is_continuation d then String c p :: ps else String c "" :: p :: ps
    | ps => String c "" :: ps
    end
  end.

Fixpoint concat (l : list string) : string :=
  match l with [] => "" | p :: ps => p +:+ concat ps end.

Definition bytes (l : list N) : string :=
  string_of_list_ascii (List.map ascii_of_N l).

(** [char::is_whitespace]: Unicode [White_Space]. *)
Definition whitespace : list string :=
  List.map bytes
    ([[9]; [10]; [11]; [12]; [13]; [32]; [194; 133]; [194; 160]; [225; 154; 128];
      [226; 128; 168]; [226; 128; 169]; [226; 128; 175]; [226; 129; 159];
      [227; 128; 128]]%N ++
     List.map (λ k, [226; 128; k]%N)
       [128; 129; 130; 131; 132; 133; 134; 135; 136; 137; 138]%N).
Definition is_whitespace (ch : string) : bool := existsb (String.eqb ch) whitespace.

Fixpoint drop_while (f : string → bool) (l : list string) : list string :=
  match l with
  | x :: l' => if f x then drop_while f l' else l
  | [] => []
  end.
Definition trim (s : string) : string :=
  concat (rev (drop_while is_whitespace (rev (drop_while is_whitespace (chars s))))).

(** [s.trim_matches(c)] for an ASCII character [c]. *)
Definition trim_matches (c : ascii) (s : string) : string :=
  let f ch := String.eqb ch (String c "") in
  concat (rev (drop_while f (rev (drop_while f (chars s))))).

Lemma chars_not_empty s p ps : chars s = p :: ps → p ≠ "".
Proof.
  destruct s as [|c s]; simpl; [done|].
  destruct (chars s) as [|[|d q] qs]; try (intros [= <- <-]; done).
  destruct (is_continuation d); intros [= <- <-]; done.
Qed.

Lemma concat_chars s : concat (chars s) = s.
Proof.
  induction s as [|c s IH]; [done|]. cbn [chars].
  destruct (chars s) as [|p ps]; [by rewrite <- IH|].
  destruct p as [|d q]; [by rewrite <- IH|].
  destruct (is_continuation d); by rewrite <- IH.
Qed.

(** [s.split_once(p)]. *)
Fixpoint split_once (p s : string) : option (string * string) :=
  match Str.strip_prefix p s with
  | Some r => Some ("", r)
  | None =>
    match s with
    | "" => None
    | String c s' =>
      match split_once p s' with
      | Some (a, b) => Some (String c a, b)
      | None => None
      end
    end
  end.

(** [s.rsplit_once(c)]. *)
Fixpoint rsplit_once (c : ascii) (s : string) : option (string * string) :=
  match s with
  | "" => None
  | String b s' =>
    match rsplit_once c s' with
    | Some (x, y) => Some (String b x, y)
    | None => if Ascii.eqb b c then Some ("", s') else None
    end
  end.
End Chars.

(** ** Parsing unsigned integers

    [s.parse::<uN>()]: an optional [+], then at least one digit, and the value in
    range. *)
Module ParseInt.
Local Open Scope string_scope.
Local Open Scope Z_scope.

Fixpoint digits (acc : Z) (s : string) : option Z :=
  match s with
  | "" => Some acc
  | String c s' =>
    if Str.is_ascii_digit c
    then digits (10 * acc + (Z.of_N (N_of_ascii c) - 48)) s'
    else None
  end.

Definition unsigned (max : Z) (s : string) : option Z :=
  let s := match s with String "+" s' => s' | _ => s end in
  match s with
  | "" => None
  | _ => match digits 0 s with
         | Some n => if n <=? max then Some n else None
         | None => None
         end
  end.
Definition u8 : string → option Z := unsigned 255.
Definition u16 : string → option Z := unsigned 65535.
End ParseInt.

(** ** Iterator folds *)

(** [iter.min_by_key(f)]: the first of the minimal elements. *)
Fixpoint min_by_key {A} (key : A → Z) (l : list A) : option A :=
  match l with
  | [] => None
  | x :: l' =>
    match min_by_key key l' with
    | None => Some x
    | Some y => if (key x <=? key y)%Z then Some x else Some y
    end
  end.

Lemma min_by_key_None {A} (key : A → Z) l : min_by_key key l = None ↔ l = [].
Proof.
  destruct l as [|x l]; simpl; [done|].
  destruct (min_by_key key l) as [y|]; [destruct (_ <=? _)%Z|]; done.
Qed.

Lemma min_by_key_Some {A} (key : A → Z) l x :
  min_by_key key l = Some x → x ∈ l ∧ ∀ y, y ∈ l → (key x <= key y)%Z.
Proof.
  revert x. induction l as [|a l IH]; intros x; simpl; [done|].
  destruct (min_by_key key l) as [y|] eqn:E.
  - destruct (IH y eq_refl) as [Hy Hmin].
    destruct (Z.leb_spec (key a) (key y)); intros [= <-].
    + split; [constructor|]. intros z [->|Hz]%elem_of_cons; [lia|]. apply Hmin in Hz. lia.
    + split; [by constructor|]. intros z [->|Hz]%elem_of_cons; [lia|auto].
  - apply min_by_key_None in E as ->. intros [= <-].
    split; [constructor|]. by intros z ->%list_elem_of_singleton.
Qed.

Definition sumZ (l : list Z) : Z := foldr Z.add 0%Z l.
Definition maxZ (l : list Z) : option Z :=
  match l with [] => None | x :: l' => Some (foldl Z.max x l') end.


(** ** Lists without duplicates *)

Lemma NoDup_fmap_elem {A B} (f : A → B) l x y :
  NoDup (f <$> l) → x ∈ l → y ∈ l → f x = f y → x = y.
Proof.
  intros Hnd [i Hi]%list_elem_of_lookup [k Hk]%list_elem_of_lookup Hf.
  assert (i = k) as ->; [|congruence].
  apply (NoDup_lookup _ _ _ (f y) Hnd); rewrite list_lookup_fmap;
    [rewrite Hi|rewrite Hk]; simpl; congruence.
Qed.

Lemma NoDup_omap_elem {A B} (f : A → option B) l x y b :
  NoDup (omap f l) → x ∈ l → y ∈ l → f x = Some b → f y = Some b → x = y.
Proof.
  induction l as [|a l IH]; simpl; [by intros _ ?%not_elem_of_nil|].
  assert (∀ z, z ∈ l → f z = Some b → b ∈ omap f l) as Hin
    by (intros z Hz Hf; apply list_elem_of_omap; eauto).
  rewrite !elem_of_cons. intros Hnd [->|Hx] [->|Hy] Hfx Hfy; try done.
  - rewrite Hfx in Hnd. apply NoDup_cons in Hnd as [Hn _]. destruct Hn. eauto.
  - rewrite Hfy in Hnd. apply NoDup_cons in Hnd as [Hn _]. destruct Hn. eauto.
  - apply IH; try done. destruct (f a); [by apply NoDup_cons in Hnd as [_ ?]|done].
Qed.

Lemma list_alter_Some {A} (f : A → A) (l : list A) (i : nat) x : l !! i = Some x → alter f i l = <[i := f x]> l.
Proof.
  intros H. apply list_eq. intros j. pose proof (lookup_lt_Some _ _ _ H).
  destruct (decide (i = j)) as [<-|Hne].
  - by rewrite list_lookup_alter_eq, list_lookup_insert_eq, H.
  - by rewrite list_lookup_alter_ne, list_lookup_insert_ne.
Qed.

(** ** Trimming *)

Module Trim.
Import Chars.
Local Open Scope string_scope.
Local Open Scope list_scope.

(** A character is a byte followed by continuation bytes; only the first of a string
    may be a stray continuation byte. *)
Definition wf_char (p : string) : Prop :=
  ∃ c q, p = String c q ∧ Str.all is_continuation q = true ∧ is_continuation c = false.
Definition wf_chars (l : list string) : Prop :=
  match l with
  | [] => True
  | p :: l' => (∃ c q, p = String c q ∧ Str.all is_continuation q = true) ∧ Forall wf_char l'
  end.

Lemma wf_chars_of_char l : Forall wf_char l → wf_chars l.
Proof.
  destruct l as [|p l]; [done|]. intros [(c & q & -> & Hq & _) Hl]%Forall_cons.
  split; [by exists c, q|done].
Qed.

Lemma wf_chars_app l1 l2 : wf_chars (l1 ++ l2) → wf_chars l1 ∧ wf_chars l2.
Proof.
  destruct l1 as [|p l1]; simpl; [done|]. intros [Hp [H1 H2]%Forall_app].
  split; [done|]. by apply wf_chars_of_char.
Qed.

Lemma chars_wf s : wf_chars (chars s).
Proof.
  induction s as [|c s IH]; [done|]. cbn [chars].
  destruct (chars s) as [|[|d q] ps]; simpl in IH.
  - split; [by exists c, ""|done].
  - by destruct IH as [(? & ? & ? & _) _].
  - destruct IH as [(d' & q' & [= <- <-] & Hq) Hps].
    destruct (is_continuation d) eqn:Ed.
    + split; [|done]. exists c, (String d q). split; [done|]. simpl. by rewrite Ed.
    + split; [by exists c, ""|]. constructor; [by exists d, q|done].
Qed.

Lemma chars_char c q rest :
  Str.all is_continuation q = true → Forall wf_char (chars rest) →
  chars (String c (q +:+ rest)) = String c q :: chars rest.
Proof.
  intros Hq Hrest. revert c. induction q as [|d q IH]; intros c.
  - cbn [chars]. change ("" +:+ rest) with rest.
    destruct (chars rest) as [|p ps]; [done|].
    apply Forall_cons in Hrest as [(d & q & -> & _ & Hd) _]. by rewrite Hd.
  - simpl in Hq. apply andb_true_iff in Hq as [Hd Hq].
    change (String d q +:+ rest) with (String d (q +:+ rest)).
    change (chars (String c (String d (q +:+ rest)))) with
      (match chars (String d (q +:+ rest)) with
       | (String e _ as p) :: ps =>
         if is_continuation e then String c p :: ps else String c "" :: p :: ps
       | ps => String c "" :: ps
       end).
    by rewrite IH, Hd.
Qed.

Lemma chars_of_wf l : Forall wf_char l → chars (concat l) = l.
Proof.
  induction 1 as [|p l (c & q & -> & Hq & Hc) Hl IH]; [done|].
  change (concat (String c q :: l)) with (String c (q +:+ concat l)).
  rewrite chars_char; [by rewrite IH|done|by rewrite IH].
Qed.

Lemma chars_concat l : wf_chars l → chars (concat l) = l.
Proof.
  destruct l as [|p l]; [done|]. intros [(c & q & -> & Hq) Hl].
  change (concat (String c q :: l)) with (String c (q +:+ concat l)).
  rewrite chars_char, chars_of_wf; [done..|]. by rewrite chars_of_wf.
Qed.

Definition trim_list (f : string → bool) (l : list string) : list string :=
  rev (drop_while f (rev (drop_while f l))).

Lemma drop_while_suffix f l : ∃ l0, l = l0 ++ drop_while f l.
Proof.
  induction l as [|x l [l0 IH]]; simpl; [by exists []|].
  destruct (f x); [exists (x :: l0); simpl; congruence|by exists []].
Qed.

Lemma drop_while_head f l x l' : drop_while f l = x :: l' → f x = false.
Proof.
  induction l as [|y l IH]; simpl; [done|]. destruct (f y) eqn:E; [done|]. by intros [= <- _].
Qed.

Lemma trim_list_parts f l : ∃ l0 l1, l = l0 ++ trim_list f l ++ l1.
Proof.
  unfold trim_list. destruct (drop_while_suffix f l) as [l0 H0].
  destruct (drop_while_suffix f (rev (drop_while f l))) as [l1 H1].
  exists l0, (rev l1). rewrite <- rev_app_distr, <- H1, rev_involutive. exact H0.
Qed.

Lemma drop_while_idem f l : drop_while f (drop_while f l) = drop_while f l.
Proof.
  destruct (drop_while f l) as [|x l'] eqn:E; [done|]. simpl.
  by rewrite (drop_while_head _ _ _ _ E).
Qed.

Lemma trim_list_idem f l : trim_list f (trim_list f l) = trim_list f l.
Proof.
  assert (drop_while f (trim_list f l) = trim_list f l) as Hd.
  { unfold trim_list. destruct (drop_while_suffix f (rev (drop_while f l))) as [l1 H1].
    apply (f_equal (@rev _)) in H1. rewrite rev_involutive, rev_app_distr in H1.
    destruct (rev (drop_while f (rev (drop_while f l)))) as [|x l'] eqn:E; [done|].
    simpl in *. by rewrite (drop_while_head f l x (l' ++ rev l1) H1). }
  unfold trim_list at 1. rewrite Hd. unfold trim_list. by rewrite rev_involutive, drop_while_idem.
Qed.

Lemma trim_as_list s : trim s = concat (trim_list is_whitespace (chars s)).
Proof. done. Qed.

Lemma chars_trim s : chars (trim s) = trim_list is_whitespace (chars s).
Proof.
  rewrite trim_as_list. apply chars_concat.
  destruct (trim_list_parts is_whitespace (chars s)) as (l0 & l1 & E).
  pose proof (chars_wf s) as Hw. rewrite E in Hw.
  apply wf_chars_app in Hw as [_ Hw]. by apply wf_chars_app in Hw as [Hw _].
Qed.

Lemma trim_trim s : trim (trim s) = trim s.
Proof. by rewrite (trim_as_list (trim s)), chars_trim, trim_list_idem. Qed.

Lemma length_append s t : String.length (s +:+ t) = (String.length s + String.length t)%nat.
Proof. induction s as [|c s IH]; [done|]. simpl. by rewrite IH. Qed.

Lemma string_length_concat l : String.length (concat l) = list_sum (String.length <$> l).
Proof. induction l as [|p l IH]; simpl; [done|]. by rewrite length_append, IH. Qed.

Lemma trim_length s : (String.length (trim s) <= String.length s)%nat.
Proof.
  rewrite <- (concat_chars s) at 2. rewrite trim_as_list, !string_length_concat.
  destruct (trim_list_parts is_whitespace (chars s)) as (l0 & l1 & E).
  rewrite E at 2. rewrite !fmap_app, !list_sum_app. lia.
Qed.

(** *** Byte maps that leave whitespace alone *)

(** A byte map that moves letters among letters. *)
Definition letters_only (f : ascii → ascii) : Prop :=
  ∀ c, f c = c ∨ (Str.is_ascii_alphabetic c = true ∧ Str.is_ascii_alphabetic (f c) = true).

Lemma letter_not_continuation c : Str.is_ascii_alphabetic c = true → is_continuation c = false.
Proof. destruct c as [[] [] [] [] [] [] [] []]; vm_compute; congruence. Qed.

Lemma map_continuation f c : letters_only f → is_continuation (f c) = is_continuation c.
Proof.
  intros Hf. destruct (Hf c) as [->|[H1 H2]]; [done|].
  by rewrite !letter_not_continuation.
Qed.

Lemma chars_map f s : letters_only f → chars (Str.map f s) = Str.map f <$> chars s.
Proof.
  intros Hf. induction s as [|c s IH]; [done|]. cbn [Str.map chars]. rewrite IH.
  destruct (chars s) as [|[|d q] ps]; [done|done|]. simpl.
  rewrite map_continuation by done. by destruct (is_continuation d).
Qed.

Lemma map_eqb f s w :
  letters_only f → Str.all (λ d, negb (Str.is_ascii_alphabetic d)) w = true →
  String.eqb (Str.map f s) w = String.eqb s w.
Proof.
  intros Hf. revert w. induction s as [|c s IH]; intros [|d w] Hw; try done.
  simpl in Hw. apply andb_true_iff in Hw as [Hd Hw]. cbn [Str.map String.eqb].
  rewrite IH by done. apply negb_true_iff in Hd.
  destruct (Hf c) as [->|[H1 H2]]; [done|].
  destruct (Ascii.eqb_spec (f c) d), (Ascii.eqb_spec c d); congruence.
Qed.

Lemma map_whitespace f ch : letters_only f → is_whitespace (Str.map f ch) = is_whitespace ch.
Proof.
  intros Hf. unfold is_whitespace.
  assert (forallb (Str.all (λ d, negb (Str.is_ascii_alphabetic d))) whitespace = true) as Hw
    by (vm_compute; reflexivity).
  induction whitespace as [|w ws IH]; [done|]. cbn [existsb forallb] in *.
  apply andb_true_iff in Hw as [Hw Hws]. by rewrite map_eqb, IH.
Qed.

Lemma concat_map f l : concat (Str.map f <$> l) = Str.map f (concat l).
Proof.
  induction l as [|p l IH]; [done|]. cbn [fmap list_fmap concat]. rewrite IH. clear IH.
  induction p as [|c p IH]; [done|]. cbn [Str.map]. simpl. by rewrite <- IH.
Qed.

Lemma drop_while_map (f : ascii → ascii) l :
  letters_only f →
  drop_while is_whitespace (Str.map f <$> l) = Str.map f <$> drop_while is_whitespace l.
Proof.
  intros Hf. induction l as [|p l IH]; [done|]. simpl. rewrite map_whitespace by done.
  by destruct (is_whitespace p).
Qed.

Lemma rev_fmap {A B} (g : A → B) l : rev (g <$> l) = g <$> rev l.
Proof. symmetry. apply (List.map_rev g l). Qed.

Lemma trim_map f s : letters_only f → trim (Str.map f s) = Str.map f (trim s).
Proof.
  intros Hf. rewrite !trim_as_list, chars_map by done. unfold trim_list.
  by rewrite drop_while_map, rev_fmap, drop_while_map, rev_fmap, concat_map.
Qed.

Lemma lower_letters : letters_only Str.lower.
Proof. intros c. destruct c as [[] [] [] [] [] [] [] []]; vm_compute; auto. Qed.
Lemma upper_letters : letters_only Str.upper.
Proof. intros c. destruct c as [[] [] [] [] [] [] [] []]; vm_compute; auto. Qed.

Lemma lower_lower s : Str.to_ascii_lowercase (Str.to_ascii_lowercase s) = Str.to_ascii_lowercase s.
Proof.
  unfold Str.to_ascii_lowercase. induction s as [|c s IH]; [done|]. cbn [Str.map]. rewrite IH.
  f_equal. destruct c as [[] [] [] [] [] [] [] []]; reflexivity.
Qed.
Lemma upper_upper s : Str.to_ascii_uppercase (Str.to_ascii_uppercase s) = Str.to_ascii_uppercase s.
Proof.
  unfold Str.to_ascii_uppercase. induction s as [|c s IH]; [done|]. cbn [Str.map]. rewrite IH.
  f_equal. destruct c as [[] [] [] [] [] [] [] []]; reflexivity.
Qed.

(** *** Printable ASCII *)

Definition is_graph : ascii → bool := Str.in_range 33 126.

Lemma graph_char c : is_graph c = true → is_continuation c = false ∧ is_whitespace (String c "") = false.
Proof. destruct c as [[] [] [] [] [] [] [] []]; vm_compute; auto; discriminate. Qed.

Lemma trim_list_none f l : Forall (λ x, f x = false) l → trim_list f l = l.
Proof.
  assert (∀ l, Forall (λ x, f x = false) l → drop_while f l = l) as Hd.
  { intros l' Hl'. destruct Hl' as [|x l' Hx _]; [done|]. simpl. by rewrite Hx. }
  intros Hl. unfold trim_list. rewrite (Hd l), Hd, rev_involutive; [done| |done].
  by apply Forall_rev.
Qed.

Lemma graph_chars s : Str.all is_graph s = true → Forall (λ ch, is_whitespace ch = false) (chars s) ∧
  Forall wf_char (chars s).
Proof.
  induction s as [|c s IH]; [done|]. cbn [Str.all chars]. intros [Hc Hs]%andb_true_iff.
  destruct (IH Hs) as [Hw Hf]. apply graph_char in Hc as [Hcont Hws].
  assert (wf_char (String c "")) by by exists c, "".
  destruct (chars s) as [|p ps]; [by repeat constructor|].
  pose proof Hf as [(d & q & -> & _ & Hd) _]%Forall_cons. rewrite Hd.
  split; constructor; done.
Qed.

Lemma trim_graph s : Str.all is_graph s = true → trim s = s.
Proof.
  intros Hs. rewrite trim_as_list, trim_list_none; [apply concat_chars|by apply graph_chars].
Qed.
End Trim.

(** ** A text codec for every countable type

    What a serializer promises, that reading back what was written gives the value, holds of
    this one; it stands for the serializer where a theorem about files is instantiated. *)
Module Codec.

Fixpoint bits (p : positive) : string :=
  match p with
  | xH => ""
  | xO p => String "0" (bits p)
  | xI p => String "1" (bits p)
  end.
Fixpoint number (s : string) : positive :=
  match s with
  | "" => xH
  | String c s => if Ascii.eqb c "1" then xI (number s) else xO (number s)
  end.

Lemma number_bits p : number (bits p) = p.
Proof. induction p as [p IH|p IH|]; simpl; congruence. Qed.

Definition to_text {A} `{Countable A} (a : A) : string := bits (encode a).
Definition of_text {A} `{Countable A} (s : string) : option A := decode (number s).

Lemma of_to_text {A} `{Countable A} (a : A) : of_text (to_text a) = Some a.
Proof. unfold of_text, to_text. by rewrite number_bits, decode_encode. Qed.
End Codec.
