(* ===== verification/LbRoutes.v ===== *)
(** * Request routing: [app-lb/src/config.rs] ([RouteRule]) and
      [app-lb/src/registry.rs] ([RouteTable])

    A deployment declares routing rules; the registry indexes them by exact host
    so that one request costs one hash lookup.  The index is maintained
    incrementally ([updated]); [build] is the full rebuild it must agree with, and
    [flat_resolve] is the abstract specification: the first match in one list of
    every rule, most specific first. *)
From Stdlib Require Import Ascii String ZArith Lia Bool Sorting.Sorted.
From stdpp Require Import base option list strings gmap fin_maps.
From S2P Require Import Prelude.
Open Scope string_scope.
Open Scope list_scope.

(** ** Rules *)

Record RouteRule : Type := {
  host : option string;
  host_suffix : option string;
  path_prefix : option string;
  strip_prefix : bool;
}.

Definition is_empty (r : RouteRule) : bool :=
  negb (is_some (host r)) && negb (is_some (host_suffix r)) &&
  negb (is_some (path_prefix r)).

Definition len (s : string) : N := N.of_nat (String.length s).

Definition specificity (r : RouteRule) : N :=
  ((if is_some (host r) then 1000000 else 0) +
   (match host_suffix r with
    | Some s => 100000 + len (Str.trim_start_matches "." s)
    | None => 0
    end) +
   (match path_prefix r with Some p => len p | None => 0 end))%N.

Definition host_in_domain (host suffix : string) : bool :=
  let suffix := Str.trim_start_matches "." suffix in
  let hl := String.length host in
  let sl := String.length suffix in
  if (sl =? 0)%nat then false
  else if Str.eq_ignore_ascii_case host suffix then true
  else (sl <? hl)%nat &&
       (match String.get (hl - sl - 1) host with
        | Some c => Ascii.eqb c "."
        | None => false
        end) &&
       Str.eq_ignore_ascii_case (Str.drop (hl - sl) host) suffix.

Definition matches (r : RouteRule) (h : option string) (path : string) : bool :=
  if is_empty r then false
  else
    (match host r with
     | Some want =>
       match h with Some got => Str.eq_ignore_ascii_case got want | None => false end
     | None => true
     end) &&
    (match host_suffix r with
     | Some suffix =>
       match h with Some got => host_in_domain got suffix | None => false end
     | None => true
     end) &&
    (match path_prefix r with
     | Some prefix => Str.starts_with prefix path
     | None => true
     end).

(** ** The route table *)

Definition RouteEntry : Type := RouteRule * string.

(** [by_specificity]: the most specific rule first, ties broken by id. *)
Definition by_specificity (a b : RouteEntry) : comparison :=
  match N.compare (specificity (fst b)) (specificity (fst a)) with
  | Eq => String.compare (snd a) (snd b)
  | c => c
  end.

Definition host_key (r : RouteRule) : option string :=
  Str.to_ascii_lowercase <$> host r.

Record RouteTable : Type := {
  exact : gmap string (list RouteEntry);
  rest : list RouteEntry;
}.

(** The part of a [Deployment] the table reads: [d.spec.id] and [d.spec.routes]. *)
Record RouteSource : Type := { spec_id : string; spec_routes : list RouteRule }.

Definition entries_of (d : RouteSource) : list RouteEntry :=
  List.map (λ r, (r, spec_id d)) (spec_routes d).

Definition push_entry (t : RouteTable) (e : RouteEntry) : RouteTable :=
  match host_key (fst e) with
  | Some h => {| exact := <[h := default [] (exact t !! h) ++ [e]]> (exact t);
                 rest := rest t |}
  | None => {| exact := exact t; rest := rest t ++ [e] |}
  end.

(** [RouteTable::build], over [deployments.values()] in the order it yields them. *)
Definition build_from (ds : list RouteSource) : RouteTable :=
  let t := foldl push_entry {| exact := ∅; rest := [] |} (flat_map entries_of ds) in
  {| exact := sort_by by_specificity <$> exact t;
     rest := sort_by by_specificity (rest t) |}.

Definition build (deployments : gmap string RouteSource) : RouteTable :=
  build_from ((map_to_list deployments).*2).

Definition touched_hosts (previous next : option (list RouteRule)) : gset string :=
  list_to_set (omap host_key (default [] previous ++ default [] next)).

Definition touches_rest (previous next : option (list RouteRule)) : bool :=
  existsb (λ r, negb (is_some (host_key r))) (default [] previous ++ default [] next).

(** One iteration of [updated]'s loop over the touched hosts. *)
Definition update_bucket (id : string) (next : option (list RouteRule))
    (ex : gmap string (list RouteEntry)) (h : string) : gmap string (list RouteEntry) :=
  let kept := List.filter (λ e, negb (String.eqb (snd e) id)) (default [] (ex !! h)) in
  let added :=
    List.map (λ r, (r, id))
      (List.filter (λ r, bool_decide (host_key r = Some h)) (default [] next)) in
  match kept ++ added with
  | [] => delete h ex
  | bucket => <[h := sort_by by_specificity bucket]> ex
  end.

Definition updated (t : RouteTable) (id : string)
    (previous next : option (list RouteRule)) : RouteTable :=
  let touched := touched_hosts previous next in
  let tr := touches_rest previous next in
  if bool_decide (touched = ∅) && negb tr then t
  else
    {| exact := foldl (update_bucket id next) (exact t) (elements touched);
       rest :=
         if tr then
           sort_by by_specificity
             (List.filter (λ e, negb (String.eqb (snd e) id)) (rest t) ++
              List.map (λ r, (r, id))
                (List.filter (λ r, negb (is_some (host r))) (default [] next)))
         else rest t |}.

Definition resolve (t : RouteTable) (h : option string) (path : string) : option string :=
  let first es := snd <$> List.find (λ e : RouteEntry, matches (fst e) h path) es in
  match
    match h with
    | Some host => exact t !! Str.to_ascii_lowercase host ≫= first
    | None => None
    end
  with
  | Some id => Some id
  | None => first (rest t)
  end.

(** ** Abstract specification: one list of every rule, first match wins *)

Definition flat_table (ds : list RouteSource) : list RouteEntry :=
  sort_by by_specificity (flat_map entries_of ds).

Definition flat_resolve (ds : list RouteSource) (h : option string) (path : string) :
    option string :=
  snd <$> List.find (λ e : RouteEntry, matches (fst e) h path) (flat_table ds).

(** ** Lemmas: the order and the buckets *)

#[global] Instance by_specificity_total : TotalCmp by_specificity.
Proof.
  split.
  - intros [a ai] [b bi]. unfold by_specificity; simpl.
    rewrite (N.compare_antisym (specificity b) (specificity a)).
    destruct (N.compare _ _); simpl; try done. apply (cmp_antisym String.compare).
  - intros [a ai] [b bi] [c ci]. unfold by_specificity; simpl.
    destruct (N.compare_spec (specificity b) (specificity a)),
      (N.compare_spec (specificity c) (specificity b)),
      (N.compare_spec (specificity c) (specificity a)); try done; try lia.
    apply (cmp_eq_trans String.compare).
Qed.

Lemma equiv_same_id k e : equiv_by by_specificity k e = true → snd e = snd k.
Proof.
  unfold equiv_by, by_specificity.
  destruct (N.compare _ _); [|done..].
  destruct (String.compare (snd k) (snd e)) eqn:E; [|done..].
  apply Str.compare_eq in E. done.
Qed.

Definition has_key (k : option string) (e : RouteEntry) : bool :=
  bool_decide (host_key (fst e) = k).

Definition bucket_of (es : list RouteEntry) : option (list RouteEntry) :=
  match es with [] => None | _ => Some (sort_by by_specificity es) end.

Lemma bucket_of_sorted es es' :
  sort_by by_specificity es = sort_by by_specificity es' → bucket_of es = bucket_of es'.
Proof.
  intros Hs. assert (length es = length es') as Hl.
  { by rewrite <- (Permutation_length (sort_by_perm by_specificity es)), Hs,
      (Permutation_length (sort_by_perm by_specificity es')). }
  destruct es, es'; simpl in *; congruence.
Qed.

Lemma push_entry_exact es t h :
  exact (foldl push_entry t es) !! h =
  match List.filter (has_key (Some h)) es with
  | [] => exact t !! h
  | new => Some (default [] (exact t !! h) ++ new)
  end.
Proof.
  revert t. induction es as [|e es IH]; intros t; simpl; [done|]. rewrite IH.
  unfold has_key at 2, push_entry.
  destruct (host_key (fst e)) as [h'|] eqn:Eh; cbn [exact].
  - destruct (decide (h' = h)) as [->|Hne].
    + rewrite bool_decide_true by done. rewrite lookup_insert_eq; simpl.
      destruct (List.filter _ es); [done|]. by rewrite <- app_assoc.
    + rewrite bool_decide_false by congruence. by rewrite lookup_insert_ne.
  - by rewrite bool_decide_false.
Qed.

Lemma push_entry_rest es t :
  rest (foldl push_entry t es) = rest t ++ List.filter (has_key None) es.
Proof.
  revert t. induction es as [|e es IH]; intros t; simpl; [by rewrite app_nil_r|].
  rewrite IH. unfold has_key at 2, push_entry.
  destruct (host_key (fst e)); simpl; [done|]. by rewrite <- app_assoc.
Qed.

Lemma build_from_exact ds h :
  exact (build_from ds) !! h =
  bucket_of (List.filter (has_key (Some h)) (flat_map entries_of ds)).
Proof.
  simpl. rewrite lookup_fmap, push_entry_exact; simpl. rewrite lookup_empty; simpl.
  by destruct (List.filter _ _).
Qed.

Lemma build_from_rest ds :
  rest (build_from ds) =
  sort_by by_specificity (List.filter (has_key None) (flat_map entries_of ds)).
Proof. simpl. by rewrite push_entry_rest. Qed.

(** A predicate that only holds of one deployment's rules sees only those rules. *)
Lemma filter_entries_one (P : RouteEntry → bool) i ds :
  (∀ e, P e = true → snd e = i) → NoDup (spec_id <$> ds) →
  List.filter P (flat_map entries_of ds) =
  match List.find (λ d, String.eqb (spec_id d) i) ds with
  | Some d => List.filter P (entries_of d)
  | None => []
  end.
Proof.
  intros HP. induction ds as [|d ds IH]; simpl; [done|].
  intros [Hd Hnd]%NoDup_cons. rewrite List.filter_app, IH by done.
  destruct (String.eqb_spec (spec_id d) i) as [Hi|Hi].
  - destruct (List.find _ ds) as [d'|] eqn:Ef; [|by rewrite app_nil_r].
    apply find_some in Ef as [Hin Hi']. apply String.eqb_eq in Hi'.
    destruct Hd. apply list_elem_of_fmap. exists d'.
    split; [congruence|by apply list_elem_of_In].
  - rewrite filter_none; [done|]. intros e He.
    destruct (P e) eqn:E; [|done]. apply HP in E.
    apply list_elem_of_In, in_map_iff in He as (r & <- & _). by destruct Hi.
Qed.

(** ** The registry's well-formedness: every deployment is stored under its own id *)

Definition registry_ok (m : gmap string RouteSource) : Prop :=
  map_Forall (λ i d, spec_id d = i) m.

Lemma registry_ok_ids m :
  registry_ok m → spec_id <$> (map_to_list m).*2 = (map_to_list m).*1.
Proof.
  intros Hm. rewrite <- list_fmap_compose. apply list_fmap_ext.
  intros k [i d] Hx. simpl. apply Hm, elem_of_map_to_list.
  by eapply list_elem_of_lookup_2.
Qed.

Lemma registry_ok_NoDup m : registry_ok m → NoDup (spec_id <$> (map_to_list m).*2).
Proof. intros Hm. rewrite registry_ok_ids by done. apply NoDup_fst_map_to_list. Qed.

Lemma registry_find m i :
  registry_ok m → List.find (λ d, String.eqb (spec_id d) i) ((map_to_list m).*2) = m !! i.
Proof.
  intros Hm. destruct (List.find _ _) as [d|] eqn:Ef.
  - apply find_some in Ef as [Hin Hi%String.eqb_eq].
    apply list_elem_of_In, list_elem_of_fmap in Hin as ([i' d'] & -> & Hin).
    apply elem_of_map_to_list in Hin. simpl in Hi. by rewrite <- Hi, (Hm _ _ Hin).
  - destruct (m !! i) as [d|] eqn:El; [|done].
    assert (In d (map_to_list m).*2) as Hin.
    { apply list_elem_of_In, list_elem_of_fmap. exists (i, d).
      split; [done|]. by apply elem_of_map_to_list. }
    apply (find_none _ _ Ef) in Hin. apply String.eqb_neq in Hin.
    by rewrite (Hm _ _ El) in Hin.
Qed.

Definition entries_at (m : gmap string RouteSource) (i : string) : list RouteEntry :=
  match m !! i with Some d => entries_of d | None => [] end.

Lemma filter_class_at (Q : RouteEntry → bool) k m :
  registry_ok m →
  List.filter (equiv_by by_specificity k) (List.filter Q (flat_map entries_of (map_to_list m).*2)) =
  List.filter (equiv_by by_specificity k) (List.filter Q (entries_at m (snd k))).
Proof.
  intros Hm. rewrite !filter_filter.
  rewrite (filter_entries_one _ (snd k)).
  - rewrite registry_find by done. unfold entries_at. by destruct (m !! snd k).
  - intros e [He _]%andb_true_iff. by apply equiv_same_id.
  - by apply registry_ok_NoDup.
Qed.

(** ** The incremental index is the rebuilt one *)

(** The registry after [id] declared [next] (or was removed). *)
Definition register (m : gmap string RouteSource) (id : string)
    (next : option (list RouteRule)) : gmap string RouteSource :=
  match next with
  | Some rules => <[id := {| spec_id := id; spec_routes := rules |}]> m
  | None => delete id m
  end.

Lemma register_ok m id next : registry_ok m → registry_ok (register m id next).
Proof.
  intros Hm. destruct next; [by apply map_Forall_insert_2|by apply map_Forall_delete].
Qed.

Definition entries_for (id : string) (rules : list RouteRule) : list RouteEntry :=
  List.map (λ r, (r, id)) rules.

Lemma entries_at_register m id next j :
  entries_at (register m id next) j =
  if decide (j = id) then entries_for id (default [] next) else entries_at m j.
Proof.
  unfold entries_at, register. destruct next; case_decide; subst; simplify_map_eq; done.
Qed.

Lemma entries_at_id m id :
  registry_ok m → entries_at m id = entries_for id (default [] (spec_routes <$> m !! id)).
Proof.
  intros Hm. unfold entries_at, entries_of, entries_for.
  destruct (m !! id) as [d|] eqn:E; [|done]. by rewrite (Hm _ _ E).
Qed.

Lemma filter_key_entries_for k id rules :
  List.filter (has_key k) (entries_for id rules) =
  entries_for id (List.filter (λ r, bool_decide (host_key r = k)) rules).
Proof.
  unfold entries_for. induction rules as [|r rules IH]; simpl; [done|].
  unfold has_key at 1; simpl. destruct (bool_decide _); simpl; by rewrite IH.
Qed.

Definition key_touched (k : option string) (previous next : option (list RouteRule)) : Prop :=
  ∃ r, r ∈ default [] previous ++ default [] next ∧ host_key r = k.

Lemma key_untouched_filter k previous next id :
  ¬ key_touched k previous next →
  List.filter (has_key k) (entries_for id (default [] previous)) = [] ∧
  List.filter (has_key k) (entries_for id (default [] next)) = [].
Proof.
  intros Hk. rewrite !filter_key_entries_for.
  split; rewrite filter_none; try done; intros r Hr; apply bool_decide_false;
    intros <-; apply Hk; exists r; rewrite elem_of_app; auto.
Qed.

Lemma elem_touched_hosts h previous next :
  h ∈ touched_hosts previous next ↔ key_touched (Some h) previous next.
Proof.
  unfold touched_hosts, key_touched. rewrite elem_of_list_to_set, list_elem_of_omap. done.
Qed.

Lemma touches_rest_spec previous next :
  touches_rest previous next = true ↔ key_touched None previous next.
Proof.
  unfold touches_rest, key_touched. rewrite existsb_exists.
  setoid_rewrite list_elem_of_In. split; intros (r & Hr & Hk); exists r; (split; [done|]);
    by destruct (host_key r).
Qed.

Lemma touched_empty previous next h :
  touched_hosts previous next = ∅ → ¬ key_touched (Some h) previous next.
Proof. intros He Hk%elem_touched_hosts. set_solver. Qed.

(** What one bucket must hold after the change. *)
Lemma bucket_changed m id next k :
  registry_ok m →
  sort_by by_specificity
    (List.filter (λ e, negb (String.eqb (snd e) id))
       (sort_by by_specificity
          (List.filter (has_key k) (flat_map entries_of (map_to_list m).*2))) ++
     List.filter (has_key k) (entries_for id (default [] next))) =
  sort_by by_specificity
    (List.filter (has_key k)
       (flat_map entries_of (map_to_list (register m id next)).*2)).
Proof.
  intros Hm. apply (sort_by_classes_eq by_specificity). intros c.
  rewrite filter_class_at by by apply register_ok.
  rewrite List.filter_app, filter_filter_comm, sort_by_stable by apply _.
  rewrite filter_class_at by done. rewrite entries_at_register.
  assert (∀ l, (∀ e, e ∈ l → snd e ≠ snd c) →
          List.filter (equiv_by by_specificity c) l = []) as Hother.
  { intros l Hl. apply filter_none. intros e He.
    destruct (equiv_by _ c e) eqn:Eq; [|done].
    apply equiv_same_id in Eq. by destruct (Hl e He). }
  destruct (decide (snd c = id)) as [Hc|Hc].
  - rewrite filter_none; [done|]. intros e He.
    apply filter_equiv_elem in He as [_ He%equiv_same_id].
    by rewrite He, Hc, String.eqb_refl.
  - rewrite (Hother (List.filter (has_key k) (entries_for id _))).
    + rewrite app_nil_r. apply filter_all. intros e He.
      apply filter_equiv_elem in He as [_ He%equiv_same_id].
      rewrite He. by apply negb_true_iff, String.eqb_neq.
    + intros e [He _]%list_elem_of_In%filter_In. apply in_map_iff in He as (r & <- & _).
      simpl. congruence.
Qed.

Lemma bucket_unchanged m id next k :
  registry_ok m → ¬ key_touched k (spec_routes <$> m !! id) next →
  sort_by by_specificity
    (List.filter (has_key k) (flat_map entries_of (map_to_list m).*2)) =
  sort_by by_specificity
    (List.filter (has_key k)
       (flat_map entries_of (map_to_list (register m id next)).*2)).
Proof.
  intros Hm Hk. apply (sort_by_classes_eq by_specificity). intros c.
  rewrite !filter_class_at by first [done|by apply register_ok].
  rewrite entries_at_register. case_decide as Hc; [|done].
  rewrite Hc, entries_at_id by done.
  destruct (key_untouched_filter k (spec_routes <$> m !! id) next id Hk) as [-> ->]. done.
Qed.

Lemma update_bucket_lookup id next ex h h' :
  update_bucket id next ex h !! h' =
  if decide (h' = h) then
    bucket_of (List.filter (λ e, negb (String.eqb (snd e) id)) (default [] (ex !! h)) ++
               List.filter (has_key (Some h)) (entries_for id (default [] next)))
  else ex !! h'.
Proof.
  unfold update_bucket. rewrite filter_key_entries_for. unfold entries_for.
  destruct (_ ++ _) as [|e es] eqn:E; case_decide; subst; simplify_map_eq; done.
Qed.

Lemma update_buckets_lookup id next hs ex h :
  NoDup hs →
  foldl (update_bucket id next) ex hs !! h =
  if decide (h ∈ hs) then
    bucket_of (List.filter (λ e, negb (String.eqb (snd e) id)) (default [] (ex !! h)) ++
               List.filter (has_key (Some h)) (entries_for id (default [] next)))
  else ex !! h.
Proof.
  intros Hnd. revert ex. induction Hnd as [|h' hs Hh' Hnd IH]; intros ex; cbn [foldl].
  { reflexivity. }
  rewrite IH, !update_bucket_lookup.
  repeat case_decide; subst; try done;
    repeat match goal with
           | H : _ ∉ _ :: _ |- _ => apply not_elem_of_cons in H as [??]
           | H : _ ∈ _ :: _ |- _ => apply elem_of_cons in H as [?|?]
           end; done.
Qed.

Lemma updated_build m id next :
  registry_ok m →
  updated (build m) id (spec_routes <$> m !! id) next = build (register m id next).
Proof.
  intros Hm. set (previous := spec_routes <$> m !! id).
  assert (∀ k, key_touched k previous next ∨ ¬ key_touched k previous next) as Hdec.
  { intros [h|]; [destruct (decide (h ∈ touched_hosts previous next)) as [H|H];
                  rewrite elem_touched_hosts in H; auto|].
    rewrite <- touches_rest_spec. destruct (touches_rest _ _); auto. }
  assert (∀ ex r, (∀ h, ex !! h = exact (build (register m id next)) !! h) →
             r = rest (build (register m id next)) →
             {| exact := ex; rest := r |} = build (register m id next)) as Hext.
  { intros ex r Hex ->. destruct (build (register m id next)) as [ex' r'] eqn:E.
    f_equal. by apply map_eq. }
  unfold updated. destruct (bool_decide (touched_hosts previous next = ∅) && _) eqn:Eu.
  - apply andb_true_iff in Eu as [He%bool_decide_eq_true Hr%negb_true_iff].
    rewrite <- (Hext (exact (build m)) (rest (build m))); [by destruct (build m)| |].
    + intros h. unfold build. rewrite !build_from_exact. apply bucket_of_sorted.
      by apply bucket_unchanged, touched_empty.
    + unfold build. rewrite !build_from_rest. apply bucket_unchanged; [done|].
      rewrite <- touches_rest_spec. fold previous. by rewrite Hr.
  - clear Eu. apply Hext.
    + intros h. rewrite update_buckets_lookup by apply NoDup_elements.
      unfold build. rewrite !build_from_exact. case_decide as Hh.
      * apply bucket_of_sorted. rewrite <- bucket_changed by done.
        by destruct (List.filter (has_key (Some h)) _).
      * apply bucket_of_sorted, bucket_unchanged; [done|].
        by rewrite <- elem_touched_hosts, <- elem_of_elements.
    + unfold build. rewrite !build_from_rest. destruct (touches_rest _ _) eqn:Er.
      * rewrite <- bucket_changed by done. rewrite filter_key_entries_for.
        unfold entries_for. do 3 f_equal. apply List.filter_ext. intros r.
        unfold host_key. by destruct (host r).
      * apply bucket_unchanged; [done|]. rewrite <- touches_rest_spec. fold previous. by rewrite Er.
Qed.

(** C32. Registering, replacing or removing one deployment through the incremental
    index gives exactly the table a full rebuild would give: same buckets, same
    order, no leftover and no missing rule. *)
Theorem updated_is_rebuild m id next :
  registry_ok m →
  updated (build m) id (spec_routes <$> m !! id) next = build (register m id next).
Proof. apply updated_build. Qed.

(** ** The two-level lookup is the flat first-match specification *)

(** A rule without an exact host scores below every rule with one. *)
Definition tiers_apart (ds : list RouteSource) : Prop :=
  Forall (λ e : RouteEntry, host (fst e) = None → (specificity (fst e) < 1000000)%N)
    (flat_map entries_of ds).

Lemma specificity_host r h : host r = Some h → (1000000 <= specificity r)%N.
Proof. unfold specificity. intros ->; simpl. lia. Qed.

Lemma has_key_None e : has_key None e = true ↔ host (fst e) = None.
Proof.
  unfold has_key, host_key. rewrite bool_decide_eq_true.
  destruct (host (fst e)); naive_solver.
Qed.

Lemma equiv_same_specificity k e :
  equiv_by by_specificity k e = true → specificity (fst e) = specificity (fst k).
Proof.
  unfold equiv_by, by_specificity.
  destruct (N.compare_spec (specificity (fst e)) (specificity (fst k))); congruence.
Qed.

(** The tier of an entry is its specificity class. *)
Lemma tier_of_class ds k e :
  tiers_apart ds → e ∈ flat_map entries_of ds → equiv_by by_specificity k e = true →
  has_key None e = (specificity (fst k) <? 1000000)%N.
Proof.
  intros Ht He Hk. apply equiv_same_specificity in Hk. rewrite <- Hk.
  pose proof (proj1 (Forall_forall _ _) Ht e He) as Hb.
  destruct (host (fst e)) as [h|] eqn:Eh.
  - apply specificity_host in Eh as Hs. apply N.ltb_ge in Hs. rewrite Hs.
    apply not_true_iff_false. rewrite has_key_None. congruence.
  - specialize (Hb Eh). apply N.ltb_lt in Hb. rewrite Hb. by apply has_key_None.
Qed.

Lemma flat_table_split ds :
  tiers_apart ds →
  flat_table ds =
  sort_by by_specificity (List.filter (λ e, negb (has_key None e)) (flat_map entries_of ds)) ++
  sort_by by_specificity (List.filter (has_key None) (flat_map entries_of ds)).
Proof.
  intros Ht. unfold flat_table. rewrite <- (sort_by_app by_specificity).
  - apply (sort_by_classes_eq by_specificity). intros k.
    rewrite List.filter_app, !filter_filter.
    pose proof (tier_of_class ds k) as Htier.
    destruct (specificity (fst k) <? 1000000)%N.
    + rewrite (filter_none (λ x, _ && negb _)), app_nil_r.
      * apply List.filter_ext_in. intros e He%list_elem_of_In.
        destruct (equiv_by _ k e) eqn:E; [|done]. by rewrite Htier.
      * intros e He. destruct (equiv_by _ k e) eqn:E; [|done]. by rewrite Htier.
    + rewrite (filter_none (λ x, _ && has_key None x)), app_nil_l.
      * apply List.filter_ext_in. intros e He%list_elem_of_In.
        destruct (equiv_by _ k e) eqn:E; [|done]. by rewrite Htier.
      * intros e He. destruct (equiv_by _ k e) eqn:E; [|done]. by rewrite Htier.
  - intros x y [Hx Hkx]%list_elem_of_In%filter_In [Hy Hky]%list_elem_of_In%filter_In.
    apply negb_true_iff, not_true_iff_false in Hkx. rewrite has_key_None in Hkx.
    apply has_key_None in Hky. destruct (host (fst x)) as [h|] eqn:Eh; [|done].
    apply specificity_host in Eh.
    apply list_elem_of_In in Hy.
    pose proof (proj1 (Forall_forall _ _) Ht y Hy Hky) as Hlt. simpl in Hlt.
    unfold by_specificity. rewrite (proj2 (N.compare_lt_iff _ _)); [done|lia].
Qed.

Lemma matches_host_key r h path k :
  matches r h path = true → host_key r = Some k →
  Str.to_ascii_lowercase <$> h = Some k.
Proof.
  unfold matches, host_key. destruct (is_empty r); [done|].
  destruct (host r) as [want|]; [|done].
  intros [[Hm _]%andb_true_iff _]%andb_true_iff [= <-].
  destruct h as [got|]; [|done]. apply String.eqb_eq in Hm. simpl. by f_equal.
Qed.

(** Only the bucket of the request's host can match among the exact-host rules. *)
Lemma find_exact_bucket (es : list RouteEntry) h path :
  List.find (λ e : RouteEntry, matches (fst e) h path)
    (sort_by by_specificity (List.filter (λ e, negb (has_key None e)) es)) =
  match h with
  | Some got =>
    List.find (λ e : RouteEntry, matches (fst e) h path)
      (sort_by by_specificity
        (List.filter (has_key (Some (Str.to_ascii_lowercase got))) es))
  | None => None
  end.
Proof.
  set (m := λ e : RouteEntry, matches (fst e) h path).
  assert (∀ e, m e = true → has_key None e = false →
    ∃ got, h = Some got ∧ has_key (Some (Str.to_ascii_lowercase got)) e = true) as Hkey.
  { intros e Hm Hk. unfold has_key in *. destruct (host_key (fst e)) as [k|] eqn:Ek; [|done].
    pose proof (matches_host_key _ _ _ _ Hm Ek) as Hh. destruct h as [got|]; [|done].
    injection Hh as <-. exists got. by rewrite bool_decide_true. }
  destruct h as [got|].
  - set (key := has_key (Some (Str.to_ascii_lowercase got))) in *.
    rewrite <- (find_filter m (λ e, has_key None e || key e)
                  (sort_by _ (List.filter (λ e, negb (has_key None e)) es))).
    + rewrite filter_sort_by by apply _. do 2 f_equal. rewrite filter_filter.
      apply List.filter_ext. intros e. subst key. unfold has_key.
      destruct (host_key (fst e)); repeat case_bool_decide; done.
    + intros e He. destruct (has_key None e) eqn:Ek; [done|].
      destruct (Hkey e He Ek) as (got' & [= <-] & Hg). done.
  - destruct (List.find m _) as [e|] eqn:Ef; [|done].
    apply find_some in Ef as [Hin He].
    apply list_elem_of_In in Hin. rewrite sort_by_perm in Hin.
    apply list_elem_of_In, filter_In in Hin as [_ Hk%negb_true_iff].
    destruct (Hkey e He Hk) as (? & ? & _). done.
Qed.

Lemma resolve_flat ds h path :
  tiers_apart ds → resolve (build_from ds) h path = flat_resolve ds h path.
Proof.
  intros Ht. unfold resolve, flat_resolve.
  rewrite (flat_table_split ds Ht), find_app, find_exact_bucket, build_from_rest.
  destruct h as [got|]; [|done]. rewrite build_from_exact. unfold bucket_of.
  destruct (List.filter (has_key (Some _)) _) as [|e es] eqn:E; [done|].
  cbn [mbind option_bind]. by destruct (List.find _ (sort_by _ (e :: es))).
Qed.

(** As long as no rule without an exact host reaches the exact-host tier
    (a million points, a hostname and a path can not), the two-level index
    answers every request exactly as scanning one list of all rules, most specific
    first, would. *)
Theorem resolve_is_first_match ds h path :
  tiers_apart ds → resolve (build_from ds) h path = flat_resolve ds h path.
Proof. apply resolve_flat. Qed.

Example resolve_ds : list RouteSource :=
  [ {| spec_id := "web"; spec_routes :=
         [ {| host := Some "App.example.com"; host_suffix := None; path_prefix := None; strip_prefix := false |} ] |};
    {| spec_id := "api"; spec_routes :=
         [ {| host := Some "app.example.com"; host_suffix := None; path_prefix := Some "/api"; strip_prefix := true |};
           {| host := None; host_suffix := Some ".example.com"; path_prefix := None; strip_prefix := false |} ] |} ].

Lemma resolve_is_first_match_witness :
  resolve (build_from resolve_ds) (Some "APP.example.com") "/api/v1" = Some "api" ∧
  resolve (build_from resolve_ds) (Some "x.example.com") "/" =
  flat_resolve resolve_ds (Some "x.example.com") "/".
Proof.
  split; [vm_compute; reflexivity|].
  apply (resolve_is_first_match resolve_ds).
  repeat constructor; simpl; intros; first [done|vm_compute; reflexivity].
Defined.

Example registry_m : gmap string RouteSource :=
  list_to_map ((λ d, (spec_id d, d)) <$> resolve_ds).

Lemma updated_is_rebuild_witness :
  registry_ok registry_m ∧
  updated (build registry_m) "api" (spec_routes <$> registry_m !! "api") None =
  build (register registry_m "api" None).
Proof.
  assert (registry_ok registry_m) as Hm.
  { apply map_Forall_insert_2; [done|]. apply map_Forall_insert_2; [done|].
    apply map_Forall_empty. }
  split; [exact Hm|]. apply (updated_is_rebuild registry_m "api" None Hm).
Defined.

(** ** Host suffixes match at a label boundary *)

Lemma drop_map f n s : Str.drop n (Str.map f s) = Str.map f (Str.drop n s).
Proof. revert s. induction n as [|n IH]; intros [|c s]; simpl; auto. Qed.

Lemma get_map f n s : String.get n (Str.map f s) = f <$> String.get n s.
Proof. revert n. induction s as [|c s IH]; intros [|n]; simpl; auto. Qed.

Lemma get_app_dot p s : String.get (String.length p) (p +:+ String "." s) = Some "."%char.
Proof. induction p; simpl; done. Qed.

Lemma take_drop_get n s c :
  String.get n s = Some c → s = Str.take n s +:+ String c (Str.drop (S n) s).
Proof.
  revert n. induction s as [|b s IH]; intros [|n] Hg; try discriminate.
  - injection Hg as ->. by destruct s.
  - cbn [String.get] in Hg. apply IH in Hg. cbn [Str.take Str.drop].
    change (String b s = String b (Str.take n s +:+ String c (Str.drop (S n) s))). congruence.
Qed.

Lemma lower_dot c : Str.lower c = "."%char → c = "."%char.
Proof. destruct c as [[] [] [] [] [] [] [] []]; vm_compute; congruence. Qed.

Lemma string_length_app p s : String.length (p +:+ s) = String.length p + String.length s.
Proof. induction p as [|c p IH]; [done|]. exact (f_equal S IH). Qed.

(** A [host_suffix] covers exactly the apex and the names below it: the
    match is case-insensitive, ignores a leading dot, and is anchored at a label
    boundary, so [notapps.example.com] is never under [apps.example.com]. *)
Theorem host_in_domain_spec host suffix :
  let s := Str.to_ascii_lowercase (Str.trim_start_matches "." suffix) in
  host_in_domain host suffix = true ↔
  s ≠ "" ∧ (Str.to_ascii_lowercase host = s ∨
            ∃ label, Str.to_ascii_lowercase host = label +:+ "." +:+ s).
Proof.
  unfold host_in_domain. set (d := Str.trim_start_matches "." suffix). simpl.
  assert (Str.to_ascii_lowercase d ≠ "" ↔ String.length d ≠ 0) as Hne.
  { destruct d; simpl; split; try done. }
  rewrite Hne. destruct (Nat.eqb_spec (String.length d) 0) as [H0|H0]; [naive_solver|].
  unfold Str.eq_ignore_ascii_case.
  destruct (String.eqb_spec (Str.to_ascii_lowercase host) (Str.to_ascii_lowercase d))
    as [He|He]; [naive_solver|].
  rewrite !andb_true_iff, Nat.ltb_lt, String.eqb_eq. split.
  - intros [[Hlt Hc] Hd]. split; [done|]. right.
    destruct (String.get _ host) as [c|] eqn:Eg; [|done].
    apply Ascii.eqb_eq in Hc as ->.
    exists (Str.take (String.length host - String.length d - 1) (Str.to_ascii_lowercase host)).
    rewrite <- Hd. unfold Str.to_ascii_lowercase. rewrite <- drop_map.
    replace (String.length host - String.length d)
      with (S (String.length host - String.length d - 1)) at 2 by lia.
    apply take_drop_get. rewrite get_map, Eg. done.
  - intros [_ [?|[label Hl]]]; [done|].
    change (Str.map Str.lower host = label +:+ String "." (Str.map Str.lower d)) in Hl.
    assert (String.length host = String.length label + S (String.length d)) as Hlen.
    { apply (f_equal String.length) in Hl. rewrite string_length_app in Hl.
      simpl in Hl. by rewrite !Str.map_length in Hl. }
    replace (String.length host - String.length d - 1) with (String.length label) by lia.
    split; [split; [lia|]|].
    + pose proof (get_map Str.lower (String.length label) host) as Hg.
      rewrite Hl, get_app_dot in Hg. destruct (String.get _ host) as [c|]; [|done].
      injection Hg as Hc. by rewrite (lower_dot c).
    + unfold Str.to_ascii_lowercase in *. rewrite <- drop_map, Hl.
      replace (String.length host - String.length d) with (S (String.length label)) by lia.
      clear. induction label as [|c l IH]; [by destruct (Str.map _ d)|done].
Qed.
