(* ===== verification/LbPool.v ===== *)
(** * The VM pool of one deployment: [app-lb/src/deployment.rs]

    [VmBackend] is a routable backend, shared behind an [Arc] by the pool and by
    every request that reserved it: a heap of backends indexed by location models
    the sharing.  [Deployment] keeps the pool, the booting VMs, the cold-start
    waiters, the durable runtime state and the boot backoff; its methods are state
    transformers on the heap and the deployment, with the clock as an argument. *)
From Stdlib Require Import Ascii String ZArith Lia Bool.
From stdpp Require Import base option list strings gmap fin_maps.
From S2P Require Import Prelude.
Open Scope Z_scope.

(** ** Backends *)

Record VmBackend : Type := {
  sandbox_id : string;
  peer : string;
  address : string;
  tls : bool;
  sni : string;
  in_flight : Z;              (** usize *)
  draining : bool;
  healthy : bool;
  last_active : Z;            (** u64, epoch seconds *)
  ready_at : Z;
  cpu_percent_bits : Z;       (** the bits of an f64 *)
  mem_bytes : Z;
  has_usage : bool;
  bind : option string;
}.

Definition with_peer (now : Z) (sandbox_id peer address : string) (tls : bool)
    (sni : string) : VmBackend :=
  {| sandbox_id := sandbox_id; peer := peer; address := address; tls := tls; sni := sni;
     in_flight := 0; draining := false; healthy := true;
     last_active := now; ready_at := now;
     cpu_percent_bits := 0; mem_bytes := 0; has_usage := false; bind := None |}.

(** [VmBackend::new]; [addr] is the printed socket address. *)
Definition new_backend (now : Z) (sandbox_id addr : string) : VmBackend :=
  with_peer now sandbox_id addr addr false "".

Definition upd_in_flight (b : VmBackend) (n last : Z) : VmBackend :=
  {| sandbox_id := sandbox_id b; peer := peer b; address := address b; tls := tls b;
     sni := sni b; in_flight := n; draining := draining b; healthy := healthy b;
     last_active := last; ready_at := ready_at b;
     cpu_percent_bits := cpu_percent_bits b; mem_bytes := mem_bytes b;
     has_usage := has_usage b; bind := bind b |}.

Definition upd_flags (b : VmBackend) (dr he : bool) : VmBackend :=
  {| sandbox_id := sandbox_id b; peer := peer b; address := address b; tls := tls b;
     sni := sni b; in_flight := in_flight b; draining := dr; healthy := he;
     last_active := last_active b; ready_at := ready_at b;
     cpu_percent_bits := cpu_percent_bits b; mem_bytes := mem_bytes b;
     has_usage := has_usage b; bind := bind b |}.

Definition set_bind (b : VmBackend) (subdomain : option string) : VmBackend :=
  {| sandbox_id := sandbox_id b; peer := peer b; address := address b; tls := tls b;
     sni := sni b; in_flight := in_flight b; draining := draining b; healthy := healthy b;
     last_active := last_active b; ready_at := ready_at b;
     cpu_percent_bits := cpu_percent_bits b; mem_bytes := mem_bytes b;
     has_usage := has_usage b; bind := subdomain |}.

Definition uptime_secs (now : Z) (b : VmBackend) : Z :=
  U64.saturating_sub now (ready_at b).

Definition set_usage (b : VmBackend) (cpu_bits mem : Z) : VmBackend :=
  {| sandbox_id := sandbox_id b; peer := peer b; address := address b; tls := tls b;
     sni := sni b; in_flight := in_flight b; draining := draining b; healthy := healthy b;
     last_active := last_active b; ready_at := ready_at b;
     cpu_percent_bits := cpu_bits; mem_bytes := mem;
     has_usage := true; bind := bind b |}.

Definition usage (b : VmBackend) : option (Z * Z) :=
  if has_usage b then Some (cpu_percent_bits b, mem_bytes b) else None.

Definition is_draining (b : VmBackend) : bool := draining b.
Definition is_healthy (b : VmBackend) : bool := healthy b.
Definition is_available (b : VmBackend) : bool := is_healthy b && negb (is_draining b).

Definition set_draining (b : VmBackend) (d : bool) : VmBackend := upd_flags b d (healthy b).
Definition set_healthy (b : VmBackend) (h : bool) : VmBackend := upd_flags b (draining b) h.

(** [fetch_add] wraps. *)
Definition acquire (now : Z) (b : VmBackend) : VmBackend :=
  upd_in_flight b (U64.wrapping_add (in_flight b) 1) now.

Definition try_acquire (now : Z) (b : VmBackend) : bool * VmBackend :=
  if negb (is_available b) then (false, b) else (true, acquire now b).

Definition release (now : Z) (b : VmBackend) : VmBackend :=
  upd_in_flight b (U64.saturating_sub (in_flight b) 1) now.

(** ** Booting VMs *)

Inductive BootOrigin : Type := Created | Resumed.

Section with_status.
(** [heyo_sdk::SandboxStatus], an enum of the SDK crate. *)
Context {SandboxStatus : Type}.

Record PendingVm : Type := {
  pv_sandbox_id : string;
  pv_created_at : Z;
  pv_status : option SandboxStatus;
  pv_reported_at_secs : Z;
  pv_origin : BootOrigin;
  pv_missing_since : option Z;
}.

Definition pending_new (now : Z) (sandbox_id : string) : PendingVm :=
  {| pv_sandbox_id := sandbox_id; pv_created_at := now; pv_status := None;
     pv_reported_at_secs := 0; pv_origin := Created; pv_missing_since := None |}.

Definition pending_resumed (now : Z) (sandbox_id : string) : PendingVm :=
  let p := pending_new now sandbox_id in
  {| pv_sandbox_id := pv_sandbox_id p; pv_created_at := pv_created_at p;
     pv_status := pv_status p; pv_reported_at_secs := pv_reported_at_secs p;
     pv_origin := Resumed; pv_missing_since := pv_missing_since p |}.

Definition age_secs (now : Z) (p : PendingVm) : Z :=
  U64.saturating_sub now (pv_created_at p).
End with_status.
Arguments PendingVm : clear implicits.

(** ** Deployments *)

Record UpstreamDrain : Type := {
  upstream : string;
  reason : option string;
  started_at : Z;
}.
#[global] Instance UpstreamDrain_eq_dec : EqDecision UpstreamDrain.
Proof. solve_decision. Defined.

Inductive Backend : Type := BSite | BUpstreams | BVm.
#[global] Instance Backend_eq_dec : EqDecision Backend.
Proof. solve_decision. Defined.

(** The fields of [ScalingPolicy] this component reads. *)
Record ScalingPolicy : Type := {
  min_replicas : Z;           (** u32 *)
  max_replicas : Z;           (** u32 *)
  warm_pool : Z;              (** u32 *)
  target_concurrency : Z;     (** u32 *)
  scale_to_zero_after_secs : Z;
  cold_start_timeout_secs : Z;
}.

(** The fields of [DeploymentSpec] this component reads: whether it names a site
    and a discovery source, its static upstreams and its scaling policy. *)
Record DeploymentSpec : Type := {
  id : string;
  has_site : bool;
  has_discovery : bool;
  upstreams : list string;
  scaling : ScalingPolicy;
}.

Definition backend (s : DeploymentSpec) : Backend :=
  if has_site s then BSite
  else if negb (bool_decide (upstreams s = [])) || has_discovery s then BUpstreams
  else BVm.
Definition is_static (s : DeploymentSpec) : bool := bool_decide (backend s = BUpstreams).
Definition is_site (s : DeploymentSpec) : bool := bool_decide (backend s = BSite).
Definition is_managed (s : DeploymentSpec) : bool := bool_decide (backend s = BVm).

(** ** Static upstreams: [config.rs] *)

Definition is_valid_host_port (s : string) : bool :=
  match Chars.rsplit_once ":" s with
  | None => false
  | Some (host, port) =>
    let host :=
      match Str.strip_prefix "[" host with
      | Some h => default host (Str.strip_suffix "]" h)
      | None => host
      end in
    if String.eqb host "" then false
    else match ParseInt.u16 port with Some p => 0 <? p | None => false end
  end.

Record StaticUpstream : Type := {
  su_address : string;
  su_tls : bool;
  su_sni : string;
}.

(** What [url::Url::parse] returns, as far as the code looks; the [url] crate is a
    parameter.  [url_domain] is the host when it is a domain name, [url_text] the URL
    printed back. *)
Record Url : Type := {
  url_scheme : string;
  url_username : string;
  url_password : option string;
  url_path : string;
  url_query : option string;
  url_fragment : option string;
  url_port_or_known_default : option Z;
  url_domain : option string;
  url_host_str : option string;
  url_text : string;
}.

Section upstream.
Context (url_parse : string → option Url) (show_Z : Z → string).

Definition parse_upstream (value : string) : option StaticUpstream :=
  if negb (Str.contains "://" value) then
    if is_valid_host_port value
    then Some {| su_address := value; su_tls := false; su_sni := "" |}
    else None
  else
    '(_, authority) ← Chars.split_once "://" value;
    let authority := default authority (Str.strip_suffix "/" authority) in
    if Str.any (λ c, existsb (Ascii.eqb c) ["/"; "\"; "?"; "#"; "@"]%char) authority
       || existsb Chars.is_whitespace (Chars.chars value)
    then None
    else
      parsed ← url_parse value;
      if negb (String.eqb (url_scheme parsed) "https")
         || negb (String.eqb (url_username parsed) "")
         || is_some (url_password parsed)
         || negb (String.eqb (url_path parsed) "/")
         || is_some (url_query parsed)
         || is_some (url_fragment parsed)
      then None
      else
        port ← url_port_or_known_default parsed;
        if port =? 0 then None
        else
          host ← url_domain parsed;
          Some {| su_address := host +:+ ":" +:+ show_Z port; su_tls := true; su_sni := host |}.

(** [VmBackend::for_upstream]; [None] is its [expect] panicking. *)
Definition for_upstream (now : Z) (address : string) : option VmBackend :=
  target ← parse_upstream address;
  Some (with_peer now address address (su_address target) (su_tls target) (su_sni target)).
End upstream.

(** ** Runtime state and the deployment *)

(** The shared backends, by location. *)
Abbreviation Heap := (gmap nat VmBackend).

Section deployment.
(** Durable records of other components, carried and compared but never read here:
    retirement operations and allocation attempts, rollouts, route handoffs; and the
    SDK's sandbox status. *)
Context {RetirementOp CreateAttempt RolloutOp Handoff SandboxStatus : Type}
  `{!EqDecision RetirementOp, !EqDecision CreateAttempt, !EqDecision RolloutOp,
    !EqDecision Handoff}.

Record DeploymentState : Type := {
  retirement : option RetirementOp;
  create_attempts : list CreateAttempt;
  allocation_history_complete : bool;
  rollout_revision : string;
  active_prefix : option string;
  rollouts : list RolloutOp;
  suspended : list string;
  upstream_drains : list UpstreamDrain;
  discovery_version : option Z;
  discovery_source_url : option string;
  route_handoff : option Handoff;
}.

#[global] Instance DeploymentState_eq_dec : EqDecision DeploymentState.
Proof. solve_decision. Defined.

Record Deployment : Type := {
  spec : DeploymentSpec;
  state : DeploymentState;
  backends : list nat;
  pending : list (PendingVm SandboxStatus);
  waiters : Z;
  boot_failures : Z;
  boot_backoff_until : Z;
}.

Definition upd_state (d : Deployment) (s : DeploymentState) : Deployment :=
  {| spec := spec d; state := s; backends := backends d; pending := pending d;
     waiters := waiters d; boot_failures := boot_failures d;
     boot_backoff_until := boot_backoff_until d |}.
Definition upd_backends (d : Deployment) (bs : list nat) : Deployment :=
  {| spec := spec d; state := state d; backends := bs; pending := pending d;
     waiters := waiters d; boot_failures := boot_failures d;
     boot_backoff_until := boot_backoff_until d |}.
Definition set_pending (d : Deployment) (p : list (PendingVm SandboxStatus)) : Deployment :=
  {| spec := spec d; state := state d; backends := backends d; pending := p;
     waiters := waiters d; boot_failures := boot_failures d;
     boot_backoff_until := boot_backoff_until d |}.
Definition upd_waiters (d : Deployment) (n : Z) : Deployment :=
  {| spec := spec d; state := state d; backends := backends d; pending := pending d;
     waiters := n; boot_failures := boot_failures d;
     boot_backoff_until := boot_backoff_until d |}.
Definition upd_boot (d : Deployment) (n till : Z) : Deployment :=
  {| spec := spec d; state := state d; backends := backends d; pending := pending d;
     waiters := waiters d; boot_failures := n; boot_backoff_until := till |}.

(** The initial runtime state; [revision] is [rollout::revision()]. *)
Definition initial_state (revision : string) : DeploymentState :=
  {| retirement := None; create_attempts := []; allocation_history_complete := true;
     rollout_revision := revision; active_prefix := None; rollouts := [];
     suspended := []; upstream_drains := []; discovery_version := None;
     discovery_source_url := None; route_handoff := None |}.

(** [Deployment::new], allocating one backend per static upstream.  [locs] are the
    fresh locations of the allocations; [None] is [for_upstream] panicking. *)
Definition new_deployment (url_parse : string → option Url) (show_Z : Z → string)
    (now : Z) (revision : string) (locs : list nat) (h : Heap) (sp : DeploymentSpec) :
    option (Heap * Deployment) :=
  bs ← mapM (for_upstream url_parse show_Z now) (upstreams sp);
  Some (list_to_map (zip locs bs) ∪ h,
        {| spec := sp; state := initial_state revision;
           backends := (zip locs bs).*1; pending := []; waiters := 0;
           boot_failures := 0; boot_backoff_until := 0 |}).

(** Whether an operator drain names this peer. *)
Definition drained_by (s : DeploymentState) (p : string) : bool :=
  existsb (λ dr, String.eqb (upstream dr) p) (upstream_drains s).

(** The loop of [apply_state] and [set_backends] over the pool. *)
Definition sync_draining (s : DeploymentState) (h : Heap) (locs : list nat) : Heap :=
  foldl (λ h l, alter (λ b, set_draining b (drained_by s (peer b))) l h) h locs.

Definition apply_state (h : Heap) (d : Deployment) (s : DeploymentState) :
    Heap * Deployment :=
  (if is_static (spec d) then sync_draining s h (backends d) else h, upd_state d s).

Definition set_state (h : Heap) (d : Deployment) (s : DeploymentState) :
    Heap * Deployment :=
  apply_state h d s.

Definition upstream_drain (d : Deployment) (u : string) : option UpstreamDrain :=
  List.find (λ dr, String.eqb (upstream dr) u) (upstream_drains (state d)).

(** [mutate_state]; the boolean says whether the state changed. *)
Definition mutate_state (h : Heap) (d : Deployment)
    (f : DeploymentState → DeploymentState) : bool * (Heap * Deployment) :=
  let before := state d in
  let next := f before in
  if decide (next = before) then (false, (h, d))
  else (true, apply_state h d next).

Definition track_waiter (d : Deployment) : Deployment :=
  upd_waiters d (U64.wrapping_add (waiters d) 1).
Definition drop_waiter_guard (d : Deployment) : Deployment :=
  upd_waiters d (U64.saturating_sub (waiters d) 1).

Definition set_backends (h : Heap) (d : Deployment) (bs : list nat) : Heap * Deployment :=
  (if is_static (spec d) then sync_draining (state d) h bs else h, upd_backends d bs).

(** The backends of the pool, dereferenced. *)
Definition pool (h : Heap) (d : Deployment) : list (nat * VmBackend) :=
  omap (λ l, b ← h !! l; Some (l, b)) (backends d).

Definition total_in_flight (h : Heap) (d : Deployment) : Z :=
  sumZ (List.map (λ p, in_flight (snd p)) (pool h d)).

Definition eligible (exclude : list string) (p : nat * VmBackend) : bool :=
  is_available (snd p) && negb (existsb (String.eqb (peer (snd p))) exclude).

Definition select (h : Heap) (d : Deployment) (exclude : list string) : option nat :=
  fst <$> min_by_key (λ p, in_flight (snd p)) (List.filter (eligible exclude) (pool h d)).

Definition can_grow (d : Deployment) : bool :=
  if negb (is_managed (spec d)) then false
  else
    let live := Z.of_nat (length (backends d) + length (pending d)) in
    U32.wrap live <? max_replicas (scaling (spec d)).

Definition demand (h : Heap) (d : Deployment) : Z := total_in_flight h d + waiters d.

Definition idle_for (now : Z) (h : Heap) (d : Deployment) : Z :=
  match backends d with
  | [] => U64.max
  | _ =>
    let last := default 0 (maxZ (List.map (λ p, last_active (snd p)) (pool h d))) in
    U64.saturating_sub now last
  end.

Definition div_ceil (a b : Z) : Z := (a + b - 1) / b.

(** [Ord::clamp], which panics when the bounds are crossed. *)
Definition clamp (x lo hi : Z) : option Z :=
  if hi <? lo then None else Some (if x <? lo then lo else if hi <? x then hi else x).

Definition desired_replicas (now : Z) (h : Heap) (d : Deployment) : option Z :=
  let policy := scaling (spec d) in
  let dem := demand h d in
  let needed := U32.wrap (div_ceil dem (Z.max (target_concurrency policy) 1)) in
  let desired := U32.saturating_add needed (warm_pool policy) in
  let may_scale_to_zero := (min_replicas policy =? 0) && (warm_pool policy =? 0) in
  let desired :=
    if may_scale_to_zero && (dem =? 0) &&
       (scale_to_zero_after_secs policy <=? idle_for now h d)
    then 0 else desired in
  clamp desired (min_replicas policy) (max_replicas policy).

(** ** Boot backoff *)

Definition BOOT_BACKOFF_BASE_SECS : Z := 30.
Definition BOOT_BACKOFF_MAX_SECS : Z := 3600.

Definition boot_backoff_secs (failures : Z) : Z :=
  if failures =? 0 then 0
  else
    Z.min
      (U64.saturating_mul BOOT_BACKOFF_BASE_SECS (Z.shiftl 1 (Z.min (failures - 1) 63)))
      BOOT_BACKOFF_MAX_SECS.

Definition note_boot_failure (now : Z) (d : Deployment) : (Z * Z) * Deployment :=
  let bumped := U64.wrapping_add (boot_failures d) 1 in
  (** [fetch_add(1)] returns the old count and the code adds one to it. *)
  let failures := boot_failures d + 1 in
  let delay := boot_backoff_secs failures in
  ((failures, delay), upd_boot d bumped (U64.saturating_add now delay)).

Definition note_boot_success (d : Deployment) : bool * Deployment :=
  (negb (boot_failures d =? 0), upd_boot d 0 0).

Definition boot_backoff_remaining (now : Z) (d : Deployment) : option Z :=
  if now <? boot_backoff_until d then Some (boot_backoff_until d - now) else None.
End deployment.
Arguments DeploymentState : clear implicits.
Arguments Deployment : clear implicits.

(** ** Selection *)

Section properties.
Context {RetirementOp CreateAttempt RolloutOp Handoff SandboxStatus : Type}
  `{!EqDecision RetirementOp, !EqDecision CreateAttempt, !EqDecision RolloutOp,
    !EqDecision Handoff}.
Local Abbreviation State := (DeploymentState RetirementOp CreateAttempt RolloutOp Handoff).
Local Abbreviation Dep := (Deployment RetirementOp CreateAttempt RolloutOp Handoff SandboxStatus).
Implicit Types (h : Heap) (d : Dep) (s : State).

Lemma elem_of_pool h d l b : (l, b) ∈ pool h d ↔ l ∈ backends d ∧ h !! l = Some b.
Proof.
  unfold pool. rewrite list_elem_of_omap. split.
  - intros (l' & Hl & E). destruct (h !! l') eqn:El; simplify_option_eq; auto.
  - intros [Hl E]. exists l. by simplify_option_eq.
Qed.

Definition can_take (exclude : list string) (b : VmBackend) : Prop :=
  is_healthy b = true ∧ is_draining b = false ∧ peer b ∉ exclude.

Lemma eligible_spec exclude p : eligible exclude p = true ↔ can_take exclude (snd p).
Proof.
  unfold eligible, can_take, is_available.
  rewrite !andb_true_iff, !negb_true_iff, existsb_eqb_false. naive_solver.
Qed.

Lemma elem_of_eligible h d exclude l b :
  (l, b) ∈ List.filter (eligible exclude) (pool h d) ↔ l ∈ backends d ∧ h !! l = Some b ∧ can_take exclude b.
Proof.
  rewrite list_elem_of_In, List.filter_In, <- list_elem_of_In, elem_of_pool, eligible_spec. cbn [snd]. naive_solver.
Qed.

Lemma select_Some h d exclude l : select h d exclude = Some l →
  ∃ b, l ∈ backends d ∧ h !! l = Some b ∧ can_take exclude b ∧
    ∀ l' b', l' ∈ backends d → h !! l' = Some b' → can_take exclude b' → in_flight b <= in_flight b'.
Proof.
  unfold select. intros ([l0 b] & [Hin Hmin]%min_by_key_Some & ->)%fmap_Some.
  apply elem_of_eligible in Hin as (Hl & Hb & Ht). exists b. split_and!; [done..|].
  intros l' b' Hl' Hb' Ht'. by apply (Hmin (l', b')), elem_of_eligible.
Qed.

Lemma select_None h d exclude : select h d exclude = None →
  ∀ l b, l ∈ backends d → h !! l = Some b → ¬ can_take exclude b.
Proof.
  unfold select. intros E%fmap_None%min_by_key_None l b Hl Hb Ht.
  assert ((l, b) ∈ List.filter (eligible exclude) (pool h d)) as Hin by by apply elem_of_eligible.
  rewrite E in Hin. by apply not_elem_of_nil in Hin.
Qed.

(** Backend selection is exact: it returns a backend of the pool that is
    healthy, not draining and not excluded, with the fewest in-flight requests among
    all such backends, and it finds nothing only when there is none. *)
Theorem select_least_loaded h d exclude :
  match select h d exclude with
  | Some l => ∃ b, l ∈ backends d ∧ h !! l = Some b ∧ can_take exclude b ∧
      ∀ l' b', l' ∈ backends d → h !! l' = Some b' → can_take exclude b' →
        in_flight b <= in_flight b'
  | None => ∀ l b, l ∈ backends d → h !! l = Some b → ¬ can_take exclude b
  end.
Proof.
  destruct (select h d exclude) as [l|] eqn:E; [by apply select_Some in E|by eapply select_None].
Qed.

(** ** Sizing *)

Lemma div_ceil_spec a b : 0 <= a → 0 < b → a <= div_ceil a b * b ∧ 0 <= div_ceil a b.
Proof.
  intros Ha Hb. unfold div_ceil.
  pose proof (Z.div_mod (a + b - 1) b). pose proof (Z.mod_pos_bound (a + b - 1) b).
  split; [nia|]. apply Z.div_pos; lia.
Qed.

Lemma div_ceil_bound a b : 0 <= a → 0 < b → div_ceil a b <= a.
Proof.
  intros Ha Hb. unfold div_ceil. destruct (decide (a = 0)) as [->|Hz].
  - rewrite Z.div_small; lia.
  - apply Z.div_le_upper_bound; nia.
Qed.

(** The replica count a policy admits for a load. *)
Record sized_for (policy : ScalingPolicy) (dem idle r : Z) : Prop := {
  sized_bounds : min_replicas policy <= r <= max_replicas policy;
  (** enough VMs for the load at the target concurrency, or the ceiling *)
  sized_load : dem <= r * Z.max (target_concurrency policy) 1 ∨ r = max_replicas policy;
  (** a waiting request always wakes a pool that may hold a VM *)
  sized_wakes : 0 < dem → 0 < max_replicas policy → 0 < r;
  (** the warm pool is kept, unless the ceiling forbids it *)
  sized_warm : warm_pool policy <= r ∨ r = max_replicas policy;
  (** an idle pool allowed to reach zero does *)
  sized_zero : min_replicas policy = 0 → warm_pool policy = 0 → dem = 0 →
    scale_to_zero_after_secs policy <= idle → r = 0;
}.

(** The autoscaler's target: with consistent bounds ([min <= max], as
    registration requires) and a demand that fits the [u32] cast, [desired_replicas]
    never panics, stays within the bounds, covers the load at the target
    concurrency or sits at the ceiling, wakes a scaled-to-zero pool as soon as one
    request waits, keeps the warm pool, and scales an idle pool to zero. *)
Theorem desired_replicas_sized now h d :
  let policy := scaling (spec d) in
  0 <= min_replicas policy <= max_replicas policy →
  max_replicas policy <= U32.max →
  0 <= warm_pool policy →
  0 <= demand h d <= U32.max →
  ∃ r, desired_replicas now h d = Some r ∧
       sized_for policy (demand h d) (idle_for now h d) r.
Proof.
  intros policy Hmin Hmax Hwarm Hdem. unfold desired_replicas. fold policy.
  set (t := Z.max (target_concurrency policy) 1).
  destruct (div_ceil_spec (demand h d) t) as [Hload Hpos]; [lia..|].
  pose proof (div_ceil_bound (demand h d) t) as Hbound.
  set (n := div_ceil (demand h d) t) in *.
  assert (U32.wrap n = n) as Hwrap.
  { apply Z.mod_small. unfold U32.max in *. lia. }
  rewrite Hwrap. unfold clamp. destruct (Z.ltb_spec (max_replicas policy) (min_replicas policy)); [lia|].
  eexists. split; [reflexivity|]. unfold U32.saturating_add.
  assert (0 < demand h d → 0 < n) as Hwake by nia.
  set (z := (min_replicas policy =? 0) && _ && _ && _).
  assert (z = true → min_replicas policy = 0 ∧ warm_pool policy = 0 ∧ demand h d = 0) as Hz.
  { unfold z. rewrite !andb_true_iff, !Z.eqb_eq. naive_solver. }
  assert (min_replicas policy = 0 → warm_pool policy = 0 → demand h d = 0 →
    scale_to_zero_after_secs policy <= idle_for now h d → z = true) as Hz'.
  { intros. unfold z. rewrite !andb_true_iff, !Z.eqb_eq, Z.leb_le. done. }
  destruct z; [destruct (Hz eq_refl) as (? & ? & ?)|clear Hz];
    repeat case_match; rewrite ?Z.ltb_lt, ?Z.ltb_ge in *;
    (split; [lia|try (left; nia); try (right; lia)|lia|lia|]);
    try (intros; specialize (Hz' ltac:(lia) ltac:(lia) ltac:(lia) ltac:(lia)); done);
    lia.
Qed.

(** ** Operator drains *)

(** A draining flag of a static pool says what the durable state says. *)
Definition drains_synced h d : Prop :=
  is_static (spec d) = true →
  ∀ l b, l ∈ backends d → h !! l = Some b → draining b = drained_by (state d) (peer b).

(** One operation on the deployment, or one request or probe on a backend of it. *)
Inductive pool_step : Heap * Dep → Heap * Dep → Prop :=
| step_set_state h d s : pool_step (h, d) (set_state h d s)
| step_mutate_state h d f : pool_step (h, d) (snd (mutate_state h d f))
| step_set_backends h d bs : pool_step (h, d) (set_backends h d bs)
| step_try_acquire h d l now :
    pool_step (h, d) (alter (λ b, snd (try_acquire now b)) l h, d)
| step_release h d l now : pool_step (h, d) (alter (release now) l h, d)
| step_set_healthy h d l b : pool_step (h, d) (alter (λ x, set_healthy x b) l h, d)
| step_set_usage h d l c m : pool_step (h, d) (alter (λ x, set_usage x c m) l h, d)
| step_set_bind h d l o : pool_step (h, d) (alter (λ x, set_bind x o) l h, d)
| step_set_pending h d p : pool_step (h, d) (h, set_pending d p)
| step_track_waiter h d : pool_step (h, d) (h, track_waiter d)
| step_drop_waiter h d : pool_step (h, d) (h, drop_waiter_guard d)
| step_boot_failure h d now : pool_step (h, d) (h, snd (note_boot_failure now d))
| step_boot_success h d : pool_step (h, d) (h, snd (note_boot_success d)).

Lemma sync_draining_lookup s h locs l b :
  sync_draining s h locs !! l = Some b →
  ∃ b0, h !! l = Some b0 ∧ peer b = peer b0 ∧
    draining b = (if bool_decide (l ∈ locs) then drained_by s (peer b0) else draining b0).
Proof.
  unfold sync_draining. revert h b.
  induction locs as [|l' locs IH]; intros h b Hl; cbn [foldl] in Hl.
  { exists b. by rewrite bool_decide_eq_false_2 by (by intros ?%elem_of_nil). }
  destruct (IH _ _ Hl) as (b1 & Hb1 & Hp & Hd).
  destruct (decide (l = l')) as [->|Hne].
  - rewrite lookup_alter_eq in Hb1. destruct (h !! l') as [b0|] eqn:E; [|done].
    injection Hb1 as <-. exists b0. split_and!; [done..|].
    rewrite (bool_decide_eq_true_2 (l' ∈ l' :: locs)) by constructor.
    rewrite Hd. by destruct (bool_decide _).
  - rewrite lookup_alter_ne in Hb1 by done. exists b1. split_and!; [done..|].
    rewrite Hd. erewrite bool_decide_ext; [done|].
    rewrite elem_of_cons. naive_solver.
Qed.

Lemma alter_keeps_drains (f : VmBackend → VmBackend) l0 h d :
  (∀ b, peer (f b) = peer b ∧ draining (f b) = draining b) →
  drains_synced h d → drains_synced (alter f l0 h) d.
Proof.
  intros Hf Hs Hst l b Hl Hb. destruct (decide (l = l0)) as [->|Hne].
  - rewrite lookup_alter_eq in Hb. destruct (h !! l0) as [b0|] eqn:E; [|done].
    injection Hb as <-. destruct (Hf b0) as [-> ->]. by eapply Hs.
  - rewrite lookup_alter_ne in Hb by done. by eapply Hs.
Qed.

Lemma pool_step_drains c c' :
  pool_step c c' →
  spec (snd c') = spec (snd c) ∧
  (drains_synced (fst c) (snd c) → drains_synced (fst c') (snd c')).
Proof.
  assert (∀ h d s, drains_synced (fst (apply_state h d s)) (snd (apply_state h d s)))
    as Happly.
  { intros h d s Hst l b Hl Hb. simpl in *. rewrite Hst in Hb.
    apply sync_draining_lookup in Hb as (b0 & _ & -> & ->).
    by rewrite bool_decide_eq_true_2. }
  destruct 1; simpl;
    try (split; [done|]; intros; by apply alter_keeps_drains); try done.
  - split; [done|]. intros _. apply Happly.
  - unfold mutate_state. destruct (decide _); [done|]. split; [done|]. intros _. apply Happly.
  - split; [done|]. intros _ Hst l b Hl Hb. simpl in *. rewrite Hst in Hb.
    apply sync_draining_lookup in Hb as (b0 & _ & -> & ->).
    by rewrite bool_decide_eq_true_2.
  - split; [done|]. intros. apply alter_keeps_drains; [|done].
    intros b. unfold try_acquire. by destruct (negb _).
Qed.

Lemma pool_run_drains c c' :
  rtc pool_step c c' → drains_synced (fst c) (snd c) → drains_synced (fst c') (snd c').
Proof. induction 1 as [|c1 c2 c3 Hst _ IH]; [done|]. intros. by apply IH, (pool_step_drains _ _ Hst). Qed.

Lemma new_deployment_drains up sz now rev locs h0 sp h d :
  new_deployment up sz now rev locs h0 sp = Some (h, d) → drains_synced h d.
Proof.
  unfold new_deployment. destruct (mapM _ _) as [bs|] eqn:E; [|done].
  intros [= <- <-] _ l b Hl Hb. simpl in *.
  apply mapM_Some_1 in E.
  apply lookup_union_Some_raw in Hb as [Hb|[Hn _]].
  - apply elem_of_list_to_map_2, elem_of_zip_r in Hb.
    apply list_elem_of_lookup in Hb as [i Hi].
    destruct (Forall2_lookup_r _ _ _ _ _ E Hi) as (a & _ & Ha).
    unfold for_upstream in Ha. destruct (parse_upstream _ _ _); [|done].
    by injection Ha as <-.
  - by apply not_elem_of_list_to_map_2 in Hn.
Qed.

(** C29. Operator drains are enforced: whatever sequence of operations a deployment with
    static upstreams goes through (state replacements and mutations, pool
    replacements by discovery, requests, probes, boots), selection never returns an
    upstream the durable state drains. *)
Theorem drained_upstream_never_selected up sz now rev locs h0 sp hd h d exclude l b :
  new_deployment up sz now rev locs h0 sp = Some hd →
  rtc pool_step hd (h, d) →
  is_static (spec d) = true →
  select h d exclude = Some l → h !! l = Some b →
  upstream_drain d (peer b) = None.
Proof.
  intros Hnew Hrun Hst Hsel Hb. destruct hd as [h1 d1].
  apply new_deployment_drains in Hnew. apply pool_run_drains in Hrun; [|done].
  apply select_Some in Hsel as (b' & Hl & Hb' & (_ & Hd & _) & _). simpl in *.
  assert (b' = b) as -> by congruence. unfold is_draining in Hd.
  rewrite (Hrun Hst _ _ Hl Hb) in Hd. unfold upstream_drain, drained_by in *.
  destruct (List.find _ _) as [x|] eqn:Ef; [|done].
  apply List.find_some in Ef as [Hx Hxe]. exfalso.
  apply not_true_iff_false in Hd. apply Hd, existsb_exists. eauto.
Qed.

(** ** The boot embargo *)

Lemma boot_backoff_closed (n : nat) :
  boot_backoff_secs (Z.of_nat n + 1) = Z.min (30 * 2 ^ Z.of_nat n) 3600.
Proof.
  unfold boot_backoff_secs, U64.saturating_mul, BOOT_BACKOFF_BASE_SECS,
    BOOT_BACKOFF_MAX_SECS, U64.max, U64.modulus.
  destruct (Z.eqb_spec (Z.of_nat n + 1) 0); [lia|].
  rewrite Z.shiftl_1_l. replace (Z.of_nat n + 1 - 1) with (Z.of_nat n) by lia.
  destruct (decide (Z.of_nat n <= 6)).
  - rewrite (Z.min_l _ 63) by lia. assert (2 ^ Z.of_nat n <= 2 ^ 6) by (apply Z.pow_le_mono_r; lia).
    lia.
  - assert (2 ^ 7 <= 2 ^ Z.min (Z.of_nat n) 63) by (apply Z.pow_le_mono_r; lia).
    assert (2 ^ 7 <= 2 ^ Z.of_nat n) by (apply Z.pow_le_mono_r; lia). lia.
Qed.

Definition fail_boots (ts : list Z) d : Dep :=
  foldl (λ d t, snd (note_boot_failure t d)) d ts.

Lemma fail_boots_count ts d :
  boot_failures d = 0 → Z.of_nat (length ts) <= U64.max →
  boot_failures (fail_boots ts d) = Z.of_nat (length ts).
Proof.
  intros Hz. unfold fail_boots.
  induction ts as [|t ts IH] using rev_ind; intros Hlen; [done|].
  rewrite length_app in Hlen |- *. rewrite foldl_snoc. simpl in *. rewrite IH by lia. unfold U64.wrapping_add, U64.wrap. rewrite Z.mod_small; [lia|].
  unfold U64.max in *. lia.
Qed.

(** The create embargo: after [n + 1] consecutive boot failures, the last at [t],
    creates are refused until [min (30 * 2^n, 3600)] seconds after [t] (saturating at
    [u64::MAX], never wrapping), the failure count and the delay reported are exact,
    and one success lifts the embargo at once. *)
Theorem boot_embargo_doubles ts t now d :
  boot_failures d = 0 → Z.of_nat (length ts) < U64.max → 0 <= now →
  let d0 := fail_boots ts d in
  let delay := Z.min (30 * 2 ^ Z.of_nat (length ts)) 3600 in
  let till := Z.min (t + delay) U64.max in
  fst (note_boot_failure t d0) = (Z.of_nat (length ts) + 1, delay) ∧
  let d1 := snd (note_boot_failure t d0) in
  boot_failures d1 = Z.of_nat (length ts) + 1 ∧
  boot_backoff_remaining now d1 = (if now <? till then Some (till - now) else None) ∧
  note_boot_success d1 = (true, upd_boot d1 0 0) ∧
  boot_backoff_remaining now (snd (note_boot_success d1)) = None.
Proof.
  intros Hz Hlen Hnow d0 delay till.
  assert (boot_failures d0 = Z.of_nat (length ts)) as Hd0 by (apply fail_boots_count; [done|lia]).
  assert (boot_backoff_secs (boot_failures d0 + 1) = delay) as Hdelay.
  { rewrite Hd0. apply boot_backoff_closed. }
  assert (U64.wrapping_add (boot_failures d0) 1 = Z.of_nat (length ts) + 1) as Hw.
  { rewrite Hd0. unfold U64.wrapping_add, U64.wrap. rewrite Z.mod_small; unfold U64.max in *; lia. }
  unfold note_boot_failure, note_boot_success, boot_backoff_remaining. simpl.
  rewrite Hdelay, Hw. split_and!; try done.
  - congruence.
  - by destruct (Z.eqb_spec (Z.of_nat (length ts) + 1) 0); [lia|].
  - by destruct (Z.ltb_spec now 0); [lia|].
Qed.
End properties.

(** ** The theorems at work *)

Section examples.
Let ex_policy : ScalingPolicy :=
  {| min_replicas := 0; max_replicas := 4; warm_pool := 1; target_concurrency := 2;
     scale_to_zero_after_secs := 300; cold_start_timeout_secs := 30 |}.
Let ex_spec : DeploymentSpec :=
  {| id := "web"; has_site := false; has_discovery := false;
     upstreams := ["10.0.0.1:80"; "10.0.0.2:80"]%string; scaling := ex_policy |}.
Let no_url (_ : string) : option Url := None.
Let ex_pool := new_deployment (RetirementOp := unit) (CreateAttempt := unit)
  (RolloutOp := unit) (Handoff := unit) (SandboxStatus := unit)
  no_url (λ _, ""%string) 1000 "r1" [1; 2]%nat ∅ ex_spec.
Let ex_dep : Deployment unit unit unit unit unit :=
  {| spec := ex_spec; state := initial_state "r1"; backends := [1%nat]; pending := [];
     waiters := 3; boot_failures := 0; boot_backoff_until := 0 |}.
Let ex_heap : Heap := {[ 1%nat := acquire 1000 (new_backend 900 "vm1" "10.0.0.1:80") ]}.

Example select_after_drain :
  match ex_pool with
  | Some (h, d) => 
    let d1 := set_state h d
      {| retirement := None; create_attempts := []; allocation_history_complete := true;
         rollout_revision := "r1"; active_prefix := None; rollouts := []; suspended := [];
         upstream_drains := [{| upstream := "10.0.0.1:80"; reason := None; started_at := 5 |}];
         discovery_version := None; discovery_source_url := None; route_handoff := None |} in
    (select h d [], select (fst d1) (snd d1) []) = (Some 1, Some 2)%nat
  | None => False
  end.
Proof. vm_compute. reflexivity. Qed.

Lemma desired_replicas_sized_witness :
  ∃ r, desired_replicas 1000 ex_heap ex_dep = Some r ∧
       sized_for ex_policy (demand ex_heap ex_dep) (idle_for 1000 ex_heap ex_dep) r.
Proof.
  apply (desired_replicas_sized 1000 ex_heap ex_dep);
    vm_compute; try split; intros; discriminate.
Defined.

Lemma drained_upstream_never_selected_witness :
  match ex_pool with
  | Some (h, d) =>
    ∃ l b, select h d [] = Some l ∧ h !! l = Some b ∧ upstream_drain d (peer b) = None
  | None => False
  end.
Proof.
  destruct ex_pool as [[h d]|] eqn:E; [|discriminate E].
  assert (spec d = ex_spec) as Hsp by (by injection E as _ <-).
  assert (∃ b, select h d [] = Some 1%nat ∧ h !! 1%nat = Some b) as (b & Hs & Hb).
  { injection E as <- <-. eexists. split; vm_compute; reflexivity. }
  exists 1%nat, b. split; [exact Hs|split; [exact Hb|]].
  apply (drained_upstream_never_selected no_url (λ _, ""%string) 1000 "r1" [1; 2]%nat ∅
    ex_spec (h, d) h d [] 1%nat b E); [constructor|rewrite Hsp; reflexivity|exact Hs|exact Hb].
Defined.

Lemma boot_embargo_doubles_witness :
  let d1 := snd (note_boot_failure 2000 (fail_boots [1000; 1500] ex_dep)) in
  boot_backoff_remaining 2010 d1 = Some 110.
Proof.
  assert (0 <= 2010) as Hnow by lia.
  destruct (boot_embargo_doubles [1000; 1500] 2000 2010 ex_dep eq_refl eq_refl Hnow)
    as (_ & _ & Hr & _).
  exact Hr.
Defined.
End examples.
