(* ===== verification/LbGuard.v ===== *)
(** * Response rules: [app-lb/src/guard.rs]

    The rules an operator blocks or exempts traffic with: address prefixes, the literal
    conditions of a rule, how a rule is normalised and identified, the rolling hit
    counts, and the guard that decides each request and survives a restart. *)
From Stdlib Require Import Ascii String ZArith Lia Bool Sorting.Sorted.
From stdpp Require Import base option list strings pretty.
From S2P Require Import Prelude.
Open Scope string_scope.
Open Scope list_scope.
Open Scope Z_scope.

Definition MAX_RULES : nat := 256.
Definition MAX_PATTERN : nat := 256.
Definition MAX_HOST : nat := 253.
Definition MAX_UA : nat := 128.
Definition MAX_NOTE : nat := 256.

Inductive RuleAction : Type := Block | Allow.
#[global] Instance RuleAction_eq_dec : EqDecision RuleAction.
Proof. solve_decision. Defined.

(** ** Address prefixes *)

(** [std::net::IpAddr], by its octets. *)
Inductive IpAddr : Type :=
| V4 (octets : list Z)
| V6 (octets : list Z).
#[global] Instance IpAddr_eq_dec : EqDecision IpAddr.
Proof. solve_decision. Defined.

(** [Ipv6Addr::to_ipv4_mapped]: the last four octets of [::ffff:a.b.c.d]. *)
Definition to_ipv4_mapped (o : list Z) : option (list Z) :=
  if bool_decide (take 12 o = replicate 10 0 ++ [255; 255]) then Some (drop 12 o) else None.

Record IpPrefix : Type := { addr : IpAddr; bits : Z (** u8 *) }.
#[global] Instance IpPrefix_eq_dec : EqDecision IpPrefix.
Proof. solve_decision. Defined.

Definition octet (a : list Z) (i : nat) : Z := default 0 (a !! i).

Definition prefix_eq (a b : list Z) (bits : Z) : bool :=
  let whole := Z.to_nat (bits / 8) in
  if negb (bool_decide (take whole a = take whole b)) then false
  else
    let rest := bits mod 8 in
    if rest =? 0 then true
    else
      (** [0xffu8 << (8 - rest)] *)
      let mask := Z.land (Z.shiftl 255 (8 - rest)) 255 in
      Z.land (octet a whole) mask =? Z.land (octet b whole) mask.

Definition contains (p : IpPrefix) (ip : IpAddr) : bool :=
  match addr p, ip with
  | V4 net, V4 ip => prefix_eq net ip (bits p)
  | V6 net, V6 ip => prefix_eq net ip (bits p)
  | V4 net, V6 ip =>
    match to_ipv4_mapped ip with
    | Some v4 => prefix_eq net v4 (bits p)
    | None => false
    end
  | V6 net, V4 ip =>
    (96 <=? bits p) &&
    match to_ipv4_mapped net with
    | Some net => prefix_eq net ip (bits p - 96)
    | None => false
    end
  end.

(** ** Conditions *)

Record MatchSpec : Type := {
  ms_client : option string;
  ms_host : option string;
  ms_deployment : option string;
  ms_path_prefix : option string;
  ms_path_contains : option string;
  ms_method : option string;
  ms_user_agent_contains : option string;
}.
#[global] Instance MatchSpec_eq_dec : EqDecision MatchSpec.
Proof. solve_decision. Defined.

Record RuleMatch : Type := {
  client : option IpPrefix;
  host : option string;
  deployment : option string;
  path_prefix : option string;
  path_contains : option string;
  method : option string;
  user_agent_contains : option string;
}.
#[global] Instance RuleMatch_eq_dec : EqDecision RuleMatch.
Proof. solve_decision. Defined.

Record RequestFacts : Type := {
  f_client : option IpAddr;
  f_host : option string;
  f_path : string;
  f_method : string;
  f_deployment : option string;
  f_user_agent : option string;
}.

(** [bytes.windows(n)], for [n > 0]. *)
Fixpoint windows (n : nat) (s : string) : list string :=
  match s with
  | "" => []
  | String _ s' => if (n <=? String.length s)%nat then Str.take n s :: windows n s' else []
  end.

Definition contains_ignore_ascii_case (haystack needle_lower : string) : bool :=
  if String.eqb needle_lower "" then true
  else if (String.length haystack <? String.length needle_lower)%nat then false
  else existsb (λ w, Str.eq_ignore_ascii_case w needle_lower)
         (windows (String.length needle_lower) haystack).

Definition conditions (m : RuleMatch) : nat :=
  length (List.filter id
    [is_some (client m); is_some (host m); is_some (deployment m); is_some (path_prefix m);
     is_some (path_contains m); is_some (method m); is_some (user_agent_contains m)]).

(** [if let Some(x) = o && !test(x) { return false }]. *)
Definition holds {A} (o : option A) (test : A → bool) : bool :=
  match o with Some x => test x | None => true end.

Definition matches (m : RuleMatch) (f : RequestFacts) : bool :=
  holds (client m) (λ net, match f_client f with Some ip => contains net ip | None => false end)
  && holds (host m) (λ h, bool_decide (f_host f = Some h))
  && holds (deployment m) (λ d, bool_decide (f_deployment f = Some d))
  && holds (path_prefix m) (λ p, Str.starts_with p (f_path f))
  && holds (path_contains m) (λ p, Str.contains p (f_path f))
  && holds (method m) (λ x, Str.eq_ignore_ascii_case (f_method f) x)
  && holds (user_agent_contains m) (λ ua,
       match f_user_agent f with
       | Some h => contains_ignore_ascii_case h ua
       | None => false
       end).

(** ** Hit counts *)

Definition HIT_BUCKETS : Z := 60.
Definition HIT_BUCKET_SECS : Z := 60.

Record HitSeries : Type := { buckets : list Z (** u32 each *); head : Z }.

Definition series_new (now : Z) : HitSeries :=
  {| buckets := replicate 60 0; head := now / HIT_BUCKET_SECS |}.

Definition slot (bucket : Z) : nat := Z.to_nat (bucket mod HIT_BUCKETS).

(** [roll_to], with the compare-and-swap won. *)
Definition roll_to (s : HitSeries) (bucket : Z) : HitSeries :=
  if bucket <=? head s then s
  else
    let lapped := Z.min (bucket - head s) HIT_BUCKETS in
    {| buckets := foldl (λ b step, <[slot (head s + step) := 0]> b) (buckets s) (seqZ 1 lapped);
       head := bucket |}.

Definition record (s : HitSeries) (now : Z) : HitSeries :=
  let bucket := now / HIT_BUCKET_SECS in
  let s := roll_to s bucket in
  {| buckets := alter (λ n, U32.wrap (n + 1)) (slot bucket) (buckets s); head := head s |}.

Definition clone_from_now (s : HitSeries) (now : Z) : HitSeries :=
  roll_to s (now / HIT_BUCKET_SECS).

(** The series rolled by the read, and what it reports. *)
Definition snapshot (s : HitSeries) (now : Z) : list Z * HitSeries :=
  let s := roll_to s (now / HIT_BUCKET_SECS) in
  ((λ i, let age := HIT_BUCKETS - 1 - i in
         if age <=? head s then octet (buckets s) (slot (head s - age)) else 0)
     <$> seqZ 0 HIT_BUCKETS, s).

(** ** Rules *)

Record Rule : Type := {
  rid : string;
  action : RuleAction;
  match_ : RuleMatch;
  note : option string;
  created_at : Z;
  expires_at : option Z;
  hits : Z;
  last_hit : Z;
  series : HitSeries;
}.

Definition expired (r : Rule) (now : Z) : bool :=
  match expires_at r with Some e => e <=? now | None => false end.

Definition record_hit (now : Z) (r : Rule) : Rule :=
  {| rid := rid r; action := action r; match_ := match_ r; note := note r;
     created_at := created_at r; expires_at := expires_at r;
     hits := U64.wrapping_add (hits r) 1; last_hit := now; series := record (series r) now |}.

Inductive GuardError : Type :=
| EmptyMatch
| BadClient (c : string)
| TooLong (field : string)
| Full
| NoRule (id : string)
| Io
| Json.

Record RuleSpec : Type := {
  rs_action : RuleAction;
  rs_match : MatchSpec;
  rs_expires_in_secs : option Z;
  rs_note : option string;
}.

Record RuleView : Type := {
  rv_id : string;
  rv_action : RuleAction;
  rv_match : MatchSpec;
  rv_summary : string;
  rv_note : option string;
  rv_created_at : Z;
  rv_expires_at : option Z;
  rv_hits : Z;
  rv_last_hit : option Z;
  rv_enforcing : bool;
  rv_hits_recent : list Z;
}.

Definition cap (v : option string) (max : nat) (field : string) :
    result GuardError (option string) :=
  match v with
  | Some s =>
    if String.eqb (Chars.trim s) "" then Ok None
    else if (max <? String.length s)%nat then Err (TooLong field)
    else Ok (Some (Chars.trim s))
  | None => Ok None
  end.

Section with_std.
(** [IpAddr]'s [FromStr] and [Display], and the SHA-256 of the [sha2] crate, on bytes. *)
Context (ip_parse : string → option IpAddr) (ip_show : IpAddr → string)
  (sha256 : string → list Z).

Definition max_bits (a : IpAddr) : Z := match a with V4 _ => 32 | V6 _ => 128 end.

Definition parse (s : string) : option IpPrefix :=
  let s := Chars.trim s in
  '(a, b) ← match Chars.split_once "/" s with
            | Some (a, b) => n ← ParseInt.u8 (Chars.trim b); Some (Chars.trim a, Some n)
            | None => Some (s, None)
            end;
  ad ← ip_parse a;
  let n := default (max_bits ad) b in
  if n <=? max_bits ad then Some {| addr := ad; bits := n |} else None.

Definition show_prefix (p : IpPrefix) : string :=
  if bits p =? max_bits (addr p) then ip_show (addr p)
  else ip_show (addr p) +:+ "/" +:+ pretty (Z.to_N (bits p)).

Definition to_spec (m : RuleMatch) : MatchSpec :=
  {| ms_client := show_prefix <$> client m; ms_host := host m;
     ms_deployment := deployment m; ms_path_prefix := path_prefix m;
     ms_path_contains := path_contains m; ms_method := method m;
     ms_user_agent_contains := user_agent_contains m |}.

Fixpoint join (sep : string) (l : list string) : string :=
  match l with
  | [] => ""
  | [s] => s
  | s :: l' => s +:+ sep +:+ join sep l'
  end.

Definition describe (m : RuleMatch) : string :=
  let part (label : string) (o : option string) :=
    match o with Some s => [label +:+ s] | None => [] end in
  let parts :=
    part "from " (show_prefix <$> client m) ++ part "to " (deployment m)
    ++ part "host " (host m) ++ part "method " (method m)
    ++ part "path under " (path_prefix m) ++ part "path containing " (path_contains m)
    ++ part "user-agent containing " (user_agent_contains m) in
  match parts with [] => "any request" | _ => join ", " parts end.

(** [(s.len() as u32).to_le_bytes()]. *)
Definition byte_of (z : Z) : ascii := ascii_of_N (Z.to_N (z mod 256)).
Definition le_bytes (n : nat) : string :=
  let z := U32.wrap (Z.of_nat n) in
  String (byte_of z) (String (byte_of (z / 256))
    (String (byte_of (z / 65536)) (String (byte_of (z / 16777216)) ""))).

Definition field (tag : Z) (v : option string) : string :=
  String (byte_of tag)
    match v with
    | Some s => le_bytes (String.length s) +:+ s
    | None => String (byte_of 255) ""
    end.

(** What the digest is taken of. *)
Definition rule_preimage (a : RuleAction) (m : RuleMatch) : string :=
  (match a with Block => "block" | Allow => "allow" end) +:+ String (byte_of 0) ""
  +:+ field 1 (show_prefix <$> client m) +:+ field 2 (host m) +:+ field 3 (deployment m)
  +:+ field 4 (path_prefix m) +:+ field 5 (path_contains m) +:+ field 6 (method m)
  +:+ field 7 (user_agent_contains m).

Definition hex_digit (z : Z) : ascii :=
  ascii_of_N (Z.to_N (if z <? 10 then 48 + z else 87 + z)).
Definition hex_byte (z : Z) : string :=
  String (hex_digit (z / 16)) (String (hex_digit (z mod 16)) "").

Definition rule_id (a : RuleAction) (m : RuleMatch) : string :=
  Chars.concat (hex_byte <$> take 6 (sha256 (rule_preimage a m))).

Definition build_match (m : MatchSpec) : result GuardError RuleMatch :=
  cl <-? match Chars.trim <$> ms_client m with
         | Some c => if String.eqb c "" then Ok None
                     else p <-? ok_or (parse c) (BadClient c) ;; Ok (Some p)
         | None => Ok None
         end ;;
  h <-? cap (ms_host m) MAX_HOST "match.host" ;;
  d <-? cap (ms_deployment m) MAX_HOST "match.deployment" ;;
  pp <-? cap (ms_path_prefix m) MAX_PATTERN "match.path_prefix" ;;
  pc <-? cap (ms_path_contains m) MAX_PATTERN "match.path_contains" ;;
  me <-? cap (ms_method m) 16 "match.method" ;;
  ua <-? cap (ms_user_agent_contains m) MAX_UA "match.user_agent_contains" ;;
  Ok {| client := cl; host := Str.to_ascii_lowercase <$> h; deployment := d;
        path_prefix := pp; path_contains := pc; method := Str.to_ascii_uppercase <$> me;
        user_agent_contains := Str.to_ascii_lowercase <$> ua |}.

Definition build (s : RuleSpec) (now : Z) : result GuardError Rule :=
  m <-? build_match (rs_match s) ;;
  bail_if (conditions m =? 0)%nat EmptyMatch ;;?
  n <-? cap (rs_note s) MAX_NOTE "note" ;;
  Ok {| rid := rule_id (rs_action s) m; action := rs_action s; match_ := m; note := n;
        created_at := now;
        expires_at := (λ e, U64.saturating_add now e) <$> rs_expires_in_secs s;
        hits := 0; last_hit := 0; series := series_new now |}.

Definition view (r : Rule) (enforcing : bool) : RuleView :=
  {| rv_id := rid r; rv_action := action r; rv_match := to_spec (match_ r);
     rv_summary := describe (match_ r); rv_note := note r; rv_created_at := created_at r;
     rv_expires_at := expires_at r; rv_hits := hits r;
     rv_last_hit := if last_hit r =? 0 then None else Some (last_hit r);
     rv_enforcing := enforcing || bool_decide (action r = Allow); rv_hits_recent := [] |}.

(** The view with its chart, and the rule with its series rolled by the read. *)
Definition report (r : Rule) (enforcing : bool) (now : Z) : RuleView * Rule :=
  let v := view r enforcing in
  let '(recent, s) := snapshot (series r) now in
  ({| rv_id := rv_id v; rv_action := rv_action v; rv_match := rv_match v;
      rv_summary := rv_summary v; rv_note := rv_note v; rv_created_at := rv_created_at v;
      rv_expires_at := rv_expires_at v; rv_hits := rv_hits v; rv_last_hit := rv_last_hit v;
      rv_enforcing := rv_enforcing v; rv_hits_recent := recent |},
   {| rid := rid r; action := action r; match_ := match_ r; note := note r;
      created_at := created_at r; expires_at := expires_at r; hits := hits r;
      last_hit := last_hit r; series := s |}).

(** ** The guard *)

(** What reading and decoding the rule file gives: nothing there, a read error, only
    whitespace, bytes that are not a rule set, or the [StoredRules] it holds. *)
Inductive RuleFile : Type :=
| NoFile
| Unreadable
| Blank
| Undecodable
| Stored (views : list RuleView).

(** [file] is the rule set on disk, the only state that outlives the process. *)
Record Guard : Type := {
  rules : list Rule;
  enforce : bool;
  blocked : Z;
  exempted : Z;
  blocked_series : HitSeries;
  exempted_series : HitSeries;
  file : RuleFile;
}.

Definition guard_new (enf : bool) (f : RuleFile) : Guard :=
  {| rules := []; enforce := enf; blocked := 0; exempted := 0;
     blocked_series := series_new 0; exempted_series := series_new 0; file := f |}.

Definition set_rules (g : Guard) (l : list Rule) : Guard :=
  {| rules := l; enforce := enforce g; blocked := blocked g; exempted := exempted g;
     blocked_series := blocked_series g; exempted_series := exempted_series g;
     file := file g |}.

Inductive Decision : Type :=
| Pass
| Blocked (r : Rule)
| WouldBlock (r : Rule).

(** The loop of [decide]: the rule that settles the request, and where it is. *)
Fixpoint scan (f : RequestFacts) (now : Z) (l : list Rule) (i : nat)
    (first_block : option (nat * Rule)) : option (nat * Rule) :=
  match l with
  | [] => first_block
  | r :: l' =>
    if expired r now || negb (matches (match_ r) f) then scan f now l' (S i) first_block
    else
      match action r with
      | Allow => Some (i, r)
      | Block =>
        scan f now l' (S i)
          (match first_block with None => Some (i, r) | Some b => Some b end)
      end
  end.

Definition decide_request (g : Guard) (f : RequestFacts) (now : Z) : Decision * Guard :=
  match scan f now (rules g) 0 None with
  | None => (Pass, g)
  | Some (i, r) =>
    let l := alter (record_hit now) i (rules g) in
    match action r with
    | Allow =>
      (Pass, {| rules := l; enforce := enforce g; blocked := blocked g;
                exempted := U64.wrapping_add (exempted g) 1;
                blocked_series := blocked_series g;
                exempted_series := record (exempted_series g) now; file := file g |})
    | Block =>
      ((if enforce g then Blocked (record_hit now r) else WouldBlock (record_hit now r)),
       {| rules := l; enforce := enforce g;
          blocked := U64.wrapping_add (blocked g) 1; exempted := exempted g;
          blocked_series := record (blocked_series g) now;
          exempted_series := exempted_series g; file := file g |})
    end
  end.

Definition live_others (id : string) (now : Z) (l : list Rule) : list Rule :=
  List.filter (λ r, negb (String.eqb (rid r) id) && negb (expired r now)) l.

Definition insert (g : Guard) (s : RuleSpec) (now : Z) : result GuardError Rule * Guard :=
  match build s now with
  | Err e => (Err e, g)
  | Ok rule =>
    let next := live_others (rid rule) now (rules g) in
    if (MAX_RULES <=? length next)%nat then (Err Full, g)
    else (Ok rule, set_rules g (next ++ [rule]))
  end.

Definition remove (g : Guard) (id : string) (now : Z) : result GuardError unit * Guard :=
  if existsb (λ r, String.eqb (rid r) id) (rules g)
  then (Ok tt, set_rules g (live_others id now (rules g)))
  else (Err (NoRule id), g).

Definition set_expiry (g : Guard) (id : string) (expires_in_secs : option Z) (now : Z) :
    result GuardError RuleView * Guard :=
  match List.find (λ r, String.eqb (rid r) id && negb (expired r now)) (rules g) with
  | None => (Err (NoRule id), g)
  | Some r =>
    let replacement :=
      {| rid := rid r; action := action r; match_ := match_ r; note := note r;
         created_at := created_at r;
         expires_at := (λ e, U64.saturating_add now e) <$> expires_in_secs;
         hits := hits r; last_hit := last_hit r; series := clone_from_now (series r) now |} in
    let '(v, replacement) := report replacement (enforce g) now in
    (Ok v, set_rules g (live_others id now (rules g) ++ [replacement]))
  end.

Definition sweep (g : Guard) (now : Z) : nat * Guard :=
  let next := List.filter (λ r, negb (expired r now)) (rules g) in
  let dropped := (length (rules g) - length next)%nat in
  (dropped, if (0 <? dropped)%nat then set_rules g next else g).

(** [persist]; [written] says whether the writes and the rename succeeded. *)
Definition persist (g : Guard) (written : bool) : result GuardError unit * Guard :=
  if written then
    (Ok tt, {| rules := rules g; enforce := enforce g; blocked := blocked g;
               exempted := exempted g; blocked_series := blocked_series g;
               exempted_series := exempted_series g;
               file := Stored ((λ r, view r (enforce g)) <$> rules g) |})
  else (Err Io, g).

Definition restore (v : RuleView) : result GuardError Rule :=
  r <-? build {| rs_action := rv_action v; rs_match := rv_match v; rs_expires_in_secs := None;
                 rs_note := rv_note v |} (rv_created_at v) ;;
  Ok {| rid := rid r; action := action r; match_ := match_ r; note := note r;
        created_at := created_at r; expires_at := rv_expires_at v; hits := rv_hits v;
        last_hit := default 0 (rv_last_hit v); series := series r |}.

(** The loop of [load]. *)
Fixpoint load_views (now : Z) (views : list RuleView) (acc : list Rule) :
    result GuardError (list Rule) :=
  match views with
  | [] => Ok acc
  | v :: rest =>
    if match rv_expires_at v with Some e => e <=? now | None => false end
    then load_views now rest acc
    else
      r <-? restore v ;;
      let acc := acc ++ [r] in
      if (MAX_RULES <=? length acc)%nat then Ok acc else load_views now rest acc
  end.

Definition load (g : Guard) (now : Z) : result GuardError nat * Guard :=
  match file g with
  | NoFile | Blank => (Ok O, g)
  | Unreadable => (Err Io, g)
  | Undecodable => (Err Json, g)
  | Stored views =>
    match load_views now views [] with
    | Ok l => (Ok (length l), set_rules g l)
    | Err e => (Err e, g)
    end
  end.

Record GuardStats : Type := {
  st_rules : nat; st_blocked : Z; st_exempted : Z; st_enforcing : bool;
  st_blocked_recent : list Z; st_exempted_recent : list Z;
  st_bucket_secs : Z; st_window_secs : Z;
}.

(** The totals, and the guard with its two series rolled by the read. *)
Definition stats (g : Guard) (now : Z) : GuardStats * Guard :=
  let '(br, bs) := snapshot (blocked_series g) now in
  let '(er, es) := snapshot (exempted_series g) now in
  ({| st_rules := length (rules g); st_blocked := blocked g; st_exempted := exempted g;
      st_enforcing := enforce g; st_blocked_recent := br; st_exempted_recent := er;
      st_bucket_secs := HIT_BUCKET_SECS; st_window_secs := HIT_BUCKET_SECS * HIT_BUCKETS |},
   {| rules := rules g; enforce := enforce g; blocked := blocked g; exempted := exempted g;
      blocked_series := bs; exempted_series := es; file := file g |}).
End with_std.

(** ** Prefixes are bit prefixes *)

Definition octets_ok (n : nat) (a : list Z) : Prop :=
  length a = n ∧ Forall (λ x, 0 <= x < 256) a.

(** Bit [i] of an address, the most significant first. *)
Definition bit (a : list Z) (i : nat) : bool :=
  Z.testbit (octet a (i / 8)%nat) (7 - Z.of_nat (i mod 8)).

Definition same_bits (n : Z) (a b : list Z) : Prop :=
  ∀ i : nat, Z.of_nat i < n → bit a i = bit b i.

Lemma octet_range n a i : octets_ok n a → 0 <= octet a i < 256.
Proof.
  intros [_ Ha]. unfold octet. destruct (a !! i) as [x|] eqn:E; simpl; [|lia].
  rewrite Forall_lookup in Ha. eauto.
Qed.

Lemma octet_high x k : 0 <= x < 256 → 8 <= k → Z.testbit x k = false.
Proof.
  intros Hx Hk. destruct (decide (x = 0)) as [->|Hz]; [apply Z.testbit_0_l|].
  apply Z.bits_above_log2; [lia|]. apply Z.log2_lt_pow2; [lia|].
  assert (2 ^ 8 <= 2 ^ k) by (apply Z.pow_le_mono_r; lia). lia.
Qed.

Lemma octet_bits x y :
  0 <= x < 256 → 0 <= y < 256 →
  x = y ↔ ∀ k : nat, (k < 8)%nat → Z.testbit x (7 - Z.of_nat k) = Z.testbit y (7 - Z.of_nat k).
Proof.
  intros Hx Hy. split; [by intros -> k _|]. intros Hb. apply Z.bits_inj'. intros k Hk.
  destruct (decide (k < 8)) as [Hlt|Hge]; [|by rewrite !octet_high by lia].
  specialize (Hb (Z.to_nat (7 - k)) ltac:(lia)).
  by replace (7 - Z.of_nat (Z.to_nat (7 - k))) with k in Hb by lia.
Qed.

Definition mask (r : Z) : Z := Z.land (Z.shiftl 255 (8 - r)) 255.

Lemma mask_bit r k : 0 < r < 8 → 0 <= k → Z.testbit (mask r) k = ((8 - r <=? k) && (k <? 8)).
Proof.
  intros Hr Hk. unfold mask. rewrite Z.land_spec, Z.shiftl_spec by done.
  change 255 with (Z.ones 8). rewrite (Z.testbit_ones_nonneg 8 k) by lia.
  destruct (Z.leb_spec (8 - r) k).
  - rewrite Z.testbit_ones_nonneg by lia.
    destruct (Z.ltb_spec (k - (8 - r)) 8), (Z.ltb_spec k 8); simpl; try done; lia.
  - rewrite Z.testbit_neg_r by lia. done.
Qed.

Lemma masked_bits x y r :
  0 <= x < 256 → 0 <= y < 256 → 0 < r < 8 →
  (Z.land x (mask r) =? Z.land y (mask r)) = true ↔
  ∀ k : nat, Z.of_nat k < r → Z.testbit x (7 - Z.of_nat k) = Z.testbit y (7 - Z.of_nat k).
Proof.
  intros Hx Hy Hr. rewrite Z.eqb_eq. split.
  - intros E k Hk. apply (f_equal (λ z, Z.testbit z (7 - Z.of_nat k))) in E.
    rewrite !Z.land_spec, mask_bit in E by lia.
    replace (8 - r <=? 7 - Z.of_nat k) with true in E by lia.
    replace (7 - Z.of_nat k <? 8) with true in E by lia.
    by rewrite !andb_true_r in E.
  - intros Hb. apply Z.bits_inj'. intros k Hk. rewrite !Z.land_spec, mask_bit by lia.
    destruct (Z.leb_spec (8 - r) k), (Z.ltb_spec k 8); simpl; rewrite ?andb_false_r; try done.
    specialize (Hb (Z.to_nat (7 - k)) ltac:(lia)).
    replace (7 - Z.of_nat (Z.to_nat (7 - k))) with k in Hb by lia. by rewrite Hb.
Qed.

Lemma take_octets n a b w :
  octets_ok n a → octets_ok n b → (w <= n)%nat →
  take w a = take w b ↔ ∀ j, (j < w)%nat → octet a j = octet b j.
Proof.
  intros [Ha _] [Hb _] Hw. unfold octet. split.
  - intros E j Hj. apply (f_equal (lookup j)) in E. rewrite !lookup_take_lt in E by done.
    by rewrite E.
  - intros Hj. apply list_eq. intros j. destruct (decide (j < w)%nat) as [Hlt|Hge].
    + rewrite !lookup_take_lt by done. specialize (Hj j Hlt).
      destruct (lookup_lt_is_Some_2 a j) as [x Hx]; [lia|].
      destruct (lookup_lt_is_Some_2 b j) as [y Hy]; [lia|].
      rewrite Hx, Hy in *. simpl in Hj. by f_equal.
    + by rewrite !lookup_take_ge by lia.
Qed.

Lemma prefix_eq_spec n a b k :
  octets_ok n a → octets_ok n b → 0 <= k <= 8 * Z.of_nat n →
  prefix_eq a b k = true ↔ same_bits k a b.
Proof.
  intros Ha Hb Hk. unfold prefix_eq, same_bits. fold (mask (k mod 8)).
  set (w := Z.to_nat (k / 8)). pose proof (Z.div_mod k 8 ltac:(lia)) as Hdiv.
  pose proof (Z.mod_pos_bound k 8 ltac:(lia)) as Hmod.
  assert (Z.of_nat w = k / 8) as Hw by (unfold w; rewrite Z2Nat.id; [done|apply Z.div_pos; lia]).
  assert ((∀ i : nat, Z.of_nat i < k → bit a i = bit b i) ↔
    (∀ j, (j < w)%nat → octet a j = octet b j) ∧
    (∀ i : nat, Z.of_nat i < k mod 8 →
      Z.testbit (octet a w) (7 - Z.of_nat i) = Z.testbit (octet b w) (7 - Z.of_nat i))) as ->.
  { assert (∀ j i : nat, (i < 8)%nat → ((8 * j + i) / 8 = j ∧ (8 * j + i) mod 8 = i)%nat) as Hji.
    { intros j i Hi. split; [|]; [symmetry; apply (Nat.div_unique _ _ j i); lia
      |symmetry; apply (Nat.mod_unique _ _ j i); lia]. }
    unfold bit. split.
    - intros Hall. split.
      + intros j Hj. apply octet_bits; [by eapply octet_range..|]. intros i Hi.
        specialize (Hall (8 * j + i)%nat ltac:(lia)). destruct (Hji j i Hi) as [E1 E2].
        by rewrite E1, E2 in Hall.
      + intros i Hi. specialize (Hall (8 * w + i)%nat ltac:(lia)).
        destruct (Hji w i ltac:(lia)) as [E1 E2]. by rewrite E1, E2 in Hall.
    - intros [Hwhole Hrest] i Hi. pose proof (Nat.div_mod i 8 ltac:(lia)) as Hd.
      pose proof (Nat.mod_upper_bound i 8 ltac:(lia)).
      destruct (decide (i / 8 < w)%nat) as [Hlt|Hge]; [by rewrite Hwhole|].
      assert (i / 8 = w)%nat as -> by lia. apply Hrest. lia. }
  rewrite <- (take_octets n a b w Ha Hb) by lia.
  destruct (decide (take w a = take w b)) as [E|E].
  - rewrite bool_decide_eq_true_2 by done. simpl.
    destruct (Z.eqb_spec (k mod 8) 0) as [->|Hne].
    + split; [|done]. intros _. split; [done|lia].
    + rewrite masked_bits by (lia || by eapply octet_range). naive_solver.
  - rewrite bool_decide_eq_false_2 by done. simpl. naive_solver.
Qed.

(** An address as IPv6 sees it, and a prefix of it. *)
Definition mapped : list Z := replicate 10 0 ++ [255; 255].
Definition as_v6 (a : IpAddr) : list Z := match a with V4 o => mapped ++ o | V6 o => o end.
Definition v6_bits (p : IpPrefix) : Z := match addr p with V4 _ => bits p + 96 | V6 _ => bits p end.
Definition ip_ok (a : IpAddr) : Prop :=
  match a with V4 o => octets_ok 4 o | V6 o => octets_ok 16 o end.
Definition prefix_ok (p : IpPrefix) : Prop := ip_ok (addr p) ∧ 0 <= bits p <= max_bits (addr p).

Lemma as_v6_ok a : ip_ok a → octets_ok 16 (as_v6 a).
Proof.
  destruct a as [o|o]; [|done]. intros [Hl Hf]. cbn [as_v6]. split.
  - rewrite length_app, Hl. done.
  - apply Forall_app. split; [|done]. unfold mapped. simpl. repeat constructor; lia.
Qed.

Lemma prefix_eq_mapped a b k : 0 <= k → prefix_eq (mapped ++ a) (mapped ++ b) (k + 96) = prefix_eq a b k.
Proof.
  intros Hk. unfold prefix_eq.
  replace ((k + 96) mod 8) with (k mod 8) by (replace (k + 96) with (k + 12 * 8) by lia;
    by rewrite Z.mod_add by lia).
  replace (Z.to_nat ((k + 96) / 8)) with (length mapped + Z.to_nat (k / 8))%nat.
  2: { replace (k + 96) with (k + 12 * 8) by lia. rewrite Z.div_add by lia.
       assert (0 <= k / 8) by (apply Z.div_pos; lia).
       change (length mapped) with 12%nat. lia. }
  unfold octet. rewrite !take_app_add, !lookup_app_r by lia.
  replace (length mapped + Z.to_nat (k / 8) - length mapped)%nat with (Z.to_nat (k / 8)) by lia.
  erewrite (bool_decide_ext _ (take (Z.to_nat (k / 8)) a = take (Z.to_nat (k / 8)) b)); [done|].
  split; [by intros ?%app_inv_head|by intros ->].
Qed.

Lemma to_ipv4_mapped_spec o v : to_ipv4_mapped o = Some v ↔ o = mapped ++ v.
Proof.
  unfold to_ipv4_mapped, mapped. case_bool_decide as E.
  - split; [|by intros ->]. intros [= <-]. by rewrite <- E, take_drop.
  - split; [done|]. intros ->. destruct E. done.
Qed.

Lemma prefix_eq_short a b k :
  96 <= k → take 12 a ≠ take 12 b → prefix_eq a b k = false.
Proof.
  intros Hk Hne. unfold prefix_eq. rewrite bool_decide_eq_false_2; [done|].
  intros E. apply Hne. apply (f_equal (take 12)) in E. rewrite !take_take in E.
  assert (12 <= k / 8) by (apply Z.div_le_lower_bound; lia).
  by rewrite Nat.min_l in E by lia.
Qed.

(** Address rules are exact: a rule's prefix contains a client exactly when their
    first [bits] bits agree, the IPv4 side of a mixed pair read as [::ffff:a.b.c.d];
    and an IPv6 prefix shorter than /96 never takes in IPv4 clients. *)
Theorem prefix_contains_spec p ip :
  prefix_ok p → ip_ok ip →
  contains p ip = true ↔
  same_bits (v6_bits p) (as_v6 (addr p)) (as_v6 ip) ∧
  (∀ net o, addr p = V6 net → ip = V4 o → 96 <= bits p).
Proof.
  intros [Hp Hb] Hip. pose proof (as_v6_ok _ Hp) as Hp16. pose proof (as_v6_ok _ Hip) as Hip16.
  unfold contains, v6_bits in *. destruct p as [[net|net] k], ip as [o|o];
    cbn [addr bits as_v6 max_bits] in *;
    rewrite <- (prefix_eq_spec 16) by (done || lia).
  - rewrite prefix_eq_mapped by lia. naive_solver.
  - destruct (to_ipv4_mapped o) as [v|] eqn:E.
    + apply to_ipv4_mapped_spec in E as ->. rewrite prefix_eq_mapped by lia. naive_solver.
    + rewrite prefix_eq_short; [naive_solver|lia|]. intros E'.
      assert (to_ipv4_mapped o = Some (drop 12 o)) as H; [|by rewrite E in H].
      apply to_ipv4_mapped_spec. rewrite <- (take_drop 12 o) at 1. by rewrite <- E'.
  - destruct (Z.leb_spec 96 k) as [Hk|Hk]; cbn [andb]; [|split; [done|intros [_ H]; specialize (H net o eq_refl eq_refl); lia]].
    destruct (to_ipv4_mapped net) as [v|] eqn:E.
    + apply to_ipv4_mapped_spec in E as ->.
      rewrite <- (prefix_eq_mapped v o (k - 96)) by lia.
      replace (k - 96 + 96) with k by lia. naive_solver.
    + rewrite prefix_eq_short; [naive_solver|lia|]. intros E'.
      assert (to_ipv4_mapped net = Some (drop 12 net)) as H; [|by rewrite E in H].
      apply to_ipv4_mapped_spec. rewrite <- (take_drop 12 net) at 1. by rewrite E'.
  - naive_solver.
Qed.

(** ** The hit series counts *)

Definition hits_in (ts : list Z) (bucket : Z) : Z :=
  Z.of_nat (length (List.filter (λ t, t / HIT_BUCKET_SECS =? bucket) ts)).

(** The ring holds [f], modulo 2^32, for the hour that ends at bucket [h], and nothing was
    recorded after it. *)
Record series_inv (s : HitSeries) (f : Z → Z) (h : Z) : Prop := {
  si_length : length (buckets s) = 60%nat;
  si_head : head s = h;
  si_window : ∀ b, h - 59 <= b <= h → octet (buckets s) (slot b) = U32.wrap (f b);
  si_future : ∀ b, h < b → f b = 0;
}.

Lemma slot_lt b : (slot b < 60)%nat.
Proof. unfold slot, HIT_BUCKETS. pose proof (Z.mod_pos_bound b 60). lia. Qed.

Lemma slot_eq b c : slot b = slot c ↔ (60 | b - c).
Proof.
  unfold slot, HIT_BUCKETS.
  pose proof (Z.mod_pos_bound b 60 ltac:(lia)). pose proof (Z.mod_pos_bound c 60 ltac:(lia)).
  pose proof (Z.div_mod b 60 ltac:(lia)). pose proof (Z.div_mod c 60 ltac:(lia)). split.
  - intros E. exists (b / 60 - c / 60). lia.
  - intros [k Hk]. nia.
Qed.

Lemma slot_near b c : slot b = slot c → -60 < b - c < 60 → b = c.
Proof. intros [k Hk]%slot_eq ?. lia. Qed.

Lemma octet_insert (l : list Z) i j x :
  (i < length l)%nat → octet (<[i := x]> l) j = if decide (i = j) then x else octet l j.
Proof.
  intros Hi. unfold octet. case_decide as E; [subst; by rewrite list_lookup_insert_eq|].
  by rewrite list_lookup_insert_ne.
Qed.

Lemma zeroed_octet h (steps : list Z) l j :
  length l = 60%nat →
  length (foldl (λ b step, <[slot (h + step) := 0]> b) l steps) = 60%nat ∧
  octet (foldl (λ b step, <[slot (h + step) := 0]> b) l steps) j =
    if bool_decide (j ∈ (λ step, slot (h + step)) <$> steps) then 0 else octet l j.
Proof.
  revert l. induction steps as [|step steps IH]; intros l Hl; simpl; [done|].
  destruct (IH (<[slot (h + step) := 0]> l)) as [Hlen ->]; [by rewrite length_insert|].
  split; [done|]. rewrite octet_insert by (rewrite Hl; apply slot_lt).
  destruct (decide (slot (h + step) = j)) as [<-|Hne].
  - rewrite (bool_decide_eq_true_2 (_ ∈ _ :: _)) by constructor. by case_bool_decide.
  - erewrite bool_decide_ext; [done|]. rewrite elem_of_cons. naive_solver.
Qed.

Lemma roll_inv s f h b : series_inv s f h → h <= b → series_inv (roll_to s b) f b.
Proof.
  intros [Hlen <- Hw Hf] Hb. unfold roll_to. destruct (Z.leb_spec b (head s)) as [Hle|Hgt].
  { replace b with (head s) by lia. by split. }
  split; cbn [buckets head].
  - apply (zeroed_octet _ _ _ O Hlen).
  - done.
  - intros c Hc. rewrite (proj2 (zeroed_octet _ _ _ _ Hlen)). unfold HIT_BUCKETS.
    case_bool_decide as Hin.
    + apply list_elem_of_fmap in Hin as (step & E & Hstep%elem_of_seqZ).
      destruct (decide (head s < c)) as [Hlt|Hge]; [by rewrite Hf|].
      apply slot_near in E; lia.
    + destruct (decide (head s < c)) as [Hlt|Hge]; [|apply Hw; lia].
      exfalso. apply Hin. apply list_elem_of_fmap.
      destruct (decide (c - head s <= 60)) as [Hn|Hfar].
      * exists (c - head s). split; [f_equal; lia|]. apply elem_of_seqZ. lia.
      * pose proof (Z.mod_pos_bound (c - head s - 1) 60 ltac:(lia)).
        pose proof (Z.div_mod (c - head s - 1) 60 ltac:(lia)).
        exists ((c - head s - 1) mod 60 + 1). split; [|apply elem_of_seqZ; lia].
        apply slot_eq. exists ((c - head s - 1) / 60). lia.
  - intros c Hc. apply Hf. lia.
Qed.

Lemma record_inv s f h t :
  series_inv s f h → h <= t / HIT_BUCKET_SECS →
  series_inv (record s t) (λ b, f b + if t / HIT_BUCKET_SECS =? b then 1 else 0)
    (t / HIT_BUCKET_SECS).
Proof.
  intros Hs Hle. unfold record. set (b := t / HIT_BUCKET_SECS) in *.
  destruct (roll_inv _ _ _ b Hs Hle) as [Hlen Hh Hw Hf].
  set (s' := roll_to s b) in *. split; cbn [buckets head].
  - by rewrite length_alter.
  - done.
  - intros c Hc. specialize (Hw c Hc). unfold octet in *.
    destruct (Z.eqb_spec b c) as [<-|Hne].
    + rewrite list_lookup_alter_eq.
      destruct (lookup_lt_is_Some_2 (buckets s') (slot b)) as [x Hx]; [rewrite Hlen; apply slot_lt|].
      rewrite Hx in *. simpl in *. rewrite Hw. unfold U32.wrap. apply Zplus_mod_idemp_l.
    + rewrite list_lookup_alter_ne; [by rewrite Z.add_0_r|].
      intros E. apply slot_near in E; lia.
  - intros c Hc. rewrite Hf by lia. destruct (Z.eqb_spec b c); lia.
Qed.

Lemma snapshot_inv s f h now :
  series_inv s f h → (∀ b, b < 0 → f b = 0) → h <= now / HIT_BUCKET_SECS →
  fst (snapshot s now) =
    (λ i, U32.wrap (f (now / HIT_BUCKET_SECS - (59 - i)))) <$> seqZ 0 60.
Proof.
  intros Hs Hneg Hle. unfold snapshot. set (b := now / HIT_BUCKET_SECS) in *.
  destruct (roll_inv _ _ _ b Hs Hle) as [Hlen Hh Hw Hf]. cbn [fst].
  apply list_fmap_ext. intros k i Hi. apply lookup_seqZ in Hi as [-> Hi].
  rewrite Hh. unfold HIT_BUCKETS. destruct (Z.leb_spec (60 - 1 - (0 + Z.of_nat k)) b).
  - replace (60 - 1 - (0 + Z.of_nat k)) with (59 - (0 + Z.of_nat k)) by lia. apply Hw. lia.
  - rewrite Hneg by lia. done.
Qed.

(** The hit chart is exact: after any hits at nondecreasing times, however long the
    gaps, [snapshot] reports for each of the last sixty minutes, oldest first, the
    number of hits of that minute, modulo 2^32, and zero for the minutes before the
    epoch; no stale count of an earlier lap survives. *)
Theorem hit_series_exact t0 ts now :
  0 <= t0 → StronglySorted Z.le (t0 :: ts ++ [now]) →
  fst (snapshot (foldl record (series_new t0) ts) now) =
    (λ i, U32.wrap (hits_in ts (now / HIT_BUCKET_SECS - (59 - i)))) <$> seqZ 0 60.
Proof.
  intros H0.
  assert (series_inv (series_new t0) (λ _, 0) (t0 / HIT_BUCKET_SECS)) as Hinv.
  { split; [done|done| |done]. intros b _. unfold octet.
    change (buckets (series_new t0)) with (replicate 60 0). rewrite lookup_replicate_2; [done|apply slot_lt]. }
  assert (∀ f s h tp, series_inv s f h → h = tp / HIT_BUCKET_SECS → (∀ b, b < 0 → f b = 0) →
    0 <= tp → StronglySorted Z.le (tp :: ts ++ [now]) →
    fst (snapshot (foldl record s ts) now) =
      (λ i, U32.wrap (f (now / HIT_BUCKET_SECS - (59 - i)) +
        hits_in ts (now / HIT_BUCKET_SECS - (59 - i)))) <$> seqZ 0 60) as Hgen.
  { clear. induction ts as [|t ts IH]; intros f s h tp Hs -> Hneg Htp Hsort; cbn [foldl].
    - apply StronglySorted_inv in Hsort as [_ Hall]. simpl in Hall.
      apply Forall_cons in Hall as [Hnow _].
      rewrite (snapshot_inv s f _ now Hs Hneg) by (apply Z.div_le_mono; [done|lia]).
      apply list_fmap_ext. intros k i _. unfold hits_in. simpl. by rewrite Z.add_0_r.
    - apply StronglySorted_inv in Hsort as [Hsort Hall]. simpl in Hall.
      apply Forall_cons in Hall as [Ht _].
      pose proof (record_inv s f _ t Hs ltac:(apply Z.div_le_mono; [done|lia])) as Hr.
      rewrite (IH _ _ _ t Hr eq_refl); [|..|lia|done].
      + apply list_fmap_ext. intros k i _. f_equal. unfold hits_in. cbn [List.filter].
        set (b := now / HIT_BUCKET_SECS - (59 - i)).
        destruct (t / HIT_BUCKET_SECS =? b); cbn [length]; lia.
      + intros b Hb. rewrite Hneg by done.
        assert (0 <= t / HIT_BUCKET_SECS) by (apply Z.div_pos; [lia|done]).
        destruct (Z.eqb_spec (t / HIT_BUCKET_SECS) b); lia. }
  intros Hsort. rewrite (Hgen (λ _, 0) _ _ t0 Hinv eq_refl); [|done|done|done].
  apply list_fmap_ext. intros k i _. by rewrite Z.add_0_l.
Qed.

(** ** Decisions *)

(** A rule of action [a] that applies to the request. *)
Definition applies (a : RuleAction) (f : RequestFacts) (now : Z) (r : Rule) : Prop :=
  expired r now = false ∧ matches (match_ r) f = true ∧ action r = a.

Lemma scan_spec f now l i fb :
  match scan f now l i fb with
  | Some (k, r) =>
    (action r = Allow ∧ i <= k ∧ l !! (k - i) = Some r ∧ applies Allow f now r)%nat ∨
    (∀ r', r' ∈ l → ¬ applies Allow f now r') ∧
    (fb = Some (k, r) ∨
     (fb = None ∧ i <= k ∧ l !! (k - i) = Some r ∧ applies Block f now r ∧
      ∀ j r', j < k - i → l !! j = Some r' → ¬ applies Block f now r'))%nat
  | None => fb = None ∧ ∀ a r, r ∈ l → ¬ applies a f now r
  end.
Proof.
  revert i fb. induction l as [|r l IH]; intros i fb; cbn [scan].
  { destruct fb as [[k r]|]; [right; split; [by intros ? ?%not_elem_of_nil|by left]|].
    split; [done|by intros ? ? ?%not_elem_of_nil]. }
  destruct (expired r now || negb (matches (match_ r) f)) eqn:Hskip.
  - assert (∀ a, ¬ applies a f now r) as Hr.
    { intros a (He & Hm & _). by rewrite He, Hm in Hskip. }
    specialize (IH (S i) fb). destruct (scan f now l (S i) fb) as [[k x]|].
    + destruct IH as [(Ha & Hi & Hl & Hx)|(Hno & [->|(-> & Hi & Hl & Hx & Hfirst)])].
      * left. split_and!; [done|lia| |done]. by replace (k - i)%nat with (S (k - S i)) by lia.
      * right. split; [|by left]. intros r' [->|Hin]%elem_of_cons; auto.
      * right. split; [intros r' [->|Hin]%elem_of_cons; auto|right].
        split_and!; [done|lia|by replace (k - i)%nat with (S (k - S i)) by lia|done|].
        intros [|j] r' Hj Hl'; simpl in Hl'; [by injection Hl' as <-|]. eapply Hfirst; [|done]. lia.
    + destruct IH as [-> Hno]. split; [done|]. intros a r' [->|Hin]%elem_of_cons; eauto.
  - apply orb_false_iff in Hskip as [He Hm]. apply negb_false_iff in Hm.
    destruct (action r) eqn:Ha.
    + specialize (IH (S i) (match fb with None => Some (i, r) | Some b => Some b end)).
      assert (¬ applies Allow f now r) as Hr by (intros (_ & _ & H); congruence).
      destruct (scan f now l (S i) _) as [[k x]|].
      * destruct IH as [(Hax & Hi & Hl & Hx)|(Hno & Hfb)].
        -- left. split_and!; [done|lia| |done]. by replace (k - i)%nat with (S (k - S i)) by lia.
        -- right. split; [intros r' [->|Hin]%elem_of_cons; auto|].
           destruct fb as [b|]; [left; naive_solver|right].
           destruct Hfb as [[= <- <-]|(? & _)]; [|done].
           split_and!; [done|lia|by rewrite Nat.sub_diag|done|]. intros j r' Hj. lia.
      * destruct IH as [Hfb _]. by destruct fb.
    + left. split_and!; [done|done|by rewrite Nat.sub_diag|done].
Qed.

(** An exemption always wins, in whatever order the rules were made: a request passes
    because some live allow rule matches it, and it is then counted as exempted and
    nothing as blocked, or because no live rule matches it, and then nothing changes;
    it is refused, or reported in the dry run, exactly when a live block rule matches
    and no live allow rule does, and the first such block takes the hit. *)
Theorem decide_allow_wins g f now :
  match decide_request g f now with
  | (Pass, g') =>
    ((∃ r, r ∈ rules g ∧ applies Allow f now r) ∧
      exempted g' = U64.wrapping_add (exempted g) 1 ∧ blocked g' = blocked g) ∨
    ((∀ a r, r ∈ rules g → ¬ applies a f now r) ∧ g' = g)
  | (Blocked r, g') | (WouldBlock r, g') =>
    (∀ x, x ∈ rules g → ¬ applies Allow f now x) ∧
    ∃ i r0, rules g !! i = Some r0 ∧ applies Block f now r0 ∧
      (∀ j x, (j < i)%nat → rules g !! j = Some x → ¬ applies Block f now x) ∧
      r = record_hit now r0 ∧ rules g' = <[i := r]> (rules g) ∧
      blocked g' = U64.wrapping_add (blocked g) 1 ∧ exempted g' = exempted g ∧
      fst (decide_request g f now) = if enforce g then Blocked r else WouldBlock r
  end.
Proof.
  unfold decide_request. pose proof (scan_spec f now (rules g) 0 None) as Hs.
  destruct (scan f now (rules g) 0 None) as [[k r]|]; [|right; by destruct Hs].
  rewrite Nat.sub_0_r in Hs.
  destruct Hs as [(Ha & _ & Hl & Hr)|(Hno & [?|(_ & _ & Hl & Hr & Hfirst)])]; [| done|].
  - rewrite Ha. left. split_and!; [|done..]. exists r. split; [|done].
    by eapply list_elem_of_lookup_2.
  - pose proof Hr as (_ & _ & Ha). rewrite Ha.
    assert (alter (record_hit now) k (rules g) = <[k := record_hit now r]> (rules g)) as Hal.
    { by apply list_alter_Some. }
    destruct (enforce g); (split; [done|]; exists k, r; cbn [rules blocked exempted fst];
      rewrite Hal; split_and!; try done).
Qed.

(** ** Normal forms *)

Lemma cap_inv v m e r :
  cap v m e = Ok r →
  match r with
  | Some s => s ≠ "" ∧ Chars.trim s = s ∧ (String.length s <= m)%nat
  | None => True
  end.
Proof.
  unfold cap. destruct v as [s|]; [|by intros [= <-]].
  destruct (String.eqb_spec (Chars.trim s) ""); [by intros [= <-]|].
  destruct (Nat.ltb_spec m (String.length s)); [done|]. intros [= <-].
  split_and!; [done|apply Trim.trim_trim|]. pose proof (Trim.trim_length s). lia.
Qed.

Lemma cap_normal s m e :
  s ≠ "" → Chars.trim s = s → (String.length s <= m)%nat → cap (Some s) m e = Ok (Some s).
Proof.
  intros Hne Ht Hl. unfold cap. rewrite Ht.
  destruct (String.eqb_spec s ""); [done|]. by destruct (Nat.ltb_spec m (String.length s)); [lia|].
Qed.

Lemma map_nonempty f s : s ≠ "" → Str.map f s ≠ "".
Proof. by destruct s. Qed.

(** A capped condition, mapped letterwise, is capped to itself. *)
Lemma cap_map (f : ascii → ascii) v m e r :
  Trim.letters_only f → (∀ s, Str.map f (Str.map f s) = Str.map f s) →
  cap v m e = Ok r →
  cap (Str.map f <$> r) m e = Ok (Str.map f <$> r) ∧
  Str.map f <$> (Str.map f <$> r) = Str.map f <$> r.
Proof.
  intros Hf Hid Hc. apply cap_inv in Hc. destruct r as [s|]; [|done].
  destruct Hc as (Hne & Ht & Hl). simpl. rewrite Hid. split; [|done].
  apply cap_normal; [by apply map_nonempty|by rewrite Trim.trim_map, Ht|by rewrite Str.map_length].
Qed.

Lemma cap_cap v m e r : cap v m e = Ok r → cap r m e = Ok r.
Proof.
  intros Hc. apply cap_inv in Hc. destruct r as [s|]; [|done].
  destruct Hc as (Hne & Ht & Hl). by apply cap_normal.
Qed.

Lemma cap_nonempty v m e r : cap v m e = Ok r → r ≠ Some "".
Proof. intros Hc ->. by apply cap_inv in Hc as [? _]. Qed.

(** The request that carries nothing. *)
Definition nothing : RequestFacts :=
  {| f_client := None; f_host := None; f_path := ""; f_method := ""; f_deployment := None;
     f_user_agent := None |}.

Definition digits_ok (n : nat) : bool :=
  bool_decide (ParseInt.u8 (pretty (N.of_nat n)) = Some (Z.of_nat n)) &&
  Str.all Trim.is_graph (pretty (N.of_nat n)) && (String.length (pretty (N.of_nat n)) <=? 3)%nat.

Lemma digits_spec k : 0 <= k <= 128 →
  ParseInt.u8 (pretty (Z.to_N k)) = Some k ∧ Str.all Trim.is_graph (pretty (Z.to_N k)) = true ∧
  (String.length (pretty (Z.to_N k)) <= 3)%nat.
Proof.
  intros Hk. assert (forallb digits_ok (seq 0 129) = true) as Hall by (vm_compute; reflexivity).
  rewrite forallb_forall in Hall. specialize (Hall (Z.to_nat k)).
  rewrite in_seq in Hall. specialize (Hall ltac:(lia)). unfold digits_ok in Hall.
  rewrite Z_nat_N, Z2Nat.id in Hall by lia. apply andb_true_iff in Hall as [Hall Hl].
  apply andb_true_iff in Hall as [H1 H2]. apply bool_decide_eq_true_1 in H1.
  apply Nat.leb_le in Hl. done.
Qed.

Lemma str_all_app f s t : Str.all f (s +:+ t) = Str.all f s && Str.all f t.
Proof.
  induction s as [|c s IH]; [done|]. change (String c s +:+ t) with (String c (s +:+ t)).
  cbn [Str.all]. rewrite IH. apply andb_assoc.
Qed.

Lemma graph_nonempty_trim s : Str.all Trim.is_graph s = true → Chars.trim s = s.
Proof. apply Trim.trim_graph. Qed.

Lemma split_once_slash s t :
  Str.all (λ c, negb (Ascii.eqb c "/")) s = true →
  Chars.split_once "/" (s +:+ "/" +:+ t) = Some (s, t).
Proof.
  induction s as [|c s IH]; [done|]. cbn [Str.all]. intros [Hc Hs]%andb_true_iff.
  change (String c s +:+ "/" +:+ t) with (String c (s +:+ "/" +:+ t)).
  cbn [Chars.split_once Str.strip_prefix]. apply negb_true_iff, Ascii.eqb_neq in Hc.
  destruct (Ascii.eqb_spec "/" c); [congruence|]. by rewrite IH.
Qed.

Lemma split_once_none s :
  Str.all (λ c, negb (Ascii.eqb c "/")) s = true → Chars.split_once "/" s = None.
Proof.
  induction s as [|c s IH]; [done|]. cbn [Str.all]. intros [Hc Hs]%andb_true_iff.
  cbn [Chars.split_once Str.strip_prefix]. apply negb_true_iff, Ascii.eqb_neq in Hc.
  destruct (Ascii.eqb_spec "/" c); [congruence|]. by rewrite IH.
Qed.

Section normal.
Context (ip_parse : string → option IpAddr) (ip_show : IpAddr → string)
  (sha256 : string → list Z).

(** What the code relies on of [IpAddr]: an address read prints as at most 45 graphic
    characters without a slash, which read back as the same address. *)
Definition ip_text_ok : Prop :=
  ∀ s a, ip_parse s = Some a →
    ip_parse (ip_show a) = Some a ∧ Str.all Trim.is_graph (ip_show a) = true ∧
    Str.all (λ c, negb (Ascii.eqb c "/")) (ip_show a) = true ∧ ip_show a ≠ "" ∧
    (String.length (ip_show a) <= 45)%nat.

Definition match_ok (m : RuleMatch) : Prop :=
  build_match ip_parse (to_spec ip_show m) = Ok m.

Definition rule_ok (r : Rule) : Prop :=
  match_ok (match_ r) ∧ conditions (match_ r) ≠ 0%nat ∧
  rid r = rule_id ip_show sha256 (action r) (match_ r) ∧
  cap (note r) MAX_NOTE "note" = Ok (note r).

Context (Hip : ip_text_ok).

Lemma show_prefix_graph p s :
  ip_parse s = Some (addr p) → 0 <= bits p <= max_bits (addr p) →
  Str.all Trim.is_graph (show_prefix ip_show p) = true ∧
  (String.length (show_prefix ip_show p) <= 49)%nat ∧ show_prefix ip_show p ≠ "" ∧
  parse ip_parse (show_prefix ip_show p) = Some p.
Proof.
  intros Hs Hb. destruct (Hip _ _ Hs) as (Hrt & Hg & Hslash & Hne & Hl).
  assert (max_bits (addr p) <= 128) as Hmax by (destruct (addr p); simpl; lia).
  unfold show_prefix. destruct (Z.eqb_spec (bits p) (max_bits (addr p))) as [Hfull|Hpart].
  - split_and!; [done|lia|done|]. unfold parse.
    rewrite (Trim.trim_graph (ip_show (addr p)) Hg), split_once_none by done. simpl.
    rewrite Hrt. simpl. rewrite Z.leb_refl. destruct p; simpl in *. by rewrite Hfull.
  - destruct (digits_spec (bits p)) as (Hd & Hdg & Hdl); [lia|].
    assert (Str.all Trim.is_graph (ip_show (addr p) +:+ "/" +:+ pretty (Z.to_N (bits p))) = true) as Hall.
    { rewrite !str_all_app, Hg, Hdg. done. }
    split_and!; [done| | |].
    + rewrite !Trim.length_append. change (String.length "/") with 1%nat. lia.
    + by destruct (ip_show (addr p)).
    + unfold parse. rewrite (Trim.trim_graph _ Hall), split_once_slash by done. cbn [mbind option_bind].
      rewrite (Trim.trim_graph _ Hdg), Hd. cbn [mbind option_bind].
      rewrite (Trim.trim_graph _ Hg), Hrt. cbn. destruct (Z.leb_spec (bits p) (max_bits (addr p))); [|lia].
      by destruct p.
Qed.

Lemma u8_nonneg s n : ParseInt.u8 s = Some n → 0 <= n.
Proof.
  assert (∀ s acc n, 0 <= acc → ParseInt.digits acc s = Some n → 0 <= n) as Hd.
  { clear. induction s as [|c s IH]; intros acc n Hacc; simpl; [by intros [= <-]|].
    destruct (Str.is_ascii_digit c) eqn:Ec; [|done]. apply IH.
    unfold Str.is_ascii_digit, Str.in_range in Ec. apply andb_true_iff in Ec as [H1 _].
    apply N.leb_le in H1. lia. }
  unfold ParseInt.u8, ParseInt.unsigned. set (t := match s with String "+" s' => s' | _ => s end).
  destruct t as [|c t'] eqn:Et; [done|]. rewrite <- Et.
  destruct (ParseInt.digits 0 t) as [k|] eqn:Ek; [|done].
  destruct (k <=? 255); [|done]. intros [= <-]. by apply (Hd t 0 k).
Qed.

Lemma parse_inv s p :
  parse ip_parse s = Some p →
  (∃ s', ip_parse s' = Some (addr p)) ∧ 0 <= bits p <= max_bits (addr p).
Proof.
  unfold parse. intros H. apply bind_Some in H as ([a b] & Hab & H).
  apply bind_Some in H as (ad & Had & H).
  destruct (Z.leb_spec (default (max_bits ad) b) (max_bits ad)) as [Hle|]; [|done].
  injection H as <-. simpl. split; [by exists a|]. split; [|done].
  destruct b as [n|]; simpl; [|destruct ad; simpl; lia].
  destruct (Chars.split_once _ _) as [[a' b']|]; [|done].
  apply bind_Some in Hab as (n' & Hn & [= _ ->]). by eapply u8_nonneg.
Qed.

(** A client condition, read back from what it prints. *)
Definition client_ok (o : option IpPrefix) : Prop :=
  match o with
  | Some p =>
    parse ip_parse (show_prefix ip_show p) = Some p ∧
    Str.all Trim.is_graph (show_prefix ip_show p) = true ∧
    (String.length (show_prefix ip_show p) <= 49)%nat ∧ show_prefix ip_show p ≠ ""
  | None => True
  end.

Definition string_ok (o : option string) : Prop :=
  match o with Some s => s ≠ "" ∧ (String.length s <= 256)%nat | None => True end.

Definition strings (m : RuleMatch) : list (option string) :=
  [show_prefix ip_show <$> client m; host m; deployment m; path_prefix m; path_contains m;
   method m; user_agent_contains m].

Lemma build_client_ok (o : option string) cl :
  match Chars.trim <$> o with
  | Some c => if String.eqb c "" then Ok None
              else p <-? ok_or (parse ip_parse c) (BadClient c) ;; Ok (Some p)
  | None => Ok None
  end = Ok cl → client_ok cl.
Proof.
  destruct o as [s|]; simpl; [|by intros [= <-]].
  destruct (String.eqb _ _); [by intros [= <-]|]. intros H. inv_ok.
  apply parse_inv in Hx as [[s' Hs'] Hb].
  destruct (show_prefix_graph _ s' Hs' Hb) as (? & ? & ? & ?). done.
Qed.

Lemma cap_string_ok v n e r : cap v n e = Ok r → (n <= 256)%nat → string_ok r.
Proof. intros H Hn. apply cap_inv in H. destruct r as [s|]; simpl; [|done]. destruct H as (? & _ & ?). split; [done|lia]. Qed.

Lemma string_ok_map f r : string_ok r → string_ok (Str.map f <$> r).
Proof. destruct r as [s|]; [|done]. intros [Hne Hl]. split; [by apply map_nonempty|by rewrite Str.map_length]. Qed.

(** What [build] keeps of a match is a match it keeps as it is. *)
Lemma build_match_ok m0 m :
  build_match ip_parse m0 = Ok m → match_ok m ∧ client_ok (client m) ∧ Forall string_ok (strings m).
Proof.
  unfold build_match. intros H. apply rbind_ok in H as (cl & Hcl%build_client_ok & H).
  apply rbind_ok in H as (h & Hh & H). apply rbind_ok in H as (d & Hd & H).
  apply rbind_ok in H as (pp & Hpp & H). apply rbind_ok in H as (pc & Hpc & H).
  apply rbind_ok in H as (me & Hme & H). apply rbind_ok in H as (ua & Hua & H).
  injection H as <-. split_and!; [|done|].
  - destruct (cap_map _ _ _ _ _ Trim.lower_letters Trim.lower_lower Hh) as [Hh1 Hh2].
    destruct (cap_map _ _ _ _ _ Trim.upper_letters Trim.upper_upper Hme) as [Hm1 Hm2].
    destruct (cap_map _ _ _ _ _ Trim.lower_letters Trim.lower_lower Hua) as [Hu1 Hu2].
    unfold match_ok, build_match, to_spec, Str.to_ascii_lowercase, Str.to_ascii_uppercase in *.
    cbn [ms_client ms_host ms_deployment ms_path_prefix ms_path_contains ms_method
      ms_user_agent_contains client host deployment path_prefix path_contains method
      user_agent_contains].
    rewrite Hh1, Hm1, Hu1, (cap_cap _ _ _ _ Hd), (cap_cap _ _ _ _ Hpp), (cap_cap _ _ _ _ Hpc).
    cbn [rbind]. rewrite Hh2, Hm2, Hu2.
    destruct cl as [p|]; [|done]. destruct Hcl as (Hp & Hg & _ & Hne). cbn [fmap option_fmap option_map].
    rewrite Trim.trim_graph, Hp by done.
    by destruct (String.eqb_spec (show_prefix ip_show p) "").
  - repeat constructor; cbn [host deployment path_prefix path_contains method user_agent_contains];
      try apply string_ok_map; try (eapply cap_string_ok; [done|unfold MAX_HOST, MAX_PATTERN, MAX_UA; lia]).
    destruct cl as [p|]; [|done]. destruct Hcl as (_ & _ & Hl & Hne). split; [done|lia].
Qed.

Lemma build_ok s now r :
  build ip_parse ip_show sha256 s now = Ok r →
  rule_ok r ∧ action r = rs_action s ∧ created_at r = now ∧ hits r = 0 ∧ last_hit r = 0 ∧
  series r = series_new now.
Proof.
  unfold build. intros H. apply rbind_ok in H as (m & Hm & H).
  destruct (build_match_ok _ _ Hm) as (Hok & _).
  inv_ok. split_and!; try done. unfold rule_ok. cbn [match_ rid action note].
  split_and!; [done| |done|by eapply cap_cap]. by apply Nat.eqb_neq.
Qed.

(** A rule always asks something of the request. *)
Lemma rule_ok_nothing r : rule_ok r → matches (match_ r) nothing = false.
Proof.
  intros (Hm & Hc & _). apply build_match_ok in Hm as (_ & _ & Hs). unfold strings in Hs.
  destruct (match_ r) as [cl h d pp pc me ua].
  cbn [client host deployment path_prefix path_contains method user_agent_contains] in Hs.
  apply Forall_cons in Hs as [_ Hs]. apply Forall_cons in Hs as [_ Hs].
  apply Forall_cons in Hs as [_ Hs]. apply Forall_cons in Hs as [Hpp Hs].
  apply Forall_cons in Hs as [Hpc Hs]. apply Forall_cons in Hs as [Hme Hs].
  unfold matches, nothing, conditions in *.
  cbn [client host deployment path_prefix path_contains method user_agent_contains
    f_client f_host f_path f_method f_deployment f_user_agent] in *.
  destruct cl; [done|]. destruct h; [done|]. destruct d; [done|].
  destruct pp as [[|c pp]|]; [by destruct Hpp|done|].
  destruct pc as [[|c pc]|]; [by destruct Hpc|done|].
  destruct me as [[|c me]|]; [by destruct Hme|done|].
  destruct ua; [done|]. by destruct Hc.
Qed.

(** *** The digest's input *)

Lemma byte_of_inj a b : byte_of a = byte_of b → a mod 256 = b mod 256.
Proof.
  unfold byte_of. intros H. apply (f_equal N_of_ascii) in H.
  pose proof (Z.mod_pos_bound a 256 ltac:(lia)). pose proof (Z.mod_pos_bound b 256 ltac:(lia)).
  rewrite !N_ascii_embedding in H by lia. lia.
Qed.

Lemma le_bytes_inj n k x y :
  (n <= 256)%nat → (k <= 256)%nat → le_bytes n +:+ x = le_bytes k +:+ y → n = k ∧ x = y.
Proof.
  intros Hn Hk. unfold le_bytes, U32.wrap. rewrite !Z.mod_small by (unfold U32.modulus; lia).
  intros [= H0%byte_of_inj H1%byte_of_inj _ _ H]. split; [clear H|done].
  destruct (decide (n = 256)%nat) as [->|], (decide (k = 256)%nat) as [->|]; try done.
  - rewrite (Z.div_small (Z.of_nat k)) in H1 by lia. done.
  - rewrite (Z.div_small (Z.of_nat n)) in H1 by lia. done.
  - rewrite !Z.mod_small in H0 by lia. lia.
Qed.

Lemma str_app_inj s t x y :
  String.length s = String.length t → s +:+ x = t +:+ y → s = t ∧ x = y.
Proof.
  revert t. induction s as [|c s IH]; intros [|d t]; simpl; try done.
  intros [= Hl] [= -> H]. destruct (IH t Hl H) as [-> ->]. done.
Qed.

(** What follows a field: the next tag, or the end. *)
Definition tagged (s : string) : Prop :=
  match s with "" => True | String c _ => c ≠ byte_of 0 end.

Lemma none_not_some s x y :
  (String.length s <= 256)%nat → tagged x →
  String (byte_of 255) x ≠ le_bytes (String.length s) +:+ y.
Proof.
  intros Hl Hx. unfold le_bytes, U32.wrap. rewrite Z.mod_small by (unfold U32.modulus; lia).
  intros [= H0%byte_of_inj ->].
  assert (String.length s = 255)%nat as Hs.
  { destruct (decide (String.length s = 256)%nat) as [E|]; [by rewrite E in H0|].
    rewrite !Z.mod_small in H0 by lia. lia. }
  rewrite Hs in Hx. by apply Hx.
Qed.

Lemma field_inj t v w x y :
  string_ok v → string_ok w → tagged x → tagged y →
  field t v +:+ x = field t w +:+ y → v = w ∧ x = y.
Proof.
  intros Hv Hw Hx Hy H. apply (f_equal (Str.drop 1)) in H.
  assert (∀ s z, field t (Some s) +:+ z = String (byte_of t) (le_bytes (String.length s) +:+ s +:+ z))
    as Hsome by (intros s z; rewrite <- Str.append_assoc; done).
  destruct v as [s|], w as [r|]; rewrite ?Hsome in H; cbn [Str.drop] in H.
  - destruct Hv as [_ Hv], Hw as [_ Hw]. apply le_bytes_inj in H as [Hl H]; [|done..].
    by apply str_app_inj in H as [-> ->].
  - destruct Hv as [_ Hv]. symmetry in H. by apply none_not_some in H.
  - destruct Hw as [_ Hw]. by apply none_not_some in H.
  - injection H as E. split; [done|exact E].
Qed.

Lemma tagged_field t v x : 0 < t < 256 → tagged (field t v +:+ x).
Proof.
  intros Ht. unfold field. simpl. intros H%byte_of_inj. rewrite !Z.mod_small in H by lia. lia.
Qed.

Lemma tagged_last t v : 0 < t < 256 → tagged (field t v).
Proof.
  intros Ht. unfold field. simpl. intros H%byte_of_inj. rewrite !Z.mod_small in H by lia. lia.
Qed.

Lemma preimage_inj a b m n :
  match_ok m → match_ok n → rule_preimage ip_show a m = rule_preimage ip_show b n →
  a = b ∧ m = n.
Proof.
  intros Hm Hn H. pose proof Hm as (_ & _ & Hsm)%build_match_ok.
  pose proof Hn as (_ & _ & Hsn)%build_match_ok. unfold rule_preimage in H.
  assert (a = b) as <- by (destruct a, b; done). split; [done|].
  apply (inj (String.append _)) in H. apply (inj (String.append _)) in H.
  unfold strings in Hsm, Hsn.
  repeat match goal with
  | Hs : Forall string_ok (_ :: _) |- _ => apply Forall_cons in Hs as [? Hs]
  end.
  apply field_inj in H as [E1 H]; [|done|done|by apply tagged_field..].
  apply field_inj in H as [E2 H]; [|done|done|by apply tagged_field..].
  apply field_inj in H as [E3 H]; [|done|done|by apply tagged_field..].
  apply field_inj in H as [E4 H]; [|done|done|by apply tagged_field..].
  apply field_inj in H as [E5 H]; [|done|done|by apply tagged_field..].
  apply field_inj in H as [E6 H]; [|done|done|by apply tagged_last..].
  assert (user_agent_contains m = user_agent_contains n) as E7.
  { apply (field_inj 7 (user_agent_contains m) (user_agent_contains n) "" ""); [done..|].
    exact (f_equal (λ s, s +:+ "") H). }
  unfold match_ok, to_spec in *. rewrite <- E1, <- E2, <- E3, <- E4, <- E5, <- E6, <- E7 in Hn.
  congruence.
Qed.
(** *** The guard's rules stay in normal form *)

Inductive GuardOp : Type :=
| OpInsert (s : RuleSpec) (now : Z)
| OpRemove (id : string) (now : Z)
| OpSetExpiry (id : string) (e : option Z) (now : Z)
| OpSweep (now : Z)
| OpDecide (f : RequestFacts) (now : Z)
| OpPersist (written : bool)
| OpLoad (now : Z)
| OpStats (now : Z)
| OpReport (i : nat) (now : Z).

Definition apply_op (g : Guard) (o : GuardOp) : Guard :=
  match o with
  | OpInsert s now => snd (insert ip_parse ip_show sha256 g s now)
  | OpRemove id now => snd (remove g id now)
  | OpSetExpiry id e now => snd (set_expiry ip_show g id e now)
  | OpSweep now => snd (sweep g now)
  | OpDecide f now => snd (decide_request g f now)
  | OpPersist written => snd (persist ip_show g written)
  | OpLoad now => snd (load ip_parse ip_show sha256 g now)
  | OpStats now => snd (stats g now)
  | OpReport i now => set_rules g (alter (λ r, snd (report ip_show r (enforce g) now)) i (rules g))
  end.

Definition guard_ok (l : list Rule) : Prop := Forall rule_ok l ∧ (length l <= MAX_RULES)%nat.

Lemma guard_ok_filter f l : guard_ok l → guard_ok (List.filter f l).
Proof.
  intros [Hf Hl]. split.
  - rewrite Forall_forall in *. intros r Hr. apply Hf.
    rewrite !list_elem_of_In in *. by apply filter_In in Hr as [? _].
  - pose proof (List.filter_length_le f l). lia.
Qed.

Lemma live_others_drops id now r l :
  r ∈ l → rid r = id → (length (live_others id now l) < length l)%nat.
Proof.
  intros [l1 [l2 ->]]%list_elem_of_split <-. unfold live_others.
  rewrite List.filter_app, !length_app. simpl. rewrite String.eqb_refl. simpl.
  pose proof (List.filter_length_le (λ x, negb (rid x =? rid r)%string && negb (expired x now)) l1).
  pose proof (List.filter_length_le (λ x, negb (rid x =? rid r)%string && negb (expired x now)) l2).
  lia.
Qed.

Lemma restore_ok v r : restore ip_parse ip_show sha256 v = Ok r → rule_ok r.
Proof.
  unfold restore. intros H. apply rbind_ok in H as (r0 & Hb & [= <-]).
  by apply build_ok in Hb as [Hr _].
Qed.

Lemma load_views_ok now views acc l :
  guard_ok acc → (length acc < MAX_RULES)%nat →
  load_views ip_parse ip_show sha256 now views acc = Ok l → guard_ok l.
Proof.
  revert acc. induction views as [|v views IH]; intros acc Hacc Hlt; cbn [load_views];
    [by intros [= <-]|].
  destruct (match rv_expires_at v with Some e => e <=? now | None => false end); [by apply IH|].
  intros H. apply rbind_ok in H as (r & Hr%restore_ok & H).
  assert (guard_ok (acc ++ [r])) as Hnew.
  { destruct Hacc as [Ha _]. split; [by apply Forall_app; split; [|constructor]|].
    rewrite length_app. simpl. lia. }
  revert H. destruct (Nat.leb_spec MAX_RULES (length (acc ++ [r]))); [by intros [= <-]|by apply IH].
Qed.

Lemma hit_ok l i now : guard_ok l → guard_ok (alter (record_hit now) i l).
Proof.
  intros [Hf Hl]. split; [|by rewrite length_alter]. apply Forall_alter; [done|].
  intros x _ Hx. exact Hx.
Qed.

Lemma apply_op_ok g o : guard_ok (rules g) → guard_ok (rules (apply_op g o)).
Proof.
  intros Hg. destruct o as [s now|id now|id e now|now|f now|w|now|now|i now]; cbn [apply_op].
  - unfold insert. destruct (build _ _ _ s now) as [r|] eqn:Eb; [|done].
    apply build_ok in Eb as [Hr _].
    destruct (Nat.leb_spec MAX_RULES (length (live_others (rid r) now (rules g)))); [done|].
    cbn [snd set_rules rules]. split.
    + apply Forall_app. split; [by apply guard_ok_filter|by constructor].
    + rewrite length_app. simpl. lia.
  - unfold remove. destruct (existsb _ _); [|done]. by apply guard_ok_filter.
  - unfold set_expiry. destruct (List.find _ _) as [r|] eqn:Ef; [|done].
    apply find_some in Ef as [Hin%list_elem_of_In Hr]. apply andb_true_iff in Hr as [Hid _].
    apply String.eqb_eq in Hid. pose proof Hg as [Hall Hlen]. rewrite Forall_forall in Hall.
    pose proof (Hall _ Hin) as Hok. unfold report. destruct (snapshot _ _) as [recent ser]. cbn [snd set_rules rules]. split.
    + apply Forall_app. split; [by apply guard_ok_filter|]. constructor; [exact Hok|done].
    + rewrite length_app. pose proof (live_others_drops id now r (rules g) Hin Hid). simpl. lia.
  - unfold sweep. cbn [snd]. destruct (0 <? _)%nat; [by apply guard_ok_filter|done].
  - unfold decide_request. destruct (scan _ _ _ _ _) as [[i r]|]; [|done].
    destruct (action r); by apply hit_ok.
  - unfold persist. by destruct w.
  - unfold load. destruct (file g) as [| | | |views]; try done.
    destruct (load_views _ _ _ now views []) as [l|] eqn:El; [|done].
    apply load_views_ok in El; [done|split; [done|unfold MAX_RULES; simpl; lia]|unfold MAX_RULES; simpl; lia].
  - unfold stats. destruct (snapshot (blocked_series g) now), (snapshot (exempted_series g) now). done.
  - destruct Hg as [Hf Hl]. split; cbn [set_rules rules]; [|by rewrite length_alter].
    apply Forall_alter; [done|]. intros x _ Hx. unfold report. by destruct (snapshot _ _).
Qed.

Lemma ops_ok g ops : guard_ok (rules g) → guard_ok (rules (foldl apply_op g ops)).
Proof. revert g. induction ops as [|o ops IH]; intros g Hg; [done|]. by apply IH, apply_op_ok. Qed.

Lemma guard_new_ok enf f : guard_ok (rules (guard_new enf f)).
Proof. split; [done|unfold MAX_RULES; simpl; lia]. Qed.

(** *** Reading back what was persisted *)

Definition restored (r : Rule) : Rule :=
  {| rid := rid r; action := action r; match_ := match_ r; note := note r;
     created_at := created_at r; expires_at := expires_at r; hits := hits r;
     last_hit := last_hit r; series := series_new (created_at r) |}.

Lemma restore_view r enf :
  rule_ok r → restore ip_parse ip_show sha256 (view ip_show r enf) = Ok (restored r).
Proof.
  intros (Hm & Hc & Hid & Hn). unfold restore, build, view, match_ok in *.
  cbn [rv_action rv_match rv_note rv_created_at rs_action rs_match rs_note rs_expires_in_secs
    rv_expires_at rv_hits rv_last_hit]. rewrite Hm. cbn [rbind].
  apply Nat.eqb_neq in Hc. rewrite Hc. cbn [rbind bail_if]. rewrite Hn. cbn [rbind].
  unfold restored. f_equal. cbn. rewrite Hid. f_equal.
  by destruct (Z.eqb_spec (last_hit r) 0) as [->|].
Qed.

Lemma load_views_view now enf l acc :
  Forall rule_ok l →
  (length acc + length (List.filter (λ r, negb (expired r now)) l) <= MAX_RULES)%nat →
  load_views ip_parse ip_show sha256 now ((λ r, view ip_show r enf) <$> l) acc =
    Ok (acc ++ (restored <$> List.filter (λ r, negb (expired r now)) l)).
Proof.
  intros Hl. revert acc. induction Hl as [|r l Hr Hl IH]; intros acc Hlen;
    [by rewrite app_nil_r|].
  rewrite fmap_cons. cbn [load_views List.filter] in *.
  change (rv_expires_at (view ip_show r enf)) with (expires_at r).
  fold (expired r now). destruct (expired r now) eqn:He; cbn [negb] in *; [by apply IH|].
  rewrite restore_view by done. cbn [rbind]. rewrite fmap_cons. cbn [length] in Hlen.
  destruct (Nat.leb_spec MAX_RULES (length (acc ++ [restored r]))) as [Hfull|].
  - rewrite length_app in Hfull. simpl in Hfull.
    destruct (List.filter _ l) as [|x l']; [done|simpl in Hlen; lia].
  - rewrite IH by (rewrite length_app; simpl; lia). by rewrite <- app_assoc.
Qed.
End normal.

(** ** The theorems *)

(** No rule matches every request: whatever the rule file holds and whatever operations
    follow (inserts, removals, expiry changes, sweeps, decisions, saves, reloads, reads of
    the charts, in any order), there are never more than 256 rules, every rule has a condition and its id is
    the digest of its normal form, and a request that presents nothing is let through
    without a hit counted anywhere. *)
Theorem no_rule_matches_everything ip_parse ip_show sha256 enf f ops now :
  ip_text_ok ip_parse ip_show →
  let g := foldl (apply_op ip_parse ip_show sha256) (guard_new enf f) ops in
  (length (rules g) <= MAX_RULES)%nat ∧
  (∀ r, r ∈ rules g → conditions (match_ r) ≠ 0%nat ∧
    rid r = rule_id ip_show sha256 (action r) (match_ r) ∧ matches (match_ r) nothing = false) ∧
  decide_request g nothing now = (Pass, g).
Proof.
  intros Hip g. destruct (ops_ok ip_parse ip_show sha256 Hip _ ops (guard_new_ok ip_parse ip_show sha256 enf f)) as [Hf Hl].
  fold g in Hf, Hl. rewrite Forall_forall in Hf. split_and!; [done| |].
  - intros r Hr%Hf. pose proof Hr as (_ & Hc & Hid & _). split_and!; [done..|].
    by apply (rule_ok_nothing ip_parse ip_show sha256).
  - unfold decide_request. pose proof (scan_spec nothing now (rules g) 0 None) as Hs.
    destruct (scan nothing now (rules g) 0 None) as [[k r]|]; [|done]. exfalso.
    assert (∀ a x, x ∈ rules g → ¬ applies a nothing now x) as Hno.
    { intros a x Hx%Hf (_ & Hm & _). by rewrite (rule_ok_nothing ip_parse ip_show sha256 Hip x Hx) in Hm. }
    destruct Hs as [(_ & _ & Hk & Hr)|(_ & [?|(_ & _ & Hk & Hr & _)])]; [|done|];
      apply list_elem_of_lookup_2 in Hk; by eapply Hno.
Qed.

(** The rule id's digest input is unambiguous: two built rules hash the same bytes
    exactly when they have the same action and the same normalised match, so only a
    digest collision can make one rule overwrite another. *)
Theorem rule_preimage_injective ip_parse ip_show sha256 s1 s2 t1 t2 r1 r2 :
  ip_text_ok ip_parse ip_show →
  build ip_parse ip_show sha256 s1 t1 = Ok r1 → build ip_parse ip_show sha256 s2 t2 = Ok r2 →
  rule_preimage ip_show (action r1) (match_ r1) = rule_preimage ip_show (action r2) (match_ r2) ↔
  action r1 = action r2 ∧ match_ r1 = match_ r2.
Proof.
  intros Hip [[H1 _] _]%build_ok [[H2 _] _]%build_ok; [|done..].
  split; [|by intros [-> ->]]. by apply (preimage_inj ip_parse ip_show).
Qed.

(** C40. A restart keeps the rules: after any operations, saving and then loading the file in
    a new process gives back exactly the unexpired rules, in order, with the id, action,
    match, note, creation and expiry times, hit count and last hit each had; only the
    minute chart starts again. *)
Theorem persist_load_roundtrip ip_parse ip_show sha256 enf enf' f ops now :
  ip_text_ok ip_parse ip_show →
  let g := foldl (apply_op ip_parse ip_show sha256) (guard_new enf f) ops in
  let saved := snd (persist ip_show g true) in
  let live := List.filter (λ r, negb (expired r now)) (rules g) in
  load ip_parse ip_show sha256 (guard_new enf' (file saved)) now =
    (Ok (length live), set_rules (guard_new enf' (file saved)) (restored <$> live)).
Proof.
  intros Hip g saved live. destruct (ops_ok ip_parse ip_show sha256 Hip _ ops (guard_new_ok ip_parse ip_show sha256 enf f)) as [Hf Hl].
  fold g in Hf, Hl. unfold load. cbn [saved snd persist file guard_new].
  rewrite (load_views_view ip_parse ip_show sha256 now (enforce g) (rules g) []); [|done|].
  - by rewrite app_nil_l, length_fmap.
  - simpl. pose proof (List.filter_length_le (λ r, negb (expired r now)) (rules g)). lia.
Qed.

Lemma starts_with_take p s :
  (String.length p <= String.length s)%nat →
  Str.starts_with p s = String.eqb (Str.take (String.length p) s) p.
Proof.
  revert s. induction p as [|c p IH]; intros [|d s] Hl; simpl in Hl; try done; try lia.
  specialize (IH s ltac:(lia)). unfold Str.starts_with in *.
  cbn [Str.strip_prefix String.length Str.take String.eqb].
  rewrite (Ascii.eqb_sym d c). destruct (Ascii.eqb c d); [exact IH|done].
Qed.

Lemma map_take f n s : Str.map f (Str.take n s) = Str.take n (Str.map f s).
Proof. revert s. induction n as [|n IH]; intros [|c s]; try done. cbn. f_equal. apply IH. Qed.

Lemma contains_length p s : Str.contains p s = true → (String.length p <= String.length s)%nat.
Proof. intros (l & r & ->)%Str.contains_spec. rewrite !Trim.length_append. lia. Qed.

(** The user-agent search agrees with its meaning: it succeeds exactly when the
    lowercased header contains the lowercased needle. *)
Theorem user_agent_search_spec h needle :
  contains_ignore_ascii_case h needle =
  Str.contains (Str.to_ascii_lowercase needle) (Str.to_ascii_lowercase h).
Proof.
  unfold contains_ignore_ascii_case, Str.eq_ignore_ascii_case, Str.to_ascii_lowercase.
  destruct needle as [|n needle]; [destruct h; done|].
  set (p := String n needle). assert (p ≠ "") as Hne by done.
  change (String.eqb p "") with false. cbn [negb].
  assert (∀ h, existsb (λ w, String.eqb (Str.map Str.lower w) (Str.map Str.lower p))
    (windows (String.length p) h) = Str.contains (Str.map Str.lower p) (Str.map Str.lower h)) as Hw.
  { clear h. induction h as [|c h IH]; [done|].
    set (s := String c h). change (windows (String.length p) s) with
      (if (String.length p <=? String.length s)%nat
       then Str.take (String.length p) s :: windows (String.length p) h else []).
    destruct (Nat.leb_spec (String.length p) (String.length s)) as [Hle|Hgt].
    - cbn [existsb]. rewrite IH.
      change (Str.contains (Str.map Str.lower p) (Str.map Str.lower s)) with
        (Str.starts_with (Str.map Str.lower p) (Str.map Str.lower s) ||
         Str.contains (Str.map Str.lower p) (Str.map Str.lower h)).
      f_equal. rewrite starts_with_take by (by rewrite !Str.map_length).
      by rewrite map_take, Str.map_length.
    - symmetry. apply not_true_iff_false. intros H%contains_length.
      rewrite !Str.map_length in H. lia. }
  destruct (Nat.ltb_spec (String.length h) (String.length p)) as [Hlt|]; [|apply Hw].
  symmetry. apply not_true_iff_false. intros H%contains_length.
  rewrite !Str.map_length in H. lia.
Qed.

(** ** Witnesses *)

Lemma prefix_contains_spec_witness :
  contains {| addr := V4 [203; 0; 113; 128]; bits := 25 |}
    (V6 [0; 0; 0; 0; 0; 0; 0; 0; 0; 0; 255; 255; 203; 0; 113; 200]) = true ∧
  same_bits 121 (mapped ++ [203; 0; 113; 128]) (mapped ++ [203; 0; 113; 200]).
Proof.
  split; [by vm_compute|].
  refine (proj1 (proj1 (prefix_contains_spec {| addr := V4 [203; 0; 113; 128]; bits := 25 |}
    (V6 [0; 0; 0; 0; 0; 0; 0; 0; 0; 0; 255; 255; 203; 0; 113; 200]) _ _) _)).
  - split; [split; [done|repeat constructor; lia]|simpl; lia].
  - split; [done|repeat constructor; lia].
  - by vm_compute.
Defined.

Lemma hit_series_exact_witness :
  fst (snapshot (foldl record (series_new 0) [10; 70; 75; 3700]) 3710) =
    (λ i, U32.wrap (hits_in [10; 70; 75; 3700] (3710 / HIT_BUCKET_SECS - (59 - i)))) <$> seqZ 0 60.
Proof. apply hit_series_exact; [lia|]. repeat constructor; lia. Defined.

Definition ip_parse1 (s : string) : option IpAddr :=
  if String.eqb s "203.0.113.0" then Some (V4 [203; 0; 113; 0]) else None.
Definition ip_show1 (_ : IpAddr) : string := "203.0.113.0".
Definition sha1 (_ : string) : list Z := [1; 2; 3; 4; 5; 6; 7].

Lemma ip_text1 : ip_text_ok ip_parse1 ip_show1.
Proof.
  intros s a. unfold ip_parse1. destruct (String.eqb s _); [|done]. intros [= <-].
  split_and!; [done|by vm_compute|by vm_compute|done|]. apply Nat.leb_le. by vm_compute.
Defined.

Definition spec1 : RuleSpec :=
  {| rs_action := Block;
     rs_match := {| ms_client := Some " 203.0.113.0/24 "; ms_host := Some "WWW.Example.com";
       ms_deployment := None; ms_path_prefix := Some "/wp-"; ms_path_contains := None;
       ms_method := Some "post"; ms_user_agent_contains := None |};
     rs_expires_in_secs := Some 600; rs_note := Some "scanner" |}.

Lemma no_rule_matches_everything_witness :
  let g := foldl (apply_op ip_parse1 ip_show1 sha1) (guard_new true NoFile) [OpInsert spec1 100] in
  length (rules g) = 1%nat ∧ decide_request g nothing 200 = (Pass, g).
Proof.
  split; [by vm_compute|].
  apply (no_rule_matches_everything ip_parse1 ip_show1 sha1 true NoFile [OpInsert spec1 100] 200 ip_text1).
Defined.

Lemma rule_preimage_injective_witness :
  ∃ r1 r2, build ip_parse1 ip_show1 sha1 spec1 1 = Ok r1 ∧
    build ip_parse1 ip_show1 sha1 spec1 2 = Ok r2 ∧
    (rule_preimage ip_show1 (action r1) (match_ r1) = rule_preimage ip_show1 (action r2) (match_ r2) ↔
     action r1 = action r2 ∧ match_ r1 = match_ r2).
Proof.
  destruct (build ip_parse1 ip_show1 sha1 spec1 1) as [r1|] eqn:E1;
    [|exfalso; by vm_compute in E1].
  destruct (build ip_parse1 ip_show1 sha1 spec1 2) as [r2|] eqn:E2;
    [|exfalso; by vm_compute in E2].
  exists r1, r2. split_and!; [done|done|].
  exact (rule_preimage_injective ip_parse1 ip_show1 sha1 _ _ _ _ _ _ ip_text1 E1 E2).
Defined.

Lemma persist_load_roundtrip_witness :
  let g := foldl (apply_op ip_parse1 ip_show1 sha1) (guard_new true NoFile) [OpInsert spec1 100] in
  let saved := snd (persist ip_show1 g true) in
  fst (load ip_parse1 ip_show1 sha1 (guard_new false (file saved)) 650) = Ok 1%nat ∧
  fst (load ip_parse1 ip_show1 sha1 (guard_new false (file saved)) 701) = Ok 0%nat.
Proof.
  split.
  - by rewrite (persist_load_roundtrip ip_parse1 ip_show1 sha1 true false NoFile [OpInsert spec1 100] 650 ip_text1).
  - by rewrite (persist_load_roundtrip ip_parse1 ip_show1 sha1 true false NoFile [OpInsert spec1 100] 701 ip_text1).
Defined.
