(* ===== verification/LbRegional.v ===== *)
(** * Regional routing: [app-lb/src/gateway.rs] and [app-lb/src/regional.rs]

    A request that enters in one region is served there or forwarded, once, to a peer gateway.
    The peer transport and its headers; the router of a deployment, with the policy snapshots
    it accepts, the admission that pins a request to a generation of the policy, the counters
    of what is admitted, and the probes. *)
From Stdlib Require Import Ascii String ZArith Lia Bool.
From stdpp Require Import base option list strings gmap fin_maps sets.
From S2P Require Import Prelude LbPool.
Open Scope string_scope.
Open Scope list_scope.

(** ** Headers

    [http::HeaderMap] belongs to the [http] crate: what the code uses of it is an interface,
    and its documented behaviour the laws.  Names are lower case. *)
Class HeaderOps (H : Type) := {
  get_all : string → H → list string;
  set_header : string → string → H → H;
  remove_header : string → H → H;
  (** [HeaderValue::from_str] accepts the text, and [to_str] gives it back. *)
  value_ok : string → bool;
  text_of : string → option string;
}.

Class HeaderLaws (H : Type) `{!HeaderOps H} := {
  get_set : ∀ n v (h : H), get_all n (set_header n v h) = [v];
  get_set_ne : ∀ n m v (h : H), n ≠ m → get_all n (set_header m v h) = get_all n h;
  get_remove : ∀ n (h : H), get_all n (remove_header n h) = [];
  get_remove_ne : ∀ n m (h : H), n ≠ m → get_all n (remove_header m h) = get_all n h;
}.

Definition contains_key {H} `{!HeaderOps H} (n : string) (h : H) : bool :=
  match get_all n h with [] => false | _ => true end.

(** ** Secrets: [secrets.rs] *)

Definition DEFAULT_NAMESPACE : string := "default".

Record SecretRef : Type := {
  sr_secret : string;
  sr_key : string;
  sr_username : option string;
  sr_namespace : option string;
}.

#[global] Instance SecretRef_eq_dec : EqDecision SecretRef.
Proof. solve_decision. Defined.

(** [SecretRef::namespace]. *)
Definition ref_namespace (r : SecretRef) : string := default DEFAULT_NAMESPACE (sr_namespace r).

Definition store_key (namespace id : string) : string := namespace +:+ "/" +:+ id.

(** The keys of each stored secret. *)
Abbreviation SecretStore := (gmap string (gmap string string)).

Inductive ResolveError : Type := NoSecret (id : string) | NoKey (id key : string).

Definition resolve_secret (secrets : SecretStore) (r : SecretRef) : result ResolveError string :=
  data <-? ok_or (secrets !! store_key (ref_namespace r) (sr_secret r)) (NoSecret (sr_secret r)) ;;
  ok_or (data !! sr_key r) (NoKey (sr_secret r) (sr_key r)).

(** ** The peer transport: [gateway.rs] *)

Definition TOKEN : string := "x-heyo-peer-token".
Definition SERVICE : string := "x-heyo-peer-service".
Definition REGION : string := "x-heyo-peer-region".
Definition NAMESPACE : string := "x-heyo-peer-namespace".
Definition HEADERS : list string := [TOKEN; SERVICE; REGION; NAMESPACE].

Inductive GatewayMode : Type := Forward | Local.
#[global] Instance GatewayMode_eq_dec : EqDecision GatewayMode.
Proof. solve_decision. Defined.

Record GatewaySpec : Type := {
  service : string;
  gs_region : string;
  auth : SecretRef;
  mode : GatewayMode;
}.

#[global] Instance GatewaySpec_eq_dec : EqDecision GatewaySpec.
Proof. solve_decision. Defined.

Definition carries_peer {H} `{!HeaderOps H} (h : H) : bool := existsb (λ n, contains_key n h) HEADERS.

(** [check] on each of the named values: exactly one, and the expected bytes. *)
Fixpoint match_headers {H} `{!HeaderOps H} (h : H) (expected : list (string * string)) : result Z unit :=
  match expected with
  | [] => Ok tt
  | (name, value) :: expected =>
    match get_all name h with
    | [actual] => if String.eqb actual value then match_headers h expected else Err 403
    | _ => Err 403
    end
  end.

(** What a peer presents: the headers a forwarder writes. *)
Definition peer_headers (spec : GatewaySpec) (token : string) : list (string * string) :=
  [(TOKEN, token); (SERVICE, service spec); (REGION, gs_region spec); (NAMESPACE, ref_namespace (auth spec))].

(** [gateway::admit]. *)
Definition gateway_admit {H} `{!HeaderOps H} (spec : option GatewaySpec) (h : H) (secrets : SecretStore) :
    result Z (option string) :=
  let has_peer := carries_peer h in
  match spec with
  | None => if has_peer then Err 403%Z else Ok None
  | Some spec =>
    if has_peer && bool_decide (mode spec = Forward) then Err 508%Z
    else if negb has_peer && bool_decide (mode spec = Local) then Err 403%Z
    else
      match resolve_secret secrets (auth spec) with
      | Err _ => Err 503%Z
      | Ok token =>
        if String.eqb token "" || negb (value_ok (H := H) token) then Err 503%Z
        else if decide (mode spec = Forward) then Ok (Some token)
        else match_headers h (peer_headers spec token) ;;? Ok None
      end
  end.

(** [write_forward_headers]; [None] is a value that is no header value. *)
Definition write_forward_headers {H} `{!HeaderOps H} (h : H) (spec : GatewaySpec) (token : string) : option H :=
  let h := foldl (λ h n, remove_header n h) h HEADERS in
  foldl (λ h nv, h ← h; if value_ok (H := H) (snd nv) then Some (set_header (fst nv) (snd nv) h) else None)
        (Some h) (peer_headers spec token).

Section validate.
Context (url_parse : string → option Url) (show_Z : Z → string).
(** [SocketAddr::from_str], and whether the address is a loopback one. *)
Context (socket_loopback : string → option bool).
(** [SecretRef::validate]. *)
Definition valid_secret_id (id : string) : bool :=
  negb (String.eqb (Chars.trim id) "") && (String.length id <=? 64)%nat
  && Str.all (λ c, Str.is_ascii_alphanumeric c || existsb (Ascii.eqb c) ["-"; "_"; "."]%char) id
  && negb (Str.contains ".." id).
Definition valid_secret_key (key : string) : bool :=
  negb (String.eqb key "") && (String.length key <=? 128)%nat
  && Str.all (λ c, Str.is_ascii_alphanumeric c || existsb (Ascii.eqb c) ["-"; "_"; "."]%char) key.

Definition bounded_identifier (v : string) : bool :=
  negb (String.eqb v "") && (String.length v <=? 128)%nat
  && Str.all (λ c, Str.is_ascii_alphanumeric c || existsb (Ascii.eqb c) ["-"; "_"; "."]%char) v.

Inductive GatewayError : Type :=
| BadIdentifier | BadSecretId | BadSecretKey | NoUpstreams | BadUpstream | NeedsHttps | NeedsLoopback | NeedsPlaintext.

Fixpoint validate_upstreams (m : GatewayMode) (upstreams : list string) : result GatewayError unit :=
  match upstreams with
  | [] => Ok tt
  | u :: upstreams =>
    target <-? ok_or (parse_upstream url_parse show_Z u) BadUpstream ;;
    match m with
    | Forward => bail_if (negb (su_tls target)) NeedsHttps
    | Local =>
      loopback <-? ok_or (socket_loopback (su_address target)) NeedsLoopback ;;
      bail_if (su_tls target || negb loopback) NeedsPlaintext
    end ;;?
    validate_upstreams m upstreams
  end.

(** [GatewaySpec::validate]. *)
Definition validate_gateway (spec : GatewaySpec) (upstreams : list string) : result GatewayError unit :=
  bail_if (negb (bounded_identifier (service spec) && bounded_identifier (gs_region spec))) BadIdentifier ;;?
  bail_if (negb (valid_secret_id (sr_secret (auth spec)))) BadSecretId ;;?
  bail_if (negb (valid_secret_key (sr_key (auth spec)))) BadSecretKey ;;?
  bail_if (match upstreams with [] => true | _ => false end) NoUpstreams ;;?
  validate_upstreams (mode spec) upstreams.
End validate.

(** ** Policies and snapshots: [regional.rs] *)

Definition GENERATION : string := "x-heyo-peer-generation".
Definition ENVIRONMENT : string := "x-heyo-peer-environment".
Definition PROBE : string := "x-heyo-peer-probe".
Definition ACTIVE_PROBE : string := "x-heyo-peer-active-probe".
(** Seconds. *)
Definition SNAPSHOT_EVIDENCE_TTL : Z := 30.

Record RegionalSpec : Type := {
  gateway_id : string;
  rs_backend_server_id : string;
  environment : string;
  rs_auth : SecretRef;
}.

Record Gateway : Type := { gw_id : string; gw_backend_server_id : string; gw_url : string }.
Record Region : Type := { region : string; weight : N (** u32 *); gateways : list Gateway }.
Record Policy : Type := { pol_version : N; regions : list Region }.
Record Generation : Type := { generation : Z (** i64 *); policy : Policy }.
Record Endpoint : Type := {
  ep_deployment_id : string;
  ep_backend_server_id : string;
  ep_region : string;
  ep_revision : option string;
  ep_url : string;
  ep_health_status : string;
  ep_draining : bool;
}.

#[global] Instance Gateway_eq_dec : EqDecision Gateway.
Proof. solve_decision. Defined.
#[global] Instance Region_eq_dec : EqDecision Region.
Proof. solve_decision. Defined.
#[global] Instance Policy_eq_dec : EqDecision Policy.
Proof. solve_decision. Defined.

Record Snapshot : Type := {
  protocol_version : N;
  service_id : string;
  sn_environment : string;
  sn_region : string;
  sn_gateway_id : string;
  sn_boot_id : string;
  version : N;                (** u64 *)
  operation_id : string;
  phase : string;
  proposal_generation : Z;
  active_generation : option Z;
  drain_target : option string;
  closed_through_generation : Z;
  policies : list Generation;
  endpoints : list Endpoint;
}.

(** [policies.iter().find(|p| p.generation == g)]. *)
Definition find_policy (s : Snapshot) (g : Z) : option Policy :=
  policy <$> List.find (λ p, (generation p =? g)%Z) (policies s).
Definition find_region (p : Policy) (f : Region → bool) : option Region := List.find f (regions p).
Definition total_weight (p : Policy) : N := foldr N.add 0%N (List.map weight (regions p)).

(** The counters of what is admitted: as a source, and locally. *)
Abbreviation Counters := (gmap (Z * string) (N * N)).

(** The state behind the router's mutex; an [Instant] is a number of seconds. *)
Record RouterState : Type := {
  snapshot : option Snapshot;
  observed_at : option Z;
  local : list nat;
  counters : Counters;
  sequence : N;               (** u64 *)
  fenced : bool;
}.

Definition router_new : RouterState :=
  {| snapshot := None; observed_at := None; local := []; counters := ∅; sequence := 0; fenced := false |}.

Definition set_counters (st : RouterState) (c : Counters) : RouterState :=
  {| snapshot := snapshot st; observed_at := observed_at st; local := local st; counters := c;
     sequence := sequence st; fenced := fenced st |}.

(** [fence]. *)
Definition fence (st : RouterState) : RouterState :=
  {| snapshot := snapshot st; observed_at := observed_at st; local := local st; counters := counters st;
     sequence := sequence st; fenced := true |}.

(** [state.snapshot.as_ref().filter(|_| !state.fenced)]. *)
Definition open_snapshot (st : RouterState) : option Snapshot := if fenced st then None else snapshot st.

(** *** Accepting a snapshot *)

Inductive ApplyError : Type :=
| IdentityMismatch | InvalidGeneration | InvalidInventory | BadGatewayUrl | InvalidTransport
| NoPositiveWeights | UnavailableGenerations | WrongBinding | Fenced | FenceRegressed | HistoryChanged.

Section apply.
Context (url_parse : string → option Url).

(** The gateways of one region, with the ids and the addresses of the policy so far. *)
Fixpoint check_gateways (gs : list Gateway) (ids addresses : gset string) :
    result ApplyError (gset string * gset string) :=
  match gs with
  | [] => Ok (ids, addresses)
  | g :: gs =>
    url <-? ok_or (url_parse (gw_url g)) BadGatewayUrl ;;
    if String.eqb (gw_id g) "" || String.eqb (gw_backend_server_id g) "" || bool_decide (gw_id g ∈ ids)
       || bool_decide (url_text url ∈ addresses) || negb (String.eqb (url_scheme url) "https")
       || negb (is_some (url_domain url)) || negb (String.eqb (url_username url) "")
       || is_some (url_password url) || negb (String.eqb (url_path url) "/")
       || is_some (url_query url) || is_some (url_fragment url)
    then Err InvalidTransport
    else check_gateways gs ({[gw_id g]} ∪ ids) ({[url_text url]} ∪ addresses)
  end.

Fixpoint check_regions (rs : list Region) (names ids addresses : gset string) (total : N) : result ApplyError N :=
  match rs with
  | [] => Ok total
  | r :: rs =>
    if String.eqb (region r) "" || bool_decide (region r ∈ names) || match gateways r with [] => true | _ => false end
    then Err InvalidInventory
    else
      seen <-? check_gateways (gateways r) ids addresses ;;
      check_regions rs ({[region r]} ∪ names) (fst seen) (snd seen) (total + weight r)
  end.

Fixpoint check_policies (ps : list Generation) (generations : gset Z) : result ApplyError (gset Z) :=
  match ps with
  | [] => Ok generations
  | p :: ps =>
    if (generation p <=? 0)%Z || bool_decide (generation p ∈ generations) || negb (pol_version (policy p) =? 1)%N
    then Err InvalidGeneration
    else
      total <-? check_regions (regions (policy p)) ∅ ∅ ∅ 0 ;;
      if (total =? 0)%N then Err NoPositiveWeights
      else check_policies ps ({[generation p]} ∪ generations)
  end.

(** [Option<i64>] as it is ordered. *)
Definition opt_lt (a b : option Z) : bool :=
  match a, b with None, Some _ => true | Some a, Some b => (a <? b)%Z | _, None => false end.

(** What a new snapshot may not undo. *)
Definition check_history (s old : Snapshot) : result ApplyError bool :=
  if (version s <? version old)%N then Ok false
  else if opt_lt (active_generation s) (active_generation old)
          || (closed_through_generation s <? closed_through_generation old)%Z
  then Err FenceRegressed
  else if forallb (λ previous, existsb (λ p, (generation p =? generation previous)%Z
                                && bool_decide (policy p = policy previous)) (policies s)) (policies old)
  then Ok true
  else Err HistoryChanged.

(** [Router::apply]; the boolean says whether the snapshot was taken. *)
Definition apply (boot_id : string) (now : Z) (s : Snapshot) (spec : RegionalSpec) (service region_ : string)
    (backends : list nat) (st : RouterState) : result ApplyError bool * RouterState :=
  let checked :=
    bail_if (negb (protocol_version s =? 1)%N || negb (String.eqb (service_id s) service)
             || negb (String.eqb (sn_region s) region_) || negb (String.eqb (sn_gateway_id s) (gateway_id spec))
             || negb (String.eqb (sn_environment s) (environment spec)) || negb (String.eqb (sn_boot_id s) boot_id))
            IdentityMismatch ;;?
    generations <-? check_policies (policies s) ∅ ;;
    bail_if (negb (bool_decide (proposal_generation s ∈ generations))
             || match active_generation s with Some g => negb (bool_decide (g ∈ generations)) | None => false end
             || (closed_through_generation s <? 0)%Z
             || (proposal_generation s <? closed_through_generation s)%Z) UnavailableGenerations ;;?
    bail_if (negb match (p ← find_policy s (proposal_generation s);
                         find_region p (λ r, String.eqb (region r) region_)) with
                  | Some r => existsb (λ g, String.eqb (gw_id g) (gateway_id spec)
                                && String.eqb (gw_backend_server_id g) (rs_backend_server_id spec)) (gateways r)
                  | None => false
                  end) WrongBinding ;;?
    bail_if (fenced st) Fenced ;;?
    match snapshot st with
    | Some old => check_history s old
    | None => Ok true
    end
  in
  (checked, match checked with
            | Ok true =>
              {| snapshot := Some s; observed_at := Some now; local := backends; counters := counters st;
                 sequence := sequence st; fenced := fenced st |}
            | _ => st
            end).
End apply.

(** *** Admission *)

(** What a request holds of its admission. *)
Record Assignment : Type := {
  a_generation : Z;
  a_region : string;
  a_source : bool;
  a_local : bool;
  a_backend : nat;
  a_forward : option (GatewaySpec * string * string);
}.

Definition key_of (a : Assignment) : Z * string := (a_generation a, a_region a).

(** [u64] addition and subtraction; [None] is the overflow of a checked build. *)
Definition add_u64 (a b : N) : option N := if (a + b <? 2 ^ 64)%N then Some (a + b)%N else None.
Definition sub_u64 (a b : N) : option N := if (b <=? a)%N then Some (a - b)%N else None.

(** [counters.entry(key).or_default()], then both increments. *)
Definition count_in (source local : bool) (k : Z * string) (c : Counters) : option Counters :=
  let '(n, m) := default (0%N, 0%N) (c !! k) in
  n ← add_u64 n (N.b2n source);
  m ← add_u64 m (N.b2n local);
  Some (<[k := (n, m)]> c).

(** [Assignment::drop]; [None] is its [expect] panicking. *)
Definition drop_assignment (a : Assignment) (st : RouterState) : option RouterState :=
  '(n, m) ← counters st !! key_of a;
  n ← sub_u64 n (N.b2n (a_source a));
  m ← sub_u64 m (N.b2n (a_local a));
  Some (set_counters st (if (n =? 0)%N && (m =? 0)%N then delete (key_of a) (counters st)
                         else <[key_of a := (n, m)]> (counters st))).

(** The region a ticket falls on, each as wide as its weight. *)
Fixpoint pick (ticket : N) (rs : list Region) : option Region :=
  match rs with
  | [] => None
  | r :: rs => if (ticket <? weight r)%N then Some r else pick (ticket - weight r) rs
  end.

Section router.
Context (url_parse : string → option Url) (show_Z : Z → string).
(** [str::parse::<i64>]. *)
Context (parse_i64 : string → option Z).
Context {H : Type} `{!HeaderOps H}.

(** [u64::from_le_bytes(random) % total]; [None] is the division by zero. *)
Definition ticket_of (random total : N) : option N :=
  if (total =? 0)%N then None else Some (random mod total)%N.

(** The available backend of the router with the fewest requests. *)
Definition least_loaded (h : Heap) (locals : list nat) : option nat :=
  fst <$> min_by_key (λ p, in_flight (snd p))
    (List.filter (λ p, is_healthy (snd p) && negb (is_draining (snd p)))
      (omap (λ l, b ← h !! l; Some (l, b)) locals)).

(** A computation that may panic, and may end with an HTTP status. *)
Definition try {A B} (m : result Z A) (k : A → option (result Z B)) : option (result Z B) :=
  match m with Ok a => k a | Err e => Some (Err e) end.

(** The generation a request is admitted for. *)
Definition admitted_generation (spec : RegionalSpec) (service region_ : string) (h : H) (secrets : SecretStore)
    (s : Snapshot) (has_peer : bool) : result Z Z :=
  if has_peer then
    gateway_admit (Some {| service := service; gs_region := region_; auth := rs_auth spec; mode := Local |})
      h secrets ;;?
    match get_all ENVIRONMENT h, get_all GENERATION h with
    | [env], [gen] =>
      if bool_decide (text_of (H := H) env = Some (environment spec)) then
        g <-? ok_or (t ← text_of (H := H) gen; parse_i64 t) 403%Z ;;
        if (g <=? closed_through_generation s)%Z then Err 503%Z else Ok g
      else Err 403%Z
    | _, _ => Err 403%Z
    end
  else ok_or (active_generation s) 503%Z.

Definition peer_or_pinned (h : H) : bool :=
  existsb (λ n, contains_key n h) (HEADERS ++ [GENERATION; ENVIRONMENT]).

(** [Router::admit]: the assignment, the new state, and the backends with the peer gateway a
    forwarded request gets at the fresh location [loc].  [random] is what the generator gave;
    [None] as the whole result is a panic. *)
Definition admit_request (spec : RegionalSpec) (service region_ : string) (h : H) (secrets : SecretStore)
    (random : option N) (now : Z) (loc : nat) (heap : Heap) (st : RouterState) :
    option (result Z (Assignment * RouterState * Heap)) :=
  if contains_key PROBE h || contains_key ACTIVE_PROBE h then Some (Err 403%Z)
  else
    let has_peer := peer_or_pinned h in
    try (ok_or (open_snapshot st) 503%Z) (λ s,
    try (admitted_generation spec service region_ h secrets s has_peer) (λ g,
    try (ok_or (find_policy s g) 503%Z) (λ p,
    destination ← (if has_peer
                   then Some (ok_or (find_region p (λ r, String.eqb (region r) region_ && (0 <? weight r)%N)) 503%Z)
                   else match random with
                        | None => Some (Err 503%Z)
                        | Some r => t ← ticket_of r (total_weight p); Some (ok_or (pick t (regions p)) 503%Z)
                        end);
    try destination (λ d,
    let is_local := String.eqb (region d) region_ in
    if is_local && (g <=? closed_through_generation s)%Z then Some (Err 503%Z)
    else
      backend ← (if is_local
                 then Some (b <-? ok_or (least_loaded heap (local st)) 503%Z ;; Ok (b, heap))
                 else match gateways d with
                      | [] => Some (Err 503%Z)
                      | gw :: _ => b ← for_upstream url_parse show_Z now (gw_url gw); Some (Ok (loc, <[loc := b]> heap))
                      end);
      try backend (λ '(b, heap),
      let forward :=
        if is_local then Ok None
        else
          let f := {| service := service; gs_region := region d; auth := rs_auth spec; mode := Forward |} in
          t <-? gateway_admit (Some f) h secrets ;;
          token <-? ok_or t 503%Z ;;
          Ok (Some (f, token, environment spec)) in
      try forward (λ f,
      c ← count_in (negb has_peer) is_local (g, region d) (counters st);
      Some (Ok ({| a_generation := g; a_region := region d; a_source := negb has_peer; a_local := is_local;
                   a_backend := b; a_forward := f |}, set_counters st c, heap)))))))).
End router.

(** *** Probes *)

Record ProbeRequest : Type := {
  pr_operation_id : string;
  pr_generation : Z;
  pr_region : string;
  pr_gateway_id : string;
  pr_gateway_boot_id : string;
  pr_deployment_id : string;
  pr_revision : string;
}.

Record ActiveProbeRequest : Type := {
  ap_operation_id : string;
  ap_step_id : string;
  ap_epoch : Z;
  ap_challenge : string;
  ap_generation : Z;
  ap_version : N;
  ap_region : string;
  ap_gateway_id : string;
  ap_gateway_boot_id : string;
  ap_backend_server_id : string;
  ap_deployment_id : string;
  ap_revision : string;
}.

(** Text before the first of the characters. *)
Fixpoint before_any (cs : list ascii) (s : string) : string :=
  match s with
  | String c s' => if existsb (Ascii.eqb c) cs then "" else String c (before_any cs s')
  | EmptyString => ""
  end.

Section probes.
Context (url_parse : string → option Url) (show_Z : Z → string).
Context (socket_loopback : string → option bool).

(** [discovery::upstream_from_url]. *)
Definition upstream_from_url (value : string) : option string :=
  url ← url_parse value;
  if negb (String.eqb (url_scheme url) "http") || negb (String.eqb (url_username url) "")
     || is_some (url_password url) || is_some (url_query url) || is_some (url_fragment url)
     || negb (String.eqb (url_path url) "/")
  then None
  else
    host ← url_host_str url;
    let authority := match Chars.split_once "//" value with
                     | Some (_, rest) => before_any ["/"; "?"; "#"]%char rest
                     | None => ""
                     end in
    let has_explicit_port :=
      if Str.starts_with "[" authority then Str.contains "]:" authority
      else Str.contains ":" authority in
    if negb has_explicit_port then None
    else
      port ← url_port_or_known_default url;
      let host := default host (h ← Str.strip_prefix "[" host; Str.strip_suffix "]" h) in
      Some (if Str.contains ":" host then "[" +:+ host +:+ "]:" +:+ show_Z port
            else host +:+ ":" +:+ show_Z port).

(** A loopback endpoint of the deployment. *)
Definition loopback_peer (value : string) : result Z string :=
  peer <-? ok_or (upstream_from_url value) 409%Z ;;
  loopback <-? ok_or (socket_loopback peer) 409%Z ;;
  if loopback then Ok peer else Err 409%Z.

Definition too_long (s : string) : bool := String.eqb s "" || (256 <? String.length s)%nat.

(** The endpoints of a deployment, when there is exactly one. *)
Definition only_endpoint (s : Snapshot) (deployment : string) : result Z Endpoint :=
  match List.filter (λ e, String.eqb (ep_deployment_id e) deployment) (endpoints s) with
  | [e] => Ok e
  | _ => Err 409%Z
  end.

(** Panics are [None]; [loc] is where a private backend is allocated. *)
Definition alloc (loc : nat) (heap : Heap) (b : option VmBackend) : option (result Z (nat * Heap)) :=
  b ← b; Some (Ok (loc, <[loc := b]> heap)).

(** [active_probe_backend]: the backend, and the endpoint's URL at the destination. *)
Definition active_probe_backend (boot_id : string) (spec : RegionalSpec) (r : ActiveProbeRequest)
    (destination : bool) (now : Z) (loc : nat) (heap : Heap) (st : RouterState) :
    option (result Z (nat * Heap * option string)) :=
  if (ap_epoch r <=? 0)%Z || negb (String.length (ap_challenge r) =? 64)%nat
     || negb (Str.all Str.is_ascii_hexdigit (ap_challenge r))
     || existsb too_long [ap_operation_id r; ap_step_id r; ap_region r; ap_gateway_id r; ap_gateway_boot_id r;
                          ap_backend_server_id r; ap_deployment_id r; ap_revision r]
  then Some (Err 400%Z)
  else
    try (ok_or (open_snapshot st) 503%Z) (λ s,
    if negb (bool_decide (active_generation s = Some (ap_generation r))) || negb (version s =? ap_version r)%N
    then Some (Err 409%Z)
    else
    try (ok_or (find_policy s (ap_generation r)) 409%Z) (λ p,
    if negb (existsb (λ g, String.eqb (region g) (sn_region s)
               && existsb (λ w, String.eqb (gw_id w) (gateway_id spec)
                    && String.eqb (gw_backend_server_id w) (rs_backend_server_id spec)) (gateways g)) (regions p))
    then Some (Err 409%Z)
    else
    try (ok_or (find_region p (λ g, String.eqb (region g) (ap_region r) && (0 <? weight g)%N)) 409%Z) (λ target,
    try (ok_or (List.find (λ w, String.eqb (gw_id w) (ap_gateway_id r)
           && String.eqb (gw_backend_server_id w) (ap_backend_server_id r)) (gateways target)) 409%Z) (λ gateway,
    if negb destination
    then b ← alloc loc heap (for_upstream url_parse show_Z now (gw_url gateway)); try b (λ b, Some (Ok (b, None)))
    else if negb (String.eqb (gateway_id spec) (ap_gateway_id r)) || negb (String.eqb boot_id (ap_gateway_boot_id r))
            || negb (String.eqb (rs_backend_server_id spec) (ap_backend_server_id r))
            || negb (String.eqb (sn_region s) (ap_region r))
            || (ap_generation r <=? closed_through_generation s)%Z
    then Some (Err 409%Z)
    else
    try (only_endpoint s (ap_deployment_id r)) (λ member,
    if negb (String.eqb (ep_region member) (ap_region r))
       || negb (String.eqb (ep_backend_server_id member) (ap_backend_server_id r))
       || negb (bool_decide (ep_revision member = Some (ap_revision r)))
       || negb (String.eqb (ep_health_status member) "healthy") || ep_draining member
    then Some (Err 409%Z)
    else
    try (loopback_peer (ep_url member)) (λ peer_,
    try (ok_or (List.find (λ l, match heap !! l with
                                | Some b => String.eqb (peer b) peer_ && is_healthy b && negb (is_draining b)
                                | None => false
                                end) (local st)) 409%Z) (λ l,
    Some (Ok (l, heap, Some (ep_url member)))))))))).

Definition probe_assigned (g : Z) (region_ : string) (destination : bool) (b : nat) : Assignment :=
  {| a_generation := g; a_region := region_; a_source := negb destination; a_local := destination;
     a_backend := b; a_forward := None |}.

(** [active_probe_assignment]. *)
Definition active_probe_assignment (boot_id : string) (spec : RegionalSpec) (r : ActiveProbeRequest)
    (destination : bool) (now : Z) (loc : nat) (heap : Heap) (st : RouterState) :
    option (result Z (Assignment * RouterState * Heap)) :=
  b ← active_probe_backend boot_id spec r destination now loc heap st;
  try b (λ '(b, heap, _),
  c ← count_in (negb destination) destination (ap_generation r, ap_region r) (counters st);
  Some (Ok (probe_assigned (ap_generation r) (ap_region r) destination b, set_counters st c, heap))).

(** [probe_assignment]. *)
Definition is_serving (s : Snapshot) : bool :=
  existsb (String.eqb (phase s)) ["bake"; "verify"; "verify_baseline"; "rolled_back"]
  || String.eqb (phase s) "passed" && negb (is_some (drain_target s)).

Definition probe_assignment (boot_id : string) (spec : RegionalSpec) (r : ProbeRequest)
    (destination : bool) (now : Z) (loc : nat) (heap : Heap) (st : RouterState) :
    option (result Z (Assignment * RouterState * Heap)) :=
  if existsb too_long [pr_operation_id r; pr_region r; pr_gateway_id r; pr_gateway_boot_id r;
                       pr_deployment_id r; pr_revision r]
  then Some (Err 400%Z)
  else
    try (ok_or (open_snapshot st) 503%Z) (λ s,
    let serving := is_serving s in
    if negb (String.eqb (operation_id s) (pr_operation_id r))
       || negb serving && negb (existsb (String.eqb (phase s)) ["passed"; "probe_candidates"; "probe_retained"])
       || negb (bool_decide (active_generation s = Some (pr_generation r)))
       || negb (proposal_generation s =? pr_generation r)%Z
       || (if serving then is_some (drain_target s)
           else negb (bool_decide (drain_target s = Some (pr_region r))))
    then Some (Err 409%Z)
    else
    try (ok_or (p ← find_policy s (pr_generation r);
                find_region p (λ g, String.eqb (region g) (pr_region r)
                  && if serving then (0 <? weight g)%N else (weight g =? 0)%N)) 409%Z) (λ target,
    try (ok_or (List.find (λ w, String.eqb (gw_id w) (pr_gateway_id r)) (gateways target)) 409%Z) (λ gateway,
    backend ← (if destination then
      if negb (String.eqb (gateway_id spec) (pr_gateway_id r)) || negb (String.eqb boot_id (pr_gateway_boot_id r))
         || negb (String.eqb (sn_region s) (pr_region r))
      then Some (Err 409%Z)
      else if serving && (pr_generation r <=? closed_through_generation s)%Z
              || negb serving && (closed_through_generation s <? pr_generation r)%Z
      then Some (Err 409%Z)
      else
      try (only_endpoint s (pr_deployment_id r)) (λ e,
      if negb (bool_decide (ep_revision e = Some (pr_revision r))) || negb (String.eqb (ep_region e) (pr_region r))
         || negb (String.eqb (ep_backend_server_id e) (rs_backend_server_id spec))
         || serving && (negb (String.eqb (ep_health_status e) "healthy") || ep_draining e)
      then Some (Err 409%Z)
      else
      try (loopback_peer (ep_url e)) (λ peer_,
      alloc loc heap (for_upstream url_parse show_Z now peer_)))
    else alloc loc heap (for_upstream url_parse show_Z now (gw_url gateway)));
    try backend (λ '(b, heap),
    c ← count_in (negb destination) destination (pr_generation r, pr_region r) (counters st);
    Some (Ok (probe_assigned (pr_generation r) (pr_region r) destination b, set_counters st c, heap)))))).
End probes.

(** *** Reports *)

Record Report : Type := {
  rp_sequence : N;
  rp_generation : Z;
  rp_prepared : bool;
  rp_adopted : bool;
  rp_outgoing_target : N;
  rp_local_target : N;
  rp_peer_admission_closed : bool;
}.

Definition is_fresh (now : Z) (st : RouterState) : bool :=
  match observed_at st with Some t => (U64.saturating_sub now t <? SNAPSHOT_EVIDENCE_TTL)%Z | None => false end.

(** The region of the router has no weight in the proposal, or it has a backend to serve from. *)
Definition can_serve (heap : Heap) (s : Snapshot) (st : RouterState) : bool :=
  match (p ← find_policy s (proposal_generation s); find_region p (λ r, String.eqb (region r) (sn_region s))) with
  | Some r => (weight r =? 0)%N
  | None => false
  end
  || existsb (λ l, match heap !! l with Some b => is_healthy b && negb (is_draining b) | None => false end) (local st).

(** The counters of a region, over all generations. *)
Definition region_counts (target : option string) (c : Counters) : N * N :=
  map_fold (λ k v acc, if bool_decide (Some (snd k) = target)
                       then (fst acc + fst v, snd acc + snd v)%N else acc) (0, 0)%N c.

(** [status]; no report without a snapshot.  [None] is the overflow of the sequence. *)
Definition status (enabled : bool) (now : Z) (heap : Heap) (st : RouterState) : option (option Report * RouterState) :=
  n ← add_u64 (sequence st) 1;
  let st' := {| snapshot := snapshot st; observed_at := observed_at st; local := local st;
                counters := counters st; sequence := n; fenced := fenced st |} in
  Some ((s ← snapshot st;
         let '(outgoing, local_) := region_counts (drain_target s) (counters st) in
         Some {| rp_sequence := n; rp_generation := proposal_generation s;
                 rp_prepared := enabled && negb (fenced st) && is_fresh now st && can_serve heap s st;
                 rp_adopted := bool_decide (active_generation s = Some (proposal_generation s));
                 rp_outgoing_target := outgoing; rp_local_target := local_;
                 rp_peer_admission_closed := (proposal_generation s <=? closed_through_generation s)%Z |}), st').

Record Preparation : Type := {
  pn_boot_id : string;
  pn_operation_id : string;
  pn_version : N;
  prepared : bool;
  adopted : bool;
}.

(** [preparation]. *)
Definition preparation (boot_id : string) (enabled : bool) (now : Z) (heap : Heap) (st : RouterState) :
    option Preparation :=
  s ← snapshot st;
  if fenced st || negb (is_fresh now st) then None
  else Some {| pn_boot_id := boot_id; pn_operation_id := operation_id s; pn_version := version s;
               prepared := enabled && can_serve heap s st;
               adopted := bool_decide (active_generation s = Some (proposal_generation s))
                          && (closed_through_generation s <? proposal_generation s)%Z |}.

(** ** One hop *)

Section one_hop.
Context {H : Type} `{!HeaderOps H, !HeaderLaws H}.
Implicit Types h : H.

Lemma get_remove_all n ns h :
  get_all n (foldl (λ h m, remove_header m h) h ns) = if decide (n ∈ ns) then [] else get_all n h.
Proof.
  revert h. induction ns as [|m ns IH]; intros h; cbn [foldl].
  - by rewrite decide_False by apply not_elem_of_nil.
  - rewrite IH. destruct (decide (n ∈ ns)) as [Hn|Hn].
    { by rewrite decide_True by (by right). }
    destruct (decide (n = m)) as [->|Hm].
    + by rewrite get_remove, decide_True by left.
    + rewrite get_remove_ne by done. rewrite decide_False; [done|]. by intros [|]%elem_of_cons.
Qed.

Lemma get_write h spec token h' :
  write_forward_headers h spec token = Some h' →
  (∀ name value, (name, value) ∈ peer_headers spec token → get_all name h' = [value]) ∧
  (∀ name, name ∉ HEADERS → get_all name h' = get_all name h).
Proof.
  unfold write_forward_headers, peer_headers. cbn [foldl fst snd mbind option_bind].
  set (h0 := foldl _ h HEADERS). intros Hw.
  destruct (value_ok token), (value_ok (service spec)), (value_ok (gs_region spec)),
    (value_ok (ref_namespace (auth spec))); try done. injection Hw as <-.
  assert (TOKEN ≠ SERVICE ∧ TOKEN ≠ REGION ∧ TOKEN ≠ NAMESPACE ∧ SERVICE ≠ REGION ∧ SERVICE ≠ NAMESPACE ∧
          REGION ≠ NAMESPACE) as (? & ? & ? & ? & ? & ?) by (split_and!; discriminate).
  split.
  - intros name value Hin.
    repeat (apply elem_of_cons in Hin as [[= -> ->]|Hin]); [..|by apply not_elem_of_nil in Hin];
      repeat (rewrite get_set_ne by congruence); apply get_set.
  - intros name Hn. unfold HEADERS in Hn. rewrite !not_elem_of_cons in Hn. destruct Hn as (? & ? & ? & ? & _).
    rewrite !get_set_ne by done. unfold h0. rewrite get_remove_all, decide_False; [done|].
    unfold HEADERS. rewrite !not_elem_of_cons. split_and!; try done. apply not_elem_of_nil.
Qed.

Lemma match_headers_ok h expected :
  match_headers h expected = Ok tt ↔ ∀ name value, (name, value) ∈ expected → get_all name h = [value].
Proof.
  induction expected as [|[name value] expected IH]; cbn [match_headers].
  { split; [|done]. intros _ ? ? []%not_elem_of_nil. }
  split.
  - intros Hm n v Hin. destruct (get_all name h) as [|actual [|]] eqn:E; try done.
    destruct (String.eqb_spec actual value) as [->|]; [|done].
    apply elem_of_cons in Hin as [[= -> ->]|Hin]; [done|]. by apply IH.
  - intros Hall. rewrite (Hall name value) by left. rewrite String.eqb_refl. apply IH. intros n v Hin.
    apply Hall. by right.
Qed.

Lemma match_headers_err h expected : match_headers h expected ≠ Ok tt → match_headers h expected = Err 403%Z.
Proof.
  induction expected as [|[name value] expected IH]; cbn [match_headers]; [done|].
  destruct (get_all name h) as [|? [|]]; try done. by destruct (String.eqb _ _).
Qed.

Lemma carries_written h spec token h' : write_forward_headers h spec token = Some h' → carries_peer h' = true.
Proof.
  intros [Hp _]%get_write. unfold carries_peer, contains_key, HEADERS. cbn [existsb].
  by rewrite (Hp TOKEN token) by left.
Qed.

(** A request is forwarded once. What a gateway writes is admitted by a local gateway
    exactly when that one names the same service, region and secret namespace and resolves the
    same credential; a forwarding gateway answers it with 508 and a deployment without a
    gateway with 403; and no other header of the request is touched. *)
Theorem forwarded_request_takes_one_hop h spec token h' secrets :
  write_forward_headers h spec token = Some h' →
  (∀ there, mode there = Local →
     gateway_admit (Some there) h' secrets =
     match resolve_secret secrets (auth there) with
     | Err _ => Err 503%Z
     | Ok token' =>
       if String.eqb token' "" || negb (value_ok (H := H) token') then Err 503%Z
       else if bool_decide (token' = token ∧ service there = service spec ∧ gs_region there = gs_region spec
                            ∧ ref_namespace (auth there) = ref_namespace (auth spec))
       then Ok None else Err 403%Z
     end) ∧
  (∀ there, mode there = Forward → gateway_admit (Some there) h' secrets = Err 508%Z) ∧
  gateway_admit None h' secrets = Err 403%Z ∧
  (∀ name, name ∉ HEADERS → get_all name h' = get_all name h).
Proof.
  intros Hw. pose proof (carries_written _ _ _ _ Hw) as Hc. pose proof (get_write _ _ _ _ Hw) as [Hp Ho].
  unfold gateway_admit. rewrite Hc. split_and!; [|intros there ->; done|done|done].
  intros there Hm. rewrite Hm. cbn [andb negb]. rewrite bool_decide_eq_false_2 by done.
  destruct (resolve_secret _ _) as [token'|]; [|done].
  destruct (String.eqb token' "" || _); [done|]. rewrite decide_False by done.
  assert (∀ name, name ∈ HEADERS → ∃ v, (name, v) ∈ peer_headers spec token ∧ get_all name h' = [v]) as Hget.
  { unfold HEADERS, peer_headers. intros name Hn.
    repeat (apply elem_of_cons in Hn as [->|Hn]); [..|by apply not_elem_of_nil in Hn];
      eexists; (split; [|apply Hp]); repeat (first [left|right]). }
  case_bool_decide as Hb.
  - destruct Hb as (-> & Hs & Hr & Hn). rewrite (proj2 (match_headers_ok h' _)); [done|].
    intros name value Hin. apply Hp. unfold peer_headers in *. by rewrite <- Hs, <- Hr, <- Hn.
  - rewrite match_headers_err; [done|]. intros Hok. rewrite match_headers_ok in Hok. apply Hb.
    unfold peer_headers in Hok, Hp.
    assert (∀ name v v', (name, v) ∈ peer_headers there token' → (name, v') ∈ peer_headers spec token → v = v') as Heq.
    { intros name v v' H1 H2. pose proof (Hok _ _ H1). pose proof (Hp _ _ H2). congruence. }
    split_and!.
    + eapply (Heq TOKEN); left.
    + eapply (Heq SERVICE); right; left.
    + eapply (Heq REGION); right; right; left.
    + eapply (Heq NAMESPACE); right; right; right; left.
Qed.
End one_hop.

(** ** Tickets *)

Lemma pick_weight t rs r : pick t rs = Some r → r ∈ rs ∧ (0 < weight r)%N.
Proof.
  revert t. induction rs as [|r' rs IH]; intros t; cbn [pick]; [done|].
  destruct (N.ltb_spec t (weight r')); [intros [= ->]; split; [left|lia]|].
  intros [Hin Hw]%IH. split; [by right|done].
Qed.

Lemma pick_total t rs : (t < foldr N.add 0 (List.map weight rs))%N → is_Some (pick t rs).
Proof.
  revert t. induction rs as [|r rs IH]; intros t; cbn [pick List.map foldr]; [lia|].
  intros Ht. destruct (N.ltb_spec t (weight r)); [by eexists|]. apply IH. lia.
Qed.

(** The regions before [r] have weight [lo] in all: its tickets are those from [lo] on, as many
    as its weight. *)
Lemma pick_range pre r post t :
  let lo := foldr N.add 0%N (List.map weight pre) in
  (lo <= t < lo + weight r)%N → pick t (pre ++ r :: post) = Some r.
Proof.
  cbv zeta. revert t. induction pre as [|p pre IH]; intros t; cbn [app pick List.map foldr].
  - intros Ht. by rewrite (proj2 (N.ltb_lt _ _)) by lia.
  - intros Ht. rewrite (proj2 (N.ltb_ge _ _)) by lia. apply IH. lia.
Qed.

(** ** Runs of a router

    The requests, probes, snapshots and reports of one router, in any order, with the backends
    changing in any way in between; and the assignments that are alive. *)
Section runs.
Context (url_parse : string → option Url) (show_Z : Z → string) (parse_i64 : string → option Z).
Context (socket_loopback : string → option bool).
Context {H : Type} `{!HeaderOps H}.
Context (boot_id : string).

Record World : Type := { rst : RouterState; heap : Heap; live : list Assignment }.

Inductive Event : Type :=
| EvAdmit (spec : RegionalSpec) (service region_ : string) (h : H) (secrets : SecretStore)
    (random : option N) (now : Z) (loc : nat)
| EvProbe (spec : RegionalSpec) (r : ProbeRequest) (destination : bool) (now : Z) (loc : nat)
| EvActiveProbe (spec : RegionalSpec) (r : ActiveProbeRequest) (destination : bool) (now : Z) (loc : nat)
| EvDrop (i : nat)
| EvApply (now : Z) (s : Snapshot) (spec : RegionalSpec) (service region_ : string) (backends : list nat)
| EvFence
| EvStatus (enabled : bool) (now : Z)
| EvBackends (heap : Heap).

Definition admitted (w : World) (m : option (result Z (Assignment * RouterState * Heap))) : option World :=
  match m with
  | None => None
  | Some (Err _) => Some w
  | Some (Ok (a, st, h)) => Some {| rst := st; heap := h; live := a :: live w |}
  end.

(** [None] is a panic. *)
Definition step (e : Event) (w : World) : option World :=
  match e with
  | EvAdmit spec service region_ h secrets random now loc =>
    admitted w (admit_request url_parse show_Z parse_i64 spec service region_ h secrets random now loc (heap w) (rst w))
  | EvProbe spec r destination now loc =>
    admitted w (probe_assignment url_parse show_Z socket_loopback boot_id spec r destination now loc (heap w) (rst w))
  | EvActiveProbe spec r destination now loc =>
    admitted w (active_probe_assignment url_parse show_Z socket_loopback boot_id spec r destination now loc
                  (heap w) (rst w))
  | EvDrop i =>
    match live w !! i with
    | None => Some w
    | Some a => st ← drop_assignment a (rst w); Some {| rst := st; heap := heap w; live := delete i (live w) |}
    end
  | EvApply now s spec service region_ backends =>
    Some {| rst := snd (apply url_parse boot_id now s spec service region_ backends (rst w));
            heap := heap w; live := live w |}
  | EvFence => Some {| rst := fence (rst w); heap := heap w; live := live w |}
  | EvStatus enabled now =>
    '(_, st) ← status enabled now (heap w) (rst w); Some {| rst := st; heap := heap w; live := live w |}
  | EvBackends heap => Some {| rst := rst w; heap := heap; live := live w |}
  end.

Fixpoint run (es : list Event) (w : World) : option World :=
  match es with
  | [] => Some w
  | e :: es => w ← step e w; run es w
  end.

Definition fresh_world (heap : Heap) : World := {| rst := router_new; heap := heap; live := [] |}.

(** The router behind its mutex.  A panic that holds the lock poisons it: from then on each
    [lock().unwrap()] panics too, a call changes nothing, and an assignment that is dropped is gone
    without giving back what it counted. *)
Record Guarded : Type := { inside : World; poisoned : bool }.
Definition guarded (heap : Heap) : Guarded := {| inside := fresh_world heap; poisoned := false |}.
Definition act (g : Guarded) (e : Event) : Guarded :=
  let w := inside g in
  if poisoned g then
    match e with
    | EvDrop i => {| inside := {| rst := rst w; heap := heap w; live := delete i (live w) |}; poisoned := true |}
    | EvBackends heap => {| inside := {| rst := rst w; heap := heap; live := live w |}; poisoned := true |}
    | _ => g
    end
  else match step e w with
       | Some w => {| inside := w; poisoned := false |}
       | None => {| inside := w; poisoned := true |}
       end.
(** [Assignment::drop] ends without a panic. *)
Definition drops_cleanly (a : Assignment) (g : Guarded) : bool :=
  negb (poisoned g) && is_some (drop_assignment a (rst (inside g))).

(** *** What an admission does to the state *)

(** One assignment more, counted; nothing else of the state. *)
Definition counted (st : RouterState) (a : Assignment) (st' : RouterState) : Prop :=
  ∃ c, count_in (a_source a) (a_local a) (key_of a) (counters st) = Some c ∧ st' = set_counters st c ∧
    a_source a || a_local a = true.

Lemma try_ok {A B} (m : result Z A) (k : A → option (result Z B)) b :
  try m k = Some (Ok b) → ∃ a, m = Ok a ∧ k a = Some (Ok b).
Proof. destruct m; cbn [try]; [by eauto|done]. Qed.

Lemma some_ok {A B} (m : option A) (k : A → option B) b : (x ← m; k x) = Some b → ∃ a, m = Some a ∧ k a = Some b.
Proof. destruct m; cbn; [by eauto|done]. Qed.

Lemma probe_counted spec r destination now loc h st a st' h' :
  probe_assignment url_parse show_Z socket_loopback boot_id spec r destination now loc h st = Some (Ok (a, st', h')) →
  counted st a st' ∧ key_of a = (pr_generation r, pr_region r).
Proof.
  unfold probe_assignment. destruct (existsb _ _); [done|]. intros (s & Hs & Hk)%try_ok. cbv zeta in Hk.
  destruct (_ || _) in Hk; [done|]. apply try_ok in Hk as (t & _ & Hk). apply try_ok in Hk as (g & _ & Hk).
  apply some_ok in Hk as (b & _ & Hk). apply try_ok in Hk as ([l h''] & _ & Hk).
  apply some_ok in Hk as (c & Hc & Hk). injection Hk as <- <- <-. split; [|done].
  exists c. split_and!; [done|done|]. by destruct destination.
Qed.

Lemma active_counted spec r destination now loc h st a st' h' :
  active_probe_assignment url_parse show_Z socket_loopback boot_id spec r destination now loc h st
    = Some (Ok (a, st', h')) →
  counted st a st' ∧ key_of a = (ap_generation r, ap_region r) ∧
  ∃ s p, open_snapshot st = Some s ∧ active_generation s = Some (ap_generation r) ∧
    find_policy s (ap_generation r) = Some p ∧
    ∃ t, t ∈ regions p ∧ region t = ap_region r ∧ (0 < weight t)%N.
Proof.
  unfold active_probe_assignment. intros (b & Hb & Hk)%some_ok. apply try_ok in Hk as ([[l h''] u] & -> & Hk).
  apply some_ok in Hk as (c & Hc & Hk). injection Hk as <- <- <-.
  split; [exists c; split_and!; [done|done|by destruct destination]|]. split; [done|].
  unfold active_probe_backend in Hb. destruct (_ || _) in Hb; [done|].
  apply try_ok in Hb as (s & Hs%ok_or_ok & Hb). destruct (_ || _) eqn:Ea in Hb; [done|].
  apply try_ok in Hb as (p & Hp%ok_or_ok & Hb). destruct (negb _) in Hb; [done|].
  apply try_ok in Hb as (t & Ht%ok_or_ok & _). apply List.find_some in Ht as [Hin Ht].
  apply orb_false_iff in Ea as [Ea _]. apply negb_false_iff, bool_decide_eq_true in Ea.
  apply andb_true_iff in Ht as [Hr%String.eqb_eq Hw%N.ltb_lt].
  exists s, p. split_and!; [done..|]. exists t. split_and!; [by apply list_elem_of_In|done|done].
Qed.

(** *** Admission *)

(** What a request that presents itself as forwarded by a peer must carry. *)
Definition from_peer (spec : RegionalSpec) (service_ region_ : string) (h : H) (secrets : SecretStore) (g : Z) : Prop :=
  ∃ token text,
    resolve_secret secrets (rs_auth spec) = Ok token ∧ token ≠ "" ∧
    get_all TOKEN h = [token] ∧ get_all SERVICE h = [service_] ∧ get_all REGION h = [region_] ∧
    get_all NAMESPACE h = [ref_namespace (rs_auth spec)] ∧
    (∃ env, get_all ENVIRONMENT h = [env] ∧ text_of (H := H) env = Some (environment spec)) ∧
    (∃ gen, get_all GENERATION h = [gen] ∧ text_of (H := H) gen = Some text ∧ parse_i64 text = Some g).

Lemma admitted_generation_spec spec service_ region_ h secrets s has_peer g :
  admitted_generation parse_i64 spec service_ region_ h secrets s has_peer = Ok g →
  if has_peer then from_peer spec service_ region_ h secrets g ∧ (closed_through_generation s < g)%Z
  else active_generation s = Some g.
Proof.
  unfold admitted_generation. destruct has_peer; [|by intros ?%ok_or_ok].
  intros (u & Hg & Hk)%rbind_ok. unfold gateway_admit in Hg. cbn [mode auth] in Hg.
  rewrite bool_decide_eq_false_2, andb_false_r in Hg by done. destruct (negb (carries_peer h) && _); [done|].
  destruct (resolve_secret _ _) as [token|] eqn:Er; [|done].
  destruct (String.eqb_spec token ""); [done|]. destruct (negb (value_ok token)); [done|]. cbn [orb] in Hg.
  destruct (decide (Local = Forward)); [done|]. apply seq_ok in Hg as [Hm _]. rewrite match_headers_ok in Hm.
  unfold peer_headers in Hm. cbn [service gs_region auth] in Hm.
  destruct (get_all ENVIRONMENT h) as [|env [|]] eqn:Ee; try done.
  destruct (get_all GENERATION h) as [|gen [|]] eqn:Eg; try done. case_bool_decide as Henv; [|done].
  apply rbind_ok in Hk as (g' & Hg%ok_or_ok & Hk). apply some_ok in Hg as (text & Ht & Hparse).
  destruct (Z.leb_spec g' (closed_through_generation s)); [done|]. injection Hk as <-. split; [|done].
  exists token, text. split_and!; [done|done| | | | |by exists env|by exists gen]; apply Hm;
    repeat (first [left|right]).
Qed.

(** The backend an admission picks among the local ones. *)
Lemma least_loaded_spec h locals l :
  least_loaded h locals = Some l →
  ∃ b, l ∈ locals ∧ h !! l = Some b ∧ is_available b = true ∧
    ∀ l' b', l' ∈ locals → h !! l' = Some b' → is_available b' = true → (in_flight b <= in_flight b')%Z.
Proof.
  unfold least_loaded. intros ([l' b] & Hm & ->)%fmap_Some. cbn [fst].
  assert (∀ l b, (l, b) ∈ List.filter (λ p, is_healthy (snd p) && negb (is_draining (snd p)))
      (omap (λ l, b ← h !! l; Some (l, b)) locals) ↔ l ∈ locals ∧ h !! l = Some b ∧ is_available b = true) as Helem.
  { intros l0 b0. rewrite list_elem_of_In, List.filter_In, <- list_elem_of_In, list_elem_of_omap. cbn [snd].
    split.
    - intros [(l1 & Hin & Hl) Ha]. destruct (h !! l1) eqn:E; [|done]. simplify_option_eq. done.
    - intros (Hin & Hl & Ha). split; [|done]. exists l0. by simplify_option_eq. }
  apply min_by_key_Some in Hm as [(Hin & Hl & Ha)%Helem Hmin]. exists b. split_and!; [done..|].
  intros l1 b1 Hin1 Hl1 Ha1. by apply (Hmin (l1, b1)), Helem.
Qed.

(** The parts of an admission. *)
Lemma admit_inv spec service_ region_ h secrets random now loc hp st a st' hp' :
  admit_request url_parse show_Z parse_i64 spec service_ region_ h secrets random now loc hp st = Some (Ok (a, st', hp')) →
  let has_peer := peer_or_pinned h in
  ∃ s g p d c b f, open_snapshot st = Some s ∧
    admitted_generation parse_i64 spec service_ region_ h secrets s has_peer = Ok g ∧ find_policy s g = Some p ∧
    d ∈ regions p ∧ (0 < weight d)%N ∧ (has_peer = true → region d = region_) ∧
    let here := String.eqb (region d) region_ in
    here && (g <=? closed_through_generation s)%Z = false ∧
    (if here then hp' = hp ∧ least_loaded hp (local st) = Some b
     else ∃ gw gws v, gateways d = gw :: gws ∧ for_upstream url_parse show_Z now (gw_url gw) = Some v ∧
            b = loc ∧ hp' = <[loc := v]> hp) ∧
    (let to := {| service := service_; gs_region := region d; auth := rs_auth spec; mode := Forward |} in
     if here then f = None
     else ∃ token, gateway_admit (Some to) h secrets = Ok (Some token) ∧ f = Some (to, token, environment spec)) ∧
    count_in (negb has_peer) here (g, region d) (counters st) = Some c ∧ st' = set_counters st c ∧
    a = {| a_generation := g; a_region := region d; a_source := negb has_peer; a_local := here;
           a_backend := b; a_forward := f |}.
Proof.
  unfold admit_request. destruct (_ || _); [done|]. cbv zeta. intros (s & Hs%ok_or_ok & Hk)%try_ok.
  apply try_ok in Hk as (g & Hg & Hk). apply try_ok in Hk as (p & Hp%ok_or_ok & Hk).
  apply some_ok in Hk as (dest & Hdest & Hk). apply try_ok in Hk as (d & -> & Hk).
  assert (d ∈ regions p ∧ (0 < weight d)%N ∧ (peer_or_pinned h = true → region d = region_)) as (Hd & Hw & Hhere).
  { destruct (peer_or_pinned h).
    - injection Hdest as Hdest%ok_or_ok. apply List.find_some in Hdest as [Hin Hf].
      apply andb_true_iff in Hf as [Hr%String.eqb_eq Hw%N.ltb_lt]. by apply list_elem_of_In in Hin.
    - destruct random as [r|]; [|done]. apply some_ok in Hdest as (t & _ & Hdest).
      injection Hdest as Hdest%ok_or_ok. apply pick_weight in Hdest as [Hin Hw]. done. }
  destruct (String.eqb (region d) region_ && _) eqn:Ec in Hk; [done|].
  apply some_ok in Hk as (b & Hb & Hk). apply try_ok in Hk as ([l hp1] & -> & Hk).
  apply try_ok in Hk as (f & Hf & Hk). apply some_ok in Hk as (c & Hc & Hk). injection Hk as <- <- <-.
  exists s, g, p, d, c, l, f. split_and!; [done..| | |done|done|done].
  - destruct (region d =? region_)%string.
    + injection Hb as Hb. apply rbind_ok in Hb as (l' & Hl%ok_or_ok & Hb). by injection Hb as <- <-.
    + destruct (gateways d) as [|gw gws]; [done|]. apply some_ok in Hb as (v & Hv & Hb).
      injection Hb as <- <-. by exists gw, gws, v.
  - destruct (region d =? region_)%string; [by injection Hf as <-|].
    apply rbind_ok in Hf as (t & Ht & Hf). apply rbind_ok in Hf as (token & ->%ok_or_ok & Hf).
    injection Hf as <-. by exists token.
Qed.

Lemma forward_token spec h secrets token :
  mode spec = Forward → gateway_admit (Some spec) h secrets = Ok (Some token) →
  resolve_secret secrets (auth spec) = Ok token.
Proof.
  intros Hm. unfold gateway_admit. rewrite Hm. destruct (_ && _); [done|]. destruct (_ && _); [done|].
  destruct (resolve_secret _ _) as [t|]; [|done]. destruct (_ || _); [done|]. rewrite decide_True by done.
  by intros [= ->].
Qed.

(** An admission pins a request to one generation of the policy. A request that names a
    peer is believed only with the peer's credential, service, region, namespace and
    environment, each named once, and is served here, for an open generation; any other
    request gets the active one. Either way its region has weight in that generation; served
    here it gets the least loaded of the available backends, elsewhere the region's first
    gateway with the credential to get in; and exactly its own counters go up by one. *)
Theorem admission_is_pinned spec service_ region_ h secrets random now loc hp st a st' hp' :
  admit_request url_parse show_Z parse_i64 spec service_ region_ h secrets random now loc hp st = Some (Ok (a, st', hp')) →
  counted st a st' ∧
  ∃ s p d, open_snapshot st = Some s ∧ find_policy s (a_generation a) = Some p ∧
    d ∈ regions p ∧ region d = a_region a ∧ (0 < weight d)%N ∧
    (a_local a = true ↔ a_region a = region_) ∧
    (if a_source a then active_generation s = Some (a_generation a) ∧ peer_or_pinned h = false
     else a_local a = true ∧ from_peer spec service_ region_ h secrets (a_generation a)) ∧
    if a_local a
    then (closed_through_generation s < a_generation a)%Z ∧ a_forward a = None ∧ hp' = hp ∧
         least_loaded hp (local st) = Some (a_backend a)
    else ∃ gw gws b token, gateways d = gw :: gws ∧ a_backend a = loc ∧ hp' = <[loc := b]> hp ∧
         for_upstream url_parse show_Z now (gw_url gw) = Some b ∧
         resolve_secret secrets (rs_auth spec) = Ok token ∧
         a_forward a = Some ({| service := service_; gs_region := region d; auth := rs_auth spec; mode := Forward |},
                             token, environment spec).
Proof.
  intros (s & g & p & d & c & b & f & Hs & Hg%admitted_generation_spec & Hp & Hd & Hw & Hhere & Ec & Hb & Hf & Hc & -> & ->)%admit_inv.
  unfold counted, key_of. cbn [a_generation a_region a_source a_local a_backend a_forward].
  split.
  { exists c. split_and!; [done|done|]. destruct (peer_or_pinned h); [|done]. by apply String.eqb_eq, Hhere. }
  exists s, p, d. split_and!; [done..|by rewrite String.eqb_eq| |].
  - destruct (peer_or_pinned h); cbn [negb]; [|done]. split; [by apply String.eqb_eq, Hhere|apply Hg].
  - destruct (region d =? region_)%string.
    + cbn [andb] in Ec. apply Z.leb_gt in Ec. destruct Hb as [-> Hb]. done.
    + destruct Hb as (gw & gws & v & Hgw & Hv & -> & ->), Hf as (token & Ht%forward_token & ->); [|done].
      by exists gw, gws, v, token.
Qed.

(** *** The counters are the live assignments *)

Definition number (f : Assignment → bool) (l : list Assignment) : N := N.of_nat (length (List.filter f l)).
Definition under (side : Assignment → bool) (k : Z * string) (a : Assignment) : bool :=
  side a && bool_decide (key_of a = k).
Definition within (side : Assignment → bool) (target : option string) (a : Assignment) : bool :=
  side a && bool_decide (Some (a_region a) = target).

Definition tally (k : Z * string) (l : list Assignment) : option (N * N) :=
  let n := number (under a_source k) l in
  let m := number (under a_local k) l in
  if (n =? 0)%N && (m =? 0)%N then None else Some (n, m).

Lemma number_cons f a l : number f (a :: l) = (N.b2n (f a) + number f l)%N.
Proof. unfold number. cbn [List.filter]. destruct (f a); cbn [length N.b2n]; lia. Qed.

Lemma number_perm f l l' : l ≡ₚ l' → number f l = number f l'.
Proof. intros Hp. unfold number. by rewrite (filter_perm f l l' Hp). Qed.

Lemma default_tally k l :
  default (0%N, 0%N) (tally k l) = (number (under a_source k) l, number (under a_local k) l).
Proof.
  unfold tally. cbv zeta.
  destruct (N.eqb_spec (number (under a_source k) l) 0) as [->|], (N.eqb_spec (number (under a_local k) l) 0) as [->|];
    done.
Qed.

Lemma under_key side k a : under side k a = if decide (k = key_of a) then side a else false.
Proof.
  unfold under. destruct (decide (k = key_of a)) as [->|Hk].
  - by rewrite bool_decide_eq_true_2, andb_true_r.
  - by rewrite bool_decide_eq_false_2, andb_false_r by congruence.
Qed.

Lemma within_region side target a : within side target a = if decide (Some (a_region a) = target) then side a else false.
Proof. unfold within. destruct (decide _); [rewrite bool_decide_eq_true_2, andb_true_r|rewrite bool_decide_eq_false_2, andb_false_r]; done. Qed.

Lemma tally_cons a k l : a_source a || a_local a = true →
  tally k (a :: l) = if decide (k = key_of a)
    then Some (number (under a_source k) l + N.b2n (a_source a), number (under a_local k) l + N.b2n (a_local a))%N
    else tally k l.
Proof.
  intros Ha. unfold tally. cbv zeta. rewrite !number_cons, !under_key.
  destruct (decide (k = key_of a)) as [->|Hk]; [|done].
  destruct (N.eqb_spec (N.b2n (a_source a) + number (under a_source (key_of a)) l) 0) as [H1|H1],
    (N.eqb_spec (N.b2n (a_local a) + number (under a_local (key_of a)) l) 0) as [H2|H2]; cbn [andb];
    [|f_equal; f_equal; lia..].
  destruct (a_source a), (a_local a); cbn [N.b2n] in *; (lia || done).
Qed.

Definition contribution (target : option string) (k : Z * string) (v : N * N) (acc : N * N) : N * N :=
  if bool_decide (Some (snd k) = target) then (fst acc + fst v, snd acc + snd v)%N else acc.

Lemma region_counts_delete target k c v : c !! k = Some v →
  region_counts target c = contribution target k v (region_counts target (delete k c)).
Proof.
  intros Hk. unfold region_counts. rewrite (map_fold_delete_L _ _ k v c); [done| |done].
  intros j1 j2 z1 z2 y _ _ _. repeat case_bool_decide; try done. cbn [fst snd]. f_equal; lia.
Qed.

Lemma region_counts_insert target k c v :
  region_counts target (<[k := v]> c) = contribution target k v (region_counts target (delete k c)).
Proof. rewrite (region_counts_delete target k (<[k := v]> c) v) by apply lookup_insert_eq. by rewrite delete_insert_eq. Qed.

Lemma region_counts_default target k c :
  region_counts target c = contribution target k (default (0%N, 0%N) (c !! k)) (region_counts target (delete k c)).
Proof.
  destruct (c !! k) eqn:E; [by apply region_counts_delete|]. rewrite delete_id by done. unfold contribution.
  cbn [default fst snd]. rewrite !N.add_0_r. by destruct (bool_decide _), (region_counts target c).
Qed.

(** The policies a router holds are those [apply] checked. *)
Definition good_snapshot (s : Snapshot) : Prop :=
  NoDup (List.map generation (policies s)) ∧
  ∀ p, p ∈ policies s → (0 < total_weight (policy p))%N.

Record router_ok (w : World) : Prop := {
  ok_tally : ∀ k, counters (rst w) !! k = tally k (live w);
  ok_region : ∀ target, region_counts target (counters (rst w)) =
    (number (within a_source target) (live w), number (within a_local target) (live w));
  ok_sides : ∀ a, a ∈ live w → a_source a || a_local a = true;
  ok_snapshot : ∀ s, snapshot (rst w) = Some s → good_snapshot s;
}.

Lemma count_in_some src loc k c c' : count_in src loc k c = Some c' →
  c' = <[k := (fst (default (0%N, 0%N) (c !! k)) + N.b2n src, snd (default (0%N, 0%N) (c !! k)) + N.b2n loc)%N]> c.
Proof.
  unfold count_in, add_u64. destruct (default _ _) as [n m]. cbn [fst snd].
  intros (n' & Hn & (m' & Hm & [= <-])%some_ok)%some_ok. repeat case_match; by simplify_eq.
Qed.

Lemma admitted_ok w a st' hp' :
  router_ok w → counted (rst w) a st' → router_ok {| rst := st'; heap := hp'; live := a :: live w |}.
Proof.
  intros [Ht Hr Hs Hsn] (c & Hc%count_in_some & -> & Ha). rewrite Ht, default_tally in Hc. cbn [fst snd] in Hc.
  split; cbn [rst live set_counters counters snapshot].
  - intros k. rewrite tally_cons by done. subst c. destruct (decide (k = key_of a)) as [->|Hk].
    + apply lookup_insert_eq.
    + by rewrite lookup_insert_ne by done.
  - intros target. rewrite !number_cons, !within_region. subst c. rewrite region_counts_insert.
    specialize (Hr target). rewrite (region_counts_default target (key_of a)), Ht, default_tally in Hr.
    unfold contribution in *. cbn [fst snd key_of] in *.
    destruct (region_counts target (delete (key_of a) (counters (rst w)))) as [x y]. cbn [fst snd] in *.
    case_bool_decide; [rewrite !decide_True by done|rewrite !decide_False by done]; cbn [N.b2n];
      injection Hr as H1 H2; f_equal; lia.
  - intros b [->|Hb]%elem_of_cons; [done|by apply Hs].
  - done.
Qed.

Lemma drop_ok w i a : router_ok w → live w !! i = Some a →
  ∃ st', drop_assignment a (rst w) = Some st' ∧
    router_ok {| rst := st'; heap := heap w; live := delete i (live w) |}.
Proof.
  intros [Ht Hr Hs Hsn] Hi. pose proof (delete_Permutation _ _ _ Hi) as Hp. set (l := delete i (live w)) in *.
  assert (a_source a || a_local a = true) as Ha by (apply Hs; by eapply list_elem_of_lookup_2).
  assert (∀ k, counters (rst w) !! k = tally k (a :: l)) as Ht'.
  { intros k. rewrite Ht. unfold tally. cbv zeta. by rewrite !(number_perm _ _ _ Hp). }
  unfold drop_assignment. rewrite Ht', tally_cons, decide_True by done. cbn [mbind option_bind].
  set (n := number (under a_source (key_of a)) l). set (m := number (under a_local (key_of a)) l).
  unfold sub_u64. rewrite !(proj2 (N.leb_le _ _)) by lia. cbn [mbind option_bind]. rewrite !N.add_sub.
  eexists. split; [done|]. split; cbn [rst live set_counters counters snapshot].
  - intros k. destruct (decide (k = key_of a)) as [->|Hk].
    + unfold tally. cbv zeta. fold n m. destruct (_ && _); [by rewrite lookup_delete_eq|by rewrite lookup_insert_eq].
    + specialize (Ht' k). rewrite tally_cons, decide_False in Ht' by done.
      destruct (_ && _); [rewrite lookup_delete_ne by done|rewrite lookup_insert_ne by done]; done.
  - intros target. specialize (Hr target). rewrite !(number_perm _ _ _ Hp), !number_cons in Hr.
    rewrite !within_region in Hr. rewrite (region_counts_default target (key_of a)), Ht', tally_cons, decide_True in Hr by done.
    fold n m in Hr. cbn [default from_option fst snd] in Hr.
    assert (region_counts target (if (n =? 0)%N && (m =? 0)%N then delete (key_of a) (counters (rst w))
        else <[key_of a := (n, m)]> (counters (rst w))) =
      contribution target (key_of a) (n, m) (region_counts target (delete (key_of a) (counters (rst w))))) as ->.
    { destruct (N.eqb_spec n 0) as [->|], (N.eqb_spec m 0) as [->|]; cbn [andb]; try apply region_counts_insert.
      unfold contribution. cbn [fst snd]. rewrite !N.add_0_r. by destruct (bool_decide _), (region_counts _ _). }
    unfold contribution in *. cbn [fst snd key_of] in *.
    destruct (region_counts target (delete (key_of a) (counters (rst w)))) as [x y]. cbn [fst snd] in *.
    case_bool_decide; [rewrite !decide_True in Hr by done|rewrite !decide_False in Hr by done]; cbn [N.b2n] in Hr;
      injection Hr as H1 H2; f_equal; lia.
  - intros b Hb. apply Hs. rewrite Hp. by right.
  - done.
Qed.

(** *** Snapshots *)

Lemma check_regions_total rs names ids addresses total total' :
  check_regions url_parse rs names ids addresses total = Ok total' →
  total' = (total + foldr N.add 0 (List.map weight rs))%N ∧ NoDup (List.map region rs) ∧
  ∀ r, r ∈ rs → region r ∉ names ∧ gateways r ≠ [].
Proof.
  revert names ids addresses total. induction rs as [|r rs IH]; intros names ids addresses total; cbn [check_regions].
  { intros [= ->]. cbn. split; [lia|]. split; [constructor|]. by intros r []%not_elem_of_nil. }
  destruct (_ || _) eqn:E; [done|]. intros (seen & _ & Hk)%rbind_ok. apply IH in Hk as (-> & Hnd & Hin).
  apply orb_false_iff in E as [[_ Hn%bool_decide_eq_false]%orb_false_iff Hg]. cbn [List.map foldr].
  split; [lia|]. split.
  - constructor; [|done]. intros (r' & Hr & Hr')%list_elem_of_fmap. apply Hin in Hr' as [Hr' _]. set_solver.
  - intros r' [->|Hr']%elem_of_cons; [split; [done|by destruct (gateways r)]|].
    apply Hin in Hr' as [Hr' Hg']. split; [set_solver|done].
Qed.

Lemma check_policies_good ps seen gs :
  check_policies url_parse ps seen = Ok gs →
  gs = list_to_set (List.map generation ps) ∪ seen ∧ NoDup (List.map generation ps) ∧
  ∀ p, p ∈ ps → generation p ∉ seen ∧ (0 < total_weight (policy p))%N.
Proof.
  revert seen. induction ps as [|p ps IH]; intros seen; cbn [check_policies].
  { intros [= ->]. split_and!; [set_solver|constructor|]. by intros p []%not_elem_of_nil. }
  destruct (_ || _) eqn:E; [done|]. intros (total & [-> _]%check_regions_total & Hk)%rbind_ok.
  destruct (N.eqb_spec (0 + foldr N.add 0 (List.map weight (regions (policy p))))%N 0%N); [done|].
  apply IH in Hk as (-> & Hnd & Hin).
  apply orb_false_iff in E as [[_ Hn%bool_decide_eq_false]%orb_false_iff _]. cbn [List.map].
  split_and!; [set_solver| |].
  - constructor; [|done]. intros (p' & Hp & Hp')%list_elem_of_fmap. apply Hin in Hp' as [Hp' _]. set_solver.
  - intros p' [->|Hp']%elem_of_cons; [unfold total_weight; split; [done|lia]|].
    apply Hin in Hp' as [Hp' Hw]. split; [set_solver|done].
Qed.

(** A later snapshot: nothing regressed, and the policies of the generations are the same. *)
Definition advances (old s : Snapshot) : Prop :=
  (version old <= version s)%N ∧ opt_lt (active_generation s) (active_generation old) = false ∧
  (closed_through_generation old <= closed_through_generation s)%Z ∧
  ∀ g p, find_policy old g = Some p → find_policy s g = Some p.

Lemma find_policy_unique s p : NoDup (List.map generation (policies s)) → p ∈ policies s →
  find_policy s (generation p) = Some (policy p).
Proof.
  unfold find_policy. induction (policies s) as [|q ps IH]; [by intros _ []%not_elem_of_nil|].
  cbn [List.map List.find]. intros [Hq Hnd]%NoDup_cons Hp.
  destruct (Z.eqb_spec (generation q) (generation p)) as [E|E].
  - apply elem_of_cons in Hp as [->|Hp]; [done|]. exfalso. apply Hq. rewrite E. by apply list_elem_of_fmap_2.
  - apply elem_of_cons in Hp as [->|Hp]; [done|by apply IH].
Qed.

Lemma find_policy_in s g p : find_policy s g = Some p → ∃ q, q ∈ policies s ∧ generation q = g ∧ policy q = p.
Proof.
  unfold find_policy. intros (q & [Hq He%Z.eqb_eq]%List.find_some & ->)%fmap_Some.
  exists q. split; [by apply list_elem_of_In|done].
Qed.

Lemma check_history_advances s old :
  good_snapshot s → check_history s old = Ok true → advances old s.
Proof.
  intros [Hnd _]. unfold check_history. destruct (N.ltb_spec (version s) (version old)); [done|].
  destruct (_ || _) eqn:E; [done|]. apply orb_false_iff in E as [Ha Hc%Z.ltb_ge].
  destruct (forallb _ _) eqn:Ef; [|done]. intros _. split_and!; [done..|].
  intros g p (q & Hq & <- & <-)%find_policy_in. rewrite forallb_forall in Ef.
  apply list_elem_of_In, Ef, existsb_exists in Hq as (q' & Hq' & He).
  apply andb_true_iff in He as [Hg%Z.eqb_eq Hp%bool_decide_eq_true].
  rewrite <- Hg, <- Hp. apply find_policy_unique; [done|by apply list_elem_of_In].
Qed.

(** What [apply] does: it keeps the state, or takes a good snapshot that advances the old one. *)
Lemma apply_spec now s spec service_ region_ backends st :
  let '(r, st') := apply url_parse boot_id now s spec service_ region_ backends st in
  counters st' = counters st ∧ fenced st' = fenced st ∧
  match r with
  | Ok true =>
    fenced st = false ∧ snapshot st' = Some s ∧ good_snapshot s ∧
    (∀ old, snapshot st = Some old → advances old s) ∧
    (∀ g, active_generation s = Some g → is_Some (find_policy s g))
  | _ => st' = st
  end.
Proof.
  unfold apply. set (checked := _ ;;? _). destruct checked as [[]|] eqn:E;
    [|done..]. cbn [counters fenced snapshot].
  split; [done|]. split; [done|]. unfold checked in E.
  apply seq_ok in E as [_ E]. apply rbind_ok in E as (gs & (-> & Hnd & Hgood)%check_policies_good & E).
  apply seq_ok in E as [Hgen%bail_if_ok E]. apply seq_ok in E as [_ E]. apply seq_ok in E as [Hf%bail_if_ok E].
  rewrite !orb_false_iff in Hgen. destruct Hgen as [[[_ Ha] _] _].
  assert (good_snapshot s) as Hs by (split; [done|]; intros p Hin; by apply Hgood).
  assert (∀ g, g ∈ list_to_set (List.map generation (policies s)) ∪ (∅ : gset Z) → is_Some (find_policy s g)) as Hfind.
  { intros g Hin. assert (g ∈ List.map generation (policies s)) as (p & -> & Hp')%list_elem_of_fmap by set_solver.
    rewrite find_policy_unique by done. by eexists. }
  split_and!; [done|done|done| |].
  - intros old Hold. rewrite Hold in E. by apply check_history_advances.
  - intros g Hg. rewrite Hg in Ha. apply Hfind. by apply negb_false_iff, bool_decide_eq_true in Ha.
Qed.

Lemma admit_counted spec service_ region_ h secrets random now loc hp st a st' hp' :
  admit_request url_parse show_Z parse_i64 spec service_ region_ h secrets random now loc hp st = Some (Ok (a, st', hp')) →
  counted st a st'.
Proof.
  intros (s & g & p & d & c & b & f & _ & _ & _ & _ & _ & Hhere & _ & _ & _ & Hc & -> & ->)%admit_inv.
  exists c. split_and!; [done|done|]. cbn [a_source a_local]. destruct (peer_or_pinned h); [|done].
  by apply String.eqb_eq, Hhere.
Qed.

(** *** Steps *)

Lemma admitted_some w m w' :
  admitted w m = Some w' → w' = w ∨ ∃ a st hp, m = Some (Ok (a, st, hp)) ∧ w' = {| rst := st; heap := hp; live := a :: live w |}.
Proof. unfold admitted. destruct m as [[[[a st] hp]|]|]; [intros [= <-]; right; by exists a, st, hp|intros [= ->]; by left|done]. Qed.

Lemma router_ok_same w w' :
  router_ok w → counters (rst w') = counters (rst w) → snapshot (rst w') = snapshot (rst w) → live w' = live w →
  router_ok w'.
Proof. intros [Ht Hr Hs Hsn] Hc Hsnap Hl. split; rewrite ?Hc, ?Hsnap, ?Hl; done. Qed.

Lemma step_ok e w w' : step e w = Some w' → router_ok w → router_ok w'.
Proof.
  intros Hst Hok. destruct e; cbn [step] in Hst.
  - apply admitted_some in Hst as [->|(a & st & hp & Ha%admit_counted & ->)]; [done|by apply admitted_ok].
  - apply admitted_some in Hst as [->|(a & st & hp & [Ha _]%probe_counted & ->)]; [done|by apply admitted_ok].
  - apply admitted_some in Hst as [->|(a & st & hp & [Ha _]%active_counted & ->)]; [done|by apply admitted_ok].
  - destruct (live w !! i) as [a|] eqn:Hi; [|by injection Hst as <-].
    destruct (drop_ok w i a Hok Hi) as (st & Hd & Hok'). rewrite Hd in Hst. by injection Hst as <-.
  - pose proof (apply_spec now s spec service0 region_ backends (rst w)) as Hap.
    destruct (apply _ _ _ _ _ _ _ _ _) as [r st']. destruct Hap as (Hc & Hf & Hr). cbn [snd] in Hst.
    injection Hst as <-.
    destruct r as [[]|]; [|subst st'; by apply (router_ok_same w)..].
    destruct Hr as (_ & Hs & Hgood & _). destruct Hok as [Ht Hrg Hsd _].
    split; cbn [rst live]; rewrite ?Hc, ?Hs; try done. by intros ? [= <-].
  - injection Hst as <-. by apply (router_ok_same w).
  - apply some_ok in Hst as ([r st] & Hst & [= <-]). unfold status in Hst.
    apply some_ok in Hst as (n & _ & [= _ <-]). by apply (router_ok_same w).
  - injection Hst as <-. by apply (router_ok_same w).
Qed.

Lemma run_inv (P : World → Prop) es w w' :
  (∀ e w w', e ∈ es → step e w = Some w' → P w → P w') → run es w = Some w' → P w → P w'.
Proof.
  revert w. induction es as [|e es IH]; intros w Hstep; cbn [run]; [by intros [= ->]|].
  intros (w1 & H1 & H2)%some_ok HP. apply (IH w1); [|done|].
  - intros. eapply Hstep; [by right|done..].
  - eapply Hstep; [left|done..].
Qed.

Lemma fresh_ok hp : router_ok (fresh_world hp).
Proof. split; cbn; [done|done|by intros a []%not_elem_of_nil|done]. Qed.

Lemma run_ok es w w' : run es w = Some w' → router_ok w → router_ok w'.
Proof. apply run_inv. intros; by eapply step_ok. Qed.

(** An admission, a probe and a report leave the policy alone. *)
Lemma counted_keeps st a st' : counted st a st' → snapshot st' = snapshot st ∧ fenced st' = fenced st ∧ local st' = local st.
Proof. by intros (c & _ & -> & _). Qed.

Lemma advances_refl s : advances s s.
Proof. split_and!; [lia| |lia|done]. destruct (active_generation s); cbn; [lia|done]. Qed.

Lemma advances_trans s1 s2 s3 : advances s1 s2 → advances s2 s3 → advances s1 s3.
Proof.
  intros (H1 & H2 & H3 & H4) (K1 & K2 & K3 & K4). split_and!; [lia| |lia|auto].
  destruct (active_generation s1), (active_generation s2), (active_generation s3); cbn in *; (done || lia).
Qed.

Lemma step_snapshot e w w' : step e w = Some w' →
  (fenced (rst w) = true → snapshot (rst w') = snapshot (rst w) ∧ fenced (rst w') = true) ∧
  ∀ s, snapshot (rst w) = Some s → ∃ s', snapshot (rst w') = Some s' ∧ advances s s' ∧
    ((∀ now s0 spec service_ region_ backends, e ≠ EvApply now s0 spec service_ region_ backends) → s' = s).
Proof.
  intros Hst.
  assert (snapshot (rst w') = snapshot (rst w) ∧ fenced (rst w') = fenced (rst w) →
    (fenced (rst w) = true → snapshot (rst w') = snapshot (rst w) ∧ fenced (rst w') = true) ∧
    ∀ s, snapshot (rst w) = Some s → ∃ s', snapshot (rst w') = Some s' ∧ advances s s' ∧
      ((∀ now s0 spec service_ region_ backends, e ≠ EvApply now s0 spec service_ region_ backends) → s' = s)) as Hsame.
  { intros [Hs Hf]. split; [by rewrite Hs, Hf|]. intros s Hsn. exists s.
    split_and!; [by rewrite Hs|apply advances_refl|done]. }
  destruct e; cbn [step] in Hst.
  - apply Hsame. apply admitted_some in Hst as [->|(a & st & hp & Ha%admit_counted%counted_keeps & ->)]; [done|].
    cbn. by destruct Ha as (-> & -> & _).
  - apply Hsame. apply admitted_some in Hst as [->|(a & st & hp & [Ha%counted_keeps _]%probe_counted & ->)]; [done|].
    cbn. by destruct Ha as (-> & -> & _).
  - apply Hsame. apply admitted_some in Hst as [->|(a & st & hp & [Ha%counted_keeps _]%active_counted & ->)]; [done|].
    cbn. by destruct Ha as (-> & -> & _).
  - apply Hsame. destruct (live w !! i) as [a|]; [|by injection Hst as <-].
    apply some_ok in Hst as (st & Hd & [= <-]). unfold drop_assignment in Hd.
    apply some_ok in Hd as ([n m] & _ & Hd). apply some_ok in Hd as (n' & _ & Hd).
    apply some_ok in Hd as (m' & _ & [= <-]). done.
  - pose proof (apply_spec now s spec service0 region_ backends (rst w)) as Hap.
    destruct (apply _ _ _ _ _ _ _ _ _) as [r st']. destruct Hap as (_ & Hf & Hr). cbn [snd] in Hst.
    injection Hst as <-. cbn [rst] in *.
    destruct r as [[]|]; [|subst st'; by apply Hsame..]. destruct Hr as (Hopen & Hs & _ & Hadv & _).
    split; [by rewrite Hopen|]. intros old Hold. exists s. split_and!; [done|by apply Hadv|].
    intros Hne. by destruct (Hne now s spec service0 region_ backends).
  - injection Hst as <-. cbn. split; [done|]. intros s Hs. exists s. split_and!; [done|apply advances_refl|done].
  - apply Hsame. apply some_ok in Hst as ([r st] & Hst & [= <-]). unfold status in Hst.
    by apply some_ok in Hst as (n & _ & [= _ <-]).
  - apply Hsame. by injection Hst as <-.
Qed.

Lemma status_counts enabled now hp st rep st' : status enabled now hp st = Some (Some rep, st') →
  ∃ s, snapshot st = Some s ∧ region_counts (drain_target s) (counters st) = (rp_outgoing_target rep, rp_local_target rep).
Proof.
  unfold status. intros (n & _ & Hk)%some_ok. destruct (snapshot st) as [s|]; [|done]. exists s. split; [done|].
  cbn in Hk. destruct (region_counts _ _) as [x y]. by injection Hk as <- _.
Qed.

Lemma run_app es1 es2 w : run (es1 ++ es2) w = w ← run es1 w; run es2 w.
Proof. revert w. induction es1 as [|e es IH]; intros w; [done|]. cbn [app run]. destruct (step e w); [apply IH|done]. Qed.
(** Up to the first panic the router runs as if it had no mutex; behind it nothing changes. *)
Lemma act_run es hp g : foldl act (guarded hp) es = g →
  if poisoned g then
    ∃ es1 e es2 w, es = es1 ++ e :: es2 ∧ run es1 (fresh_world hp) = Some w ∧ step e w = None ∧ rst (inside g) = rst w
  else run es (fresh_world hp) = Some (inside g).
Proof.
  revert g. induction es as [|e es IH] using rev_ind; intros g; [by intros <-|].
  rewrite foldl_app. cbn [foldl]. set (g0 := foldl act (guarded hp) es). specialize (IH g0 eq_refl). intros <-.
  unfold act. destruct (poisoned g0) eqn:Ep.
  - destruct IH as (es1 & e1 & es2 & w & -> & Hrun & Hs & Hr).
    assert (∀ g', poisoned g' = true → rst (inside g') = rst (inside g0) →
      if poisoned g' then ∃ es3 e3 es4 w, (es1 ++ e1 :: es2) ++ [e] = es3 ++ e3 :: es4 ∧ run es3 (fresh_world hp) = Some w ∧
        step e3 w = None ∧ rst (inside g') = rst w else run ((es1 ++ e1 :: es2) ++ [e]) (fresh_world hp) = Some (inside g')) as Hk.
    { intros g' -> ->. exists es1, e1, (es2 ++ [e]), w. by rewrite <- (assoc_L (++)). }
    destruct e; by apply Hk.
  - pose proof (run_app es [e] (fresh_world hp)) as Happ. rewrite IH in Happ. cbn [mbind option_bind run] in Happ.
    destruct (step e (inside g0)) as [w|] eqn:Es; cbn [poisoned inside mbind option_bind] in *; [done|]. by exists es, e, [], (inside g0).
Qed.

(** C26. The counters of a router are its live assignments.  Whatever requests, probes, snapshots and
    reports come in whatever order, as long as none of them has panicked with the mutex held, each
    counter is the number of live assignments of its generation and region, a counter of nothing is
    gone, dropping a live assignment gives its count back without a panic, and a report gives the
    exact number in each direction for its target.  The first panic of a run is never a drop; behind it
    the counters stay what they were. *)
Theorem counters_are_live es hp :
  let g := foldl act (guarded hp) es in
  (poisoned g = false →
   (∀ k, counters (rst (inside g)) !! k = tally k (live (inside g))) ∧
   (∀ a, a ∈ live (inside g) → drops_cleanly a g = true) ∧
   (∀ enabled now rep st, status enabled now (heap (inside g)) (rst (inside g)) = Some (Some rep, st) →
      ∃ s, snapshot (rst (inside g)) = Some s ∧
        rp_outgoing_target rep = number (within a_source (drain_target s)) (live (inside g)) ∧
        rp_local_target rep = number (within a_local (drain_target s)) (live (inside g)))) ∧
  (poisoned g = true →
   ∃ es1 e es2 w, es = es1 ++ e :: es2 ∧ run es1 (fresh_world hp) = Some w ∧ step e w = None ∧ (∀ i, e ≠ EvDrop i) ∧
     rst (inside g) = rst w).
Proof.
  intros g. pose proof (act_run es hp g eq_refl) as Hg. split; intros Hp; rewrite Hp in Hg.
  - apply run_ok in Hg as Hok; [|apply fresh_ok]. split_and!; [apply Hok| |].
    + intros a (i & Hi)%list_elem_of_lookup. unfold drops_cleanly. rewrite Hp.
      destruct (drop_ok _ i a Hok Hi) as (st & -> & _). done.
    + intros enabled now rep st (s & Hs & Hc)%status_counts. exists s. rewrite (ok_region _ Hok) in Hc.
      injection Hc as -> ->. done.
  - destruct Hg as (es1 & e & es2 & w & -> & Hrun & Hs & Hr). exists es1, e, es2, w. split_and!; [done|done|done| |done].
    intros i ->. apply run_ok in Hrun as Hok; [|apply fresh_ok]. cbn [step] in Hs.
    destruct (live w !! i) as [a|] eqn:Hi; [|done]. destruct (drop_ok w i a Hok Hi) as (st & Hd & _). by rewrite Hd in Hs.
Qed.

(** A router only goes forward: whatever happens, the version of its snapshot, the active
    generation and the closed generations never go back, the policy of a generation it once
    held never changes or disappears, every policy has weight to hand out, and once it is
    fenced its snapshot is frozen and admits nothing. *)
Theorem snapshots_only_advance es1 es2 hp w w' s :
  run es1 (fresh_world hp) = Some w → run es2 w = Some w' → snapshot (rst w) = Some s →
  ∃ s', snapshot (rst w') = Some s' ∧ advances s s' ∧ good_snapshot s' ∧
    (fenced (rst w) = true → s' = s ∧ ∀ spec service_ region_ (h : H) secrets random now loc,
       ∃ e, admit_request url_parse show_Z parse_i64 spec service_ region_ h secrets random now loc (heap w') (rst w')
            = Some (Err e)).
Proof.
  intros H1 H2 Hs.
  assert (router_ok w') as Hok by (eapply run_ok; [done|]; eapply run_ok; [done|apply fresh_ok]).
  assert (∃ s', snapshot (rst w') = Some s' ∧ advances s s' ∧ (fenced (rst w) = true → s' = s ∧ fenced (rst w') = true))
    as (s' & Hs' & Ha & Hf).
  { eapply (run_inv (λ w', ∃ s', snapshot (rst w') = Some s' ∧ advances s s' ∧
      (fenced (rst w) = true → s' = s ∧ fenced (rst w') = true))); [|done|exists s; split_and!; [done|apply advances_refl|done]].
    intros e w1 w2 _ [Hfr Hsn]%step_snapshot (s1 & Hs1 & Ha1 & Hf1).
    destruct (Hsn s1 Hs1) as (s2 & Hs2 & Ha2 & _). exists s2. split_and!; [done|by eapply advances_trans|].
    intros Hfw. destruct (Hf1 Hfw) as [-> Hf1']. destruct (Hfr Hf1') as [Heq ->]. split; [congruence|done]. }
  exists s'. split_and!; [done|done|by apply Hok|]. intros Hfw. destruct (Hf Hfw) as [-> Hf'].
  split; [done|]. intros. unfold admit_request. destruct (_ || _); [by eexists|]. unfold open_snapshot. rewrite Hf'.
  cbn [ok_or try]. by eexists.
Qed.

(** The target has no weight where a request may still be sent to it. *)
Definition withdrawn (s : Snapshot) (target : string) : Prop :=
  ∀ g p d, find_policy s g = Some p → active_generation s = Some g ∨ (closed_through_generation s < g)%Z →
    d ∈ regions p → region d = target → weight d = 0%N.

Definition quiet (e : Event) : Prop :=
  match e with EvApply _ _ _ _ _ _ | EvProbe _ _ _ _ _ => False | _ => True end.

Lemma number_le_delete f i a (l : list Assignment) : l !! i = Some a → (number f (delete i l) <= number f l)%N.
Proof. intros Hi. rewrite (number_perm f l (a :: delete i l)) by by apply delete_Permutation. rewrite number_cons. lia. Qed.

Lemma quiet_step e w w' s target :
  quiet e → step e w = Some w' → snapshot (rst w) = Some s → withdrawn s target →
  snapshot (rst w') = Some s ∧
  ∀ side, (number (within side (Some target)) (live w') <= number (within side (Some target)) (live w))%N.
Proof.
  intros Hq Hst Hs Hw. split.
  { destruct (step_snapshot _ _ _ Hst) as [_ Hsn]. destruct (Hsn s Hs) as (s' & Hs' & _ & Heq).
    rewrite Hs', Heq; [done|]. by intros ? ? ? ? ? ? ->. }
  assert (∀ a g p d, a_region a = region d → find_policy s g = Some p →
    active_generation s = Some g ∨ (closed_through_generation s < g)%Z → d ∈ regions p → (0 < weight d)%N →
    ∀ side, number (within side (Some target)) (a :: live w) = number (within side (Some target)) (live w)) as Hadd.
  { intros a g p d Ha Hp Hg Hd Hpos side. rewrite number_cons, within_region. destruct (decide _) as [[= Ht]|]; [|done].
    rewrite (Hw g p d) in Hpos by (done || congruence). lia. }
  intros side. destruct e; cbn [step quiet] in *; try done.
  - apply admitted_some in Hst as [->|(a & st & hp & Ha & ->)]; [done|]. cbn [live].
    apply admit_inv in Ha as (s1 & g & p & d & c & b & f & Hs1 & Hg%admitted_generation_spec & Hp & Hd & Hpos & _ &
      _ & _ & _ & _ & _ & ->).
    assert (s1 = s) as -> by (unfold open_snapshot in Hs1; destruct (fenced _); congruence).
    erewrite (Hadd _ g p d); [done|done|done| |done|done]. destruct (peer_or_pinned h); [right; apply Hg|by left].
  - apply admitted_some in Hst as [->|(a & st & hp & Ha & ->)]; [done|]. cbn [live].
    apply active_counted in Ha as (_ & Hk & s1 & p & Hs1 & Hact & Hp & t & Ht & Hr & Hpos).
    assert (s1 = s) as -> by (unfold open_snapshot in Hs1; destruct (fenced _); congruence).
    erewrite (Hadd _ (ap_generation r) p t); [done| |done|by left|done|done].
    unfold key_of in Hk. congruence.
  - destruct (live w !! i) as [a|] eqn:Hi; [|by injection Hst as <-].
    apply some_ok in Hst as (st & _ & [= <-]). by eapply number_le_delete.
  - by injection Hst as <-.
  - by apply some_ok in Hst as ([] & _ & [= <-]).
  - by injection Hst as <-.
Qed.

(** Draining a region is final. Once the snapshot has withdrawn its target (no weight left in
    the active generation nor in any that is still open to peers), the requests on their way
    to it and the requests it serves only become fewer, whatever requests and active probes
    come: what a later report counts is at most what an earlier one did, and zero stays zero. *)
Theorem drained_region_stays_drained es1 es2 hp w w' s target enabled now rep st enabled' now' rep' st' :
  run es1 (fresh_world hp) = Some w → snapshot (rst w) = Some s →
  drain_target s = Some target → withdrawn s target →
  Forall quiet es2 → run es2 w = Some w' →
  status enabled now (heap w) (rst w) = Some (Some rep, st) →
  status enabled' now' (heap w') (rst w') = Some (Some rep', st') →
  (rp_outgoing_target rep' <= rp_outgoing_target rep)%N ∧ (rp_local_target rep' <= rp_local_target rep)%N.
Proof.
  intros H1 Hs Ht Hw Hq H2 (s1 & Hs1 & Hc1)%status_counts (s2 & Hs2 & Hc2)%status_counts.
  pose proof (run_ok _ _ _ H1 (fresh_ok hp)) as Hok. pose proof (run_ok _ _ _ H2 Hok) as Hok'.
  assert (snapshot (rst w') = Some s ∧ ∀ side, (number (within side (Some target)) (live w')
    <= number (within side (Some target)) (live w))%N) as [Hs' Hle].
  { eapply (run_inv (λ w', snapshot (rst w') = Some s ∧ ∀ side, (number (within side (Some target)) (live w')
      <= number (within side (Some target)) (live w))%N)); [|exact H2|done].
    intros e w1 w2 He Hst [Hs3 Hle]. rewrite Forall_forall in Hq.
    destruct (quiet_step e w1 w2 s target (Hq e He) Hst Hs3 Hw) as [Hs4 Hle'].
    split; [done|]. intros side. etrans; [apply Hle'|apply Hle]. }
  assert (s1 = s) as -> by congruence. assert (s2 = s) as -> by congruence.
  rewrite (ok_region _ Hok), Ht in Hc1. rewrite (ok_region _ Hok'), Ht in Hc2.
  injection Hc1 as <- <-. injection Hc2 as <- <-. split; apply Hle.
Qed.
End runs.

(** ** Instances *)

Module HeaderList.
Definition t : Type := list (string * string).
#[export] Instance ops : HeaderOps t := {
  get_all n h := List.map snd (List.filter (λ nv, String.eqb (fst nv) n) h);
  set_header n v h := (n, v) :: List.filter (λ nv, negb (String.eqb (fst nv) n)) h;
  remove_header n h := List.filter (λ nv, negb (String.eqb (fst nv) n)) h;
  value_ok v := Str.all (Str.in_range 32 126) v;
  text_of v := if Str.all (Str.in_range 32 126) v then Some v else None;
}.

Lemma filter_named n (h : t) :
  List.filter (λ nv, String.eqb (fst nv) n) (List.filter (λ nv, negb (String.eqb (fst nv) n)) h) = [].
Proof. induction h as [|[m v] h IH]; [done|]. cbn. destruct (String.eqb_spec m n) as [->|Hm]; cbn; [done|]. apply String.eqb_neq in Hm. by rewrite Hm. Qed.

Lemma filter_other n m (h : t) : n ≠ m →
  List.filter (λ nv, String.eqb (fst nv) n) (List.filter (λ nv, negb (String.eqb (fst nv) m)) h) =
  List.filter (λ nv, String.eqb (fst nv) n) h.
Proof.
  intros Hne. induction h as [|[x v] h IH]; [done|]. cbn. destruct (String.eqb_spec x m) as [->|Hm]; cbn; rewrite IH.
  - by rewrite (proj2 (String.eqb_neq m n)) by congruence.
  - done.
Qed.

#[export] Instance laws : HeaderLaws t.
Proof.
  split; cbn.
  - intros n v h. rewrite String.eqb_refl. cbn. by rewrite filter_named.
  - intros n m v h Hne. rewrite (proj2 (String.eqb_neq m n)) by congruence. by rewrite filter_other.
  - intros n h. by rewrite filter_named.
  - intros n m h Hne. by rewrite filter_other.
Qed.
End HeaderList.

Section examples.
Import HeaderList.
Let parse_url (text : string) : option Url :=
  host ← Str.strip_prefix "https://" text;
  Some {| url_scheme := "https"; url_username := ""; url_password := None; url_path := "/"; url_query := None;
          url_fragment := None; url_port_or_known_default := Some 443%Z; url_domain := Some host;
          url_host_str := Some host; url_text := text +:+ "/" |}.
Let show (_ : Z) : string := "443".
Let parse_int (t : string) : option Z := ParseInt.digits 0 t.
Let loopback (_ : string) : option bool := Some true.
Let secret : SecretRef := {| sr_secret := "peer"; sr_key := "token"; sr_username := None; sr_namespace := None |}.
Let secrets : SecretStore := {[ "default/peer" := {[ "token" := "t0p" ]} ]}.
Let spec : RegionalSpec :=
  {| gateway_id := "g-eu"; rs_backend_server_id := "host-eu"; environment := "live"; rs_auth := secret |}.
Let eu (w : N) : Region :=
  {| region := "eu"; weight := w;
     gateways := [{| gw_id := "g-eu"; gw_backend_server_id := "host-eu"; gw_url := "https://eu.example" |}] |}.
Let us (w : N) : Region :=
  {| region := "us"; weight := w;
     gateways := [{| gw_id := "g-us"; gw_backend_server_id := "host-us"; gw_url := "https://us.example" |}] |}.
Let split_policy : Generation := {| generation := 1; policy := {| pol_version := 1; regions := [eu 1; us 1] |} |}.
Let eu_policy : Generation := {| generation := 2; policy := {| pol_version := 1; regions := [eu 1; us 0] |} |}.
Let first_snapshot : Snapshot :=
  {| protocol_version := 1; service_id := "shop"; sn_environment := "live"; sn_region := "eu";
     sn_gateway_id := "g-eu"; sn_boot_id := "b1"; version := 1; operation_id := "op1"; phase := "bake";
     proposal_generation := 1; active_generation := Some 1%Z; drain_target := None;
     closed_through_generation := 0; policies := [split_policy]; endpoints := [] |}.
Let drain_snapshot : Snapshot :=
  {| protocol_version := 1; service_id := "shop"; sn_environment := "live"; sn_region := "eu";
     sn_gateway_id := "g-eu"; sn_boot_id := "b1"; version := 2; operation_id := "op2"; phase := "draining";
     proposal_generation := 2; active_generation := Some 2%Z; drain_target := Some "us";
     closed_through_generation := 1; policies := [split_policy; eu_policy]; endpoints := [] |}.
Let web : VmBackend := new_backend 0 "vm1" "127.0.0.1:80".
Let hp : Heap := {[ 1%nat := web ]}.
Let enter (random : N) (loc : nat) : Event (H := t) :=
  EvAdmit (H := t) spec "shop" "eu" [("host", "shop.example")] secrets (Some random) 5 loc.
Let adopt (s : Snapshot) : Event (H := t) := EvApply 5 s spec "shop" "eu" [1%nat].
Let before : list (Event (H := t)) := [adopt first_snapshot; enter 7 10; enter 4 11; adopt drain_snapshot].
Let after : list (Event (H := t)) := [enter 7 12; EvDrop 1; EvStatus true 6].
Let go (es : list (Event (H := t))) (w : World) : option World := run parse_url show parse_int loopback "b1" es w.
Let forwarded : GatewaySpec := {| service := "shop"; gs_region := "us"; auth := secret; mode := Forward |}.

Lemma forwarded_request_takes_one_hop_witness :
  ∃ h', write_forward_headers (H := t) [("host", "shop.example"); (TOKEN, "forged")] forwarded "t0p" = Some h' ∧
    gateway_admit (Some {| service := "shop"; gs_region := "us"; auth := secret; mode := Local |}) h' secrets = Ok None ∧
    gateway_admit (Some forwarded) h' secrets = Err 508%Z.
Proof.
  destruct (write_forward_headers (H := t) [("host", "shop.example"); (TOKEN, "forged")] forwarded "t0p")
    as [h'|] eqn:E; [|by vm_compute in E].
  destruct (forwarded_request_takes_one_hop (H := t) _ _ _ _ secrets E) as (Hlocal & Hforward & _).
  exists h'. split; [done|]. split; [rewrite Hlocal by reflexivity; vm_compute; reflexivity|by apply Hforward].
Defined.

Let acted (es : list Event) : Guarded := foldl (act parse_url show parse_int loopback "b1") (guarded hp) es.
Lemma counters_are_live_witness :
  ∃ w, acted before = {| inside := w; poisoned := false |} ∧ length (live w) = 2%nat ∧
    counters (rst w) !! (1%Z, "us") = Some (1, 0)%N ∧ Forall (λ a, drops_cleanly a (acted before) = true) (live w).
Proof.
  destruct (counters_are_live parse_url show parse_int loopback "b1" before hp) as [H _]. fold (acted before) in H.
  assert (poisoned (acted before) = false) as Hp by (vm_compute; reflexivity).
  destruct (H Hp) as (Hc & Hd & _). exists (inside (acted before)). split_and!.
  - destruct (acted before) as [w p]. cbn [poisoned inside] in *. by rewrite Hp.
  - vm_compute. reflexivity.
  - rewrite Hc. vm_compute. reflexivity.
  - apply Forall_forall. intros a Ha. by apply Hd.
Defined.

Let router : RouterState :=
  {| snapshot := Some first_snapshot; observed_at := Some 5%Z; local := [1%nat]; counters := ∅; sequence := 0;
     fenced := false |}.

Lemma admission_is_pinned_witness :
  ∃ a st hp', admit_request (H := t) parse_url show parse_int spec "shop" "eu" [("host", "shop.example")] secrets (Some 4%N) 5 11
      hp router = Some (Ok (a, st, hp')) ∧ a_local a = true ∧ least_loaded hp [1%nat] = Some (a_backend a).
Proof.
  destruct (admit_request (H := t) parse_url show parse_int spec "shop" "eu" [("host", "shop.example")] secrets (Some 4%N) 5 11
      hp router) as [[[[a st] hp']|]|] eqn:E; [|by vm_compute in E..].
  destruct (admission_is_pinned _ _ _ _ _ _ _ _ _ _ _ _ _ _ _ _ E) as (_ & s & p & d & _ & _ & _ & _ & _ & _ & _ & Hb).
  exists a, st, hp'. split; [done|]. destruct (a_local a) eqn:El; [split; [done|apply Hb]|].
  vm_compute in E. injection E as Ea _ _. rewrite <- Ea in El. discriminate El.
Defined.

Lemma snapshots_only_advance_witness :
  ∃ w w' s', go before (fresh_world hp) = Some w ∧ go [adopt first_snapshot; EvFence; enter 7 12] w = Some w' ∧
    snapshot (rst w') = Some s' ∧ advances drain_snapshot s'.
Proof.
  destruct (go before (fresh_world hp)) as [w|] eqn:E; [|by vm_compute in E].
  assert (Some w = go before (fresh_world hp)) as Hw by (by rewrite E).
  destruct (go [adopt first_snapshot; EvFence; enter 7 12] w) as [w'|] eqn:E';
    [|vm_compute in Hw; injection Hw as ->; by vm_compute in E'].
  assert (snapshot (rst w) = Some drain_snapshot) as Hs by (vm_compute in Hw; by injection Hw as ->).
  pose proof (snapshots_only_advance parse_url show parse_int loopback "b1" before
    [adopt first_snapshot; EvFence; enter 7 12] hp w w' drain_snapshot E E' Hs) as (s' & Hs' & Ha & _).
  exists w, w', s'. done.
Defined.

Lemma withdrawn_us : withdrawn drain_snapshot "us".
Proof.
  intros g p d (q & Hq & <- & <-)%find_policy_in [Ha|Hc] Hd Hr;
    repeat (apply elem_of_cons in Hq as [->|Hq]); try (by apply not_elem_of_nil in Hq); try done;
    repeat (apply elem_of_cons in Hd as [->|Hd]); try (by apply not_elem_of_nil in Hd); done.
Qed.

Lemma drained_region_stays_drained_witness :
  ∃ w w' rep rep', go before (fresh_world hp) = Some w ∧ go after w = Some w' ∧
    fst <$> status true 5 (heap w) (rst w) = Some (Some rep) ∧
    fst <$> status true 5 (heap w') (rst w') = Some (Some rep') ∧
    (rp_outgoing_target rep' <= rp_outgoing_target rep)%N.
Proof.
  destruct (go before (fresh_world hp)) as [w|] eqn:E; [|by vm_compute in E].
  assert (Some w = go before (fresh_world hp)) as Hw by (by rewrite E). vm_compute in Hw.
  destruct (go after w) as [w'|] eqn:E'; [|injection Hw as ->; by vm_compute in E'].
  assert (Some w' = go after w) as Hw' by (by rewrite E'). injection Hw as Hw. rewrite Hw in Hw' at 1. vm_compute in Hw'.
  injection Hw' as Hw'.
  assert (∃ rep st, status true 5 (heap w) (rst w) = Some (Some rep, st)) as (rep & st & Hr)
    by (rewrite Hw; vm_compute; eauto).
  assert (∃ rep st, status true 5 (heap w') (rst w') = Some (Some rep, st)) as (rep' & st' & Hr')
    by (rewrite Hw'; vm_compute; eauto).
  exists w, w', rep, rep'. split; [done|]. split; [done|]. split; [by rewrite Hr|]. split; [by rewrite Hr'|].
  refine (proj1 (drained_region_stays_drained parse_url show parse_int loopback "b1" before after hp w w' drain_snapshot
    "us" true 5 rep st true 5 rep' st' E _ eq_refl withdrawn_us _ E' Hr Hr')).
  - by rewrite Hw.
  - repeat constructor.
Defined.

(** [apply] checks the parsed URL of a gateway, and a URL parser drops the blanks around its
    text; the backend is made from the text itself, which may hold none.  A snapshot with
    such a gateway is accepted, and the request sent to it panics with the router locked. *)
Let lenient (text : string) : option Url :=
  parse_url match text with String " " rest => rest | _ => text end.
Let padded_snapshot : Snapshot :=
  {| protocol_version := 1; service_id := "shop"; sn_environment := "live"; sn_region := "eu";
     sn_gateway_id := "g-eu"; sn_boot_id := "b1"; version := 1; operation_id := "op1"; phase := "bake";
     proposal_generation := 1; active_generation := Some 1%Z; drain_target := None;
     closed_through_generation := 0;
     policies := [{| generation := 1; policy := {| pol_version := 1; regions :=
       [eu 1; {| region := "us"; weight := 1;
                 gateways := [{| gw_id := "g-us"; gw_backend_server_id := "host-us"; gw_url := " https://us.example" |}] |}] |} |}];
     endpoints := [] |}.

Lemma accepted_gateway_panics :
  ∃ w, run lenient show parse_int loopback "b1" [adopt padded_snapshot] (fresh_world hp) = Some w ∧
    snapshot (rst w) = Some padded_snapshot ∧
    step lenient show parse_int loopback "b1" (enter 7 10) w = None.
Proof. eexists. split; [reflexivity|]. split; vm_compute; reflexivity. Qed.
(** Such a panic poisons the mutex: a request that was admitted before it can no longer be counted out. *)
Example poisoned_router_keeps_its_counters :
  let lenient_run := foldl (act lenient show parse_int loopback "b1") (guarded hp) in
  let g := lenient_run [adopt padded_snapshot; enter 4 9; enter 7 10] in
  poisoned g = true ∧ length (live (inside g)) = 1%nat ∧
  map_size (counters (rst (inside (lenient_run [adopt padded_snapshot; enter 4 9; enter 7 10; EvDrop 0])))) = 1%nat ∧
  live (inside (lenient_run [adopt padded_snapshot; enter 4 9; enter 7 10; EvDrop 0])) = [].
Proof. vm_compute. repeat split; reflexivity. Qed.
End examples.
