(* ===== verification/LbRequest.v ===== *)
(** * Requests: [app-lb/src/request_control.rs] and the manager's side of
      [app-lb/src/worker_rpc.rs]

    What one proxied request does with the pool: it picks a backend, reserves it before it
    resolves its address, retries elsewhere, waits for a cold start, and gives the reservation
    back on every way out.  The manager serves one session per request, all at the same time
    over the same backends; a session is a state machine that stops wherever the code awaits, or
    lets another thread in. *)
From Stdlib Require Import Ascii String ZArith Lia Bool.
From stdpp Require Import base option list strings gmap fin_maps sets.
From S2P Require Import Prelude LbPool LbRegional.
Open Scope string_scope.
Open Scope list_scope.

Definition MAX_ATTEMPTS : nat := 3.

Inductive ErrorKind : Type := Internal | Connect.

(** The errors of [next_peer], each with its message. *)
Inductive RequestError : Type :=
| NoDeployment            (** no deployment in request state *)
| Exhausted               (** exhausted upstream retries *)
| ReplayForbidden         (** regional assignment unavailable; replay forbidden *)
| AssignmentUnresolved    (** regional assignment address did not resolve *)
| NoBackend               (** no healthy backend available for deployment *)
| PolicyChanged.          (** gateway policy changed after admission *)

Definition kind_of (e : RequestError) : ErrorKind :=
  match e with NoDeployment => Internal | _ => Connect end.

(** The fields of [RequestState] the selection uses: the deployment and the backend are shared,
    so they are locations.  The others carry headers, sign-in and identity through. *)
Record RequestState : Type := {
  deployment : option nat;
  backend : option nat;
  failed : list string;
  attempts : nat;
  regional_assignment : option Assignment;
}.

Definition with_backend (r : RequestState) (b : option nat) : RequestState :=
  {| deployment := deployment r; backend := b; failed := failed r; attempts := attempts r;
     regional_assignment := regional_assignment r |}.
Definition with_failed (r : RequestState) (p : string) : RequestState :=
  {| deployment := deployment r; backend := backend r; failed := failed r ++ [p]; attempts := attempts r;
     regional_assignment := regional_assignment r |}.
Definition with_deployment (r : RequestState) (d : nat) : RequestState :=
  {| deployment := Some d; backend := backend r; failed := failed r; attempts := attempts r;
     regional_assignment := regional_assignment r |}.
Definition with_attempts (r : RequestState) (n : nat) : RequestState :=
  {| deployment := deployment r; backend := backend r; failed := failed r; attempts := n;
     regional_assignment := regional_assignment r |}.

Definition retry_allowed (r : RequestState) : bool :=
  negb (is_some (regional_assignment r)) && (attempts r <? MAX_ATTEMPTS)%nat.

Section sessions.
Context {RetirementOp CreateAttempt RolloutOp Handoff SandboxStatus : Type}
  `{!EqDecision RetirementOp, !EqDecision CreateAttempt, !EqDecision RolloutOp, !EqDecision Handoff}.
Context {SocketAddr : Type}.
Local Abbreviation Dep := (LbPool.Deployment RetirementOp CreateAttempt RolloutOp Handoff SandboxStatus).

(** A deployment, with the gateway of its spec and whether it has a regional router. *)
Record Target : Type := { pool_of : Dep; gateway : option GatewaySpec; regional : bool }.

(** What the manager answers on the wire. *)
Inductive Reply : Type :=
| RDecision
| RPeer (address : SocketAddr) (tls : bool) (sni sandbox_id : string) (retry : bool)
| RError (e : RequestError)
| RFailureRecorded (retry : bool)
| RModifications.

(** Where a session is. *)
Inductive Phase : Type :=
| Reading                 (** [read_frame] *)
| Picking                 (** the head of the loop of [next_peer] *)
| Chosen (l : nat)        (** selected, not yet reserved *)
| Rechecking              (** the head of the loop of [wait_for_capacity] *)
| Waiting                 (** [timeout_at], and the change it races with *)
| Resolving (l : nat)     (** [resolve_peer] *)
| ResolvingPinned (l : nat)
| Replying (r : Reply)    (** [write_frame] *)
| Holding.                (** [hold_until_exit] *)

Record Session : Type := { req : RequestState; phase : Phase }.

(** The manager: the backends, the deployments and the registry, the sessions, and the
    [BackendSlot]s that shells hold.  [returned] are the assignments dropped so far, which
    [LbRegional.drop_assignment] takes off the counters of their router. *)
Record World : Type := {
  clock : Z;
  heap : Heap;
  targets : gmap nat Target;
  registry : gmap string nat;
  sessions : gmap nat Session;
  slots : list nat;
  returned : list Assignment;
}.

Definition with_heap (w : World) (h : Heap) : World :=
  {| clock := clock w; heap := h; targets := targets w; registry := registry w; sessions := sessions w;
     slots := slots w; returned := returned w |}.
Definition with_targets (w : World) (t : gmap nat Target) : World :=
  {| clock := clock w; heap := heap w; targets := t; registry := registry w; sessions := sessions w;
     slots := slots w; returned := returned w |}.
Definition with_registry (w : World) (r : gmap string nat) : World :=
  {| clock := clock w; heap := heap w; targets := targets w; registry := r; sessions := sessions w;
     slots := slots w; returned := returned w |}.
Definition with_sessions (w : World) (s : gmap nat Session) : World :=
  {| clock := clock w; heap := heap w; targets := targets w; registry := registry w; sessions := s;
     slots := slots w; returned := returned w |}.
Definition with_slots (w : World) (l : list nat) : World :=
  {| clock := clock w; heap := heap w; targets := targets w; registry := registry w; sessions := sessions w;
     slots := l; returned := returned w |}.
Definition with_returned (w : World) (l : list Assignment) : World :=
  {| clock := clock w; heap := heap w; targets := targets w; registry := registry w; sessions := sessions w;
     slots := slots w; returned := l |}.
Definition with_clock (w : World) (t : Z) : World :=
  {| clock := t; heap := heap w; targets := targets w; registry := registry w; sessions := sessions w;
     slots := slots w; returned := returned w |}.

Definition on_backend (f : VmBackend → VmBackend) (l : nat) (w : World) : World := with_heap w (alter f l (heap w)).
Definition on_pool (f : Dep → Dep) (d : nat) (w : World) : World :=
  with_targets w (alter (λ t, {| pool_of := f (pool_of t); gateway := gateway t; regional := regional t |}) d (targets w)).

(** [VmBackend::try_acquire] on the shared backend. *)
Definition try_reserve (l : nat) (w : World) : bool * World :=
  match heap w !! l with
  | None => (false, w)
  | Some b => let '(ok, b) := try_acquire (clock w) b in (ok, with_heap w (<[l := b]> (heap w)))
  end.

(** *** [RequestState] *)

(** [RequestState::release]. *)
Definition release_request (r : RequestState) (w : World) : RequestState * World :=
  match backend r with
  | None => (r, w)
  | Some l => (with_backend r None, on_backend (LbPool.release (clock w)) l w)
  end.

(** [RequestState::complete]. *)
Definition complete (r : RequestState) (w : World) : RequestState * World :=
  let '(r, w) := release_request r w in
  ({| deployment := deployment r; backend := backend r; failed := failed r; attempts := attempts r;
      regional_assignment := None |},
   match regional_assignment r with Some a => with_returned w (a :: returned w) | None => w end).

(** [RequestState::connection_failed]. *)
Definition connection_failed (r : RequestState) (w : World) : RequestState * World :=
  match backend r with
  | None => (r, w)
  | Some l =>
    let w := on_backend (λ b, set_healthy b false) l w in
    release_request (with_failed r (match heap w !! l with Some b => peer b | None => "" end)) w
  end.

(** [check_flat_admission_refresh]. *)
Definition check_flat_admission_refresh (previous current : Target) : result RequestError unit :=
  if negb (bool_decide (gateway current = gateway previous)) || regional current || regional previous
  then Err PolicyChanged else Ok tt.

(** *** [next_peer] *)

(** A request as it is left, and where it goes on. *)
Definition at_ (p : Phase) (r : RequestState) : Session := {| req := r; phase := p |}.
Definition answer (e : RequestError) (r : RequestState) : Session := at_ (Replying (RError e)) r.

(** From the call to the first await or the head of the loop. *)
Definition start_next_peer (r : RequestState) (w : World) : Session * World :=
  match deployment r with
  | None => (answer NoDeployment r, w)
  | Some _ =>
    let r := with_attempts r (S (attempts r)) in
    if (MAX_ATTEMPTS <? attempts r)%nat then (answer Exhausted r, w)
    else
      let '(r, w) := release_request r w in
      match regional_assignment r with
      | Some a =>
        if negb (attempts r =? 1)%nat then (answer ReplayForbidden r, w)
        else
          match try_reserve (a_backend a) w with
          | (false, w) => (answer ReplayForbidden r, w)
          | (true, w) => (at_ (ResolvingPinned (a_backend a)) (with_backend r (Some (a_backend a))), w)
          end
      | None => (at_ Picking r, w)
      end
  end.

(** The head of the loop: the deployment the registry has by now, and a selection; without one,
    the entry of [wait_for_capacity]. *)
Definition pick_backend (r : RequestState) (w : World) : Session * World :=
  match deployment r with
  | None => (answer NoDeployment r, w)
  | Some d =>
    match targets w !! d with
    | None => (answer NoDeployment r, w)
    | Some t =>
      let current :=
        c ← registry w !! id (spec (pool_of t));
        if (c =? d)%nat then None else t' ← targets w !! c; Some (c, t') in
      match current with
      | Some (c, t') =>
        match check_flat_admission_refresh t t' with
        | Err e => (answer e r, w)
        | Ok _ => (at_ Picking (with_deployment r c), w)
        end
      | None =>
        match select (heap w) (pool_of t) (failed r) with
        | Some l => (at_ (Chosen l) r, w)
        | None =>
          if can_grow (pool_of t) then (at_ Rechecking r, on_pool track_waiter d w)
          else (answer NoBackend r, w)
        end
      end
    end
  end.

(** The reservation of what was selected. *)
Definition reserve (l : nat) (r : RequestState) (w : World) : Session * World :=
  match try_reserve l w with
  | (false, w) => (at_ Picking (with_failed r (match heap w !! l with Some b => peer b | None => "" end)), w)
  | (true, w) => (at_ (Resolving l) (with_backend r (Some l)), w)
  end.

(** [Peer]. *)
Definition peer_reply (l : nat) (address : SocketAddr) (r : RequestState) (w : World) : Session :=
  match heap w !! l with
  | Some b => at_ (Replying (RPeer address (tls b) (sni b) (LbPool.sandbox_id b) (retry_allowed r))) r
  | None => answer NoBackend r
  end.

(** The address of what is reserved, or not. *)
Definition resolved (l : nat) (address : option SocketAddr) (r : RequestState) (w : World) : Session * World :=
  match address with
  | Some address => (peer_reply l address r w, w)
  | None =>
    let w := on_backend (λ b, set_healthy b false) l w in
    let '(r, w) := release_request
                     (with_failed r (match heap w !! l with Some b => peer b | None => "" end)) w in
    (at_ Picking r, w)
  end.

Definition resolved_pinned (l : nat) (address : option SocketAddr) (r : RequestState) (w : World) : Session * World :=
  match address with
  | Some address => (peer_reply l address r w, w)
  | None => (answer AssignmentUnresolved r, w)
  end.

(** Leaving [wait_for_capacity] drops its [WaiterGuard]. *)
Definition leave_wait (r : RequestState) (w : World) : World :=
  match deployment r with Some d => on_pool drop_waiter_guard d w | None => w end.

(** The head of the loop of [wait_for_capacity]. *)
Definition recheck (r : RequestState) (w : World) : Session * World :=
  match (d ← deployment r; t ← targets w !! d; select (heap w) (pool_of t) (failed r)) with
  | Some l => (at_ (Chosen l) r, leave_wait r w)
  | None => (at_ Waiting r, w)
  end.

(** *** [serve] *)

Inductive ClientMessage : Type :=
| Hello | Begin | ContinueLogin | NextPeer | ConnectionFailed | ForwardingModifications | Complete | Cancel.

(** What can happen to a session, and to what it shares with the others. *)
Inductive Event : Type :=
| EvBegin (i : nat) (d : option nat) (a : option Assignment)  (** [decide] is over *)
| EvFrame (i : nat) (m : option ClientMessage)                (** a frame, or a failed read *)
| EvGo (i : nat)                                              (** the session runs on *)
| EvResolved (i : nat) (address : option SocketAddr)
| EvWoken (i : nat)
| EvDeadline (i : nat)
| EvChanged (i : nat)                                         (** [ready_signal] of the old deployment *)
| EvWritten (i : nat) (ok : bool)
| EvWorkerExited (i : nat)
| EvHold (l : nat)                                            (** [try_hold] *)
| EvUnhold (j : nat)                                          (** a [BackendSlot] is dropped *)
| EvClock (now : Z)
| EvHealthy (l : nat) (b : bool)
| EvDraining (l : nat) (b : bool)
| EvBackend (l : nat) (sandbox_id peer address : string) (tls : bool) (sni : string)
| EvTarget (d : nat) (t : Target)
| EvRoute (id : string) (d : option nat)
| EvPool (d : nat) (bs : list nat)
| EvPending (d : nat) (p : list (PendingVm SandboxStatus)).

Definition put (i : nat) (sw : Session * World) : World := with_sessions (snd sw) (<[i := fst sw]> (sessions (snd sw))).

(** A session that is over: its state is dropped. *)
Definition end_session (i : nat) (r : RequestState) (w : World) : World :=
  let w := snd (complete r w) in with_sessions w (delete i (sessions w)).

Definition on_frame (i : nat) (m : option ClientMessage) (r : RequestState) (w : World) : World :=
  match m with
  | None | Some Hello | Some Begin => put i (at_ Holding r, w)
  | Some ContinueLogin => put i (at_ (Replying RDecision) r, w)
  | Some NextPeer => put i (start_next_peer r w)
  | Some ConnectionFailed =>
    let '(r, w) := connection_failed r w in
    put i (at_ (Replying (RFailureRecorded (retry_allowed r))) r, w)
  | Some ForwardingModifications => put i (at_ (Replying RModifications) r, w)
  | Some Complete | Some Cancel => end_session i r w
  end.

Definition new_request (d : option nat) (a : option Assignment) : RequestState :=
  {| deployment := d; backend := None; failed := []; attempts := 0; regional_assignment := a |}.

(** An event that does not fit where the session is does nothing. *)
Definition session_step (e : Event) (i : nat) (s : Session) (w : World) : World :=
  let r := req s in
  match e, phase s with
  | EvFrame _ m, Reading => on_frame i m r w
  | EvGo _, Picking => put i (pick_backend r w)
  | EvGo _, Chosen l => put i (reserve l r w)
  | EvGo _, Rechecking => put i (recheck r w)
  | EvWoken _, Waiting => put i (at_ Rechecking r, w)
  | EvDeadline _, Waiting => put i (answer NoBackend r, leave_wait r w)
  | EvChanged _, Waiting => put i (at_ Picking r, leave_wait r w)
  | EvResolved _ address, Resolving l => put i (resolved l address r w)
  | EvResolved _ address, ResolvingPinned l => put i (resolved_pinned l address r w)
  | EvWritten _ ok, Replying _ => put i (at_ (if ok then Reading else Holding) r, w)
  | EvWorkerExited _, Holding => end_session i r w
  | _, _ => w
  end.

Definition session_of (e : Event) : option nat :=
  match e with
  | EvFrame i _ | EvGo i | EvResolved i _ | EvWoken i | EvDeadline i | EvChanged i | EvWritten i _
  | EvWorkerExited i => Some i
  | _ => None
  end.

Definition exists_target (w : World) (d : nat) (id_ : string) : bool :=
  match targets w !! d with Some t => String.eqb (id (spec (pool_of t))) id_ | None => false end.

Definition step (e : Event) (w : World) : World :=
  match e with
  | EvBegin i d a =>
    if is_some (sessions w !! i) || match d with Some d => negb (is_some (targets w !! d)) | None => false end
       || match a with Some a => negb (is_some (heap w !! a_backend a)) | None => false end
    then w
    else put i (at_ (Replying RDecision) (new_request d a), w)
  | EvHold l => let '(ok, w) := try_reserve l w in if ok then with_slots w (l :: slots w) else w
  | EvUnhold j =>
    match slots w !! j with
    | Some l => with_slots (on_backend (LbPool.release (clock w)) l w) (delete j (slots w))
    | None => w
    end
  | EvClock now => with_clock w now
  | EvHealthy l b => on_backend (λ x, set_healthy x b) l w
  | EvDraining l b => on_backend (λ x, set_draining x b) l w
  | EvBackend l sandbox_id peer address tls sni =>
    if is_some (heap w !! l) then w
    else with_heap w (<[l := with_peer (clock w) sandbox_id peer address tls sni]> (heap w))
  | EvTarget d t =>
    if is_some (targets w !! d) then w
    else with_targets w (<[d := {| pool_of := upd_waiters (pool_of t) 0; gateway := gateway t; regional := regional t |}]>
                           (targets w))
  | EvRoute id_ None => with_registry w (delete id_ (registry w))
  | EvRoute id_ (Some d) => if exists_target w d id_ then with_registry w (<[id_ := d]> (registry w)) else w
  | EvPool d bs =>
    match targets w !! d with
    | Some t => let '(h, p) := set_backends (heap w) (pool_of t) bs in on_pool (λ _, p) d (with_heap w h)
    | None => w
    end
  | EvPending d p => on_pool (λ x, set_pending x p) d w
  | _ =>
    match session_of e with
    | Some i => match sessions w !! i with Some s => session_step e i s w | None => w end
    | None => w
    end
  end.

Fixpoint run (es : list Event) (w : World) : World :=
  match es with [] => w | e :: es => run es (step e w) end.

Definition empty_world (now : Z) : World :=
  {| clock := now; heap := ∅; targets := ∅; registry := ∅; sessions := ∅; slots := []; returned := [] |}.

(** ** Counting *)

Definition count (f : Session → Z) (m : gmap nat Session) : Z := map_fold (λ _ s n, f s + n)%Z 0%Z m.

Lemma count_delete f m i s : m !! i = Some s → count f m = (f s + count f (delete i m))%Z.
Proof. intros Hi. unfold count. rewrite (map_fold_delete_L _ _ i s m); [done| |done]. intros; lia. Qed.

Lemma count_insert f m i s : count f (<[i := s]> m) = (f s + count f (delete i m))%Z.
Proof. rewrite (count_delete f _ i s) by apply lookup_insert_eq. by rewrite delete_insert_eq. Qed.

Lemma count_none f m i : m !! i = None → count f (delete i m) = count f m.
Proof. intros Hi. by rewrite delete_id. Qed.

Lemma count_nonneg f m : (∀ s, 0 <= f s)%Z → (0 <= count f m)%Z.
Proof.
  intros Hf. induction m as [|i s m Hi IH] using map_ind; [done|].
  rewrite count_insert, count_none by done. specialize (Hf s). lia.
Qed.

Lemma count_le f g m : (∀ s, f s <= g s)%Z → (count f m <= count g m)%Z.
Proof.
  intros Hf. induction m as [|i s m Hi IH] using map_ind; [done|].
  rewrite !count_insert, !count_none by done. specialize (Hf s). lia.
Qed.

Lemma count_zero f m : (∀ i s, m !! i = Some s → f s = 0%Z) → count f m = 0%Z.
Proof.
  induction m as [|i s m Hi IH] using map_ind; intros Hf; [done|].
  rewrite count_insert, count_none by done. rewrite (Hf i s), IH; [done| |by apply lookup_insert_eq].
  intros j t Hj. apply (Hf j). rewrite lookup_insert_ne; [done|]. congruence.
Qed.

(** What a session holds: a slot of a backend, and its place among the waiters of a deployment. *)
Definition is_waiting (p : Phase) : bool := match p with Rechecking | Waiting => true | _ => false end.
Definition waits_on (s : Session) : option nat := if is_waiting (phase s) then deployment (req s) else None.
Definition one (o : option nat) (l : nat) : Z := if decide (o = Some l) then 1%Z else 0%Z.

Lemma one_range o l : (0 <= one o l <= 1)%Z.
Proof. unfold one. destruct (decide _); lia. Qed.

Lemma one_none l : one None l = 0%Z.
Proof. done. Qed.
Lemma one_self l : one (Some l) l = 1%Z.
Proof. unfold one. by rewrite decide_True. Qed.
Lemma one_other k l : k ≠ l → one (Some l) k = 0%Z.
Proof. intros. unfold one. by rewrite decide_False by congruence. Qed.

Definition held (l : nat) (w : World) : Z := count (λ s, one (backend (req s)) l) (sessions w).
Definition shells (l : nat) (w : World) : Z := Z.of_nat (length (List.filter (λ x, (x =? l)%nat) (slots w))).
Definition waiting_on (d : nat) (w : World) : Z := count (λ s, one (waits_on s) d) (sessions w).
Definition population (w : World) : Z := (count (λ _, 1) (sessions w) + Z.of_nat (length (slots w)))%Z.

(** Where a session has no reservation. *)
Definition unreserved (p : Phase) : bool :=
  match p with Picking | Chosen _ | Rechecking | Waiting => true | _ => false end.

Record manager_ok (w : World) : Prop := {
  ok_in_flight : ∀ l b, heap w !! l = Some b → in_flight b = (held l w + shells l w)%Z;
  ok_waiters : ∀ d t, targets w !! d = Some t → waiters (pool_of t) = waiting_on d w;
  ok_unreserved : ∀ i s, sessions w !! i = Some s → unreserved (phase s) = true → backend (req s) = None;
  ok_held : ∀ i s l, sessions w !! i = Some s → backend (req s) = Some l → is_Some (heap w !! l);
  ok_waits : ∀ i s d, sessions w !! i = Some s → waits_on s = Some d → is_Some (targets w !! d);
  ok_shells : ∀ l, l ∈ slots w → is_Some (heap w !! l);
}.

(** ** What one session does to what it shares

    From [w], where the session holds [b] and waits on [d], to [w'], where it holds [b'] and
    waits on [d']: every counter moves by exactly what the session took or gave back. *)
Record moves (w : World) (b d : option nat) (w' : World) (b' d' : option nat) : Prop := {
  mv_heap : ∀ l, match heap w !! l, heap w' !! l with
                 | Some x, Some x' => (in_flight x' - one b' l = in_flight x - one b l)%Z
                 | None, None => b' ≠ Some l
                 | _, _ => False
                 end;
  mv_targets : ∀ l, match targets w !! l, targets w' !! l with
                    | Some t, Some t' => (waiters (pool_of t') - one d' l = waiters (pool_of t) - one d l)%Z
                    | None, None => d' ≠ Some l
                    | _, _ => False
                    end;
  mv_sessions : sessions w' = sessions w;
  mv_slots : slots w' = slots w;
}.

(** The counters the others leave to the session are at least its own, and not at the limit. *)
Definition room (w : World) (b d : option nat) : Prop :=
  (∀ l x, heap w !! l = Some x → 0 <= in_flight x - one b l < U64.max)%Z ∧
  (∀ l t, targets w !! l = Some t → 0 <= waiters (pool_of t) - one d l < U64.max)%Z ∧
  (∀ l, b = Some l → is_Some (heap w !! l)) ∧ (∀ l, d = Some l → is_Some (targets w !! l)).

Lemma counts_refl w b d : room w b d → moves w b d w b d.
Proof.
  intros (_ & _ & Hb & Hd). split; [intros l; destruct (heap w !! l) eqn:E|intros l; destruct (targets w !! l) eqn:E|done..];
    try lia; intros ->; [destruct (Hb l eq_refl)|destruct (Hd l eq_refl)]; congruence.
Qed.

Lemma moves_room w b d w' b' d' : room w b d → moves w b d w' b' d' → room w' b' d'.
Proof.
  intros (H1 & H2 & H3 & H4) [Hh Ht _ _]. split_and!.
  - intros l x' Hx. specialize (Hh l). rewrite Hx in Hh. destruct (heap w !! l) as [x|] eqn:E; [|done].
    specialize (H1 l x E). lia.
  - intros l x' Hx. specialize (Ht l). rewrite Hx in Ht. destruct (targets w !! l) as [x|] eqn:E; [|done].
    specialize (H2 l x E). lia.
  - intros l ->. specialize (Hh l). by destruct (heap w !! l), (heap w' !! l).
  - intros l ->. specialize (Ht l). by destruct (targets w !! l), (targets w' !! l).
Qed.

Lemma counts_trans w1 b1 d1 w2 b2 d2 w3 b3 d3 :
  moves w1 b1 d1 w2 b2 d2 → moves w2 b2 d2 w3 b3 d3 → moves w1 b1 d1 w3 b3 d3.
Proof.
  intros [H1 H2 H3 H4] [K1 K2 K3 K4]. split; [| |congruence..].
  - intros l. specialize (H1 l). specialize (K1 l).
    destruct (heap w1 !! l), (heap w2 !! l), (heap w3 !! l); try done; lia.
  - intros l. specialize (H2 l). specialize (K2 l).
    destruct (targets w1 !! l), (targets w2 !! l), (targets w3 !! l); try done; lia.
Qed.

(** A change of backends that no counter sees. *)
Lemma moves_backend w b d f l : room w b d → (∀ x, in_flight (f x) = in_flight x) → moves w b d (on_backend f l w) b d.
Proof.
  intros Hr Hf. pose proof (counts_refl w b d Hr) as [Hh Ht _ _]. split; [|done..].
  intros k. specialize (Hh k). cbn [on_backend with_heap heap]. destruct (decide (k = l)) as [->|Hk].
  - rewrite lookup_alter_eq. destruct (heap w !! l); cbn; [rewrite Hf; lia|done].
  - rewrite lookup_alter_ne by done. done.
Qed.

Lemma moves_release w r w' r' d :
  room w (backend r) d → release_request r w = (r', w') →
  moves w (backend r) d w' None d ∧ backend r' = None ∧ deployment r' = deployment r ∧ failed r' = failed r ∧
  attempts r' = attempts r ∧ regional_assignment r' = regional_assignment r.
Proof.
  intros Hr. unfold release_request. destruct (backend r) as [l|] eqn:Eb; intros [= <- <-];
    [|rewrite Eb; split; [by apply counts_refl|done]].
  split; [|done]. destruct Hr as (H1 & H2 & H3 & H4).
  assert (room w (Some l) d) as Hroom by done. pose proof (counts_refl _ _ _ Hroom) as [_ Ht _ _].
  split; [|done..]. intros k. cbn [on_backend with_heap heap]. destruct (decide (k = l)) as [->|Hk].
  - rewrite lookup_alter_eq. destruct (H3 l eq_refl) as [x Hx]. rewrite Hx. cbn.
    specialize (H1 l x Hx). rewrite one_self in *. rewrite one_none. unfold U64.saturating_sub. lia.
  - rewrite lookup_alter_ne by done. destruct (heap w !! k); [|done]. rewrite ?one_none, ?one_other by done. lia.
Qed.

Lemma moves_reserve w w' l d :
  room w None d → try_reserve l w = (true, w') → moves w None d w' (Some l) d.
Proof.
  intros Hr. pose proof (counts_refl _ _ _ Hr) as [_ Ht _ _]. destruct Hr as (H1 & H2 & H3 & H4).
  unfold try_reserve. destruct (heap w !! l) as [x|] eqn:Hx; [|done].
  unfold try_acquire. destruct (negb (is_available x)); intros [= <-]. split; [|done..].
  intros k. cbn [with_heap heap]. destruct (decide (k = l)) as [->|Hk].
  - rewrite Hx, lookup_insert_eq. cbn. specialize (H1 l x Hx). rewrite one_self. rewrite one_none in *.
    unfold U64.wrapping_add, U64.wrap. unfold U64.max in H1.
    rewrite Z.mod_small by lia. lia.
  - rewrite lookup_insert_ne by done. destruct (heap w !! k); [|congruence].
    rewrite ?one_none, ?one_other by done. lia.
Qed.

Lemma try_reserve_failed l w w' : try_reserve l w = (false, w') → heap w' = heap w ∧ targets w' = targets w ∧
  sessions w' = sessions w ∧ slots w' = slots w ∧ registry w' = registry w ∧
  ∀ b, heap w !! l = Some b → is_available b = false.
Proof.
  unfold try_reserve. destruct (heap w !! l) as [x|] eqn:Hx; [|by intros [= <-]].
  unfold try_acquire. destruct (is_available x) eqn:Ea; cbn [negb]; intros [= <-]. cbn.
  rewrite insert_id by done. split_and!; try done. by intros b [= <-].
Qed.

Lemma moves_same w b d w' : room w b d → heap w' = heap w → targets w' = targets w → sessions w' = sessions w →
  slots w' = slots w → moves w b d w' b d.
Proof. intros Hr Hh Ht Hs Hl. pose proof (counts_refl _ _ _ Hr) as [H1 H2 _ _]. split; rewrite ?Hh, ?Ht; done. Qed.

Lemma moves_wait w b d : room w b None → is_Some (targets w !! d) → moves w b None (on_pool track_waiter d w) b (Some d).
Proof.
  intros Hr [t Hd]. pose proof (counts_refl _ _ _ Hr) as [Hh _ _ _]. destruct Hr as (H1 & H2 & H3 & H4).
  split; [done| |done..]. intros k. cbn [on_pool with_targets targets]. destruct (decide (k = d)) as [->|Hk].
  - rewrite lookup_alter_eq, Hd. cbn. specialize (H2 d t Hd). rewrite one_self. rewrite one_none in *.
    unfold U64.wrapping_add, U64.wrap. unfold U64.max in H2.
    rewrite Z.mod_small by lia. lia.
  - rewrite lookup_alter_ne by done. destruct (targets w !! k); [|congruence].
    rewrite ?one_none, ?one_other by done. lia.
Qed.

Lemma moves_leave w b r : room w b (deployment r) → moves w b (deployment r) (leave_wait r w) b None.
Proof.
  intros Hr. pose proof (counts_refl _ _ _ Hr) as [Hh Ht0 _ _]. destruct Hr as (H1 & H2 & H3 & H4). unfold leave_wait.
  destruct (deployment r) as [d|]; [|split; [done|exact Ht0|done..]].
  split; [done| |done..]. intros k. cbn [on_pool with_targets targets]. destruct (decide (k = d)) as [->|Hk].
  - rewrite lookup_alter_eq. destruct (H4 d eq_refl) as [t Hd]. rewrite Hd. cbn. specialize (H2 d t Hd).
    rewrite one_self in *. rewrite one_none. unfold U64.saturating_sub. lia.
  - rewrite lookup_alter_ne by done. destruct (targets w !! k); [|done].
    rewrite ?one_none, ?one_other by done. lia.
Qed.

(** ** One step of a session *)

Definition goes (s : Session) (w : World) (sw : Session * World) : Prop :=
  moves w (backend (req s)) (waits_on s) (snd sw) (backend (req (fst sw))) (waits_on (fst sw)) ∧
  (unreserved (phase (fst sw)) = true → backend (req (fst sw)) = None).

Lemma goes_stay s w s' : room w (backend (req s)) (waits_on s) →
  backend (req s') = backend (req s) → waits_on s' = waits_on s →
  (unreserved (phase s') = true → backend (req s') = None) → goes s w (s', w).
Proof. intros Hr Hb Hw Hu. split; cbn [fst snd]; [|done]. rewrite Hb, Hw. by apply counts_refl. Qed.

Lemma goes_trans s w s1 w1 sw : goes s w (s1, w1) → goes s1 w1 sw → goes s w sw.
Proof. intros [H1 _] [H2 H3]. split; [|done]. by eapply counts_trans. Qed.

Lemma goes_room s w sw : room w (backend (req s)) (waits_on s) → goes s w sw →
  room (snd sw) (backend (req (fst sw))) (waits_on (fst sw)).
Proof. intros Hr [Hm _]. by eapply moves_room. Qed.

(** Giving the reservation back, from a place where nothing waits. *)
Lemma goes_release p r w r' w' p' :
  is_waiting p = false → is_waiting p' = false → room w (backend r) None →
  release_request r w = (r', w') → goes (at_ p r) w (at_ p' r', w').
Proof.
  intros Hp Hp' Hr Hrel. destruct (moves_release _ _ _ _ None Hr Hrel) as (Hm & Hb & _).
  unfold goes, waits_on. cbn [fst snd at_ req phase]. rewrite Hp, Hp', Hb. done.
Qed.

Lemma goes_unhealthy s w l (f : VmBackend → VmBackend) s' :
  room w (backend (req s)) (waits_on s) → (∀ x, in_flight (f x) = in_flight x) →
  backend (req s') = backend (req s) → waits_on s' = waits_on s →
  (unreserved (phase s') = true → backend (req s') = None) → goes s w (s', on_backend f l w).
Proof. intros Hr Hf Hb Hw Hu. split; cbn [fst snd]; [|done]. rewrite Hb, Hw. by apply moves_backend. Qed.

Lemma goes_start r w : room w (backend r) None → goes (at_ Reading r) w (start_next_peer r w).
Proof.
  intros Hr. unfold start_next_peer. destruct (deployment r) as [d|]; [|by apply goes_stay].
  set (r1 := with_attempts r (S (attempts r))). destruct (MAX_ATTEMPTS <? attempts r1)%nat; [by apply goes_stay|].
  destruct (release_request r1 w) as [r2 w2] eqn:Erel.
  pose proof (goes_release Reading r1 w r2 w2 Picking eq_refl eq_refl Hr Erel) as Hg.
  assert (goes (at_ Reading r) w (at_ Picking r2, w2)) as Hg1 by exact Hg.
  pose proof (goes_room (at_ Reading r) w _ Hr Hg1) as Hr2. pose proof (proj2 Hg1 eq_refl) as Hb2.
  cbn [fst snd at_ req waits_on phase is_waiting] in Hr2, Hb2.
  destruct (regional_assignment r2) as [a|]; [|exact Hg1].
  destruct (negb (attempts r2 =? 1)%nat); [eapply goes_trans; [exact Hg1|by apply goes_stay]|].
  destruct (try_reserve (a_backend a) w2) as [[] w3] eqn:Et.
  - eapply goes_trans; [exact Hg1|]. split; [|done]. cbn [fst snd at_ req with_backend backend]. rewrite Hb2 in *.
    by apply moves_reserve.
  - destruct (try_reserve_failed _ _ _ Et) as (Hh & Ht & Hs & Hl & _).
    eapply goes_trans; [exact Hg1|]. split; [|done]. by apply moves_same.
Qed.

Lemma goes_pick r w : room w (backend r) None → backend r = None → goes (at_ Picking r) w (pick_backend r w).
Proof.
  intros Hr Hb. unfold pick_backend. destruct (deployment r) as [d|] eqn:Ed; [|by apply goes_stay].
  destruct (targets w !! d) as [t|] eqn:Et; [|by apply goes_stay]. cbv zeta.
  destruct (_ ≫= _) as [[c t']|].
  - destruct (check_flat_admission_refresh t t'); by apply goes_stay.
  - destruct (select _ _ _); [by apply goes_stay|]. destruct (can_grow _); [|by apply goes_stay].
    split; [|done]. unfold waits_on. cbn [fst snd at_ req phase is_waiting]. rewrite Ed. apply moves_wait; [done|by eexists].
Qed.

Lemma goes_reserve l r w : room w (backend r) None → backend r = None → goes (at_ (Chosen l) r) w (reserve l r w).
Proof.
  intros Hr Hb. unfold reserve. destruct (try_reserve l w) as [[] w'] eqn:Et.
  - split; [|done]. cbn [fst snd at_ req with_backend backend]. rewrite Hb in *. by apply moves_reserve.
  - destruct (try_reserve_failed _ _ _ Et) as (Hh & Ht & Hs & Hl & _). split; [|done]. by apply moves_same.
Qed.

Lemma goes_leave p p' r w : is_waiting p = true → is_waiting p' = false →
  room w (backend r) (deployment r) → (unreserved p' = true → backend r = None) →
  goes (at_ p r) w (at_ p' r, leave_wait r w).
Proof.
  intros Hp Hp' Hr Hu. split; [|done]. unfold waits_on. cbn [fst snd at_ req phase]. rewrite Hp, Hp'. by apply moves_leave.
Qed.

Lemma goes_recheck r w : room w (backend r) (deployment r) → backend r = None → goes (at_ Rechecking r) w (recheck r w).
Proof.
  intros Hr Hb. unfold recheck. destruct (_ ≫= _); [by apply goes_leave|by apply goes_stay].
Qed.

Lemma peer_reply_goes l x r w p : room w (backend r) None → is_waiting p = false →
  goes (at_ p r) w (peer_reply l x r w, w).
Proof.
  intros Hr Hp. assert (∀ rep, goes (at_ p r) w (at_ (Replying rep) r, w)) as H.
  { intros rep. apply goes_stay; unfold waits_on; cbn [at_ req phase]; rewrite ?Hp; done. }
  unfold peer_reply. destruct (heap w !! l); apply H.
Qed.

Lemma goes_failed l r w p p' : room w (backend r) None → is_waiting p = false → is_waiting p' = false →
  let w1 := on_backend (λ b, set_healthy b false) l w in
  goes (at_ p r) w
    (let '(r, w) := release_request (with_failed r (match heap w1 !! l with Some b => peer b | None => "" end)) w1 in
     (at_ p' r, w)).
Proof.
  intros Hr Hp Hp'. cbv zeta. set (w1 := on_backend _ l w).
  set (r1 := with_failed r (match heap w1 !! l with Some b => peer b | None => "" end)).
  assert (goes (at_ p r) w (at_ (Replying RDecision) r1, w1)) as Hg.
  { apply goes_unhealthy; unfold waits_on; cbn [at_ req phase]; rewrite ?Hp; done. }
  assert (room w (backend (req (at_ p r))) (waits_on (at_ p r))) as Hr' by (unfold waits_on; cbn [at_ req phase]; by rewrite Hp).
  pose proof (goes_room _ _ _ Hr' Hg) as Hr1. destruct (release_request r1 w1) as [r2 w2] eqn:Erel.
  eapply goes_trans; [exact Hg|]. by eapply goes_release.
Qed.

Lemma goes_connection_failed r w : room w (backend r) None →
  let '(r', w') := connection_failed r w in goes (at_ Reading r) w (at_ (Replying (RFailureRecorded (retry_allowed r'))) r', w').
Proof.
  intros Hr. unfold connection_failed. destruct (backend r) as [l|] eqn:Eb; [|apply goes_stay; cbn; by rewrite ?Eb].
  rewrite <- Eb in Hr. pose proof (goes_failed l r w Reading (Replying RDecision) Hr eq_refl eq_refl) as Hg. cbv zeta in Hg.
  destruct (release_request _ _) as [r' w']. eapply goes_trans; [exact Hg|].
  pose proof (goes_room (at_ Reading r) w _ Hr Hg) as Hr'. by apply goes_stay.
Qed.

Lemma goes_resolved l x r w : room w (backend r) None → goes (at_ (Resolving l) r) w (resolved l x r w).
Proof.
  intros Hr. unfold resolved. destruct x as [x|]; [by apply peer_reply_goes|]. by apply goes_failed.
Qed.

Lemma goes_resolved_pinned l x r w : room w (backend r) None → goes (at_ (ResolvingPinned l) r) w (resolved_pinned l x r w).
Proof. intros Hr. unfold resolved_pinned. destruct x as [x|]; [by apply peer_reply_goes|by apply goes_stay]. Qed.

(** A session goes on, or is over. *)
Lemma session_step_spec e i s w :
  sessions w !! i = Some s → room w (backend (req s)) (waits_on s) →
  (unreserved (phase s) = true → backend (req s) = None) →
  session_step e i s w = w ∨ (∃ sw, session_step e i s w = put i sw ∧ goes s w sw) ∨
  (session_step e i s w = end_session i (req s) w ∧ waits_on s = None).
Proof.
  intros Hi Hr Hu. destruct s as [r p]. cbn [req phase] in *.
  assert (∀ q : Phase, is_waiting q = false → waits_on (at_ q r) = None) as Hno
    by (intros q Hq; unfold waits_on; cbn; by rewrite Hq).
  destruct e; cbn [session_step req phase]; try (by left); destruct p; cbn [session_step req phase]; try (by left);
    cbn [waits_on is_waiting req phase] in Hr; right.
  - assert (∀ q, is_waiting q = false → unreserved q = false →
      ∃ sw, put i (at_ q r, w) = put i sw ∧ goes {| req := r; phase := Reading |} w sw) as Hstay.
    { intros q H1 H2. eexists. split; [done|]. apply goes_stay; [done|done|by apply Hno|]. cbn. by rewrite H2. }
    destruct m as [[]|]; cbn [on_frame]; try (by right); left; try by apply Hstay.
    + eexists. split; [done|]. by apply goes_start.
    + pose proof (goes_connection_failed r w Hr) as Hg. destruct (connection_failed r w) as [r' w'].
      eexists. by split.
  - left. eexists. split; [done|]. apply goes_pick; [done|by apply Hu].
  - left. eexists. split; [done|]. apply goes_reserve; [done|by apply Hu].
  - left. eexists. split; [done|]. apply goes_recheck; [done|by apply Hu].
  - left. eexists. split; [done|]. by apply goes_resolved.
  - left. eexists. split; [done|]. by apply goes_resolved_pinned.
  - left. eexists. split; [done|]. by apply goes_stay.
  - left. eexists. split; [done|]. apply goes_leave; try done.
  - left. eexists. split; [done|]. apply goes_leave; try done.
  - left. eexists. split; [done|]. apply goes_stay; try (by destruct ok).
  - by right.
Qed.

(** ** The manager *)

Lemma manager_room w i s :
  manager_ok w → (population w <= U64.max)%Z → sessions w !! i = Some s → room w (backend (req s)) (waits_on s).
Proof.
  intros Hok Hp Hi. unfold population in Hp. rewrite (count_delete _ _ i s Hi) in Hp.
  assert (∀ f, (∀ s, 0 <= f s <= 1)%Z → (0 <= count f (delete i (sessions w)) <= count (λ _, 1) (delete i (sessions w)))%Z)
    as Hle.
  { intros f Hf. split; [apply count_nonneg|apply count_le]; intros s'; specialize (Hf s'); lia. }
  assert (∀ l, (0 <= shells l w <= Z.of_nat (length (slots w)))%Z) as Hsh.
  { intros l. unfold shells. pose proof (List.filter_length_le (λ x, (x =? l)%nat) (slots w)). lia. }
  split_and!.
  - intros l x Hx. rewrite (ok_in_flight _ Hok l x Hx). unfold held. rewrite (count_delete _ _ i s Hi).
    specialize (Hle (λ s, one (backend (req s)) l) (λ s, one_range _ _)). specialize (Hsh l). lia.
  - intros l t Ht. rewrite (ok_waiters _ Hok l t Ht). unfold waiting_on. rewrite (count_delete _ _ i s Hi).
    specialize (Hle (λ s, one (waits_on s) l) (λ s, one_range _ _)). specialize (Hsh l). lia.
  - intros l Hb. by eapply (ok_held _ Hok).
  - intros l Hb. by eapply (ok_waits _ Hok).
Qed.

(** What became of the others when a session moved from [s] in [w] to [o] in [w']. *)
Lemma manager_moves w i s w' (o : option Session) w'' :
  manager_ok w → sessions w !! i = Some s →
  moves w (backend (req s)) (waits_on s) w' (b ← o; backend (req b)) (b ← o; waits_on b) →
  (∀ s', o = Some s' → unreserved (phase s') = true → backend (req s') = None) →
  w'' = with_sessions w' (match o with Some s' => <[i := s']> (sessions w') | None => delete i (sessions w') end) →
  manager_ok w''.
Proof.
  intros Hok Hi [Hh Ht Hs Hl] Hu ->.
  assert (∀ f : Session → Z, count f (match o with Some s' => <[i := s']> (sessions w') | None => delete i (sessions w') end)
    = ((match o with Some s' => f s' | None => 0 end) + count f (delete i (sessions w)))%Z) as Hcount.
  { intros f. rewrite Hs. destruct o; [by rewrite count_insert|lia]. }
  assert (∀ j s', (match o with Some s' => <[i := s']> (sessions w') | None => delete i (sessions w') end) !! j = Some s' →
    (o = Some s') ∨ sessions w !! j = Some s') as Hlook.
  { intros j s' Hj. rewrite Hs in Hj. destruct o as [s0|].
    - apply lookup_insert_Some in Hj as [[-> ->]|[_ Hj]]; auto.
    - apply lookup_delete_Some in Hj as [_ Hj]. auto. }
  split; cbn [with_sessions heap targets sessions slots].
  - intros l x' Hx. specialize (Hh l). rewrite Hx in Hh. destruct (heap w !! l) as [x|] eqn:E; [|done].
    rewrite (ok_in_flight _ Hok l x E) in Hh. unfold held, shells in *. cbn [with_sessions sessions slots].
    rewrite Hcount, Hl. rewrite (count_delete _ _ i s Hi) in Hh. destruct o; cbn in Hh |- *; rewrite ?one_none in Hh; lia.
  - intros l x' Hx. specialize (Ht l). rewrite Hx in Ht. destruct (targets w !! l) as [x|] eqn:E; [|done].
    rewrite (ok_waiters _ Hok l x E) in Ht. unfold waiting_on in *. cbn [with_sessions sessions].
    rewrite Hcount. rewrite (count_delete _ _ i s Hi) in Ht. destruct o; cbn in Ht |- *; rewrite ?one_none in Ht; lia.
  - intros j s' [->|Hj]%Hlook; [by apply Hu|by apply (ok_unreserved _ Hok j)].
  - intros j s' l Hj Hb. specialize (Hh l). apply Hlook in Hj as [->|Hj].
    + cbn in Hh. destruct (heap w !! l), (heap w' !! l); done.
    + destruct (ok_held _ Hok _ _ _ Hj Hb) as [x Hx]. rewrite Hx in Hh. by destruct (heap w' !! l).
  - intros j s' l Hj Hb. specialize (Ht l). apply Hlook in Hj as [->|Hj].
    + cbn in Ht. destruct (targets w !! l), (targets w' !! l); done.
    + destruct (ok_waits _ Hok _ _ _ Hj Hb) as [x Hx]. rewrite Hx in Ht. by destruct (targets w' !! l).
  - intros l Hin. rewrite Hl in Hin. destruct (ok_shells _ Hok l Hin) as [x Hx]. specialize (Hh l). rewrite Hx in Hh.
    by destruct (heap w' !! l).
Qed.

Lemma complete_moves r w d : room w (backend r) d →
  moves w (backend r) d (snd (complete r w)) None d ∧ backend (fst (complete r w)) = None.
Proof.
  intros Hr. unfold complete. destruct (release_request r w) as [r' w'] eqn:E.
  destruct (moves_release _ _ _ _ d Hr E) as (Hm & Hb & _). cbn [fst snd backend]. split; [|done].
  destruct (regional_assignment r'); [|done]. eapply counts_trans; [exact Hm|].
  apply moves_same; try done. by eapply moves_room.
Qed.

Lemma session_ok e i s w :
  manager_ok w → (population w <= U64.max)%Z → sessions w !! i = Some s → manager_ok (session_step e i s w).
Proof.
  intros Hok Hp Hi. pose proof (manager_room _ _ _ Hok Hp Hi) as Hr.
  destruct (session_step_spec e i s w Hi Hr (ok_unreserved _ Hok i s Hi)) as [->|[([s' w'] & -> & Hm & Hu)|[-> Hw]]]; [done|..].
  - eapply (manager_moves w i s w' (Some s')); [done|done|exact Hm| |done]. by intros ? [= <-].
  - rewrite Hw in Hr. destruct (complete_moves (req s) w None Hr) as [Hm _].
    eapply (manager_moves w i s (snd (complete (req s) w)) None); [done|done| |done|done]. by rewrite Hw.
Qed.

(** *** The other events *)

Lemma same_counters w w' : manager_ok w →
  sessions w' = sessions w → slots w' = slots w →
  (∀ l, match heap w !! l, heap w' !! l with Some x, Some x' => in_flight x' = in_flight x | None, None => True
        | None, Some x' => in_flight x' = 0%Z | _, _ => False end) →
  (∀ l, match targets w !! l, targets w' !! l with Some x, Some x' => waiters (pool_of x') = waiters (pool_of x)
        | None, None => True | None, Some x' => waiters (pool_of x') = 0%Z | _, _ => False end) →
  manager_ok w'.
Proof.
  intros Hok Hs Hl Hh Ht. split; unfold held, shells, waiting_on; rewrite ?Hs, ?Hl.
  - intros l x' Hx. specialize (Hh l). rewrite Hx in Hh. destruct (heap w !! l) as [x|] eqn:E.
    { rewrite Hh. by apply (ok_in_flight _ Hok). }
    rewrite Hh. assert (held l w = 0%Z) as Hz.
    { unfold held. apply count_zero. intros i s Hi. unfold one. rewrite decide_False; [done|]. intros Hb.
      destruct (ok_held _ Hok i s l Hi Hb). congruence. }
    assert (shells l w = 0%Z) as Hz'.
    { unfold shells. rewrite filter_none; [done|]. intros k Hk. apply Nat.eqb_neq. intros ->.
      destruct (ok_shells _ Hok l Hk). congruence. }
    unfold held in Hz. unfold shells in Hz'. lia.
  - intros l x' Hx. specialize (Ht l). rewrite Hx in Ht. destruct (targets w !! l) as [x|] eqn:E.
    { rewrite Ht. by apply (ok_waiters _ Hok). }
    rewrite Ht. symmetry. apply count_zero. intros i s Hi. unfold one. rewrite decide_False; [done|]. intros Hb.
    destruct (ok_waits _ Hok i s l Hi Hb). congruence.
  - apply (ok_unreserved _ Hok).
  - intros i s l Hi Hb. destruct (ok_held _ Hok i s l Hi Hb) as [x Hx]. specialize (Hh l). rewrite Hx in Hh.
    by destruct (heap w' !! l).
  - intros i s l Hi Hb. destruct (ok_waits _ Hok i s l Hi Hb) as [x Hx]. specialize (Ht l). rewrite Hx in Ht.
    by destruct (targets w' !! l).
  - intros l Hin. destruct (ok_shells _ Hok l Hin) as [x Hx]. specialize (Hh l). rewrite Hx in Hh.
    by destruct (heap w' !! l).
Qed.

Lemma sync_draining_in_flight (s : LbPool.DeploymentState RetirementOp CreateAttempt RolloutOp Handoff) h locs l :
  match h !! l, sync_draining s h locs !! l with Some x, Some x' => in_flight x' = in_flight x | None, None => True
  | _, _ => False end.
Proof.
  unfold sync_draining. revert h. induction locs as [|k locs IH]; intros h; cbn [foldl]; [by destruct (h !! l)|].
  specialize (IH (alter (λ b, set_draining b (drained_by s (peer b))) k h)). destruct (decide (l = k)) as [->|Hk].
  - rewrite lookup_alter_eq in IH. destruct (h !! k); cbn in IH; destruct (foldl _ _ _ !! k); done.
  - by rewrite lookup_alter_ne in IH by done.
Qed.

Lemma set_backends_in_flight h (d : Dep) bs l :
  match h !! l, fst (set_backends h d bs) !! l with Some x, Some x' => in_flight x' = in_flight x | None, None => True
  | _, _ => False end.
Proof. unfold set_backends. destruct (is_static _); cbn [fst]; [apply sync_draining_in_flight|by destruct (h !! l)]. Qed.

Lemma same_heap_some (h : Heap) l : match h !! l, h !! l with Some x, Some x' => in_flight x' = in_flight x
  | None, None => True | None, Some x' => in_flight x' = 0%Z | _, _ => False end.
Proof. by destruct (h !! l). Qed.
Lemma same_targets_some (t : gmap nat Target) l : match t !! l, t !! l with
  Some x, Some x' => waiters (pool_of x') = waiters (pool_of x)
  | None, None => True | None, Some x' => waiters (pool_of x') = 0%Z | _, _ => False end.
Proof. by destruct (t !! l). Qed.

Lemma backend_change_ok f l w : manager_ok w → (∀ x, in_flight (f x) = in_flight x) → manager_ok (on_backend f l w).
Proof.
  intros Hok Hf. apply (same_counters w); [done..| |apply same_targets_some]. intros k. cbn [on_backend with_heap heap].
  destruct (decide (k = l)) as [->|Hk].
  - rewrite lookup_alter_eq. destruct (heap w !! l); cbn; [by rewrite Hf|done].
  - rewrite lookup_alter_ne by done. apply same_heap_some.
Qed.

Lemma pool_change_ok f d w : manager_ok w → (∀ p : Dep, waiters (f p) = waiters p) → manager_ok (on_pool f d w).
Proof.
  intros Hok Hf. apply (same_counters w); [done..|apply same_heap_some|]. intros k. cbn [on_pool with_targets targets].
  destruct (decide (k = d)) as [->|Hk].
  - rewrite lookup_alter_eq. destruct (targets w !! d); cbn; [by rewrite Hf|done].
  - rewrite lookup_alter_ne by done. apply same_targets_some.
Qed.

Lemma shells_cons l k w ls : slots w = k :: ls →
  shells l w = (one (Some k) l + Z.of_nat (length (List.filter (λ x, (x =? l)%nat) ls)))%Z.
Proof.
  intros Hs. unfold shells. rewrite Hs. cbn [List.filter]. unfold one. destruct (Nat.eqb_spec k l) as [->|Hk].
  - rewrite decide_True by done. cbn [length]. lia.
  - by rewrite decide_False by congruence.
Qed.

Lemma shells_perm l w w' : slots w ≡ₚ slots w' → shells l w = shells l w'.
Proof. intros Hp. unfold shells. by rewrite (filter_perm _ _ _ Hp). Qed.

Lemma shells_le l w : (0 <= shells l w <= Z.of_nat (length (slots w)))%Z.
Proof. unfold shells. pose proof (List.filter_length_le (λ x, (x =? l)%nat) (slots w)). lia. Qed.

Lemma held_le l w : (0 <= held l w <= count (λ _, 1) (sessions w))%Z.
Proof.
  unfold held. split; [apply count_nonneg|apply count_le]; intros s; pose proof (one_range (backend (req s)) l); lia.
Qed.

Lemma hold_ok l w : manager_ok w → (population w < U64.max)%Z → manager_ok (step (EvHold l) w).
Proof.
  intros Hok Hp. cbn [step]. destruct (try_reserve l w) as [[] w'] eqn:Et.
  2: { destruct (try_reserve_failed _ _ _ Et) as (Hh & Ht & Hs & Hl & _). destruct Hok as [H1 H2 H3 H4 H5 H6].
       split; unfold held, shells, waiting_on in *; rewrite ?Hh, ?Ht, ?Hs, ?Hl; done. }
  unfold try_reserve in Et. destruct (heap w !! l) as [x|] eqn:Hx; [|done]. unfold try_acquire in Et.
  destruct (negb (is_available x)); [done|]. injection Et as <-.
  split; cbn [with_slots with_heap heap targets sessions slots].
  - intros k b. rewrite (shells_cons k l _ (slots w)) by done. fold (shells k w).
    change (held k (with_slots _ _)) with (held k w). destruct (decide (k = l)) as [->|Hk].
    + rewrite lookup_insert_eq. intros [= <-]. cbn. rewrite (ok_in_flight _ Hok _ _ Hx), one_self.
      pose proof (held_le l w). pose proof (shells_le l w). unfold population, U64.max in Hp.
      unfold U64.wrapping_add, U64.wrap. rewrite Z.mod_small by lia. lia.
    + rewrite lookup_insert_ne by done. intros Hb. rewrite (ok_in_flight _ Hok _ _ Hb), one_other by done. lia.
  - apply (ok_waiters _ Hok).
  - apply (ok_unreserved _ Hok).
  - intros i s k Hi Hb. destruct (decide (k = l)) as [->|Hk]; [rewrite lookup_insert_eq; by eexists|].
    rewrite lookup_insert_ne by done. by eapply (ok_held _ Hok).
  - apply (ok_waits _ Hok).
  - intros k [->|Hk]%elem_of_cons; [rewrite lookup_insert_eq; by eexists|].
    destruct (decide (k = l)) as [->|]; [rewrite lookup_insert_eq; by eexists|].
    rewrite lookup_insert_ne by done. by apply (ok_shells _ Hok).
Qed.

Lemma unhold_ok j w : manager_ok w → manager_ok (step (EvUnhold j) w).
Proof.
  intros Hok. cbn [step]. destruct (slots w !! j) as [l|] eqn:Hj; [|done].
  pose proof (delete_Permutation _ _ _ Hj) as Hp.
  assert (∀ k, shells k w = (one (Some l) k + Z.of_nat (length (List.filter (λ x, (x =? k)%nat) (delete j (slots w)))))%Z) as Hsh.
  { intros k. rewrite <- (shells_cons k l (with_slots w (l :: delete j (slots w)))) by done. by apply shells_perm. }
  split; cbn [with_slots on_backend with_heap heap targets sessions slots].
  - intros k b Hb. unfold shells. cbn [with_slots on_backend with_heap slots].
    change (held k (with_slots _ _)) with (held k w). specialize (Hsh k). destruct (decide (k = l)) as [->|Hk].
    + rewrite lookup_alter_eq in Hb. destruct (heap w !! l) as [x|] eqn:Hx; [|done]. injection Hb as <-. cbn.
      rewrite (ok_in_flight _ Hok _ _ Hx), Hsh, one_self. pose proof (held_le l w).
      unfold U64.saturating_sub. lia.
    + rewrite lookup_alter_ne in Hb by done. rewrite (ok_in_flight _ Hok _ _ Hb), Hsh, one_other by done. lia.
  - apply (ok_waiters _ Hok).
  - apply (ok_unreserved _ Hok).
  - intros i s k Hi Hb. apply lookup_alter_is_Some. by eapply (ok_held _ Hok).
  - apply (ok_waits _ Hok).
  - intros k Hk. apply lookup_alter_is_Some, (ok_shells _ Hok). rewrite Hp. by right.
Qed.

Lemma begin_ok i d a w : manager_ok w → manager_ok (step (EvBegin i d a) w).
Proof.
  intros Hok. cbn [step]. destruct (is_some (sessions w !! i)) eqn:Ei; [done|]. cbn [orb].
  assert (sessions w !! i = None) as Hi by by destruct (sessions w !! i). destruct (_ || _); [done|].
  assert (∀ f : Session → Z, f (at_ (Replying RDecision) (new_request d a)) = 0%Z →
    count f (<[i := at_ (Replying RDecision) (new_request d a)]> (sessions w)) = count f (sessions w)) as Hc.
  { intros f Hf. rewrite count_insert, count_none, Hf by done. done. }
  assert (∀ (P : Session → Prop), P (at_ (Replying RDecision) (new_request d a)) → (∀ j s, sessions w !! j = Some s → P s) →
    ∀ j s, <[i := at_ (Replying RDecision) (new_request d a)]> (sessions w) !! j = Some s → P s) as Hall.
  { intros P HP H j s Hj. apply lookup_insert_Some in Hj as [[_ <-]|[_ Hj]]; [done|by eapply H]. }
  split; cbn [put fst snd with_sessions heap targets sessions slots].
  - intros l b Hb. unfold held, shells. cbn [put fst snd with_sessions sessions slots]. rewrite Hc by done.
    by apply (ok_in_flight _ Hok).
  - intros l t Ht. unfold waiting_on. cbn [put fst snd with_sessions sessions]. rewrite Hc by done.
    by apply (ok_waiters _ Hok).
  - apply (Hall (λ s, unreserved (phase s) = true → backend (req s) = None)); [done|apply (ok_unreserved _ Hok)].
  - intros j s l Hj. revert l. pattern s. revert j s Hj. apply Hall; [done|]. intros j s Hj l. by eapply (ok_held _ Hok).
  - intros j s l Hj. revert l. pattern s. revert j s Hj. apply Hall; [done|]. intros j s Hj l. by eapply (ok_waits _ Hok).
  - apply (ok_shells _ Hok).
Qed.

Lemma manager_step e w : manager_ok w → (population w < U64.max)%Z → manager_ok (step e w).
Proof.
  intros Hok Hp. destruct e; cbn [step session_of];
    try (destruct (sessions w !! i) as [s|] eqn:Hi; [apply session_ok; (done || lia)|done]).
  - by apply begin_ok.
  - by apply hold_ok.
  - by apply unhold_ok.
  - destruct Hok. by split.
  - by apply backend_change_ok.
  - by apply backend_change_ok.
  - destruct (is_some (heap w !! l)) eqn:E; [done|]. apply (same_counters w); [done..| |apply same_targets_some].
    intros k. cbn [with_heap heap]. destruct (decide (k = l)) as [->|Hk].
    + rewrite lookup_insert_eq. by destruct (heap w !! l).
    + rewrite lookup_insert_ne by done. apply same_heap_some.
  - destruct (is_some (targets w !! d)) eqn:E; [done|]. apply (same_counters w); [done..|apply same_heap_some|].
    intros k. cbn [with_targets targets]. destruct (decide (k = d)) as [->|Hk].
    + rewrite lookup_insert_eq. by destruct (targets w !! d).
    + rewrite lookup_insert_ne by done. apply same_targets_some.
  - destruct Hok. destruct d; [destruct (exists_target _ _ _); [|done]|]; by split.
  - destruct (targets w !! d) as [t|] eqn:Ht; [|done].
    pose proof (set_backends_in_flight (heap w) (pool_of t) bs) as Hb.
    destruct (set_backends _ _ _) as [h p] eqn:E. cbn [fst] in Hb.
    assert (waiters p = waiters (pool_of t)) as Hw by (unfold set_backends in E; by injection E as _ <-).
    apply (same_counters w); [done..| |].
    + intros k. specialize (Hb k). cbn [on_pool with_heap with_targets heap]. by destruct (heap w !! k), (h !! k).
    + intros k. cbn [on_pool with_heap with_targets targets]. destruct (decide (k = d)) as [->|Hk].
      * by rewrite lookup_alter_eq, Ht.
      * rewrite lookup_alter_ne by done. apply same_targets_some.
  - by apply pool_change_ok.
Qed.

(** At most one more session or shell a step. *)
Lemma population_put i s sw w : sessions w !! i = Some s → sessions (snd sw) = sessions w → slots (snd sw) = slots w →
  population (put i sw) = population w.
Proof.
  intros Hi Hs Hl. unfold population. cbn [put with_sessions sessions slots]. rewrite Hs, Hl, count_insert.
  by rewrite (count_delete _ _ i s Hi).
Qed.

Lemma population_end i s r w w' : sessions w !! i = Some s → sessions w' = sessions w → slots w' = slots w →
  w' = snd (complete r w) → (population (end_session i r w) <= population w)%Z.
Proof.
  intros Hi Hs Hl Hw. unfold population, end_session. rewrite <- Hw. cbn [with_sessions sessions slots].
  rewrite Hs, Hl, (count_delete _ _ i s Hi). lia.
Qed.

Lemma population_step e w : manager_ok w → (population w < U64.max)%Z → (population (step e w) <= population w + 1)%Z.
Proof.
  intros Hok Hp.
  assert (∀ i s, sessions w !! i = Some s → population (session_step e i s w) <= population w)%Z as Hsession.
  { intros i s Hi. pose proof (manager_room _ _ _ Hok ltac:(lia) Hi) as Hr.
    destruct (session_step_spec e i s w Hi Hr (ok_unreserved _ Hok i s Hi)) as [->|[(sw & -> & Hm & _)|[-> Hw]]]; [lia|..].
    - rewrite (population_put _ s _ w); [lia|done|apply Hm|apply Hm].
    - rewrite Hw in Hr. destruct (complete_moves (req s) w None Hr) as [Hm _].
      by apply (population_end i s _ _ (snd (complete (req s) w))); try apply Hm. }
  destruct e; cbn [step session_of];
    try (destruct (sessions w !! i) as [s|] eqn:Hi; [specialize (Hsession i s Hi); lia|lia]);
    try (unfold population; cbn; lia).
  - destruct (is_some (sessions w !! i)) eqn:Ei; cbn [orb]; [lia|]. destruct (_ || _); [lia|].
    unfold population. cbn [put fst snd with_sessions sessions slots].
    rewrite count_insert, count_none by (by destruct (sessions w !! i)). lia.
  - destruct (try_reserve l w) as [[] w'] eqn:Et; [|destruct (try_reserve_failed _ _ _ Et) as (_ & _ & Hs & Hl & _);
      unfold population; rewrite Hs, Hl; lia].
    unfold try_reserve in Et. destruct (heap w !! l); [|done]. destruct (try_acquire _ _) in Et. injection Et as _ <-.
    unfold population. cbn [with_slots with_heap sessions slots length]. lia.
  - destruct (slots w !! j) as [l|] eqn:Hj; [|lia]. unfold population. cbn [with_slots on_backend with_heap sessions slots].
    rewrite length_delete by by eexists. lia.
  - destruct (is_some _); unfold population; cbn; lia.
  - destruct (is_some _); unfold population; cbn; lia.
  - destruct d; [destruct (exists_target _ _ _)|]; unfold population; cbn; lia.
  - destruct (targets w !! d); [destruct (set_backends _ _ _)|]; unfold population; cbn; lia.
Qed.

Lemma empty_ok now : manager_ok (empty_world now).
Proof. split; cbn; try done. by intros l []%not_elem_of_nil. Qed.

Lemma manager_run es w : manager_ok w → (population w + Z.of_nat (length es) <= U64.max)%Z →
  manager_ok (run es w) ∧ (population (run es w) <= population w + Z.of_nat (length es))%Z.
Proof.
  revert w. induction es as [|e es IH]; intros w Hok Hp; cbn [run length] in *; [split; [done|lia]|].
  pose proof (population_step e w Hok ltac:(lia)) as Hpop. destruct (IH (step e w)) as [H1 H2]; [|lia|split; [done|lia]].
  apply manager_step; [done|lia].
Qed.

(** C22. Every reservation is accounted for. Whatever the requests, their workers, the shells, the
    probes, the registry and the resolver do, in any order, the requests in flight on a backend
    are exactly the sessions that hold it and the shells open on it, and the waiters of a
    deployment exactly the sessions that wait for it: nothing is leaked when a write fails, a
    worker dies or a wait is cut short, and nothing is given back twice. *)
Theorem reservations_are_exact es now :
  (Z.of_nat (length es) <= U64.max)%Z →
  let w := run es (empty_world now) in
  (∀ l b, heap w !! l = Some b → in_flight b = (held l w + shells l w)%Z) ∧
  (∀ d t, targets w !! d = Some t → waiters (pool_of t) = waiting_on d w).
Proof.
  intros Hlen. destruct (manager_run es (empty_world now) (empty_ok now)) as [Hok _]; [by unfold population|].
  split; [apply (ok_in_flight _ Hok)|apply (ok_waiters _ Hok)].
Qed.

(** ** Draining *)

(** From [w] to [w'], a backend that is closed stays closed and takes nothing more. *)
Definition drains (l : nat) (w w' : World) : Prop :=
  ∀ b, heap w !! l = Some b → is_available b = false → (0 <= in_flight b)%Z →
    ∃ b', heap w' !! l = Some b' ∧ is_available b' = false ∧ (0 <= in_flight b' <= in_flight b)%Z.

Lemma drains_same l w w' : heap w' = heap w → drains l w w'.
Proof. intros Hh b Hb Ha Hf. exists b. rewrite Hh. split_and!; done. Qed.

Lemma drains_trans l w1 w2 w3 : drains l w1 w2 → drains l w2 w3 → drains l w1 w3.
Proof.
  intros H1 H2 b Hb Ha Hf. destruct (H1 b Hb Ha Hf) as (b1 & Hb1 & Ha1 & Hf1).
  destruct (H2 b1 Hb1 Ha1 ltac:(lia)) as (b2 & Hb2 & Ha2 & Hf2). exists b2. split_and!; try done; lia.
Qed.

Lemma drains_backend l k f w :
  (∀ b, is_available b = false → 0 <= in_flight b →
     is_available (f b) = false ∧ 0 <= in_flight (f b) <= in_flight b)%Z → drains l w (on_backend f k w).
Proof.
  intros Hf b Hb Ha Hi. cbn [on_backend with_heap heap]. destruct (decide (l = k)) as [->|Hk].
  - rewrite lookup_alter_eq, Hb. exists (f b). split; [done|]. by apply Hf.
  - rewrite lookup_alter_ne by done. exists b. split_and!; done.
Qed.

Lemma drains_release_backend l k now w : drains l w (on_backend (LbPool.release now) k w).
Proof. apply drains_backend. intros b Ha Hi. split; [done|]. cbn. unfold U64.saturating_sub. lia. Qed.

Lemma drains_release l r w r' w' : release_request r w = (r', w') → drains l w w'.
Proof.
  unfold release_request. destruct (backend r); intros [= _ <-]; [apply drains_release_backend|by apply drains_same].
Qed.

Lemma drains_reserve l k w ok w' : try_reserve k w = (ok, w') → drains l w w'.
Proof.
  unfold try_reserve. destruct (heap w !! k) as [x|] eqn:Hx; [|intros [= _ <-]; by apply drains_same].
  unfold try_acquire. intros Ht b Hb Ha Hi. destruct (decide (l = k)) as [->|Hk].
  - assert (x = b) as -> by congruence. rewrite Ha in Ht. injection Ht as _ <-. exists b.
    cbn [with_heap heap]. rewrite lookup_insert_eq. split_and!; done.
  - exists b. destruct (negb (is_available x)); injection Ht as _ <-; cbn [with_heap heap];
      rewrite lookup_insert_ne by done; split_and!; done.
Qed.

Lemma drains_unhealthy l k w : drains l w (on_backend (λ b, set_healthy b false) k w).
Proof. apply drains_backend. intros b Ha Hi. split; [done|]. cbn. lia. Qed.

Lemma drains_complete l r w : drains l w (snd (complete r w)).
Proof.
  unfold complete. destruct (release_request r w) as [r' w'] eqn:E. cbn [snd].
  eapply drains_trans; [by eapply drains_release|]. destruct (regional_assignment r'); by apply drains_same.
Qed.

Lemma drains_session l e i s w : drains l w (session_step e i s w).
Proof.
  assert (∀ sw : Session * World, drains l w (snd sw) → drains l w (put i sw)) as Hput.
  { intros sw H. eapply drains_trans; [exact H|]. by apply drains_same. }
  assert (∀ r, drains l w (end_session i r w)) as Hend.
  { intros r. eapply drains_trans; [apply (drains_complete l r)|by apply drains_same]. }
  assert (∀ r (p : Phase) k, drains l w (snd (let '(r, w) := release_request (with_failed r
    (match heap (on_backend (λ b, set_healthy b false) k w) !! k with Some b => peer b | None => "" end))
    (on_backend (λ b, set_healthy b false) k w) in (at_ p r, w)))) as Hfail.
  { intros r p k. destruct (release_request _ _) as [r' w'] eqn:E. cbn [snd].
    eapply drains_trans; [apply drains_unhealthy|by eapply drains_release]. }
  destruct s as [r p].
  destruct e; cbn [session_step req phase]; try (by apply drains_same); destruct p; cbn [session_step req phase];
    try (by apply drains_same).
  - destruct m as [[]|]; cbn [on_frame]; try apply Hend; try (apply Hput; by apply drains_same).
    + apply Hput. unfold start_next_peer. destruct (deployment r); [|by apply drains_same].
      destruct (_ <? _)%nat; [by apply drains_same|]. destruct (release_request _ w) as [r2 w2] eqn:E.
      pose proof (drains_release l _ _ _ _ E) as Hr. destruct (regional_assignment r2); [|exact Hr].
      destruct (negb _); [exact Hr|]. destruct (try_reserve _ w2) as [[] w3] eqn:Et;
        (eapply drains_trans; [exact Hr|by eapply drains_reserve]).
    + unfold connection_failed. destruct (backend r) as [k|] eqn:Eb; [|apply Hput; by apply drains_same].
      specialize (Hfail r Picking k). destruct (release_request _ _) as [r' w']. by apply Hput.
  - apply Hput. unfold pick_backend. destruct (deployment r); [|by apply drains_same].
    destruct (targets w !! n); [|by apply drains_same]. cbv zeta. destruct (_ ≫= _) as [[]|].
    + destruct (check_flat_admission_refresh _ _); by apply drains_same.
    + destruct (select _ _ _); [by apply drains_same|]. destruct (can_grow _); by apply drains_same.
  - apply Hput. unfold reserve. destruct (try_reserve l0 w) as [[] w'] eqn:Et; by eapply drains_reserve.
  - apply Hput. unfold recheck. destruct (_ ≫= _); [|by apply drains_same]. unfold leave_wait.
    destruct (deployment r); by apply drains_same.
  - apply Hput. unfold resolved. destruct address; [by apply drains_same|apply Hfail].
  - apply Hput. unfold resolved_pinned. destruct address; by apply drains_same.
  - apply Hput. unfold leave_wait. destruct (deployment r); by apply drains_same.
  - apply Hput. unfold leave_wait. destruct (deployment r); by apply drains_same.
  - apply Hend.
Qed.

Lemma step_shrinks e w l b : manager_ok w → (population w < U64.max)%Z →
  heap w !! l = Some b → is_available b = false →
  ∃ b', heap (step e w) !! l = Some b' ∧ (in_flight b' <= in_flight b)%Z.
Proof.
  intros Hok Hp Hb Ha.
  assert (0 <= in_flight b)%Z as Hf.
  { rewrite (ok_in_flight _ Hok _ _ Hb). pose proof (held_le l w). pose proof (shells_le l w). lia. }
  assert (∀ w', drains l w w' → ∃ b', heap w' !! l = Some b' ∧ (in_flight b' <= in_flight b)%Z) as Hd.
  { intros w' H. destruct (H b Hb Ha Hf) as (b' & Hb' & _ & Hle). exists b'. split; [done|lia]. }
  assert (∀ f k, (∀ x, in_flight (f x) = in_flight x) →
    ∃ b', heap (on_backend f k w) !! l = Some b' ∧ (in_flight b' <= in_flight b)%Z) as Hflag.
  { intros f k H. cbn [on_backend with_heap heap]. destruct (decide (l = k)) as [->|Hk].
    - rewrite lookup_alter_eq, Hb. exists (f b). split; [done|]. rewrite H. lia.
    - rewrite lookup_alter_ne by done. exists b. split; [done|lia]. }
  destruct e; cbn [step session_of];
    try (destruct (sessions w !! i) as [s|]; [apply Hd, drains_session|by apply Hd, drains_same]);
    try (apply Hflag; done); try (by apply Hd, drains_same).
  - destruct (_ || _); by apply Hd, drains_same.
  - destruct (try_reserve l0 w) as [[] w'] eqn:Et; apply Hd; pose proof (drains_reserve l _ _ _ _ Et) as Hr; [|done].
    eapply drains_trans; [exact Hr|by apply drains_same].
  - destruct (slots w !! j) as [k|]; [|by apply Hd, drains_same]. apply Hd.
    eapply drains_trans; [apply (drains_release_backend l k (clock w))|by apply drains_same].
  - destruct (is_some (heap w !! l0)) eqn:E; [by apply Hd, drains_same|]. exists b. cbn [with_heap heap].
    rewrite lookup_insert_ne; [split; [done|lia]|]. intros ->. by rewrite Hb in E.
  - destruct (is_some _); by apply Hd, drains_same.
  - destruct d; [destruct (exists_target _ _ _)|]; by apply Hd, drains_same.
  - destruct (targets w !! d) as [t|]; [|by apply Hd, drains_same].
    pose proof (set_backends_in_flight (heap w) (pool_of t) bs l) as Hbk. destruct (set_backends _ _ _) as [h p].
    cbn [fst on_pool with_heap with_targets heap] in *. rewrite Hb in Hbk. destruct (h !! l) as [b'|]; [|done].
    exists b'. split; [done|lia].
Qed.

(** Closing a backend fences it. From the moment it is draining or unhealthy, and for as long
    as it stays so, no request and no shell gets a new slot on it, whatever was selected
    before: the requests in flight on it only become fewer, and once there are none there are
    none until it is opened again. *)
Theorem closed_backend_only_empties es1 es2 now l b :
  let w := run es1 (empty_world now) in
  (Z.of_nat (length es1 + length es2) <= U64.max)%Z →
  heap w !! l = Some b →
  (∀ n x, (n < length es2)%nat → heap (run (take n es2) w) !! l = Some x → is_available x = false) →
  ∃ b', heap (run es2 w) !! l = Some b' ∧ (in_flight b' <= in_flight b)%Z.
Proof.
  intros w Hlen Hb Hclosed.
  assert (population (empty_world now) = 0%Z) as H0 by done.
  destruct (manager_run es1 (empty_world now) (empty_ok now)) as [Hok Hp]; [lia|].
  fold w in Hok, Hp. assert (population w + Z.of_nat (length es2) <= U64.max)%Z as Hpop by lia.
  clear Hp Hlen. clearbody w. revert w b Hok Hpop Hb Hclosed.
  induction es2 as [|e es IH]; intros w b Hok Hpop Hb Hclosed; cbn [run length] in *.
  { exists b. split; [done|lia]. }
  assert (is_available b = false) as Ha by (apply (Hclosed 0%nat b); [lia|done]).
  destruct (step_shrinks e w l b Hok ltac:(lia) Hb Ha) as (b1 & Hb1 & Hle1).
  pose proof (population_step e w Hok ltac:(lia)) as Hp1.
  destruct (IH (step e w) b1) as (b' & Hb' & Hle); [by apply manager_step; [|lia]|lia|done| |].
  - intros n x Hn. apply (Hclosed (S n) x). lia.
  - exists b'. split; [done|lia].
Qed.

(** ** A request left to itself *)

(** What comes next when nothing else happens: the session runs on, the resolver answers, and
    nothing wakes a wait before its deadline. *)
Definition next_event (resolve : string → option SocketAddr) (i : nat) (w : World) : option Event :=
  s ← sessions w !! i;
  match phase s with
  | Picking | Chosen _ | Rechecking => Some (EvGo i)
  | Waiting => Some (EvDeadline i)
  | Resolving l | ResolvingPinned l =>
    Some (EvResolved i (match heap w !! l with Some b => resolve (address b) | None => None end))
  | _ => None
  end.

Fixpoint drive (n : nat) (resolve : string → option SocketAddr) (i : nat) (w : World) : World :=
  match n with
  | O => w
  | S n => match next_event resolve i w with Some e => drive n resolve i (step e w) | None => w end
  end.

Section alone.
Context (resolve : string → option SocketAddr) (i : nat) (d : nat) (t : Target) (w0 : World) (r0 : RequestState).

(** A backend of the pool whose address does not resolve. *)
Definition dead_peer (p : string) : Prop :=
  ∃ l b, l ∈ backends (pool_of t) ∧ heap w0 !! l = Some b ∧ peer b = p ∧ resolve (address b) = None.

(** The backends as the search leaves them: the same, but for those it gave up. *)
Definition worn (failed : list string) (b b' : VmBackend) : Prop :=
  peer b' = peer b ∧ address b' = address b ∧ tls b' = tls b ∧ sni b' = sni b ∧
  LbPool.sandbox_id b' = LbPool.sandbox_id b ∧ draining b' = draining b ∧
  (healthy b' = true → healthy b = true) ∧ (healthy b = true → healthy b' = true ∨ peer b ∈ failed).

Record searching (w : World) (r : RequestState) : Prop := {
  se_session : sessions w !! i = Some (at_ Picking r);
  se_deployment : deployment r = Some d;
  se_backend : backend r = None;
  se_target : targets w !! d = Some t;
  se_registry : registry w !! id (spec (pool_of t)) = None ∨ registry w !! id (spec (pool_of t)) = Some d;
  se_heap : ∀ l, match heap w0 !! l, heap w !! l with
                 | Some b, Some b' => worn (failed r) b b' | None, None => True | _, _ => False end;
  se_failed : ∀ p, p ∈ failed r → p ∈ failed r0 ∨ dead_peer p;
  se_kept : ∀ p, p ∈ failed r0 → p ∈ failed r;
}.

(** The peer a request gets, or that there is none to get. *)
Definition served (w : World) : Prop :=
  ∃ s l b a, sessions w !! i = Some s ∧
    phase s = Replying (RPeer a (tls b) (sni b) (LbPool.sandbox_id b) (retry_allowed (req s))) ∧
    backend (req s) = Some l ∧ l ∈ backends (pool_of t) ∧ heap w0 !! l = Some b ∧
    can_take (failed r0) b ∧ resolve (address b) = Some a.
Definition hopeless (w : World) : Prop :=
  (∃ s, sessions w !! i = Some s ∧ phase s = Replying (RError NoBackend) ∧ backend (req s) = None) ∧
  ∀ l b, l ∈ backends (pool_of t) → heap w0 !! l = Some b → can_take (failed r0) b → dead_peer (peer b).

Definition takes (w : World) (r : RequestState) (l : nat) : bool :=
  match heap w !! l with Some b => eligible (failed r) (l, b) | None => false end.

Lemma takes_spec w r l : takes w r l = true ↔ ∃ b, heap w !! l = Some b ∧ can_take (failed r) b.
Proof.
  unfold takes. destruct (heap w !! l) as [b|]; [rewrite eligible_spec; cbn [snd]|]; naive_solver.
Qed.

Lemma drive_step n w s e : sessions w !! i = Some s → next_event resolve i w = Some e →
  (e = EvGo i ∨ e = EvDeadline i ∨ ∃ a, e = EvResolved i a) → drive (S n) resolve i w = drive n resolve i (session_step e i s w).
Proof.
  intros Hs He Hk. cbn [drive]. rewrite He.
  destruct Hk as [->|[->|[a ->]]]; cbn [step session_of]; by rewrite Hs.
Qed.

Lemma drive_go n w r p : sessions w !! i = Some (at_ p r) → (p = Picking ∨ (∃ l, p = Chosen l) ∨ p = Rechecking) →
  drive (S n) resolve i w = drive n resolve i (session_step (EvGo i) i (at_ p r) w).
Proof.
  intros Hs Hp. apply drive_step; [done| |by left]. unfold next_event. rewrite Hs. cbn.
  by destruct Hp as [->|[[l ->]| ->]].
Qed.

Lemma drive_done n w s rep : sessions w !! i = Some s → phase s = Replying rep → drive n resolve i w = w.
Proof. intros Hs Hp. destruct n; [done|]. cbn [drive]. unfold next_event. rewrite Hs. cbn. by rewrite Hp. Qed.

Lemma put_session sw : sessions (put i sw) !! i = Some (fst sw).
Proof. cbn [put with_sessions sessions]. apply lookup_insert_eq. Qed.

(** The first stop of a round. *)
Lemma pick_round w r : searching w r →
  pick_backend r w = match select (heap w) (pool_of t) (failed r) with
                     | Some l => (at_ (Chosen l) r, w)
                     | None => if can_grow (pool_of t) then (at_ Rechecking r, on_pool track_waiter d w)
                               else (answer NoBackend r, w)
                     end.
Proof.
  intros Hs. unfold pick_backend. rewrite (se_deployment _ _ Hs), (se_target _ _ Hs). cbv zeta.
  assert ((c ← registry w !! id (spec (pool_of t));
           if (c =? d)%nat then None else t' ← targets w !! c; Some (c, t')) = None) as ->; [|done].
  destruct (se_registry _ _ Hs) as [->| ->]; [done|]. cbn. by rewrite Nat.eqb_refl.
Qed.

Lemma nothing_left w r : searching w r → (∀ l b, l ∈ backends (pool_of t) → heap w !! l = Some b → ¬ can_take (failed r) b) →
  ∀ l b, l ∈ backends (pool_of t) → heap w0 !! l = Some b → can_take (failed r0) b → dead_peer (peer b).
Proof.
  intros Hs Hnone l b Hl Hb (Hh & Hd & Hp). pose proof (se_heap _ _ Hs l) as Hw. rewrite Hb in Hw.
  destruct (heap w !! l) as [b'|] eqn:Hb'; [|done].
  destruct Hw as (Hpeer & _ & _ & _ & _ & Hdr & _ & Hgone).
  assert (peer b ∈ failed r) as Hin.
  { destruct (Hgone Hh) as [Hh'|]; [|done]. destruct (decide (peer b ∈ failed r)) as [|Hn]; [done|].
    destruct (Hnone l b' Hl Hb'). unfold can_take, is_healthy, is_draining in *. rewrite Hpeer, Hdr. done. }
  by destruct (se_failed _ _ Hs _ Hin).
Qed.

Lemma nothing_comes w r n : searching w r → select (heap w) (pool_of t) (failed r) = None →
  hopeless (drive (3 + n) resolve i (put i (pick_backend r w))).
Proof.
  intros Hs Hsel. pose proof (nothing_left w r Hs (select_None _ _ _ Hsel)) as Hall.
  rewrite (pick_round w r Hs), Hsel. destruct (can_grow (pool_of t)) eqn:Eg.
  2: { rewrite (drive_done _ _ (answer NoBackend r) (RError NoBackend)) by (apply put_session || done).
       split; [|done]. exists (answer NoBackend r). split_and!; [apply put_session|done|]. cbn. by apply se_backend with w. }
  set (w1 := put i (at_ Rechecking r, on_pool track_waiter d w)).
  change (3 + n)%nat with (S (2 + n)). rewrite (drive_go _ w1 r Rechecking); [|apply put_session|by right; right].
  cbn [session_step req phase at_]. unfold recheck at 1. rewrite (se_deployment _ _ Hs).
  assert (targets w1 !! d = Some {| pool_of := track_waiter (pool_of t); gateway := gateway t; regional := regional t |}) as Ht.
  { unfold w1. cbn [put snd with_sessions on_pool with_targets targets]. by rewrite lookup_alter_eq, (se_target _ _ Hs). }
  cbn [mbind option_bind]. rewrite Ht. cbn [mbind option_bind pool_of].
  assert (select (heap w1) (track_waiter (pool_of t)) (failed r) = None) as -> by exact Hsel.
  set (w2 := put i (at_ Waiting r, w1)). change (2 + n)%nat with (S (1 + n)).
  rewrite (drive_step _ w2 (at_ Waiting r) (EvDeadline i)); [|apply put_session| |by right; left].
  2: { unfold next_event, w2. by rewrite put_session. }
  cbn [session_step req phase at_]. rewrite (drive_done _ _ (answer NoBackend r) (RError NoBackend)) by (apply put_session || done).
  split; [|done]. exists (answer NoBackend r). split_and!; [apply put_session|done|]. cbn. by apply se_backend with w.
Qed.

(** A round that selects [l]: it is reserved, and then its address resolves, or the next round
    starts without it. *)
Lemma round w r l n : searching w r → select (heap w) (pool_of t) (failed r) = Some l →
  let w' := drive (2 + n) resolve i (put i (pick_backend r w)) in
  served w' ∨
  ∃ w1 r1, w' = drive n resolve i w1 ∧ searching w1 r1 ∧
    (length (List.filter (takes w1 r1) (backends (pool_of t))) < length (List.filter (takes w r) (backends (pool_of t))))%nat.
Proof.
  intros Hs Hsel. cbv zeta. rewrite (pick_round w r Hs), Hsel.
  apply select_Some in Hsel as (b' & Hl & Hb' & Htake & _).
  pose proof (se_heap _ _ Hs l) as Hw. rewrite Hb' in Hw. destruct (heap w0 !! l) as [b|] eqn:Hb; [|done].
  destruct Hw as (Hpeer & Haddr & Htls & Hsni & Hid & Hdr & Hh & Hgone). destruct Htake as (Hh' & Hd' & Hp').
  set (w1 := put i (at_ (Chosen l) r, w)).
  change (2 + n)%nat with (S (1 + n)). rewrite (drive_go _ w1 r (Chosen l)); [|apply put_session|right; left; by eexists].
  cbn [session_step req phase at_].
  assert (try_reserve l w1 = (true, with_heap w1 (<[l := acquire (clock w1) b']> (heap w1)))) as Htry.
  { unfold try_reserve. change (heap w1) with (heap w). rewrite Hb'. unfold try_acquire, is_available.
    unfold is_healthy, is_draining in *. by rewrite Hh', Hd'. }
  unfold reserve. rewrite Htry. set (b1 := acquire (clock w1) b').
  set (w2 := put i (at_ (Resolving l) (with_backend r (Some l)), with_heap w1 (<[l := b1]> (heap w1)))).
  assert (heap w2 !! l = Some b1) as Hb2 by apply lookup_insert_eq.
  rewrite (drive_step _ w2 (at_ (Resolving l) (with_backend r (Some l))) (EvResolved i (resolve (address b))));
    [|apply put_session| |by right; right; eexists].
  2: { unfold next_event, w2. rewrite put_session. cbn [fst at_ phase mbind option_bind]. fold w2. rewrite Hb2.
       unfold b1. cbn [acquire upd_in_flight address]. by rewrite Haddr. }
  cbn [session_step req phase at_]. destruct (resolve (address b)) as [a|] eqn:Ea.
  - left. unfold resolved, peer_reply. rewrite Hb2.
    set (r2 := with_backend r (Some l)). set (rep := RPeer a (tls b1) (sni b1) (LbPool.sandbox_id b1) (retry_allowed r2)).
    rewrite (drive_done _ _ (at_ (Replying rep) r2) rep) by (apply put_session || done).
    exists (at_ (Replying rep) r2), l, b, a. split_and!; [apply put_session| |done|done|done| |done].
    + unfold rep, b1. cbn [at_ phase req acquire upd_in_flight tls sni LbPool.sandbox_id]. by rewrite Htls, Hsni, Hid.
    + split_and!; [by apply Hh|unfold is_draining in *; congruence|]. rewrite <- Hpeer. intros Hin.
      by apply Hp', (se_kept _ _ Hs).
  - right. unfold resolved.
    assert (heap (on_backend (λ x, set_healthy x false) l w2) !! l = Some (set_healthy b1 false)) as Hb3.
    { cbn [on_backend with_heap heap]. by rewrite lookup_alter_eq, Hb2. }
    rewrite Hb3. unfold release_request. cbn [with_failed with_backend backend].
    change (peer (set_healthy b1 false)) with (peer b'). rewrite Hpeer.
    set (r3 := with_backend _ None). set (w3 := on_backend (LbPool.release _) l _).
    exists (put i (at_ Picking r3, w3)), r3. split; [done|].
    assert (∀ k, heap w3 !! k = if decide (k = l) then Some (LbPool.release (clock w2) (set_healthy b1 false)) else heap w !! k) as Hheap.
    { intros k. unfold w3. cbn [on_backend with_heap heap]. destruct (decide (k = l)) as [->|Hk].
      - rewrite !lookup_alter_eq, Hb2. done.
      - rewrite !lookup_alter_ne by done. unfold w2. cbn [put snd with_sessions with_heap heap]. by rewrite lookup_insert_ne. }
    assert (∀ p, p ∈ failed r3 ↔ p ∈ failed r ∨ p = peer b) as Hfailed.
    { intros p. cbn [failed r3 with_backend with_failed]. rewrite elem_of_app, list_elem_of_singleton. done. }
    split.
    + split.
      * apply put_session.
      * apply (se_deployment _ _ Hs).
      * done.
      * apply (se_target _ _ Hs).
      * apply (se_registry _ _ Hs).
      * intros k. change (heap (put i (at_ Picking r3, w3))) with (heap w3). rewrite Hheap.
        destruct (decide (k = l)) as [->|Hk].
        { rewrite Hb. split_and!; try done. intros _. right. apply Hfailed. by right. }
        pose proof (se_heap _ _ Hs k) as Hk'. destruct (heap w0 !! k), (heap w !! k); try done.
        destruct Hk' as (? & ? & ? & ? & ? & ? & ? & Hg). split_and!; try done. intros Hx.
        destruct (Hg Hx); [by left|right]. apply Hfailed. by left.
      * intros p [Hp| ->]%Hfailed; [by apply (se_failed _ _ Hs)|]. right. by exists l, b.
      * intros p Hp. apply Hfailed. left. by apply (se_kept _ _ Hs).
    + apply (filter_length_lt _ _ _ l); [|done| |].
      * intros k (x & Hx & Hh3 & Hd3 & Hp3)%takes_spec. change (heap (put i (at_ Picking r3, w3))) with (heap w3) in Hx.
        rewrite Hheap in Hx. apply takes_spec. destruct (decide (k = l)) as [->|Hk]; [by injection Hx as <-|].
        exists x. split; [done|]. split; [done|]. split; [done|]. intros Hin. apply Hp3, Hfailed. by left.
      * apply takes_spec. by exists b'.
      * apply not_true_iff_false. intros (x & Hx & Hh3 & _)%takes_spec.
        change (heap (put i (at_ Picking r3, w3))) with (heap w3) in Hx. rewrite Hheap, decide_True in Hx by done.
        by injection Hx as <-.
Qed.

Lemma search m w r : searching w r → (length (List.filter (takes w r) (backends (pool_of t))) <= m)%nat →
  let w' := drive (3 * m + 4) resolve i w in served w' ∨ hopeless w'.
Proof.
  revert w r. induction m as [|m IH]; intros w r Hs Hm; cbv zeta.
  all: rewrite (Nat.add_comm _ 4).
  all: change (4 + ?n)%nat with (S (3 + n)).
  all: rewrite (drive_go _ w r Picking); [|apply (se_session _ _ Hs)|by left]; cbn [session_step req phase at_].
  all: destruct (select (heap w) (pool_of t) (failed r)) as [l|] eqn:Hsel;
    [|right; by apply (nothing_comes w r _ Hs Hsel)].
  - exfalso. apply select_Some in Hsel as (b & Hl & Hb & Ht & _).
    assert (l ∈ List.filter (takes w r) (backends (pool_of t))) as Hin.
    { apply list_elem_of_In, List.filter_In. split; [by apply list_elem_of_In|]. apply takes_spec. by exists b. }
    destruct (List.filter _ _); [by apply not_elem_of_nil in Hin|simpl in Hm; lia].
  - replace (3 + 3 * S m)%nat with (2 + (3 * m + 4))%nat by lia.
    destruct (round w r l (3 * m + 4) Hs Hsel) as [Hd|(w1 & r1 & -> & Hs1 & Hlt)]; [by left|].
    apply (IH w1 r1); [done|lia].
Qed.
End alone.

(** A request for a peer is answered. Left to itself, a request that may still try gets the
    address of a live backend of its deployment, one it has not failed on, with the slot already
    taken; or there is none to get, because no live backend is left whose address resolves. It
    takes three steps for each backend of the pool at most, and four more: a backend that does
    not resolve is given up for good, so the search cannot go round in circles. *)
Theorem next_peer_answers resolve i d t w r :
  sessions w !! i = Some (at_ Reading r) → deployment r = Some d → regional_assignment r = None →
  (attempts r < MAX_ATTEMPTS)%nat → targets w !! d = Some t →
  (registry w !! id (spec (pool_of t)) = None ∨ registry w !! id (spec (pool_of t)) = Some d) →
  let w1 := step (EvFrame i (Some NextPeer)) w in
  let w' := drive (3 * length (backends (pool_of t)) + 4) resolve i w1 in
  served resolve i t w1 r w' ∨ hopeless resolve i t w1 r w'.
Proof.
  intros Hi Hd Ha Hn Ht Hr. cbv zeta. cbn [step session_of]. rewrite Hi.
  cbn [session_step at_ phase req on_frame]. unfold start_next_peer. rewrite Hd. cbn [with_attempts attempts].
  rewrite (proj2 (Nat.ltb_ge _ _)) by lia.
  set (r1 := with_attempts r (S (attempts r))).
  destruct (release_request r1 w) as [r2 w2] eqn:Erel.
  assert (deployment r2 = Some d ∧ backend r2 = None ∧ failed r2 = failed r ∧ regional_assignment r2 = None ∧
          targets w2 = targets w ∧ registry w2 = registry w) as (Hd2 & Hb2 & Hf2 & Ha2 & Ht2 & Hr2).
  { revert Erel. unfold release_request. destruct (backend r1) eqn:Eb; intros [= <- <-]; done. }
  rewrite Ha2. set (w1 := put i (at_ Picking r2, w2)).
  assert (searching resolve i d t w1 r w1 r2) as Hs.
  { split; try done.
    - apply put_session.
    - unfold w1. cbn [put snd with_sessions targets]. by rewrite Ht2.
    - unfold w1. cbn [put snd with_sessions registry]. by rewrite Hr2.
    - intros l. destruct (heap w1 !! l) as [b|]; [|done]. unfold worn. split_and!; auto.
    - rewrite Hf2. by left.
    - by rewrite Hf2. }
  apply (search resolve i d t w1 r _ w1 r2 Hs). apply filter_length_le.
Qed.
End sessions.

Section examples.
Let ex_spec : DeploymentSpec :=
  {| id := "web"; has_site := false; has_discovery := false; upstreams := [];
     scaling := {| min_replicas := 0; max_replicas := 4; warm_pool := 1; target_concurrency := 2;
                   scale_to_zero_after_secs := 300; cold_start_timeout_secs := 30 |} |}.
Let target : Target :=
  {| pool_of := {| spec := ex_spec; state := initial_state "r1"; backends := []; pending := []; waiters := 0;
                   boot_failures := 0; boot_backoff_until := 0 |} : LbPool.Deployment unit unit unit unit unit;
     gateway := None; regional := false |}.
Let resolve (a : string) : option string := if String.eqb a "vm1.internal:80" then Some "10.0.0.1:80" else None.

(** Two backends, of which the first has no address by now, and a shell on the other. *)
Let boot : list (@Event unit unit unit unit unit string) :=
  [EvBackend 1 "vm1" "vm1" "gone.internal:80" false ""; EvBackend 2 "vm2" "vm2" "vm1.internal:80" false "";
   EvTarget 7 target; EvPool 7 [1%nat; 2%nat]; EvRoute "web" (Some 7%nat); EvHold 2;
   EvBegin 0 (Some 7%nat) None; EvWritten 0 true].
(** A request finds the backend that is left, its connection fails and it waits for another. *)
Let life : list (@Event unit unit unit unit unit string) :=
  [EvFrame 0 (Some NextPeer); EvGo 0; EvGo 0; EvResolved 0 None; EvGo 0; EvGo 0; EvResolved 0 (Some "10.0.0.1:80");
   EvWritten 0 true; EvFrame 0 (Some ConnectionFailed); EvWritten 0 true; EvFrame 0 (Some NextPeer); EvGo 0;
   EvGo 0; EvHealthy 1 true; EvWoken 0; EvGo 0].

Lemma reservations_are_exact_witness :
  let w := run (boot ++ life) (empty_world 100) in
  phase <$> sessions w !! 0%nat = Some Waiting ∧
  in_flight <$> heap w !! 2%nat = Some 1%Z ∧ held 2 w = 0%Z ∧ shells 2 w = 1%Z ∧
  (waiters ∘ pool_of) <$> targets w !! 7%nat = Some 1%Z ∧ waiting_on 7 w = 1%Z.
Proof.
  assert (Z.of_nat (length (boot ++ life)) <= U64.max)%Z as Hlen by (vm_compute; discriminate).
  pose proof (reservations_are_exact (boot ++ life) 100 Hlen) as Hall. cbv zeta in *.
  assert (∃ b, heap (run (boot ++ life) (empty_world 100)) !! 2%nat = Some b) as [b Hb] by (eexists; vm_compute; reflexivity).
  assert (∃ t, targets (run (boot ++ life) (empty_world 100)) !! 7%nat = Some t) as [t Ht] by (eexists; vm_compute; reflexivity).
  destruct Hall as [Hl Hd]. apply Hl in Hb as Hin. apply Hd in Ht as Hwait. rewrite Hb, Ht.
  cbn [fmap option_fmap option_map compose]. rewrite Hin, Hwait.
  split_and!; vm_compute; reflexivity.
Defined.

(** The second backend drains while a shell is open on it. *)
Let closing : list (@Event unit unit unit unit unit string) := boot ++ [EvDraining 2 true].
Let after : list (@Event unit unit unit unit unit string) := firstn 6 life ++ [EvUnhold 0; EvHold 2].

Lemma closed_backend_only_empties_witness :
  ∃ b b', heap (run closing (empty_world 100)) !! 2%nat = Some b ∧ in_flight b = 1%Z ∧
    heap (run after (run closing (empty_world 100))) !! 2%nat = Some b' ∧ (in_flight b' <= 1)%Z.
Proof.
  assert (∃ b, heap (run closing (empty_world 100)) !! 2%nat = Some b ∧ in_flight b = 1%Z) as (b & E & Hb)
    by (eexists; split; vm_compute; reflexivity).
  assert (Z.of_nat (length closing + length after) <= U64.max)%Z as Hlen by (vm_compute; discriminate).
  destruct (closed_backend_only_empties closing after 100 2 b Hlen E) as (b' & Hb' & Hle).
  - intros n x Hn Hx. do 8 (destruct n as [|n]; [vm_compute in Hx; by injection Hx as <-|]). vm_compute in Hn. lia.
  - exists b, b'. split; [done|]. split; [done|]. split; [exact Hb'|lia].
Defined.

Lemma next_peer_answers_witness :
  let pooled := {| pool_of := upd_backends (pool_of target) [1%nat; 2%nat]; gateway := None; regional := false |} in
  let w1 := step (EvFrame 0 (Some NextPeer)) (run boot (empty_world 100)) in
  served resolve 0 pooled w1 (new_request (Some 7%nat) None) (drive 10 resolve 0 w1).
Proof.
  cbv zeta. set (w := run boot (empty_world 100)). set (pooled := {| pool_of := _ |}).
  assert (sessions w !! 0%nat = Some (at_ Reading (new_request (Some 7%nat) None))) as Hi by (vm_compute; reflexivity).
  assert (targets w !! 7%nat = Some pooled) as Ht by (vm_compute; reflexivity).
  assert (registry w !! id (spec (pool_of pooled)) = Some 7%nat) as Hr by (vm_compute; reflexivity).
  assert (0 < MAX_ATTEMPTS)%nat as Hm by (vm_compute; lia).
  pose proof (next_peer_answers resolve 0 7 pooled w _ Hi eq_refl eq_refl Hm Ht (or_intror Hr)) as H. cbv zeta in H.
  destruct H as [H|[(s & Hs & Hp & _) _]]; [exact H|].
  assert (phase <$> sessions (drive 10 resolve 0 (step (EvFrame 0 (Some NextPeer)) w)) !! 0%nat
          = Some (Replying (RPeer "10.0.0.1:80" false "" "vm2" true))) as Hgot by (vm_compute; reflexivity).
  change (3 * length (backends (pool_of pooled)) + 4)%nat with 10%nat in Hs. rewrite Hs in Hgot.
  cbn [fmap option_fmap option_map] in Hgot. rewrite Hp in Hgot. discriminate Hgot.
Defined.
End examples.
