(* ===== verification/LbRegistry.v ===== *)
(** * The registry: [app-lb/src/registry.rs]

    The one piece of state that the proxy, the autoscaler and the admin API share: the
    deployments by id, the route index beside them, the staged replacements of route handoffs,
    the backend generations that discovery withdrew, and one file per deployment.  Deployments
    are [Arc]s that requests keep after a replacement, so they are locations of a heap, like
    their backends ([LbPool]) and routers ([LbRegional]).

    A system call takes its outcome from [faults]; a crash may lose what was not synced. *)
From Stdlib Require Import Ascii String ZArith Lia Bool.
From stdpp Require Import base option list strings gmap fin_maps sets.
From S2P Require Import Prelude LbRoutes LbRegional LbPool.
Open Scope string_scope.
Open Scope list_scope.

(** ** What a deployment carries *)

(** *** [allocation.rs] *)

Record Intent : Type := {
  in_operation_id : string;
  in_request_digest : string;
  in_backend_request_digest : string;
  transport : string;
}.
Record Receipt : Type := {
  rc_operation_id : string;
  rc_sandbox_id : string;
  rc_request_digest : string;
  rc_backend_request_digest : string;
}.

#[global] Instance Intent_eq_dec : EqDecision Intent.
Proof. solve_decision. Defined.
#[global] Instance Receipt_eq_dec : EqDecision Receipt.
Proof. solve_decision. Defined.

(** [Intent::accepts]. *)
Definition accepts (i : Intent) (r : Receipt) : bool :=
  String.eqb (rc_operation_id r) (in_operation_id i)
  && String.eqb (rc_request_digest r) (in_request_digest i)
  && String.eqb (rc_backend_request_digest r) (in_backend_request_digest i)
  && (String.length (rc_sandbox_id r) =? 35)%nat && Str.starts_with "sb-" (rc_sandbox_id r)
  && Str.all (λ b, Str.is_ascii_digit b || Str.in_range 97 102 b) (Str.drop 3 (rc_sandbox_id r)).

(** *** [retirement.rs] *)

Record RetirementTarget : Type := {
  backend_server_id : string;
  backend_sandbox_id : string;
  created_at_unix_nanos : string;
  libvirt_connection_uri : string;
  libvirt_domain_uuid : string;
}.
Record RetirementRequest : Type := {
  operation_id : string;
  expected_revision : string;
  expected_spec_sha256 : string;
  targets_of : list RetirementTarget;
}.
Record CreateAttempt : Type := {
  ca_name : string;
  ca_sandbox_id : option string;
  allocation : option Intent;
  receipt_of : option Receipt;
  seed_digest : option string;
  seed_mount_index : N;
  runtime_observed : bool;
}.

#[global] Instance RetirementTarget_eq_dec : EqDecision RetirementTarget.
Proof. solve_decision. Defined.
#[global] Instance RetirementRequest_eq_dec : EqDecision RetirementRequest.
Proof. solve_decision. Defined.
#[global] Instance CreateAttempt_eq_dec : EqDecision CreateAttempt.
Proof. solve_decision. Defined.

(** *** [config.rs] *)

Record DiscoverySource : Type := { ds_url : string; ds_auth : SecretRef }.
Record DiscoverySpec : Type := {
  service_id : string;
  ds_region : option string;
  ds_regional : option RegionalSpec;
  source : option DiscoverySource;
}.

#[global] Instance DiscoverySource_eq_dec : EqDecision DiscoverySource.
Proof. solve_decision. Defined.
#[global] Instance RegionalSpec_eq_dec : EqDecision RegionalSpec.
Proof. solve_decision. Defined.
#[global] Instance DiscoverySpec_eq_dec : EqDecision DiscoverySpec.
Proof. solve_decision. Defined.
#[global] Instance RouteRule_eq_dec : EqDecision RouteRule.
Proof. solve_decision. Defined.
#[global] Instance ScalingPolicy_eq_dec : EqDecision ScalingPolicy.
Proof. solve_decision. Defined.

Inductive RouteHandoffPhase : Type := Preparing | Prepared | Committed.
#[global] Instance RouteHandoffPhase_eq_dec : EqDecision RouteHandoffPhase.
Proof. solve_decision. Defined.

(** [SecretRef::scope_to]. *)
Definition scope_to (ns : string) (r : SecretRef) : SecretRef :=
  {| sr_secret := sr_secret r; sr_key := sr_key r; sr_username := sr_username r; sr_namespace := Some ns |}.

(** ** [state_file_name] *)

Definition hex_digit (n : N) : ascii :=
  ascii_of_N (if (n <? 10)%N then 48 + n else 55 + n).

Definition plain (b : ascii) : bool := Str.is_ascii_alphanumeric b || Ascii.eqb b "-" || Ascii.eqb b "_".

Fixpoint escape (id : string) : string :=
  match id with
  | EmptyString => ""
  | String b id =>
    if plain b then String b (escape id)
    else String "%" (String (hex_digit (N_of_ascii b / 16)) (String (hex_digit (N_of_ascii b mod 16)) (escape id)))
  end.

Definition state_file_name (id : string) : string := escape id +:+ ".json".

(** [Path::extension]. *)
Definition extension (name : string) : option string :=
  match Chars.rsplit_once "." name with
  | Some (EmptyString, _) | None => None
  | Some (_, e) => Some e
  end.

(** ** File names *)

Definition hex_value (c : ascii) : N := let n := N_of_ascii c in if (n <? 58)%N then n - 48 else n - 55.

Fixpoint unescape (s : string) : string :=
  match s with
  | EmptyString => ""
  | String c s =>
    if Ascii.eqb c "%" then
      match s with
      | String a (String b s) => String (ascii_of_N (16 * hex_value a + hex_value b)) (unescape s)
      | _ => ""
      end
    else String c (unescape s)
  end.

Lemma unhex b : ascii_of_N (16 * hex_value (hex_digit (N_of_ascii b / 16)) + hex_value (hex_digit (N_of_ascii b mod 16))) = b.
Proof. destruct b as [[] [] [] [] [] [] [] []]; vm_compute; reflexivity. Qed.

Lemma plain_not_percent b : plain b = true → Ascii.eqb b "%" = false.
Proof. destruct b as [[] [] [] [] [] [] [] []]; vm_compute; congruence. Qed.

Lemma unescape_escape i : unescape (escape i) = i.
Proof.
  induction i as [|b i IH]; [done|]. cbn [escape]. destruct (plain b) eqn:Eb.
  - cbn [unescape]. by rewrite plain_not_percent, IH.
  - cbn [unescape]. change (Ascii.eqb "%" "%") with true. cbv match. by rewrite unhex, IH.
Qed.

(** The characters of an escaped id. *)
Definition key_char (b : ascii) : bool := plain b || Ascii.eqb b "%".

Lemma hex_digit_plain b : plain (hex_digit (N_of_ascii b / 16)) = true ∧ plain (hex_digit (N_of_ascii b mod 16)) = true.
Proof. destruct b as [[] [] [] [] [] [] [] []]; vm_compute; done. Qed.

Lemma escape_chars i : Str.all key_char (escape i) = true.
Proof.
  induction i as [|b i IH]; [done|]. cbn [escape]. destruct (plain b) eqn:Eb; cbn [Str.all].
  - unfold key_char at 1. by rewrite Eb, IH.
  - destruct (hex_digit_plain b) as [H1 H2]. unfold key_char at 1 2 3. rewrite H1, H2, IH. done.
Qed.

Lemma escape_nil i : escape i = "" → i = "".
Proof. destruct i as [|b i]; [done|]. cbn [escape]. by destruct (plain b). Qed.

Lemma ends_with_app p e : Str.ends_with e (p +:+ e) = true.
Proof.
  unfold Str.ends_with. rewrite string_length_app. apply andb_true_iff. split; [apply Nat.leb_le; lia|].
  replace (String.length p + String.length e - String.length e)%nat with (String.length p) by lia.
  rewrite Str.drop_app. apply String.eqb_refl.
Qed.

Lemma rsplit_last p e : Chars.rsplit_once "." e = None → Chars.rsplit_once "." (p +:+ String "." e) = Some (p, e).
Proof.
  intros He. induction p as [|c p IH].
  - change ("" +:+ String "." e) with (String "." e). cbn [Chars.rsplit_once]. rewrite He. done.
  - change (String c p +:+ String "." e) with (String c (p +:+ String "." e)). cbn [Chars.rsplit_once]. by rewrite IH.
Qed.

Lemma extension_state_file i : i ≠ "" → extension (state_file_name i) = Some "json".
Proof.
  intros Hi. unfold extension, state_file_name. rewrite (rsplit_last (escape i) "json") by done.
  destruct (escape i) eqn:E; [by apply escape_nil in E|done].
Qed.

(** The file of a deployment is a key for its id, inside the state directory, whatever the id
    is: two ids never share a file, the name is a plain base and ".json" (no separator, no
    leading dot, no parent), and [load] and the sweep both take it for a state file. *)
Theorem state_file_is_a_key i j :
  (state_file_name i = state_file_name j → i = j) ∧
  (∃ base, state_file_name i = base +:+ ".json" ∧ Str.all key_char base = true ∧ unescape base = i) ∧
  (i ≠ "" → extension (state_file_name i) = Some "json" ∧ Str.ends_with ".json" (state_file_name i) = true).
Proof.
  split; [|split].
  - intros He. pose proof (rsplit_last (escape i) "json" eq_refl) as Hi.
    change (escape i +:+ String "." "json") with (state_file_name i) in Hi.
    rewrite He in Hi. unfold state_file_name in Hi. rewrite (rsplit_last (escape j) "json" eq_refl) in Hi.
    injection Hi as Hi. rewrite <- (unescape_escape i), <- Hi. apply unescape_escape.
  - exists (escape i). split; [done|]. split; [apply escape_chars|apply unescape_escape].
  - intros Hi. split; [by apply extension_state_file|].
    apply ends_with_app.
Qed.

Section registry.
(** The parts of a spec the registry never looks into: the template of the VMs, sign-in,
    builds; the specification of a site; the status of a sandbox; JSON values; and the content
    of a file. *)
Context {Rest Site SandboxStatus Json Bytes : Type}
  `{!EqDecision Rest, !EqDecision Site, !EqDecision Json, !EqDecision Bytes}.

Record DeploymentSpec : Type := {
  id : string;
  namespace : string;
  routes : list RouteRule;
  maintenance : bool;
  site : option Site;
  scaling : ScalingPolicy;
  upstreams : list string;
  discovery : option DiscoverySpec;
  gateway : option GatewaySpec;
  rest_of : Rest;
}.

#[global] Instance DeploymentSpec_eq_dec : EqDecision DeploymentSpec.
Proof. solve_decision. Defined.

(** What [LbPool] reads of it. *)
Definition pool_spec (s : DeploymentSpec) : LbPool.DeploymentSpec :=
  {| LbPool.id := id s; LbPool.has_site := is_some (site s); LbPool.has_discovery := is_some (discovery s);
     LbPool.upstreams := upstreams s; LbPool.scaling := scaling s |}.
Definition is_static (s : DeploymentSpec) : bool := LbPool.is_static (pool_spec s).
Definition is_managed (s : DeploymentSpec) : bool := LbPool.is_managed (pool_spec s).

Definition set_upstreams (us : list string) (s : DeploymentSpec) : DeploymentSpec :=
  {| id := id s; namespace := namespace s; routes := routes s; maintenance := maintenance s; site := site s;
     scaling := scaling s; upstreams := us; discovery := discovery s; gateway := gateway s; rest_of := rest_of s |}.

(** *** [rollout.rs] *)

Record Allocation : Type := { al_name : string; al_sandbox_id : option string; attempted : bool }.
Record RolloutOperation : Type := {
  ro_operation_id : string;
  deployment : string;
  source_revision : string;
  target_spec_sha256 : string;
  status : string;
  ro_phase : string;
  readiness_verified : bool;
  previous_stopped : bool;
  ro_error : option string;
  preparation_stage : option string;
  ro_spec : DeploymentSpec;
  ro_prepared : option DeploymentSpec;
  prefix : string;
  allocations : list Allocation;
  previous : list string;
  stopped : list string;
  deadline : Z;
  drain_deadline : option Z;
  reclaimed_candidate_ids : list string;
  failure_settled : bool;
}.

#[global] Instance Allocation_eq_dec : EqDecision Allocation.
Proof. solve_decision. Defined.
#[global] Instance RolloutOperation_eq_dec : EqDecision RolloutOperation.
Proof. solve_decision. Defined.

Record RetirementOperation : Type := {
  request : RetirementRequest;
  op_spec : DeploymentSpec;
  inventory : list string;
  op_state : string;
  receipts : gmap string Json;
  unresolved : option string;
}.

#[global] Instance RetirementOperation_eq_dec : EqDecision RetirementOperation.
Proof. solve_decision. Defined.

Record RouteHandoffRecord : Type := {
  rh_operation_id : string;
  predecessor_fingerprint : string;
  staged_fingerprint : string;
  staged_spec : DeploymentSpec;
  phase : RouteHandoffPhase;
  prepared_boot_id : option string;
  prepared_version : option N;
}.

#[global] Instance RouteHandoffRecord_eq_dec : EqDecision RouteHandoffRecord.
Proof. solve_decision. Defined.

Abbreviation State := (LbPool.DeploymentState RetirementOperation CreateAttempt RolloutOperation RouteHandoffRecord).
Abbreviation Pool := (LbPool.Deployment RetirementOperation CreateAttempt RolloutOperation RouteHandoffRecord SandboxStatus).

(** A deployment: its spec, the pool of [LbPool] with the durable state, and its router. *)
Record Dep : Type := { spec_of : DeploymentSpec; base : Pool; regional : option nat }.
Definition state_of (d : Dep) : State := state (base d).

(** Route handoffs are the only part of the state that the registry writes itself. *)
Definition with_handoff (h : option RouteHandoffRecord) (s : State) : State :=
  {| retirement := retirement s; create_attempts := create_attempts s;
     allocation_history_complete := allocation_history_complete s; rollout_revision := rollout_revision s;
     active_prefix := active_prefix s; rollouts := rollouts s; suspended := suspended s;
     upstream_drains := upstream_drains s; discovery_version := discovery_version s;
     discovery_source_url := discovery_source_url s; route_handoff := h |}.
Definition with_discovery (v : option Z) (u : option string) (s : State) : State :=
  {| retirement := retirement s; create_attempts := create_attempts s;
     allocation_history_complete := allocation_history_complete s; rollout_revision := rollout_revision s;
     active_prefix := active_prefix s; rollouts := rollouts s; suspended := suspended s;
     upstream_drains := upstream_drains s; discovery_version := v;
     discovery_source_url := u; route_handoff := route_handoff s |}.
Definition with_drains (f : list UpstreamDrain) (s : State) : State :=
  {| retirement := retirement s; create_attempts := create_attempts s;
     allocation_history_complete := allocation_history_complete s; rollout_revision := rollout_revision s;
     active_prefix := active_prefix s; rollouts := rollouts s; suspended := suspended s;
     upstream_drains := f; discovery_version := discovery_version s;
     discovery_source_url := discovery_source_url s; route_handoff := route_handoff s |}.
Definition with_revision (r : string) (s : State) : State :=
  {| retirement := retirement s; create_attempts := create_attempts s;
     allocation_history_complete := allocation_history_complete s; rollout_revision := r;
     active_prefix := active_prefix s; rollouts := rollouts s; suspended := suspended s;
     upstream_drains := upstream_drains s; discovery_version := discovery_version s;
     discovery_source_url := discovery_source_url s; route_handoff := route_handoff s |}.
Definition with_history (p : State) (s : State) : State :=
  {| retirement := retirement s; create_attempts := create_attempts p;
     allocation_history_complete := allocation_history_complete p; rollout_revision := rollout_revision s;
     active_prefix := active_prefix s; rollouts := rollouts p; suspended := suspended s;
     upstream_drains := upstream_drains s; discovery_version := discovery_version s;
     discovery_source_url := discovery_source_url s; route_handoff := route_handoff s |}.

(** ** The world *)

(** The state directory, by file name: what a reader sees, and what a crash of the host leaves;
    beside it the legacy file and the archive of retired records. *)
Record Disk : Type := {
  visible : gmap string Bytes;
  durable : gmap string Bytes;
  legacy : option Bytes;
  archive : gmap string Bytes;
}.

Record World : Type := {
  now : Z;
  heap : Heap;
  deps : gmap nat Dep;
  routers : gmap nat RouterState;
  deployments : gmap string nat;
  index : RouteTable;
  retired_discovery : gmap string (list nat);
  staged : gmap string nat;
  load_skipped : bool;
  disk : Disk;
  next : nat;                 (** the next free location *)
  faults : list bool;
}.

Definition with_heap (h : Heap) (w : World) : World :=
  {| now := now w; heap := h; deps := deps w; routers := routers w; deployments := deployments w; index := index w;
     retired_discovery := retired_discovery w; staged := staged w; load_skipped := load_skipped w; disk := disk w;
     next := next w; faults := faults w |}.
Definition with_deps (m : gmap nat Dep) (w : World) : World :=
  {| now := now w; heap := heap w; deps := m; routers := routers w; deployments := deployments w; index := index w;
     retired_discovery := retired_discovery w; staged := staged w; load_skipped := load_skipped w; disk := disk w;
     next := next w; faults := faults w |}.
Definition with_routers (m : gmap nat RouterState) (w : World) : World :=
  {| now := now w; heap := heap w; deps := deps w; routers := m; deployments := deployments w; index := index w;
     retired_discovery := retired_discovery w; staged := staged w; load_skipped := load_skipped w; disk := disk w;
     next := next w; faults := faults w |}.
Definition with_deployments (m : gmap string nat) (t : RouteTable) (w : World) : World :=
  {| now := now w; heap := heap w; deps := deps w; routers := routers w; deployments := m; index := t;
     retired_discovery := retired_discovery w; staged := staged w; load_skipped := load_skipped w; disk := disk w;
     next := next w; faults := faults w |}.
Definition with_retired (m : gmap string (list nat)) (w : World) : World :=
  {| now := now w; heap := heap w; deps := deps w; routers := routers w; deployments := deployments w; index := index w;
     retired_discovery := m; staged := staged w; load_skipped := load_skipped w; disk := disk w;
     next := next w; faults := faults w |}.
Definition with_staged (m : gmap string nat) (w : World) : World :=
  {| now := now w; heap := heap w; deps := deps w; routers := routers w; deployments := deployments w; index := index w;
     retired_discovery := retired_discovery w; staged := m; load_skipped := load_skipped w; disk := disk w;
     next := next w; faults := faults w |}.
Definition with_load_skipped (b : bool) (w : World) : World :=
  {| now := now w; heap := heap w; deps := deps w; routers := routers w; deployments := deployments w; index := index w;
     retired_discovery := retired_discovery w; staged := staged w; load_skipped := b; disk := disk w;
     next := next w; faults := faults w |}.
Definition with_disk (d : Disk) (w : World) : World :=
  {| now := now w; heap := heap w; deps := deps w; routers := routers w; deployments := deployments w; index := index w;
     retired_discovery := retired_discovery w; staged := staged w; load_skipped := load_skipped w; disk := d;
     next := next w; faults := faults w |}.
Definition with_next (n : nat) (w : World) : World :=
  {| now := now w; heap := heap w; deps := deps w; routers := routers w; deployments := deployments w; index := index w;
     retired_discovery := retired_discovery w; staged := staged w; load_skipped := load_skipped w; disk := disk w;
     next := n; faults := faults w |}.
Definition with_faults (fs : list bool) (w : World) : World :=
  {| now := now w; heap := heap w; deps := deps w; routers := routers w; deployments := deployments w; index := index w;
     retired_discovery := retired_discovery w; staged := staged w; load_skipped := load_skipped w; disk := disk w;
     next := next w; faults := fs |}.

(** ** Operations

    An operation runs on the world and returns what the method returns; [None] is a panic. *)

Definition Op (A : Type) : Type := World → option (A * World).
Definition ret {A} (a : A) : Op A := λ w, Some (a, w).
Definition bind {A B} (m : Op A) (k : A → Op B) : Op B := λ w, '(a, w) ← m w; k a w.
Definition gets {A} (f : World → A) : Op A := λ w, Some (f w, w).
Definition modify (f : World → World) : Op unit := λ w, Some (tt, f w).
Definition expect {A} (o : option A) : Op A := λ w, a ← o; Some (a, w).
Local Notation "x <-! m ;; k" := (bind m (λ x, k)) (at level 100, m at next level, right associativity).
Local Notation "m ;;! k" := (bind m (λ _, k)) (at level 100, right associativity).

(** Fallible operations: [x <-?! m ;; k] is [m?]. *)
Definition try {E A B} (m : Op (result E A)) (k : A → Op (result E B)) : Op (result E B) :=
  r <-! m ;; match r with Ok a => k a | Err e => ret (Err e) end.
Local Notation "x <-?! m ;; k" := (try m (λ x, k)) (at level 100, m at next level, right associativity).
Local Notation "m ;;?! k" := (try m (λ _, k)) (at level 100, right associativity).

Fixpoint each {A} (f : A → Op unit) (l : list A) : Op unit :=
  match l with [] => ret tt | a :: l => f a ;;! each f l end.

(** A system call that fails or not. *)
Inductive IoError : Type := IoFailed | MayContainIntent | PreservesRecord | ArchiveMismatch.
Definition sys : Op (result IoError unit) := λ w,
  match faults w with
  | true :: fs => Some (Err IoFailed, with_faults fs w)
  | false :: fs => Some (Ok tt, with_faults fs w)
  | [] => Some (Ok tt, w)
  end.

Definition fresh : Op nat := λ w, Some (next w, with_next (S (next w)) w).
Fixpoint fresh_list (n : nat) : Op (list nat) :=
  match n with O => ret [] | S n => l <-! fresh ;; ls <-! fresh_list n ;; ret (l :: ls) end.

Definition deref (l : nat) : Op Dep := λ w, d ← deps w !! l; Some (d, w).
Definition store (l : nat) (d : Dep) : Op unit := modify (λ w, with_deps (<[l := d]> (deps w)) w).
(** [Arc::new]. *)
Definition alloc (d : Dep) : Op nat := l <-! fresh ;; store l d ;;! ret l.

(** The methods of a deployment that write its pool. *)
Definition on_pool (f : Heap → Pool → Heap * Pool) (l : nat) : Op unit :=
  d <-! deref l ;; w <-! gets (λ w, w) ;;
  let '(h, p) := f (heap w) (base d) in
  modify (with_heap h) ;;! store l {| spec_of := spec_of d; base := p; regional := regional d |}.
Definition set_state (l : nat) (s : State) : Op unit := on_pool (λ h p, LbPool.set_state h p s) l.
Definition mutate_state (l : nat) (f : State → State) : Op unit := on_pool (λ h p, snd (LbPool.mutate_state h p f)) l.
Definition set_backends (l : nat) (bs : list nat) : Op unit := on_pool (λ h p, LbPool.set_backends h p bs) l.
Definition set_pending (l : nat) (ps : list (PendingVm SandboxStatus)) : Op unit :=
  on_pool (λ h p, (h, LbPool.set_pending p ps)) l.

(** *** What the registry uses of other code: URLs, JSON, hashing, directories, identities *)
Class Externals : Type := {
  url_parse : string → option Url;
  show_Z : Z → string;
  (** [serde_json] on a stored record, and on the legacy list of specs. *)
  encode : DeploymentSpec → State → Bytes;
  decode : Bytes → option (DeploymentSpec * State);
  decode_legacy : Bytes → option (list DeploymentSpec);
  empty : Bytes;
  (** The digest of a spec's JSON, of the same with its keys sorted, and of a file. *)
  hash : DeploymentSpec → string;
  hash_sorted : DeploymentSpec → string;
  sha256 : Bytes → string;
  (** [fs::read_dir]: the names, in any order. *)
  read_dir : gmap string Bytes → list string;
  (** [rollout::revision] and the boot identity of a router, from the counter of allocations. *)
  revision : nat → string;
  boot_id : nat → string;
  (** The secret references in the rest of a spec, and what validation makes of a spec. *)
  normalize_rest : string → Rest → Rest;
  validate : DeploymentSpec → bool;
}.

(** A written record reads back, an empty file does not; a listing has every name once; and two
    specs of which one is discovered and the other not do not share a digest. *)
Class ExternalsLaws `{Ext : !Externals} : Prop := {
  decode_encode : ∀ s st, decode (encode s st) = Some (s, st);
  decode_empty : decode empty = None;
  read_dir_spec : ∀ m, read_dir m ≡ₚ (map_to_list m).*1;
  hash_discovery : ∀ s s', hash s = hash s' → is_some (discovery s) = is_some (discovery s');
}.

Context `{Ext : !Externals, Laws : !ExternalsLaws}.

(** [DeploymentSpec::normalize]. *)
Definition normalize_discovery (ns : string) (d : DiscoverySpec) : DiscoverySpec :=
  {| service_id := service_id d; ds_region := ds_region d;
     ds_regional := (λ r, {| gateway_id := gateway_id r; rs_backend_server_id := rs_backend_server_id r;
                             environment := environment r; rs_auth := scope_to ns (rs_auth r) |}) <$> ds_regional d;
     source := (λ s, {| ds_url := ds_url s; ds_auth := scope_to ns (ds_auth s) |}) <$> source d |}.
Definition normalize (s : DeploymentSpec) : DeploymentSpec :=
  {| id := id s; namespace := namespace s; routes := routes s; maintenance := maintenance s; site := site s;
     scaling := scaling s; upstreams := upstreams s;
     discovery := normalize_discovery (namespace s) <$> discovery s;
     gateway := (λ g, {| service := service g; gs_region := gs_region g; auth := scope_to (namespace s) (auth g);
                         mode := mode g |}) <$> gateway s;
     rest_of := normalize_rest (namespace s) (rest_of s) |}.

(** [spec_fingerprint]. *)
Definition spec_fingerprint (s : DeploymentSpec) : string :=
  let intent := normalize s in
  "sha256:" +:+ hash (if is_some (discovery intent) then set_upstreams [] intent else intent).

(** [Deployment::new]. *)
Definition new_deployment (s : DeploymentSpec) : Op Dep :=
  rev <-! fresh ;;
  locs <-! fresh_list (length (upstreams s)) ;;
  w <-! gets (λ w, w) ;;
  hp <-! expect (LbPool.new_deployment url_parse show_Z (now w) (revision rev) locs (heap w) (pool_spec s)) ;;
  modify (with_heap (fst hp)) ;;!
  r <-! (match discovery s ≫= ds_regional with
         | Some _ =>
           r <-! fresh ;; modify (λ w, with_routers (<[r := router_new]> (routers w)) w) ;;! ret (Some r)
         | None => ret None
         end) ;;
  ret {| spec_of := s; base := snd hp; regional := r |}.

(** *** Reading *)

Definition get (i : string) (w : World) : option nat := deployments w !! i.
Definition dep_at (i : string) (w : World) : option Dep := l ← get i w; deps w !! l.
(** [deployments().values()]. *)
Definition all_deps (w : World) : list Dep := omap (λ l, deps w !! l) (map_to_list (deployments w)).*2.

Definition retirement_frozen (i : string) (w : World) : bool :=
  match dep_at i w with Some d => is_some (retirement (state_of d)) | None => false end.

Definition allocation_protects (sandbox : string) (w : World) : bool :=
  existsb (λ d, existsb (λ a, is_some (allocation a) && negb (runtime_observed a)
                              && match ca_sandbox_id a with Some i => String.eqb i sandbox | None => true end)
                        (create_attempts (state_of d))) (all_deps w).

(** [rollout::protected_ids]. *)
Definition protected_ids (s : State) : list string :=
  flat_map (λ o, previous o ++ omap al_sandbox_id (allocations o)) (rollouts s).

Definition retirement_protects (sandbox : string) (deployment : option string) (w : World) : bool :=
  match deployment with Some i => retirement_frozen i w | None => false end
  || existsb (λ d, match retirement (state_of d) with
                   | None => false
                   | Some o =>
                     existsb (λ t, String.eqb (backend_sandbox_id t) sandbox) (targets_of (request o))
                     || existsb (λ i, String.eqb i sandbox) (inventory o)
                     || existsb (λ a, bool_decide (ca_sandbox_id a = Some sandbox)) (create_attempts (state_of d))
                     || existsb (λ i, String.eqb i sandbox) (protected_ids (state_of d))
                   end) (all_deps w).

Definition discovery_targets (w : World) : list (string * string * bool) :=
  let target b d := (λ x, (id (spec_of d), service_id x, b)) <$> discovery (spec_of d) in
  omap (target false) (all_deps w) ++ omap (target true) (omap (λ l, deps w !! l) (map_to_list (staged w)).*2).

Definition inspect_handoff (i : string) (w : World) : option RouteHandoffRecord :=
  d ← dep_at i w; route_handoff (state_of d).

Definition route (h : option string) (path : string) (w : World) : option nat :=
  i ← resolve (index w) h path; get i w.

Definition require_complete_load (w : World) : result IoError unit :=
  if load_skipped w then Err MayContainIntent else Ok tt.

(** *** The state directory *)

Definition on_disk (f : Disk → Disk) : Op unit := modify (λ w, with_disk (f (disk w)) w).
Definition link_file (name : string) (bytes : Bytes) (d : Disk) : Disk :=
  {| visible := <[name := bytes]> (visible d); durable := durable d; legacy := legacy d; archive := archive d |}.
Definition unlink_file (name : string) (d : Disk) : Disk :=
  {| visible := delete name (visible d); durable := durable d; legacy := legacy d; archive := archive d |}.
(** [sync_all] on the directory. *)
Definition sync_dir (d : Disk) : Disk :=
  {| visible := visible d; durable := visible d; legacy := legacy d; archive := archive d |}.

(** [persist_snapshot_inner]: the directory, the temporary file and its three calls, the rename,
    and the sync of the directory. *)
Definition persist_snapshot (d : Dep) (s : State) : Op (result IoError unit) :=
  sys ;;?!
  sys ;;?! sys ;;?! sys ;;?!
  sys ;;?! on_disk (link_file (state_file_name (id (spec_of d))) (encode (spec_of d) s)) ;;!
  sys ;;?! on_disk sync_dir ;;! ret (Ok tt).

(** [forget]. *)
Definition forget (i : string) : Op (result IoError unit) :=
  w <-! gets (λ w, w) ;;
  if retirement_frozen i w then ret (Err PreservesRecord)
  else if is_some (visible (disk w) !! state_file_name i) then
    sys ;;?! on_disk (unlink_file (state_file_name i)) ;;! sys ;;?! on_disk sync_dir ;;! ret (Ok tt)
  else ret (Ok tt).

(** [persist_one]. *)
Definition persist_one (i : string) : Op (result IoError unit) :=
  w <-! gets (λ w, w) ;;
  match dep_at i w with None => forget i | Some d => persist_snapshot d (state_of d) end.

(** [archive_record]. *)
Definition archive_record (d : Dep) : Op (result IoError unit) :=
  persist_snapshot d (state_of d) ;;?!
  sys ;;?!
  w <-! gets (λ w, w) ;;
  match visible (disk w) !! state_file_name (id (spec_of d)) with
  | None => ret (Err IoFailed)
  | Some bytes =>
    let target := sha256 bytes +:+ ".json" in
    sys ;;?!
    match archive (disk w) !! target with
    | Some old => if bool_decide (old = bytes) then sys else ret (Err ArchiveMismatch)
    | None =>
      on_disk (λ d, {| visible := visible d; durable := durable d; legacy := legacy d;
                       archive := <[target := bytes]> (archive d) |}) ;;! sys
    end
  end.

(** [sweep_orphan_state]. *)
Fixpoint sweep_loop (wanted : gset string) (names : list string) (removed : N) : Op (result IoError N) :=
  match names with
  | [] => ret (Ok removed)
  | name :: names =>
    sys ;;?!
    if Str.ends_with ".json" name && negb (bool_decide (name ∈ wanted)) then
      sys ;;?! on_disk (unlink_file name) ;;! sweep_loop wanted names (removed + 1)
    else sweep_loop wanted names removed
  end.
Definition sweep_orphan_state : Op (result IoError N) :=
  w <-! gets (λ w, w) ;;
  if load_skipped w then ret (Ok 0%N)
  else
    let wanted : gset string := list_to_set (state_file_name <$> (map_to_list (deployments w)).*1) in
    sys ;;?! sweep_loop wanted (read_dir (visible (disk w))) 0.

(** *** The set of deployments *)

(** [install]. *)
Definition install (deployment : option nat) (i : string) : Op unit := λ w,
  let rules l := (λ d, routes (spec_of d)) <$> deps w !! l in
  Some (tt, with_deployments
              (match deployment with Some l => <[i := l]> (deployments w) | None => delete i (deployments w) end)
              (updated (index w) i (deployments w !! i ≫= rules) (deployment ≫= rules)) w).

(** [fence_discovery_removals]. *)
Definition fence_discovery_removals (l : nat) (us : list string) : Op unit :=
  d <-! deref l ;; w <-! gets (λ w, w) ;;
  let removed := List.filter (λ b, match heap w !! b with
                                   | Some x => negb (bool_decide (peer x ∈ us)) | None => false end)
                   (backends (base d)) in
  each (λ b, modify (λ w, with_heap (alter (λ x, set_draining x true) b (heap w)) w)) removed ;;!
  match removed with
  | [] => ret tt
  | _ =>
    modify (λ w,
      let kept := List.filter (λ b, match heap w !! b with
                                    | Some x => negb (in_flight x =? 0)%Z | None => false end)
                    (default [] (retired_discovery w !! id (spec_of d))) in
      with_retired (<[id (spec_of d) := kept ++ removed]> (retired_discovery w)) w)
  end.

(** [discovery_backends]. *)
Definition discovery_backends (i : string) : Op (list nat) :=
  w <-! gets (λ w, w) ;;
  let current := match dep_at i w with Some d => backends (base d) | None => [] end in
  match retired_discovery w !! i with
  | None => ret current
  | Some bs =>
    let live := List.filter (λ b, match heap w !! b with
                                  | Some x => negb (in_flight x =? 0)%Z | None => false end) bs in
    modify (with_retired (match live with [] => delete i (retired_discovery w)
                                        | _ => <[i := live]> (retired_discovery w) end)) ;;!
    ret (current ++ live)
  end.

Definition region_of (s : DeploymentSpec) : option string := d ← discovery s; ds_region d.
Definition service_of (s : DeploymentSpec) : option (string * option string) :=
  (λ d, (service_id d, ds_region d)) <$> discovery s.

(** The spec [upsert] goes on with: another region starts without members. *)
Definition scoped_spec (previous : option Dep) (s : DeploymentSpec) : DeploymentSpec :=
  match previous with
  | Some old =>
    if negb (bool_decide (region_of (spec_of old) = region_of s)) && is_some (discovery s)
    then set_upstreams [] s else s
  | None => s
  end.

(** The state a static deployment carries over. *)
Definition carried_state (previous : option Dep) (s : DeploymentSpec) : option State :=
  old ← previous;
  if is_static s && is_static (spec_of old) then
    let st := state_of old in
    let same := bool_decide (service_of (spec_of old) = service_of s) in
    let st := if same then st else with_discovery None None st in
    Some (if negb (is_some (discovery s)) || negb same
          then with_drains (List.filter (λ u, bool_decide (upstream u ∈ upstreams s)) (upstream_drains st)) st
          else st)
  else None.

Definition peer_at (h : Heap) (b : nat) : option string := peer <$> h !! b.

(** The backend of each upstream: the first one of the old pool with its address and not used yet,
    or the fresh one. *)
Fixpoint retain_backends (h : Heap) (old : list nat) (us : list string) (fresh : list nat) (used : list nat) : list nat :=
  match us, fresh with
  | u :: us, f :: fresh =>
    match List.find (λ ib, negb (bool_decide (fst ib ∈ used)) && bool_decide (peer_at h (snd ib) = Some u))
                    (zip (seq 0 (length old)) old) with
    | Some (i, b) => b :: retain_backends h old us fresh (i :: used)
    | None => f :: retain_backends h old us fresh used
    end
  | _, _ => []
  end.

Definition with_regional (r : option nat) (d : Dep) : Dep := {| spec_of := spec_of d; base := base d; regional := r |}.
Definition fence_router (r : nat) : Op unit := modify (λ w, with_routers (alter fence r (routers w)) w).
Definition when (b : bool) (m : Op unit) : Op unit := if b then m else ret tt.
Definition deref_opt (o : option nat) : Op (option Dep) :=
  match o with Some l => d <-! deref l ;; ret (Some d) | None => ret None end.

(** [upsert]. *)
Definition upsert (s : DeploymentSpec) : Op nat :=
  old <-! gets (get (id s)) ;;
  previous <-! deref_opt old ;;
  match l ← old; d ← previous; if is_some (retirement (state_of d)) then Some l else None with
  | Some l => ret l
  | None =>
    let s := scoped_spec previous s in
    (match old, previous with
     | Some l, Some d => when (is_some (discovery (spec_of d))) (fence_discovery_removals l (upstreams s))
     | _, _ => ret tt
     end) ;;!
    let carried := carried_state previous s in
    d <-! new_deployment s ;;
    d <-! (match previous with
           | Some p =>
             if bool_decide (namespace (spec_of p) = namespace s) && bool_decide (discovery (spec_of p) = discovery s)
             then ret (with_regional (regional p) d)
             else (match regional p with Some r => fence_router r | None => ret tt end) ;;! ret d
           | None => ret d
           end) ;;
    l <-! alloc d ;;
    (match carried with Some st => set_state l st | None => ret tt end) ;;!
    (match old with
     | Some o =>
       p <-! deref o ;; r <-! fresh ;;
       mutate_state l (λ st, with_revision (revision r) (with_history (state_of p) st))
     | None => ret tt
     end) ;;!
    (match old, previous with
     | Some o, Some p =>
       when (is_static s && is_static (spec_of p))
         (p <-! deref o ;; d <-! deref l ;; h <-! gets heap ;;
          set_backends l (retain_backends h (backends (base p)) (upstreams s) (backends (base d)) []))
     | _, _ => ret tt
     end) ;;!
    install (Some l) (id s) ;;! ret l
  end.

(** [update]. *)
Definition update (s : DeploymentSpec) : Op (option nat) :=
  old <-! gets (get (id s)) ;;
  match old with
  | None => ret None
  | Some o =>
    p <-! deref o ;;
    if is_some (retirement (state_of p)) then ret None
    else
      d <-! new_deployment s ;;
      l <-! alloc d ;;
      set_state l (state_of p) ;;!
      r <-! fresh ;; mutate_state l (with_revision (revision r)) ;;!
      set_backends l (backends (base p)) ;;!
      set_pending l (pending (base p)) ;;!
      install (Some l) (id s) ;;! ret (Some l)
  end.

(** [remove]. *)
Definition remove (i : string) : Op (option nat) :=
  removed <-! gets (get i) ;;
  match removed with
  | None => ret None
  | Some l =>
    d <-! deref l ;;
    if is_some (retirement (state_of d)) then ret None
    else if existsb (λ a, is_some (allocation a)) (create_attempts (state_of d)) then ret None
    else
      when (is_some (discovery (spec_of d))) (fence_discovery_removals l []) ;;!
      install None i ;;! ret (Some l)
  end.

(** [publish]. *)
Definition publish (l : nat) : Op unit :=
  d <-! deref l ;; w <-! gets (λ w, w) ;;
  if retirement_frozen (id (spec_of d)) w then ret tt else install (Some l) (id (spec_of d)).

(** [apply_discovery_upstreams]. *)
Definition apply_discovery_upstreams (l : nat) (us : list string) : Op nat :=
  d <-! deref l ;; upsert (set_upstreams us (spec_of d)).

(** *** Route handoffs *)

Inductive HandoffError : Type := NotFound | Conflict | Io (e : IoError).

(** [map_err(HandoffError::Io)]. *)
Definition io {A} (m : Op (result IoError A)) : Op (result HandoffError A) :=
  r <-! m ;; ret (match r with Ok a => Ok a | Err e => Err (Io e) end).
Definition check (b : bool) : Op (result HandoffError unit) := ret (if b then Ok tt else Err Conflict).
Definition some_or {A} (e : HandoffError) (o : option A) : Op (result HandoffError A) :=
  ret (match o with Some a => Ok a | None => Err e end).
Definition read {A} (m : Op A) : Op (result HandoffError A) := a <-! m ;; ret (Ok a).

(** [validate_handoff]. *)
Definition validate_handoff (flat regional : DeploymentSpec) : bool :=
  validate regional &&
  match discovery flat with
  | None => false
  | Some predecessor =>
    negb (is_some (ds_regional predecessor)) && negb (is_some (gateway flat)) &&
    match discovery regional with
    | None => false
    | Some d =>
      is_some (ds_region d) && is_some (ds_regional d) && is_some (source d) &&
      bool_decide
        ({| id := id flat; namespace := namespace flat; routes := routes flat; maintenance := maintenance flat;
            site := site flat; scaling := scaling flat; upstreams := upstreams regional;
            discovery := Some {| service_id := service_id predecessor; ds_region := ds_region d;
                                 ds_regional := ds_regional d; source := source predecessor |};
            gateway := gateway flat; rest_of := rest_of flat |} = regional)
    end
  end.

Definition stage (l : option nat) (i : string) : Op unit :=
  modify (λ w, with_staged (match l with Some l => <[i := l]> (staged w) | None => delete i (staged w) end) w).

(** [prepare_handoff]. *)
Definition prepare_handoff (operation expected : string) (staged_spec : DeploymentSpec) :
    Op (result HandoffError RouteHandoffRecord) :=
  l <-?! (l <-! gets (get (id staged_spec)) ;; some_or NotFound l) ;;
  d <-! deref l ;;
  let current_fp := spec_fingerprint (spec_of d) in
  let staged_fp := spec_fingerprint staged_spec in
  match route_handoff (state_of d) with
  | Some existing =>
    if String.eqb (rh_operation_id existing) operation && String.eqb (predecessor_fingerprint existing) expected
       && String.eqb (staged_fingerprint existing) staged_fp
    then ret (Ok existing) else ret (Err Conflict)
  | None =>
    check (String.eqb current_fp expected) ;;?!
    check (validate_handoff (spec_of d) staged_spec) ;;?!
    let record := {| rh_operation_id := operation; predecessor_fingerprint := expected;
                     staged_fingerprint := staged_fp; staged_spec := staged_spec; phase := Preparing;
                     prepared_boot_id := None; prepared_version := None |} in
    let next := with_handoff (Some record) (state_of d) in
    io (persist_snapshot d next) ;;?!
    set_state l next ;;!
    s <-! new_deployment staged_spec ;; s <-! alloc s ;;
    stage (Some s) (id staged_spec) ;;! ret (Ok record)
  end.

(** The [preparation] of a staged runtime that both later steps ask for. *)
Definition evidence_of (d : Dep) (w : World) : option Preparation :=
  r ← regional d; st ← routers w !! r;
  p ← preparation (boot_id r) (negb (maintenance (spec_of d))) (now w) (heap w) st;
  if prepared p && adopted p then Some p else None.

(** [mark_handoff_prepared]. *)
Definition mark_handoff_prepared (i : string) : Op (result HandoffError RouteHandoffRecord) :=
  l <-?! (l <-! gets (get i) ;; some_or NotFound l) ;; d <-! deref l ;;
  s <-?! (s <-! gets (λ w, staged w !! i) ;; some_or Conflict s) ;; s <-! deref s ;;
  p <-?! (p <-! gets (evidence_of s) ;; some_or Conflict p) ;;
  record <-?! some_or Conflict (route_handoff (state_of d)) ;;
  check (String.eqb (pn_operation_id p) (rh_operation_id record)) ;;?!
  let record := {| rh_operation_id := rh_operation_id record;
                   predecessor_fingerprint := predecessor_fingerprint record;
                   staged_fingerprint := staged_fingerprint record; staged_spec := staged_spec record;
                   phase := Prepared; prepared_boot_id := Some (pn_boot_id p);
                   prepared_version := Some (pn_version p) |} in
  let next := with_handoff (Some record) (state_of d) in
  io (persist_snapshot d next) ;;?! set_state l next ;;! ret (Ok record).

(** Whether another deployment's routes meet those of the staged spec. *)
Definition overlaps (news olds : list RouteRule) : bool :=
  existsb (λ n, existsb (λ o,
    matches o (host n) (default "/" (path_prefix n)) || matches n (host o) (default "/" (path_prefix o))) olds) news.
Definition competing (i : string) (staged : DeploymentSpec) (w : World) : bool :=
  existsb (λ d, negb (String.eqb (id (spec_of d)) i) && overlaps (routes staged) (routes (spec_of d))) (all_deps w).

(** [commit_handoff]. *)
Definition commit_handoff (i operation : string) : Op (result HandoffError RouteHandoffRecord) :=
  l <-?! (l <-! gets (get i) ;; some_or NotFound l) ;; predecessor <-! deref l ;;
  record <-?! some_or Conflict (route_handoff (state_of predecessor)) ;;
  check (String.eqb (rh_operation_id record) operation) ;;?!
  if bool_decide (phase record = Committed) then ret (Ok record)
  else
    check (bool_decide (phase record = Prepared)) ;;?!
    check (String.eqb (spec_fingerprint (spec_of predecessor)) (predecessor_fingerprint record)) ;;?!
    (w <-! gets (λ w, w) ;; check (negb (competing i (staged_spec record) w))) ;;?!
    sl <-?! (s <-! gets (λ w, staged w !! i) ;; some_or Conflict s) ;; s <-! deref sl ;;
    p <-?! (p <-! gets (evidence_of s) ;; some_or Conflict p) ;;
    check (String.eqb (pn_operation_id p) (rh_operation_id record)) ;;?!
    check (bool_decide (prepared_boot_id record = Some (pn_boot_id p))
           && bool_decide (prepared_version record = Some (pn_version p))) ;;?!
    let record := {| rh_operation_id := rh_operation_id record;
                     predecessor_fingerprint := predecessor_fingerprint record;
                     staged_fingerprint := staged_fingerprint record; staged_spec := staged_spec record;
                     phase := Committed; prepared_boot_id := prepared_boot_id record;
                     prepared_version := prepared_version record |} in
    let next := with_discovery (Some (Z.of_N (pn_version p))) (discovery_source_url (state_of s))
                  (with_handoff (Some record) (state_of s)) in
    io (persist_snapshot s next) ;;?!
    set_state sl next ;;!
    fence_discovery_removals l [] ;;!
    install (Some sl) i ;;! stage None i ;;! ret (Ok record).

(** [apply_staged_discovery]. *)
Definition apply_staged_discovery (old : nat) (us : list string) : Op (option nat) :=
  d <-! deref old ;;
  current <-! gets (λ w, staged w !! id (spec_of d)) ;;
  if bool_decide (current = Some old) then
    n <-! new_deployment (set_upstreams us (spec_of d)) ;;
    l <-! alloc (with_regional (regional d) n) ;;
    set_state l (state_of d) ;;!
    stage (Some l) (id (spec_of d)) ;;! ret (Some l)
  else ret None.

(** *** Start-up *)

(** [DeploymentState::default]. *)
Definition default_state : State :=
  {| retirement := None; create_attempts := []; allocation_history_complete := false;
     rollout_revision := ""; active_prefix := None; rollouts := []; suspended := [];
     upstream_drains := []; discovery_version := None; discovery_source_url := None; route_handoff := None |}.

Fixpoint import_specs (specs : list DeploymentSpec) : Op (result IoError unit) :=
  match specs with
  | [] => ret (Ok tt)
  | s :: specs =>
    w <-! gets (λ w, w) ;;
    if is_some (visible (disk w) !! state_file_name (id s)) then import_specs specs
    else
      (** [fs::write] creates the file, then writes it. *)
      sys ;;?! on_disk (link_file (state_file_name (id s)) empty) ;;!
      sys ;;?! on_disk (link_file (state_file_name (id s)) (encode s default_state)) ;;!
      import_specs specs
  end.

(** [migrate_legacy_file]. *)
Definition migrate_legacy_file : Op (result IoError unit) :=
  w <-! gets (λ w, w) ;;
  match legacy (disk w) with
  | None => ret (Ok tt)
  | Some bytes =>
    sys ;;?!
    match decode_legacy bytes with
    | None => ret (Err IoFailed)
    | Some specs =>
      sys ;;?! import_specs specs ;;?!
      sys ;;?! on_disk (λ d, {| visible := visible d; durable := durable d; legacy := None; archive := archive d |}) ;;!
      ret (Ok tt)
    end
  end.

(** The staged runtime of a handoff that was not committed: its intent survives, its router does not. *)
Definition restage (d : Dep) : Op unit :=
  match route_handoff (state_of d) with
  | Some h =>
    if bool_decide (phase h = Committed) then ret tt
    else n <-! new_deployment (staged_spec h) ;; n <-! alloc n ;; stage (Some n) (id (spec_of d))
  | None => ret tt
  end.

(** One file of [load]: whether it was skipped. *)
Definition load_file (bytes : option Bytes) : Op bool :=
  match bytes ≫= decode with
  | None => ret true
  | Some (s, st) =>
    let s := normalize s in
    if negb (validate s) then ret true
    else
      w <-! gets (λ w, w) ;;
      if retirement_frozen (id s) w then ret false
      else l <-! upsert s ;; set_state l st ;;! d <-! deref l ;; restage d ;;! ret false
  end.

Fixpoint load_loop (names : list string) (loaded : N) (skipped : bool) : Op (result IoError (N * bool)) :=
  match names with
  | [] => ret (Ok (loaded, skipped))
  | name :: names =>
    sys ;;?!
    if bool_decide (extension name = Some "json") then
      r <-! sys ;; w <-! gets (λ w, w) ;;
      skip <-! load_file (match r with Ok _ => visible (disk w) !! name | Err _ => None end) ;;
      load_loop names (if skip then loaded else loaded + 1)%N (skipped || skip)
    else load_loop names loaded skipped
  end.

(** [load]. *)
Definition load : Op (result IoError N) :=
  migrate_legacy_file ;;?!
  sys ;;?!
  w <-! gets (λ w, w) ;;
  r <-?! load_loop (read_dir (visible (disk w))) 0 false ;;
  modify (with_load_skipped (snd r)) ;;! ret (Ok (fst r)).

(** [Registry::new], in a process that finds the disk as it is. *)
Definition new_registry (w : World) : World :=
  {| now := now w; heap := ∅; deps := ∅; routers := ∅; deployments := ∅; index := build ∅;
     retired_discovery := ∅; staged := ∅; load_skipped := false; disk := disk w; next := next w; faults := faults w |}.

(** The start of [main]: load, refuse to start on an incomplete load, sweep. *)
Definition start_up : Op (result IoError unit) :=
  modify new_registry ;;!
  load ;;?!
  w <-! gets (λ w, w) ;;
  match require_complete_load w with
  | Err e => ret (Err e)
  | Ok _ => _ <-! sweep_orphan_state ;; ret (Ok tt)
  end.

(** ** What an operation leaves alone *)

Lemma bind_Some {A B} (m : Op A) (k : A → Op B) w r :
  bind m k w = Some r ↔ ∃ a w1, m w = Some (a, w1) ∧ k a w1 = Some r.
Proof.
  unfold bind. destruct (m w) as [[a w1]|]; cbn; [|split; [done|by intros (? & ? & [=] & _)]].
  split; [by exists a, w1|]. by intros (? & ? & [= -> ->] & ?).
Qed.

Lemma try_Some {E A B} (m : Op (result E A)) (k : A → Op (result E B)) w r w' :
  try m k w = Some (r, w') ↔
  ∃ x w1, m w = Some (x, w1) ∧ match x with Ok a => k a w1 = Some (r, w') | Err e => r = Err e ∧ w' = w1 end.
Proof.
  unfold try. rewrite bind_Some. split; intros (x & w1 & H & H'); exists x, w1; (split; [done|]); destruct x; try done.
  - by injection H' as <- <-.
  - by destruct H' as [-> ->].
Qed.

Lemma ret_Some {A} (a : A) w b w' : ret a w = Some (b, w') ↔ b = a ∧ w' = w.
Proof. unfold ret. split; [by intros [= -> ->]|by intros [-> ->]]. Qed.
Lemma gets_Some {A} (f : World → A) w b w' : gets f w = Some (b, w') ↔ b = f w ∧ w' = w.
Proof. unfold gets. split; [by intros [= -> ->]|by intros [-> ->]]. Qed.
Lemma modify_Some f w (b : unit) w' : modify f w = Some (b, w') ↔ w' = f w.
Proof. unfold modify. destruct b. split; [by intros [= ->]|by intros ->]. Qed.
Lemma deref_Some l w d w' : deref l w = Some (d, w') ↔ deps w !! l = Some d ∧ w' = w.
Proof. unfold deref. destruct (deps w !! l); cbn; [|split; [done|by intros [[=] _]]]. split; [by intros [= -> ->]|by intros [[= ->] ->]]. Qed.
Lemma expect_Some {A} (o : option A) w a w' : expect o w = Some (a, w') ↔ o = Some a ∧ w' = w.
Proof. unfold expect. destruct o; cbn; [|split; [done|by intros [[=] _]]]. split; [by intros [= -> ->]|by intros [[= ->] ->]]. Qed.

(** Runs the hypothesis [H] as far as its operations are basic. *)
Ltac run H :=
  repeat first
    [ match type of H with bind _ _ _ = _ => apply bind_Some in H as (? & ? & ?H & H) end
    | match goal with
      | R : ret _ _ = Some _ |- _ => first [apply ret_Some in R as [-> ->] | apply ret_Some in R as [_ ->]]
      | R : gets _ _ = Some _ |- _ => apply gets_Some in R as [-> ->]
      | R : modify _ _ = Some _ |- _ => apply modify_Some in R as ->
      | R : deref _ _ = Some _ |- _ => apply deref_Some in R as [? ->]
      | R : expect _ _ = Some _ |- _ => apply expect_Some in R as [? ->]
      end ].

(** Everything but the backends, the routers and the deployments at [L]. *)
Record quiet (L : nat → Prop) (w w' : World) : Prop := {
  q_deps : ∀ k, ¬ L k → deps w' !! k = deps w !! k;
  q_deployments : deployments w' = deployments w;
  q_index : index w' = index w;
  q_staged : staged w' = staged w;
  q_disk : disk w' = disk w;
  q_skipped : load_skipped w' = load_skipped w;
  q_faults : faults w' = faults w;
  q_next : (next w <= next w')%nat;
}.

Lemma quiet_refl L w : quiet L w w.
Proof. by split. Qed.

Lemma quiet_trans L w1 w2 w3 : quiet L w1 w2 → quiet L w2 w3 → quiet L w1 w3.
Proof. intros [] []. split; try congruence; [|lia]. intros k Hk. by rewrite q_deps1, q_deps0. Qed.

Lemma quiet_weaken (L L' : nat → Prop) w w' : (∀ k, L k → L' k) → quiet L w w' → quiet L' w w'.
Proof. intros HL []. split; auto. Qed.

(** Only the location changes that a run allocates. *)
Abbreviation calm := (quiet (λ _, False)).

Lemma calm_quiet L w w' : calm w w' → quiet L w w'.
Proof. apply quiet_weaken. intros _ []. Qed.

Lemma calm_deps w w' : calm w w' → deps w' = deps w.
Proof. intros Hq. apply map_eq. intros k. apply (q_deps _ _ _ Hq). intros []. Qed.

Lemma fresh_calm w n w' : fresh w = Some (n, w') → n = next w ∧ next w' = S n ∧ calm w w' ∧ heap w' = heap w.
Proof. unfold fresh. intros [= <- <-]. split_and!; try done. split; try done. cbn. lia. Qed.

Lemma fresh_list_calm n w ls w' :
  fresh_list n w = Some (ls, w') → ls = seq (next w) n ∧ calm w w' ∧ heap w' = heap w.
Proof.
  revert w ls w'. induction n as [|n IH]; intros w ls w' H; cbn [fresh_list] in H; run H.
  { split_and!; done || apply quiet_refl. }
  apply fresh_calm in H0 as (-> & Hn & Hc & Hh). apply IH in H1 as (-> & Hc' & Hh'). rewrite Hn in *.
  split_and!; [done|by eapply quiet_trans|congruence].
Qed.

Lemma new_deployment_calm s w d w' :
  new_deployment s w = Some (d, w') →
  calm w w' ∧ spec_of d = s ∧ (∃ r, state_of d = initial_state r) ∧ (is_some (regional d) = true → is_some (discovery s) = true).
Proof.
  intros H. unfold new_deployment in H. apply bind_Some in H as (rev & w1 & Hrev & H).
  apply fresh_calm in Hrev as (_ & _ & Hc1 & _).
  apply bind_Some in H as (locs & w2 & Hlocs & H). apply fresh_list_calm in Hlocs as (_ & Hc2 & _).
  apply bind_Some in H as (w3 & w3' & Hw & H). apply gets_Some in Hw as [-> ->].
  apply bind_Some in H as (hp & w4 & Hp & H). apply expect_Some in Hp as [Hp ->].
  apply bind_Some in H as ([] & w5 & Hm & H). apply modify_Some in Hm as ->.
  apply bind_Some in H as (r & w6 & Hr & H). apply ret_Some in H as [-> ->].
  assert (calm (with_heap (fst hp) w2) w6 ∧ (is_some r = true → is_some (discovery s) = true)) as [Hc3 Hrs].
  { destruct (discovery s ≫= ds_regional) as [x|] eqn:Ed.
    - apply bind_Some in Hr as (n & w7 & Hf & Hr). apply fresh_calm in Hf as (-> & _ & Hc & _). run Hr. split.
      + eapply quiet_trans; [exact Hc|]. by split.
      + intros _. by destruct (discovery s).
    - apply ret_Some in Hr as [-> ->]. split; [apply quiet_refl|done]. }
  split; [|split; [done|split; [|done]]].
  - do 2 (eapply quiet_trans; [eassumption|]). eapply quiet_trans; [|exact Hc3]. by split.
  - exists (revision rev). unfold LbPool.new_deployment in Hp. unfold state_of. cbn [base].
    destruct (mapM _ _); [|done]. by injection Hp as <-.
Qed.

Lemma alloc_Some d w l w' :
  alloc d w = Some (l, w') → l = next w ∧ next w' = S l ∧ deps w' = <[l := d]> (deps w) ∧ quiet (λ k, k = l) w w'.
Proof.
  intros H. unfold alloc, store in H. run H. apply fresh_calm in H0 as (-> & Hn & Hc & _). cbn [with_deps deps next].
  split_and!; [done|done|by rewrite (calm_deps _ _ Hc)|]. eapply quiet_trans; [exact (calm_quiet _ _ _ Hc)|].
  split; try done. intros k Hk. apply lookup_insert_ne. intros <-. by apply Hk.
Qed.

Lemma on_pool_Some f l w u w' :
  on_pool f l w = Some (u, w') →
  ∃ d, deps w !! l = Some d ∧ quiet (λ k, k = l) w w' ∧ heap w' = fst (f (heap w) (base d)) ∧
    deps w' !! l = Some {| spec_of := spec_of d; base := snd (f (heap w) (base d)); regional := regional d |}.
Proof.
  intros H. unfold on_pool in H. run H. exists x. split; [done|]. unfold store in H. destruct (f (heap w) (base x)) as [h p].
  run H. cbn [with_deps with_heap deps heap fst snd]. rewrite lookup_insert_eq. split; [|done].
  split; try done. intros k Hk. apply lookup_insert_ne. intros <-. by apply Hk.
Qed.

Lemma set_state_Some l s w u w' :
  set_state l s w = Some (u, w') →
  ∃ d d', deps w !! l = Some d ∧ deps w' !! l = Some d' ∧ quiet (λ k, k = l) w w' ∧
    spec_of d' = spec_of d ∧ regional d' = regional d ∧ state_of d' = s ∧ backends (base d') = backends (base d).
Proof.
  intros (d & Hd & Hq & _ & Hd')%on_pool_Some. exists d. eexists. split; [exact Hd|]. split; [exact Hd'|]. by split_and!.
Qed.

Lemma mutate_state_Some l f w u w' :
  mutate_state l f w = Some (u, w') →
  ∃ d d', deps w !! l = Some d ∧ deps w' !! l = Some d' ∧ quiet (λ k, k = l) w w' ∧
    spec_of d' = spec_of d ∧ regional d' = regional d ∧ state_of d' = f (state_of d) ∧
    backends (base d') = backends (base d).
Proof.
  intros (d & Hd & Hq & _ & Hd')%on_pool_Some. exists d. eexists. split; [exact Hd|]. split; [exact Hd'|].
  split_and!; try done; unfold LbPool.mutate_state, state_of.
  - cbn [base snd]. destruct (decide _) as [->|]; done.
  - cbn [base snd]. destruct (decide _); done.
Qed.

Lemma set_backends_Some l bs w u w' :
  set_backends l bs w = Some (u, w') →
  ∃ d d', deps w !! l = Some d ∧ deps w' !! l = Some d' ∧ quiet (λ k, k = l) w w' ∧
    spec_of d' = spec_of d ∧ regional d' = regional d ∧ state_of d' = state_of d ∧ backends (base d') = bs.
Proof.
  intros (d & Hd & Hq & _ & Hd')%on_pool_Some. exists d. eexists. split; [exact Hd|]. split; [exact Hd'|]. by split_and!.
Qed.

Lemma set_pending_Some l ps w u w' :
  set_pending l ps w = Some (u, w') →
  ∃ d d', deps w !! l = Some d ∧ deps w' !! l = Some d' ∧ quiet (λ k, k = l) w w' ∧
    spec_of d' = spec_of d ∧ regional d' = regional d ∧ state_of d' = state_of d ∧ backends (base d') = backends (base d).
Proof.
  intros (d & Hd & Hq & _ & Hd')%on_pool_Some. exists d. eexists. split; [exact Hd|]. split; [exact Hd'|]. by split_and!.
Qed.

Lemma fence_discovery_removals_calm l us w u w' : fence_discovery_removals l us w = Some (u, w') → calm w w'.
Proof.
  intros H. unfold fence_discovery_removals in H. apply bind_Some in H as (d & w1 & Hd & H). apply deref_Some in Hd as [_ ->].
  apply bind_Some in H as (w2 & w2' & Hw & H). apply gets_Some in Hw as [-> ->].
  set (removed := List.filter _ _) in H. apply bind_Some in H as ([] & w3 & Heach & H).
  assert (calm w w3) as Hc.
  { clear H. clearbody removed. revert w Heach. induction removed as [|b bs IH]; intros w Heach; cbn [each] in Heach; run Heach.
    - apply quiet_refl.
    - eapply quiet_trans; [|by apply IH]. by split. }
  destruct removed; run H; [done|]. eapply quiet_trans; [exact Hc|]. by split.
Qed.

Lemma when_calm b m w u w' : (∀ u w', m w = Some (u, w') → calm w w') → when b m w = Some (u, w') → calm w w'.
Proof. intros Hm. destruct b; cbn [when]; [apply Hm|]. intros [-> ->]%ret_Some. apply quiet_refl. Qed.

(** ** What the operations do *)

Definition router_ok (d : Dep) : Prop := is_some (regional d) = true → is_some (discovery (spec_of d)) = true.

(** Every id leads to a deployment of that id, and the index is the one of their routes. *)
Definition source_of (d : Dep) : RouteSource := {| spec_id := id (spec_of d); spec_routes := routes (spec_of d) |}.
Definition sources (w : World) : gmap string RouteSource := omap (λ l, source_of <$> deps w !! l) (deployments w).

Record ok (w : World) : Prop := {
  ok_dep : ∀ i l, deployments w !! i = Some l → ∃ d, deps w !! l = Some d ∧ id (spec_of d) = i;
  ok_staged : ∀ i l, staged w !! i = Some l → ∃ d, deps w !! l = Some d ∧ id (spec_of d) = i;
  ok_fresh : ∀ l d, deps w !! l = Some d → (l < next w)%nat;
  ok_router : ∀ l d, deps w !! l = Some d → router_ok d;
  ok_index : index w = build (sources w);
}.

Lemma dep_at_get w i : ok w → ∀ l, get i w = Some l → ∃ d, dep_at i w = Some d ∧ deps w !! l = Some d ∧ id (spec_of d) = i.
Proof.
  intros Hw l Hl. destruct (ok_dep _ Hw _ _ Hl) as (d & Hd & Hi). exists d. split_and!; try done.
  unfold dep_at. rewrite Hl. cbn. done.
Qed.

(** A new deployment at the fresh [l], and nothing else. *)
Record creates (l : nat) (d : Dep) (w w' : World) : Prop := {
  c_quiet : quiet (λ k, k = l) w w';
  c_fresh : (next w <= l < next w')%nat;
  c_dep : deps w' !! l = Some d;
  c_router : router_ok d;
}.

Lemma creates_on l d d' w w1 w' :
  creates l d w w1 → quiet (λ k, k = l) w1 w' → deps w' !! l = Some d' → spec_of d' = spec_of d → regional d' = regional d →
  creates l d' w w'.
Proof.
  intros [H1 H2 H3 H4] Hq Hd Hs Hr. split; [by eapply quiet_trans|pose proof (q_next _ _ _ Hq); lia|done|].
  unfold router_ok. by rewrite Hs, Hr.
Qed.

Lemma alloc_creates d w l w0 w' : calm w0 w → router_ok d → alloc d w = Some (l, w') → creates l d w0 w'.
Proof.
  intros Hc Hr (-> & Hn & Hd & Hq)%alloc_Some. pose proof (q_next _ _ _ Hc). split; [|lia| |done].
  - eapply quiet_trans; [exact (calm_quiet _ _ _ Hc)|done].
  - rewrite Hd. apply lookup_insert_eq.
Qed.

Lemma deref_opt_Some o w p w' :
  deref_opt o w = Some (p, w') → w' = w ∧ match o with Some l => ∃ d, deps w !! l = Some d ∧ p = Some d | None => p = None end.
Proof. destruct o as [l|]; cbn [deref_opt]; intros H; run H; [|done]. split; [done|]. by eexists. Qed.

Lemma carried_state_handoff p s st :
  carried_state p s = Some st → ∃ old, p = Some old ∧ retirement st = retirement (state_of old) ∧
    route_handoff st = route_handoff (state_of old).
Proof.
  destruct p as [old|]; [|done]. cbn. destruct (_ && _); [|done]. intros [= <-]. exists old. split; [done|].
  destruct (bool_decide _), (_ || _); done.
Qed.

Lemma scoped_spec_id p s : id (scoped_spec p s) = id s.
Proof. unfold scoped_spec. destruct p as [old|]; [|done]. by destruct (negb _ && _). Qed.

(** [upsert]: a frozen deployment stays as it is; any other is replaced by a new one. *)
Lemma upsert_spec s w l w' :
  ok w → upsert s w = Some (l, w') →
  (retirement_frozen (id s) w = true ∧ get (id s) w = Some l ∧ w' = w) ∨
  (retirement_frozen (id s) w = false ∧
   ∃ w1 d, creates l d w w1 ∧ install (Some l) (id s) w1 = Some (tt, w') ∧
     spec_of d = scoped_spec (dep_at (id s) w) s ∧
     rollouts (state_of d) = (match dep_at (id s) w with Some old => rollouts (state_of old) | None => [] end) ∧
     retirement (state_of d) = None ∧
     (route_handoff (state_of d) = None ∨
      ∃ old, dep_at (id s) w = Some old ∧ route_handoff (state_of d) = route_handoff (state_of old))).
Proof.
  intros Hw H. unfold upsert in H. apply bind_Some in H as (old & w0 & Hold & H). apply gets_Some in Hold as [-> ->].
  apply bind_Some in H as (previous & w0 & Hp & H). apply deref_opt_Some in Hp as [-> Hp].
  assert (previous = dep_at (id s) w) as Hprev.
  { unfold dep_at. destruct (get (id s) w) as [o|]; [|done]. destruct Hp as (d & Hd & ->). cbn. by rewrite Hd. }
  rewrite <- Hprev. set (s' := scoped_spec previous s) in *.
  assert (retirement_frozen (id s) w = match previous with Some d => is_some (retirement (state_of d)) | None => false end) as Hfr
    by (unfold retirement_frozen; by rewrite <- Hprev).
  assert (id s' = id s) as Hid by apply scoped_spec_id.
  destruct (l ← get (id s) w; d ← previous; if is_some (retirement (state_of d)) then Some l else None) as [o|] eqn:Ef.
  { left. apply ret_Some in H as [-> ->]. destruct (get (id s) w) as [l|]; [|done]. cbn in Ef.
    destruct previous as [p|]; [|done]. cbn in Ef, Hfr. rewrite Hfr.
    destruct (is_some (retirement (state_of p))); [|done]. by injection Ef as ->. }
  right. assert (retirement_frozen (id s) w = false ∧ ∀ p, previous = Some p → retirement (state_of p) = None) as [Hnf Hnr].
  { rewrite Hfr. destruct (get (id s) w) as [o|]; [|by rewrite Hp]. destruct Hp as (p & _ & ->). cbn in Ef.
    destruct (retirement (state_of p)) eqn:Er; [done|]. split; [done|]. by intros ? [= <-]. }
  clear Hfr Ef. split; [done|]. cbv zeta in H.
  apply bind_Some in H as ([] & w1 & Hfence & H). apply bind_Some in H as (d & w2 & Hnew & H).
  apply bind_Some in H as (d2 & w3 & Hreg & H). apply bind_Some in H as (l0 & w4 & Halloc & H).
  apply bind_Some in H as ([] & w5 & Hcar & H). apply bind_Some in H as ([] & w6 & Hmut & H).
  apply bind_Some in H as ([] & w7 & Hbs & H). apply bind_Some in H as ([] & w8 & Hinst & H).
  apply ret_Some in H as [-> ->].
  assert (calm w w1) as Hc1.
  { destruct (get (id s) w), previous; try (by apply ret_Some in Hfence as [_ ->]; apply quiet_refl).
    revert Hfence. apply when_calm. intros [] w'. apply fence_discovery_removals_calm. }
  apply new_deployment_calm in Hnew as (Hc2 & Hsp & [rev Hst] & Hrd).
  assert (calm w2 w3 ∧ spec_of d2 = s' ∧ state_of d2 = state_of d ∧ router_ok d2) as (Hc3 & Hsp2 & Hst2 & Hr2).
  { destruct previous as [p|]; [|apply ret_Some in Hreg as [-> ->]; split_and!; [apply quiet_refl|done|done|by unfold router_ok; rewrite Hsp]].
    destruct (bool_decide (namespace _ = _) && bool_decide (discovery _ = _)) eqn:Ed.
    - apply ret_Some in Hreg as [-> ->]. split_and!; [apply quiet_refl|done..|].
      unfold router_ok. cbn [with_regional regional spec_of]. rewrite Hsp. intros Hrp.
      apply andb_true_iff in Ed as [_ Ed%bool_decide_eq_true]. rewrite <- Ed.
      destruct (get (id s) w) as [o|]; [|done]. destruct Hp as (p' & Hp & [= <-]). by apply (ok_router _ Hw _ _ Hp).
    - apply bind_Some in Hreg as ([] & w3' & Hf & Hreg). apply ret_Some in Hreg as [-> ->].
      split_and!; try done; [|by unfold router_ok; rewrite Hsp].
      destruct (regional p); [|apply ret_Some in Hf as [_ ->]; apply quiet_refl].
      apply modify_Some in Hf as ->. by split. }
  apply (alloc_creates _ _ _ w) in Halloc as Hcr; [|by do 2 (eapply quiet_trans; [eassumption|])|done].
  set (good := λ x : Dep, spec_of x = s' ∧ retirement (state_of x) = None ∧
     (route_handoff (state_of x) = None ∨ ∃ old, previous = Some old ∧ route_handoff (state_of x) = route_handoff (state_of old))).
  assert (good d2) as Hg.
  { unfold good. rewrite Hsp2, Hst2, Hst. split_and!; try done. by left. }
  assert (∃ x, creates l0 x w w5 ∧ good x) as (d5 & Hcr5 & Hg5).
  { destruct (carried_state previous s') as [st|] eqn:Ec; [|apply ret_Some in Hcar as [_ ->]; by exists d2].
    apply set_state_Some in Hcar as (x & x' & Hx & Hx' & Hq & Hs & Hr & Hst' & _).
    assert (x = d2) as -> by (rewrite (c_dep _ _ _ _ Hcr) in Hx; congruence).
    exists x'. split; [by eapply creates_on|]. apply carried_state_handoff in Ec as (old & Ho & Hret & Hh).
    unfold good. rewrite Hst', Hs, Hret, Hh. split_and!; [done|by apply Hnr|]. right. by exists old. }
  set (carries := λ x : Dep, rollouts (state_of x) = (match previous with Some old => rollouts (state_of old) | None => [] end)).
  assert (previous = None → carries d5) as Hcar5.
  { intros Hn. unfold carries. rewrite Hn in Hcar |- *. apply ret_Some in Hcar as [_ ->].
    assert (d5 = d2) as -> by (pose proof (c_dep _ _ _ _ Hcr); pose proof (c_dep _ _ _ _ Hcr5); congruence).
    by rewrite Hst2, Hst. }
  assert (∃ x, creates l0 x w w6 ∧ good x ∧ carries x) as (d6 & Hcr6 & Hg6 & Hro6).
  { destruct (get (id s) w) as [o|]; [|apply ret_Some in Hmut as [_ ->]; by exists d5; auto].
    destruct Hp as (p0 & Hp0 & Hprev0).
    apply bind_Some in Hmut as (p & w5' & Hp' & Hmut). apply deref_Some in Hp' as [Hp' ->].
    assert (p = p0) as ->.
    { rewrite (q_deps _ _ _ (c_quiet _ _ _ _ Hcr5)) in Hp'; [congruence|]. intros ->.
      pose proof (ok_fresh _ Hw _ _ Hp0). pose proof (c_fresh _ _ _ _ Hcr5). lia. }
    apply bind_Some in Hmut as (r & w5' & Hr & Hmut). apply fresh_calm in Hr as (_ & _ & Hc & _).
    apply mutate_state_Some in Hmut as (x & x' & Hx & Hx' & Hq & Hs & Hr & Hst' & _).
    rewrite (calm_deps _ _ Hc) in Hx. assert (x = d5) as -> by (rewrite (c_dep _ _ _ _ Hcr5) in Hx; congruence).
    exists x'. split; [|split; [by unfold good; rewrite Hst', Hs|unfold carries; by rewrite Hst', Hprev0]].
    eapply creates_on; [exact Hcr5| |done..]. eapply quiet_trans; [exact (calm_quiet _ _ _ Hc)|done]. }
  assert (∃ x, creates l0 x w w7 ∧ good x ∧ carries x) as (d7 & Hcr7 & Hg7 & Hro7).
  { destruct (get (id s) w) as [o|]; [|apply ret_Some in Hbs as [_ ->]; by exists d6].
    destruct previous as [p|]; [|apply ret_Some in Hbs as [_ ->]; by exists d6].
    destruct (is_static s' && is_static (spec_of p)); [|apply ret_Some in Hbs as [_ ->]; by exists d6].
    cbn [when] in Hbs. run Hbs. apply set_backends_Some in Hbs as (x' & x'' & Hx & Hx' & Hq & Hs & Hr & Hst' & _).
    assert (x' = d6) as -> by (rewrite (c_dep _ _ _ _ Hcr6) in Hx; congruence).
    exists x''. split; [by eapply creates_on|]. unfold good, carries. by rewrite Hst', Hs. }
  exists w7, d7. rewrite <- Hid. destruct Hg7 as (? & ? & ?). by split_and!.
Qed.

Lemma install_Some o i w u w' :
  install o i w = Some (u, w') →
  deps w' = deps w ∧ deployments w' = match o with Some l => <[i := l]> (deployments w) | None => delete i (deployments w) end ∧
  index w' = updated (index w) i (spec_routes <$> sources w !! i)
               (o ≫= λ l, (λ d, routes (spec_of d)) <$> deps w !! l) ∧
  staged w' = staged w ∧ disk w' = disk w ∧ load_skipped w' = load_skipped w ∧ faults w' = faults w ∧ next w' = next w ∧
  heap w' = heap w ∧ retired_discovery w' = retired_discovery w.
Proof.
  unfold install. intros [= <- <-]. split_and!; try done. cbn. do 2 f_equal. unfold sources.
  rewrite lookup_omap. destruct (deployments w !! i) as [l|]; [|done]. cbn. by destruct (deps w !! l).
Qed.

Lemma sources_lookup w i : sources w !! i = (l ← deployments w !! i; source_of <$> deps w !! l).
Proof. unfold sources. by rewrite lookup_omap. Qed.

Lemma sources_ok w : ok w → registry_ok (sources w).
Proof.
  intros Hw i src Hs. rewrite sources_lookup in Hs. destruct (deployments w !! i) as [l|] eqn:El; [|done].
  destruct (ok_dep _ Hw _ _ El) as (d & Hd & <-). cbn in Hs. rewrite Hd in Hs. by injection Hs as <-.
Qed.

Lemma install_keeps_ok o i w u w' :
  ok w → (∀ l, o = Some l → ∃ d, deps w !! l = Some d ∧ id (spec_of d) = i) →
  install o i w = Some (u, w') → ok w'.
Proof.
  intros Hw Ho (Hdeps & Hds & Hidx & Hst & _ & _ & _ & Hn & _)%install_Some. split.
  - intros j l Hj. rewrite Hdeps. rewrite Hds in Hj. destruct o as [k|].
    + apply lookup_insert_Some in Hj as [[<- <-]|[_ Hj]]; [by apply Ho|by apply (ok_dep _ Hw)].
    + apply lookup_delete_Some in Hj as [_ Hj]. by apply (ok_dep _ Hw).
  - intros j l Hj. rewrite Hdeps. rewrite Hst in Hj. by apply (ok_staged _ Hw).
  - rewrite Hdeps, Hn. apply (ok_fresh _ Hw).
  - rewrite Hdeps. apply (ok_router _ Hw).
  - rewrite Hidx, (ok_index _ Hw), updated_build by by apply sources_ok. f_equal. apply map_eq. intros j.
    rewrite sources_lookup, Hds, Hdeps. destruct o as [k|]; cbn.
    + destruct (Ho k eq_refl) as (d & Hd & Hi). rewrite Hd. cbn. destruct (decide (i = j)) as [<-|Hj].
      * rewrite !lookup_insert_eq. cbn. rewrite Hd. cbn. unfold source_of. by rewrite Hi.
      * by rewrite !lookup_insert_ne, sources_lookup by done.
    + destruct (decide (i = j)) as [<-|Hj]; [by rewrite !lookup_delete_eq|].
      by rewrite !lookup_delete_ne, sources_lookup by done.
Qed.

(** The specs of the deployments there were, and routers only where discovery is. *)
Lemma ok_change w w' :
  ok w → deployments w' = deployments w → index w' = index w → staged w' = staged w →
  (∀ k d, deps w !! k = Some d → ∃ d', deps w' !! k = Some d' ∧ spec_of d' = spec_of d) →
  (∀ k d, deps w' !! k = Some d → (k < next w')%nat ∧ router_ok d) → ok w'.
Proof.
  intros Hw H1 H2 H3 H4 H5.
  assert (∀ l d i, deps w !! l = Some d → id (spec_of d) = i → ∃ d', deps w' !! l = Some d' ∧ id (spec_of d') = i) as Hid.
  { intros l d i Hd Hi. destruct (H4 _ _ Hd) as (d' & Hd' & Hs). exists d'. by rewrite Hs. }
  split.
  - intros i l. rewrite H1. intros (d & Hd & Hi)%(ok_dep _ Hw). by eapply Hid.
  - intros i l. rewrite H3. intros (d & Hd & Hi)%(ok_staged _ Hw). by eapply Hid.
  - intros l d Hd. by apply (H5 l d).
  - intros l d Hd. by apply (H5 l d).
  - rewrite H2, (ok_index _ Hw). f_equal. apply map_eq. intros i. rewrite !sources_lookup, H1.
    destruct (deployments w !! i) as [l|] eqn:El; [|done]. cbn. destruct (ok_dep _ Hw _ _ El) as (d & Hd & _).
    destruct (H4 _ _ Hd) as (d' & Hd' & Hs). rewrite Hd, Hd'. cbn. unfold source_of. by rewrite Hs.
Qed.

Lemma creates_ok l d w w' : ok w → creates l d w w' → ok w'.
Proof.
  intros Hw [Hq Hl Hd Hr]. apply (ok_change w); [done|apply Hq..| |].
  - intros k x Hx. exists x. split; [|done]. rewrite (q_deps _ _ _ Hq); [done|].
    intros ->. pose proof (ok_fresh _ Hw _ _ Hx). lia.
  - intros k x Hx. destruct (decide (k = l)) as [->|Hk].
    + assert (x = d) as -> by congruence. split; [lia|done].
    + rewrite (q_deps _ _ _ Hq) in Hx by done. pose proof (ok_fresh _ Hw _ _ Hx).
      split; [lia|by apply (ok_router _ Hw _ _ Hx)].
Qed.

(** A deployment that only changes its state. *)
Definition restates (l : nat) (d d' : Dep) (w w' : World) : Prop :=
  quiet (λ k, k = l) w w' ∧ deps w !! l = Some d ∧ deps w' !! l = Some d' ∧ spec_of d' = spec_of d ∧ regional d' = regional d.

Lemma restates_ok l d d' w w' : ok w → restates l d d' w w' → ok w'.
Proof.
  intros Hw (Hq & Hd & Hd' & Hs & Hr). apply (ok_change w); [done|apply Hq..| |].
  - intros k x Hx. destruct (decide (k = l)) as [->|Hk]; [exists d'; split; congruence|].
    exists x. by rewrite (q_deps _ _ _ Hq).
  - pose proof (q_next _ _ _ Hq). intros k x Hx. destruct (decide (k = l)) as [->|Hk].
    + assert (x = d') as -> by congruence. pose proof (ok_fresh _ Hw _ _ Hd). split; [lia|].
      unfold router_ok. rewrite Hs, Hr. by apply (ok_router _ Hw _ _ Hd).
    + rewrite (q_deps _ _ _ Hq) in Hx by done. pose proof (ok_fresh _ Hw _ _ Hx). split; [lia|].
      by apply (ok_router _ Hw _ _ Hx).
Qed.

Lemma calm_ok w w' : ok w → calm w w' → ok w'.
Proof.
  intros Hw Hq. pose proof (q_next _ _ _ Hq). apply (ok_change w); [done|apply Hq..| |]; rewrite (calm_deps _ _ Hq).
  - intros k x Hx. by exists x.
  - intros k x Hx. pose proof (ok_fresh _ Hw _ _ Hx). split; [lia|]. by apply (ok_router _ Hw _ _ Hx).
Qed.

(** Persistence changes the disk and uses up faults. *)
Lemma disk_ok w d fs : ok w → ok (with_disk d (with_faults fs w)).
Proof. by intros []. Qed.

Lemma update_spec s w o w' :
  ok w → update s w = Some (o, w') →
  (o = None ∧ w' = w) ∨
  ∃ l old w1 d, o = Some l ∧ dep_at (id s) w = Some old ∧ retirement (state_of old) = None ∧
    creates l d w w1 ∧ install (Some l) (id s) w1 = Some (tt, w') ∧ spec_of d = s ∧
    rollouts (state_of d) = rollouts (state_of old) ∧ retirement (state_of d) = None ∧ route_handoff (state_of d) = route_handoff (state_of old) ∧
    backends (base d) = backends (base old).
Proof.
  intros Hw H. unfold update in H. apply bind_Some in H as (old & w0 & Hold & H). apply gets_Some in Hold as [-> ->].
  destruct (get (id s) w) as [l0|] eqn:Eg; [|apply ret_Some in H as [-> ->]; by left].
  destruct (dep_at_get _ _ Hw _ Eg) as (p & Hat & Hp & _).
  apply bind_Some in H as (p' & w0 & Hp' & H). apply deref_Some in Hp' as [Hp' ->].
  assert (p' = p) as -> by congruence. clear Hp'.
  destruct (retirement (state_of p)) eqn:Er; cbn [is_some] in H; [apply ret_Some in H as [-> ->]; by left|]. right.
  apply bind_Some in H as (d & w1 & Hnew & H). apply new_deployment_calm in Hnew as (Hc & Hsp & [rev Hst] & Hrd).
  apply bind_Some in H as (l & w2 & Halloc & H).
  apply (alloc_creates _ _ _ w) in Halloc as Hcr; [|done|by unfold router_ok; rewrite Hsp].
  apply bind_Some in H as ([] & w3 & Hset & H).
  apply set_state_Some in Hset as (x & d3 & Hy3 & Hx3 & Hq3 & Hs3 & Hr3 & Hst3 & _).
  assert (x = d) as -> by (rewrite (c_dep _ _ _ _ Hcr) in Hy3; congruence).
  pose proof (creates_on _ _ _ _ _ _ Hcr Hq3 Hx3 Hs3 Hr3) as Hcr3.
  apply bind_Some in H as (r & w3' & Hr & H). apply fresh_calm in Hr as (_ & _ & Hc3 & _).
  apply bind_Some in H as ([] & w4 & Hmut & H).
  apply mutate_state_Some in Hmut as (x & d4 & Hy4 & Hx4 & Hq4 & Hs4 & Hr4 & Hst4 & _).
  rewrite (calm_deps _ _ Hc3) in Hy4. assert (x = d3) as -> by congruence.
  assert (creates l d4 w w4) as Hcr4.
  { apply (creates_on _ d3 _ _ w3); try done. eapply quiet_trans; [exact (calm_quiet _ _ _ Hc3)|done]. }
  apply bind_Some in H as ([] & w5 & Hbs & H).
  apply set_backends_Some in Hbs as (x & d5 & Hy5 & Hx5 & Hq5 & Hs5 & Hr5 & Hst5 & Hb5).
  assert (x = d4) as -> by congruence. pose proof (creates_on _ _ _ _ _ _ Hcr4 Hq5 Hx5 Hs5 Hr5) as Hcr5.
  apply bind_Some in H as ([] & w6 & Hps & H).
  apply set_pending_Some in Hps as (x & d6 & Hy6 & Hx6 & Hq6 & Hs6 & Hr6 & Hst6 & Hb6).
  assert (x = d5) as -> by congruence. pose proof (creates_on _ _ _ _ _ _ Hcr5 Hq6 Hx6 Hs6 Hr6) as Hcr6.
  apply bind_Some in H as ([] & w7 & Hinst & H). apply ret_Some in H as [-> ->].
  exists l, p, w6, d6. split_and!; try done; [congruence| | | |congruence].
  - rewrite Hst6, Hst5, Hst4, Hst3. done.
  - rewrite Hst6, Hst5, Hst4, Hst3. done.
  - rewrite Hst6, Hst5, Hst4, Hst3. done.
Qed.

Lemma remove_spec i w o w' :
  ok w → remove i w = Some (o, w') →
  (o = None ∧ w' = w) ∨
  ∃ l d w1, o = Some l ∧ dep_at i w = Some d ∧ get i w = Some l ∧ retirement (state_of d) = None ∧
    calm w w1 ∧ install None i w1 = Some (tt, w').
Proof.
  intros Hw H. unfold remove in H. apply bind_Some in H as (old & w0 & Hold & H). apply gets_Some in Hold as [-> ->].
  destruct (get i w) as [l|] eqn:Eg; [|apply ret_Some in H as [-> ->]; by left].
  destruct (dep_at_get _ _ Hw _ Eg) as (p & Hat & Hp & _).
  apply bind_Some in H as (p' & w0 & Hp' & H). apply deref_Some in Hp' as [Hp' ->].
  assert (p' = p) as -> by congruence.
  destruct (retirement (state_of p)) eqn:Er; cbn [is_some] in H; [apply ret_Some in H as [-> ->]; by left|].
  destruct (existsb _ _); [apply ret_Some in H as [-> ->]; by left|]. right.
  apply bind_Some in H as ([] & w1 & Hf & H). apply bind_Some in H as ([] & w2 & Hi & H). apply ret_Some in H as [-> ->].
  exists l, p, w1. split_and!; try done. revert Hf. apply when_calm. intros [] w3. apply fence_discovery_removals_calm.
Qed.

Lemma publish_spec l w u w' :
  publish l w = Some (u, w') →
  ∃ d, deps w !! l = Some d ∧
    (w' = w ∨ retirement_frozen (id (spec_of d)) w = false ∧ install (Some l) (id (spec_of d)) w = Some (tt, w')).
Proof.
  intros H. unfold publish in H. apply bind_Some in H as (d & w0 & Hd & H). apply deref_Some in Hd as [Hd ->].
  apply bind_Some in H as (w1 & w1' & Hw & H). apply gets_Some in Hw as [-> ->]. exists d. split; [done|].
  destruct (retirement_frozen _ w) eqn:Ef; [apply ret_Some in H as [_ ->]; by left|]. right. by destruct u.
Qed.

(** *** Writing *)

Definition on_file (k : Disk → Disk) (w w' : World) : Prop := ∃ fs, w' = with_disk (k (disk w)) (with_faults fs w).

Lemma on_file_trans k1 k2 w1 w2 w3 : on_file k1 w1 w2 → on_file k2 w2 w3 → on_file (λ d, k2 (k1 d)) w1 w3.
Proof. intros [fs ->] [fs' ->]. by exists fs'. Qed.
Lemma on_file_disk k w u w' : on_disk k w = Some (u, w') → on_file k w w'.
Proof. unfold on_disk. intros ->%modify_Some. exists (faults w). by destruct w. Qed.
Lemma on_file_ok k w w' : ok w → on_file k w w' → ok w'.
Proof. intros Hw [fs ->]. by apply disk_ok. Qed.

Lemma sys_Some w r w' : sys w = Some (r, w') → on_file (λ d, d) w w'.
Proof.
  unfold sys. destruct (faults w) as [|[] fs] eqn:E; intros [= <- <-].
  - exists []. rewrite <- E. by destruct w.
  - by exists fs.
  - by exists fs.
Qed.

(** The record of a deployment, and what a failure leaves of writing it. *)
Definition record_file (d : Dep) (s : State) : Disk → Disk :=
  link_file (state_file_name (id (spec_of d))) (encode (spec_of d) s).

Lemma sys_then {A} (m : Op (result IoError A)) w r w' :
  (sys ;;?! m) w = Some (r, w') →
  (∃ e, r = Err e ∧ on_file (λ d, d) w w') ∨ ∃ w1, on_file (λ d, d) w w1 ∧ m w1 = Some (r, w').
Proof.
  intros (x & w1 & Hs & H)%try_Some. apply sys_Some in Hs. destruct x as [[]|e]; [right; by exists w1|left].
  destruct H as [-> ->]. by exists e.
Qed.

Ltac chain := first [eassumption | eapply on_file_trans; [eassumption|chain]].

Lemma persist_snapshot_Some d s w r w' :
  persist_snapshot d s w = Some (r, w') →
  ∃ k, on_file k w w' ∧
    match r with Ok _ => k = λ x, sync_dir (record_file d s x)
            | Err _ => k = (λ x, x) ∨ k = record_file d s end.
Proof.
  intros H. unfold persist_snapshot in H.
  do 5 (apply sys_then in H as [(e & -> & ?He)|(?w & ?Hf & H)];
        [eexists; split; [chain|by left]|]).
  apply bind_Some in H as ([] & w6 & Hl & H). apply on_file_disk in Hl.
  fold (record_file d s) in Hl.
  apply sys_then in H as [(e & -> & Hf')|(w7 & Hf' & H)].
  { eexists. split; [chain|by right]. }
  apply bind_Some in H as ([] & w8 & Hy & H). apply on_file_disk in Hy. apply ret_Some in H as [-> ->].
  eexists. split; [chain|done].
Qed.

(** *** Handoffs *)

Lemma io_Some {A} (m : Op (result IoError A)) w r w' :
  io m w = Some (r, w') ↔
  ∃ x, m w = Some (x, w') ∧ r = match x with Ok a => Ok a | Err e => Err (Io e) end.
Proof.
  unfold io. rewrite bind_Some. split.
  - intros (x & w1 & Hm & H). apply ret_Some in H as [-> ->]. by exists x.
  - intros (x & Hm & ->). by exists x, w'.
Qed.

(** Goes past one fallible step of [H]; a failing one leaves the world alone. *)
Lemma some_or_Some {A B} e (m : Op (option A)) (f : World → option A) (k : A → Op (result HandoffError B)) w r w' :
  (∀ w, m w = Some (f w, w)) →
  try (o <-! m ;; some_or e o) k w = Some (r, w') →
  (r = Err e ∧ w' = w) ∨ ∃ a, f w = Some a ∧ k a w = Some (r, w').
Proof.
  intros Hm (x & w1 & H & H')%try_Some. apply bind_Some in H as (o & w2 & H1 & H). rewrite Hm in H1.
  injection H1 as <- <-. apply ret_Some in H as [-> ->]. destruct (f w) as [a|]; [right; by exists a|left].
  by destruct H' as [-> ->].
Qed.

Lemma pure_Some {A B} (x : result HandoffError A) (k : A → Op (result HandoffError B)) w r w' :
  try (ret x) k w = Some (r, w') →
  (∃ e, x = Err e ∧ r = Err e ∧ w' = w) ∨ ∃ a, x = Ok a ∧ k a w = Some (r, w').
Proof.
  intros (y & w1 & H & H')%try_Some. apply ret_Some in H as [-> ->]. destruct x as [a|e]; [right; by exists a|left].
  exists e. by destruct H' as [-> ->].
Qed.

Lemma check_Some {B} b (k : unit → Op (result HandoffError B)) w r w' :
  try (check b) k w = Some (r, w') → (r = Err Conflict ∧ w' = w) ∨ b = true ∧ k tt w = Some (r, w').
Proof.
  intros [(e & He & -> & ->)|([] & He & H)]%pure_Some; destruct b; try done; [left|right]; [by injection He as <-|done].
Qed.

Lemma persist_then {B} d s (k : unit → Op (result HandoffError B)) w r w' :
  try (io (persist_snapshot d s)) k w = Some (r, w') →
  (∃ e f, r = Err (Io e) ∧ on_file f w w' ∧ (f = (λ x, x) ∨ f = record_file d s)) ∨
  ∃ w1, on_file (λ x, sync_dir (record_file d s x)) w w1 ∧ k tt w1 = Some (r, w').
Proof.
  intros (x & w1 & (y & Hp & ->)%io_Some & H)%try_Some. apply persist_snapshot_Some in Hp as (f & Hf & Hk).
  destruct y as [[]|e]; [right|left].
  - subst f. by exists w1.
  - destruct H as [-> ->]. by exists e, f.
Qed.

Lemma on_file_deps k w w' : on_file k w w' → deps w' = deps w ∧ deployments w' = deployments w ∧ staged w' = staged w ∧
  heap w' = heap w ∧ next w' = next w ∧ routers w' = routers w ∧ now w' = now w ∧ index w' = index w ∧
  load_skipped w' = load_skipped w ∧ disk w' = k (disk w).
Proof. by intros [fs ->]. Qed.

Lemma set_state_restates l s w u w' :
  set_state l s w = Some (u, w') → ∃ d d', restates l d d' w w' ∧ state_of d' = s ∧ backends (base d') = backends (base d).
Proof. intros (d & d' & ? & ? & ? & ? & ? & ? & ?)%set_state_Some. exists d, d'. by split_and!. Qed.

(** The record a handoff starts with. *)
Definition new_record (operation expected : string) (s : DeploymentSpec) : RouteHandoffRecord :=
  {| rh_operation_id := operation; predecessor_fingerprint := expected; staged_fingerprint := spec_fingerprint s;
     staged_spec := s; phase := Preparing; prepared_boot_id := None; prepared_version := None |}.

Lemma prepare_spec operation expected s w r w' :
  ok w → prepare_handoff operation expected s w = Some (r, w') →
  (w' = w ∧ ∀ rec, r = Ok rec → ∃ d, dep_at (id s) w = Some d ∧ route_handoff (state_of d) = Some rec) ∨
  ∃ l d, get (id s) w = Some l ∧ deps w !! l = Some d ∧ route_handoff (state_of d) = None ∧
    spec_fingerprint (spec_of d) = expected ∧ validate_handoff (spec_of d) s = true ∧
    let rec := new_record operation expected s in
    let next := with_handoff (Some rec) (state_of d) in
    (∃ e f, r = Err (Io e) ∧ on_file f w w' ∧ (f = (λ x, x) ∨ f = record_file d next)) ∨
    ∃ w1 d2 w2 sl sd w3, r = Ok rec ∧ on_file (λ x, sync_dir (record_file d next x)) w w1 ∧
      restates l d d2 w1 w2 ∧ state_of d2 = next ∧ creates sl sd w2 w3 ∧ spec_of sd = s ∧
      (∃ rev, state_of sd = initial_state rev) ∧ w' = with_staged (<[id s := sl]> (staged w3)) w3.
Proof.
  intros Hw H. unfold prepare_handoff in H.
  apply (some_or_Some _ _ (get (id s)) _ _ _ _ (λ _, eq_refl)) in H as [[-> ->]|(l & Hl & H)]; [left; by split|].
  destruct (dep_at_get _ _ Hw _ Hl) as (d & Hat & Hd & _).
  apply bind_Some in H as (d' & w0 & Hd' & H). apply deref_Some in Hd' as [Hd' ->].
  assert (d' = d) as -> by congruence. cbv zeta in H.
  destruct (route_handoff (state_of d)) as [existing|] eqn:Eh.
  { left. destruct (_ && _); apply ret_Some in H as [-> ->]; (split; [done|]); [|done].
    intros rec [= <-]. by exists d. }
  apply check_Some in H as [[-> ->]|[Hfp%String.eqb_eq H]]; [by left|].
  apply check_Some in H as [[-> ->]|[Hv H]]; [by left|]. right. exists l, d.
  split; [done|]. split; [done|]. split; [done|]. split; [done|]. split; [done|]. cbv zeta.
  fold (new_record operation expected s) in H. apply persist_then in H as [(e & f & -> & Hf)|(w1 & Hf & H)]; [left; by exists e, f|].
  right. apply bind_Some in H as ([] & w2 & Hset & H). apply set_state_restates in Hset as (x & d2 & Hre & Hst & _).
  assert (x = d) as ->.
  { destruct Hre as (_ & Hx & _). destruct (on_file_deps _ _ _ Hf) as [Hdeps _]. rewrite Hdeps in Hx. congruence. }
  apply bind_Some in H as (n & w3 & Hnew & H). apply new_deployment_calm in Hnew as (Hc & Hsp & Hin & Hrd).
  apply bind_Some in H as (sl & w4 & Halloc & H).
  apply (alloc_creates _ _ _ w2) in Halloc; [|done|by unfold router_ok; rewrite Hsp].
  apply bind_Some in H as ([] & w5 & Hstage & H). apply modify_Some in Hstage as ->. apply ret_Some in H as [-> ->].
  exists w1, d2, w2, sl, n, w4. by split_and!.
Qed.

Definition mark_record (p : Preparation) (r : RouteHandoffRecord) : RouteHandoffRecord :=
  {| rh_operation_id := rh_operation_id r; predecessor_fingerprint := predecessor_fingerprint r;
     staged_fingerprint := staged_fingerprint r; staged_spec := staged_spec r; phase := Prepared;
     prepared_boot_id := Some (pn_boot_id p); prepared_version := Some (pn_version p) |}.

Lemma mark_handoff_spec i w r w' :
  ok w → mark_handoff_prepared i w = Some (r, w') →
  (w' = w ∧ is_ok r = false) ∨
  ∃ l d sl s p rec, get i w = Some l ∧ deps w !! l = Some d ∧ staged w !! i = Some sl ∧ deps w !! sl = Some s ∧
    evidence_of s w = Some p ∧ route_handoff (state_of d) = Some rec ∧ pn_operation_id p = rh_operation_id rec ∧
    let next := with_handoff (Some (mark_record p rec)) (state_of d) in
    (∃ e f, r = Err (Io e) ∧ on_file f w w' ∧ (f = (λ x, x) ∨ f = record_file d next)) ∨
    ∃ w1 d2, r = Ok (mark_record p rec) ∧ on_file (λ x, sync_dir (record_file d next x)) w w1 ∧
      restates l d d2 w1 w' ∧ state_of d2 = next.
Proof.
  intros Hw H. unfold mark_handoff_prepared in H.
  apply (some_or_Some _ _ (get i) _ _ _ _ (λ _, eq_refl)) in H as [[-> ->]|(l & Hl & H)]; [left; by split|].
  destruct (dep_at_get _ _ Hw _ Hl) as (d & Hat & Hd & _).
  apply bind_Some in H as (d' & w0 & Hd' & H). apply deref_Some in Hd' as [Hd' ->].
  assert (d' = d) as -> by congruence.
  apply (some_or_Some _ _ (λ w, staged w !! i) _ _ _ _ (λ _, eq_refl)) in H as [[-> ->]|(sl & Hsl & H)]; [left; by split|].
  apply bind_Some in H as (s & w0 & Hs & H). apply deref_Some in Hs as [Hs ->].
  apply (some_or_Some _ _ (evidence_of s) _ _ _ _ (λ _, eq_refl)) in H as [[-> ->]|(p & Hp & H)]; [left; by split|].
  apply pure_Some in H as [(e & _ & -> & ->)|(rec & Hrec & H)]; [left; by split|].
  assert (route_handoff (state_of d) = Some rec) as Hh by (destruct (route_handoff (state_of d)); [by injection Hrec as ->|done]).
  apply check_Some in H as [[-> ->]|[Hop%String.eqb_eq H]]; [left; by split|]. cbv zeta in H.
  right. exists l, d, sl, s, p, rec. do 7 (split; [done|]). cbv zeta. fold (mark_record p rec) in H.
  apply persist_then in H as [(e & f & -> & Hf)|(w1 & Hf & H)]; [left; by exists e, f|]. right.
  apply bind_Some in H as ([] & w2 & Hset & H). apply ret_Some in H as [-> ->].
  apply set_state_restates in Hset as (x & d2 & Hre & Hst & _). assert (x = d) as ->.
  { destruct Hre as (_ & Hx & _). destruct (on_file_deps _ _ _ Hf) as [Hdeps _]. rewrite Hdeps in Hx. congruence. }
  exists w1, d2. by split_and!.
Qed.

(** *** Withdrawn backends *)

(** The backends of a deployment whose address is not among [us]. *)
Definition withdrawn (us : list string) (d : Dep) (h : Heap) : list nat :=
  List.filter (λ b, match h !! b with Some x => negb (bool_decide (peer x ∈ us)) | None => false end) (backends (base d)).
Definition busy (h : Heap) (b : nat) : bool := match h !! b with Some x => negb (in_flight x =? 0)%Z | None => false end.
Definition drain_all (bs : list nat) (h : Heap) : Heap := foldl (λ h b, alter (λ x, set_draining x true) b h) h bs.

Lemma drain_all_lookup bs h b :
  drain_all bs h !! b = (λ x, if bool_decide (b ∈ bs) then set_draining x true else x) <$> h !! b.
Proof.
  revert h. induction bs as [|c bs IH]; intros h; cbn [drain_all foldl].
  { change (bool_decide (b ∈ [])) with false. by destruct (h !! b). }
  fold (drain_all bs (alter (λ x, set_draining x true) c h)). rewrite IH.
  destruct (decide (c = b)) as [->|Hc].
  - rewrite lookup_alter_eq, (bool_decide_eq_true_2 (b ∈ b :: bs)) by by left.
    destruct (h !! b); cbn; [|done]. by destruct (bool_decide _).
  - rewrite lookup_alter_ne by done. apply option_fmap_ext. intros x.
    rewrite (bool_decide_ext (b ∈ c :: bs) (b ∈ bs)); [done|]. rewrite elem_of_cons. split; [by intros [->|]|by right].
Qed.

Lemma fence_discovery_removals_spec l us w u w' :
  fence_discovery_removals l us w = Some (u, w') →
  ∃ d, deps w !! l = Some d ∧
    let gone := withdrawn us d (heap w) in
    heap w' = drain_all gone (heap w) ∧ routers w' = routers w ∧ now w' = now w ∧
    retired_discovery w' =
      match gone with
      | [] => retired_discovery w
      | _ => <[id (spec_of d) :=
                List.filter (busy (heap w')) (default [] (retired_discovery w !! id (spec_of d))) ++ gone]>
              (retired_discovery w)
      end.
Proof.
  intros H. unfold fence_discovery_removals in H. apply bind_Some in H as (d & w1 & Hd & H). apply deref_Some in Hd as [Hd ->].
  apply bind_Some in H as (w2 & w2' & Hw & H). apply gets_Some in Hw as [-> ->]. exists d. split; [done|]. cbv zeta in *.
  fold (withdrawn us d (heap w)) in H. set (gone := withdrawn us d (heap w)) in *.
  apply bind_Some in H as ([] & w3 & Heach & H).
  assert (w3 = with_heap (drain_all gone (heap w)) w) as ->.
  { clear H Hd. clearbody gone. revert w Heach. induction gone as [|b bs IH]; intros w Heach; cbn [each] in Heach.
    - apply ret_Some in Heach as [_ ->]. by destruct w.
    - apply bind_Some in Heach as ([] & w4 & Hm & Heach). apply modify_Some in Hm as ->. by rewrite (IH _ Heach). }
  destruct gone; [apply ret_Some in H as [_ ->]; done|]. by apply modify_Some in H as ->.
Qed.

Definition commit_record (r : RouteHandoffRecord) : RouteHandoffRecord :=
  {| rh_operation_id := rh_operation_id r; predecessor_fingerprint := predecessor_fingerprint r;
     staged_fingerprint := staged_fingerprint r; staged_spec := staged_spec r; phase := Committed;
     prepared_boot_id := prepared_boot_id r; prepared_version := prepared_version r |}.
Definition commit_state (p : Preparation) (r : RouteHandoffRecord) (s : Dep) : State :=
  with_discovery (Some (Z.of_N (pn_version p))) (discovery_source_url (state_of s))
    (with_handoff (Some (commit_record r)) (state_of s)).

(** What a commit requires. *)
Record committable (i operation : string) (w : World) (l sl : nat) (d s : Dep) (p : Preparation)
    (rec : RouteHandoffRecord) : Prop := {
  cm_get : get i w = Some l;
  cm_dep : deps w !! l = Some d;
  cm_record : route_handoff (state_of d) = Some rec;
  cm_operation : rh_operation_id rec = operation;
  cm_phase : phase rec = Prepared;
  cm_fingerprint : spec_fingerprint (spec_of d) = predecessor_fingerprint rec;
  cm_competing : competing i (staged_spec rec) w = false;
  cm_staged : staged w !! i = Some sl;
  cm_runtime : deps w !! sl = Some s;
  cm_evidence : evidence_of s w = Some p;
  cm_same_operation : pn_operation_id p = rh_operation_id rec;
  cm_boot : prepared_boot_id rec = Some (pn_boot_id p);
  cm_version : prepared_version rec = Some (pn_version p);
}.

Lemma commit_spec i operation w r w' :
  ok w → commit_handoff i operation w = Some (r, w') →
  (w' = w ∧ match r with
            | Err _ => True
            | Ok rec => phase rec = Committed ∧ rh_operation_id rec = operation ∧
                        ∃ d, dep_at i w = Some d ∧ route_handoff (state_of d) = Some rec
            end) ∨
  ∃ l sl d s p rec, committable i operation w l sl d s p rec ∧
    let next := commit_state p rec s in
    (∃ e f, r = Err (Io e) ∧ on_file f w w' ∧ (f = (λ x, x) ∨ f = record_file s next)) ∨
    ∃ w1 s2 w2 w3 w4, r = Ok (commit_record rec) ∧ on_file (λ x, sync_dir (record_file s next x)) w w1 ∧
      restates sl s s2 w1 w2 ∧ state_of s2 = next ∧ backends (base s2) = backends (base s) ∧
      fence_discovery_removals l [] w2 = Some (tt, w3) ∧ install (Some sl) i w3 = Some (tt, w4) ∧
      w' = with_staged (delete i (staged w4)) w4.
Proof.
  intros Hw H. unfold commit_handoff in H.
  apply (some_or_Some _ _ (get i) _ _ _ _ (λ _, eq_refl)) in H as [[-> ->]|(l & Hl & H)]; [left; by split|].
  destruct (dep_at_get _ _ Hw _ Hl) as (d & Hat & Hd & _).
  apply bind_Some in H as (d' & w0 & Hd' & H). apply deref_Some in Hd' as [Hd' ->].
  assert (d' = d) as -> by congruence.
  apply pure_Some in H as [(e & _ & -> & ->)|(rec & Hrec & H)]; [left; by split|].
  assert (route_handoff (state_of d) = Some rec) as Hh by (destruct (route_handoff (state_of d)); [by injection Hrec as ->|done]).
  apply check_Some in H as [[-> ->]|[Hop%String.eqb_eq H]]; [left; by split|].
  destruct (bool_decide (phase rec = Committed)) eqn:Ec.
  { apply ret_Some in H as [-> ->]. apply bool_decide_eq_true in Ec. left. split; [done|]. by eauto. }
  apply check_Some in H as [[-> ->]|[Hph%bool_decide_eq_true H]]; [left; by split|].
  apply check_Some in H as [[-> ->]|[Hfp%String.eqb_eq H]]; [left; by split|].
  apply try_Some in H as (x & w0 & Hx & H). apply bind_Some in Hx as (w1 & w1' & Hg & Hx).
  apply gets_Some in Hg as [-> ->]. apply ret_Some in Hx as [-> ->].
  destruct (competing i (staged_spec rec) w) eqn:Ecomp; cbn [negb] in H; [destruct H as [-> ->]; left; by split|].
  apply (some_or_Some _ _ (λ w, staged w !! i) _ _ _ _ (λ _, eq_refl)) in H as [[-> ->]|(sl & Hsl & H)]; [left; by split|].
  apply bind_Some in H as (s & w0 & Hs & H). apply deref_Some in Hs as [Hs ->].
  apply (some_or_Some _ _ (evidence_of s) _ _ _ _ (λ _, eq_refl)) in H as [[-> ->]|(p & Hp & H)]; [left; by split|].
  apply check_Some in H as [[-> ->]|[Hpo%String.eqb_eq H]]; [left; by split|].
  apply check_Some in H as [[-> ->]|[Hpb H]]; [left; by split|].
  apply andb_true_iff in Hpb as [Hpb%bool_decide_eq_true Hpv%bool_decide_eq_true]. cbv zeta in H.
  right. exists l, sl, d, s, p, rec. split; [by split|]. cbv zeta.
  fold (commit_record rec) in H. fold (commit_state p rec s) in H.
  apply persist_then in H as [(e & f & -> & Hf)|(w1 & Hf & H)]; [left; by exists e, f|]. right.
  apply bind_Some in H as ([] & w2 & Hset & H). apply set_state_restates in Hset as (x & s2 & Hre & Hst & Hbs).
  assert (x = s) as ->.
  { destruct Hre as (_ & Hx & _). destruct (on_file_deps _ _ _ Hf) as [Hdeps _]. rewrite Hdeps in Hx. congruence. }
  apply bind_Some in H as ([] & w3 & Hfence & H). apply bind_Some in H as ([] & w4 & Hinst & H).
  apply bind_Some in H as ([] & w5 & Hstage & H). apply modify_Some in Hstage as ->. apply ret_Some in H as [-> ->].
  exists w1, s2, w2, w3, w4. by split_and!.
Qed.

Lemma apply_staged_spec old us w o w' :
  ok w → apply_staged_discovery old us w = Some (o, w') →
  (o = None ∧ w' = w) ∨
  ∃ d l n w1, o = Some l ∧ deps w !! old = Some d ∧ staged w !! id (spec_of d) = Some old ∧ creates l n w w1 ∧
    spec_of n = set_upstreams us (spec_of d) ∧ state_of n = state_of d ∧
    w' = with_staged (<[id (spec_of d) := l]> (staged w1)) w1.
Proof.
  intros Hw H. unfold apply_staged_discovery in H. apply bind_Some in H as (d & w0 & Hd & H). apply deref_Some in Hd as [Hd ->].
  apply bind_Some in H as (c & w0 & Hc & H). apply gets_Some in Hc as [-> ->].
  destruct (bool_decide (staged w !! id (spec_of d) = Some old)) eqn:Eb; [|apply ret_Some in H as [-> ->]; by left].
  apply bool_decide_eq_true in Eb. right.
  apply bind_Some in H as (n & w1 & Hnew & H). apply new_deployment_calm in Hnew as (Hcalm & Hsp & _ & _).
  apply bind_Some in H as (l & w2 & Halloc & H). apply (alloc_creates _ _ _ w) in Halloc as Hcr; [|done|].
  2: { unfold router_ok. cbn [with_regional regional spec_of]. rewrite Hsp. intros Hr. by apply (ok_router _ Hw _ _ Hd). }
  apply bind_Some in H as ([] & w3 & Hset & H).
  apply set_state_Some in Hset as (x & n3 & Hy3 & Hx3 & Hq3 & Hs3 & Hr3 & Hst3 & _).
  assert (x = with_regional (regional d) n) as -> by (rewrite (c_dep _ _ _ _ Hcr) in Hy3; congruence).
  apply bind_Some in H as ([] & w4 & Hstage & H). apply modify_Some in Hstage as ->. apply ret_Some in H as [-> ->].
  exists d, l, n3, w3. split_and!; try done; [by eapply creates_on|rewrite Hs3; exact Hsp].
Qed.

(** ** The invariant *)

(** A handoff names the deployment it is for, and leads from a discovered one to another. *)
Definition handoff_ok (s : DeploymentSpec) (st : State) : Prop :=
  ∀ rec, route_handoff st = Some rec →
    id (staged_spec rec) = id s ∧ is_some (discovery (staged_spec rec)) = true ∧
    ∃ p, is_some (discovery p) = true ∧ predecessor_fingerprint rec = spec_fingerprint p.

Definition disk_good (dk : Disk) : Prop :=
  ∀ f bytes s st, visible dk !! f = Some bytes ∨ durable dk !! f = Some bytes → decode bytes = Some (s, st) →
    f = state_file_name (id s) ∧ handoff_ok s st.

Record inv (w : World) : Prop := {
  inv_ok : ok w;
  inv_handoff : ∀ l d, deps w !! l = Some d → handoff_ok (spec_of d) (state_of d);
  inv_disk : disk_good (disk w);
}.

Lemma handoff_ok_same s s' st st' : id s' = id s → route_handoff st' = route_handoff st → handoff_ok s st → handoff_ok s' st'.
Proof. unfold handoff_ok. intros -> ->. done. Qed.
Lemma handoff_ok_none s st : route_handoff st = None → handoff_ok s st.
Proof. by intros Hn rec; rewrite Hn. Qed.

Lemma inv_calm w w' : inv w → calm w w' → inv w'.
Proof.
  intros [H1 H2 H3] Hc. split; [by eapply calm_ok|by rewrite (calm_deps _ _ Hc)|by rewrite (q_disk _ _ _ Hc)].
Qed.

Lemma inv_creates l d w w' : inv w → creates l d w w' → handoff_ok (spec_of d) (state_of d) → inv w'.
Proof.
  intros [H1 H2 H3] Hc Hh. split; [by eapply creates_ok| |by rewrite (q_disk _ _ _ (c_quiet _ _ _ _ Hc))].
  intros k x Hx. destruct (decide (k = l)) as [->|Hk]; [rewrite (c_dep _ _ _ _ Hc) in Hx; by injection Hx as <-|].
  rewrite (q_deps _ _ _ (c_quiet _ _ _ _ Hc)) in Hx by done. by apply (H2 k).
Qed.

Lemma inv_restates l d d' w w' : inv w → restates l d d' w w' → handoff_ok (spec_of d') (state_of d') → inv w'.
Proof.
  intros [H1 H2 H3] Hr Hh. split; [by eapply restates_ok| |]; destruct Hr as (Hq & Hd & Hd' & Hs & _).
  - intros k x Hx. destruct (decide (k = l)) as [->|Hk]; [rewrite Hd' in Hx; by injection Hx as <-|].
    rewrite (q_deps _ _ _ Hq) in Hx by done. by apply (H2 k).
  - by rewrite (q_disk _ _ _ Hq).
Qed.

Lemma inv_install o i w u w' :
  inv w → (∀ l, o = Some l → ∃ d, deps w !! l = Some d ∧ id (spec_of d) = i) →
  install o i w = Some (u, w') → inv w'.
Proof.
  intros [H1 H2 H3] Ho Hi. split; [by eapply install_keeps_ok| |];
    apply install_Some in Hi as (Hd & _ & _ & _ & Hk & _); [by rewrite Hd|by rewrite Hk].
Qed.

Lemma inv_on_file k w w' : inv w → on_file k w w' → disk_good (k (disk w)) → inv w'.
Proof. intros [H1 H2 H3] Hf Hk. split; [by eapply on_file_ok|by destruct Hf as [fs ->]..]. Qed.

Lemma inv_stage l d i w :
  inv w → deps w !! l = Some d → id (spec_of d) = i → inv (with_staged (<[i := l]> (staged w)) w).
Proof.
  intros [[H1 H2 H3 H4 H5] H6 H7] Hd Hi. split; [|done|done]. split; try done.
  intros j k Hj. cbn in Hj. apply lookup_insert_Some in Hj as [[<- <-]|[_ Hj]]; [by exists d|by apply H2].
Qed.

Lemma inv_unstage i w : inv w → inv (with_staged (delete i (staged w)) w).
Proof.
  intros [[H1 H2 H3 H4 H5] H6 H7]. split; [|done|done]. split; try done.
  intros j k Hj. cbn in Hj. apply lookup_delete_Some in Hj as [_ Hj]. by apply H2.
Qed.

Lemma good_record d s dk : disk_good dk → handoff_ok (spec_of d) s → disk_good (record_file d s dk).
Proof.
  intros Hk Hs f bytes s' st Hf Hdec. unfold record_file, link_file in Hf. cbn [visible durable] in Hf.
  assert (bytes = encode (spec_of d) s ∧ f = state_file_name (id (spec_of d)) ∨
          (visible dk !! f = Some bytes ∨ durable dk !! f = Some bytes)) as [[-> ->]|Hold].
  { destruct Hf as [Hf|Hf]; [|by right; right].
    apply lookup_insert_Some in Hf as [[<- <-]|[_ Hf]]; [by left|by right; left]. }
  - rewrite decode_encode in Hdec. by injection Hdec as <- <-.
  - by eapply Hk.
Qed.

Lemma good_sync dk : disk_good dk → disk_good (sync_dir dk).
Proof. intros Hk f bytes s st Hf. apply (Hk f). by destruct Hf; left. Qed.

Lemma good_unlink f dk : disk_good dk → disk_good (unlink_file f dk).
Proof.
  intros Hk g bytes s st Hf. apply (Hk g). destruct Hf as [Hf|Hf]; [left|by right].
  cbn in Hf. by apply lookup_delete_Some in Hf as [_ Hf].
Qed.

Lemma persist_inv d s w r w' :
  inv w → handoff_ok (spec_of d) s → persist_snapshot d s w = Some (r, w') → inv w'.
Proof.
  intros Hw Hs (k & Hf & Hk)%persist_snapshot_Some. eapply inv_on_file; [done|exact Hf|]. pose proof (inv_disk _ Hw).
  destruct r; [subst k; by apply good_sync, good_record|]. destruct Hk as [-> | ->]; [done|by apply good_record].
Qed.

Lemma upsert_inv s w l w' : inv w → upsert s w = Some (l, w') →
  inv w' ∧ ∃ d, deps w' !! l = Some d ∧ id (spec_of d) = id s.
Proof.
  intros Hw [(Hf & Hg & ->)|(Hf & w1 & d & Hc & Hi & Hsp & _ & _ & Hh)]%upsert_spec; [| |apply Hw].
  - split; [done|]. by apply (ok_dep _ (inv_ok _ Hw)).
  - assert (id (spec_of d) = id s) as Hid by (rewrite Hsp; apply scoped_spec_id).
    assert (inv w1) as Hw1.
    { eapply inv_creates; [done|exact Hc|]. destruct Hh as [Hn|(old & Hold & Hn)]; [by apply handoff_ok_none|].
      unfold dep_at in Hold. destruct (get (id s) w) as [k|] eqn:Eg; [|done]. cbn in Hold.
      destruct (ok_dep _ (inv_ok _ Hw) _ _ Eg) as (x & Hx & Hxi). assert (x = old) as -> by congruence.
      eapply handoff_ok_same; [|exact Hn|by eapply (inv_handoff _ Hw)]. congruence. }
    split.
    + eapply inv_install; [exact Hw1| |exact Hi]. intros ? [= <-]. exists d. split; [apply Hc|done].
    + exists d. split; [|done]. apply install_Some in Hi as (-> & _). apply Hc.
Qed.

Lemma dep_at_deps i w d : dep_at i w = Some d → ∃ l, get i w = Some l ∧ deps w !! l = Some d.
Proof. unfold dep_at. destruct (get i w) as [l|]; [|done]. intros Hd. by exists l. Qed.

Lemma update_inv s w o w' : inv w → update s w = Some (o, w') → inv w'.
Proof.
  intros Hw [[_ ->]|(l & old & w1 & d & -> & Hat & _ & Hc & Hi & Hsp & _ & _ & Hh & _)]%update_spec; [done| |apply Hw].
  apply dep_at_deps in Hat as (k & Hk & Hold).
  destruct (ok_dep _ (inv_ok _ Hw) _ _ Hk) as (x & Hx & Hid). assert (x = old) as -> by congruence.
  eapply (inv_install (Some l) (id s)); [|intros ? [= <-]; exists d; split; [apply Hc|by rewrite Hsp]|exact Hi].
  eapply inv_creates; [done|exact Hc|]. rewrite Hsp.
  eapply handoff_ok_same; [|exact Hh|by eapply (inv_handoff _ Hw)]. done.
Qed.

Lemma remove_inv i w o w' : inv w → remove i w = Some (o, w') → inv w'.
Proof.
  intros Hw [[_ ->]|(l & d & w1 & -> & _ & _ & _ & Hc & Hi)]%remove_spec; [done| |apply Hw].
  eapply (inv_install None i); [by eapply inv_calm|done|exact Hi].
Qed.

Lemma publish_inv l w u w' : inv w → publish l w = Some (u, w') → inv w'.
Proof.
  intros Hw (d & Hd & [-> |[_ Hi]])%publish_spec; [done|]. eapply (inv_install (Some l)); [done| |exact Hi].
  intros ? [= <-]. by exists d.
Qed.

Lemma state_change_inv d s f w w1 :
  inv w → handoff_ok (spec_of d) s → on_file f w w1 → (f = (λ x, x) ∨ f = record_file d s ∨ f = λ x, sync_dir (record_file d s x)) → inv w1.
Proof.
  intros Hw Hs Hf Hk. pose proof (inv_disk _ Hw). eapply inv_on_file; [done|exact Hf|].
  destruct Hk as [-> |[-> | ->]]; [done|by apply good_record|by apply good_sync, good_record].
Qed.

Lemma validate_handoff_discovery flat s : validate_handoff flat s = true → is_some (discovery flat) = true.
Proof. unfold validate_handoff. destruct (discovery flat); [done|]. by rewrite andb_false_r. Qed.

Lemma validate_handoff_staged flat s : validate_handoff flat s = true → is_some (discovery s) = true.
Proof.
  unfold validate_handoff. destruct (discovery flat); [|by rewrite andb_false_r]. destruct (discovery s); [done|].
  by rewrite !andb_false_r.
Qed.

Lemma prepare_inv op expected s w r w' : inv w → prepare_handoff op expected s w = Some (r, w') → inv w'.
Proof.
  intros Hw [[-> _]|(l & d & Hl & Hd & _ & Hfp & Hv & H)]%prepare_spec; [done| |apply Hw]. cbv zeta in H.
  destruct (ok_dep _ (inv_ok _ Hw) _ _ Hl) as (x & Hx & Hid). assert (x = d) as -> by congruence.
  assert (handoff_ok (spec_of d) (with_handoff (Some (new_record op expected s)) (state_of d))) as Hh.
  { intros rec [= <-]. cbn [new_record staged_spec predecessor_fingerprint]. split; [done|].
    split; [by eapply validate_handoff_staged|].
    exists (spec_of d). split; [by eapply validate_handoff_discovery|done]. }
  destruct H as [(e & f & _ & Hf & Hk)|(w1 & d2 & w2 & sl & sd & w3 & _ & Hf & Hre & Hst & Hc & Hsp & [rev Hin] & ->)].
  { eapply state_change_inv; [done|exact Hh|exact Hf|]. destruct Hk; auto. }
  assert (inv w1) as Hw1 by (eapply state_change_inv; [done|exact Hh|exact Hf|auto]).
  assert (inv w2) as Hw2.
  { eapply inv_restates; [done|exact Hre|]. rewrite Hst. destruct Hre as (_ & _ & _ & -> & _). exact Hh. }
  eapply inv_stage; [|apply Hc|by rewrite Hsp]. eapply inv_creates; [done|exact Hc|]. rewrite Hin. by apply handoff_ok_none.
Qed.

Lemma mark_inv i w r w' : inv w → mark_handoff_prepared i w = Some (r, w') → inv w'.
Proof.
  intros Hw [[-> _]|(l & d & sl & s & p & rec & Hl & Hd & _ & _ & _ & Hrec & _ & H)]%mark_handoff_spec; [done| |apply Hw]. cbv zeta in H.
  assert (handoff_ok (spec_of d) (with_handoff (Some (mark_record p rec)) (state_of d))) as Hh.
  { intros rec' [= <-]. exact (inv_handoff _ Hw _ _ Hd _ Hrec). }
  destruct H as [(e & f & _ & Hf & Hk)|(w1 & d2 & _ & Hf & Hre & Hst)].
  { eapply state_change_inv; [done|exact Hh|exact Hf|]. destruct Hk; auto. }
  eapply inv_restates; [by eapply state_change_inv; [|exact Hh|exact Hf|auto]|exact Hre|].
  rewrite Hst. destruct Hre as (_ & _ & _ & -> & _). exact Hh.
Qed.

Lemma committable_ids i op w l sl d s p rec :
  ok w → committable i op w l sl d s p rec → id (spec_of d) = i ∧ id (spec_of s) = i.
Proof.
  intros Hw Hc. split.
  - destruct (ok_dep _ Hw _ _ (cm_get _ _ _ _ _ _ _ _ _ Hc)) as (x & Hx & <-). by rewrite (cm_dep _ _ _ _ _ _ _ _ _ Hc) in Hx; injection Hx as <-.
  - destruct (ok_staged _ Hw _ _ (cm_staged _ _ _ _ _ _ _ _ _ Hc)) as (x & Hx & <-).
    by rewrite (cm_runtime _ _ _ _ _ _ _ _ _ Hc) in Hx; injection Hx as <-.
Qed.

Lemma commit_inv i op w r w' : inv w → commit_handoff i op w = Some (r, w') → inv w'.
Proof.
  intros Hw [[-> _]|(l & sl & d & s & p & rec & Hc & H)]%commit_spec; [done| |apply Hw]. cbv zeta in H.
  destruct (committable_ids _ _ _ _ _ _ _ _ _ (inv_ok _ Hw) Hc) as [Hid Hids].
  assert (handoff_ok (spec_of s) (commit_state p rec s)) as Hh.
  { intros rec' [= <-]. destruct (inv_handoff _ Hw _ _ (cm_dep _ _ _ _ _ _ _ _ _ Hc) _ (cm_record _ _ _ _ _ _ _ _ _ Hc)) as [H1 H2].
    split; [|done]. cbn. congruence. }
  destruct H as [(e & f & _ & Hf & Hk)|(w1 & s2 & w2 & w3 & w4 & _ & Hf & Hre & Hst & _ & Hfence & Hi & ->)].
  { eapply state_change_inv; [done|exact Hh|exact Hf|]. destruct Hk; auto. }
  apply inv_unstage. apply fence_discovery_removals_calm in Hfence.
  destruct Hre as (Hq & Hs & Hs2 & Hspec & Hreg).
  eapply (inv_install (Some sl) i); [|intros ? [= <-]; exists s2; split; [by rewrite (calm_deps _ _ Hfence)|congruence]|exact Hi].
  eapply inv_calm; [|exact Hfence].
  eapply inv_restates; [by eapply state_change_inv; [|exact Hh|exact Hf|auto]|by split_and!|].
  by rewrite Hst, Hspec.
Qed.

Lemma apply_staged_inv old us w o w' : inv w → apply_staged_discovery old us w = Some (o, w') → inv w'.
Proof.
  intros Hw [[_ ->]|(d & l & n & w1 & -> & Hd & Hs & Hc & Hsp & Hst & ->)]%apply_staged_spec; [done| |apply Hw].
  eapply inv_stage; [|apply Hc|by rewrite Hsp]. eapply inv_creates; [done|exact Hc|].
  rewrite Hsp, Hst. by eapply handoff_ok_same; [|done|by eapply (inv_handoff _ Hw)].
Qed.

Lemma keeps_disk k w w' : inv w → on_file k w w' → (∀ dk, disk_good dk → disk_good (k dk)) → inv w'.
Proof. intros Hw Hf Hk. eapply inv_on_file; [done|exact Hf|]. apply Hk, Hw. Qed.

Lemma forget_Some i w r w' :
  forget i w = Some (r, w') →
  (retirement_frozen i w = true ∧ w' = w) ∨
  retirement_frozen i w = false ∧ ∃ k, on_file k w w' ∧
    (k = (λ x, x) ∨ k = unlink_file (state_file_name i) ∨ k = λ x, sync_dir (unlink_file (state_file_name i) x)).
Proof.
  intros H. unfold forget in H. apply bind_Some in H as (w1 & w1' & Hw & H). apply gets_Some in Hw as [-> ->].
  destruct (retirement_frozen i w); [apply ret_Some in H as [-> ->]; by left|right; split; [done|]].
  destruct (is_some _); [|apply ret_Some in H as [-> ->]; exists (λ x, x); split; [exists (faults w); by destruct w|by left]].
  apply sys_then in H as [(e & -> & Hf)|(w1 & Hf & H)]; [exists (λ x, x); auto|].
  apply bind_Some in H as ([] & w2 & Hu & H). apply on_file_disk in Hu.
  apply sys_then in H as [(e & -> & Hf')|(w3 & Hf' & H)]; [eexists; split; [chain|auto]|].
  apply bind_Some in H as ([] & w4 & Hy & H). apply on_file_disk in Hy. apply ret_Some in H as [-> ->].
  eexists. split; [chain|auto].
Qed.

Lemma forget_inv i w r w' : inv w → forget i w = Some (r, w') → inv w'.
Proof.
  intros Hw [[_ ->]|(_ & k & Hf & Hk)]%forget_Some; [done|]. eapply keeps_disk; [done|exact Hf|].
  intros dk Hdk. destruct Hk as [-> |[-> | ->]]; [done|by apply good_unlink|by apply good_sync, good_unlink].
Qed.

Lemma persist_one_Some i w r w' :
  persist_one i w = Some (r, w') →
  match dep_at i w with Some d => persist_snapshot d (state_of d) w = Some (r, w') | None => forget i w = Some (r, w') end.
Proof.
  intros H. unfold persist_one in H. apply bind_Some in H as (w1 & w1' & Hw & H). apply gets_Some in Hw as [-> ->].
  by destruct (dep_at i w).
Qed.

Lemma persist_one_inv i w r w' : inv w → persist_one i w = Some (r, w') → inv w'.
Proof.
  intros Hw H%persist_one_Some. destruct (dep_at i w) as [d|] eqn:Ed; [|by eapply forget_inv].
  eapply persist_inv; [done| |exact H]. apply dep_at_deps in Ed as (l & _ & Hd). by eapply inv_handoff.
Qed.

Lemma archive_inv d w r w' : inv w → handoff_ok (spec_of d) (state_of d) → archive_record d w = Some (r, w') → inv w'.
Proof.
  intros Hw Hd H. unfold archive_record in H. apply try_Some in H as (x & w1 & Hp & H).
  assert (inv w1) as Hw1 by (by eapply persist_inv). destruct x as [[]|e]; [|by destruct H as [-> ->]].
  assert (∀ u v y, inv u → sys u = Some (y, v) → inv v) as Hsys
    by (intros u v y Hu Hs; apply sys_Some in Hs; eapply keeps_disk; [exact Hu|exact Hs|done]).
  apply try_Some in H as (x & w2 & Hs & H). assert (inv w2) as Hw2 by (by eapply Hsys).
  destruct x as [[]|e]; [|by destruct H as [-> ->]].
  apply bind_Some in H as (w3 & w3' & Hg & H). apply gets_Some in Hg as [-> ->].
  destruct (visible _ !! _) as [bytes|]; [|by apply ret_Some in H as [-> ->]]. cbv zeta in H.
  apply try_Some in H as (x & w3 & Hs3 & H). assert (inv w3) as Hw3 by (by eapply Hsys).
  destruct x as [[]|e]; [|by destruct H as [-> ->]].
  destruct (archive _ !! _) as [old|].
  - destruct (bool_decide (old = bytes)); [by eapply Hsys|by apply ret_Some in H as [-> ->]].
  - apply bind_Some in H as ([] & w4 & Hl & H). apply on_file_disk in Hl. eapply Hsys; [|exact H].
    eapply keeps_disk; [exact Hw3|exact Hl|done].
Qed.

(** The sweep only unlinks files that are not wanted. *)
Lemma sweep_loop_Some wanted names n w r w' :
  sweep_loop wanted names n w = Some (r, w') →
  ∃ v, on_file (λ d, {| visible := v; durable := durable d; legacy := legacy d; archive := archive d |}) w w' ∧
    ∀ f, v !! f = visible (disk w) !! f ∨
         v !! f = None ∧ f ∈ names ∧ f ∉ wanted ∧ Str.ends_with ".json" f = true.
Proof.
  revert n w. induction names as [|name names IH]; intros n w H; cbn [sweep_loop] in H.
  { apply ret_Some in H as [-> ->]. exists (visible (disk w)). split; [|by left].
    exists (faults w). destruct w as [? ? ? ? ? ? ? ? ? [] ? ?]. done. }
  apply sys_then in H as [(e & -> & Hf)|(w1 & Hf & H)].
  { exists (visible (disk w)). split; [|by left]. destruct Hf as [fs ->]. exists fs. by destruct (disk w). }
  assert (disk w1 = disk w) as Hd1 by apply (on_file_deps _ _ _ Hf).
  destruct (Str.ends_with ".json" name && negb (bool_decide (name ∈ wanted))) eqn:Eb.
  - apply andb_true_iff in Eb as [Ej Hnw%negb_true_iff%bool_decide_eq_false].
    apply sys_then in H as [(e & -> & Hf')|(w2 & Hf' & H)].
    { exists (visible (disk w)). split; [|by left]. destruct Hf as [fs ->], Hf' as [fs' ->]. exists fs'. by destruct (disk w). }
    apply bind_Some in H as ([] & w3 & Hu & H). apply on_file_disk in Hu. destruct (IH _ _ H) as (v & Hv & Hvf).
    exists v. split.
    + destruct Hf as [fs ->], Hf' as [fs' ->], Hu as [fu ->], Hv as [fv ->]. by exists fv.
    + assert (visible (disk w3) = delete name (visible (disk w))) as Hd3
        by (destruct Hf as [fs ->], Hf' as [fs' ->], Hu as [fu ->]; done).
      intros f. rewrite Hd3 in Hvf. destruct (Hvf f) as [Hx|(Hx & Hi & Hn)]; [|right; split_and!; [done|by right|apply Hn..]].
      destruct (decide (name = f)) as [<-|Hne]; [|left; by rewrite lookup_delete_ne in Hx].
      right. rewrite lookup_delete_eq in Hx. split_and!; [done|by left|done|done].
  - destruct (IH _ _ H) as (v & Hv & Hvf). exists v. split.
    + destruct Hf as [fs ->], Hv as [fv ->]. by exists fv.
    + intros f. rewrite Hd1 in Hvf. destruct (Hvf f) as [Hx|(Hx & Hi & Hn)]; [by left|right; split_and!; [done|by right|apply Hn..]].
Qed.

Definition wanted_files (w : World) : gset string := list_to_set (state_file_name <$> (map_to_list (deployments w)).*1).

Lemma sweep_Some w r w' :
  sweep_orphan_state w = Some (r, w') →
  ∃ v, on_file (λ d, {| visible := v; durable := durable d; legacy := legacy d; archive := archive d |}) w w' ∧
    ∀ f, v !! f = visible (disk w) !! f ∨
         v !! f = None ∧ load_skipped w = false ∧ f ∉ wanted_files w ∧ Str.ends_with ".json" f = true.
Proof.
  intros H. unfold sweep_orphan_state in H. apply bind_Some in H as (w1 & w1' & Hg & H). apply gets_Some in Hg as [-> ->].
  destruct (load_skipped w) eqn:Es; cbv zeta in H.
  { apply ret_Some in H as [-> ->]. exists (visible (disk w)). split; [|by left].
    exists (faults w). destruct w as [? ? ? ? ? ? ? ? ? [] ? ?]. done. }
  apply sys_then in H as [(e & -> & Hf)|(w1 & Hf & H)].
  { exists (visible (disk w)). split; [|by left]. destruct Hf as [fs ->]. exists fs. by destruct (disk w). }
  assert (disk w1 = disk w) as Hd1 by apply (on_file_deps _ _ _ Hf).
  apply sweep_loop_Some in H as (v & Hv & Hvf). exists v. split.
  - destruct Hf as [fs ->], Hv as [fv ->]. by exists fv.
  - intros f. rewrite Hd1 in Hvf. destruct (Hvf f) as [Hx|(Hx & _ & Hn & He)]; [by left|by right].
Qed.

Lemma sweep_inv w r w' : inv w → sweep_orphan_state w = Some (r, w') → inv w'.
Proof.
  intros Hw (v & Hv & Hvf)%sweep_Some. eapply inv_on_file; [done|exact Hv|].
  intros f bytes s st Hf. cbn in Hf. apply (inv_disk _ Hw f). destruct Hf as [Hf|Hf]; [|by right].
  destruct (Hvf f) as [Hx|(Hx & _)]; [left; congruence|congruence].
Qed.

Lemma import_inv specs w r w' : inv w → import_specs specs w = Some (r, w') → inv w'.
Proof.
  revert w. induction specs as [|s specs IH]; intros w Hw H; cbn [import_specs] in H.
  { by apply ret_Some in H as [-> ->]. }
  apply bind_Some in H as (w1 & w1' & Hg & H). apply gets_Some in Hg as [-> ->].
  destruct (is_some _); [by apply (IH w)|].
  assert (∀ b dk, (b = empty ∨ b = encode s default_state) → disk_good dk → disk_good (link_file (state_file_name (id s)) b dk)) as Hlink.
  { intros b dk Hb Hk f bytes s' st Hf Hdec. cbn in Hf.
    assert (f = state_file_name (id s) ∧ bytes = b ∨ (visible dk !! f = Some bytes ∨ durable dk !! f = Some bytes)) as [[-> ->]|Hold].
    { destruct Hf as [Hf|Hf]; [|by right; right]. apply lookup_insert_Some in Hf as [[<- <-]|[_ Hf]]; [by left|by right; left]. }
    - destruct Hb as [-> | ->]; [by rewrite decode_empty in Hdec|]. rewrite decode_encode in Hdec. injection Hdec as <- <-.
      split; [done|]. by apply handoff_ok_none.
    - by eapply Hk. }
  apply sys_then in H as [(e & -> & Hf)|(w1 & Hf & H)]; [eapply keeps_disk; [exact Hw|exact Hf|done]|].
  apply bind_Some in H as ([] & w2 & Hl & H). apply on_file_disk in Hl.
  assert (inv w2) as Hw2.
  { eapply keeps_disk; [|exact Hl|intros; apply Hlink; [by left|done]]. eapply keeps_disk; [exact Hw|exact Hf|done]. }
  apply sys_then in H as [(e & -> & Hf')|(w3 & Hf' & H)]; [eapply keeps_disk; [exact Hw2|exact Hf'|done]|].
  apply bind_Some in H as ([] & w4 & Hl' & H). apply on_file_disk in Hl'. apply (IH w4); [|done].
  eapply keeps_disk; [|exact Hl'|intros; apply Hlink; [by right|done]]. eapply keeps_disk; [exact Hw2|exact Hf'|done].
Qed.

Lemma migrate_inv w r w' : inv w → migrate_legacy_file w = Some (r, w') → inv w'.
Proof.
  intros Hw H. unfold migrate_legacy_file in H. apply bind_Some in H as (w1 & w1' & Hg & H). apply gets_Some in Hg as [-> ->].
  destruct (legacy (disk w)) as [bytes|]; [|by apply ret_Some in H as [-> ->]].
  apply sys_then in H as [(e & -> & Hf)|(w1 & Hf & H)]; [eapply keeps_disk; [exact Hw|exact Hf|done]|].
  assert (inv w1) as Hw1 by (eapply keeps_disk; [exact Hw|exact Hf|done]).
  destruct (decode_legacy bytes) as [specs|]; [|by apply ret_Some in H as [-> ->]].
  apply sys_then in H as [(e & -> & Hf')|(w2 & Hf' & H)]; [eapply keeps_disk; [exact Hw1|exact Hf'|done]|].
  assert (inv w2) as Hw2 by (eapply keeps_disk; [exact Hw1|exact Hf'|done]).
  apply try_Some in H as (x & w3 & Hi & H). assert (inv w3) as Hw3 by (by eapply import_inv).
  destruct x as [[]|e]; [|by destruct H as [-> ->]].
  apply sys_then in H as [(e & -> & Hf'')|(w4 & Hf'' & H)]; [eapply keeps_disk; [exact Hw3|exact Hf''|done]|].
  apply bind_Some in H as ([] & w5 & Hl & H). apply on_file_disk in Hl. apply ret_Some in H as [-> ->].
  eapply keeps_disk; [|exact Hl|done]. eapply keeps_disk; [exact Hw3|exact Hf''|done].
Qed.

(** ** Loading *)

Lemma normalize_id s : id (normalize s) = id s.
Proof. done. Qed.

(** The deployments there were stay where and as they are. *)
Definition keeps_deps (w w' : World) : Prop := ∀ k x, deps w !! k = Some x → deps w' !! k = Some x.

Lemma creates_keeps l d w w' : ok w → creates l d w w' → keeps_deps w w'.
Proof.
  intros Hw Hc k x Hx. rewrite (q_deps _ _ _ (c_quiet _ _ _ _ Hc)); [done|]. intros ->.
  pose proof (ok_fresh _ Hw _ _ Hx). pose proof (c_fresh _ _ _ _ Hc). lia.
Qed.

Lemma restage_spec d w u w' :
  inv w → handoff_ok (spec_of d) (state_of d) → restage d w = Some (u, w') →
  inv w' ∧ keeps_deps w w' ∧ disk w' = disk w ∧ deployments w' = deployments w ∧
  (∀ k x, deps w' !! k = Some x → deps w !! k = Some x ∨ retirement (state_of x) = None) ∧
  (∀ j k, staged w' !! j = Some k → staged w !! j = Some k ∨
     ∃ x rec, deps w' !! k = Some x ∧ route_handoff (state_of d) = Some rec ∧ spec_of x = staged_spec rec).
Proof.
  intros Hw Hh H. assert (w' = w ∨ ∃ rec, route_handoff (state_of d) = Some rec ∧
    (n <-! new_deployment (staged_spec rec) ;; n <-! alloc n ;; stage (Some n) (id (spec_of d))) w = Some (u, w')) as Hcase.
  { unfold restage in H. destruct (route_handoff (state_of d)) as [rec|]; [|apply ret_Some in H as [_ ->]; by left].
    destruct (bool_decide _); [apply ret_Some in H as [_ ->]; by left|right]. by exists rec. }
  destruct Hcase as [-> |(rec & Eh & Hs)]; [split_and!; auto; by intros ?|clear H].
  apply bind_Some in Hs as (n & w4 & Hnew & Hs). apply new_deployment_calm in Hnew as (Hcalm & Hsp & [rev Hin] & Hrd).
  apply bind_Some in Hs as (sl & w5 & Halloc & Hs).
  apply (alloc_creates _ _ _ w) in Halloc as Hcr; [|done|by unfold router_ok; rewrite Hsp].
  apply modify_Some in Hs as ->. split_and!.
  - eapply inv_stage; [|apply Hcr|rewrite Hsp; by apply (Hh _ Eh)].
    eapply inv_creates; [exact Hw|exact Hcr|]. rewrite Hin. by apply handoff_ok_none.
  - intros k y Hy. by apply (creates_keeps _ _ _ _ (inv_ok _ Hw) Hcr).
  - apply (q_disk _ _ _ (c_quiet _ _ _ _ Hcr)).
  - apply (q_deployments _ _ _ (c_quiet _ _ _ _ Hcr)).
  - intros k x Hx. cbn in Hx. destruct (decide (k = sl)) as [->|Hk].
    + rewrite (c_dep _ _ _ _ Hcr) in Hx. injection Hx as <-. right. by rewrite Hin.
    + left. by rewrite <- (q_deps _ _ _ (c_quiet _ _ _ _ Hcr)).
  - intros j k Hj. cbn in Hj. apply lookup_insert_Some in Hj as [[_ <-]|[_ Hj]].
    + right. exists n, rec. split_and!; [apply Hcr|done|done].
    + left. by rewrite <- (q_staged _ _ _ (c_quiet _ _ _ _ Hcr)).
Qed.

Lemma load_file_Some b w skip w' :
  inv w → (∀ s st, b ≫= decode = Some (s, st) → handoff_ok s st) → load_file b w = Some (skip, w') →
  inv w' ∧ disk w' = disk w ∧
  match skip with
  | true => w' = w
  | false =>
    ∃ s st, b ≫= decode = Some (s, st) ∧ validate (normalize s) = true ∧
      (retirement_frozen (id s) w = true ∧ w' = w ∨
       retirement_frozen (id s) w = false ∧
       ∃ l d, deployments w' = <[id s := l]> (deployments w) ∧ deps w' !! l = Some d ∧ keeps_deps w w' ∧
         spec_of d = scoped_spec (dep_at (id s) w) (normalize s) ∧ state_of d = st ∧
         (∀ k x, deps w' !! k = Some x → deps w !! k = Some x ∨ k = l ∧ x = d ∨ retirement (state_of x) = None) ∧
         (∀ j k, staged w' !! j = Some k → staged w !! j = Some k ∨
            ∃ x rec, deps w' !! k = Some x ∧ route_handoff st = Some rec ∧ spec_of x = staged_spec rec))
  end.
Proof.
  intros Hw Hb H. unfold load_file in H. destruct (b ≫= decode) as [[s st]|] eqn:Edec; [|by apply ret_Some in H as [-> ->]].
  specialize (Hb _ _ eq_refl). cbv zeta in H. destruct (validate (normalize s)) eqn:Ev; cbn [negb] in H;
    [|by apply ret_Some in H as [-> ->]].
  apply bind_Some in H as (w0 & w0' & Hg & H). apply gets_Some in Hg as [-> ->]. rewrite normalize_id in H.
  destruct (retirement_frozen (id s) w) eqn:Ef.
  { apply ret_Some in H as [-> ->]. split_and!; try done. exists s, st. split_and!; try done. by left. }
  apply bind_Some in H as (l & w1 & Hu & H). pose proof (upsert_inv _ _ _ _ Hw Hu) as [Hw1 _].
  apply upsert_spec in Hu as [(Hf & _)|(_ & w0 & d & Hc & Hi & Hsp & _)]; [rewrite normalize_id in Hf; congruence| |apply Hw].
  rewrite !normalize_id in *. apply install_Some in Hi as (Hi1 & Hi2 & _ & Hi4 & Hi5 & _).
  apply bind_Some in H as ([] & w2 & Hset & H). apply set_state_restates in Hset as (x & d2 & Hre & Hst & _).
  assert (x = d) as ->.
  { destruct Hre as (_ & Hx & _). rewrite Hi1, (c_dep _ _ _ _ Hc) in Hx. by injection Hx as <-. }
  assert (id (spec_of d2) = id s) as Hid by (destruct Hre as (_ & _ & _ & -> & _); by rewrite Hsp, scoped_spec_id).
  assert (handoff_ok (spec_of d2) (state_of d2)) as Hok2 by (rewrite Hst; by eapply handoff_ok_same).
  assert (inv w2) as Hw2.
  { eapply inv_restates; [exact Hw1|exact Hre|done]. }
  pose proof Hre as (Hq & _ & Hd2 & Hspec & _).
  assert (∀ k, k ≠ l → deps w2 !! k = deps w !! k) as Helse.
  { intros k Hk. rewrite (q_deps _ _ _ Hq), Hi1 by done. by apply (q_deps _ _ _ (c_quiet _ _ _ _ Hc)). }
  assert (keeps_deps w w2) as Hk.
  { intros k y Hy. rewrite Helse; [done|]. intros ->. pose proof (ok_fresh _ (inv_ok _ Hw) _ _ Hy).
    pose proof (c_fresh _ _ _ _ Hc). lia. }
  assert (disk w2 = disk w ∧ staged w2 = staged w ∧ deployments w2 = <[id s := l]> (deployments w)) as (Hdk & Hsg & Hds).
  { pose proof (c_quiet _ _ _ _ Hc) as Hq0. rewrite (q_disk _ _ _ Hq), (q_staged _ _ _ Hq), (q_deployments _ _ _ Hq), Hi2, Hi4, Hi5.
    by rewrite (q_disk _ _ _ Hq0), (q_staged _ _ _ Hq0), (q_deployments _ _ _ Hq0). }
  apply bind_Some in H as (d' & w2' & Hd' & H). apply deref_Some in Hd' as [Hd' ->].
  assert (d' = d2) as -> by congruence. apply bind_Some in H as ([] & w3 & Hrs & H). apply ret_Some in H as [-> ->].
  destruct (restage_spec _ _ _ _ Hw2 Hok2 Hrs) as (Hw3 & Hk3 & Hdk3 & Hds3 & HA & HB).
  split; [done|]. split; [congruence|]. exists s, st. split_and!; try done. right. split; [done|].
  exists l, d2. split_and!; [congruence|by apply Hk3|by intros k y Hy; apply Hk3, Hk|congruence|done| |].
  - intros k y Hy. destruct (HA _ _ Hy) as [Hy2|]; [|by auto]. destruct (decide (k = l)) as [->|Hkl].
    + right. left. by rewrite Hd2 in Hy2; injection Hy2 as <-.
    + left. by rewrite <- Helse.
  - intros j k Hj. destruct (HB _ _ Hj) as [?|(y & rec & ? & Hh & ?)]; [left; congruence|right].
    exists y, rec. split_and!; try done. by rewrite <- Hst.
Qed.

(** The files that were read, and what they became. *)
Definition stored (dk : Disk) (i : string) (s : DeploymentSpec) (st : State) : Prop :=
  ∃ bytes, visible dk !! state_file_name i = Some bytes ∧ decode bytes = Some (s, st) ∧ id s = i.

Definition restored (done_ : list string) (w : World) : Prop :=
  (∀ i d, dep_at i w = Some d → state_file_name i ∈ done_ ∧ ∃ s st, stored (disk w) i s st ∧ spec_of d = normalize s ∧ state_of d = st) ∧
  (∀ f bytes, f ∈ done_ → extension f = Some "json" → visible (disk w) !! f = Some bytes →
     ∃ s st d, decode bytes = Some (s, st) ∧ dep_at (id s) w = Some d).

Lemma dep_at_insert w w' i l d j :
  keeps_deps w w' → ok w → deployments w' = <[i := l]> (deployments w) → deps w' !! l = Some d →
  dep_at j w' = if decide (j = i) then Some d else dep_at j w.
Proof.
  intros Hk Hw Hds Hd. unfold dep_at, get. rewrite Hds. destruct (decide (j = i)) as [->|Hj].
  - by rewrite lookup_insert_eq.
  - rewrite lookup_insert_ne by done. destruct (deployments w !! j) as [k|] eqn:Ek; [|done]. cbn.
    destruct (ok_dep _ Hw _ _ Ek) as (x & Hx & _). by rewrite Hx, (Hk _ _ Hx).
Qed.

Lemma load_loop_inv names n b w r w' :
  inv w → load_loop names n b w = Some (r, w') → inv w' ∧ disk w' = disk w.
Proof.
  revert n b w. induction names as [|name names IH]; intros n b w Hw H; cbn [load_loop] in H.
  { by apply ret_Some in H as [-> ->]. }
  apply sys_then in H as [(e & -> & Hf)|(w1 & Hf & H)].
  { split; [eapply keeps_disk; [exact Hw|exact Hf|done]|apply (on_file_deps _ _ _ Hf)]. }
  assert (disk w1 = disk w) as Hd1 by apply (on_file_deps _ _ _ Hf).
  assert (inv w1) as Hw1 by (eapply keeps_disk; [exact Hw|exact Hf|done]).
  destruct (bool_decide _); [|apply IH in H; [by rewrite <- Hd1|done]].
  apply bind_Some in H as (x & w2 & Hs & H). apply sys_Some in Hs.
  assert (disk w2 = disk w) as Hd2 by (rewrite <- Hd1; apply (on_file_deps _ _ _ Hs)).
  assert (inv w2) as Hw2 by (eapply keeps_disk; [exact Hw1|exact Hs|done]).
  apply bind_Some in H as (w3 & w3' & Hg & H). apply gets_Some in Hg as [-> ->].
  apply bind_Some in H as (skip & w4 & Hl & H). apply load_file_Some in Hl as (Hw4 & Hd4 & _); [|done|].
  - apply IH in H; [|done]. destruct H as [H1 H2]. split; [done|congruence].
  - intros s st Hb. destruct x; [|done]. destruct (visible _ !! _) as [bytes|] eqn:Ev; [|done].
    by apply (inv_disk _ Hw2 _ _ _ _ (or_introl Ev) Hb).
Qed.

Lemma state_file_inj i j : state_file_name i = state_file_name j → i = j.
Proof. intros He. rewrite <- (unescape_escape i), <- (unescape_escape j). f_equal.
  pose proof (rsplit_last (escape i) "json" eq_refl) as Hi. pose proof (rsplit_last (escape j) "json" eq_refl) as Hj.
  unfold state_file_name in He. change ".json" with (String "." "json") in He. rewrite He in Hi. rewrite Hi in Hj.
  by injection Hj.
Qed.

Lemma restored_skip done_ name w :
  restored done_ w → (extension name = Some "json" → visible (disk w) !! name = None) → restored (done_ ++ [name]) w.
Proof.
  intros [H1 H2] Hn. split.
  - intros i d Hd. destruct (H1 i d Hd) as [Hi Hs]. split; [apply elem_of_app; by left|done].
  - intros f bytes [Hf| ->%list_elem_of_singleton]%elem_of_app He Hv; [by eapply H2|]. by rewrite Hn in Hv.
Qed.

Lemma load_loop_restored names done_ n w m w' :
  inv w → NoDup (done_ ++ names) → restored done_ w →
  load_loop names n false w = Some (Ok (m, false), w') → restored (done_ ++ names) w'.
Proof.
  revert done_ n w. induction names as [|name names IH]; intros done_ n w Hw Hnd Hr H; cbn [load_loop] in H.
  { apply ret_Some in H as [_ ->]. by rewrite app_nil_r. }
  rewrite cons_middle, app_assoc in Hnd |- *.
  apply sys_then in H as [(e & He & _)|(w1 & Hf & H)]; [done|].
  assert (inv w1 ∧ restored done_ w1) as [Hw1 Hr1].
  { split; [eapply keeps_disk; [exact Hw|exact Hf|done]|by destruct Hf as [fs ->]]. }
  destruct (bool_decide (extension name = Some "json")) eqn:Ee.
  2: { apply bool_decide_eq_false in Ee. eapply IH; [exact Hw1|done| |exact H]. apply restored_skip; [done|by intros]. }
  apply bool_decide_eq_true in Ee.
  apply bind_Some in H as (x & w2 & Hs & H). apply sys_Some in Hs.
  assert (inv w2 ∧ restored done_ w2) as [Hw2 Hr2].
  { split; [eapply keeps_disk; [exact Hw1|exact Hs|done]|by destruct Hs as [fs ->]]. }
  apply bind_Some in H as (w3 & w3' & Hg & H). apply gets_Some in Hg as [-> ->].
  apply bind_Some in H as (skip & w4 & Hl & H).
  assert (skip = false) as ->.
  { destruct skip; [|done]. exfalso. clear -H. revert H. generalize n. clear n. revert w4.
    induction names as [|a l IH]; intros w4 n H; cbn [load_loop orb] in H; [by apply ret_Some in H as [? _]|].
    apply sys_then in H as [(e & ? & _)|(w1 & _ & H)]; [done|]. destruct (bool_decide _); [|by apply IH in H].
    apply bind_Some in H as (x & w2 & _ & H). apply bind_Some in H as (? & ? & _ & H).
    apply bind_Some in H as (? & ? & _ & H). cbn [orb] in H. by apply IH in H. }
  cbn [orb] in H. apply load_file_Some in Hl as (Hw4 & Hd4 & s & st & Hb & Hv & Hcase); [|done|].
  2: { intros s st Hb. destruct x; [|done]. destruct (visible _ !! _) as [bytes|] eqn:Ev; [|done].
       by apply (inv_disk _ Hw2 _ _ _ _ (or_introl Ev) Hb). }
  destruct x as [[]|e]; [|done]. destruct (visible (disk w2) !! name) as [bytes|] eqn:Ev; [|done]. cbn in Hb.
  destruct (inv_disk _ Hw2 _ _ _ _ (or_introl Ev) Hb) as [Hname _].
  assert (dep_at (id s) w2 = None) as Hnone.
  { destruct (dep_at (id s) w2) as [d|] eqn:Ed; [|done]. apply (proj1 Hr2) in Ed as [Hin _].
    rewrite <- Hname in Hin. exfalso. rewrite <- app_assoc in Hnd. apply NoDup_app in Hnd as (_ & Hnd & _).
    apply (Hnd _ Hin). by left. }
  eapply IH; [exact Hw4|done| |exact H].
  destruct Hcase as [[Hfr _]|(_ & l & d & Hds & Hdl & Hk & Hsp & Hst & _)].
  { unfold retirement_frozen in Hfr. by rewrite Hnone in Hfr. }
  rewrite Hnone in Hsp. cbn [scoped_spec] in Hsp.
  pose proof (dep_at_insert _ _ _ _ _ (id s) Hk (inv_ok _ Hw2) Hds Hdl) as Hself. rewrite decide_True in Hself by done.
  split.
  - intros i x. rewrite (dep_at_insert _ _ _ _ _ i Hk (inv_ok _ Hw2) Hds Hdl), Hd4. destruct (decide (i = id s)) as [->|Hi].
    + intros [= <-]. split; [apply elem_of_app; right; rewrite <- Hname; by left|].
      exists s, st. split_and!; try done. exists bytes. by rewrite <- Hname.
    + intros Hx. destruct (proj1 Hr2 _ _ Hx) as [Hin Hs']. split; [apply elem_of_app; by left|done].
  - intros f bs [Hf'| ->%list_elem_of_singleton]%elem_of_app Hext Hbs; rewrite Hd4 in Hbs.
    + destruct (proj2 Hr2 _ _ Hf' Hext Hbs) as (s' & st' & d' & Hb' & Hd'). exists s', st'.
      rewrite (dep_at_insert _ _ _ _ _ (id s') Hk (inv_ok _ Hw2) Hds Hdl). destruct (decide _); [by exists d|by exists d'].
    + assert (bs = bytes) as -> by congruence. exists s, st, d. by split.
Qed.

(** Importing only adds files that are not there. *)
Definition imports (w w' : World) : Prop :=
  deps w' = deps w ∧ deployments w' = deployments w ∧ durable (disk w') = durable (disk w) ∧
  (∀ f b, visible (disk w) !! f = Some b → visible (disk w') !! f = Some b) ∧
  (∀ f b, visible (disk w') !! f = Some b →
     visible (disk w) !! f = Some b ∨ b = empty ∨ ∃ s, b = encode s default_state).

Lemma imports_refl w : imports w w.
Proof. split_and!; auto. Qed.
Lemma imports_trans w1 w2 w3 : imports w1 w2 → imports w2 w3 → imports w1 w3.
Proof.
  intros (H1 & H2 & H3 & H4 & H5) (K1 & K2 & K3 & K4 & K5). split_and!; [congruence..|auto|].
  intros f b [Hf|Hb]%K5; [by apply H5|by right].
Qed.
Lemma imports_same k w w' : on_file k w w' → (∀ dk, durable (k dk) = durable dk ∧ visible (k dk) = visible dk) → imports w w'.
Proof. intros [fs ->] Hk. destruct (Hk (disk w)) as [Hd Hv]. cbn. split_and!; try done; cbn; rewrite Hv; auto. Qed.

Lemma imports_link f b w w' :
  on_file (link_file f b) w w' → (visible (disk w) !! f = None ∨ visible (disk w) !! f = Some empty) →
  (b = empty ∨ ∃ s, b = encode s default_state) →
  deps w' = deps w ∧ deployments w' = deployments w ∧ durable (disk w') = durable (disk w) ∧
  (∀ g c, g ≠ f → visible (disk w) !! g = Some c → visible (disk w') !! g = Some c) ∧
  (∀ g c, visible (disk w') !! g = Some c → visible (disk w) !! g = Some c ∨ c = empty ∨ ∃ s, c = encode s default_state).
Proof.
  intros [fs ->] _ Hb. split_and!; try done.
  - intros g c Hg Hc. cbn. by rewrite lookup_insert_ne.
  - intros g c Hc. cbn in Hc. apply lookup_insert_Some in Hc as [[_ <-]|[_ Hc]]; [by right|by left].
Qed.

Lemma import_imports specs w r w' : import_specs specs w = Some (r, w') → imports w w'.
Proof.
  revert w. induction specs as [|s specs IH]; intros w H; cbn [import_specs] in H; [apply ret_Some in H as [-> ->]; split_and!; auto|].
  apply bind_Some in H as (w1 & w1' & Hg & H). apply gets_Some in Hg as [-> ->].
  destruct (visible (disk w) !! state_file_name (id s)) as [old|] eqn:Ef; cbn [is_some] in H; [by apply (IH w)|].
  apply sys_then in H as [(e & -> & Hf)|(w1 & Hf & H)]; [by eapply imports_same|].
  apply bind_Some in H as ([] & w2 & Hl & H). apply on_file_disk in Hl.
  assert (disk w1 = disk w) as Hd1 by apply (on_file_deps _ _ _ Hf).
  assert (imports w w2) as H2.
  { eapply imports_trans; [by eapply imports_same|].
    destruct (imports_link _ _ _ _ Hl) as (E1 & E2 & E3 & E4 & E5); [left; congruence|by left|]. split_and!; try done.
    intros f b Hb. apply E4; [|done]. intros ->. congruence. }
  apply sys_then in H as [(e & -> & Hf')|(w3 & Hf' & H)]; [eapply imports_trans; [exact H2|by eapply imports_same]|].
  apply bind_Some in H as ([] & w4 & Hl' & H). apply on_file_disk in Hl'. apply IH in H. eapply imports_trans; [|exact H].
  assert (imports w w3) as H3 by (eapply imports_trans; [exact H2|by eapply imports_same]).
  destruct (imports_link _ _ _ _ Hl') as (E1 & E2 & E3 & E4 & E5); [|right; by exists s|].
  { right. assert (disk w3 = disk w2) as -> by apply (on_file_deps _ _ _ Hf'). destruct Hl as [f2 ->]. apply lookup_insert_eq. }
  destruct H3 as (K1 & K2 & K3 & K4 & K5). split_and!; [congruence..| |].
  - intros f b Hb. apply E4; [|by apply K4]. intros ->. congruence.
  - intros f b [Hb|Hb]%E5; [by apply K5|by right].
Qed.

Lemma migrate_imports w r w' : migrate_legacy_file w = Some (r, w') → imports w w' ∧ (legacy (disk w) = None → w' = w).
Proof.
  intros H. unfold migrate_legacy_file in H. apply bind_Some in H as (w0 & w0' & Hg & H). apply gets_Some in Hg as [-> ->].
  destruct (legacy (disk w)) as [bytes|]; [|apply ret_Some in H as [-> ->]; split; [apply imports_refl|done]]. split; [|done].
  apply sys_then in H as [(e & -> & Hf)|(w2 & Hf & H)]; [by eapply imports_same|].
  assert (imports w w2) as H2 by (by eapply imports_same).
  destruct (decode_legacy bytes) as [specs|]; [|by apply ret_Some in H as [-> ->]].
  apply sys_then in H as [(e & -> & Hf')|(w3 & Hf' & H)]; [eapply imports_trans; [exact H2|by eapply imports_same]|].
  apply try_Some in H as (y & w4 & Hi & H). apply import_imports in Hi.
  assert (imports w w4) as H4 by (eapply imports_trans; [exact H2|eapply imports_trans; [by eapply imports_same|exact Hi]]).
  destruct y as [[]|e]; [|by destruct H as [-> ->]].
  apply sys_then in H as [(e & -> & Hf4)|(w5 & Hf4 & H)]; [eapply imports_trans; [exact H4|by eapply imports_same]|].
  apply bind_Some in H as ([] & w6 & Hl & H). apply on_file_disk in Hl. apply ret_Some in H as [-> ->].
  eapply imports_trans; [exact H4|]. eapply imports_trans; [by eapply imports_same|]. by eapply imports_same.
Qed.

Lemma load_Some w r w' :
  load w = Some (r, w') → inv w →
  inv w' ∧ (legacy (disk w) = None → disk w' = disk w) ∧
  match r with
  | Ok _ => ∃ w1 w2 m sk, inv w1 ∧ (∀ f b, visible (disk w) !! f = Some b → visible (disk w1) !! f = Some b) ∧ deployments w1 = deployments w ∧ deps w1 = deps w ∧
              load_loop (read_dir (visible (disk w1))) 0 false w1 = Some (Ok (m, sk), w2) ∧
              w' = with_load_skipped sk w2 ∧ (legacy (disk w) = None → disk w1 = disk w)
  | Err _ => True
  end.
Proof.
  intros H Hw. unfold load in H. apply try_Some in H as (x & w1 & Hm & H).
  assert (inv w1) as Hw1 by (by eapply migrate_inv).
  apply migrate_imports in Hm as [(Hdeps & Hds & _ & Hvis & _) Hleg].
  destruct x as [[]|e]; [|destruct H as [-> ->]; split_and!; try done; intros Hn; by rewrite Hleg].
  apply sys_then in H as [(e & -> & Hf)|(w2 & Hf & H)].
  { split_and!; try done; [eapply keeps_disk; [exact Hw1|exact Hf|done]|].
    intros Hn. rewrite <- (Hleg Hn). apply (on_file_deps _ _ _ Hf). }
  assert (inv w2) as Hw2 by (eapply keeps_disk; [exact Hw1|exact Hf|done]).
  destruct (on_file_deps _ _ _ Hf) as (E1 & E2 & _ & _ & _ & _ & _ & _ & _ & Ed).
  apply bind_Some in H as (w3 & w3' & Hg & H). apply gets_Some in Hg as [-> ->].
  apply try_Some in H as (y & w3 & Hl & H). destruct (load_loop_inv _ _ _ _ _ _ Hw2 Hl) as [Hw3 Hd3].
  destruct y as [[m sk]|e].
  - apply bind_Some in H as ([] & w4 & Hm' & H). apply modify_Some in Hm' as ->. apply ret_Some in H as [-> ->].
    split_and!; [by destruct Hw3 as [[] ? ?]| |].
    + intros Hn. cbn [with_load_skipped disk]. rewrite Hd3, Ed. by rewrite (Hleg Hn).
    + exists w2, w3, m, sk. rewrite Ed. split; [done|]. split; [done|]. split; [congruence|]. split; [congruence|].
      split; [by rewrite <- Ed|]. split; [done|]. intros Hn. by rewrite (Hleg Hn).
  - destruct H as [-> ->]. split_and!; try done. intros Hn. rewrite Hd3, Ed. by rewrite (Hleg Hn).
Qed.

(** A start never syncs, and one that fails deletes nothing. *)
Lemma load_files w r w' :
  load w = Some (r, w') → inv w →
  durable (disk w') = durable (disk w) ∧ (∀ f b, visible (disk w) !! f = Some b → visible (disk w') !! f = Some b).
Proof.
  intros H Hw. unfold load in H. apply try_Some in H as (x & w1 & Hm & H).
  assert (inv w1) as Hw1 by (by eapply migrate_inv). apply migrate_imports in Hm as [(_ & _ & Hdur & Hvis & _) _].
  destruct x as [[]|e]; [|by destruct H as [-> ->]].
  apply sys_then in H as [(e & -> & Hf)|(w2 & Hf & H)]; [by destruct Hf as [fs ->]|].
  assert (inv w2) as Hw2 by (eapply keeps_disk; [exact Hw1|exact Hf|done]).
  assert (disk w2 = disk w1) as E by apply (on_file_deps _ _ _ Hf).
  apply bind_Some in H as (w3 & w3' & Hg & H). apply gets_Some in Hg as [-> ->].
  apply try_Some in H as (y & w3 & Hl & H). destruct (load_loop_inv _ _ _ _ _ _ Hw2 Hl) as [_ Hd3].
  assert (disk w' = disk w1) as ->; [|done]. destruct y as [[m sk]|e]; [|destruct H as [_ ->]; congruence].
  apply bind_Some in H as ([] & w4 & Hm' & H). apply modify_Some in Hm' as ->. apply ret_Some in H as [_ ->].
  cbn [with_load_skipped disk]. congruence.
Qed.

(** ** Start-up and what was stored *)

(** A crash leaves each file as a reader saw it or as it was synced. *)
Definition crash (kept : gset string) (w : World) : World :=
  let pick (f : string) (v d : option Bytes) : option Bytes := if bool_decide (f ∈ kept) then v else d in
  with_disk {| visible := map_imap (λ f _, pick f (visible (disk w) !! f) (durable (disk w) !! f))
                            (visible (disk w) ∪ durable (disk w));
               durable := map_imap (λ f _, pick f (visible (disk w) !! f) (durable (disk w) !! f))
                            (visible (disk w) ∪ durable (disk w));
               legacy := legacy (disk w); archive := archive (disk w) |} w.

Lemma crash_lookup kept w f :
  visible (disk (crash kept w)) !! f = (if bool_decide (f ∈ kept) then visible (disk w) !! f else durable (disk w) !! f) ∧
  durable (disk (crash kept w)) !! f = visible (disk (crash kept w)) !! f.
Proof.
  split; [|done]. cbn. rewrite map_lookup_imap, lookup_union.
  destruct (visible (disk w) !! f), (durable (disk w) !! f); cbn; by destruct (bool_decide _).
Qed.

Lemma good_crash kept w : disk_good (disk w) → disk_good (disk (crash kept w)).
Proof.
  intros Hk f bytes s st Hf. apply (Hk f). destruct (crash_lookup kept w f) as [E1 E2]. rewrite E2, E1 in Hf.
  destruct (bool_decide _); tauto.
Qed.

Lemma new_registry_inv w : disk_good (disk w) → inv (new_registry w).
Proof.
  intros Hk. split; [|intros l d Hd; cbn in Hd; by rewrite lookup_empty in Hd|done].
  split; try (intros ? ? H; cbn in H; by rewrite lookup_empty in H). done.
Qed.

Lemma start_up_Some w r w' :
  disk_good (disk w) → start_up w = Some (r, w') →
  inv w' ∧
  (legacy (disk w) = None → is_ok r = false → disk w' = disk w) ∧
  (is_ok r = true →
   ∃ w1, inv w1 ∧ restored (read_dir (visible (disk w1))) w1 ∧
     (∀ f b, visible (disk w) !! f = Some b → visible (disk w1) !! f = Some b) ∧
     (legacy (disk w) = None → disk w1 = disk w) ∧
     deps w' = deps w1 ∧ deployments w' = deployments w1 ∧
     ∀ f, visible (disk w') !! f = visible (disk w1) !! f ∨
          visible (disk w') !! f = None ∧ f ∉ wanted_files w1 ∧ Str.ends_with ".json" f = true).
Proof.
  intros Hk H. unfold start_up in H. apply bind_Some in H as ([] & w0 & Hm & H). apply modify_Some in Hm as ->.
  apply try_Some in H as (x & w1 & Hl & H). apply load_Some in Hl as (Hw1 & Hleg & Hx); [|by apply new_registry_inv].
  destruct x as [n|e].
  2: { destruct H as [-> ->]. split; [done|]. split; [by intros Hn _; apply (Hleg Hn)|done]. }
  destruct Hx as (w2 & w3 & m & sk & Hw2 & Hvis & Hds & Hdeps & Hloop & -> & Hleg2).
  apply bind_Some in H as (w4 & w4' & Hg & H). apply gets_Some in Hg as [-> ->].
  unfold require_complete_load in H. cbn [with_load_skipped load_skipped] in H.
  destruct sk.
  { apply ret_Some in H as [-> ->]. split; [done|]. split; [by intros Hn _; apply (Hleg Hn)|done]. }
  apply bind_Some in H as (s & w5 & Hs & H). apply ret_Some in H as [-> ->].
  split; [exact (sweep_inv _ _ _ Hw1 Hs)|]. split; [done|]. intros _.
  apply (load_loop_restored _ []) in Hloop as Hr; [|done| |].
  2: { cbn. rewrite read_dir_spec. apply NoDup_fst_map_to_list. }
  2: { split; [|by intros f b ?%not_elem_of_nil]. intros i d Hd. unfold dep_at, get in Hd. by rewrite Hds in Hd. }
  apply sweep_Some in Hs as (v & [fs ->] & Hv). exists (with_load_skipped false w3).
  destruct (load_loop_inv _ _ _ _ _ _ Hw2 Hloop) as [Hw3 Hd3].
  split; [done|]. cbn in Hv. cbn [with_load_skipped disk deps deployments]. rewrite Hd3.
  split; [exact Hr|]. split; [done|]. split; [done|]. split; [done|]. split; [done|].
  intros f. cbn. rewrite <- Hd3. destruct (Hv f) as [E|(E & _ & Hn)]; [left; congruence|by right].
Qed.

Lemma restored_stored w names i s st :
  read_dir (visible (disk w)) = names → inv w → restored names w → i ≠ "" → stored (disk w) i s st →
  ∃ d, dep_at i w = Some d ∧ spec_of d = normalize s ∧ state_of d = st.
Proof.
  intros <- Hw [Hr1 Hr2] Hi (bytes & Hv & Hdec & Hid).
  assert (state_file_name i ∈ read_dir (visible (disk w))) as Hin.
  { rewrite read_dir_spec. apply list_elem_of_fmap. exists (state_file_name i, bytes). split; [done|].
    by apply elem_of_map_to_list. }
  destruct (Hr2 _ _ Hin (extension_state_file _ Hi) Hv) as (s' & st' & d & Hb & Hd).
  assert (s' = s ∧ st' = st) as [-> ->] by (split; congruence). subst i. exists d. split; [done|].
  destruct (Hr1 _ _ Hd) as (_ & s2 & st2 & (b2 & Hb2 & Hdec2 & _) & Hs2 & Hst2). split; congruence.
Qed.

(** A start brings back what is on disk. When the controller starts at all, its deployments are
    the stored ones, with their specs and states, and no others; and the sweep that follows
    deletes no record, so the next start brings back the same. *)
Theorem start_restores_the_records w w' :
  disk_good (disk w) → legacy (disk w) = None → start_up w = Some (Ok tt, w') →
  (∀ i d, dep_at i w' = Some d → ∃ s st, stored (disk w) i s st ∧ spec_of d = normalize s ∧ state_of d = st) ∧
  (∀ i s st, i ≠ "" → stored (disk w) i s st → ∃ d, dep_at i w' = Some d ∧ spec_of d = normalize s ∧ state_of d = st) ∧
  (∀ i, i ≠ "" → visible (disk w') !! state_file_name i = visible (disk w) !! state_file_name i).
Proof.
  intros Hk Hleg H. destruct (start_up_Some _ _ _ Hk H) as (Hw' & _ & Hok).
  destruct (Hok eq_refl) as (w1 & Hw1 & Hr & _ & Hd & Hdeps & Hds & Hv). specialize (Hd Hleg).
  assert (∀ i, dep_at i w' = dep_at i w1) as Hat by (intros i; unfold dep_at, get; by rewrite Hdeps, Hds).
  split; [|split].
  - intros i d. rewrite Hat. intros (_ & Hs)%(proj1 Hr). by rewrite <- Hd.
  - intros i s st Hi. rewrite Hat, <- Hd. by eapply restored_stored.
  - intros i Hi. rewrite <- Hd. destruct (Hv (state_file_name i)) as [E|(E & Hn & _)]; [done|].
    destruct (visible (disk w1) !! state_file_name i) as [bytes|] eqn:Eb.
    + exfalso. apply Hn. assert (state_file_name i ∈ read_dir (visible (disk w1))) as Hin.
      { rewrite read_dir_spec. apply list_elem_of_fmap. exists (state_file_name i, bytes). split; [done|].
        by apply elem_of_map_to_list. }
      destruct (proj2 Hr _ _ Hin (extension_state_file _ Hi) Eb) as (s & st & d & Hb & Hd').
      destruct (inv_disk _ Hw1 _ _ _ _ (or_introl Eb) Hb) as [Hname _]. apply state_file_inj in Hname as ->.
      apply dep_at_deps in Hd' as (l & Hl & _).
      unfold wanted_files. apply elem_of_list_to_set, list_elem_of_fmap. exists (id s). split; [done|].
      apply list_elem_of_fmap. exists (id s, l). split; [done|]. by apply elem_of_map_to_list.
    + done.
Qed.

Lemma start_up_files w r w' :
  disk_good (disk w) → start_up w = Some (r, w') →
  durable (disk w') = durable (disk w) ∧
  (is_ok r = false → ∀ f b, visible (disk w) !! f = Some b → visible (disk w') !! f = Some b).
Proof.
  intros Hk H. unfold start_up in H. apply bind_Some in H as ([] & w0 & Hm & H). apply modify_Some in Hm as ->.
  apply try_Some in H as (x & w1 & Hl & H). apply load_files in Hl as [Hd Hv]; [|by apply new_registry_inv].
  destruct x as [n|e]; [|destruct H as [-> ->]; by split].
  apply bind_Some in H as (w4 & w4' & Hg & H). apply gets_Some in Hg as [-> ->].
  destruct (require_complete_load w1); [|apply ret_Some in H as [-> ->]; by split].
  apply bind_Some in H as (s & w5 & Hs & H). apply ret_Some in H as [-> ->].
  apply sweep_Some in Hs as (v & [fs ->] & _). by split.
Qed.

Lemma start_keeps_record w w' f b s st i :
  disk_good (disk w) → start_up w = Some (Ok tt, w') → i ≠ "" → f = state_file_name i →
  visible (disk w) !! f = Some b → decode b = Some (s, st) →
  ∃ d, dep_at i w' = Some d ∧ spec_of d = normalize s ∧ state_of d = st ∧ visible (disk w') !! f = Some b.
Proof.
  intros Hk H Hi -> Hb Hdec. destruct (start_up_Some _ _ _ Hk H) as (Hw' & _ & Hok).
  destruct (Hok eq_refl) as (w1 & Hw1 & Hr & Hvis & _ & Hdeps & Hds & Hv). apply Hvis in Hb.
  destruct (inv_disk _ Hw1 _ _ _ _ (or_introl Hb) Hdec) as [Hname%state_file_inj _].
  destruct (restored_stored w1 _ i s st eq_refl Hw1 Hr Hi) as (d & Hd & Hs & Hst); [exists b; by split_and!|].
  exists d. unfold dep_at, get. rewrite Hds, Hdeps. split_and!; try done.
  destruct (Hv (state_file_name i)) as [->|(_ & Hn & _)]; [done|]. exfalso. apply Hn. unfold wanted_files.
  apply dep_at_deps in Hd as (l & Hl & _). apply elem_of_list_to_set, list_elem_of_fmap. exists i. split; [done|].
  apply list_elem_of_fmap. exists (i, l). split; [done|]. by apply elem_of_map_to_list.
Qed.

Lemma persist_one_Ok i w w1 d :
  dep_at i w = Some d → persist_one i w = Some (Ok tt, w1) →
  on_file (λ x, sync_dir (record_file d (state_of d) x)) w w1.
Proof.
  intros Hd H%persist_one_Some. rewrite Hd in H. by apply persist_snapshot_Some in H as (k & Hf & ->).
Qed.

(** C15. A write that was acknowledged survives. Once [persist_one] answered for a deployment, then
    after a crash of the host that loses any of the other unsynced files, with a legacy file
    to import or not, a controller that starts has the deployment with exactly that spec
    and state. *)
Theorem acknowledged_record_survives i w d w1 kept w2 :
  inv w → i ≠ "" → dep_at i w = Some d →
  persist_one i w = Some (Ok tt, w1) → start_up (crash kept w1) = Some (Ok tt, w2) →
  ∃ d', dep_at i w2 = Some d' ∧ spec_of d' = normalize (spec_of d) ∧ state_of d' = state_of d.
Proof.
  intros Hw Hi Hd Hp Hs. pose proof (persist_one_inv _ _ _ _ Hw Hp) as Hw1.
  pose proof (persist_one_Ok _ _ _ _ Hd Hp) as [fs ->].
  apply dep_at_deps in Hd as (l & Hl & Hd). destruct (ok_dep _ (inv_ok _ Hw) _ _ Hl) as (x & Hx & Hid).
  assert (x = d) as -> by congruence.
  destruct (start_keeps_record (crash kept (with_disk (sync_dir (record_file d (state_of d) (disk w))) (with_faults fs w)))
    w2 (state_file_name i) (encode (spec_of d) (state_of d)) (spec_of d) (state_of d) i) as (d' & Hd' & Hs' & Hst & _); try done.
  - apply good_crash, Hw1.
  - destruct (crash_lookup kept (with_disk (sync_dir (record_file d (state_of d) (disk w))) (with_faults fs w)) (state_file_name i))
      as [-> _]. cbn. rewrite <- Hid. rewrite lookup_insert_eq. by destruct (bool_decide _).
  - apply decode_encode.
  - by exists d'.
Qed.

(** ** Runs *)

Inductive Event : Type :=
| EvUpsert (s : DeploymentSpec)
| EvUpdate (s : DeploymentSpec)
| EvRemove (i : string)
| EvPublish (l : nat)
| EvDiscovered (l : nat) (us : list string)
| EvStagedDiscovered (l : nat) (us : list string)
| EvDiscoveryBackends (i : string)
| EvPrepare (operation expected : string) (s : DeploymentSpec)
| EvMark (i : string)
| EvCommit (i operation : string)
| EvPersist (i : string)
| EvForget (i : string)
| EvArchive (i : string)
| EvMutate (l : nat) (st : State)        (** by others, who leave retirement and handoff alone *)
| EvSetBackends (l : nat) (bs : list nat)
| EvOutside (h : Heap) (rs : gmap nat RouterState) (t : Z) (fs : list bool).
    (** what requests, probes and the clock do meanwhile, and the outcomes of system calls *)

Definition quietly {A} (m : Op A) : Op unit := _ <-! m ;; ret tt.

Definition step (e : Event) : Op unit :=
  match e with
  | EvUpsert s => quietly (upsert s)
  | EvUpdate s => quietly (update s)
  | EvRemove i => quietly (remove i)
  | EvPublish l => publish l
  | EvDiscovered l us => quietly (apply_discovery_upstreams l us)
  | EvStagedDiscovered l us => quietly (apply_staged_discovery l us)
  | EvDiscoveryBackends i => quietly (discovery_backends i)
  | EvPrepare o e s => quietly (prepare_handoff o e s)
  | EvMark i => quietly (mark_handoff_prepared i)
  | EvCommit i o => quietly (commit_handoff i o)
  | EvPersist i => quietly (persist_one i)
  | EvForget i => quietly (forget i)
  | EvArchive i => d <-! gets (dep_at i) ;; match d with Some d => quietly (archive_record d) | None => ret tt end
  | EvMutate l st =>
    d <-! deref l ;;
    when (bool_decide (retirement st = retirement (state_of d))
          && bool_decide (route_handoff st = route_handoff (state_of d))) (mutate_state l (λ _, st))
  | EvSetBackends l bs => set_backends l bs
  | EvOutside h rs t fs =>
    modify (λ w, {| now := t; heap := h; deps := deps w; routers := rs; deployments := deployments w; index := index w;
                    retired_discovery := retired_discovery w; staged := staged w; load_skipped := load_skipped w;
                    disk := disk w; next := next w; faults := fs |})
  end.

Lemma quietly_Some {A} (m : Op A) w u w' : quietly m w = Some (u, w') ↔ ∃ a, m w = Some (a, w').
Proof.
  unfold quietly. rewrite bind_Some. split.
  - intros (a & w1 & Hm & H). apply ret_Some in H as [_ ->]. by exists a.
  - intros (a & Hm). exists a, w'. by destruct u.
Qed.

Lemma discovery_backends_inv i w r w' :
  discovery_backends i w = Some (r, w') → calm w w'.
Proof.
  intros H. unfold discovery_backends in H. apply bind_Some in H as (w1 & w1' & Hg & H). apply gets_Some in Hg as [-> ->].
  destruct (retired_discovery w !! i); [|apply ret_Some in H as [-> ->]; apply quiet_refl]. cbv zeta in H.
  apply bind_Some in H as ([] & w2 & Hm & H). apply modify_Some in Hm as ->. apply ret_Some in H as [-> ->]. by split.
Qed.

Lemma step_inv e w u w' : inv w → step e w = Some (u, w') → inv w'.
Proof.
  intros Hw. destruct e; cbn [step]; rewrite ?quietly_Some; intros H; try match type of H with ex _ => destruct H as [a H] end.
  - by apply upsert_inv in H as [H _].
  - by eapply update_inv.
  - by eapply remove_inv.
  - by eapply publish_inv.
  - unfold apply_discovery_upstreams in H. apply bind_Some in H as (d & w1 & Hd & H). apply deref_Some in Hd as [_ ->].
    by apply upsert_inv in H as [H _].
  - by eapply apply_staged_inv.
  - eapply inv_calm; [done|by eapply discovery_backends_inv].
  - by eapply prepare_inv.
  - by eapply mark_inv.
  - by eapply commit_inv.
  - by eapply persist_one_inv.
  - by eapply forget_inv.
  - apply bind_Some in H as (d & w1 & Hg & H). apply gets_Some in Hg as [-> ->].
    destruct (dep_at i w) as [d|] eqn:Ed; [|by apply ret_Some in H as [_ ->]]. apply quietly_Some in H as [r H].
    apply dep_at_deps in Ed as (l & _ & Hd). eapply archive_inv; [done|by eapply inv_handoff|exact H].
  - apply bind_Some in H as (d & w1 & Hd & H). apply deref_Some in Hd as [Hd ->].
    destruct (_ && _) eqn:Eb; cbn [when] in H; [|by apply ret_Some in H as [_ ->]].
    apply andb_true_iff in Eb as [_ Eh%bool_decide_eq_true].
    apply mutate_state_Some in H as (x & x' & Hx & Hx' & Hq & Hs & Hr & Hst & _). assert (x = d) as -> by congruence.
    eapply (inv_restates l d x'); [done|by split_and!|]. rewrite Hst.
    eapply handoff_ok_same; [by rewrite Hs|exact Eh|by eapply inv_handoff].
  - apply set_backends_Some in H as (x & x' & Hx & Hx' & Hq & Hs & Hr & Hst & _).
    eapply (inv_restates l x x'); [done|by split_and!|]. rewrite Hst.
    eapply handoff_ok_same; [by rewrite Hs|done|by eapply inv_handoff].
  - apply modify_Some in H as ->. by destruct Hw as [[] ? ?].
Qed.

(** The controller: a process on its world, or none, over what it left on disk. *)
Inductive Sys : Type := Up (w : World) | Down (w : World).
Inductive SysEvent (E : Type) : Type := Do (e : E) | Crash (kept : gset string) | Start (fs : list bool).

Section controller.
Context {E : Type} (estep : E → Op unit).

(** Nothing happens to a controller that is not there, and a second one cannot start. *)
Definition sys_step (e : SysEvent E) (s : Sys) : option Sys :=
  match e, s with
  | Do _ e, Up w => '(_, w) ← estep e w; Some (Up w)
  | Crash _ kept, Up w | Crash _ kept, Down w => Some (Down (crash kept w))
  | Start _ fs, Down w =>
    '(r, w) ← start_up (with_faults fs w);
    Some (match r with Ok _ => Up w | Err _ => Down w end)
  | _, _ => Some s
  end.

Fixpoint run (es : list (SysEvent E)) (s : Sys) : option Sys :=
  match es with [] => Some s | e :: es => s ← sys_step e s; run es s end.

Definition sys_ok (s : Sys) : Prop := match s with Up w => inv w | Down w => disk_good (disk w) end.

Lemma sys_step_ok e s s' :
  (∀ e w u w', inv w → estep e w = Some (u, w') → inv w') → sys_ok s → sys_step e s = Some s' → sys_ok s'.
Proof.
  intros Hstep Hs. destruct e as [e|kept|fs], s as [w|w]; cbn [sys_step]; try (by intros [= <-]).
  - destruct (estep e w) as [[u w1]|] eqn:E1; [|done]. intros [= <-]. by eapply Hstep.
  - intros [= <-]. by apply good_crash, (inv_disk _ Hs).
  - intros [= <-]. by apply good_crash.
  - destruct (start_up _) as [[r w1]|] eqn:E1; [|done]. intros [= <-].
    destruct (start_up_Some (with_faults fs w) r w1 Hs E1) as [Hw1 _]. destruct r; [done|]. apply (inv_disk _ Hw1).
Qed.

Lemma run_sys_ok es s s' :
  (∀ e w u w', inv w → estep e w = Some (u, w') → inv w') → sys_ok s → run es s = Some s' → sys_ok s'.
Proof.
  intros Hstep. revert s. induction es as [|e es IH]; intros s Hs H; cbn [run] in H; [by injection H as <-|].
  destruct (sys_step e s) as [s1|] eqn:E1; [|done]. apply (IH s1); [by eapply sys_step_ok|done].
Qed.
End controller.

Definition empty_disk : Disk := {| visible := ∅; durable := ∅; legacy := None; archive := ∅ |}.
(** A machine with a disk and no controller yet. *)
Definition machine (dk : Disk) : Sys :=
  Down {| now := 0; heap := ∅; deps := ∅; routers := ∅; deployments := ∅; index := build ∅; retired_discovery := ∅;
          staged := ∅; load_skipped := false; disk := dk; next := 0; faults := [] |}.

(** ** Routing *)

Lemma find_first {A} (R : A → A → Prop) (f : A → bool) (l : list A) (a : A) :
  Sorted.StronglySorted R l → List.find f l = Some a → ∀ b, b ∈ l → f b = true → b = a ∨ R a b.
Proof.
  induction 1 as [|x l Hs IH Hx]; [done|]. cbn [List.find]. destruct (f x) eqn:Ef.
  - intros [= <-] b [->|Hb]%elem_of_cons _; [by left|right]. rewrite List.Forall_forall in Hx. by apply Hx, list_elem_of_In.
  - intros Hf b [->|Hb]%elem_of_cons Hfb; [congruence|by apply IH].
Qed.

Lemma flat_resolve_spec ds h path :
  match flat_resolve ds h path with
  | Some i => ∃ d r, d ∈ ds ∧ spec_id d = i ∧ r ∈ spec_routes d ∧ matches r h path = true ∧
                ∀ d' r', d' ∈ ds → r' ∈ spec_routes d' → matches r' h path = true → (specificity r' <= specificity r)%N
  | None => ∀ d r, d ∈ ds → r ∈ spec_routes d → matches r h path = false
  end.
Proof.
  unfold flat_resolve, flat_table. set (es := flat_map entries_of ds).
  assert (∀ e, e ∈ sort_by by_specificity es ↔ ∃ d, d ∈ ds ∧ spec_id d = snd e ∧ fst e ∈ spec_routes d) as Hin.
  { intros e. rewrite (sort_by_perm by_specificity es). unfold es. rewrite list_elem_of_In, in_flat_map.
    split; intros (d & Hd & He); exists d.
    - apply list_elem_of_In in Hd. unfold entries_of in He. apply in_map_iff in He as (r & <- & Hr).
      cbn. split_and!; try done. by apply list_elem_of_In.
    - split; [by apply list_elem_of_In|]. destruct He as [Hi Hr]. apply in_map_iff. exists (fst e).
      split; [by destruct e; cbn in *; subst|by apply list_elem_of_In]. }
  destruct (List.find _ _) as [[r i]|] eqn:Ef; cbn.
  - pose proof (find_some _ _ Ef) as [He Hm]. apply list_elem_of_In, Hin in He as (d & Hd & Hi & Hr).
    exists d, r. split_and!; try done. intros d' r' Hd' Hr' Hm'.
    destruct (find_first _ _ _ _ (sort_by_sorted by_specificity es) Ef (r', spec_id d')) as [He|Hle].
    + apply Hin. by exists d'.
    + done.
    + injection He as -> _. lia.
    + unfold le_by, by_specificity in Hle. cbn [fst] in Hle.
      destruct (N.compare_spec (specificity r') (specificity r)); [lia|lia|done].
  - intros d r Hd Hr. apply (find_none _ _ Ef (r, spec_id d)). apply list_elem_of_In, Hin. by exists d.
Qed.

Lemma sources_elem w d : ok w → d ∈ (map_to_list (sources w)).*2 ↔ ∃ i x, dep_at i w = Some x ∧ d = source_of x.
Proof.
  intros Hw. rewrite list_elem_of_fmap. split.
  - intros ([i s] & -> & H%elem_of_map_to_list). rewrite sources_lookup in H. cbn.
    unfold dep_at, get. destruct (deployments w !! i) as [l|] eqn:El; [|done]. cbn in H.
    destruct (deps w !! l) as [x|] eqn:Ex; [|done]. exists i, x. rewrite El. cbn. split; [done|].
    by injection H as <-.
  - intros (i & x & Hx & ->). exists (i, source_of x). split; [done|]. apply elem_of_map_to_list. rewrite sources_lookup.
    unfold dep_at, get in Hx. destruct (deployments w !! i); [|done]. cbn in *. by rewrite Hx.
Qed.

(** C33. A request is routed to the deployment with the most specific rule that matches it, among the
    deployments registered at that moment, and to nothing only when no rule matches, whatever
    was registered, replaced, removed, handed off, loaded and lost before. *)
Theorem route_follows_the_registry es dk w h path :
  disk_good dk → run step es (machine dk) = Some (Up w) →
  (∀ i d r, dep_at i w = Some d → r ∈ routes (spec_of d) → host r = None → (specificity r < 1000000)%N) →
  match route h path w with
  | Some l => ∃ i d r, get i w = Some l ∧ dep_at i w = Some d ∧ r ∈ routes (spec_of d) ∧ matches r h path = true ∧
                ∀ j d' r', dep_at j w = Some d' → r' ∈ routes (spec_of d') → matches r' h path = true →
                  (specificity r' <= specificity r)%N
  | None => ∀ i d r, dep_at i w = Some d → r ∈ routes (spec_of d) → matches r h path = false
  end.
Proof.
  intros Hk Hrun Ht. assert (ok w) as Hw by (apply inv_ok; exact (run_sys_ok step es (machine dk) _ step_inv Hk Hrun)).
  unfold route. rewrite (ok_index _ Hw). unfold build. rewrite resolve_flat.
  2: { unfold tiers_apart. apply List.Forall_forall. intros [r i] (d & Hd & He)%in_flat_map Hh.
       apply list_elem_of_In, (sources_elem w d Hw) in Hd as (j & x & Hx & ->).
       apply in_map_iff in He as (r' & [= -> _] & Hr). apply (Ht j x); [done|by apply list_elem_of_In|done]. }
  pose proof (flat_resolve_spec (map_to_list (sources w)).*2 h path) as Hspec.
  destruct (flat_resolve _ h path) as [i|]; cbn.
  - destruct Hspec as (s & r & Hs & Hi & Hr & Hm & Hmax). apply (sources_elem w s Hw) in Hs as (j & x & Hx & ->).
    pose proof Hx as (l & Hl & Hd)%dep_at_deps. destruct (ok_dep _ Hw _ _ Hl) as (x' & Hx' & Hid).
    assert (x' = x) as -> by congruence. cbn [source_of spec_id] in Hi. assert (i = j) as -> by congruence. rewrite Hl.
    exists j, x, r. split_and!; try done. intros j' d' r' Hd' Hr' Hm'.
    apply (Hmax (source_of d') r'); [|done|done]. apply sources_elem; [done|]. by exists j', d'.
  - intros i d r Hd Hr. apply (Hspec (source_of d) r); [|done]. apply sources_elem; [done|]. by exists i, d.
Qed.

(** ** The switch of a handoff *)

Lemma withdrawn_all d h b x : b ∈ backends (base d) → h !! b = Some x → b ∈ withdrawn [] d h.
Proof.
  intros Hb Hx. unfold withdrawn. apply list_elem_of_In, List.filter_In. split; [by apply list_elem_of_In|]. by rewrite Hx.
Qed.

(** A handoff switches at one point. Committing it requires that it was prepared for this
    operation and this very deployment, that the staged runtime still attests the policy, the
    boot and the version it was prepared with, and that no other deployment has come to
    overlap its routes; then the staged deployment takes the id, every backend of the old one is
    closed to new requests, and a crash after it brings back the staged spec with the handoff
    committed. When it is refused, or the write fails, nothing that serves has changed; asking
    again after it succeeded changes nothing. *)
Theorem handoff_switches_once i operation w r w' :
  inv w → commit_handoff i operation w = Some (r, w') →
  match r with
  | Err _ => deployments w' = deployments w ∧ deps w' = deps w ∧ heap w' = heap w ∧ index w' = index w ∧ staged w' = staged w
  | Ok rec =>
    phase rec = Committed ∧ rh_operation_id rec = operation ∧
    (w' = w ∨
     ∃ l sl d s p old s', committable i operation w l sl d s p old ∧ rec = commit_record old ∧
       get i w' = Some sl ∧ dep_at i w' = Some s' ∧ spec_of s' = spec_of s ∧ route_handoff (state_of s') = Some rec ∧
       (∀ j, j ≠ i → get j w' = get j w) ∧ staged w' !! i = None ∧
       (∀ b x, b ∈ backends (base d) → heap w' !! b = Some x → draining x = true) ∧
       ∀ kept w2, i ≠ "" → start_up (crash kept w') = Some (Ok tt, w2) →
         ∃ s2, dep_at i w2 = Some s2 ∧ spec_of s2 = normalize (spec_of s) ∧ route_handoff (state_of s2) = Some rec)
  end.
Proof.
  intros Hw H. pose proof (commit_inv _ _ _ _ _ Hw H) as Hw'.
  destruct (commit_spec _ _ _ _ _ (inv_ok _ Hw) H) as [[-> Hr]|(l & sl & d & s & p & rec & Hc & Hcase)].
  { destruct r as [rec|e]; [|done]. destruct Hr as (Hp & Ho & _). split; [done|]. split; [done|]. by left. }
  cbv zeta in Hcase.
  destruct Hcase as [(e & f & -> & Hf & _)|(w1 & s2 & w2 & w3 & w4 & -> & Hf & Hre & Hst & Hbs & Hfence & Hi & ->)].
  { destruct (on_file_deps _ _ _ Hf) as (E1 & E2 & E3 & E4 & _ & _ & _ & E5 & _). by split_and!. }
  cbn [commit_record phase rh_operation_id]. split; [done|]. split; [apply Hc|]. right.
  destruct (committable_ids _ _ _ _ _ _ _ _ _ (inv_ok _ Hw) Hc) as [Hid Hids].
  destruct (on_file_deps _ _ _ Hf) as (Ed1 & Eds1 & Est1 & Eh1 & _ & _ & _ & _ & _ & Edk1).
  pose proof Hre as (Hq & _ & Hs2 & Hspec & _). pose proof (fence_discovery_removals_calm _ _ _ _ _ Hfence) as Hcalm.
  apply install_Some in Hi as (Hi1 & Hi2 & _ & Hi4 & Hi5 & _ & _ & _ & Hi9 & _).
  assert (deployments w4 = <[i := sl]> (deployments w)) as Hds
    by (rewrite Hi2, (q_deployments _ _ _ Hcalm), (q_deployments _ _ _ Hq); congruence).
  assert (deps w4 !! sl = Some s2) as Hsl by (by rewrite Hi1, (calm_deps _ _ Hcalm)).
  assert (disk w4 = disk w1) as Hdk by (rewrite Hi5, (q_disk _ _ _ Hcalm); apply (q_disk _ _ _ Hq)).
  exists l, sl, d, s, p, rec, s2. split; [done|]. split; [done|].
  split; [unfold get; cbn; by rewrite Hds, lookup_insert_eq|].
  split; [unfold dep_at, get; cbn; rewrite Hds, lookup_insert_eq; cbn; done|]. split; [done|].
  split; [by rewrite Hst|]. split; [|split; [|split]].
  - intros j Hj. unfold get. cbn. by rewrite Hds, lookup_insert_ne.
  - cbn. apply lookup_delete_eq.
  - intros b x Hb. cbn. rewrite Hi9. apply fence_discovery_removals_spec in Hfence as (d' & Hd' & Hgone & _). cbv zeta in Hgone.
    assert (backends (base d') = backends (base d)) as Hbd.
    { destruct (decide (l = sl)) as [->|Hl].
      - assert (d' = s2) as -> by congruence. rewrite Hbs. f_equal. f_equal.
        pose proof (cm_dep _ _ _ _ _ _ _ _ _ Hc). pose proof (cm_runtime _ _ _ _ _ _ _ _ _ Hc). congruence.
      - rewrite (q_deps _ _ _ Hq), Ed1, (cm_dep _ _ _ _ _ _ _ _ _ Hc) in Hd' by done. by injection Hd' as <-. }
    rewrite Hgone, drain_all_lookup. destruct (heap w2 !! b) as [y|] eqn:Ey; [|done]. cbn. intros [= <-].
    rewrite bool_decide_eq_true_2; [done|]. apply (withdrawn_all d' _ _ y); [by rewrite Hbd|done].
  - intros kept w5 Hi' Hstart.
    destruct (start_keeps_record (crash kept (with_staged (delete i (staged w4)) w4)) w5 (state_file_name i)
      (encode (spec_of s) (commit_state p rec s)) (spec_of s) (commit_state p rec s) i) as (s5 & Hd5 & Hs5 & Hst5 & _); try done.
    + apply good_crash, Hw'.
    + destruct (crash_lookup kept (with_staged (delete i (staged w4)) w4) (state_file_name i)) as [-> _]. cbn.
      rewrite Hdk, Edk1. cbn. rewrite <- Hids, lookup_insert_eq. by destruct (bool_decide _).
    + apply decode_encode.
    + exists s5. split_and!; try done. by rewrite Hst5.
Qed.
End registry.

Arguments DeploymentSpec : clear implicits.
Arguments RolloutOperation : clear implicits.
Arguments RetirementOperation : clear implicits.
Arguments RouteHandoffRecord : clear implicits.
Arguments Dep : clear implicits.
Arguments Disk : clear implicits.
Arguments World : clear implicits.
Arguments Externals : clear implicits.
Arguments Sys : clear implicits.
Arguments Event : clear implicits.
Arguments Do {E}.
Arguments Crash {E}.
Arguments Start {E}.

(** ** A concrete controller *)

(** The laws hold of something: a file that remembers its record. *)
Module Demo.
Inductive Json : Type :=
| Null | Text (s : string) | Target (t : RetirementTarget) | Request (operation : string) (t : RetirementTarget)
| Report (state : string) (subject answer : Json).
#[export] Instance Json_eq_dec : EqDecision Json.
Proof. solve_decision. Defined.

Abbreviation Spec := (DeploymentSpec unit unit).
Abbreviation Durable := (DeploymentState (RetirementOperation unit unit Json) CreateAttempt (RolloutOperation unit unit)
                           (RouteHandoffRecord unit unit)).
Abbreviation File := (option (Spec * Durable)).
Abbreviation Controller := (World unit unit unit Json File).

#[export] Instance externals : Externals unit unit Json File := {
  url_parse := λ _, None;
  show_Z := λ _, "";
  encode := λ s st, Some (s, st);
  decode := λ f, f;
  decode_legacy := λ f, match f with Some (s, _) => Some [s] | None => None end;
  empty := None;
  hash := λ s, if is_some (discovery s) then "discovered" else "plain";
  hash_sorted := λ s, "spec of " +:+ id s;
  sha256 := λ f, match f with Some (s, _) => id s | None => "" end;
  read_dir := λ m, (map_to_list m).*1;
  revision := λ n, if (n =? 0)%nat then "r0" else "r";
  boot_id := λ _, "boot";
  normalize_rest := λ _ r, r;
  validate := λ s, negb (String.eqb (id s) "");
}.

#[export] Instance demo_laws : ExternalsLaws (Rest := unit) (Site := unit) (Json := Json) (Bytes := File).
Proof.
  split; try done. intros s s'. cbn. destruct (discovery s), (discovery s'); done.
Qed.

Definition policy : ScalingPolicy :=
  {| min_replicas := 0; max_replicas := 2; warm_pool := 0; target_concurrency := 1;
     scale_to_zero_after_secs := 300; cold_start_timeout_secs := 30 |}.
Definition rule (h p : string) : RouteRule :=
  {| host := Some h; host_suffix := None; path_prefix := Some p; strip_prefix := false |}.
(** A managed deployment. *)
Definition managed (i : string) (rs : list RouteRule) : Spec :=
  {| id := i; namespace := "team"; routes := rs; maintenance := false; site := None; scaling := policy;
     upstreams := []; discovery := None; gateway := None; rest_of := tt |}.
(** A discovered one, flat or regional. *)
Definition secret : SecretRef :=
  {| sr_secret := "s"; sr_key := "k"; sr_username := None; sr_namespace := Some "team" |}.
Definition discovered (i : string) (region : option string) (regional : option RegionalSpec) (us : list string) : Spec :=
  {| id := i; namespace := "team"; routes := [rule "shop.example" "/"]; maintenance := false; site := None;
     scaling := policy; upstreams := us;
     discovery := Some {| service_id := i; ds_region := region; ds_regional := regional;
                          source := Some {| ds_url := "https://discovery.example"; ds_auth := secret |} |};
     gateway := None; rest_of := tt |}.

Definition start : SysEvent (Event unit unit Json) := Start [].
End Demo.

Section examples.
Import Demo.
Let shop : Spec := managed "shop" [rule "shop.example" "/"].
Let api : Spec := managed "api" [rule "shop.example" "/api"].
Let regional_shop : Spec :=
  discovered "shop" (Some "eu")
    (Some {| gateway_id := "g-eu"; rs_backend_server_id := "host"; environment := "live"; rs_auth := secret |}) [].
Let flat_shop : Spec := discovered "shop" None None ["10.0.0.1:80"].
(** What the router of the staged runtime has adopted. *)
Let eu : Region :=
  {| region := "eu"; weight := 1;
     gateways := [{| gw_id := "g-eu"; gw_backend_server_id := "host"; gw_url := "https://eu.example" |}] |}.
Let adopted_router : RouterState :=
  {| snapshot := Some
       {| protocol_version := 1; LbRegional.service_id := "shop"; sn_environment := "live"; sn_region := "eu";
          sn_gateway_id := "g-eu"; sn_boot_id := "boot"; version := 1; LbRegional.operation_id := "op1";
          LbRegional.phase := "bake"; proposal_generation := 1; active_generation := Some 1%Z; drain_target := None;
          closed_through_generation := 0;
          policies := [{| generation := 1; LbRegional.policy := {| pol_version := 1; regions := [eu] |} |}]; endpoints := [] |};
     observed_at := Some 5%Z; local := [1%nat]; counters := ∅; sequence := 0; fenced := false |}.
Let handoff : list (SysEvent (Event unit unit Json)) :=
  [start; Do (EvUpsert flat_shop); Do (EvPrepare "op1" "sha256:discovered" regional_shop);
   Do (EvOutside {[ 1%nat := new_backend 0 "vm1" "10.0.0.1:80" ]} {[ 4%nat := adopted_router ]} 5 []); Do (EvMark "shop")].
Let go (es : list (SysEvent (Event unit unit Json))) : option (Sys unit unit unit Json File) := run step es (machine empty_disk).

Example registered :
  match go [start; Do (EvUpsert shop); Do (EvUpsert api)] with
  | Some (Up w) => (route (Some "shop.example") "/api/x" w, route (Some "shop.example") "/x" w, route None "/" w)
  | _ => (None, None, None)
  end = (Some 3, Some 1, None)%nat.
Proof. vm_compute. reflexivity. Qed.

Lemma empty_good : disk_good (Bytes := File) (Ext := externals) empty_disk.
Proof. intros f b s st [H|H]; cbn in H; by rewrite lookup_empty in H. Qed.
Lemma go_ok es w : go es = Some (Up w) → inv w.
Proof. intros H. exact (run_sys_ok step es (machine empty_disk) _ step_inv empty_good H). Qed.

(** Every rule of every deployment. *)
Lemma every_rule (f : RouteRule → bool) (w : Controller) :
  forallb (λ d, forallb f (routes (spec_of d))) (all_deps w) = true →
  ∀ i d r, dep_at i w = Some d → r ∈ routes (spec_of d) → f r = true.
Proof.
  intros Hf i d r (l & Hl & Hd)%dep_at_deps Hr.
  rewrite forallb_forall in Hf. specialize (Hf d). rewrite forallb_forall in Hf. apply Hf; [|by apply list_elem_of_In].
  apply list_elem_of_In. unfold all_deps. apply list_elem_of_omap. exists l. split; [|done].
  apply list_elem_of_fmap. exists (i, l). split; [done|]. by apply elem_of_map_to_list.
Qed.

(** A run that a check accepts. *)
Lemma checked es (P : Controller → bool) :
  match go es with Some (Up w) => P w | _ => false end = true → ∃ w, go es = Some (Up w) ∧ P w = true.
Proof. destruct (go es) as [[w|w]|]; [|done..]. intros HP. by exists w. Qed.
Definition succeeds {E A W} (m : option (result E A * W)) (k : W → bool) : bool :=
  match m with Some (Ok _, w) => k w | _ => false end.
Lemma succeeds_spec {E W} (m : option (result E unit * W)) k :
  succeeds m k = true → ∃ w, m = Some (Ok tt, w) ∧ k w = true.
Proof. destruct m as [[[[]|] w]|]; [|done..]. intros Hk. by exists w. Qed.

Lemma route_follows_the_registry_witness :
  ∃ w d r, go [start; Do (EvUpsert shop); Do (EvUpsert api)] = Some (Up w) ∧
    dep_at "api" w = Some d ∧ r ∈ routes (spec_of d) ∧ matches r (Some "shop.example") "/api/x" = true ∧
    route (Some "shop.example") "/api/x" w ≠ None.
Proof.
  destruct (checked [start; Do (EvUpsert shop); Do (EvUpsert api)]
    (λ w, forallb (λ d, forallb (λ r, is_some (host r)) (routes (spec_of d))) (all_deps w)
          && match dep_at "api" w with Some d => bool_decide (routes (spec_of d) = routes api) | None => false end))
    as (w & Hgo & [Hh Ha]%andb_true_iff); [vm_compute; reflexivity|].
  destruct (dep_at "api" w) as [d|] eqn:Hd; [|done]. apply bool_decide_eq_true in Ha.
  pose proof (route_follows_the_registry _ _ w (Some "shop.example") "/api/x" empty_good Hgo) as Ht.
  exists w, d, (rule "shop.example" "/api"). split; [done|]. split; [done|]. split; [rewrite Ha; by left|]. split; [reflexivity|].
  intros Hn. rewrite Hn in Ht.
  assert (matches (rule "shop.example" "/api") (Some "shop.example") "/api/x" = false) as Hm; [|by vm_compute in Hm].
  apply (Ht (λ i x r Hx Hin Hhost, match eq_trans (eq_sym (every_rule _ w Hh i x r Hx Hin)) (f_equal is_some Hhost) with end)
            "api" d); [done|rewrite Ha; by left].
Defined.

Lemma acknowledged_record_survives_witness :
  ∃ w d w1 w2, go [start; Do (EvUpsert shop)] = Some (Up w) ∧ dep_at "shop" w = Some d ∧
    persist_one "shop" w = Some (Ok tt, w1) ∧ start_up (crash ∅ w1) = Some (Ok tt, w2) ∧
    ∃ d', dep_at "shop" w2 = Some d' ∧ state_of d' = state_of d.
Proof.
  destruct (checked [start; Do (EvUpsert shop)]
    (λ w, is_some (dep_at "shop" w)
          && succeeds (persist_one "shop" w) (λ w1, succeeds (start_up (crash ∅ w1)) (λ _, true))))
    as (w & Hgo & [Hs (w1 & H1 & (w2 & H2 & _)%succeeds_spec)%succeeds_spec]%andb_true_iff); [vm_compute; reflexivity|].
  destruct (dep_at "shop" w) as [d|] eqn:Hd; [|done].
  exists w, d, w1, w2. split; [done|]. split; [done|]. split; [done|]. split; [done|].
  destruct (acknowledged_record_survives "shop" w d w1 ∅ w2 (go_ok _ _ Hgo) ltac:(discriminate) Hd H1 H2)
    as (d' & Hd' & _ & Hst). by exists d'.
Defined.

Lemma start_restores_the_records_witness :
  ∃ w w' d, go [start; Do (EvUpsert shop); Do (EvPersist "shop")] = Some (Up w) ∧
    start_up (crash ∅ w) = Some (Ok tt, w') ∧ dep_at "shop" w' = Some d ∧
    ∃ s st, stored (disk (crash ∅ w)) "shop" s st ∧ spec_of d = normalize s ∧ state_of d = st.
Proof.
  destruct (checked [start; Do (EvUpsert shop); Do (EvPersist "shop")]
    (λ w, negb (is_some (legacy (disk w)))
          && succeeds (start_up (crash ∅ w)) (λ w', is_some (dep_at "shop" w'))))
    as (w & Hgo & [Hl (w' & Hs & Hd)%succeeds_spec]%andb_true_iff); [vm_compute; reflexivity|].
  destruct (dep_at "shop" w') as [d|] eqn:Ed; [|done]. exists w, w', d. split; [done|]. split; [done|]. split; [done|].
  refine (proj1 (start_restores_the_records (crash ∅ w) w' _ _ Hs) "shop" d Ed).
  - apply good_crash, (inv_disk _ (go_ok _ _ Hgo)).
  - cbn. by destruct (legacy (disk w)).
Defined.

Lemma handoff_switches_once_witness :
  ∃ w rec w', go handoff = Some (Up w) ∧ commit_handoff "shop" "op1" w = Some (Ok rec, w') ∧ w' ≠ w ∧ phase rec = Committed.
Proof.
  destruct (checked handoff
    (λ w, match commit_handoff "shop" "op1" w with
          | Some (Ok rec, w') => is_some (staged w !! "shop") && negb (is_some (staged w' !! "shop")) | _ => false end))
    as (w & Hgo & H); [vm_compute; reflexivity|].
  destruct (commit_handoff "shop" "op1" w) as [[[rec|] w']|] eqn:E; [|done..].
  exists w, rec, w'. split; [done|]. split; [done|]. split.
  - intros ->. by destruct (is_some (staged w !! "shop")).
  - by destruct (handoff_switches_once "shop" "op1" w (Ok rec) w' (go_ok _ _ Hgo) E) as [Hp _].
Defined.

(** ** What the sweep is for *)

(** A run of the demonstration's controller.  The sweep at start-up is there for a deregistration
    whose file could not be removed. It
    runs after the load, which has by then registered the deployment of that very file: the
    sweep keeps it, and the deployment that was deregistered is back and routed to. *)
Theorem failed_forget_resurrects :
  ∃ w w' : Controller, go [start; Do (EvUpsert shop); Do (EvPersist "shop"); Do (EvRemove "shop"); Do (EvOutside ∅ ∅ 0 [true]);
              Do (EvForget "shop")] = Some (Up w) ∧
    dep_at "shop" w = None ∧ route (Some "shop.example") "/" w = None ∧
    start_up (crash ∅ w) = Some (Ok tt, w') ∧
    dep_at "shop" w' ≠ None ∧ route (Some "shop.example") "/" w' ≠ None ∧ is_some (visible (disk w') !! "shop.json") = true.
Proof.
  destruct (checked [start; Do (EvUpsert shop); Do (EvPersist "shop"); Do (EvRemove "shop"); Do (EvOutside ∅ ∅ 0 [true]);
                     Do (EvForget "shop")]
    (λ w, negb (is_some (dep_at "shop" w)) && negb (is_some (route (Some "shop.example") "/" w))
          && succeeds (start_up (crash ∅ w))
               (λ w', is_some (dep_at "shop" w') && is_some (route (Some "shop.example") "/" w')
                      && is_some (visible (disk w') !! "shop.json"))))
    as (w & Hgo & H); [vm_compute; reflexivity|].
  apply andb_true_iff in H as [[Hd Hr]%andb_true_iff (w' & Hs & [[Hd' Hr']%andb_true_iff Hf]%andb_true_iff)%succeeds_spec].
  exists w, w'. split; [done|]. split; [by destruct (dep_at "shop" w)|].
  split; [by destruct (route _ _ w)|]. split; [done|]. split; [by intros E; rewrite E in Hd'|].
  split; [by intros E; rewrite E in Hr'|done].
Qed.

Let outcome (s : option (Sys unit unit unit Json File)) : option (bool * bool * list string) :=
  match s with
  | Some (Up w) => Some (true, is_some (dep_at "shop" w), read_dir (visible (disk w)))
  | Some (Down w) => Some (false, false, read_dir (visible (disk w)))
  | None => None
  end.

(** A record under a name that is not its id's is loaded, and then swept: the next start has
    lost the deployment. *)
Example renamed_record_is_lost :
  let copy : Disk File := {| visible := {[ "shop copy.json" := encode shop default_state ]};
                 durable := {[ "shop copy.json" := encode shop default_state ]}; legacy := None; archive := ∅ |} in
  outcome (run step [start] (machine copy : Sys unit unit unit Json File)) = Some (true, true, []) ∧
  outcome (run step [start; Crash {["shop copy.json"]}; start] (machine copy : Sys unit unit unit Json File)) = Some (true, false, []).
Proof. split; vm_compute; reflexivity. Qed.

(** An import that stops inside a write leaves an empty file, which the next import keeps
    because the name is taken; the legacy file is moved aside all the same, and every start
    is refused from then on. *)
Example interrupted_import_blocks :
  let old : Disk File := {| visible := ∅; durable := ∅; legacy := Some (encode shop default_state); archive := ∅ |} in
  outcome (run step [Start [false; false; false; true]] (machine old : Sys unit unit unit Json File)) = Some (false, false, ["shop.json"]) ∧
  outcome (run step [Start [false; false; false; true]; start] (machine old : Sys unit unit unit Json File)) = Some (false, false, ["shop.json"]) ∧
  match run step [Start [false; false; false; true]; start] (machine old : Sys unit unit unit Json File) with
  | Some (Down w) => bool_decide (legacy (disk w) = None) && bool_decide (visible (disk w) !! "shop.json" = Some empty)
  | _ => false
  end = true.
Proof. split_and!; vm_compute; reflexivity. Qed.
End examples.
