(* ===== verification/LbRetire.v ===== *)
(** * Retirement: [app-lb/src/retirement.rs]

    The permanent retirement of a managed deployment: an operator approves the exact runtimes, the
    controller freezes the deployment and writes that down before anything else, and then asks
    the host of each runtime to attest its end.  It runs under every guard of the controller, on
    the registry of [LbRegistry]; what the host answers is an argument. *)
From Stdlib Require Import Ascii String ZArith Lia Bool.
From stdpp Require Import base option list strings gmap fin_maps sets.
From S2P Require Import Prelude LbRoutes LbRegional LbPool LbRegistry.
Open Scope string_scope.
Open Scope list_scope.

(** [valid_creation_nanos]. *)
Definition valid_creation_nanos (value : string) : bool :=
  negb (Str.starts_with "0" value) && Str.all Str.is_ascii_digit value
  && match ParseInt.unsigned (2 ^ 128 - 1) value with Some n => (0 <? n)%Z | None => false end.

Inductive RetireError : Type :=
| RequestChanged | NotEligible | InvalidTarget | PersistenceUnresolved | Missing | BackendFailed
| TargetMismatch | StateUnknown | NotAttested.

Section retirement.
Context {Rest Site SandboxStatus Json Bytes : Type}
  `{!EqDecision Rest, !EqDecision Site, !EqDecision Json, !EqDecision Bytes}.
Context `{Ext : !Externals Rest Site Json Bytes, Laws : !ExternalsLaws}.
Local Abbreviation DeploymentSpec := (LbRegistry.DeploymentSpec Rest Site).
Local Abbreviation Operation := (RetirementOperation Rest Site Json).
Local Abbreviation World := (LbRegistry.World Rest Site SandboxStatus Json Bytes).
Local Abbreviation Dep := (LbRegistry.Dep Rest Site SandboxStatus Json).
Local Abbreviation State := (DeploymentState Operation CreateAttempt (RolloutOperation Rest Site) (RouteHandoffRecord Rest Site)).
Local Abbreviation Op := (LbRegistry.Op (SandboxStatus := SandboxStatus)).
Local Notation "x <-! m ;; k" := (bind m (λ x, k)) (at level 100, m at next level, right associativity).
Local Notation "m ;;! k" := (bind m (λ _, k)) (at level 100, right associativity).
Local Notation "x <-?! m ;; k" := (try m (λ x, k)) (at level 100, m at next level, right associativity).
Local Notation "m ;;?! k" := (try m (λ _, k)) (at level 100, right associativity).

(** JSON: [value[key]], [as_str], the JSON of a target and of a request for it; and RFC 3339. *)
Context (field : Json → string → Json) (as_str : Json → option string) (target_json : RetirementTarget → Json)
  (request_json : string → RetirementTarget → Json) (rfc3339 : string → bool).

Definition with_retirement (o : Operation) (s : State) : State :=
  {| retirement := Some o; create_attempts := create_attempts s;
     allocation_history_complete := allocation_history_complete s; rollout_revision := rollout_revision s;
     active_prefix := active_prefix s; rollouts := rollouts s; suspended := suspended s;
     upstream_drains := upstream_drains s; discovery_version := discovery_version s;
     discovery_source_url := discovery_source_url s; route_handoff := route_handoff s |}.

Definition set_op_state (state : string) (o : Operation) : Operation :=
  {| request := request o; op_spec := op_spec o; inventory := inventory o; op_state := state;
     receipts := receipts o; unresolved := unresolved o |}.
Definition set_unresolved (u : option string) (o : Operation) : Operation :=
  {| request := request o; op_spec := op_spec o; inventory := inventory o; op_state := op_state o;
     receipts := receipts o; unresolved := u |}.
Definition add_receipt (i : string) (r : Json) (o : Operation) : Operation :=
  {| request := request o; op_spec := op_spec o; inventory := inventory o; op_state := op_state o;
     receipts := <[i := r]> (receipts o); unresolved := unresolved o |}.

Definition terminal (o : Operation) : bool := String.eqb (op_state o) "retired".

(** [save]. *)
Definition save (l : nat) (o : Operation) : Op (result RetireError unit) :=
  d <-! deref l ;;
  let state := with_retirement o (state_of d) in
  when (negb (terminal o)) (set_state l state) ;;!
  d <-! deref l ;;
  each (λ b, modify (λ w, with_heap (alter (λ x, set_draining x true) b (heap w)) w)) (backends (base d)) ;;!
  r <-! persist_snapshot d state ;;
  match r with
  | Err _ => ret (Err PersistenceUnresolved)
  | Ok _ => when (terminal o) (set_state l state) ;;! ret (Ok tt)
  end.

Definition identifier_byte (b : ascii) : bool := Str.is_ascii_alphanumeric b || Ascii.eqb b "-" || Ascii.eqb b "_".
Definition bounded (n : nat) (s : string) : bool := negb (String.eqb s "") && (String.length s <=? n)%nat.

(** The check of one target. *)
Definition target_ok (t : RetirementTarget) : bool :=
  valid_creation_nanos (created_at_unix_nanos t)
  && forallb (bounded 1024) [backend_server_id t; backend_sandbox_id t; libvirt_connection_uri t; libvirt_domain_uuid t]
  && Str.all identifier_byte (backend_sandbox_id t).

(** [approved], the targets' sandboxes: each valid and new. *)
Fixpoint approve (ts : list RetirementTarget) (approved : gset string) : option (gset string) :=
  match ts with
  | [] => Some approved
  | t :: ts =>
    if negb (target_ok t) || bool_decide (backend_sandbox_id t ∈ approved) then None
    else approve ts ({[backend_sandbox_id t]} ∪ approved)
  end.

(** The sandboxes the controller knows of: serving, booting, suspended, attempted. *)
Definition inventory_of (d : Dep) (h : Heap) : gset string :=
  list_to_set (omap (λ b, LbPool.sandbox_id <$> h !! b) (backends (base d))
               ++ (pv_sandbox_id <$> pending (base d))
               ++ suspended (state_of d)
               ++ omap ca_sandbox_id (create_attempts (state_of d))).

(** [rollout::fingerprint]. *)
Definition fingerprint (s : DeploymentSpec) : string := hash_sorted s.

Definition eligible_request (d : Dep) (r : RetirementRequest) : bool :=
  is_managed (spec_of d) && String.eqb (expected_revision r) (rollout_revision (state_of d))
  && String.eqb (expected_spec_sha256 r) (fingerprint (spec_of d))
  && bounded 128 (operation_id r) && Str.all identifier_byte (operation_id r)
  && negb (bool_decide (targets_of r = [])) && (length (targets_of r) <=? 128)%nat.

(** [freeze]. *)
Definition freeze (l : nat) (r : RetirementRequest) : Op (result RetireError Operation) :=
  d <-! deref l ;;
  match retirement (state_of d) with
  | Some existing =>
    if bool_decide (request existing = r) then save l existing ;;?! ret (Ok existing) else ret (Err RequestChanged)
  | None =>
    if negb (eligible_request d r) then ret (Err NotEligible)
    else
      match approve (targets_of r) ∅ with
      | None => ret (Err InvalidTarget)
      | Some approved =>
        h <-! gets heap ;;
        let found := inventory_of d h in
        let op := {| request := r; op_spec := spec_of d; inventory := sort_by String.compare (elements found);
                     op_state := "frozen"; receipts := ∅;
                     unresolved := if bool_decide (found = approved) then None
                                   else Some "approved targets differ from exact controller inventory" |} in
        save l op ;;?! ret (Ok op)
      end
  end.

(** [receipt]. *)
Definition receipt (value : Json) (operation : string) (t : RetirementTarget) : bool :=
  bool_decide (as_str (field value "state") = Some "retired")
  && bool_decide (field value "request" = request_json operation t)
  && match as_str (field value "retiredAt") with Some s => (String.length s <=? 64)%nat && rfc3339 s | None => false end.

(** Why a frozen deployment cannot be retired yet. *)
Definition blocker_of (s : State) : option string :=
  if existsb (λ a, negb (is_some (ca_sandbox_id a))) (create_attempts s) then
    Some "allocation outcome is ambiguous; no retirement success is possible"
  else if existsb (λ a, match allocation a with
                        | Some intent =>
                          negb (runtime_observed a)
                          || match receipt_of a with
                             | None => true
                             | Some r => negb (accepts intent r) || negb (bool_decide (ca_sandbox_id a = Some (rc_sandbox_id r)))
                             end
                        | None => false
                        end) (create_attempts s) then
    Some "correlated allocation requires a matching receipt and observed runtime"
  else if negb (allocation_history_complete s) then
    Some "legacy allocation history is not authoritative, even after successful create; explicit reconciliation is required"
  else if negb (bool_decide (rollouts s = [])) || is_some (route_handoff s) then
    Some "rollout or route handoff requires explicit reconciliation"
  else None.

(** What a host answers, call after call; an answer that does not come is a failure. *)
Definition Answers : Type := list (result string Json).
Definition ask (answers : Answers) : result RetireError Json * Answers :=
  match answers with
  | Ok v :: answers => (Ok v, answers)
  | Err _ :: answers => (Err BackendFailed, answers)
  | [] => (Err BackendFailed, [])
  end.

(** The record of one target: the receipt it already has, or the one it gives when asked to end. *)
Definition attest (operation : string) (t : RetirementTarget) (answers : Answers) : result RetireError Json * Answers :=
  match ask answers with
  | (Err e, answers) => (Err e, answers)
  | (Ok observed, answers) =>
    if negb (bool_decide (field observed "target" = target_json t)) then (Err TargetMismatch, answers)
    else
      match as_str (field observed "state") with
      | Some "retired" => (Ok (field observed "receipt"), answers)
      | Some "active" | Some "retiring" => ask answers
      | _ => (Err StateUnknown, answers)
      end
  end.

Fixpoint retire_targets (l : nat) (ts : list RetirementTarget) (op : Operation) (answers : Answers) :
    Op (result RetireError Operation) :=
  match ts with
  | [] => ret (Ok op)
  | t :: ts =>
    if is_some (receipts op !! backend_sandbox_id t) then retire_targets l ts op answers
    else
      let '(record, answers) := attest (operation_id (request op)) t answers in
      record <-?! ret record ;;
      if negb (receipt record (operation_id (request op)) t) then ret (Err NotAttested)
      else
        let op := add_receipt (backend_sandbox_id t) record op in
        save l op ;;?! retire_targets l ts op answers
  end.

(** [advance]. *)
Definition advance (l : nat) (answers : Answers) (blocked : option string) : Op (result RetireError Operation) :=
  d <-! deref l ;;
  match retirement (state_of d) with
  | None => ret (Err Missing)
  | Some op =>
    if terminal op then ret (Ok op)
    else if is_some (unresolved op) then ret (Ok op)
    else
      match (match blocked with Some b => Some b | None => blocker_of (state_of d) end) with
      | Some reason =>
        let op := set_unresolved (Some reason) op in save l op ;;?! ret (Ok op)
      | None =>
        let op := set_op_state "retiring" op in
        save l op ;;?!
        op <-?! retire_targets l (targets_of (request op)) op answers ;;
        let op := set_op_state "retired" op in
        save l op ;;?! ret (Ok op)
      end
  end.

(** [retire_deployment], on the deployment the registry has: [freeze], then [advance]. *)
Definition retire_deployment (i : string) (r : RetirementRequest) (answers : Answers) (blocked : option string) :
    Op (option (result RetireError Operation)) :=
  o <-! gets (get i) ;;
  match o with
  | None => ret None
  | Some l =>
    f <-! freeze l r ;;
    match f with
    | Err e => ret (Some (Err e))
    | Ok _ => a <-! advance l answers blocked ;; ret (Some a)
    end
  end.

(** ** Operations and what they claim *)

(** An operation never changes what was approved and found, and is final once it is retired. *)
Record evolves (o o' : Operation) : Prop := {
  ev_request : request o' = request o;
  ev_spec : op_spec o' = op_spec o;
  ev_inventory : inventory o' = inventory o;
  ev_final : terminal o = true → o' = o;
}.

#[local] Instance op_evolves_preorder : PreOrder evolves.
Proof.
  split; [by intros o|]. intros o1 o2 o3 [H1 H2 H3 H4] [K1 K2 K3 K4]. split; try congruence.
  intros Ht. pose proof (H4 Ht) as ->. by apply K4.
Qed.

Definition target_ids (o : Operation) : list string := backend_sandbox_id <$> targets_of (request o).
Definition same_sandboxes (o : Operation) : Prop := ∀ x, x ∈ inventory o ↔ x ∈ target_ids o.
Definition valid_receipt (o : Operation) (t : RetirementTarget) (j : Json) : Prop :=
  receipts o !! backend_sandbox_id t = Some j ∧ receipt j (operation_id (request o)) t = true.

(** Every runtime that was found is an approved target, and its host has attested its end. *)
Definition attested (o : Operation) : Prop :=
  unresolved o = None ∧ same_sandboxes o ∧
  ∀ t, t ∈ targets_of (request o) → ∃ j, valid_receipt o t j.

Record op_ok (o : Operation) : Prop := {
  op_targets : NoDup (target_ids o);
  op_receipts : ∀ t j, t ∈ targets_of (request o) → receipts o !! backend_sandbox_id t = Some j →
    receipt j (operation_id (request o)) t = true;
  op_inventory : unresolved o = None → same_sandboxes o;
  op_terminal : terminal o = true → attested o;
}.

Definition claim (s : DeploymentSpec) (st : State) : Prop :=
  ∀ o, retirement st = Some o → is_managed s = true ∧ op_ok o.

Definition disk_claims (dk : Disk Bytes) : Prop :=
  ∀ f b s st, visible dk !! f = Some b ∨ durable dk !! f = Some b → decode b = Some (s, st) → claim s st.

Record safe (w : World) : Prop := {
  sf_ok : ok w;
  sf_deps : ∀ l d, deps w !! l = Some d → claim (spec_of d) (state_of d);
  sf_staged : ∀ j l d, staged w !! j = Some l → deps w !! l = Some d → is_some (discovery (spec_of d)) = true;
  sf_disk : disk_claims (disk w);
}.

Lemma claim_none s (st : State) : retirement st = None → claim s st.
Proof. by intros Hn o; rewrite Hn. Qed.
Lemma claim_same s (st st' : State) : retirement st' = retirement st → claim s st → claim s st'.
Proof. unfold claim. by intros ->. Qed.

Lemma managed_undiscovered (s : DeploymentSpec) : is_managed s = true → discovery s = None.
Proof.
  unfold is_managed, LbPool.is_managed, LbPool.backend. cbn. intros H%bool_decide_eq_true.
  destruct (is_some (site s)); [done|]. destruct (discovery s); [|done]. by rewrite orb_true_r in H.
Qed.

Lemma normalize_managed (s : DeploymentSpec) : is_managed (normalize s) = is_managed s.
Proof.
  unfold is_managed, LbPool.is_managed, LbPool.backend. cbn. by destruct (discovery s).
Qed.

(** ** What a run does, in small *)

(** The change an operation of the retirement makes to the deployment at [l] and to its file. *)
Record amends (l : nat) (o : Operation) (done_ : bool) (w w' : World) : Prop := {
  am_else : ∀ k, k ≠ l → deps w' !! k = deps w !! k;
  am_deployments : deployments w' = deployments w;
  am_index : index w' = index w;
  am_staged : staged w' = staged w;
  am_next : next w' = next w;
  am_here : ∃ d d', deps w !! l = Some d ∧ deps w' !! l = Some d' ∧ spec_of d' = spec_of d ∧ regional d' = regional d ∧
    let st := with_retirement o (state_of d) in
    (state_of d' = st ∨ done_ = false ∧ state_of d' = state_of d) ∧
    (if done_ then disk w' = sync_dir (record_file d st (disk w))
     else disk w' = disk w ∨ disk w' = record_file d st (disk w));
}.

(** When it may: at the deployment the registry has, from the operation that is there. *)
Definition allowed (w : World) (l : nat) (o : Operation) : Prop :=
  ∃ d, deps w !! l = Some d ∧ get (id (spec_of d)) w = Some l ∧ is_managed (spec_of d) = true ∧ op_ok o ∧
    ∀ o0, retirement (state_of d) = Some o0 → evolves o0 o.

Inductive micro (w w' : World) : Prop :=
| micro_same : deps w' = deps w → deployments w' = deployments w → index w' = index w → staged w' = staged w →
    disk w' = disk w → (next w <= next w')%nat → micro w w'
| micro_creates l d : creates l d w w' → claim (spec_of d) (state_of d) → micro w w'
| micro_install p j : retirement_frozen j w = false →
    (∀ l, p = Some l → ∃ d, deps w !! l = Some d ∧ id (spec_of d) = j) →
    install p j w = Some (tt, w') → micro w w'
| micro_restates l d d' : restates l d d' w w' → retirement (state_of d') = retirement (state_of d) → micro w w'
| micro_stage j l d : deps w !! l = Some d → id (spec_of d) = j → is_some (discovery (spec_of d)) = true →
    w' = with_staged (<[j := l]> (staged w)) w → micro w w'
| micro_unstage j : w' = with_staged (delete j (staged w)) w → micro w w'
| micro_disk dk fs : visible dk = visible (disk w) → (durable dk = durable (disk w) ∨ durable dk = visible (disk w)) →
    w' = with_disk dk (with_faults fs w) → micro w w'
| micro_link l d st fs : deps w !! l = Some d → retirement st = retirement (state_of d) →
    (retirement_frozen (id (spec_of d)) w = false ∨ get (id (spec_of d)) w = Some l) →
    w' = with_disk (record_file d st (disk w)) (with_faults fs w) → micro w w'
| micro_unlink j fs : retirement_frozen j w = false →
    w' = with_disk (unlink_file (state_file_name j) (disk w)) (with_faults fs w) → micro w w'
| micro_amends l o done_ : allowed w l o → amends l o done_ w w' → micro w w'.

(** *** Every small step keeps the claims *)

Lemma quiet_outside (l : nat) (w w' : World) k : quiet (λ k, k = l) w w' → k ≠ l → deps w' !! k = deps w !! k.
Proof. intros Hq Hk. by apply (q_deps _ _ _ Hq). Qed.

Lemma claims_link (d : Dep) st dk : claim (spec_of d) st → disk_claims dk → disk_claims (record_file d st dk).
Proof.
  intros Hc Hk f b s st' Hf Hdec. unfold record_file, link_file in Hf. cbn [visible durable] in Hf.
  destruct Hf as [Hf|Hf]; [|by eapply Hk; [right|]].
  apply lookup_insert_Some in Hf as [[<- <-]|[_ Hf]]; [|by eapply Hk; [left|]].
  rewrite decode_encode in Hdec. by injection Hdec as <- <-.
Qed.

Lemma claims_old (dk dk' : Disk Bytes) :
  disk_claims dk → (∀ f b, visible dk' !! f = Some b ∨ durable dk' !! f = Some b → visible dk !! f = Some b ∨ durable dk !! f = Some b) →
  disk_claims dk'.
Proof. intros Hk Hold f b s st Hf. by eapply Hk, Hold. Qed.

Lemma amends_ok l o b w w' : ok w → amends l o b w w' → ok w'.
Proof.
  intros Hw [H1 H2 H3 H4 H5 (d & d' & Hd & Hd' & Hs & Hr & _)]. apply (ok_change w); try done.
  - intros k x Hx. destruct (decide (k = l)) as [->|Hk]; [|exists x; by rewrite H1].
    exists d'. split; [done|]. congruence.
  - intros k x Hx. rewrite H5. destruct (decide (k = l)) as [->|Hk].
    + pose proof (ok_fresh _ Hw _ _ Hd). split; [done|]. assert (x = d') as -> by congruence. unfold router_ok.
      rewrite Hr, Hs. by apply (ok_router _ Hw _ _ Hd).
    + rewrite H1 in Hx by done. split; [by eapply ok_fresh|by eapply ok_router].
Qed.

Lemma micro_ok w w' : ok w → micro w w' → ok w'.
Proof.
  intros Hw [H1 H2 H3 H4 H5 H6|l d Hc _|p j _ Hp Hi|l d d' Hre _|j l d Hd Hid _ ->|j ->|dk fs _ _ ->|l d st fs _ _ _ ->|j fs _ ->|l o b _ Ha].
  - apply (ok_change w); try done.
    + intros k x Hx. exists x. by rewrite H1.
    + intros k x Hx. rewrite H1 in Hx. pose proof (ok_fresh _ Hw _ _ Hx). split; [lia|by eapply ok_router].
  - by eapply creates_ok.
  - by eapply install_keeps_ok.
  - by eapply restates_ok.
  - destruct Hw as [H1 H2 H3 H4 H5]. split; try done. intros j' k Hk. cbn in Hk.
    apply lookup_insert_Some in Hk as [[<- <-]|[_ Hk]]; [by exists d|by apply H2].
  - destruct Hw as [H1 H2 H3 H4 H5]. split; try done. intros j' k Hk. cbn in Hk.
    apply lookup_delete_Some in Hk as [_ Hk]. by apply H2.
  - by apply disk_ok.
  - by apply disk_ok.
  - by apply disk_ok.
  - by eapply amends_ok.
Qed.

(** Claims follow the deployments: a spec that stays, with an operation that stays or is claimed anew. *)
Lemma safe_deps w w' :
  safe w → ok w' →
  (∀ k x, deps w' !! k = Some x →
     claim (spec_of x) (state_of x) ∧ ∀ y, deps w !! k = Some y → spec_of x = spec_of y) →
  (∀ j k x, staged w' !! j = Some k → deps w' !! k = Some x →
     staged w !! j = Some k ∨ is_some (discovery (spec_of x)) = true) →
  disk_claims (disk w') → safe w'.
Proof.
  intros [H1 H2 H3 H4] Hok Hd Hst Hk. split; [done|by intros l d Hx; apply (Hd l)| |done].
  intros j k x Hj Hx. destruct (Hst j k x Hj Hx) as [Hold|]; [|done].
  destruct (ok_staged _ H1 _ _ Hold) as (y & Hy & _). rewrite (proj2 (Hd _ _ Hx) _ Hy). by eapply H3.
Qed.

Lemma micro_safe w w' : safe w → micro w w' → safe w'.
Proof.
  intros Hw Hm. pose proof (micro_ok _ _ (sf_ok _ Hw) Hm) as Hok.
  pose proof (sf_deps _ Hw) as Hdeps. pose proof (sf_disk _ Hw) as Hdisk.
  destruct Hm as [H1 H2 H3 H4 H5 H6|l d Hc Hcl|p j _ Hp Hi|l d d' Hre Hret|j l d Hd Hid Hdi ->|j ->|dk fs Hv Hdu ->|l d st fs Hd Hst _ ->|j fs _ ->|l o b Hal Ha].
  - apply (safe_deps w); [done|done| | |by rewrite H5].
    + intros k x Hx. rewrite H1 in *. split; [by eapply Hdeps|congruence].
    + intros j k x Hj _. left. congruence.
  - pose proof (c_quiet _ _ _ _ Hc) as Hq. apply (safe_deps w); [done|done| | |by rewrite (q_disk _ _ _ Hq)].
    + intros k x Hx. destruct (decide (k = l)) as [->|Hk].
      * rewrite (c_dep _ _ _ _ Hc) in Hx. injection Hx as <-. split; [done|]. intros y Hy.
        pose proof (ok_fresh _ (sf_ok _ Hw) _ _ Hy). pose proof (c_fresh _ _ _ _ Hc). lia.
      * rewrite (quiet_outside l w) in Hx by done. split; [by eapply Hdeps|congruence].
    + intros j k x Hj _. left. by rewrite <- (q_staged _ _ _ Hq).
  - apply install_Some in Hi as (H1 & _ & _ & H4 & H5 & _). apply (safe_deps w); [done|done| | |by rewrite H5].
    + intros k x Hx. rewrite H1 in *. split; [by eapply Hdeps|congruence].
    + intros j' k x Hj _. left. congruence.
  - destruct Hre as (Hq & Hd & Hd' & Hs & _). apply (safe_deps w); [done|done| | |by rewrite (q_disk _ _ _ Hq)].
    + intros k x Hx. destruct (decide (k = l)) as [->|Hk].
      * assert (x = d') as -> by congruence. split; [|intros y Hy; congruence].
        rewrite Hs. eapply claim_same; [done|by eapply Hdeps].
      * rewrite (quiet_outside l w) in Hx by done. split; [by eapply Hdeps|congruence].
    + intros j k x Hj _. left. by rewrite <- (q_staged _ _ _ Hq).
  - apply (safe_deps w); [done|done|intros k x Hx; cbn in Hx; split; [by eapply Hdeps|congruence]| |done].
    intros j' k x Hj Hx. cbn in Hj, Hx. apply lookup_insert_Some in Hj as [[_ <-]|[_ Hj]]; [right; congruence|by left].
  - apply (safe_deps w); [done|done|intros k x Hx; cbn in Hx; split; [by eapply Hdeps|congruence]| |done].
    intros j' k x Hj Hx. cbn in Hj. apply lookup_delete_Some in Hj as [_ Hj]. by left.
  - apply (safe_deps w); [done|done|intros k x Hx; cbn in Hx; split; [by eapply Hdeps|congruence]|by left|].
    cbn. apply (claims_old (disk w)); [done|]. intros f b. rewrite Hv. destruct Hdu as [-> | ->]; tauto.
  - apply (safe_deps w); [done|done|intros k x Hx; cbn in Hx; split; [by eapply Hdeps|congruence]|by left|].
    cbn. apply claims_link; [|done]. eapply claim_same; [done|by eapply Hdeps].
  - apply (safe_deps w); [done|done|intros k x Hx; cbn in Hx; split; [by eapply Hdeps|congruence]|by left|].
    cbn. apply (claims_old (disk w)); [done|]. intros f b [Hf|Hf]; [left|by right]. cbn in Hf.
    by apply lookup_delete_Some in Hf as [_ Hf].
  - destruct Hal as (d & Hd & _ & Hman & Ho & _). destruct Ha as [H1 _ _ H4 _ (d0 & d' & Hd0 & Hd' & Hs & _ & Hst & Hdk)].
    assert (d0 = d) as -> by congruence. cbv zeta in *.
    assert (claim (spec_of d) (with_retirement o (state_of d))) as Hnew by (by intros o' [= <-]).
    apply (safe_deps w); [done|done| |intros j k x Hj _; left; congruence|].
    + intros k x Hx. destruct (decide (k = l)) as [->|Hk]; [|rewrite H1 in Hx by done; split; [by eapply Hdeps|congruence]].
      assert (x = d') as -> by congruence. split; [|intros y Hy; congruence]. rewrite Hs.
      destruct Hst as [-> |[_ ->]]; [done|by eapply Hdeps].
    + pose proof (claims_link d _ _ Hnew Hdisk) as Hl.
      destruct b; [|by destruct Hdk as [-> | ->]]. rewrite Hdk. apply (claims_old _ _ Hl). intros f b [Hf|Hf]; by left.
Qed.

Lemma micros_safe w w' : safe w → rtc micro w w' → safe w'.
Proof. intros Hw Hm. induction Hm; [done|]. apply IHHm. by eapply micro_safe. Qed.

(** ** A frozen deployment *)

Section frozen.
Context (i : string) (Q : Operation → Prop) (HQ : ∀ o o', evolves o o' → Q o → Q o').

(** Its record in memory, and on disk whatever a crash leaves of the files. *)
Definition mem_frozen (w : World) : Prop :=
  ∃ l d o, get i w = Some l ∧ deps w !! l = Some d ∧ retirement (state_of d) = Some o ∧ Q o.
Definition disk_frozen (dk : Disk Bytes) : Prop :=
  ∀ v, v = visible dk ∨ v = durable dk →
    ∃ b s st o, v !! state_file_name i = Some b ∧ decode b = Some (s, st) ∧ id s = i ∧ retirement st = Some o ∧ Q o.

Definition frozen (w : World) : Prop := mem_frozen w ∧ disk_frozen (disk w).

(** What may be written for [i]. *)
Definition may_write (s : DeploymentSpec) (st : State) : Prop := id s = i → ∃ o, retirement st = Some o ∧ Q o.

Lemma disk_frozen_link (d : Dep) (st : State) dk :
  disk_frozen dk → may_write (spec_of d) st → disk_frozen (record_file d st dk).
Proof.
  intros Hk Hm v [-> | ->]; [|by apply Hk; right]. unfold record_file. cbn [visible link_file].
  destruct (decide (id (spec_of d) = i)) as [E|Hne].
  - destruct (Hm E) as (o & Ho & Hq). exists (encode (spec_of d) st), (spec_of d), st, o.
    rewrite E, lookup_insert_eq. split_and!; try done. apply decode_encode.
  - rewrite lookup_insert_ne; [by apply Hk; left|]. intros Hf. by apply Hne, state_file_inj.
Qed.

Lemma disk_frozen_written (d : Dep) (st : State) dk :
  id (spec_of d) = i → may_write (spec_of d) st → disk_frozen (sync_dir (record_file d st dk)).
Proof.
  intros E Hm. destruct (Hm E) as (o & Ho & Hq). intros v Hv.
  assert (v = visible (record_file d st dk)) as -> by (by destruct Hv). exists (encode (spec_of d) st), (spec_of d), st, o.
  unfold record_file. cbn [visible link_file]. rewrite E, lookup_insert_eq. split_and!; try done. apply decode_encode.
Qed.

Lemma disk_frozen_views dk dk' :
  disk_frozen dk → visible dk' = visible dk → (durable dk' = durable dk ∨ durable dk' = visible dk) → disk_frozen dk'.
Proof. intros Hk Hv Hd v [-> | ->]; [|destruct Hd as [-> | ->]]; [rewrite Hv|..]; apply Hk; auto. Qed.

Lemma disk_frozen_unlink f dk : f ≠ state_file_name i → disk_frozen dk → disk_frozen (unlink_file f dk).
Proof.
  intros Hf Hk v [-> | ->]; [|by apply Hk; right]. cbn [visible unlink_file]. rewrite lookup_delete_ne by done. apply Hk. by left.
Qed.

Lemma disk_frozen_crash kept (w : World) : disk_frozen (disk w) → disk_frozen (disk (crash kept w)).
Proof.
  intros Hk v Hv. assert (v !! state_file_name i = visible (disk (crash kept w)) !! state_file_name i) as ->.
  { destruct Hv as [-> | ->]; [done|]. apply (proj2 (crash_lookup kept w (state_file_name i))). }
  rewrite (proj1 (crash_lookup kept w (state_file_name i))).
  destruct (bool_decide _); [apply (Hk (visible (disk w)))|apply (Hk (durable (disk w)))]; auto.
Qed.

Lemma mem_frozen_is w : mem_frozen w → retirement_frozen i w = true.
Proof. intros (l & x & o & Hl & Hx & Ho & _). unfold retirement_frozen, dep_at. rewrite Hl. cbn. by rewrite Hx, Ho. Qed.

(** The registry still leads [i] to the same place, and the operation there is as good. *)
Lemma mem_frozen_at w w' :
  mem_frozen w →
  (∀ l d, get i w = Some l → deps w !! l = Some d → get i w' = Some l ∧ ∃ d', deps w' !! l = Some d' ∧
     (retirement (state_of d') = retirement (state_of d) ∨ ∃ o, retirement (state_of d') = Some o ∧ Q o)) →
  mem_frozen w'.
Proof.
  intros (l & d & o & Hl & Hd & Ho & Hq) Hk. destruct (Hk l d Hl Hd) as (Hl' & d' & Hd' & [Hr|(o' & Ho' & Hq')]).
  - exists l, d', o. rewrite Hr. by split_and!.
  - by exists l, d', o'.
Qed.

Lemma allowed_good w l o d :
  mem_frozen w → allowed w l o → deps w !! l = Some d → id (spec_of d) = i → Q o.
Proof.
  intros (k & x & o0 & Hk & Hx & Ho & Hq) (y & Hy & Hget & _ & _ & Hev) Hd Hid.
  assert (y = d) as -> by congruence. assert (k = l) as -> by congruence. assert (x = d) as -> by congruence.
  by eapply HQ, Hq; apply Hev.
Qed.

Lemma micro_mem w w' : ok w → mem_frozen w → micro w w' → mem_frozen w'.
Proof.
  intros Hw Hm Hmi. pose proof (mem_frozen_is _ Hm) as Hfz.
  apply (mem_frozen_at w); [done|]. intros l d Hl Hd. unfold get in *.
  destruct Hmi as [H1 H2 _ _ _ _|l' d0 Hc _|p j Hj _ Hi|l' d0 d1 Hre Hret|j l' d0 _ _ _ ->|j ->|dk fs _ _ ->|l' d0 st fs _ _ _ ->|j fs _ ->|l' o b Hal Ha].
  - rewrite H1, H2. split; [done|]. exists d. by auto.
  - rewrite (q_deployments _ _ _ (c_quiet _ _ _ _ Hc)). split; [done|]. exists d.
    rewrite (quiet_outside l' w); [by auto|apply Hc|]. intros ->. pose proof (ok_fresh _ Hw _ _ Hd).
    pose proof (c_fresh _ _ _ _ Hc). lia.
  - apply install_Some in Hi as (-> & -> & _). assert (j ≠ i) as Hij by (intros ->; congruence). split; [|exists d; by auto].
    destruct p; [by rewrite lookup_insert_ne|by rewrite lookup_delete_ne].
  - destruct Hre as (Hq & Hd0 & Hd1 & _). rewrite (q_deployments _ _ _ Hq). split; [done|].
    destruct (decide (l = l')) as [->|Hll].
    + exists d1. split; [done|]. left. rewrite Hret. f_equal. congruence.
    + exists d. rewrite (quiet_outside l' w) by done. by auto.
  - split; [done|]. exists d. by auto.
  - split; [done|]. exists d. by auto.
  - split; [done|]. exists d. by auto.
  - split; [done|]. exists d. by auto.
  - split; [done|]. exists d. by auto.
  - pose proof Ha as [H1 H2 _ _ _ (d0 & d1 & Hd0 & Hd1 & Hs & _ & Hst & _)]. rewrite H2. split; [done|].
    destruct (decide (l = l')) as [->|Hll]; [|exists d; rewrite H1 by done; by auto]. exists d1. split; [done|].
    assert (d0 = d) as -> by congruence. cbv zeta in Hst. destruct Hst as [-> |[_ ->]]; [right|by left]. exists o. split; [done|].
    eapply allowed_good; [done|done|done|]. destruct (ok_dep _ Hw _ _ Hl) as (y & Hy & <-). congruence.
Qed.

Lemma micro_disk_frozen w w' : ok w → frozen w → micro w w' → disk_frozen (disk w').
Proof.
  intros Hw [Hm Hk] Hmi. pose proof (mem_frozen_is _ Hm) as Hfz.
  destruct Hmi as [_ _ _ _ -> _|l' d0 Hc _|p j Hj _ Hi|l' d0 d1 Hre Hret|j l' d0 _ _ _ ->|j ->|dk fs Hv Hd ->|l' d0 st fs Hd Hst Hc ->|j fs Hj ->|l' o b Hal Ha]; try done.
  - by rewrite (q_disk _ _ _ (c_quiet _ _ _ _ Hc)).
  - by apply install_Some in Hi as (_ & _ & _ & _ & -> & _).
  - destruct Hre as (Hq & _). by rewrite (q_disk _ _ _ Hq).
  - by apply (disk_frozen_views (disk w)).
  - cbn. apply disk_frozen_link; [done|]. intros Hid. destruct Hc as [Hc|Hc]; [congruence|].
    destruct Hm as (l & d & o & Hl & Hdl & Ho & Hq). assert (l' = l) as -> by congruence. assert (d0 = d) as -> by congruence.
    exists o. by rewrite Hst.
  - cbn. apply disk_frozen_unlink; [|done]. intros Hf%state_file_inj. congruence.
  - destruct Ha as [_ _ _ _ _ (d0 & d1 & Hd0 & _ & _ & _ & _ & Hdk)]. cbv zeta in Hdk.
    assert (may_write (spec_of d0) (with_retirement o (state_of d0))) as Hmw.
    { intros Hid. exists o. split; [done|]. by eapply allowed_good. }
    destruct b; [|destruct Hdk as [-> | ->]; [done|by apply disk_frozen_link]]. rewrite Hdk.
    apply (disk_frozen_views (record_file d0 (with_retirement o (state_of d0)) (disk w))); [by apply disk_frozen_link|done|by right].
Qed.

Lemma micros_frozen w w' : safe w → frozen w → rtc micro w w' → frozen w'.
Proof.
  intros Hw Hf Hm. induction Hm as [|w w1 w2 Hm _ IH]; [done|].
  apply IH; [by eapply micro_safe|]. split; [eapply micro_mem; [apply Hw|apply Hf|done]|eapply micro_disk_frozen; [apply Hw|done|done]].
Qed.

(** A finished write of an operation freezes. *)
Lemma amends_freezes w w' l o :
  get i w = Some l → ok w → Q o → amends l o true w w' → frozen w'.
Proof.
  intros Hl Hw Hq [H1 H2 _ _ _ (d & d' & Hd & Hd' & Hs & _ & Hst & Hdk)]. cbv zeta in *.
  destruct (ok_dep _ Hw _ _ Hl) as (x & Hx & Hid). assert (x = d) as -> by congruence.
  destruct Hst as [Hst|[? _]]; [|done]. split.
  - exists l, d', o. unfold get in *. rewrite H2, Hst. by split_and!.
  - rewrite Hdk. apply disk_frozen_written; [done|]. intros _. by exists o.
Qed.
End frozen.

(** ** The operations of the retirement, in small steps *)

Lemma drain_each (bs : list nat) (w : World) u w' :
  each (λ b, modify (λ w, with_heap (alter (λ x, set_draining x true) b (heap w)) w)) bs w = Some (u, w') →
  ∃ h, w' = with_heap h w.
Proof.
  revert w. induction bs as [|b bs IH]; intros w H; cbn [each] in H.
  - apply ret_Some in H as [_ ->]. exists (heap w). by destruct w.
  - apply bind_Some in H as ([] & w1 & Hm & H). apply modify_Some in Hm as ->. apply IH in H as [h ->]. by exists h.
Qed.

Lemma record_file_spec (d d' : Dep) st (dk : Disk Bytes) : spec_of d' = spec_of d → record_file d' st dk = record_file d st dk.
Proof. unfold record_file. by intros ->. Qed.

Lemma set_state_next l (st : State) (w : World) u w' : set_state l st w = Some (u, w') → next w' = next w.
Proof.
  intros H. unfold set_state, on_pool in H. apply bind_Some in H as (d & w0 & Hd & H). apply deref_Some in Hd as [_ ->].
  apply bind_Some in H as (w1 & w1' & Hg & H). apply gets_Some in Hg as [-> ->].
  destruct (LbPool.set_state _ _ _) as [h p]. apply bind_Some in H as ([] & w2 & Hm & H). apply modify_Some in Hm as ->.
  by apply modify_Some in H as ->.
Qed.

Lemma save_amends l o w r w' : save l o w = Some (r, w') → amends l o (is_ok r) w w'.
Proof.
  intros H. unfold save in H. apply bind_Some in H as (d & w0 & Hd & H). apply deref_Some in Hd as [Hd ->]. cbv zeta in H.
  set (st := with_retirement o (state_of d)) in *.
  apply bind_Some in H as ([] & w1 & H1 & H). apply bind_Some in H as (d1 & w0 & Hd1 & H). apply deref_Some in Hd1 as [Hd1 ->].
  assert (quiet (λ k, k = l) w w1 ∧ next w1 = next w ∧ spec_of d1 = spec_of d ∧ regional d1 = regional d ∧
    state_of d1 = (if terminal o then state_of d else st)) as (Hq1 & Hn1 & Hs1 & Hr1 & Hst1).
  { destruct (terminal o); cbn [negb when] in H1.
    - apply ret_Some in H1 as [_ ->]. assert (d1 = d) as -> by congruence. split_and!; done || apply quiet_refl.
    - pose proof H1 as Hn. apply set_state_Some in H1 as (x & d2 & Hx & Hx' & Hq & Hs & Hr & Hst & _).
      assert (x = d) as -> by congruence. assert (d1 = d2) as -> by congruence. split_and!; try done.
      by apply set_state_next in Hn. }
  apply bind_Some in H as ([] & w2 & H2 & H). apply drain_each in H2 as [h ->].
  apply bind_Some in H as (p & w3 & Hp & H). apply persist_snapshot_Some in Hp as (f & Hf & Hk).
  destruct (on_file_deps _ _ _ Hf) as (E1 & E2 & E3 & _ & E5 & _ & _ & E8 & _ & E10). cbn in E1, E2, E3, E5, E8, E10.
  assert (∀ dk, record_file d1 st dk = record_file d st dk) as Hrec by (intros dk; by apply record_file_spec).
  assert (r = match p with Ok _ => Ok tt | Err _ => Err PersistenceUnresolved end ∧
    ∃ d2, quiet (λ k, k = l) w3 w' ∧ next w' = next w3 ∧ deps w' !! l = Some d2 ∧ spec_of d2 = spec_of d ∧ regional d2 = regional d ∧
      state_of d2 = (if is_ok p && terminal o then st else state_of d1)) as (-> & d2 & Hq3 & Hn3 & Hd2 & Hs2 & Hr2 & Hst2).
  { destruct p as [[]|e].
    - apply bind_Some in H as ([] & w4 & H4 & H). apply ret_Some in H as [-> ->]. split; [done|]. cbn [is_ok andb].
      destruct (terminal o); cbn [when] in H4.
      + pose proof H4 as Hn. apply set_state_Some in H4 as (x & d2 & Hx & Hx' & Hq & Hs & Hr & Hst & _).
        rewrite E1 in Hx. assert (x = d1) as -> by congruence. exists d2. split_and!; try done; [by apply set_state_next in Hn|congruence..].
      + apply ret_Some in H4 as [_ ->]. exists d1. rewrite E1. split_and!; done || apply quiet_refl.
    - apply ret_Some in H as [-> ->]. split; [done|]. exists d1. rewrite E1. cbn [is_ok andb]. split_and!; done || apply quiet_refl. }
  split.
  - intros k Hkl. rewrite (quiet_outside l w3), E1 by done. by apply (quiet_outside l).
  - rewrite (q_deployments _ _ _ Hq3), E2. apply (q_deployments _ _ _ Hq1).
  - rewrite (q_index _ _ _ Hq3), E8. apply (q_index _ _ _ Hq1).
  - rewrite (q_staged _ _ _ Hq3), E3. apply (q_staged _ _ _ Hq1).
  - congruence.
  - exists d, d2. split_and!; try done. cbv zeta. fold st.
    rewrite Hst2, Hst1, (q_disk _ _ _ Hq3), E10, (q_disk _ _ _ Hq1).
    destruct p; cbn [is_ok andb]; [subst f|destruct Hk as [-> | ->]]; rewrite ?Hrec; destruct (terminal o); auto.
Qed.

Definition amend (w w' : World) : Prop := ∃ l o done_, allowed w l o ∧ amends l o done_ w w'.

Lemma amend_micros w w' : rtc amend w w' → rtc micro w w'.
Proof. apply rtc_subrel. intros u v (l & o & b & Hal & Ha). by eapply micro_amends. Qed.

Lemma amends_inv l o b w w' : inv w → amends l o b w w' → inv w'.
Proof.
  intros Hw Ha. pose proof Ha as [H1 _ _ _ _ (d & d' & Hd & Hd' & Hs & _ & Hst & Hdk)]. cbv zeta in *.
  assert (handoff_ok (spec_of d) (with_retirement o (state_of d))) as Hh
    by (eapply handoff_ok_same; [done|done|by eapply inv_handoff]).
  split; [by eapply amends_ok; [apply Hw|]| |].
  - intros k x Hx. destruct (decide (k = l)) as [->|Hk]; [|rewrite H1 in Hx by done; by eapply inv_handoff].
    assert (x = d') as -> by congruence. rewrite Hs. destruct Hst as [-> |[_ ->]]; [done|by eapply inv_handoff].
  - pose proof (good_record d _ _ (inv_disk _ Hw) Hh) as Hr.
    destruct b; [rewrite Hdk; by apply good_sync|destruct Hdk as [-> | ->]; [apply Hw|done]].
Qed.

Lemma amends_all_inv w w' : inv w → rtc amend w w' → inv w'.
Proof. intros Hw Hm. induction Hm as [|w w1 w2 (l & o & b & _ & Ha) _ IH]; [done|]. apply IH. by eapply amends_inv. Qed.

Definition holds (l : nat) (o : Operation) (w : World) : Prop :=
  ∃ d, deps w !! l = Some d ∧ get (id (spec_of d)) w = Some l ∧ is_managed (spec_of d) = true ∧
    retirement (state_of d) = Some o.

(** [o] was written, and is what memory has. *)
Definition saved (l : nat) (o : Operation) (w w' : World) : Prop :=
  ∃ w1, rtc amend w w1 ∧ allowed w1 l o ∧ save l o w1 = Some (Ok tt, w').

Lemma holds_allowed l o0 o w : holds l o0 w → op_ok o → evolves o0 o → allowed w l o.
Proof.
  intros (d & Hd & Hg & Hm & Hr) Ho He. exists d. split_and!; try done. intros o1 Ho1. rewrite Hr in Ho1. by injection Ho1 as <-.
Qed.

Lemma save_amend l o w r w' : allowed w l o → save l o w = Some (r, w') → amend w w'.
Proof. intros Ha Hs. exists l, o, (is_ok r). split; [done|by apply save_amends]. Qed.

Lemma save_holds l o w w' : allowed w l o → save l o w = Some (Ok tt, w') → holds l o w'.
Proof.
  intros (d & Hd & Hg & Hm & _) Hs%save_amends. destruct Hs as [_ H2 _ _ _ (d0 & d' & Hd0 & Hd' & Hs & _ & Hst & _)].
  assert (d0 = d) as -> by congruence. cbn [is_ok] in *. destruct Hst as [Hst|[? _]]; [|done].
  exists d'. unfold get in *. rewrite H2, Hs, Hst. by split_and!.
Qed.

Lemma saved_micros l o w w' : saved l o w w' → rtc amend w w' ∧ holds l o w'.
Proof.
  intros (w1 & Hm & Ha & Hs). split; [|by eapply save_holds]. eapply rtc_r; [exact Hm|by eapply save_amend].
Qed.

Lemma saved_freezes l o w w' i : safe w → saved l o w w' → get i w' = Some l → frozen i (evolves o) w'.
Proof.
  intros Hw (w1 & Hm & Ha & Hs%save_amends) Hl. pose proof (micros_safe _ _ Hw (amend_micros _ _ Hm)) as Hw1.
  eapply (amends_freezes i (evolves o) w1 w' l o); [|apply Hw1|done|done].
  unfold get in *. by rewrite (am_deployments _ _ _ _ _ Hs) in Hl.
Qed.

(** *** Operations *)

Lemma receipts_add t j o : receipts (add_receipt (backend_sandbox_id t) j o) !! backend_sandbox_id t = Some j.
Proof. apply lookup_insert_eq. Qed.

Lemma unresolved_ok reason o : op_ok o → terminal o = false →
  op_ok (set_unresolved (Some reason) o) ∧ evolves o (set_unresolved (Some reason) o).
Proof. intros [H1 H2 H3 H4] Ht. split; split; try done; intros Ht'; change (terminal o = true) in Ht'; congruence. Qed.

Lemma retiring_ok o : op_ok o → terminal o = false →
  op_ok (set_op_state "retiring" o) ∧ evolves o (set_op_state "retiring" o).
Proof. intros [H1 H2 H3 H4] Ht. split; split; try done. congruence. Qed.

Lemma receipt_ok t j o : op_ok o → terminal o = false → t ∈ targets_of (request o) →
  receipt j (operation_id (request o)) t = true →
  op_ok (add_receipt (backend_sandbox_id t) j o) ∧ evolves o (add_receipt (backend_sandbox_id t) j o).
Proof.
  intros [H1 H2 H3 H4] Ht Hin Hj. split; split; try done; try (intros Ht'; change (terminal o = true) in Ht'; congruence).
  intros t' j' Hin' Hj'. cbn in Hj', Hin'. apply lookup_insert_Some in Hj' as [[E <-]|[_ Hj']]; [|by eapply H2].
  assert (t' = t) as ->; [|done]. unfold target_ids in H1.
  apply list_elem_of_lookup in Hin as [a Ha]. apply list_elem_of_lookup in Hin' as [b Hb].
  assert (a = b) as ->; [|congruence].
  eapply (NoDup_lookup _ a b (backend_sandbox_id t) H1); rewrite list_lookup_fmap; [by rewrite Ha|rewrite Hb; cbn; congruence].
Qed.

Lemma retired_ok o : op_ok o → terminal o = false → unresolved o = None →
  (∀ t, t ∈ targets_of (request o) → is_Some (receipts o !! backend_sandbox_id t)) →
  op_ok (set_op_state "retired" o) ∧ evolves o (set_op_state "retired" o).
Proof.
  intros [H1 H2 H3 H4] Ht Hu Hall. split; split; try done; [|congruence]. intros _. split; [done|]. split; [by apply H3|].
  intros t Hin. destruct (Hall t Hin) as [j Hj]. exists j. split; [done|]. by eapply H2.
Qed.

Lemma approve_spec ts acc approved :
  approve ts acc = Some approved →
  NoDup (backend_sandbox_id <$> ts) ∧ (∀ x, x ∈ approved ↔ x ∈ acc ∨ x ∈ backend_sandbox_id <$> ts) ∧
  (∀ t, t ∈ ts → target_ok t = true ∧ backend_sandbox_id t ∉ acc).
Proof.
  revert acc. induction ts as [|t ts IH]; intros acc H; cbn [approve] in H.
  { injection H as <-. split; [constructor|]. split; [intros x; rewrite fmap_nil, elem_of_nil; tauto|by intros t ?%elem_of_nil]. }
  destruct (negb (target_ok t) || _) eqn:E; [done|]. apply orb_false_iff in E as [Et%negb_false_iff En%bool_decide_eq_false].
  destruct (IH _ H) as (H1 & H2 & H3). rewrite fmap_cons. split; [|split].
  - apply NoDup_cons. split; [|done]. intros (t' & E & Hin)%list_elem_of_fmap. destruct (H3 t' Hin) as [_ Hn]. apply Hn. set_solver.
  - intros x. rewrite H2, elem_of_cons. set_solver.
  - intros t' [->|Hin]%elem_of_cons; [done|]. destruct (H3 t' Hin) as [? Hn]. split; [done|]. set_solver.
Qed.

(** *** Freezing and advancing *)

Lemma freeze_spec l r w a w' i :
  safe w → get i w = Some l → freeze l r w = Some (a, w') →
  rtc amend w w' ∧ ∀ o, a = Ok o → saved l o w w' ∧ op_ok o ∧ request o = r.
Proof.
  intros Hw Hl H. unfold freeze in H. apply bind_Some in H as (d & w0 & Hd & H). apply deref_Some in Hd as [Hd ->].
  destruct (ok_dep _ (sf_ok _ Hw) _ _ Hl) as (x & Hx & Hid). assert (x = d) as -> by congruence. clear Hx.
  assert (∀ o, allowed w l o → op_ok o → request o = r → (save l o ;;?! ret (Ok o)) w = Some (a, w') →
            rtc amend w w' ∧ ∀ o', a = Ok o' → saved l o' w w' ∧ op_ok o' ∧ request o' = r) as Hsave.
  { intros o Hal Ho Hr Hs. apply try_Some in Hs as (y & w1 & Hs & Hk).
    pose proof (save_amend _ _ _ _ _ Hal Hs) as Hm. destruct y as [[]|e].
    - apply ret_Some in Hk as [-> ->]. split; [by apply rtc_once|]. intros o' [= <-]. split; [|done]. by exists w.
    - destruct Hk as [-> ->]. split; [by apply rtc_once|done]. }
  destruct (retirement (state_of d)) as [existing|] eqn:Er.
  - destruct (bool_decide (request existing = r)) eqn:Eb; [|apply ret_Some in H as [-> ->]; done].
    apply bool_decide_eq_true in Eb. destruct (sf_deps _ Hw _ _ Hd _ Er) as [Hman Ho].
    apply (Hsave existing); [|done|done|done]. exists d. split_and!; try done; [congruence|].
    intros o0 Ho0. rewrite Er in Ho0. injection Ho0 as <-. reflexivity.
  - destruct (eligible_request d r) eqn:Ee; cbn [negb] in H; [|apply ret_Some in H as [-> ->]; done].
    destruct (approve (targets_of r) ∅) as [approved|] eqn:Ea; [|apply ret_Some in H as [-> ->]; done].
    apply bind_Some in H as (h & w1 & Hg & H). apply gets_Some in Hg as [-> ->]. cbv zeta in H.
    apply approve_spec in Ea as (Hnd & Happ & _). eapply Hsave; [|..|exact H]; [|split; try done|done].
    + unfold eligible_request in Ee. rewrite !andb_true_iff in Ee. exists d. split_and!; try tauto; [congruence| |congruence].
      split; try done. cbn. case_bool_decide as Hf; [|done]. intros _ x. unfold target_ids. cbn.
      rewrite sort_by_perm, elem_of_elements, Hf, Happ. set_solver.
    + cbn. case_bool_decide as Hf; [|done]. intros _ x. unfold target_ids. cbn.
      rewrite sort_by_perm, elem_of_elements, Hf, Happ. set_solver.
Qed.

(** One receipt after the other, each saved. *)
Lemma retire_targets_spec l ts o answers w a w' :
  holds l o w → op_ok o → terminal o = false → (∀ t, t ∈ ts → t ∈ targets_of (request o)) →
  retire_targets l ts o answers w = Some (a, w') →
  rtc amend w w' ∧ ∀ o', a = Ok o' →
    holds l o' w' ∧ op_ok o' ∧ evolves o o' ∧ terminal o' = false ∧ unresolved o' = unresolved o ∧
    (∀ t, t ∈ ts → is_Some (receipts o' !! backend_sandbox_id t)) ∧
    (∀ k, is_Some (receipts o !! k) → is_Some (receipts o' !! k)).
Proof.
  revert o answers w. induction ts as [|t ts IH]; intros o answers w Hh Ho Ht Hsub H; cbn [retire_targets] in H.
  { apply ret_Some in H as [-> ->]. split; [done|]. intros o' [= <-]. split_and!; try done. by intros t ?%elem_of_nil. }
  destruct (receipts o !! backend_sandbox_id t) as [j|] eqn:Ej; cbn [is_some] in H.
  { destruct (IH o answers w Hh Ho Ht) as [Hm Hok]; [intros t' Ht'; apply Hsub; by right|done|].
    split; [done|]. intros o' ->. destruct (Hok o' eq_refl) as (K1 & K2 & K3 & K4 & K5 & K6 & K7). split_and!; try done.
    intros t' [->|Hin]%elem_of_cons; [apply K7; by rewrite Ej|by apply K6]. }
  destruct (attest _ _ _) as [record answers'].
  apply try_Some in H as (x & w0 & Hx & H). apply ret_Some in Hx as [-> ->].
  destruct record as [j|e]; [|destruct H as [-> ->]; done].
  destruct (receipt j _ t) eqn:Er; cbn [negb] in H; [|apply ret_Some in H as [-> ->]; done]. cbv zeta in H.
  destruct (receipt_ok t j o Ho Ht (Hsub t (list_elem_of_here _ _)) Er) as [Ho1 He1].
  set (o1 := add_receipt (backend_sandbox_id t) j o) in *.
  pose proof (holds_allowed _ _ _ _ Hh Ho1 He1) as Hal.
  apply try_Some in H as (y & w1 & Hs & H). pose proof (save_amend _ _ _ _ _ Hal Hs) as Hm1.
  destruct y as [[]|e]; [|destruct H as [-> ->]; split; [by apply rtc_once|done]].
  destruct (IH o1 answers' w1) as [Hm Hok]; [by eapply save_holds|done|done|intros t' Ht'; apply Hsub; by right|done|].
  split; [by eapply rtc_l|]. intros o' ->. destruct (Hok o' eq_refl) as (K1 & K2 & K3 & K4 & K5 & K6 & K7).
  split_and!; try done; [by etrans| |].
  - intros t' [->|Hin]%elem_of_cons; [|by apply K6]. apply K7. unfold o1. by rewrite receipts_add.
  - intros k Hk. apply K7. unfold o1, add_receipt. cbn. destruct (decide (k = backend_sandbox_id t)) as [->|Hne].
    + by rewrite lookup_insert_eq.
    + by rewrite lookup_insert_ne.
Qed.

Lemma advance_spec l o answers blocked w a w' :
  holds l o w → op_ok o → advance l answers blocked w = Some (a, w') →
  rtc amend w w' ∧ ∀ o', a = Ok o' → op_ok o' ∧ evolves o o' ∧ (saved l o' w w' ∨ o' = o ∧ w' = w).
Proof.
  intros Hh Ho H. unfold advance in H. apply bind_Some in H as (d & w0 & Hd & H). apply deref_Some in Hd as [Hd ->].
  pose proof Hh as (x & Hx & _ & _ & Hr). assert (x = d) as -> by congruence. rewrite Hr in H.
  destruct (terminal o) eqn:Et.
  { apply ret_Some in H as [-> ->]. split; [done|]. intros o' [= <-]. split_and!; [done|done|by right]. }
  destruct (unresolved o) as [u|] eqn:Eu; cbn [is_some] in H.
  { apply ret_Some in H as [-> ->]. split; [done|]. intros o' [= <-]. split_and!; [done|done|by right]. }
  destruct (match blocked with Some b => Some b | None => blocker_of (state_of d) end) as [reason|]; cbv zeta in H.
  - destruct (unresolved_ok reason o Ho Et) as [Ho1 He1]. pose proof (holds_allowed _ _ _ _ Hh Ho1 He1) as Hal.
    apply try_Some in H as (y & w1 & Hs & H). pose proof (save_amend _ _ _ _ _ Hal Hs) as Hm.
    destruct y as [[]|e]; [|destruct H as [-> ->]; split; [by apply rtc_once|done]].
    apply ret_Some in H as [-> ->]. split; [by apply rtc_once|]. intros o' [= <-]. split_and!; [done|done|]. left. by exists w.
  - destruct (retiring_ok o Ho Et) as [Ho1 He1]. pose proof (holds_allowed _ _ _ _ Hh Ho1 He1) as Hal.
    apply try_Some in H as (y & w1 & Hs & H). pose proof (save_amend _ _ _ _ _ Hal Hs) as Hm.
    destruct y as [[]|e]; [|destruct H as [-> ->]; split; [by apply rtc_once|done]].
    apply try_Some in H as (z & w2 & Ht & H). apply retire_targets_spec in Ht as [Hm2 Hok]; [|by eapply save_holds|done|done|done].
    assert (rtc amend w w2) as Hm02 by (by eapply rtc_l).
    destruct z as [o2|e]; [|destruct H as [-> ->]; done].
    destruct (Hok o2 eq_refl) as (K1 & K2 & K3 & K4 & K5 & K6 & _).
    destruct (retired_ok o2 K2 K4) as [Ho3 He3]; [by rewrite K5|by rewrite (ev_request _ _ K3)|].
    pose proof (holds_allowed _ _ _ _ K1 Ho3 He3) as Hal3.
    apply try_Some in H as (y & w3 & Hs3 & H). pose proof (save_amend _ _ _ _ _ Hal3 Hs3) as Hm3.
    assert (rtc amend w w3) as Hm03 by (by eapply rtc_r).
    destruct y as [[]|e]; [|destruct H as [-> ->]; done].
    apply ret_Some in H as [-> ->]. split; [done|]. intros o' [= <-]. split; [done|]. split; [do 2 (etrans; [done|]); done|].
    left. by exists w2.
Qed.

(** Nothing changes the spec at a place. *)
Lemma micro_spec w w' l d :
  ok w → micro w w' → deps w !! l = Some d → ∃ d', deps w' !! l = Some d' ∧ spec_of d' = spec_of d.
Proof.
  intros Hw Hm Hd.
  destruct Hm as [H1 _ _ _ _ _|l' d0 Hc _|p j _ _ Hi|l' d0 d1 (Hq & Hd0 & Hd1 & Hs & _) _|j l' d0 _ _ _ ->|j ->|dk fs _ _ ->|l' d0 st fs _ _ _ ->|j fs _ ->|l' o b _ Ha];
    try (by exists d).
  - exists d. by rewrite H1.
  - exists d. by rewrite (creates_keeps _ _ _ _ Hw Hc _ _ Hd).
  - exists d. by apply install_Some in Hi as (-> & _).
  - destruct (decide (l = l')) as [->|Hl]; [exists d1; split; [done|congruence]|exists d]. by rewrite (quiet_outside l' w).
  - destruct Ha as [H1 _ _ _ _ (d0 & d1 & Hd0 & Hd1 & Hs & _)].
    destruct (decide (l = l')) as [->|Hl]; [exists d1; split; [done|congruence]|exists d]. by rewrite H1.
Qed.

Lemma micros_spec w w' l d :
  safe w → rtc micro w w' → deps w !! l = Some d → ∃ d', deps w' !! l = Some d' ∧ spec_of d' = spec_of d.
Proof.
  intros Hw Hm. revert d. induction Hm as [w|w w1 w2 Hm _ IH]; intros d Hd; [by exists d|].
  destruct (micro_spec _ _ _ _ (sf_ok _ Hw) Hm Hd) as (d1 & Hd1 & <-). by apply IH; [eapply micro_safe|].
Qed.

Lemma saved_get i l o w w' : safe w → get i w = Some l → saved l o w w' → get i w' = Some l.
Proof.
  intros Hw Hl (w1 & Hm & (d & Hd & Hg & _) & Hs%save_amends). destruct (ok_dep _ (sf_ok _ Hw) _ _ Hl) as (x & Hx & Hid).
  destruct (micros_spec _ _ _ _ Hw (amend_micros _ _ Hm) Hx) as (y & Hy & Hsp). assert (y = d) as -> by congruence.
  unfold get in *. rewrite (am_deployments _ _ _ _ _ Hs). congruence.
Qed.

Lemma retire_spec i r answers blocked w a w' :
  safe w → retire_deployment i r answers blocked w = Some (a, w') →
  rtc amend w w' ∧ ∀ o, a = Some (Ok o) →
    op_ok o ∧ request o = r ∧ ∃ l, get i w' = Some l ∧ saved l o w w'.
Proof.
  intros Hw H. unfold retire_deployment in H. apply bind_Some in H as (p & w0 & Hg & H). apply gets_Some in Hg as [-> ->].
  destruct (get i w) as [l|] eqn:El; [|apply ret_Some in H as [-> ->]; done].
  apply bind_Some in H as (f & w1 & Hf & H). destruct (freeze_spec _ _ _ _ _ i Hw El Hf) as [Hm1 Hfr].
  destruct f as [o1|e]; [|apply ret_Some in H as [-> ->]; done].
  destruct (Hfr o1 eq_refl) as (Hsv & Ho1 & Hr1). apply bind_Some in H as (b & w2 & Ha & H). apply ret_Some in H as [-> ->].
  destruct (saved_micros _ _ _ _ Hsv) as [_ Hh1]. destruct (advance_spec _ _ _ _ _ _ _ Hh1 Ho1 Ha) as [Hm2 Hadv].
  split; [by etrans|]. intros o [= ->]. destruct (Hadv o eq_refl) as (Ho & He & Hcase).
  split; [done|]. split; [by rewrite (ev_request _ _ He)|]. exists l.
  assert (saved l o w w2) as Hs2.
  { destruct Hcase as [(w3 & Hm3 & Hal & Hs)|[-> ->]]; [|done]. exists w3. split; [by etrans|done]. }
  split; [by eapply saved_get|done].
Qed.

(** ** The operations of the registry, in small steps *)

Local Abbreviation calm := (quiet (λ _, False)).

Lemma calm_micro w w' : calm w w' → rtc micro w w'.
Proof.
  intros Hc. apply rtc_once, micro_same; [by apply calm_deps|apply Hc..].
Qed.

Lemma on_file_id k w w' : on_file k w w' → k (disk w) = disk w → rtc micro w w'.
Proof.
  intros [fs ->] Hk. apply rtc_once. apply (micro_disk _ _ (disk w) fs); [done|by left|by rewrite Hk].
Qed.

Definition record_cond (w : World) (l : nat) (d : Dep) (st : State) : Prop :=
  deps w !! l = Some d ∧ retirement st = retirement (state_of d) ∧
  (retirement_frozen (id (spec_of d)) w = false ∨ get (id (spec_of d)) w = Some l).

(** Writing a record, as far as it gets. *)
Lemma record_micros f l d st w w' :
  record_cond w l d st → on_file f w w' →
  (f = (λ x, x) ∨ f = record_file d st ∨ f = λ x, sync_dir (record_file d st x)) → rtc micro w w'.
Proof.
  intros (Hd & Hr & Hc) Hf Hcase. destruct Hcase as [-> |[-> | ->]]; [by eapply on_file_id| |];
    destruct Hf as [fs ->].
  - by eapply rtc_once, micro_link.
  - eapply (rtc_l _ _ (with_disk (record_file d st (disk w)) (with_faults fs w))); [by eapply micro_link|].
    apply rtc_once. apply (micro_disk _ _ (sync_dir (record_file d st (disk w))) fs); [done|by right|done].
Qed.

Lemma persist_micros l d st w r w' :
  record_cond w l d st → persist_snapshot d st w = Some (r, w') → rtc micro w w'.
Proof.
  intros Hc (f & Hf & Hk)%persist_snapshot_Some. eapply record_micros; [exact Hc|exact Hf|].
  destruct r; [by auto|]. destruct Hk; auto.
Qed.

Lemma frozen_creates l (d : Dep) (w w1 : World) j : ok w → creates l d w w1 → retirement_frozen j w1 = retirement_frozen j w.
Proof.
  intros Hw Hc. unfold retirement_frozen, dep_at, get. rewrite (q_deployments _ _ _ (c_quiet _ _ _ _ Hc)).
  destruct (deployments w !! j) as [k|] eqn:Ek; [|done]. cbn. destruct (ok_dep _ Hw _ _ Ek) as (x & Hx & _).
  by rewrite Hx, (creates_keeps _ _ _ _ Hw Hc _ _ Hx).
Qed.

(** A new deployment takes an id that is not frozen. *)
Lemma replace_micros l (d : Dep) (w w1 w' : World) j :
  ok w → creates l d w w1 → claim (spec_of d) (state_of d) → id (spec_of d) = j → retirement_frozen j w = false →
  install (Some l) j w1 = Some (tt, w') → rtc micro w w'.
Proof.
  intros Hw Hc Hcl Hid Hf Hi. eapply rtc_l; [by eapply micro_creates|]. apply rtc_once.
  eapply (micro_install _ _ (Some l) j); [by rewrite (frozen_creates _ _ _ _ _ Hw Hc)| |exact Hi].
  intros ? [= <-]. exists d. split; [apply Hc|done].
Qed.

Lemma not_frozen_at (w : World) j d : dep_at j w = Some d → retirement (state_of d) = None → retirement_frozen j w = false.
Proof. unfold retirement_frozen. intros -> ->. done. Qed.

Lemma upsert_micros s w l w' : safe w → upsert s w = Some (l, w') → rtc micro w w'.
Proof.
  intros Hw [(_ & _ & ->)|(Hf & w1 & d & Hc & Hi & Hsp & _ & Hr & _)]%upsert_spec; [done| |apply Hw].
  eapply replace_micros; [apply Hw|exact Hc|by apply claim_none| |exact Hf|exact Hi]. rewrite Hsp. apply scoped_spec_id.
Qed.

Lemma update_micros s w o w' : safe w → update s w = Some (o, w') → rtc micro w w'.
Proof.
  intros Hw [[_ ->]|(l & old & w1 & d & -> & Hat & Hr & Hc & Hi & Hsp & _ & Hn & _)]%update_spec; [done| |apply Hw].
  eapply replace_micros; [apply Hw|exact Hc|by apply claim_none|by rewrite Hsp|by eapply not_frozen_at|exact Hi].
Qed.

Lemma calm_frozen (w w1 : World) j : calm w w1 → retirement_frozen j w1 = retirement_frozen j w.
Proof. intros Hc. unfold retirement_frozen, dep_at, get. by rewrite (q_deployments _ _ _ Hc), (calm_deps _ _ Hc). Qed.

Lemma remove_micros i w o w' : safe w → remove i w = Some (o, w') → rtc micro w w'.
Proof.
  intros Hw [[_ ->]|(l & d & w1 & -> & Hat & _ & Hr & Hc & Hi)]%remove_spec; [done| |apply Hw].
  etrans; [by apply calm_micro|]. apply rtc_once. eapply (micro_install _ _ None i); [|done|exact Hi].
  rewrite (calm_frozen _ _ _ Hc). by eapply not_frozen_at.
Qed.

Lemma publish_micros l w u w' : publish l w = Some (u, w') → rtc micro w w'.
Proof.
  intros (d & Hd & [-> |[Hf Hi]])%publish_spec; [done|]. apply rtc_once.
  eapply (micro_install _ _ (Some l)); [exact Hf| |exact Hi]. intros ? [= <-]. by exists d.
Qed.

Lemma staged_unretired (w : World) j l d : safe w → staged w !! j = Some l → deps w !! l = Some d → retirement (state_of d) = None.
Proof.
  intros Hw Hs Hd. destruct (retirement (state_of d)) as [o|] eqn:Er; [|done].
  pose proof (sf_staged _ Hw _ _ _ Hs Hd) as Hdisc. destruct (sf_deps _ Hw _ _ Hd _ Er) as [Hm _].
  by rewrite (managed_undiscovered _ Hm) in Hdisc.
Qed.

Lemma apply_staged_micros old us w o w' : safe w → apply_staged_discovery old us w = Some (o, w') → rtc micro w w'.
Proof.
  intros Hw [[_ ->]|(d & l & n & w1 & -> & Hd & Hs & Hc & Hsp & Hst & ->)]%apply_staged_spec; [done| |apply Hw].
  eapply rtc_l; [eapply micro_creates; [exact Hc|]|].
  { apply claim_none. rewrite Hst. by eapply staged_unretired. }
  apply rtc_once. eapply micro_stage; [apply Hc|by rewrite Hsp|rewrite Hsp; exact (sf_staged _ Hw _ _ _ Hs Hd)|done].
Qed.

Lemma restates_micros l d d' w w' : restates l d d' w w' → retirement (state_of d') = retirement (state_of d) → rtc micro w w'.
Proof. intros. by eapply rtc_once, micro_restates. Qed.

Lemma get_cond (w : World) i l d st :
  ok w → get i w = Some l → deps w !! l = Some d → retirement st = retirement (state_of d) → record_cond w l d st.
Proof.
  intros Hw Hl Hd Hr. split; [done|]. split; [done|]. right. destruct (ok_dep _ Hw _ _ Hl) as (x & Hx & <-). congruence.
Qed.

Lemma prepare_micros op expected s w r w' : safe w → prepare_handoff op expected s w = Some (r, w') → rtc micro w w'.
Proof.
  intros Hw [[-> _]|(l & d & Hl & Hd & _ & _ & Hv & H)]%prepare_spec; [done| |apply Hw]. cbv zeta in H.
  set (next := with_handoff (Some (new_record op expected s)) (state_of d)) in *.
  pose proof (get_cond _ _ _ _ next (sf_ok _ Hw) Hl Hd eq_refl) as Hc.
  destruct H as [(e & f & _ & Hf & Hk)|(w1 & d2 & w2 & sl & sd & w3 & _ & Hf & Hre & Hst & Hcr & Hsp & [rev Hin] & ->)].
  { eapply record_micros; [exact Hc|exact Hf|]. destruct Hk; auto. }
  etrans; [eapply record_micros; [exact Hc|exact Hf|auto]|]. etrans; [eapply restates_micros; [exact Hre|by rewrite Hst]|].
  eapply rtc_l; [eapply micro_creates; [exact Hcr|apply claim_none; by rewrite Hin]|]. apply rtc_once.
  eapply micro_stage; [apply Hcr|by rewrite Hsp|rewrite Hsp; by eapply validate_handoff_staged|done].
Qed.

Lemma mark_micros i w r w' : safe w → mark_handoff_prepared i w = Some (r, w') → rtc micro w w'.
Proof.
  intros Hw [[-> _]|(l & d & sl & s & p & rec & Hl & Hd & _ & _ & _ & _ & _ & H)]%mark_handoff_spec; [done| |apply Hw]. cbv zeta in H.
  set (next := with_handoff (Some (mark_record p rec)) (state_of d)) in *.
  pose proof (get_cond _ _ _ _ next (sf_ok _ Hw) Hl Hd eq_refl) as Hc.
  destruct H as [(e & f & _ & Hf & Hk)|(w1 & d2 & _ & Hf & Hre & Hst)].
  { eapply record_micros; [exact Hc|exact Hf|]. destruct Hk; auto. }
  etrans; [eapply record_micros; [exact Hc|exact Hf|auto]|]. eapply restates_micros; [exact Hre|by rewrite Hst].
Qed.

Lemma frozen_restates l (d d' : Dep) (w w' : World) j :
  restates l d d' w w' → retirement (state_of d') = retirement (state_of d) → retirement_frozen j w' = retirement_frozen j w.
Proof.
  intros (Hq & Hd & Hd' & _) Hr. unfold retirement_frozen, dep_at, get. rewrite (q_deployments _ _ _ Hq).
  destruct (deployments w !! j) as [k|]; [|done]. cbn. destruct (decide (k = l)) as [->|Hk]; [by rewrite Hd, Hd', Hr|].
  by rewrite (quiet_outside l w).
Qed.

Lemma fingerprint_discovery (s s' : DeploymentSpec) :
  spec_fingerprint s = spec_fingerprint s' → is_some (discovery s) = is_some (discovery s').
Proof.
  unfold spec_fingerprint. intros H. injection H as H. apply hash_discovery in H. revert H. unfold normalize, set_upstreams.
  cbn [discovery]. destruct (discovery s), (discovery s'); done.
Qed.

(** A handoff leads away from a discovered deployment, and a frozen one is managed. *)
Lemma commit_unfrozen i op w l sl d s p rec :
  inv w → safe w → committable i op w l sl d s p rec → retirement_frozen i w = false.
Proof.
  intros Hi Hw Hc. destruct Hc as [Hl Hd Hrec _ _ Hfp _ _ _ _ _ _ _].
  destruct (inv_handoff _ Hi _ _ Hd _ Hrec) as (_ & _ & p0 & Hp0 & E).
  rewrite E in Hfp. apply fingerprint_discovery in Hfp. rewrite Hp0 in Hfp.
  unfold retirement_frozen, dep_at. rewrite Hl. cbn. rewrite Hd. destruct (retirement (state_of d)) as [o|] eqn:Er; [|done].
  destruct (sf_deps _ Hw _ _ Hd _ Er) as [Hm _]. by rewrite (managed_undiscovered _ Hm) in Hfp.
Qed.

Lemma commit_micros i op w r w' : inv w → safe w → commit_handoff i op w = Some (r, w') → rtc micro w w'.
Proof.
  intros Hi Hw [[-> _]|(l & sl & d & s & p & rec & Hc & H)]%commit_spec; [done| |apply Hw]. cbv zeta in H.
  pose proof (commit_unfrozen _ _ _ _ _ _ _ _ _ Hi Hw Hc) as Hfz.
  destruct (committable_ids _ _ _ _ _ _ _ _ _ (sf_ok _ Hw) Hc) as [Hid Hids].
  assert (record_cond w sl s (commit_state p rec s)) as Hrc by (split; [apply Hc|split; [done|left; congruence]]).
  destruct H as [(e & f & _ & Hf & Hk)|(w1 & s2 & w2 & w3 & w4 & _ & Hf & Hre & Hst & _ & Hfence & Hinst & ->)].
  { eapply record_micros; [exact Hrc|exact Hf|]. destruct Hk; auto. }
  assert (retirement (state_of s2) = retirement (state_of s)) as Hret by (by rewrite Hst).
  apply fence_discovery_removals_calm in Hfence. etrans; [eapply record_micros; [exact Hrc|exact Hf|auto]|].
  etrans; [by eapply restates_micros|]. etrans; [by apply calm_micro|].
  eapply rtc_l; [|apply rtc_once; by apply (micro_unstage _ _ i)]. eapply (micro_install _ _ (Some sl) i); [| |exact Hinst].
  - rewrite (calm_frozen _ _ _ Hfence), (frozen_restates _ _ _ _ _ _ Hre Hret). destruct Hf as [fs ->]. exact Hfz.
  - intros ? [= <-]. exists s2. destruct Hre as (_ & _ & Hs2 & Hsp & _). rewrite (calm_deps _ _ Hfence). split; [done|congruence].
Qed.

Lemma forget_micros i w r w' : forget i w = Some (r, w') → rtc micro w w'.
Proof.
  intros [[_ ->]|(Hf & k & [fs ->] & Hk)]%forget_Some; [done|]. destruct Hk as [-> |[-> | ->]].
  - apply rtc_once. by apply (micro_disk _ _ (disk w) fs); [|left|].
  - apply rtc_once. by eapply micro_unlink.
  - eapply (rtc_l _ _ (with_disk (unlink_file (state_file_name i) (disk w)) (with_faults fs w))); [by eapply micro_unlink|].
    apply rtc_once. apply (micro_disk _ _ (sync_dir (unlink_file (state_file_name i) (disk w))) fs); [done|by right|done].
Qed.

Lemma persist_one_micros i w r w' : safe w → persist_one i w = Some (r, w') → rtc micro w w'.
Proof.
  intros Hw H%persist_one_Some. destruct (dep_at i w) as [d|] eqn:Ed; [|by eapply forget_micros].
  apply dep_at_deps in Ed as (l & Hl & Hd). eapply persist_micros; [|exact H]. by eapply get_cond; [apply Hw| | |].
Qed.

Lemma sys_micros (w : World) r w' : sys w = Some (r, w') → rtc micro w w'.
Proof. intros Hs%sys_Some. by eapply on_file_id. Qed.

Lemma archive_micros l d w r w' : record_cond w l d (state_of d) → archive_record d w = Some (r, w') → rtc micro w w'.
Proof.
  intros Hc H. unfold archive_record in H. apply try_Some in H as (x & w1 & Hp & H).
  pose proof (persist_micros _ _ _ _ _ _ Hc Hp) as Hm. etrans; [exact Hm|]. destruct x as [[]|e]; [|by destruct H as [-> ->]].
  apply try_Some in H as (x & w2 & Hs%sys_micros & H). etrans; [exact Hs|]. destruct x as [[]|e]; [|by destruct H as [-> ->]].
  apply bind_Some in H as (w3 & w3' & Hg & H). apply gets_Some in Hg as [-> ->].
  destruct (visible _ !! _) as [bytes|]; [|by apply ret_Some in H as [-> ->]]. cbv zeta in H.
  apply try_Some in H as (x & w3 & Hs3%sys_micros & H). etrans; [exact Hs3|]. destruct x as [[]|e]; [|by destruct H as [-> ->]].
  destruct (archive _ !! _) as [old|].
  - destruct (bool_decide (old = bytes)); [by eapply sys_micros|by apply ret_Some in H as [-> ->]].
  - apply bind_Some in H as ([] & w4 & Hl & H). apply on_file_disk in Hl as [fs ->].
    eapply rtc_l; [|by eapply sys_micros]. eapply micro_disk; [| |reflexivity]; [done|by left].
Qed.

Lemma step_micros e w u w' : inv w → safe w → LbRegistry.step e w = Some (u, w') → rtc micro w w'.
Proof.
  intros Hi Hw. destruct e; cbn [LbRegistry.step]; rewrite ?quietly_Some; intros H;
    try match type of H with ex _ => destruct H as [a H] end.
  - by eapply upsert_micros.
  - by eapply update_micros.
  - by eapply remove_micros.
  - by eapply publish_micros.
  - unfold apply_discovery_upstreams in H. apply bind_Some in H as (d & w1 & Hd & H). apply deref_Some in Hd as [_ ->].
    by eapply upsert_micros.
  - by eapply apply_staged_micros.
  - eapply calm_micro, discovery_backends_inv, H.
  - by eapply prepare_micros.
  - by eapply mark_micros.
  - by eapply commit_micros.
  - by eapply persist_one_micros.
  - by eapply forget_micros.
  - apply bind_Some in H as (d & w1 & Hg & H). apply gets_Some in Hg as [-> ->].
    destruct (dep_at i w) as [d|] eqn:Ed; [|apply ret_Some in H as [_ ->]; done]. apply quietly_Some in H as [r H].
    apply dep_at_deps in Ed as (l & Hl & Hd). eapply archive_micros; [|exact H]. by eapply get_cond; [apply Hw| | |].
  - apply bind_Some in H as (d & w1 & Hd & H). apply deref_Some in Hd as [Hd ->].
    destruct (_ && _) eqn:Eb; cbn [when] in H; [|apply ret_Some in H as [_ ->]; done].
    apply andb_true_iff in Eb as [Er%bool_decide_eq_true _].
    apply mutate_state_Some in H as (x & x' & Hx & Hx' & Hq & Hs & Hr & Hst & _). assert (x = d) as -> by congruence.
    eapply (restates_micros l d x'); [by split_and!|congruence].
  - apply set_backends_Some in H as (x & x' & Hx & Hx' & Hq & Hs & Hr & Hst & _).
    eapply (restates_micros l x x'); [by split_and!|congruence].
  - apply modify_Some in H as ->. apply rtc_once. by apply micro_same.
Qed.

(** ** Start-up *)

Lemma claim_loaded (p : option Dep) s (st : State) : claim s st → claim (scoped_spec p (normalize s)) st.
Proof.
  intros Hc o Ho. destruct (Hc o Ho) as [Hm Hop]. split; [|done]. rewrite <- normalize_managed in Hm.
  unfold scoped_spec. destruct p; [|done]. by rewrite (managed_undiscovered _ Hm), andb_false_r.
Qed.

Lemma load_file_safe b w skip w' :
  inv w → safe w → (∀ s st, b ≫= decode = Some (s, st) → handoff_ok s st ∧ claim s st) →
  load_file b w = Some (skip, w') → safe w'.
Proof.
  intros Hi Hw Hb H. destruct (load_file_Some _ _ _ _ Hi (λ s st E, proj1 (Hb s st E)) H) as (Hi' & Hdk & Hcase).
  destruct skip; [by subst w'|].
  destruct Hcase as (s & st & Hdec & _ & [[_ ->]|(_ & l & d & _ & Hd & Hk & Hsp & Hst & HA & HB)]); [done|].
  destruct (Hb _ _ Hdec) as [Hh Hcl].
  apply (safe_deps w); [done|apply Hi'| | |by rewrite Hdk; apply Hw].
  - intros k x Hx. split; [|intros y Hy; apply Hk in Hy; congruence].
    destruct (HA _ _ Hx) as [Hold|[[-> ->]|Hn]]; [by eapply sf_deps| |by apply claim_none].
    rewrite Hsp, Hst. by apply claim_loaded.
  - intros j k x Hj Hx. destruct (HB _ _ Hj) as [?|(y & rec & Hy & Hrec & Hys)]; [by left|right].
    assert (y = x) as -> by congruence. rewrite Hys. by apply (Hh _ Hrec).
Qed.

Lemma load_loop_safe names n b w r w' : inv w → safe w → load_loop names n b w = Some (r, w') → safe w'.
Proof.
  revert n b w. induction names as [|name names IH]; intros n b w Hi Hw H; cbn [load_loop] in H; [by apply ret_Some in H as [_ ->]|].
  assert (∀ u v y, inv u ∧ safe u → sys u = Some (y, v) → inv v ∧ safe v) as Hsys.
  { intros u v y [Hu Hs] Hy. split; [apply sys_Some in Hy; by eapply keeps_disk|eapply micros_safe; [done|by eapply sys_micros]]. }
  apply try_Some in H as (x & w1 & Hs & H). destruct (Hsys w w1 x (conj Hi Hw) Hs) as [Hi1 Hw1].
  destruct x as [[]|e]; [|by destruct H as [_ ->]].
  destruct (bool_decide (extension name = Some "json")); [|by eapply (IH n b w1)].
  apply bind_Some in H as (x & w2 & Hs2 & H). destruct (Hsys w1 w2 x (conj Hi1 Hw1) Hs2) as [Hi2 Hw2].
  apply bind_Some in H as (w3 & w3' & Hg & H). apply gets_Some in Hg as [-> ->].
  apply bind_Some in H as (skip & w4 & Hl & H).
  assert (∀ s st, (match x with Ok _ => visible (disk w2) !! name | Err _ => None end) ≫= decode = Some (s, st) →
            handoff_ok s st ∧ claim s st) as Hb.
  { intros s st Hb. destruct x; [|done]. destruct (visible _ !! _) as [bytes|] eqn:Ev; [|done]. split.
    - by apply (inv_disk _ Hi2 _ _ _ _ (or_introl Ev) Hb).
    - by apply (sf_disk _ Hw2 _ _ _ _ (or_introl Ev) Hb). }
  pose proof (load_file_safe _ _ _ _ Hi2 Hw2 Hb Hl) as Hw4.
  destruct (load_file_Some _ _ _ _ Hi2 (λ s st E, proj1 (Hb s st E)) Hl) as [Hi4 _].
  by eapply (IH _ _ w4).
Qed.

Lemma imports_claims (w w' : World) : imports w w' → disk_claims (disk w) → disk_claims (disk w').
Proof.
  intros (_ & _ & Hd & _ & Hv) Hk f b s st [Hf|Hf] Hdec; [|rewrite Hd in Hf; by eapply Hk; [right|]].
  destruct (Hv _ _ Hf) as [Hold|[->|[s' ->]]]; [by eapply Hk; [left|]|by rewrite decode_empty in Hdec|].
  rewrite decode_encode in Hdec. injection Hdec as <- <-. by apply claim_none.
Qed.

Lemma empty_safe (w : World) : ok w → deps w = ∅ → disk_claims (disk w) → safe w.
Proof.
  intros Hw Hd Hk. split; [done|..|done].
  - intros l d H. by rewrite Hd, lookup_empty in H.
  - intros j l d _ H. by rewrite Hd, lookup_empty in H.
Qed.

Lemma load_safe w r w' : load w = Some (r, w') → inv w → deps w = ∅ → disk_claims (disk w) → safe w'.
Proof.
  intros H Hi Hd Hk. unfold load in H. apply try_Some in H as (x & w1 & Hm & H).
  assert (inv w1) as Hi1 by (by eapply migrate_inv). apply migrate_imports in Hm as [Him _].
  assert (safe w1) as Hw1 by (apply empty_safe; [apply Hi1|by rewrite (proj1 Him)|by eapply imports_claims]).
  destruct x as [[]|e]; [|by destruct H as [_ ->]].
  apply try_Some in H as (x & w2 & Hs & H).
  assert (safe w2) as Hw2 by (eapply micros_safe; [exact Hw1|by eapply sys_micros]).
  assert (inv w2) as Hi2 by (apply sys_Some in Hs; by eapply keeps_disk).
  destruct x as [[]|e]; [|by destruct H as [_ ->]].
  apply bind_Some in H as (w3 & w3' & Hg & H). apply gets_Some in Hg as [-> ->].
  apply try_Some in H as (y & w3 & Hl & H). pose proof (load_loop_safe _ _ _ _ _ _ Hi2 Hw2 Hl) as Hw3.
  destruct y as [[m sk]|e]; [|by destruct H as [_ ->]].
  apply bind_Some in H as ([] & w4 & Hm' & H). apply modify_Some in Hm' as ->. apply ret_Some in H as [_ ->].
  eapply micro_safe; [exact Hw3|]. by apply micro_same.
Qed.

Lemma start_up_safe (w : World) r w' :
  disk_good (disk w) → disk_claims (disk w) → start_up w = Some (r, w') → safe w'.
Proof.
  intros Hg Hk H. unfold start_up in H. apply bind_Some in H as ([] & w0 & Hm & H). apply modify_Some in Hm as ->.
  apply try_Some in H as (x & w1 & Hl & H). apply load_safe in Hl; [|by apply new_registry_inv|done|done].
  destruct x as [n|e]; [|by destruct H as [_ ->]].
  apply bind_Some in H as (w4 & w4' & Hg' & H). apply gets_Some in Hg' as [-> ->].
  destruct (require_complete_load w1); [|by apply ret_Some in H as [_ ->]].
  apply bind_Some in H as (s & w5 & Hs & H). apply ret_Some in H as [_ ->].
  apply sweep_Some in Hs as (v & [fs ->] & Hv).
  apply (safe_deps w1); [done|by apply disk_ok, Hl| |by left|].
  - intros k x Hx. cbn in Hx. split; [by eapply sf_deps|congruence].
  - apply (claims_old (disk w1)); [apply Hl|]. intros f b [Hf|Hf]; [|by right]. left. cbn in Hf.
    destruct (Hv f) as [E|[E _]]; congruence.
Qed.

(** A start brings a frozen deployment back frozen, and one that is refused leaves it on disk. *)
Lemma start_up_frozen i Q (w : World) r w' :
  i ≠ "" → disk_good (disk w) → disk_frozen i Q (disk w) → start_up w = Some (r, w') →
  disk_frozen i Q (disk w') ∧ (is_ok r = true → mem_frozen i Q w').
Proof.
  intros Hi Hg Hf H. destruct (start_up_files _ _ _ Hg H) as [Hdur Hvis].
  destruct (Hf (visible (disk w)) (or_introl eq_refl)) as (b & s & st & o & Hb & Hdec & Hid & Ho & HQ).
  destruct r as [[]|e]; cbn [is_ok] in *.
  - destruct (start_keeps_record _ _ _ _ _ _ _ Hg H Hi eq_refl Hb Hdec) as (d & Hd & Hsp & Hst & Hb').
    split; [|intros _].
    + intros v [-> | ->]; [by exists b, s, st, o|]. rewrite Hdur. apply Hf. by right.
    + apply dep_at_deps in Hd as (l & Hl & Hd). exists l, d, o. rewrite Hst. by split_and!.
  - split; [|done]. intros v [-> | ->]; [|rewrite Hdur; apply Hf; by right].
    exists b, s, st, o. by split_and!; [apply Hvis|..].
Qed.

(** ** Runs *)

(** What the registry does, and requests to retire: the operation of the handler, with what the
    hosts answer and what the job, update and workspace records have against it.  A crash in
    the middle of one is the same as one whose answers or system calls end there. *)
Inductive REvent : Type :=
| Reg (e : Event Rest Site Json)
| Retire (i : string) (r : RetirementRequest) (answers : Answers) (blocked : option string).

Definition rstep (e : REvent) : Op unit :=
  match e with
  | Reg e => LbRegistry.step e
  | Retire i r answers blocked => quietly (retire_deployment i r answers blocked)
  end.

Local Abbreviation Sys := (LbRegistry.Sys Rest Site SandboxStatus Json Bytes).

Lemma rstep_ok e w u w' : inv w → safe w → rstep e w = Some (u, w') → rtc micro w w' ∧ inv w' ∧ safe w'.
Proof.
  intros Hi Hw H. destruct e as [e|i r answers blocked]; cbn [rstep] in H.
  - pose proof (step_micros _ _ _ _ Hi Hw H) as Hm. split; [done|]. split; [by eapply step_inv|by eapply micros_safe].
  - apply quietly_Some in H as [a H]. destruct (retire_spec _ _ _ _ _ _ _ Hw H) as [Hm _].
    pose proof (amend_micros _ _ Hm) as Hm'. split; [done|]. split; [by eapply amends_all_inv|by eapply micros_safe].
Qed.

Definition good (s : Sys) : Prop :=
  match s with
  | Up w => inv w ∧ safe w
  | Down w => disk_good (disk w) ∧ disk_claims (disk w)
  end.

Lemma claims_crash kept (w : World) : disk_claims (disk w) → disk_claims (disk (crash kept w)).
Proof.
  intros Hk. apply (claims_old (disk w)); [done|]. intros f b. destruct (crash_lookup kept w f) as [E1 E2].
  rewrite E2, E1. destruct (bool_decide _); tauto.
Qed.

Lemma sys_step_good e s s' : good s → sys_step rstep e s = Some s' → good s'.
Proof.
  intros Hs. destruct e as [e|kept|fs], s as [w|w]; cbn [sys_step]; try (by intros [= <-]).
  - destruct (rstep e w) as [[u w1]|] eqn:E1; [|done]. intros [= <-]. destruct Hs as [Hi Hw].
    by destruct (rstep_ok _ _ _ _ Hi Hw E1) as (_ & ? & ?).
  - intros [= <-]. destruct Hs as [Hi Hw]. split; [apply good_crash, Hi|apply claims_crash, Hw].
  - intros [= <-]. destruct Hs as [Hg Hk]. split; [by apply good_crash|by apply claims_crash].
  - destruct (start_up _) as [[r w1]|] eqn:E1; [|done]. intros [= <-]. destruct Hs as [Hg Hk].
    pose proof (start_up_safe (with_faults fs w) _ _ Hg Hk E1) as Hw1.
    destruct (start_up_Some (with_faults fs w) r w1 Hg E1) as [Hi1 _].
    destruct r; [done|]. split; [apply Hi1|apply Hw1].
Qed.

Lemma run_good es s s' : good s → run rstep es s = Some s' → good s'.
Proof.
  revert s. induction es as [|e es IH]; intros s Hs H; cbn [run] in H; [by injection H as <-|].
  destruct (sys_step rstep e s) as [s1|] eqn:E1; [|done]. apply (IH s1); [by eapply sys_step_good|done].
Qed.

(** A machine that holds at most a legacy file. *)
Definition fresh_machine (old : option Bytes) : Sys :=
  machine {| visible := ∅; durable := ∅; legacy := old; archive := ∅ |}.

Lemma fresh_good old : good (fresh_machine old).
Proof.
  split; intros f b s st Hf; cbn in Hf; rewrite lookup_empty in Hf; by destruct Hf.
Qed.

Definition kept_frozen (i : string) (Q : Operation → Prop) (s : Sys) : Prop :=
  match s with Up w => frozen i Q w | Down w => disk_frozen i Q (disk w) end.

Lemma run_frozen i Q es s s' :
  (∀ o o', evolves o o' → Q o → Q o') → i ≠ "" → good s → kept_frozen i Q s → run rstep es s = Some s' → kept_frozen i Q s'.
Proof.
  intros HQ Hi. revert s. induction es as [|e es IH]; intros s Hs Hf H; cbn [run] in H; [by injection H as <-|].
  destruct (sys_step rstep e s) as [s1|] eqn:E1; [|done]. pose proof (sys_step_good _ _ _ Hs E1) as Hs1.
  apply (IH s1); [done| |done]. clear H Hs1.
  destruct e as [e|kept|fs], s as [w|w]; cbn [sys_step] in E1; try (by injection E1 as <-).
  - destruct (rstep e w) as [[u w1]|] eqn:E; [|done]. injection E1 as <-. destruct Hs as [Hinv Hw].
    destruct (rstep_ok _ _ _ _ Hinv Hw E) as (Hm & _ & _). by eapply micros_frozen.
  - injection E1 as <-. apply disk_frozen_crash, Hf.
  - injection E1 as <-. by apply disk_frozen_crash.
  - destruct (start_up _) as [[r w1]|] eqn:E; [|done]. injection E1 as <-. destruct Hs as [Hg _].
    destruct (start_up_frozen i Q (with_faults fs w) _ _ Hi Hg Hf E) as [Hd Hm]. destruct r; [split; [by apply Hm|done]|done].
Qed.

Lemma frozen_answers i o w : frozen i (evolves o) w →
  ∃ d o', dep_at i w = Some d ∧ retirement (state_of d) = Some o' ∧ evolves o o'.
Proof. intros [(l & d & o' & Hl & Hd & Ho & He) _]. exists d, o'. unfold dep_at. rewrite Hl. by split_and!. Qed.

Lemma protects_inventory (d : Dep) o x i (w : World) :
  dep_at i w = Some d → retirement (state_of d) = Some o → x ∈ inventory o → retirement_protects x None w = true.
Proof.
  intros (l & Hl & Hd)%dep_at_deps Ho Hx. unfold retirement_protects. cbn [orb]. apply existsb_exists. exists d. split.
  - apply list_elem_of_In. unfold all_deps. apply list_elem_of_omap. exists l. split; [|done].
    apply list_elem_of_fmap. exists (i, l). split; [done|]. by apply elem_of_map_to_list.
  - rewrite Ho. rewrite !orb_true_iff. left. left. right. apply existsb_exists. exists x.
    split; [by apply list_elem_of_In|apply String.eqb_refl].
Qed.

(** C13. A freeze is for good. Once a request to retire a deployment was answered with its
    operation, then whatever is asked of the controller afterwards, whatever fails, however
    often the host crashes with unsynced files and the controller starts again, the
    deployment is still registered and frozen for the same request; a completed operation is
    still that very one; and every sandbox of its inventory is protected from any cleanup. *)
Theorem frozen_is_forever old before after i r answers blocked o w0 w w' :
  i ≠ "" → run rstep before (fresh_machine old) = Some (Up w0) →
  retire_deployment i r answers blocked w0 = Some (Some (Ok o), w) →
  run rstep after (Up w) = Some (Up w') →
  retirement_frozen i w' = true ∧
  (∃ d o', dep_at i w' = Some d ∧ retirement (state_of d) = Some o' ∧ request o' = r ∧ evolves o o') ∧
  ∀ x, x ∈ inventory o → retirement_protects x None w' = true.
Proof.
  intros Hi Hb Hr Ha. pose proof (run_good _ _ _ (fresh_good old) Hb) as [Hinv Hw].
  destruct (retire_spec _ _ _ _ _ _ _ Hw Hr) as [Hm Hok]. destruct (Hok o eq_refl) as (_ & Hreq & l & Hl & Hs).
  pose proof (saved_freezes _ _ _ _ i Hw Hs Hl) as Hf.
  assert (good (Up w)) as Hg by (split; [by eapply amends_all_inv|eapply micros_safe; [done|by apply amend_micros]]).
  pose proof (run_frozen i (evolves o) after (Up w) (Up w') (λ a b H1 H2, transitivity H2 H1) Hi Hg Hf Ha) as Hf'.
  destruct (frozen_answers _ _ _ Hf') as (d & o' & Hd & Ho & He). split; [apply mem_frozen_is with (evolves o), Hf'|].
  split; [exists d, o'; split_and!; try done; by rewrite (ev_request _ _ He)|].
  intros x Hx. eapply protects_inventory; [exact Hd|exact Ho|]. by rewrite (ev_inventory _ _ He).
Qed.

(** Retired means attested. In any state a controller gets to, an operation that says a
    deployment is retired has nothing unresolved, an inventory of exactly the approved
    sandboxes, and for each of them the receipt of its host for this operation and this
    runtime; and only a managed deployment has an operation at all. *)
Theorem retired_means_attested old es w i d o :
  run rstep es (fresh_machine old) = Some (Up w) →
  dep_at i w = Some d → retirement (state_of d) = Some o →
  is_managed (spec_of d) = true ∧ (terminal o = true → attested o).
Proof.
  intros Hrun (l & _ & Hd)%dep_at_deps Ho. pose proof (run_good _ _ _ (fresh_good old) Hrun) as [_ Hw].
  destruct (sf_deps _ Hw _ _ Hd _ Ho) as [Hm Hop]. split; [done|]. apply Hop.
Qed.

(** ** Completion *)

(** The hosts attest, call after call, the targets that have no receipt yet. *)
Fixpoint willing (o : Operation) (ts : list RetirementTarget) (answers : Answers) : Prop :=
  match ts with
  | [] => True
  | t :: ts =>
    if is_some (receipts o !! backend_sandbox_id t) then willing o ts answers
    else ∃ j rest, attest (operation_id (request o)) t answers = (Ok j, rest) ∧
           receipt j (operation_id (request o)) t = true ∧ willing (add_receipt (backend_sandbox_id t) j o) ts rest
  end.

(** The record at [l] while no system call fails. *)
Definition quiet_at (l : nat) (st : State) (w : World) : Prop :=
  faults w = [] ∧ ∃ d, deps w !! l = Some d ∧ state_of d = st.

Lemma persist_total (d : Dep) st (w : World) :
  faults w = [] → persist_snapshot d st w = Some (Ok tt, with_disk (sync_dir (record_file d st (disk w))) w).
Proof.
  intros Hf. assert (sys w = Some (Ok tt, w)) as Hs by (unfold sys; by rewrite Hf).
  assert (sys (with_disk (record_file d st (disk w)) w) = Some (Ok tt, with_disk (record_file d st (disk w)) w)) as Hs'
    by (unfold sys; cbn; by rewrite Hf).
  unfold persist_snapshot, try, bind. repeat (rewrite Hs; cbn [mbind option_bind]).
  cbv beta match. unfold on_disk, modify, mbind, option_bind. cbv beta match. fold (record_file d st).
  rewrite Hs'. reflexivity.
Qed.

Lemma set_state_total l d st (w : World) : deps w !! l = Some d → ∃ w', set_state l st w = Some (tt, w') ∧ faults w' = faults w.
Proof.
  intros Hd. unfold set_state, on_pool, bind, deref, gets, mbind, option_bind. rewrite Hd. cbv beta match.
  destruct (LbPool.set_state _ _ _) as [h p]. eexists. split; reflexivity.
Qed.

Lemma drain_total (bs : list nat) (w : World) : ∃ h,
  each (λ b, modify (λ w, with_heap (alter (λ x, set_draining x true) b (heap w)) w)) bs w = Some (tt, with_heap h w).
Proof.
  revert w. induction bs as [|b bs IH]; intros w; cbn [each]; [exists (heap w); by destruct w|].
  destruct (IH (with_heap (alter (λ x, set_draining x true) b (heap w)) w)) as [h Hh]. exists h.
  apply bind_Some. eexists tt, _. split; [by apply modify_Some|exact Hh].
Qed.

Lemma save_total l o d (w : World) :
  faults w = [] → deps w !! l = Some d →
  ∃ w', save l o w = Some (Ok tt, w') ∧ quiet_at l (with_retirement o (state_of d)) w' ∧ deployments w' = deployments w.
Proof.
  intros Hf Hd. set (st := with_retirement o (state_of d)).
  assert (∃ w1 d1, when (negb (terminal o)) (set_state l st) w = Some (tt, w1) ∧ faults w1 = [] ∧ deps w1 !! l = Some d1)
    as (w1 & d1 & H1 & Hf1 & Hd1).
  { destruct (negb (terminal o)); cbn [when]; [|by exists w, d].
    destruct (set_state_total l d st w Hd) as (w1 & H1 & Hf1). pose proof H1 as (_ & d1 & _ & Hd1 & _)%set_state_Some.
    exists w1, d1. split_and!; congruence. }
  destruct (drain_total (backends (base d1)) w1) as [h H2].
  assert (∃ w3, when (terminal o) (set_state l st) (with_disk (sync_dir (record_file d1 st (disk w1))) (with_heap h w1)) = Some (tt, w3)
            ∧ faults w3 = []) as (w3 & H3 & Hf3).
  { destruct (terminal o); cbn [when]; [|by eexists].
    edestruct (set_state_total l d1 st (with_disk (sync_dir (record_file d1 st (disk w1))) (with_heap h w1))) as (w3 & H3 & Hf3); [done|].
    exists w3. split; [done|]. by rewrite Hf3. }
  assert (save l o w = Some (Ok tt, w3)) as Hs.
  { unfold save. apply bind_Some. exists d, w. split; [by apply deref_Some|]. cbv zeta. fold st.
    apply bind_Some. exists tt, w1. split; [done|]. apply bind_Some. exists d1, w1. split; [by apply deref_Some|].
    apply bind_Some. exists tt, (with_heap h w1). split; [done|].
    apply bind_Some. exists (Ok tt), (with_disk (sync_dir (record_file d1 st (disk w1))) (with_heap h w1)).
    split; [exact (persist_total d1 st (with_heap h w1) Hf1)|]. apply bind_Some. exists tt, w3. split; [done|]. by apply ret_Some. }
  exists w3. split; [done|]. apply save_amends in Hs as [_ H5 _ _ _ (x & x' & Hx & Hx' & _ & _ & Hst & _)].
  split; [|done]. split; [done|]. exists x'. split; [done|]. assert (x = d) as -> by congruence.
  destruct Hst as [Hst|[? _]]; [exact Hst|done].
Qed.

(** A save, then the rest. *)
Lemma save_then {A} l o (st : State) (k : unit → Op (result RetireError A)) (w : World) :
  quiet_at l st w →
  ∃ w1, quiet_at l (with_retirement o st) w1 ∧ deployments w1 = deployments w ∧ try (save l o) k w = k tt w1.
Proof.
  intros [Hf (d & Hd & <-)]. destruct (save_total l o d w Hf Hd) as (w1 & Hs & Hq & Hds).
  exists w1. split; [done|]. split; [done|]. unfold try, bind. rewrite Hs. reflexivity.
Qed.

Lemma try_ret {E A B} (a : A) (k : A → Op (result E B)) (w : World) : try (ret (Ok a)) k w = k a w.
Proof. reflexivity. Qed.

Lemma targets_total l ts o answers st (w : World) :
  quiet_at l st w → willing o ts answers →
  ∃ o' w' st', retire_targets l ts o answers w = Some (Ok o', w') ∧ quiet_at l st' w'.
Proof.
  revert o answers st w. induction ts as [|t ts IH]; intros o answers st w Hq Hw; cbn [retire_targets willing] in *.
  { by exists o, w, st. }
  destruct (receipts o !! backend_sandbox_id t) as [j|]; cbn [is_some] in *; [by eapply IH|].
  destruct Hw as (j & rest & Ha & Hr & Hw). rewrite Ha. rewrite try_ret, Hr. cbn [negb]. cbv zeta.
  destruct (save_then l (add_receipt (backend_sandbox_id t) j o) st
    (λ _, retire_targets l ts (add_receipt (backend_sandbox_id t) j o) rest) w Hq) as (w1 & Hq1 & _ & ->).
  by eapply IH.
Qed.

(** C35. A retirement comes to an end. Asking again for a frozen deployment that has nothing
    unresolved and no history to reconcile completes it in that one request, provided that
    no system call fails and each host still to be heard attests its runtime: the answer is
    the completed operation, and that is what the registry holds. *)
Theorem willing_hosts_retire i l d o answers (w : World) :
  get i w = Some l → deps w !! l = Some d → retirement (state_of d) = Some o →
  terminal o = false → unresolved o = None → blocker_of (state_of d) = None →
  faults w = [] → willing (set_op_state "retiring" o) (targets_of (request o)) answers →
  ∃ o' w' d', retire_deployment i (request o) answers None w = Some (Some (Ok o'), w') ∧ terminal o' = true ∧
    deps w' !! l = Some d' ∧ retirement (state_of d') = Some o'.
Proof.
  intros Hl Hd Ho Ht Hu Hb Hf Hw.
  assert (quiet_at l (state_of d) w) as Hq by (split; [done|by exists d]).
  destruct (save_then l o (state_of d) (λ _, ret (Ok o)) w Hq) as (w1 & Hq1 & _ & Hs1).
  assert (freeze l (request o) w = Some (Ok o, w1)) as Hfr.
  { unfold freeze. apply bind_Some. exists d, w. split; [by apply deref_Some|]. rewrite Ho, bool_decide_eq_true_2 by done. exact Hs1. }
  destruct Hq1 as [Hf1 (d1 & Hd1 & Hst1)].
  assert (quiet_at l (state_of d1) w1) as Hq1 by (split; [done|by exists d1]).
  set (o1 := set_op_state "retiring" o) in *.
  set (finish := λ op, save l (set_op_state "retired" op) ;;?! ret (Ok (set_op_state "retired" op))).
  destruct (save_then l o1 (state_of d1) (λ _, op <-?! retire_targets l (targets_of (request o1)) o1 answers ;; finish op) w1 Hq1)
    as (w2 & Hq2 & _ & Hs2).
  destruct (targets_total _ _ _ _ _ _ Hq2 Hw) as (o3 & w3 & st3 & Htg & Hq3).
  destruct (save_then l (set_op_state "retired" o3) st3 (λ _, ret (Ok (set_op_state "retired" o3))) w3 Hq3) as (w4 & Hq4 & _ & Hs4).
  assert (advance l answers None w1 = Some (Ok (set_op_state "retired" o3), w4)) as Hadv.
  { unfold advance. apply bind_Some. exists d1, w1. split; [by apply deref_Some|].
    assert (retirement (state_of d1) = Some o ∧ blocker_of (state_of d1) = None) as [-> ->] by (by rewrite Hst1).
    rewrite Ht, Hu. cbn [is_some]. cbv zeta. fold o1. etrans; [exact Hs2|]. apply try_Some. exists (Ok o3), w3. split; [exact Htg|]. exact Hs4. }
  destruct Hq4 as [_ (d4 & Hd4 & Hst4)]. exists (set_op_state "retired" o3), w4, d4. split; [|split; [done|split; [done|by rewrite Hst4]]].
  unfold retire_deployment. apply bind_Some. exists (Some l), w. split; [apply gets_Some; by rewrite Hl|].
  apply bind_Some. exists (Ok o), w1. split; [done|]. apply bind_Some. exists (Ok (set_op_state "retired" o3)), w4. split; [done|].
  by apply ret_Some.
Qed.
End retirement.

(** ** A concrete retirement *)

Section examples.
Import Demo.
Let field (v : Json) (key : string) : Json :=
  match v with
  | Report state subject answer =>
    if String.eqb key "state" then Text state
    else if String.eqb key "target" || String.eqb key "request" then subject
    else if String.eqb key "receipt" || String.eqb key "retiredAt" then answer
    else Null
  | _ => Null
  end.
Let as_str (v : Json) : option string := match v with Text s => Some s | _ => None end.
Let rfc3339 (s : string) : bool := (String.length s =? 20)%nat.

Let shop : Spec := managed "shop" [rule "shop.example" "/"].
Let target : RetirementTarget :=
  {| backend_server_id := "host"; backend_sandbox_id := "sb-1"; created_at_unix_nanos := "12345";
     libvirt_connection_uri := "qemu:///system"; libvirt_domain_uuid := "domain-1" |}.
Let request_for (sha : string) : RetirementRequest :=
  {| operation_id := "retire-1"; expected_revision := "r0"; expected_spec_sha256 := sha; targets_of := [target] |}.
Let ask_for : RetirementRequest := request_for "spec of shop".
(** One suspended sandbox. *)
Let with_one : Durable :=
  {| retirement := None; create_attempts := []; allocation_history_complete := true; rollout_revision := "r0";
     active_prefix := None; rollouts := []; suspended := ["sb-1"]; upstream_drains := []; discovery_version := None;
     discovery_source_url := None; route_handoff := None |}.
Let attestation : Json := Report "retired" (Request "retire-1" target) (Text "2026-09-25T10:00:00Z").
Let observed : Json := Report "retired" (Target target) attestation.

Abbreviation Ev := (SysEvent (REvent (Rest := unit) (Site := unit) (Json := Json))).
Let do_ (e : Event unit unit Json) : Ev := Do (Reg e).
Let go (es : list Ev) (s : Sys unit unit unit Json File) : option (Sys unit unit unit Json File) :=
  run (rstep field as_str Target Request rfc3339) es s.
Let before : list Ev := [Start []; do_ (EvUpsert shop); do_ (EvMutate 1 with_one)].
Let after : list Ev :=
  [do_ (EvRemove "shop"); do_ (EvForget "shop"); do_ (EvUpdate shop); Crash ∅; Start []; do_ (EvUpsert shop)].
Let retire (answers : Answers) (w : Controller) :=
  retire_deployment field as_str Target Request rfc3339 "shop" ask_for answers None w.

Lemma checked_run es s (P : Controller → bool) :
  match go es s with Some (Up w) => P w | _ => false end = true → ∃ w, go es s = Some (Up w) ∧ P w = true.
Proof. destruct (go es s) as [[w|w]|]; [|done..]. intros HP. by exists w. Qed.

(** The retired deployment outlives a removal, an update, and a host that loses every unsynced file. *)
Lemma frozen_is_forever_witness :
  ∃ w0 o w w', go before (fresh_machine None) = Some (Up w0) ∧ retire [Ok observed] w0 = Some (Some (Ok o), w) ∧
    terminal o = true ∧ go after (Up w) = Some (Up w') ∧ retirement_frozen "shop" w' = true ∧
    retirement_protects "sb-1" None w' = true.
Proof.
  destruct (checked_run before (fresh_machine None)
    (λ w0, match retire [Ok observed] w0 with
           | Some (Some (Ok o), w) =>
             terminal o && bool_decide ("sb-1" ∈ inventory o)
             && match go after (Up w) with Some (Up _) => true | _ => false end
           | _ => false
           end)) as (w0 & Hb & H); [vm_compute; reflexivity|].
  destruct (retire [Ok observed] w0) as [[[[o|]|] w]|] eqn:Er; [|done..].
  apply andb_true_iff in H as [[Ht Hin%bool_decide_eq_true]%andb_true_iff Ha].
  destruct (go after (Up w)) as [[w'|]|] eqn:Ea; [|done..].
  destruct (frozen_is_forever field as_str Target Request rfc3339 None before after "shop" ask_for [Ok observed] None o w0 w w'
    ltac:(discriminate) Hb Er Ea) as (Hf & _ & Hp).
  exists w0, o, w, w'. split_and!; try done. by apply Hp.
Defined.

Lemma retired_means_attested_witness :
  ∃ w d o, go (before ++ [Do (Retire "shop" ask_for [Ok observed] None)]) (fresh_machine None) = Some (Up w) ∧
    dep_at "shop" w = Some d ∧ retirement (state_of d) = Some o ∧ terminal o = true ∧
    attested field as_str Request rfc3339 o.
Proof.
  destruct (checked_run (before ++ [Do (Retire "shop" ask_for [Ok observed] None)]) (fresh_machine None)
    (λ w, match d ← dep_at "shop" w; retirement (state_of d) with Some o => terminal o | None => false end))
    as (w & Hgo & H); [vm_compute; reflexivity|].
  destruct (dep_at "shop" w) as [d|] eqn:Ed; [|done]. cbn in H. destruct (retirement (state_of d)) as [o|] eqn:Eo; [|done].
  exists w, d, o. split; [exact Hgo|]. split; [exact Ed|]. split; [exact Eo|]. split; [exact H|].
  apply (retired_means_attested field as_str Target Request rfc3339 None _ w "shop" d o Hgo Ed Eo). exact H.
Defined.

(** No answer at first: the deployment is frozen, and one more request completes it. *)
Lemma willing_hosts_retire_witness :
  ∃ w l d o o' w', go (before ++ [Do (Retire "shop" ask_for [] None)]) (fresh_machine None) = Some (Up w) ∧
    get "shop" w = Some l ∧ deps w !! l = Some d ∧ retirement (state_of d) = Some o ∧ terminal o = false ∧
    retire [Ok observed] w = Some (Some (Ok o'), w') ∧ terminal o' = true.
Proof.
  destruct (checked_run (before ++ [Do (Retire "shop" ask_for [] None)]) (fresh_machine None)
    (λ w, match l ← get "shop" w; d ← deps w !! l; o ← retirement (state_of d); Some (l, d, o) with
          | Some (l, d, o) =>
            negb (terminal o) && bool_decide (unresolved o = None) && bool_decide (blocker_of (state_of d) = None)
            && bool_decide (faults w = []) && bool_decide (request o = ask_for) && bool_decide (receipts o = ∅)
          | None => false
          end)) as (w & Hgo & H); [vm_compute; reflexivity|].
  destruct (get "shop" w) as [l|] eqn:El; [|done]. cbn in H. destruct (deps w !! l) as [d|] eqn:Ed; [|done]. cbn in H.
  destruct (retirement (state_of d)) as [o|] eqn:Eo; [|done]. cbn in H.
  apply andb_true_iff in H as [H Hrc%bool_decide_eq_true]. apply andb_true_iff in H as [H Hreq%bool_decide_eq_true].
  apply andb_true_iff in H as [H Hf%bool_decide_eq_true]. apply andb_true_iff in H as [H Hb%bool_decide_eq_true].
  apply andb_true_iff in H as [Ht%negb_true_iff Hu%bool_decide_eq_true].
  destruct (willing_hosts_retire field as_str Target Request rfc3339 "shop" l d o [Ok observed] w El Ed Eo Ht Hu Hb Hf)
    as (o' & w' & d' & Hr & Ht' & _).
  { rewrite Hreq. cbn [targets_of ask_for request_for willing set_op_state receipts]. rewrite Hrc, lookup_empty. cbn [is_some].
    exists attestation, []. cbn [request set_op_state]. rewrite Hreq. split_and!; reflexivity. }
  rewrite Hreq in Hr. exists w, l, d, o, o', w'. split_and!; done.
Defined.
End examples.
