(* ===== verification/PgJournal.v ===== *)
(** * Physical replication journals: [pg-fc/src/replication/physical_store.rs]

    The records of the two durable journals of a physical (streaming) replacement,
    their validators, and the journal file both stores share: how it is decoded, when
    it is accepted on load, and how a new version replaces it on disk.  The stores
    themselves are in [PgSource] and [PgCandidate]. *)
From Stdlib Require Import Ascii String ZArith Lia Bool.
From stdpp Require Import base option list strings gmap fin_maps.
From S2P Require Import Prelude.
Open Scope string_scope.
Open Scope list_scope.

(** ** Records *)

(** [wire::Login]. *)
Record Login : Type := { role : string; password : string }.
#[global] Instance Login_eq_dec : EqDecision Login.
Proof. solve_decision. Defined.

Inductive PhysicalPhase : Type :=
| Intent | Creating | Candidate | Seeding | Verified | StandbyBinding | Standby
| Prepared | Promoting | Promoted | Binding | Activated.
#[global] Instance PhysicalPhase_eq_dec : EqDecision PhysicalPhase.
Proof. solve_decision. Defined.

Record PhysicalHandoffGrant : Type :=
  { g_candidate_id : string; g_peer : string; g_barrier_lsn : string }.
#[global] Instance PhysicalHandoffGrant_eq_dec : EqDecision PhysicalHandoffGrant.
Proof. solve_decision. Defined.

Record PhysicalFence : Type := { f_phase : string; f_barrier_lsn : option string }.
#[global] Instance PhysicalFence_eq_dec : EqDecision PhysicalFence.
Proof. solve_decision. Defined.

(** The candidate's record, on the node that receives the database. *)
Record PhysicalRecord : Type := {
  database : string;
  generation : string;
  predecessor : option string;
  candidate_name : string;
  repl : option Login;
  candidate_id : option string;
  previous_vm_id : option string;
  source_node : string;
  source_vm_id : string;
  system_identifier : string;
  pg_major : Z;               (** u32 *)
  slot : string;
  phase : PhysicalPhase;
  handoff_barrier : option string;
  standby_lsn : option string;
  last_error : option string;
}.
#[global] Instance PhysicalRecord_eq_dec : EqDecision PhysicalRecord.
Proof. solve_decision. Defined.

(** The source's record, on the node that gives the database up. *)
Record PhysicalSourceRecord : Type := {
  s_database : string;
  s_generation : string;
  s_predecessor : option string;
  s_source_vm_id : string;
  s_repl : option Login;
  s_fence : option PhysicalFence;
  s_system_identifier : string;
  s_pg_major : Z;             (** u32 *)
  s_slot : string;
  s_source_lsn : string;
  s_peer : string;
  s_handoff_candidate : option string;
  s_handoff_complete : bool;
  s_handoff : option PhysicalHandoffGrant;
  s_last_error : option string;
}.
#[global] Instance PhysicalSourceRecord_eq_dec : EqDecision PhysicalSourceRecord.
Proof. solve_decision. Defined.

(** [PhysicalRecord::candidate_name]. *)
Definition candidate_name_of (gen : string) : string := "repl-seed-" +:+ gen.

Definition handoff_started (r : PhysicalRecord) : bool :=
  match phase r with
  | Prepared | Promoting | Promoted | Binding | Activated => true
  | _ => false
  end.

(** Functional update of the fields that change after creation. *)
Definition with_progress (r : PhysicalRecord) (p : PhysicalPhase) (cid barrier standby
    err : option string) : PhysicalRecord :=
  {| database := database r; generation := generation r; predecessor := predecessor r;
     candidate_name := candidate_name r; repl := repl r; candidate_id := cid;
     previous_vm_id := previous_vm_id r; source_node := source_node r;
     source_vm_id := source_vm_id r; system_identifier := system_identifier r;
     pg_major := pg_major r; slot := slot r; phase := p; handoff_barrier := barrier;
     standby_lsn := standby; last_error := err |}.

Definition with_repl (r : PhysicalRecord) (l : Login) : PhysicalRecord :=
  {| database := database r; generation := generation r; predecessor := predecessor r;
     candidate_name := candidate_name r; repl := Some l; candidate_id := candidate_id r;
     previous_vm_id := previous_vm_id r; source_node := source_node r;
     source_vm_id := source_vm_id r; system_identifier := system_identifier r;
     pg_major := pg_major r; slot := slot r; phase := phase r;
     handoff_barrier := handoff_barrier r; standby_lsn := standby_lsn r;
     last_error := last_error r |}.

Definition s_with (r : PhysicalSourceRecord) (re : option Login)
    (fe : option PhysicalFence) (lsn : string) (cand : option string) (complete : bool)
    (h : option PhysicalHandoffGrant) (err : option string) : PhysicalSourceRecord :=
  {| s_database := s_database r; s_generation := s_generation r;
     s_predecessor := s_predecessor r; s_source_vm_id := s_source_vm_id r;
     s_repl := re; s_fence := fe; s_system_identifier := s_system_identifier r;
     s_pg_major := s_pg_major r; s_slot := s_slot r; s_source_lsn := lsn;
     s_peer := s_peer r; s_handoff_candidate := cand; s_handoff_complete := complete;
     s_handoff := h; s_last_error := err |}.

Definition phase_number (p : PhysicalPhase) : Z :=
  match p with
  | Intent => 0 | Creating => 1 | Candidate => 2 | Seeding => 3 | Verified => 4
  | StandbyBinding => 5 | Standby => 6 | Prepared => 7 | Promoting => 8
  | Promoted => 9 | Binding => 10 | Activated => 11
  end%Z.

(** ** Validators

    An error is its message, without the values interpolated into it. *)
Abbreviation res := (result string).

(** [value.as_bytes()[0]], read only after an emptiness test. *)
Definition first_is (f : ascii → bool) (s : string) : bool :=
  match s with String c _ => f c | "" => false end.
Definition longer (n : nat) (s : string) : bool := (n <? String.length s)%nat.
Definition empty (s : string) : bool := String.eqb s "".
Definition is_byte (c : ascii) (b : ascii) : bool := Ascii.eqb b c.
Definition lower_or_digit (b : ascii) : bool :=
  Str.is_ascii_lowercase b || Str.is_ascii_digit b.

Definition lsn_part_ok (part : string) : bool :=
  negb (empty part || longer 8 part || negb (Str.all Str.is_ascii_hexdigit part)).

Definition validate_lsn (value : string) : res unit :=
  let parts := Str.split "/" value in
  bail_if (negb (length parts =? 2)%nat || existsb (negb ∘ lsn_part_ok) parts)
    "invalid WAL barrier LSN".

Definition validate_generation (value : string) : res unit :=
  bail_if
    (empty value || longer 52 value
     || negb (Str.all (λ b, lower_or_digit b || is_byte "-" b) value)
     || negb (first_is Str.is_ascii_lowercase value)
        && negb (first_is Str.is_ascii_digit value)
     || Str.ends_with "-" value)
    "generation must be a safe lowercase identifier".

Definition validate_pg_identifier (label value : string) : res unit :=
  bail_if
    (empty value || longer 63 value
     || negb (Str.all (λ b, lower_or_digit b || is_byte "_" b) value)
     || negb (first_is Str.is_ascii_lowercase value))
    (label +:+ " must be a safe PostgreSQL identifier").

Definition validate_token (label value : string) (max : nat) : res unit :=
  bail_if
    (empty value || longer max value
     || negb (first_is Str.is_ascii_alphanumeric value)
     || negb (Str.all (λ b, Str.is_ascii_alphanumeric b
                || existsb (is_byte b) ["-"; "_"; "."; ":"]%char) value))
    (label +:+ " contains unsafe characters").

(** [char::is_control]: U+0000-U+001F and U+007F-U+009F. *)
Definition is_control (ch : string) : bool :=
  match ch with
  | String c "" => Str.in_range 0 31 c || Str.in_range 127 127 c
  | String a (String c "") => Str.in_range 194 194 a && Str.in_range 128 159 c
  | _ => false
  end.

Definition validate_error (value : string) : res unit :=
  bail_if (empty value || longer 500 value || existsb is_control (Chars.chars value))
    "last error must be a nonempty printable message of at most 500 bytes".

Definition validate_login (l : Login) : res unit :=
  validate_pg_identifier "replication role" (role l) ;;?
  bail_if (empty (password l) || Str.any (Ascii.eqb "000") (password l))
    "invalid replication credential".

Definition fence_phases : list string :=
  ["intent"; "closing_admission"; "draining_startups"; "draining"; "barrier"; "ready";
   "unfencing"].

Definition validate_fence (f : PhysicalFence) : res unit :=
  bail_if (negb (existsb (String.eqb (f_phase f)) fence_phases))
    "invalid physical source fence phase" ;;?
  if String.eqb (f_phase f) "ready" then
    b <-? ok_or (f_barrier_lsn f) "ready physical fence lacks a barrier" ;;
    validate_lsn b
  else bail_if (is_some (f_barrier_lsn f)) "incomplete physical fence cannot have a barrier".

(** [if let Some(x) = o { f(x)?; }]. *)
Definition if_some {A} (o : option A) (f : A → res unit) : res unit :=
  match o with Some x => f x | None => Ok tt end.
(** [o.as_ref().is_some_and(f)]. *)
Definition is_some_and {A} (o : option A) (f : A → bool) : bool :=
  match o with Some x => f x | None => false end.

Definition bad_system_identifier (s : string) : bool :=
  empty s || longer 20 s || negb (Str.all Str.is_ascii_digit s).

Definition validate_record (r : PhysicalRecord) : res unit :=
  validate_pg_identifier "database" (database r) ;;?
  validate_generation (generation r) ;;?
  if_some (repl r) validate_login ;;?
  if_some (predecessor r) (λ p,
    validate_generation p ;;?
    bail_if (String.eqb p (generation r)) "physical operation cannot be its own predecessor") ;;?
  (if handoff_started r then
     b <-? ok_or (handoff_barrier r) "handoff phase requires durable source barrier" ;;
     validate_lsn b
   else bail_if (is_some (handoff_barrier r)) "preparation cannot contain a handoff barrier") ;;?
  (if bool_decide (phase r = StandbyBinding ∨ phase r = Standby) then
     l <-? ok_or (standby_lsn r) "standby phase requires a durable source LSN" ;;
     validate_lsn l
   else bail_if (is_some (standby_lsn r)) "non-standby phase cannot contain a standby LSN") ;;?
  bail_if (negb (String.eqb (candidate_name r) (candidate_name_of (generation r))))
    "candidate name must be derived from the generation" ;;?
  validate_token "source node" (source_node r) 128 ;;?
  validate_token "source VM ID" (source_vm_id r) 128 ;;?
  if_some (candidate_id r) (λ i, validate_token "candidate VM ID" i 128) ;;?
  if_some (previous_vm_id r) (λ i, validate_token "previous VM ID" i 128) ;;?
  bail_if (is_some_and (candidate_id r) (λ i, bool_decide (Some i = previous_vm_id r)))
    "candidate VM ID must differ from the previous VM ID" ;;?
  bail_if (bad_system_identifier (system_identifier r))
    "PostgreSQL system identifier must be a numeric string" ;;?
  bail_if (pg_major r =? 0)%Z "PostgreSQL major version must be nonzero" ;;?
  validate_pg_identifier "replication slot" (slot r) ;;?
  bail_if ((phase_number Candidate <=? phase_number (phase r))%Z
           && negb (is_some (candidate_id r)))
    "phase requires a candidate VM ID" ;;?
  bail_if (bool_decide (phase r = Intent ∨ phase r = Creating) && is_some (candidate_id r))
    "intent cannot already bind a candidate VM" ;;?
  if_some (last_error r) validate_error.

Definition validate_source (r : PhysicalSourceRecord) : res unit :=
  validate_pg_identifier "database" (s_database r) ;;?
  validate_generation (s_generation r) ;;?
  if_some (s_repl r) validate_login ;;?
  if_some (s_fence r) validate_fence ;;?
  if_some (s_predecessor r) (λ p,
    validate_generation p ;;?
    bail_if (String.eqb p (s_generation r)) "physical source cannot be its own predecessor") ;;?
  validate_token "source VM ID" (s_source_vm_id r) 128 ;;?
  validate_token "peer" (s_peer r) 128 ;;?
  validate_pg_identifier "replication slot" (s_slot r) ;;?
  bail_if (bad_system_identifier (s_system_identifier r))
    "PostgreSQL system identifier must be a numeric string" ;;?
  bail_if ((s_pg_major r =? 0)%Z || empty (s_source_lsn r) || longer 32 (s_source_lsn r))
    "invalid physical source identity" ;;?
  if_some (s_handoff_candidate r) (λ c,
    validate_token "authorized candidate VM ID" c 128 ;;?
    bail_if (is_some_and (s_handoff r) (λ g, negb (String.eqb (g_candidate_id g) c))
             || is_some_and (s_fence r) (λ f, String.eqb (f_phase f) "unfencing"))
      "physical handoff authorization conflicts with source state") ;;?
  bail_if (s_handoff_complete r
           && (negb (is_some (s_handoff_candidate r)) || negb (is_some (s_handoff r))))
    "physical handoff completion lacks authorization or grant" ;;?
  if_some (s_handoff r) (λ g,
    validate_token "candidate VM ID" (g_candidate_id g) 128 ;;?
    validate_token "peer" (g_peer g) 128 ;;?
    validate_lsn (g_barrier_lsn g) ;;?
    bail_if (negb (String.eqb (g_peer g) (s_peer r))) "handoff peer differs from source owner") ;;?
  if_some (s_last_error r) validate_error.

(** ** The journal and its file *)

Record Journal (T : Type) : Type := { current : gmap string T; history : list T }.
Arguments current {T}. Arguments history {T}.

Record JournalFile (T : Type) : Type :=
  { version : Z; file_current : list T; file_history : list T }.
Arguments version {T}. Arguments file_current {T}. Arguments file_history {T}.

(** What [serde_json] makes of a journal's bytes, for both shapes it accepts. *)
Inductive JournalDisk (T : Type) : Type :=
| DJournal (f : JournalFile T)
| DLegacy (l : list T).
Arguments DJournal {T}. Arguments DLegacy {T}.

(** How the writes of [persist_journal] ended: all of them done, an error before the
    rename took effect, or the [process::exit] after a failed directory sync, whose
    rename reached the disk or did not. *)
Inductive IoOutcome : Type :=
| IoOk
| IoErr (e : string)
| IoExit (renamed : bool).

(** An operation decides from the locked journal: answer without a write, or persist
    [next] and answer. *)
Inductive plan (T A : Type) : Type :=
| Keep (a : A)
| Write (next : Journal T) (a : A).
Arguments Keep {T A}. Arguments Write {T A}.

(** A store: the journal behind the mutex, and the file. *)
Record Store (T : Type) : Type := { mem : Journal T; disk : option (JournalDisk T) }.
Arguments mem {T}. Arguments disk {T}.

(** How a call ends: it returns, or the process is gone and the file is what is left. *)
Inductive outcome (T A : Type) : Type :=
| Returned (r : res A) (s : Store T)
| Exited (d : option (JournalDisk T)).
Arguments Returned {T A}. Arguments Exited {T A}.

(** The decision without its answer. *)
Definition forget {T A} (p : res (plan T A)) : res (plan T unit) :=
  match p with
  | Ok (Keep _) => Ok (Keep tt)
  | Ok (Write next _) => Ok (Write next tt)
  | Err e => Err e
  end.

Section journal.
Context {T : Type}.
(** The iteration order of a [HashMap]'s values. *)
Context (iter : gmap string T → list T).

Definition file_of (j : Journal T) : JournalFile T :=
  {| version := 1; file_current := iter (current j); file_history := history j |}.

Definition persist_journal (io : IoOutcome) (next : Journal T)
    (d : option (JournalDisk T)) : res unit * option (JournalDisk T) + option (JournalDisk T) :=
  match io with
  | IoOk => inl (Ok tt, Some (DJournal (file_of next)))
  | IoErr e => inl (Err e, d)
  | IoExit renamed => inr (if renamed then Some (DJournal (file_of next)) else d)
  end.

(** [persist_journal(&self.path, &next)?; *journal = next; Ok(a)]. *)
Definition execute {A} (io : IoOutcome) (st : Store T) (p : res (plan T A)) : outcome T A :=
  match p with
  | Err e => Returned (Err e) st
  | Ok (Keep a) => Returned (Ok a) st
  | Ok (Write next a) =>
    match persist_journal io next (disk st) with
    | inl (Ok _, d) => Returned (Ok a) {| mem := next; disk := d |}
    | inl (Err e, d) => Returned (Err e) {| mem := mem st; disk := d |}
    | inr d => Exited d
    end
  end.

Definition decode_journal (d : JournalDisk T) : res (list T * list T) :=
  match d with
  | DLegacy cur => Ok (cur, [])
  | DJournal f =>
    if (version f =? 1)%Z then Ok (file_current f, file_history f)
    else Err "unsupported physical journal version"
  end.

(** [journal.current.values().chain(journal.history.iter())]. *)
Definition all_records (j : Journal T) : list T := iter (current j) ++ history j.

(** The historical records that lack an excuse: each must be [done] or be followed by
    a later historical or a current record. *)
Fixpoint history_scan (done_ : T → bool) (follows : T → T → bool) (msg : string)
    (hist cur : list T) : res unit :=
  match hist with
  | [] => Ok tt
  | r :: rest =>
    bail_if (negb (done_ r) && negb (existsb (follows r) (rest ++ cur))) msg ;;?
    history_scan done_ follows msg rest cur
  end.

Fixpoint by_database (db : T → string) (msg : string) (l : list T) (m : gmap string T) :
    res (gmap string T) :=
  match l with
  | [] => Ok m
  | r :: l' =>
    bail_if (is_some (m !! db r)) msg ;;?
    by_database db msg l' (<[db r := r]> m)
  end.
End journal.

(** [PhysicalSourceRecord]s that a same-source reseed may put after one another. *)
Definition source_reseed_follows (old new : PhysicalSourceRecord) : bool :=
  bool_decide (s_predecessor new = Some (s_generation old))
  && String.eqb (s_database new) (s_database old)
  && String.eqb (s_source_vm_id new) (s_source_vm_id old)
  && String.eqb (s_peer new) (s_peer old)
  && String.eqb (s_system_identifier new) (s_system_identifier old)
  && (s_pg_major new =? s_pg_major old)%Z
  && (if s_repl old is Some l then bool_decide (s_repl new = Some l) else true)
  && negb (is_some (s_fence old)) && negb (is_some (s_handoff old))
  && negb (is_some (s_handoff_candidate old)).

Definition candidate_reseed_follows (old new : PhysicalRecord) : bool :=
  bool_decide (predecessor new = Some (generation old))
  && String.eqb (database new) (database old)
  && String.eqb (source_vm_id new) (source_vm_id old)
  && String.eqb (source_node new) (source_node old)
  && String.eqb (system_identifier new) (system_identifier old)
  && (pg_major new =? pg_major old)%Z
  && (if repl old is Some l then bool_decide (repl new = Some l) else true)
  && bool_decide (previous_vm_id new = previous_vm_id old)
  && negb (handoff_started old)
  && negb (bool_decide (phase old = StandbyBinding ∨ phase old = Standby)).

(** The first loop of [source_journal], with the generations and the last record of
    each source VM seen so far. *)
Fixpoint source_scan (gens : gset string) (vms : gmap string PhysicalSourceRecord)
    (l : list PhysicalSourceRecord) : res unit :=
  match l with
  | [] => Ok tt
  | r :: l' =>
    validate_source r ;;?
    bail_if (bool_decide (s_generation r ∈ gens)) "duplicate physical source generation" ;;?
    (if vms !! s_source_vm_id r is Some previous then
       bail_if (negb (source_reseed_follows previous r))
         "duplicate physical source VM is not a same-source reseed"
     else Ok tt) ;;?
    source_scan ({[s_generation r]} ∪ gens) (<[s_source_vm_id r := r]> vms) l'
  end.

Definition source_journal (cur hist : list PhysicalSourceRecord) :
    res (Journal PhysicalSourceRecord) :=
  source_scan ∅ ∅ (hist ++ cur) ;;?
  history_scan (λ r, is_some (s_handoff r)) source_reseed_follows
    "historical physical source lacks a handoff grant or reseed successor" hist cur ;;?
  m <-? by_database s_database "duplicate current physical source record for a database" cur ∅ ;;
  bail_if (existsb (λ r, negb (is_some (m !! s_database r))) hist)
    "physical source history has no current operation" ;;?
  Ok {| current := m; history := hist |}.

(** The first loop of [candidate_journal]. *)
Fixpoint candidate_scan (gens names ids : gset string) (l : list PhysicalRecord) : res unit :=
  match l with
  | [] => Ok tt
  | r :: l' =>
    validate_record r ;;?
    bail_if (bool_decide (generation r ∈ gens) || bool_decide (candidate_name r ∈ names)
             || is_some_and (candidate_id r) (λ i, bool_decide (i ∈ ids)))
      "duplicate physical candidate generation, name, or VM identity" ;;?
    candidate_scan ({[generation r]} ∪ gens) ({[candidate_name r]} ∪ names)
      (match candidate_id r with Some i => {[i]} ∪ ids | None => ids end) l'
  end.

Definition candidate_journal (cur hist : list PhysicalRecord) : res (Journal PhysicalRecord) :=
  candidate_scan ∅ ∅ ∅ (cur ++ hist) ;;?
  history_scan (λ r, bool_decide (phase r = Activated)) candidate_reseed_follows
    "historical physical candidate lacks activation or reseed successor" hist cur ;;?
  m <-? by_database database "duplicate current physical replication record for a database" cur ∅ ;;
  bail_if (existsb (λ r, negb (is_some (m !! database r))) hist)
    "physical candidate history has no current operation" ;;?
  Ok {| current := m; history := hist |}.

(** ** Stores under any sequence of calls, failures and restarts *)

Section store_runs.
Context {T Op : Type} (iter : gmap string T → list T).
(** What a call decides, the answer erased; and what a start-up accepts. *)
Context (plan_of : Op → Journal T → res (plan T unit)).
Context (load : option (JournalDisk T) → res (Journal T)).

Inductive store_step : Store T → Store T → Prop :=
| step_call io op st st' r :
    execute iter io st (plan_of op (mem st)) = Returned r st' → store_step st st'
| step_exit io op st d j :
    execute iter io st (plan_of op (mem st)) = Exited d → load d = Ok j →
    store_step st {| mem := j; disk := d |}
| step_restart st j :
    load (disk st) = Ok j → store_step st {| mem := j; disk := disk st |}.

Definition empty_store : Store T :=
  {| mem := {| current := ∅; history := [] |}; disk := None |}.
Definition reachable (st : Store T) : Prop := rtc store_step empty_store st.

(** A sequence of calls, each with its outcome on the disk, restarting after an exit. *)
Fixpoint run_ops (ops : list (IoOutcome * Op)) (st : Store T) : option (Store T) :=
  match ops with
  | [] => Some st
  | (io, op) :: ops' =>
    match execute iter io st (plan_of op (mem st)) with
    | Returned _ st' => run_ops ops' st'
    | Exited d =>
      match load d with Ok j => run_ops ops' {| mem := j; disk := d |} | Err _ => None end
    end
  end.

Lemma run_ops_steps ops st st' : run_ops ops st = Some st' → rtc store_step st st'.
Proof.
  revert st. induction ops as [|[io op] ops IH]; intros st; simpl; [by intros [= ->]|].
  destruct (execute _ _ _ _) as [r st1|d] eqn:E.
  - intros Hr. by eapply rtc_l; [eapply step_call|apply IH].
  - destruct (load d) as [j|] eqn:Ed; [|done].
    intros Hr. by eapply rtc_l; [eapply step_exit|apply IH].
Qed.

Context (Inv : Journal T → Prop) (R : Journal T → Journal T → Prop) `{!PreOrder R}.
Context (Inv_empty : Inv (mem empty_store)) (load_empty : load None = Ok (mem empty_store)).
Context (Inv_load : ∀ j, Inv j → load (Some (DJournal (file_of iter j))) = Ok j).
Context (Inv_write : ∀ op j n u,
  Inv j → plan_of op j = Ok (Write n u) → Inv n ∧ R j n).

Definition store_ok (st : Store T) : Prop := Inv (mem st) ∧ load (disk st) = Ok (mem st).

Lemma store_step_ok st st' : store_ok st → store_step st st' → store_ok st' ∧ R (mem st) (mem st').
Proof.
  intros [Hi Hl] Hst. destruct Hst as [io op st st' r He|io op st d j He Hj|st j Hj].
  - unfold execute in He. destruct (plan_of op (mem st)) as [[u|n u]|e] eqn:Ep.
    + injection He as _ <-. by repeat split.
    + destruct (Inv_write _ _ _ _ Hi Ep) as [Hn Hr].
      destruct io; simpl in He; [|by injection He as _ <-; repeat split|done].
      injection He as _ <-. split; [split; [done|by apply Inv_load]|done].
    + injection He as _ <-. by repeat split.
  - unfold execute in He. destruct (plan_of op (mem st)) as [[u|n u]|e] eqn:Ep; try done.
    destruct (Inv_write _ _ _ _ Hi Ep) as [Hn Hr].
    destruct io as [| |[|]]; simpl in He; try done; injection He as <-; unfold store_ok; simpl.
    + rewrite (Inv_load _ Hn) in Hj |- *. injection Hj as <-. done.
    + rewrite Hl in Hj |- *. injection Hj as <-. by repeat split.
  - rewrite Hl in Hj. injection Hj as <-. by repeat split.
Qed.

Lemma reachable_ok st : reachable st → store_ok st.
Proof.
  assert (store_ok empty_store) as H0 by (split; [exact Inv_empty|exact load_empty]).
  unfold reachable. revert H0. generalize empty_store. intros st0 H0 Hr.
  induction Hr as [|st1 st2 st3 Hs _ IH]; [done|].
  apply IH. by apply (store_step_ok _ _ H0 Hs).
Qed.

Lemma reachable_rel st st' : reachable st → rtc store_step st st' → R (mem st) (mem st').
Proof.
  intros Hr%reachable_ok Hs. induction Hs as [|st1 st2 st3 Hs _ IH]; [done|].
  destruct (store_step_ok _ _ Hr Hs) as [Hok HR]. by transitivity (mem st2); [|apply IH].
Qed.
End store_runs.

(** ** Facts about journals *)

Definition vals {T} (m : gmap string T) : list T := (map_to_list m).*2.

Lemma elem_of_vals {T} (m : gmap string T) r : r ∈ vals m ↔ ∃ k, m !! k = Some r.
Proof.
  unfold vals. rewrite list_elem_of_fmap. split.
  - intros ([k v] & -> & Hin). apply elem_of_map_to_list in Hin. by exists k.
  - intros [k Hk]. exists (k, r). by rewrite elem_of_map_to_list.
Qed.

Lemma vals_insert {T} (m : gmap string T) k r :
  vals (<[k := r]> m) ≡ₚ r :: vals (delete k m).
Proof.
  unfold vals. rewrite <- insert_delete_eq, map_to_list_insert by apply lookup_delete_eq.
  done.
Qed.

Lemma vals_delete {T} (m : gmap string T) k old :
  m !! k = Some old → vals m ≡ₚ old :: vals (delete k m).
Proof. intros Hk. by rewrite <- vals_insert, insert_id. Qed.

Lemma vals_delete_None {T} (m : gmap string T) k : m !! k = None → delete k m = m.
Proof. apply delete_id. Qed.

Lemma history_scan_ok {T} (done_ : T → bool) follows msg hist cur u :
  history_scan done_ follows msg hist cur = Ok u ↔
  ∀ l1 r l2, hist = l1 ++ r :: l2 →
    done_ r = true ∨ ∃ n, n ∈ l2 ++ cur ∧ follows r n = true.
Proof.
  induction hist as [|r hist IH]; simpl.
  { split; [by intros _ [|]|by destruct u]. }
  rewrite rbind_ok. setoid_rewrite bail_if_ok. setoid_rewrite IH. split.
  - intros (_ & Hb & Hrec) [|r' l1] x l2 [= <- ->]; [|by eapply Hrec].
    apply andb_false_iff in Hb as [Hb|Hb]; [left; by apply negb_false_iff in Hb|right].
    apply negb_false_iff, existsb_exists in Hb as (n & Hin & Hf).
    exists n. by rewrite list_elem_of_In.
  - intros Hall. exists tt. split.
    + destruct (Hall [] r hist eq_refl) as [->|(n & Hin & Hf)]; [done|].
      apply andb_false_iff. right. apply negb_false_iff, existsb_exists.
      exists n. by rewrite <- list_elem_of_In.
    + intros l1 x l2 ->. by apply (Hall (r :: l1) x l2).
Qed.

Lemma by_database_ok {T} (db : T → string) msg l m :
  NoDup (db <$> l) → (∀ r, r ∈ l → m !! db r = None) →
  by_database db msg l m = Ok (list_to_map ((λ r, (db r, r)) <$> l) ∪ m).
Proof.
  revert m. induction l as [|r l IH]; intros m Hnd Hm; simpl.
  { by rewrite (left_id_L ∅ (∪)). }
  rewrite fmap_cons in Hnd. apply NoDup_cons in Hnd as [Hr Hnd].
  rewrite (Hm r) by constructor. simpl. rewrite IH; [|done|].
  - f_equal. rewrite <- insert_union_l, <- insert_union_r; [done|].
    apply not_elem_of_list_to_map_1. rewrite <- list_fmap_compose. exact Hr.
  - intros r' Hr'. rewrite lookup_insert_ne; [apply Hm; by constructor|].
    intros E. apply Hr. rewrite E. by apply list_elem_of_fmap_2.
Qed.

(** Every record is filed under its database. *)
Definition keys_ok {T} (db : T → string) (m : gmap string T) : Prop :=
  map_Forall (λ k r, db r = k) m.

Lemma by_database_iter {T} (db : T → string) msg (iter : gmap string T → list T) m :
  iter m ≡ₚ vals m → keys_ok db m → by_database db msg (iter m) ∅ = Ok m.
Proof.
  intros Hp Hk.
  assert ((λ r, (db r, r)) <$> vals m = map_to_list m) as Hv.
  { unfold vals. rewrite <- list_fmap_compose.
    etransitivity; [|apply list_fmap_id].
    apply list_fmap_ext. intros i [k v] Hi. simpl. f_equal.
    apply list_elem_of_lookup_2, elem_of_map_to_list in Hi. by apply Hk in Hi. }
  assert ((λ r, (db r, r)) <$> iter m ≡ₚ map_to_list m) as Hpm by by rewrite Hp, Hv.
  assert (NoDup (((λ r, (db r, r)) <$> iter m).*1)) as Hnd.
  { rewrite Hpm. apply NoDup_fst_map_to_list. }
  rewrite by_database_ok.
  - rewrite (right_id_L ∅ (∪)). f_equal. rewrite <- (list_to_map_to_list m) at 2.
    by apply list_to_map_proper.
  - by rewrite <- list_fmap_compose in Hnd.
  - intros r _. apply lookup_empty.
Qed.

(** ** What the loops of [source_journal] accept *)

Lemma validate_token_label a b v n : validate_token a v n = Ok tt → validate_token b v n = Ok tt.
Proof. unfold validate_token. by rewrite !bail_if_ok. Qed.

#[local] Opaque validate_token validate_lsn validate_generation validate_pg_identifier.

Lemma validate_source_ok r :
  validate_source r = Ok tt ↔
  validate_pg_identifier "database" (s_database r) = Ok tt ∧
  validate_generation (s_generation r) = Ok tt ∧
  if_some (s_repl r) validate_login = Ok tt ∧
  if_some (s_fence r) validate_fence = Ok tt ∧
  if_some (s_predecessor r) (λ p,
    validate_generation p ;;?
    bail_if (String.eqb p (s_generation r)) "physical source cannot be its own predecessor")
    = Ok tt ∧
  validate_token "source VM ID" (s_source_vm_id r) 128 = Ok tt ∧
  validate_token "peer" (s_peer r) 128 = Ok tt ∧
  validate_pg_identifier "replication slot" (s_slot r) = Ok tt ∧
  bad_system_identifier (s_system_identifier r) = false ∧
  ((s_pg_major r =? 0)%Z || empty (s_source_lsn r) || longer 32 (s_source_lsn r)) = false ∧
  (∀ c, s_handoff_candidate r = Some c →
    validate_token "authorized candidate VM ID" c 128 = Ok tt ∧
    (∀ g, s_handoff r = Some g → g_candidate_id g = c) ∧
    (∀ f, s_fence r = Some f → f_phase f ≠ "unfencing")) ∧
  (s_handoff_complete r = true →
    is_some (s_handoff_candidate r) = true ∧ is_some (s_handoff r) = true) ∧
  (∀ g, s_handoff r = Some g →
    validate_token "candidate VM ID" (g_candidate_id g) 128 = Ok tt ∧
    validate_token "peer" (g_peer g) 128 = Ok tt ∧
    validate_lsn (g_barrier_lsn g) = Ok tt ∧ g_peer g = s_peer r) ∧
  if_some (s_last_error r) validate_error = Ok tt.
Proof.
  unfold validate_source. rewrite !seq_ok, !bail_if_ok.
  do 10 (apply and_iff_compat_l).
  assert (∀ A (o : option A) (P : A → res unit), if_some o P = Ok tt ↔ ∀ x, o = Some x → P x = Ok tt)
    as Hsome by (intros A [x|] P; simpl; naive_solver).
  rewrite (Hsome _ (s_handoff_candidate r)), (Hsome _ (s_handoff r)).
  setoid_rewrite seq_ok. setoid_rewrite bail_if_ok.
  apply Morphisms_Prop.and_iff_morphism;
    [|apply Morphisms_Prop.and_iff_morphism; [|apply and_iff_compat_r]].
  - apply forall_proper; intros c. apply forall_proper; intros _.
    apply and_iff_compat_l. rewrite orb_false_iff.
    apply Morphisms_Prop.and_iff_morphism; unfold is_some_and; destruct (s_handoff r), (s_fence r);
      rewrite ?negb_false_iff, ?String.eqb_eq, ?String.eqb_neq; naive_solver.
  - destruct (s_handoff_complete r), (s_handoff_candidate r), (s_handoff r); simpl; naive_solver.
  - apply forall_proper; intros g. apply forall_proper; intros _.
    rewrite !seq_ok, bail_if_ok, negb_false_iff, String.eqb_eq. tauto.
Qed.

(** The last record of each source VM. *)
Definition vms_of (l : list PhysicalSourceRecord) (m : gmap string PhysicalSourceRecord) :
    gmap string PhysicalSourceRecord :=
  foldl (λ m r, <[s_source_vm_id r := r]> m) m l.

Lemma elem_of_vms_of l vm r : vms_of l ∅ !! vm = Some r → r ∈ l ∧ s_source_vm_id r = vm.
Proof.
  unfold vms_of. revert r. induction l as [|x l IH] using rev_ind; intros r; [done|].
  rewrite foldl_snoc. destruct (decide (s_source_vm_id x = vm)) as [<-|Hne].
  - rewrite lookup_insert_eq. intros [= <-]. set_solver.
  - rewrite lookup_insert_ne by done. intros [? ?]%IH. set_solver.
Qed.

Lemma source_scan_app g v l1 l2 u :
  source_scan g v (l1 ++ l2) = Ok u ↔
  source_scan g v l1 = Ok tt ∧
  source_scan (list_to_set (s_generation <$> l1) ∪ g) (vms_of l1 v) l2 = Ok u.
Proof.
  revert g v. induction l1 as [|r l1 IH]; intros g v.
  { simpl. rewrite (left_id_L ∅ (∪)). naive_solver. }
  change (vms_of (r :: l1) v) with (vms_of l1 (<[s_source_vm_id r := r]> v)).
  simpl. rewrite !seq_ok, IH.
  replace (list_to_set (s_generation <$> l1) ∪ ({[s_generation r]} ∪ g))
    with ({[s_generation r]} ∪ list_to_set (s_generation <$> l1) ∪ g) by set_solver.
  tauto.
Qed.

Lemma source_scan_distinct g v l :
  (∀ r, r ∈ l → validate_source r = Ok tt) →
  NoDup (s_generation <$> l) → (∀ r, r ∈ l → s_generation r ∉ g) →
  NoDup (s_source_vm_id <$> l) →
  (∀ r p, r ∈ l → v !! s_source_vm_id r = Some p → source_reseed_follows p r = true) →
  source_scan g v l = Ok tt.
Proof.
  revert g v. induction l as [|r l IH]; intros g v Hval Hg Hgs Hv Hvs; [done|].
  rewrite fmap_cons in Hg, Hv. apply NoDup_cons in Hg as [Hgr Hg], Hv as [Hvr Hv].
  assert (r ∈ r :: l) as Hr by constructor.
  simpl. rewrite (Hval r Hr), (bool_decide_eq_false_2 _ (Hgs r Hr)). simpl.
  assert ((if v !! s_source_vm_id r is Some p
     then bail_if (negb (source_reseed_follows p r))
            "duplicate physical source VM is not a same-source reseed" else Ok tt) = Ok tt) as ->.
  { destruct (v !! _) as [p|] eqn:E; [|done]. by rewrite (Hvs r p Hr E). }
  apply IH; try done.
  - intros r' Hr'. apply Hval. by constructor.
  - intros r' Hr' [Hin|Hin]%elem_of_union.
    + apply elem_of_singleton in Hin. apply Hgr. rewrite <- Hin. by apply list_elem_of_fmap_2.
    + by eapply Hgs; [by constructor|].
  - intros r' p Hr' Hp. rewrite lookup_insert_ne in Hp; [eapply Hvs; [by constructor|done]|].
    intros E. apply Hvr. rewrite E. by apply list_elem_of_fmap_2.
Qed.

Lemma source_scan_gens g v l u :
  source_scan g v l = Ok u →
  NoDup (s_generation <$> l) ∧ (∀ r, r ∈ l → s_generation r ∉ g) ∧
  (∀ r, r ∈ l → validate_source r = Ok tt).
Proof.
  revert g v. induction l as [|r l IH]; intros g v; simpl.
  { intros _. split_and!; [constructor|by intros ? ?%not_elem_of_nil..]. }
  rewrite !seq_ok, bail_if_ok, bool_decide_eq_false. intros (Hv & Hg & _ & Hl).
  destruct (IH _ _ Hl) as (Hnd & Hgs & Hvs). split_and!.
  - apply NoDup_cons. split; [|done]. intros (r' & E & Hr')%list_elem_of_fmap.
    apply (Hgs _ Hr'). rewrite E. set_solver.
  - intros r' [->|Hr']%elem_of_cons; [done|]. specialize (Hgs _ Hr'). set_solver.
  - intros r' [->|Hr']%elem_of_cons; auto.
Qed.
