(* ===== verification/PgSource.v ===== *)
(** * The source store: [PhysicalSourceStore] of
    [pg-fc/src/replication/physical_store.rs]

    Each operation decides from the locked journal ([plan]); [PgJournal.execute]
    persists and installs what it decided. *)
From Stdlib Require Import Ascii String ZArith Lia Bool.
From stdpp Require Import base option list strings gmap fin_maps sets.
From S2P Require Import Prelude PgJournal.
Open Scope string_scope.
Open Scope list_scope.

Abbreviation SrcJournal := (Journal PhysicalSourceRecord).

(** [next.current.get_mut(db)] or [insert(db, r)] on a clone of the journal. *)
Definition put (j : SrcJournal) (db : string) (r : PhysicalSourceRecord) : SrcJournal :=
  {| current := <[db := r]> (current j); history := history j |}.
(** [insert] with the replaced record pushed on the history. *)
Definition install (j : SrcJournal) (db : string) (r : PhysicalSourceRecord) : SrcJournal :=
  {| current := <[db := r]> (current j);
     history := history j ++ option_list (current j !! db) |}.

Definition unfencing (r : PhysicalSourceRecord) : bool :=
  is_some_and (s_fence r) (λ f, String.eqb (f_phase f) "unfencing").

Section with_iteration.
Context (iter : gmap string PhysicalSourceRecord → list PhysicalSourceRecord).

Definition load_source (d : option (JournalDisk PhysicalSourceRecord)) : res SrcJournal :=
  lists <-? (match d with Some jd => decode_journal jd | None => Ok ([], []) end) ;;
  source_journal (fst lists) (snd lists).

Definition get (j : SrcJournal) (db : string) : option PhysicalSourceRecord := current j !! db.

Definition pending_handoffs (j : SrcJournal) : list PhysicalSourceRecord :=
  List.filter (λ r, is_some (s_handoff_candidate r) && negb (s_handoff_complete r))
    (iter (current j)).

Definition authorize_handoff (j : SrcJournal) (db gen candidate : string) :
    res (plan PhysicalSourceRecord unit) :=
  validate_token "candidate VM ID" candidate 128 ;;?
  cur <-? ok_or (current j !! db) "no physical source operation" ;;
  bail_if (negb (String.eqb (s_generation cur) gen)) "stale physical handoff authorization" ;;?
  bail_if (unfencing cur) "finish the in-progress unfence before authorizing handoff" ;;?
  bail_if (is_some_and (s_handoff cur) (λ g, negb (String.eqb (g_candidate_id g) candidate)))
    "handoff authorization conflicts with irrevocable grant" ;;?
  match s_handoff_candidate cur with
  | Some existing =>
    if String.eqb existing candidate then Ok (Keep tt)
    else Err "another candidate already owns this handoff authorization"
  | None =>
    Ok (Write (put j db
      (s_with cur (s_repl cur) (s_fence cur) (s_source_lsn cur) (Some candidate)
         (s_handoff_complete cur) (s_handoff cur) (s_last_error cur))) tt)
  end.

Definition complete_handoff (j : SrcJournal) (db gen candidate : string) :
    res (plan PhysicalSourceRecord unit) :=
  cur <-? ok_or (current j !! db) "no physical source operation" ;;
  bail_if (negb (String.eqb (s_generation cur) gen)
           || negb (bool_decide (s_handoff_candidate cur = Some candidate))
           || negb (is_some_and (s_handoff cur) (λ g, String.eqb (g_candidate_id g) candidate)))
    "handoff completion does not match authorized grant" ;;?
  if s_handoff_complete cur then Ok (Keep tt)
  else Ok (Write (put j db
    (s_with cur (s_repl cur) (s_fence cur) (s_source_lsn cur) (s_handoff_candidate cur)
       true (s_handoff cur) (s_last_error cur))) tt).

Definition by_repl_role (j : SrcJournal) (ro : string) : option PhysicalSourceRecord :=
  List.find (λ r, is_some_and (s_repl r) (λ l, String.eqb (role l) ro)) (iter (current j)).

Definition set_repl (j : SrcJournal) (db gen : string) (login : Login) :
    res (plan PhysicalSourceRecord unit) :=
  validate_login login ;;?
  cur <-? ok_or (current j !! db) "no physical source" ;;
  bail_if (negb (String.eqb (s_generation cur) gen)) "stale physical source credential update" ;;?
  match s_repl cur with
  | Some existing =>
    if bool_decide (existing = login) then Ok (Keep tt)
    else Err "physical replication credential changed"
  | None =>
    Ok (Write (put j db
      (s_with cur (Some login) (s_fence cur) (s_source_lsn cur) (s_handoff_candidate cur)
         (s_handoff_complete cur) (s_handoff cur) (s_last_error cur))) tt)
  end.

Definition set_fence (j : SrcJournal) (db gen ph : string) (barrier : option string) :
    res (plan PhysicalSourceRecord unit) :=
  let fence := {| f_phase := ph; f_barrier_lsn := barrier |} in
  validate_fence fence ;;?
  cur <-? ok_or (current j !! db) "no physical source" ;;
  bail_if (negb (String.eqb (s_generation cur) gen)) "stale physical source fence update" ;;?
  bail_if (String.eqb ph "unfencing" && is_some (s_handoff_candidate cur))
    "authorized physical handoff must finish; source cannot be unfenced" ;;?
  if_some (s_handoff cur) (λ g,
    bail_if (negb (String.eqb ph "ready") || negb (bool_decide (barrier = Some (g_barrier_lsn g))))
      "irrevocable source barrier cannot change") ;;?
  Ok (Write (put j db
    (s_with cur (s_repl cur) (Some fence) (s_source_lsn cur) (s_handoff_candidate cur)
       (s_handoff_complete cur) (s_handoff cur) (s_last_error cur))) tt).

Definition clear_fence (j : SrcJournal) (db gen : string) :
    res (plan PhysicalSourceRecord unit) :=
  cur <-? ok_or (current j !! db) "no physical source" ;;
  bail_if (negb (String.eqb (s_generation cur) gen)) "stale physical source fence clear" ;;?
  bail_if (is_some (s_handoff cur) || is_some (s_handoff_candidate cur))
    "authorized source fence cannot be cleared" ;;?
  bail_if (is_some_and (s_fence cur) (λ f, negb (String.eqb (f_phase f) "unfencing")))
    "invalidate the physical barrier before clearing its fence" ;;?
  Ok (Write (put j db
    (s_with cur (s_repl cur) None (s_source_lsn cur) (s_handoff_candidate cur)
       (s_handoff_complete cur) (s_handoff cur) (s_last_error cur))) tt).

Definition owns_vm (j : SrcJournal) (i : string) : bool :=
  existsb (λ r, String.eqb (s_source_vm_id r) i) (all_records iter j).

Definition grant_for_source_vm (j : SrcJournal) (db vm : string) : option PhysicalHandoffGrant :=
  List.find (λ r, String.eqb (s_database r) db && String.eqb (s_source_vm_id r) vm)
    (all_records iter j) ≫= s_handoff.

Definition has_grant_for_source_vm (j : SrcJournal) (db vm : string) : bool :=
  is_some (grant_for_source_vm j db vm).

Definition ensure_source_unique (j : SrcJournal) (r : PhysicalSourceRecord) : res unit :=
  bail_if (existsb (λ r', String.eqb (s_generation r') (s_generation r)
                          || String.eqb (s_source_vm_id r') (s_source_vm_id r))
             (all_records iter j))
    "physical source generation or VM identity is already permanently owned".

Definition create (j : SrcJournal) (r : PhysicalSourceRecord) :
    res (plan PhysicalSourceRecord PhysicalSourceRecord) :=
  validate_source r ;;?
  bail_if (is_some (s_predecessor r)) "bootstrap source cannot name a predecessor" ;;?
  match current j !! s_database r with
  | Some existing =>
    let observed := s_with r (s_repl r) (s_fence r) (s_source_lsn existing)
      (s_handoff_candidate r) (s_handoff_complete r) (s_handoff r) (s_last_error existing) in
    if bool_decide (existing = observed) then Ok (Keep existing)
    else Err "database already has a physical source operation"
  | None =>
    ensure_source_unique j r ;;?
    Ok (Write (put j (s_database r) r) r)
  end.

Definition create_reseed (j : SrcJournal) (r : PhysicalSourceRecord) (prior : string) :
    res (plan PhysicalSourceRecord PhysicalSourceRecord) :=
  validate_source r ;;?
  bail_if (negb (bool_decide (s_predecessor r = Some prior)) || is_some (s_fence r)
           || is_some (s_handoff r) || is_some (s_handoff_candidate r))
    "invalid physical source reseed intent" ;;?
  match current j !! s_database r with
  | None => Err "physical source reseed requires a prior preparation"
  | Some existing =>
    if String.eqb (s_generation existing) (s_generation r) then
      let retry := s_with existing (s_repl existing) (s_fence existing) (s_source_lsn r)
        (s_handoff_candidate existing) (s_handoff_complete existing) (s_handoff existing)
        None in
      if bool_decide (retry = r) then Ok (Keep existing)
      else Err "conflicting retry of physical source reseed intent"
    else
      bail_if (negb (String.eqb (s_generation existing) prior)
               || negb (source_reseed_follows existing r))
        "physical source reseed does not match an unfenced failed preparation" ;;?
      let next := install j (s_database r) r in
      _ <-? source_journal (iter (current next)) (history next) ;;
      Ok (Write next r)
  end.

Definition create_successor (j : SrcJournal) (r : PhysicalSourceRecord)
    (incoming : PhysicalRecord) (current_binding : string) :
    res (plan PhysicalSourceRecord PhysicalSourceRecord) :=
  validate_source r ;;?
  validate_record incoming ;;?
  cid <-? ok_or (candidate_id incoming) "incoming candidate has no VM" ;;
  bail_if (negb (String.eqb (database incoming) (s_database r))
           || negb (bool_decide (phase incoming = Activated))
           || negb (String.eqb cid current_binding)
           || negb (String.eqb (s_source_vm_id r) cid)
           || negb (String.eqb (s_system_identifier r) (system_identifier incoming))
           || negb (s_pg_major r =? pg_major incoming)%Z
           || negb (bool_decide (s_predecessor r = Some (generation incoming))))
    "successor source is not linked to the activated current binding" ;;?
  bail_if (is_some (s_handoff r) || is_some (s_handoff_candidate r))
    "new successor source cannot already contain handoff authorization" ;;?
  let finish :=
    ensure_source_unique j r ;;?
    Ok (Write (install j (s_database r) r) r) in
  match current j !! s_database r with
  | None => finish
  | Some existing =>
    if String.eqb (s_generation existing) (s_generation r) then
      let intent := s_with existing (s_repl existing) (s_fence existing) (s_source_lsn r)
        None false None None in
      if bool_decide (intent = r) then Ok (Keep existing)
      else Err "conflicting retry of successor source intent"
    else
      grant <-? ok_or (s_handoff existing)
        "cannot supersede incomplete physical source operation" ;;
      bail_if (negb (bool_decide (predecessor incoming = Some (s_generation existing)))
               || negb (String.eqb (g_peer grant) (source_node incoming))
               || negb (String.eqb (g_candidate_id grant) (source_vm_id incoming)))
        "incoming activation does not prove the prior source grant" ;;?
      finish
  end.

Definition grant_handoff (j : SrcJournal) (db gen : string) (grant : PhysicalHandoffGrant) :
    res (plan PhysicalSourceRecord PhysicalSourceRecord) :=
  validate_token "candidate VM ID" (g_candidate_id grant) 128 ;;?
  validate_token "peer" (g_peer grant) 128 ;;?
  validate_lsn (g_barrier_lsn grant) ;;?
  cur <-? ok_or (current j !! db) "no physical source operation" ;;
  bail_if (negb (String.eqb (s_generation cur) gen) || negb (String.eqb (s_peer cur) (g_peer grant)))
    "stale or mismatched physical handoff grant" ;;?
  bail_if (is_some_and (s_handoff_candidate cur) (λ i, negb (String.eqb i (g_candidate_id grant))))
    "grant differs from authorized candidate" ;;?
  match s_handoff cur with
  | Some existing =>
    if bool_decide (existing = grant) then Ok (Keep cur)
    else Err "a different physical handoff is already irrevocably authorized"
  | None =>
    let updated := s_with cur (s_repl cur) (s_fence cur) (s_source_lsn cur)
      (s_handoff_candidate cur) (s_handoff_complete cur) (Some grant) (s_last_error cur) in
    Ok (Write (put j db updated) updated)
  end.

(** ** Calls *)

Inductive source_op : Type :=
| OAuthorize (db gen candidate : string)
| OComplete (db gen candidate : string)
| OSetRepl (db gen : string) (login : Login)
| OSetFence (db gen ph : string) (barrier : option string)
| OClearFence (db gen : string)
| OCreate (r : PhysicalSourceRecord)
| OReseed (r : PhysicalSourceRecord) (prior : string)
| OSuccessor (r : PhysicalSourceRecord) (incoming : PhysicalRecord) (binding : string)
| OGrant (db gen : string) (grant : PhysicalHandoffGrant).

Definition source_plan (op : source_op) (j : SrcJournal) : res (plan PhysicalSourceRecord unit) :=
  match op with
  | OAuthorize db gen c => authorize_handoff j db gen c
  | OComplete db gen c => complete_handoff j db gen c
  | OSetRepl db gen l => set_repl j db gen l
  | OSetFence db gen ph b => set_fence j db gen ph b
  | OClearFence db gen => clear_fence j db gen
  | OCreate r => forget (create j r)
  | OReseed r p => forget (create_reseed j r p)
  | OSuccessor r i b => forget (create_successor j r i b)
  | OGrant db gen g => forget (grant_handoff j db gen g)
  end.
End with_iteration.

(** ** The invariant of the source journal *)

(** A record may change only what is not its identity; a credential, a candidate's
    authorization, a grant and its completion are never taken back, and under a grant
    the fence stays or becomes the granted barrier. *)
Record evolves (r r' : PhysicalSourceRecord) : Prop := {
  ev_database : s_database r' = s_database r;
  ev_generation : s_generation r' = s_generation r;
  ev_predecessor : s_predecessor r' = s_predecessor r;
  ev_vm : s_source_vm_id r' = s_source_vm_id r;
  ev_system : s_system_identifier r' = s_system_identifier r;
  ev_major : s_pg_major r' = s_pg_major r;
  ev_slot : s_slot r' = s_slot r;
  ev_peer : s_peer r' = s_peer r;
  ev_repl : ∀ l, s_repl r = Some l → s_repl r' = Some l;
  ev_candidate : ∀ c, s_handoff_candidate r = Some c → s_handoff_candidate r' = Some c;
  ev_complete : s_handoff_complete r = true → s_handoff_complete r' = true;
  ev_handoff : ∀ g, s_handoff r = Some g → s_handoff r' = Some g;
  ev_fence : ∀ g, s_handoff r = Some g →
    s_fence r' = s_fence r ∨
    s_fence r' = Some {| f_phase := "ready"; f_barrier_lsn := Some (g_barrier_lsn g) |};
}.

#[global] Instance evolves_preorder : PreOrder evolves.
Proof.
  split; [by intros r; split; auto|].
  intros r1 r2 r3 [] []; split; try congruence; eauto.
  intros g Hg. destruct (ev_fence1 g); [auto|..]; [|by right].
  destruct (ev_fence0 g Hg); [left|right]; congruence.
Qed.

Lemma follows_evolves p r r' :
  evolves r r' → source_reseed_follows p r = true → source_reseed_follows p r' = true.
Proof.
  intros []. unfold source_reseed_follows.
  rewrite ev_database0, ev_predecessor0, ev_vm0, ev_system0, ev_major0, ev_peer0.
  rewrite !andb_true_iff. destruct (s_repl p) as [l|]; [|naive_solver].
  rewrite !bool_decide_eq_true. naive_solver.
Qed.

Lemma follows_identity p r :
  source_reseed_follows p r = true →
  s_source_vm_id r = s_source_vm_id p ∧ s_database r = s_database p.
Proof.
  unfold source_reseed_follows. rewrite !andb_true_iff, !String.eqb_eq. naive_solver.
Qed.

(** The records in an order that does not depend on a hash. *)
Definition records (j : SrcJournal) : list PhysicalSourceRecord := vals (current j) ++ history j.

Record source_ok (j : SrcJournal) : Prop := {
  so_keys : keys_ok s_database (current j);
  so_valid : ∀ r, r ∈ records j → validate_source r = Ok tt;
  so_gens : NoDup (s_generation <$> records j);
  so_scan : source_scan ∅ ∅ (history j) = Ok tt;
  so_vm_cur : NoDup (s_source_vm_id <$> vals (current j));
  so_vm_hist : ∀ r p, r ∈ vals (current j) →
    vms_of (history j) ∅ !! s_source_vm_id r = Some p → source_reseed_follows p r = true;
  so_succ : ∀ l1 r l2, history j = l1 ++ r :: l2 →
    is_some (s_handoff r) = true ∨
    ∃ n, n ∈ l2 ++ vals (current j) ∧ source_reseed_follows r n = true;
  so_dom : ∀ r, r ∈ history j → is_Some (current j !! s_database r);
}.

(** Every record of the journal lives on. *)
Definition kept (j j' : SrcJournal) : Prop :=
  ∀ r, r ∈ records j → ∃ r', r' ∈ records j' ∧ evolves r r'.

#[global] Instance kept_preorder : PreOrder kept.
Proof.
  split; [intros j r Hr; by exists r|].
  intros j1 j2 j3 H12 H23 r (r2 & H2 & E2)%H12.
  destruct (H23 _ H2) as (r3 & H3 & E3). exists r3. split; [done|]. by etransitivity.
Qed.

Lemma elem_of_records_put j db r x :
  x ∈ records (put j db r) ↔ x = r ∨ x ∈ vals (delete db (current j)) ++ history j.
Proof. unfold records, put. simpl. rewrite vals_insert. set_solver. Qed.

Lemma records_split j db old :
  current j !! db = Some old →
  records j ≡ₚ old :: vals (delete db (current j)) ++ history j.
Proof. intros Hk. unfold records. by rewrite (vals_delete _ _ _ Hk). Qed.

Lemma put_kept j db cur r :
  current j !! db = Some cur → evolves cur r → kept j (put j db r).
Proof.
  intros Hk He x Hx. rewrite (records_split _ _ _ Hk) in Hx.
  apply elem_of_cons in Hx as [->|Hx];
    [exists r; by rewrite elem_of_records_put; auto|exists x].
  split; [rewrite elem_of_records_put; by right|done].
Qed.

Lemma put_ok j db cur r :
  source_ok j → current j !! db = Some cur → evolves cur r → validate_source r = Ok tt →
  source_ok (put j db r).
Proof.
  intros [] Hk He Hv.
  pose proof (vals_delete _ _ _ Hk) as Hsplit.
  assert (∀ x, x ∈ vals (delete db (current j)) → x ∈ vals (current j)) as Hsub
    by (intros x Hx; rewrite Hsplit; by constructor).
  assert (cur ∈ vals (current j)) as Hcur by (rewrite Hsplit; by constructor).
  split; unfold put; simpl.
  - apply map_Forall_insert_2; [|done]. rewrite (ev_database _ _ He). by apply so_keys0.
  - intros x [->|Hx]%elem_of_records_put; [done|]. apply so_valid0.
    rewrite (records_split _ _ _ Hk). by constructor.
  - unfold records. simpl. rewrite vals_insert. simpl. rewrite (ev_generation _ _ He).
    by rewrite (records_split _ _ _ Hk) in so_gens0.
  - done.
  - rewrite vals_insert. simpl. rewrite (ev_vm _ _ He). by rewrite Hsplit in so_vm_cur0.
  - intros x p. rewrite vals_insert. intros [->|Hx]%elem_of_cons; [|by auto].
    rewrite (ev_vm _ _ He). intros Hp. apply (follows_evolves _ cur); [done|]. by apply so_vm_hist0.
  - intros l1 x l2 Hh. destruct (so_succ0 _ _ _ Hh) as [?|(n & Hn & Hf)]; [by left|right].
    rewrite Hsplit in Hn. setoid_rewrite vals_insert.
    destruct (decide (n = cur)) as [->|Hne].
    + exists r. split; [set_solver|]. by eapply follows_evolves.
    + exists n. set_solver.
  - intros x Hx. apply lookup_insert_is_Some'. auto.
Qed.

Lemma install_records j db r x :
  x ∈ records j ∨ x = r → x ∈ records (install j db r).
Proof.
  unfold records, install. simpl. rewrite vals_insert.
  destruct (current j !! db) as [old|] eqn:Hk; simpl; intros [Hx| ->]; try set_solver.
  - rewrite (vals_delete _ _ _ Hk) in Hx. set_solver.
  - rewrite delete_id by done. set_solver.
Qed.

Lemma install_perm j db r : records (install j db r) ≡ₚ r :: records j.
Proof.
  unfold records, install. simpl. rewrite vals_insert.
  destruct (current j !! db) as [old|] eqn:Hk; simpl.
  - rewrite (vals_delete _ _ _ Hk). simpl. constructor.
    rewrite (assoc_L (++)). symmetry. apply Permutation_cons_append.
  - by rewrite delete_id, app_nil_r by done.
Qed.

(** What the record that leaves the current slot must have, and what the VM of the one
    that takes it: a grant and a VM of its own, or a same-source reseed. *)
Definition may_install (j : SrcJournal) (db : string) (r : PhysicalSourceRecord) : Prop :=
  (s_source_vm_id r ∉ s_source_vm_id <$> records j ∧
   ∀ old, current j !! db = Some old → is_some (s_handoff old) = true) ∨
  ∃ old, current j !! db = Some old ∧ source_reseed_follows old r = true.

Lemma install_vms j db r :
  NoDup (s_source_vm_id <$> vals (current j)) → may_install j db r →
  NoDup (s_source_vm_id <$> vals (<[db := r]> (current j))).
Proof.
  intros Hnd Hm. rewrite vals_insert, fmap_cons. destruct Hm as [[Hvm _]|(old & Hk & Hf)].
  - assert (s_source_vm_id r ∉ s_source_vm_id <$> vals (delete db (current j))) as Hr.
    { intros Hin. apply Hvm. unfold records. rewrite fmap_app, elem_of_app. left.
      destruct (current j !! db) as [old|] eqn:Hk; [|by rewrite delete_id in Hin].
      rewrite (vals_delete _ _ _ Hk). set_solver. }
    apply NoDup_cons. split; [done|].
    destruct (current j !! db) as [old|] eqn:Hk; [|by rewrite delete_id].
    rewrite (vals_delete _ _ _ Hk), fmap_cons in Hnd. by apply NoDup_cons in Hnd as [_ ?].
  - rewrite (vals_delete _ _ _ Hk), fmap_cons in Hnd.
    by rewrite (proj1 (follows_identity _ _ Hf)).
Qed.

Lemma vms_of_snoc l x v :
  vms_of (l ++ [x]) ∅ !! v = if decide (s_source_vm_id x = v) then Some x else vms_of l ∅ !! v.
Proof.
  unfold vms_of. rewrite foldl_snoc. case_decide as E.
  - by rewrite E, lookup_insert_eq.
  - by rewrite lookup_insert_ne.
Qed.

Lemma install_vm_hist j db r x p :
  source_ok j → may_install j db r →
  x ∈ vals (<[db := r]> (current j)) →
  vms_of (history j ++ option_list (current j !! db)) ∅ !! s_source_vm_id x = Some p →
  source_reseed_follows p x = true.
Proof.
  intros [] Hm. rewrite vals_insert. intros Hx Hp.
  assert (∀ q, q ∈ vals (delete db (current j)) → q ∈ vals (current j)) as Hsub.
  { intros q. rewrite !elem_of_vals. intros [k Hk]. apply lookup_delete_Some in Hk as [_ ?]. eauto. }
  apply elem_of_cons in Hx as [->|Hx].
  - destruct Hm as [[Hvm _]|(old & Hk & Hf)].
    + exfalso. apply elem_of_vms_of in Hp as [Hp E]. apply Hvm. rewrite <- E.
      apply list_elem_of_fmap_2. unfold records. rewrite elem_of_app in *.
      destruct Hp as [Hp|Hp]; [by right|left]. destruct (current j !! db) as [old|] eqn:Hk.
      * simpl in Hp. apply list_elem_of_singleton in Hp as ->. apply elem_of_vals. eauto.
      * by apply not_elem_of_nil in Hp.
    + rewrite Hk in Hp. simpl in Hp. rewrite vms_of_snoc in Hp.
      rewrite decide_True in Hp; [by injection Hp as <-|].
      symmetry. by apply follows_identity.
  - destruct (current j !! db) as [old|] eqn:Hk; simpl in Hp.
    + rewrite vms_of_snoc in Hp. case_decide as E; [|by eauto].
      exfalso. rewrite (vals_delete _ _ _ Hk), fmap_cons in so_vm_cur0.
      apply NoDup_cons in so_vm_cur0 as [Hn _]. apply Hn. rewrite E.
      by apply list_elem_of_fmap_2.
    + rewrite app_nil_r in Hp. eauto.
Qed.

Lemma install_succ j db r l1 x l2 :
  source_ok j → may_install j db r →
  history (install j db r) = l1 ++ x :: l2 →
  is_some (s_handoff x) = true ∨
  ∃ n, n ∈ l2 ++ vals (current (install j db r)) ∧ source_reseed_follows x n = true.
Proof.
  intros [] Hm Hh. unfold install in *. simpl in *. setoid_rewrite vals_insert.
  assert (∀ l, history j = l1 ++ x :: l → l2 = l ++ option_list (current j !! db) →
    is_some (s_handoff x) = true ∨ ∃ n, n ∈ l2 ++ r :: vals (delete db (current j)) ∧
      source_reseed_follows x n = true) as Hold.
  { intros l E ->. destruct (so_succ0 _ _ _ E) as [?|(n & Hn & Hf)]; [by left|right].
    exists n. split; [|done]. destruct (current j !! db) as [old|] eqn:Hk; simpl.
    - rewrite (vals_delete _ _ _ Hk) in Hn. set_solver.
    - rewrite delete_id by done. set_solver. }
  destruct (current j !! db) as [old|] eqn:Hk; simpl in Hh.
  - destruct l2 as [|y l2 _] using rev_ind.
    + apply app_inj_tail in Hh as [_ <-].
      destruct Hm as [[_ Hg]|(old' & Hk' & Hf)]; [by left; apply Hg|right].
      assert (old' = old) as -> by congruence. exists r. set_solver.
    + rewrite app_comm_cons, (assoc_L (++)) in Hh. apply app_inj_tail in Hh as [E ->].
      by apply (Hold l2).
  - rewrite app_nil_r in Hh. apply (Hold l2); [done|]. by rewrite app_nil_r.
Qed.

Lemma install_ok j r :
  source_ok j → validate_source r = Ok tt →
  s_generation r ∉ s_generation <$> records j →
  may_install j (s_database r) r →
  source_ok (install j (s_database r) r).
Proof.
  intros Hok Hv Hg Hm. pose proof Hok as [].
  split.
  - unfold install. simpl. apply map_Forall_insert_2; [done|]. exact so_keys0.
  - intros x. rewrite install_perm. intros [->|Hx]%elem_of_cons; auto.
  - rewrite install_perm, fmap_cons. by apply NoDup_cons.
  - unfold install. simpl. rewrite source_scan_app. split; [done|].
    destruct (current j !! s_database r) as [old|] eqn:Hk; [|done].
    assert (old ∈ vals (current j)) as Hold by (apply elem_of_vals; eauto).
    apply source_scan_distinct; simpl.
    + intros x ->%list_elem_of_singleton. apply so_valid0. unfold records. set_solver.
    + apply NoDup_singleton.
    + intros x ->%list_elem_of_singleton. unfold records in so_gens0.
      rewrite (vals_delete _ _ _ Hk) in so_gens0. simpl in so_gens0.
      apply NoDup_cons in so_gens0 as [Hn _]. rewrite fmap_app in Hn.
      rewrite (right_id_L ∅ (∪)), elem_of_list_to_set. set_solver.
    + apply NoDup_singleton.
    + intros x p ->%list_elem_of_singleton. by apply so_vm_hist0.
  - by apply install_vms.
  - intros x p. by apply install_vm_hist.
  - intros l1 x l2. by apply install_succ.
  - intros x. unfold install. simpl. rewrite elem_of_app. intros [Hx|Hx].
    + apply lookup_insert_is_Some'. auto.
    + destruct (current j !! s_database r) as [old|] eqn:Hk; [|by apply not_elem_of_nil in Hx].
      apply list_elem_of_singleton in Hx as ->. apply so_keys0 in Hk.
      rewrite Hk. by rewrite lookup_insert_eq.
Qed.

Section run.
Context (iter : gmap string PhysicalSourceRecord → list PhysicalSourceRecord).
Context (iter_perm : ∀ m, iter m ≡ₚ vals m).

Lemma elem_of_all_records j x : x ∈ all_records iter j ↔ x ∈ records j.
Proof. unfold all_records, records. by rewrite iter_perm. Qed.

Lemma source_ok_load j : source_ok j → source_journal (iter (current j)) (history j) = Ok j.
Proof.
  intros []. unfold source_journal.
  assert (source_scan ∅ ∅ (history j ++ iter (current j)) = Ok tt) as ->.
  { apply source_scan_app. split; [done|].
    assert (∀ x, x ∈ iter (current j) → x ∈ vals (current j)) as Hin by (intros x; by rewrite iter_perm).
    apply source_scan_distinct.
    - intros x Hx%Hin. apply so_valid0. unfold records. set_solver.
    - unfold records in so_gens0. rewrite fmap_app in so_gens0. rewrite iter_perm.
      by apply NoDup_app in so_gens0 as (? & _).
    - intros x Hx%Hin. unfold records in so_gens0.
      rewrite fmap_app in so_gens0. apply NoDup_app in so_gens0 as (_ & Hn & _).
      rewrite (right_id_L ∅ (∪)), elem_of_list_to_set. apply Hn. by apply list_elem_of_fmap_2.
    - by rewrite iter_perm.
    - intros x p Hx%Hin. by apply so_vm_hist0. }
  cbn [rbind].
  assert (history_scan (λ r, is_some (s_handoff r)) source_reseed_follows
    "historical physical source lacks a handoff grant or reseed successor" (history j)
    (iter (current j)) = Ok tt) as ->.
  { apply history_scan_ok. intros l1 x l2 E.
    destruct (so_succ0 _ _ _ E) as [?|(n & Hn & Hf)]; [by left|right]. exists n.
    by rewrite iter_perm. }
  cbn [rbind]. rewrite by_database_iter by done. cbn [rbind].
  assert (existsb (λ r, negb (is_some (current j !! s_database r))) (history j) = false) as ->.
  { apply not_true_iff_false. intros (x & Hx & Hn)%existsb_exists.
    apply list_elem_of_In, so_dom0 in Hx as [y Hy]. by rewrite Hy in Hn. }
  by destruct j.
Qed.

Lemma source_loads_file j : source_ok j → load_source (Some (DJournal (file_of iter j))) = Ok j.
Proof. intros Hj. unfold load_source. simpl. by apply source_ok_load. Qed.

Lemma put_step j db cur r :
  source_ok j → current j !! db = Some cur → evolves cur r → validate_source r = Ok tt →
  source_ok (put j db r) ∧ kept j (put j db r).
Proof. intros. split; [by eapply put_ok|by eapply put_kept]. Qed.

Lemma install_step j r :
  source_ok j → validate_source r = Ok tt →
  s_generation r ∉ s_generation <$> records j → may_install j (s_database r) r →
  source_ok (install j (s_database r) r) ∧ kept j (install j (s_database r) r).
Proof.
  intros. split; [by apply install_ok|]. intros x Hx. exists x.
  split; [apply install_records; auto|done].
Qed.

Lemma current_valid j db cur :
  source_ok j → current j !! db = Some cur → validate_source cur = Ok tt.
Proof.
  intros [] Hk. apply so_valid0. unfold records. rewrite (vals_delete _ _ _ Hk). constructor.
Qed.

Lemma unique_fresh j r u :
  ensure_source_unique iter j r = Ok u →
  s_generation r ∉ s_generation <$> records j ∧ s_source_vm_id r ∉ s_source_vm_id <$> records j.
Proof.
  unfold ensure_source_unique. rewrite bail_if_ok, <- not_true_iff_false, existsb_exists.
  intros Hn. split; intros (x & E & Hx)%list_elem_of_fmap; apply Hn; exists x;
    rewrite <- list_elem_of_In, elem_of_all_records; split; try done;
    rewrite orb_true_iff, !String.eqb_eq; auto.
Qed.

Lemma put_is_install j db r : current j !! db = None → put j db r = install j db r.
Proof. intros Hk. unfold put, install. rewrite Hk. simpl. by rewrite app_nil_r. Qed.

(** An update in place of the current record: its identity is clear, its validity is
    the clauses that change. *)
Ltac s_complete :=
  let H := fresh in intros H;
  match goal with Hf : s_handoff_complete _ = true → _ |- _ => destruct (Hf H); done end.
Ltac s_put Hok :=
  match goal with
  | Hk : current _ !! _ = Some ?cur |- _ =>
    apply (put_step _ _ cur); [exact Hok|exact Hk|split; simpl; auto; try congruence|];
    pose proof (proj1 (validate_source_ok _) (current_valid _ _ _ Hok Hk)) as Hv;
    [..|apply validate_source_ok; simpl; decompose [and] Hv; split_and!; try done; try s_complete]
  end.

Lemma authorize_step j db gen c n u :
  source_ok j → authorize_handoff j db gen c = Ok (Write n u) → source_ok n ∧ kept j n.
Proof.
  intros Hok Hp. unfold authorize_handoff in Hp. inv_ok; try done. s_put Hok.
  intros c' [= <-]. split_and!; [by eapply validate_token_label| |].
  - intros g Hg. rewrite Hg in *. simpl in *. by inv_bools.
  - intros f Hf. unfold unfencing in *. rewrite Hf in *. simpl in *. by inv_bools.
Qed.

Lemma complete_step j db gen c n u :
  source_ok j → complete_handoff j db gen c = Ok (Write n u) → source_ok n ∧ kept j n.
Proof.
  intros Hok Hp. unfold complete_handoff in Hp. inv_ok; try done. s_put Hok.
  intros _. destruct (s_handoff _); [|done].
  match goal with H : s_handoff_candidate _ = Some _ |- _ => by rewrite H end.
Qed.

Lemma set_repl_step j db gen l n u :
  source_ok j → set_repl j db gen l = Ok (Write n u) → source_ok n ∧ kept j n.
Proof. intros Hok Hp. unfold set_repl in Hp. inv_ok; try done. s_put Hok. Qed.

Lemma set_fence_step j db gen ph b n u :
  source_ok j → set_fence j db gen ph b = Ok (Write n u) → source_ok n ∧ kept j n.
Proof.
  intros Hok Hp. unfold set_fence in Hp. inv_ok; try done. s_put Hok.
  - intros g Hg. right. rewrite Hg in *. simpl in *. inv_ok. by subst.
  - intros c Hc. split_and!; [naive_solver..|]. intros f [= <-]. simpl.
    intros ->. rewrite Hc in *. done.
Qed.

Lemma clear_fence_step j db gen n u :
  source_ok j → clear_fence j db gen = Ok (Write n u) → source_ok n ∧ kept j n.
Proof.
  intros Hok Hp. unfold clear_fence in Hp. inv_ok; try done. s_put Hok.
  - intros g Hg. by rewrite Hg in *.
  - intros c Hc. by rewrite Hc in *.
Qed.

Lemma grant_step j db gen g n u :
  source_ok j → grant_handoff j db gen g = Ok (Write n u) → source_ok n ∧ kept j n.
Proof.
  intros Hok Hp. unfold grant_handoff in Hp. inv_ok; try done. s_put Hok.
  - intros c Hc. split_and!; [naive_solver| |naive_solver].
    intros g' [= <-]. rewrite Hc in *. simpl in *. by inv_bools.
  - intros g' [= <-]. by subst.
Qed.

Lemma create_step j r n u :
  source_ok j → create iter j r = Ok (Write n u) → source_ok n ∧ kept j n.
Proof.
  intros Hok Hp. unfold create in Hp. inv_ok; try done.
  match goal with H : ensure_source_unique _ _ _ = _ |- _ => apply unique_fresh in H as [Hg Hv] end.
  rewrite put_is_install by done. apply install_step; try done.
  left. split; [done|]. congruence.
Qed.

Lemma reseed_step j r prior n u :
  source_ok j → create_reseed iter j r prior = Ok (Write n u) → source_ok n ∧ kept j n.
Proof.
  intros Hok Hp. unfold create_reseed in Hp. inv_ok; try done.
  match goal with H : source_journal _ _ = _ |- _ =>
    unfold source_journal in H; apply seq_ok in H as [Hs _];
    apply source_scan_gens in Hs as (Hnd & _) end.
  apply install_step; [done..| |right; eauto].
  assert (NoDup (s_generation <$> records (install j (s_database u) u))) as Hnd'.
  { unfold records. by rewrite (comm (++)), <- iter_perm. }
  rewrite install_perm, fmap_cons in Hnd'. by apply NoDup_cons in Hnd' as [? _].
Qed.

Lemma successor_step j r inc b n u :
  source_ok j → create_successor iter j r inc b = Ok (Write n u) → source_ok n ∧ kept j n.
Proof.
  intros Hok Hp. unfold create_successor in Hp. inv_ok; try done;
  match goal with H : ensure_source_unique _ _ _ = _ |- _ => apply unique_fresh in H as [Hg Hv] end;
  (apply install_step; [done..|left; split; [done|]]).
  - intros old Hold. replace old with p by congruence.
    match goal with H : s_handoff _ = Some _ |- _ => by rewrite H end.
  - congruence.
Qed.

Lemma source_plan_step op j n u :
  source_ok j → source_plan iter op j = Ok (Write n u) → source_ok n ∧ kept j n.
Proof.
  intros Hok Hp. destruct op; simpl in Hp;
    [by eapply authorize_step|by eapply complete_step|by eapply set_repl_step
    |by eapply set_fence_step|by eapply clear_fence_step|..]; unfold forget in Hp.
  - destruct (create _ _ _) as [[]|] eqn:E; try done. injection Hp as <- _. by eapply create_step.
  - destruct (create_reseed _ _ _ _) as [[]|] eqn:E; try done. injection Hp as <- _. by eapply reseed_step.
  - destruct (create_successor _ _ _ _ _) as [[]|] eqn:E; try done. injection Hp as <- _. by eapply successor_step.
  - destruct (grant_handoff _ _ _ _) as [[]|] eqn:E; try done. injection Hp as <- _. by eapply grant_step.
Qed.

Lemma empty_source_ok : source_ok (mem empty_store).
Proof.
  split; simpl; try done; try apply NoDup_nil_2.
  - by intros ? ?%not_elem_of_nil.
  - by intros [|].
  - by intros ? ?%not_elem_of_nil.
Qed.

Abbreviation source_reachable := (reachable iter (source_plan iter) load_source).
Abbreviation source_run := (rtc (store_step iter (source_plan iter) load_source)).

(** The source journal always reloads: after any sequence of operations, write errors,
    exits with the rename done or not, and restarts, what is on disk is accepted on
    start-up, whatever the iteration order it was written in, and gives back exactly
    the journal in memory. *)
Theorem source_store_reloads st :
  source_reachable st → load_source (disk st) = Ok (mem st).
Proof.
  intros Hr. apply (reachable_ok iter (source_plan iter) load_source source_ok kept) in Hr as [_ ?];
    [done|apply empty_source_ok|done|apply source_loads_file|apply source_plan_step].
Qed.

(** C27. A handoff grant is irrevocable and a source VM is owned for good: whatever follows,
    the record that holds the grant keeps its generation, its database, its VM, the
    same grant, the candidate it was authorized for and its completion, and its fence
    can only become the granted barrier; it is the only record of its generation. *)
Theorem source_grant_irrevocable st st' r g :
  source_reachable st → source_run st st' →
  r ∈ all_records iter (mem st) → s_handoff r = Some g →
  owns_vm iter (mem st') (s_source_vm_id r) = true ∧
  ∃ r', r' ∈ all_records iter (mem st') ∧ evolves r r' ∧ s_handoff r' = Some g ∧
    ∀ x, x ∈ all_records iter (mem st') → s_generation x = s_generation r → x = r'.
Proof.
  intros Hreach Hrun. rewrite elem_of_all_records. intros Hr Hg.
  assert (kept (mem st) (mem st')) as Hkept.
  { eapply (reachable_rel iter (source_plan iter) load_source source_ok kept);
      eauto using empty_source_ok, source_loads_file, source_plan_step. }
  destruct (Hkept r Hr) as (r' & Hr' & He).
  assert (source_ok (mem st')) as Hok.
  { eapply (reachable_ok iter (source_plan iter) load_source source_ok kept);
      eauto using empty_source_ok, source_loads_file, source_plan_step.
    unfold reachable in *. by etransitivity. }
  split.
  - apply existsb_exists. exists r'. rewrite <- list_elem_of_In, elem_of_all_records.
    by rewrite String.eqb_eq, (ev_vm _ _ He).
  - exists r'. rewrite elem_of_all_records. split_and!; [done..|by apply (ev_handoff _ _ He)|].
    intros x. rewrite elem_of_all_records, <- (ev_generation _ _ He). intros Hx Heq.
    by apply (NoDup_fmap_elem _ _ _ _ (so_gens _ Hok)).
Qed.
End run.

(** ** The theorems at work *)

Section examples.
Let login : Login := {| role := "repl"; password := "secret" |}.
Let src (gen : string) (pred : option string) (vm : string) : PhysicalSourceRecord :=
  {| s_database := "acme"; s_generation := gen; s_predecessor := pred; s_source_vm_id := vm;
     s_repl := Some login; s_fence := None; s_system_identifier := "7000"; s_pg_major := 16;
     s_slot := "slot"; s_source_lsn := "0/16B3748"; s_peer := "east";
     s_handoff_candidate := None; s_handoff_complete := false; s_handoff := None;
     s_last_error := None |}.
Let grant : PhysicalHandoffGrant :=
  {| g_candidate_id := "e1"; g_peer := "east"; g_barrier_lsn := "0/2000000" |}.
(** The candidate that came back to this node, activated. *)
Let incoming : PhysicalRecord :=
  {| database := "acme"; generation := "g3"; predecessor := Some "g2";
     candidate_name := "repl-seed-g3"; repl := None; candidate_id := Some "u2";
     previous_vm_id := Some "u0"; source_node := "east"; source_vm_id := "e1";
     system_identifier := "7000"; pg_major := 16; slot := "slot"; phase := Activated;
     handoff_barrier := Some "0/3000000"; standby_lsn := None; last_error := None |}.
(** Prepare, reseed the lost slot, hand off, and take the database back. *)
Let history_of_acme : list (IoOutcome * source_op) :=
  [(IoOk, OCreate (src "g1" None "u0")); (IoOk, OReseed (src "g2" (Some "g1") "u0") "g1");
   (IoErr "disk full", OGrant "acme" "g2" grant); (IoOk, OGrant "acme" "g2" grant)].
Let succession : list (IoOutcome * source_op) :=
  [(IoExit false, OSuccessor (src "g4" (Some "g3") "u2") incoming "u2");
   (IoOk, OSuccessor (src "g4" (Some "g3") "u2") incoming "u2")].
Let run ops st := default empty_store (run_ops vals (source_plan vals) load_source ops st).
Let granted : Store PhysicalSourceRecord := run history_of_acme empty_store.
Let superseded : Store PhysicalSourceRecord := run succession granted.

Lemma granted_run : run_ops vals (source_plan vals) load_source history_of_acme empty_store = Some granted.
Proof. vm_compute. reflexivity. Qed.

Lemma superseded_run : run_ops vals (source_plan vals) load_source succession granted = Some superseded.
Proof. vm_compute. reflexivity. Qed.

(** The record that holds the grant, current and then archived. *)
Let holder : PhysicalSourceRecord :=
  s_with (src "g2" (Some "g1") "u0") (Some login) None "0/16B3748" None false (Some grant) None.

Lemma holder_current : holder ∈ all_records vals (mem granted).
Proof.
  apply elem_of_app. left. apply elem_of_vals. exists "acme". vm_compute. reflexivity.
Qed.

Lemma holder_archived : holder ∈ all_records vals (mem superseded).
Proof.
  apply elem_of_app. right. apply (list_elem_of_lookup_2 _ 1). vm_compute. reflexivity.
Qed.

Lemma superseded_reachable : reachable vals (source_plan vals) load_source superseded.
Proof.
  unfold reachable. transitivity granted; eapply run_ops_steps;
    [apply granted_run|apply superseded_run].
Qed.

Lemma source_store_reloads_witness :
  load_source (disk superseded) = Ok (mem superseded) ∧ length (history (mem superseded)) = 2%nat.
Proof.
  split; [|vm_compute; reflexivity].
  apply (source_store_reloads vals (λ _, reflexivity _)).
  apply superseded_reachable.
Defined.

Lemma source_grant_irrevocable_witness :
  ∃ r r', r ∈ all_records vals (mem granted) ∧ r' ∈ all_records vals (mem superseded) ∧
    s_generation r' = "g2" ∧ s_handoff r' = Some grant.
Proof.
  destruct (source_grant_irrevocable vals (λ _, reflexivity _) granted superseded holder grant)
    as (_ & r' & Hr' & He & Hg' & _).
  - eapply run_ops_steps, granted_run.
  - eapply run_ops_steps, superseded_run.
  - apply holder_current.
  - reflexivity.
  - exists holder, r'. split; [apply holder_current|split; [exact Hr'|split; [|exact Hg']]].
    apply (ev_generation _ _ He).
Defined.

(** The permanent grant can be hidden from its lookup: after a reseed on the same
    source VM, a grant and a successor, a reachable store holds a granted record of the
    VM, and [has_grant_for_source_vm] says there is none, because the search stops at
    the ungranted record that the reseed archived first. *)
Theorem reseeded_grant_is_hidden :
  ∃ st, reachable vals (source_plan vals) load_source st ∧
    (∃ r, r ∈ all_records vals (mem st) ∧ s_database r = "acme" ∧
      s_source_vm_id r = "u0" ∧ s_handoff r = Some grant) ∧
    has_grant_for_source_vm vals (mem st) "acme" "u0" = false.
Proof.
  exists superseded. split.
  { apply superseded_reachable. }
  split; [|vm_compute; reflexivity].
  exists holder. split; [apply holder_archived|by split_and!].
Qed.
End examples.
