(* ===== verification/PgCandidate.v ===== *)
(** * The candidate store: [PhysicalStore] of
    [pg-fc/src/replication/physical_store.rs]

    The write-ahead journal of replacement candidates: each operation decides from the
    locked journal ([plan]), and [PgJournal.execute] persists what it decided. *)
From Stdlib Require Import Ascii String ZArith Lia Bool.
From stdpp Require Import base option list strings gmap fin_maps sets relations.
From S2P Require Import Prelude PgJournal.
Open Scope string_scope.
Open Scope list_scope.

Abbreviation CandJournal := (Journal PhysicalRecord).

Definition put (j : CandJournal) (db : string) (r : PhysicalRecord) : CandJournal :=
  {| current := <[db := r]> (current j); history := history j |}.
Definition install (j : CandJournal) (db : string) (r : PhysicalRecord) : CandJournal :=
  {| current := <[db := r]> (current j);
     history := history j ++ option_list (current j !! db) |}.

(** The pairs [advance] accepts. *)
Definition legal (expected next : PhysicalPhase) : bool :=
  match expected, next with
  | Intent, Creating | Creating, Candidate | Candidate, Seeding | Seeding, Verified
  | StandbyBinding, Standby | Prepared, Promoting | Promoting, Promoted
  | Promoted, Binding | Binding, Activated => true
  | _, _ => false
  end.

Section with_iteration.
Context (iter : gmap string PhysicalRecord → list PhysicalRecord).

Definition load_candidates (d : option (JournalDisk PhysicalRecord)) : res CandJournal :=
  lists <-? (match d with Some jd => decode_journal jd | None => Ok ([], []) end) ;;
  candidate_journal (fst lists) (snd lists).

Definition list_records (j : CandJournal) : list PhysicalRecord :=
  sort_by (λ a b, String.compare (database a) (database b)) (iter (current j)).

Definition get (j : CandJournal) (db : string) : option PhysicalRecord := current j !! db.

Definition set_repl (j : CandJournal) (db gen : string) (login : Login) :
    res (plan PhysicalRecord unit) :=
  validate_login login ;;?
  cur <-? ok_or (current j !! db) "no physical candidate" ;;
  bail_if (negb (String.eqb (generation cur) gen)) "stale physical candidate credential update" ;;?
  match repl cur with
  | Some existing =>
    if bool_decide (existing = login) then Ok (Keep tt)
    else Err "physical replication credential changed"
  | None => Ok (Write (put j db (with_repl cur login)) tt)
  end.

Definition ensure_candidate_unique (j : CandJournal) (r : PhysicalRecord) : res unit :=
  bail_if (existsb (λ r', String.eqb (generation r') (generation r)
                          || String.eqb (candidate_name r') (candidate_name r))
             (all_records iter j))
    "physical candidate generation or name is already permanently owned".

Definition local_candidate_vm_owned (j : CandJournal) (i : string) : bool :=
  existsb (λ r, bool_decide (candidate_id r = Some i) || bool_decide (previous_vm_id r = Some i))
    (all_records iter j).

Definition create (j : CandJournal) (r : PhysicalRecord) :
    res (plan PhysicalRecord PhysicalRecord) :=
  validate_record r ;;?
  bail_if (is_some (predecessor r)) "bootstrap candidate cannot name a predecessor" ;;?
  bail_if (negb (bool_decide (phase r = Intent)) || is_some (candidate_id r))
    "a new physical replication operation must start at intent without a candidate VM ID" ;;?
  match current j !! database r with
  | Some existing =>
    let intent := with_progress existing Intent None (handoff_barrier existing)
      (standby_lsn existing) None in
    if bool_decide (intent = r) then Ok (Keep existing)
    else Err "database already has a physical replication operation"
  | None =>
    ensure_candidate_unique j r ;;?
    Ok (Write (put j (database r) r) r)
  end.

Definition create_successor (j : CandJournal) (r : PhysicalRecord)
    (preceding : PhysicalSourceRecord) (current_binding : string) :
    res (plan PhysicalRecord PhysicalRecord) :=
  validate_record r ;;?
  validate_source preceding ;;?
  grant <-? ok_or (s_handoff preceding) "preceding source has no handoff grant" ;;
  bail_if (negb (bool_decide (phase r = Intent)) || is_some (candidate_id r)
           || is_some (handoff_barrier r)
           || negb (String.eqb (database r) (s_database preceding))
           || negb (bool_decide (predecessor r = Some (s_generation preceding)))
           || negb (String.eqb (source_node r) (g_peer grant))
           || negb (String.eqb (source_vm_id r) (g_candidate_id grant))
           || negb (String.eqb (system_identifier r) (s_system_identifier preceding))
           || negb (pg_major r =? s_pg_major preceding)%Z
           || negb (bool_decide (previous_vm_id r = Some current_binding))
           || negb (String.eqb (s_source_vm_id preceding) current_binding))
    "successor candidate is not linked to the preceding local source grant and binding" ;;?
  let finish :=
    ensure_candidate_unique j r ;;?
    Ok (Write (install j (database r) r) r) in
  match current j !! database r with
  | Some existing =>
    if String.eqb (generation existing) (generation r) then
      let intent := with_progress existing Intent None None (standby_lsn existing) None in
      if bool_decide (intent = r) then Ok (Keep existing)
      else Err "conflicting retry of successor candidate intent"
    else
      bail_if (negb (bool_decide (phase existing = Activated))
               || negb (bool_decide (candidate_id existing = Some current_binding))
               || negb (bool_decide (s_predecessor preceding = Some (generation existing))))
        "old candidate is not the activation replaced by the preceding source" ;;?
      finish
  | None =>
    bail_if (is_some (s_predecessor preceding))
      "first local successor candidate requires a bootstrap source" ;;?
    finish
  end.

Definition create_reseed (j : CandJournal) (r : PhysicalRecord) (prior current_binding : string) :
    res (plan PhysicalRecord PhysicalRecord) :=
  validate_record r ;;?
  bail_if (negb (bool_decide (phase r = Intent)) || is_some (candidate_id r)
           || is_some (handoff_barrier r) || negb (bool_decide (predecessor r = Some prior))
           || negb (bool_decide (previous_vm_id r = Some current_binding)))
    "invalid physical reseed intent" ;;?
  match current j !! database r with
  | None => Err "physical reseed requires a prior preparation"
  | Some existing =>
    if String.eqb (generation existing) (generation r) then
      let retry := with_progress existing Intent None (handoff_barrier existing) None None in
      if bool_decide (retry = r) then Ok (Keep existing)
      else Err "conflicting retry of physical reseed intent"
    else
      bail_if (negb (String.eqb (generation existing) prior)
               || negb (candidate_reseed_follows existing r))
        "physical reseed does not match the failed preparation and binding" ;;?
      ensure_candidate_unique j r ;;?
      Ok (Write (install j (database r) r) r)
  end.

(** The candidate VM that [advance] records. *)
Definition bind_candidate (j : CandJournal) (cur : PhysicalRecord) (cid : option string) :
    res (option string) :=
  match cid with
  | None => Ok (candidate_id cur)
  | Some i =>
    validate_token "candidate VM ID" i 128 ;;?
    bail_if (local_candidate_vm_owned j i && negb (bool_decide (candidate_id cur = Some i)))
      "candidate VM ID is already owned by physical history" ;;?
    match candidate_id cur with
    | Some bound =>
      bail_if (negb (String.eqb bound i)) "candidate VM ID is already bound and cannot be changed" ;;?
      Ok (Some bound)
    | None => Ok (Some i)
    end
  end.

Definition advance (j : CandJournal) (db gen : string) (expected_phase next_phase : PhysicalPhase)
    (cid : option string) : res (plan PhysicalRecord PhysicalRecord) :=
  cur <-? ok_or (current j !! db) "no physical replication operation for database" ;;
  bail_if (negb (String.eqb (generation cur) gen) || negb (bool_decide (phase cur = expected_phase)))
    "stale physical replication update: generation or phase no longer matches" ;;?
  bail_if (negb (legal expected_phase next_phase))
    "illegal physical replication phase transition" ;;?
  bound <-? bind_candidate j cur cid ;;
  let updated := with_progress cur next_phase bound (handoff_barrier cur) (standby_lsn cur) None in
  validate_record updated ;;?
  Ok (Write (put j db updated) updated).

Definition begin_standby_binding (j : CandJournal) (db gen source_lsn : string) :
    res (plan PhysicalRecord PhysicalRecord) :=
  validate_lsn source_lsn ;;?
  cur <-? ok_or (current j !! db) "no physical candidate" ;;
  bail_if (negb (String.eqb (generation cur) gen)) "stale physical standby generation" ;;?
  if bool_decide (phase cur = StandbyBinding) then
    if bool_decide (standby_lsn cur = Some source_lsn) then Ok (Keep cur)
    else Err "physical standby source LSN changed"
  else
    bail_if (negb (bool_decide (phase cur = Verified)) || is_some (handoff_barrier cur))
      "only an unpromoted verified candidate can be bound as standby" ;;?
    let updated := with_progress cur StandbyBinding (candidate_id cur) (handoff_barrier cur)
      (Some source_lsn) (last_error cur) in
    validate_record updated ;;?
    Ok (Write (put j db updated) updated).

Definition begin_handoff (j : CandJournal) (db gen barrier : string) :
    res (plan PhysicalRecord PhysicalRecord) :=
  validate_lsn barrier ;;?
  cur <-? ok_or (current j !! db) "no physical candidate" ;;
  bail_if (negb (String.eqb (generation cur) gen)) "stale physical handoff generation" ;;?
  if handoff_started cur then
    if bool_decide (handoff_barrier cur = Some barrier) then Ok (Keep cur)
    else Err "physical handoff barrier changed"
  else
    bail_if (negb (bool_decide (phase cur = Verified ∨ phase cur = Standby)))
      "physical candidate is not verified or bound standby" ;;?
    let updated := with_progress cur Prepared (candidate_id cur) (Some barrier) None
      (last_error cur) in
    validate_record updated ;;?
    Ok (Write (put j db updated) updated).

Definition set_error (j : CandJournal) (db gen : string) (error : option string) :
    res (plan PhysicalRecord PhysicalRecord) :=
  cur <-? ok_or (current j !! db) "no physical replication operation for database" ;;
  bail_if (negb (String.eqb (generation cur) gen))
    "stale physical replication error update for database" ;;?
  if_some error validate_error ;;?
  let updated := with_progress cur (phase cur) (candidate_id cur) (handoff_barrier cur)
    (standby_lsn cur) error in
  Ok (Write (put j db updated) updated).

Definition owns_vm (j : CandJournal) (i : string) : bool :=
  existsb (λ r, bool_decide (candidate_id r = Some i) || bool_decide (previous_vm_id r = Some i))
    (all_records iter j).

Definition reserves_database (j : CandJournal) (db : string) : bool :=
  is_some (current j !! db).

(** ** Calls *)

Inductive candidate_op : Type :=
| OSetRepl (db gen : string) (login : Login)
| OCreate (r : PhysicalRecord)
| OSuccessor (r : PhysicalRecord) (preceding : PhysicalSourceRecord) (binding : string)
| OReseed (r : PhysicalRecord) (prior binding : string)
| OAdvance (db gen : string) (expected next : PhysicalPhase) (cid : option string)
| OStandby (db gen lsn : string)
| OHandoff (db gen barrier : string)
| OSetError (db gen : string) (error : option string).

Definition candidate_plan (op : candidate_op) (j : CandJournal) : res (plan PhysicalRecord unit) :=
  match op with
  | OSetRepl db gen l => set_repl j db gen l
  | OCreate r => forget (create j r)
  | OSuccessor r p b => forget (create_successor j r p b)
  | OReseed r p b => forget (create_reseed j r p b)
  | OAdvance db gen e n c => forget (advance j db gen e n c)
  | OStandby db gen l => forget (begin_standby_binding j db gen l)
  | OHandoff db gen b => forget (begin_handoff j db gen b)
  | OSetError db gen e => forget (set_error j db gen e)
  end.
End with_iteration.

(** ** The invariant of the candidate journal *)

(** The transitions of one operation: what [advance] accepts, and the two of the
    standby binding and the handoff. *)
Inductive phase_step : PhysicalPhase → PhysicalPhase → Prop :=
| ps_advance p q : legal p q = true → phase_step p q
| ps_standby : phase_step Verified StandbyBinding
| ps_prepare p : p = Verified ∨ p = Standby → phase_step p Prepared.

Lemma phase_step_number p q : phase_step p q → (phase_number p < phase_number q)%Z.
Proof. destruct 1 as [p q Hl| |p [->| ->]]; [destruct p, q; done|done..]. Qed.

Record evolves (r r' : PhysicalRecord) : Prop := {
  ev_database : database r' = database r;
  ev_generation : generation r' = generation r;
  ev_predecessor : predecessor r' = predecessor r;
  ev_name : candidate_name r' = candidate_name r;
  ev_previous : previous_vm_id r' = previous_vm_id r;
  ev_node : source_node r' = source_node r;
  ev_vm : source_vm_id r' = source_vm_id r;
  ev_system : system_identifier r' = system_identifier r;
  ev_major : pg_major r' = pg_major r;
  ev_slot : slot r' = slot r;
  ev_repl : ∀ l, repl r = Some l → repl r' = Some l;
  ev_candidate : ∀ i, candidate_id r = Some i → candidate_id r' = Some i;
  ev_barrier : ∀ b, handoff_barrier r = Some b → handoff_barrier r' = Some b;
  ev_phase : rtc phase_step (phase r) (phase r');
}.

#[global] Instance cand_evolves_preorder : PreOrder evolves.
Proof.
  split; [by intros r; split; auto|].
  intros r1 r2 r3 [] []; split; try congruence; eauto. by etransitivity.
Qed.

Lemma cand_follows_evolves p r r' :
  evolves r r' → candidate_reseed_follows p r = true → candidate_reseed_follows p r' = true.
Proof.
  intros []. unfold candidate_reseed_follows.
  rewrite ev_database0, ev_predecessor0, ev_vm0, ev_node0, ev_system0, ev_major0, ev_previous0.
  rewrite !andb_true_iff. destruct (repl p) as [l|]; [|naive_solver].
  rewrite !bool_decide_eq_true. naive_solver.
Qed.

Definition records (j : CandJournal) : list PhysicalRecord := vals (current j) ++ history j.
Definition vm_ids (l : list PhysicalRecord) : list string := omap candidate_id l.

Record candidates_ok (j : CandJournal) : Prop := {
  co_keys : keys_ok database (current j);
  co_valid : ∀ r, r ∈ records j → validate_record r = Ok tt;
  co_gens : NoDup (generation <$> records j);
  co_ids : NoDup (vm_ids (records j));
  co_succ : ∀ l1 r l2, history j = l1 ++ r :: l2 →
    phase r = Activated ∨
    ∃ n, n ∈ l2 ++ vals (current j) ∧ candidate_reseed_follows r n = true;
  co_dom : ∀ r, r ∈ history j → is_Some (current j !! database r);
}.

Definition kept (j j' : CandJournal) : Prop :=
  ∀ r, r ∈ records j → ∃ r', r' ∈ records j' ∧ evolves r r'.

#[global] Instance cand_kept_preorder : PreOrder kept.
Proof.
  split; [intros j r Hr; by exists r|].
  intros j1 j2 j3 H12 H23 r (r2 & H2 & E2)%H12.
  destruct (H23 _ H2) as (r3 & H3 & E3). exists r3. split; [done|]. by etransitivity.
Qed.

Lemma put_perm j db r : records (put j db r) ≡ₚ r :: vals (delete db (current j)) ++ history j.
Proof. unfold records, put. simpl. by rewrite vals_insert. Qed.

Lemma cand_records_split j db old :
  current j !! db = Some old →
  records j ≡ₚ old :: vals (delete db (current j)) ++ history j.
Proof. intros Hk. unfold records. by rewrite (vals_delete _ _ _ Hk). Qed.

#[global] Instance vm_ids_perm : Proper ((≡ₚ) ==> (≡ₚ)) vm_ids.
Proof.
  unfold vm_ids. induction 1 as [|x l l' _ IH|x y l|l1 l2 l3 _ IH1 _ IH2]; simpl; [done|..].
  - destruct (candidate_id x); [by constructor|done].
  - destruct (candidate_id x), (candidate_id y); try done. constructor.
  - by transitivity (omap candidate_id l2).
Qed.

Lemma elem_of_vm_ids l i : i ∈ vm_ids l ↔ ∃ r, r ∈ l ∧ candidate_id r = Some i.
Proof. apply list_elem_of_omap. Qed.

(** The VM the updated record names is its own already, or nobody's. *)
Definition may_bind (j : CandJournal) (cur r : PhysicalRecord) : Prop :=
  candidate_id r = candidate_id cur ∨
  ∃ i, candidate_id r = Some i ∧ candidate_id cur = None ∧ i ∉ vm_ids (records j).

Lemma cand_put_step j db cur r :
  candidates_ok j → current j !! db = Some cur → evolves cur r → validate_record r = Ok tt →
  may_bind j cur r →
  candidates_ok (put j db r) ∧ kept j (put j db r).
Proof.
  intros [] Hk He Hv Hb. pose proof (cand_records_split _ _ _ Hk) as Hs. split.
  - split.
    + apply map_Forall_insert_2; [|done]. rewrite (ev_database _ _ He). by apply co_keys0.
    + intros x. rewrite put_perm. intros [->|Hx]%elem_of_cons; [done|].
      apply co_valid0. rewrite Hs. by constructor.
    + rewrite put_perm. simpl. rewrite (ev_generation _ _ He). by rewrite Hs in co_gens0.
    + rewrite put_perm. rewrite Hs in co_ids0. unfold vm_ids in *. simpl in *.
      destruct Hb as [->|(i & -> & Hc & Hi)]; [done|].
      unfold vm_ids in Hi. rewrite Hs in Hi. simpl in Hi. rewrite Hc in *. by apply NoDup_cons.
    + intros l1 x l2 Hh. destruct (co_succ0 _ _ _ Hh) as [?|(n & Hn & Hf)]; [by left|right].
      unfold put. simpl. setoid_rewrite vals_insert. rewrite (vals_delete _ _ _ Hk) in Hn.
      destruct (decide (n = cur)) as [->|Hne].
      * exists r. split; [set_solver|]. by eapply cand_follows_evolves.
      * exists n. set_solver.
    + intros x Hx. apply lookup_insert_is_Some'. auto.
  - intros x. rewrite Hs. setoid_rewrite put_perm.
    intros [->|Hx]%elem_of_cons; [exists r|exists x]; (split; [|done]); by constructor.
Qed.

Lemma cand_install_perm j db r : records (install j db r) ≡ₚ r :: records j.
Proof.
  unfold records, install. simpl. rewrite vals_insert.
  destruct (current j !! db) as [old|] eqn:Hk; simpl.
  - rewrite (vals_delete _ _ _ Hk). simpl. constructor.
    rewrite (assoc_L (++)). symmetry. apply Permutation_cons_append.
  - by rewrite delete_id, app_nil_r by done.
Qed.

(** A new intent takes the current slot of its database. *)
Lemma cand_install_step j r :
  candidates_ok j → validate_record r = Ok tt → candidate_id r = None →
  generation r ∉ generation <$> records j →
  (∀ old, current j !! database r = Some old →
     phase old = Activated ∨ candidate_reseed_follows old r = true) →
  candidates_ok (install j (database r) r) ∧ kept j (install j (database r) r).
Proof.
  intros [] Hv Hc Hg Hold. split.
  - split.
    + by apply map_Forall_insert_2.
    + intros x. rewrite cand_install_perm. intros [->|Hx]%elem_of_cons; auto.
    + rewrite cand_install_perm, fmap_cons. by apply NoDup_cons.
    + rewrite cand_install_perm. unfold vm_ids. simpl. by rewrite Hc.
    + intros l1 x l2 Hh. unfold install in *. simpl in *. setoid_rewrite vals_insert.
      assert (∀ l, history j = l1 ++ x :: l → l2 = l ++ option_list (current j !! database r) →
        phase x = Activated ∨ ∃ n, n ∈ l2 ++ r :: vals (delete (database r) (current j)) ∧
          candidate_reseed_follows x n = true) as Hprev.
      { intros l E ->. destruct (co_succ0 _ _ _ E) as [?|(n & Hn & Hf)]; [by left|right].
        exists n. split; [|done]. destruct (current j !! database r) as [old|] eqn:Hk; simpl.
        - rewrite (vals_delete _ _ _ Hk) in Hn. set_solver.
        - rewrite delete_id by done. set_solver. }
      destruct (current j !! database r) as [old|] eqn:Hk; simpl in Hh.
      * destruct l2 as [|y l2 _] using rev_ind.
        -- apply app_inj_tail in Hh as [_ <-].
           destruct (Hold old eq_refl) as [?|?]; [by left|right]. exists r. set_solver.
        -- rewrite app_comm_cons, (assoc_L (++)) in Hh. apply app_inj_tail in Hh as [E ->].
           by apply (Hprev l2).
      * rewrite app_nil_r in Hh. apply (Hprev l2); [done|]. by rewrite app_nil_r.
    + intros x. unfold install. simpl. rewrite elem_of_app. intros [Hx|Hx].
      * apply lookup_insert_is_Some'. auto.
      * destruct (current j !! database r) as [old|] eqn:Hk; [|by apply not_elem_of_nil in Hx].
        apply list_elem_of_singleton in Hx as ->. apply co_keys0 in Hk.
        rewrite Hk. by rewrite lookup_insert_eq.
  - intros x Hx. exists x. split; [|done]. rewrite cand_install_perm. by constructor.
Qed.

(** ** Validity *)

Lemma valid_barrier r :
  validate_record r = Ok tt →
  if handoff_started r then ∃ b, handoff_barrier r = Some b ∧ validate_lsn b = Ok tt
  else handoff_barrier r = None.
Proof.
  unfold validate_record. rewrite !seq_ok. intros (_ & _ & _ & _ & H & _).
  destruct (handoff_started r).
  - destruct (handoff_barrier r); [simpl in H; eauto|done].
  - rewrite bail_if_ok in H. by destruct (handoff_barrier r).
Qed.

Lemma valid_name r : validate_record r = Ok tt → candidate_name r = candidate_name_of (generation r).
Proof.
  unfold validate_record. rewrite !seq_ok. intros (_ & _ & _ & _ & _ & _ & H & _).
  rewrite bail_if_ok in H. by inv_bools.
Qed.

Lemma valid_bound r :
  validate_record r = Ok tt →
  (phase_number Candidate <= phase_number (phase r))%Z → is_Some (candidate_id r).
Proof.
  unfold validate_record. rewrite !seq_ok.
  intros (_ & _ & _ & _ & _ & _ & _ & _ & _ & _ & _ & _ & _ & _ & _ & H & _) Hp.
  rewrite bail_if_ok in H. apply Z.leb_le in Hp. rewrite Hp in H. by destruct (candidate_id r).
Qed.

Lemma valid_with_repl r l :
  validate_record r = Ok tt → validate_login l = Ok tt → validate_record (with_repl r l) = Ok tt.
Proof. unfold validate_record, handoff_started. rewrite !seq_ok. simpl. tauto. Qed.

Lemma valid_with_error r e :
  validate_record r = Ok tt → if_some e validate_error = Ok tt →
  validate_record (with_progress r (phase r) (candidate_id r) (handoff_barrier r)
    (standby_lsn r) e) = Ok tt.
Proof. unfold validate_record, handoff_started. rewrite !seq_ok. simpl. tauto. Qed.

Lemma candidate_name_of_inj g g' : candidate_name_of g = candidate_name_of g' → g = g'.
Proof. unfold candidate_name_of. simpl. by intros [= ?]. Qed.

Lemma candidate_scan_distinct gens names ids l :
  (∀ r, r ∈ l → validate_record r = Ok tt) →
  NoDup (generation <$> l) → (∀ r, r ∈ l → generation r ∉ gens) →
  (∀ r, r ∈ l → candidate_name r ∉ names) →
  NoDup (vm_ids l) → (∀ i, i ∈ vm_ids l → i ∉ ids) →
  candidate_scan gens names ids l = Ok tt.
Proof.
  revert gens names ids. induction l as [|r l IH]; intros gens names ids Hv Hg Hgs Hns Hi His; [done|].
  rewrite fmap_cons in Hg. apply NoDup_cons in Hg as [Hgr Hg].
  assert (r ∈ r :: l) as Hr by constructor.
  assert (∀ x, x ∈ l → x ∈ r :: l) as Hsub by (intros x Hx; by constructor).
  unfold vm_ids in *. simpl in Hi, His. cbn [candidate_scan].
  rewrite (Hv r Hr), (bool_decide_eq_false_2 _ (Hgs r Hr)), (bool_decide_eq_false_2 _ (Hns r Hr)).
  cbn [rbind orb].
  assert (is_some_and (candidate_id r) (λ i, bool_decide (i ∈ ids)) = false) as ->.
  { destruct (candidate_id r) as [i|]; [|done]. apply bool_decide_eq_false_2, His. constructor. }
  cbn [rbind bail_if]. apply IH.
  - auto.
  - done.
  - intros x Hx [Hin|Hin]%elem_of_union; [|exact (Hgs x (Hsub x Hx) Hin)].
    apply elem_of_singleton in Hin. apply Hgr. rewrite <- Hin. by apply list_elem_of_fmap_2.
  - intros x Hx [Hin|Hin]%elem_of_union; [|exact (Hns x (Hsub x Hx) Hin)].
    apply elem_of_singleton in Hin. rewrite !valid_name in Hin by auto.
    apply candidate_name_of_inj in Hin. apply Hgr. rewrite <- Hin. by apply list_elem_of_fmap_2.
  - destruct (candidate_id r); [by apply NoDup_cons in Hi as [_ ?]|done].
  - intros i Hx. destruct (candidate_id r) as [i'|]; [|auto].
    apply NoDup_cons in Hi as [Hn _]. rewrite elem_of_union, elem_of_singleton.
    intros [->|Hin]; [done|]. eapply His; [by constructor|done].
Qed.

Section run.
Context (iter : gmap string PhysicalRecord → list PhysicalRecord).
Context (iter_perm : ∀ m, iter m ≡ₚ vals m).

Lemma all_records_perm j : all_records iter j ≡ₚ records j.
Proof. unfold all_records, records. by rewrite iter_perm. Qed.

Lemma candidates_load j :
  candidates_ok j → load_candidates (Some (DJournal (file_of iter j))) = Ok j.
Proof.
  intros []. unfold load_candidates. simpl. unfold candidate_journal.
  pose proof (all_records_perm j) as Hp. unfold all_records in Hp.
  rewrite candidate_scan_distinct.
  2: { intros r. rewrite Hp. auto. }
  2: { by rewrite Hp. }
  2: { intros r _. apply not_elem_of_empty. }
  2: { intros r _. apply not_elem_of_empty. }
  2: { by rewrite Hp. }
  2: { intros i _. apply not_elem_of_empty. }
  cbn [rbind].
  assert (history_scan (λ r, bool_decide (phase r = Activated)) candidate_reseed_follows
    "historical physical candidate lacks activation or reseed successor" (history j)
    (iter (current j)) = Ok tt) as ->.
  { apply history_scan_ok. intros l1 x l2 E.
    destruct (co_succ0 _ _ _ E) as [?|(n & Hn & Hf)]; [by left; apply bool_decide_eq_true|right].
    exists n. by rewrite iter_perm. }
  cbn [rbind]. rewrite by_database_iter by done. cbn [rbind].
  assert (existsb (λ r, negb (is_some (current j !! database r))) (history j) = false) as ->.
  { apply not_true_iff_false. intros (x & Hx & Hn)%existsb_exists.
    apply list_elem_of_In, co_dom0 in Hx as [y Hy]. by rewrite Hy in Hn. }
  by destruct j.
Qed.

Lemma empty_candidates_ok : candidates_ok (mem empty_store).
Proof.
  split; simpl; try done; try apply NoDup_nil_2.
  - by intros ? ?%not_elem_of_nil.
  - by intros [|].
  - by intros ? ?%not_elem_of_nil.
Qed.

Lemma cand_current_valid j db cur :
  candidates_ok j → current j !! db = Some cur → validate_record cur = Ok tt.
Proof. intros [] Hk. apply co_valid0. rewrite (cand_records_split _ _ _ Hk). constructor. Qed.

Lemma cand_unique_fresh j r u :
  ensure_candidate_unique iter j r = Ok u → generation r ∉ generation <$> records j.
Proof.
  unfold ensure_candidate_unique. rewrite bail_if_ok, <- not_true_iff_false, existsb_exists.
  intros Hn (x & E & Hx)%list_elem_of_fmap. apply Hn. exists x.
  rewrite <- list_elem_of_In, all_records_perm. split; [done|].
  rewrite orb_true_iff, !String.eqb_eq. auto.
Qed.

Lemma cand_put_is_install j db r : current j !! db = None → put j db r = install j db r.
Proof. intros Hk. unfold put, install. rewrite Hk. simpl. by rewrite app_nil_r. Qed.

Lemma bind_candidate_ok j cur cid o r :
  bind_candidate iter j cur cid = Ok o → candidate_id r = o →
  may_bind j cur r ∧ ∀ i, candidate_id cur = Some i → candidate_id r = Some i.
Proof.
  unfold bind_candidate, may_bind. intros Hb ->. inv_ok; try by split; [left|]; congruence.
  split; [|congruence]. right. eexists. split_and!; [done..|].
  intros (y & Hy & Ey)%elem_of_vm_ids.
  match goal with H : _ && _ = false |- _ => rename H into Hown end.
  apply andb_false_iff in Hown as [Hown|Hown].
  - apply not_true_iff_false in Hown. apply Hown, existsb_exists. exists y.
    rewrite <- list_elem_of_In, all_records_perm, Ey, bool_decide_eq_true_2 by done. done.
  - inv_bools. congruence.
Qed.

(** An update in place: the identity is clear, the record was validated again. *)
Ltac c_put Hok :=
  match goal with
  | Hk : current _ !! _ = Some ?cur |- _ =>
    apply (cand_put_step _ _ cur);
      [exact Hok|exact Hk|split; simpl; auto; try congruence; try exact (rtc_refl _ _)|..]
  end.

Lemma cand_set_repl_step j db gen l n u :
  candidates_ok j → set_repl j db gen l = Ok (Write n u) → candidates_ok n ∧ kept j n.
Proof.
  intros Hok Hp. unfold set_repl in Hp. inv_ok; try done. c_put Hok.
  - apply valid_with_repl; [by eapply cand_current_valid|done].
  - by left.
Qed.

Lemma cand_create_step j r n u :
  candidates_ok j → create iter j r = Ok (Write n u) → candidates_ok n ∧ kept j n.
Proof.
  intros Hok Hp. unfold create in Hp. inv_ok; try done.
  rewrite cand_put_is_install by done. apply cand_install_step; try done.
  - by destruct (candidate_id _).
  - by eapply cand_unique_fresh.
  - congruence.
Qed.

Lemma cand_successor_step j r p b n u :
  candidates_ok j → create_successor iter j r p b = Ok (Write n u) → candidates_ok n ∧ kept j n.
Proof.
  intros Hok Hp. unfold create_successor in Hp.
  inv_ok; try done; (apply cand_install_step; try done; [by destruct (candidate_id _)
    |by eapply cand_unique_fresh|]); intros old Hold; left; congruence.
Qed.

Lemma cand_reseed_step j r prior b n u :
  candidates_ok j → create_reseed iter j r prior b = Ok (Write n u) → candidates_ok n ∧ kept j n.
Proof.
  intros Hok Hp. unfold create_reseed in Hp. inv_ok; try done.
  apply cand_install_step; try done; [by destruct (candidate_id _)|by eapply cand_unique_fresh|].
  intros old Hold. right. congruence.
Qed.

Lemma advance_step j db gen e p cid n u :
  candidates_ok j → advance iter j db gen e p cid = Ok (Write n u) → candidates_ok n ∧ kept j n.
Proof.
  intros Hok Hp. unfold advance in Hp. inv_ok; try done.
  destruct (bind_candidate_ok _ _ _ _
    (with_progress x p x0 (handoff_barrier x) (standby_lsn x) None) Hx2 eq_refl) as [Hb Hc].
  c_put Hok; try done. subst. by apply rtc_once, ps_advance.
Qed.

Lemma standby_step j db gen l n u :
  candidates_ok j → begin_standby_binding j db gen l = Ok (Write n u) → candidates_ok n ∧ kept j n.
Proof.
  intros Hok Hp. unfold begin_standby_binding in Hp. inv_ok; try done.
  c_put Hok; [|done|by left].
  match goal with H : phase _ = Verified |- _ => rewrite H end. apply rtc_once, ps_standby.
Qed.

Lemma handoff_step j db gen b n u :
  candidates_ok j → begin_handoff j db gen b = Ok (Write n u) → candidates_ok n ∧ kept j n.
Proof.
  intros Hok Hp. unfold begin_handoff in Hp. inv_ok; try done.
  match goal with Hk : current j !! db = Some ?cur |- _ =>
    pose proof (valid_barrier _ (cand_current_valid _ _ _ Hok Hk)) as Hbar end.
  match goal with H : handoff_started _ = false |- _ => rewrite H in Hbar end.
  c_put Hok; [|done|by left]. by apply rtc_once, ps_prepare.
Qed.

Lemma set_error_step j db gen e n u :
  candidates_ok j → set_error j db gen e = Ok (Write n u) → candidates_ok n ∧ kept j n.
Proof.
  intros Hok Hp. unfold set_error in Hp. inv_ok; try done.
  c_put Hok; [|by left]. apply valid_with_error; [by eapply cand_current_valid|done].
Qed.

Lemma candidate_plan_step op j n u :
  candidates_ok j → candidate_plan iter op j = Ok (Write n u) → candidates_ok n ∧ kept j n.
Proof.
  intros Hok Hp. destruct op; simpl in Hp; [by eapply cand_set_repl_step|..]; unfold forget in Hp.
  - destruct (create _ _ _) as [[]|] eqn:E; try done. injection Hp as <- _. by eapply cand_create_step.
  - destruct (create_successor _ _ _ _ _) as [[]|] eqn:E; try done. injection Hp as <- _. by eapply cand_successor_step.
  - destruct (create_reseed _ _ _ _ _) as [[]|] eqn:E; try done. injection Hp as <- _. by eapply cand_reseed_step.
  - destruct (advance _ _ _ _ _ _ _) as [[]|] eqn:E; try done. injection Hp as <- _. by eapply advance_step.
  - destruct (begin_standby_binding _ _ _ _) as [[]|] eqn:E; try done. injection Hp as <- _. by eapply standby_step.
  - destruct (begin_handoff _ _ _ _) as [[]|] eqn:E; try done. injection Hp as <- _. by eapply handoff_step.
  - destruct (set_error _ _ _ _) as [[]|] eqn:E; try done. injection Hp as <- _. by eapply set_error_step.
Qed.

Abbreviation candidate_reachable := (reachable iter (candidate_plan iter) load_candidates).
Abbreviation candidate_run := (rtc (store_step iter (candidate_plan iter) load_candidates)).

Lemma candidate_reachable_ok st :
  candidate_reachable st →
  candidates_ok (mem st) ∧ load_candidates (disk st) = Ok (mem st).
Proof.
  apply (reachable_ok iter (candidate_plan iter) load_candidates candidates_ok kept);
    eauto using empty_candidates_ok, candidates_load, candidate_plan_step.
Qed.

(** The candidate journal always reloads: after any sequence of operations, write
    errors, exits and restarts, what is on disk is accepted on start-up and gives back
    exactly the journal in memory. *)
Theorem candidate_store_reloads st :
  candidate_reachable st → load_candidates (disk st) = Ok (mem st).
Proof. intros Hr. by apply candidate_reachable_ok. Qed.

(** C39. The life of a candidate: whatever follows, its record lives on with the same
    identity, its phase only moves forward along the legal transitions, the VM it was
    bound to and the barrier it was promoted at never change, its VMs stay owned, and
    it is the only record of its generation and of its VM. *)
Theorem candidate_lifecycle st st' r :
  candidate_reachable st → candidate_run st st' → r ∈ all_records iter (mem st) →
  (∀ i, candidate_id r = Some i ∨ previous_vm_id r = Some i → owns_vm iter (mem st') i = true) ∧
  ∃ r', r' ∈ all_records iter (mem st') ∧ evolves r r' ∧
    (phase_number (phase r) <= phase_number (phase r'))%Z ∧
    ∀ x, x ∈ all_records iter (mem st') →
      generation x = generation r ∨ (∃ i, candidate_id r = Some i ∧ candidate_id x = Some i) →
      x = r'.
Proof.
  intros Hreach Hrun. rewrite all_records_perm. intros Hr.
  assert (kept (mem st) (mem st')) as Hkept.
  { eapply (reachable_rel iter (candidate_plan iter) load_candidates candidates_ok kept);
      eauto using empty_candidates_ok, candidates_load, candidate_plan_step. }
  destruct (Hkept r Hr) as (r' & Hr' & He).
  assert (candidates_ok (mem st')) as [_ _ Hgens Hids _ _].
  { apply candidate_reachable_ok. unfold reachable in *. by etransitivity. }
  split.
  - intros i Hi. apply existsb_exists. exists r'. rewrite <- list_elem_of_In, all_records_perm.
    split; [done|]. apply orb_true_iff. rewrite !bool_decide_eq_true.
    destruct Hi as [Hi|Hi]; [left; by apply (ev_candidate _ _ He)|right].
    by rewrite (ev_previous _ _ He).
  - exists r'. rewrite all_records_perm. split_and!; [done..| |].
    + pose proof (ev_phase _ _ He) as Hp. clear -Hp.
      induction Hp as [|p q s H _ IH]; [lia|]. apply phase_step_number in H. lia.
    + intros x. rewrite all_records_perm. intros Hx Heq.
      destruct Heq as [Heq|(i & Hi & Hxi)].
      * apply (NoDup_fmap_elem generation (records (mem st'))); [done..|].
        by rewrite (ev_generation _ _ He).
      * apply (NoDup_omap_elem candidate_id (records (mem st')) _ _ i); try done.
        by apply (ev_candidate _ _ He).
Qed.

(** What a promoted candidate has on disk: in every reachable journal, a record whose
    handoff started carries the barrier of a granted handoff, a well-formed LSN, and
    the VM it promotes; one whose handoff did not carries no barrier. *)
Theorem promotion_needs_barrier st r :
  candidate_reachable st → r ∈ all_records iter (mem st) →
  if handoff_started r
  then ∃ b i, handoff_barrier r = Some b ∧ validate_lsn b = Ok tt ∧ candidate_id r = Some i
  else handoff_barrier r = None.
Proof.
  intros Hreach. rewrite all_records_perm. intros Hr.
  apply candidate_reachable_ok in Hreach as [[_ Hv _ _ _ _] _].
  pose proof (valid_barrier _ (Hv r Hr)) as Hb.
  destruct (handoff_started r) eqn:E; [|done].
  destruct Hb as (b & Hb & Hl), (valid_bound r (Hv r Hr)) as [i Hi]; [|by eauto].
  unfold handoff_started in E. by destruct (phase r).
Qed.
End run.

(** ** The theorems at work *)

Section examples.
Let intent : PhysicalRecord :=
  {| database := "acme"; generation := "g1"; predecessor := None;
     candidate_name := "repl-seed-g1"; repl := None; candidate_id := None;
     previous_vm_id := Some "old"; source_node := "east"; source_vm_id := "e1";
     system_identifier := "7000"; pg_major := 16; slot := "slot"; phase := Intent;
     handoff_barrier := None; standby_lsn := None; last_error := None |}.
Let seeding : list (IoOutcome * candidate_op) :=
  [(IoOk, OCreate intent); (IoErr "disk full", OAdvance "acme" "g1" Intent Creating None);
   (IoOk, OAdvance "acme" "g1" Intent Creating None);
   (IoOk, OAdvance "acme" "g1" Creating Candidate (Some "c1"));
   (IoExit true, OAdvance "acme" "g1" Candidate Seeding None);
   (IoOk, OAdvance "acme" "g1" Seeding Verified None)].
Let promotion : list (IoOutcome * candidate_op) :=
  [(IoOk, OStandby "acme" "g1" "0/1000000");
   (IoOk, OAdvance "acme" "g1" StandbyBinding Standby None);
   (IoOk, OHandoff "acme" "g1" "0/2000000");
   (IoOk, OAdvance "acme" "g1" Prepared Promoting None);
   (IoExit false, OAdvance "acme" "g1" Promoting Promoted None);
   (IoOk, OAdvance "acme" "g1" Promoting Promoted None)].
Let run ops st := default empty_store (run_ops vals (candidate_plan vals) load_candidates ops st).
Let verified : Store PhysicalRecord := run seeding empty_store.
Let promoted : Store PhysicalRecord := run promotion verified.
Let progress (p : PhysicalPhase) (b : option string) : PhysicalRecord :=
  with_progress intent p (Some "c1") b None None.

Lemma verified_run :
  run_ops vals (candidate_plan vals) load_candidates seeding empty_store = Some verified.
Proof. vm_compute. reflexivity. Qed.

Lemma promoted_run :
  run_ops vals (candidate_plan vals) load_candidates promotion verified = Some promoted.
Proof. vm_compute. reflexivity. Qed.

Lemma promoted_reachable : reachable vals (candidate_plan vals) load_candidates promoted.
Proof.
  unfold reachable. transitivity verified; eapply run_ops_steps;
    [apply verified_run|apply promoted_run].
Qed.

Lemma verified_record : progress Verified None ∈ all_records vals (mem verified).
Proof. apply elem_of_app. left. apply elem_of_vals. exists "acme". vm_compute. reflexivity. Qed.

Lemma promoted_record :
  progress Promoted (Some "0/2000000") ∈ all_records vals (mem promoted).
Proof. apply elem_of_app. left. apply elem_of_vals. exists "acme". vm_compute. reflexivity. Qed.

Lemma candidate_store_reloads_witness :
  load_candidates (disk promoted) = Ok (mem promoted) ∧ reserves_database (mem promoted) "acme" = true.
Proof.
  split; [|vm_compute; reflexivity].
  apply (candidate_store_reloads vals (λ _, reflexivity _)), promoted_reachable.
Defined.

Lemma candidate_lifecycle_witness :
  owns_vm vals (mem promoted) "c1" = true ∧
  ∃ r', r' ∈ all_records vals (mem promoted) ∧ generation r' = "g1" ∧
    (phase_number Verified <= phase_number (phase r'))%Z.
Proof.
  destruct (candidate_lifecycle vals (λ _, reflexivity _) verified promoted (progress Verified None))
    as (Hown & r' & Hr' & He & Hp & _).
  - eapply run_ops_steps, verified_run.
  - eapply run_ops_steps, promoted_run.
  - apply verified_record.
  - split; [apply Hown; left; reflexivity|].
    exists r'. split; [exact Hr'|]. split; [apply (ev_generation _ _ He)|exact Hp].
Defined.

Lemma promotion_needs_barrier_witness :
  ∃ b i, Some b = Some "0/2000000" ∧ validate_lsn b = Ok tt ∧ Some i = Some "c1".
Proof.
  destruct (promotion_needs_barrier vals (λ _, reflexivity _) promoted
    (progress Promoted (Some "0/2000000")) promoted_reachable promoted_record)
    as (b & i & Hb & Hl & Hi).
  exists b, i. split; [symmetry; exact Hb|split; [exact Hl|symmetry; exact Hi]].
Defined.
End examples.
