(* ===== verification/PgWire.v ===== *)
(** * The first bytes of a Postgres session: [pg-fc/src/startup.rs] and [pg-fc/src/cancel.rs]

    What the pooler reads before a session is a splice of bytes: the messages a client opens with,
    the parameters of its [StartupMessage], the default option that is put into it on the way to the
    guest, and the key of a [CancelRequest], which the pooler finds in what the server sends.  Bytes
    are [list ascii]; a socket is the bytes that will still arrive on it. *)
From Stdlib Require Import Ascii String ZArith Lia Bool.
From stdpp Require Import base option list strings gmap.
From S2P Require Import Prelude.
Open Scope string_scope.
Open Scope list_scope.
Local Open Scope Z_scope.

(** ** Bytes *)

Abbreviation bytes := (list ascii).
Definition NUL : ascii := "000".
Definition u8 (c : ascii) : Z := Z.of_N (N_of_ascii c).
Definition byte (z : Z) : ascii := ascii_of_N (Z.to_N (z mod 256)).

(** [i32::from_be_bytes], [i32::to_be_bytes]. *)
Definition i32_from_be (a b c d : ascii) : Z :=
  let u := u8 a * 2 ^ 24 + u8 b * 2 ^ 16 + u8 c * 2 ^ 8 + u8 d in if u <? 2 ^ 31 then u else u - 2 ^ 32.
Definition i32_to_be (z : Z) : bytes := [byte (z / 2 ^ 24); byte (z / 2 ^ 16); byte (z / 2 ^ 8); byte z].
(** On the first four bytes of a list that has them. *)
Definition i32_of (l : bytes) : Z := match l with a :: b :: c :: d :: _ => i32_from_be a b c d | _ => 0 end.
Definition is_i32 (z : Z) : Prop := -2 ^ 31 ≤ z < 2 ^ 31.

Definition text (b : bytes) : string := string_of_list_ascii b.
Definition bytes_of (s : string) : bytes := list_ascii_of_string s.

(** *** UTF-8 *)

Definition between (lo hi : Z) (c : ascii) : bool := (lo <=? u8 c) && (u8 c <=? hi).
Definition continues (c : ascii) : bool := between 128 191 c.
(** The first character of a text: whether it is one, and how many bytes it has; of what is none, how
    many make the longest start of a character, at least one. *)
Definition second_ok (a b : ascii) : bool :=
  if u8 a =? 224 then between 160 191 b
  else if u8 a =? 237 then between 128 159 b
  else if u8 a =? 240 then between 144 191 b
  else if u8 a =? 244 then between 128 143 b
  else continues b.
Definition utf8_head (a : ascii) (l : bytes) : bool * nat :=
  let nth i := nth i l NUL in
  if u8 a <? 128 then (true, 1%nat)
  else if between 194 223 a then if continues (nth 0%nat) then (true, 2%nat) else (false, 1%nat)
  else if between 224 239 a then
    if negb (second_ok a (nth 0%nat)) then (false, 1%nat)
    else if continues (nth 1%nat) then (true, 3%nat) else (false, 2%nat)
  else if between 240 244 a then
    if negb (second_ok a (nth 0%nat)) then (false, 1%nat)
    else if negb (continues (nth 1%nat)) then (false, 2%nat)
    else if continues (nth 2%nat) then (true, 4%nat) else (false, 3%nat)
  else (false, 1%nat).
Definition REPLACEMENT : bytes := bytes_of (Chars.bytes [239; 191; 189]%N).
(** [String::from_utf8_lossy], and whether [str::from_utf8] takes it; a character of [n] bytes is gone
    after [n] steps. *)
Fixpoint lossy_skip (n : nat) (l : bytes) : bytes :=
  match l with
  | [] => []
  | a :: l =>
    match n with
    | S n => lossy_skip n l
    | O => let '(ok, k) := utf8_head a l in (if ok then take k (a :: l) else REPLACEMENT) ++ lossy_skip (k - 1) l
    end
  end.
Definition from_utf8_lossy (l : bytes) : bytes := lossy_skip 0 l.
Fixpoint valid_skip (n : nat) (l : bytes) : bool :=
  match l with
  | [] => true
  | a :: l =>
    match n with
    | S n => valid_skip n l
    | O => let '(ok, k) := utf8_head a l in ok && valid_skip (k - 1) l
    end
  end.
Definition is_utf8 (l : bytes) : bool := valid_skip 0 l.

(** ** Keys of running queries *)

Definition CANCEL_REQUEST_CODE : Z := 80877102.
Definition SSL_REQUEST_CODE : Z := 80877103.
Definition GSS_ENC_REQUEST_CODE : Z := 80877104.
Definition PROTOCOL_V3 : Z := 196608.
Definition MAX_SECRET_LEN : nat := 256.
Definition SCAN_LIMIT : nat := N.to_nat 65536.
Definition MAX_STARTUP_PACKET_LEN : Z := 10000.

Record CancelKey : Type := { pid : Z; secret : bytes }.
#[export] Instance CancelKey_eq_dec : EqDecision CancelKey.
Proof. solve_decision. Defined.

Inductive WireError : Type :=
| UnexpectedEof | LengthTooSmall (n : Z) | LengthTooLarge (n : Z) | UnsupportedCode (n : Z) | TlsHandshake | WriteFailed
| NoDatabase | InvalidReplication | KeyLength | NotACancel
| ForwardedLength | FramingMismatch | NotV3 | UnterminatedKey | InvalidKey | AmbiguousKey | UnterminatedValue | InvalidValue
| UnsafeOption | TrailingBytes | PacketTooLarge.

(** [CancelKey::from_pid_and_secret], [from_request_body], [request_packet]. *)
Definition from_pid_and_secret (b : bytes) : result WireError CancelKey :=
  if (length b <? 8)%nat || (4 + MAX_SECRET_LEN <? length b)%nat then Err KeyLength
  else Ok {| pid := i32_of b; secret := drop 4 b |}.
Definition from_request_body (b : bytes) : result WireError CancelKey :=
  if (length b <? 4)%nat || negb (i32_of b =? CANCEL_REQUEST_CODE) then Err NotACancel else from_pid_and_secret (drop 4 b).
Definition request_packet (k : CancelKey) : bytes :=
  i32_to_be (12 + Z.of_nat (length (secret k))) ++ i32_to_be CANCEL_REQUEST_CODE ++ i32_to_be (pid k) ++ secret k.

(** ** What a client opens with *)

Record StartupInfo : Type := {
  database : string; user : string; physical_replication : bool; replication_requested : bool; raw : bytes;
}.
Inductive Request : Type := RStartup (i : StartupInfo) | RCancel (k : CancelKey).

(** [<[u8]>::split] at the zeros. *)
Fixpoint split_nul (b : bytes) : list bytes :=
  match b with
  | [] => [[]]
  | c :: b => if Ascii.eqb c NUL then [] :: split_nul b
              else match split_nul b with p :: ps => (c :: p) :: ps | [] => [[c]] end
  end.
(** [parse_params]. *)
Fixpoint parse_pairs (parts : list bytes) (m : gmap string string) : gmap string string :=
  match parts with
  | (_ :: _) as k :: v :: parts => parse_pairs parts (<[text (from_utf8_lossy k) := text (from_utf8_lossy v)]> m)
  | [(_ :: _) as k] => <[text (from_utf8_lossy k) := ""]> m
  | _ => m
  end.
Definition parse_params (b : bytes) : gmap string string := parse_pairs (split_nul b) ∅.

(** What Postgres takes for a yes and a no. *)
Definition truth (v : string) : option bool :=
  let v := Str.to_ascii_lowercase v in
  if existsb (String.eqb v) ["1"; "t"; "tr"; "tru"; "true"; "y"; "ye"; "yes"; "on"] then Some true
  else if existsb (String.eqb v) ["0"; "f"; "fa"; "fal"; "fals"; "false"; "n"; "no"; "of"; "off"] then Some false
  else None.
Definition physical_mode (v : option string) : result WireError bool :=
  match v with
  | None => Ok false
  | Some v => if String.eqb v "database" then Ok false else ok_or (truth v) InvalidReplication
  end.
(** [parse_startup_message], on the parameters. *)
Definition startup_info (m : gmap string string) (raw : bytes) : result WireError StartupInfo :=
  let u := default "" (m !! "user") in
  let d := match m !! "database" with Some d => if String.eqb d "" then u else d | None => u end in
  if String.eqb d "" then Err NoDatabase
  else p <-? physical_mode (m !! "replication") ;;
       Ok {| database := d; user := u; physical_replication := p; replication_requested := is_some (m !! "replication"); raw := raw |}.
Definition parse_startup_message (len_buf body : bytes) : result WireError StartupInfo :=
  startup_info (parse_params (drop 4 body)) (len_buf ++ body).

(** [read_message]: the code, the prefix, the body, and what is behind it. *)
Definition read_message (s : bytes) : result WireError (Z * bytes * bytes * bytes) :=
  if (length s <? 4)%nat then Err UnexpectedEof
  else
    let len := i32_of s in
    if len <? 8 then Err (LengthTooSmall len)
    else if MAX_STARTUP_PACKET_LEN <? len then Err (LengthTooLarge len)
    else
      let n := Z.to_nat (len - 4) in
      if (length (drop 4 s) <? n)%nat then Err UnexpectedEof
      else let body := take n (drop 4 s) in Ok (i32_of body, take 4 s, body, drop n (drop 4 s)).

(** A message that ends the opening, [None] for one that is declined. *)
Definition request_of (code : Z) (len_buf body : bytes) : option (result WireError Request) :=
  if (code =? SSL_REQUEST_CODE) || (code =? GSS_ENC_REQUEST_CODE) then None
  else if code =? CANCEL_REQUEST_CODE then Some (k <-? from_request_body body ;; Ok (RCancel k))
  else if code =? PROTOCOL_V3 then Some (i <-? parse_startup_message len_buf body ;; Ok (RStartup i))
  else Some (Err (UnsupportedCode code)).

(** What came of an opening: the request or the error, the bytes that were answered, whether the rest
    of the stream is under TLS, and that rest. *)
Record Opening : Type := { outcome : result WireError Request; replied : bytes; upgraded : bool; rest : bytes }.
Definition opened (o : result WireError Request) (t : bool) (s : bytes) : Opening := {| outcome := o; replied := []; upgraded := t; rest := s |}.
Definition replying (c : ascii) (o : Opening) : Opening :=
  {| outcome := outcome o; replied := c :: replied o; upgraded := upgraded o; rest := rest o |}.

(** [read_startup_plain]; the client takes [w] answers.  [None] is running out of fuel. *)
Fixpoint read_startup_plain (fuel w : nat) (t : bool) (s : bytes) : option Opening :=
  match fuel with
  | O => None
  | S fuel =>
    match read_message s with
    | Err e => Some (opened (Err e) t s)
    | Ok (code, len_buf, body, s) =>
      match request_of code len_buf body with
      | Some r => Some (opened r t s)
      | None =>
        match w with
        | O => Some (opened (Err WriteFailed) t s)
        | S w => replying "N" <$> read_startup_plain fuel w t s
        end
      end
    end
  end.
(** [read_startup], with what a TLS acceptor makes of the rest of the socket. *)
Fixpoint read_startup_from (fuel w : nat) (tls : option (bytes → option bytes)) (s : bytes) : option Opening :=
  match fuel with
  | O => None
  | S fuel =>
    match read_message s with
    | Err e => Some (opened (Err e) false s)
    | Ok (code, len_buf, body, s) =>
      match request_of code len_buf body with
      | Some r => Some (opened r false s)
      | None =>
        match w with
        | O => Some (opened (Err WriteFailed) false s)
        | S w =>
          match (if code =? SSL_REQUEST_CODE then tls else None) with
          | Some accept =>
            replying "S" <$> match accept s with
                             | None => Some (opened (Err TlsHandshake) false s)
                             | Some plain => read_startup_plain (S (length plain)) w true plain
                             end
          | None => replying "N" <$> read_startup_from fuel w tls s
          end
        end
      end
    end
  end.
Definition read_startup (w : nat) (tls : option (bytes → option bytes)) (s : bytes) : option Opening :=
  read_startup_from (S (length s)) w tls s.

(** ** Bytes received in a writer tunnel *)

(** The part before the first zero, and the part behind it. *)
Fixpoint until_nul (b : bytes) : option (bytes * bytes) :=
  match b with
  | [] => None
  | c :: b => if Ascii.eqb c NUL then Some ([], b) else '(x, y) ← until_nul b; Some (c :: x, y)
  end.
(** The loop of [parse_forwarded]; [None] is running out of fuel. *)
Fixpoint check_pairs (fuel : nat) (keys : list bytes) (b : bytes) : option (result WireError unit) :=
  match fuel with
  | O => None
  | S fuel =>
    if bool_decide (b = [NUL]) then Some (Ok tt)
    else
      match until_nul b with
      | None => Some (Err UnterminatedKey)
      | Some (k, b) =>
        if negb (is_utf8 k) then Some (Err InvalidKey)
        else if bool_decide (k = []) || bool_decide (k ∈ keys) then Some (Err AmbiguousKey)
        else
          match until_nul b with
          | None => Some (Err UnterminatedValue)
          | Some (v, b) => if is_utf8 v then check_pairs fuel (k :: keys) b else Some (Err InvalidValue)
          end
      end
  end.
(** [parse_forwarded]. *)
Definition parse_forwarded (b : bytes) : option (result WireError StartupInfo) :=
  if (length b <? 8)%nat || (10 * 1024 <? Z.of_nat (length b)) then Some (Err ForwardedLength)
  else if negb ((i32_of b) mod 2 ^ 64 =? Z.of_nat (length b)) then Some (Err FramingMismatch)
  else if negb (i32_of (drop 4 b) =? PROTOCOL_V3) then Some (Err NotV3)
  else
    r ← check_pairs (length b) [] (drop 8 b);
    Some (r ;;? parse_startup_message (take 4 b) (drop 4 b)).

(** ** The default option *)

(** [u8::is_ascii_whitespace]. *)
Definition is_space (c : ascii) : bool := existsb (Z.eqb (u8 c)) [9; 10; 12; 13; 32].
Definition unsafe_option (setting : bytes) : bool :=
  bool_decide (setting = []) || existsb (λ c, is_space c || Ascii.eqb c "\" || Ascii.eqb c NUL) setting.
Definition OPTIONS : bytes := bytes_of "options".
(** The loop of [with_default_option]: what is written, whether the option is in it, and what is left. *)
Fixpoint merge_pairs (fuel : nat) (ours : bytes) (merged : bool) (b : bytes) : option (result WireError (bytes * bool * bytes)) :=
  match fuel with
  | O => None
  | S fuel =>
    match until_nul b with
    | None => Some (Err UnterminatedKey)
    | Some ([], b) => Some (Ok ([], merged, b))
    | Some (k, b) =>
      match until_nul b with
      | None => Some (Err UnterminatedValue)
      | Some (v, b) =>
        let here := bool_decide (k = OPTIONS) && negb merged in
        let v := if here then ours ++ (if bool_decide (v = []) then [] else [" "%char]) ++ v else v in
        r ← merge_pairs fuel ours (merged || here) b;
        Some (x <-? r ;; let '(out, m, b) := x in Ok (k ++ [NUL] ++ v ++ [NUL] ++ out, m, b))
      end
    end
  end.
Definition assemble (ours version : bytes) (x : bytes * bool * bytes) : result WireError bytes :=
  let '(out, merged, tail) := x in
  if negb (bool_decide (tail = [])) then Err TrailingBytes
  else
    let body := version ++ out ++ (if merged then [] else OPTIONS ++ [NUL] ++ ours ++ [NUL]) ++ [NUL] in
    let len := 4 + Z.of_nat (length body) in
    if 2 ^ 31 <=? len then Err PacketTooLarge else Ok (i32_to_be len ++ body).
Definition with_default_option (b setting : bytes) : option (result WireError bytes) :=
  if unsafe_option setting then Some (Err UnsafeOption)
  else if (length b <? 9)%nat || negb ((i32_of b) mod 2 ^ 64 =? Z.of_nat (length b)) then Some (Err FramingMismatch)
  else if negb (i32_of (drop 4 b) =? PROTOCOL_V3) then Some (Err NotV3)
  else
    let ours := bytes_of "-c " ++ setting in
    r ← merge_pairs (length b) ours false (drop 8 b);
    Some (rbind r (assemble ours (take 4 (drop 4 b)))).

(** ** The key in what the server sends *)

(** [KeyScanner]; of the array the code reads the bytes that are set. *)
Record KeyScanner : Type := { header : bytes; remaining : nat; key_body : option bytes; scanned : nat; done : bool }.
Definition scanner_new : KeyScanner := {| header := []; remaining := 0; key_body := None; scanned := 0; done := false |}.
Definition finished (s : KeyScanner) : KeyScanner :=
  {| header := header s; remaining := remaining s; key_body := key_body s; scanned := scanned s; done := true |}.

(** What a whole header decides. *)
Definition key_fits (n : nat) : bool := (8 <=? n)%nat && (n <=? 4 + MAX_SECRET_LEN)%nat.
Definition on_header (s : KeyScanner) : KeyScanner :=
  let len := i32_of (drop 1 (header s)) in
  if len <? 4 then finished s
  else
    let n := Z.to_nat (len - 4) in
    let s := {| header := header s; remaining := n; key_body := key_body s; scanned := scanned s; done := done s |} in
    let t := default NUL (hd_error (header s)) in
    if Ascii.eqb t "Z" then finished s
    else if Ascii.eqb t "K" then
      if key_fits n then {| header := header s; remaining := n; key_body := Some []; scanned := scanned s; done := done s |} else finished s
    else s.
(** The bytes of a header, and of a body. *)
Definition take_header (s : KeyScanner) (b : bytes) : KeyScanner :=
  {| header := header s ++ b; remaining := remaining s; key_body := key_body s; scanned := scanned s + length b; done := done s |}.
Definition take_body (s : KeyScanner) (b : bytes) : KeyScanner :=
  {| header := header s; remaining := remaining s - length b; key_body := (λ x, x ++ b) <$> key_body s;
     scanned := scanned s + length b; done := done s |}.
Definition ok_key (r : result WireError CancelKey) : option CancelKey := match r with Ok k => Some k | Err _ => None end.
(** The end of a message: of a key, the key. *)
Definition end_message (s : KeyScanner) (found : option CancelKey) : KeyScanner * option CancelKey :=
  if (remaining s =? 0)%nat then
    ({| header := []; remaining := 0; key_body := None; scanned := scanned s; done := done s |},
     match key_body s with Some b => ok_key (from_pid_and_secret b) | None => found end)
  else (s, found).

(** [feed]; [None] is running out of fuel. *)
Fixpoint feed_loop (fuel : nat) (s : KeyScanner) (b : bytes) (found : option CancelKey) : option (KeyScanner * option CancelKey) :=
  match fuel with
  | O => None
  | S fuel =>
    if done s || bool_decide (b = []) then Some (s, found)
    else if (SCAN_LIMIT <=? scanned s)%nat then Some (finished s, found)
    else
      let body s b :=
        let n := Nat.min (remaining s) (length b) in
        let '(s, found) := end_message (take_body s (take n b)) found in
        feed_loop fuel s (drop n b) found in
      if (length (header s) <? 5)%nat then
        let n := Nat.min (5 - length (header s)) (length b) in
        let s := take_header s (take n b) in
        if (length (header s) <? 5)%nat then Some (s, found)
        else let s := on_header s in if done s then Some (s, found) else body s (drop n b)
      else body s b
  end.
Definition feed (s : KeyScanner) (b : bytes) : option (KeyScanner * option CancelKey) := feed_loop (S (S (length b))) s b None.

(** *** One byte at a time *)

Definition feed_byte (s : KeyScanner) (c : ascii) : KeyScanner * option CancelKey :=
  if done s then (s, None)
  else if (length (header s) <? 5)%nat then
    let s := take_header s [c] in
    if (length (header s) <? 5)%nat then (s, None)
    else let s := on_header s in if done s then (s, None) else end_message s None
  else end_message (take_body s [c]) None.
Definition later (f g : option CancelKey) : option CancelKey := match g with Some k => Some k | None => f end.
Definition feed_bytes (s : KeyScanner) (b : bytes) : KeyScanner * option CancelKey :=
  foldl (λ x c, let '(s, f) := feed_byte (fst x) c in (s, later (snd x) f)) (s, None) b.

(** ** Lemmas *)

Lemma u8_range c : 0 ≤ u8 c < 256.
Proof. unfold u8. pose proof (N_ascii_bounded c). lia. Qed.
Lemma byte_u8 c : byte (u8 c) = c.
Proof. unfold byte. pose proof (u8_range c). rewrite Z.mod_small by lia. unfold u8. rewrite N2Z.id. apply ascii_N_embedding. Qed.
Lemma u8_byte z : u8 (byte z) = z mod 256.
Proof.
  unfold u8, byte. pose proof (Z.mod_pos_bound z 256 ltac:(lia)). rewrite N_ascii_embedding by lia. lia.
Qed.

Lemma i32_round z l : is_i32 z → i32_of (i32_to_be z ++ l) = z.
Proof.
  intros [Hlo Hhi]. cbn [i32_of i32_to_be app]. unfold i32_from_be. rewrite !u8_byte.
  assert (z / 2 ^ 24 mod 256 * 2 ^ 24 + z / 2 ^ 16 mod 256 * 2 ^ 16 + z / 2 ^ 8 mod 256 * 2 ^ 8 + z mod 256 = z mod 2 ^ 32) as ->.
  { change (2 ^ 32) with (256 * (256 * (256 * 256))). rewrite !Z.rem_mul_r, !Z.div_div by lia.
    change (256 * 256 * 256) with (2 ^ 24). change (256 * 256) with (2 ^ 16). change (2 ^ 8) with 256. lia. }
  destruct (decide (0 ≤ z)).
  - rewrite Z.mod_small by lia. destruct (Z.ltb_spec z (2 ^ 31)); lia.
  - rewrite <- (Z_mod_plus_full z 1), Z.mod_small by lia. destruct (Z.ltb_spec (z + 1 * 2 ^ 32) (2 ^ 31)); lia.
Qed.
Lemma i32_bytes a b c d : i32_to_be (i32_from_be a b c d) = [a; b; c; d].
Proof.
  pose proof (u8_range a). pose proof (u8_range b). pose proof (u8_range c). pose proof (u8_range d).
  set (u := u8 a * 2 ^ 24 + u8 b * 2 ^ 16 + u8 c * 2 ^ 8 + u8 d).
  assert (∃ k, i32_from_be a b c d = u + k * 2 ^ 32) as [k ->].
  { unfold i32_from_be. fold u. destruct (u <? 2 ^ 31); [exists 0|exists (-1)]; lia. }
  assert (∀ x q c', x = u8 c' + q * 256 → byte x = c') as Hb.
  { intros x q c' ->. rewrite <- (byte_u8 c') at 2. unfold byte. by rewrite Z_mod_plus_full. }
  assert (∀ x m q r, 0 ≤ r < m → x = m * q + r → x / m = q) as Hd by (intros x m q r ? ->; symmetry; by apply (Z.div_unique _ _ _ r); [lia|]).
  unfold i32_to_be. repeat f_equal.
  - apply (Hb _ k). apply (Hd _ _ _ (u8 b * 2 ^ 16 + u8 c * 2 ^ 8 + u8 d)); unfold u; lia.
  - apply (Hb _ (u8 a + k * 2 ^ 8)). apply (Hd _ _ _ (u8 c * 2 ^ 8 + u8 d)); unfold u; lia.
  - apply (Hb _ (u8 a * 2 ^ 8 + u8 b + k * 2 ^ 16)). apply (Hd _ _ _ (u8 d)); unfold u; lia.
  - apply (Hb _ (u8 a * 2 ^ 16 + u8 b * 2 ^ 8 + u8 c + k * 2 ^ 24)). unfold u. lia.
Qed.
Lemma i32_range l : is_i32 (i32_of l).
Proof.
  unfold is_i32. destruct l as [|a [|b [|c [|d l]]]]; cbn [i32_of]; try lia. unfold i32_from_be.
  pose proof (u8_range a). pose proof (u8_range b). pose proof (u8_range c). pose proof (u8_range d). destruct (Z.ltb_spec (u8 a * 2 ^ 24 + u8 b * 2 ^ 16 + u8 c * 2 ^ 8 + u8 d) (2 ^ 31)); lia.
Qed.
Lemma i32_split l : (4 ≤ length l)%nat → i32_to_be (i32_of l) ++ drop 4 l = l.
Proof. destruct l as [|a [|b [|c [|d l]]]]; cbn [length]; try lia. intros _. cbn [i32_of drop]. by rewrite i32_bytes. Qed.

(** *** UTF-8 *)

Lemma utf8_head_pos a l : (1 ≤ snd (utf8_head a l))%nat.
Proof. unfold utf8_head. repeat case_match; cbn; lia. Qed.
Lemma lossy_valid n l : valid_skip n l = true → lossy_skip n l = drop n l.
Proof.
  revert n. induction l as [|a l IH]; intros [|n]; cbn [valid_skip lossy_skip]; try done; [|apply IH].
  pose proof (utf8_head_pos a l) as Hk. destruct (utf8_head a l) as [ok k]; cbn in Hk. intros [-> Hv]%andb_true_iff.
  rewrite IH by done. destruct k as [|k]; [lia|]. cbn [take Nat.sub]. rewrite Nat.sub_0_r. cbn [app drop]. by rewrite take_drop.
Qed.
Lemma from_utf8_lossy_valid l : is_utf8 l = true → from_utf8_lossy l = l.
Proof. apply (lossy_valid 0). Qed.

(** *** Parameters *)

Definition pair_bytes (p : bytes * bytes) : bytes := p.1 ++ [NUL] ++ p.2 ++ [NUL].
Definition params_bytes (ps : list (bytes * bytes)) : bytes := mjoin (pair_bytes <$> ps) ++ [NUL].
Definition frame (ps : list (bytes * bytes)) : bytes :=
  let body := i32_to_be PROTOCOL_V3 ++ params_bytes ps in i32_to_be (4 + Z.of_nat (length body)) ++ body.
(** A pair that can be written, and what a tunnel demands of all of them. *)
Definition clean (p : bytes * bytes) : Prop := NUL ∉ p.1 ∧ NUL ∉ p.2 ∧ p.1 ≠ [].
Definition unambiguous (ps : list (bytes * bytes)) : Prop :=
  Forall (λ p, clean p ∧ is_utf8 p.1 = true ∧ is_utf8 p.2 = true) ps ∧ NoDup ps.*1.
(** The last value of a parameter is the one that counts. *)
Definition params_map (ps : list (bytes * bytes)) : gmap string string :=
  foldl (λ m p, <[text (from_utf8_lossy p.1) := text (from_utf8_lossy p.2)]> m) ∅ ps.

Lemma params_cons p ps : params_bytes (p :: ps) = p.1 ++ NUL :: p.2 ++ NUL :: params_bytes ps.
Proof. unfold params_bytes. cbn [fmap list_fmap mjoin list_join]. unfold pair_bytes at 1. by rewrite <- !app_assoc. Qed.

Lemma until_nul_app x y : NUL ∉ x → until_nul (x ++ NUL :: y) = Some (x, y).
Proof.
  induction x as [|c x IH]; intros Hx; [done|]. apply not_elem_of_cons in Hx as [Hc Hx]. cbn [app until_nul].
  destruct (Ascii.eqb_spec c NUL) as [->|]; [done|]. by rewrite IH.
Qed.
Lemma until_nul_Some b x y : until_nul b = Some (x, y) → b = x ++ NUL :: y ∧ NUL ∉ x.
Proof.
  revert x y. induction b as [|c b IH]; intros x y; cbn [until_nul]; [done|]. destruct (Ascii.eqb_spec c NUL) as [->|Hc].
  - intros [= <- <-]. split; [done|apply not_elem_of_nil].
  - intros ([x' y'] & [-> Hx]%IH & [= <- <-])%bind_Some. split; [done|]. apply not_elem_of_cons. done.
Qed.
Lemma split_nul_app x y : NUL ∉ x → split_nul (x ++ NUL :: y) = x :: split_nul y.
Proof.
  induction x as [|c x IH]; intros Hx; [done|]. apply not_elem_of_cons in Hx as [Hc Hx]. cbn [app split_nul].
  destruct (Ascii.eqb_spec c NUL) as [->|]; [done|]. by rewrite IH.
Qed.

Lemma parse_pairs_clean ps m : Forall clean ps →
  parse_pairs (split_nul (params_bytes ps)) m = foldl (λ m p, <[text (from_utf8_lossy p.1) := text (from_utf8_lossy p.2)]> m) m ps.
Proof.
  intros Hps. revert m. induction Hps as [|p ps (H1 & H2 & H3) _ IH]; intros m; [done|].
  rewrite params_cons, split_nul_app, split_nul_app by done. cbn [foldl]. rewrite <- IH.
  destruct (p.1) as [|c k] eqn:E; [done|]. done.
Qed.
Lemma parse_params_clean ps : Forall clean ps → parse_params (params_bytes ps) = params_map ps.
Proof. apply parse_pairs_clean. Qed.

Lemma text_inj x y : text x = text y → x = y.
Proof. intros H%(f_equal list_ascii_of_string). by rewrite !list_ascii_of_string_of_list_ascii in H. Qed.

Definition text_pair (p : bytes * bytes) : string * string := (text p.1, text p.2).
Lemma params_map_unambiguous ps : unambiguous ps → params_map ps = list_to_map (text_pair <$> ps).
Proof.
  intros [Hps Hnd]. unfold params_map.
  assert (∀ m : gmap string string, foldl (λ m p, <[text (from_utf8_lossy p.1) := text (from_utf8_lossy p.2)]> m) m ps
    = list_to_map (text_pair <$> ps) ∪ m) as ->; [|by rewrite (right_id_L ∅ (∪))].
  induction Hps as [|p ps (_ & H1 & H2) Hps IH]; intros m; cbn; [by rewrite (left_id_L ∅ (∪))|]. apply NoDup_cons in Hnd as [Hp Hnd].
  rewrite IH, !from_utf8_lossy_valid by done. rewrite <- insert_union_l, insert_union_r; [done|].
  apply not_elem_of_list_to_map_1. intros ([x y] & Hx & Hin)%list_elem_of_fmap. cbn in Hx. subst x.
  apply list_elem_of_fmap in Hin as (q & [= Hq _] & Hin). apply Hp, list_elem_of_fmap. exists q. by rewrite (text_inj _ _ Hq).
Qed.

(** *** Frames *)

Lemma length_i32 z : length (i32_to_be z) = 4%nat.
Proof. done. Qed.
Lemma frame_shape ps : ∃ n, frame ps = i32_to_be n ++ i32_to_be PROTOCOL_V3 ++ params_bytes ps ∧ n = Z.of_nat (length (frame ps)).
Proof. eexists. split; [reflexivity|]. unfold frame. rewrite (length_app (i32_to_be (4 + _))), (length_i32 (4 + _)). lia. Qed.
Lemma v3_is_i32 : is_i32 PROTOCOL_V3.
Proof. done. Qed.
Lemma frame_read ps : let b := frame ps in is_i32 (Z.of_nat (length b)) →
  i32_of b = Z.of_nat (length b) ∧ i32_of (drop 4 b) = PROTOCOL_V3 ∧ drop 8 b = params_bytes ps ∧ (9 ≤ length b)%nat.
Proof.
  intros b. subst b. destruct (frame_shape ps) as (n & Hf & Hn). rewrite <- Hn, Hf. intros Hi. split_and!; [by apply i32_round|by apply i32_round|done|].
  cbn [app length i32_to_be]. unfold params_bytes. rewrite !length_app. cbn. lia.
Qed.
(** Bytes that say their length and the version are a frame of their parameters. *)
Lemma frame_back b ps : i32_of b = Z.of_nat (length b) → (8 ≤ length b)%nat → i32_of (drop 4 b) = PROTOCOL_V3 → drop 8 b = params_bytes ps → b = frame ps.
Proof.
  intros Hl Hn Hv Hp.
  assert (b = i32_to_be (i32_of b) ++ drop 4 b) as Hb by (by rewrite i32_split by lia).
  assert (drop 4 b = i32_to_be PROTOCOL_V3 ++ params_bytes ps) as H4.
  { rewrite <- Hv, <- Hp. change 8%nat with (4 + 4)%nat. rewrite <- drop_drop, i32_split; [done|]. rewrite length_drop. lia. }
  assert (length b = 4 + length (drop 4 b))%nat as Hlen by (rewrite length_drop; lia).
  unfold frame. rewrite <- H4. rewrite Hb at 1. f_equal. f_equal. lia.
Qed.

(** *** The tunnel *)

Lemma check_pairs_total fuel keys b : (length b < fuel)%nat → is_Some (check_pairs fuel keys b).
Proof.
  revert keys b. induction fuel as [|fuel IH]; intros keys b Hl; [lia|]. cbn [check_pairs].
  case_bool_decide; [by eexists|]. destruct (until_nul b) as [[k b']|] eqn:Ek; [|by eexists].
  destruct (negb _); [by eexists|]. destruct (_ || _); [by eexists|].
  destruct (until_nul b') as [[v b'']|] eqn:Ev; [|by eexists]. destruct (is_utf8 v); [|by eexists].
  apply IH. apply until_nul_Some in Ek as [-> _]. apply until_nul_Some in Ev as [-> _].
  rewrite !length_app in Hl. cbn in Hl. rewrite !length_app in Hl. cbn in Hl. lia.
Qed.
Lemma params_not_nul p ps : clean p → params_bytes (p :: ps) ≠ [NUL].
Proof.
  intros (H1 & _ & H3). rewrite params_cons. destruct p as [[|c k] v]; [done|]. cbn. intros [= -> H]. apply H1. by left.
Qed.
Definition tunnelled (keys : list bytes) (ps : list (bytes * bytes)) : Prop :=
  Forall (λ p, clean p ∧ is_utf8 p.1 = true ∧ is_utf8 p.2 = true) ps ∧ NoDup ps.*1 ∧ ∀ k, k ∈ keys → k ∉ ps.*1.
Lemma check_pairs_spec fuel keys b : check_pairs fuel keys b = Some (Ok tt) → ∃ ps, b = params_bytes ps ∧ tunnelled keys ps.
Proof.
  revert keys b. induction fuel as [|fuel IH]; intros keys b; [done|]. cbn [check_pairs].
  case_bool_decide as Hb. { intros _. exists []. split; [done|]. split_and!; [done|apply NoDup_nil_2|]. intros k _. apply not_elem_of_nil. }
  destruct (until_nul b) as [[k b']|] eqn:Ek; [|done]. destruct (is_utf8 k) eqn:E1; [|done]. cbn [negb].
  destruct (bool_decide_reflect (k = [])) as [|Hne]; [done|]. case_bool_decide as Hk; [done|]. cbn [orb].
  destruct (until_nul b') as [[v b'']|] eqn:Ev; [|done]. destruct (is_utf8 v) eqn:E2; [|done].
  intros (ps & -> & Hps & Hnd & Hks)%IH. apply until_nul_Some in Ek as [-> Hk1]. apply until_nul_Some in Ev as [-> Hv1].
  exists ((k, v) :: ps). split; [by rewrite params_cons|]. split_and!.
  - constructor; [|done]. done.
  - cbn. apply NoDup_cons. split; [|done]. apply Hks. by left.
  - intros x Hx. cbn. apply not_elem_of_cons. split; [by intros ->|]. apply Hks. by right.
Qed.
Lemma check_pairs_complete fuel keys ps : tunnelled keys ps → (length (params_bytes ps) < fuel)%nat → check_pairs fuel keys (params_bytes ps) = Some (Ok tt).
Proof.
  revert keys ps. induction fuel as [|fuel IH]; intros keys ps (Hps & Hnd & Hks) Hl; [lia|]. cbn [check_pairs].
  destruct ps as [|[k v] ps]; [done|]. apply Forall_cons in Hps as [(Hc & H1 & H2) Hps]. cbn in Hnd. apply NoDup_cons in Hnd as [Hk Hnd].
  rewrite bool_decide_eq_false_2 by by apply params_not_nul. destruct Hc as (Hc1 & Hc2 & Hc3).
  rewrite params_cons in *. cbn [fst snd] in *. rewrite until_nul_app, H1 by done. cbn [negb].
  rewrite (bool_decide_eq_false_2 _ Hc3), bool_decide_eq_false_2 by (intros Hin; apply (Hks _ Hin); by left). cbn [orb].
  rewrite until_nul_app, H2 by done. apply IH.
  - split_and!; [done|done|]. intros x [->|Hx]%elem_of_cons; [done|]. intros Hin. apply (Hks _ Hx). by right.
  - rewrite !length_app in Hl. cbn in Hl. rewrite !length_app in Hl. cbn in Hl. lia.
Qed.

(** C11. What a tunnel accepts means one thing.  [parse_forwarded] answers on every input, and accepts
    bytes exactly when they are, up to the last one, the frame of a list of parameters, each key and
    value of which is UTF-8 without zeros and no key empty or given twice, in at most 10 KiB; and what
    it takes them to say is what those parameters say. *)
Theorem forwarded_means_one_thing b :
  is_Some (parse_forwarded b) ∧
  ∀ info, parse_forwarded b = Some (Ok info) ↔
    ∃ ps, unambiguous ps ∧ b = frame ps ∧ Z.of_nat (length b) ≤ 10 * 1024 ∧ startup_info (list_to_map (text_pair <$> ps)) b = Ok info.
Proof.
  split.
  { unfold parse_forwarded. repeat (case_match; [by eexists|]).
    assert (is_Some (check_pairs (length b) [] (drop 8 b))) as [r ->]; [|by eexists].
    apply check_pairs_total. rewrite length_drop. apply orb_false_iff in H as [?%Nat.ltb_ge _]. lia. }
  intros info. unfold parse_forwarded. split.
  - destruct (_ || _) eqn:El; [done|]. apply orb_false_iff in El as [Hl%Nat.ltb_ge Hm%Z.ltb_ge].
    destruct (Z.eqb_spec (i32_of b mod 2 ^ 64) (Z.of_nat (length b))) as [Hf|]; [|done]. cbn [negb].
    destruct (Z.eqb_spec (i32_of (drop 4 b)) PROTOCOL_V3) as [Hv|]; [|done]. cbn [negb].
    intros (r & Hr & Hi)%bind_Some. injection Hi as Hi. apply rbind_ok in Hi as ([] & -> & Hi).
    apply check_pairs_spec in Hr as (ps & Hp & Hps & Hnd & _). exists ps.
    assert (i32_of b = Z.of_nat (length b)) as Hlen.
    { pose proof (i32_range b) as [? ?]. destruct (decide (0 ≤ i32_of b)); [by rewrite Z.mod_small in Hf by lia|].
      rewrite <- (Z_mod_plus_full _ 1), Z.mod_small in Hf by lia. lia. }
    split_and!; [by split|by apply frame_back|done|].
    unfold parse_startup_message in Hi. rewrite drop_drop in Hi. change (4 + 4)%nat with 8%nat in Hi. rewrite Hp, parse_params_clean in Hi; [|by eapply Forall_impl; [exact Hps|intros p []]].
    rewrite take_drop in Hi. rewrite params_map_unambiguous in Hi by by split. done.
  - intros (ps & [Hps Hnd] & Hb & Hl & Hi). destruct (frame_read ps) as (H1 & H2 & H3 & H4); [rewrite <- Hb; split; lia|]. rewrite <- Hb in *.
    rewrite (proj2 (orb_false_iff _ _)); [|split; [apply Nat.ltb_ge; lia|by apply Z.ltb_ge]].
    rewrite H1, Z.mod_small, Z.eqb_refl, H2 by lia. cbn [negb Z.eqb]. rewrite Z.eqb_refl. cbn [negb]. rewrite H3, check_pairs_complete; cycle 1.
    { split_and!; [done|done|]. intros k Hk. by apply not_elem_of_nil in Hk. }
    { rewrite <- H3, length_drop. lia. }
    cbn [mbind option_bind rbind]. unfold parse_startup_message. rewrite drop_drop, take_drop. change (4 + 4)%nat with 8%nat. rewrite H3, parse_params_clean.
    + rewrite params_map_unambiguous by by split. by rewrite Hi.
    + by eapply Forall_impl; [exact Hps|intros p []].
Qed.

(** *** Openings *)

Lemma read_framed n body s :
  n = 4 + Z.of_nat (length body) → 8 ≤ n ≤ MAX_STARTUP_PACKET_LEN → read_message (i32_to_be n ++ body ++ s) = Ok (i32_of body, i32_to_be n, body, s).
Proof.
  intros Hn Hr. unfold MAX_STARTUP_PACKET_LEN in Hr. unfold read_message. rewrite !length_app, length_i32.
  rewrite (proj2 (Nat.ltb_ge _ _)) by lia. rewrite i32_round by (split; lia).
  rewrite (proj2 (Z.ltb_ge _ _)) by lia. unfold MAX_STARTUP_PACKET_LEN. rewrite (proj2 (Z.ltb_ge _ _)) by lia.
  change (drop 4 (i32_to_be n ++ body ++ s)) with (body ++ s). change (take 4 (i32_to_be n ++ body ++ s)) with (i32_to_be n).
  assert (Z.to_nat (n - 4) = length body) as -> by lia. rewrite length_app, (proj2 (Nat.ltb_ge _ _)) by lia.
  by rewrite take_app_length, drop_app_length.
Qed.
Lemma read_message_shorter s code len_buf body s' : read_message s = Ok (code, len_buf, body, s') → (length s' < length s)%nat.
Proof.
  unfold read_message. destruct (Nat.ltb_spec (length s) 4); [done|]. destruct (_ <? 8); [done|]. destruct (_ <? _); [done|].
  destruct (_ <? _)%nat; [done|]. intros [= _ _ _ <-]. rewrite !length_drop. lia.
Qed.
Lemma plain_total fuel w t s : (length s < fuel)%nat → is_Some (read_startup_plain fuel w t s).
Proof.
  revert w s. induction fuel as [|fuel IH]; intros w s Hl; [lia|]. cbn [read_startup_plain].
  destruct (read_message s) as [[[[code l] b] s']|e] eqn:E; [|by eexists]. apply read_message_shorter in E.
  destruct (request_of _ _ _); [by eexists|]. destruct w as [|w]; [by eexists|]. destruct (IH w s') as [o ->]; [lia|by eexists].
Qed.
Lemma read_startup_total w tls s : is_Some (read_startup w tls s).
Proof.
  unfold read_startup. assert (length s < S (length s))%nat as Hl by lia. revert Hl. generalize (S (length s)). intros fuel. revert w s.
  induction fuel as [|fuel IH]; intros w s Hl; [lia|]. cbn [read_startup_from].
  destruct (read_message s) as [[[[code l] b] s']|e] eqn:E; [|by eexists]. apply read_message_shorter in E.
  destruct (request_of _ _ _); [by eexists|]. destruct w as [|w]; [by eexists|].
  destruct (if code =? SSL_REQUEST_CODE then tls else None) as [accept|]; [|destruct (IH w s') as [o ->]; [lia|by eexists]].
  destruct (accept s') as [p|]; [|by eexists]. destruct (plain_total (S (length p)) w true p) as [o ->]; [lia|by eexists].
Qed.

(** What a client that follows the protocol sends: requests for encryption, and one packet. *)
Definition hello (codes : list Z) : bytes := mjoin ((λ c, i32_to_be 8 ++ i32_to_be c) <$> codes).
Definition declinable (c : Z) : Prop := c = SSL_REQUEST_CODE ∨ c = GSS_ENC_REQUEST_CODE.
Definition good_key (k : CancelKey) : Prop := is_i32 (pid k) ∧ (4 ≤ length (secret k) ≤ MAX_SECRET_LEN)%nat.
Inductive opens : bytes → result WireError Request → Prop :=
| opens_session ps : Forall clean ps → Z.of_nat (length (frame ps)) ≤ MAX_STARTUP_PACKET_LEN →
    opens (frame ps) (i <-? startup_info (params_map ps) (frame ps) ;; Ok (RStartup i))
| opens_cancel k : good_key k → opens (request_packet k) (Ok (RCancel k)).

Lemma key_round k : good_key k → from_pid_and_secret (i32_to_be (pid k) ++ secret k) = Ok k.
Proof.
  intros [Hp Hs]. unfold MAX_SECRET_LEN in Hs. unfold from_pid_and_secret, MAX_SECRET_LEN. rewrite length_app, length_i32.
  rewrite (proj2 (orb_false_iff _ _)) by (split; apply Nat.ltb_ge; lia). rewrite i32_round by done. by destruct k.
Qed.
Lemma read_packet b o s : opens b o → ∃ code len_buf body,
  read_message (b ++ s) = Ok (code, len_buf, body, s) ∧ request_of code len_buf body = Some o.
Proof.
  intros [ps Hps Hl|k [Hp Hk]].
  - unfold frame in *. set (body := i32_to_be PROTOCOL_V3 ++ params_bytes ps) in *. exists PROTOCOL_V3, (i32_to_be (4 + Z.of_nat (length body))), body.
    rewrite length_app, length_i32 in Hl. rewrite <- app_assoc. rewrite read_framed; [|done|]; cycle 1.
    { split; [|lia]. unfold body. rewrite length_app, length_i32. lia. }
    replace (i32_of body) with PROTOCOL_V3 by (unfold body; by rewrite i32_round). split; [done|]. unfold request_of. cbn [Z.eqb PROTOCOL_V3 SSL_REQUEST_CODE GSS_ENC_REQUEST_CODE CANCEL_REQUEST_CODE Pos.eqb orb].
    unfold parse_startup_message. change (drop 4 body) with (params_bytes ps). by rewrite parse_params_clean.
  - unfold MAX_SECRET_LEN in Hk. set (body := i32_to_be CANCEL_REQUEST_CODE ++ i32_to_be (pid k) ++ secret k).
    exists CANCEL_REQUEST_CODE, (i32_to_be (12 + Z.of_nat (length (secret k)))), body.
    assert (request_packet k ++ s = i32_to_be (12 + Z.of_nat (length (secret k))) ++ body ++ s) as -> by (unfold request_packet, body; by rewrite <- !app_assoc).
    rewrite read_framed; cycle 1. { unfold body. rewrite !length_app, !length_i32. lia. } { unfold MAX_STARTUP_PACKET_LEN. lia. }
    replace (i32_of body) with CANCEL_REQUEST_CODE by (unfold body; by rewrite i32_round). split; [done|]. unfold request_of. cbn [Z.eqb SSL_REQUEST_CODE GSS_ENC_REQUEST_CODE CANCEL_REQUEST_CODE Pos.eqb orb].
    unfold from_request_body, body. rewrite length_app, length_i32, i32_round by done.
    change (drop 4 (i32_to_be CANCEL_REQUEST_CODE ++ i32_to_be (pid k) ++ secret k)) with (i32_to_be (pid k) ++ secret k).
    rewrite key_round by done. done.
Qed.
Lemma read_hello c s : is_i32 c → read_message (i32_to_be 8 ++ i32_to_be c ++ s) = Ok (c, i32_to_be 8, i32_to_be c, s).
Proof. intros Hc. rewrite read_framed by done. by rewrite <- (app_nil_r (i32_to_be c)), i32_round. Qed.
Lemma declined c l b : declinable c → is_i32 c ∧ request_of c l b = None.
Proof. by intros [->| ->]. Qed.
Lemma hello_cons c codes s : hello (c :: codes) ++ s = i32_to_be 8 ++ i32_to_be c ++ hello codes ++ s.
Proof. unfold hello. cbn [fmap list_fmap mjoin list_join]. by rewrite <- !app_assoc. Qed.
Lemma hello_length codes : length (hello codes) = (8 * length codes)%nat.
Proof. induction codes as [|c codes IH]; [done|]. rewrite <- (app_nil_r (hello _)), hello_cons, app_nil_r, !length_app, !length_i32, IH. cbn. lia. Qed.

Definition saying (n : nat) (o : Opening) : Opening :=
  {| outcome := outcome o; replied := replicate n "N"%char ++ replied o; upgraded := upgraded o; rest := rest o |}.
Lemma saying_S n o : replying "N" (saying n o) = saying (S n) o.
Proof. done. Qed.
Lemma plain_reads fuel w t codes b o s :
  opens b o → Forall declinable codes → (length codes ≤ w)%nat → (length codes < fuel)%nat →
  read_startup_plain fuel w t (hello codes ++ b ++ s) = Some (saying (length codes) (opened o t s)).
Proof.
  intros Ho Hc. revert fuel w. induction Hc as [|c codes Hc _ IH]; intros fuel w Hw Hf; cbn [length] in *; (destruct fuel as [|fuel]; [lia|]); cbn [read_startup_plain].
  - destruct (read_packet b o s Ho) as (code & l & body & Hr & Hq). cbn [hello fmap list_fmap mjoin list_join app]. by rewrite Hr, Hq.
  - destruct w as [|w]; [lia|]. rewrite hello_cons. destruct (declined c (i32_to_be 8) (i32_to_be c) Hc) as [Hi Hn]. rewrite read_hello, Hn by done.
    rewrite IH by lia. done.
Qed.
Lemma from_reads fuel w tls codes b o s :
  opens b o → Forall declinable codes → (tls = None ∨ SSL_REQUEST_CODE ∉ codes) → (length codes ≤ w)%nat → (length codes < fuel)%nat →
  read_startup_from fuel w tls (hello codes ++ b ++ s) = Some (saying (length codes) (opened o false s)).
Proof.
  intros Ho Hc Ht. revert fuel w. induction Hc as [|c codes Hc _ IH]; intros fuel w Hw Hf; cbn [length] in *; (destruct fuel as [|fuel]; [lia|]); cbn [read_startup_from].
  - destruct (read_packet b o s Ho) as (code & l & body & Hr & Hq). cbn [hello fmap list_fmap mjoin list_join app]. by rewrite Hr, Hq.
  - destruct w as [|w]; [lia|]. rewrite hello_cons. destruct (declined c (i32_to_be 8) (i32_to_be c) Hc) as [Hi Hn]. rewrite read_hello, Hn by done.
    assert ((if c =? SSL_REQUEST_CODE then tls else None) = None) as ->.
    { destruct (Z.eqb_spec c SSL_REQUEST_CODE) as [->|]; [|done]. destruct Ht as [->|Ht]; [done|]. exfalso. apply Ht. by left. }
    rewrite IH; [done| |lia|lia]. destruct Ht as [->|Ht]; [by left|right]. intros Hin. apply Ht. by right.
Qed.
Lemma tls_reads fuel w accept before codes b o s s' :
  opens b o → Forall (eq GSS_ENC_REQUEST_CODE) before → Forall declinable codes → accept s = Some (hello codes ++ b ++ s') →
  (S (length before + length codes) ≤ w)%nat → (S (length before) < fuel)%nat →
  read_startup_from fuel w (Some accept) (hello before ++ hello [SSL_REQUEST_CODE] ++ s) =
    Some (saying (length before) (replying "S" (saying (length codes) (opened o true s')))).
Proof.
  intros Ho Hb Hc Ha. revert fuel w. induction Hb as [|c before <- _ IH]; intros fuel w Hw Hf; cbn [length] in *; (destruct fuel as [|fuel]; [lia|]); cbn [read_startup_from].
  - destruct w as [|w]; [lia|]. change (hello [] ++ hello [SSL_REQUEST_CODE] ++ s) with (i32_to_be 8 ++ i32_to_be SSL_REQUEST_CODE ++ s).
    rewrite read_hello by done. cbn [request_of Z.eqb SSL_REQUEST_CODE Pos.eqb orb]. rewrite Ha, (plain_reads _ _ _ codes b o s'); [done|done|done|lia|].
    rewrite length_app, hello_length. lia.
  - destruct w as [|w]; [lia|]. rewrite hello_cons, read_hello by done. cbn [request_of Z.eqb SSL_REQUEST_CODE GSS_ENC_REQUEST_CODE Pos.eqb orb].
    rewrite IH by lia. done.
Qed.

(** C19. Whoever speaks the protocol is understood.  Reading an opening always ends; and when a client asks for
    encryption any number of times and then sends a [StartupMessage] of at most 10000 bytes or a
    [CancelRequest], the pooler answers each request with one byte, reads that packet and not a byte
    beyond it, takes the parameters for what they say, keeps the bytes of the message, and gets the key
    that was sent.  That is so in the clear, for a pooler without TLS whatever is asked, and for one with
    TLS as long as the client asks for no encryption or only for that of GSS; and behind TLS, from the
    first request for it on, which is answered with an S and the handshake. *)
Theorem openings_are_read :
  (∀ w tls s, is_Some (read_startup w tls s)) ∧
  ∀ w codes b o s', opens b o → Forall declinable codes →
    (∀ tls, tls = None ∨ SSL_REQUEST_CODE ∉ codes → (length codes ≤ w)%nat →
     read_startup w tls (hello codes ++ b ++ s') =
       Some {| outcome := o; replied := replicate (length codes) "N"%char; upgraded := false; rest := s' |}) ∧
    ∀ before accept s, Forall (eq GSS_ENC_REQUEST_CODE) before → accept s = Some (hello codes ++ b ++ s') → (S (length before + length codes) ≤ w)%nat →
      read_startup w (Some accept) (hello before ++ hello [SSL_REQUEST_CODE] ++ s) =
        Some {| outcome := o; replied := replicate (length before) "N"%char ++ "S"%char :: replicate (length codes) "N"%char; upgraded := true; rest := s' |}.
Proof.
  split; [exact read_startup_total|]. intros w codes b o s' Ho Hc. unfold read_startup. split.
  - intros tls Ht Hw. rewrite (from_reads _ _ _ codes b o s') by (try done; rewrite length_app, hello_length; lia).
    unfold saying. cbn. by rewrite app_nil_r.
  - intros before accept s Hb Ha Hw. rewrite (tls_reads _ _ _ before codes b o s s') by (try done; rewrite !length_app, !hello_length; cbn [length]; lia).
    unfold saying, replying. cbn. by rewrite app_nil_r.
Qed.

(** *** The default option *)

(** The first [options] gets ours in front, or there is a new one at the end. *)
Fixpoint in_front (ours : bytes) (ps : list (bytes * bytes)) : list (bytes * bytes) :=
  match ps with
  | [] => [(OPTIONS, ours)]
  | p :: ps => if decide (p.1 = OPTIONS) then (p.1, ours ++ (if decide (p.2 = []) then [] else [" "%char]) ++ p.2) :: ps else p :: in_front ours ps
  end.

Lemma merge_pairs_total fuel ours m b : (length b < fuel)%nat → is_Some (merge_pairs fuel ours m b).
Proof.
  revert m b. induction fuel as [|fuel IH]; intros m b Hl; [lia|]. cbn [merge_pairs].
  destruct (until_nul b) as [[[|c k] b']|] eqn:Ek; [by eexists| |by eexists].
  destruct (until_nul b') as [[v b'']|] eqn:Ev; [|by eexists].
  assert (∀ m, is_Some (merge_pairs fuel ours m b'')) as Hr; [intros m'; apply IH|by edestruct Hr as [r ->]; eexists]. apply until_nul_Some in Ek as [-> _]. apply until_nul_Some in Ev as [-> _].
  rewrite !length_app in Hl. cbn in Hl. rewrite !length_app in Hl. cbn in Hl. lia.
Qed.
Definition pairs_bytes (ps : list (bytes * bytes)) : bytes := mjoin (pair_bytes <$> ps).
Lemma pairs_cons p ps : pairs_bytes (p :: ps) = p.1 ++ [NUL] ++ p.2 ++ [NUL] ++ pairs_bytes ps.
Proof. unfold pairs_bytes. cbn [fmap list_fmap mjoin list_join]. unfold pair_bytes at 1. by rewrite <- !app_assoc. Qed.
Definition opt (ours : bytes) (m : bool) (ps : list (bytes * bytes)) : list (bytes * bytes) * bool :=
  if m then (ps, true)
  else if decide (OPTIONS ∈ ps.*1) then (in_front ours ps, true) else (ps, false).
Lemma opt_cons ours m p ps :
  opt ours m (p :: ps) =
    let here := bool_decide (p.1 = OPTIONS) && negb m in
    let '(qs, m') := opt ours (m || here) ps in
    ((p.1, if here then ours ++ (if bool_decide (p.2 = []) then [] else [" "%char]) ++ p.2 else p.2) :: qs, m').
Proof.
  unfold opt. destruct m; cbn [negb andb orb]; [rewrite andb_false_r; by destruct p|]. rewrite andb_true_r. cbn [in_front fmap list_fmap].
  case_bool_decide as Hp; cbn [andb].
  - rewrite decide_True by (rewrite <- Hp; by left). rewrite decide_True by done. by case_bool_decide as Hv; [rewrite decide_True by done|rewrite decide_False by done].
  - destruct (decide (OPTIONS ∈ ps.*1)) as [Hin|Hn]; [rewrite decide_True by by right|rewrite decide_False by by intros [|]%elem_of_cons]; [|by destruct p].
    rewrite decide_False by done. by destruct p.
Qed.
Lemma merge_pairs_clean fuel ours m ps : Forall clean ps → (length (params_bytes ps) < fuel)%nat →
  merge_pairs fuel ours m (params_bytes ps) = Some (Ok (pairs_bytes (opt ours m ps).1, (opt ours m ps).2, [])).
Proof.
  intros Hps. revert fuel m. induction Hps as [|[k v] ps (H1 & H2 & H3) _ IH]; intros fuel m Hl; (destruct fuel as [|fuel]; [lia|]); cbn [merge_pairs].
  - cbn. unfold opt. by destruct m.
  - rewrite params_cons in *. cbn [fst snd] in *. rewrite until_nul_app by done. destruct k as [|c k]; [done|]. rewrite until_nul_app by done.
    rewrite IH; cycle 1. { rewrite !length_app in Hl. cbn in Hl. rewrite !length_app in Hl. cbn in Hl. lia. }
    rewrite opt_cons. cbn [fst snd mbind option_bind rbind]. destruct (opt _ _ ps) as [qs m'] eqn:Eo. cbn [fst snd]. by rewrite pairs_cons.
Qed.
Lemma merge_pairs_back fuel ours m b out m' : merge_pairs fuel ours m b = Some (Ok (out, m', [])) → ∃ ps, Forall clean ps ∧ b = params_bytes ps.
Proof.
  revert m b out m'. induction fuel as [|fuel IH]; intros m b out m'; [done|]. cbn [merge_pairs].
  destruct (until_nul b) as [[k b']|] eqn:Ek; [|done]. apply until_nul_Some in Ek as [-> Hk]. destruct k as [|c k].
  { intros [= _ _ ->]. by exists []. }
  destruct (until_nul b') as [[v b'']|] eqn:Ev; [|done]. apply until_nul_Some in Ev as [-> Hv].
  intros (r & Hr & Hx)%bind_Some. injection Hx as Hx. apply rbind_ok in Hx as ([[o m1] t] & -> & [= _ _ ->]).
  apply IH in Hr as (ps & Hps & ->). exists ((c :: k, v) :: ps). split; [|by rewrite params_cons]. by constructor.
Qed.

Lemma in_front_opt ours ps : params_bytes (in_front ours ps) =
  pairs_bytes (opt ours false ps).1 ++ (if (opt ours false ps).2 then [] else OPTIONS ++ [NUL] ++ ours ++ [NUL]) ++ [NUL].
Proof.
  induction ps as [|p ps IH]; [change (opt ours false []) with (@nil (bytes * bytes), false); cbn [in_front]; rewrite params_cons; cbn; by rewrite <- app_assoc|]. rewrite opt_cons. cbn [in_front negb orb]. rewrite andb_true_r. case_bool_decide as Hp.
  - rewrite decide_True by done. cbn [opt fst snd]. rewrite pairs_cons, params_cons. cbn [fst snd]. unfold params_bytes. fold (pairs_bytes ps).
    assert ((if decide (p.2 = []) then [] else [" "%char]) = if bool_decide (p.2 = []) then [] else [" "%char]) as ->.
    { by case_bool_decide; [rewrite decide_True by done|rewrite decide_False by done]. }
    rewrite <- !app_assoc. done.
  - rewrite decide_False by done. destruct (opt ours false ps) as [qs m'] eqn:Eo. cbn [fst snd] in *. destruct p as [k v].
    rewrite pairs_cons, params_cons, IH. cbn [fst snd]. by rewrite <- !app_assoc.
Qed.
Lemma in_front_map ours ps n : n ≠ "options" → params_map (in_front ours ps) !! n = params_map ps !! n.
Proof.
  intros Hn. unfold params_map. generalize (∅ : gmap string string). induction ps as [|p ps IH]; intros m; cbn [in_front].
  - cbn. by rewrite lookup_insert_ne.
  - destruct (decide (p.1 = OPTIONS)) as [Hp|]; [|apply IH]. cbn [foldl fst snd]. rewrite Hp.
    assert (∀ m1 m2 : gmap string string, (∀ x, x ≠ "options" → m1 !! x = m2 !! x) →
      ∀ x, x ≠ "options" → foldl (λ m p, <[text (from_utf8_lossy p.1) := text (from_utf8_lossy p.2)]> m) m1 ps !! x
                         = foldl (λ m p, <[text (from_utf8_lossy p.1) := text (from_utf8_lossy p.2)]> m) m2 ps !! x) as Hf.
    { clear. induction ps as [|p ps IH]; intros m1 m2 Hm; [done|]. cbn [foldl]. apply IH. intros x Hx.
      destruct (decide (x = text (from_utf8_lossy p.1))) as [->|]; [by rewrite !lookup_insert_eq|]. rewrite !lookup_insert_ne by done. by apply Hm. }
    apply Hf; [|done]. intros x Hx. change (text (from_utf8_lossy OPTIONS)) with "options". by rewrite !lookup_insert_ne by done.
Qed.

#[local] Opaque opt.

(** C21. The default goes in front of what the client set, and changes nothing else.  With a setting
    that is one token, [with_default_option] answers on every packet that fits in memory, and rewrites it exactly when it is the
    frame of a list of parameters (and the result has a length): into the frame of the same list with
    the option before the value of its first [options], or in a parameter of its own at the end.  What
    the packet says under any other name it still says. *)
Theorem default_option_goes_in_front setting b (Hmem : Z.of_nat (length b) < 2 ^ 63) :
  is_Some (with_default_option b setting) ∧
  (∀ out, with_default_option b setting = Some (Ok out) ↔
    unsafe_option setting = false ∧ ∃ ps, Forall clean ps ∧ is_i32 (Z.of_nat (length b)) ∧ b = frame ps ∧
      out = frame (in_front (bytes_of "-c " ++ setting) ps) ∧ is_i32 (Z.of_nat (length out))) ∧
  ∀ ps n, n ≠ "options" → params_map (in_front (bytes_of "-c " ++ setting) ps) !! n = params_map ps !! n.
Proof.
  set (ours := bytes_of "-c " ++ setting). split; [|split; [|intros ps n; apply in_front_map]].
  { unfold with_default_option. repeat (case_match; [by eexists|]).
    assert (is_Some (merge_pairs (length b) ours false (drop 8 b))) as [r Hr]; [|subst ours; rewrite Hr; by eexists].
    apply merge_pairs_total. rewrite length_drop. apply orb_false_iff in H0 as [?%Nat.ltb_ge _]. lia. }
  intros out. unfold with_default_option. fold ours. destruct (unsafe_option setting); [by split; [|intros [? _]]|]. split.
  - destruct (_ || _) eqn:El; [done|]. apply orb_false_iff in El as [Hl%Nat.ltb_ge Hm%negb_false_iff%Z.eqb_eq].
    destruct (Z.eqb_spec (i32_of (drop 4 b)) PROTOCOL_V3) as [Hv|]; [|done]. cbn [negb].
    intros (r & Hr & Hi)%bind_Some. injection Hi as Hi. apply rbind_ok in Hi as ([[o m] t] & -> & Hi). unfold assemble in Hi.
    case_bool_decide as Ht; [|done]. subst t. cbn [negb] in Hi. destruct (Z.leb_spec (2 ^ 31) (4 + Z.of_nat (length (take 4 (drop 4 b) ++ o ++ (if m then [] else OPTIONS ++ [NUL] ++ ours ++ [NUL]) ++ [NUL])))) as [|Hlt]; [done|].
    pose proof (merge_pairs_back _ _ _ _ _ _ Hr) as (ps & Hps & Hb).
    rewrite Hb, merge_pairs_clean in Hr; [|done|rewrite <- Hb, length_drop; lia]. injection Hr as <- <-. split; [done|].
    assert (i32_of b = Z.of_nat (length b)) as Hlen.
    { pose proof (i32_range b) as [? ?]. destruct (decide (0 ≤ i32_of b)); [by rewrite Z.mod_small in Hm by lia|].
      rewrite <- (Z_mod_plus_full _ 1), Z.mod_small in Hm by lia. lia. }
    assert (take 4 (drop 4 b) = i32_to_be PROTOCOL_V3) as H4.
    { rewrite <- Hv. rewrite <- (i32_split (drop 4 b)) at 1 by (rewrite length_drop; lia). done. }
    rewrite H4, <- in_front_opt in Hi. rewrite H4, <- in_front_opt in Hlt. exists ps. split; [done|]. split; [rewrite <- Hlen; apply i32_range|]. split; [apply frame_back; (done || lia)|].
    assert (out = frame (in_front ours ps)) as -> by (unfold frame; congruence). split; [done|].
    unfold frame. rewrite (length_app (i32_to_be (4 + _))), (length_i32 (4 + _)). split; lia.
  - intros (_ & ps & Hps & Hb32 & Hb & Hout & Ho32). destruct (frame_read ps) as (H1 & H2 & H3 & H4); [by rewrite <- Hb|]. rewrite <- Hb in *.
    destruct Hb32 as [_ Hb32]. rewrite (proj2 (orb_false_iff _ _)); [|split; [apply Nat.ltb_ge; lia|rewrite H1, Z.mod_small, Z.eqb_refl by lia; done]].
    rewrite H2, Z.eqb_refl. cbn [negb]. rewrite H3, merge_pairs_clean; [|done|rewrite <- H3, length_drop; lia].
    cbn [mbind option_bind rbind]. unfold assemble. rewrite bool_decide_eq_true_2 by done. cbn [negb].
    assert (take 4 (drop 4 b) = i32_to_be PROTOCOL_V3) as ->.
    { rewrite <- H2. rewrite <- (i32_split (drop 4 b)) at 1 by (rewrite length_drop; lia). done. }
    rewrite <- in_front_opt. rewrite Hout in Ho32. unfold frame in Ho32. rewrite (length_app (i32_to_be (4 + _))), (length_i32 (4 + _)) in Ho32. destruct Ho32 as [_ Ho32].
    rewrite (proj2 (Z.leb_gt _ _)) by lia. by rewrite Hout.
Qed.

(** *** The scanner *)

(** Between two feeds: a header that is whole has a body to come, and a key is collected only in a body. *)
Record scanning (s : KeyScanner) : Prop := {
  sc_header : (length (header s) ≤ 5)%nat;
  sc_body : length (header s) = 5%nat → (0 < remaining s)%nat;
  sc_key : length (header s) ≠ 5%nat → key_body s = None;
  sc_fits b : key_body s = Some b → key_fits (length b + remaining s) = true;
}.
Definition idle (n : nat) : KeyScanner := {| header := []; remaining := 0; key_body := None; scanned := n; done := false |}.

Lemma later_assoc f g h : later (later f g) h = later f (later g h).
Proof. by destruct h. Qed.
Lemma feed_bytes_from s f b : foldl (λ x c, let '(s, f) := feed_byte (fst x) c in (s, later (snd x) f)) (s, f) b =
  ((feed_bytes s b).1, later f (feed_bytes s b).2).
Proof.
  unfold feed_bytes. revert s f. induction b as [|c b IH]; intros s f; [done|]. cbn [foldl fst snd].
  destruct (feed_byte s c) as [s1 f1]. rewrite (IH s1 (later f f1)), (IH s1 (later None f1)). cbn [fst snd]. f_equal.
  by rewrite later_assoc; destruct f1.
Qed.
Lemma feed_bytes_app s a b : feed_bytes s (a ++ b) =
  ((feed_bytes (feed_bytes s a).1 b).1, later (feed_bytes s a).2 (feed_bytes (feed_bytes s a).1 b).2).
Proof.
  unfold feed_bytes at 1. rewrite foldl_app. change (foldl _ (s, None) a) with (feed_bytes s a). destruct (feed_bytes s a) as [s1 f1]. by rewrite feed_bytes_from.
Qed.
Lemma feed_bytes_cons s c b : feed_bytes s (c :: b) = ((feed_bytes (feed_byte s c).1 b).1, later (feed_byte s c).2 (feed_bytes (feed_byte s c).1 b).2).
Proof. unfold feed_bytes at 1. cbn [foldl fst snd]. destruct (feed_byte s c) as [s1 f1]. rewrite feed_bytes_from. cbn. by destruct f1. Qed.
Lemma feed_bytes_done s b : done s = true → feed_bytes s b = (s, None).
Proof. intros Hd. induction b as [|c b IH]; [done|]. rewrite feed_bytes_cons. unfold feed_byte. rewrite Hd. cbn [fst snd]. by rewrite IH. Qed.

Lemma take_header_app s a b : take_header (take_header s a) b = take_header s (a ++ b).
Proof. unfold take_header. cbn. by rewrite <- app_assoc, length_app, Nat.add_assoc. Qed.
Lemma feed_header_part s b : done s = false → (length (header s) + length b < 5)%nat → feed_bytes s b = (take_header s b, None).
Proof.
  revert s. induction b as [|c b IH]; intros s Hd Hl; cbn [length] in Hl.
  { unfold feed_bytes, take_header. cbn. rewrite app_nil_r, Nat.add_0_r. by destruct s. }
  rewrite feed_bytes_cons. unfold feed_byte. rewrite Hd, (proj2 (Nat.ltb_lt _ _)) by lia. cbn [take_header header]. rewrite length_app. cbn [length].
  rewrite (proj2 (Nat.ltb_lt _ _)) by lia. cbn [fst snd]. rewrite IH; [|done|cbn; rewrite length_app; cbn; lia].
  cbn [fst snd later]. fold (take_header s [c]). by rewrite take_header_app.
Qed.
Definition header_done (s : KeyScanner) : KeyScanner * option CancelKey :=
  let s := on_header s in if done s then (s, None) else end_message s None.
Lemma feed_header_whole s b : done s = false → (length (header s) < 5)%nat → (length (header s) + length b = 5)%nat →
  feed_bytes s b = header_done (take_header s b).
Proof.
  intros Hd Hh Hl. destruct b as [|c b _] using rev_ind; [cbn in Hl; lia|]. rewrite length_app in Hl. cbn [length] in Hl.
  rewrite feed_bytes_app, (feed_header_part s b) by (done || lia). cbn [fst snd]. rewrite feed_bytes_cons. cbn [fst snd feed_bytes foldl].
  unfold feed_byte. cbn [take_header done header]. rewrite Hd, length_app, (proj2 (Nat.ltb_lt _ _)) by lia.
  rewrite length_app. cbn [length]. rewrite length_app, (proj2 (Nat.ltb_ge _ _)) by lia. fold (take_header s b). fold (take_header (take_header s b) [c]).
  rewrite take_header_app. unfold header_done. destruct (if done _ then _ else _) as [s' f]. cbn. by destruct f.
Qed.

Lemma take_body_app s a b : take_body (take_body s a) b = take_body s (a ++ b).
Proof. unfold take_body. cbn. rewrite length_app, Nat.add_assoc, Nat.sub_add_distr. destruct (key_body s); cbn; by rewrite ?app_assoc. Qed.
Lemma take_body_nil s : take_body s [] = s.
Proof. unfold take_body. cbn. rewrite Nat.sub_0_r, Nat.add_0_r. destruct s as [h r [k|] n d]; cbn; by rewrite ?app_nil_r. Qed.
Lemma feed_body_part s b : done s = false → length (header s) = 5%nat → (length b < remaining s)%nat → feed_bytes s b = (take_body s b, None).
Proof.
  intros Hd Hh. induction b as [|x b IH] using rev_ind; intros Hl; [unfold feed_bytes; cbn [foldl]; by rewrite take_body_nil|].
  rewrite length_app in Hl. cbn [length] in Hl. rewrite feed_bytes_app, IH by lia. cbn [fst snd]. rewrite feed_bytes_cons. cbn [feed_bytes foldl fst snd].
  unfold feed_byte. cbn [take_body done header]. rewrite Hd, Hh. cbn [Nat.ltb Nat.leb]. fold (take_body s b). rewrite take_body_app. unfold end_message.
  cbn [take_body remaining]. rewrite length_app. cbn [length]. rewrite (proj2 (Nat.eqb_neq _ _)) by lia. done.
Qed.
Lemma feed_body s b : done s = false → length (header s) = 5%nat → b ≠ [] → (length b ≤ remaining s)%nat → feed_bytes s b = end_message (take_body s b) None.
Proof.
  intros Hd Hh Hb Hl. destruct b as [|c b _] using rev_ind; [done|]. clear Hb. rewrite length_app in Hl. cbn [length] in Hl.
  rewrite feed_bytes_app, (feed_body_part s b) by (done || lia). cbn [fst snd]. rewrite feed_bytes_cons. cbn [feed_bytes foldl fst snd].
  unfold feed_byte. cbn [take_body done header]. rewrite Hd, Hh. cbn [Nat.ltb Nat.leb]. fold (take_body s b). rewrite take_body_app.
  destruct (end_message _ _) as [s' f]. cbn. by destruct f.
Qed.

Lemma key_fits_ok b : key_fits (length b) = true → is_Some (ok_key (from_pid_and_secret b)).
Proof.
  unfold key_fits, from_pid_and_secret, MAX_SECRET_LEN. intros [H1%Nat.leb_le H2%Nat.leb_le]%andb_true_iff.
  rewrite (proj2 (orb_false_iff _ _)); [by eexists|]. split; apply Nat.ltb_ge; lia.
Qed.
Lemma end_message_spec s found : length (header s) = 5%nat → (∀ b, key_body s = Some b → key_fits (length b + remaining s) = true) →
  scanning (end_message s found).1 ∧ end_message s found = ((end_message s None).1, later found (end_message s None).2) ∧
  scanned (end_message s found).1 = scanned s ∧ done (end_message s found).1 = done s.
Proof.
  intros Hh Hk. unfold end_message. destruct (Nat.eqb_spec (remaining s) 0) as [Hr|Hr]; cbn [fst snd].
  - split_and!; [by split; cbn; (done || lia)| |done|done]. destruct (key_body s) as [b|]; [|done]. specialize (Hk _ eq_refl). rewrite Hr, Nat.add_0_r in Hk.
    by destruct (key_fits_ok _ Hk) as [k ->].
  - split_and!; [|done..]. split; [lia|intros _; lia|done|done].
Qed.

(** A whole header leaves a body to come, of a size that fits when it is a key. *)
Lemma on_header_spec s : length (header s) = 5%nat → key_body s = None → done s = false →
  header (on_header s) = header s ∧ scanned (on_header s) = scanned s ∧
  (done (on_header s) = false → ∀ b, key_body (on_header s) = Some b → key_fits (length b + remaining (on_header s)) = true).
Proof.
  intros Hh Hk Hd. unfold on_header. destruct (_ <? 4); [by cbn; rewrite Hk|]. cbn [finished]. destruct (Ascii.eqb _ "Z"); [by cbn; rewrite Hk|].
  destruct (Ascii.eqb _ "K"); [|by cbn; rewrite Hk]. destruct (key_fits _) eqn:Ef; [|by cbn; rewrite Hk]. cbn. split_and!; try done. by intros _ b [= <-].
Qed.
Lemma take_body_spec s b : (length b ≤ remaining s)%nat → (∀ x, key_body s = Some x → key_fits (length x + remaining s) = true) →
  ∀ x, key_body (take_body s b) = Some x → key_fits (length x + remaining (take_body s b)) = true.
Proof.
  intros Hl Hk x. unfold take_body. cbn. destruct (key_body s) as [y|]; [|done]. cbn. intros [= <-]. rewrite length_app.
  replace (length y + length b + (remaining s - length b))%nat with (length y + remaining s)%nat by lia. by apply Hk.
Qed.

(** The bytes of a body, all there are or all that are missing. *)
Definition body_step (s : KeyScanner) (b : bytes) : KeyScanner * option CancelKey :=
  end_message (take_body s (take (Nat.min (remaining s) (length b)) b)) None.
Lemma body_step_spec s b : length (header s) = 5%nat → done s = false → (∀ x, key_body s = Some x → key_fits (length x + remaining s) = true) →
  let n := Nat.min (remaining s) (length b) in
  scanning (body_step s b).1 ∧ scanned (body_step s b).1 = (scanned s + n)%nat ∧
  (∀ found, end_message (take_body s (take n b)) found = ((body_step s b).1, later found (body_step s b).2)) ∧
  ((0 < remaining s)%nat → feed_bytes s b = ((feed_bytes (body_step s b).1 (drop n b)).1, later (body_step s b).2 (feed_bytes (body_step s b).1 (drop n b)).2)).
Proof.
  intros Hh Hd Hk n. unfold body_step. fold n. assert (length (take n b) = n) as Hn by (rewrite length_take; lia).
  assert (∀ x, key_body (take_body s (take n b)) = Some x → key_fits (length x + remaining (take_body s (take n b))) = true) as Hk'.
  { apply take_body_spec; [lia|done]. }
  destruct (end_message_spec (take_body s (take n b)) None Hh Hk') as (H1 & _ & H3 & H4). split_and!.
  - done.
  - rewrite H3. cbn. lia.
  - intros found. apply (end_message_spec (take_body s (take n b)) found Hh Hk').
  - intros Hr. rewrite <- (take_drop n b) at 1. rewrite feed_bytes_app. destruct (decide (b = [])) as [->|Hb].
    { subst n. rewrite Nat.min_0_r. cbn [take drop feed_bytes foldl fst snd]. rewrite take_body_nil. unfold end_message.
      rewrite (proj2 (Nat.eqb_neq _ _)) by lia. done. }
    rewrite (feed_body s (take n b)); [done|done|done| |lia]. intros Ht. apply Hb. destruct b; [done|]. cbn in Hn. rewrite Ht in Hn. cbn in *. lia.
Qed.

(** A feed in one go is a feed byte by byte, as long as the limit is not met. *)
Lemma feed_is_bytes fuel s b found :
  scanning s → (scanned s + length b ≤ SCAN_LIMIT)%nat → (length b < fuel)%nat →
  feed_loop fuel s b found = Some ((feed_bytes s b).1, later found (feed_bytes s b).2).
Proof.
  revert s b found. induction fuel as [|fuel IH]; intros s b found Hs Hl Hf; [lia|]. cbn [feed_loop].
  destruct (done s) eqn:Hd; [by rewrite feed_bytes_done|]. cbn [orb]. case_bool_decide as Hb; [by subst b|].
  assert (0 < length b)%nat as Hb0 by (destruct b; [done|cbn; lia]). rewrite (proj2 (Nat.leb_gt _ _)) by lia.
  assert (∀ s b found, length (header s) = 5%nat → done s = false → (∀ x, key_body s = Some x → key_fits (length x + remaining s) = true) →
    (scanned s + length b ≤ SCAN_LIMIT)%nat → (length (drop (Nat.min (remaining s) (length b)) b) < fuel)%nat →
    (let '(s', found) := end_message (take_body s (take (Nat.min (remaining s) (length b)) b)) found in
     feed_loop fuel s' (drop (Nat.min (remaining s) (length b)) b) found) =
    Some ((feed_bytes (body_step s b).1 (drop (Nat.min (remaining s) (length b)) b)).1,
          later (later found (body_step s b).2) (feed_bytes (body_step s b).1 (drop (Nat.min (remaining s) (length b)) b)).2)) as Hbody.
  { clear -IH. intros s b found Hh Hd Hk Hl Hf. destruct (body_step_spec s b Hh Hd Hk) as (H1 & H2 & H3 & _). rewrite H3. apply IH; [done| |done].
    rewrite H2, length_drop. lia. }
  destruct Hs as [S1 S2 S3 S4]. destruct (Nat.ltb_spec (length (header s)) 5) as [Hh|Hh].
  - set (n := Nat.min (5 - length (header s)) (length b)). assert (length (take n b) = n) as Hn by (rewrite length_take; lia).
    cbn [take_header header]. rewrite length_app, Hn. destruct (Nat.ltb_spec (length (header s) + n) 5) as [Hp|Hp].
    { assert (n = length b) as Hn' by lia. fold (take_header s (take n b)). rewrite Hn', take_ge by lia. by rewrite feed_header_part by (done || lia). }
    fold (take_header s (take n b)).
    assert (length (header (take_header s (take n b))) = 5)%nat as H5 by (cbn; rewrite length_app, Hn; lia).
    destruct (on_header_spec (take_header s (take n b)) H5 (S3 ltac:(lia)) Hd) as (E1 & E2 & E3).
    assert (feed_bytes s b = ((feed_bytes (header_done (take_header s (take n b))).1 (drop n b)).1,
      later (header_done (take_header s (take n b))).2 (feed_bytes (header_done (take_header s (take n b))).1 (drop n b)).2)) as ->.
    { rewrite <- (take_drop n b) at 1. rewrite feed_bytes_app. by rewrite (feed_header_whole s (take n b)) by (done || lia). }
    unfold header_done. set (s1 := on_header (take_header s (take n b))) in *. destruct (done s1) eqn:Hd1.
    { cbn [fst snd]. rewrite feed_bytes_done by done. by destruct found. }
    specialize (E3 eq_refl). cbn [take_header scanned] in E2. rewrite Hn in E2.
    rewrite Hbody; [|by rewrite E1|done|done|rewrite E2, length_drop; lia|rewrite !length_drop; lia].
    destruct (body_step_spec s1 (drop n b)) as (_ & _ & _ & H4); [by rewrite E1|done|done|].
    destruct (decide (remaining s1 = 0%nat)) as [Hr|Hr].
    + unfold body_step. rewrite Hr. cbn [Nat.min take drop]. rewrite take_body_nil. by rewrite later_assoc.
    + assert (end_message s1 None = (s1, None)) as -> by (unfold end_message; by rewrite (proj2 (Nat.eqb_neq _ _))).
      cbn [fst snd]. rewrite H4 by lia. cbn [fst snd]. rewrite later_assoc. by destruct (later (body_step _ _).2 _).
  - assert (length (header s) = 5)%nat as H5 by lia. rewrite Hbody; [|done|done|done|done|specialize (S2 H5); rewrite length_drop; lia].
    destruct (body_step_spec s b H5 Hd S4) as (_ & _ & _ & H4). rewrite H4 by auto. cbn [fst snd]. by rewrite later_assoc.
Qed.

Lemma feed_byte_scanning s c : scanning s → done (feed_byte s c).1 = false → scanning (feed_byte s c).1.
Proof.
  intros [S1 S2 S3 S4]. unfold feed_byte. destruct (done s) eqn:Hd; [cbn; congruence|]. destruct (Nat.ltb_spec (length (header s)) 5) as [Hh|Hh].
  - cbn [take_header header]. rewrite length_app. cbn [length]. destruct (Nat.ltb_spec (length (header s) + 1) 5) as [Hp|Hp].
    { intros _. cbn [fst]. split; cbn; rewrite ?length_app; cbn [length]; [lia|lia|intros _; apply S3; lia|]. rewrite S3 by lia. done. }
    fold (take_header s [c]). assert (length (header (take_header s [c])) = 5)%nat as H5 by (cbn; rewrite length_app; cbn; lia).
    destruct (on_header_spec (take_header s [c]) H5 (S3 ltac:(lia)) Hd) as (E1 & E2 & E3).
    destruct (done (on_header _)) eqn:Hd1; [cbn [fst]; congruence|]. intros _. apply end_message_spec; [by rewrite E1|by apply E3].
  - assert (length (header s) = 5)%nat as H5 by lia. intros _. apply end_message_spec; [done|]. apply take_body_spec; [cbn; specialize (S2 H5); lia|done].
Qed.
Lemma feed_bytes_scanning s b : scanning s → done (feed_bytes s b).1 = false → scanning (feed_bytes s b).1.
Proof.
  revert s. induction b as [|c b IH]; intros s Hs; [done|]. rewrite feed_bytes_cons. cbn [fst]. intros Hd. apply IH; [|done].
  apply feed_byte_scanning; [done|]. destruct (done (feed_byte s c).1) eqn:E; [|done]. rewrite feed_bytes_done in Hd by done. cbn in Hd. congruence.
Qed.

(** [feed] always ends, before the limit and after it. *)
Lemma feed_total fuel s b found : scanning s → (length b < fuel)%nat →
  ∃ s' f, feed_loop fuel s b found = Some (s', f) ∧ (done s' = true ∨ scanning s').
Proof.
  revert s b found. induction fuel as [|fuel IH]; intros s b found Hs Hf; [lia|]. cbn [feed_loop].
  destruct (done s) eqn:Hd; [by eauto|]. cbn [orb]. case_bool_decide as Hb; [by eauto|]. destruct (_ <=? _)%nat; [exists (finished s), found; auto|].
  assert (0 < length b)%nat as Hb0 by (destruct b; [done|cbn; lia]).
  assert (∀ s b, length (header s) = 5%nat → (∀ x, key_body s = Some x → key_fits (length x + remaining s) = true) →
    (length (drop (Nat.min (remaining s) (length b)) b) < fuel)%nat →
    ∃ s' f, (let '(s', found) := end_message (take_body s (take (Nat.min (remaining s) (length b)) b)) found in
     feed_loop fuel s' (drop (Nat.min (remaining s) (length b)) b) found) = Some (s', f) ∧ (done s' = true ∨ scanning s')) as Hbody.
  { clear -IH. intros s b Hh Hk Hl.
    destruct (end_message_spec (take_body s (take (Nat.min (remaining s) (length b)) b)) found Hh) as (H1 & _).
    { apply take_body_spec; [rewrite length_take; lia|done]. }
    destruct (end_message _ found) as [s' f]. by apply IH. }
  destruct Hs as [S1 S2 S3 S4]. destruct (Nat.ltb_spec (length (header s)) 5) as [Hh|Hh].
  - set (n := Nat.min (5 - length (header s)) (length b)). assert (length (take n b) = n) as Hn by (rewrite length_take; lia).
    cbn [take_header header]. rewrite length_app, Hn. destruct (Nat.ltb_spec (length (header s) + n) 5) as [Hp|Hp].
    { eexists _, _. split; [done|]. right. split; cbn; rewrite ?length_app, ?Hn; [lia|lia|intros _; apply S3; lia|]. by rewrite S3 by lia. }
    fold (take_header s (take n b)). assert (length (header (take_header s (take n b))) = 5)%nat as H5 by (cbn; rewrite length_app, Hn; lia).
    destruct (on_header_spec (take_header s (take n b)) H5 (S3 ltac:(lia)) Hd) as (E1 & _ & E3).
    destruct (done (on_header _)) eqn:Hd1; [by eauto|]. apply Hbody; [by rewrite E1|by apply E3|rewrite !length_drop; lia].
  - assert (length (header s) = 5)%nat as H5 by lia. apply Hbody; [done|done|specialize (S2 H5); rewrite length_drop; lia].
Qed.

(** One feed after another, and the keys they answer with. *)
Fixpoint feed_all (s : KeyScanner) (cs : list bytes) : option (KeyScanner * list CancelKey) :=
  match cs with
  | [] => Some (s, [])
  | b :: cs => '(s, f) ← feed s b; '(s, ks) ← feed_all s cs; Some (s, option_list f ++ ks)
  end.
(** Every key there is, byte by byte. *)
Fixpoint keys_in (s : KeyScanner) (b : bytes) : list CancelKey :=
  match b with [] => [] | c :: b => option_list (feed_byte s c).2 ++ keys_in (feed_byte s c).1 b end.
Lemma keys_in_app s a b : keys_in s (a ++ b) = keys_in s a ++ keys_in (feed_bytes s a).1 b.
Proof. revert s. induction a as [|c a IH]; intros s; [done|]. cbn [app keys_in]. rewrite IH, feed_bytes_cons. cbn [fst]. by rewrite app_assoc. Qed.
Lemma found_last s b : (feed_bytes s b).2 = last (keys_in s b).
Proof.
  revert s. induction b as [|c b IH]; intros s; [done|]. rewrite feed_bytes_cons. cbn [snd keys_in]. rewrite IH, last_app.
  destruct (last (keys_in _ b)); [done|]. by destruct (feed_byte s c).2.
Qed.
Lemma scanning_new : scanning scanner_new.
Proof. by split; cbn; (lia || done). Qed.
Lemma scanned_bytes s b : scanning s → (scanned (feed_bytes s b).1 ≤ scanned s + length b)%nat.
Proof.
  revert s. induction b as [|c b IH]; intros s Hs; [cbn; lia|]. rewrite feed_bytes_cons. cbn [fst length].
  assert (scanned (feed_byte s c).1 ≤ S (scanned s))%nat as H1.
  { unfold feed_byte. destruct (done s); [cbn; lia|]. destruct (_ <? 5)%nat.
    - destruct (_ <? 5)%nat; [cbn; lia|]. assert (scanned (on_header (take_header s [c])) = S (scanned s)) as H.
      { unfold on_header. repeat case_match; cbn; lia. }
      destruct (done (on_header _)); [cbn [fst]; lia|]. unfold end_message. destruct (_ =? 0)%nat; cbn [fst scanned]; lia.
    - unfold end_message. destruct (_ =? 0)%nat; cbn; lia. }
  destruct (done (feed_byte s c).1) eqn:Hd; [rewrite feed_bytes_done by done; cbn [fst]; lia|].
  specialize (IH _ (feed_byte_scanning s c Hs Hd)). lia.
Qed.
Lemma feed_all_done s cs : done s = true → feed_all s cs = Some (s, []).
Proof. intros Hd. induction cs as [|b cs IH]; [done|]. cbn [feed_all]. unfold feed. cbn [feed_loop]. rewrite Hd. cbn [orb mbind option_bind]. by rewrite IH. Qed.
Lemma feed_all_app s a b : feed_all s (a ++ b) = ('(s, ks) ← feed_all s a; '(s, ks') ← feed_all s b; Some (s, ks ++ ks')).
Proof.
  revert s. induction a as [|c a IH]; intros s; cbn [app feed_all mbind option_bind]; [by destruct (feed_all s b) as [[]|]|].
  destruct (feed s c) as [[s1 f]|]; [|done]. cbn [mbind option_bind]. rewrite IH. destruct (feed_all s1 a) as [[s2 ks]|]; [|done]. cbn [mbind option_bind].
  destruct (feed_all s2 b) as [[s3 ks']|]; [|done]. cbn. by rewrite app_assoc.
Qed.
(** However the bytes are cut, what is found is what is in them, when that is one key at most. *)
Lemma feed_all_cut s cs : scanning s ∨ done s = true → (scanned s + length (mjoin cs) ≤ SCAN_LIMIT)%nat → (length (keys_in s (mjoin cs)) ≤ 1)%nat →
  feed_all s cs = Some ((feed_bytes s (mjoin cs)).1, keys_in s (mjoin cs)).
Proof.
  revert s. induction cs as [|b cs IH]; intros s Hs Hl Hk; [done|]. cbn [feed_all]. change (mjoin (b :: cs)) with (b ++ mjoin cs) in *. rewrite length_app in Hl.
  rewrite keys_in_app, feed_bytes_app in *. cbn [fst]. rewrite length_app in Hk.
  destruct (done s) eqn:Hd.
  { assert (keys_in s b = []) as E. { clear -Hd. induction b as [|c b IH]; [done|]. cbn [keys_in]. unfold feed_byte. by rewrite Hd. }
    rewrite E, (feed_bytes_done s b Hd) in *. cbn [fst app length] in *. unfold feed. cbn [feed_loop]. rewrite Hd. cbn [orb mbind option_bind].
    rewrite IH by (auto; lia). done. }
  destruct Hs as [Hs|]; [|done]. unfold feed. rewrite feed_is_bytes by (done || lia). cbn [mbind option_bind].
  pose proof (scanned_bytes s b Hs). rewrite IH; [|destruct (done (feed_bytes s b).1) eqn:Hd1; [by right|left; by apply feed_bytes_scanning]|lia|lia].
  cbn [mbind option_bind]. rewrite found_last. f_equal. f_equal. f_equal.
  destruct (keys_in s b) as [|k [|k' l]]; [done|done|cbn in Hk; lia].
Qed.

(** *** What a server sends *)

Definition message (t : ascii) (body : bytes) : bytes := t :: i32_to_be (4 + Z.of_nat (length body)) ++ body.
Definition key_data (k : CancelKey) : bytes := i32_to_be (pid k) ++ secret k.
(** A message of the startup that is neither the key nor its end. *)
Definition other_message (m : ascii * bytes) : Prop := m.1 ≠ "Z"%char ∧ m.1 ≠ "K"%char ∧ is_i32 (4 + Z.of_nat (length m.2)).

Definition with_header (n : nat) (t : ascii) (len : Z) (k : option bytes) (d : bool) : KeyScanner :=
  {| header := t :: i32_to_be len; remaining := Z.to_nat (len - 4); key_body := k; scanned := n + 5; done := d |}.
Lemma header_result n t len : is_i32 len → 4 ≤ len →
  on_header (take_header (idle n) (t :: i32_to_be len)) =
    if Ascii.eqb t "Z" then with_header n t len None true
    else if Ascii.eqb t "K" then
      if key_fits (Z.to_nat (len - 4)) then with_header n t len (Some []) false else with_header n t len None true
    else with_header n t len None false.
Proof.
  intros Hi Hl. unfold on_header. change (header (take_header (idle n) (t :: i32_to_be len))) with (t :: i32_to_be len).
  assert (i32_of (drop 1 (t :: i32_to_be len)) = len) as -> by (rewrite <- (app_nil_r (i32_to_be len)); by apply i32_round).
  rewrite (proj2 (Z.ltb_ge _ _)) by lia. change (default NUL (hd_error (header _))) with t. unfold with_header.
  destruct (Ascii.eqb t "Z"); [done|]. destruct (Ascii.eqb t "K"); [|done]. by destruct (key_fits _).
Qed.
Lemma header_bytes n t len b : let s := header_done (take_header (idle n) (t :: i32_to_be len)) in
  feed_bytes (idle n) (t :: i32_to_be len ++ b) = ((feed_bytes s.1 b).1, later s.2 (feed_bytes s.1 b).2).
Proof.
  intros s. change (t :: i32_to_be len ++ b) with ((t :: i32_to_be len) ++ b).
  rewrite feed_bytes_app, (feed_header_whole (idle n) (t :: i32_to_be len)); [done|done|cbn; lia|done].
Qed.
Lemma no_end s : remaining s ≠ 0%nat → end_message s None = (s, None).
Proof. intros Hr. unfold end_message. by rewrite (proj2 (Nat.eqb_neq _ _)). Qed.
Lemma body_bytes n t len k b : len = 4 + Z.of_nat (length b) → b ≠ [] →
  feed_bytes (end_message (with_header n t len k false) None).1 b =
    (idle (n + 5 + length b), match k with Some x => ok_key (from_pid_and_secret (x ++ b)) | None => None end).
Proof.
  intros -> Hb. assert (length b ≠ 0%nat) by by destruct b. set (s := with_header n t _ k false).
  assert (remaining s = length b) as Hr by (cbn; lia). rewrite no_end by lia.
  cbn [fst]. rewrite (feed_body s b); [|done|done|done|lia]. unfold end_message. cbn [take_body remaining]. fold s. rewrite Hr, Nat.sub_diag. cbn [Nat.eqb key_body scanned done].
  by destruct k.
Qed.

(** Of a message that is no key and no end, nothing is left but its length. *)
Lemma no_keys s b : (feed_bytes s b).2 = None → keys_in s b = [].
Proof. rewrite found_last. apply last_None. Qed.
Lemma other_bytes n m : other_message m → feed_bytes (idle n) (message m.1 m.2) = (idle (n + length (message m.1 m.2)), None).
Proof.
  destruct m as [t body]. intros (HZ & HK & Hi). cbn [fst snd] in *. unfold message. rewrite header_bytes. unfold header_done.
  rewrite header_result by (done || lia). rewrite (proj2 (Ascii.eqb_neq _ _) HZ), (proj2 (Ascii.eqb_neq _ _) HK). cbn [done with_header].
  assert (n + length (t :: i32_to_be (4 + Z.of_nat (length body)) ++ body) = n + 5 + length body)%nat as ->.
  { cbn [length]. rewrite length_app, length_i32. lia. }
  fold (with_header n t (4 + Z.of_nat (length body)) None false). destruct (decide (body = [])) as [->|Hb].
  { unfold end_message. cbn. by rewrite Nat.add_0_r. }
  rewrite (body_bytes n t _ None body eq_refl Hb). cbn [fst snd later]. unfold end_message. by destruct (_ =? 0)%nat.
Qed.
Lemma key_data_length k : length (key_data k) = (4 + length (secret k))%nat.
Proof. done. Qed.
Lemma key_header k : good_key k → ∀ n,
  header_done (take_header (idle n) ("K"%char :: i32_to_be (4 + Z.of_nat (length (key_data k))))) =
    (with_header n "K" (4 + Z.of_nat (length (key_data k))) (Some []) false, None).
Proof.
  intros [Hp Hs] n. unfold MAX_SECRET_LEN in Hs. unfold header_done.
  rewrite header_result; [|split; rewrite key_data_length; lia|lia]. cbn [Ascii.eqb Bool.eqb].
  assert (key_fits (Z.to_nat (4 + Z.of_nat (length (key_data k)) - 4)) = true) as ->.
  { unfold key_fits, MAX_SECRET_LEN. rewrite key_data_length. apply andb_true_iff. split; apply Nat.leb_le; lia. }
  cbn [done with_header]. apply no_end. unfold with_header. cbn [remaining]. rewrite key_data_length. lia.
Qed.
Lemma key_bytes n k : good_key k →
  feed_bytes (idle n) (message "K" (key_data k)) = (idle (n + length (message "K" (key_data k))), Some k) ∧
  keys_in (idle n) (message "K" (key_data k)) = [k].
Proof.
  intros Hk. set (len := 4 + Z.of_nat (length (key_data k))). set (s := with_header n "K" len (Some []) false).
  assert (header_done (take_header (idle n) ("K"%char :: i32_to_be len)) = (s, None)) as Hh by by apply key_header.
  assert (remaining s = length (key_data k)) as Hr by (unfold s, with_header; cbn [remaining]; lia).
  assert (feed_bytes (idle n) (message "K" (key_data k)) = (idle (n + length (message "K" (key_data k))), Some k)) as Hf.
  { unfold message. fold len. rewrite header_bytes, Hh. cbn [fst snd].
    pose proof (body_bytes n "K" len (Some []) (key_data k) eq_refl ltac:(done)) as Hb. fold s in Hb. rewrite no_end in Hb by (rewrite Hr, key_data_length; lia).
    cbn [fst app] in Hb. rewrite Hb. cbn [fst snd]. unfold key_data at 2. rewrite key_round by done. cbn [ok_key later]. f_equal. unfold idle. f_equal.
    cbn [length]. rewrite length_app, length_i32. lia. }
  split; [exact Hf|]. pose proof (found_last (idle n) (message "K" (key_data k))) as Hlast. rewrite Hf in Hlast. cbn [snd] in Hlast.
  destruct (exists_last (l := key_data k) ltac:(done)) as (d & c & Hd).
  assert (message "K" (key_data k) = ("K"%char :: i32_to_be len ++ d) ++ [c]) as Hm by (unfold message; fold len; by rewrite Hd).
  assert (keys_in (idle n) ("K"%char :: i32_to_be len ++ d) = []) as Hnone.
  { apply no_keys. rewrite header_bytes, Hh. cbn [fst snd]. rewrite (feed_body_part s d); [done|done|done|]. rewrite Hr, Hd, length_app. cbn. lia. }
  rewrite Hm, keys_in_app, Hnone in Hlast |- *. clear -Hlast. cbn [keys_in app] in *. rewrite app_nil_r in *.
  destruct (feed_byte _ c).2 as [k'|]; [|done]. cbn in Hlast. by injection Hlast as ->.
Qed.
Lemma ready_bytes n len b : is_i32 len → 4 ≤ len →
  done (feed_bytes (idle n) ("Z"%char :: i32_to_be len ++ b)).1 = true ∧ (feed_bytes (idle n) ("Z"%char :: i32_to_be len ++ b)).2 = None.
Proof.
  intros Hi Hl. rewrite header_bytes. unfold header_done. rewrite header_result by done. cbn [Ascii.eqb Bool.eqb done with_header fst snd].
  rewrite feed_bytes_done by done. done.
Qed.
Definition messages (ms : list (ascii * bytes)) : bytes := mjoin ((λ m, message m.1 m.2) <$> ms).
Lemma others_bytes n ms : Forall other_message ms → feed_bytes (idle n) (messages ms) = (idle (n + length (messages ms)), None).
Proof.
  intros Hms. revert n. induction Hms as [|m ms Hm _ IH]; intros n; [unfold feed_bytes; cbn; by rewrite Nat.add_0_r|].
  change (messages (m :: ms)) with (message m.1 m.2 ++ messages ms).
  rewrite feed_bytes_app, other_bytes by done. cbn [fst snd]. rewrite IH, length_app, Nat.add_assoc. done.
Qed.

(** C20. The key of a session is found, however its bytes arrive.  Scanning ends on every input; and when a
    server sends messages, its key, messages and [ReadyForQuery], and whatever follows, cut into any
    pieces of together at most 64 KiB, the scanner answers with that key, once, and is done, and no
    later piece makes it answer again. *)
Theorem keys_are_captured :
  (∀ cs, is_Some (feed_all scanner_new cs)) ∧
  ∀ before k after len post cs others,
    Forall other_message before → good_key k → Forall other_message after → is_i32 len → 4 ≤ len →
    mjoin cs = messages before ++ message "K" (key_data k) ++ messages after ++ "Z"%char :: i32_to_be len ++ post →
    (length (mjoin cs) ≤ SCAN_LIMIT)%nat →
    ∃ s, feed_all scanner_new (cs ++ others) = Some (s, [k]) ∧ done s = true.
Proof.
  split.
  { intros cs. assert (done scanner_new = true ∨ scanning scanner_new) as Hs by (right; exact scanning_new). revert Hs. generalize scanner_new.
    induction cs as [|b cs IH]; intros s Hs; [by eexists|]. cbn [feed_all]. destruct Hs as [Hd|Hs].
    - unfold feed. cbn [feed_loop]. rewrite Hd. cbn [orb mbind option_bind]. destruct (IH s (or_introl Hd)) as [[s' ks] ->]. by eexists.
    - destruct (feed_total (S (S (length b))) s b None Hs) as (s' & f & Hf & Hs'); [lia|]. unfold feed. rewrite Hf. cbn [mbind option_bind].
      destruct (IH s' Hs') as [[s2 ks] ->]. by eexists. }
  intros before k after len post cs others Hb Hk Ha Hi Hl Hcs Hlim.
  assert (keys_in scanner_new (mjoin cs) = [k] ∧ done (feed_bytes scanner_new (mjoin cs)).1 = true) as [Hkeys Hdone].
  { change scanner_new with (idle 0). rewrite Hcs, !keys_in_app, !feed_bytes_app, others_bytes by done. cbn [fst snd].
    destruct (key_bytes (0 + length (messages before)) k Hk) as [-> ->]. cbn [fst snd]. rewrite others_bytes by done. cbn [fst snd].
    set (n := (0 + length (messages before) + length (message "K" (key_data k)) + length (messages after))%nat).
    destruct (ready_bytes n len post Hi Hl) as [Hd Hn]. split; [|exact Hd].
    rewrite (no_keys _ _ Hn), !no_keys by by rewrite others_bytes. done. }
  assert (feed_all scanner_new cs = Some ((feed_bytes scanner_new (mjoin cs)).1, [k])) as Hcut.
  { rewrite <- Hkeys. apply feed_all_cut; [left; exact scanning_new|cbn; lia|rewrite Hkeys; cbn; lia]. }
  exists (feed_bytes scanner_new (mjoin cs)).1. split; [|done]. rewrite feed_all_app, Hcut. cbn [mbind option_bind]. by rewrite feed_all_done.
Qed.

(** ** Examples *)

Module WireDemo.
Definition alice : list (bytes * bytes) := [(bytes_of "user", bytes_of "alice"); (bytes_of "database", bytes_of "acme")].
Definition key : CancelKey := {| pid := 4242; secret := bytes_of "abcd" |}.
Lemma alice_clean : Forall clean alice.
Proof. apply (bool_decide_unpack _). vm_compute. exact I. Qed.
Lemma key_good : good_key key.
Proof. split; [split; cbn; lia|]. unfold MAX_SECRET_LEN. cbn. lia. Qed.

Example alice_reads :
  (λ i, (database i, user i, physical_replication i, replication_requested i)) <$>
    match parse_forwarded (frame alice) with Some (Ok i) => Some i | _ => None end = Some ("acme", "alice", false, false).
Proof. vm_compute. reflexivity. Qed.
Lemma forwarded_means_one_thing_witness : ∃ info, parse_forwarded (frame alice) = Some (Ok info) ∧
  ∃ ps, unambiguous ps ∧ frame alice = frame ps ∧ Z.of_nat (length (frame alice)) ≤ 10 * 1024 ∧
    startup_info (list_to_map (text_pair <$> ps)) (frame alice) = Ok info.
Proof.
  pose proof alice_reads as H. destruct (parse_forwarded (frame alice)) as [[info|e]|] eqn:E; [|discriminate H..].
  exists info. split; [reflexivity|]. exact (proj1 (proj2 (forwarded_means_one_thing (frame alice)) info) E).
Defined.

(** In the clear after a request that is declined, without TLS and with it, and under a TLS that does
    not change the bytes. *)
Lemma openings_are_read_witness :
  read_startup 1 None (hello [SSL_REQUEST_CODE] ++ request_packet key ++ []) =
    Some {| outcome := Ok (RCancel key); replied := ["N"%char]; upgraded := false; rest := [] |} ∧
  read_startup 1 (Some Some) (hello [GSS_ENC_REQUEST_CODE] ++ request_packet key ++ []) =
    Some {| outcome := Ok (RCancel key); replied := ["N"%char]; upgraded := false; rest := [] |} ∧
  read_startup 2 (Some Some) (hello [] ++ hello [SSL_REQUEST_CODE] ++ (hello [GSS_ENC_REQUEST_CODE] ++ request_packet key ++ [])) =
    Some {| outcome := Ok (RCancel key); replied := ["S"%char; "N"%char]; upgraded := true; rest := [] |}.
Proof.
  destruct openings_are_read as [_ H]. pose proof (opens_cancel key key_good) as Ho. split; [|split].
  - apply (proj1 (H 1%nat [SSL_REQUEST_CODE] (request_packet key) _ [] Ho ltac:(repeat constructor)) None (or_introl eq_refl)). cbn. lia.
  - apply (proj1 (H 1%nat [GSS_ENC_REQUEST_CODE] (request_packet key) _ [] Ho ltac:(constructor; [by right|constructor])) (Some Some)); [|cbn; lia].
    right. apply (bool_decide_unpack _). exact I.
  - apply (proj2 (H 2%nat [GSS_ENC_REQUEST_CODE] (request_packet key) _ [] Ho ltac:(constructor; [by right|constructor]))
             [] Some (hello [GSS_ENC_REQUEST_CODE] ++ request_packet key ++ []) ltac:(constructor) eq_refl).
    cbn. lia.
Defined.

Definition timeout : bytes := bytes_of "statement_timeout=1".
Example alice_with_timeout : with_default_option (frame alice) timeout =
  Some (Ok (frame (alice ++ [(OPTIONS, bytes_of "-c statement_timeout=1")]))).
Proof. vm_compute. reflexivity. Qed.
Lemma default_option_goes_in_front_witness : ∃ ps, Forall clean ps ∧ frame alice = frame ps ∧
  frame (alice ++ [(OPTIONS, bytes_of "-c statement_timeout=1")]) = frame (in_front (bytes_of "-c " ++ timeout) ps).
Proof.
  assert (Z.of_nat (length (frame alice)) < 2 ^ 63) as Hl by (vm_compute; reflexivity).
  destruct (default_option_goes_in_front timeout (frame alice) Hl) as (_ & H & _).
  destruct (proj1 (H _) alice_with_timeout) as (_ & ps & H1 & _ & H2 & H3 & _). exists ps. exact (conj H1 (conj H2 H3)).
Defined.
(** A packet that the pooler takes, and Postgres would have: with the default in it, it is longer than
    either takes. *)
Lemma default_option_may_be_too_long : ∃ ps, Forall clean ps ∧ Z.of_nat (length (frame ps)) = MAX_STARTUP_PACKET_LEN ∧
  ∀ ours, MAX_STARTUP_PACKET_LEN < Z.of_nat (length (frame (in_front ours ps))).
Proof.
  assert (∀ ps, length (frame ps) = (8 + length (params_bytes ps))%nat) as Hf.
  { intros ps. unfold frame. rewrite (length_app (i32_to_be (4 + _))), (length_i32 (4 + _)), length_app, length_i32. lia. }
  assert (∀ p ps, length (params_bytes (p :: ps)) = (length p.1 + length p.2 + 2 + length (params_bytes ps))%nat) as Hp.
  { intros p ps. rewrite params_cons, length_app. cbn [length]. rewrite length_app. cbn [length]. lia. }
  exists [(bytes_of "user", replicate (N.to_nat 9985) "a"%char)]. split_and!.
  - constructor; [|constructor]. split_and!; [apply (bool_decide_unpack _); vm_compute; exact I| |done]. cbn [snd]. intros Hin%elem_of_replicate. by destruct Hin.
  - rewrite Hf, Hp. cbn [fst snd]. rewrite length_replicate. change (length (params_bytes [])) with 1%nat. change (length (bytes_of "user")) with 4%nat. unfold MAX_STARTUP_PACKET_LEN. lia.
  - intros ours. rewrite Hf. cbn [in_front fst]. rewrite decide_False by done. rewrite !Hp. cbn [fst snd]. rewrite length_replicate. unfold MAX_STARTUP_PACKET_LEN.
    change (length (bytes_of "user")) with 4%nat. change (length OPTIONS) with 7%nat. lia.
Qed.

(** What a server says at the start, in three pieces. *)
Definition greeting : bytes :=
  messages [("R"%char, replicate 4 NUL); ("S"%char, bytes_of "a")] ++ message "K" (key_data key) ++ messages [] ++ "Z"%char :: i32_to_be 5 ++ bytes_of "I".
Definition pieces : list bytes := [take 7 greeting; take 20 (drop 7 greeting); drop 27 greeting].
Lemma keys_are_captured_witness : ∃ s, feed_all scanner_new (pieces ++ [greeting]) = Some (s, [key]) ∧ done s = true.
Proof.
  apply (proj2 keys_are_captured [("R"%char, replicate 4 NUL); ("S"%char, bytes_of "a")] key [] 5 (bytes_of "I") pieces [greeting]).
  - repeat constructor; cbn; congruence || lia.
  - exact key_good.
  - constructor.
  - split; lia.
  - lia.
  - reflexivity.
  - transitivity 100%nat; [apply Nat.leb_le; vm_compute; reflexivity|unfold SCAN_LIMIT; lia].
Defined.
(** A second key before [ReadyForQuery] is a second answer. *)
Example two_keys_are_two_answers : snd <$> feed_all scanner_new [message "K" (key_data key); message "K" (key_data key)] = Some [key; key].
Proof. vm_compute. reflexivity. Qed.
End WireDemo.
