(* ===== verification/PgCancel.v ===== *)
(** * Cancelling a query: the map of [pg-fc/src/cancel.rs]

    A session registers the key its server sent, for as long as it lasts, with the address its bytes
    go to; a [CancelRequest] is relayed to the address its key is registered for.  The state is the
    map and the sessions; a run is any sequence of sessions that open, read from their servers and
    end, in any order. *)
From Stdlib Require Import Ascii String ZArith Lia Bool.
From stdpp Require Import base option list strings gmap.
From S2P Require Import Prelude PgWire.
Open Scope string_scope.
Open Scope list_scope.
Local Open Scope Z_scope.

#[export] Instance CancelKey_countable : Countable CancelKey.
Proof. apply (inj_countable' (λ k, (pid k, secret k)) (λ x, {| pid := x.1; secret := x.2 |})). by intros []. Defined.

(** [CancelTarget], with a [SocketAddr] by its text. *)
Inductive CancelTarget : Type := Addr (addr : string) | Host (host : string) (port : Z).
(** [CancelMap]. *)
Record CancelMap : Type := { inner : gmap CancelKey (Z * CancelTarget); next_id : Z }.
Definition map_new : CancelMap := {| inner := ∅; next_id := 0 |}.
Record Registration : Type := { rg_key : CancelKey; rg_id : Z }.

(** [register]; the counter wraps. *)
Definition register (k : CancelKey) (t : CancelTarget) (m : CancelMap) : Registration * CancelMap :=
  ({| rg_key := k; rg_id := next_id m |},
   {| inner := <[k := (next_id m, t)]> (inner m); next_id := U64.wrapping_add (next_id m) 1 |}).
Definition lookup_target (m : CancelMap) (k : CancelKey) : option CancelTarget := snd <$> inner m !! k.
(** [Registration::drop]. *)
Definition unregister (r : Registration) (m : CancelMap) : CancelMap :=
  match inner m !! rg_key r with
  | Some (i, _) => if i =? rg_id r then {| inner := delete (rg_key r) (inner m); next_id := next_id m |} else m
  | None => m
  end.
Definition unregister_opt (r : option Registration) (m : CancelMap) : CancelMap := match r with Some r => unregister r m | None => m end.

(** [KeyCapture], less the stream it wraps. *)
Record KeyCapture : Type := { kc_scanner : option KeyScanner; kc_target : CancelTarget; kc_registration : option Registration }.
Definition capture_new (t : CancelTarget) : KeyCapture := {| kc_scanner := Some scanner_new; kc_target := t; kc_registration := None |}.

(** [poll_read], when it is ready with [b], which is empty at the end of the stream; the old
    registration is dropped when the new one takes its place.  [None] is running out of fuel. *)
Definition poll_read (c : KeyCapture) (b : bytes) (m : CancelMap) : option (KeyCapture * CancelMap) :=
  match kc_scanner c with
  | None => Some (c, m)
  | Some s =>
    '(s, f) ← feed s b;
    let sc := if done s || bool_decide (b = []) then None else Some s in
    Some match f with
         | Some k =>
           let '(r, m) := register k (kc_target c) m in
           ({| kc_scanner := sc; kc_target := kc_target c; kc_registration := Some r |}, unregister_opt (kc_registration c) m)
         | None => ({| kc_scanner := sc; kc_target := kc_target c; kc_registration := kc_registration c |}, m)
         end
  end.

(** [forward]: what is known of the key, and what is sent where; the connection may fail, and the
    server may not close it in time. *)
Inductive Relayed : Type := Unknown | NotConnected (t : CancelTarget) | Relay (t : CancelTarget) (packet : bytes) (closed : bool).
Definition forward (connects closes : bool) (m : CancelMap) (k : CancelKey) : Relayed :=
  match lookup_target m k with
  | None => Unknown
  | Some t => if connects then Relay t (request_packet k) closes else NotConnected t
  end.
(** What [handle_conn] does with an opening that is a cancel. *)
Definition handle_cancel (connects closes : bool) (o : Opening) (m : CancelMap) : option Relayed :=
  match outcome o with Ok (RCancel k) => Some (forward connects closes m k) | _ => None end.

(** ** Runs *)

(** The sessions that were opened, in their order, and whether they last. *)
Record Sys : Type := { cmap : CancelMap; sessions : list (option KeyCapture) }.
Definition start : Sys := {| cmap := map_new; sessions := [] |}.
Inductive Event : Type := Open_ (t : CancelTarget) | Read (i : nat) (b : bytes) | End_ (i : nat).
Definition capture (i : nat) (st : Sys) : option KeyCapture := c ← sessions st !! i; c.
(** [None] is an event of no session, or running out of fuel. *)
Definition step (e : Event) (st : Sys) : option Sys :=
  match e with
  | Open_ t => Some {| cmap := cmap st; sessions := sessions st ++ [Some (capture_new t)] |}
  | Read i b =>
    c ← capture i st; '(c, m) ← poll_read c b (cmap st);
    Some {| cmap := m; sessions := <[i := Some c]> (sessions st) |}
  | End_ i =>
    c ← capture i st;
    Some {| cmap := unregister_opt (kc_registration c) (cmap st); sessions := <[i := None]> (sessions st) |}
  end.
Fixpoint run (es : list Event) (st : Sys) : option Sys :=
  match es with [] => Some st | e :: es => st ← step e st; run es st end.

(** The key that a session registers by reading [b]. *)
Definition registers (i : nat) (b : bytes) (st : Sys) : option CancelKey :=
  c ← capture i st; s ← kc_scanner c; '(_, f) ← feed s b; f.
(** From here on session [i] does not end and registers nothing else, and no other registers [k]. *)
Definition quiet (i : nat) (k : CancelKey) (e : Event) (st : Sys) : bool :=
  match e with
  | Open_ _ => true
  | Read j b => bool_decide (registers j b st = None) || negb (j =? i)%nat && bool_decide (registers j b st ≠ Some k)
  | End_ j => negb (j =? i)%nat
  end.
Fixpoint undisturbed (i : nat) (k : CancelKey) (es : list Event) (st : Sys) : bool :=
  match es with
  | [] => true
  | e :: es => quiet i k e st && match step e st with Some st => undisturbed i k es st | None => true end
  end.

(** ** Lemmas *)

(** Whose an entry is; the identities that were given out are behind the counter. *)
Record routed (n : Z) (st : Sys) : Prop := {
  r_owner k id t : inner (cmap st) !! k = Some (id, t) →
    ∃ i c, capture i st = Some c ∧ kc_registration c = Some {| rg_key := k; rg_id := id |} ∧ kc_target c = t;
  r_ids i c r : capture i st = Some c → kc_registration c = Some r → 0 ≤ rg_id r < next_id (cmap st);
  r_apart i j c d r r' : capture i st = Some c → capture j st = Some d → kc_registration c = Some r → kc_registration d = Some r' →
    rg_id r = rg_id r' → i = j;
  r_next : 0 ≤ next_id (cmap st) ≤ n;
  r_scanning i c s : capture i st = Some c → kc_scanner c = Some s → done s = true ∨ scanning s;
}.

Lemma capture_set i j c st m : (i < length (sessions st))%nat →
  capture j {| cmap := m; sessions := <[i := c]> (sessions st) |} = if decide (i = j) then c else capture j st.
Proof.
  intros Hi. unfold capture. cbn [sessions]. destruct (decide (i = j)) as [<-|Hne]; [by rewrite list_lookup_insert_eq by done|by rewrite list_lookup_insert_ne by done].
Qed.
Lemma capture_length i c st : capture i st = Some c → (i < length (sessions st))%nat.
Proof. unfold capture. intros (x & Hx & _)%bind_Some. by eapply lookup_lt_Some. Qed.
Lemma capture_open j t st m : capture j {| cmap := m; sessions := sessions st ++ [Some (capture_new t)] |} =
  if decide (j = length (sessions st)) then Some (capture_new t) else capture j st.
Proof.
  unfold capture. cbn [sessions]. destruct (decide (j = length (sessions st))) as [->|Hj]; [by rewrite list_lookup_middle|].
  destruct (decide (j < length (sessions st))%nat) as [Hl|Hl]; [by rewrite lookup_app_l|].
  rewrite !lookup_ge_None_2; [done|lia|rewrite length_app; cbn; lia].
Qed.

Lemma unregister_lookup r m k : inner (unregister r m) !! k =
  match inner m !! k with
  | Some (id, t) => if bool_decide (rg_key r = k) && (id =? rg_id r) then None else Some (id, t)
  | None => None
  end.
Proof.
  unfold unregister. destruct (decide (rg_key r = k)) as [<-|Hk].
  - rewrite bool_decide_eq_true_2 by done. destruct (inner m !! rg_key r) as [[id t]|] eqn:E; [|by rewrite E]. cbn [andb].
    destruct (id =? rg_id r); [cbn; by rewrite lookup_delete_eq|by rewrite E].
  - rewrite bool_decide_eq_false_2 by done. cbn [andb]. destruct (inner m !! rg_key r) as [[id t]|].
    + destruct (id =? rg_id r); [cbn; rewrite lookup_delete_ne by done|]; by destruct (inner m !! k) as [[]|].
    + by destruct (inner m !! k) as [[]|].
Qed.
Lemma unregister_next r m : next_id (unregister_opt r m) = next_id m.
Proof. destruct r as [r|]; [|done]. cbn. unfold unregister. by repeat case_match. Qed.
Lemma unregister_keeps r m k id t : inner (unregister_opt r m) !! k = Some (id, t) → inner m !! k = Some (id, t) ∧ r ≠ Some {| rg_key := k; rg_id := id |}.
Proof.
  destruct r as [r|]; [|done]. cbn [unregister_opt]. rewrite unregister_lookup. destruct (inner m !! k) as [[id' t']|]; [|done].
  destruct (bool_decide_reflect (rg_key r = k)) as [Hk|Hk]; cbn [andb].
  - destruct (Z.eqb_spec id' (rg_id r)) as [->|Hid]; [done|]. intros [= -> ->]. split; [done|]. by intros [= ->].
  - intros [= -> ->]. split; [done|]. by intros [= ->].
Qed.
Lemma unregister_leaves r m k id t : inner m !! k = Some (id, t) → (∀ x, r = Some x → rg_key x = k → rg_id x ≠ id) → inner (unregister_opt r m) !! k = Some (id, t).
Proof.
  intros Hm Hr. destruct r as [r|]; [|done]. cbn [unregister_opt]. rewrite unregister_lookup, Hm.
  destruct (bool_decide_reflect (rg_key r = k)) as [Hk|Hk]; cbn [andb]; [|done]. by rewrite (proj2 (Z.eqb_neq _ _)) by (intros ->; by apply (Hr r)).
Qed.

(** What reading does: it finds nothing, or registers what it found. *)
Lemma read_cases i b st st' c : step (Read i b) st = Some st' → capture i st = Some c →
  (∀ s, kc_scanner c = Some s → done s = true ∨ scanning s) →
  ∃ sc, (∀ s, sc = Some s → done s = true ∨ scanning s) ∧
  match registers i b st with
  | None => st' = {| cmap := cmap st; sessions := <[i := Some {| kc_scanner := sc; kc_target := kc_target c; kc_registration := kc_registration c |}]> (sessions st) |}
  | Some k =>
    let '(r, m) := register k (kc_target c) (cmap st) in
    st' = {| cmap := unregister_opt (kc_registration c) m;
             sessions := <[i := Some {| kc_scanner := sc; kc_target := kc_target c; kc_registration := Some r |}]> (sessions st) |}
  end.
Proof.
  intros Hs Hc Hw. cbn [step] in Hs. unfold registers. rewrite Hc in *. cbn [mbind option_bind] in *. unfold poll_read in Hs.
  destruct (kc_scanner c) as [s|] eqn:Es; cbn [mbind option_bind] in *.
  - destruct (feed s b) as [[s1 f]|] eqn:Ef; [|done]. cbn [mbind option_bind] in *.
    exists (if done s1 || bool_decide (b = []) then None else Some s1). split.
    { intros x. destruct (_ || _); [done|]. intros [= <-]. destruct (Hw s eq_refl) as [Hd|Hsc].
      - left. unfold feed in Ef. cbn [feed_loop] in Ef. rewrite Hd in Ef. cbn in Ef. by injection Ef as <- _.
      - destruct (feed_total (S (S (length b))) s b None Hsc) as (s' & f' & Hf' & Hs'); [lia|]. unfold feed in Ef. rewrite Ef in Hf'. by injection Hf' as -> _. }
    destruct f as [k|]; [|by injection Hs as <-]. cbn in *. by injection Hs as <-.
  - exists None. split; [done|]. injection Hs as <-. destruct c as [sc t r]. cbn in *. by rewrite Es.
Qed.

Lemma routed_step n e st st' : n + 1 < 2 ^ 64 → routed n st → step e st = Some st' → routed (n + 1) st'.
Proof.
  intros Hn [H1 H2 H3 H4 H5] Hs. destruct e as [t|i b|i].
  - injection Hs as <-. split; cbn [cmap].
    + intros k id t' Hk. destruct (H1 _ _ _ Hk) as (i & c & Hc & ? & ?). exists i, c. split; [|done]. rewrite capture_open, decide_False; [done|].
      apply capture_length in Hc. lia.
    + intros i c r. rewrite capture_open. destruct (decide _); [by intros [= <-]|apply H2].
    + intros i j c d r r'. rewrite !capture_open. destruct (decide (i = _)); [by intros [= <-]|]. destruct (decide (j = _)); [by intros _ [= <-]|]. apply H3.
    + lia.
    + intros i c s. rewrite capture_open. destruct (decide _); [intros [= <-] [= <-]; right; exact scanning_new|apply H5].
  - assert (∃ c, capture i st = Some c) as [c Hc] by (cbn [step] in Hs; destruct (capture i st) as [c|]; [by exists c|done]).
    destruct (read_cases i b st st' c Hs Hc (λ s, H5 i c s Hc)) as (sc & Hsc & Hst). pose proof (capture_length _ _ _ Hc) as Hi.
    destruct (registers i b st) as [k|]; cbn in Hst; subst st'.
    + split; cbn [cmap]; rewrite ?unregister_next; cbn [next_id].
      * intros k0 id t [Hin Hne]%unregister_keeps. cbn [inner] in Hin. destruct (decide (k0 = k)) as [->|Hk0].
        { rewrite lookup_insert_eq in Hin. injection Hin as <- <-. eexists i, _. rewrite capture_set, decide_True by done. done. }
        rewrite lookup_insert_ne in Hin by done. destruct (H1 _ _ _ Hin) as (j & d & Hd & Hr & Ht). exists j, d. rewrite capture_set by done.
        rewrite decide_False; [done|]. intros ->. congruence.
      * intros j d r. rewrite capture_set by done. unfold U64.wrapping_add, U64.wrap, U64.modulus. rewrite Z.mod_small by lia.
        destruct (decide (i = j)) as [->|]; [intros [= <-] [= <-]; cbn; lia|]. intros Hd Hr. specialize (H2 _ _ _ Hd Hr). lia.
      * intros j j' d d' r r'. rewrite !capture_set by done. destruct (decide (i = j)) as [<-|], (decide (i = j')) as [<-|]; [done| | |apply H3].
        -- intros [= <-] Hd [= <-] Hr Hid. specialize (H2 _ _ _ Hd Hr). cbn in Hid. lia.
        -- intros Hd [= <-] Hr [= <-] Hid. specialize (H2 _ _ _ Hd Hr). cbn in Hid. lia.
      * unfold U64.wrapping_add, U64.wrap, U64.modulus. rewrite Z.mod_small by lia. lia.
      * intros j d s. rewrite capture_set by done. destruct (decide (i = j)); [intros [= <-]; apply Hsc|apply H5].
    + split; cbn [cmap].
      * intros k id t Hk. destruct (H1 _ _ _ Hk) as (j & d & Hd & Hr & Ht). destruct (decide (i = j)) as [->|Hne].
        -- rewrite Hc in Hd. injection Hd as <-. eexists j, _. rewrite capture_set, decide_True by done. split; [done|]. done.
        -- exists j, d. by rewrite capture_set, decide_False by done.
      * intros j d r. rewrite capture_set by done. destruct (decide (i = j)) as [<-|]; [intros [= <-]; cbn; by apply (H2 i)|apply H2].
      * intros j j' d d' r r'. rewrite !capture_set by done. destruct (decide (i = j)) as [<-|], (decide (i = j')) as [<-|]; [done| | |apply H3].
        -- intros [= <-] Hd. cbn. by apply (H3 i j').
        -- intros Hd [= <-]. cbn. by apply (H3 j i).
      * lia.
      * intros j d s. rewrite capture_set by done. destruct (decide (i = j)); [intros [= <-]; apply Hsc|apply H5].
  - cbn [step] in Hs. apply bind_Some in Hs as (c & Hc & [= <-]). pose proof (capture_length _ _ _ Hc) as Hi.
    split; cbn [cmap]; rewrite ?unregister_next.
    + intros k id t [Hin Hne]%unregister_keeps. destruct (H1 _ _ _ Hin) as (j & d & Hd & Hr & Ht). exists j, d. rewrite capture_set by done.
      rewrite decide_False; [done|]. intros ->. congruence.
    + intros j d r. rewrite capture_set by done. destruct (decide _); [done|apply H2].
    + intros j j' d d' r r'. rewrite !capture_set by done. destruct (decide _); [done|]. destruct (decide _); [done|apply H3].
    + lia.
    + intros j d s. rewrite capture_set by done. destruct (decide _); [done|apply H5].
Qed.
Lemma routed_start : routed 0 start.
Proof. split; try done. Qed.
Lemma routed_run n es st st' : n + Z.of_nat (length es) < 2 ^ 64 → routed n st → run es st = Some st' → routed (n + Z.of_nat (length es)) st'.
Proof.
  revert n st. induction es as [|e es IH]; intros n st Hn Hw Hr; [injection Hr as <-; by rewrite Z.add_0_r|].
  cbn [length] in *. cbn [run] in Hr. apply bind_Some in Hr as (st1 & H1 & H2). replace (n + Z.of_nat (S (length es))) with (n + 1 + Z.of_nat (length es)) by lia.
  apply (IH (n + 1) st1); [lia| |done]. apply (routed_step n e st); [lia|done..].
Qed.

(** A session holds its key: the entry of the map is its own. *)
Definition holds (i : nat) (k : CancelKey) (t : CancelTarget) (st : Sys) : Prop :=
  ∃ c r, capture i st = Some c ∧ kc_registration c = Some r ∧ rg_key r = k ∧ inner (cmap st) !! k = Some (rg_id r, t).
Lemma holds_step n i k t e st st' : routed n st → holds i k t st → step e st = Some st' → quiet i k e st = true → holds i k t st'.
Proof.
  intros [H1 H2 H3 H4 H5] (c & r & Hc & Hr & Hk & Hm) Hs He. destruct e as [t'|j b|j].
  - injection Hs as <-. exists c, r. cbn [cmap]. rewrite capture_open, decide_False; [done|]. apply capture_length in Hc. lia.
  - assert (∃ d, capture j st = Some d) as [d Hd] by (cbn [step] in Hs; destruct (capture j st) as [d|]; [by exists d|done]).
    destruct (read_cases j b st st' d Hs Hd (λ s, H5 j d s Hd)) as (sc & _ & Hst). pose proof (capture_length _ _ _ Hd) as Hj.
    cbn [quiet] in He. destruct (registers j b st) as [k'|]; cbn in Hst; subst st'.
    + apply orb_true_iff in He as [He%bool_decide_eq_true|[Hne%negb_true_iff%Nat.eqb_neq Hkk%bool_decide_eq_true]%andb_true_iff]; [done|].
      exists c, r. rewrite capture_set, decide_False by done. cbn [cmap]. split_and!; try done.
      apply unregister_leaves; [cbn; rewrite lookup_insert_ne by congruence; done|]. intros x Hx Hxk Hid. apply Hne. by apply (H3 j i d c x r).
    + destruct (decide (j = i)) as [->|Hne].
      * rewrite Hc in Hd. injection Hd as <-. eexists _, r. rewrite capture_set, decide_True by done. cbn [cmap]. done.
      * exists c, r. by rewrite capture_set, decide_False by done.
  - cbn [step] in Hs. apply bind_Some in Hs as (d & Hd & [= <-]). pose proof (capture_length _ _ _ Hd) as Hj.
    apply negb_true_iff, Nat.eqb_neq in He. exists c, r. rewrite capture_set, decide_False by done. cbn [cmap]. split_and!; try done.
    apply unregister_leaves; [done|]. intros x Hx Hxk Hid. apply He. by apply (H3 j i d c x r).
Qed.
Lemma holds_run n i k t es st st' : n + Z.of_nat (length es) < 2 ^ 64 → routed n st → holds i k t st → run es st = Some st' → undisturbed i k es st = true → holds i k t st'.
Proof.
  revert n st. induction es as [|e es IH]; intros n st Hn Hw Hh Hr Hu; [by injection Hr as <-|]. cbn [length] in Hn.
  cbn [run] in Hr. apply bind_Some in Hr as (st1 & Hs & Hr). cbn [undisturbed] in Hu. rewrite Hs in Hu. apply andb_true_iff in Hu as [He Hu].
  apply (IH (n + 1) st1); [lia|by apply (routed_step n e st); [lia|..]|by apply (holds_step n i k t e st st1)|done|done].
Qed.
Lemma found_is_good b k : from_pid_and_secret b = Ok k → good_key k.
Proof.
  unfold from_pid_and_secret, good_key, MAX_SECRET_LEN. destruct (_ || _) eqn:E; [done|]. apply orb_false_iff in E as [E1%Nat.ltb_ge E2%Nat.ltb_ge].
  intros [= <-]. cbn [pid secret]. split; [apply i32_range|]. rewrite length_drop. lia.
Qed.

Lemma feed_good fuel s b found s' f : (∀ k, found = Some k → good_key k) → feed_loop fuel s b found = Some (s', f) → ∀ k, f = Some k → good_key k.
Proof.
  revert s b found. induction fuel as [|fuel IH]; intros s b found Hf; [done|]. cbn [feed_loop].
  assert (∀ s b, (let '(s1, found) := end_message (take_body s (take (Nat.min (remaining s) (length b)) b)) found in
    feed_loop fuel s1 (drop (Nat.min (remaining s) (length b)) b) found) = Some (s', f) → ∀ k, f = Some k → good_key k) as Hbody.
  { intros s1 b1. unfold end_message. destruct (_ =? 0)%nat; [|by apply IH]. apply IH. intros k. destruct (key_body _) as [x|]; [|apply Hf].
    destruct (from_pid_and_secret x) as [k'|] eqn:E; [|done]. intros [= <-]. by eapply found_is_good. }
  destruct (_ || _); [by intros [= _ <-]|]. destruct (_ <=? _)%nat; [by intros [= _ <-]|].
  destruct (length (header s) <? 5)%nat; [|apply Hbody]. destruct (_ <? 5)%nat; [by intros [= _ <-]|].
  destruct (done _); [by intros [= _ <-]|]. apply Hbody.
Qed.
Lemma registers_good i b st k : registers i b st = Some k → good_key k.
Proof.
  unfold registers. intros (c & _ & (s & _ & ([s' f] & Hf & ->)%bind_Some)%bind_Some)%bind_Some.
  by apply (feed_good _ _ _ None s' (Some k) ltac:(done) Hf).
Qed.

(** C10. A cancel goes to the session whose key it carries, and nowhere else.  Over any run of sessions that open,
    read and end: where a cancel is sent is the address of a session that lasts and has read that key; and
    from the moment a session reads its key, for as long as it lasts and no other session reads the same,
    a client that sends this key in a [CancelRequest], after any number of requests for encryption, has its very packet
    relayed to the address of that session, whatever older sessions with the key end. *)
Theorem cancels_reach_their_session es st : run es start = Some st → Z.of_nat (length es) < 2 ^ 63 →
  (∀ k t, lookup_target (cmap st) k = Some t →
     ∃ i c r, capture i st = Some c ∧ kc_target c = t ∧ kc_registration c = Some r ∧ rg_key r = k) ∧
  ∀ i b c k es' st1 st', capture i st = Some c → registers i b st = Some k → step (Read i b) st = Some st1 →
    run es' st1 = Some st' → Z.of_nat (length es') < 2 ^ 62 → undisturbed i k es' st1 = true →
    ∀ codes s', Forall declinable codes →
      ∃ o, read_startup (length codes) None (hello codes ++ request_packet k ++ s') = Some o ∧
        ∀ closes, handle_cancel true closes o (cmap st') = Some (Relay (kc_target c) (request_packet k) closes).
Proof.
  intros Hrun Hn. assert (routed (Z.of_nat (length es)) st) as Hw by (apply (routed_run 0 es start); [lia|exact routed_start|done]). split.
  - intros k t. unfold lookup_target. intros ([id t'] & Hk & [= ->])%fmap_Some. destruct Hw as [H1 _ _ _ _].
    destruct (H1 _ _ _ Hk) as (i & c & Hc & Hr & Ht). by exists i, c, {| rg_key := k; rg_id := id |}.
  - intros i b c k es' st1 st' Hc Hreg Hs Hr Hn' Hu codes s' Hcodes.
    assert (routed (Z.of_nat (length es) + 1) st1) as Hw1 by (apply (routed_step _ (Read i b) st); [lia|done|done]).
    assert (holds i k (kc_target c) st1) as Hh.
    { destruct (read_cases i b st st1 c Hs Hc (λ s, r_scanning _ _ Hw i c s Hc)) as (sc & _ & Hst). rewrite Hreg in Hst. cbn in Hst. subst st1.
      eexists _, _. rewrite capture_set, decide_True by (done || by eapply capture_length). split; [done|]. split; [done|]. split; [done|].
      cbn [cmap rg_id]. apply unregister_leaves; [cbn; by rewrite lookup_insert_eq|]. intros x Hx _ Hid.
      pose proof (r_ids _ _ Hw i c x Hc Hx). lia. }
    assert (holds i k (kc_target c) st') as (c' & r & _ & _ & _ & Hm) by (apply (holds_run (Z.of_nat (length es) + 1) i k (kc_target c) es' st1 st'); [lia|done..]).
    eexists. unfold read_startup. rewrite (from_reads _ _ None codes (request_packet k) (Ok (RCancel k)) s'); [split; [reflexivity|]|constructor; by eapply registers_good|done|by left|done|].
    + intros closes. unfold handle_cancel, forward, lookup_target. cbn [saying opened outcome]. by rewrite Hm.
    + rewrite length_app, hello_length. lia.
Qed.

(** ** Examples *)

Module CancelDemo.
Import WireDemo.
(** Two sessions whose servers send the same key; the older one ends. *)
Definition events : list Event := [Open_ (Addr "10.0.0.1:5432"); Open_ (Host "peer" 6432); Read 0 greeting].
Definition later_events : list Event := [Open_ (Addr "10.0.0.3:5432"); Read 2 (bytes_of "N"); End_ 0; Read 2 []].
Definition before : option Sys := run events start.
Definition after (es : list Event) : option Sys := st ← before; st ← step (Read 1 greeting) st; run es st.
Example relayed_to : (λ st, lookup_target (cmap st) key) <$> after later_events = Some (Some (Host "peer" 6432)).
Proof. vm_compute. reflexivity. Qed.
Example unknown_after_the_newer_ends : (λ st, lookup_target (cmap st) key) <$> after [End_ 1] = Some None.
Proof. vm_compute. reflexivity. Qed.

Example checked_run_of_two :
  (st ← before; c ← capture 1 st; k ← registers 1 greeting st; st1 ← step (Read 1 greeting) st; st' ← run later_events st1;
   Some (kc_target c, k, undisturbed 1 k later_events st1)) = Some (Host "peer" 6432, key, true).
Proof. vm_compute. reflexivity. Qed.
Lemma cancels_reach_their_session_witness : ∃ st', after later_events = Some st' ∧
  ∃ o, read_startup 1 None (hello [SSL_REQUEST_CODE] ++ request_packet key ++ []) = Some o ∧
    handle_cancel true true o (cmap st') = Some (Relay (Host "peer" 6432) (request_packet key) true).
Proof.
  pose proof checked_run_of_two as H.
  destruct before as [st|] eqn:E0; cbn [mbind option_bind] in H; [|discriminate H].
  destruct (capture 1 st) as [c|] eqn:E1; cbn [mbind option_bind] in H; [|discriminate H].
  destruct (registers 1 greeting st) as [k|] eqn:E2; cbn [mbind option_bind] in H; [|discriminate H].
  destruct (step (Read 1 greeting) st) as [st1|] eqn:E3; cbn [mbind option_bind] in H; [|discriminate H].
  destruct (run later_events st1) as [st'|] eqn:E4; cbn [mbind option_bind] in H; [|discriminate H].
  injection H as Ht Hk Hu. subst k. exists st'. unfold after. rewrite E0. cbn [mbind option_bind]. rewrite E3. cbn [mbind option_bind]. split; [exact E4|].
  assert (Z.of_nat (length events) < 2 ^ 63) as Hn by (vm_compute; reflexivity).
  assert (Z.of_nat (length later_events) < 2 ^ 62) as Hn' by (vm_compute; reflexivity).
  destruct (proj2 (cancels_reach_their_session events st E0 Hn) 1%nat greeting c key later_events st1 st' E1 E2 E3 E4 Hn' Hu [SSL_REQUEST_CODE] []) as (o & Ho & Hr).
  { constructor; [left; reflexivity|constructor]. }
  exists o. split; [exact Ho|]. rewrite <- Ht. apply Hr.
Defined.
End CancelDemo.
