(* ===== verification/CiPlan.v ===== *)
(** * Job planning: [ci/src/plan.rs]

    The expansion of a job's matrix into combinations, the key and the label of each
    cell, and the topological order of the cells.  JSON values and YAML nodes belong to
    [serde_json] and [serde_yaml]; a [BTreeMap<String, _>] is a [gmap] read in key
    order. *)
From Stdlib Require Import Ascii String ZArith Lia Bool Sorting.Sorted.
From stdpp Require Import base option list strings gmap fin_maps sets finite pretty.
From S2P Require Import Prelude.
Open Scope string_scope.
Open Scope list_scope.

(** The errors; a detail is given without the name interpolated into it. *)
Inductive PlanError : Type :=
| Workflow (detail : string)
| BadMatrix (job detail : string)
| EmptyMatrix (job : string)
| Unsatisfiable (names : list string).

(** [BTreeMap] iteration. *)
Definition bt_list {V} (m : gmap string V) : list (string * V) :=
  sort_by (λ a b, String.compare a.1 b.1) (map_to_list m).

Fixpoint join (sep : string) (l : list string) : string :=
  match l with
  | [] => ""
  | [s] => s
  | s :: l' => s +:+ sep +:+ join sep l'
  end.

Section matrix.
(** [serde_json::Value] and [serde_yaml::Value] with what the code asks of them:
    [json_str] is the [Value::String] case, [json_to_string] is [to_string], [y_value]
    is [serde_json::to_value] and [json_null] is [Value::Null]. *)
Context {V Y : Type} `{!EqDecision V}.
Context (json_str : V → option string) (json_to_string : V → string) (json_null : V).
Context (y_mapping : Y → option (list (Y * Y))) (y_sequence : Y → option (list Y))
  (y_str : Y → option string) (y_value : Y → option V).

Abbreviation Combo := (gmap string V).

Definition yaml_to_json (v : Y) : V := default json_null (y_value v).

Definition yaml_map_to_json (v : Y) : option Combo :=
  m ← y_mapping v;
  Some (foldl (λ acc kv, match y_str kv.1 with
                         | Some k => <[k := yaml_to_json kv.2]> acc
                         | None => acc
                         end) ∅ m).

(** Whether every key [entry] sets that [combo] also has agrees. *)
Definition matches_subset (combo entry : Combo) : bool :=
  forallb (λ kv, negb (is_some (combo !! kv.1)) || bool_decide (combo !! kv.1 = Some kv.2))
    (map_to_list entry).

Record Matrix : Type := {
  axes : list (string * list V);
  include : list Combo;
  exclude : list Combo;
}.

(** The loop over the mapping. *)
Fixpoint read_matrix (job_id : string) (mapping : list (Y * Y)) (acc : Matrix) :
    result PlanError Matrix :=
  match mapping with
  | [] => Ok acc
  | (k, v) :: rest =>
    name <-? ok_or (y_str k) (BadMatrix job_id "a matrix axis name must be a string") ;;
    if String.eqb name "include" || String.eqb name "exclude" then
      s <-? ok_or (y_sequence v) (BadMatrix job_id "must be a list of mappings") ;;
      let entries := omap yaml_map_to_json s in
      read_matrix job_id rest
        (if String.eqb name "include"
         then {| axes := axes acc; include := entries; exclude := exclude acc |}
         else {| axes := axes acc; include := include acc; exclude := entries |})
    else
      items <-? ok_or (y_sequence v) (BadMatrix job_id "matrix axis must be a list of values") ;;
      read_matrix job_id rest
        {| axes := axes acc ++ [(name, yaml_to_json <$> items)];
           include := include acc; exclude := exclude acc |}
  end.

(** The cartesian product, axis by axis. *)
Definition add_axis (combos : list Combo) (name : string) (values : list V) : list Combo :=
  combos ≫= (λ base, (λ v, <[name := v]> base) <$> values).

Fixpoint product (job_id : string) (ax : list (string * list V)) (combos : list Combo) :
    result PlanError (list Combo) :=
  match ax with
  | [] => Ok combos
  | (name, values) :: rest =>
    bail_if (bool_decide (values = [])) (BadMatrix job_id "matrix axis is empty") ;;?
    product job_id rest (add_axis combos name values)
  end.

Definition excluded (ex : list Combo) (c : Combo) : bool := existsb (matches_subset c) ex.

(** One [include] entry: it extends the combinations it matches, or is one itself. *)
Definition add_include (combos : list Combo) (entry : Combo) : list Combo :=
  if existsb (λ c, matches_subset c entry) combos
  then (λ c, if matches_subset c entry then entry ∪ c else c) <$> combos
  else combos ++ [entry].

Definition axis_order (a b : string * list V) : comparison := String.compare a.1 b.1.

(** [matrix] is [job.strategy.matrix]. *)
Definition expand_matrix (job_id : string) (matrix : option Y) : result PlanError (list Combo) :=
  match matrix with
  | None => Ok [∅]
  | Some y =>
    mapping <-? ok_or (y_mapping y)
      (BadMatrix job_id "`strategy.matrix` must be a mapping of axes") ;;
    m <-? read_matrix job_id mapping {| axes := []; include := []; exclude := [] |} ;;
    combos <-? product job_id (sort_by axis_order (axes m)) [∅] ;;
    let kept := List.filter (λ c, negb (excluded (exclude m) c)) combos in
    let all := foldl add_include kept (include m) in
    match all with
    | [] => Err (EmptyMatrix job_id)
    | _ => Ok all
    end
  end.

(** ** Keys and labels *)

Definition key_char (c : ascii) : bool :=
  Str.is_ascii_alphanumeric c || Ascii.eqb c "_" || Ascii.eqb c "-".

Definition sanitize (s : string) : string :=
  Chars.trim_matches "-"
    (Chars.concat ((λ ch, match ch with
                          | String c "" => if key_char c then ch else "-"
                          | _ => "-"
                          end) <$> Chars.chars s)).

Definition display_value (v : V) : string :=
  match json_str v with Some s => s | None => json_to_string v end.

Definition numbered (base_id : string) (n : N) : string := base_id +:+ "-" +:+ pretty n.

(** The loop that numbers a taken key; [None] is fuel exhausted. *)
Fixpoint extend (fuel : nat) (base_id : string) (n : N) (key : string) (used : gset string) :
    option string :=
  if decide (key ∈ used) then
    match fuel with
    | O => None
    | S f => extend f base_id (n + 1) (numbered base_id (n + 1)) used
    end
  else Some key.

Definition unique_key (base_id : string) (matrix : Combo) (index : N) (used : gset string) :
    option (string * gset string) :=
  let candidate :=
    if decide (matrix = ∅) then base_id
    else
      let suffix := List.filter (λ s, negb (String.eqb s ""))
        ((λ kv, sanitize (display_value kv.2)) <$> bt_list matrix) in
      match suffix with
      | [] => base_id
      | _ => base_id +:+ "-" +:+ join "-" suffix
      end in
  let candidate :=
    if (64 <? String.length candidate)%nat || bool_decide (candidate ∈ used)
    then numbered base_id index else candidate in
  key ← extend (S (size used)) base_id index candidate used;
  Some (key, {[key]} ∪ used).

Definition display_label (name : option string) (id : string) (matrix : Combo) : string :=
  let base := default id name in
  if decide (matrix = ∅) then base
  else base +:+ " (" +:+ join ", " ((λ kv, display_value kv.2) <$> bt_list matrix) +:+ ")".

(** ** Cells

    A job and a cell carry many fields that planning copies, substitutes and checks one
    cell at a time (target, VM, steps, environment, timeouts): [JobRest] and [CellRest]
    are those fields, and [finish] is what fills them in or refuses the cell
    ([Job::target], [substitute_matrix] and the [validate_plan] checks).  Everything
    below holds for any such function. *)
Context {JobRest CellRest : Type}.

Record Job : Type := {
  job_name : option string;
  job_matrix : option Y;
  job_needs : list string;
  job_rest : JobRest;
}.

Record JobPlan : Type := {
  key : string;
  base_id : string;
  display : string;
  needs : list string;
  matrix : Combo;
  cell_rest : CellRest;
}.

Context (finish : string → string → Job → Combo → result PlanError CellRest).

Fixpoint cells_of_job (id : string) (job : Job) (index : N) (combos : list Combo)
    (used : gset string) : option (result PlanError (list JobPlan * gset string)) :=
  match combos with
  | [] => Some (Ok ([], used))
  | m :: rest =>
    '(k, used) ← unique_key id m index used;
    match finish id k job m with
    | Err e => Some (Err e)
    | Ok other =>
      r ← cells_of_job id job (index + 1) rest used;
      Some (match r with
            | Err e => Err e
            | Ok (cells, used) =>
              Ok ({| key := k; base_id := id; display := display_label (job_name job) id m;
                     needs := job_needs job; matrix := m; cell_rest := other |} :: cells, used)
            end)
    end
  end.

(** The loops of [Plan::build]: [None] only if a loop ran out of fuel. *)
Fixpoint build_cells (jobs : list (string * Job)) (used : gset string) :
    option (result PlanError (list JobPlan)) :=
  match jobs with
  | [] => Some (Ok [])
  | (id, job) :: rest =>
    match expand_matrix id (job_matrix job) with
    | Err e => Some (Err e)
    | Ok combos =>
      r ← cells_of_job id job 0 combos used;
      match r with
      | Err e => Some (Err e)
      | Ok (cells, used) =>
        r ← build_cells rest used;
        Some (match r with Ok more => Ok (cells ++ more) | Err e => Err e end)
      end
    end
  end.

(** ** Order *)

Definition bases (l : list JobPlan) : gset string := list_to_set (base_id <$> l).
Definition is_ready (done_ : gset string) (j : JobPlan) : bool :=
  forallb (λ n, bool_decide (n ∈ done_)) (needs j).

Definition stuck_names (all_bases : gset string) (remaining : list JobPlan) : list string :=
  let stuck := remaining ≫= (λ j, List.filter (λ n, negb (bool_decide (n ∈ all_bases))) (needs j)) in
  match stuck with [] => key <$> remaining | _ => stuck end.

(** [Vec::remove]; [None] is a panic. *)
Definition remove_at {A} (i : nat) (l : list A) : option (A * list A) :=
  x ← l !! i; Some (x, take i l ++ drop (S i) l).
(** The indices of the jobs that are ready, and the loop that takes them out, the last first. *)
Definition ready_indices (done_ : gset string) (remaining : list JobPlan) : list nat :=
  List.filter (λ i, match remaining !! i with Some j => is_ready done_ j | None => false end) (seq 0 (length remaining)).
Fixpoint take_out {A} (indices : list nat) (remaining wave : list A) : option (list A * list A) :=
  match indices with
  | [] => Some (remaining, wave)
  | i :: indices => '(j, remaining) ← remove_at i remaining; take_out indices remaining (wave ++ [j])
  end.

(** [None] is a panic, or running out of fuel. *)
Fixpoint waves (fuel : nat) (all_bases done_ : gset string) (remaining ordered : list JobPlan) :
    option (result PlanError (list JobPlan)) :=
  match remaining with
  | [] => Some (Ok ordered)
  | _ =>
    match fuel with
    | O => None
    | S f =>
      match ready_indices done_ remaining with
      | [] => Some (Err (Unsatisfiable (stuck_names all_bases remaining)))
      | ready =>
        '(rest, wave) ← take_out (rev ready) remaining [];
        let wave := rev wave in
        waves f all_bases (bases wave ∪ done_) rest (ordered ++ wave)
      end
    end
  end.

Definition topological_order (jobs : list JobPlan) : option (result PlanError (list JobPlan)) :=
  waves (length jobs) (bases jobs) ∅ jobs [].

(** [Plan::build], for the fields modelled. *)
Definition build (jobs : list (string * Job)) : option (result PlanError (list JobPlan)) :=
  r ← build_cells jobs ∅;
  match r with
  | Ok cells => topological_order cells
  | Err e => Some (Err e)
  end.

(** [Plan::cells_of]. *)
Definition cells_of (plan : list JobPlan) (id : string) : list JobPlan :=
  List.filter (λ j, String.eqb (base_id j) id) plan.
End matrix.

(** ** Topological order *)

Section order.
Context {V R : Type}.
Abbreviation Cell := (@JobPlan V R).
Implicit Types (j c : Cell) (l : list Cell).

(** A base id all of whose cells can run after finitely many waves. *)
Inductive schedulable (jobs : list Cell) : string → Prop :=
| sched b :
    (∃ c, c ∈ jobs ∧ base_id c = b) →
    (∀ c n, c ∈ jobs → base_id c = b → n ∈ needs c → schedulable jobs n) →
    schedulable jobs b.

(** The cells of a matrix are copies of one job. *)
Definition same_needs (jobs : list Cell) : Prop :=
  ∀ c1 c2, c1 ∈ jobs → c2 ∈ jobs → base_id c1 = base_id c2 → needs c1 = needs c2.

(** Every cell comes after all the cells of every job it needs. *)
Definition respects_needs (ordered : list Cell) : Prop :=
  ∀ l1 j l2, ordered = l1 ++ j :: l2 → ∀ n, n ∈ needs j →
    (∃ c, c ∈ l1 ∧ base_id c = n) ∧ ∀ c, c ∈ j :: l2 → base_id c ≠ n.

Lemma elem_of_bases l b : b ∈ bases l ↔ ∃ c, c ∈ l ∧ base_id c = b.
Proof.
  unfold bases. rewrite elem_of_list_to_set, list_elem_of_fmap. naive_solver.
Qed.

Lemma is_ready_spec d j : is_ready d j = true ↔ ∀ n, n ∈ needs j → n ∈ d.
Proof.
  unfold is_ready. rewrite forallb_forall. setoid_rewrite <- list_elem_of_In.
  by setoid_rewrite bool_decide_eq_true.
Qed.

(** Taking out the elements at the indices that satisfy a test leaves the others. *)
Lemma seq_filter_S {A} (f : A → bool) (x : A) (l : list A) :
  List.filter (λ i, match (x :: l) !! i with Some j => f j | None => false end) (seq 1 (length l)) =
  S <$> List.filter (λ i, match l !! i with Some j => f j | None => false end) (seq 0 (length l)).
Proof.
  rewrite <- fmap_S_seq. induction (seq 0 (length l)) as [|i ix IH]; [done|]. cbn [fmap list_fmap List.filter].
  change ((x :: l) !! S i) with (l !! i). destruct (l !! i) as [y|]; [destruct (f y)|]; cbn; by rewrite <- IH.
Qed.
Lemma take_out_S {A} (x : A) ix (l w : list A) : take_out (S <$> ix) (x :: l) w =
  (λ p, (x :: p.1, p.2)) <$> take_out ix l w.
Proof.
  revert l w. induction ix as [|i ix IH]; intros l w; [done|]. cbn [fmap list_fmap take_out]. unfold remove_at.
  change ((x :: l) !! S i) with (l !! i). destruct (l !! i) as [y|]; [|done]. cbn [mbind option_bind take drop app]. apply IH.
Qed.
Lemma take_out_app {A} ix ix' (l w : list A) : take_out (ix ++ ix') l w = '(l, w) ← take_out ix l w; take_out ix' l w.
Proof.
  revert l w. induction ix as [|i ix IH]; intros l w; [done|]. cbn [app take_out]. unfold remove_at.
  destruct (l !! i) as [y|]; [|done]. cbn [mbind option_bind]. apply IH.
Qed.
Lemma take_out_filter {A} (f : A → bool) (l w : list A) :
  take_out (rev (List.filter (λ i, match l !! i with Some j => f j | None => false end) (seq 0 (length l)))) l w =
  Some (List.filter (negb ∘ f) l, w ++ rev (List.filter f l)).
Proof.
  revert w. induction l as [|x l IH]; intros w; [cbn; by rewrite app_nil_r|].
  cbn [length seq List.filter]. rewrite seq_filter_S. change ((x :: l) !! 0%nat) with (Some x). cbn [compose].
  destruct (f x); cbn [negb].
  - cbn [rev]. rewrite take_out_app, Trim.rev_fmap, take_out_S, IH. cbn. by rewrite <- (assoc_L (++)).
  - by rewrite Trim.rev_fmap, take_out_S, IH.
Qed.
Lemma ready_indices_none d l : ready_indices d l = [] → ∀ c, c ∈ l → is_ready d c = false.
Proof.
  intros H c (i & Hi)%list_elem_of_lookup. destruct (is_ready d c) eqn:E; [|done].
  assert (i ∈ ready_indices d l) as Hin.
  { unfold ready_indices. apply list_elem_of_In, filter_In. rewrite Hi. split; [|done].
    apply in_seq. apply lookup_lt_Some in Hi. lia. }
  rewrite H in Hin. by apply not_elem_of_nil in Hin.
Qed.

Lemma partition_perm {A} (f : A → bool) (l : list A) : List.filter f l ++ List.filter (negb ∘ f) l ≡ₚ l.
Proof.
  induction l as [|x l IH]; simpl; [done|]. destruct (f x); simpl; [by rewrite IH|].
  by rewrite <- Permutation_middle, IH.
Qed.

(** The cells that need the same, as they come. *)
Definition needing (ns : list string) (l : list Cell) : list Cell := List.filter (λ c, bool_decide (needs c = ns)) l.

Lemma needing_app ns l l' : needing ns (l ++ l') = needing ns l ++ needing ns l'.
Proof. apply List.filter_app. Qed.
Lemma needing_all (f : Cell → bool) ns l : (∀ c, needs c = ns → f c = true) → needing ns (List.filter f l) = needing ns l.
Proof.
  intros Hf. induction l as [|c l IH]; [done|]. unfold needing in *. cbn. destruct (bool_decide_reflect (needs c = ns)) as [Hc|Hc].
  - rewrite Hf by done. cbn. by rewrite bool_decide_eq_true_2, IH.
  - destruct (f c); cbn; [by rewrite bool_decide_eq_false_2|done].
Qed.
Lemma needing_none (f : Cell → bool) ns l : (∀ c, needs c = ns → f c = false) → needing ns (List.filter f l) = [].
Proof.
  intros Hf. induction l as [|c l IH]; [done|]. unfold needing in *. cbn. destruct (f c) eqn:Ec; [|done]. cbn.
  rewrite bool_decide_eq_false_2; [done|]. intros Hc. by rewrite Hf in Ec.
Qed.
(** They are ready together, so a wave takes them in their order. *)
Lemma needing_wave d ns l : needing ns (List.filter (is_ready d) l ++ List.filter (negb ∘ is_ready d) l) = needing ns l.
Proof.
  assert (∀ c, needs c = ns → is_ready d c = forallb (λ n, bool_decide (n ∈ d)) ns) as Hr by (by intros c <-).
  rewrite needing_app. destruct (forallb _ ns).
  - rewrite needing_all, needing_none; [by rewrite app_nil_r| |done]. intros c Hc. cbn. by rewrite Hr.
  - rewrite needing_none, needing_all; [done| |done]. intros c Hc. cbn. by rewrite Hr.
Qed.

(** The state of the loop. *)
Record loop_ok (jobs : list Cell) (d : gset string) (remaining ordered : list Cell) : Prop := {
  lo_perm : ordered ++ remaining ≡ₚ jobs;
  lo_done : d = bases ordered;
  lo_fresh : ∀ c, c ∈ remaining → base_id c ∉ d;
  lo_respects : respects_needs ordered;
  lo_sched : ∀ c, c ∈ ordered → schedulable jobs (base_id c);
  lo_stable : ∀ ns, needing ns (ordered ++ remaining) = needing ns jobs;
}.

Lemma wave_ok jobs d remaining ordered :
  same_needs jobs → loop_ok jobs d remaining ordered →
  let ready := List.filter (is_ready d) remaining in
  loop_ok jobs (bases ready ∪ d) (List.filter (negb ∘ is_ready d) remaining) (ordered ++ ready).
Proof.
  intros Hsame [] ready.
  assert (∀ c, c ∈ ready ↔ c ∈ remaining ∧ ∀ n, n ∈ needs c → n ∈ d) as Hready.
  { intros c. unfold ready. rewrite list_elem_of_In, filter_In, <- list_elem_of_In.
    by rewrite is_ready_spec. }
  assert (∀ c, c ∈ ordered ∨ c ∈ remaining → c ∈ jobs) as Hin.
  { intros c. rewrite <- lo_perm0. set_solver. }
  split.
  - rewrite <- (assoc_L (++)). unfold ready. by rewrite partition_perm.
  - unfold bases in *. rewrite fmap_app, list_to_set_app_L. set_solver.
  - intros c [Hc Hn]%list_elem_of_In%filter_In. apply list_elem_of_In in Hc.
    rewrite elem_of_union, elem_of_bases. intros [(r & [Hr Hneeds]%Hready & E)|Hd].
    + rewrite (Hsame r c) in Hneeds by auto. simpl in Hn. apply negb_true_iff in Hn.
      by rewrite (proj2 (is_ready_spec d c) Hneeds) in Hn.
    + by eapply lo_fresh0.
  - intros l1 j l2 E n Hn.
    assert (∀ c, c ∈ l1 ++ j :: l2 → c ∈ ordered ∨ c ∈ ready) as Hor by (intros c; rewrite <- E; set_solver).
    apply app_eq_inv in E as [(l & -> & El)|(l & -> & El)].
    + destruct l as [|x l]; [|injection El as <- ->].
      * (* the first of the wave *)
        simpl in El. rewrite app_nil_r in *.
        assert (j ∈ ready) as [Hj Hneeds]%Hready by (rewrite <- El; constructor).
        pose proof (Hneeds n Hn) as Hd. rewrite lo_done0 in Hd. apply elem_of_bases in Hd as Hd'.
        split; [done|]. intros c Hc <-. apply (lo_fresh0 c); [|by rewrite lo_done0].
        rewrite <- El in Hready. by apply Hready.
      * destruct (lo_respects0 _ _ _ eq_refl n Hn) as [Hex Hafter]. split; [done|].
        intros c Hc. rewrite app_comm_cons, elem_of_app in Hc. destruct Hc as [Hc|Hc]; [auto|].
        intros <-. destruct Hex as (c' & Hc' & E'). apply Hready in Hc as [Hc _].
        apply (lo_fresh0 c Hc). rewrite lo_done0. apply elem_of_bases. exists c'. set_solver.
    + assert (j ∈ ready) as [Hj Hneeds]%Hready by (rewrite El; set_solver).
      pose proof (Hneeds n Hn) as Hd. rewrite lo_done0 in Hd. apply elem_of_bases in Hd as (c' & Hc' & E').
      split; [exists c'; set_solver|]. intros c Hc <-.
      apply (lo_fresh0 c); [apply Hready; rewrite El; set_solver|].
      rewrite lo_done0. apply elem_of_bases. eauto.
  - intros c. rewrite elem_of_app. intros [Hc|[Hc Hneeds]%Hready]; [auto|].
    constructor; [by exists c; auto|]. intros c2 n Hc2 E Hn.
    rewrite (Hsame c2 c) in Hn by auto. apply Hneeds in Hn. rewrite lo_done0 in Hn.
    apply elem_of_bases in Hn as (x & Hx & <-). auto.
  - intros ns. rewrite <- lo_stable0, <- (assoc_L (++)), !(needing_app ns ordered). f_equal. apply needing_wave.
Qed.

Lemma stuck_unschedulable jobs d remaining ordered b :
  loop_ok jobs d remaining ordered → (∀ c, c ∈ remaining → is_ready d c = false) →
  schedulable jobs b → b ∉ base_id <$> remaining.
Proof.
  intros [] Hstuck. induction 1 as [b _ Hs IH]. intros (c & -> & Hc)%list_elem_of_fmap.
  pose proof (Hstuck c Hc) as Hr. apply not_true_iff_false in Hr. apply Hr.
  assert (∀ x, x ∈ ordered ∨ x ∈ remaining → x ∈ jobs) as Hin.
  { intros x. rewrite <- lo_perm0. set_solver. }
  apply is_ready_spec. intros n Hn. destruct (decide (n ∈ d)) as [|Hnd]; [done|]. exfalso.
  apply (IH c n); auto.
  destruct (Hs c n) as [n (x & Hx & <-) _]; auto.
  rewrite <- lo_perm0, elem_of_app in Hx. destruct Hx as [Hx|Hx]; [|by apply list_elem_of_fmap_2].
  destruct Hnd. rewrite lo_done0. apply elem_of_bases. eauto.
Qed.

(** A job waits for another. *)
Definition waits (jobs : list Cell) (a b : string) : Prop := ∃ c, c ∈ jobs ∧ base_id c = a ∧ b ∈ needs c.
(** The needs of a list of jobs that no job has. *)
Definition missing (jobs l : list Cell) : list string :=
  l ≫= (λ c, List.filter (λ n, negb (bool_decide (n ∈ bases jobs))) (needs c)).
(** Why no order was found: [stuck] are the jobs that can never start, and the names are the missing
    needs among theirs, or else their own, and jobs wait for each other in a circle. *)
Definition unsatisfiable (jobs : list Cell) (names : list string) : Prop :=
  ∃ stuck, stuck ≠ [] ∧ (∀ c, c ∈ stuck ↔ c ∈ jobs ∧ ¬ schedulable jobs (base_id c)) ∧
    ((missing jobs stuck ≠ [] ∧ names = missing jobs stuck) ∨
     (missing jobs stuck = [] ∧ names = key <$> stuck ∧ ∃ b, b ∈ base_id <$> stuck ∧ tc (waits jobs) b b)).

(** From where every one has a successor there is a way as long as one likes, and so a circle. *)
Lemma long_way {A} (P : relation A) (bs : list A) (n : nat) x :
  (∀ x, x ∈ bs → ∃ y, y ∈ bs ∧ P x y) → x ∈ bs →
  ∃ l : list A, length l = n ∧ l ⊆ bs ∧ Forall (tc P x) l ∧ StronglySorted (tc P) l.
Proof.
  intros Hs. revert x. induction n as [|n IH]; intros x Hx.
  { exists []. split_and!; [done|set_solver|done|constructor]. }
  destruct (Hs x Hx) as (y & Hy & Hxy). destruct (IH y Hy) as (l & Hl & Hin & Hf & Hso). exists (y :: l). split_and!.
  - by cbn; rewrite Hl.
  - set_solver.
  - constructor; [by apply tc_once|]. eapply Forall_impl; [exact Hf|]. intros z Hz. by eapply tc_l.
  - by constructor.
Qed.
Lemma circle {A} (P : relation A) (bs : list A) :
  (∀ x, x ∈ bs → ∃ y, y ∈ bs ∧ P x y) → bs ≠ [] → ∃ x, x ∈ bs ∧ tc P x x.
Proof.
  intros Hs Hne. destruct bs as [|x0 bs0]; [done|]. set (bs := x0 :: bs0) in *.
  destruct (long_way P bs (S (length bs)) x0 Hs) as (l & Hl & Hin & _ & Hso); [by constructor|].
  destruct (list_pigeonhole l bs Hin) as (i & j & x & Hij & Hi & Hj); [lia|]. exists x.
  split; [apply Hin; by eapply list_elem_of_lookup_2|].
  apply list_elem_of_split_length in Hi as (l1 & l2 & -> & Hl1). clear -Hso Hj Hij Hl1.
  rewrite lookup_app_r in Hj by lia. destruct (j - length l1)%nat as [|k] eqn:Ek; [lia|]. cbn in Hj.
  clear i Hl1 Hij Ek. induction l1 as [|y l1 IH].
  - inversion Hso as [|? ? _ Hf]; subst. rewrite Forall_forall in Hf. apply Hf. by eapply list_elem_of_lookup_2.
  - inversion Hso; subst. by apply IH.
Qed.

(** What is left when nothing is ready. *)
Lemma stuck_unsatisfiable jobs d remaining ordered :
  same_needs jobs → loop_ok jobs d remaining ordered → (∀ c, c ∈ remaining → is_ready d c = false) → remaining ≠ [] →
  unsatisfiable jobs (stuck_names (bases jobs) remaining).
Proof.
  intros Hsame Hok Hstuck Hne. exists remaining. split; [exact Hne|].
  assert (∀ x, x ∈ ordered ∨ x ∈ remaining → x ∈ jobs) as Hin.
  { intros x. rewrite <- (lo_perm _ _ _ _ Hok). set_solver. }
  split.
  { intros c. split.
    - intros Hc. split; [auto|]. intros Hs. by eapply (stuck_unschedulable _ _ _ _ _ Hok Hstuck Hs), list_elem_of_fmap_2.
    - intros [Hc Hn]. rewrite <- (lo_perm _ _ _ _ Hok), elem_of_app in Hc. destruct Hc as [Hc|]; [|done].
      destruct Hn. by apply (lo_sched _ _ _ _ Hok). }
  unfold stuck_names. fold (missing jobs remaining).
  destruct (missing jobs remaining) as [|n ns] eqn:Em; [right|left; by split].
  split; [done|]. split; [done|]. apply circle; [|by destruct remaining].
  intros b (c & -> & Hc)%list_elem_of_fmap. pose proof (Hstuck c Hc) as Hr.
  unfold is_ready in Hr. apply not_true_iff_false in Hr. rewrite forallb_forall in Hr.
  assert (Exists (λ n, n ∉ d) (needs c)) as (n & Hn & Hd)%Exists_exists.
  { apply not_Forall_Exists; [intros n; apply _|]. rewrite Forall_forall. intros Hall. apply Hr. intros n Hn%list_elem_of_In.
    apply bool_decide_eq_true. by apply Hall. }
  exists n. split; [|by exists c; auto].
  assert (n ∈ bases jobs) as (x & Hx & <-)%elem_of_bases.
  { apply dec_stable. intros Hnb. assert (n ∈ missing jobs remaining) as Hm; [|by rewrite Em in Hm; apply not_elem_of_nil in Hm].
    unfold missing. apply list_elem_of_bind. exists c. split; [|done]. apply list_elem_of_In, filter_In.
    split; [by apply list_elem_of_In|]. by rewrite bool_decide_eq_false_2. }
  rewrite <- (lo_perm _ _ _ _ Hok), elem_of_app in Hx. destruct Hx as [Hx|Hx]; [|by apply list_elem_of_fmap_2].
  destruct Hd. rewrite (lo_done _ _ _ _ Hok). apply elem_of_bases. eauto.
Qed.

Lemma waves_spec jobs fuel d remaining ordered :
  same_needs jobs → loop_ok jobs d remaining ordered → (length remaining <= fuel)%nat →
  match waves fuel (bases jobs) d remaining ordered with
  | Some (Ok result) => loop_ok jobs (bases result) [] result
  | Some (Err (Unsatisfiable names)) => unsatisfiable jobs names
  | _ => False
  end.
Proof.
  intros Hsame. revert d remaining ordered.
  induction fuel as [|fuel IH]; intros d remaining ordered Hok Hlen.
  { destruct remaining; [|simpl in Hlen; lia]. simpl. by rewrite (lo_done _ _ _ _ Hok) in Hok. }
  destruct remaining as [|c0 remaining]; [simpl; by rewrite (lo_done _ _ _ _ Hok) in Hok|].
  set (rem := c0 :: remaining) in *. cbn [waves]. fold rem.
  change (match rem with [] => _ | _ => ?x end) with x.
  pose proof (wave_ok jobs d rem ordered Hsame Hok) as Hnext. cbv zeta in Hnext.
  destruct (ready_indices d rem) as [|i ix] eqn:Ei.
  { eapply stuck_unsatisfiable; [done|exact Hok|by apply ready_indices_none|done]. }
  assert (rev (i :: ix) = rev (ready_indices d rem)) as -> by by rewrite Ei.
  unfold ready_indices. rewrite take_out_filter. cbn [mbind option_bind app]. rewrite rev_involutive.
  apply IH; [exact Hnext|].
  assert (length (List.filter (is_ready d) rem) + length (List.filter (negb ∘ is_ready d) rem) = length rem)%nat as Hl
    by by rewrite <- length_app, partition_perm.
  assert (List.filter (is_ready d) rem ≠ []) as Hr.
  { intros E. assert (i ∈ ready_indices d rem) as Hi by (rewrite Ei; constructor).
    unfold ready_indices in Hi. apply list_elem_of_In, filter_In in Hi as [_ Hi]. destruct (rem !! i) as [c|] eqn:Ec; [|done].
    assert (c ∈ List.filter (is_ready d) rem) as Hc; [|by rewrite E in Hc; apply not_elem_of_nil in Hc].
    apply list_elem_of_In, filter_In. split; [|done]. apply list_elem_of_In. by eapply list_elem_of_lookup_2. }
  destruct (List.filter (is_ready d) rem) as [|r ready]; [done|]. clearbody rem.
  change (length (r :: ready)) with (S (length ready)) in Hl. clear -Hl Hlen. lia.
Qed.

Lemma loop_ok_start jobs : loop_ok jobs ∅ jobs [].
Proof.
  split.
  - done.
  - done.
  - intros c _. apply not_elem_of_empty.
  - by intros [|].
  - by intros c ?%not_elem_of_nil.
  - done.
Qed.

(** C37. Job order is exact.  For cells whose base ids determine their needs, as those of [build] are,
    [topological_order] ends and no removal of it panics; it succeeds when every job is schedulable, and
    then returns the same cells, each after all the cells of every job it needs, and those that need the
    same in the order they came in, as the cells of one job do.  Otherwise it names the
    needs of the jobs that can never start which no job provides; or, when there is none, all these
    jobs, and jobs among them wait for each other in a circle. *)
Theorem topological_order_correct jobs :
  same_needs jobs →
  match topological_order jobs with
  | Some (Ok ordered) =>
    ordered ≡ₚ jobs ∧ respects_needs ordered ∧ (∀ ns, needing ns ordered = needing ns jobs) ∧
    ∀ c, c ∈ jobs → schedulable jobs (base_id c)
  | Some (Err (Unsatisfiable names)) => unsatisfiable jobs names
  | _ => False
  end.
Proof.
  intros Hsame. unfold topological_order.
  pose proof (waves_spec jobs (length jobs) ∅ jobs [] Hsame (loop_ok_start jobs) (le_n _)) as Hw.
  destruct (waves _ _ _ _ _) as [[ordered|[]]|]; try exact Hw.
  destruct Hw as [Hp _ _ Hr Hs Ht]. rewrite app_nil_r in Hp. setoid_rewrite app_nil_r in Ht.
  split; [exact Hp|split; [exact Hr|split; [exact Ht|]]].
  intros c Hc. apply Hs. by rewrite Hp.
Qed.
End order.

(** ** Unique keys *)

Section keys.
Context {V Y J R : Type} `{!EqDecision V}.
Context (json_str : V → option string) (json_to_string : V → string) (json_null : V).
Context (y_mapping : Y → option (list (Y * Y))) (y_sequence : Y → option (list Y))
  (y_str : Y → option string) (y_value : Y → option V).
Context (finish : string → string → @Job Y J → gmap string V → result PlanError R).

Lemma string_app_inj (a b c : string) : a +:+ b = a +:+ c → b = c.
Proof. induction a as [|x a IH]; [done|]. intros [= H]. auto. Qed.

Lemma numbered_inj b n m : numbered b n = numbered b m → n = m.
Proof.
  unfold numbered. intros H%string_app_inj%string_app_inj. by apply (inj pretty) in H.
Qed.

Lemma extend_ok fuel b n k used :
  match extend fuel b n k used with
  | Some k' => k' ∉ used ∧ (k' = k ∨ ∃ m, k' = numbered b m)
  | None => ∀ i, (1 <= i <= fuel)%nat → numbered b (n + N.of_nat i) ∈ used
  end.
Proof.
  revert n k. induction fuel as [|f IH]; intros n k; simpl; case_decide as Hk;
    [intros i ?; lia|split; auto| |split; auto].
  specialize (IH (n + 1)%N (numbered b (n + 1))).
  destruct (extend f b (n + 1) (numbered b (n + 1)) used) as [k'|] eqn:E.
  - destruct IH as [? [->|?]]; eauto.
  - intros i Hi. destruct (decide (i = 1%nat)) as [->|Hne].
    + (* the number tried first is taken, or the search stopped there *)
      change (N.of_nat 1) with 1%N. destruct f; simpl in E; by case_decide.
    + specialize (IH (i - 1)%nat ltac:(lia)).
      by replace (n + N.of_nat i)%N with (n + 1 + N.of_nat (i - 1))%N by lia.
Qed.

(** There is always a free number among the first [size used + 1]. *)
Lemma extend_total b n k used : is_Some (extend (S (size used)) b n k used).
Proof.
  pose proof (extend_ok (S (size used)) b n k used) as Hn.
  destruct (extend _ _ _ _ _) as [k'|]; [by eexists|exfalso].
  set (l := (λ i, numbered b (n + N.of_nat i)) <$> seq 1 (S (size used))).
  assert (NoDup l) as Hnd.
  { apply NoDup_fmap_2; [|apply NoDup_seq]. intros i i' H%numbered_inj. lia. }
  assert ((list_to_set l : gset string) ⊆ used) as Hsub.
  { intros x. rewrite elem_of_list_to_set. intros (i & -> & Hi)%list_elem_of_fmap.
    apply elem_of_seq in Hi. apply Hn. lia. }
  apply subseteq_size in Hsub. rewrite size_list_to_set in Hsub by done.
  unfold l in Hsub. rewrite length_fmap, length_seq in Hsub. lia.
Qed.

Lemma unique_key_ok b (m : gmap string V) i used :
  ∃ k, unique_key json_str json_to_string b m i used = Some (k, {[k]} ∪ used) ∧ k ∉ used.
Proof.
  unfold unique_key. set (c := if (_ || _)%bool then _ else _).
  destruct (extend_total b i c used) as [k Hk]. exists k. rewrite Hk. split; [done|].
  pose proof (extend_ok (S (size used)) b i c used) as H. rewrite Hk in H. apply H.
Qed.

Abbreviation cells_of_job' := (cells_of_job json_str json_to_string finish).
Abbreviation expand := (expand_matrix json_null y_mapping y_sequence y_str y_value).
Abbreviation build_cells' := (build_cells json_str json_to_string json_null y_mapping
  y_sequence y_str y_value finish).
Abbreviation build' := (build json_str json_to_string json_null y_mapping y_sequence y_str
  y_value finish).

Definition keys_of (l : list (@JobPlan V R)) : gset string := list_to_set (key <$> l).

Lemma cells_of_job_ok id job combos i used :
  ∃ r, cells_of_job' id job i combos used = Some r ∧
  match r with
  | Err _ => True
  | Ok (cells, used') =>
    used' = keys_of cells ∪ used ∧
    NoDup (key <$> cells) ∧ (∀ c, c ∈ cells → key c ∉ used) ∧
    (∀ c, c ∈ cells → base_id c = id ∧ needs c = job_needs job) ∧
    matrix <$> cells = combos
  end.
Proof.
  revert i used. induction combos as [|m combos IH]; intros i used; simpl.
  { eexists. split; [done|]. unfold keys_of. simpl. rewrite (left_id_L ∅ (∪)).
    split_and!; try done; try (by intros c ?%not_elem_of_nil). apply NoDup_nil_2. }
  destruct (unique_key_ok id m i used) as (k & -> & Hk). simpl.
  destruct (finish id k job m) as [o|e]; [|by eexists].
  destruct (IH (i + 1)%N ({[k]} ∪ used)) as ([[cells used']|e] & -> & Hr); simpl; [|by eexists].
  destruct Hr as (-> & Hnd & Hfresh & Hjob & Hm).
  eexists. split; [done|split_and!].
  - unfold keys_of. simpl. set_solver.
  - rewrite fmap_cons. apply NoDup_cons. split; [|done]. simpl.
    intros (c & E & Hc)%list_elem_of_fmap. apply (Hfresh c Hc). set_solver.
  - intros c [->|Hc]%elem_of_cons; [done|]. specialize (Hfresh c Hc). set_solver.
  - intros c [->|Hc]%elem_of_cons; [done|]. auto.
  - rewrite fmap_cons, Hm. done.
Qed.

(** What the cells of a workflow are: fresh distinct keys, and for each job the cells
    of its combinations. *)
Record cells_ok (jobs : list (string * @Job Y J)) (used : gset string) (cells : list (@JobPlan V R)) :
    Prop := {
  ce_keys : NoDup (key <$> cells);
  ce_fresh : ∀ c, c ∈ cells → key c ∉ used;
  ce_jobs : ∀ c, c ∈ cells → ∃ job, (base_id c, job) ∈ jobs ∧ needs c = job_needs job;
  ce_combos : ∀ id job, (id, job) ∈ jobs → ∃ combos,
    expand id (job_matrix job) = Ok combos ∧ matrix <$> cells_of cells id = combos;
}.

Lemma cells_of_all (cells : list (@JobPlan V R)) id :
  (∀ c, c ∈ cells → base_id c = id) → cells_of cells id = cells.
Proof. intros H. apply filter_all. intros c Hc. apply String.eqb_eq. auto. Qed.

Lemma cells_of_none (cells : list (@JobPlan V R)) id :
  (∀ c, c ∈ cells → base_id c ≠ id) → cells_of cells id = [].
Proof. intros H. apply filter_none. intros c Hc. apply String.eqb_neq. auto. Qed.

Lemma build_cells_ok jobs used :
  NoDup jobs.*1 →
  ∃ r, build_cells' jobs used = Some r ∧
    match r with Ok cells => cells_ok jobs used cells | Err _ => True end.
Proof.
  revert used. induction jobs as [|[id job] jobs IH]; intros used Hnd; simpl.
  { eexists. split; [done|]. split; try (by intros ? ?%not_elem_of_nil).
    - apply NoDup_nil_2.
    - by intros ? ? ?%not_elem_of_nil. }
  rewrite fmap_cons in Hnd. apply NoDup_cons in Hnd as [Hid Hnd]. simpl in Hid.
  destruct (expand id (job_matrix job)) as [combos|e] eqn:Ex; [|by eexists].
  destruct (cells_of_job_ok id job combos 0 used) as ([[cells used']|e] & -> & Hr); simpl; [|by eexists].
  destruct Hr as (-> & Hk & Hf & Hj & Hm).
  destruct (IH (keys_of cells ∪ used) Hnd) as ([more|e] & -> & Hr); simpl; [|by eexists].
  eexists. split; [done|]. destruct Hr as [Hmk Hmf Hmj Hmc].
  assert (∀ c, c ∈ more → base_id c ≠ id) as Hne.
  { intros c Hc E. destruct (Hmj c Hc) as (job' & Hin & _). apply Hid. rewrite <- E.
    by apply (list_elem_of_fmap_2 fst) in Hin. }
  split.
  - rewrite fmap_app. apply NoDup_app. split_and!; [done| |done].
    intros k Hk1 (c & -> & Hc)%list_elem_of_fmap. apply (Hmf c Hc).
    unfold keys_of. rewrite elem_of_union, elem_of_list_to_set. by left.
  - intros c [Hc|Hc]%elem_of_app; [auto|]. specialize (Hmf c Hc). set_solver.
  - intros c [Hc|Hc]%elem_of_app.
    + destruct (Hj c Hc) as [-> ->]. exists job. split; [constructor|done].
    + destruct (Hmj c Hc) as (job' & ? & ?). exists job'. split; [by constructor|done].
  - intros id' job' [[= -> ->]|Hin]%elem_of_cons.
    + exists combos. split; [done|]. unfold cells_of. rewrite List.filter_app.
      change (matrix <$> cells_of cells id ++ cells_of more id = combos).
      rewrite cells_of_all, cells_of_none by naive_solver. by rewrite app_nil_r.
    + destruct (Hmc _ _ Hin) as (combos' & -> & Hm'). exists combos'. split; [done|].
      unfold cells_of. rewrite List.filter_app.
      change (matrix <$> cells_of cells id' ++ cells_of more id' = combos').
      rewrite (cells_of_none cells); [done|].
      intros c Hc E. destruct (Hj c Hc) as [E' _]. apply Hid. rewrite <- E', E.
      by apply (list_elem_of_fmap_2 fst) in Hin.
Qed.

Lemma cells_same_needs jobs used cells :
  NoDup jobs.*1 → cells_ok jobs used cells → same_needs cells.
Proof.
  intros Hnd [_ _ Hj _] c1 c2 H1 H2 E.
  destruct (Hj c1 H1) as (j1 & Hin1 & ->), (Hj c2 H2) as (j2 & Hin2 & ->).
  rewrite E in Hin1.
  assert ((base_id c2, j1) = (base_id c2, j2)) as H by by apply (NoDup_fmap_elem fst jobs).
  by injection H as ->.
Qed.

(** Planning is total and its keys never collide: [build] always returns; a plan it
    returns has pairwise distinct keys, holds for every job exactly the cells of its
    combinations, and runs each cell after all the cells of every job it needs. *)
Theorem build_correct jobs :
  NoDup jobs.*1 →
  ∃ r, build' jobs = Some r ∧ ∀ plan, r = Ok plan →
    NoDup (key <$> plan) ∧ respects_needs plan ∧
    ∀ id job, (id, job) ∈ jobs → ∃ combos,
      expand id (job_matrix job) = Ok combos ∧ matrix <$> cells_of plan id ≡ₚ combos.
Proof.
  intros Hnd. unfold build.
  destruct (build_cells_ok jobs ∅ Hnd) as ([cells|e] & -> & Hc); simpl; [|by eexists].
  pose proof (cells_same_needs _ _ _ Hnd Hc) as Hs.
  pose proof (waves_spec cells (length cells) ∅ cells [] Hs (loop_ok_start cells) (le_n _)) as Hw.
  unfold topological_order. destruct (waves _ _ _ _ _) as [[plan|e]|]; [|destruct e; try done; by eexists|done].
  eexists. split; [done|]. intros plan' [= <-].
  destruct Hw as [Hp _ _ Hr _ _]. rewrite app_nil_r in Hp. destruct Hc as [Hk _ _ Hcomb].
  split; [by rewrite Hp|split; [exact Hr|]].
  intros id job Hin. destruct (Hcomb id job Hin) as (combos & Hx & Hm). exists combos.
  split; [exact Hx|]. rewrite <- Hm. apply fmap_Permutation. unfold cells_of.
  by rewrite filter_perm.
Qed.
End keys.

(** ** Matrix expansion *)

Section expansion.
Context {V Y : Type} `{!EqDecision V}.
Context (json_null : V) (y_mapping : Y → option (list (Y * Y)))
  (y_sequence : Y → option (list Y)) (y_str : Y → option string) (y_value : Y → option V).
Abbreviation Combo := (gmap string V).
Abbreviation expand := (expand_matrix json_null y_mapping y_sequence y_str y_value).
Abbreviation read := (read_matrix json_null y_mapping y_sequence y_str y_value).

(** A combination picks one value of every axis, and nothing else. *)
Definition in_product (ax : list (string * list V)) (c : Combo) : Prop :=
  dom c = list_to_set ax.*1 ∧
  ∀ n vs, (n, vs) ∈ ax → ∃ v, v ∈ vs ∧ c !! n = Some v.

Lemma product_elem job ax combos res :
  product job ax combos = Ok res → NoDup ax.*1 →
  ∀ c : Combo, c ∈ res ↔ ∃ b : Combo, b ∈ combos ∧ (∀ n, n ∉ ax.*1 → c !! n = b !! n) ∧
    ∀ n vs, (n, vs) ∈ ax → ∃ v, v ∈ vs ∧ c !! n = Some v.
Proof.
  revert combos. induction ax as [|[name values] ax IH]; intros combos; simpl.
  { intros [= <-] _ c. split.
    - intros Hc. exists c. split_and!; [done|done|by intros ? ? ?%not_elem_of_nil].
    - intros (b & Hb & Heq & _). replace c with b; [done|].
      apply map_eq. intros n. symmetry. apply Heq. apply not_elem_of_nil. }
  rewrite seq_ok. intros [_ Hp] Hnd. 
  apply NoDup_cons in Hnd as [Hname Hnd]. intros c. rewrite (IH _ Hp Hnd c). split.
  - intros (b' & Hb' & Heq & Hax). unfold add_axis in Hb'.
    apply list_elem_of_bind in Hb' as (b & Hb' & Hb).
    apply list_elem_of_fmap in Hb' as (v & -> & Hv).
    exists b. split_and!; [done| |].
    + intros n Hn. rewrite Heq by set_solver. rewrite lookup_insert_ne; set_solver.
    + intros n vs [[= -> ->]|Hin]%elem_of_cons; [|by apply Hax].
      exists v. split; [done|]. by rewrite Heq, lookup_insert_eq by done.
  - intros (b & Hb & Heq & Hax). destruct (Hax name values) as (v & Hv & Hc); [constructor|].
    exists (<[name := v]> b). split_and!.
    + apply list_elem_of_bind. exists b. split; [|done]. apply list_elem_of_fmap. by exists v.
    + intros n Hn. destruct (decide (n = name)) as [->|Hne].
      * by rewrite lookup_insert_eq.
      * rewrite lookup_insert_ne by done. apply Heq. set_solver.
    + intros n vs Hin. apply Hax. by constructor.
Qed.

Lemma product_in_product job ax res :
  product job ax [∅] = Ok res → NoDup ax.*1 → ∀ c, c ∈ res ↔ in_product ax c.
Proof.
  intros Hp Hnd c. rewrite (product_elem _ _ _ _ Hp Hnd). unfold in_product. split.
  - intros (b & ->%list_elem_of_singleton & Heq & Hax). split; [|done].
    apply set_eq. intros n. rewrite elem_of_dom, elem_of_list_to_set. split.
    + intros [v Hv]. destruct (decide (n ∈ ax.*1)) as [|Hn]; [done|].
      rewrite Heq in Hv by done. by rewrite lookup_empty in Hv.
    + intros ([n' vs] & -> & Hin)%list_elem_of_fmap.
      destruct (Hax _ _ Hin) as (v & _ & Hv). by exists v.
  - intros [Hd Hax]. exists ∅. split_and!; [by apply list_elem_of_singleton| |done].
    intros n Hn. rewrite lookup_empty. apply not_elem_of_dom. rewrite Hd.
    by rewrite elem_of_list_to_set.
Qed.

(** Extending a combination never overwrites what it has. *)
Lemma matches_subset_extends (c entry : Combo) : matches_subset c entry = true → c ⊆ entry ∪ c.
Proof.
  unfold matches_subset. rewrite forallb_forall. intros Hm. apply map_subseteq_spec.
  intros k v Hc. destruct (entry !! k) as [w|] eqn:E.
  - specialize (Hm (k, w)). rewrite <- list_elem_of_In, elem_of_map_to_list in Hm.
    specialize (Hm E). simpl in Hm. rewrite Hc in Hm. simpl in Hm.
    apply bool_decide_eq_true in Hm. rewrite (lookup_union_Some_l _ _ _ w); congruence.
  - by rewrite lookup_union_r.
Qed.

Lemma add_include_spec (combos : list Combo) entry :
  (∀ c, c ∈ combos → ∃ c', c' ∈ add_include combos entry ∧ c ⊆ c') ∧
  (∃ c', c' ∈ add_include combos entry ∧ entry ⊆ c') ∧
  (∀ c', c' ∈ add_include combos entry → c' = entry ∨ ∃ c, c ∈ combos ∧ c ⊆ c').
Proof.
  unfold add_include. destruct (existsb _ _) eqn:E.
  - apply existsb_exists in E as (c0 & Hc0 & Hm0). apply list_elem_of_In in Hc0. split_and!.
    + intros c Hc. eexists. split; [by apply list_elem_of_fmap_2|]. simpl.
      destruct (matches_subset c entry) eqn:Hm; [by apply matches_subset_extends|done].
    + exists (entry ∪ c0). split; [|apply map_union_subseteq_l].
      apply list_elem_of_fmap. exists c0. by rewrite Hm0.
    + intros c' (c & -> & Hc)%list_elem_of_fmap. right. exists c. split; [done|].
      destruct (matches_subset c entry) eqn:Hm; [by apply matches_subset_extends|done].
  - split_and!.
    + intros c Hc. exists c. split; [set_solver|done].
    + exists entry. split; [set_solver|done].
    + intros c' [Hc|Hc]%elem_of_app; [right; by exists c'|left].
      by apply list_elem_of_singleton in Hc.
Qed.

Lemma includes_spec (entries combos : list Combo) :
  (∀ c, c ∈ combos ∨ c ∈ entries → ∃ c', c' ∈ foldl add_include combos entries ∧ c ⊆ c') ∧
  (∀ c', c' ∈ foldl add_include combos entries → ∃ c, (c ∈ combos ∨ c ∈ entries) ∧ c ⊆ c').
Proof.
  revert combos. induction entries as [|e entries IH]; intros combos; simpl.
  { split; [|naive_solver]. intros c [Hc|Hc%not_elem_of_nil]; [by exists c|done]. }
  destruct (IH (add_include combos e)) as [Hall Hfrom].
  destruct (add_include_spec combos e) as (Hc & (ce & Hce & Hsub) & Hback). split.
  - intros c Hin.
    assert (∃ c1, (c1 ∈ add_include combos e ∨ c1 ∈ entries) ∧ c ⊆ c1) as (c1 & H1 & S1).
    { rewrite elem_of_cons in Hin. destruct Hin as [Hin|[->|Hin]].
      - destruct (Hc c Hin) as (c1 & ? & ?). eauto.
      - eauto.
      - exists c. auto. }
    destruct (Hall c1 H1) as (c2 & H2 & S2). exists c2. split; [done|]. by etransitivity.
  - intros c' Hin. destruct (Hfrom c' Hin) as (c1 & [H1|H1] & S1).
    + destruct (Hback c1 H1) as [->|(c & H & S)].
      * exists e. split; [right; constructor|done].
      * exists c. split; [by left|]. by etransitivity.
    + exists c1. split; [right; by constructor|done].
Qed.

(** What a matrix expands to: every combination of one value per axis that no
    [exclude] entry matches survives, with all its values, as every [include] entry
    does; each result extends one of these; and without [include] the result is exactly
    the combinations that are not excluded. *)
Theorem expand_matrix_spec job y mapping m combos :
  y_mapping y = Some mapping →
  read job mapping {| axes := []; include := []; exclude := [] |} = Ok m →
  NoDup (axes m).*1 →
  expand job (Some y) = Ok combos →
  let kept c := in_product (axes m) c ∧ excluded (exclude m) c = false in
  (∀ c, kept c ∨ c ∈ include m → ∃ c', c' ∈ combos ∧ c ⊆ c') ∧
  (∀ c', c' ∈ combos → ∃ c, (kept c ∨ c ∈ include m) ∧ c ⊆ c') ∧
  (include m = [] → ∀ c, c ∈ combos ↔ kept c).
Proof.
  intros Hy Hr Hnd He kept. unfold expand_matrix in He. rewrite Hy in He. cbn [ok_or rbind] in He.
  rewrite Hr in He. cbn [rbind] in He. apply rbind_ok in He as (prod & Hp & He).
  assert (sort_by axis_order (axes m) ≡ₚ axes m) as Hperm by apply sort_by_perm.
  assert (∀ c, c ∈ prod ↔ in_product (axes m) c) as Hprod.
  { intros c. rewrite (product_in_product _ _ _ Hp) by by rewrite Hperm.
    unfold in_product. rewrite Hperm. setoid_rewrite Hperm. done. }
  set (left := List.filter (λ c, negb (excluded (exclude m) c)) prod) in *.
  assert (∀ c, c ∈ left ↔ kept c) as Hleft.
  { intros c. unfold left, kept. rewrite list_elem_of_In, filter_In, <- list_elem_of_In, Hprod.
    by rewrite negb_true_iff. }
  assert (combos = foldl add_include left (include m)) as ->.
  { destruct (foldl add_include left (include m)); [done|by injection He]. }
  destruct (includes_spec (include m) left) as [Hall Hfrom].
  setoid_rewrite Hleft in Hall. setoid_rewrite Hleft in Hfrom.
  split; [done|split; [done|]]. intros ->. simpl. exact Hleft.
Qed.
End expansion.

(** ** The theorems at work *)

(** A YAML of strings, lists and mappings; JSON values are strings. *)
#[warnings="-register-all"]
Inductive Yaml : Type :=
| YStr (s : string)
| YSeq (l : list Yaml)
| YMap (l : list (Yaml * Yaml)).

Section examples.
Let y_mapping (y : Yaml) := match y with YMap l => Some l | _ => None end.
Let y_sequence (y : Yaml) := match y with YSeq l => Some l | _ => None end.
Let y_str (y : Yaml) := match y with YStr s => Some s | _ => None end.
Let y_value (y : Yaml) : option string := y_str y.
Let entry (l : list (string * string)) : Yaml := YMap ((λ p, (YStr p.1, YStr p.2)) <$> l).
Let expand := expand_matrix "null" y_mapping y_sequence y_str y_value.
Let values (l : list string) : Yaml := YSeq (YStr <$> l).

(** Two axes, one combination excluded, one extended, one added. *)
Let mapping : list (Yaml * Yaml) :=
  [(YStr "target", values ["x86"; "arm"]); (YStr "chain", values ["stable"; "nightly"]);
   (YStr "exclude", YSeq [entry [("target", "arm"); ("chain", "nightly")]]);
   (YStr "include", YSeq [entry [("target", "arm"); ("cross", "yes")]; entry [("target", "riscv")]])].
Let workflow : list (string * @Job Yaml unit) :=
  [("deploy", {| job_name := None; job_matrix := None; job_needs := ["build"]; job_rest := tt |});
   ("build", {| job_name := Some "Build"; job_matrix := Some (YMap mapping); job_needs := [];
                job_rest := tt |})].
Let finish (id k : string) (_ : @Job Yaml unit) (_ : gmap string string) :
  result PlanError string := Ok (id +:+ "/" +:+ k).
Let plan_of := build Some id "null" y_mapping y_sequence y_str y_value finish.

Example the_plan :
  match plan_of workflow with
  | Some (Ok plan) => (λ c, (key c, display c)) <$> plan =
      [("build-stable-x86", "Build (stable, x86)");
       ("build-stable-yes-arm", "Build (stable, yes, arm)");
       ("build-nightly-x86", "Build (nightly, x86)"); ("build-riscv", "Build (riscv)");
       ("deploy", "deploy")]
  | _ => False
  end.
Proof. vm_compute. reflexivity. Qed.

(** The matrix of GitHub's documentation of [include], where an entry may overwrite what
    an earlier entry added: there the apple and cat cell is pink.  Here it stays green,
    and the pink entry becomes a cell of its own. *)
Let fruits : list (Yaml * Yaml) :=
  [(YStr "fruit", values ["apple"; "pear"]); (YStr "animal", values ["cat"; "dog"]);
   (YStr "include", YSeq [entry [("color", "green")]; entry [("color", "pink"); ("animal", "cat")];
      entry [("fruit", "apple"); ("shape", "circle")]; entry [("fruit", "banana")];
      entry [("fruit", "banana"); ("animal", "cat")]])].
Let cell (l : list (string * string)) : gmap string string := list_to_map l.

Lemma include_keeps_earlier_include :
  match expand "job" (Some (YMap fruits)) with
  | Ok combos =>
    bool_decide (cell [("fruit", "pear"); ("animal", "cat"); ("color", "pink")] ∈ combos) = false ∧
    bool_decide (cell [("fruit", "pear"); ("animal", "cat"); ("color", "green")] ∈ combos) = true
  | Err _ => False
  end.
Proof. vm_compute. split; reflexivity. Qed.

Let simple (b : string) (n : list string) : @JobPlan nat unit :=
  {| key := b; base_id := b; display := b; needs := n; matrix := ∅; cell_rest := tt |}.

Lemma topological_order_correct_witness :
  topological_order [simple "b" ["a"]; simple "a" []] = Some (Ok [simple "a" []; simple "b" ["a"]]) ∧
  respects_needs [simple "a" []; simple "b" ["a"]].
Proof.
  assert (same_needs [simple "b" ["a"]; simple "a" []]) as Hs.
  { intros c1 c2. rewrite !elem_of_cons, !elem_of_nil. by intros [->|[->|[]]] [->|[->|[]]]. }
  assert (topological_order [simple "b" ["a"]; simple "a" []]
    = Some (Ok [simple "a" []; simple "b" ["a"]])) as E by (vm_compute; reflexivity).
  pose proof (topological_order_correct _ Hs) as H.
  rewrite E in H. split; [exact E|apply H].
Defined.

Lemma build_correct_witness :
  match plan_of workflow with
  | Some (Ok plan) => NoDup (key <$> plan) ∧ length plan = 5%nat
  | _ => False
  end.
Proof.
  assert (NoDup workflow.*1) as Hids by (apply (bool_decide_unpack _); vm_compute; exact I).
  destruct (build_correct Some id "null" y_mapping y_sequence y_str y_value finish workflow Hids)
    as (r & Hr & Hplan).
  assert (match plan_of workflow with Some (Ok plan) => length plan | _ => O end = 5%nat) as Hlen
    by (vm_compute; reflexivity).
  unfold plan_of in *. rewrite Hr in Hlen |- *. destruct r as [plan|e]; [|discriminate Hlen].
  split; [apply (Hplan plan eq_refl)|exact Hlen].
Defined.

Let read := read_matrix "null" y_mapping y_sequence y_str y_value "build" mapping
  {| axes := []; include := []; exclude := [] |}.
Let crossed : gmap string string := cell [("target", "arm"); ("cross", "yes")].

Lemma expand_matrix_spec_witness :
  match expand "build" (Some (YMap mapping)) with
  | Ok combos => ∃ c', c' ∈ combos ∧ crossed ⊆ c'
  | Err _ => False
  end.
Proof.
  assert (match read with Ok m => bool_decide (NoDup (axes m).*1)
    && bool_decide (crossed ∈ include m) | Err _ => false end = true) as Hread
    by (vm_compute; reflexivity).
  assert (is_ok (expand "build" (Some (YMap mapping))) = true) as Hok by (vm_compute; reflexivity).
  destruct read as [m|e] eqn:Hm; [|discriminate Hread].
  destruct (expand "build" (Some (YMap mapping))) as [combos|e] eqn:Hc; [|discriminate Hok].
  apply andb_true_iff in Hread as [Hnd Hin].
  apply bool_decide_eq_true in Hnd. apply bool_decide_eq_true in Hin.
  destruct (expand_matrix_spec "null" y_mapping y_sequence y_str y_value "build" (YMap mapping)
    mapping m combos eq_refl Hm Hnd Hc) as (Hall & _ & _).
  apply Hall. right. exact Hin.
Defined.
End examples.
