(* ===== verification/CiPaths.v ===== *)
(** * Path filters: [ci/src/paths.rs]

    The glob dialect of [paths:] and [paths-ignore:], with the iterative matcher of one
    segment, and the change set it is matched against. *)
From Stdlib Require Import Ascii String ZArith Lia Bool.
From stdpp Require Import base option list strings pretty.
From S2P Require Import Prelude.
Open Scope string_scope.
Open Scope list_scope.
Open Scope nat_scope.

(** ** One segment *)

(** The loop of [match_segment]: the positions in the pattern and in the segment, and
    where the last star was met and how much it has taken.  [None] is fuel exhausted. *)
Fixpoint segment_loop (fuel : nat) (p t : list string) (pi ti : nat)
    (star : option (nat * nat)) : option (bool * nat) :=
  match t !! ti with
  | None => Some (true, pi)
  | Some c =>
    match fuel with
    | O => None
    | S f =>
      match p !! pi with
      | Some d =>
        if String.eqb d "*" then segment_loop f p t (S pi) ti (Some (pi, ti))
        else if String.eqb d "?" || String.eqb d c then segment_loop f p t (S pi) (S ti) star
        else match star with
             | Some (sp, st) => segment_loop f p t (S sp) (S st) (Some (sp, S st))
             | None => Some (false, pi)
             end
      | None =>
        match star with
        | Some (sp, st) => segment_loop f p t (S sp) (S st) (Some (sp, S st))
        | None => Some (false, pi)
        end
      end
    end
  end.

(** Trailing stars may match nothing. *)
Fixpoint skip_stars (p : list string) : list string :=
  match p with
  | d :: p' => if String.eqb d "*" then skip_stars p' else p
  | [] => []
  end.

Definition segment_fuel (p t : list string) : nat := (length t + 2) * (length p + 2).

Definition match_chars (p t : list string) : bool :=
  match segment_loop (segment_fuel p t) p t 0 0 None with
  | Some (true, pi) => match skip_stars (drop pi p) with [] => true | _ => false end
  | _ => false
  end.

Definition match_segment (pat s : string) : bool :=
  match_chars (Chars.chars pat) (Chars.chars s).

(** ** Whole paths *)

Fixpoint match_segments (pat path : list string) : bool :=
  match pat with
  | [] => match path with [] => true | _ => false end
  | first :: rest =>
    if String.eqb first "**" then
      match rest with
      | [] => true
      | _ => existsb (λ i, match_segments rest (drop i path)) (seq 0 (S (length path)))
      end
    else
      match path with
      | head :: tail => if match_segment first head then match_segments rest tail else false
      | [] => false
      end
  end.

(** [trim_start_matches("./")]. *)
Fixpoint trim_dot_slash (s : string) : string :=
  match s with
  | String "." (String "/" s') => trim_dot_slash s'
  | _ => s
  end.

Definition pattern_segments (pattern : string) : list string :=
  Str.split "/" (trim_dot_slash (Chars.trim pattern)).
Definition path_segments (path : string) : list string := Str.split "/" (trim_dot_slash path).

Definition matches (pattern path : string) : bool :=
  match_segments (pattern_segments pattern) (path_segments path).

(** [validate]; the message is given without the pattern interpolated into it. *)
Definition validate (pattern : string) : result string unit :=
  let p := Chars.trim pattern in
  bail_if (String.eqb p "") "a path pattern is empty" ;;?
  bail_if (Str.starts_with "!" p) "path pattern starts with `!`" ;;?
  bail_if (Str.starts_with "/" p) "path pattern is absolute" ;;?
  Ok tt.

(** ** Changes *)

Definition MAX_CHANGED_PATHS : nat := 5000.

Inductive Changes : Type :=
| Known (paths : list string)
| Unknown (reason : string).

Definition unknown (reason : string) : Changes := Unknown reason.
Definition default_changes : Changes := unknown "this run predates change detection".

Definition known (paths : list string) : Changes :=
  if MAX_CHANGED_PATHS <? length paths
  then unknown ("the diff touches " +:+ pretty (length paths) +:+ " paths, over the "
    +:+ pretty MAX_CHANGED_PATHS +:+ " this records; treating every path filter as matched")
  else Known paths.

Definition paths_of (c : Changes) : list string :=
  match c with Known paths => paths | Unknown _ => [] end.
Definition is_known (c : Changes) : bool :=
  match c with Known _ => true | Unknown _ => false end.
Definition reason_of (c : Changes) : option string :=
  match c with Known _ => None | Unknown reason => Some reason end.

Definition matches_any (c : Changes) (patterns : list string) : bool :=
  match c with
  | Unknown _ => true
  | Known paths => existsb (λ pat, existsb (matches pat) paths) patterns
  end.

Definition all_match (c : Changes) (patterns : list string) : bool :=
  match c with
  | Unknown _ => false
  | Known paths =>
    match paths, patterns with
    | [], _ | _, [] => false
    | _, _ => forallb (λ p, existsb (λ pat, matches pat p) patterns) paths
    end
  end.

(** ** The dialect *)

(** A segment matches a pattern segment. *)
Inductive seg_match : list string → list string → Prop :=
| sm_nil : seg_match [] []
| sm_star_end p t : seg_match p t → seg_match ("*" :: p) t
| sm_star_take p c t : seg_match ("*" :: p) t → seg_match ("*" :: p) (c :: t)
| sm_char d p c t : d ≠ "*" → d = "?" ∨ d = c → seg_match p t → seg_match (d :: p) (c :: t).

(** A path matches a pattern: [**] stands for any number of segments. *)
Inductive path_match : list string → list string → Prop :=
| pm_nil : path_match [] []
| pm_any pat skipped path : path_match pat path → path_match ("**" :: pat) (skipped ++ path)
| pm_seg first pat head path :
    first ≠ "**" → seg_match (Chars.chars first) (Chars.chars head) → path_match pat path →
    path_match (first :: pat) (head :: path).

Section segment.
Context (p t : list string).
Definition M (a b : nat) : Prop := seg_match (drop a p) (drop b t).

Lemma star_inv q s : seg_match ("*" :: q) s → ∃ k, seg_match q (drop k s).
Proof.
  remember ("*" :: q) as pat eqn:E. intros Hm. revert E.
  induction Hm as [|q' s Hm _|q' c s Hm IH|d q' c s Hd Hc Hm _]; intros E; try done.
  - injection E as ->. by exists 0.
  - destruct (IH E) as [k Hk]. by exists (S k).
  - by injection E as -> _.
Qed.

Lemma star_intro q s k : seg_match q (drop k s) → seg_match ("*" :: q) s.
Proof.
  revert s. induction k as [|k IH]; intros s Hm; [by constructor|].
  destruct s as [|c s]; [by constructor|]. apply sm_star_take, IH, Hm.
Qed.

Lemma drop_lookup {A} (l : list A) i x : l !! i = Some x → drop i l = x :: drop (S i) l.
Proof. by apply drop_S. Qed.

Lemma M_star a b : p !! a = Some "*" → M a b ↔ ∃ k, M (S a) (b + k).
Proof.
  intros Ha. unfold M. rewrite (drop_lookup _ _ _ Ha). split.
  - intros [k Hk]%star_inv. exists k. by rewrite drop_drop in Hk.
  - intros [k Hk]. apply (star_intro _ _ k). by rewrite drop_drop.
Qed.

(** A star absorbs what lies before the place where it could start. *)
Lemma M_star_back a b k : p !! a = Some "*" → M a (b + k) → M a b.
Proof.
  intros Ha. rewrite !M_star by done. intros [k' Hk]. exists (k + k').
  by rewrite Nat.add_assoc.
Qed.

Lemma M_char a b d : p !! a = Some d → d ≠ "*" →
  M a b ↔ ∃ c, t !! b = Some c ∧ (d = "?" ∨ d = c) ∧ M (S a) (S b).
Proof.
  intros Ha Hd. unfold M. rewrite (drop_lookup _ _ _ Ha). split.
  - intros Hm. remember (drop b t) as s eqn:Es. remember (d :: drop (S a) p) as q eqn:Eq.
    destruct Hm as [|q' s Hm|q' c s Hm|d' q' c s Hd' Hc Hm]; try (by injection Eq as <- _); try done.
    injection Eq as -> ->. exists c.
    assert (t !! b = Some c) as Hb.
    { rewrite <- (Nat.add_0_r b), <- lookup_drop, <- Es. done. }
    split_and!; [done..|]. rewrite (drop_lookup _ _ _ Hb) in Es. by injection Es as ->.
  - intros (c & Hb & Hc & Hm). rewrite (drop_lookup _ _ _ Hb). by constructor.
Qed.

Lemma M_end a b : p !! a = None → M a b ↔ t !! b = None.
Proof.
  intros Ha%lookup_ge_None. unfold M. rewrite (drop_ge p) by done.
  rewrite lookup_ge_None. split.
  - intros Hm. destruct (drop b t) as [|c s] eqn:E; [|inversion Hm].
    apply (f_equal length) in E. rewrite length_drop in E. simpl in E. lia.
  - intros Hb. rewrite drop_ge by done. constructor.
Qed.

(** The pattern between [a] and [b] holds no star. *)
Definition rigid (a b : nat) : Prop := ∀ i, a <= i < b → ∃ d, p !! i = Some d ∧ d ≠ "*".

Lemma M_rigid a n x : rigid a (a + n) → M a x → M (a + n) (x + n) ∧ x + n <= length t `max` x.
Proof.
  revert a x. induction n as [|n IH]; intros a x Hr Hm.
  { rewrite !Nat.add_0_r. split; [done|lia]. }
  destruct (Hr a) as (d & Ha & Hd); [lia|]. rewrite (M_char _ _ _ Ha Hd) in Hm.
  destruct Hm as (c & Hx & _ & Hm). apply lookup_lt_Some in Hx.
  assert (rigid (S a) (S a + n)) as Hr' by (intros i Hi; apply (Hr i); lia).
  destruct (IH (S a) (S x) Hr' Hm) as [Hm' Hle].
  rewrite !Nat.add_succ_r. split; [done|lia].
Qed.

(** The state of the loop: the positions are in step since the last star, what the star
    has taken so far forces the rest, and the whole match amounts to matching from it. *)
Definition loop_inv (pi ti : nat) (star : option (nat * nat)) : Prop :=
  match star with
  | None => pi = ti ∧ rigid 0 pi ∧ (M 0 0 ↔ M pi ti)
  | Some (sp, st) =>
    p !! sp = Some "*" ∧ sp < pi ∧ st <= ti ∧ ti + S sp = st + pi ∧ rigid (S sp) pi ∧
    (M 0 0 ↔ M sp st) ∧ (M (S sp) st ↔ M pi ti)
  end.

Lemma inv_star pi ti star :
  loop_inv pi ti star → p !! pi = Some "*" → loop_inv (S pi) ti (Some (pi, ti)).
Proof.
  intros Hinv Hpi. simpl. split_and!; [done|lia..|intros i Hi; lia| |done].
  destruct star as [[sp st]|]; simpl in Hinv; [|naive_solver].
  destruct Hinv as (Hsp & Hlt & Hle & Hstep & Hr & -> & Hfix).
  rewrite M_star by done. split.
  - intros [k Hk].
    replace pi with (S sp + (pi - S sp)) in Hr by lia.
    destruct (M_rigid _ _ _ Hr Hk) as [Hm _].
    replace (S sp + (pi - S sp)) with pi in Hm by lia.
    apply (M_star_back _ _ k Hpi). by replace (ti + k) with (st + k + (pi - S sp)) by lia.
  - intros Hm. exists 0. rewrite Nat.add_0_r. by apply Hfix.
Qed.

Lemma inv_char pi ti star d c :
  loop_inv pi ti star → p !! pi = Some d → d ≠ "*" → t !! ti = Some c → d = "?" ∨ d = c →
  loop_inv (S pi) (S ti) star.
Proof.
  intros Hinv Hpi Hd Hti Hc.
  assert (M pi ti ↔ M (S pi) (S ti)) as Hm.
  { rewrite (M_char _ _ _ Hpi Hd). naive_solver. }
  assert (∀ a, rigid a pi → rigid a (S pi)) as Hrig.
  { intros a Hr i Hi. destruct (decide (i = pi)) as [->|]; [eauto|]. apply (Hr i). lia. }
  destruct star as [[sp st]|]; simpl in *.
  - destruct Hinv as (Hsp & Hlt & Hle & Hstep & Hr & Hg & Hfix). rewrite <- Hm.
    split_and!; auto; lia.
  - destruct Hinv as (-> & Hr & Hg). rewrite <- Hm. auto.
Qed.

Lemma inv_back pi ti sp st :
  loop_inv pi ti (Some (sp, st)) → ¬ M pi ti →
  loop_inv (S sp) (S st) (Some (sp, S st)).
Proof.
  intros (Hsp & Hlt & Hle & Hstep & Hr & Hg & Hfix) Hno. simpl.
  split_and!; [done|lia..|intros i Hi; lia| |done].
  rewrite Hg, !M_star by done. split.
  - intros [[|k] Hk]; [rewrite Nat.add_0_r in Hk; by apply Hfix in Hk|].
    exists k. by rewrite Nat.add_succ_comm.
  - intros [k Hk]. exists (S k). by rewrite <- Nat.add_succ_comm.
Qed.

(** What is left to do: how much the star can still take, and the pattern ahead. *)
Definition measure (pi : nat) (star : option (nat * nat)) : nat :=
  match star with
  | None => (length t + 1) * (length p + 2) + (length p + 1 - pi)
  | Some (_, st) => (length t - st) * (length p + 2) + (length p + 1 - pi)
  end.

Lemma segment_loop_spec fuel pi ti star :
  loop_inv pi ti star → ti <= length t → measure pi star < fuel →
  match segment_loop fuel p t pi ti star with
  | Some (true, pi') => M 0 0 ↔ M pi' (length t)
  | Some (false, _) => ¬ M 0 0
  | None => False
  end.
Proof.
  revert pi ti star. induction fuel as [|fuel IH]; intros pi ti star Hinv Hti Hfuel; [lia|].
  simpl. destruct (t !! ti) as [c|] eqn:Et.
  2: { apply lookup_ge_None in Et. assert (ti = length t) as -> by lia.
       destruct star as [[sp st]|]; simpl in Hinv; [|naive_solver].
       destruct Hinv as (Hsp & Hlt & Hle & Hstep & Hr & -> & Hfix).
       rewrite M_star by done. rewrite <- Hfix. split; [|intros; exists 0; by rewrite Nat.add_0_r].
       intros [k Hk]. replace pi with (S sp + (pi - S sp)) in Hr by lia.
       destruct (M_rigid _ _ _ Hr Hk) as [Hm Hmax].
       destruct k as [|k]; [by rewrite Nat.add_0_r in Hk|].
       replace (S sp + (pi - S sp)) with pi in Hm by lia.
       destruct (decide (pi = S sp)) as [->|]; [|lia].
       apply Hfix. rewrite Nat.sub_diag, Nat.add_0_r in Hm.
       unfold M in Hm |- *. rewrite (drop_ge t) in Hm by lia. by rewrite (drop_ge t). }
  pose proof (lookup_lt_Some _ _ _ Et) as Htl.
  assert (¬ M pi ti →
    match match star with
          | Some (sp, st) => segment_loop fuel p t (S sp) (S st) (Some (sp, S st))
          | None => Some (false, pi)
          end with
    | Some (true, pi') => M 0 0 ↔ M pi' (length t)
    | Some (false, _) => ¬ M 0 0
    | None => False
    end) as Hback.
  { intros Hno. destruct star as [[sp st]|]; [|by destruct Hinv as (_ & _ & ->)].
    pose proof Hinv as (Hsp & Hlt & Hle & _). apply lookup_lt_Some in Hsp.
    apply IH; [by eapply inv_back|lia|]. unfold measure in *.
    replace (length t - st) with (S (length t - S st)) in Hfuel by lia. lia. }
  destruct (p !! pi) as [d|] eqn:Ep.
  - pose proof (lookup_lt_Some _ _ _ Ep) as Hpl.
    destruct (String.eqb_spec d "*") as [->|Hd].
    { apply IH; [by eapply inv_star|done|]. unfold measure in *.
      destruct star as [[sp st]|]; simpl in Hinv; [|nia].
      assert (length t - ti <= length t - st) by lia. nia. }
    destruct (String.eqb d "?" || String.eqb d c) eqn:Hc.
    + assert (d = "?" ∨ d = c) as Hdc by by rewrite orb_true_iff, !String.eqb_eq in Hc.
      apply IH; [by eapply inv_char|lia|]. unfold measure in *. destruct star as [[sp st]|]; lia.
    + apply Hback. rewrite (M_char _ _ _ Ep Hd). intros (c' & Hc' & Hdc & _).
      apply not_true_iff_false in Hc. apply Hc. rewrite orb_true_iff, !String.eqb_eq.
      naive_solver.
  - apply Hback. rewrite M_end by done. by rewrite Et.
Qed.

Lemma skip_stars_spec q : skip_stars q = [] ↔ seg_match q [].
Proof.
  induction q as [|d q IH]; simpl; [split; constructor|].
  destruct (String.eqb_spec d "*") as [->|Hd].
  - rewrite IH. split; [by constructor|]. inversion 1; subst; done.
  - split; [done|]. inversion 1; subst; done.
Qed.
End segment.

(** The iterative matcher of one segment never runs out of steps, and is the dialect. *)
Lemma match_chars_spec p t :
  is_some (segment_loop (segment_fuel p t) p t 0 0 None) = true ∧
  (match_chars p t = true ↔ seg_match p t).
Proof.
  assert (loop_inv p t 0 0 None) as Hinv by (simpl; split_and!; [done|intros i Hi; lia|done]).
  pose proof (segment_loop_spec p t (segment_fuel p t) 0 0 None Hinv) as Hl.
  specialize (Hl ltac:(lia) ltac:(unfold measure, segment_fuel; nia)).
  unfold match_chars. destruct (segment_loop _ _ _ _ _ _) as [[[|] pi]|]; try done.
  - unfold M in Hl. rewrite (drop_ge t (length t)), !drop_0, <- skip_stars_spec in Hl by lia.
    split; [done|]. rewrite Hl. by destruct (skip_stars _).
Qed.

Lemma match_segments_spec pat path : match_segments pat path = true ↔ path_match pat path.
Proof.
  revert path. induction pat as [|first pat IH]; intros path; cbn [match_segments].
  { destruct path; split; try done; [constructor|inversion 1]. }
  destruct (String.eqb_spec first "**") as [->|Hf].
  - assert (path_match ("**" :: pat) path ↔ ∃ i, i <= length path ∧ path_match pat (drop i path))
      as Hany.
    { split.
      - intros Hm. remember ("**" :: pat) as q eqn:Eq. destruct Hm as [|q sk s Hm|]; [done| |];
          [|by injection Eq as -> ->].
        injection Eq as ->. exists (length sk). rewrite length_app, drop_app_length. split; [lia|done].
      - intros (i & _ & Hm). rewrite <- (take_drop i path). by constructor. }
    rewrite Hany. setoid_rewrite <- IH. destruct pat as [|p0 pat].
    + split; [|done]. intros _. exists (length path). split; [done|]. by rewrite drop_all.
    + rewrite existsb_exists. setoid_rewrite in_seq. split.
      * intros (i & Hi & Hm). exists i. split; [lia|done].
      * intros (i & Hi & Hm). exists i. split; [lia|done].
  - destruct path as [|head tail]; [split; [done|inversion 1; subst; done]|].
    pose proof (match_chars_spec (Chars.chars first) (Chars.chars head)) as [_ Hs].
    unfold match_segment. destruct (match_chars _ _) eqn:E.
    + rewrite IH. split.
      * intros Hm. constructor; [done|by apply Hs|done].
      * inversion 1; subst; done.
    + split; [done|]. intros Hm. inversion Hm as [| |f q h r Hne Hseg Hrest]; subst; [done|].
      by apply Hs in Hseg.
Qed.

(** The glob matcher is the documented dialect: [matches] accepts a path exactly when
    its segments match those of the pattern, where [*] is any run within a segment, [?]
    one character, and [**] any number of segments; the backtracking loop behind it
    always ends. *)
Theorem matches_dialect pattern path :
  (matches pattern path = true ↔ path_match (pattern_segments pattern) (path_segments path)) ∧
  ∀ seg s, is_some (segment_loop (segment_fuel (Chars.chars seg) (Chars.chars s))
    (Chars.chars seg) (Chars.chars s) 0 0 None) = true.
Proof. split; [apply match_segments_spec|]. intros seg s. apply match_chars_spec. Qed.

(** A path filter never hides a change it cannot see: an unknown change set, and a
    diff too large to record, match every [paths:] filter and satisfy no
    [paths-ignore:] one; a known one is ignored only when it is nonempty and every
    path of it is covered by some pattern, and matches when some path is. *)
Theorem changes_fail_open patterns paths reason :
  matches_any (Unknown reason) patterns = true ∧
  all_match (Unknown reason) patterns = false ∧
  (MAX_CHANGED_PATHS < length paths → ∃ r, known paths = Unknown r) ∧
  (length paths <= MAX_CHANGED_PATHS → known paths = Known paths) ∧
  (all_match (Known paths) patterns = true ↔
    paths ≠ [] ∧ ∀ p, p ∈ paths → ∃ pat, pat ∈ patterns ∧
      path_match (pattern_segments pat) (path_segments p)) ∧
  (matches_any (Known paths) patterns = true ↔
    ∃ pat p, pat ∈ patterns ∧ p ∈ paths ∧ path_match (pattern_segments pat) (path_segments p)).
Proof.
  assert (∀ p, existsb (λ pat, matches pat p) patterns = true ↔
    ∃ pat, pat ∈ patterns ∧ path_match (pattern_segments pat) (path_segments p)) as Hany.
  { intros p. rewrite existsb_exists. setoid_rewrite <- list_elem_of_In.
    unfold matches. by setoid_rewrite match_segments_spec. }
  split; [done|split; [done|]]. unfold known. split_and!.
  - intros Hlt%Nat.ltb_lt. rewrite Hlt. by eexists.
  - intros Hge%Nat.ltb_ge. by rewrite Hge.
  - assert (all_match (Known paths) patterns = true ↔ paths ≠ [] ∧ patterns ≠ [] ∧
      forallb (λ p, existsb (λ pat, matches pat p) patterns) paths = true) as ->.
    { unfold all_match. destruct paths, patterns; naive_solver. }
    rewrite forallb_forall. setoid_rewrite <- list_elem_of_In. setoid_rewrite Hany. split.
    + intros (? & _ & ?). done.
    + intros [Hne Hall]. split_and!; [done| |done].
      destruct paths as [|p0 paths]; [done|]. destruct (Hall p0) as (pat & Hin & _); [constructor|].
      by intros ->; apply not_elem_of_nil in Hin.
  - unfold matches_any. rewrite existsb_exists. setoid_rewrite existsb_exists.
    setoid_rewrite <- list_elem_of_In. unfold matches. setoid_rewrite match_segments_spec.
    naive_solver.
Qed.

Example glob_examples :
  matches "packages/api/**" "./packages/api/src/lib.rs" = true ∧
  matches "**/*.rs" "lib.rs" = true ∧ matches "src" "src/lib.rs" = false ∧
  match_segment "a*a*a*b" "aaaaaaaaaaaaaaaa" = false ∧ match_segment "*.r?" "lib.rs" = true.
Proof. vm_compute. repeat split; reflexivity. Qed.
