(* ===== verification/ArtStore.v ===== *)
(** * The artifact store: [artifacts/src/store.rs], [digest.rs], [tags.rs], [manifest.rs]

    The store is a directory tree, so its state is the filesystem: names, inodes, and
    the link count the kernel keeps of each inode. Every operation is a program over that
    state which may fail at any system call. *)
From Stdlib Require Import Ascii String ZArith Lia Bool.
From stdpp Require Import base option list strings gmap fin_maps.
From S2P Require Import Prelude.
Open Scope string_scope.
Open Scope list_scope.
Open Scope Z_scope.

(** ** Digests *)

Definition DIGEST_HEX_LEN : nat := 64.

Inductive DigestError : Type := BadLength (n : nat) | BadChar.

(** A [Digest] is the string it wraps. *)
Definition parse_digest (s : string) : result DigestError string :=
  if negb (String.length s =? DIGEST_HEX_LEN)%nat then Err (BadLength (String.length s))
  else if negb (Str.all (λ b, Str.is_ascii_digit b || Str.in_range 97 102 b) s) then Err BadChar
  else Ok s.

Definition shard (d : string) : string := Str.take 2 d.

(** ** Tag names *)

Definition MAX_LEN : nat := 64.

Inductive TagError : Type := TagEmpty | TagTooLong | TagBadChar | TagBadStart | TagReserved.

Definition RESERVED : list string :=
  ["."; ".."; "con"; "prn"; "aux"; "nul"; "com1"; "com2"; "com3"; "com4"; "lpt1"; "lpt2";
   "lpt3"; "lpt4"].

Definition parse_tag (s : string) : result TagError string :=
  match s with
  | "" => Err TagEmpty
  | String first _ =>
    if (MAX_LEN <? String.length s)%nat then Err TagTooLong
    else if Ascii.eqb first "-" || Ascii.eqb first "." then Err TagBadStart
    else if negb (Str.all (λ b, Str.is_ascii_alphanumeric b || Ascii.eqb b "_"
                                || Ascii.eqb b "-" || Ascii.eqb b ".") s) then Err TagBadChar
    else if existsb (λ r, Str.eq_ignore_ascii_case r s) RESERVED then Err TagReserved
    else Ok s
  end.

(** A digest or a tag, the digest first. *)
Inductive Ref : Type := RefDigest (d : string) | RefTag (t : string).

Definition parse_ref (s : string) : result TagError Ref :=
  match parse_digest s with
  | Ok d => Ok (RefDigest d)
  | Err _ => t <-? parse_tag s ;; Ok (RefTag t)
  end.

(** ** Manifests and labels *)

Definition SCHEMA_VERSION : Z := 1.

Record Entry : Type := { e_name : string; e_digest : string; e_size : Z }.
Record Manifest : Type := {
  schema : Z;
  kind : string;
  entries : list Entry;
  annotations : gmap string string;
}.

Record Label : Type := { l_name : option string; l_description : option string }.

Definition MAX_NAME : nat := 80.
Definition MAX_DESCRIPTION : nat := 2000.

Inductive LabelError : Type :=
| NameTooLong | DescriptionTooLong | NameControl | DescriptionControl | LabelEmpty.

(** [char::is_control]: U+0000 to U+001F and U+007F to U+009F. *)
Definition is_control (ch : string) : bool :=
  match ch with
  | String c "" => Str.in_range 0 31 c || Ascii.eqb c "127"
  | String c (String d "") => Ascii.eqb c "194" && Str.in_range 128 159 d
  | _ => false
  end.

Definition validate_label (l : Label) : result LabelError unit :=
  bail_if (negb (is_some (l_name l)) && negb (is_some (l_description l))) LabelEmpty ;;?
  match l_name l with
  | Some n =>
    bail_if (MAX_NAME <? length (Chars.chars n))%nat NameTooLong ;;?
    bail_if (existsb is_control (Chars.chars n)) NameControl
  | None => Ok tt
  end ;;?
  match l_description l with
  | Some d =>
    bail_if (MAX_DESCRIPTION <? length (Chars.chars d))%nat DescriptionTooLong ;;?
    bail_if (existsb (λ c, is_control c && negb (existsb (String.eqb c)
        [String "010" ""; String "013" ""; String "009" ""])) (Chars.chars d))
      DescriptionControl
  | None => Ok tt
  end.

Definition nonempty (s : string) : option string :=
  if String.eqb (Chars.trim s) "" then None else Some (Chars.trim s).

Definition new_label (name description : option string) : result LabelError Label :=
  let l := {| l_name := name ≫= nonempty; l_description := description ≫= nonempty |} in
  validate_label l ;;? Ok l.

(** ** The filesystem *)

(** A file of the store, by its directory under the root, or a path outside it. *)
Inductive Path : Type :=
| Within (dir name : string)
| Outside (path : string).
#[global] Instance Path_eq_dec : EqDecision Path.
Proof. solve_decision. Defined.
#[global] Instance Path_countable : Countable Path.
Proof.
  apply (inj_countable'
    (λ p, match p with Within d n => inl (d, n) | Outside s => inr s end)
    (λ x, match x with inl (d, n) => Within d n | inr s => Outside s end)).
  by intros [].
Defined.

Record Inode : Type := {
  data : string;
  allocated : Z;
  created : Z;
  sealed : bool;   (** mode [0444]: opening it for writing is refused *)
}.

Record Fs : Type := {
  names : gmap Path nat;
  inodes : gmap nat Inode;
}.

(** What the kernel does to a system call. *)
Record Env : Type := {
  clock : Z;
  blocks : string → Z;
  same_dev : string → bool;
  emlink : bool;
  statfs : option Z;   (** the bytes available, unless the call fails *)
  min_free_bytes : Z;   (** the reserve the store was opened with *)
  lock_fails : bool;
  readdir_fails : string → bool;
  stat_fails : Path → bool;
  read_fails : Path → bool;
  unlink_fails : Path → bool;
  write_fails : Path → bool;
  fsync_fails : string → bool;
  mkdir_fails : string → bool;
  short_copy : string → option string;   (** what a copy that fails midway left behind *)
}.

Inductive IoKind : Type := NotFoundKind | AlreadyExistsKind | OtherKind.

Inductive Error : Type :=
| NotFound (d : string)
| TagNotFound (t : string)
| BadDigest (e : DigestError)
| BadTagName (e : TagError)
| BadLabel (e : LabelError)
| NoSpace (needed available reserve : Z)
| LinkLimit (d : string) (nlink : Z)
| DigestMismatch (expected actual : string)
| SourceShrank (path : string)
| SharedInode (path : string) (nlink : Z)
| ManifestVersion (v : Z)
| AmbiguousManifest (d : string) (names : list string)
| Unauthorized
| ReadOnlyStore
| Io (context : string) (kind : IoKind).

(** *** Programs over the filesystem *)

Definition M (A : Type) : Type := Fs → result Error A * Fs.
Definition ret {A} (a : A) : M A := λ fs, (Ok a, fs).
Definition fail {A} (e : Error) : M A := λ fs, (Err e, fs).
Definition bind {A B} (m : M A) (k : A → M B) : M B :=
  λ fs, match m fs with (Ok a, fs') => k a fs' | (Err e, fs') => (Err e, fs') end.
Definition gets {A} (f : Fs → A) : M A := λ fs, (Ok (f fs), fs).
Definition modify (f : Fs → Fs) : M unit := λ fs, (Ok tt, f fs).
(** [Result::ok], and [match r { Ok .. Err .. }]. *)
Definition attempt {A} (m : M A) : M (result Error A) :=
  λ fs, match m fs with (r, fs') => (Ok r, fs') end.
Definition lift {A} (r : result Error A) : M A := λ fs, (r, fs).
Definition fail_if (b : bool) (e : Error) : M unit := if b then fail e else ret tt.

Declare Scope art_scope.
Delimit Scope art_scope with art.
Notation "x <-! m ;; k" := (bind m (λ x, k))
  (at level 100, m at next level, right associativity) : art_scope.
Notation "m ;;! k" := (bind m (λ _, k)) (at level 100, right associativity) : art_scope.
Open Scope art_scope.

(** [for x in l { acc = f(acc, x)?; }]. *)
Fixpoint for_each {A R} (f : A → R → M R) (l : list A) (r : R) : M R :=
  match l with
  | [] => ret r
  | x :: l' => r' <-! f x r ;; for_each f l' r'
  end.

(** *** Inodes and names *)

Definition ino_at (fs : Fs) (p : Path) : option nat := names fs !! p.
Definition inode_at (fs : Fs) (p : Path) : option Inode := i ← ino_at fs p; inodes fs !! i.

(** [st_nlink]: the names that point at the inode. *)
Definition nlink (fs : Fs) (i : nat) : nat :=
  length (List.filter (λ x, Nat.eqb (snd x) i) (map_to_list (names fs))).

Definition set_names (f : gmap Path nat → gmap Path nat) (fs : Fs) : Fs :=
  {| names := f (names fs); inodes := inodes fs |}.

(** A new inode under a name. *)
Definition create_file (p : Path) (n : Inode) (fs : Fs) : Fs :=
  let i := fresh (dom (inodes fs)) in
  {| names := <[p := i]> (names fs); inodes := <[i := n]> (inodes fs) |}.

Record FileStat : Type := { st_size : Z; st_allocated : Z; st_nlink : Z; st_created : Z }.

Section store.
Context (digest_of : string → string) (from_json : string → option Manifest)
  (to_canonical_json : Manifest → string) (label_json : Label → string).
Context (env : Env).

Definition stat_path (p : Path) : M FileStat := λ fs,
  if stat_fails env p then (Err (Io "stat" OtherKind), fs)
  else match ino_at fs p with
       | Some i =>
         match inodes fs !! i with
         | Some n => (Ok {| st_size := Z.of_nat (String.length (data n));
                            st_allocated := allocated n;
                            st_nlink := Z.of_nat (nlink fs i); st_created := created n |}, fs)
         | None => (Err (Io "stat" NotFoundKind), fs)
         end
       | None => (Err (Io "stat" NotFoundKind), fs)
       end.

(** [Path::exists]: any failure to stat is "no". *)
Definition exists_path (p : Path) : M bool :=
  r <-! attempt (stat_path p) ;; ret (is_ok r).

Definition read_file (p : Path) : M string := λ fs,
  match inode_at fs p with
  | Some n => if read_fails env p then (Err (Io "read" OtherKind), fs) else (Ok (data n), fs)
  | None => (Err (Io "read" NotFoundKind), fs)
  end.

Definition unlink_if_present (p : Path) : M bool := λ fs,
  match ino_at fs p with
  | None => (Ok false, fs)
  | Some _ =>
    if unlink_fails env p then (Err (Io "unlink" OtherKind), fs)
    else (Ok true, set_names (delete p) fs)
  end.

(** [fsync_dir]. *)
Definition fsync_dir (dir : string) : M unit := fail_if (fsync_fails env dir) (Io "fsync" OtherKind).

(** [lock.acquire]; the operations of the store are atomic at its granularity. *)
Definition acquire : M unit := fail_if (lock_fails env) (Io "acquire store lock" OtherKind).

(** [space::guard]. *)
Definition guard_space (needed : Z) : M unit :=
  match statfs env with
  | None => fail (Io "statfs" OtherKind)
  | Some available =>
    fail_if (available <? U64.saturating_add needed (min_free_bytes env))
      (NoSpace needed available (min_free_bytes env))
  end.

(** ** Paths of the store *)

Definition sub_path (sub d : string) : Path := Within (sub +:+ "/" +:+ shard d) d.
Definition blob_path (d : string) : Path := sub_path "blobs" d.
Definition manifest_path (d : string) : Path := sub_path "manifests" d.
Definition label_path (d : string) : Path := sub_path "labels" d.
Definition public_path (d : string) : Path := sub_path "public" d.
Definition tag_path (t : string) : Path := Within "tags" t.
Definition staging : Path := Within "tmp" "".

(** ** Blobs *)

Record BlobInfo : Type := {
  b_digest : string; b_size : Z; b_allocated : Z; b_nlink : Z; b_created : Z; b_deduped : bool;
}.

Definition stat (d : string) : M BlobInfo :=
  r <-! attempt (stat_path (blob_path d)) ;;
  match r with
  | Ok st => ret {| b_digest := d; b_size := st_size st; b_allocated := st_allocated st;
                    b_nlink := st_nlink st; b_created := st_created st; b_deduped := false |}
  | Err (Io _ NotFoundKind) => fail (NotFound d)
  | Err e => fail e
  end.

Definition has (d : string) : M bool := r <-! attempt (stat d) ;; ret (is_ok r).

(** A file staged in [tmp], synced and sealed. *)
Definition staged (bytes : string) : Inode :=
  {| data := bytes; allocated := blocks env bytes; created := clock env; sealed := true |}.

(** [SyncedTmp::link_into]: [true] for [LinkOutcome::Created]. *)
Definition link_into (n : Inode) (dest : Path) : M bool :=
  present <-! gets (λ fs, ino_at fs dest) ;;
  if is_some present then ret false
  else fail_if (write_fails env dest) (Io "link" OtherKind) ;;!
       modify (create_file dest n) ;;! ret true.

Definition commit_blob (bytes : string) (d : string) : M BlobInfo :=
  fail_if (write_fails env staging) (Io "sync" OtherKind) ;;!
  acquire ;;!
  created <-! link_into (staged bytes) (blob_path d) ;;
  (if created then fsync_dir ("blobs/" +:+ shard d) else ret tt) ;;!
  info <-! stat d ;;
  ret {| b_digest := b_digest info; b_size := b_size info; b_allocated := b_allocated info;
         b_nlink := b_nlink info; b_created := b_created info; b_deduped := negb created |}.

(** The stream is staged and hashed, with the free-space guard once enough was written, and
    committed under its digest. *)
Definition GUARD_INTERVAL : Z := 256 * 1024 * 1024.
Definition insert_bytes (bytes : string) : M BlobInfo :=
  (if GUARD_INTERVAL <=? Z.of_nat (String.length bytes) then guard_space 0 else ret tt) ;;!
  commit_blob bytes (digest_of bytes).

Definition open_blob (d : string) : M string :=
  present <-! exists_path (blob_path d) ;;
  if present then read_file (blob_path d) else fail (NotFound d).

Definition verify (d : string) : M unit :=
  present <-! exists_path (blob_path d) ;;
  if negb present then fail (NotFound d)
  else
    bytes <-! read_file (blob_path d) ;;
    fail_if (negb (String.eqb (digest_of bytes) d)) (DigestMismatch d (digest_of bytes)).

(** ** Materializations *)

Inductive Materialize : Type :=
| ReadOnly
| Writable (shape : string → Z) (mode_readonly : bool).

Inductive Method : Type := Hardlink | SparseCopy | DenseCopy.

Record Materialized : Type := {
  m_path : string; m_digest : string; m_method : Method; m_bytes_written : Z;
}.

(** The bytes a copy writes: the allocated extents, or what the caller's shape keeps. *)
Definition copy_written (how : Materialize) (n : Inode) : Z :=
  match how with ReadOnly => allocated n | Writable shape _ => shape (data n) end.
Definition copy_mode (how : Materialize) : bool :=
  match how with ReadOnly => true | Writable _ ro => ro end.

Definition materialize_copy (d : string) (n : Inode) (dest : string) (how : Materialize) :
    M Materialized :=
  guard_space (allocated n) ;;!
  bytes <-! read_file (blob_path d) ;;
  present <-! gets (λ fs, ino_at fs (Outside dest)) ;;
  fail_if (is_some present) (Io "create" AlreadyExistsKind) ;;!
  fail_if (write_fails env (Outside dest)) (Io "create" OtherKind) ;;!
  match short_copy env dest with
  | Some partial =>
    modify (create_file (Outside dest)
      {| data := partial; allocated := blocks env partial; created := clock env;
         sealed := copy_mode how |}) ;;! fail (Io "copy blob" OtherKind)
  | None => ret tt
  end ;;!
  modify (create_file (Outside dest)
    {| data := bytes; allocated := copy_written how n; created := clock env;
       sealed := copy_mode how |}) ;;!
  fail_if (fsync_fails env dest) (Io "fdatasync" OtherKind) ;;!
  ret {| m_path := dest; m_digest := d;
         m_method := if copy_written how n <? Z.of_nat (String.length (data n))
                     then SparseCopy else DenseCopy;
         m_bytes_written := copy_written how n |}.

Definition materialize (d dest : string) (how : Materialize) : M Materialized :=
  stat d ;;!
  fail_if (mkdir_fails env dest) (Io "create" OtherKind) ;;!
  blob <-! gets (λ fs, inode_at fs (blob_path d)) ;;
  match blob with
  | None => fail (NotFound d)
  | Some n =>
    match how with
    | ReadOnly =>
      if same_dev env dest && negb (emlink env) then
        present <-! gets (λ fs, ino_at fs (Outside dest)) ;;
        fail_if (is_some present) (Io "link" AlreadyExistsKind) ;;!
        fail_if (write_fails env (Outside dest)) (Io "link" OtherKind) ;;!
        src <-! gets (λ fs, ino_at fs (blob_path d)) ;;
        modify (set_names (λ m, match src with Some i => <[Outside dest := i]> m | None => m end)) ;;!
        ret {| m_path := dest; m_digest := d; m_method := Hardlink; m_bytes_written := 0 |}
      else materialize_copy d n dest how
    | Writable _ _ => materialize_copy d n dest how
    end
  end.

Definition release (m : Materialized) : M bool := unlink_if_present (Outside (m_path m)).

(** A holder of a materialized file writes to it. *)
Definition guest_write (p : string) (bytes : string) : M unit := λ fs,
  match ino_at fs (Outside p) with
  | None => (Err (Io "open" NotFoundKind), fs)
  | Some i =>
    match inodes fs !! i with
    | None => (Err (Io "open" NotFoundKind), fs)
    | Some n =>
      if sealed n then (Err (Io "open" OtherKind), fs)
      else (Ok tt, {| names := names fs;
                      inodes := <[i := {| data := bytes; allocated := allocated n;
                                          created := created n; sealed := sealed n |}]> (inodes fs) |})
    end
  end.

(** ** Manifests, tags, labels and public markers *)

Definition manifest_of_json (bytes : string) : result Error Manifest :=
  m <-? ok_or (from_json bytes) (Io "parse manifest" OtherKind) ;;
  if SCHEMA_VERSION <? schema m then Err (ManifestVersion (schema m)) else Ok m.

Definition put_manifest (m : Manifest) : M string :=
  let bytes := to_canonical_json m in
  let d := digest_of bytes in
  fail_if (write_fails env staging) (Io "write manifest" OtherKind) ;;!
  acquire ;;!
  created <-! link_into (staged bytes) (manifest_path d) ;;
  (if created then fsync_dir ("manifests/" +:+ shard d) else ret tt) ;;!
  ret d.

Definition get_manifest (d : string) : M Manifest :=
  r <-! attempt (read_file (manifest_path d)) ;;
  match r with
  | Ok bytes => lift (manifest_of_json bytes)
  | Err (Io _ NotFoundKind) => fail (NotFound d)
  | Err e => fail e
  end.

(** Write a temporary file next to the name and rename it into place. *)
Definition replace_file (dir : string) (p : Path) (body : string) : M unit :=
  fail_if (write_fails env p) (Io "write" OtherKind) ;;!
  modify (create_file p {| data := body; allocated := blocks env body; created := clock env;
                           sealed := false |}) ;;!
  fsync_dir dir.

Definition set_tag (t d : string) : M unit :=
  replace_file "tags" (tag_path t) (d +:+ String "010" "").

Definition get_tag (t : string) : M string :=
  r <-! attempt (read_file (tag_path t)) ;;
  match r with
  | Ok body => match parse_digest (Chars.trim body) with
               | Ok d => ret d
               | Err e => fail (BadDigest e)
               end
  | Err (Io _ NotFoundKind) => fail (TagNotFound t)
  | Err e => fail e
  end.

Definition remove_tag (t : string) : M bool := unlink_if_present (tag_path t).

Definition write_label (d : string) (l : Label) : M unit :=
  replace_file ("labels/" +:+ shard d) (label_path d) (label_json l).

Definition set_label (d : string) (l : Label) : M unit :=
  lift match validate_label l with Ok _ => Ok tt | Err e => Err (BadLabel e) end ;;!
  b <-! exists_path (blob_path d) ;;
  m <-! (if b then ret true else exists_path (manifest_path d)) ;;
  fail_if (negb m) (NotFound d) ;;!
  write_label d l.

Definition remove_label (d : string) : M bool := unlink_if_present (label_path d).

Definition write_public (d : string) : M unit :=
  fail_if (write_fails env (public_path d)) (Io "create" OtherKind) ;;!
  present <-! gets (λ fs, ino_at fs (public_path d)) ;;
  (if is_some present then ret tt
   else modify (create_file (public_path d)
     {| data := ""; allocated := 0; created := clock env; sealed := false |})) ;;!
  fsync_dir ("public/" +:+ shard d).

Definition set_public (d : string) : M unit :=
  b <-! exists_path (blob_path d) ;;
  fail_if (negb b) (NotFound d) ;;! write_public d.

Definition remove_public (d : string) : M bool := unlink_if_present (public_path d).

Definition is_public (d : string) : M bool := exists_path (public_path d).

(** ** Listings *)

Definition starts_with_dot (s : string) : bool := Str.starts_with "." s.

(** [read_dir], in the order the directory happens to have. *)
Definition dir_entries (fs : Fs) (dir : string) : list (string * nat) :=
  omap (λ x, match fst x with
             | Within d n => if String.eqb d dir then Some (n, snd x) else None
             | Outside _ => None
             end) (map_to_list (names fs)).

Definition read_dir (dir : string) : M (list (string * nat)) :=
  fail_if (readdir_fails env dir) (Io "read" OtherKind) ;;! gets (λ fs, dir_entries fs dir).

Definition hex_digits : list string :=
  ["0"; "1"; "2"; "3"; "4"; "5"; "6"; "7"; "8"; "9"; "a"; "b"; "c"; "d"; "e"; "f"].

(** [format!("{i:02x}")] for [i] in [0..256]. *)
Definition shards : list string := a ← hex_digits; b ← hex_digits; [a +:+ b].

Definition shard_entries (sub sh : string) : M (list (string * nat)) :=
  l <-! read_dir (sub +:+ "/" +:+ sh) ;;
  ret (sort_by (λ x y, Nat.compare (snd x) (snd y))
         (List.filter (λ x, negb (starts_with_dot (fst x))) l)).

Definition list_digests (sub : string) : M (list string) :=
  for_each (λ sh out,
      l <-! shard_entries sub sh ;;
      ret (out ++ omap (λ x, match parse_digest (fst x) with Ok d => Some d | Err _ => None end) l))
    shards [].

Definition list_tags : M (list (string * string)) :=
  l <-! read_dir "tags" ;;
  out <-! for_each (λ x out,
      if starts_with_dot (fst x) then ret out
      else match parse_tag (fst x) with
           | Err _ => ret out
           | Ok tag =>
             r <-! attempt (get_tag tag) ;;
             match r with Ok d => ret (out ++ [(tag, d)]) | Err _ => ret out end
           end) l [] ;;
  ret (sort_by (λ x y, String.compare (fst x) (fst y)) out).

(** ** Resolving references *)

Definition resolve (r : Ref) : M string :=
  match r with RefDigest d => ret d | RefTag t => get_tag t end.

Definition resolve_blob (r : Ref) : M string :=
  d <-! resolve r ;;
  present <-! has d ;;
  if present then ret d
  else
    m <-! get_manifest d ;;
    match entries m with
    | [e] => ret (e_digest e)
    | es => fail (AmbiguousManifest d (e_name <$> es))
    end.
End store.

(** ** Invariants of programs *)

(** [m] keeps [K], whether it succeeds or fails. *)
Definition inv {A} (K : Fs → Prop) (m : M A) : Prop := ∀ fs, K fs → K (snd (m fs)).
(** [m] changes nothing. *)
Definition reads {A} (m : M A) : Prop := ∀ fs, snd (m fs) = fs.

Section programs.
Context {A B R : Type}.
Implicit Types (m : M A) (k : A → M B).

Lemma reads_ret (a : A) : reads (ret a). Proof. done. Qed.
Lemma reads_fail e : reads (fail (A:=A) e). Proof. done. Qed.
Lemma reads_gets (f : Fs → A) : reads (gets f). Proof. done. Qed.
Lemma reads_lift (r : result Error A) : reads (lift r). Proof. done. Qed.
Lemma reads_fail_if b e : reads (fail_if b e). Proof. by destruct b. Qed.
Lemma reads_attempt m : reads m → reads (attempt m).
Proof. intros Hm fs. unfold attempt. specialize (Hm fs). by destruct (m fs). Qed.
Lemma reads_bind m k : reads m → (∀ a, reads (k a)) → reads (bind m k).
Proof.
  intros Hm Hk fs. unfold bind. specialize (Hm fs). destruct (m fs) as [[a|e] fs']; simpl in *; subst;
    [apply Hk|done].
Qed.
Lemma reads_for_each (f : A → R → M R) l r : (∀ x r, reads (f x r)) → reads (for_each f l r).
Proof.
  intros Hf. revert r. induction l as [|x l IH]; intros r fs; [done|]. cbn [for_each].
  unfold bind. specialize (Hf x r fs). destruct (f x r fs) as [[r'|e] fs']; simpl in *; subst; [apply IH|done].
Qed.

Context (K : Fs → Prop).
Lemma inv_reads m : reads m → inv K m.
Proof. intros Hm fs Hfs. by rewrite Hm. Qed.
Lemma inv_attempt m : inv K m → inv K (attempt m).
Proof. intros Hm fs Hfs. unfold attempt. specialize (Hm fs Hfs). by destruct (m fs). Qed.
Lemma inv_bind m k : inv K m → (∀ a, inv K (k a)) → inv K (bind m k).
Proof.
  intros Hm Hk fs Hfs. unfold bind. specialize (Hm fs Hfs).
  destruct (m fs) as [[a|e] fs']; [by apply Hk|done].
Qed.
Lemma inv_for_each (f : A → R → M R) l r : (∀ x r, x ∈ l → inv K (f x r)) → inv K (for_each f l r).
Proof.
  revert r. induction l as [|x l IH]; intros r Hf fs Hfs; [done|]. cbn [for_each]. unfold bind.
  pose proof (Hf x r ltac:(by constructor) fs Hfs) as Hx.
  destruct (f x r fs) as [[r'|e] fs']; [|done]. apply IH; [|done]. intros y r0 Hy. apply Hf. by constructor.
Qed.
(** A loop that only reads is a fold. *)
Lemma for_each_fold (f : A → R → M R) (g : R → A → R) l r fs :
  (∀ x r, x ∈ l → f x r fs = (Ok (g r x), fs)) → for_each f l r fs = (Ok (foldl g r l), fs).
Proof.
  revert r. induction l as [|x l IH]; intros r Hf; [done|]. cbn [for_each foldl]. unfold bind.
  rewrite Hf by constructor. apply IH. intros y r0 Hy. apply Hf. by constructor.
Qed.
End programs.

Create HintDb art.
#[export] Hint Resolve reads_ret reads_fail reads_gets reads_lift reads_fail_if : art.
#[export] Hint Resolve reads_attempt reads_bind : art.

Section reading.
Context (digest_of : string → string) (from_json : string → option Manifest) (env : Env).

Lemma reads_stat_path p : reads (stat_path env p).
Proof. intros fs. unfold stat_path. destruct (stat_fails env p), (ino_at fs p) as [i|]; try done. by destruct (inodes fs !! i). Qed.
Lemma reads_read_file p : reads (read_file env p).
Proof. intros fs. unfold read_file. destruct (inode_at fs p); [|done]. by destruct (read_fails env p). Qed.
Lemma reads_exists_path p : reads (exists_path env p).
Proof. apply reads_bind; [apply reads_attempt, reads_stat_path|intros; apply reads_ret]. Qed.
Lemma reads_stat d : reads (stat env d).
Proof.
  apply reads_bind; [apply reads_attempt, reads_stat_path|].
  intros [st|[]]; try (apply reads_ret || apply reads_fail).
  match goal with k : IoKind |- _ => destruct k end; apply reads_fail.
Qed.
Lemma reads_read_dir dir : reads (read_dir env dir).
Proof. apply reads_bind; [apply reads_fail_if|intros; apply reads_gets]. Qed.
Lemma reads_shard_entries sub sh : reads (shard_entries env sub sh).
Proof. apply reads_bind; [apply reads_read_dir|intros; apply reads_ret]. Qed.
Lemma reads_list_digests sub : reads (list_digests env sub).
Proof.
  apply reads_for_each. intros sh out. apply reads_bind; [apply reads_shard_entries|intros; apply reads_ret].
Qed.
Lemma reads_get_tag t : reads (get_tag env t).
Proof.
  apply reads_bind; [apply reads_attempt, reads_read_file|].
  intros [body|[]]; try apply reads_fail.
  - destruct (parse_digest _); [apply reads_ret|apply reads_fail].
  - match goal with k : IoKind |- _ => destruct k end; apply reads_fail.
Qed.
Lemma reads_list_tags : reads (list_tags env).
Proof.
  apply reads_bind; [apply reads_read_dir|]. intros l.
  apply reads_bind; [|intros; apply reads_ret]. apply reads_for_each. intros x out.
  destruct (starts_with_dot _); [apply reads_ret|]. destruct (parse_tag _); [|apply reads_ret].
  apply reads_bind; [apply reads_attempt, reads_get_tag|]. intros []; apply reads_ret.
Qed.
End reading.
Lemma reads_guard_space env n : reads (guard_space env n).
Proof. unfold guard_space. destruct (statfs env); [apply reads_fail_if|apply reads_fail]. Qed.
#[export] Hint Resolve reads_guard_space : art.
#[export] Hint Resolve reads_stat_path reads_read_file reads_exists_path reads_stat reads_read_dir
  reads_shard_entries reads_list_digests reads_get_tag reads_list_tags : art.

(** ** Files *)

Lemma sub_path_inj s1 s2 d1 d2 : sub_path s1 d1 = sub_path s2 d2 → d1 = d2.
Proof. by intros [= _ ->]. Qed.

Lemma inode_at_Some fs p n :
  inode_at fs p = Some n ↔ ∃ i, names fs !! p = Some i ∧ inodes fs !! i = Some n.
Proof. unfold inode_at, ino_at. destruct (names fs !! p); simpl; naive_solver. Qed.

Lemma dir_entries_elem fs dir n i : (n, i) ∈ dir_entries fs dir ↔ names fs !! Within dir n = Some i.
Proof.
  unfold dir_entries. rewrite list_elem_of_omap. split.
  - intros ([p j] & Hp%elem_of_map_to_list & Hx). destruct p as [d m|]; [|done]. simpl in Hx.
    destruct (String.eqb_spec d dir); [|done]. congruence.
  - intros H. exists (Within dir n, i). split; [by apply elem_of_map_to_list|]. simpl.
    by rewrite String.eqb_refl.
Qed.

Lemma nlink_delete fs p i :
  names fs !! p = Some i →
  ∀ j, nlink fs j = ((if Nat.eqb i j then 1 else 0) + nlink (set_names (delete p) fs) j)%nat.
Proof.
  intros Hp j. unfold nlink. cbn [set_names names].
  assert (map_to_list (names fs) ≡ₚ (p, i) :: map_to_list (delete p (names fs))) as Hperm.
  { rewrite <- map_to_list_insert by apply lookup_delete_eq. by rewrite insert_delete_id. }
  assert (∀ l l' : list (Path * nat), l ≡ₚ l' →
    length (List.filter (λ x, Nat.eqb (snd x) j) l) = length (List.filter (λ x, Nat.eqb (snd x) j) l')) as Hlen.
  { intros l l' Hl. by rewrite (filter_perm _ _ _ Hl). }
  rewrite (Hlen _ _ Hperm). simpl. by destruct (Nat.eqb i j).
Qed.

Lemma nlink_pos fs p i : names fs !! p = Some i → (1 <= nlink fs i)%nat.
Proof. intros Hp. rewrite (nlink_delete _ _ _ Hp), Nat.eqb_refl. lia. Qed.

(** Two names of one inode make its link count at least two. *)
Lemma nlink_two fs p q i : names fs !! p = Some i → names fs !! q = Some i → p ≠ q → (2 <= nlink fs i)%nat.
Proof.
  intros Hp Hq Hne. rewrite (nlink_delete _ _ _ Hp), Nat.eqb_refl.
  assert (1 <= nlink (set_names (delete p) fs) i)%nat; [|lia].
  apply (nlink_pos _ q). cbn. by rewrite lookup_delete_ne.
Qed.

Lemma nlink_unique fs p i :
  names fs !! p = Some i → (∀ q, names fs !! q = Some i → q = p) → nlink fs i = 1%nat.
Proof.
  intros Hp Hu. rewrite (nlink_delete _ _ _ Hp), Nat.eqb_refl.
  assert (nlink (set_names (delete p) fs) i = 0%nat); [|lia]. unfold nlink.
  rewrite filter_none; [done|]. intros [q j] Hq%elem_of_map_to_list. cbn in Hq |- *.
  apply lookup_delete_Some in Hq as [Hne Hq]. apply Nat.eqb_neq. intros ->. apply Hne. symmetry. auto.
Qed.

(** ** The store's invariant *)

Section invariant.
Context (digest_of : string → string) (from_json : string → option Manifest)
  (to_canonical_json : Manifest → string) (label_json : Label → string).

(** The two content-addressed kinds. *)
Definition content_path (p : Path) (d : string) : Prop := p = blob_path d ∨ p = manifest_path d.

(** Every name has an inode, content-addressed files are sealed and hash to their name,
    and an inode somebody may write to has a single name. *)
Record store_ok (fs : Fs) : Prop := {
  so_inode : ∀ p i, names fs !! p = Some i → is_Some (inodes fs !! i);
  so_content : ∀ p d n, content_path p d → inode_at fs p = Some n →
    sealed n = true ∧ digest_of (data n) = d;
  so_private : ∀ p q i n, names fs !! p = Some i → names fs !! q = Some i →
    inodes fs !! i = Some n → sealed n = false → p = q;
}.

(** The store is sound and still holds the files [P]. *)
Definition keeps (P : Path → Inode → Prop) (fs : Fs) : Prop :=
  store_ok fs ∧ ∀ p n, P p n → inode_at fs p = Some n.

Context (P : Path → Inode → Prop).

Lemma create_file_eq q n fs :
  ∃ i, inodes fs !! i = None ∧
    create_file q n fs = {| names := <[q := i]> (names fs); inodes := <[i := n]> (inodes fs) |}.
Proof.
  exists (fresh (dom (inodes fs))). split; [|done]. apply not_elem_of_dom, is_fresh.
Qed.

Lemma create_keeps q n fs :
  keeps P fs → (∀ m, ¬ P q m) → (∀ d, content_path q d → sealed n = true ∧ digest_of (data n) = d) →
  keeps P (create_file q n fs).
Proof.
  intros [[Hi Hc Hp] HP] HPq Hq. destruct (create_file_eq q n fs) as (i & Hfresh & ->).
  assert (∀ p j, names fs !! p = Some j → j ≠ i) as Hnew.
  { intros p j Hj ->. apply Hi in Hj as [? ?]. congruence. }
  set (fs' := {| names := _; inodes := _ |}).
  assert (∀ p, p ≠ q → inode_at fs' p = inode_at fs p) as Hother.
  { intros p Hne. unfold inode_at, ino_at, fs'. cbn. rewrite lookup_insert_ne by done.
    destruct (names fs !! p) as [j|] eqn:Hj; [|done]. simpl.
    rewrite lookup_insert_ne; [done|]. intros ->. by apply (Hnew p j). }
  split; [split|].
  - intros p j. cbn. rewrite lookup_insert_Some, lookup_insert_is_Some. naive_solver.
  - intros p d m Hd. destruct (decide (p = q)) as [->|Hne]; [|rewrite Hother by done; eauto].
    unfold inode_at, ino_at, fs'. cbn. rewrite lookup_insert_eq. cbn. rewrite lookup_insert_eq.
    intros [= <-]. eauto.
  - intros p r j m. cbn. rewrite !lookup_insert_Some.
    intros [[<- <-]|[H1 H2]] [[<- E]|[H3 H4]]; [done|by apply Hnew in H4|subst; by apply Hnew in H2|].
    intros [[<- _]|[_ Hm]]; [by apply Hnew in H2|eauto].
  - intros p m Hm. rewrite Hother; [by apply HP|]. intros ->. by apply (HPq m).
Qed.

Lemma delete_keeps q fs :
  keeps P fs → (∀ m, ¬ P q m) → keeps P (set_names (delete q) fs).
Proof.
  intros [[Hi Hc Hp] HP] HPq.
  assert (∀ p n, inode_at (set_names (delete q) fs) p = Some n ↔ p ≠ q ∧ inode_at fs p = Some n) as Hat.
  { intros p n. rewrite !inode_at_Some. cbn. setoid_rewrite lookup_delete_Some. naive_solver. }
  split; [split|].
  - intros p j. cbn. rewrite lookup_delete_Some. naive_solver.
  - intros p d n Hd [_ Hn]%Hat. eauto.
  - intros p r j m. cbn. rewrite !lookup_delete_Some. naive_solver.
  - intros p n Hn. apply Hat. split; [|by apply HP]. intros ->. by apply (HPq n).
Qed.

Lemma hardlink_keeps s q i n fs :
  keeps P fs → (∀ m, ¬ P q m) → (∀ d, ¬ content_path q d) →
  names fs !! s = Some i → inodes fs !! i = Some n → sealed n = true →
  keeps P (set_names <[q := i]> fs).
Proof.
  intros [[Hi Hc Hp] HP] HPq Hq Hs Hn Hsealed.
  assert (∀ p, p ≠ q → inode_at (set_names <[q := i]> fs) p = inode_at fs p) as Hother.
  { intros p Hne. unfold inode_at, ino_at. cbn. by rewrite lookup_insert_ne. }
  split; [split|].
  - intros p j. cbn. rewrite lookup_insert_Some. naive_solver.
  - intros p d m Hd. destruct (decide (p = q)) as [->|Hne]; [by apply Hq in Hd|].
    rewrite Hother by done. eauto.
  - intros p r j m. cbn. rewrite !lookup_insert_Some.
    intros H1 H2 Hj Hm. assert (i ≠ j) by congruence.
    destruct H1 as [[_ ?]|[_ H1]]; [done|]. destruct H2 as [[_ ?]|[_ H2]]; [done|]. eauto.
  - intros p m Hm. rewrite Hother; [by apply HP|]. intros ->. by apply (HPq m).
Qed.

Lemma guest_write_keeps q bytes :
  (∀ m, ¬ P (Outside q) m) → inv (keeps P) (guest_write q bytes).
Proof.
  intros HPq fs [[Hi Hc Hp] HP]. unfold guest_write, ino_at.
  destruct (names fs !! Outside q) as [i|] eqn:Hq; [|done].
  destruct (inodes fs !! i) as [n|] eqn:Hn; [|done]. destruct (sealed n) eqn:Hs; [done|]. cbn [snd].
  assert (∀ p m, p ≠ Outside q → inode_at fs p = Some m → ∀ x,
    inode_at {| names := names fs; inodes := <[i := x]> (inodes fs) |} p = Some m) as Hother.
  { intros p m Hne (j & Hj & Hm)%inode_at_Some x. apply inode_at_Some. exists j. split; [done|]. cbn.
    rewrite lookup_insert_ne; [done|]. intros ->. apply Hne. eauto. }
  split; [split|].
  - intros p j Hj. cbn in *. destruct (decide (i = j)) as [->|Hne];
      [rewrite lookup_insert_eq; eauto|rewrite lookup_insert_ne by done; eauto].
  - intros p d m Hd Hm. destruct (decide (p = Outside q)) as [->|Hne]; [by destruct Hd|].
    apply (Hc p d m Hd). revert Hm. rewrite !inode_at_Some. cbn. intros (j & Hj & Hm). exists j.
    split; [done|]. rewrite lookup_insert_ne in Hm; [done|]. intros ->. apply Hne. eauto.
  - intros p r j m. cbn. intros Hpj Hrj. destruct (decide (i = j)) as [->|Hne].
    + intros _ _. eauto.
    + rewrite lookup_insert_ne by done. eauto.
  - intros p m Hm. apply Hother; [|by apply HP]. intros ->. by apply (HPq m).
Qed.

(** *** Every operation keeps the invariant and the files it has no business with *)

Section operations.
Context (env : Env).
Context (HPout : ∀ s m, ¬ P (Outside s) m) (HPlabel : ∀ d m, ¬ P (label_path d) m)
  (HPpublic : ∀ d m, ¬ P (public_path d) m).

Notation safe := (inv (keeps P)).

Lemma label_not_content d d' : ¬ content_path (label_path d) d'.
Proof. by intros []. Qed.
Lemma public_not_content d d' : ¬ content_path (public_path d) d'.
Proof. by intros []. Qed.
Lemma tag_not_content t d' : ¬ content_path (tag_path t) d'.
Proof. by intros []. Qed.
Lemma outside_not_content s d' : ¬ content_path (Outside s) d'.
Proof. by intros []. Qed.

Lemma modify_create_safe q n :
  (∀ m, ¬ P q m) → (∀ d, content_path q d → sealed n = true ∧ digest_of (data n) = d) →
  safe (modify (create_file q n)).
Proof. intros HPq Hq fs Hfs. by apply create_keeps. Qed.

Lemma link_into_safe n dest :
  (∀ d, content_path dest d → sealed n = true ∧ digest_of (data n) = d) →
  safe (link_into env n dest).
Proof.
  intros Hd fs Hfs. unfold link_into, bind, gets. destruct (ino_at fs dest) as [i|] eqn:Hi; [done|].
  cbn [is_some]. unfold fail_if. destruct (write_fails env dest); [done|]. cbn.
  apply create_keeps; [done| |done]. intros m Hm. destruct Hfs as [_ HP].
  apply HP in Hm. unfold inode_at in Hm. by rewrite Hi in Hm.
Qed.

Lemma unlink_safe p : (∀ m, ¬ P p m) → safe (unlink_if_present env p).
Proof.
  intros Hp fs Hfs. unfold unlink_if_present. destruct (ino_at fs p); [|done].
  destruct (unlink_fails env p); [done|]. by apply delete_keeps.
Qed.

Ltac safe_step :=
  first
    [ apply link_into_safe | apply unlink_safe | apply modify_create_safe
    | match goal with |- safe (bind _ _) => apply inv_bind; [|intros ?] end
    | solve [apply inv_reads; auto with art]
    | match goal with |- safe (if ?b then _ else _) => destruct b end
    | match goal with |- safe (match ?b with _ => _ end) => destruct b end ].

Lemma commit_blob_safe bytes : safe (commit_blob env bytes (digest_of bytes)).
Proof.
  unfold commit_blob, acquire, fsync_dir. repeat safe_step.
  intros d [E|E]; apply sub_path_inj in E as <-; done.
Qed.

Lemma insert_bytes_safe bytes : safe (insert_bytes digest_of env bytes).
Proof.
  apply inv_bind; [|intros; apply commit_blob_safe]. apply inv_reads.
  destruct (_ <=? _); auto with art.
Qed.

Lemma put_manifest_safe m : safe (put_manifest digest_of to_canonical_json env m).
Proof.
  unfold put_manifest, acquire, fsync_dir. repeat safe_step.
  intros d [E|E]; apply sub_path_inj in E as <-; done.
Qed.

Lemma replace_file_safe dir p body :
  (∀ m, ¬ P p m) → (∀ d, ¬ content_path p d) → safe (replace_file env dir p body).
Proof.
  intros Hp Hd. unfold replace_file, fsync_dir. repeat safe_step; [done|]. by intros d ?%Hd.
Qed.

Lemma set_tag_safe t d : (∀ m, ¬ P (tag_path t) m) → safe (set_tag env t d).
Proof. intros Ht. apply replace_file_safe; [done|]. apply tag_not_content. Qed.

Lemma set_label_safe d l : safe (set_label label_json env d l).
Proof.
  unfold set_label, write_label. repeat safe_step. apply replace_file_safe; [apply HPlabel|apply label_not_content].
Qed.

Lemma set_public_safe d : safe (set_public env d).
Proof.
  unfold set_public, write_public, fsync_dir. repeat safe_step; [apply HPpublic|by intros ? ?%public_not_content].
Qed.

Lemma materialize_copy_safe d n dest how : safe (materialize_copy env d n dest how).
Proof.
  unfold materialize_copy.
  repeat safe_step; try apply HPout; by intros ? ?%outside_not_content.
Qed.

Lemma materialize_safe d dest how : safe (materialize env d dest how).
Proof.
  unfold materialize. apply inv_bind; [apply inv_reads; auto with art|intros _].
  apply inv_bind; [apply inv_reads; auto with art|intros _].
  apply inv_bind; [apply inv_reads; auto with art|intros [n|]]; [|apply inv_reads; auto with art].
  destruct how; [|apply materialize_copy_safe].
  destruct (_ && _); [|apply materialize_copy_safe].
  apply inv_bind; [apply inv_reads; auto with art|intros present].
  apply inv_bind; [apply inv_reads; auto with art|intros _].
  apply inv_bind; [apply inv_reads; auto with art|intros _].
  intros fs Hfs.
  change (keeps P (set_names (λ m, match ino_at fs (blob_path d) with
    | Some i => <[Outside dest := i]> m | None => m end) fs)).
  destruct (ino_at fs (blob_path d)) as [i|] eqn:Hi; [|by destruct fs].
  destruct Hfs as [Hok HP]. destruct (so_inode _ Hok _ _ Hi) as [b Hb].
  assert (inode_at fs (blob_path d) = Some b) as Hat by (apply inode_at_Some; eauto).
  apply (hardlink_keeps (blob_path d) _ i b); [done|apply HPout|apply outside_not_content|done|done|].
  by apply (so_content _ Hok _ d b (or_introl eq_refl)).
Qed.
End operations.
End invariant.

(** ** Names never leave the store *)

Definition no_slash (s : string) : bool := Str.all (λ c, negb (Ascii.eqb c "/")) s.

Lemma hex_char c :
  Str.is_ascii_digit c || Str.in_range 97 102 c = true →
  existsb (String.eqb (String c "")) hex_digits = true ∧ Ascii.eqb c "/" = false.
Proof. destruct c as [[] [] [] [] [] [] [] []]; vm_compute; auto; discriminate. Qed.

Lemma tag_char c :
  Str.is_ascii_alphanumeric c || Ascii.eqb c "_" || Ascii.eqb c "-" || Ascii.eqb c "." = true →
  Ascii.eqb c "/" = false.
Proof. destruct c as [[] [] [] [] [] [] [] []]; vm_compute; auto; discriminate. Qed.

Lemma parse_digest_shape s d :
  parse_digest s = Ok d →
  d = s ∧ String.length s = 64%nat ∧ no_slash s = true ∧ shard s ∈ shards.
Proof.
  unfold parse_digest. destruct (Nat.eqb_spec (String.length s) DIGEST_HEX_LEN) as [Hlen|]; [|done].
  cbn [negb]. destruct (Str.all _ s) eqn:Hall; [|done]. intros [= <-]. split_and!; [done|done| |].
  - revert Hall. apply Str.all_impl. intros c [_ Hc]%hex_char. by rewrite Hc.
  - destruct s as [|a [|b s]]; [done|done|]. cbn [Str.all] in Hall.
    apply andb_true_iff in Hall as [Ha%hex_char Hall]. apply andb_true_iff in Hall as [Hb%hex_char _].
    destruct Ha as [Ha _], Hb as [Hb _]. apply existsb_eqb in Ha, Hb.
    change (shard (String a (String b s))) with (String a "" +:+ String b "").
    apply list_elem_of_bind. exists (String a ""). split; [|done].
    apply list_elem_of_bind. exists (String b ""). split; [by apply list_elem_of_singleton|done].
Qed.

(** A parsed reference can only name a file of the store: a digest is its own 64-character
    string with a shard that exists and no slash; a tag is its own nonempty string of at most
    64 bytes without a slash that is no dot file and no device name; and a string that reads
    as a digest is never taken for a tag. *)
Theorem reference_stays_in_the_store s :
  match parse_ref s with
  | Ok (RefDigest d) => d = s ∧ no_slash d = true ∧ shard d ∈ shards ∧ String.length d = 64%nat
  | Ok (RefTag t) =>
    t = s ∧ no_slash t = true ∧ t ≠ "" ∧ starts_with_dot t = false ∧
    (String.length t <= MAX_LEN)%nat ∧ (∀ r, r ∈ RESERVED → Str.to_ascii_lowercase t ≠ r) ∧
    is_ok (parse_digest s) = false
  | Err _ => is_ok (parse_digest s) = false
  end.
Proof.
  unfold parse_ref. destruct (parse_digest s) as [d|e] eqn:Hd.
  { apply parse_digest_shape in Hd as (-> & ? & ? & ?). done. }
  destruct s as [|c s]; [done|]. unfold parse_tag. set (t := String c s) in *.
  destruct (Nat.ltb_spec MAX_LEN (String.length t)) as [|Hlen]; [done|].
  destruct (Ascii.eqb c "-" || Ascii.eqb c ".") eqn:Hc; [done|].
  destruct (Str.all _ t) eqn:Hall; [|done]. cbn [negb].
  destruct (existsb _ RESERVED) eqn:Hres; [done|]. cbn [rbind]. split_and!; try done.
  - revert Hall. apply Str.all_impl. intros b Hb%tag_char. by rewrite Hb.
  - apply orb_false_iff in Hc as [_ Hc]. unfold starts_with_dot, Str.starts_with, t.
    cbn [Str.strip_prefix]. by rewrite Ascii.eqb_sym, Hc.
  - intros r Hr Heq.
    assert (existsb (λ r, Str.eq_ignore_ascii_case r t) RESERVED = true) as Hyes; [|by rewrite Hyes in Hres].
    apply existsb_exists. exists r. split; [by apply list_elem_of_In|].
    unfold Str.eq_ignore_ascii_case. rewrite Heq.
    assert (∀ r, r ∈ RESERVED → Str.to_ascii_lowercase r = r) as Hlow; [|rewrite Hlow by done; by apply String.eqb_refl].
    clear. intros r Hr. repeat (apply elem_of_cons in Hr as [->|Hr]; [done|]). by apply not_elem_of_nil in Hr.
Qed.
