(* ===== verification/ArtGc.v ===== *)
(** * Garbage collection: [artifacts/src/gc.rs]

    Mark from the tags, then sweep blobs, manifests, labels and public markers. *)
From Stdlib Require Import Ascii String ZArith Lia Bool.
From stdpp Require Import base option list strings gmap fin_maps sets.
From S2P Require Import Prelude ArtStore.
Open Scope string_scope.
Open Scope list_scope.
Open Scope Z_scope.
Open Scope art_scope.

Record GcPolicy : Type := { min_age : Z; dry_run : bool }.

(** [DEFAULT_GC_MIN_AGE], in nanoseconds. *)
Definition default_policy : GcPolicy := {| min_age := 3600 * 1000000000; dry_run := false |}.

Record Pin : Type := { p_digest : string; p_size : Z; p_allocated : Z; p_links : Z }.

Record GcReport : Type := {
  scanned : Z;
  removed : list string;
  bytes_freed : Z;
  kept_reachable : Z;
  kept_young : Z;
  pinned : list Pin;
  manifests_scanned : Z;
  manifests_removed : list string;
  labels_removed : Z;
  publics_removed : Z;
}.

Definition empty_report : GcReport :=
  {| scanned := 0; removed := []; bytes_freed := 0; kept_reachable := 0; kept_young := 0;
     pinned := []; manifests_scanned := 0; manifests_removed := []; labels_removed := 0;
     publics_removed := 0 |}.

(** *** Updates of the report *)

Definition upd_blobs (r : GcReport) (sc : Z) (rm : list string) (fr : Z) (kr ky : Z) (pn : list Pin)
    : GcReport :=
  {| scanned := scanned r + sc; removed := removed r ++ rm; bytes_freed := bytes_freed r + fr;
     kept_reachable := kept_reachable r + kr; kept_young := kept_young r + ky;
     pinned := pinned r ++ pn; manifests_scanned := manifests_scanned r;
     manifests_removed := manifests_removed r; labels_removed := labels_removed r;
     publics_removed := publics_removed r |}.

Definition upd_rest (r : GcReport) (ms : Z) (mr : list string) (lr pr : Z) : GcReport :=
  {| scanned := scanned r; removed := removed r; bytes_freed := bytes_freed r;
     kept_reachable := kept_reachable r; kept_young := kept_young r; pinned := pinned r;
     manifests_scanned := manifests_scanned r + ms;
     manifests_removed := manifests_removed r ++ mr;
     labels_removed := labels_removed r + lr; publics_removed := publics_removed r + pr |}.

Definition is_young (now created min_age : Z) : bool :=
  if created <=? now then now - created <? min_age else true.

Section gc.
Context (from_json : string → option Manifest) (env : Env).

(** Everything reachable from a tag: the blobs, and the manifests. *)
Definition mark : M (gset string * gset string) :=
  tags <-! list_tags env ;;
  for_each (λ t acc,
      let d := snd t in
      let blobs := {[d]} ∪ fst acc in
      r <-! attempt (read_file env (manifest_path d)) ;;
      match r with
      | Err _ => ret (blobs, snd acc)
      | Ok bytes =>
        match manifest_of_json from_json bytes with
        | Ok m => ret (list_to_set (e_digest <$> entries m) ∪ blobs, {[d]} ∪ snd acc)
        | Err _ => ret (blobs, {[d]} ∪ snd acc)
        end
      end) tags (∅, ∅).

Section sweep.
Context (live_blobs live_manifests : gset string) (policy : GcPolicy) (now : Z).

(** The removal a real run makes. *)
Definition remove_unless_dry (p : Path) : M unit :=
  if dry_run policy then ret tt else unlink_if_present env p ;;! ret tt.

Definition sweep_blob (name : string) (r : GcReport) : M GcReport :=
  match parse_digest name with
  | Err _ => ret r
  | Ok d =>
    st <-! attempt (stat_path env (blob_path d)) ;;
    match st with
    | Err _ => ret (upd_blobs r 1 [] 0 0 0 [])
    | Ok st =>
      if bool_decide (d ∈ live_blobs) then ret (upd_blobs r 1 [] 0 1 0 [])
      else if 1 <? st_nlink st then
        ret (upd_blobs r 1 [] 0 0 0
               [{| p_digest := d; p_size := st_size st; p_allocated := st_allocated st;
                   p_links := st_nlink st - 1 |}])
      else if is_young now (st_created st) (min_age policy) then
        ret (upd_blobs r 1 [] 0 0 1 [])
      else
        remove_unless_dry (blob_path d) ;;!
        ret (upd_blobs r 1 [d] (st_allocated st) 0 0 [])
    end
  end.

Definition sweep_shard (sh : string) (r : GcReport) : M GcReport :=
  l <-! shard_entries env "blobs" sh ;; for_each sweep_blob (fst <$> l) r.

Definition sweep_manifest (d : string) (r : GcReport) : M GcReport :=
  if bool_decide (d ∈ live_manifests) then ret (upd_rest r 1 [] 0 0)
  else
    st <-! attempt (stat_path env (manifest_path d)) ;;
    if match st with Ok st => is_young now (st_created st) (min_age policy) | Err _ => false end
    then ret (upd_rest r 1 [] 0 0)
    else remove_unless_dry (manifest_path d) ;;! ret (upd_rest r 1 [d] 0 0).

Definition sweep_label (swept : list string) (d : string) (r : GcReport) : M GcReport :=
  gone <-! (if existsb (String.eqb d) swept then ret true
            else b <-! exists_path env (blob_path d) ;;
                 if b then ret false
                 else m <-! exists_path env (manifest_path d) ;; ret (negb m)) ;;
  if gone then remove_unless_dry (label_path d) ;;! ret (upd_rest r 0 [] 1 0) else ret r.

Definition sweep_public (swept : list string) (d : string) (r : GcReport) : M GcReport :=
  gone <-! (if existsb (String.eqb d) swept then ret true
            else b <-! exists_path env (blob_path d) ;; ret (negb b)) ;;
  if gone then remove_unless_dry (public_path d) ;;! ret (upd_rest r 0 [] 0 1) else ret r.

Definition sweep : M GcReport :=
  r <-! for_each sweep_shard shards empty_report ;;
  ms <-! list_digests env "manifests" ;;
  r <-! for_each sweep_manifest ms r ;;
  let swept := removed r ++ manifests_removed r in
  ls <-! list_digests env "labels" ;;
  r <-! for_each (sweep_label swept) ls r ;;
  ps <-! list_digests env "public" ;;
  for_each (sweep_public swept) ps r.
End sweep.

Definition collect (policy : GcPolicy) : M GcReport :=
  acquire env ;;!
  live <-! mark ;;
  sweep (fst live) (snd live) policy (clock env).
End gc.

(** ** What the mark finds *)

Definition tag_of (fs : Fs) (t : string) : option string :=
  n ← inode_at fs (tag_path t);
  match parse_digest (Chars.trim (data n)) with Ok d => Some d | Err _ => None end.

(** A tag of the store, and the digest in its file. *)
Definition tagged (fs : Fs) (t d : string) : Prop := parse_tag t = Ok t ∧ tag_of fs t = Some d.

Lemma parse_tag_Ok s t : parse_tag s = Ok t → t = s ∧ starts_with_dot s = false.
Proof.
  destruct s as [|c s]; [done|]. unfold parse_tag.
  destruct (_ <? _)%nat; [done|]. destruct (Ascii.eqb c "-" || Ascii.eqb c ".") eqn:Hc; [done|].
  destruct (negb _); [done|]. destruct (existsb _ _); [done|]. intros [= <-]. split; [done|].
  apply orb_false_iff in Hc as [_ Hc]. unfold starts_with_dot, Str.starts_with.
  cbn [Str.strip_prefix]. by rewrite Ascii.eqb_sym, Hc.
Qed.

Lemma parse_digest_Ok s d : parse_digest s = Ok d → d = s.
Proof. unfold parse_digest. destruct (negb _); [done|]. destruct (negb _); [done|]. by intros [= <-]. Qed.

Section marking.
Context (from_json : string → option Manifest) (env : Env).
Context (Hread : ∀ p, read_fails env p = false).

Lemma read_file_ok p fs n : inode_at fs p = Some n → read_file env p fs = (Ok (data n), fs).
Proof. intros H. unfold read_file. by rewrite H, Hread. Qed.
Lemma read_file_none p fs : inode_at fs p = None → read_file env p fs = (Err (Io "read" NotFoundKind), fs).
Proof. intros H. unfold read_file. by rewrite H. Qed.

Lemma get_tag_spec t fs :
  attempt (get_tag env t) fs = (Ok match tag_of fs t with
    | Some d => Ok d
    | None => fst (get_tag env t fs)
    end, fs) ∧ (tag_of fs t = None → is_ok (fst (get_tag env t fs)) = false).
Proof.
  unfold attempt, get_tag, bind, tag_of. unfold attempt.
  destruct (inode_at fs (tag_path t)) as [n|] eqn:Hn.
  - rewrite (read_file_ok _ _ _ Hn). cbn [mbind option_bind]. by destruct (parse_digest _).
  - by rewrite (read_file_none _ _ Hn).
Qed.

Lemma list_tags_spec fs l fs' :
  list_tags env fs = (Ok l, fs') →
  fs' = fs ∧ ∀ t d, (t, d) ∈ l ↔ tagged fs t d.
Proof.
  unfold list_tags, read_dir. unfold bind at 1 2. unfold fail_if.
  destruct (readdir_fails env "tags"); [done|]. cbn [ret gets]. unfold bind.
  rewrite (for_each_fold _ (λ out x,
    if starts_with_dot (fst x) then out
    else match parse_tag (fst x) with
         | Ok t => match tag_of fs t with Some d => out ++ [(t, d)] | None => out end
         | Err _ => out
         end)).
  2: { intros x r _. destruct (starts_with_dot _); [done|]. destruct (parse_tag _) as [t|]; [|done].
       unfold bind. destruct (get_tag_spec t fs) as [-> Hnone].
       destruct (tag_of fs t); [done|]. specialize (Hnone eq_refl).
       by destruct (fst (get_tag env t fs)). }
  intros [= <- <-]. split; [done|]. intros t d. rewrite sort_by_perm.
  assert (∀ es out, (t, d) ∈ foldl (λ out x,
      if starts_with_dot (fst x) then out
      else match parse_tag (fst x) with
           | Ok t => match tag_of fs t with Some d => out ++ [(t, d)] | None => out end
           | Err _ => out
           end) out es ↔
    (t, d) ∈ out ∨ ∃ i : nat, (t, i) ∈ es ∧ tagged fs t d) as ->.
  { induction es as [|[n i] es IH]; intros out; cbn [foldl fst].
    - split; [by left|]. by intros [?|(? & []%not_elem_of_nil & _)].
    - rewrite IH. clear IH. setoid_rewrite elem_of_cons. unfold tagged.
      destruct (starts_with_dot n) eqn:Hdot.
      { split; [naive_solver|]. intros [?|(j & [[= -> _]|?] & Ht & Hd)]; [by left| |right; by exists j].
        apply parse_tag_Ok in Ht as [_ Ht]. congruence. }
      destruct (parse_tag n) as [t'|] eqn:Hn.
      2: { split; [naive_solver|]. intros [?|(j & [[= -> _]|?] & Ht & Hd)]; [by left|congruence|right; by exists j]. }
      apply parse_tag_Ok in Hn as E. destruct E as [-> _].
      destruct (tag_of fs n) as [d'|] eqn:Hd.
      + rewrite elem_of_app, list_elem_of_singleton. naive_solver.
      + naive_solver. }
  split.
  - intros [?%not_elem_of_nil|(i & _ & Ht)]; [done|exact Ht].
  - intros Ht. right. pose proof Ht as [_ Hd]. unfold tag_of in Hd.
    destruct (inode_at fs (tag_path t)) as [n|] eqn:Hn; [|done].
    apply inode_at_Some in Hn as (i & Hi & _). exists i. split; [|exact Ht].
    by apply dir_entries_elem.
Qed.

(** What a tag that names [d0] keeps: [d0] itself and the entries of its manifest. *)
Definition via (fs : Fs) (d0 d : string) : Prop :=
  d = d0 ∨ ∃ n m e, inode_at fs (manifest_path d0) = Some n ∧
    manifest_of_json from_json (data n) = Ok m ∧ e ∈ entries m ∧ e_digest e = d.

Definition reachable (fs : Fs) (d : string) : Prop := ∃ t d0, tagged fs t d0 ∧ via fs d0 d.

(** A manifest a tag names. *)
Definition live_manifest (fs : Fs) (d : string) : Prop :=
  ∃ t, tagged fs t d ∧ is_Some (inode_at fs (manifest_path d)).

Definition mark_one (fs : Fs) (acc : gset string * gset string) (t : string * string) :
    gset string * gset string :=
  let d := snd t in
  match inode_at fs (manifest_path d) with
  | None => ({[d]} ∪ fst acc, snd acc)
  | Some n =>
    (match manifest_of_json from_json (data n) with
     | Ok m => list_to_set (e_digest <$> entries m) ∪ ({[d]} ∪ fst acc)
     | Err _ => {[d]} ∪ fst acc
     end, {[d]} ∪ snd acc)
  end.

Lemma mark_one_spec fs acc t d0 :
  (∀ d, d ∈ fst (mark_one fs acc (t, d0)) ↔ d ∈ fst acc ∨ via fs d0 d) ∧
  (∀ d, d ∈ snd (mark_one fs acc (t, d0)) ↔
    d ∈ snd acc ∨ d = d0 ∧ is_Some (inode_at fs (manifest_path d0))).
Proof.
  unfold mark_one, via. cbn [snd].
  destruct (inode_at fs (manifest_path d0)) as [n|] eqn:Hn; cbn [fst snd].
  - split; intros d; [|rewrite elem_of_union, elem_of_singleton].
    + destruct (manifest_of_json from_json (data n)) as [m|e] eqn:Hm;
        rewrite ?elem_of_union, ?elem_of_list_to_set, ?list_elem_of_fmap, ?elem_of_singleton.
      * split.
        -- intros [(e & -> & He)|[->|?]]; [|by right; left|by left]. right. right. by exists n, m, e.
        -- intros [?|[->|(n' & m' & e & [= <-] & Hm' & He & <-)]]; [by right; right|by right; left|].
           left. exists e. split; [done|congruence].
      * split; [intros [->|?]; [by right; left|by left]|].
        intros [?|[->|(n' & m' & e' & [= <-] & Hm' & _)]]; [by right|by left|congruence].
    + split; [intros [->|?]; [right; split; [done|by exists n]|by left]|].
      intros [?|[-> _]]; [by right|by left].
  - split; intros d; [rewrite elem_of_union, elem_of_singleton|].
    + split; [intros [->|?]; [by right; left|by left]|].
      intros [?|[->|(n' & _ & _ & [=] & _)]]; [by right|by left].
    + split; [by left|]. intros [?|[_ [? [=]]]]. done.
Qed.

Lemma mark_spec fs lb lm fs' :
  mark from_json env fs = (Ok (lb, lm), fs') →
  fs' = fs ∧ (∀ d, d ∈ lb ↔ reachable fs d) ∧ (∀ d, d ∈ lm ↔ live_manifest fs d).
Proof.
  unfold mark. unfold bind at 1. destruct (list_tags env fs) as [[tags|] fs0] eqn:El; [|done].
  apply list_tags_spec in El as [-> Htags].
  rewrite (for_each_fold _ (mark_one fs)).
  2: { intros [t d] [lb0 lm0] _. unfold bind, attempt, mark_one. cbn [fst snd].
       destruct (inode_at fs (manifest_path d)) as [n|] eqn:Hn.
       - rewrite (read_file_ok _ _ _ Hn). by destruct (manifest_of_json _ _).
       - by rewrite (read_file_none _ _ Hn). }
  assert (∀ l acc,
    (∀ d, d ∈ fst (foldl (mark_one fs) acc l) ↔
      d ∈ fst acc ∨ ∃ x, x ∈ l ∧ via fs (snd x) d) ∧
    (∀ d, d ∈ snd (foldl (mark_one fs) acc l) ↔ d ∈ snd acc ∨
      ∃ x, x ∈ l ∧ d = snd x ∧ is_Some (inode_at fs (manifest_path (snd x))))) as Hfold.
  { clear. induction l as [|[t d0] l IH]; intros acc; cbn [foldl].
    - split; intros d; setoid_rewrite elem_of_nil; naive_solver.
    - destruct (IH (mark_one fs acc (t, d0))) as [IH1 IH2], (mark_one_spec fs acc t d0) as [H1 H2].
      generalize dependent (mark_one fs acc (t, d0)). intros acc' IH1 IH2 H1 H2. split; intros d.
      + rewrite IH1, H1. setoid_rewrite elem_of_cons. generalize (via fs). naive_solver.
      + rewrite IH2, H2. setoid_rewrite elem_of_cons.
        generalize (λ d, is_Some (inode_at fs (manifest_path d))). intros Q.
        split; [intros [[?|[-> HQ]]|(x & Hx & -> & HQ)]; [by left| |]; right; eauto|].
        intros [?|(x & [->|Hx] & -> & HQ)]; eauto. }
  destruct (Hfold tags (∅, ∅)) as [H1 H2]. intros [= E <-]. rewrite E in H1, H2. cbn [fst snd] in *.
  split; [done|]. unfold reachable, live_manifest. split; intros d; [rewrite H1|rewrite H2].
  - split.
    + intros [?%not_elem_of_empty|([t d0] & Ht%Htags & Hv)]; [done|]. by exists t, d0.
    + intros (t & d0 & Ht%Htags & Hv). right. by exists (t, d0).
  - split.
    + intros [?%not_elem_of_empty|([t d0] & Ht%Htags & -> & Hv)]; [done|]. by exists t.
    + intros (t & Ht%Htags & Hv). right. by exists (t, d).
Qed.
End marking.

(** What one tag keeps, when the tag and the manifest it names can be read, whatever else cannot. *)
Lemma attempt_reads {A} (m : M A) fs : reads m → attempt m fs = (Ok (fst (m fs)), fs).
Proof. intros H. specialize (H fs). unfold attempt. destruct (m fs) as [r fs']. cbn in *. by subst. Qed.
Lemma foldl_keeps {A B} (g : B → A → B) (P : B → Prop) l x acc :
  (∀ acc y, P acc → P (g acc y)) → (∀ acc, P (g acc x)) → x ∈ l → P (foldl g acc l).
Proof.
  intros Hg Hx. revert acc. induction l as [|y l IH]; intros acc Hin; [by apply not_elem_of_nil in Hin|]. cbn [foldl].
  apply elem_of_cons in Hin as [<-|Hin]; [|by apply IH]. clear IH. assert (P (g acc x)) as H by done.
  revert H. generalize (g acc x). induction l as [|y l IH]; intros b Hb; [done|]. cbn [foldl]. by apply IH, Hg.
Qed.
Lemma list_tags_has env fs l fs' t d :
  list_tags env fs = (Ok l, fs') → tagged fs t d → read_fails env (tag_path t) = false → (t, d) ∈ l.
Proof.
  intros Hl Ht Hr. revert Hl. unfold list_tags, read_dir. unfold bind at 1 2. unfold fail_if.
  destruct (readdir_fails env "tags"); [done|]. cbn [ret gets]. unfold bind.
  rewrite (for_each_fold _ (λ out x,
    if starts_with_dot (fst x) then out
    else match parse_tag (fst x) with
         | Ok t => match fst (get_tag env t fs) with Ok d => out ++ [(t, d)] | Err _ => out end
         | Err _ => out
         end)).
  2: { intros x r _. destruct (starts_with_dot _); [done|]. destruct (parse_tag _) as [t'|]; [|done].
       unfold bind. rewrite attempt_reads by apply reads_get_tag. by destruct (fst (get_tag env t' fs)). }
  intros [= <- <-]. rewrite sort_by_perm. destruct Ht as [Hp Hd]. pose proof Hd as Hn. unfold tag_of in Hn.
  destruct (inode_at fs (tag_path t)) as [n|] eqn:En; [|done]. apply inode_at_Some in En as (i & Hi & Hn').
  apply (foldl_keeps _ (λ out, (t, d) ∈ out) _ (t, i)).
  - intros acc y Hacc. destruct (starts_with_dot y.1); [done|]. destruct (parse_tag y.1) as [t'|]; [|done].
    destruct (fst (get_tag env t' fs)); [|exact Hacc]. apply elem_of_app. by left.
  - intros acc. cbn [fst]. pose proof (parse_tag_Ok _ _ Hp) as [_ Hdot]. destruct (starts_with_dot t); [done|]. rewrite Hp.
    assert (fst (get_tag env t fs) = Ok d) as ->; [|apply elem_of_app; right; apply list_elem_of_singleton; done].
    unfold get_tag, bind, attempt, read_file. assert (inode_at fs (tag_path t) = Some n) as -> by (apply inode_at_Some; eauto).
    rewrite Hr. cbn [mbind option_bind] in Hn. by destruct (parse_digest _); simplify_eq/=.
  - by apply dir_entries_elem.
Qed.
Definition mark_read (from_json : string → option Manifest) (env : Env) (fs : Fs) (acc : gset string * gset string)
    (x : string * string) : gset string * gset string :=
  let blobs := {[snd x]} ∪ fst acc in
  match fst (read_file env (manifest_path (snd x)) fs) with
  | Err _ => (blobs, snd acc)
  | Ok bytes => match manifest_of_json from_json bytes with
                | Ok m => (list_to_set (e_digest <$> entries m) ∪ blobs, {[snd x]} ∪ snd acc)
                | Err _ => (blobs, {[snd x]} ∪ snd acc)
                end
  end.
Lemma mark_keeps from_json env fs lb lm fs' t d :
  mark from_json env fs = (Ok (lb, lm), fs') → tagged fs t d →
  read_fails env (tag_path t) = false → read_fails env (manifest_path d) = false →
  (∀ e, via from_json fs d e → e ∈ lb) ∧ (is_Some (inode_at fs (manifest_path d)) → d ∈ lm).
Proof.
  unfold mark. unfold bind at 1. destruct (list_tags env fs) as [[tags|] fs0] eqn:El; [|done].
  intros Hm Ht Hrt Hrm. pose proof (list_tags_has _ _ _ _ _ _ El Ht Hrt) as Hin.
  assert (fs0 = fs) as -> by (pose proof (reads_list_tags env fs) as E; by rewrite El in E).
  set (g := mark_read from_json env fs).
  rewrite (for_each_fold _ g) in Hm.
  2: { intros x acc _. unfold bind. rewrite attempt_reads by apply reads_read_file. unfold g, mark_read.
       destruct (fst (read_file _ _ _)); [|done]. by destruct (manifest_of_json _ _). }
  injection Hm as Hm _. assert (∀ acc x, fst acc ⊆ fst (g acc x) ∧ snd acc ⊆ snd (g acc x)) as Hmono.
  { intros acc x. unfold g, mark_read. destruct (fst (read_file _ _ _)); [destruct (manifest_of_json _ _)|]; cbn [fst snd]; set_solver. }
  assert (∀ n, inode_at fs (manifest_path d) = Some n → fst (read_file env (manifest_path d) fs) = Ok (data n)) as Hread.
  { intros n Hn. unfold read_file. by rewrite Hn, Hrm. }
  split.
  - intros e Hv. change lb with (fst (lb, lm)). rewrite <- Hm. apply (foldl_keeps _ (λ acc, e ∈ fst acc) _ (t, d)); [| |done].
    { intros acc y Hacc. by apply (proj1 (Hmono acc y)). }
    intros acc. unfold g, mark_read. cbn [snd]. destruct Hv as [->|(n & m & x & Hn & Hj & Hx & <-)].
    + destruct (fst (read_file _ _ _)); [destruct (manifest_of_json _ _)|]; cbn [fst]; set_solver.
    + rewrite (Hread n Hn), Hj. cbn [fst]. apply elem_of_union_l, elem_of_list_to_set. by apply list_elem_of_fmap_2.
  - intros [n Hn]. change lm with (snd (lb, lm)). rewrite <- Hm. apply (foldl_keeps _ (λ acc, d ∈ snd acc) _ (t, d)); [| |done].
    { intros acc y Hacc. by apply (proj2 (Hmono acc y)). }
    intros acc. unfold g, mark_read. cbn [snd]. rewrite (Hread n Hn). destruct (manifest_of_json _ _); cbn [snd]; set_solver.
Qed.

(** ** What the sweep removes *)

Lemma stat_path_ok env p fs st fs' :
  stat_path env p fs = (Ok st, fs') →
  fs' = fs ∧ ∃ i n, names fs !! p = Some i ∧ inodes fs !! i = Some n ∧
    st_nlink st = Z.of_nat (nlink fs i) ∧ st_created st = created n ∧ st_allocated st = allocated n.
Proof.
  unfold stat_path, ino_at. destruct (stat_fails env p); [done|].
  destruct (names fs !! p) as [i|] eqn:Hi; [|done].
  destruct (inodes fs !! i) as [n|] eqn:Hn; [|done]. intros [= <- <-]. split; [done|].
  by exists i, n.
Qed.

Section sweeping.
Context (env : Env) (lb lm : gset string) (policy : GcPolicy) (now : Z) (fs0 : Fs).

(** Unreachable, linked from nowhere else, and past the grace window. *)
Definition garbage_blob (p : Path) : Prop :=
  ∃ d i n, p = blob_path d ∧ names fs0 !! p = Some i ∧ inodes fs0 !! i = Some n ∧
    d ∉ lb ∧ (∀ q, names fs0 !! q = Some i → q = p) ∧ is_young now (created n) (min_age policy) = false.

Definition garbage_manifest (p : Path) : Prop :=
  ∃ d, p = manifest_path d ∧ d ∉ lm ∧
    (stat_fails env p = true ∨ ∀ n, inode_at fs0 p = Some n → is_young now (created n) (min_age policy) = false).

Definition side_file (p : Path) : Prop := ∃ d, p = label_path d ∨ p = public_path d.

(** [fs] is [fs0] less some of the names [G], and nothing else, and not in a dry run. *)
Definition less (G : Path → Prop) (fs : Fs) : Prop :=
  inodes fs = inodes fs0 ∧
  ∀ p, names fs !! p = names fs0 !! p ∨ names fs !! p = None ∧ dry_run policy = false ∧ G p.

Lemma less_refl G : less G fs0.
Proof. split; [done|]. by left. Qed.

Lemma less_mono (G G' : Path → Prop) fs : (∀ p, G p → G' p) → less G fs → less G' fs.
Proof. intros HG [Hi Hn]. split; [done|]. intros p. destruct (Hn p); naive_solver. Qed.

Lemma less_name G fs p i : less G fs → names fs !! p = Some i → names fs0 !! p = Some i.
Proof. intros [_ Hn] Hp. destruct (Hn p) as [E|[E _]]; congruence. Qed.

Lemma less_inode_at G fs p n : less G fs → inode_at fs p = Some n → inode_at fs0 p = Some n.
Proof.
  intros H (i & Hi & Hn)%inode_at_Some. apply inode_at_Some. exists i.
  split; [by eapply less_name|]. destruct H as [<- _]. done.
Qed.

Lemma remove_less (G : Path → Prop) p : G p → inv (less G) (remove_unless_dry env policy p).
Proof.
  intros HG fs Hfs. unfold remove_unless_dry. destruct (dry_run policy) eqn:Hdry; [done|].
  unfold bind, unlink_if_present. destruct (ino_at fs p); [|done].
  destruct (unlink_fails env p); [done|]. destruct Hfs as [Hi Hn]. split; [done|]. intros q. cbn.
  destruct (decide (p = q)) as [<-|Hne]; [rewrite lookup_delete_eq; by right|].
  rewrite lookup_delete_ne by done. destruct (Hn q) as [?|(? & _ & ?)]; [by left|by right].
Qed.

Lemma sweep_blob_less name r : inv (less garbage_blob) (sweep_blob env lb policy now name r).
Proof.
  intros fs Hfs. unfold sweep_blob. destruct (parse_digest name) as [d|]; [|done].
  unfold bind at 1, attempt. destruct (stat_path env (blob_path d) fs) as [[st|e] fs'] eqn:Est.
  2: { pose proof (reads_stat_path env (blob_path d) fs) as E. rewrite Est in E. simpl in E. by subst. }
  apply stat_path_ok in Est as (-> & i & n & Hi & Hn & Hlink & Hcr & _).
  case_bool_decide as Hlive; [done|]. destruct (Z.ltb_spec 1 (st_nlink st)) as [|Hle]; [done|].
  destruct (is_young _ _ _) eqn:Hy; [done|].
  apply (inv_bind (less garbage_blob)); [|intros; apply inv_reads, reads_ret|exact Hfs]. apply remove_less.
  exists d, i, n. pose proof (less_name _ _ _ _ Hfs Hi) as Hi0.
  split_and!; [done|done|by destruct Hfs as [<- _]|done| |by rewrite <- Hcr].
  intros q Hq. destruct (decide (q = blob_path d)) as [|Hne]; [done|exfalso].
  destruct (proj2 Hfs q) as [Eq|(_ & _ & d' & i' & n' & -> & Hi' & _ & _ & Hu & _)].
  - rewrite Hq in Eq. pose proof (nlink_two _ _ _ _ Hi Eq ltac:(done)). lia.
  - rewrite Hq in Hi'. injection Hi' as <-. apply Hne. symmetry. by apply Hu.
Qed.

Definition garbage (p : Path) : Prop := garbage_blob p ∨ garbage_manifest p ∨ side_file p.

Lemma sweep_manifest_less d r : inv (less garbage) (sweep_manifest env lm policy now d r).
Proof.
  intros fs Hfs. unfold sweep_manifest. case_bool_decide as Hlive; [done|].
  unfold bind at 1, attempt. destruct (stat_path env (manifest_path d) fs) as [[st|e] fs'] eqn:Est.
  - apply stat_path_ok in Est as (-> & i & n & Hi & Hn & _ & Hcr & _).
    destruct (is_young _ _ _) eqn:Hy; [done|].
    apply (inv_bind (less garbage)); [|intros; apply inv_reads, reads_ret|exact Hfs]. apply remove_less. right. left.
    exists d. split_and!; [done..|]. right. intros m Hm.
    assert (inode_at fs0 (manifest_path d) = Some n) as Hn0.
    { apply (less_inode_at garbage fs); [done|]. apply inode_at_Some. eauto. }
    rewrite Hm in Hn0. injection Hn0 as ->. by rewrite <- Hcr.
  - pose proof (reads_stat_path env (manifest_path d) fs) as E. rewrite Est in E. simpl in E. subst fs'.
    apply (inv_bind (less garbage)); [|intros; apply inv_reads, reads_ret|exact Hfs]. apply remove_less. right. left.
    exists d. split_and!; [done..|]. destruct (stat_fails env (manifest_path d)) eqn:Hs; [by left|right].
    unfold stat_path, ino_at in Est. rewrite Hs in Est. intros m (j & Hj & Hm)%inode_at_Some.
    destruct (proj2 Hfs (manifest_path d)) as [E|(_ & _ & HG)].
    + destruct Hfs as [Hin _]. by rewrite E, Hj, Hin, Hm in Est.
    + destruct HG as [(? & ? & ? & [=] & _)|[(d' & E & _ & [Hs'|Hy])|(? & [[=]|[=]])]].
      * congruence.
      * apply Hy. apply inode_at_Some. eauto.
Qed.

Lemma side_less sub d (b : bool) (r r' : GcReport) :
  sub = "labels" ∨ sub = "public" →
  inv (less garbage) (if b then remove_unless_dry env policy (sub_path sub d) ;;! ret r' else ret r).
Proof.
  intros Hsub. destruct b; [|apply inv_reads, reads_ret]. apply inv_bind; [|intros; apply inv_reads, reads_ret].
  apply remove_less. right. right. exists d. by destruct Hsub as [->| ->]; [left|right].
Qed.

Lemma sweep_label_less swept d r : inv (less garbage) (sweep_label env policy swept d r).
Proof.
  unfold sweep_label. apply inv_bind; [|intros b; apply side_less; by left].
  apply inv_reads. destruct (existsb _ _); [apply reads_ret|].
  apply reads_bind; [auto with art|]. intros []; [apply reads_ret|].
  apply reads_bind; [auto with art|]. intros; apply reads_ret.
Qed.

Lemma sweep_public_less swept d r : inv (less garbage) (sweep_public env policy swept d r).
Proof.
  unfold sweep_public. apply inv_bind; [|intros b; apply side_less; by right].
  apply inv_reads. destruct (existsb _ _); [apply reads_ret|].
  apply reads_bind; [auto with art|]. intros; apply reads_ret.
Qed.

Lemma sweep_less : less garbage (snd (sweep env lb lm policy now fs0)).
Proof.
  unfold sweep. unfold bind at 1.
  assert (less garbage_blob (snd (for_each (sweep_shard env lb policy now) shards empty_report fs0))) as Hb.
  { apply (inv_for_each (less garbage_blob)); [|apply less_refl]. intros sh r _. unfold sweep_shard.
    apply inv_bind; [apply inv_reads; auto with art|]. intros l. apply inv_for_each.
    intros name r' _. apply sweep_blob_less. }
  destruct (for_each (sweep_shard env lb policy now) shards empty_report fs0) as [[r|e] fs1]; simpl in Hb.
  2: { apply (less_mono garbage_blob); [by left|done]. }
  apply (less_mono _ garbage) in Hb; [|by left].
  refine (inv_bind (less garbage) _ _ _ _ fs1 Hb); [apply inv_reads; auto with art|intros ms].
  apply inv_bind; [apply inv_for_each; intros; apply sweep_manifest_less|intros r1].
  apply inv_bind; [apply inv_reads; auto with art|intros ls].
  apply inv_bind; [apply inv_for_each; intros; apply sweep_label_less|intros r2].
  apply inv_bind; [apply inv_reads; auto with art|intros ps].
  apply inv_for_each. intros. apply sweep_public_less.
Qed.
End sweeping.

(** ** Runs of the store *)

Inductive StoreOp : Type :=
| OpInsert (bytes : string)
| OpPutManifest (m : Manifest)
| OpSetTag (t d : string)
| OpRemoveTag (t : string)
| OpSetLabel (d : string) (l : Label)
| OpRemoveLabel (d : string)
| OpSetPublic (d : string)
| OpRemovePublic (d : string)
| OpMaterialize (d dest : string) (how : Materialize)
| OpRelease (m : Materialized)
| OpGuestWrite (p bytes : string)
| OpCollect (policy : GcPolicy).

Section runs.
Context (digest_of : string → string) (from_json : string → option Manifest)
  (to_canonical_json : Manifest → string) (label_json : Label → string).

(** One operation, whatever it returns. *)
Definition run_op (fs : Fs) (s : Env * StoreOp) : Fs :=
  let '(env, o) := s in
  match o with
  | OpInsert bytes => snd (insert_bytes digest_of env bytes fs)
  | OpPutManifest m => snd (put_manifest digest_of to_canonical_json env m fs)
  | OpSetTag t d => snd (set_tag env t d fs)
  | OpRemoveTag t => snd (remove_tag env t fs)
  | OpSetLabel d l => snd (set_label label_json env d l fs)
  | OpRemoveLabel d => snd (remove_label env d fs)
  | OpSetPublic d => snd (set_public env d fs)
  | OpRemovePublic d => snd (remove_public env d fs)
  | OpMaterialize d dest how => snd (materialize env d dest how fs)
  | OpRelease m => snd (release env m fs)
  | OpGuestWrite p bytes => snd (guest_write p bytes fs)
  | OpCollect policy => snd (collect from_json env policy fs)
  end.

Definition run (steps : list (Env * StoreOp)) (fs : Fs) : Fs := foldl run_op fs steps.

Definition empty_store : Fs := {| names := ∅; inodes := ∅ |}.

Lemma less_keeps P env lb lm policy now fs0 fs :
  keeps digest_of P fs0 → less policy fs0 (garbage env lb lm policy now fs0) fs →
  (∀ p n, P p n → ¬ garbage env lb lm policy now fs0 p) → keeps digest_of P fs.
Proof.
  intros [[Hi Hc Hp] HP] Hless HG. pose proof Hless as [Hin Hn]. split; [split|].
  - intros p i Hpi. rewrite Hin. apply (Hi p). by eapply less_name.
  - intros p d n Hd Hpn. apply (Hc p d n Hd). by eapply less_inode_at.
  - intros p q i n Hpi Hqi. rewrite Hin. apply (Hp p q i n); by eapply less_name.
  - intros p n HPn. pose proof (HP p n HPn) as (i & Hpi & Hn')%inode_at_Some.
    apply inode_at_Some. exists i. rewrite Hin. split; [|done].
    destruct (Hn p) as [->|(_ & _ & Hg)]; [done|]. exfalso. by eapply HG.
Qed.

Lemma reads_mark env : reads (mark from_json env).
Proof.
  apply reads_bind; [auto with art|]. intros tags. apply reads_for_each. intros x acc.
  apply reads_bind; [auto with art|]. intros [bytes|]; [|apply reads_ret].
  destruct (manifest_of_json _ _); apply reads_ret.
Qed.

Lemma collect_keeps P env policy fs :
  keeps digest_of P fs →
  (∀ lb lm, mark from_json env fs = (Ok (lb, lm), fs) →
     ∀ p n, P p n → ¬ garbage env lb lm policy (clock env) fs p) →
  keeps digest_of P (snd (collect from_json env policy fs)).
Proof.
  intros Hk HP. unfold collect, acquire, fail_if. destruct (lock_fails env); [done|].
  unfold bind. cbn [ret].
  pose proof (reads_mark env) as Hmark.
  specialize (Hmark fs). destruct (mark from_json env fs) as [[[lb lm]|e] fs'] eqn:Em;
    simpl in Hmark; subst fs'; [|done].
  apply (less_keeps P env lb lm policy (clock env) fs); [done|apply sweep_less|]. by apply HP.
Qed.

(** A step that leaves tag [t] alone; a collection must be able to read it, and the manifest [d] it
    names, whatever else it cannot read. *)
Definition spares (t d : string) (s : Env * StoreOp) : Prop :=
  match snd s with
  | OpSetTag t' _ | OpRemoveTag t' => t' ≠ t
  | OpCollect _ => read_fails (fst s) (tag_path t) = false ∧ read_fails (fst s) (manifest_path d) = false
  | _ => True
  end.

Lemma tag_path_inj t t' : tag_path t = tag_path t' → t = t'.
Proof. by intros [= ->]. Qed.

Lemma run_op_keeps P fs s :
  keeps digest_of P fs →
  (∀ q m, P (Outside q) m → False) → (∀ d m, P (label_path d) m → False) →
  (∀ d m, P (public_path d) m → False) →
  match snd s with
  | OpSetTag t _ | OpRemoveTag t => ∀ m, ¬ P (tag_path t) m
  | OpCollect policy =>
    ∀ lb lm, mark from_json (fst s) fs = (Ok (lb, lm), fs) →
      ∀ p n, P p n → ¬ garbage (fst s) lb lm policy (clock (fst s)) fs p
  | _ => True
  end →
  keeps digest_of P (run_op fs s).
Proof.
  intros Hk Ho Hl Hp Hs. destruct s as [env o]. destruct o; cbn [run_op snd fst] in *.
  - by apply insert_bytes_safe.
  - by apply put_manifest_safe.
  - by apply set_tag_safe.
  - by apply unlink_safe.
  - by apply set_label_safe.
  - apply unlink_safe; [intros m; exact (Hl d m)|done].
  - by apply set_public_safe.
  - apply unlink_safe; [intros m; exact (Hp d m)|done].
  - by apply materialize_safe.
  - apply unlink_safe; [intros m'; exact (Ho _ m')|done].
  - apply guest_write_keeps; [intros m'; exact (Ho _ m')|done].
  - by apply collect_keeps.
Qed.

Lemma empty_store_ok : store_ok digest_of empty_store.
Proof.
  split.
  - intros p i H. cbn in H. by rewrite lookup_empty in H.
  - intros p d n _ (i & H & _)%inode_at_Some. cbn in H. by rewrite lookup_empty in H.
  - intros p q i n H. cbn in H. by rewrite lookup_empty in H.
Qed.

Lemma run_keeps_nothing steps fs :
  keeps digest_of (λ _ _, False) fs → keeps digest_of (λ _ _, False) (run steps fs).
Proof.
  revert fs. induction steps as [|s steps IH]; intros fs Hk; [done|]. apply IH.
  apply run_op_keeps; [done..|]. destruct (snd s); naive_solver.
Qed.
End runs.

(** ** The theorems *)

(** Collection removes only garbage: whatever fails on the way, no inode changes, no
    name appears, and a name that goes is, outside a dry run, an unreachable blob with
    no other link that is past the grace window, a manifest that no tag names and that
    is past it (or cannot be examined), or a label or public marker. *)
Theorem gc_removes_only_garbage from_json env policy fs p :
  (∀ p, read_fails env p = false) →
  let fs' := snd (collect from_json env policy fs) in
  let young n := is_young (clock env) (created n) (min_age policy) in
  inodes fs' = inodes fs ∧
  (names fs' !! p = names fs !! p ∨
   names fs' !! p = None ∧ dry_run policy = false ∧
   ((∃ d i n, p = blob_path d ∧ names fs !! p = Some i ∧ inodes fs !! i = Some n ∧
       ¬ reachable from_json fs d ∧ (∀ q, names fs !! q = Some i → q = p) ∧ young n = false) ∨
    (∃ d, p = manifest_path d ∧ ¬ live_manifest fs d ∧
       (stat_fails env p = true ∨ ∀ n, inode_at fs p = Some n → young n = false)) ∨
    side_file p)).
Proof.
  intros Hread fs' young. unfold fs', collect, acquire, fail_if.
  destruct (lock_fails env); [split; [done|by left]|]. unfold bind. cbn [ret].
  destruct (mark from_json env fs) as [[[lb lm]|e] fs1] eqn:Em.
  - pose proof (mark_spec _ _ Hread _ _ _ _ Em) as (-> & Hlb & Hlm).
    destruct (sweep_less env lb lm policy (clock env) fs) as [Hi Hn]. split; [done|].
    destruct (Hn p) as [?|(Hnone & Hdry & HG)]; [by left|right]. split_and!; [done..|].
    unfold garbage, garbage_blob, garbage_manifest in HG. setoid_rewrite Hlb in HG.
    setoid_rewrite Hlm in HG. exact HG.
  - assert (fs1 = fs) as ->; [|split; [done|by left]].
    pose proof (reads_mark from_json env fs) as E. by rewrite Em in E.
Qed.

(** C8. Tagged content survives: while nobody moves or removes a tag, the blob it names,
    or any entry of the manifest it names, stays readable with the same bytes through
    any run of inserts, retags, labels, materializations, guest writes and collections,
    and through every I/O failure but two: a collection that cannot read the tag itself or the
    manifest it names takes it for one without entries ([unreadable_manifest_is_swept]). *)
Theorem tagged_content_survives digest_of from_json to_canonical_json label_json fs steps t d e n :
  store_ok digest_of fs → tagged fs t d → via from_json fs d e →
  inode_at fs (blob_path e) = Some n → Forall (spares t d) steps →
  let fs' := run digest_of from_json to_canonical_json label_json steps fs in
  tagged fs' t d ∧ via from_json fs' d e ∧ inode_at fs' (blob_path e) = Some n.
Proof.
  intros Hok Ht Hvia Hn Hsteps fs'.
  set (P p m := inode_at fs p = Some m ∧ (p = tag_path t ∨ p = manifest_path d ∨ p = blob_path e)).
  assert (∀ fs1, keeps digest_of P fs1 →
    tagged fs1 t d ∧ via from_json fs1 d e ∧ inode_at fs1 (blob_path e) = Some n ∧
    (is_Some (inode_at fs (manifest_path d)) → is_Some (inode_at fs1 (manifest_path d)))) as Hview.
  { intros fs1 [_ HP]. split_and!.
    - destruct Ht as [Hp Ht]. split; [done|]. unfold tag_of in *.
      destruct (inode_at fs (tag_path t)) as [m|] eqn:Hm; [|done].
      rewrite (HP (tag_path t) m); [done|]. split; [done|by left].
    - destruct Hvia as [->|(m & x & y & Hm & Hrest)]; [by left|right]. exists m, x, y.
      split; [|done]. apply HP. split; [done|by right; left].
    - apply HP. split; [done|by right; right].
    - intros [m Hm]. exists m. apply HP. split; [done|by right; left]. }
  assert (keeps digest_of P fs') as Hk; [|by destruct (Hview _ Hk) as (? & ? & ? & _)].
  assert (keeps digest_of P fs) as Hk0 by (split; [done|by intros p m [? _]]).
  cut (∀ fs1, keeps digest_of P fs1 →
    keeps digest_of P (run digest_of from_json to_canonical_json label_json steps fs1)); [intros H; by apply H|].
  unfold run. clear fs' Hk0. induction Hsteps as [|s steps Hs Hsteps IH]; intros fs1 Hk; [done|]. cbn [foldl]. apply IH.
  apply run_op_keeps; [done|by intros q m [_ [[=]|[[=]|[=]]]]..|].
  destruct s as [env o]. destruct o; cbn [spares snd fst] in *; try done.
  - intros m [_ [E|[[=]|[=]]]]. by apply tag_path_inj in E.
  - intros m [_ [E|[[=]|[=]]]]. by apply tag_path_inj in E.
  - intros lb lm Hmark p m [Hm Hp]. destruct (Hview _ Hk) as (Ht1 & Hvia1 & _ & Hman).
    destruct Hs as [Hrt Hrm]. destruct (mark_keeps _ _ _ _ _ _ _ _ Hmark Ht1 Hrt Hrm) as [Hlb Hlm].
    intros [(d' & i & x & E & _ & _ & Hl & _)|[(d' & E & Hl & _)|(d' & Hd')]].
    + destruct Hp as [->|[->| ->]]; [done|done|]. apply sub_path_inj in E as <-.
      by apply Hl, Hlb.
    + destruct Hp as [->|[->| ->]]; [done| |done]. apply sub_path_inj in E as <-.
      apply Hl, Hlm. eauto.
    + destruct Hp as [->|[->| ->]]; by destruct Hd' as [[=]|[=]].
Qed.

(** Names are promises: from an empty store, through any run of operations and
    failures, every blob and manifest is sealed and holds bytes that hash to its name,
    and verifying a blob succeeds unless reading it fails. *)
Theorem content_addressed digest_of from_json to_canonical_json label_json steps p d n env :
  let fs := run digest_of from_json to_canonical_json label_json steps empty_store in
  content_path p d → inode_at fs p = Some n →
  sealed n = true ∧ digest_of (data n) = d ∧
  (p = blob_path d → stat_fails env p = false → read_fails env p = false →
   verify digest_of env d fs = (Ok tt, fs)).
Proof.
  intros fs Hd Hn.
  assert (keeps digest_of (λ _ _, False) fs) as [Hok _].
  { apply run_keeps_nothing. split; [apply empty_store_ok|done]. }
  destruct (so_content _ _ Hok p d n Hd Hn) as [Hs Hdig]. split_and!; [done..|].
  intros -> Hst Hrd. unfold verify, exists_path, bind, attempt, stat_path, ret.
  rewrite Hst. pose proof Hn as (i & Hi & Hin)%inode_at_Some. unfold ino_at. rewrite Hi, Hin.
  cbn [is_ok negb]. unfold read_file. rewrite Hn, Hrd, Hdig, String.eqb_refl. done.
Qed.

(** ** Concrete stores *)

Module Example.
(** A toy digest: the bytes in hexadecimal, padded to 64 digits; distinct on short strings. *)
Definition hex_digit (n : N) : string :=
  default "0" (hex_digits !! N.to_nat n).
Fixpoint hex (s : string) : string :=
  match s with
  | "" => ""
  | String c s' => hex_digit (N_of_ascii c / 16) +:+ hex_digit (N_of_ascii c mod 16) +:+ hex s'
  end.
Fixpoint zeros (n : nat) : string := match n with O => "" | S k => String "0" (zeros k) end.
Definition digest (s : string) : string := Str.take 64 (hex s +:+ zeros 64).

(** Two manifests: ["N"] is empty, ["M"] has the blob that holds the bytes ["N"]. *)
Definition m0 : Manifest := {| schema := 1; kind := "generic"; entries := []; annotations := ∅ |}.
Definition m1 : Manifest :=
  {| schema := 1; kind := "generic";
     entries := [{| e_name := "n"; e_digest := digest "N"; e_size := 1 |}]; annotations := ∅ |}.
Definition of_json (s : string) : option Manifest :=
  if String.eqb s "N" then Some m0 else if String.eqb s "M" then Some m1 else None.
Definition to_json (m : Manifest) : string := match entries m with [] => "N" | _ => "M" end.
Definition json_of_label (l : Label) : string := default "" (l_name l).
Definition label : Label := {| l_name := Some "the bytes"; l_description := None |}.

Definition hour : Z := 3600 * 1000000000.
Definition at_time (t : Z) : Env :=
  {| clock := t; blocks := λ s, Z.of_nat (String.length s); same_dev := λ _, true; emlink := false;
     statfs := Some (2 ^ 40); min_free_bytes := 2 ^ 30; lock_fails := false; readdir_fails := λ _, false; stat_fails := λ _, false;
     read_fails := λ _, false; unlink_fails := λ _, false; write_fails := λ _, false;
     fsync_fails := λ _, false; mkdir_fails := λ _, false; short_copy := λ _, None |}.

Notation run_here := (run digest of_json to_json json_of_label).
Definition has_file (fs : Fs) (p : Path) : bool := is_some (ino_at fs p).

(** The blob ["N"] is an entry of the tagged manifest [m1], and it has a label and a public
    marker; the same bytes are also stored as an untagged manifest. *)
Definition before : Fs :=
  run_here
    [(at_time 0, OpInsert "N"); (at_time 0, OpPutManifest m0); (at_time 0, OpPutManifest m1);
     (at_time 0, OpSetTag "keep" (digest "M")); (at_time 0, OpSetLabel (digest "N") label);
     (at_time 0, OpSetPublic (digest "N"))] empty_store.
Definition after : Fs := run_here [(at_time (2 * hour), OpCollect default_policy)] before.
End Example.

Lemma before_tagged :
  tagged Example.before "keep" (Example.digest "M") ∧
  via Example.of_json Example.before (Example.digest "M") (Example.digest "N").
Proof.
  assert (match inode_at Example.before (tag_path "keep"),
    inode_at Example.before (manifest_path (Example.digest "M")) with
    | Some a, Some b => String.eqb (Chars.trim (data a)) (Example.digest "M") && String.eqb (data b) "M"
    | _, _ => false end = true) as H by (vm_compute; reflexivity).
  unfold tagged, tag_of, via.
  destruct (inode_at Example.before (tag_path "keep")) as [a|]; [|done].
  destruct (inode_at Example.before (manifest_path (Example.digest "M"))) as [b|]; [|done].
  apply andb_true_iff in H as [Ha%String.eqb_eq Hb%String.eqb_eq]. split.
  - split; [by vm_compute|]. cbn [mbind option_bind]. rewrite Ha. by vm_compute.
  - right. exists b, Example.m1, {| e_name := "n"; e_digest := Example.digest "N"; e_size := 1 |}.
    rewrite Hb. split_and!; [done|by vm_compute|by left|done].
Qed.

Lemma before_ok : store_ok Example.digest Example.before.
Proof. apply run_keeps_nothing. split; [apply empty_store_ok|done]. Qed.

(** The sweep can take the label and the public marker of a blob it keeps: when an
    untagged manifest with the same bytes is collected, both go, although the blob is
    reachable and stays. *)
Theorem live_blob_loses_its_label :
  let d := Example.digest "N" in
  reachable Example.of_json Example.before d ∧
  Example.has_file Example.before (label_path d) = true ∧
  Example.has_file Example.before (public_path d) = true ∧
  Example.has_file Example.after (blob_path d) = true ∧
  Example.has_file Example.after (label_path d) = false ∧
  Example.has_file Example.after (public_path d) = false.
Proof.
  split; [|by vm_compute]. exists "keep", (Example.digest "M"). apply before_tagged.
Qed.

(** A collection that cannot read a tagged manifest takes it for a tag of a blob: it sweeps the manifest
    and the blobs in it, although the tag stands. *)
Theorem unreadable_manifest_is_swept :
  let env := Example.at_time (2 * Example.hour) in
  let failing := {| clock := clock env; blocks := blocks env; same_dev := same_dev env; emlink := emlink env;
     statfs := statfs env; min_free_bytes := min_free_bytes env; lock_fails := false; readdir_fails := readdir_fails env;
     stat_fails := stat_fails env; read_fails := λ p, bool_decide (p = manifest_path (Example.digest "M"));
     unlink_fails := unlink_fails env; write_fails := write_fails env; fsync_fails := fsync_fails env;
     mkdir_fails := mkdir_fails env; short_copy := short_copy env |} in
  let swept := snd (collect Example.of_json failing default_policy Example.before) in
  is_ok (fst (collect Example.of_json failing default_policy Example.before)) = true ∧
  tag_of swept "keep" = Some (Example.digest "M") ∧
  Example.has_file swept (manifest_path (Example.digest "M")) = false ∧
  Example.has_file swept (blob_path (Example.digest "N")) = false.
Proof. by vm_compute. Qed.

(** A deduplicated insert is not protected by the grace window: an insert of bytes the
    store already holds succeeds, keeping the old birth time, and a collection before
    the caller's tag is written removes the blob, so the tag dangles. *)
Theorem deduplicated_insert_is_swept :
  let fs := Example.before in
  let late := Example.at_time (2 * Example.hour) in
  let old := run Example.digest Example.of_json Example.to_json Example.json_of_label
    [(Example.at_time 0, OpInsert "x")] empty_store in
  let again := insert_bytes Example.digest late "x" old in
  let swept := run Example.digest Example.of_json Example.to_json Example.json_of_label
    [(late, OpCollect default_policy); (late, OpSetTag "mine" (Example.digest "x"))] (snd again) in
  match fst again with Ok i => b_deduped i | Err _ => false end = true ∧
  tag_of swept "mine" = Some (Example.digest "x") ∧
  Example.has_file swept (blob_path (Example.digest "x")) = false.
Proof. by vm_compute. Qed.

(** ** Witnesses *)

Lemma gc_removes_only_garbage_witness :
  let fs := Example.before in let p := manifest_path (Example.digest "N") in
  names (snd (collect Example.of_json (Example.at_time (2 * Example.hour)) default_policy fs)) !! p = None ∧
  (names (snd (collect Example.of_json (Example.at_time (2 * Example.hour)) default_policy fs)) !! p
     = names fs !! p ∨
   dry_run default_policy = false).
Proof.
  split; [by vm_compute|].
  destruct (gc_removes_only_garbage Example.of_json (Example.at_time (2 * Example.hour)) default_policy
    Example.before (manifest_path (Example.digest "N")) (λ _, eq_refl)) as [_ [H|[_ [H _]]]];
    [by left|by right].
Defined.

Lemma tagged_content_survives_witness :
  ∃ n, inode_at Example.before (blob_path (Example.digest "N")) = Some n ∧
    inode_at (run Example.digest Example.of_json Example.to_json Example.json_of_label
      [(Example.at_time (2 * Example.hour), OpCollect default_policy)] Example.before)
      (blob_path (Example.digest "N")) = Some n.
Proof.
  destruct (inode_at Example.before (blob_path (Example.digest "N"))) as [n|] eqn:Hn;
    [|exfalso; by vm_compute in Hn].
  exists n. split; [done|]. destruct before_tagged as [Ht Hv].
  apply (tagged_content_survives Example.digest Example.of_json Example.to_json Example.json_of_label
    Example.before _ "keep" (Example.digest "M") (Example.digest "N") n before_ok Ht Hv Hn).
  repeat constructor.
Defined.

Lemma content_addressed_witness :
  ∃ n, inode_at (run Example.digest Example.of_json Example.to_json Example.json_of_label
      [(Example.at_time 0, OpInsert "x")] empty_store) (blob_path (Example.digest "x")) = Some n ∧
    sealed n = true ∧ Example.digest (data n) = Example.digest "x".
Proof.
  destruct (inode_at (run Example.digest Example.of_json Example.to_json Example.json_of_label
      [(Example.at_time 0, OpInsert "x")] empty_store) (blob_path (Example.digest "x"))) as [n|] eqn:Hn;
    [|exfalso; by vm_compute in Hn].
  exists n. split; [done|].
  destruct (content_addressed Example.digest Example.of_json Example.to_json Example.json_of_label
    [(Example.at_time 0, OpInsert "x")] (blob_path (Example.digest "x")) (Example.digest "x") n
    (Example.at_time 0) (or_introl eq_refl) Hn) as (Hs & Hd & _). done.
Defined.
