(* ===== verification/ArtSparse.v ===== *)
(** * Sparse copies: [artifacts/src/sys/sparse.rs]

    Copying a file around its holes and its runs of zeros, and punching the zero runs of a
    file, over system calls that may transfer less than asked, be interrupted, or fail. *)
From Stdlib Require Import ZArith Lia Bool Strings.Byte.
From stdpp Require Import base option list numbers.
From S2P Require Import Prelude.

Abbreviation byte := Byte.byte.

(** ** Files

    The logical bytes of a file, and for each byte whether it is data: on the file that is read,
    whether [SEEK_DATA] finds it, on the file that is written, whether something was written there.
    What is not data reads as zero.  How many blocks a file system keeps for the data is not
    modelled: it allocates, and punches, whole blocks. *)
Record File : Type := { bytes : list byte; data_map : list bool }.

Definition zeros (n : nat) : list byte := replicate n Byte.x00.

Definition wf_file (f : File) : Prop :=
  length (data_map f) = length (bytes f) ∧
  ∀ i, data_map f !! i = Some false → bytes f !! i = Some Byte.x00.

(** [l] with [new] at [off], filled with [d] up to there. *)
Definition overwrite {A} (d : A) (l : list A) (off : nat) (new : list A) : list A :=
  let l := l ++ replicate (off - length l) d in
  take off l ++ new ++ drop (off + length new) l.

Definition write_at (f : File) (off : nat) (b : list byte) : File :=
  {| bytes := overwrite Byte.x00 (bytes f) off b;
     data_map := overwrite false (data_map f) off (replicate (length b) true) |}.

Definition resize {A} (d : A) (l : list A) (n : nat) : list A := take n l ++ replicate (n - length l) d.

Definition truncate_to (f : File) (n : nat) : File :=
  {| bytes := resize Byte.x00 (bytes f) n; data_map := resize false (data_map f) n |}.

(** [fallocate] with [PUNCH_HOLE | KEEP_SIZE]. *)
Definition punched (f : File) (off len : nat) : File :=
  let n := length (bytes f) in
  let k := Nat.min len (n - off) in
  {| bytes := take off (bytes f) ++ zeros k ++ drop (off + k) (bytes f);
     data_map := take off (data_map f) ++ replicate k false ++ drop (off + k) (data_map f) |}.

(** ** System calls

    What the kernel does with a call: it moves one byte more than [k], or as many as there are
    if that is fewer, or it fails. When the list is over, every call does all it was asked. *)
Inductive Answer : Type :=
| Count (k : nat)
| Errno (e : Z).

Inductive IoError : Type :=
| Os (e : Z)
| UnexpectedEof.

Definition EPERM : Z := 1.
Definition EINTR : Z := 4.
Definition ENXIO : Z := 6.
Definition EBADF : Z := 9.
Definition EXDEV : Z := 18.
Definition EINVAL : Z := 22.
Definition ENOSYS : Z := 38.
Definition EOPNOTSUPP : Z := 95.

Definition interrupted (e : IoError) : bool :=
  match e with Os n => (n =? EINTR)%Z | UnexpectedEof => false end.

(** What a call can change: the answers to come, the file written, and what [observe] was fed. *)
Record St : Type := { sched : list Answer; file : File; observed : list byte }.

Definition M (A : Type) : Type := St → option (result IoError A * St).

Definition ret {A} (a : A) : M A := λ s, Some (Ok a, s).
Definition err {A} (e : IoError) : M A := λ s, Some (Err e, s).
Definition bind {A B} (m : M A) (k : A → M B) : M B := λ s,
  match m s with
  | Some (Ok a, s') => k a s'
  | Some (Err e, s') => Some (Err e, s')
  | None => None
  end.
(** [match m { Ok .. , Err .. }]. *)
Definition attempt {A} (m : M A) : M (result IoError A) := λ s,
  match m s with Some (r, s') => Some (Ok r, s') | None => None end.

Declare Scope io_scope.
Notation "x <-! m ;; k" := (bind m (λ x, k)) (at level 100, m at next level, right associativity) : io_scope.
Notation "m ;;! k" := (bind m (λ _, k)) (at level 100, right associativity) : io_scope.
Open Scope io_scope.

(** A loop: the body goes on with [inl] or ends with [inr]. [fuel] is computed from where the
    loop starts. *)
Fixpoint iter {A B} (fuel : nat) (body : A → M (A + B)) (a : A) : M B :=
  match fuel with
  | O => λ _, None
  | S fuel => r <-! body a ;; match r with inl a' => iter fuel body a' | inr b => ret b end
  end.
Definition loop {A B} (fuel : A → nat) (body : A → M (A + B)) (a : A) : M B :=
  λ s, iter (S (fuel a + length (sched s))) body a s.

(** The next answer; a failure is returned. *)
Definition call : M (option nat) := λ s,
  match sched s with
  | [] => Some (Ok None, s)
  | a :: rest =>
    let s' := {| sched := rest; file := file s; observed := observed s |} in
    match a with
    | Count k => Some (Ok (Some (S k)), s')
    | Errno e => Some (Err (Os e), s')
    end
  end.
Definition at_most (k : option nat) (n : nat) : nat := match k with Some k => Nat.min k n | None => n end.

Definition modify (f : File → File) : M unit := λ s,
  Some (Ok tt, {| sched := sched s; file := f (file s); observed := observed s |}).
Definition observe (b : list byte) : M unit := λ s,
  Some (Ok tt, {| sched := sched s; file := file s; observed := observed s ++ b |}).
Definition the_file : M File := λ s, Some (Ok (file s), s).

Definition pread (src : File) (want off : nat) : M (list byte) :=
  k <-! call ;; ret (take (at_most k want) (drop off (bytes src))).
Definition pwrite (buf : list byte) (off : nat) : M nat :=
  k <-! call ;;
  let n := at_most k (length buf) in
  modify (λ f, write_at f off (take n buf)) ;;! ret n.
Definition ftruncate (n : nat) : M unit := call ;;! modify (λ f, truncate_to f n).
Definition punch_hole (off len : nat) : M unit := call ;;! modify (λ f, punched f off len).

(** The first position from [off] on whose flag is [b], counting from [off]. *)
Fixpoint first_flag (b : bool) (l : list bool) : option nat :=
  match l with
  | [] => None
  | x :: l' => if Bool.eqb x b then Some O else S <$> first_flag b l'
  end.

(** [lseek] with [SEEK_DATA] and with [SEEK_HOLE]: the end of the file is a hole. *)
Definition seek_data (src : File) (off : nat) : M nat :=
  call ;;! match first_flag true (drop off (data_map src)) with
           | Some k => ret (off + k)%nat
           | None => err (Os ENXIO)
           end.
Definition seek_hole (src : File) (off : nat) : M nat :=
  call ;;! ret (off + default (length (data_map src) - off) (first_flag false (drop off (data_map src))))%nat.

(** [copy_file_range]: how many bytes were copied. *)
Definition cfr_real (src : File) (in_off out_off len : nat) : M nat :=
  k <-! call ;;
  let n := Nat.min (at_most k len) (length (bytes src) - in_off) in
  modify (λ f, write_at f out_off (take n (drop in_off (bytes src)))) ;;! ret n.

(** ** Shapes and segments *)

Inductive Shape : Type := Dense | HoleAware | ZeroSquash (grain : nat).

Definition grain_of (s : Shape) : option nat :=
  match s with ZeroSquash g => Some g | _ => None end.

Record Segment : Type := { off : nat; len : nat }.

(** [data_segments]. *)
Definition data_segments (src : File) (size : nat) : M (list Segment) :=
  loop (λ '(o, _), size - o)%nat (λ '(o, out),
    if (o <? size)%nat then
      data <-! attempt (seek_data src o) ;;
      match data with
      | Err (Os e) =>
        if (e =? ENXIO)%Z then ret (inr out)
        else if (e =? EINVAL)%Z || (e =? EOPNOTSUPP)%Z
             then ret (inr (out ++ [{| off := o; len := size - o |}]))
             else err (Os e)
      | Err e => err e
      | Ok data =>
        if (size <=? data)%nat then ret (inr out)
        else
          hole <-! seek_hole src data ;;
          let end_ := Nat.min hole size in
          ret (inl (end_, if (data <? end_)%nat
                          then out ++ [{| off := data; len := end_ - data |}] else out))
      end
    else ret (inr out)) (O, []).

Definition segments (src : File) (size : nat) (shape : Shape) : M (list Segment) :=
  match shape with
  | Dense => ret (if (size =? 0)%nat then [] else [{| off := 0; len := size |}])
  | HoleAware | ZeroSquash _ => data_segments src size
  end.

(** ** Reading and writing *)

(** [pwrite] until everything is written. *)
Definition pwrite_all (buf : list byte) (o : nat) : M unit :=
  loop (λ done_, length buf - done_)%nat (λ done_,
    if (done_ <? length buf)%nat then
      n <-! attempt (pwrite (drop done_ buf) (o + done_)) ;;
      match n with
      | Ok n => ret (inl (done_ + n)%nat)
      | Err e => if interrupted e then ret (inl done_) else err e
      end
    else ret (inr tt)) O.

(** [pread] until the buffer is full or the file ends. *)
Definition pread_full (src : File) (want o : nat) : M (list byte) :=
  loop (λ acc, want - length acc)%nat (λ acc,
    if (length acc <? want)%nat then
      b <-! attempt (pread src (want - length acc) (o + length acc)) ;;
      match b with
      | Ok [] => ret (inr acc)
      | Ok b => ret (inl (acc ++ b))
      | Err e => if interrupted e then ret (inl acc) else err e
      end
    else ret (inr acc)) [].

(** [is_zero]: the first eight bytes as one number, then the others. *)
Definition u64_of (l : list byte) : N := foldr (λ b acc, Byte.to_N b + 256 * acc)%N 0%N l.
Definition is_zero (buf : list byte) : bool :=
  if (8 <=? length buf)%nat then
    if negb (u64_of (take 8 buf) =? 0)%N then false
    else forallb (λ b, Byte.eqb b Byte.x00) (drop 8 buf)
  else forallb (λ b, Byte.eqb b Byte.x00) buf.

Definition slice (l : list byte) (i j : nat) : list byte := take (j - i) (drop i l).

(** The end of the run of nonzero grains that goes on at [i]. *)
Fixpoint run_end (fuel : nat) (chunk : list byte) (grain i : nat) : nat :=
  match fuel with
  | O => i
  | S fuel =>
    if (i <? length chunk)%nat then
      let e := Nat.min (i + grain) (length chunk) in
      if is_zero (slice chunk i e) then i else run_end fuel chunk grain e
    else i
  end.

Definition write_nonzero_grains (chunk : list byte) (base grain : nat) : M nat :=
  loop (λ '(i, _), length chunk - i)%nat (λ '(i, written),
    if (i <? length chunk)%nat then
      let e := Nat.min (i + grain) (length chunk) in
      if is_zero (slice chunk i e) then ret (inl (e, written))
      else
        let j := run_end (length chunk) chunk grain e in
        pwrite_all (slice chunk i j) (base + i) ;;!
        ret (inl (j, (written + (j - i))%nat))
    else ret (inr written)) (O, O).

(** [feed_zeros]: in pieces of at most [piece]. *)
Definition feed_zeros (piece n : nat) : M unit :=
  loop (λ n, n) (λ n,
    if (0 <? n)%nat then
      let k := Nat.min n piece in
      observe (zeros k) ;;! ret (inl (n - k)%nat)
    else ret (inr tt)) n.

(** ** Copies *)

(** [MAX_CFR], [BUF_LEN] and the length of [ZEROS]. *)
Definition MAX_CFR : N := 1073741824.
Definition BUF_LEN : N := 4194304.
Definition ZEROS_LEN : N := 65536.

(** The sizes of the pieces are arguments of the routines. *)
Record Sizes : Type := { max_cfr : nat; buf_len : nat; zeros_len : nat }.
Definition code_sizes : Sizes :=
  {| max_cfr := N.to_nat MAX_CFR; buf_len := N.to_nat BUF_LEN; zeros_len := N.to_nat ZEROS_LEN |}.

Section sizes.
Context (sz : Sizes).

Definition copy_range_rw (src : File) (o len : nat) : M nat :=
  loop (λ done_, len - done_)%nat (λ done_,
    if (done_ <? len)%nat then
      b <-! pread src (Nat.min (len - done_) (buf_len sz)) (o + done_) ;;
      match b with
      | [] => err UnexpectedEof
      | b => pwrite_all b (o + done_) ;;! ret (inl (done_ + length b)%nat)
      end
    else ret (inr done_)) O.

(** The errors after which the copy goes on with reads and writes. *)
Definition falls_back (e : IoError) : bool :=
  match e with
  | Os n => existsb (Z.eqb n) [EXDEV; EINVAL; ENOSYS; EOPNOTSUPP; EPERM; EBADF]
  | UnexpectedEof => false
  end.

(** [copy_range_with]; [cfr] moves both offsets by what it copied. *)
Definition copy_range_with (cfr : File → nat → nat → nat → M nat) (src : File) (o len : nat) : M nat :=
  loop (λ '(_, remaining, _), remaining) (λ '(at_, remaining, copied),
    if (0 <? remaining)%nat then
      n <-! attempt (cfr src at_ at_ (Nat.min remaining (max_cfr sz))) ;;
      match n with
      | Ok (S _ as n) => ret (inl (at_ + n, remaining - n, copied + n)%nat)
      | Ok O => err UnexpectedEof
      | Err e =>
        if interrupted e then ret (inl (at_, remaining, copied))
        else if negb (falls_back e) then err e
        else n <-! copy_range_rw src at_ remaining ;; ret (inr (copied + n)%nat)
      end
    else ret (inr copied)) (o, len, O).

Definition copy_range : File → nat → nat → M nat := copy_range_with cfr_real.

(** The loop over one segment: the cursor and the bytes written so far. *)
Definition copy_segment (src : File) (grain : option nat) (check : nat → option IoError)
    (end_ cursor written : nat) : M (nat * nat) :=
  loop (λ '(cursor, _), end_ - cursor)%nat (λ '(cursor, written),
    if (cursor <? end_)%nat then
      chunk <-! pread_full src (Nat.min (end_ - cursor) (buf_len sz)) cursor ;;
      match chunk with
      | [] => err UnexpectedEof
      | chunk =>
        observe chunk ;;!
        n <-! match grain with
              | Some g => write_nonzero_grains chunk cursor g
              | None => pwrite_all chunk cursor ;;! ret (length chunk)
              end ;;
        match check (written + n)%nat with
        | Some e => err e
        | None => ret (inl (cursor + length chunk, written + n)%nat)
        end
      end
    else ret (inr (cursor, written))) (cursor, written).

Fixpoint copy_segments (src : File) (grain : option nat) (check : nat → option IoError)
    (segs : list Segment) (cursor written : nat) : M (nat * nat) :=
  match segs with
  | [] => ret (cursor, written)
  | s :: segs =>
    feed_zeros (zeros_len sz) (off s - cursor) ;;!
    cw <-! copy_segment src grain check (off s + len s) (off s) written ;;
    copy_segments src grain check segs (fst cw) (snd cw)
  end.

(** [copy_observing_guarded]. *)
Definition copy_observing_guarded (src : File) (size : nat) (shape : Shape)
    (check : nat → option IoError) : M nat :=
  ftruncate size ;;!
  segs <-! segments src size shape ;;
  cw <-! copy_segments src (grain_of shape) check segs 0 0 ;;
  feed_zeros (zeros_len sz) (size - fst cw) ;;!
  ret (snd cw).

Definition copy_observing (src : File) (size : nat) (shape : Shape) : M nat :=
  copy_observing_guarded src size shape (λ _, None).

Fixpoint copy_ranges (src : File) (segs : list Segment) (written : nat) : M nat :=
  match segs with
  | [] => ret written
  | s :: segs => n <-! copy_range src (off s) (len s) ;; copy_ranges src segs (written + n)
  end.

(** [copy_shaped]: with a grain, [copy_observing] with nobody to observe. *)
Definition copy_shaped (src : File) (size : nat) (shape : Shape) : M nat :=
  match grain_of shape with
  | Some _ => copy_observing src size shape
  | None =>
    ftruncate size ;;!
    segs <-! segments src size shape ;;
    copy_ranges src segs 0
  end.

(** ** Punching *)

Definition punch_if_worthwhile (o len grain : nat) : M nat :=
  if (len <? grain)%nat then ret O else punch_hole o len ;;! ret len.

(** The grains of one buffer: the start of the run of zero grains, and the bytes freed. *)
Definition punch_chunk (chunk : list byte) (cursor grain : nat) (run : option nat) (freed : nat) :
    M (option nat * nat) :=
  loop (λ '(i, _, _), length chunk - i)%nat (λ '(i, run, freed),
    if (i <? length chunk)%nat then
      let e := Nat.min (i + grain) (length chunk) in
      let at_ := (cursor + i)%nat in
      let full_grain := (e - i =? grain)%nat in
      if is_zero (slice chunk i e) && full_grain
      then ret (inl (e, Some (default at_ run), freed))
      else
        match run with
        | Some start =>
          n <-! punch_if_worthwhile start (at_ - start) grain ;; ret (inl (e, None, (freed + n)%nat))
        | None => ret (inl (e, None, freed))
        end
    else ret (inr (run, freed))) (O, run, freed).

(** [punch_zero_runs]: the file is read and punched through the same descriptor. *)
Definition punch_zero_runs (size grain : nat) : M nat :=
  r <-!
    loop (λ '(cursor, _, _), size - cursor)%nat (λ '(cursor, run, freed),
      if (cursor <? size)%nat then
        f <-! the_file ;;
        chunk <-! pread_full f (Nat.min (size - cursor) (buf_len sz)) cursor ;;
        match chunk with
        | [] => ret (inr (cursor, run, freed))
        | chunk =>
          observe chunk ;;!
          rf <-! punch_chunk chunk cursor grain run freed ;;
          ret (inl ((cursor + length chunk)%nat, fst rf, snd rf))
        end
      else ret (inr (cursor, run, freed))) (O, None, O) ;;
  let '(cursor, run, freed) := r in
  match run with
  | Some start => n <-! punch_if_worthwhile start (cursor - start) grain ;; ret (freed + n)%nat
  | None => ret freed
  end.
End sizes.

(** ** Reasoning about runs

    [wp m Q s]: from [s], whose calls only fail in ways [E] allows, [m] ends; it returns a value
    that satisfies [Q], or it fails with an error that [E] allows; either way it keeps [I]. *)
Section wp.
Context (E : IoError → Prop) (I : File → Prop).

Definition known (s : St) : Prop := ∀ n, Errno n ∈ sched s → E (Os n).
Definition later (s s' : St) : Prop := ∃ pre, sched s = pre ++ sched s'.
(** Only answers were consumed. *)
Definition idle (s s' : St) : Prop := later s s' ∧ file s' = file s ∧ observed s' = observed s.

Definition wp {A} (m : M A) (Q : A → St → Prop) (s : St) : Prop :=
  known s → I (file s) → ∃ r s', m s = Some (r, s') ∧ later s s' ∧ I (file s') ∧
    match r with Ok a => Q a s' | Err e => E e end.

Lemma later_refl s : later s s.
Proof. by exists []. Qed.
Lemma later_trans s1 s2 s3 : later s1 s2 → later s2 s3 → later s1 s3.
Proof. intros [p Hp] [q Hq]. exists (p ++ q). by rewrite Hp, Hq, <- app_assoc. Qed.
Lemma later_length s s' : later s s' → (length (sched s') <= length (sched s))%nat.
Proof. intros [p Hp]. rewrite Hp, length_app. lia. Qed.
Lemma known_later s s' : later s s' → known s → known s'.
Proof. intros [p Hp] Hk n Hn. apply Hk. rewrite Hp. apply elem_of_app. by right. Qed.
Lemma idle_refl s : idle s s.
Proof. split; [apply later_refl|done]. Qed.
Lemma idle_trans s1 s2 s3 : idle s1 s2 → idle s2 s3 → idle s1 s3.
Proof. intros (? & ? & ?) (? & ? & ?). split; [by eapply later_trans|]. split; congruence. Qed.

Lemma wp_ret {A} (a : A) Q s : Q a s → wp (ret a) Q s.
Proof. intros H _ HI. exists (Ok a), s. split; [done|]. split; [apply later_refl|done]. Qed.

Lemma wp_err {A} e (Q : A → St → Prop) s : E e → wp (err e) Q s.
Proof. intros H _ HI. exists (Err e), s. split; [done|]. split; [apply later_refl|done]. Qed.

Lemma wp_mono {A} (m : M A) (Q Q' : A → St → Prop) s :
  wp m Q s → (∀ a s', later s s' → Q a s' → Q' a s') → wp m Q' s.
Proof.
  intros Hm H Hs HI. destruct (Hm Hs HI) as (r & s' & Hr & Hl & HI' & HQ). exists r, s'.
  split_and!; [done..|]. destruct r; auto.
Qed.

Lemma wp_bind {A B} (m : M A) (k : A → M B) Q s :
  wp m (λ a s', wp (k a) Q s') s → wp (bind m k) Q s.
Proof.
  intros Hm Hs HI. destruct (Hm Hs HI) as (r & s' & Hr & Hl & HI' & HQ). unfold bind. rewrite Hr.
  destruct r as [a|e]; [|by exists (Err e), s'].
  destruct (HQ (known_later _ _ Hl Hs) HI') as (r & s'' & Hk & Hl' & HI'' & HQ'). exists r, s''. split; [done|].
  split; [by eapply later_trans|done].
Qed.

Lemma wp_loop {A B} (fuel : A → nat) (body : A → M (A + B)) (J : A → St → Prop) (Q : B → St → Prop) :
  (∀ a s, J a s → wp (body a) (λ r s', match r with
     | inl a' => J a' s' ∧ (fuel a' + length (sched s') < fuel a + length (sched s))%nat
     | inr b => Q b s'
     end) s) →
  ∀ a s, J a s → wp (loop fuel body a) Q s.
Proof.
  intros Hbody a s HJ.
  assert (∀ n a s, J a s → (fuel a + length (sched s) < n)%nat → wp (iter n body a) Q s) as H.
  { clear a s HJ. induction n as [|n IH]; intros a s HJ Hn; [lia|]. cbn [iter]. apply wp_bind.
    eapply wp_mono; [by apply Hbody|]. intros [a'|b] s' _; [|intros HQ; by apply wp_ret].
    intros [HJ' Hlt]. apply IH; [done|lia]. }
  unfold loop. intros Hs HI. refine (H _ a s HJ _ Hs HI). lia.
Qed.

(** *** System calls *)

Lemma wp_call Q s :
  (∀ k s', idle s s' → k ≠ Some O → Q k s') → wp call Q s.
Proof.
  intros H Hs HI. unfold call. destruct (sched s) as [|[k|e] rest] eqn:Es.
  - exists (Ok None), s. split_and!; [done|apply later_refl|done|]. apply H; [apply idle_refl|done].
  - eexists _, _. split_and!; [done|by exists [Count k]|done|]. apply H; [|done].
    split; [by exists [Count k]|done].
  - eexists _, _. split_and!; [done|by exists [Errno e]|done|]. apply Hs. rewrite Es. by left.
Qed.

Lemma at_most_le k n : (at_most k n <= n)%nat.
Proof. destruct k; simpl; lia. Qed.
Lemma at_most_pos k n : k ≠ Some O → (0 < n)%nat → (0 < at_most k n)%nat.
Proof. intros Hk Hn. destruct k as [[|k]|]; unfold at_most; [congruence|lia..]. Qed.

Lemma wp_modify f Q s :
  (I (file s) → I (f (file s))) →
  (∀ s', later s s' → file s' = f (file s) → observed s' = observed s → Q tt s') → wp (modify f) Q s.
Proof.
  intros Hf H _ HI. eexists _, _. split_and!; [done|by exists []|by apply Hf|]. apply H; [by exists []|done..].
Qed.

Lemma wp_observe b Q s :
  (∀ s', later s s' → file s' = file s → observed s' = observed s ++ b → Q tt s') → wp (observe b) Q s.
Proof.
  intros H _ HI. eexists _, _. split_and!; [done|by exists []|done|]. apply H; [by exists []|done..].
Qed.

Lemma wp_the_file Q s : Q (file s) s → wp the_file Q s.
Proof. intros H _ HI. eexists _, _. split_and!; [done|apply later_refl|done|done]. Qed.

(** A call that fails changes nothing but the answers to come. *)
Lemma wp_attempt {A} (act : option nat → M A) (Q : result IoError A → St → Prop) s :
  (∀ k s', idle s s' → k ≠ Some O → wp (act k) (λ a s', Q (Ok a) s') s' ∧
     (∀ e s'', act k s' ≠ Some (Err e, s''))) →
  (∀ e s', idle s s' → (length (sched s') < length (sched s))%nat → E (Os e) → Q (Err (Os e)) s') →
  wp (attempt (bind call act)) Q s.
Proof.
  intros Hok Herr Hs HI. unfold attempt, bind, call.
  assert (∀ k s', idle s s' → wp (act k) (λ a s', Q (Ok a) s') s' →
    (∀ e s'', act k s' ≠ Some (Err e, s'')) →
    ∃ r s'', match act k s' with Some (r, s'') => Some (Ok r, s'') | None => None end = Some (r, s'') ∧
      later s s'' ∧ I (file s'') ∧ match r with Ok a => Q a s'' | Err e => E e end) as Hact.
  { intros k s' (Hl & Hf & _) Hw Hne. rewrite <- Hf in HI.
    destruct (Hw (known_later _ _ Hl Hs) HI) as (r & s'' & Hk & Hl' & HI' & Hr). rewrite Hk.
    destruct r as [a|e]; [|by destruct (Hne _ _ Hk)].
    eexists _, _. split; [done|]. split; [by eapply later_trans|done]. }
  destruct (sched s) as [|[k|e] rest] eqn:Es.
  - destruct (Hok None s (idle_refl s) ltac:(done)) as [H1 H2]. by apply Hact; [apply idle_refl|..].
  - set (s' := {| sched := rest; file := file s; observed := observed s |}).
    assert (idle s s') as Hl by (by split; [exists [Count k]|]).
    destruct (Hok (Some (S k)) s' Hl) as [H1 H2]; [done|]. by apply Hact.
  - eexists _, _. split; [done|]. assert (idle s {| sched := rest; file := file s; observed := observed s |}) as Hl
      by (by split; [exists [Errno e]|]). split; [apply Hl|]. split; [done|].
    apply Herr; [done|simpl; lia|]. apply Hs. rewrite Es. by left.
Qed.
End wp.

(** ** Files as lists *)

Lemma overwrite_lookup {A} (d : A) l o new i :
  (o + length new <= length l)%nat →
  overwrite d l o new !! i =
  if decide (o <= i < o + length new)%nat then new !! (i - o)%nat else l !! i.
Proof.
  intros H. unfold overwrite. replace (o - length l)%nat with O by lia. rewrite app_nil_r.
  assert (length (take o l) = o) as Ht by (rewrite length_take; lia).
  destruct (decide _) as [Hi|Hi].
  - rewrite lookup_app_r by lia. rewrite Ht, lookup_app_l by lia. done.
  - destruct (decide (i < o)%nat) as [Hlt|Hge].
    + rewrite lookup_app_l by lia. by rewrite lookup_take_lt.
    + rewrite lookup_app_r by lia. rewrite lookup_app_r by lia. rewrite Ht, lookup_drop. f_equal. lia.
Qed.

Lemma overwrite_length {A} (d : A) l o new :
  (o + length new <= length l)%nat → length (overwrite d l o new) = length l.
Proof.
  intros H. unfold overwrite. replace (o - length l)%nat with O by lia. rewrite app_nil_r.
  rewrite !length_app, length_take, length_drop. lia.
Qed.

(** Writing a buffer in two parts. *)
Lemma overwrite_app {A} (d : A) l o a b :
  (o + length (a ++ b) <= length l)%nat →
  overwrite d (overwrite d l o a) (o + length a) b = overwrite d l o (a ++ b).
Proof.
  rewrite length_app. intros H.
  assert (length (overwrite d l o a) = length l) as Hl by (apply overwrite_length; lia).
  apply list_eq. intros i. rewrite !overwrite_lookup by (rewrite ?length_app; lia). rewrite length_app.
  repeat case_decide; try lia; rewrite ?lookup_app_l, ?lookup_app_r by lia; try done.
  f_equal. lia.
Qed.

Lemma write_at_app f o a b :
  length (data_map f) = length (bytes f) → (o + length (a ++ b) <= length (bytes f))%nat →
  write_at (write_at f o a) (o + length a) b = write_at f o (a ++ b).
Proof.
  intros Ha H. unfold write_at. cbn [bytes data_map]. f_equal; [by apply overwrite_app|].
  pose proof (overwrite_app false (data_map f) o (replicate (length a) true) (replicate (length b) true)) as Hr.
  rewrite length_app, !length_replicate in Hr. rewrite length_app in *. rewrite replicate_add. apply Hr. lia.
Qed.

Lemma write_at_nil f o :
  length (data_map f) = length (bytes f) → (o <= length (bytes f))%nat → write_at f o [] = f.
Proof.
  intros Ha H. destruct f as [l al]. unfold write_at. cbn [bytes data_map length replicate] in *.
  f_equal; apply list_eq; intros i; rewrite overwrite_lookup by (simpl; lia); case_decide; simpl in *; lia || done.
Qed.

Lemma u64_of_zero l : (u64_of l =? 0)%N = forallb (λ b, Byte.eqb b Byte.x00) l.
Proof.
  induction l as [|b l IH]; [done|]. cbn [u64_of foldr forallb]. fold (u64_of l). rewrite <- IH.
  assert (Byte.eqb b Byte.x00 = (Byte.to_N b =? 0)%N) as -> by (by destruct b).
  destruct (N.eqb_spec (Byte.to_N b) 0), (N.eqb_spec (u64_of l) 0); simpl;
    apply N.eqb_eq || apply N.eqb_neq; lia.
Qed.

Lemma is_zero_spec buf : is_zero buf = forallb (λ b, Byte.eqb b Byte.x00) buf.
Proof.
  unfold is_zero. destruct (8 <=? length buf)%nat; [|done]. rewrite u64_of_zero.
  rewrite <- (take_drop 8 buf) at 3. rewrite forallb_app. by destruct (forallb _ (take 8 buf)).
Qed.

Lemma is_zero_lookup buf i : is_zero buf = true → (i < length buf)%nat → buf !! i = Some Byte.x00.
Proof.
  rewrite is_zero_spec, forallb_forall. intros H Hi. destruct (lookup_lt_is_Some_2 buf i Hi) as [b Hb].
  rewrite Hb. f_equal. apply Byte.byte_dec_bl. apply (H b). apply list_elem_of_In. by eapply list_elem_of_lookup_2.
Qed.

Lemma not_zero_lookup buf : is_zero buf = false → ∃ i b, buf !! i = Some b ∧ b ≠ Byte.x00.
Proof.
  rewrite is_zero_spec. induction buf as [|b buf IH]; [done|]. cbn [forallb].
  destruct (Byte.eqb b Byte.x00) eqn:E.
  - intros H. destruct (IH H) as (i & c & Hi & Hc). by exists (S i), c.
  - intros _. exists O, b. split; [done|]. intros ->. by destruct Byte.x00.
Qed.

Lemma slice_lookup l i j k :
  (j <= length l)%nat → slice l i j !! k = if decide (k < j - i)%nat then l !! (i + k)%nat else None.
Proof.
  intros H. unfold slice. case_decide; [rewrite lookup_take_lt, lookup_drop by done; done|].
  by rewrite lookup_take_ge by lia.
Qed.
Lemma slice_length l i j : (j <= length l)%nat → length (slice l i j) = (j - i)%nat.
Proof. intros H. unfold slice. rewrite length_take, length_drop. lia. Qed.

Definition data_bytes (f : File) : nat := length (List.filter (λ b, b) (data_map f)).

Lemma filter_replicate b n : List.filter (λ b : bool, b) (replicate n b) = if b then replicate n true else [].
Proof. induction n as [|n IH]; [by destruct b|]. simpl. rewrite IH. by destruct b. Qed.

Lemma data_bytes_write f o b :
  (o + length b <= length (data_map f))%nat → (∀ i, (o <= i < o + length b)%nat → data_map f !! i = Some false) →
  data_bytes (write_at f o b) = (data_bytes f + length b)%nat.
Proof.
  intros H Hf. unfold data_bytes, write_at, overwrite. cbn [data_map].
  replace (o - length (data_map f))%nat with O by lia. rewrite app_nil_r.
  assert (data_map f = take o (data_map f) ++ replicate (length b) false ++ drop (o + length b) (data_map f)) as Hsplit.
  { rewrite <- (take_drop o (data_map f)) at 1. f_equal. rewrite <- (take_drop (length b) (drop o (data_map f))).
    rewrite drop_drop. f_equal. apply list_eq. intros i. rewrite lookup_take. case_decide as Hi.
    - rewrite lookup_drop, Hf by lia. symmetry. by apply lookup_replicate_2.
    - symmetry. apply lookup_ge_None_2. rewrite length_replicate. lia. }
  rewrite Hsplit at 3. rewrite !List.filter_app, !length_app, !filter_replicate, !length_replicate. simpl. lia.
Qed.

(** ** The invariant of a copy

    Everything before the cursor is copied, nothing after it is written. [P] says which
    positions the copy may write to. *)
Section copying.
Context (E : IoError → Prop) (P : nat → Prop) (src : File).

Definition any_file (f : File) : Prop := True.
Abbreviation wpe := (wp E any_file).
Abbreviation size_ := (length (bytes src)).

Record progress (cursor written : nat) (f : File) : Prop := {
  pr_len : length (bytes f) = size_;
  pr_data_len : length (data_map f) = size_;
  pr_bytes : ∀ i, (i < size_)%nat → bytes f !! i = if decide (i < cursor)%nat then bytes src !! i else Some Byte.x00;
  pr_data : ∀ i, (cursor <= i < size_)%nat → data_map f !! i = Some false;
  pr_keep : ∀ i, data_map f !! i = Some true → P i;
  pr_written : written = data_bytes f;
}.

Lemma progress_skip c c' w f :
  progress c w f → (c <= c')%nat → (∀ i, (c <= i < c')%nat → (i < size_)%nat → bytes src !! i = Some Byte.x00) →
  progress c' w f.
Proof.
  intros [Hl Ha Hb Hf Hk Hw] Hc Hz. split; try done.
  - intros i Hi. rewrite Hb by done. repeat case_decide; try done; try lia. symmetry. apply Hz; lia.
  - intros i Hi. apply Hf. lia.
Qed.

Lemma progress_write c w f n :
  progress c w f → (c + n <= size_)%nat → (∀ i, (c <= i < c + n)%nat → P i) →
  progress (c + n) (w + n) (write_at f c (take n (drop c (bytes src)))).
Proof.
  intros [Hl Ha Hb Hf Hk Hw] Hn HP.
  assert (length (take n (drop c (bytes src))) = n) as Hlen by (rewrite length_take, length_drop; lia).
  split; cbn [write_at bytes data_map].
  - rewrite overwrite_length; lia.
  - rewrite overwrite_length; rewrite ?length_replicate; lia.
  - intros i Hi. rewrite overwrite_lookup, Hlen by lia. repeat case_decide; try lia.
    + rewrite lookup_take_lt, lookup_drop by lia. f_equal. lia.
    + rewrite Hb by done. by case_decide; try lia.
    + rewrite Hb by done. by case_decide; try lia.
  - intros i Hi. rewrite overwrite_lookup by (rewrite length_replicate; lia).
    rewrite length_replicate. case_decide; [lia|]. apply Hf. lia.
  - intros i. rewrite overwrite_lookup by (rewrite length_replicate; lia). rewrite length_replicate, Hlen.
    case_decide; [intros _; by apply HP|apply Hk].
  - change {| bytes := _; data_map := _ |} with (write_at f c (take n (drop c (bytes src)))).
    rewrite data_bytes_write, Hlen; [lia|rewrite Hlen; lia|].
    intros i Hi. apply Hf. lia.
Qed.

(** *** Reading and writing *)

Lemma wp_pwrite_all buf o Q s :
  length (data_map (file s)) = length (bytes (file s)) → (o + length buf <= length (bytes (file s)))%nat →
  (∀ s', later s s' → file s' = write_at (file s) o buf → observed s' = observed s → Q tt s') →
  wpe (pwrite_all buf o) Q s.
Proof.
  intros Ha Hlen HQ. unfold pwrite_all.
  apply (wp_loop E any_file _ _ (λ done_ s1, later s s1 ∧ (done_ <= length buf)%nat ∧
    file s1 = write_at (file s) o (take done_ buf) ∧ observed s1 = observed s)).
  2: { split_and!; [apply later_refl|lia| |done]. rewrite take_0, write_at_nil; [done..|lia]. }
  intros done_ s1 (Hl1 & Hd & Hf & Ho). destruct (Nat.ltb_spec done_ (length buf)) as [Hlt|Hge].
  2: { apply wp_ret. apply HQ; [done| |done]. by rewrite Hf, take_ge by lia. }
  apply wp_bind. unfold pwrite at 1. apply wp_attempt.
  - intros k s2 (Hl2 & Hf2 & Ho2) Hk. split; [|done]. cbv zeta.
    set (n := at_most k (length (drop done_ buf))).
    pose proof (at_most_le k (length (drop done_ buf))) as Hn.
    pose proof (at_most_pos k (length (drop done_ buf)) Hk ltac:(rewrite length_drop; lia)) as Hn0.
    fold n in Hn, Hn0. rewrite length_drop in Hn.
    apply wp_bind, wp_modify; [done|]. intros s3 Hl3 Hf3 Ho3. apply wp_ret, wp_ret.
    assert (later s1 s3) as Hl13 by (by eapply later_trans).
    pose proof (later_length _ _ Hl13). split; [|lia].
    split_and!; [by eapply later_trans|lia| |congruence].
    rewrite Hf3, Hf2, Hf. assert (length (take done_ buf) = done_) as Ht by (rewrite length_take; lia).
    rewrite <- Ht at 2. rewrite write_at_app; [|done|].
    + f_equal. apply list_eq. intros i. rewrite lookup_app, Ht.
      destruct (decide (i < done_)%nat) as [Hi|Hi].
      * rewrite !lookup_take_lt by lia. destruct (lookup_lt_is_Some_2 buf i ltac:(lia)) as [b Hb]. by rewrite Hb.
      * rewrite (lookup_take_ge buf done_) by lia. destruct (decide (i < done_ + n)%nat).
        -- rewrite !lookup_take_lt, lookup_drop by lia. f_equal. lia.
        -- by rewrite !lookup_take_ge by lia.
    + rewrite length_app, !length_take, length_drop. lia.
  - intros e s2 (Hl2 & Hf2 & Ho2) Hlt2 He. destruct (interrupted (Os e)); [|by apply wp_err].
    apply wp_ret. split; [|lia]. split_and!; [by eapply later_trans|done|congruence..].
Qed.

Lemma wp_pread_full (I : File → Prop) (f : File) want o Q s :
  (∀ s', idle s s' → Q (take want (drop o (bytes f))) s') → wp E I (pread_full f want o) Q s.
Proof.
  intros HQ. unfold pread_full. set (l := drop o (bytes f)).
  apply (wp_loop E I _ _ (λ acc s1, idle s s1 ∧ (length acc <= want)%nat ∧ acc = take (length acc) l)).
  2: { split_and!; [apply idle_refl|simpl; lia|done]. }
  intros acc s1 (Hi & Hlen & Hacc). destruct (Nat.ltb_spec (length acc) want) as [Hlt|Hge].
  2: { apply wp_ret. assert (want = length acc) as Hw by lia. rewrite Hacc, <- Hw. by apply HQ. }
  apply wp_bind. unfold pread. apply wp_attempt.
  - intros k s2 Hi2 Hk. split; [|done]. apply wp_ret.
    rewrite <- drop_drop. fold l. set (n := at_most k (want - length acc)).
    pose proof (at_most_le k (want - length acc)) as Hn.
    pose proof (at_most_pos k (want - length acc) Hk ltac:(lia)) as Hn0. fold n in Hn, Hn0.
    pose proof (later_length _ _ (proj1 Hi2)).
    assert (length (take n (drop (length acc) l)) = Nat.min n (length l - length acc)) as Hb
      by (by rewrite length_take, length_drop).
    destruct (take n (drop (length acc) l)) as [|b bs] eqn:Eb.
    + apply wp_ret. assert (length l <= length acc)%nat as Hend by (simpl in Hb; lia).
      assert (acc = take want l) as ->; [|by apply HQ; eapply idle_trans].
      rewrite (take_ge l want) by lia. etrans; [exact Hacc|by apply take_ge].
    + apply wp_ret. assert (0 < length (b :: bs))%nat by (simpl; lia). rewrite length_app.
      split; [|lia]. split_and!; [by eapply idle_trans|lia|].
      rewrite <- Eb in *. rewrite Hacc at 1. rewrite take_take_drop. rewrite Hb.
      destruct (decide (n <= length l - length acc)%nat); [f_equal; lia|by rewrite !take_ge by lia].
  - intros e s2 Hi2 Hlt2 He. destruct (interrupted (Os e)); [|by apply wp_err].
    apply wp_ret. split; [|lia]. split_and!; [by eapply idle_trans|done..].
Qed.

Lemma take_drop_slice c n i j :
  (i <= j <= n)%nat → slice (take n (drop c (bytes src))) i j = take (j - i) (drop (c + i) (bytes src)).
Proof.
  intros H. unfold slice. apply list_eq. intros k. rewrite !lookup_take. case_decide; [|done].
  rewrite !lookup_drop, lookup_take_lt, lookup_drop by lia. f_equal. lia.
Qed.

Lemma chunk_length c n : (c + n <= size_)%nat → length (take n (drop c (bytes src))) = n.
Proof. intros H. rewrite length_take, length_drop. lia. Qed.

(** A nonzero byte less than [grain] away from [p]. *)
Definition near_data (grain p : nat) : Prop :=
  ∃ q b, bytes src !! q = Some b ∧ b ≠ Byte.x00 ∧ (p < q + grain)%nat ∧ (q < p + grain)%nat.

Lemma nonzero_near c n grain i e p :
  (i < e <= n)%nat → (c + n <= size_)%nat → (e <= i + grain)%nat →
  is_zero (slice (take n (drop c (bytes src))) i e) = false →
  (i <= p < e)%nat → near_data grain (c + p).
Proof.
  intros He Hn Hg (k & b & Hk & Hb)%not_zero_lookup Hp.
  rewrite slice_lookup in Hk by (rewrite chunk_length; lia). case_decide as Hki; [|done].
  rewrite lookup_take_lt, lookup_drop in Hk by lia.
  exists (c + (i + k))%nat, b. split_and!; [done|done|lia..].
Qed.

Lemma run_end_spec fuel c n grain i :
  (0 < grain)%nat → (c + n <= size_)%nat → (i <= n)%nat →
  let j := run_end fuel (take n (drop c (bytes src))) grain i in
  (i <= j <= n)%nat ∧ ∀ p, (i <= p < j)%nat → near_data grain (c + p).
Proof.
  intros Hg Hn. revert i. induction fuel as [|fuel IH]; intros i Hi; cbn [run_end]; [split; [lia|intros; lia]|].
  rewrite chunk_length by done.
  destruct (Nat.ltb_spec i n) as [Hlt|]; [|split; [lia|intros; lia]].
  set (e := Nat.min (i + grain) n). destruct (is_zero _) eqn:Hz; [split; [lia|intros; lia]|].
  destruct (IH e ltac:(lia)) as [Hj Hnear]. split; [lia|]. intros p Hp.
  destruct (decide (p < e)%nat); [|apply Hnear; lia].
  eapply nonzero_near; [| |  |exact Hz|]; lia.
Qed.

(** *** Writing a chunk *)

Lemma wp_write_chunk c w n Q s :
  progress c w (file s) → (c + n <= size_)%nat → (∀ i, (c <= i < c + n)%nat → P i) →
  (∀ s', later s s' → progress (c + n) (w + n) (file s') → observed s' = observed s → Q tt s') →
  wpe (pwrite_all (take n (drop c (bytes src))) c) Q s.
Proof.
  intros Hp Hn HP HQ. pose proof (pr_len _ _ _ Hp) as Hl. pose proof (pr_data_len _ _ _ Hp) as Ha.
  apply wp_pwrite_all; [congruence|rewrite chunk_length; lia|].
  intros s' Hl' Hf Ho. apply HQ; [done| |done]. rewrite Hf. by apply progress_write.
Qed.

Lemma wp_write_nonzero_grains c w n grain Q s :
  (0 < grain)%nat → progress c w (file s) → (c + n <= size_)%nat →
  (∀ i, near_data grain i → P i) →
  (∀ r s', later s s' → progress (c + n) (w + r) (file s') → observed s' = observed s → Q r s') →
  wpe (write_nonzero_grains (take n (drop c (bytes src))) c grain) Q s.
Proof.
  intros Hg Hp Hn HP HQ. unfold write_nonzero_grains. rewrite chunk_length by done.
  apply (wp_loop E any_file _ _ (λ '(i, r) s1, later s s1 ∧ (i <= n)%nat ∧
    progress (c + i) (w + r) (file s1) ∧ observed s1 = observed s)).
  2: { split_and!; [apply later_refl|lia| |done]. by rewrite !Nat.add_0_r. }
  intros [i r] s1 (Hl1 & Hi & Hp1 & Ho1).
  destruct (Nat.ltb_spec i n) as [Hlt|Hge].
  2: { apply wp_ret. assert (i = n) as -> by lia. by apply HQ. }
  set (e := Nat.min (i + grain) n). destruct (is_zero (slice _ i e)) eqn:Hz.
  - apply wp_ret. split; [|lia]. split_and!; [done|lia| |done].
    eapply progress_skip; [exact Hp1|lia|]. intros k Hk Hks.
    pose proof (is_zero_lookup _ (k - (c + i)) Hz) as Hb.
    rewrite slice_length, slice_lookup in Hb by (rewrite chunk_length; lia).
    rewrite decide_True, lookup_take_lt, lookup_drop in Hb by lia.
    rewrite <- Hb by lia. f_equal. lia.
  - set (j := run_end n (take n (drop c (bytes src))) grain e).
    destruct (run_end_spec n c n grain e Hg Hn ltac:(lia)) as [Hj Hnear]. fold j in Hj, Hnear.
    rewrite take_drop_slice by lia. apply wp_bind. eapply wp_write_chunk; [exact Hp1|lia| |].
    + intros k Hk. apply HP. replace k with (c + (k - c))%nat by lia.
      destruct (decide (k - c < e)%nat); [|apply Hnear; lia].
      eapply nonzero_near; [| | |exact Hz|]; lia.
    + intros s2 Hl2 Hp2 Ho2. apply wp_ret. pose proof (later_length _ _ Hl2). split; [|lia].
      split_and!; [by eapply later_trans|lia| |congruence].
      replace (c + j)%nat with (c + i + (j - i))%nat by lia.
      by replace (w + (r + (j - i)))%nat with (w + r + (j - i))%nat by lia.
Qed.

Lemma wp_feed_zeros piece n Q s :
  (0 < piece)%nat →
  (∀ s', later s s' → file s' = file s → observed s' = observed s ++ zeros n → Q tt s') →
  wpe (feed_zeros piece n) Q s.
Proof.
  intros Hp HQ. unfold feed_zeros.
  apply (wp_loop E any_file _ _ (λ m s1, later s s1 ∧ file s1 = file s ∧ (m <= n)%nat ∧
    observed s1 = observed s ++ zeros (n - m))).
  2: { split_and!; [apply later_refl|done|lia|]. rewrite Nat.sub_diag. by rewrite app_nil_r. }
  intros m s1 (Hl & Hf & Hm & Ho). destruct (Nat.ltb_spec 0 m) as [Hlt|Hge].
  - apply wp_bind, wp_observe. intros s2 Hl2 Hf2 Ho2. apply wp_ret. pose proof (later_length _ _ Hl2).
    split; [|lia]. split_and!; [by eapply later_trans|congruence|lia|].
    rewrite Ho2, Ho, <- app_assoc. f_equal. unfold zeros. rewrite <- replicate_add. f_equal. lia.
  - apply wp_ret. apply HQ; [done..|]. rewrite Ho. repeat f_equal. lia.
Qed.

(** *** Segments *)

(** The segments from [c] on cover everything that is not zero. *)
Fixpoint covers (c : nat) (segs : list Segment) : Prop :=
  match segs with
  | [] => ∀ i, (c <= i < size_)%nat → bytes src !! i = Some Byte.x00
  | s :: segs =>
    (c <= off s)%nat ∧ (off s + len s <= size_)%nat ∧
    (∀ i, (c <= i < off s)%nat → bytes src !! i = Some Byte.x00) ∧ covers (off s + len s) segs
  end.

Lemma first_flag_spec b l :
  match first_flag b l with
  | Some k => l !! k = Some b ∧ ∀ i, (i < k)%nat → l !! i = Some (negb b)
  | None => ∀ i, (i < length l)%nat → l !! i = Some (negb b)
  end.
Proof.
  induction l as [|x l IH]; cbn [first_flag]; [simpl; intros; lia|].
  destruct (Bool.eqb x b) eqn:Hx.
  - apply eqb_prop in Hx as ->. split; [done|intros; lia].
  - assert (x = negb b) as -> by (by destruct x, b).
    destruct (first_flag b l) as [k|]; cbn [fmap option_fmap option_map].
    + destruct IH as [IH1 IH2]. split; [done|]. intros [|i] Hi; [done|]. apply IH2. lia.
    + intros [|i] Hi; [done|]. apply IH. simpl in Hi. lia.
Qed.

Hypothesis src_ok : wf_file src.
Hypothesis no_enxio : ¬ E (Os ENXIO).

Lemma hole_zero i : data_map src !! i = Some false → bytes src !! i = Some Byte.x00.
Proof. apply src_ok. Qed.

Lemma wp_seek_data (Q : result IoError nat → St → Prop) o s :
  (∀ s', idle s s' → (∀ i, (o <= i < size_)%nat → bytes src !! i = Some Byte.x00) → Q (Err (Os ENXIO)) s') →
  (∀ d s', idle s s' → (o <= d < size_)%nat → data_map src !! d = Some true →
     (∀ i, (o <= i < d)%nat → bytes src !! i = Some Byte.x00) → Q (Ok d) s') →
  (∀ e s', idle s s' → E (Os e) → Q (Err (Os e)) s') →
  wpe (attempt (seek_data src o)) Q s.
Proof.
  intros Hnone Hsome Herr Hs _. unfold attempt, seek_data, bind, call.
  destruct src_ok as [Hal Hz].
  pose proof (first_flag_spec true (drop o (data_map src))) as Hff.
  assert (∀ s', idle s s' → ∃ r s'', match
      (match first_flag true (drop o (data_map src)) with
       | Some k => ret (o + k)%nat | None => err (Os ENXIO) end) s' with
      | Some (r, s'') => Some (Ok r, s'') | None => None end = Some (r, s'') ∧ later s s'' ∧ any_file (file s'') ∧
      match r with Ok a => Q a s'' | Err e => E e end) as Hres.
  { intros s' Hi. destruct (first_flag true (drop o (data_map src))) as [k|].
    - destruct Hff as [Hk Hlt]. eexists _, _. split; [done|]. split; [apply Hi|]. split; [done|].
      rewrite lookup_drop in Hk. pose proof (lookup_lt_Some _ _ _ Hk).
      apply Hsome; [done|lia|done|]. intros i Hii. apply Hz.
      specialize (Hlt (i - o)%nat ltac:(lia)). rewrite lookup_drop in Hlt. cbn [negb] in Hlt. rewrite <- Hlt. f_equal. lia.
    - eexists _, _. split; [done|]. split; [apply Hi|]. split; [done|]. apply Hnone; [done|]. intros i Hii. apply Hz.
      specialize (Hff (i - o)%nat ltac:(rewrite length_drop; lia)). rewrite lookup_drop in Hff. cbn [negb] in Hff.
      rewrite <- Hff. f_equal. lia. }
  destruct (sched s) as [|[k|e] rest] eqn:Es.
  - apply Hres, idle_refl.
  - apply Hres. split; [by exists [Count k]|done].
  - eexists _, _. split; [done|]. split; [by exists [Errno e]|]. split; [done|]. apply Herr.
    + split; [by exists [Errno e]|done].
    + apply Hs. rewrite Es. by left.
Qed.

Lemma wp_data_segments Q s :
  (∀ segs s', idle s s' → covers 0 segs → Q segs s') → wpe (data_segments src size_) Q s.
Proof.
  intros HQ. unfold data_segments.
  apply (wp_loop E any_file _ _ (λ '(o, out) s1, idle s s1 ∧ (o <= size_)%nat ∧
    ∀ rest, covers o rest → covers 0 (out ++ rest))).
  2: { split_and!; [apply idle_refl|lia|done]. }
  intros [o out] s1 (Hi & Ho & Hcov).
  assert (∀ s2, idle s1 s2 → (∀ i, (o <= i < size_)%nat → bytes src !! i = Some Byte.x00) → Q out s2) as Hend.
  { intros s2 Hi2 Hz. apply HQ; [by eapply idle_trans|]. rewrite <- (app_nil_r out). by apply Hcov. }
  destruct (Nat.ltb_spec o size_) as [Hlt|Hge].
  2: { apply wp_ret. apply Hend; [apply idle_refl|]. intros; lia. }
  apply wp_bind, wp_seek_data.
  - intros s2 Hi2 Hz. cbn [Z.eqb Pos.eqb ENXIO]. apply wp_ret. by apply Hend.
  - intros d s2 Hi2 Hd Hal Hz. destruct (Nat.leb_spec size_ d) as [|_]; [lia|].
    apply wp_bind. unfold seek_hole. apply wp_bind, wp_call. intros k s3 Hi3 _. apply wp_ret.
    set (hole := (d + _)%nat). assert (d < hole)%nat as Hhole.
    { unfold hole. pose proof (first_flag_spec false (drop d (data_map src))) as Hff.
      destruct (first_flag false (drop d (data_map src))) as [[|k']|]; cbn [from_option].
      - destruct Hff as [Hff _]. rewrite lookup_drop, Nat.add_0_r in Hff. congruence.
      - unfold Datatypes.id. lia.
      - pose proof (lookup_lt_Some _ _ _ Hal). lia. }
    apply wp_ret. pose proof (later_length _ _ (proj1 Hi2)). pose proof (later_length _ _ (proj1 Hi3)).
    split; [|lia]. split_and!; [eapply idle_trans; [exact Hi|by eapply idle_trans]|lia|].
    intros rest Hrest. destruct (Nat.ltb_spec d (Nat.min hole size_)) as [_|]; [|lia].
    rewrite <- app_assoc. apply Hcov. cbn [app covers off len].
    replace (d + (Nat.min hole size_ - d))%nat with (Nat.min hole size_) by lia.
    split_and!; [lia|lia|done|done].
  - intros e s2 Hi2 He. destruct (Z.eqb_spec e ENXIO) as [->|_]; [done|].
    destruct (_ || _); [|by apply wp_err]. apply wp_ret. apply HQ; [by eapply idle_trans|].
    apply Hcov. cbn [covers off len]. split_and!; [lia|lia|intros; lia|intros; lia].
Qed.

Lemma wp_segments shape Q s :
  (∀ segs s', idle s s' → covers 0 segs → Q segs s') → wpe (segments src size_ shape) Q s.
Proof.
  intros HQ. destruct shape; [|by apply wp_data_segments..].
  apply wp_ret. destruct (Nat.eqb_spec size_ 0) as [H0|H0]; (apply HQ; [apply idle_refl|]); cbn [covers off len].
  - intros i Hi. lia.
  - split_and!; [lia|lia|intros; lia|intros; lia].
Qed.

(** *** The copy *)

Context (sz : Sizes).
Hypothesis sizes_ok : (0 < max_cfr sz ∧ 0 < buf_len sz ∧ 0 < zeros_len sz)%nat.

(** Which positions a shape may write to. *)
Definition shape_ok (grain : option nat) : Prop :=
  match grain with
  | Some g => (0 < g)%nat ∧ ∀ i, near_data g i → P i
  | None => ∀ i, P i
  end.

(** The copy up to the cursor, written and observed. *)
Definition copied (s0 : St) (cursor written : nat) (s : St) : Prop :=
  later s0 s ∧ (cursor <= size_)%nat ∧ progress cursor written (file s) ∧
  observed s = observed s0 ++ take cursor (bytes src).

Lemma wp_copy_segment grain check end_ cursor written s0 Q s :
  shape_ok grain → (∀ w e, check w = Some e → E e) → (cursor <= end_ <= size_)%nat →
  copied s0 cursor written s →
  (∀ w s', copied s0 end_ w s' → Q (end_, w) s') →
  wpe (copy_segment sz src grain check end_ cursor written) Q s.
Proof.
  intros Hshape Hcheck Hend Hcop HQ. unfold copy_segment.
  apply (wp_loop E any_file _ _ (λ '(c, w) s1, copied s0 c w s1 ∧ (c <= end_)%nat)); [|split; [done|lia]].
  intros [c w] s1 ((Hl1 & Hc & Hp1 & Ho1) & Hce). destruct (Nat.ltb_spec c end_) as [Hlt|Hge].
  2: { apply wp_ret. assert (c = end_) as -> by lia. by apply HQ. }
  set (n := Nat.min (end_ - c) (buf_len sz)). assert (0 < n)%nat as Hn by (unfold n; lia).
  apply wp_bind, wp_pread_full. intros s2 (Hl2 & Hf2 & Ho2). fold n.
  assert (c + n <= size_)%nat as Hcn by (unfold n; lia).
  pose proof (chunk_length c n Hcn) as Hlen.
  destruct (take n (drop c (bytes src))) as [|b bs] eqn:Hchunk; [simpl in Hlen; lia|].
  rewrite <- Hchunk in *. apply wp_bind, wp_observe. intros s3 Hl3 Hf3 Ho3.
  assert (progress c w (file s3)) as Hp3 by (rewrite Hf3, Hf2; done).
  assert (observed s3 = observed s0 ++ take (c + n) (bytes src)) as Hobs.
  { rewrite Ho3, Ho2, Ho1, <- app_assoc. f_equal. by rewrite take_take_drop. }
  assert (∀ k s4, later s3 s4 → progress (c + n) (w + k) (file s4) → observed s4 = observed s3 →
    wpe (match check (w + k)%nat with
         | Some e => err e
         | None => ret (inl (c + length (take n (drop c (bytes src))), w + k)%nat)
         end) (λ r s', match r with
       | inl a' => (let '(c, w) := a' in λ s2, copied s0 c w s2 ∧ (c <= end_)%nat) s' ∧
           ((let '(cursor, _) := a' in end_ - cursor) + length (sched s') < (end_ - c) + length (sched s1))%nat
       | inr b => Q b s' end) s4) as Hnext.
  { intros k s4 Hl4 Hp4 Ho4. destruct (check (w + k)%nat) as [e|] eqn:Hch; [by apply wp_err, (Hcheck (w + k)%nat)|].
    apply wp_ret. rewrite Hlen.
    assert (later s1 s4) as Hl14 by (eapply later_trans; [exact Hl2|]; by eapply later_trans).
    pose proof (later_length _ _ Hl14). split; [|unfold n; lia]. split; [|unfold n; lia].
    split_and!; [by eapply later_trans|done|done|congruence]. }
  apply wp_bind. destruct grain as [g|].
  - destruct Hshape as [Hg HP]. eapply wp_write_nonzero_grains; [done|exact Hp3|done|done|].
    intros k s4 Hl4 Hp4 Ho4. by apply Hnext.
  - apply wp_bind. eapply wp_write_chunk; [exact Hp3|done|by auto|].
    intros s4 Hl4 Hp4 Ho4. apply wp_ret. specialize (Hnext n s4 Hl4 Hp4 Ho4).
    rewrite Hlen in *. exact Hnext.
Qed.

(** Zeros are fed for a gap, and the cursor moves over it. *)
Lemma wp_feed_gap c c' w s0 Q s :
  copied s0 c w s → (c <= c' <= size_)%nat → (∀ i, (c <= i < c')%nat → bytes src !! i = Some Byte.x00) →
  (∀ s', copied s0 c' w s' → Q tt s') → wpe (feed_zeros (zeros_len sz) (c' - c)) Q s.
Proof.
  intros (Hl & Hc & Hp & Ho) Hc' Hz HQ. apply wp_feed_zeros; [lia|]. intros s' Hl' Hf' Ho'. apply HQ.
  split_and!; [by eapply later_trans|lia| |].
  - rewrite Hf'. eapply progress_skip; [exact Hp|lia|]. intros i Hi _. by apply Hz.
  - rewrite Ho', Ho, <- app_assoc. f_equal. apply list_eq. intros i. rewrite lookup_app, !lookup_take.
    destruct (decide (i < c)%nat) as [Hi|Hi].
    + destruct (lookup_lt_is_Some_2 (bytes src) i ltac:(lia)) as [b Hb]. rewrite Hb. by rewrite decide_True by lia.
    + rewrite length_take. destruct (decide (i < c')%nat) as [Hi'|Hi'].
      * rewrite Hz by lia. apply lookup_replicate_2. lia.
      * apply lookup_ge_None_2. unfold zeros. rewrite length_replicate. lia.
Qed.

Lemma wp_copy_segments grain check segs c w s0 Q s :
  shape_ok grain → (∀ w e, check w = Some e → E e) → covers c segs → copied s0 c w s →
  (∀ c' w' s', copied s0 c' w' s' → covers c' [] → Q (c', w') s') →
  wpe (copy_segments sz src grain check segs c w) Q s.
Proof.
  intros Hshape Hcheck. revert c w s. induction segs as [|g segs IH]; intros c w s Hcov Hcop HQ.
  - apply wp_ret. by apply HQ.
  - destruct Hcov as (H1 & H2 & H3 & H4). cbn [copy_segments]. apply wp_bind.
    eapply wp_feed_gap; [exact Hcop|lia|done|]. intros s1 Hc1. apply wp_bind.
    eapply wp_copy_segment; [done|done| |exact Hc1|]; [lia|]. intros w2 s2 Hc2. cbn [fst snd]. by apply IH.
Qed.

Lemma progress_start f : bytes f = [] → data_map f = [] → progress 0 0 (truncate_to f size_).
Proof.
  intros Hb Ha. unfold truncate_to, resize. rewrite Hb, Ha, !take_nil. cbn [length app]. rewrite Nat.sub_0_r.
  split; cbn [bytes data_map]; rewrite ?length_replicate; try done.
  - intros i Hi. rewrite decide_False by lia. by apply lookup_replicate_2.
  - intros i Hi. apply lookup_replicate_2. lia.
  - intros i Hi. apply lookup_replicate in Hi as [? _]. done.
  - unfold data_bytes. cbn [data_map]. by rewrite filter_replicate.
Qed.

Lemma wp_copy_observing_guarded shape check Q s :
  shape_ok (grain_of shape) → (∀ w e, check w = Some e → E e) → bytes (file s) = [] → data_map (file s) = [] →
  (∀ w s', copied s size_ w s' → Q w s') →
  wpe (copy_observing_guarded sz src size_ shape check) Q s.
Proof.
  intros Hshape Hcheck Hb Ha HQ. unfold copy_observing_guarded, ftruncate.
  apply wp_bind, wp_bind, wp_call. intros _ s1 (Hl1 & Hf1 & Ho1) _.
  apply wp_modify; [done|]. intros s2 Hl2 Hf2 Ho2.
  apply wp_bind, wp_segments. intros segs s3 (Hl3 & Hf3 & Ho3) Hcov. apply wp_bind.
  eapply (wp_copy_segments _ _ _ _ _ s); [done|done|exact Hcov| |].
  - split_and!; [eapply later_trans; [exact Hl1|]; by eapply later_trans|lia| |].
    + rewrite Hf3, Hf2, Hf1. by apply progress_start.
    + rewrite take_0, app_nil_r. congruence.
  - intros c w s4 Hc4 Hz. cbn [fst snd]. apply wp_bind. pose proof Hc4 as (_ & Hle & _).
    eapply wp_feed_gap; [exact Hc4|lia|intros i Hi; by apply Hz|].
    intros s5 Hc5. apply wp_ret. by apply HQ.
Qed.

(** *** Copying without reading *)

Hypothesis all_ok : ∀ i, P i.

Lemma wp_copy_range_rw o n w Q s :
  progress o w (file s) → (o + n <= size_)%nat →
  (∀ s', later s s' → progress (o + n) (w + n) (file s') → Q n s') →
  wpe (copy_range_rw sz src o n) Q s.
Proof.
  intros Hp Hn HQ. unfold copy_range_rw.
  apply (wp_loop E any_file _ _ (λ d s1, later s s1 ∧ (d <= n)%nat ∧ progress (o + d) (w + d) (file s1))).
  2: { split_and!; [apply later_refl|lia|]. by rewrite !Nat.add_0_r. }
  intros d s1 (Hl1 & Hd & Hp1). destruct (Nat.ltb_spec d n) as [Hlt|Hge].
  2: { apply wp_ret. assert (d = n) as -> by lia. by apply HQ. }
  apply wp_bind. unfold pread. apply wp_bind, wp_call. intros k s2 (Hl2 & Hf2 & _) Hk. apply wp_ret.
  set (m := at_most k (Nat.min (n - d) (buf_len sz))).
  pose proof (at_most_le k (Nat.min (n - d) (buf_len sz))) as Hm.
  pose proof (at_most_pos k (Nat.min (n - d) (buf_len sz)) Hk ltac:(lia)) as Hm0. fold m in Hm, Hm0.
  assert (o + d + m <= size_)%nat as Hodm by lia. pose proof (chunk_length (o + d) m Hodm) as Hlen.
  destruct (take m (drop (o + d) (bytes src))) as [|b bs] eqn:Hchunk; [simpl in Hlen; lia|].
  rewrite <- Hchunk in *. apply wp_bind.
  eapply wp_write_chunk; [rewrite Hf2; exact Hp1|done|by auto|].
  intros s3 Hl3 Hp3 _. apply wp_ret. rewrite Hlen.
  assert (later s1 s3) as Hl13 by (by eapply later_trans). pose proof (later_length _ _ Hl13).
  split; [|lia]. split_and!; [by eapply later_trans|lia|by rewrite !Nat.add_assoc].
Qed.

Lemma wp_copy_range o n w Q s :
  progress o w (file s) → (o + n <= size_)%nat →
  (∀ s', later s s' → progress (o + n) (w + n) (file s') → Q n s') →
  wpe (copy_range sz src o n) Q s.
Proof.
  intros Hp Hn HQ. unfold copy_range, copy_range_with.
  apply (wp_loop E any_file _ _ (λ '(c, r, d) s1, later s s1 ∧ (c + r = o + n ∧ d + r = n)%nat ∧
    progress c (w + d) (file s1))).
  2: { split_and!; [apply later_refl|lia|lia|]. by rewrite !Nat.add_0_r. }
  intros [[c r] d] s1 (Hl1 & [Hc Hd] & Hp1). destruct (Nat.ltb_spec 0 r) as [Hlt|Hge].
  2: { apply wp_ret. assert (d = n) as -> by lia. assert (c = o + n)%nat as -> by lia. by apply HQ. }
  apply wp_bind. unfold cfr_real. apply wp_attempt.
  - intros k s2 (Hl2 & Hf2 & _) Hk. split; [|done]. cbv zeta.
    pose proof (at_most_le k (Nat.min r (max_cfr sz))) as Hm.
    pose proof (at_most_pos k (Nat.min r (max_cfr sz)) Hk ltac:(lia)) as Hm0.
    set (m := Nat.min (at_most k (Nat.min r (max_cfr sz))) (size_ - c)).
    assert (0 < m <= r)%nat as Hmr by lia.
    apply wp_bind, wp_modify; [done|]. intros s3 Hl3 Hf3 _. apply wp_ret.
    destruct m as [|m'] eqn:Em; [lia|]. apply wp_ret.
    assert (later s1 s3) as Hl13 by (by eapply later_trans). pose proof (later_length _ _ Hl13).
    split; [|lia]. split_and!; [by eapply later_trans|lia|lia|].
    rewrite Hf3, Hf2, Nat.add_assoc. apply progress_write; [done|lia|by auto].
  - intros e s2 (Hl2 & Hf2 & _) Hlt2 He. destruct (interrupted (Os e)).
    { apply wp_ret. split; [|lia]. split_and!; [by eapply later_trans|lia|lia|by rewrite Hf2]. }
    destruct (negb (falls_back (Os e))); [by apply wp_err|]. apply wp_bind.
    eapply wp_copy_range_rw; [rewrite Hf2; exact Hp1|lia|]. intros s3 Hl3 Hp3. apply wp_ret.
    replace (d + r)%nat with n by lia. apply HQ.
    + eapply later_trans; [exact Hl1|]. by eapply later_trans.
    + replace (o + n)%nat with (c + r)%nat by lia. by replace (w + n)%nat with (w + d + r)%nat by lia.
Qed.

Lemma wp_copy_ranges segs c w Q s :
  covers c segs → (c <= size_)%nat → progress c w (file s) →
  (∀ w' s', later s s' → progress size_ w' (file s') → Q w' s') →
  wpe (copy_ranges sz src segs w) Q s.
Proof.
  revert c w s. induction segs as [|g segs IH]; intros c w s Hcov Hc Hp HQ.
  - apply wp_ret. apply HQ; [apply later_refl|]. eapply progress_skip; [exact Hp|done|].
    intros i Hi _. by apply Hcov.
  - destruct Hcov as (H1 & H2 & H3 & H4). cbn [copy_ranges]. apply wp_bind.
    eapply wp_copy_range; [eapply progress_skip; [exact Hp|exact H1|intros i Hi _; by apply H3]|done|].
    intros s1 Hl1 Hp1. eapply IH; [exact H4|done|exact Hp1|]. intros w' s' Hl' Hp'.
    apply HQ; [by eapply later_trans|done].
Qed.
End copying.

Lemma progress_done P src w f : progress P src (length (bytes src)) w f → bytes f = bytes src.
Proof.
  intros Hp. apply list_eq. intros i. destruct (decide (i < length (bytes src))%nat) as [Hi|Hi].
  - rewrite (pr_bytes _ _ _ _ _ Hp) by done. by rewrite decide_True.
  - rewrite !lookup_ge_None_2; [done|lia|]. rewrite (pr_len _ _ _ _ _ Hp). lia.
Qed.

(** An error that a system call of the run gave. *)
Definition given (s : St) (e : IoError) : Prop := ∃ n, e = Os n ∧ Errno n ∈ sched s.

Definition sizes_positive (sz : Sizes) : Prop := (0 < max_cfr sz ∧ 0 < buf_len sz ∧ 0 < zeros_len sz)%nat.

(** C36. A copy that reports success is exact.  Into an empty file, from one that has data wherever
    a byte is not zero, whatever the holes of the source, the shape, and how the system calls split,
    interrupt or refuse the work (except that no call says there is no data, which [lseek] may only
    say where there is none): the copy ends, and either with an error that one of the calls gave, or
    with the destination holding the bytes of the source. Then what was observed, and so hashed, is
    the full logical content; the count returned is that of the bytes written; and a squash writes
    only what is less than a grain away from a nonzero byte.  An interrupted call may be the one
    whose error is returned: see [interrupted_fallback_fails]. *)
Theorem copy_preserves_content sz src shape s :
  sizes_positive sz → wf_file src → (∀ g, grain_of shape = Some g → 0 < g)%nat →
  bytes (file s) = [] → data_map (file s) = [] → Errno ENXIO ∉ sched s →
  (∃ r s', copy_observing sz src (length (bytes src)) shape s = Some (r, s') ∧
     match r with
     | Ok written => bytes (file s') = bytes src ∧ observed s' = observed s ++ bytes src ∧
         written = data_bytes (file s') ∧
         ∀ g i, grain_of shape = Some g → data_map (file s') !! i = Some true → near_data src g i
     | Err e => given s e
     end) ∧
  (∃ r s', copy_shaped sz src (length (bytes src)) shape s = Some (r, s') ∧
     match r with
     | Ok written => bytes (file s') = bytes src ∧ written = data_bytes (file s')
     | Err e => given s e
     end).
Proof.
  intros Hsz Hsrc Hg Hb Ha Hno.
  set (P := λ i, ∀ g, grain_of shape = Some g → near_data src g i).
  assert (∀ n, Errno n ∈ sched s → given s (Os n)) as Hknown by (intros n Hn; by exists n).
  assert (¬ given s (Os ENXIO)) as Hnx by (intros (n & [= <-] & Hn); done).
  assert (shape_ok P src (grain_of shape)) as Hshape.
  { destruct (grain_of shape) as [g|] eqn:E; [split; [by apply Hg|]|]; unfold P; rewrite ?E; [|done].
    intros i Hi g' [= <-]. done. }
  assert (∃ r s', copy_observing sz src (length (bytes src)) shape s = Some (r, s') ∧ later s s' ∧ any_file (file s') ∧
     match r with Ok w => copied P src s (length (bytes src)) w s' | Err e => given s e end) as Hobs.
  { apply (wp_copy_observing_guarded (given s) P src Hsrc Hnx sz Hsz shape (λ _, None) _ s Hshape); done. }
  destruct Hobs as (r & s' & Hr & _ & _ & Hspec). split.
  - exists r, s'. split; [done|]. destruct r as [w|e]; [|done].
    destruct Hspec as (_ & _ & Hp & Ho). rewrite take_ge in Ho by done.
    split_and!; [by eapply progress_done|done|apply Hp|]. intros g i Hgr Hi. by apply (pr_keep _ _ _ _ _ Hp i Hi).
  - unfold copy_shaped. destruct (grain_of shape) as [g|] eqn:E.
    { exists r, s'. split; [done|]. destruct r as [w|e]; [|done].
      destruct Hspec as (_ & _ & Hp & _). split; [by eapply progress_done|apply Hp]. }
    assert (wp (given s) any_file (ftruncate (length (bytes src)) ;;! segs <-! segments src (length (bytes src)) shape ;;
      copy_ranges sz src segs 0) (λ w s', progress (λ _, True) src (length (bytes src)) w (file s')) s) as Hw.
    { unfold ftruncate. apply wp_bind, wp_bind, wp_call. intros _ s1 (Hl1 & Hf1 & _) _.
      apply wp_modify; [done|]. intros s2 Hl2 Hf2 _. apply wp_bind, (wp_segments _ src Hsrc Hnx).
      intros segs s3 (Hl3 & Hf3 & _) Hcov.
      eapply (wp_copy_ranges _ (λ _, True) src sz Hsz); [done|exact Hcov|lia| |done].
      rewrite Hf3, Hf2, Hf1. by apply (progress_start _ _ sz Hsz). }
    destruct (Hw Hknown Logic.I) as (r2 & s2 & Hr2 & _ & _ & Hspec2). exists r2, s2. split; [exact Hr2|].
    destruct r2 as [w|e]; [|done]. split; [by eapply progress_done|apply Hspec2].
Qed.

(** ** Punching frees exactly the zero grains *)

(** The [k]-th grain is a whole one and all zeros. *)
Definition zero_grain (f : File) (g k : nat) : bool :=
  (S k * g <=? length (bytes f))%nat && is_zero (slice (bytes f) (k * g) (S k * g)).

Section punching.
Context (E : IoError → Prop) (f0 : File) (g : nat) (sz : Sizes).
Hypothesis g_pos : (0 < g)%nat.
Hypothesis buf_grains : ∃ m, (0 < m)%nat ∧ buf_len sz = (m * g)%nat.

Abbreviation zg := (zero_grain f0 g).
Abbreviation size0 := (length (bytes f0)).

Definition same_bytes (f : File) : Prop := bytes f = bytes f0.
Abbreviation wpp := (wp E same_bytes).

Definition zero_grains (b : nat) : nat := length (List.filter zg (seq 0 b)).

(** Before grain [b], exactly the zero grains are freed. *)
Definition freed_to (b : nat) (f : File) : Prop :=
  length (data_map f) = length (data_map f0) ∧
  ∀ i, (i < length (data_map f0))%nat →
    data_map f !! i = if (i / g <? b)%nat && zg (i / g) then Some false else data_map f0 !! i.

(** Grain [k] is next; the zero grains of the current run are not freed yet. *)
Definition at_grain (k : nat) (run : option nat) (freed : nat) (f : File) : Prop :=
  ∃ b, freed_to b f ∧ freed = (g * zero_grains b)%nat ∧
    match run with
    | None => b = k
    | Some start => start = (b * g)%nat ∧ (b < k)%nat ∧ ∀ j, (b <= j < k)%nat → zg j = true
    end.

Lemma zg_bytes j i : zg j = true → (j * g <= i < S j * g)%nat → bytes f0 !! i = Some Byte.x00.
Proof.
  unfold zero_grain. intros [Hs%Nat.leb_le Hz]%andb_true_iff Hi.
  pose proof (is_zero_lookup _ (i - j * g) Hz) as Hb.
  rewrite slice_length, slice_lookup in Hb by done. rewrite decide_True in Hb by lia.
  rewrite <- Hb by lia. f_equal. lia.
Qed.

Lemma grain_bounds i : (i / g * g <= i < S (i / g) * g)%nat.
Proof. pose proof (Nat.div_mod i g ltac:(lia)). pose proof (Nat.mod_upper_bound i g ltac:(lia)). nia. Qed.

Lemma grain_index i j : (j * g <= i < S j * g)%nat → (i / g = j)%nat.
Proof. intros H. symmetry. apply (Nat.div_unique i g j (i - j * g)); nia. Qed.

Lemma run_bytes b k i : (∀ j, (b <= j < k)%nat → zg j = true) → (b * g <= i < k * g)%nat →
  bytes f0 !! i = Some Byte.x00.
Proof.
  intros Hz Hi. pose proof (grain_bounds i). apply (zg_bytes (i / g)); [apply Hz; nia|done].
Qed.

Lemma run_in_file b k : (b < k)%nat → (∀ j, (b <= j < k)%nat → zg j = true) → (k * g <= size0)%nat.
Proof.
  intros Hb Hz. specialize (Hz (k - 1)%nat ltac:(lia)). unfold zero_grain in Hz.
  apply andb_true_iff in Hz as [Hz%Nat.leb_le _]. nia.
Qed.

Lemma zero_grains_run b k : (b <= k)%nat → (∀ j, (b <= j < k)%nat → zg j = true) →
  zero_grains k = (zero_grains b + (k - b))%nat.
Proof.
  intros Hb Hz. unfold zero_grains. replace k with (b + (k - b))%nat at 1 by lia.
  rewrite seq_app, List.filter_app, length_app. f_equal. cbn [Nat.add].
  rewrite filter_all; [apply length_seq|]. intros j Hj%elem_of_seq. apply Hz. lia.
Qed.

Lemma zero_grains_S k : zero_grains (S k) = (zero_grains k + if zg k then 1 else 0)%nat.
Proof.
  unfold zero_grains. rewrite seq_S, List.filter_app, length_app. cbn [List.filter Nat.add]. by destruct (zg k).
Qed.

Lemma punched_bytes f o n :
  same_bytes f → (o + n <= size0)%nat → (∀ i, (o <= i < o + n)%nat → bytes f0 !! i = Some Byte.x00) →
  same_bytes (punched f o n).
Proof.
  unfold same_bytes. intros Hf Hn Hz. unfold punched. cbn [bytes]. rewrite Hf.
  replace (Nat.min n (size0 - o)) with n by lia. apply list_eq. intros i.
  assert (length (take o (bytes f0)) = o) as Ht by (rewrite length_take; lia).
  destruct (decide (i < o)%nat); [rewrite lookup_app_l, lookup_take_lt by lia; done|].
  rewrite lookup_app_r by lia. rewrite Ht. destruct (decide (i < o + n)%nat).
  - rewrite lookup_app_l by (unfold zeros; rewrite length_replicate; lia). rewrite Hz by lia.
    apply lookup_replicate_2. lia.
  - rewrite lookup_app_r by (unfold zeros; rewrite length_replicate; lia).
    unfold zeros. rewrite length_replicate, lookup_drop. f_equal. lia.
Qed.

Lemma punched_freed f b k :
  wf_file f0 → same_bytes f → freed_to b f → (b < k)%nat → (∀ j, (b <= j < k)%nat → zg j = true) →
  freed_to k (punched f (b * g) (k * g - b * g)).
Proof.
  intros [Hal _] Hf [Hlen Hfl] Hbk Hz. pose proof (run_in_file _ _ Hbk Hz) as Hk.
  assert (b * g < k * g)%nat as Hlt by nia.
  unfold punched, same_bytes in *. rewrite Hf. replace (Nat.min (k * g - b * g) (size0 - b * g))
    with (k * g - b * g)%nat by lia.
  assert (length (take (b * g) (data_map f)) = (b * g)%nat) as Ht by (rewrite length_take; lia).
  split; cbn [data_map].
  - rewrite !length_app, length_replicate, length_drop, Ht. lia.
  - intros i Hi. pose proof (grain_bounds i) as Hg.
    destruct (decide (i < b * g)%nat).
    { rewrite lookup_app_l, lookup_take_lt, Hfl by lia.
      assert (i / g < b)%nat by nia. by rewrite !(proj2 (Nat.ltb_lt _ _)) by lia. }
    rewrite lookup_app_r by lia. rewrite Ht. destruct (decide (i < k * g)%nat).
    + rewrite lookup_app_l by (rewrite length_replicate; lia). rewrite lookup_replicate_2 by lia.
      assert (b <= i / g < k)%nat as Hik by nia. rewrite (proj2 (Nat.ltb_lt _ _)) by lia.
      by rewrite Hz by lia.
    + rewrite lookup_app_r by (rewrite length_replicate; lia).
      rewrite length_replicate, lookup_drop. replace (b * g + (k * g - b * g) + (i - b * g - (k * g - b * g)))%nat
        with i by lia. rewrite Hfl by done.
      assert (k <= i / g)%nat by nia. by rewrite !(proj2 (Nat.ltb_ge _ _)) by lia.
Qed.

Lemma freed_to_S k f : zg k = false → freed_to k f → freed_to (S k) f.
Proof.
  intros Hz [Hl Hf]. split; [done|]. intros i Hi. rewrite Hf by done.
  destruct (Nat.ltb_spec (i / g) k), (Nat.ltb_spec (i / g) (S k)); try lia; try done.
  assert (i / g = k)%nat as -> by lia. by rewrite Hz.
Qed.

Hypothesis f0_ok : wf_file f0.

(** The run before grain [k] is punched. *)
Lemma wp_punch_run k b freed Q s :
  same_bytes (file s) → freed_to b (file s) → (b < k)%nat → (∀ j, (b <= j < k)%nat → zg j = true) →
  freed = (g * zero_grains b)%nat →
  (∀ n s', later s s' → same_bytes (file s') → freed_to k (file s') → observed s' = observed s →
     (freed + n = g * zero_grains k)%nat → Q n s') →
  wpp (punch_if_worthwhile (b * g) (k * g - b * g) g) Q s.
Proof.
  intros Hs Hf Hbk Hz Hfr HQ. unfold punch_if_worthwhile.
  destruct (Nat.ltb_spec (k * g - b * g) g) as [Hlt|_]; [nia|].
  pose proof (run_in_file _ _ Hbk Hz) as Hk.
  assert (∀ f, same_bytes f → same_bytes (punched f (b * g) (k * g - b * g))) as Hsame.
  { intros f Hff. apply punched_bytes; [done|nia|]. intros i Hi. apply (run_bytes b k); [done|nia]. }
  apply wp_bind. unfold punch_hole. apply wp_bind, wp_call. intros _ s1 (Hl1 & Hf1 & Ho1) _.
  apply wp_modify; [apply Hsame|]. intros s2 Hl2 Hf2 Ho2. apply wp_ret.
  apply HQ; [by eapply later_trans| | |congruence|].
  - rewrite Hf2, Hf1. by apply Hsame.
  - rewrite Hf2, Hf1. by apply punched_freed.
  - rewrite (zero_grains_run b k) by (done || lia). nia.
Qed.

(** The grain at the cursor of a chunk. *)
Lemma chunk_grain k0 k n i :
  (k0 * g + i = k * g)%nat → (i < n)%nat → n = Nat.min (size0 - k0 * g) (buf_len sz) →
  let chunk := take n (drop (k0 * g) (bytes f0)) in
  let e := Nat.min (i + g) n in
  is_zero (slice chunk i e) && (e - i =? g)%nat = zg k ∧
  (k0 * g + e = Nat.min (S k * g) size0)%nat.
Proof.
  intros Hk Hi Hn. cbv zeta. destruct buf_grains as (m & Hm & Hbuf). rewrite Hbuf in Hn.
  destruct (decide (i + g <= n)%nat) as [Hfull|Hpart].
  - replace (Nat.min (i + g) n) with (i + g)%nat by lia. split; [|nia].
    replace (i + g - i =? g)%nat with true by (symmetry; apply Nat.eqb_eq; lia). rewrite andb_true_r.
    unfold zero_grain. rewrite (proj2 (Nat.leb_le _ _)) by nia. cbn [andb].
    rewrite take_drop_slice by lia. f_equal. unfold slice. rewrite Hk.
    by replace (S k * g - k * g)%nat with (i + g - i)%nat by nia.
  - assert (n = size0 - k0 * g)%nat as Hend.
    { destruct (decide (size0 - k0 * g <= m * g)%nat); [lia|]. exfalso.
      assert (n = m * g)%nat as Hnm by lia. assert (k - k0 < m)%nat by nia. nia. }
    replace (Nat.min (i + g) n) with n by lia. split; [|nia].
    replace (n - i =? g)%nat with false by (symmetry; apply Nat.eqb_neq; lia). rewrite andb_false_r.
    symmetry. unfold zero_grain. apply andb_false_iff. left. apply Nat.leb_gt. nia.
Qed.

(** One grain: it joins the run, or the run before it is punched. *)
Lemma at_grain_zero k run freed f :
  zg k = true → at_grain k run freed f → at_grain (S k) (Some (default (k * g)%nat run)) freed f.
Proof.
  intros Hz (b & Hf & Hfr & Hrun). exists b. split; [done|]. split; [done|]. destruct run as [start|]; cbn.
  - destruct Hrun as (-> & Hb & Hall). split_and!; [done|lia|]. intros j Hj.
    destruct (decide (j = k)) as [->|]; [done|apply Hall; lia].
  - subst b. split_and!; [done|lia|]. intros j Hj. by replace j with k by lia.
Qed.

Lemma at_grain_skip k freed f :
  zg k = false → freed_to k f → freed = (g * zero_grains k)%nat → at_grain (S k) None freed f.
Proof.
  intros Hz Hf ->. exists (S k). split_and!; [by apply freed_to_S| |done]. by rewrite zero_grains_S, Hz, Nat.add_0_r.
Qed.

Lemma wp_punch_chunk k0 n run freed Q s :
  n = Nat.min (size0 - k0 * g) (buf_len sz) → (0 < n)%nat →
  same_bytes (file s) → at_grain k0 run freed (file s) →
  (∀ k run' freed' s', later s s' → same_bytes (file s') → observed s' = observed s →
     (k0 * g + n = Nat.min (k * g) size0)%nat → at_grain k run' freed' (file s') → Q (run', freed') s') →
  wpp (punch_chunk (take n (drop (k0 * g) (bytes f0))) (k0 * g) g run freed) Q s.
Proof.
  intros Hn Hn0 Hs Hat HQ. unfold punch_chunk.
  assert (length (take n (drop (k0 * g) (bytes f0))) = n) as Hlen by (rewrite length_take, length_drop; lia).
  rewrite Hlen.
  apply (wp_loop E same_bytes _ _ (λ '(i, r, fr) s1, later s s1 ∧ same_bytes (file s1) ∧
    observed s1 = observed s ∧ (i <= n)%nat ∧
    ∃ k, (k0 * g + i = Nat.min (k * g) size0)%nat ∧ at_grain k r fr (file s1))).
  2: { split_and!; [apply later_refl|done|done|lia|]. exists k0. split; [lia|done]. }
  intros [[i r] fr] s1 (Hl1 & Hs1 & Ho1 & Hi & k & Hk & Hat1).
  destruct (Nat.ltb_spec i n) as [Hlt|Hge].
  2: { apply wp_ret. assert (i = n) as -> by lia. by eapply HQ. }
  assert (k0 * g + i = k * g)%nat as Hki by lia.
  pose proof (chunk_grain k0 k n i Hki Hlt Hn) as [Hz He]. cbv zeta in Hz, He |- *.
  set (e := Nat.min (i + g) n) in *. rewrite Hz, Hki. destruct (zg k) eqn:Hzk.
  - apply wp_ret. split; [|lia]. split_and!; [done..|lia|]. exists (S k). split; [done|].
    by apply at_grain_zero.
  - destruct Hat1 as (b & Hf & Hfr & Hrun). destruct r as [start|].
    + destruct Hrun as (-> & Hb & Hall). apply wp_bind. eapply wp_punch_run; [done|exact Hf|done|done|exact Hfr|].
      intros m s2 Hl2 Hs2 Hf2 Ho2 Hm. apply wp_ret. pose proof (later_length _ _ Hl2). split; [|lia].
      split_and!; [by eapply later_trans|done|congruence|lia|]. exists (S k). split; [done|].
      by apply at_grain_skip.
    + subst b. apply wp_ret. split; [|lia]. split_and!; [done..|lia|]. exists (S k). split; [done|].
      by apply at_grain_skip.
Qed.

Lemma wp_punch_zero_runs Q s :
  file s = f0 →
  (∀ k s', later s s' → same_bytes (file s') → (size0 <= k * g)%nat → freed_to k (file s') →
     observed s' = observed s ++ bytes f0 → Q (g * zero_grains k)%nat s') →
  wpp (punch_zero_runs sz size0 g) Q s.
Proof.
  intros Hs HQ. unfold punch_zero_runs. apply wp_bind.
  apply (wp_loop E same_bytes _ _ (λ '(c, r, fr) s1, later s s1 ∧ same_bytes (file s1) ∧
    observed s1 = observed s ++ take c (bytes f0) ∧
    ∃ k, c = Nat.min (k * g) size0 ∧ at_grain k r fr (file s1))).
  2: { rewrite take_0, app_nil_r. split_and!; [apply later_refl|by rewrite Hs|done|].
       exists O. split; [lia|]. exists O. rewrite Hs. split_and!; [|unfold zero_grains; simpl; lia|done].
       split; [done|]. intros i Hi. by rewrite (proj2 (Nat.ltb_ge _ _)) by lia. }
  intros [[c r] fr] s1 (Hl1 & Hs1 & Ho1 & k & Hc & Hat1).
  destruct (Nat.ltb_spec c size0) as [Hlt|Hge].
  - assert (c = k * g)%nat as -> by lia. set (n := Nat.min (size0 - k * g) (buf_len sz)).
    destruct buf_grains as (m & Hm & Hbuf). assert (0 < n)%nat as Hn by (unfold n; nia).
    apply wp_bind, wp_the_file. unfold same_bytes in Hs1.
    apply wp_bind, wp_pread_full. intros s2 (Hl2 & Hf2 & Ho2). rewrite Hs1. fold n.
    assert (length (take n (drop (k * g) (bytes f0))) = n) as Hlen
      by (rewrite length_take, length_drop; unfold n; lia).
    destruct (take n (drop (k * g) (bytes f0))) as [|b bs] eqn:Hchunk; [simpl in Hlen; lia|].
    rewrite <- Hchunk in *. apply wp_bind, wp_observe. intros s3 Hl3 Hf3 Ho3. apply wp_bind.
    eapply wp_punch_chunk; [done|done|by rewrite Hf3, Hf2|rewrite Hf3, Hf2; exact Hat1|].
    intros k' r' fr' s4 Hl4 Hs4 Ho4 Hk' Hat4. apply wp_ret. rewrite Hlen. cbn [fst snd].
    assert (later s1 s4) as Hl14 by (eapply later_trans; [exact Hl2|]; by eapply later_trans).
    pose proof (later_length _ _ Hl14). split; [|unfold n in *; lia].
    split_and!; [by eapply later_trans|done| |by exists k'].
    rewrite Ho4, Ho3, Ho2, Ho1, <- app_assoc, take_take_drop. done.
  - apply wp_ret. assert (c = size0) as -> by lia. rewrite take_ge in Ho1 by done.
    destruct Hat1 as (b & Hf & Hfr & Hrun). destruct r as [start|].
    + destruct Hrun as (-> & Hb & Hall). pose proof (run_in_file _ _ Hb Hall).
      assert (size0 = k * g)%nat as Hsz by lia. rewrite Hsz at 1. apply wp_bind.
      eapply wp_punch_run; [done|exact Hf|done|done|exact Hfr|].
      intros m s2 Hl2 Hs2 Hf2 Ho2 Hm. apply wp_ret. rewrite Hm.
      apply HQ; [by eapply later_trans|done|lia|done|congruence].
    + subst b. apply wp_ret. rewrite Hfr. apply HQ; [done|done|lia|done|done].
Qed.
End punching.

(** Punching never changes a file: whatever the calls do, the bytes stay as they were, even
    when the work stops half-way with an error. When it ends, everything was observed, every
    whole grain of zeros is freed and nothing else is, and the count is that of the grains. *)
Theorem punch_preserves_content sz f g s :
  (0 < g)%nat → (∃ m, (0 < m)%nat ∧ buf_len sz = (m * g)%nat) → wf_file f → file s = f →
  ∃ r s', punch_zero_runs sz (length (bytes f)) g s = Some (r, s') ∧ bytes (file s') = bytes f ∧
    match r with
    | Ok freed =>
      observed s' = observed s ++ bytes f ∧
      (∀ i, (i < length (bytes f))%nat →
         data_map (file s') !! i = if zero_grain f g (i / g) then Some false else data_map f !! i) ∧
      ∃ k, (length (bytes f) <= k * g)%nat ∧ freed = (g * length (List.filter (zero_grain f g) (seq 0 k)))%nat
    | Err e => given s e
    end.
Proof.
  intros Hg Hbuf Hf Hs.
  assert (∀ n, Errno n ∈ sched s → given s (Os n)) as Hknown by (intros n Hn; by exists n).
  destruct (wp_punch_zero_runs (given s) f g sz Hg Hbuf Hf (λ freed s', observed s' = observed s ++ bytes f ∧
      (∀ i, (i < length (bytes f))%nat →
         data_map (file s') !! i = if zero_grain f g (i / g) then Some false else data_map f !! i) ∧
      ∃ k, (length (bytes f) <= k * g)%nat ∧ freed = (g * length (List.filter (zero_grain f g) (seq 0 k)))%nat) s Hs)
    as (r & s' & Hr & _ & Hb & Hspec); [|exact Hknown|by rewrite Hs|by exists r, s'].
  intros k s' _ _ Hk [Hl Hfr] Ho. split; [done|]. split; [|by exists k].
  intros i Hi. destruct Hf as [Hal _]. rewrite Hfr by lia.
  pose proof (grain_bounds g Hg i). by rewrite (proj2 (Nat.ltb_lt _ _)) by nia.
Qed.

(** ** Instances *)

Definition lit : byte := Byte.x61.
Definition nul : byte := Byte.x00.
Definition holey : File :=
  {| bytes := [lit; lit; nul; nul; nul; nul; lit; nul; nul; nul; nul; nul; nul; lit];
     data_map := [true; true; true; true; true; true; true; true; false; false; false; false; true; true] |}.
Definition small : Sizes := {| max_cfr := 5; buf_len := 8; zeros_len := 3 |}.
Definition flaky : St :=
  {| sched := [Count 0; Count 9; Count 9; Count 9; Count 9; Count 9; Count 2; Errno EINTR; Count 1];
     file := {| bytes := []; data_map := [] |}; observed := [] |}.

Lemma holey_ok : wf_file holey.
Proof. split; [done|]. intros i. do 14 (destruct i as [|i]; [vm_compute; congruence|]). done. Qed.

Lemma copy_preserves_content_witness :
  ∃ s', copy_observing small holey 14 (ZeroSquash 2) flaky = Some (Ok 6%nat, s') ∧
    bytes (file s') = bytes holey ∧ observed s' = bytes holey ∧ data_bytes (file s') = 6%nat.
Proof.
  destruct (copy_preserves_content small holey (ZeroSquash 2) flaky) as [(r & s' & Hr & Hspec) _];
    [repeat split; simpl; lia|exact holey_ok|by intros g [= <-]; lia|done|done| |].
  - cbn [flaky sched]. intros H. repeat (apply elem_of_cons in H as [[=]|H]). by apply not_elem_of_nil in H.
  - exists s'. vm_compute in Hr. injection Hr as <- <-. destruct Hspec as (Hb & Ho & Hw & _).
    split; [vm_compute; reflexivity|]. by split_and!.
Defined.

(** The fallback of [copy_range] does not try its reads again: a signal in one of them fails the
    copy with the bytes of the first call only, where the same signal in any other read or write of a
    copy is passed over. *)
Definition interrupted_fallback : St :=
  {| sched := [Count 0; Count 0; Errno EXDEV; Errno EINTR]; file := {| bytes := []; data_map := [] |}; observed := [] |}.
Example interrupted_fallback_fails :
  ∃ s', copy_shaped small holey 14 Dense interrupted_fallback = Some (Err (Os EINTR), s') ∧ bytes (file s') = lit :: zeros 13.
Proof. eexists. split; vm_compute; reflexivity. Qed.
Example interrupted_reads_are_retried :
  ∃ s', copy_observing small holey 14 Dense {| sched := [Count 0; Errno EINTR; Errno EINTR]; file := file interrupted_fallback; observed := [] |} =
    Some (Ok 14%nat, s') ∧ bytes (file s') = bytes holey.
Proof. eexists. split; vm_compute; reflexivity. Qed.

Lemma punch_preserves_content_witness :
  ∃ s', punch_zero_runs small 14 2 {| sched := [Count 3; Errno EINTR]; file := holey; observed := [] |} =
      Some (Ok 8%nat, s') ∧ bytes (file s') = bytes holey.
Proof.
  destruct (punch_preserves_content small holey 2 {| sched := [Count 3; Errno EINTR]; file := holey; observed := [] |})
    as (r & s' & Hr & Hb & _); [lia|exists 4%nat; simpl; lia|exact holey_ok|done|].
  exists s'. vm_compute in Hr. injection Hr as <- <-. split; [vm_compute; reflexivity|exact Hb].
Defined.
