(* ===== verification/CiExpr.v ===== *)
(** * Expressions: [ci/src/expr.rs]

    The [${{ }}] language of a workflow: its tokens, the recursive-descent parser that
    evaluates while it parses, the values and functions it works on, and the substitution
    of expressions in a text. *)
From Stdlib Require Import Ascii String ZArith Lia Bool Floats.SpecFloat.
From stdpp Require Import base option list strings gmap fin_maps pretty.
From S2P Require Import Prelude CiPaths.
Open Scope string_scope.
Open Scope list_scope.

(** ** Numbers: [f64] *)

Module F64.
Local Open Scope Z_scope.

Definition prec : Z := 53.
Definition emax : Z := 1024.

(** [z as f64]. *)
Definition of_Z (z : Z) : spec_float := binary_normalize prec emax z 0 false.

(** [m * 10^k], correctly rounded. *)
Definition scaled (neg : bool) (m k : Z) : spec_float :=
  match m with
  | Zpos p =>
    if 0 <=? k
    then binary_normalize prec emax (if neg then - (m * 10 ^ k) else m * 10 ^ k) 0 neg
    else match 10 ^ (- k) with
         | Zpos d =>
           let '(q, e, l) := SFdiv_core_binary prec emax (Zpos p) 0 (Zpos d) 0 in
           binary_round_aux prec emax neg q e l
         | _ => S754_nan
         end
  | _ => S754_zero neg
  end.

Fixpoint span (f : ascii → bool) (s : string) : string * string :=
  match s with
  | String c s' => if f c then let '(a, b) := span f s' in (String c a, b) else ("", s)
  | "" => ("", "")
  end.

Definition digits_value (s : string) : Z := default 0 (ParseInt.digits 0 s).

Definition sign (s : string) : bool * string :=
  match s with
  | String "-" s' => (true, s')
  | String "+" s' => (false, s')
  | _ => (false, s)
  end.

(** An exponent, or nothing, up to the end of the text. *)
Definition exponent (s : string) : option Z :=
  match s with
  | "" => Some 0
  | String c s' =>
    if Ascii.eqb c "e" || Ascii.eqb c "E" then
      let '(neg, t) := sign s' in
      let '(ds, rest) := span Str.is_ascii_digit t in
      if String.eqb ds "" || negb (String.eqb rest "") then None
      else Some (if neg then - digits_value ds else digits_value ds)
    else None
  end.

(** [s.parse::<f64>().ok()]. *)
Definition parse (s : string) : option spec_float :=
  let '(neg, t) := sign s in
  let word := Str.to_ascii_lowercase t in
  if String.eqb word "inf" || String.eqb word "infinity" then Some (S754_infinity neg)
  else if String.eqb word "nan" then Some S754_nan
  else
    let '(int, r) := span Str.is_ascii_digit t in
    let '(frac, r) := match r with
                      | String "." r' => span Str.is_ascii_digit r'
                      | _ => ("", r)
                      end in
    if String.eqb int "" && String.eqb frac "" then None
    else
      e ← exponent r;
      Some (scaled neg (digits_value (int +:+ frac)) (e - Z.of_nat (String.length frac))).

(** The integer a float is, when it is one below 2^53 in magnitude. *)
Definition to_int (f : spec_float) : option Z :=
  match f with
  | S754_zero _ => Some 0
  | S754_finite s m e =>
    let v := if 0 <=? e then Some (Zpos m * 2 ^ e)
             else if Zpos m mod 2 ^ (- e) =? 0 then Some (Zpos m / 2 ^ (- e)) else None in
    a ← v;
    if a <? 9007199254740992 then Some (if s then - a else a) else None
  | _ => None
  end.

Definition is_finite (f : spec_float) : bool :=
  match f with S754_zero _ | S754_finite _ _ _ => true | _ => false end.
End F64.

(** ** JSON values *)

(** [serde_json::Number]. *)
Inductive Number : Type :=
| NInt (z : Z)
| NFloat (f : spec_float).

Inductive Value : Type :=
| VNull
| VBool (b : bool)
| VNumber (n : Number)
| VString (s : string)
| VArray (items : list Value)
| VObject (fields : list (string * Value)).   (** a [BTreeMap], in key order *)

Definition as_f64 (n : Number) : spec_float :=
  match n with NInt z => F64.of_Z z | NFloat f => f end.

Fixpoint assoc {A} (k : string) (l : list (string * A)) : option A :=
  match l with
  | [] => None
  | (k', v) :: l' => if String.eqb k k' then Some v else assoc k l'
  end.

(** [number]: an integral float is shown without its point. *)
Definition number (f : spec_float) : Value :=
  match F64.to_int f with
  | Some z => VNumber (NInt z)
  | None => if F64.is_finite f then VNumber (NFloat f) else VNull
  end.

Definition show_Z (z : Z) : string :=
  if (z <? 0)%Z then "-" +:+ pretty (Z.to_N (- z)) else pretty (Z.to_N z).

(** One step of [walk]. *)
Definition walk_one (cur : Value) (seg : string) : Value :=
  match cur with
  | VObject m => default VNull (assoc seg m)
  | VArray items =>
    default VNull (i ← ParseInt.unsigned U64.max seg; items !! Z.to_nat i)
  | _ => VNull
  end.
Definition walk (cur : Value) (segments : list string) : Value := foldl walk_one cur segments.

(** ** Tokens *)

Inductive Tok : Type :=
| TIdent (s : string) | TStr (s : string) | TNum (f : spec_float)
| TDot | TLParen | TRParen | TComma
| TEqEq | TNotEq | TGt | TGe | TLt | TLe
| TAnd | TOr | TNot.

Inductive ExprError : Type :=
| UnexpectedChar (c : ascii)
| UnterminatedString
| BadNumber (text : string)
| UnclosedParen
| TrailingDot (path : string)
| Unexpected (t : option Tok)
| Trailing (t : Tok)
| UnknownFunction (name : string).

Definition is_ascii_whitespace (c : ascii) : bool :=
  existsb (Ascii.eqb c) [" "; "009"; "010"; "012"; "013"]%char.

(** [lit.push(b as char)]: a byte read as a Latin-1 character. *)
Definition push_byte (c : ascii) : string :=
  let n := N_of_ascii c in
  if (n <? 128)%N then String c ""
  else String (ascii_of_N (192 + n / 64)) (String (ascii_of_N (128 + n mod 64)) "").

(** The literal after its opening quote, and what follows the closing one. *)
Fixpoint literal (quote : ascii) (s : string) : option (string * string) :=
  match s with
  | "" => None
  | String c s' =>
    if Ascii.eqb c quote then
      match s' with
      | String d s'' =>
        if Ascii.eqb quote "'" && Ascii.eqb d "'"
        then '(lit, r) ← literal quote s''; Some (String "'" lit, r)
        else Some ("", s')
      | "" => Some ("", s')
      end
    else '(lit, r) ← literal quote s'; Some (push_byte c +:+ lit, r)
  end.

(** Digits, and a dot that a digit follows. *)
Fixpoint number_text (s : string) : string * string :=
  match s with
  | String c s' =>
    if Str.is_ascii_digit c then let '(a, b) := number_text s' in (String c a, b)
    else if Ascii.eqb c "." then
      match s' with
      | String d _ =>
        if Str.is_ascii_digit d then let '(a, b) := number_text s' in (String c a, b) else ("", s)
      | "" => ("", s)
      end
    else ("", s)
  | "" => ("", "")
  end.

Definition ident_char (c : ascii) : bool :=
  Str.is_ascii_alphanumeric c || Ascii.eqb c "_" || Ascii.eqb c "-" || Ascii.eqb c "*".

(** The token a text starts with, and the rest; [None] skips a blank. *)
Definition next_token (c : ascii) (s' : string) : result ExprError (option Tok * string) :=
  let next (d : ascii) := match s' with String e _ => Ascii.eqb e d | "" => false end in
  let two (t : Tok) := Ok (Some t, Str.drop 1 s') in
  let one (t : Tok) := Ok (Some t, s') in
  if is_ascii_whitespace c then Ok (None, s')
  else if Ascii.eqb c "." then one TDot
  else if Ascii.eqb c "(" then one TLParen
  else if Ascii.eqb c ")" then one TRParen
  else if Ascii.eqb c "," then one TComma
  else if Ascii.eqb c "=" && next "="%char then two TEqEq
  else if Ascii.eqb c "!" && next "="%char then two TNotEq
  else if Ascii.eqb c "!" then one TNot
  else if Ascii.eqb c ">" && next "="%char then two TGe
  else if Ascii.eqb c ">" then one TGt
  else if Ascii.eqb c "<" && next "="%char then two TLe
  else if Ascii.eqb c "<" then one TLt
  else if Ascii.eqb c "&" && next "&"%char then two TAnd
  else if Ascii.eqb c "|" && next "|"%char then two TOr
  else if Ascii.eqb c "'" || Ascii.eqb c "034" then
    match literal c s' with
    | Some (lit, r) => Ok (Some (TStr lit), r)
    | None => Err UnterminatedString
    end
  else if Str.is_ascii_digit c then
    let '(text, r) := number_text (String c s') in
    match F64.parse text with
    | Some f => Ok (Some (TNum f), r)
    | None => Err (BadNumber text)
    end
  else if ident_char c then
    let '(name, r) := F64.span ident_char (String c s') in Ok (Some (TIdent name), r)
  else Err (UnexpectedChar c).

(** The loop of [tokenize]; every round takes at least one byte. *)
Fixpoint tokenize_loop (fuel : nat) (s : string) : option (result ExprError (list Tok)) :=
  match fuel with
  | O => None
  | S fuel =>
    match s with
    | "" => Some (Ok [])
    | String c s' =>
      match next_token c s' with
      | Err e => Some (Err e)
      | Ok (t, r) =>
        match tokenize_loop fuel r with
        | Some (Ok ts) => Some (Ok (match t with Some t => t :: ts | None => ts end))
        | o => o
        end
      end
    end
  end.

Definition tokenize (s : string) : option (result ExprError (list Tok)) :=
  tokenize_loop (S (String.length s)) s.

(** ** Values as text, truth and comparison *)

Section with_serde.
(** [serde_json]: parsing a text, printing a value, and printing a float. *)
Context (json_parse : string → option Value) (json_show : Value → string)
  (show_f64 : spec_float → string).

Definition to_display (v : Value) : string :=
  match v with
  | VNull => ""
  | VString s => s
  | VBool b => if b then "true" else "false"
  | VNumber (NInt z) => show_Z z
  | VNumber (NFloat f) => show_f64 f
  | other => json_show other
  end.

Definition truthy (v : Value) : bool :=
  match v with
  | VNull => false
  | VBool b => b
  | VNumber n => negb (SFeqb (as_f64 n) (S754_zero false))
  | VString s => negb (String.eqb s "") && negb (String.eqb s "false") && negb (String.eqb s "0")
  | VArray a => match a with [] => false | _ => true end
  | VObject o => match o with [] => false | _ => true end
  end.

Definition loose_eq (a b : Value) : bool :=
  match a, b with
  | VNull, VNull => true
  | VBool x, VBool y => Bool.eqb x y
  | VNumber x, VNumber y => SFeqb (as_f64 x) (as_f64 y)
  | VString x, VString y => String.eqb x y
  | VNull, _ | _, VNull => false
  | _, _ => String.eqb (to_display a) (to_display b)
  end.

Definition as_number (v : Value) : option spec_float :=
  match v with
  | VNumber n => Some (as_f64 n)
  | VString s => F64.parse (Chars.trim s)
  | VBool b => Some (F64.of_Z (if b then 1 else 0))
  | _ => None
  end.

Inductive CmpOp : Type := OpEq | OpNe | OpGt | OpGe | OpLt | OpLe.

Definition compare_values (op : CmpOp) (left right : Value) : bool :=
  match op with
  | OpEq => loose_eq left right
  | OpNe => negb (loose_eq left right)
  | _ =>
    match as_number left, as_number right with
    | Some a, Some b =>
      match op with
      | OpGt => SFltb b a
      | OpGe => SFleb b a
      | OpLt => SFltb a b
      | _ => SFleb a b
      end
    | _, _ => false
    end
  end.

(** ** The context *)

Abbreviation Context := (gmap string Value).

Definition bt_fields (m : Context) : list (string * Value) :=
  sort_by (λ a b, String.compare (fst a) (fst b)) (map_to_list m).

Definition into_value (c : Context) : Value := VObject (bt_fields c).
Definition from_value (v : Value) : Context :=
  match v with VObject m => list_to_map (rev m) | _ => ∅ end.
Definition set (c : Context) (scope : string) (v : Value) : Context := <[scope := v]> c.
Definition set_status (c : Context) (status : string) : Context :=
  set c "__status" (VString status).
Definition status (c : Context) : string :=
  match c !! "__status" with Some (VString s) => s | _ => "success" end.
Definition lookup_path (c : Context) (path : list string) : Value :=
  match path with
  | [] => VNull
  | first :: rest => match c !! first with Some v => walk v rest | None => VNull end
  end.

(** ** Functions *)

(** [s.replace(p, r)] for a nonempty [p]; [skip] counts the bytes of a match still to pass. *)
Fixpoint replace_from (p r : string) (skip : nat) (s : string) : string :=
  match s with
  | "" => ""
  | String c s' =>
    match skip with
    | S k => replace_from p r k s'
    | O =>
      if Str.starts_with p s then r +:+ replace_from p r (String.length p - 1) s'
      else String c (replace_from p r 0 s')
    end
  end.
Definition replace (p r s : string) : string := replace_from p r 0 s.

Fixpoint join (sep : string) (l : list string) : string :=
  match l with
  | [] => ""
  | [s] => s
  | s :: l' => s +:+ sep +:+ join sep l'
  end.

Definition placeholder (i : nat) : string := "{" +:+ pretty (N.of_nat i) +:+ "}".

Fixpoint format_args (out : string) (i : nat) (args : list Value) : string :=
  match args with
  | [] => out
  | a :: rest => format_args (replace (placeholder i) (to_display a) out) (S i) rest
  end.

Definition call (c : Context) (name : string) (args : list Value) : result ExprError Value :=
  let s i := match args !! i with Some v => to_display v | None => "" end in
  if String.eqb name "contains" then
    Ok (VBool match args with
              | VArray items :: _ => existsb (λ i, loose_eq i (default VNull (args !! 1%nat))) items
              | _ => Str.contains (s 1%nat) (s 0%nat)
              end)
  else if String.eqb name "startsWith" then Ok (VBool (Str.starts_with (s 1%nat) (s 0%nat)))
  else if String.eqb name "endsWith" then Ok (VBool (Str.ends_with (s 1%nat) (s 0%nat)))
  else if String.eqb name "format" then Ok (VString (format_args (s 0%nat) 0 (drop 1 args)))
  else if String.eqb name "join" then
    let sep := if (1 <? length args)%nat then s 1%nat else "," in
    Ok (VString match args with
                | VArray items :: _ => join sep (to_display <$> items)
                | _ => s 0%nat
                end)
  else if String.eqb name "toJSON" then Ok (VString (json_show (default VNull (args !! 0%nat))))
  else if String.eqb name "fromJSON" then Ok (default VNull (json_parse (s 0%nat)))
  else if String.eqb name "changed" then
    if negb (truthy (lookup_path c ["ci"; "changes_known"])) then Ok (VBool true)
    else match lookup_path c ["ci"; "changed_files"] with
         | VArray files =>
           Ok (VBool (existsb (λ pat, existsb (λ f, CiPaths.matches (to_display pat) (to_display f)) files)
                        args))
         | _ => Ok (VBool true)
         end
  else if String.eqb name "success" then Ok (VBool (String.eqb (status c) "success"))
  else if String.eqb name "failure" then Ok (VBool (String.eqb (status c) "failure"))
  else if String.eqb name "cancelled" then Ok (VBool (String.eqb (status c) "cancelled"))
  else if String.eqb name "always" then Ok (VBool true)
  else Err (UnknownFunction name).

(** A bare word. *)
Definition word (c : Context) (name : string) : Value :=
  if String.eqb name "true" then VBool true
  else if String.eqb name "false" then VBool false
  else if String.eqb name "null" then VNull
  else lookup_path c [name].

(** ** The parser *)

(** A parse of a value from the tokens left; [None] is running out of fuel. *)
Abbreviation Parse A := (option (result ExprError (A * list Tok))).

Definition then_ {A B} (m : Parse A) (k : A → list Tok → Parse B) : Parse B :=
  match m with
  | Some (Ok (a, ts)) => k a ts
  | Some (Err e) => Some (Err e)
  | None => None
  end.

Definition rmap {A} (r : result ExprError A) (ts : list Tok) : result ExprError (A * list Tok) :=
  match r with Ok a => Ok (a, ts) | Err e => Err e end.

Definition cmp_op (t : Tok) : option CmpOp :=
  match t with
  | TEqEq => Some OpEq | TNotEq => Some OpNe | TGt => Some OpGt | TGe => Some OpGe
  | TLt => Some OpLt | TLe => Some OpLe | _ => None
  end.

(** The postfix loop of [parse_primary]; [done_] are the segments so far. *)
Fixpoint segments (done_ : list string) (ts : list Tok) : result ExprError (list string * list Tok) :=
  match ts with
  | TDot :: TIdent s :: ts' => segments (done_ ++ [s]) ts'
  | TDot :: TNum f :: ts' => segments (done_ ++ [to_display (number f)]) ts'
  | TDot :: _ => Err (TrailingDot (join "." done_))
  | _ => Ok (done_, ts)
  end.

Section parser.
Context (c : Context).

Fixpoint parse_or (n : nat) (ts : list Tok) : Parse Value :=
  match n with
  | O => None
  | S n => then_ (parse_and n ts) (or_loop n)
  end
with or_loop (n : nat) (left : Value) (ts : list Tok) : Parse Value :=
  match n with
  | O => None
  | S n =>
    match ts with
    | TOr :: ts' =>
      then_ (parse_and n ts') (λ right, or_loop n (if truthy left then left else right))
    | _ => Some (Ok (left, ts))
    end
  end
with parse_and (n : nat) (ts : list Tok) : Parse Value :=
  match n with
  | O => None
  | S n => then_ (parse_not n ts) (and_loop n)
  end
with and_loop (n : nat) (left : Value) (ts : list Tok) : Parse Value :=
  match n with
  | O => None
  | S n =>
    match ts with
    | TAnd :: ts' =>
      then_ (parse_not n ts') (λ right, and_loop n (if truthy left then right else left))
    | _ => Some (Ok (left, ts))
    end
  end
with parse_not (n : nat) (ts : list Tok) : Parse Value :=
  match n with
  | O => None
  | S n =>
    match ts with
    | TNot :: ts' => then_ (parse_not n ts') (λ v ts, Some (Ok (VBool (negb (truthy v)), ts)))
    | _ => parse_cmp n ts
    end
  end
with parse_cmp (n : nat) (ts : list Tok) : Parse Value :=
  match n with
  | O => None
  | S n =>
    then_ (parse_primary n ts) (λ left ts,
      match ts with
      | t :: ts' =>
        match cmp_op t with
        | Some op =>
          then_ (parse_primary n ts') (λ right ts,
            Some (Ok (VBool (compare_values op left right), ts)))
        | None => Some (Ok (left, ts))
        end
      | [] => Some (Ok (left, ts))
      end)
  end
with parse_primary (n : nat) (ts : list Tok) : Parse Value :=
  match n with
  | O => None
  | S n =>
    then_ (parse_atom n ts) (λ base ts,
      match segments [] ts with
      | Ok (segs, ts) => Some (Ok (walk base segs, ts))
      | Err e => Some (Err e)
      end)
  end
with parse_atom (n : nat) (ts : list Tok) : Parse Value :=
  match n with
  | O => None
  | S n =>
    match ts with
    | TLParen :: ts' =>
      then_ (parse_or n ts') (λ v ts,
        match ts with TRParen :: ts => Some (Ok (v, ts)) | _ => Some (Err UnclosedParen) end)
    | TStr s :: ts' => Some (Ok (VString s, ts'))
    | TNum f :: ts' => Some (Ok (number f, ts'))
    | TIdent name :: ts' =>
      match ts' with
      | TLParen :: TRParen :: ts => Some (rmap (call c name []) ts)
      | TLParen :: ts => then_ (parse_args n [] ts) (λ args ts, Some (rmap (call c name args) ts))
      | _ => Some (Ok (word c name, ts'))
      end
    | t => Some (Err (Unexpected (head t)))
    end
  end
(** The arguments after the opening parenthesis, up to the closing one. *)
with parse_args (n : nat) (args : list Value) (ts : list Tok) : Parse (list Value) :=
  match n with
  | O => None
  | S n =>
    then_ (parse_or n ts) (λ v ts,
      match ts with
      | TComma :: ts => parse_args n (args ++ [v]) ts
      | TRParen :: ts => Some (Ok (args ++ [v], ts))
      | _ => Some (Err UnclosedParen)
      end)
  end.

(** Fuel that is always enough: eight calls per token, and eight. *)
Definition enough (ts : list Tok) : nat := 8 * length ts + 8.

(** [eval]; [None] never happens. *)
Definition eval_loop (expr : string) : option (result ExprError Value) :=
  match tokenize expr with
  | Some (Ok ts) =>
    match parse_or (enough ts) ts with
    | Some (Ok (v, [])) => Some (Ok v)
    | Some (Ok (_, t :: _)) => Some (Err (Trailing t))
    | Some (Err e) => Some (Err e)
    | None => None
    end
  | Some (Err e) => Some (Err e)
  | None => None
  end.
Definition eval (expr : string) : result ExprError Value :=
  default (Err UnclosedParen) (eval_loop expr).

Definition eval_condition (expr : string) : result ExprError bool :=
  let expr := Chars.trim expr in
  if String.eqb expr "" then Ok true
  else
    let expr := match Str.strip_prefix "${{" expr with
                | Some rest => default rest (Str.strip_suffix "}}" rest)
                | None => expr
                end in
    v <-? eval expr ;; Ok (truthy v).

(** ** Substitution *)

(** The offset of the closing braces, outside string literals. *)
Fixpoint find_close (quote : option ascii) (s : string) : option nat :=
  match s with
  | "" => None
  | String b s' =>
    match quote with
    | Some q =>
      if Ascii.eqb b q then
        match s' with
        | String d s'' =>
          if Ascii.eqb q "'" && Ascii.eqb d "'" then (λ n, S (S n)) <$> find_close quote s''
          else S <$> find_close None s'
        | "" => None
        end
      else S <$> find_close quote s'
    | None =>
      if Ascii.eqb b "'" || Ascii.eqb b "034" then S <$> find_close (Some b) s'
      else if Ascii.eqb b "}" && Str.starts_with "}" s' then Some O
      else S <$> find_close None s'
    end
  end.

(** The loop of [substitute]: what is left of the text; every round takes the opening. *)
Fixpoint substitute_loop (fuel : nat) (rest : string) : option string :=
  match fuel with
  | O => None
  | S fuel =>
    match Chars.split_once "${{" rest with
    | None => Some rest
    | Some (before, body) =>
      match find_close None body with
      | None => Some rest
      | Some e =>
        out ← substitute_loop fuel (Str.drop (e + 2) body);
        let shown := match eval (Str.take e body) with
                     | Ok v => to_display v
                     | Err _ => "${{" +:+ Str.take (e + 2) body
                     end in
        Some (before +:+ shown +:+ out)
      end
    end
  end.
Definition substitute (input : string) : string :=
  default input (substitute_loop (S (String.length input)) input).
End parser.
End with_serde.

(** ** The parser always ends *)

Section results.
Context (json_parse : string → option Value) (json_show : Value → string)
  (show_f64 : spec_float → string) (c : gmap string Value).

Notation por := (parse_or json_parse json_show show_f64 c).
Notation oloop := (or_loop json_parse json_show show_f64 c).
Notation pand := (parse_and json_parse json_show show_f64 c).
Notation aloop := (and_loop json_parse json_show show_f64 c).
Notation pnot := (parse_not json_parse json_show show_f64 c).
Notation pcmp := (parse_cmp json_parse json_show show_f64 c).
Notation pprim := (parse_primary json_parse json_show show_f64 c).
Notation patom := (parse_atom json_parse json_show show_f64 c).
Notation pargs := (parse_args json_parse json_show show_f64 c).
Notation segs_ := (segments json_show show_f64).
Notation fcall := (call json_parse json_show show_f64 c).

(** *** One step of each function *)

Lemma por_S n ts : por (S n) ts = then_ (pand n ts) (oloop n).
Proof. done. Qed.
Lemma oloop_S n l ts : oloop (S n) l ts = match ts with
  | TOr :: ts' => then_ (pand n ts') (λ right, oloop n (if truthy l then l else right))
  | _ => Some (Ok (l, ts)) end.
Proof. done. Qed.
Lemma pand_S n ts : pand (S n) ts = then_ (pnot n ts) (aloop n).
Proof. done. Qed.
Lemma aloop_S n l ts : aloop (S n) l ts = match ts with
  | TAnd :: ts' => then_ (pnot n ts') (λ right, aloop n (if truthy l then right else l))
  | _ => Some (Ok (l, ts)) end.
Proof. done. Qed.
Lemma pnot_S n ts : pnot (S n) ts = match ts with
  | TNot :: ts' => then_ (pnot n ts') (λ v ts, Some (Ok (VBool (negb (truthy v)), ts)))
  | _ => pcmp n ts end.
Proof. done. Qed.
Lemma pcmp_S n ts : pcmp (S n) ts = then_ (pprim n ts) (λ left ts,
  match ts with
  | t :: ts' => match cmp_op t with
                | Some op => then_ (pprim n ts') (λ right ts,
                    Some (Ok (VBool (compare_values json_show show_f64 op left right), ts)))
                | None => Some (Ok (left, ts))
                end
  | [] => Some (Ok (left, ts))
  end).
Proof. done. Qed.
Lemma pprim_S n ts : pprim (S n) ts = then_ (patom n ts) (λ base ts,
  match segs_ [] ts with
  | Ok (segs, ts) => Some (Ok (walk base segs, ts))
  | Err e => Some (Err e)
  end).
Proof. done. Qed.
Lemma patom_S n ts : patom (S n) ts = match ts with
  | TLParen :: ts' => then_ (por n ts') (λ v ts,
      match ts with TRParen :: ts => Some (Ok (v, ts)) | _ => Some (Err UnclosedParen) end)
  | TStr s :: ts' => Some (Ok (VString s, ts'))
  | TNum f :: ts' => Some (Ok (number f, ts'))
  | TIdent name :: ts' =>
    match ts' with
    | TLParen :: TRParen :: ts => Some (rmap (fcall name []) ts)
    | TLParen :: ts => then_ (pargs n [] ts) (λ args ts, Some (rmap (fcall name args) ts))
    | _ => Some (Ok (word c name, ts'))
    end
  | t => Some (Err (Unexpected (head t)))
  end.
Proof. done. Qed.
Lemma pargs_S n l ts : pargs (S n) l ts = then_ (por n ts) (λ v ts,
  match ts with
  | TComma :: ts => pargs n (l ++ [v]) ts
  | TRParen :: ts => Some (Ok (l ++ [v], ts))
  | _ => Some (Err UnclosedParen)
  end).
Proof. done. Qed.

Lemma then_Ok {A B} (m : option (result ExprError (A * list Tok)))
    (k : A → list Tok → option (result ExprError (B * list Tok))) x :
  then_ m k = Some (Ok x) ↔ ∃ a ts, m = Some (Ok (a, ts)) ∧ k a ts = Some (Ok x).
Proof. destruct m as [[[a ts]|e]|]; simpl; naive_solver. Qed.

Lemma then_total {A B} (m : option (result ExprError (A * list Tok)))
    (k : A → list Tok → option (result ExprError (B * list Tok))) :
  m ≠ None → (∀ a ts, m = Some (Ok (a, ts)) → k a ts ≠ None) → then_ m k ≠ None.
Proof. destruct m as [[[a ts]|e]|]; simpl; naive_solver. Qed.

Lemma then_mono {A B} (m m' : option (result ExprError (A * list Tok)))
    (k k' : A → list Tok → option (result ExprError (B * list Tok))) x :
  (∀ y, m = Some y → m' = Some y) → (∀ a ts y, k a ts = Some y → k' a ts = Some y) →
  then_ m k = Some x → then_ m' k' = Some x.
Proof.
  intros Hm Hk. destruct m as [[[a ts]|e]|]; simpl; [|intros [= <-]|done];
    rewrite (Hm _ eq_refl); simpl; auto.
Qed.

Lemma segments_length done_ ts segs r : segs_ done_ ts = Ok (segs, r) → (length r <= length ts)%nat.
Proof.
  assert (∀ n ts done_, (length ts <= n)%nat → segs_ done_ ts = Ok (segs, r) → (length r <= length ts)%nat) as H.
  2: { by apply (H (length ts)). }
  clear. induction n as [|n IH]; intros ts done_ Hn.
  - destruct ts; [|simpl in Hn; lia]. simpl. by intros [= _ <-].
  - destruct ts as [|t ts]; simpl; [by intros [= _ <-]|].
    destruct t; try (intros [= _ <-]; simpl; lia).
    destruct ts as [|[] ts]; try done; intros H%IH; simpl in *; lia.
Qed.

Lemma parse_consumes n :
  (∀ ts v r, por n ts = Some (Ok (v, r)) → (length r < length ts)%nat) ∧
  (∀ l ts v r, oloop n l ts = Some (Ok (v, r)) → (length r <= length ts)%nat) ∧
  (∀ ts v r, pand n ts = Some (Ok (v, r)) → (length r < length ts)%nat) ∧
  (∀ l ts v r, aloop n l ts = Some (Ok (v, r)) → (length r <= length ts)%nat) ∧
  (∀ ts v r, pnot n ts = Some (Ok (v, r)) → (length r < length ts)%nat) ∧
  (∀ ts v r, pcmp n ts = Some (Ok (v, r)) → (length r < length ts)%nat) ∧
  (∀ ts v r, pprim n ts = Some (Ok (v, r)) → (length r < length ts)%nat) ∧
  (∀ ts v r, patom n ts = Some (Ok (v, r)) → (length r < length ts)%nat) ∧
  (∀ l ts v r, pargs n l ts = Some (Ok (v, r)) → (length r < length ts)%nat).
Proof.
  induction n as [|n (Ior & Iol & Iand & Ial & Inot & Icmp & Iprim & Iatom & Iargs)];
    [by split_and!|].
  split_and!; cbn [parse_or or_loop parse_and and_loop parse_not parse_cmp parse_primary parse_atom parse_args].
  - intros ts v r (a & t & H1%Iand & H2%Iol)%then_Ok. lia.
  - intros l ts v r. destruct ts as [|[] ts]; try (intros [= _ <-]; done).
    intros (a & t & H1%Iand & H2%Iol)%then_Ok. simpl. lia.
  - intros ts v r (a & t & H1%Inot & H2%Ial)%then_Ok. lia.
  - intros l ts v r. destruct ts as [|[] ts]; try (intros [= _ <-]; done).
    intros (a & t & H1%Inot & H2%Ial)%then_Ok. simpl. lia.
  - intros ts v r. destruct ts as [|[] ts]; try (apply Icmp).
    intros (a & t & H1%Inot & [= _ ->])%then_Ok. simpl. lia.
  - intros ts v r (a & t & H1%Iprim & H2)%then_Ok. destruct t as [|t ts']; [injection H2 as _ <-; done|].
    destruct (cmp_op t); [|injection H2 as _ <-; done].
    apply then_Ok in H2 as (b & t' & H2%Iprim & [= _ ->]). simpl in *. lia.
  - intros ts v r (a & t & H1%Iatom & H2)%then_Ok.
    destruct (segs_ [] t) as [[segs r']|] eqn:E; [|done]. injection H2 as _ ->.
    apply segments_length in E. lia.
  - intros ts v r. destruct ts as [|[] ts]; try done; try (intros [= _ <-]; simpl; lia).
    + assert (∀ x ts', rmap x ts' = Ok (v, r) → r = ts') as Hr
        by (intros [] ts'; simpl; [by intros [= _ <-]|done]).
      destruct ts as [|[] ts]; try (intros [= _ <-]; simpl; lia).
      assert (∀ x, then_ (pargs n [] x) (λ args ts0, Some (rmap (fcall s args) ts0)) = Some (Ok (v, r)) →
        (length r < length x)%nat) as Hx.
      { intros x (a & t & H1%Iargs & [= H2%Hr])%then_Ok. by subst. }
      destruct ts as [|[] ts]; try (intros H%Hx; simpl in *; lia).
      intros [= H%Hr]. subst. simpl. lia.
    + intros (a & t & H1%Ior & H2)%then_Ok. destruct t as [|[] t]; try done.
      injection H2 as _ ->. simpl in *. lia.
  - intros l ts v r (a & t & H1%Ior & H2)%then_Ok. destruct t as [|[] t]; try done.
    + injection H2 as _ ->. simpl in *. lia.
    + apply Iargs in H2. simpl in *. lia.
Qed.

Lemma parse_total n :
  (∀ ts, 8 * length ts + 6 <= n → por n ts ≠ None)%nat ∧
  (∀ l ts, 8 * length ts + 1 <= n → oloop n l ts ≠ None)%nat ∧
  (∀ ts, 8 * length ts + 5 <= n → pand n ts ≠ None)%nat ∧
  (∀ l ts, 8 * length ts + 1 <= n → aloop n l ts ≠ None)%nat ∧
  (∀ ts, 8 * length ts + 4 <= n → pnot n ts ≠ None)%nat ∧
  (∀ ts, 8 * length ts + 3 <= n → pcmp n ts ≠ None)%nat ∧
  (∀ ts, 8 * length ts + 2 <= n → pprim n ts ≠ None)%nat ∧
  (∀ ts, 8 * length ts + 1 <= n → patom n ts ≠ None)%nat ∧
  (∀ l ts, 8 * length ts + 7 <= n → pargs n l ts ≠ None)%nat.
Proof.
  induction n as [|n (Ior & Iol & Iand & Ial & Inot & Icmp & Iprim & Iatom & Iargs)];
    [split_and!; intros; lia|].
  destruct (parse_consumes n) as (Cor & Col & Cand & Cal & Cnot & Ccmp & Cprim & Catom & Cargs).
  split_and!; cbn [parse_or or_loop parse_and and_loop parse_not parse_cmp parse_primary parse_atom parse_args].
  - intros ts Hn. apply then_total; [apply Iand; lia|]. intros a t H%Cand. apply Iol. lia.
  - intros l ts Hn. destruct ts as [|[] ts]; try done. simpl in Hn.
    apply then_total; [apply Iand; lia|]. intros a t H%Cand. apply Iol. lia.
  - intros ts Hn. apply then_total; [apply Inot; lia|]. intros a t H%Cnot. apply Ial. lia.
  - intros l ts Hn. destruct ts as [|[] ts]; try done. simpl in Hn.
    apply then_total; [apply Inot; lia|]. intros a t H%Cnot. apply Ial. lia.
  - intros ts Hn. destruct ts as [|[] ts]; try (apply Icmp; lia). simpl in Hn.
    apply then_total; [apply Inot; lia|done].
  - intros ts Hn. apply then_total; [apply Iprim; lia|]. intros a t H%Cprim.
    destruct t as [|t ts']; [done|]. destruct (cmp_op t); [|done]. simpl in H.
    apply then_total; [apply Iprim; lia|done].
  - intros ts Hn. apply then_total; [apply Iatom; lia|]. intros a t _.
    by destruct (segs_ [] t) as [[]|].
  - intros ts Hn. destruct ts as [|[] ts]; try done; simpl in Hn.
    + destruct ts as [|[] ts]; try done. simpl in Hn.
      assert (∀ x, (length x <= length ts)%nat →
        then_ (pargs n [] x) (λ args ts0, Some (rmap (fcall s args) ts0)) ≠ None) as Hx.
      { intros x Hx. apply then_total; [apply Iargs; lia|done]. }
      destruct ts as [|[] ts]; try (apply Hx; simpl; lia). done.
    + apply then_total; [apply Ior; lia|]. intros a t _. by destruct t as [|[] t].
  - intros l ts Hn. apply then_total; [apply Ior; lia|]. intros a t H%Cor.
    destruct t as [|[] t]; try done. simpl in H. apply Iargs. lia.
Qed.

Lemma parse_mono n :
  (∀ ts x, por n ts = Some x → por (S n) ts = Some x) ∧
  (∀ l ts x, oloop n l ts = Some x → oloop (S n) l ts = Some x) ∧
  (∀ ts x, pand n ts = Some x → pand (S n) ts = Some x) ∧
  (∀ l ts x, aloop n l ts = Some x → aloop (S n) l ts = Some x) ∧
  (∀ ts x, pnot n ts = Some x → pnot (S n) ts = Some x) ∧
  (∀ ts x, pcmp n ts = Some x → pcmp (S n) ts = Some x) ∧
  (∀ ts x, pprim n ts = Some x → pprim (S n) ts = Some x) ∧
  (∀ ts x, patom n ts = Some x → patom (S n) ts = Some x) ∧
  (∀ l ts x, pargs n l ts = Some x → pargs (S n) l ts = Some x).
Proof.
  induction n as [|n (Ior & Iol & Iand & Ial & Inot & Icmp & Iprim & Iatom & Iargs)]; [by split_and!|].
  split_and!; intros *.
  - rewrite (por_S n), (por_S (S n)). apply then_mono; auto.
  - rewrite (oloop_S n), (oloop_S (S n)). destruct ts as [|[] ts]; try done. apply then_mono; auto.
  - rewrite (pand_S n), (pand_S (S n)). apply then_mono; auto.
  - rewrite (aloop_S n), (aloop_S (S n)). destruct ts as [|[] ts]; try done. apply then_mono; auto.
  - rewrite (pnot_S n), (pnot_S (S n)). destruct ts as [|[] ts]; try apply Icmp.
    apply then_mono; auto.
  - rewrite (pcmp_S n), (pcmp_S (S n)). apply then_mono; [auto|]. intros a t y.
    destruct t as [|t ts']; [done|]. destruct (cmp_op t); [|done]. apply then_mono; auto.
  - rewrite (pprim_S n), (pprim_S (S n)). apply then_mono; [auto|done].
  - rewrite (patom_S n), (patom_S (S n)).
    destruct ts as [|[] ts]; try done; [|apply then_mono; auto].
    destruct ts as [|[] ts]; try done.
    destruct ts as [|[] ts]; try done; apply then_mono; auto.
  - rewrite (pargs_S n), (pargs_S (S n)). apply then_mono; [auto|]. intros a t y.
    destruct t as [|[] t]; try done. apply Iargs.
Qed.

Lemma por_mono n m ts x : (n <= m)%nat → por n ts = Some x → por m ts = Some x.
Proof. induction 1 as [|m _ IH]; [done|]. intros H. apply parse_mono. auto. Qed.
End results.

(** *** The tokenizer ends *)

Lemma literal_length q s lit r : literal q s = Some (lit, r) → (String.length r <= String.length s)%nat.
Proof.
  assert (∀ n s lit r, (String.length s <= n)%nat → literal q s = Some (lit, r) →
    (String.length r <= String.length s)%nat) as H; [|by apply (H (String.length s))].
  clear. induction n as [|n IH]; intros s lit r Hn.
  - destruct s; [done|simpl in Hn; lia].
  - destruct s as [|c s]; [done|]. simpl in Hn. cbn [literal].
    destruct (Ascii.eqb c q).
    + destruct s as [|d s]; [intros [= _ <-]; simpl; lia|].
      destruct (Ascii.eqb q "'" && Ascii.eqb d "'").
      * intros H. apply bind_Some in H as ([l' r'] & H & [= _ <-]).
        apply IH in H; simpl in *; lia.
      * intros [= _ <-]. simpl. lia.
    + intros H. apply bind_Some in H as ([l' r'] & H & [= _ <-]). apply IH in H; simpl in *; lia.
Qed.

Lemma span_length f s a b : F64.span f s = (a, b) → (String.length b <= String.length s)%nat.
Proof.
  revert a b. induction s as [|c s IH]; intros a b; cbn [F64.span]; [by intros [= _ <-]|].
  destruct (f c); [|by intros [= _ <-]]. destruct (F64.span f s) as [a' b'].
  intros [= _ <-]. specialize (IH _ _ eq_refl). simpl. lia.
Qed.

Lemma number_text_length s a b : number_text s = (a, b) → (String.length b <= String.length s)%nat.
Proof.
  revert a b. induction s as [|c s IH]; intros a b; cbn [number_text]; [by intros [= _ <-]|].
  destruct (number_text s) as [a' b']. specialize (IH _ _ eq_refl).
  destruct (Str.is_ascii_digit c); [intros [= _ <-]; simpl; lia|].
  destruct (Ascii.eqb c "."); [|by intros [= _ <-]].
  destruct s as [|d s]; [by intros [= _ <-]|].
  destruct (Str.is_ascii_digit d); intros [= _ <-]; simpl in *; lia.
Qed.

Lemma drop_length n s : (String.length (Str.drop n s) <= String.length s)%nat.
Proof. revert s. induction n as [|n IH]; intros [|c s]; simpl; try lia. specialize (IH s). lia. Qed.

Lemma next_token_length c s t r :
  next_token c s = Ok (t, r) → (String.length r <= String.length s)%nat.
Proof.
  unfold next_token. pose proof (drop_length 1 s) as Hd.
  repeat match goal with
  | |- (if ?b then _ else _) = _ → _ => destruct b; [intros [= _ <-]; (exact Hd || lia)|]
  end.
  destruct (Ascii.eqb c "'" || Ascii.eqb c "034").
  { destruct (literal c s) as [[lit r']|] eqn:E; [|done]. intros [= _ <-]. by eapply literal_length. }
  destruct (Str.is_ascii_digit c) eqn:Hdig.
  { cbn [number_text]. rewrite Hdig. destruct (number_text s) as [a b] eqn:E.
    destruct (F64.parse _); [|done]. intros [= _ <-]. by eapply number_text_length. }
  destruct (ident_char c) eqn:Hid; [|done].
  cbn [F64.span]. rewrite Hid. destruct (F64.span ident_char s) as [a b] eqn:E.
  intros [= _ <-]. by eapply span_length.
Qed.

Lemma tokenize_total s : tokenize s ≠ None.
Proof.
  unfold tokenize.
  assert (∀ n s, (String.length s < n)%nat → tokenize_loop n s ≠ None) as H; [|apply H; lia].
  clear. induction n as [|n IH]; intros s Hn; [lia|]. cbn [tokenize_loop].
  destruct s as [|c s]; [done|]. destruct (next_token c s) as [[t r]|] eqn:E; [|done].
  apply next_token_length in E. simpl in Hn. specialize (IH r ltac:(lia)).
  by destruct (tokenize_loop n r) as [[]|].
Qed.

(** ** The grammar *)

Inductive Seg : Type := SName (s : string) | SNum (f : spec_float).

Inductive Expr : Type :=
| EOr (a b : Expr)
| EAnd (a b : Expr)
| ENot (a : Expr)
| ECmp (op : CmpOp) (a b : Expr)
| EDot (a : Expr) (s : Seg)
| EStr (s : string)
| ENum (f : spec_float)
| EWord (name : string)
| ECall (name : string) (args : list Expr)
| EParen (a : Expr).

(** [wf l e]: [e] needs no parentheses at level [l]: 0 or, 1 and, 2 not, 3 comparison,
    4 property access, 5 atom.  [||] and [&&] associate to the left, and a comparison
    does not chain. *)
Fixpoint wf (l : nat) (e : Expr) : bool :=
  match e with
  | EOr a b => (l =? 0)%nat && wf 0 a && wf 1 b
  | EAnd a b => (l <=? 1)%nat && wf 1 a && wf 2 b
  | ENot a => (l <=? 2)%nat && wf 2 a
  | ECmp _ a b => (l <=? 3)%nat && wf 4 a && wf 4 b
  | EDot a _ => (l <=? 4)%nat && wf 4 a
  | ECall _ args => forallb (wf 0) args
  | EParen a => wf 0 a
  | EStr _ | ENum _ | EWord _ => true
  end.

Definition op_tok (op : CmpOp) : Tok :=
  match op with
  | OpEq => TEqEq | OpNe => TNotEq | OpGt => TGt | OpGe => TGe | OpLt => TLt | OpLe => TLe
  end.
Definition seg_toks (s : Seg) : list Tok :=
  match s with SName n => [TDot; TIdent n] | SNum f => [TDot; TNum f] end.

Fixpoint commas (l : list (list Tok)) : list Tok :=
  match l with [] => [] | [ts] => ts | ts :: l' => ts ++ TComma :: commas l' end.

Fixpoint print (e : Expr) : list Tok :=
  match e with
  | EOr a b => print a ++ TOr :: print b
  | EAnd a b => print a ++ TAnd :: print b
  | ENot a => TNot :: print a
  | ECmp op a b => print a ++ op_tok op :: print b
  | EDot a s => print a ++ seg_toks s
  | EStr s => [TStr s]
  | ENum f => [TNum f]
  | EWord n => [TIdent n]
  | ECall n args => TIdent n :: TLParen :: commas (map print args) ++ [TRParen]
  | EParen a => TLParen :: print a ++ [TRParen]
  end.

(** An induction principle that reaches the arguments of a call. *)
Lemma Expr_rect' (P : Expr → Prop) :
  (∀ a b, P a → P b → P (EOr a b)) → (∀ a b, P a → P b → P (EAnd a b)) →
  (∀ a, P a → P (ENot a)) → (∀ op a b, P a → P b → P (ECmp op a b)) →
  (∀ a s, P a → P (EDot a s)) → (∀ s, P (EStr s)) → (∀ f, P (ENum f)) → (∀ n, P (EWord n)) →
  (∀ n args, Forall P args → P (ECall n args)) → (∀ a, P a → P (EParen a)) → ∀ e, P e.
Proof.
  intros Ho Ha Hn Hc Hd Hs Hf Hw Hcall Hp. fix IH 1. intros [].
  - apply Ho; apply IH.
  - apply Ha; apply IH.
  - apply Hn; apply IH.
  - apply Hc; apply IH.
  - apply Hd; apply IH.
  - apply Hs.
  - apply Hf.
  - apply Hw.
  - apply Hcall. induction args as [|a args IHargs]; constructor; [apply IH|exact IHargs].
  - apply Hp; apply IH.
Qed.

Section denotation.
Context (json_parse : string → option Value) (json_show : Value → string)
  (show_f64 : spec_float → string) (c : gmap string Value).

Definition seg_text (s : Seg) : string :=
  match s with SName n => n | SNum f => to_display json_show show_f64 (number f) end.

(** The value of an expression: operands left to right, the first error wins. *)
Fixpoint denote (e : Expr) : result ExprError Value :=
  match e with
  | EOr a b => x <-? denote a ;; y <-? denote b ;; Ok (if truthy x then x else y)
  | EAnd a b => x <-? denote a ;; y <-? denote b ;; Ok (if truthy x then y else x)
  | ENot a => x <-? denote a ;; Ok (VBool (negb (truthy x)))
  | ECmp op a b =>
    x <-? denote a ;; y <-? denote b ;; Ok (VBool (compare_values json_show show_f64 op x y))
  | EDot a s => x <-? denote a ;; Ok (walk_one x (seg_text s))
  | EStr s => Ok (VString s)
  | ENum f => Ok (number f)
  | EWord n => Ok (word c n)
  | ECall n args =>
    vs <-? (fix go (l : list Expr) : result ExprError (list Value) :=
              match l with
              | [] => Ok []
              | a :: l' => v <-? denote a ;; vs <-? go l' ;; Ok (v :: vs)
              end) args ;;
    call json_parse json_show show_f64 c n vs
  | EParen a => denote a
  end.

Fixpoint denote_args (l : list Expr) : result ExprError (list Value) :=
  match l with
  | [] => Ok []
  | a :: l' => v <-? denote a ;; vs <-? denote_args l' ;; Ok (v :: vs)
  end.

Lemma denote_call n args :
  denote (ECall n args) = (vs <-? denote_args args ;; call json_parse json_show show_f64 c n vs).
Proof. done. Qed.
End denotation.

(** ** The parser implements the grammar *)

Section correct.
Context (json_parse : string → option Value) (json_show : Value → string)
  (show_f64 : spec_float → string) (c : gmap string Value).

Notation por := (parse_or json_parse json_show show_f64 c).
Notation oloop := (or_loop json_parse json_show show_f64 c).
Notation pand := (parse_and json_parse json_show show_f64 c).
Notation aloop := (and_loop json_parse json_show show_f64 c).
Notation pnot := (parse_not json_parse json_show show_f64 c).
Notation pcmp := (parse_cmp json_parse json_show show_f64 c).
Notation pprim := (parse_primary json_parse json_show show_f64 c).
Notation patom := (parse_atom json_parse json_show show_f64 c).
Notation pargs := (parse_args json_parse json_show show_f64 c).
Notation segs_ := (segments json_show show_f64).
Notation den := (denote json_parse json_show show_f64 c).
Notation dargs := (denote_args json_parse json_show show_f64 c).
Notation text := (seg_text json_show show_f64).
Abbreviation Res A := (result ExprError (A * list Tok)).

(** [f] returns [r] once it has enough fuel. *)
Definition eventually {A} (f : nat → option A) (r : A) : Prop :=
  ∃ n0, ∀ n, (n0 <= n)%nat → f n = Some r.

Lemma ev_const {A} (r : A) : eventually (λ _, Some r) r.
Proof. by exists 0%nat. Qed.

Lemma ev_S {A} (f g : nat → option A) r : (∀ n, f (S n) = g n) → eventually g r → eventually f r.
Proof.
  intros Hfg [n0 H]. exists (S n0). intros [|n] Hn; [lia|]. rewrite Hfg. apply H. lia.
Qed.

Ltac unroll step := eapply ev_S; [intros ?; apply step|]; cbv beta iota.

Lemma ev_then {A B} (m : nat → option (Res A)) (k : nat → A → list Tok → option (Res B)) a ts r :
  eventually m (Ok (a, ts)) → eventually (λ n, k n a ts) r →
  eventually (λ n, then_ (m n) (k n)) r.
Proof.
  intros [n1 H1] [n2 H2]. exists (Nat.max n1 n2). intros n Hn. rewrite H1 by lia. apply H2. lia.
Qed.

Lemma ev_then_err {A B} (m : nat → option (Res A)) (k : nat → A → list Tok → option (Res B)) e :
  eventually m (Err e) → eventually (λ n, then_ (m n) (k n)) (Err e).
Proof. intros [n1 H1]. exists n1. intros n Hn. by rewrite H1. Qed.

Lemma ev_unique {A} (f : nat → option A) r n x :
  (∀ n m y, (n <= m)%nat → f n = Some y → f m = Some y) → eventually f r → f n = Some x → x = r.
Proof.
  intros Hmono [n0 H] Hn. apply (Hmono n (Nat.max n n0)) in Hn; [|lia].
  rewrite H in Hn by lia. congruence.
Qed.

(** What may follow an operand: no dot, no parenthesis, no comparison. *)
Definition no_dot (ts : list Tok) : Prop := match ts with TDot :: _ => False | _ => True end.
Definition no_call (ts : list Tok) : Prop := match ts with TLParen :: _ => False | _ => True end.
Definition no_cmp (ts : list Tok) : Prop :=
  match ts with t :: _ => cmp_op t = None | [] => True end.
Definition no_and (ts : list Tok) : Prop := match ts with TAnd :: _ => False | _ => True end.
Definition no_or (ts : list Tok) : Prop := match ts with TOr :: _ => False | _ => True end.
Definition follow (ts : list Tok) : Prop := no_dot ts ∧ no_call ts ∧ no_cmp ts.

(** What each level of the parser does with a printed expression. *)
Definition atom_spec (e : Expr) : Prop :=
  ∀ rest, no_call rest → eventually (λ n, patom n (print e ++ rest)) (rmap (den e) rest).
Definition prim_spec (e : Expr) : Prop :=
  ∀ rest, no_call rest → no_dot rest →
    eventually (λ n, pprim n (print e ++ rest)) (rmap (den e) rest).
Definition cmp_spec (e : Expr) : Prop :=
  ∀ rest, follow rest → eventually (λ n, pcmp n (print e ++ rest)) (rmap (den e) rest).
Definition not_spec (e : Expr) : Prop :=
  ∀ rest, follow rest → eventually (λ n, pnot n (print e ++ rest)) (rmap (den e) rest).
Definition and_spec (e : Expr) : Prop :=
  ∀ rest, follow rest →
    (∀ v r, den e = Ok v → eventually (λ n, aloop n v rest) r →
       eventually (λ n, pand n (print e ++ rest)) r) ∧
    (∀ x, den e = Err x → eventually (λ n, pand n (print e ++ rest)) (Err x)).
Definition or_spec (e : Expr) : Prop :=
  ∀ rest, follow rest → no_and rest →
    (∀ v r, den e = Ok v → eventually (λ n, oloop n v rest) r →
       eventually (λ n, por n (print e ++ rest)) r) ∧
    (∀ x, den e = Err x → eventually (λ n, por n (print e ++ rest)) (Err x)).

(** A property access: an atom and its segments. *)
Definition chain_spec (e : Expr) : Prop :=
  ∃ b segs, atom_spec b ∧ print e = print b ++ (segs ≫= seg_toks) ∧
    den e = (x <-? den b ;; Ok (walk x (text <$> segs))).

Lemma segments_chain done_ segs rest :
  no_dot rest → segs_ done_ ((segs ≫= seg_toks) ++ rest) = Ok (done_ ++ (text <$> segs), rest).
Proof.
  intros Hr. revert done_. induction segs as [|s segs IH]; intros done_.
  - simpl. rewrite app_nil_r. destruct rest as [|[] rest]; done.
  - destruct s; cbn [mbind list_bind seg_toks app]; cbn [segments]; rewrite IH, fmap_cons, <- app_assoc; done.
Qed.

Lemma seg_toks_no_call segs rest : no_call rest → no_call ((segs ≫= seg_toks) ++ rest).
Proof. destruct segs as [|[] segs]; done. Qed.

Lemma prim_of_chain e : chain_spec e → prim_spec e.
Proof.
  intros (b & segs & Hb & Hp & Hd) rest Hcall Hdot.
  unroll pprim_S.
  rewrite Hp, Hd, <- app_assoc.
  specialize (Hb ((segs ≫= seg_toks) ++ rest) (seg_toks_no_call _ _ Hcall)).
  destruct (den b) as [x|x] eqn:Hx; [|by apply ev_then_err].
  apply (ev_then _ _ _ _ _ Hb). rewrite segments_chain by done. apply ev_const.
Qed.

Lemma cmp_of_prim e : prim_spec e → cmp_spec e.
Proof.
  intros He rest (Hdot & Hcall & Hcmp).
  unroll pcmp_S.
  specialize (He rest Hcall Hdot). destruct (den e) as [x|x]; [|by apply ev_then_err].
  apply (ev_then _ _ _ _ _ He). destruct rest as [|t rest]; [apply ev_const|].
  simpl in Hcmp. rewrite Hcmp. apply ev_const.
Qed.

Lemma op_tok_follow op rest : no_call (op_tok op :: rest) ∧ no_dot (op_tok op :: rest).
Proof. by destruct op. Qed.
Lemma cmp_op_tok op : cmp_op (op_tok op) = Some op.
Proof. by destruct op. Qed.

Lemma cmp_of_cmp op a b : prim_spec a → prim_spec b → cmp_spec (ECmp op a b).
Proof.
  intros Ha Hb rest (Hdot & Hcall & Hcmp).
  unroll pcmp_S.
  cbn [print denote]. rewrite <- app_assoc. cbn [app].
  destruct (op_tok_follow op (print b ++ rest)) as [Hc' Hd'].
  specialize (Ha _ Hc' Hd'). specialize (Hb rest Hcall Hdot).
  destruct (den a) as [x|x]; [|by apply ev_then_err].
  apply (ev_then _ _ _ _ _ Ha). rewrite cmp_op_tok.
  destruct (den b) as [y|y]; [|by apply ev_then_err].
  apply (ev_then _ _ _ _ _ Hb). apply ev_const.
Qed.

(** The first token of an operand. *)
Definition starts (e : Expr) : Prop :=
  ∃ t ts, print e = t :: ts ∧ t ≠ TRParen ∧ (∀ l, (3 <= l)%nat → wf l e = true → t ≠ TNot).

Lemma print_starts e : starts e.
Proof.
  unfold starts. induction e as [a b Ha _|a b Ha _|a Ha|op a b Ha _|a s Ha|s|f|n|n args _|a Ha] using Expr_rect';
    cbn [print wf]; try (destruct Ha as (t & ts & -> & Ht & Hn)); eexists _, _; (split; [done|]);
    split; try done; intros [|[|[|l]]] Hl Hw; try lia; try done.
  - simpl in Hw. apply andb_true_iff in Hw as [Hw _]. apply andb_true_iff in Hw as [_ Hw]. by apply (Hn 4%nat); [lia|].
  - apply andb_true_iff in Hw as [_ Hw]. by apply (Hn 4%nat); [lia|].
Qed.

Lemma not_of_cmp e : wf 3 e = true → cmp_spec e → not_spec e.
Proof.
  intros Hw He rest Hf. destruct (print_starts e) as (t & ts & Hp & _ & Hn).
  specialize (Hn 3%nat ltac:(lia) Hw).
  apply (ev_S _ (λ n, pcmp n (print e ++ rest))); [|by apply He].
  intros n. rewrite pnot_S, Hp. by destruct t.
Qed.

Lemma not_of_not a : not_spec a → not_spec (ENot a).
Proof.
  intros Ha rest Hf. cbn [print app denote].
  unroll pnot_S.
  specialize (Ha rest Hf).
  destruct (den a) as [x|x]; [|by apply ev_then_err].
  apply (ev_then _ _ _ _ _ Ha). apply ev_const.
Qed.

Lemma and_of_not e : not_spec e → and_spec e.
Proof.
  intros He rest Hf. specialize (He rest Hf). split.
  - intros v r Hv Hr. unroll pand_S.
    rewrite Hv in He. by apply (ev_then _ _ _ _ _ He).
  - intros x Hx. unroll pand_S.
    rewrite Hx in He. by apply ev_then_err.
Qed.

Lemma and_of_and a b : and_spec a → not_spec b → and_spec (EAnd a b).
Proof.
  intros Ha Hb rest Hf. cbn [print denote].
  destruct (Ha (TAnd :: print b ++ rest)) as [Ha1 Ha2]; [done|]. specialize (Hb rest Hf).
  rewrite <- app_assoc. cbn [app]. split.
  - intros v r Hv Hr. inv_ok. apply (Ha1 x); [done|].
    unroll aloop_S.
    rewrite Hx0 in Hb. by apply (ev_then _ _ _ _ _ Hb).
  - intros x Hx. destruct (den a) as [y|y] eqn:Ey; simpl in Hx; [|injection Hx as ->; by apply Ha2].
    apply (Ha1 y); [done|].
    unroll aloop_S.
    destruct (den b) as [z|z]; simpl in Hx; [done|]. injection Hx as ->. by apply ev_then_err.
Qed.

Lemma or_of_and e : and_spec e → or_spec e.
Proof.
  intros He rest Hf Hna. destruct (He rest Hf) as [H1 H2]. split.
  - intros v r Hv Hr. unroll por_S.
    apply (ev_then _ _ v rest); [|done]. apply (H1 v); [done|].
    apply (ev_S _ (λ _, Some (Ok (v, rest)))); [|apply ev_const].
    intros n. rewrite aloop_S. by destruct rest as [|[] rest].
  - intros x Hx. unroll por_S.
    apply ev_then_err. by apply H2.
Qed.

Lemma or_of_or a b : or_spec a → and_spec b → or_spec (EOr a b).
Proof.
  intros Ha Hb rest Hf Hna. cbn [print denote].
  destruct (Ha (TOr :: print b ++ rest)) as [Ha1 Ha2]; [done..|].
  destruct (Hb rest Hf) as [Hb1 Hb2]. rewrite <- app_assoc. cbn [app].
  assert (∀ v, eventually (λ n, aloop n v rest) (Ok (v, rest))) as Hend.
  { intros v. apply (ev_S _ (λ _, Some (Ok (v, rest)))); [|apply ev_const].
    intros n. rewrite aloop_S. by destruct rest as [|[] rest]. }
  split.
  - intros v r Hv Hr. inv_ok. apply (Ha1 x); [done|].
    unroll oloop_S.
    apply (ev_then _ _ x0 rest); [|done]. by apply (Hb1 x0).
  - intros x Hx. destruct (den a) as [y|y] eqn:Ey; simpl in Hx; [|injection Hx as ->; by apply Ha2].
    apply (Ha1 y); [done|].
    unroll oloop_S.
    destruct (den b) as [z|z]; simpl in Hx; [done|]. injection Hx as ->.
    apply ev_then_err. by apply Hb2.
Qed.

(** *** Atoms *)

Lemma atom_str s : atom_spec (EStr s).
Proof. intros rest _. unroll patom_S. apply ev_const. Qed.
Lemma atom_num f : atom_spec (ENum f).
Proof. intros rest _. unroll patom_S. apply ev_const. Qed.
Lemma atom_word n : atom_spec (EWord n).
Proof. intros rest Hc. cbn [print app]. unroll patom_S. destruct rest as [|[] rest]; try done; apply ev_const. Qed.

Lemma or_done v rest : no_or rest → eventually (λ n, oloop n v rest) (Ok (v, rest)).
Proof.
  intros Hr. apply (ev_S _ (λ _, Some (Ok (v, rest)))); [|apply ev_const].
  intros n. rewrite oloop_S. by destruct rest as [|[] rest].
Qed.

(** A whole expression before a closing token. *)
Lemma or_whole e rest :
  or_spec e → follow rest → no_and rest → no_or rest →
  eventually (λ n, por n (print e ++ rest)) (rmap (den e) rest).
Proof.
  intros He Hf Ha Ho. destruct (He rest Hf Ha) as [H1 H2].
  destruct (den e) as [v|x]; [|by apply H2]. apply (H1 v); [done|]. by apply or_done.
Qed.

Lemma atom_paren a : or_spec a → atom_spec (EParen a).
Proof.
  intros Ha rest _. cbn [print app denote]. rewrite <- app_assoc. cbn [app]. unroll patom_S.
  pose proof (or_whole a (TRParen :: rest) Ha (conj I (conj I eq_refl)) I I) as Hw.
  destruct (den a) as [v|x]; [|by apply ev_then_err].
  apply (ev_then _ _ _ _ _ Hw). apply ev_const.
Qed.

Lemma args_spec args rest done_ :
  args ≠ [] → Forall or_spec args →
  eventually (λ n, pargs n done_ (commas (map print args) ++ TRParen :: rest))
    (rmap (vs <-? dargs args ;; Ok (done_ ++ vs)) rest).
Proof.
  intros Hne Hargs. revert done_. induction Hargs as [|a args Ha Hargs IH]; intros done_; [done|].
  destruct args as [|b args].
  - cbn [map commas denote_args]. unroll pargs_S.
    pose proof (or_whole a (TRParen :: rest) Ha (conj I (conj I eq_refl)) I I) as Hw.
    destruct (den a) as [v|x]; [|by apply ev_then_err].
    apply (ev_then _ _ _ _ _ Hw). apply ev_const.
  - change (commas (map print (a :: b :: args))) with
      (print a ++ TComma :: commas (map print (b :: args))).
    rewrite <- app_assoc. cbn [app]. unroll pargs_S.
    pose proof (or_whole a (TComma :: commas (map print (b :: args)) ++ TRParen :: rest) Ha
      (conj I (conj I eq_refl)) I I) as Hw.
    change (dargs (a :: b :: args)) with (v <-? den a ;; vs <-? dargs (b :: args) ;; Ok (v :: vs)).
    destruct (den a) as [v|x]; [|by apply ev_then_err].
    apply (ev_then _ _ _ _ _ Hw). cbn [rbind].
    specialize (IH ltac:(done) (done_ ++ [v])).
    destruct (dargs (b :: args)) as [vs|x]; [|done]. cbn [rbind rmap] in *.
    by rewrite <- app_assoc in IH.
Qed.

Lemma atom_call n args : Forall or_spec args → atom_spec (ECall n args).
Proof.
  intros Hargs rest _. rewrite denote_call. cbn [print app].
  destruct args as [|a args].
  { unroll patom_S. cbn [map commas app denote_args rbind]. apply ev_const. }
  rewrite <- app_assoc. cbn [app].
  pose proof (args_spec (a :: args) rest [] ltac:(done) Hargs) as Hev.
  destruct (print_starts a) as (t & ts & Hp & Ht & _).
  assert (∃ ts', commas (map print (a :: args)) ++ TRParen :: rest = t :: ts') as [ts' E].
  { destruct args as [|b args]; cbn [map commas]; rewrite Hp; eauto. }
  rewrite E in *. apply (ev_S _ (λ k, then_ (pargs k [] (t :: ts'))
    (λ args ts, Some (rmap (call json_parse json_show show_f64 c n args) ts)))).
  { intros k. rewrite patom_S. by destruct t. }
  destruct (dargs (a :: args)) as [vs|x]; [|by apply ev_then_err].
  apply (ev_then _ _ _ _ _ Hev). apply ev_const.
Qed.

(** *** Every well-formed expression is parsed to its value *)

Definition specs (e : Expr) : Prop :=
  (wf 4 e = true → chain_spec e) ∧ (wf 3 e = true → cmp_spec e) ∧ (wf 2 e = true → not_spec e) ∧
  (wf 1 e = true → and_spec e) ∧ (wf 0 e = true → or_spec e).

Lemma chain_of_atom e : atom_spec e → chain_spec e.
Proof.
  intros He. exists e, []. split_and!; [done|by rewrite app_nil_r|]. by destruct (den e).
Qed.

Lemma specs_of_chain e : (wf 0 e = true → chain_spec e) → (∀ l, wf l e = wf 0 e) → specs e.
Proof.
  intros He Hw. unfold specs. rewrite (Hw 4%nat), (Hw 3%nat), (Hw 2%nat), (Hw 1%nat).
  assert (wf 0 e = true → cmp_spec e) as Hc by (intros ?; by apply cmp_of_prim, prim_of_chain, He).
  assert (wf 0 e = true → not_spec e) as Hn by (intros ?; apply not_of_cmp; [by rewrite Hw|auto]).
  assert (wf 0 e = true → and_spec e) as Ha by (intros ?; by apply and_of_not, Hn).
  split_and!; [done..|]. intros ?. by apply or_of_and, Ha.
Qed.

Lemma all_specs e : specs e.
Proof.
  induction e as [a b Ha Hb|a b Ha Hb|a Ha|op a b Ha Hb|a s Ha|s|f|n|n args Hargs|a Ha] using Expr_rect'.
  - destruct Ha as (_ & _ & _ & _ & Ha), Hb as (_ & _ & _ & Hb & _).
    split_and!; try done. cbn [wf]. intros [[_ H1]%andb_true_iff H2]%andb_true_iff.
    apply or_of_or; auto.
  - destruct Ha as (_ & _ & _ & Ha & _), Hb as (_ & _ & Hb & _ & _).
    assert (wf 1 (EAnd a b) = true → and_spec (EAnd a b)) as H.
    { cbn [wf]. intros [[_ H1]%andb_true_iff H2]%andb_true_iff. apply and_of_and; auto. }
    split_and!; try done. intros Hw. by apply or_of_and, H.
  - destruct Ha as (_ & _ & Ha & _ & _).
    assert (wf 2 (ENot a) = true → not_spec (ENot a)) as H by (intros Hw; by apply not_of_not, Ha).
    assert (wf 1 (ENot a) = true → and_spec (ENot a)) as H1 by (intros Hw; by apply and_of_not, H).
    split_and!; try done. intros Hw. by apply or_of_and, H1.
  - destruct Ha as (Ha & _), Hb as (Hb & _).
    assert (wf 3 (ECmp op a b) = true → cmp_spec (ECmp op a b)) as H.
    { cbn [wf]. intros [[_ H1]%andb_true_iff H2]%andb_true_iff.
      apply cmp_of_cmp; apply prim_of_chain; auto. }
    assert (wf 2 (ECmp op a b) = true → not_spec (ECmp op a b)) as H2 by (intros Hw; by apply not_of_cmp, H).
    assert (wf 1 (ECmp op a b) = true → and_spec (ECmp op a b)) as H1 by (intros Hw; by apply and_of_not, H2).
    split_and!; try done. intros Hw. by apply or_of_and, H1.
  - destruct Ha as (Ha & _).
    assert (wf 4 (EDot a s) = true → chain_spec (EDot a s)) as H4.
    { cbn [wf]. intros [_ Hw]%andb_true_iff. destruct (Ha Hw) as (b & segs & Hb & Hp & Hd).
      exists b, (segs ++ [s]). split; [done|]. cbn [print denote]. rewrite Hp, Hd. split.
      - by rewrite <- app_assoc, bind_app, bind_cons, app_nil_r.
      - destruct (den b); [|done]. cbn [rbind]. unfold walk. by rewrite fmap_app, foldl_app. }
    assert (wf 3 (EDot a s) = true → cmp_spec (EDot a s)) as H3 by (intros Hw; by apply cmp_of_prim, prim_of_chain, H4).
    assert (wf 2 (EDot a s) = true → not_spec (EDot a s)) as H2 by (intros Hw; by apply not_of_cmp, H3).
    assert (wf 1 (EDot a s) = true → and_spec (EDot a s)) as H1 by (intros Hw; by apply and_of_not, H2).
    split_and!; try done. intros Hw. by apply or_of_and, H1.
  - apply specs_of_chain; [|done]. intros _. apply chain_of_atom, atom_str.
  - apply specs_of_chain; [|done]. intros _. apply chain_of_atom, atom_num.
  - apply specs_of_chain; [|done]. intros _. apply chain_of_atom, atom_word.
  - apply specs_of_chain; [|done]. cbn [wf]. intros Hw. apply chain_of_atom, atom_call.
    rewrite forallb_forall in Hw. rewrite Forall_forall in *. intros a Ha.
    apply Hargs; [done|]. apply Hw. by apply list_elem_of_In.
  - apply specs_of_chain; [|done]. cbn [wf]. intros Hw. apply chain_of_atom, atom_paren. by apply Ha.
Qed.

Lemma parse_complete e : wf 0 e = true → por (enough (print e)) (print e) = Some (rmap (den e) []).
Proof.
  intros Hw. destruct (all_specs e) as (_ & _ & _ & _ & He).
  pose proof (or_whole e [] (He Hw) (conj I (conj I I)) I I) as Hev. rewrite app_nil_r in Hev.
  destruct (por (enough (print e)) (print e)) as [x|] eqn:E.
  - f_equal. refine (ev_unique _ _ _ _ _ Hev E). intros n m y. apply por_mono.
  - exfalso. revert E. apply parse_total. unfold enough. lia.
Qed.

(** *** Everything the parser accepts is a well-formed expression *)

Lemma wf_weaken l l' e : (l' <= l)%nat → wf l e = true → wf l' e = true.
Proof.
  intros Hl. destruct e; cbn [wf]; try done; rewrite ?andb_true_iff;
    repeat match goal with
    | |- context [(?a =? ?b)%nat] => destruct (Nat.eqb_spec a b)
    | |- context [(?a <=? ?b)%nat] => destruct (Nat.leb_spec a b)
    end; try lia; naive_solver.
Qed.

Lemma segments_sound ts done_ segs r :
  segs_ done_ ts = Ok (segs, r) →
  ∃ l, ts = (l ≫= seg_toks) ++ r ∧ segs = done_ ++ (text <$> l).
Proof.
  assert (∀ n ts done_, (length ts <= n)%nat → segs_ done_ ts = Ok (segs, r) →
    ∃ l, ts = (l ≫= seg_toks) ++ r ∧ segs = done_ ++ (text <$> l)) as H; [|by apply (H (length ts))].
  clear. induction n as [|n IH]; intros ts done_ Hn.
  - destruct ts; [|simpl in Hn; lia]. intros [= <- <-]. exists []; split; [done|by rewrite app_nil_r].
  - destruct ts as [|t ts]; [intros [= <- <-]; exists []; split; [done|by rewrite app_nil_r]|].
    destruct t; try (intros [= <- <-]; exists []; split; [done|by rewrite app_nil_r]).
    destruct ts as [|[] ts]; try done; cbn [segments]; simpl in Hn;
      intros (l & -> & ->)%IH; try lia; [exists (SName s :: l)|exists (SNum f :: l)];
      (split; [done|by rewrite fmap_cons, <- app_assoc]).
Qed.

Lemma chain_sound segs e v :
  wf 4 e = true → den e = Ok v →
  ∃ e', wf 4 e' = true ∧ print e' = print e ++ (segs ≫= seg_toks) ∧ den e' = Ok (walk v (text <$> segs)).
Proof.
  revert e v. induction segs as [|s segs IH]; intros e v Hw Hd.
  - exists e. split_and!; [done|by rewrite app_nil_r|done].
  - destruct (IH (EDot e s) (walk_one v (text s))) as (e' & H1 & H2 & H3).
    + done.
    + cbn [denote]. by rewrite Hd.
    + exists e'. split; [done|]. rewrite H2, H3. cbn [print]. rewrite <- app_assoc. done.
Qed.

Lemma cmp_op_inv t op : cmp_op t = Some op → t = op_tok op.
Proof. destruct t; simpl; intros [= <-]; done. Qed.

Lemma parse_sound n :
  (∀ ts v r, por n ts = Some (Ok (v, r)) →
     ∃ e, wf 0 e = true ∧ ts = print e ++ r ∧ den e = Ok v) ∧
  (∀ l ts v r, oloop n l ts = Some (Ok (v, r)) → ∀ e0, wf 0 e0 = true → den e0 = Ok l →
     ∃ e, wf 0 e = true ∧ print e0 ++ ts = print e ++ r ∧ den e = Ok v) ∧
  (∀ ts v r, pand n ts = Some (Ok (v, r)) →
     ∃ e, wf 1 e = true ∧ ts = print e ++ r ∧ den e = Ok v) ∧
  (∀ l ts v r, aloop n l ts = Some (Ok (v, r)) → ∀ e0, wf 1 e0 = true → den e0 = Ok l →
     ∃ e, wf 1 e = true ∧ print e0 ++ ts = print e ++ r ∧ den e = Ok v) ∧
  (∀ ts v r, pnot n ts = Some (Ok (v, r)) →
     ∃ e, wf 2 e = true ∧ ts = print e ++ r ∧ den e = Ok v) ∧
  (∀ ts v r, pcmp n ts = Some (Ok (v, r)) →
     ∃ e, wf 3 e = true ∧ ts = print e ++ r ∧ den e = Ok v) ∧
  (∀ ts v r, pprim n ts = Some (Ok (v, r)) →
     ∃ e, wf 4 e = true ∧ ts = print e ++ r ∧ den e = Ok v) ∧
  (∀ ts v r, patom n ts = Some (Ok (v, r)) →
     ∃ e, wf 5 e = true ∧ ts = print e ++ r ∧ den e = Ok v) ∧
  (∀ done_ ts vs r, pargs n done_ ts = Some (Ok (vs, r)) →
     ∃ args ws, args ≠ [] ∧ forallb (wf 0) args = true ∧
       ts = commas (map print args) ++ TRParen :: r ∧ dargs args = Ok ws ∧ vs = done_ ++ ws).
Proof.
  induction n as [|n (Ior & Iol & Iand & Ial & Inot & Icmp & Iprim & Iatom & Iargs)]; [by split_and!|].
  split_and!.
  - intros ts v r. rewrite por_S. intros (a & t & H1 & H2)%then_Ok.
    apply Iand in H1 as (e & Hw & -> & Hd). apply (Iol _ _ _ _ H2 e); [|done].
    apply (wf_weaken 1); [lia|done].
  - intros l ts v r. rewrite oloop_S. intros H e0 Hw0 Hd0.
    destruct ts as [|[] ts]; try (injection H as <- <-; by exists e0).
    apply then_Ok in H as (a & t & H1 & H2). apply Iand in H1 as (e & Hw & -> & Hd).
    destruct (Iol _ _ _ _ H2 (EOr e0 e)) as (e' & Hw' & Hp' & Hd').
    + cbn [wf]. by rewrite Hw0, Hw.
    + cbn [denote]. by rewrite Hd0, Hd.
    + exists e'. split; [done|]. rewrite <- Hp'. cbn [print]. by rewrite <- app_assoc.
  - intros ts v r. rewrite pand_S. intros (a & t & H1 & H2)%then_Ok.
    apply Inot in H1 as (e & Hw & -> & Hd). apply (Ial _ _ _ _ H2 e); [|done].
    apply (wf_weaken 2); [lia|done].
  - intros l ts v r. rewrite aloop_S. intros H e0 Hw0 Hd0.
    destruct ts as [|[] ts]; try (injection H as <- <-; by exists e0).
    apply then_Ok in H as (a & t & H1 & H2). apply Inot in H1 as (e & Hw & -> & Hd).
    destruct (Ial _ _ _ _ H2 (EAnd e0 e)) as (e' & Hw' & Hp' & Hd').
    + cbn [wf]. by rewrite Hw0, Hw.
    + cbn [denote]. by rewrite Hd0, Hd.
    + exists e'. split; [done|]. rewrite <- Hp'. cbn [print]. by rewrite <- app_assoc.
  - intros ts v r. rewrite pnot_S.
    assert (pcmp n ts = Some (Ok (v, r)) → ∃ e, wf 2 e = true ∧ ts = print e ++ r ∧ den e = Ok v) as Hc.
    { intros (e & Hw & Hp & Hd)%Icmp. exists e. split; [|done]. apply (wf_weaken 3); [lia|done]. }
    destruct ts as [|[] ts]; try exact Hc.
    intros (a & t & H1 & [= <- ->])%then_Ok. apply Inot in H1 as (e & Hw & -> & Hd).
    exists (ENot e). split_and!; [done|done|]. cbn [denote]. by rewrite Hd.
  - intros ts v r. rewrite pcmp_S. intros (a & t & H1 & H2)%then_Ok.
    apply Iprim in H1 as (e & Hw & -> & Hd).
    assert (wf 3 e = true) as Hw3 by (apply (wf_weaken 4); [lia|done]).
    destruct t as [|t ts']; [injection H2 as <- <-; by exists e|].
    destruct (cmp_op t) as [op|] eqn:Hop; [|injection H2 as <- <-; by exists e].
    apply cmp_op_inv in Hop as ->. apply then_Ok in H2 as (b & t' & H2 & [= <- ->]).
    apply Iprim in H2 as (e2 & Hw2 & -> & Hd2). exists (ECmp op e e2). split_and!.
    + cbn [wf]. by rewrite Hw, Hw2.
    + cbn [print]. by rewrite <- app_assoc.
    + cbn [denote]. by rewrite Hd, Hd2.
  - intros ts v r. rewrite pprim_S. intros (a & t & H1 & H2)%then_Ok.
    apply Iatom in H1 as (e & Hw & -> & Hd).
    destruct (segs_ [] t) as [[segs r']|] eqn:Es; [|done]. injection H2 as <- ->.
    apply segments_sound in Es as (l & -> & ->).
    destruct (chain_sound l e a) as (e' & H1 & H2 & H3); [apply (wf_weaken 5); [lia|done]|done|].
    exists e'. rewrite H2, <- app_assoc. done.
  - intros ts v r. rewrite patom_S.
    destruct ts as [|[] ts]; try done;
      try (intros [= <- <-]; first [by exists (EStr s)|by exists (ENum f)]).
    + assert (∀ x ts' f, rmap f ts' = Ok (v, r) → x = ts' → r = x ∧ f = Ok v) as Hr
        by (intros x ts' [] ; simpl; [by intros [= <- <-] ->|done]).
      destruct ts as [|t0 ts]; [intros [= <- <-]; by exists (EWord s)|].
      assert (t0 = TLParen ∨ t0 ≠ TLParen) as [->|Hne] by (destruct t0; (by left) || by right).
      2: { destruct t0; try done; intros [= <- <-]; by exists (EWord s). }
      assert (∀ x, then_ (pargs n [] x) (λ args ts0,
          Some (rmap (call json_parse json_show show_f64 c s args) ts0)) = Some (Ok (v, r)) →
        ∃ e, wf 5 e = true ∧ TIdent s :: TLParen :: x = print e ++ r ∧ den e = Ok v) as Hx.
      { intros x (args & t & H1 & [= H2])%then_Ok.
        apply Iargs in H1 as (es & ws & _ & Hw & -> & Hd & ->). destruct (Hr t t _ H2 eq_refl) as [-> Hcall].
        exists (ECall s es). split_and!; [done| |].
        - cbn [print app]. by rewrite <- app_assoc.
        - rewrite denote_call, Hd. exact Hcall. }
      destruct ts as [|[] ts]; try exact (Hx _).
      intros [= H]. destruct (Hr ts ts _ H eq_refl) as [-> Hcall]. by exists (ECall s []).
    + intros (a & t & H1 & H2)%then_Ok. apply Ior in H1 as (e & Hw & -> & Hd).
      destruct t as [|[] t]; try done. injection H2 as <- <-. exists (EParen e).
      split_and!; [done| |done]. cbn [print app]. by rewrite <- app_assoc.
  - intros done_ ts vs r. rewrite pargs_S. intros (a & t & H1 & H2)%then_Ok.
    apply Ior in H1 as (e & Hw & -> & Hd). destruct t as [|[] t]; try done.
    + injection H2 as <- <-. exists [e], [a]. split_and!; [done| |done| |done].
      * cbn [forallb]. by rewrite Hw.
      * cbn [denote_args]. by rewrite Hd.
    + apply Iargs in H2 as (es & ws & Hne & Hws & -> & Hds & ->).
      exists (e :: es), (a :: ws). split_and!; [done| | | |by rewrite <- app_assoc].
      * cbn [forallb]. by rewrite Hw, Hws.
      * destruct es as [|e2 es]; [done|].
        change (commas (map print (e :: e2 :: es))) with (print e ++ TComma :: commas (map print (e2 :: es))).
        by rewrite <- app_assoc.
      * change (dargs (e :: es)) with (v <-? den e ;; vs <-? dargs es ;; Ok (v :: vs)).
        by rewrite Hd, Hds.
Qed.
End correct.

(** ** The closing braces of an expression *)

Section close.
(** What follows the expression. *)
Context (tail : string).
Abbreviation end_ := (String "}" (String "}" tail)).

(** A byte that neither opens a literal nor closes the expression. *)
Definition quiet (c : ascii) : bool :=
  negb (Ascii.eqb c "'") && negb (Ascii.eqb c "034") && negb (Ascii.eqb c "}").

(** [find_close], in state [q] on [s], is in state [q'] on [r]. *)
Definition moves (q q' : option ascii) (s r : string) : Prop :=
  ∃ k, String.length s = (k + String.length r)%nat ∧
       find_close q (s +:+ end_) = Nat.add k <$> find_close q' (r +:+ end_).

Lemma moves_refl q s : moves q q s s.
Proof. exists 0%nat. split; [done|]. by destruct (find_close _ _). Qed.

Lemma moves_trans q1 q2 q3 s r t : moves q1 q2 s r → moves q2 q3 r t → moves q1 q3 s t.
Proof.
  intros (k & Hk & E) (l & Hl & F). exists (k + l)%nat. split; [lia|].
  rewrite E, F. destruct (find_close q3 _); simpl; [|done]. f_equal. lia.
Qed.

Lemma moves_step q q' c s :
  find_close q (String c (s +:+ end_)) = S <$> find_close q' (s +:+ end_) → moves q q' (String c s) s.
Proof. intros H. exists 1%nat. split; [done|exact H]. Qed.

Lemma moves_quiet c s : quiet c = true → moves None None (String c s) s.
Proof.
  unfold quiet. rewrite !andb_true_iff, !negb_true_iff. intros [[H1 H2] H3].
  apply moves_step. cbn [find_close]. by rewrite H1, H2, H3.
Qed.

Lemma moves_all f s r :
  (∀ c, f c = true → quiet c = true) → Str.all f s = true → moves None None (s +:+ r) r.
Proof.
  intros Hf. induction s as [|c s IH]; [intros _; apply moves_refl|].
  cbn [Str.all]. rewrite andb_true_iff. intros [Hc Hs].
  change (String c s +:+ r) with (String c (s +:+ r)).
  eapply moves_trans; [apply moves_quiet; auto|auto].
Qed.

Lemma moves_literal q s lit r :
  literal q s = Some (lit, r) → moves (Some q) None s r.
Proof.
  assert (∀ n s lit r, (String.length s <= n)%nat → literal q s = Some (lit, r) →
    moves (Some q) None s r) as H; [|by apply (H (String.length s))].
  clear. induction n as [|n IH]; intros [|c s] lit r Hn; try done; [simpl in Hn; lia|].
  simpl in Hn. cbn [literal]. destruct (Ascii.eqb c q) eqn:Hc.
  - assert (Ascii.eqb q "'" && match s with String d _ => Ascii.eqb d "'" | "" => false end = false →
      moves (Some q) None (String c s) s) as Hclose.
    { intros Hd. apply moves_step. cbn [find_close]. rewrite Hc.
      destruct s as [|d s].
      - change ("" +:+ end_) with end_. cbv beta iota.
        change (Ascii.eqb "}" "'") with false. by rewrite andb_false_r.
      - change (String d s +:+ end_) with (String d (s +:+ end_)). cbv beta iota. by rewrite Hd. }
    destruct s as [|d s]; [intros [= _ <-]; apply Hclose; apply andb_false_r|].
    destruct (Ascii.eqb q "'" && Ascii.eqb d "'") eqn:Hd; [|intros [= _ <-]; by apply Hclose].
    intros ([l' r'] & H & [= _ <-])%bind_Some. simpl in Hn.
    apply IH in H as (k & Hk & E); [|lia]. exists (S (S k)). split; [simpl; lia|].
    change (String c (String d s) +:+ end_) with (String c (String d (s +:+ end_))).
    cbn [find_close]. rewrite Hc, Hd, E. by destruct (find_close None _).
  - intros ([l' r'] & H & [= _ <-])%bind_Some. apply IH in H; [|lia].
    eapply moves_trans; [|exact H]. apply moves_step. cbn [find_close]. by rewrite Hc.
Qed.

Lemma span_spec f s a b : F64.span f s = (a, b) → s = a +:+ b ∧ Str.all f a = true.
Proof.
  revert a b. induction s as [|c s IH]; intros a b; cbn [F64.span]; [by intros [= <- <-]|].
  destruct (f c) eqn:Hc; [|by intros [= <- <-]]. destruct (F64.span f s) as [a' b'].
  intros [= <- <-]. destruct (IH _ _ eq_refl) as [-> Ha]. split; [done|].
  cbn [Str.all]. by rewrite Hc.
Qed.

Lemma number_text_spec s a b :
  number_text s = (a, b) → s = a +:+ b ∧ Str.all (λ c, Str.is_ascii_digit c || Ascii.eqb c ".") a = true.
Proof.
  revert a b. induction s as [|c s IH]; intros a b; cbn [number_text]; [by intros [= <- <-]|].
  destruct (number_text s) as [a' b'] eqn:E. specialize (IH _ _ eq_refl) as [Hs Ha].
  assert (Str.is_ascii_digit c || Ascii.eqb c "." = true → (String c a', b') = (a, b) →
    String c s = a +:+ b ∧ Str.all (λ c, Str.is_ascii_digit c || Ascii.eqb c ".") a = true) as Hgo.
  { intros Hc [= <- <-]. rewrite Hs. split; [done|]. cbn [Str.all]. by rewrite Hc. }
  destruct (Str.is_ascii_digit c); [by apply Hgo|].
  destruct (Ascii.eqb c "."); [|by intros [= <- <-]].
  destruct s as [|d s]; [by intros [= <- <-]|].
  destruct (Str.is_ascii_digit d); [by apply Hgo|by intros [= <- <-]].
Qed.

Lemma quiet_whitespace c : is_ascii_whitespace c = true → quiet c = true.
Proof. destruct c as [[] [] [] [] [] [] [] []]; vm_compute; done. Qed.
Lemma quiet_number c : Str.is_ascii_digit c || Ascii.eqb c "." = true → quiet c = true.
Proof. destruct c as [[] [] [] [] [] [] [] []]; vm_compute; done. Qed.
Lemma quiet_ident c : ident_char c = true → quiet c = true.
Proof. destruct c as [[] [] [] [] [] [] [] []]; vm_compute; done. Qed.

Lemma moves_two c d s :
  quiet c = true → quiet d = true →
  match s with String e _ => Ascii.eqb e d | "" => false end = true →
  moves None None (String c s) (Str.drop 1 s).
Proof.
  intros Hc Hd. destruct s as [|e s]; [done|]. intros ->%Ascii.eqb_eq.
  eapply moves_trans; by apply moves_quiet.
Qed.

Lemma moves_token c s t r : next_token c s = Ok (t, r) → moves None None (String c s) r.
Proof.
  unfold next_token.
  destruct (is_ascii_whitespace c) eqn:Hws.
  { intros [= _ <-]. by apply moves_quiet, quiet_whitespace. }
  repeat match goal with
  | |- (if Ascii.eqb c ?d && ?b then _ else _) = _ → _ =>
    destruct (Ascii.eqb c d && b) eqn:Htwo;
      [apply andb_true_iff in Htwo as [->%Ascii.eqb_eq Htwo]; intros [= _ <-]; by eapply moves_two; [..|exact Htwo]
      |clear Htwo]
  | |- (if Ascii.eqb c ?d then _ else _) = _ → _ =>
    destruct (Ascii.eqb_spec c d) as [->|_]; [intros [= _ <-]; by apply moves_quiet|]
  end.
  destruct (Ascii.eqb c "'" || Ascii.eqb c "034") eqn:Hq.
  { destruct (literal c s) as [[lit r']|] eqn:E; [|done]. intros [= _ <-].
    eapply moves_trans; [|by eapply moves_literal]. apply moves_step. cbn [find_close]. by rewrite Hq. }
  destruct (Str.is_ascii_digit c) eqn:Hdig.
  { destruct (number_text (String c s)) as [a b] eqn:E. destruct (F64.parse a); [|done].
    intros [= _ <-]. apply number_text_spec in E as [-> Ha].
    by apply (moves_all _ _ _ quiet_number). }
  destruct (ident_char c) eqn:Hid; [|done].
  destruct (F64.span ident_char (String c s)) as [a b] eqn:E. intros [= _ <-].
  apply span_spec in E as [-> Ha]. by apply (moves_all _ _ _ quiet_ident).
Qed.

(** An expression that tokenizes ends where its closing braces are. *)
Lemma close_found s ts :
  tokenize s = Some (Ok ts) → find_close None (s +:+ end_) = Some (String.length s).
Proof.
  unfold tokenize. intros H.
  assert (moves None None s "") as (k & Hk & E).
  { revert H. generalize (S (String.length s)). intros n. revert s ts.
    induction n as [|n IH]; intros s ts; [done|]. cbn [tokenize_loop].
    destruct s as [|c s]; [intros; apply moves_refl|].
    destruct (next_token c s) as [[t r]|] eqn:E; [|done].
    destruct (tokenize_loop n r) as [[ts'|]|] eqn:F; try done. intros _.
    eapply moves_trans; [by eapply moves_token|by eapply IH]. }
  rewrite E, Hk. simpl. f_equal; lia.
Qed.
End close.

Lemma split_once_open t body :
  Str.contains "${{" t = false → Chars.split_once "${{" (t +:+ "${{" +:+ body) = Some (t, body).
Proof.
  induction t as [|c t IH]; [done|]. cbn [Str.contains]. intros [H1 H2]%orb_false_iff.
  change (String c t +:+ "${{" +:+ body) with (String c (t +:+ "${{" +:+ body)).
  cbn [Chars.split_once]. rewrite (IH H2).
  destruct (Str.strip_prefix "${{" (String c (t +:+ "${{" +:+ body))) as [r|] eqn:E; [|done].
  exfalso. apply Str.strip_prefix_spec in E. injection E as -> E.
  destruct t as [|c1 t]; [done|]. injection E as -> E. destruct t as [|c2 t]; [done|].
  injection E as -> E. done.
Qed.

Lemma split_once_text t : Str.contains "${{" t = false → Chars.split_once "${{" t = None.
Proof.
  induction t as [|c t IH]; [done|]. cbn [Str.contains]. intros [H1 H2]%orb_false_iff.
  cbn [Chars.split_once]. rewrite (IH H2). unfold Str.starts_with in H1.
  by destruct (Str.strip_prefix "${{" (String c t)).
Qed.

(** ** What expressions mean *)

Section theorems.
Context (json_parse : string → option Value) (json_show : Value → string)
  (show_f64 : spec_float → string).

Abbreviation evaluate := (eval json_parse json_show show_f64).
Abbreviation meaning := (denote json_parse json_show show_f64).
Abbreviation shown := (to_display json_show show_f64).

Lemma eval_loop_total c s : is_Some (eval_loop json_parse json_show show_f64 c s).
Proof.
  unfold eval_loop. pose proof (tokenize_total s) as Ht.
  destruct (tokenize s) as [[ts|e]|]; [|by eexists|done].
  pose proof (proj1 (parse_total json_parse json_show show_f64 c (enough ts)) ts) as Hp.
  destruct (parse_or _ _ _ _ _ ts) as [[[v [|t r]]|e]|]; try by eexists.
  exfalso. apply Hp; [unfold enough; lia|done].
Qed.

Lemma eval_tokens c s ts :
  tokenize s = Some (Ok ts) →
  (∀ e, wf 0 e = true → print e = ts → evaluate c s = meaning c e) ∧
  (∀ v, evaluate c s = Ok v → ∃ e, wf 0 e = true ∧ print e = ts ∧ meaning c e = Ok v).
Proof.
  intros Ht. pose proof (eval_loop_total c s) as [r Hr].
  assert (evaluate c s = r) as -> by (unfold eval; by rewrite Hr). revert Hr. unfold eval_loop. rewrite Ht. intros Hr. split.
  - intros e Hw <-. rewrite parse_complete in Hr by done.
    destruct (meaning c e); cbn [rmap] in Hr; by injection Hr as ->.
  - intros v ->. destruct (parse_or _ _ _ _ _ ts) as [[[v' [|t r]]|e]|] eqn:E; try done.
    injection Hr as ->. apply parse_sound in E as (e & Hw & -> & Hd).
    exists e. by rewrite app_nil_r.
Qed.

(** Evaluation is total: for every text the tokenizer and the recursive-descent parser
    end with a value or an error, within the fuel the model gives them. *)
Theorem eval_total c s : eval_loop json_parse json_show show_f64 c s = Some (evaluate c s).
Proof. unfold eval. by destruct (eval_loop_total c s) as [r ->]. Qed.

(** C38. Precedence and grouping: evaluating a text yields the value [v] exactly when its
    tokens are those of an expression of the grammar ([||] below [&&] below [!] below one
    comparison below property access, the binary operators grouping to the left) that
    denotes [v]; and an expression that denotes an error evaluates to that error. *)
Theorem eval_is_the_grammar c s ts :
  tokenize s = Some (Ok ts) →
  (∀ v, evaluate c s = Ok v ↔ ∃ e, wf 0 e = true ∧ print e = ts ∧ meaning c e = Ok v) ∧
  (∀ e x, wf 0 e = true → print e = ts → meaning c e = Err x → evaluate c s = Err x).
Proof.
  intros [H1 H2]%(eval_tokens c). split; [|intros e x Hw Hp <-; by apply H1].
  intros v. split; [apply H2|]. intros (e & Hw & Hp & <-). by apply H1.
Qed.

(** What [substitute] puts for an expression: its value, or its own text if it has none. *)
Definition replaced (c : gmap string Value) (expr : string) : string :=
  match evaluate c expr with
  | Ok v => shown v
  | Err _ => "${{" +:+ expr +:+ "}}"
  end.

(** A text in pieces: literal text before each expression, and literal text at the end. *)
Fixpoint template (holes : list (string * string)) (last : string) : string :=
  match holes with
  | [] => last
  | (text, expr) :: holes => text +:+ "${{" +:+ expr +:+ "}}" +:+ template holes last
  end.
Fixpoint filled (c : gmap string Value) (holes : list (string * string)) (last : string) : string :=
  match holes with
  | [] => last
  | (text, expr) :: holes => text +:+ replaced c expr +:+ filled c holes last
  end.

Definition lexes (s : string) : bool :=
  match tokenize s with Some (Ok _) => true | _ => false end.
Definition literal_text (s : string) : bool := negb (Str.contains "${{" s).
Definition fillable (holes : list (string * string)) (last : string) : bool :=
  forallb (λ h, literal_text (fst h) && lexes (snd h)) holes && literal_text last.

Lemma substitute_loop_spec c holes last n :
  fillable holes last = true → (length holes < n)%nat →
  substitute_loop json_parse json_show show_f64 c n (template holes last) = Some (filled c holes last).
Proof.
  unfold fillable. rewrite andb_true_iff. intros [Hh Hl%negb_true_iff]. revert n.
  induction holes as [|[text expr] holes IH]; intros [|n] Hn; simpl in Hn; try lia;
    cbn [substitute_loop template filled].
  - by rewrite split_once_text.
  - cbn [forallb fst snd] in Hh.
    apply andb_true_iff in Hh as [[Ht%negb_true_iff Hx]%andb_true_iff Hh].
    rewrite split_once_open by done. unfold lexes in Hx.
    destruct (tokenize expr) as [[ts|]|] eqn:E; try done.
    change ("}}" +:+ template holes last) with (String "}" (String "}" (template holes last))).
    rewrite (close_found _ _ _ E).
    assert (expr +:+ String "}" (String "}" (template holes last)) =
      (expr +:+ "}}") +:+ template holes last) as -> by (by rewrite Str.append_assoc).
    assert (String.length expr + 2 = String.length (expr +:+ "}}"))%nat as ->
      by (rewrite Trim.length_append; simpl; lia).
    rewrite Str.drop_app, IH by (done || lia). cbn [mbind option_bind].
    rewrite Str.take_app, Str.append_assoc, Str.take_app. done.
Qed.

Lemma template_length holes last : (length holes <= String.length (template holes last))%nat.
Proof.
  induction holes as [|[text expr] holes IH]; [simpl; lia|].
  cbn [length template]. rewrite !Trim.length_append. simpl. lia.
Qed.

(** Substitution fills a template: literal text stays as it is, and every [${{ e }}] whose
    expression tokenizes becomes the value of [e] as text, or stays verbatim when [e] has no
    value; braces inside a string literal of [e] do not end it. An opening that is never
    closed leaves the rest of the text as it is. *)
Theorem substitute_fills c holes last :
  fillable holes last = true →
  substitute json_parse json_show show_f64 c (template holes last) = filled c holes last ∧
  (∀ body, find_close None body = None →
     substitute json_parse json_show show_f64 c (last +:+ "${{" +:+ body) = last +:+ "${{" +:+ body).
Proof.
  intros H. unfold substitute. split.
  - rewrite (substitute_loop_spec c holes last) by (done || pose proof (template_length holes last); lia).
    done.
  - intros body Hb. unfold fillable in H. apply andb_true_iff in H as [_ Hl%negb_true_iff].
    cbn [substitute_loop]. by rewrite split_once_open, Hb.
Qed.
End theorems.

(** ** Instances *)

(** [serde_json] on inputs where it is not asked anything. *)
Definition no_parse (s : string) : option Value := None.
Definition no_show (v : Value) : string := "".
Definition no_float (f : spec_float) : string := "".

Definition sample : gmap string Value :=
  {[ "a" := VString "x"; "b" := VString "z"; "c" := VString "z";
     "matrix" := VObject [("name", VString "é"); ("target", VString "x86")] ]}.

Definition eq_word (w s : string) : Expr := ECmp OpEq (EWord w) (EStr s).

(** [&&] binds tighter than [||], whichever comes first. *)
Lemma eval_is_the_grammar_witness :
  let s := "a == 'x' || b == 'y' && c == 'z'" in
  let e := EOr (eq_word "a" "x") (EAnd (eq_word "b" "y") (eq_word "c" "z")) in
  tokenize s = Some (Ok (print e)) ∧ wf 0 e = true ∧
  eval no_parse no_show no_float sample s = Ok (VBool true).
Proof.
  split; [vm_compute; reflexivity|]. split; [reflexivity|].
  apply (eval_is_the_grammar no_parse no_show no_float sample _
    (print (EOr (eq_word "a" "x") (EAnd (eq_word "b" "y") (eq_word "c" "z"))))).
  - vm_compute; reflexivity.
  - eexists. split; [|split; [reflexivity|vm_compute; reflexivity]]. reflexivity.
Defined.

Lemma substitute_fills_witness :
  substitute no_parse no_show no_float sample
    "--t ${{ matrix.target }} --f ${{ format('{0}}}', a) }} ${{ nope( }}" =
  "--t x86 --f x}} ${{ nope( }}".
Proof.
  apply (substitute_fills no_parse no_show no_float sample
    [("--t ", " matrix.target "); (" --f ", " format('{0}}}', a) "); (" ", " nope( ")] "").
  vm_compute. reflexivity.
Defined.

(** A string literal with a non-ASCII character is read byte by byte as Latin-1, so it is
    not equal to the same text coming from the context. *)
Theorem non_ascii_literal_is_mangled :
  lookup_path sample ["matrix"; "name"] = VString "é" ∧
  eval no_parse no_show no_float sample "matrix.name == 'é'" = Ok (VBool false) ∧
  eval no_parse no_show no_float sample "'é'" = Ok (VString "Ã©").
Proof. split_and!; vm_compute; reflexivity. Qed.
