(* ===== verification/LbTokens.v ===== *)
(** * App-tokens: [app-lb/src/tokens.rs] and its handlers in [app-lb/src/admin.rs]

    The store of minted credentials, its file, and the mint, list, patch and revoke
    handlers with every way a write to disk can fail. *)
From Stdlib Require Import Ascii String ZArith Lia Bool Sorting.Sorted.
From stdpp Require Import base option list strings gmap fin_maps.
From S2P Require Import Prelude.
Open Scope string_scope.
Open Scope list_scope.

Definition PREFIX : string := "applb_".
Definition ID_LEN : nat := 12.
Definition SECRET_BYTES : nat := 32.

(** ** Scopes *)

Inductive AdminScope : Type := ScopeNone | ScopeView | ScopeAdmin.

#[export] Instance AdminScope_eq_dec : EqDecision AdminScope.
Proof. solve_decision. Defined.

Definition as_str (s : AdminScope) : string :=
  match s with ScopeNone => "none" | ScopeView => "view" | ScopeAdmin => "admin" end.

(** [self.satisfies(want)]. *)
Definition satisfies (self want : AdminScope) : bool :=
  match want with
  | ScopeNone => true
  | ScopeView => match self with ScopeView | ScopeAdmin => true | ScopeNone => false end
  | ScopeAdmin => match self with ScopeAdmin => true | _ => false end
  end.

(** ** Tokens

    [live_last_used] is an [Arc<AtomicU64>] that the clones of a token share: it is the
    index of a cell of the process. *)
Record AppToken : Type := {
  id : string;
  name : string;
  admin : AdminScope;
  namespace : option string;
  deployments : list string;
  created_at : Z;
  expires_at : option Z;
  hash : string;
  last_used_at : Z;
  live_last_used : nat;
}.

Definition allows (t : AppToken) (deployment : string) : bool :=
  existsb (λ d, String.eqb d "*" || String.eqb d deployment) (deployments t).

Definition admits (t : AppToken) (deployment deployment_namespace : string) : bool :=
  match namespace t with
  | None => allows t deployment
  | Some ns =>
    String.eqb ns deployment_namespace &&
    (match deployments t with [] => true | _ => false end || allows t deployment)
  end.

Definition covers_fleet (t : AppToken) : bool :=
  match namespace t with None => existsb (String.eqb "*") (deployments t) | Some _ => false end.

Definition expired (expires : option Z) (now : Z) : bool :=
  match expires with Some e => (e <=? now)%Z | None => false end.
Definition expired_at (t : AppToken) (now : Z) : bool := expired (expires_at t) now.

Record TokenSummary : Type := {
  s_id : string; s_name : string; s_admin : AdminScope; s_namespace : option string;
  s_deployments : list string; s_created_at : Z; s_expires_at : option Z;
  s_last_used_at : option Z;
}.

Record NewToken : Type := {
  n_name : string; n_admin : AdminScope; n_namespace : option string;
  n_deployments : list string; n_expires_in_secs : option Z;
}.

Record TokenPatch : Type := {
  p_name : option string; p_admin : option AdminScope;
  p_namespace : option (option string); p_deployments : option (list string);
  p_expires_at : option (option Z);
}.

Inductive TokenError : Type :=
| EmptyName
| NameTooLong
| NoToken (id : string)
| BadScope (s : string)
| BadNamespace (s : string)
| Io (e : string)
| Json (e : string)
| UnknownFormat (version : Z).

(** ** The store

    [tokens] is the map the swap holds; [cells] are the atomics of the process. *)
Record TokenStore : Type := {
  tokens : gmap string AppToken;
  cells : list Z;
}.

Definition new : TokenStore := {| tokens := ∅; cells := [] |}.

Definition load_cell (st : TokenStore) (i : nat) : Z := default 0%Z (cells st !! i).
Definition touch (st : TokenStore) (t : AppToken) (now : Z) : TokenStore :=
  {| tokens := tokens st; cells := <[live_last_used t := now]> (cells st) |}.
Definition last_used (st : TokenStore) (t : AppToken) : Z :=
  Z.max (load_cell st (live_last_used t)) (last_used_at t).

Definition summary (st : TokenStore) (t : AppToken) : TokenSummary :=
  {| s_id := id t; s_name := name t; s_admin := admin t; s_namespace := namespace t;
     s_deployments := deployments t; s_created_at := created_at t; s_expires_at := expires_at t;
     s_last_used_at := let n := last_used st t in if (n =? 0)%Z then None else Some n |}.

Definition mutate (st : TokenStore) (f : gmap string AppToken → gmap string AppToken) : TokenStore :=
  {| tokens := f (tokens st); cells := cells st |}.

(** ** Validation *)

Definition scope_char (c : ascii) : bool :=
  Str.is_ascii_alphanumeric c || Ascii.eqb c "-" || Ascii.eqb c "_" || Ascii.eqb c ".".

Definition scope_entry_ok (s : string) : bool :=
  String.eqb s "*" || negb (String.eqb s "") && Str.all scope_char s.

Fixpoint validate_scope (scope : list string) : result TokenError unit :=
  match scope with
  | [] => Ok tt
  | s :: rest => if scope_entry_ok s then validate_scope rest else Err (BadScope s)
  end.

(** [config::is_valid_namespace]. *)
Definition is_valid_namespace (ns : string) : bool :=
  negb (String.eqb ns "") && negb (String.eqb ns ".") && negb (String.eqb ns "..") &&
  Str.all scope_char ns.

Definition validate_namespace (ns : option string) : result TokenError unit :=
  match ns with
  | Some ns => if is_valid_namespace ns then Ok tt else Err (BadNamespace ns)
  | None => Ok tt
  end.

Definition validate_name (n : string) : result TokenError unit :=
  bail_if (String.eqb n "") EmptyName ;;?
  bail_if (128 <? length (Chars.chars n))%nat NameTooLong.

(** ** Secrets *)

Definition hex_digit (n : N) : ascii :=
  if (n <? 10)%N then ascii_of_N (48 + n) else ascii_of_N (87 + n).
Fixpoint hex (l : list N) : string :=
  match l with
  | [] => ""
  | b :: l' => String (hex_digit (b / 16 mod 16)) (String (hex_digit (b mod 16)) (hex l'))
  end.

(** [random_hex], on the bytes the generator gave. *)
Definition random_hex (entropy : list N) : string := hex (take (ID_LEN / 2) entropy).

(** [split]: the id and the secret of a presented token. *)
Definition split (presented : string) : option (string * string) :=
  rest ← Str.strip_prefix PREFIX presented;
  '(i, secret) ← Chars.split_once "_" rest;
  if negb (String.length i =? ID_LEN)%nat || String.eqb secret "" then None
  else if negb (Str.all Str.is_ascii_hexdigit i) then None
  else Some (i, secret).

(** [admin::ct_eq]: every byte is looked at, whatever the outcome. *)
Definition ct_eq (a b : string) : bool :=
  (String.length a =? String.length b)%nat &&
  (foldl (λ diff '(x, y), N.lor diff (N.lxor (N_of_ascii x) (N_of_ascii y))) 0%N
     (zip (list_ascii_of_string a) (list_ascii_of_string b)) =? 0)%N.

Section crypto.
(** [sha2] and [base64]. *)
Context (sha256 : string → list N) (url_safe_no_pad : list N → string).

Definition hash_secret (secret : string) : string := hex (sha256 secret).
Definition random_b64 (entropy : list N) : string := url_safe_no_pad (take SECRET_BYTES entropy).

(** ** Operations *)

(** What a mint draws from the generator: the id, then the secret. *)
Record Entropy : Type := { for_id : list N; for_secret : list N }.

Definition mint (st : TokenStore) (req : NewToken) (now : Z) (rnd : Entropy) :
    result TokenError (TokenSummary * string) * TokenStore :=
  let n := Chars.trim (n_name req) in
  match validate_name n ;;? validate_scope (n_deployments req) ;;?
        validate_namespace (n_namespace req) with
  | Err e => (Err e, st)
  | Ok _ =>
    let i := random_hex (for_id rnd) in
    let secret := random_b64 (for_secret rnd) in
    let st := {| tokens := tokens st; cells := cells st ++ [0%Z] |} in
    let t := {| id := i; name := n; admin := n_admin req; namespace := n_namespace req;
                deployments := n_deployments req; created_at := now;
                expires_at := U64.saturating_add now <$> n_expires_in_secs req;
                hash := hash_secret secret; last_used_at := 0;
                live_last_used := length (cells st) - 1 |} in
    (Ok (summary st t, PREFIX +:+ i +:+ "_" +:+ secret), mutate st <[i := t]>)
  end.

Definition get (st : TokenStore) (i : string) : option AppToken := tokens st !! i.

Definition restore (st : TokenStore) (t : AppToken) : TokenStore := mutate st <[id t := t]>.

(** The order of a listing and of the file. *)
Definition by_age (a b : AppToken) : comparison :=
  match Z.compare (created_at a) (created_at b) with
  | Eq => String.compare (id a) (id b)
  | c => c
  end.

Definition sorted_tokens (m : gmap string AppToken) : list AppToken :=
  sort_by by_age (snd <$> map_to_list m).

Definition list_ (st : TokenStore) : list TokenSummary := summary st <$> sorted_tokens (tokens st).

Definition revoke (st : TokenStore) (i : string) : bool * TokenStore :=
  (is_some (tokens st !! i), mutate st (delete i)).

Definition apply_patch (st : TokenStore) (t : AppToken) (p : TokenPatch) : AppToken :=
  {| id := id t;
     name := match p_name p with Some n => Chars.trim n | None => name t end;
     admin := default (admin t) (p_admin p);
     namespace := default (namespace t) (p_namespace p);
     deployments := default (deployments t) (p_deployments p);
     created_at := created_at t;
     expires_at := default (expires_at t) (p_expires_at p);
     hash := hash t; last_used_at := last_used st t; live_last_used := live_last_used t |}.

Definition patch (st : TokenStore) (i : string) (p : TokenPatch) :
    result TokenError TokenSummary * TokenStore :=
  match (match p_deployments p with Some s => validate_scope s | None => Ok tt end ;;?
         match p_namespace p with Some ns => validate_namespace ns | None => Ok tt end ;;?
         match p_name p with Some n => validate_name (Chars.trim n) | None => Ok tt end) with
  | Err e => (Err e, st)
  | Ok _ =>
    match get st i with
    | None => (Err (NoToken i), st)
    | Some existing =>
      let next := apply_patch st existing p in
      (Ok (summary st next), mutate st <[i := next]>)
    end
  end.

Definition verify (st : TokenStore) (presented : string) (now : Z) : option AppToken * TokenStore :=
  match split presented with
  | None => (None, st)
  | Some (i, secret) =>
    match tokens st !! i with
    | None => (None, st)
    | Some t =>
      if negb (ct_eq (hash_secret secret) (hash t)) || expired_at t now then (None, st)
      else (Some t, touch st t now)
    end
  end.

Definition sweep_expired (st : TokenStore) (now : Z) : nat * TokenStore :=
  let expired := List.filter (λ t, expired_at t now) (snd <$> map_to_list (tokens st)) in
  match expired with
  | [] => (O, st)
  | _ => (length expired, mutate st (λ m, foldl (λ m t, delete (id t) m) m expired))
  end.
End crypto.

(** ** The file *)

(** A token as [serde] writes it: everything but the live cell. *)
Record StoredToken : Type := {
  f_id : string; f_name : string; f_admin : AdminScope; f_namespace : option string;
  f_deployments : list string; f_created_at : Z; f_expires_at : option Z; f_hash : string;
  f_last_used_at : Z;
}.
Record TokenFile : Type := { version : Z; file_tokens : list StoredToken }.

Definition to_stored (st : TokenStore) (t : AppToken) : StoredToken :=
  {| f_id := id t; f_name := name t; f_admin := admin t; f_namespace := namespace t;
     f_deployments := deployments t; f_created_at := created_at t; f_expires_at := expires_at t;
     f_hash := hash t; f_last_used_at := last_used st t |}.
Definition of_stored (live : nat) (f : StoredToken) : AppToken :=
  {| id := f_id f; name := f_name f; admin := f_admin f; namespace := f_namespace f;
     deployments := f_deployments f; created_at := f_created_at f; expires_at := f_expires_at f;
     hash := f_hash f; last_used_at := f_last_used_at f; live_last_used := live |}.

Definition to_file (st : TokenStore) : TokenFile :=
  {| version := 1; file_tokens := to_stored st <$> sorted_tokens (tokens st) |}.

(** What is at the store's path and at its temporary path: the bytes, and for the temporary
    file whether only its owner may read it. *)
Record Disk : Type := { main : option string; tmp : option (string * bool) }.

(** How a system call ends: it works, or it fails, a write having put [kept] bytes. *)
Inductive Fault : Type :=
| Fine
| Fails (e : string) (kept : nat).

Section file.
(** [serde_json] on a [TokenFile]. *)
Context (encode : TokenFile → result string string) (decode : string → result string TokenFile).

(** The system calls of [persist]: make the directory, create the temporary file empty,
    restrict it, write it, rename it. [create_dir_all] is only called for a path that has a
    parent; it changes neither file. *)
Record Faults : Type := { mkdir : Fault; create : Fault; chmod : Fault; write : Fault; rename : Fault }.

Definition persist (st : TokenStore) (fs : Faults) (d : Disk) : result TokenError unit * Disk :=
  match encode (to_file st) with
  | Err e => (Err (Json e), d)
  | Ok json =>
    match mkdir fs with
    | Fails e _ => (Err (Io e), d)
    | Fine =>
      let restricted := match tmp d with Some (_, r) => r | None => false end in
      match create fs with
      | Fails e k =>
        (Err (Io e), if (k =? 0)%nat then d else {| main := main d; tmp := Some ("", restricted) |})
      | Fine =>
        match chmod fs with
        | Fails e _ => (Err (Io e), {| main := main d; tmp := Some ("", restricted) |})
        | Fine =>
          match write fs with
          | Fails e k => (Err (Io e), {| main := main d; tmp := Some (Str.take k json, true) |})
          | Fine =>
            match rename fs with
            | Fails e _ => (Err (Io e), {| main := main d; tmp := Some (json, true) |})
            | Fine => (Ok tt, {| main := Some json; tmp := None |})
            end
          end
        end
      end
    end
  end.

(** A token per entry of the file, each with a cell of its own; a later entry for an id
    replaces an earlier one. *)
Fixpoint load_tokens (st : TokenStore) (l : list StoredToken) : TokenStore :=
  match l with
  | [] => st
  | f :: l' =>
    load_tokens {| tokens := <[f_id f := of_stored (length (cells st)) f]> (tokens st);
                   cells := cells st ++ [f_last_used_at f] |} l'
  end.

(** [load]; [unreadable] is an error of the read other than a missing file. *)
Definition load (st : TokenStore) (unreadable : option string) (d : Disk) :
    result TokenError nat * TokenStore :=
  match unreadable with
  | Some e => (Err (Io e), st)
  | None =>
    match main d with
    | None => (Ok O, st)
    | Some bytes =>
      match decode bytes with
      | Err e => (Err (Json e), st)
      | Ok file =>
        if negb (version file =? 1)%Z then (Err (UnknownFormat (version file)), st)
        else (Ok (length (file_tokens file)),
              load_tokens {| tokens := ∅; cells := cells st |} (file_tokens file))
      end
    end
  end.
End file.

(** ** The handlers *)

(** [token_error]: the status of a refusal. *)
Definition token_error (e : TokenError) : Z :=
  match e with
  | NoToken _ => 404
  | EmptyName | NameTooLong | BadScope _ => 400
  | _ => 500
  end.

Inductive Reply : Type :=
| Minted (s : TokenSummary) (token : string)
| Summary (s : TokenSummary)
| Listing (l : list TokenSummary)
| NoContent
| Refused (status : Z).

Section handlers.
Context (sha256 : string → list N) (url_safe_no_pad : list N → string).
Context (encode : TokenFile → result string string) (decode : string → result string TokenFile).

(** The process's store and the disk under it. *)
Record World : Type := { store : TokenStore; disk : Disk }.
Definition with_store (w : World) (st : TokenStore) : World := {| store := st; disk := disk w |}.

(** [persist_tokens]: a failure is a 500. *)
Definition persist_tokens (w : World) (fs : Faults) : bool * World :=
  let '(r, d) := persist encode (store w) fs (disk w) in
  (is_ok r, {| store := store w; disk := d |}).

Definition mint_token (w : World) (req : NewToken) (now : Z) (rnd : Entropy) (fs : Faults) :
    Reply * World :=
  match mint sha256 url_safe_no_pad (store w) req now rnd with
  | (Err e, st) => (Refused (token_error e), with_store w st)
  | (Ok (s, token), st) =>
    match persist_tokens (with_store w st) fs with
    | (false, w) => (Refused 500, with_store w (snd (revoke (store w) (s_id s))))
    | (true, w) => (Minted s token, w)
    end
  end.

Definition sweep_and_save (w : World) (now : Z) (fs : Faults) : World :=
  let '(n, st) := sweep_expired (store w) now in
  if (0 <? n)%nat then snd (persist_tokens (with_store w st) fs) else with_store w st.

Definition list_tokens (w : World) (now : Z) (fs : Faults) : Reply * World :=
  let w := sweep_and_save w now fs in (Listing (list_ (store w)), w).

Definition get_token (w : World) (i : string) : Reply :=
  match get (store w) i with
  | Some t => Summary (summary (store w) t)
  | None => Refused 404
  end.

Definition undo (w : World) (before : option AppToken) : World :=
  match before with Some t => with_store w (restore (store w) t) | None => w end.

Definition patch_token (w : World) (i : string) (p : TokenPatch) (fs : Faults) : Reply * World :=
  let before := get (store w) i in
  match patch (store w) i p with
  | (Err e, st) => (Refused (token_error e), with_store w st)
  | (Ok s, st) =>
    match persist_tokens (with_store w st) fs with
    | (false, w) => (Refused 500, undo w before)
    | (true, w) => (Summary s, w)
    end
  end.

Definition revoke_token (w : World) (i : string) (fs : Faults) : Reply * World :=
  let before := get (store w) i in
  match revoke (store w) i with
  | (false, st) => (Refused 404, with_store w st)
  | (true, st) =>
    match persist_tokens (with_store w st) fs with
    | (false, w) => (Refused 500, undo w before)
    | (true, w) => (NoContent, w)
    end
  end.

(** What [main] does with the store as the process starts; [None] is its panic. *)
Definition start_up (d : Disk) (now : Z) (fs : Faults) : option World :=
  match load decode new None d with
  | (Err _, _) => None
  | (Ok _, st) => Some (sweep_and_save {| store := st; disk := d |} now fs)
  end.

(** ** Runs *)

Inductive Event : Type :=
| EMint (req : NewToken) (now : Z) (rnd : Entropy) (fs : Faults)
| EList (now : Z) (fs : Faults)
| EPatch (i : string) (p : TokenPatch) (fs : Faults)
| ERevoke (i : string) (fs : Faults)
| EVerify (presented : string) (now : Z)
| ERestart (now : Z) (fs : Faults).

Definition step (w : World) (e : Event) : option World :=
  match e with
  | EMint req now rnd fs => Some (snd (mint_token w req now rnd fs))
  | EList now fs => Some (snd (list_tokens w now fs))
  | EPatch i p fs => Some (snd (patch_token w i p fs))
  | ERevoke i fs => Some (snd (revoke_token w i fs))
  | EVerify s now => Some (with_store w (snd (verify sha256 (store w) s now)))
  | ERestart now fs => start_up (disk w) now fs
  end.

(** The time of an event that looks at the clock. *)
Definition event_time (e : Event) : option Z :=
  match e with
  | EMint _ now _ _ | EList now _ | EVerify _ now | ERestart now _ => Some now
  | _ => None
  end.

(** The id a mint draws. *)
Definition minted_id (e : Event) : option string :=
  match e with EMint _ _ rnd _ => Some (random_hex (for_id rnd)) | _ => None end.

(** The generator fills its buffer, and gives an id no token has. *)
Definition entropy_ok (w : World) (e : Event) : Prop :=
  match e with
  | EMint _ _ rnd _ => length (for_id rnd) = 6%nat ∧ tokens (store w) !! random_hex (for_id rnd) = None
  | _ => True
  end.

(** A run: the clock does not go back. *)
Inductive runs : Z → World → list Event → Z → World → Prop :=
| runs_nil (T : Z) (w : World) : runs T w [] T w
| runs_cons (T : Z) (w : World) (e : Event) (w' : World) (es : list Event) (T'' : Z) (w'' : World) :
    (T <= default T (event_time e))%Z → entropy_ok w e → step w e = Some w' →
    runs (default T (event_time e)) w' es T'' w'' → runs T w (e :: es) T'' w''.

Definition fresh_world : World := {| store := new; disk := {| main := None; tmp := None |} |}.
Definition reachable (T : Z) (w : World) : Prop := ∃ T0 es, runs T0 fresh_world es T w.
End handlers.

(** ** Well-formed tokens *)

Definition is_lower_hex (c : ascii) : bool := Str.in_range 48 57 c || Str.in_range 97 102 c.

Definition wf_token (t : AppToken) : Prop :=
  String.length (id t) = ID_LEN ∧ Str.all is_lower_hex (id t) = true ∧
  name t ≠ "" ∧ Chars.trim (name t) = name t ∧ (length (Chars.chars (name t)) <= 128)%nat ∧
  validate_scope (deployments t) = Ok tt ∧ validate_namespace (namespace t) = Ok tt.

(** A token without what changes as it is used: what was issued. *)
Definition issued (t : AppToken) : AppToken :=
  {| id := id t; name := name t; admin := admin t; namespace := namespace t;
     deployments := deployments t; created_at := created_at t; expires_at := expires_at t;
     hash := hash t; last_used_at := 0; live_last_used := 0 |}.

Definition wf_store (st : TokenStore) : Prop :=
  ∀ i t, tokens st !! i = Some t →
    id t = i ∧ wf_token t ∧ (live_last_used t < length (cells st))%nat.

Definition credentials (st : TokenStore) : gmap string AppToken := issued <$> tokens st.

(** *** Issued tokens *)

Lemma issued_of_stored k st t : issued (of_stored k (to_stored st t)) = issued t.
Proof. done. Qed.

Lemma wf_issued t u : issued t = issued u → wf_token t → wf_token u.
Proof. unfold issued, wf_token. intros [=]. congruence. Qed.

Lemma expired_issued t u now : issued t = issued u → expired_at t now = expired_at u now.
Proof. unfold issued, expired_at. intros [=]. congruence. Qed.

Lemma sorted_tokens_elem m t : t ∈ sorted_tokens m ↔ ∃ i, m !! i = Some t.
Proof.
  unfold sorted_tokens. rewrite sort_by_perm, list_elem_of_fmap. split.
  - intros ([i u] & -> & H%elem_of_map_to_list). by exists i.
  - intros [i H]. exists (i, t). split; [done|]. by apply elem_of_map_to_list.
Qed.

Lemma load_tokens_spec st l i :
  issued <$> tokens (load_tokens st l) !! i =
  match List.find (λ f, String.eqb (f_id f) i) (rev l) with
  | Some f => Some (issued (of_stored 0 f))
  | None => issued <$> tokens st !! i
  end.
Proof.
  revert st. induction l as [|f l IH]; intros st; [done|].
  cbn [load_tokens rev]. rewrite IH, find_app. simpl.
  destruct (List.find _ (rev l)); [done|]. cbn [List.find].
  destruct (String.eqb_spec (f_id f) i) as [->|Hne]; [by rewrite lookup_insert_eq|].
  by rewrite lookup_insert_ne.
Qed.

Lemma load_to_file st st' :
  (∀ i t, tokens st !! i = Some t → id t = i) → tokens st' = ∅ →
  credentials (load_tokens st' (file_tokens (to_file st))) = credentials st.
Proof.
  intros Hid He. apply map_eq. intros i. unfold credentials. rewrite !lookup_fmap, load_tokens_spec, He.
  rewrite lookup_empty. cbn [to_file file_tokens].
  destruct (List.find _ (rev _)) as [f|] eqn:E.
  - apply find_some in E as [Hin Hi%String.eqb_eq]. apply in_rev in Hin.
    apply list_elem_of_In, list_elem_of_fmap in Hin as (t & -> & [j Hj]%sorted_tokens_elem).
    simpl in Hi. pose proof (Hid _ _ Hj) as Hj'. subst. rewrite Hj. done.
  - destruct (tokens st !! i) as [t|] eqn:Ht; [|done]. exfalso.
    pose proof (find_none _ _ E (to_stored st t)) as Hn. simpl in Hn.
    rewrite (Hid _ _ Ht), String.eqb_refl in Hn. discriminate Hn.
    rewrite <- in_rev. apply list_elem_of_In, list_elem_of_fmap. exists t. split; [done|].
    apply sorted_tokens_elem. by exists i.
Qed.

Lemma load_tokens_wf st l :
  wf_store st → (∀ f, f ∈ l → wf_token (of_stored 0 f)) → wf_store (load_tokens st l).
Proof.
  revert st. induction l as [|f l IH]; intros st Hst Hl; [done|]. cbn [load_tokens].
  apply IH; [|intros g Hg; apply Hl; by right].
  intros i t Hi. cbn [tokens cells] in *. rewrite length_app. simpl.
  destruct (decide (i = f_id f)) as [->|Hne].
  - rewrite lookup_insert_eq in Hi. injection Hi as <-. split_and!; [done|apply Hl; by left|simpl; lia].
  - rewrite lookup_insert_ne in Hi by done. destruct (Hst _ _ Hi) as (? & ? & ?). split_and!; [done..|lia].
Qed.

(** *** Comparison and the shape of a token *)

Lemma ct_eq_eqb a b : ct_eq a b = String.eqb a b.
Proof.
  unfold ct_eq. apply eq_true_iff_eq. rewrite andb_true_iff, String.eqb_eq.
  split; [|intros ->]; cycle 1.
  { split; [apply Nat.eqb_refl|]. apply N.eqb_eq.
    assert (∀ l, foldl (λ diff '(x, y), N.lor diff (N.lxor (N_of_ascii x) (N_of_ascii y))) 0%N
      (zip l l) = 0%N) as H; [|apply H].
    induction l as [|x l IH]; [done|]. simpl. by rewrite N.lxor_nilpotent. }
  intros [Hl%Nat.eqb_eq Hd%N.eqb_eq]. revert b Hl Hd.
  assert (∀ l d, foldl (λ diff '(x, y), N.lor diff (N.lxor (N_of_ascii x) (N_of_ascii y))) d l = 0%N →
    d = 0%N ∧ ∀ x y, (x, y) ∈ l → x = y) as Hfold.
  { induction l as [|[x y] l IH]; intros d; simpl; [intros ->; split; [done|intros ? ? []%not_elem_of_nil]|].
    intros [Hd Hl]%IH. apply N.lor_eq_0_iff in Hd as [-> Hxy%N.lxor_eq].
    split; [done|]. intros x' y' [[= -> ->]|Hin]%elem_of_cons; [|by apply Hl].
    rewrite <- (ascii_N_embedding x), <- (ascii_N_embedding y). by f_equal. }
  intros b Hl [_ Hd]%Hfold. revert b Hl Hd. induction a as [|x a IH]; intros [|y b] Hl Hd; try done.
  simpl in Hl, Hd. rewrite (Hd x y) by (by left). f_equal. apply IH; [lia|].
  intros x' y' Hin. apply Hd. by right.
Qed.

Lemma split_spec presented i secret :
  split presented = Some (i, secret) ↔
  presented = PREFIX +:+ i +:+ "_" +:+ secret ∧ String.length i = ID_LEN ∧ secret ≠ "" ∧
  Str.all Str.is_ascii_hexdigit i = true.
Proof.
  assert (∀ i r, Str.all Str.is_ascii_hexdigit i = true →
    Chars.split_once "_" (i +:+ "_" +:+ r) = Some (i, r)) as Honce.
  { clear. induction i as [|c i IH]; intros r; [done|]. cbn [Str.all]. intros [Hc Hi]%andb_true_iff.
    change (String c i +:+ "_" +:+ r) with (String c (i +:+ "_" +:+ r)).
    cbn [Chars.split_once Str.strip_prefix]. rewrite (IH r Hi).
    destruct (Ascii.eqb_spec "_" c) as [<-|]; done. }
  assert (∀ s i r, Chars.split_once "_" s = Some (i, r) → s = i +:+ "_" +:+ r) as Hparts.
  { clear. induction s as [|c s IH]; intros i r; [done|]. cbn [Chars.split_once Str.strip_prefix].
    destruct (Ascii.eqb_spec "_" c) as [<-|]; [by intros [= <- <-]|].
    destruct (Chars.split_once "_" s) as [[a b]|]; [|done]. intros [= <- <-]. by rewrite (IH _ _ eq_refl). }
  unfold split. split.
  - intros (rest & Hr%Str.strip_prefix_spec & H)%bind_Some. rewrite Hr.
    apply bind_Some in H as ([i' s'] & Ho%Hparts & H).
    destruct (negb _ || _) eqn:Hb; [done|]. apply orb_false_iff in Hb as [Hl%negb_false_iff Hs].
    destruct (negb (Str.all _ _)) eqn:Ha; [done|]. injection H as -> ->.
    apply Nat.eqb_eq in Hl. apply negb_false_iff in Ha. apply String.eqb_neq in Hs. by rewrite Ho.
  - intros (-> & Hl & Hs & Ha).
    assert (Str.strip_prefix PREFIX (PREFIX +:+ i +:+ "_" +:+ secret) = Some (i +:+ "_" +:+ secret)) as ->
      by (by apply Str.strip_prefix_spec).
    cbn [mbind option_bind]. rewrite Honce by done. cbn [mbind option_bind]. rewrite Hl, Ha. apply String.eqb_neq in Hs. by rewrite Hs.
Qed.

Lemma hex_lower l : Str.all is_lower_hex (hex l) = true.
Proof.
  assert (∀ n, (n < 16)%N → is_lower_hex (hex_digit n) = true) as Hd.
  { intros n Hn. assert (n ∈ (N.of_nat <$> seq 0 16)) as Hin.
    { apply list_elem_of_fmap. exists (N.to_nat n). rewrite N2Nat.id. split; [done|].
      apply elem_of_seq. lia. }
    clear Hn. revert n Hin. apply Forall_forall. by repeat constructor. }
  induction l as [|b l IH]; [done|]. cbn [hex Str.all].
  rewrite !Hd, IH by (apply N.mod_lt; done). done.
Qed.

Lemma hex_length l : String.length (hex l) = (2 * length l)%nat.
Proof. induction l as [|b l IH]; [done|]. simpl. lia. Qed.

Lemma lower_hex_digit c : is_lower_hex c = true → Str.is_ascii_hexdigit c = true.
Proof. destruct c as [[] [] [] [] [] [] [] []]; vm_compute; done. Qed.

Lemma random_hex_wf l : length l = 6%nat →
  String.length (random_hex l) = ID_LEN ∧ Str.all is_lower_hex (random_hex l) = true.
Proof.
  intros Hl. unfold random_hex. rewrite take_ge by (rewrite Hl; done).
  rewrite hex_length, Hl. split; [done|apply hex_lower].
Qed.

(** *** Each operation keeps tokens well formed *)

Lemma validate_name_ok n u : validate_name n = Ok u → n ≠ "" ∧ (length (Chars.chars n) <= 128)%nat.
Proof.
  unfold validate_name. intros H.
  apply seq_ok in H as [H1%bail_if_ok H2%bail_if_ok]. apply String.eqb_neq in H1.
  apply Nat.ltb_ge in H2. done.
Qed.

Section store.
Context (sha256 : string → list N) (url_safe_no_pad : list N → string).

Lemma wf_put st i t cs :
  wf_store st → id t = i → wf_token t → (live_last_used t < length (cells st ++ cs))%nat →
  wf_store {| tokens := <[i := t]> (tokens st); cells := cells st ++ cs |}.
Proof.
  intros Hst Hi Ht Hl j u. cbn [tokens cells]. destruct (decide (j = i)) as [->|Hne].
  - rewrite lookup_insert_eq. by intros [= <-].
  - rewrite lookup_insert_ne by done. intros (? & ? & ?)%Hst. rewrite length_app. split_and!; [done..|lia].
Qed.

Lemma wf_insert st i t :
  wf_store st → id t = i → wf_token t → (live_last_used t < length (cells st))%nat →
  wf_store (mutate st <[i := t]>).
Proof.
  intros Hst Hi Ht Hl. pose proof (wf_put st i t [] Hst Hi Ht) as H. rewrite app_nil_r in H. by apply H.
Qed.

Lemma wf_delete st i : wf_store st → wf_store (mutate st (delete i)).
Proof. intros Hst j u. cbn [mutate tokens cells]. intros [_ Hj]%lookup_delete_Some. by apply Hst. Qed.

Lemma wf_touch st t now : wf_store st → wf_store (touch st t now).
Proof. intros Hst j u Hj. cbn [touch tokens cells] in *. rewrite length_insert. by apply Hst. Qed.

(** A mint adds one token, made from the request. *)
Lemma mint_spec st req now rnd r st' :
  mint sha256 url_safe_no_pad st req now rnd = (r, st') → length (for_id rnd) = 6%nat → wf_store st →
  match r with
  | Err _ => st' = st
  | Ok (s, token) =>
    let i := random_hex (for_id rnd) in
    ∃ t, s = summary st' t ∧ id t = i ∧ tokens st' = <[i := t]> (tokens st) ∧ wf_store st' ∧
      token = PREFIX +:+ i +:+ "_" +:+ random_b64 url_safe_no_pad (for_secret rnd) ∧
      hash t = hash_secret sha256 (random_b64 url_safe_no_pad (for_secret rnd)) ∧
      name t = Chars.trim (n_name req) ∧ admin t = n_admin req ∧ namespace t = n_namespace req ∧
      deployments t = n_deployments req ∧
      expires_at t = (U64.saturating_add now <$> n_expires_in_secs req)
  end.
Proof.
  unfold mint. intros H Hrnd Hst. destruct (_ ;;? _) as [u|e] eqn:Hv; injection H as <- <-; [|done].
  apply seq_ok in Hv as [Hname Hv]. apply seq_ok in Hv as [Hscope Hns].
  apply validate_name_ok in Hname as [Hne Hlen]. destruct u.
  destruct (random_hex_wf _ Hrnd) as [Hid1 Hid2].
  eexists. split; [done|]. split; [done|]. split; [done|]. split; [|by split_and!].
  refine (wf_put st _ _ [0%Z] Hst eq_refl _ _); [|cbn; rewrite length_app; simpl; lia].
  split_and!; try done. apply Trim.trim_trim.
Qed.

Lemma patch_spec st i p r st' :
  patch st i p = (r, st') → wf_store st →
  match r with
  | Err _ => st' = st
  | Ok s => ∃ t, tokens st !! i = Some t ∧ tokens st' = <[i := apply_patch st t p]> (tokens st) ∧
              wf_store st'
  end.
Proof.
  unfold patch, get. intros H Hst. destruct (_ ;;? _) as [u|e] eqn:Hv; [|by injection H as <- <-].
  destruct (tokens st !! i) as [t|] eqn:Ht; injection H as <- <-; [|done].
  apply seq_ok in Hv as [Hscope Hv]. apply seq_ok in Hv as [Hns Hname]. destruct u.
  exists t. split; [done|]. split; [done|].
  destruct (Hst _ _ Ht) as (Hi & (Hl & Hx & Hn & Htrim & Hlen & Hd & Hnamesp) & Hlive).
  apply wf_insert; [done|done| |done]. split_and!; cbn; try done.
  - destruct (p_name p) as [n|]; [|done]. by apply validate_name_ok in Hname as [].
  - destruct (p_name p) as [n|]; [apply Trim.trim_trim|done].
  - destruct (p_name p) as [n|]; [|done]. by apply validate_name_ok in Hname as [].
  - by destruct (p_deployments p).
  - by destruct (p_namespace p).
Qed.

Lemma sweep_spec st now n st' :
  sweep_expired st now = (n, st') → wf_store st →
  wf_store st' ∧ cells st' = cells st ∧ (n = O → st' = st) ∧
  ∀ i, tokens st' !! i = (t ← tokens st !! i; if expired_at t now then None else Some t).
Proof.
  unfold sweep_expired. intros H Hst. set (gone := List.filter _ _) in H.
  assert (∀ t, t ∈ gone ↔ tokens st !! id t = Some t ∧ expired_at t now = true) as Hgone.
  { intros t. unfold gone. rewrite list_elem_of_In, filter_In, <- list_elem_of_In, list_elem_of_fmap. split.
    - intros [([i u] & -> & Hi%elem_of_map_to_list) Hx]. simpl in *. by rewrite (proj1 (Hst _ _ Hi)).
    - intros [Ht Hx]. split; [|done]. exists (id t, t). split; [done|]. by apply elem_of_map_to_list. }
  assert (∀ l (m : gmap string AppToken) i, foldl (λ m t, delete (id t) m) m l !! i =
    if existsb (λ t, String.eqb (id t) i) l then None else m !! i) as Hfold.
  { clear. induction l as [|t l IH]; intros m i; [done|]. cbn [foldl existsb]. rewrite IH.
    destruct (String.eqb_spec (id t) i) as [->|Hne]; cbn [orb].
    - rewrite lookup_delete_eq. by destruct (existsb _ l).
    - by rewrite lookup_delete_ne. }
  assert (∀ i, (if existsb (λ t, String.eqb (id t) i) gone then None else tokens st !! i) =
    (t ← tokens st !! i; if expired_at t now then None else Some t)) as Hlook.
  { intros i. destruct (existsb _ gone) eqn:E.
    - apply existsb_exists in E as (t & Hin%list_elem_of_In%Hgone & <-%String.eqb_eq).
      destruct Hin as [-> Hx]. simpl. by rewrite Hx.
    - destruct (tokens st !! i) as [t|] eqn:Ht; [|done]. simpl.
      destruct (expired_at t now) eqn:Hx; [|done]. exfalso.
      apply not_true_iff_false in E. apply E, existsb_exists. exists t.
      destruct (Hst _ _ Ht) as (Hi & _). rewrite Hi, String.eqb_refl. split; [|done].
      apply list_elem_of_In, Hgone. by rewrite Hi. }
  clearbody gone. destruct gone as [|t l]; injection H as <- <-.
  - split_and!; [done..|]. intros i. by rewrite <- Hlook.
  - split_and!; [|done|done|intros i; rewrite <- Hlook; exact (Hfold (t :: l) (tokens st) i)].
    intros i u Hi. pose proof (Hfold (t :: l) (tokens st) i) as Hf.
    change (tokens (mutate st (λ m, foldl (λ m t, delete (id t) m) m (t :: l))) !! i = Some u) in Hi.
    cbn [mutate tokens] in Hi. rewrite Hi in Hf. destruct (existsb _ _); [done|]. by apply Hst.
Qed.
End store.

(** ** Memory and disk agree *)

Section durability.
Context (sha256 : string → list N) (url_safe_no_pad : list N → string).
Context (encode : TokenFile → result string string) (decode : string → result string TokenFile).
(** [serde_json] reads back what it wrote. *)
Hypothesis decode_encode : ∀ f b, encode f = Ok b → decode b = Ok f.

Abbreviation step_ := (step sha256 url_safe_no_pad encode decode).
Abbreviation runs_ := (runs sha256 url_safe_no_pad encode decode).
Abbreviation persist_ := (persist_tokens encode).
Abbreviation start_ := (start_up encode decode).

(** The store a process would start with. *)
Definition loaded (d : Disk) : option TokenStore :=
  match load decode new None d with (Ok _, st) => Some st | _ => None end.

(** A credential that still works at [now]. *)
Definition live_at (now : Z) (o : option AppToken) : option AppToken :=
  t ← o; if expired_at t now then None else Some t.

Record agree (T : Z) (w : World) : Prop := {
  agree_store : wf_store (store w);
  agree_disk : ∃ st, loaded (disk w) = Some st ∧ wf_store st ∧
    ∀ i, live_at T (credentials st !! i) = live_at T (credentials (store w) !! i);
}.

Lemma live_at_twice T T' o : (T <= T')%Z → live_at T' (live_at T o) = live_at T' o.
Proof.
  intros HT. destruct o as [t|]; [|done]. simpl. unfold expired_at, expired.
  assert (live_at T' (Some t) = if match expires_at t with Some e => (e <=? T')%Z | None => false end
    then None else Some t) as Ht by done.
  destruct (expires_at t) as [e|]; [|exact Ht].
  destruct (Z.leb_spec e T); [|exact Ht]. destruct (Z.leb_spec e T'); [done|lia].
Qed.

Lemma live_at_later T T' a b : (T <= T')%Z → live_at T a = live_at T b → live_at T' a = live_at T' b.
Proof. intros HT H. rewrite <- (live_at_twice T T' a), <- (live_at_twice T T' b) by done. by rewrite H. Qed.

Lemma verify_live st presented now :
  issued <$> fst (verify sha256 st presented now) =
  ('(i, secret) ← split presented; t ← live_at now (credentials st !! i);
   if String.eqb (hash_secret sha256 secret) (hash t) then Some t else None).
Proof.
  unfold verify, credentials. destruct (split presented) as [[i secret]|]; [|done].
  cbn [mbind option_bind]. rewrite lookup_fmap. destruct (tokens st !! i) as [t|]; [|done].
  rewrite ct_eq_eqb. cbn [fmap option_fmap option_map live_at mbind option_bind].
  rewrite (expired_issued (issued t) t now) by done. change (hash (issued t)) with (hash t).
  destruct (expired_at t now); [by rewrite orb_true_r|]. rewrite orb_false_r. cbn [mbind option_bind].
  by destruct (String.eqb _ _).
Qed.

(** *** Writing the file *)

Lemma persist_tokens_spec w fs b w' :
  persist_ w fs = (b, w') → wf_store (store w) →
  store w' = store w ∧
  if b then ∃ st, loaded (disk w') = Some st ∧ wf_store st ∧ credentials st = credentials (store w)
  else loaded (disk w') = loaded (disk w).
Proof.
  intros H Hwf.
  assert (∀ d, main d = main (disk w) → loaded d = loaded (disk w)) as Hsame.
  { intros d Hd. unfold loaded, load. by rewrite Hd. }
  unfold persist_tokens in H. destruct (persist encode (store w) fs (disk w)) as [r d] eqn:E.
  injection H as <- <-. split; [done|]. cbn [disk]. unfold persist in E.
  destruct (encode (to_file (store w))) as [json|] eqn:Ej; [|injection E as <- <-; by apply Hsame].
  destruct (mkdir fs); [|injection E as <- <-; by apply Hsame].
  destruct (create fs) as [|e k]; [|injection E as <- <-; apply Hsame; by destruct (k =? 0)%nat].
  destruct (chmod fs); [|injection E as <- <-; by apply Hsame].
  destruct (write fs); [|injection E as <- <-; by apply Hsame].
  destruct (rename fs); [|injection E as <- <-; by apply Hsame].
  injection E as <- <-. cbn [is_ok]. unfold loaded, load. cbn [main].
  rewrite (decode_encode _ _ Ej). cbn [version to_file Z.eqb Pos.eqb negb].
  eexists. split; [done|]. split.
  - apply load_tokens_wf; [done|]. intros f (t & -> & [i Hi]%sorted_tokens_elem)%list_elem_of_fmap.
    apply (wf_issued t); [done|]. by apply Hwf in Hi as (_ & ? & _).
  - apply load_to_file; [|done]. intros i t Hi. by apply Hwf in Hi as [].
Qed.

Lemma agree_later T T' w : (T <= T')%Z → agree T w → agree T' w.
Proof.
  intros HT [Hs (st & Hl & Hw & Ha)]. split; [done|]. exists st. split_and!; [done..|].
  intros i. by apply (live_at_later T).
Qed.

(** A change of the store that reaches the disk, or is undone. *)
Lemma agree_persist T w st fs b w' :
  agree T w → wf_store st → persist_ (with_store w st) fs = (b, w') →
  store w' = st ∧
  if b then agree T w' else ∀ st', wf_store st' →
    (∀ i, live_at T (credentials st' !! i) = live_at T (credentials (store w) !! i)) →
    agree T (with_store w' st').
Proof.
  intros [Hs (s & Hl & Hw & Ha)] Hst Hp. apply persist_tokens_spec in Hp as [Hstore Hb]; [|done].
  split; [done|]. destruct b.
  - destruct Hb as (s' & Hl' & Hw' & Hc). split; [by rewrite Hstore|]. exists s'.
    split_and!; [done..|]. intros i. by rewrite Hc, Hstore.
  - intros st' Hst' Hlive. split; [done|]. exists s. cbn [disk with_store] in *. rewrite Hb.
    split_and!; [done..|]. intros i. by rewrite Ha, Hlive.
Qed.

Lemma credentials_lookup st i : credentials st !! i = issued <$> tokens st !! i.
Proof. unfold credentials. by rewrite lookup_fmap. Qed.

(** Undoing a change puts the credentials back. *)
Lemma undo_credentials st st' i (t : AppToken) :
  tokens st !! i = Some t → (∀ j, j ≠ i → tokens st' !! j = tokens st !! j) → id t = i →
  credentials (restore st' t) = credentials st.
Proof.
  intros Ht Hj Hi. apply map_eq. intros j. rewrite !credentials_lookup. cbn [restore mutate tokens].
  rewrite Hi. destruct (decide (j = i)) as [->|Hne].
  - by rewrite lookup_insert_eq, Ht.
  - by rewrite lookup_insert_ne, Hj.
Qed.

Lemma sweep_and_save_agree T w now fs :
  agree T w → (T <= now)%Z → agree now (sweep_and_save encode w now fs).
Proof.
  intros Hag HT. unfold sweep_and_save.
  destruct (sweep_expired (store w) now) as [n st] eqn:E.
  apply sweep_spec in E as (Hwf & Hcells & Hsame & Hlook); [|apply Hag].
  assert (∀ i, live_at now (credentials st !! i) = live_at now (credentials (store w) !! i)) as Hlive.
  { intros i. rewrite !credentials_lookup, Hlook. destruct (tokens (store w) !! i) as [t|]; [|done].
    cbn [mbind option_bind]. rewrite <- (expired_issued (issued t) t now) by done.
    destruct (expired_at (issued t) now) eqn:Hx; [|done]. cbn. by rewrite Hx. }
  apply (agree_later T now) in Hag; [|done]. destruct (0 <? n)%nat eqn:Hn.
  - destruct (persist_ (with_store w st) fs) as [b w'] eqn:Hp. cbn [snd].
    destruct (agree_persist _ _ _ _ _ _ Hag Hwf Hp) as [Hs Hb]. destruct b; [done|].
    specialize (Hb st Hwf Hlive). by destruct w'; cbn in Hs; subst.
  - apply Nat.ltb_ge in Hn. rewrite Hsame by lia. by destruct w.
Qed.

Lemma start_up_some T w now fs :
  agree T w → (T <= now)%Z → ∃ w', start_ (disk w) now fs = Some w' ∧ agree now w' ∧
    ∀ i, live_at now (credentials (store w') !! i) = live_at now (credentials (store w) !! i).
Proof.
  intros [Hs (st & Hl & Hw & Ha)] HT. unfold start_up. unfold loaded in Hl.
  destruct (load decode new None (disk w)) as [[n|] st'] eqn:E; [|done]. injection Hl as ->.
  eexists. split; [done|]. assert (agree T {| store := st; disk := disk w |}) as Hag.
  { split; [done|]. exists st. unfold loaded. cbn [disk]. by rewrite E. }
  split; [by eapply sweep_and_save_agree|]. intros i.
  rewrite <- (live_at_later _ _ _ _ HT (Ha i)). unfold sweep_and_save. cbn [store disk].
  destruct (sweep_expired st now) as [m st2] eqn:Es.
  apply sweep_spec in Es as (Hwf & Hcells & Hsame & Hlook); [|done].
  assert (store (if (0 <? m)%nat
     then snd (persist_ (with_store {| store := st; disk := disk w |} st2) fs)
     else with_store {| store := st; disk := disk w |} st2) = st2) as ->.
  { destruct (0 <? m)%nat; [|done].
    destruct (persist_ _ fs) as [b w'] eqn:Hp. cbn [snd]. by apply persist_tokens_spec in Hp as [-> _]. }
  rewrite !credentials_lookup, Hlook. destruct (tokens st !! i) as [t|]; [|done].
  cbn [mbind option_bind]. rewrite <- (expired_issued (issued t) t now) by done.
  destruct (expired_at (issued t) now) eqn:Hx; [|done]. cbn. by rewrite Hx.
Qed.

(** *** The handlers *)

Lemma mint_token_spec T w req now rnd fs r w' :
  agree T w → length (for_id rnd) = 6%nat → tokens (store w) !! random_hex (for_id rnd) = None →
  mint_token sha256 url_safe_no_pad encode w req now rnd fs = (r, w') →
  agree T w' ∧
  match r with
  | Minted s token =>
    ∃ t, s_id s = random_hex (for_id rnd) ∧ id t = s_id s ∧ s_expires_at s = expires_at t ∧
      tokens (store w') = <[s_id s := t]> (tokens (store w)) ∧
      token = PREFIX +:+ s_id s +:+ "_" +:+ random_b64 url_safe_no_pad (for_secret rnd) ∧
      hash t = hash_secret sha256 (random_b64 url_safe_no_pad (for_secret rnd)) ∧
      name t = Chars.trim (n_name req) ∧ admin t = n_admin req ∧ namespace t = n_namespace req ∧
      deployments t = n_deployments req ∧
      expires_at t = (U64.saturating_add now <$> n_expires_in_secs req)
  | _ => tokens (store w') = tokens (store w)
  end.
Proof.
  intros Hag Hlen Hfresh. unfold mint_token.
  destruct (mint sha256 url_safe_no_pad (store w) req now rnd) as [o st] eqn:Hm.
  apply mint_spec in Hm; [|done|apply Hag].
  destruct o as [[s token]|e]; [|intros [= <- <-]; subst st; by destruct w].
  destruct Hm as (t & -> & Hid & Htok & Hwf & Hr).
  destruct (persist_ (with_store w st) fs) as [b w1] eqn:Hp.
  destruct (agree_persist _ _ _ _ _ _ Hag Hwf Hp) as [Hs Hb].
  change (s_id (summary st t)) with (id t). rewrite Hid.
  destruct b; intros [= <- <-].
  - split; [done|]. exists t. rewrite Hs. change (s_id (summary st t)) with (id t). by rewrite Hid.
  - assert (tokens (store (with_store w1 (snd (revoke (store w1) (random_hex (for_id rnd))))) ) =
      tokens (store w)) as Htoks.
    { cbn. by rewrite Hs, Htok, delete_insert_id. }
    split; [|exact Htoks]. apply Hb.
    + unfold revoke. cbn [snd]. rewrite Hs. by apply wf_delete.
    + intros i. rewrite !credentials_lookup. by rewrite <- Htoks.
Qed.

Lemma undo_agree T w st w1 i t fs :
  agree T w → wf_store st → persist_ (with_store w st) fs = (false, w1) →
  tokens (store w) !! i = Some t → (∀ j, j ≠ i → tokens st !! j = tokens (store w) !! j) →
  (live_last_used t < length (cells st))%nat →
  agree T (undo w1 (Some t)) ∧ tokens (store (undo w1 (Some t))) = tokens (store w).
Proof.
  intros Hag Hst Hp Ht Hj Hlive. destruct (agree_persist _ _ _ _ _ _ Hag Hst Hp) as [Hs Hb].
  pose proof (agree_store _ _ Hag) as Hwf. destruct (Hwf _ _ Ht) as (Hid & Hwt & _).
  assert (tokens (restore (store w1) t) = tokens (store w)) as Htoks.
  { apply map_eq. intros j. cbn [restore mutate tokens]. rewrite Hs, Hid.
    destruct (decide (j = i)) as [->|Hne]; [by rewrite lookup_insert_eq|].
    by rewrite lookup_insert_ne, Hj. }
  split; [|exact Htoks]. cbn [undo]. apply Hb.
  - rewrite Hs. by apply wf_insert.
  - intros j. by rewrite !credentials_lookup, Htoks.
Qed.

Lemma revoke_token_spec T w i fs r w' :
  agree T w → revoke_token encode w i fs = (r, w') →
  agree T w' ∧
  match r with
  | NoContent => tokens (store w') = delete i (tokens (store w)) ∧
      ∃ st, loaded (disk w') = Some st ∧ credentials st = credentials (store w')
  | _ => tokens (store w') = tokens (store w)
  end.
Proof.
  intros Hag. unfold revoke_token, revoke, get.
  destruct (tokens (store w) !! i) as [t|] eqn:Ht; cbn [is_some].
  - pose proof (wf_delete _ i (agree_store _ _ Hag)) as Hwf.
    destruct (persist_ _ fs) as [b w1] eqn:Hp. destruct b; intros [= <- <-].
    + destruct (agree_persist _ _ _ _ _ _ Hag Hwf Hp) as [Hs Hb]. split; [done|]. split; [by rewrite Hs|].
      apply persist_tokens_spec in Hp as [_ (st & Hl & _ & Hc)]; [|done].
      exists st. split; [done|]. rewrite Hc. cbn [with_store store]. by rewrite Hs.
    + eapply undo_agree; [exact Hag|exact Hwf|exact Hp|exact Ht| |].
      * intros j Hj. cbn [mutate tokens]. by rewrite lookup_delete_ne.
      * cbn [mutate cells]. by apply (agree_store _ _ Hag i).
  - intros [= <- <-]. assert (with_store w (mutate (store w) (delete i)) = w) as ->; [|done].
    destruct w as [[m cs] d]. unfold with_store, mutate. cbn in *. by rewrite delete_id.
Qed.

Lemma patch_token_spec T w i p fs r w' :
  agree T w → patch_token encode w i p fs = (r, w') →
  agree T w' ∧
  match r with
  | Summary s => ∃ t, tokens (store w) !! i = Some t ∧
      tokens (store w') = <[i := apply_patch (store w) t p]> (tokens (store w))
  | _ => tokens (store w') = tokens (store w)
  end.
Proof.
  intros Hag. unfold patch_token, get. destruct (patch (store w) i p) as [o st] eqn:Hpatch.
  apply patch_spec in Hpatch; [|apply Hag].
  destruct o as [s|e]; [|intros [= <- <-]; subst st; by destruct w].
  destruct Hpatch as (t & Ht & Htoks & Hwf). rewrite Ht.
  destruct (persist_ _ fs) as [b w1] eqn:Hp. destruct b; intros [= <- <-].
  - destruct (agree_persist _ _ _ _ _ _ Hag Hwf Hp) as [Hs Hb]. split; [done|].
    exists t. by rewrite Hs.
  - eapply undo_agree; [exact Hag|exact Hwf|exact Hp|exact Ht| |].
    + intros j Hj. by rewrite Htoks, lookup_insert_ne.
    + destruct (Hwf i (apply_patch (store w) t p)) as (_ & _ & Hl); [|exact Hl].
      by rewrite Htoks, lookup_insert_eq.
Qed.

Lemma verify_store st presented now :
  wf_store st → wf_store (snd (verify sha256 st presented now)) ∧
  tokens (snd (verify sha256 st presented now)) = tokens st.
Proof.
  intros Hst. unfold verify. destruct (split presented) as [[i secret]|]; [|done].
  destruct (tokens st !! i) as [t|]; [|done]. destruct (_ || _); [done|]. split; [by apply wf_touch|done].
Qed.

Lemma step_agree T w e w' :
  agree T w → (T <= default T (event_time e))%Z → entropy_ok w e → step_ w e = Some w' →
  agree (default T (event_time e)) w'.
Proof.
  intros Hag HT Hrnd. destruct e as [req now rnd fs|now fs|i p fs|i fs|s now|now fs];
    cbn [step event_time from_option] in HT |- *; unfold Datatypes.id in *.
  - destruct (mint_token sha256 url_safe_no_pad encode w req now rnd fs) as [r w1] eqn:E. intros [= <-].
    apply (agree_later T); [done|]. destruct Hrnd. by eapply mint_token_spec.
  - intros [= <-]. by apply (sweep_and_save_agree T).
  - destruct (patch_token encode w i p fs) as [r w1] eqn:E. intros [= <-]. exact (proj1 (patch_token_spec T w i p fs r w1 Hag E)).
  - destruct (revoke_token encode w i fs) as [r w1] eqn:E. intros [= <-]. exact (proj1 (revoke_token_spec T w i fs r w1 Hag E)).
  - intros [= <-]. apply (agree_later T); [done|]. destruct Hag as [Hs (st & Hl & Hw & Ha)].
    destruct (verify_store (store w) s now Hs) as [Hv Htoks]. split; [done|].
    exists st. split_and!; [done..|]. intros i. rewrite Ha, !credentials_lookup. cbn. by rewrite Htoks.
  - intros Hs. destruct (start_up_some T w now fs Hag HT) as (w2 & Hw2 & Hag2 & _).
    rewrite Hw2 in Hs. by injection Hs as <-.
Qed.

Lemma runs_agree T w es T' w' : runs_ T w es T' w' → agree T w → agree T' w'.
Proof. induction 1 as [|???????? Hr Hs _ IH]; [done|]. intros Hag. apply IH. by eapply step_agree. Qed.

Lemma fresh_agree T : agree T fresh_world.
Proof. split; [done|]. by exists new. Qed.

Lemma reachable_agree T w : reachable sha256 url_safe_no_pad encode decode T w → agree T w.
Proof. intros (T0 & es & H). eapply runs_agree; [exact H|apply fresh_agree]. Qed.

(** *** A revoked id *)

Record gone (i : string) (w : World) : Prop := {
  gone_store : tokens (store w) !! i = None;
  gone_disk : ∀ st, loaded (disk w) = Some st → tokens st !! i = None;
}.

Lemma credentials_None st i : credentials st !! i = None ↔ tokens st !! i = None.
Proof. rewrite credentials_lookup. by destruct (tokens st !! i). Qed.

Lemma gone_persist i w st fs b w' :
  gone i w → wf_store st → tokens st !! i = None → persist_ (with_store w st) fs = (b, w') → gone i w'.
Proof.
  intros [Hs Hd] Hwf Hst Hp. apply persist_tokens_spec in Hp as [Hs' Hb]; [|done].
  split; [by rewrite Hs'|]. intros st'. destruct b.
  - destruct Hb as (s & -> & _ & Hc). intros [= <-]. apply credentials_None. rewrite Hc. by apply credentials_None.
  - rewrite Hb. apply Hd.
Qed.

Lemma gone_with_store i w st : gone i w → tokens st !! i = None → gone i (with_store w st).
Proof. intros [_ Hd] Hst. by split. Qed.

Lemma gone_sweep i w now fs : gone i w → wf_store (store w) → gone i (sweep_and_save encode w now fs).
Proof.
  intros Hg Hwf. unfold sweep_and_save. destruct (sweep_expired (store w) now) as [n st] eqn:E.
  apply sweep_spec in E as (Hst & _ & _ & Hlook); [|done].
  assert (tokens st !! i = None) as Hi by (by rewrite Hlook, (gone_store _ _ Hg)).
  destruct (0 <? n)%nat; [|by apply gone_with_store].
  destruct (persist_ _ fs) as [b w'] eqn:Hp. by eapply gone_persist.
Qed.

Lemma gone_step T i w e w' :
  agree T w → (T <= default T (event_time e))%Z → entropy_ok w e → step_ w e = Some w' →
  minted_id e ≠ Some i → gone i w → gone i w'.
Proof.
  intros Hag HT Hrnd Hstep Hid Hg. pose proof (agree_store _ _ Hag) as Hwf.
  pose proof (gone_store _ _ Hg) as Hi.
  destruct e as [req now rnd fs|now fs|j p fs|j fs|s now|now fs]; cbn [step minted_id entropy_ok] in Hstep, Hid, Hrnd.
  - destruct Hrnd as [Hlen Hfresh]. injection Hstep as <-. unfold mint_token.
    destruct (mint sha256 url_safe_no_pad (store w) req now rnd) as [o st] eqn:Hm.
    apply mint_spec in Hm; [|done..]. destruct o as [[s token]|e]; [|subst st; by apply gone_with_store].
    destruct Hm as (t & -> & Ht & Htoks & Hst & _).
    assert (tokens st !! i = None) as Hsti by (rewrite Htoks, lookup_insert_ne; congruence).
    destruct (persist_ _ fs) as [b w1] eqn:Hp. pose proof (gone_persist _ _ _ _ _ _ Hg Hst Hsti Hp) as Hg1.
    destruct b; [done|]. apply gone_with_store; [done|]. cbn.
    rewrite lookup_delete_ne; [apply Hg1|]. rewrite Ht. congruence.
  - injection Hstep as <-. by apply gone_sweep.
  - injection Hstep as <-. destruct (decide (j = i)) as [->|Hne].
    + unfold patch_token. destruct (patch (store w) i p) as [o st] eqn:Hpt.
      apply patch_spec in Hpt; [|done]. destruct o as [s|e]; cbn [snd]; [|subst st; by apply gone_with_store].
      destruct Hpt as (t & Ht & _). congruence.
    + unfold patch_token, get. destruct (patch (store w) j p) as [o st] eqn:Hpt.
      apply patch_spec in Hpt; [|done]. destruct o as [s|e]; cbn [snd]; [|subst st; by apply gone_with_store].
      destruct Hpt as (t & Ht & Htoks & Hst). rewrite Ht.
      assert (tokens st !! i = None) as Hsti by (by rewrite Htoks, lookup_insert_ne).
      destruct (persist_ _ fs) as [b w1] eqn:Hp. pose proof (gone_persist _ _ _ _ _ _ Hg Hst Hsti Hp) as Hg1.
      destruct b; [done|]. apply gone_with_store; [done|]. cbn. destruct (Hwf _ _ Ht) as [-> _].
      rewrite lookup_insert_ne by done. apply Hg1.
  - injection Hstep as <-. unfold revoke_token, revoke, get.
    assert (tokens (mutate (store w) (delete j)) !! i = None) as Hsti.
    { cbn. destruct (decide (i = j)) as [->|]; [apply lookup_delete_eq|by rewrite lookup_delete_ne]. }
    destruct (tokens (store w) !! j) as [t|] eqn:Ht; cbn [is_some]; [|by apply gone_with_store].
    destruct (persist_ _ fs) as [b w1] eqn:Hp.
    pose proof (gone_persist _ _ _ _ _ _ Hg (wf_delete _ _ Hwf) Hsti Hp) as Hg1.
    destruct b; [done|]. apply gone_with_store; [done|]. cbn. destruct (Hwf _ _ Ht) as [-> _].
    rewrite lookup_insert_ne by congruence. apply Hg1.
  - injection Hstep as <-. apply gone_with_store; [done|].
    by destruct (verify_store (store w) s now Hwf) as [_ ->].
  - unfold start_up in Hstep. pose proof (gone_disk _ _ Hg) as Hd.
    destruct (agree_disk _ _ Hag) as (st & Hl & Hst & _). specialize (Hd _ Hl). unfold loaded in Hl.
    destruct (load decode new None (disk w)) as [[n|] st'] eqn:E; [|done]. injection Hl as ->.
    injection Hstep as <-. apply gone_sweep; [|done]. split; [done|].
    intros st1. unfold loaded. cbn [disk]. rewrite E. by intros [= <-].
Qed.

Lemma gone_runs T i w es T' w' :
  runs_ T w es T' w' → agree T w → (∀ e, e ∈ es → minted_id e ≠ Some i) → gone i w → gone i w'.
Proof.
  induction 1 as [|???????? Hr Hs _ IH]; [done|]. intros Hag Hes Hg. apply IH.
  - by eapply step_agree.
  - intros e' He'. apply Hes. by right.
  - eapply gone_step; [exact Hag|done..|apply Hes; by left|done].
Qed.

(** ** What the store promises *)

(** A restart changes nothing a client can see: from every state the handlers can reach,
    with any of their disk writes failing, the next process starts, and from then on every
    presented string authenticates as exactly the token it does now. *)
Theorem restart_keeps_credentials T w now fs :
  reachable sha256 url_safe_no_pad encode decode T w → (T <= now)%Z →
  ∃ w', start_up encode decode (disk w) now fs = Some w' ∧
    ∀ presented later, (now <= later)%Z →
      issued <$> fst (verify sha256 (store w') presented later) =
      issued <$> fst (verify sha256 (store w) presented later).
Proof.
  intros Hag%reachable_agree HT. destruct (start_up_some _ _ _ fs Hag HT) as (w' & Hw' & _ & Hlive).
  exists w'. split; [done|]. intros presented later Hl. rewrite !verify_live.
  destruct (split presented) as [[i secret]|]; [|done]. cbn [mbind option_bind].
  by rewrite (live_at_later _ _ _ _ Hl (Hlive i)).
Qed.

(** C7. A revocation the handler reports as done is final: whatever happens next, restarts and
    failing writes included, no string with that id authenticates until a mint draws the id
    again. One it reports as failed changes nothing. *)
Theorem revocation_is_final T w i fs r w1 :
  reachable sha256 url_safe_no_pad encode decode T w → revoke_token encode w i fs = (r, w1) →
  match r with
  | NoContent => ∀ es T' w2, runs sha256 url_safe_no_pad encode decode T w1 es T' w2 →
      (∀ e, e ∈ es → minted_id e ≠ Some i) →
      ∀ presented secret now, split presented = Some (i, secret) →
        fst (verify sha256 (store w2) presented now) = None
  | _ => ∀ presented now, issued <$> fst (verify sha256 (store w1) presented now) =
                          issued <$> fst (verify sha256 (store w) presented now)
  end.
Proof.
  intros Hag%reachable_agree Hr. destruct (revoke_token_spec _ _ _ _ _ _ Hag Hr) as [Hag1 Hspec].
  assert (tokens (store w1) = tokens (store w) → ∀ presented now,
    issued <$> fst (verify sha256 (store w1) presented now) =
    issued <$> fst (verify sha256 (store w) presented now)) as Hsame.
  { intros Ht presented now. rewrite !verify_live. unfold credentials. by rewrite Ht. }
  destruct r; try by apply Hsame. destruct Hspec as (Htoks & st & Hl & Hc).
  assert (gone i w1) as Hg.
  { assert (tokens (store w1) !! i = None) as Hn by (rewrite Htoks; apply lookup_delete_eq).
    split; [done|]. rewrite Hl. intros st' [= <-]. apply credentials_None. rewrite Hc. by apply credentials_None. }
  intros es T' w2 Hruns Hes presented secret now Hsplit.
  pose proof (gone_store _ _ (gone_runs _ _ _ _ _ _ Hruns Hag1 Hes Hg)) as Hn.
  unfold verify. by rewrite Hsplit, Hn.
Qed.

(** What a mint hands out is the credential it describes: after a successful mint, a
    presented string authenticates as the new token exactly when it carries its id and a
    secret with its hash, before it expires; the token has the scope that was asked for, and
    every string with another id authenticates as before. *)
Theorem minted_token_authenticates T w req now rnd fs s token w1 :
  reachable sha256 url_safe_no_pad encode decode T w → entropy_ok w (EMint req now rnd fs) →
  mint_token sha256 url_safe_no_pad encode w req now rnd fs = (Minted s token, w1) →
  token = PREFIX +:+ s_id s +:+ "_" +:+ random_b64 url_safe_no_pad (for_secret rnd) ∧
  s_expires_at s = (U64.saturating_add now <$> n_expires_in_secs req) ∧
  ∀ presented later,
    match fst (verify sha256 (store w1) presented later) with
    | Some t =>
      if String.eqb (id t) (s_id s)
      then admin t = n_admin req ∧ namespace t = n_namespace req ∧ deployments t = n_deployments req ∧
           expired (s_expires_at s) later = false ∧
           ∃ secret, presented = PREFIX +:+ s_id s +:+ "_" +:+ secret ∧
             hash_secret sha256 secret = hash_secret sha256 (random_b64 url_safe_no_pad (for_secret rnd))
      else Some (issued t) = issued <$> fst (verify sha256 (store w) presented later)
    | None =>
      fst (verify sha256 (store w) presented later) = None ∧
      ∀ secret, presented = PREFIX +:+ s_id s +:+ "_" +:+ secret → secret ≠ "" →
        hash_secret sha256 secret = hash_secret sha256 (random_b64 url_safe_no_pad (for_secret rnd)) →
        expired (s_expires_at s) later = true
    end.
Proof.
  intros Hag%reachable_agree [Hlen Hfresh] Hm.
  destruct (mint_token_spec _ _ _ _ _ _ _ _ Hag Hlen Hfresh Hm) as [Hag1 Hspec].
  destruct Hspec as (t & Hsid & Hid & Hexp & Htoks & -> & Hhash & _ & Hadm & Hns & Hdep & Hex).
  split; [done|]. split; [congruence|]. intros presented later.
  destruct (random_hex_wf _ Hlen) as [Hl12 Hhex]. rewrite <- Hsid in Hl12, Hhex, Hfresh.
  apply (Str.all_impl _ _ _ lower_hex_digit) in Hhex.
  assert (∀ secret, presented = PREFIX +:+ s_id s +:+ "_" +:+ secret → secret ≠ "" →
    split presented = Some (s_id s, secret)) as Hother by (intros; by apply split_spec).
  unfold verify. destruct (split presented) as [[i secret]|] eqn:Hsp.
  2: { cbn [fst]. split; [done|]. intros secret' Hp Hs' _. by specialize (Hother _ Hp Hs'). }
  pose proof (proj1 (split_spec _ _ _) Hsp) as (Hpres & _ & Hsec & _). rewrite Htoks.
  destruct (decide (i = s_id s)) as [->|Hne].
  - rewrite lookup_insert_eq, Hfresh, ct_eq_eqb, Hhash. unfold expired_at. rewrite <- Hexp.
    destruct (String.eqb_spec (hash_secret sha256 secret)
      (hash_secret sha256 (random_b64 url_safe_no_pad (for_secret rnd)))) as [Heq|Hneq]; cbn [negb orb].
    + destruct (expired (s_expires_at s) later); cbn [fst]; [done|].
      rewrite Hid, String.eqb_refl. split_and!; try done. by exists secret.
    + cbn [fst]. split; [done|]. intros secret' Hp Hs' Hh. specialize (Hother _ Hp Hs'). congruence.
  - rewrite lookup_insert_ne by done. destruct (tokens (store w) !! i) as [u|] eqn:Hu;
      [destruct (agree_store _ _ Hag _ _ Hu) as (Hidu & _); destruct (_ || _)|]; cbn [fst].
    2: { rewrite Hidu. by apply String.eqb_neq in Hne as ->. }
    all: split; [done|]; intros secret' Hp Hs' _; specialize (Hother _ Hp Hs'); congruence.
Qed.

(** Every token of a reachable store, and of the file under it, is well formed: it sits
    under its own id of twelve lower-case hex digits, has a trimmed name of one to 128
    characters, and its scope and its namespace pass validation. *)
Theorem tokens_wellformed T w :
  reachable sha256 url_safe_no_pad encode decode T w →
  (∀ i t, tokens (store w) !! i = Some t → id t = i ∧ wf_token t) ∧
  ∃ st, loaded (disk w) = Some st ∧ ∀ i t, tokens st !! i = Some t → id t = i ∧ wf_token t.
Proof.
  intros [Hs (st & Hl & Hw & _)]%reachable_agree. split; [|exists st; split; [done|]].
  - intros i t (? & ? & _)%Hs. done.
  - intros i t (? & ? & _)%Hw. done.
Qed.
End durability.

(** ** Two changes at once

    [mutate] loads the map, edits a copy and stores the copy. [publish] is its second half. *)
Definition publish (st : TokenStore) (snapshot : gmap string AppToken)
    (f : gmap string AppToken → gmap string AppToken) : TokenStore :=
  {| tokens := f snapshot; cells := cells st |}.

Lemma mutate_publish st f : mutate st f = publish st (tokens st) f.
Proof. done. Qed.

(** A restore, or a mint, that took its snapshot before a revocation and stores its copy after
    brings the revoked token back. *)
Theorem concurrent_change_undoes_a_revocation sha256 st i secret t other now :
  split (PREFIX +:+ i +:+ "_" +:+ secret) = Some (i, secret) → tokens st !! i = Some t →
  hash t = hash_secret sha256 secret → expired_at t now = false → id other ≠ i →
  let snapshot := tokens st in
  let '(done_, st) := revoke st i in
  done_ = true ∧ fst (verify sha256 st (PREFIX +:+ i +:+ "_" +:+ secret) now) = None ∧
  fst (verify sha256 (publish st snapshot <[id other := other]>)
         (PREFIX +:+ i +:+ "_" +:+ secret) now) = Some t.
Proof.
  intros Hsp Ht Hh Hx Hne. cbn. unfold verify. rewrite Hsp, Ht. split; [done|]. cbn [mutate publish tokens].
  rewrite lookup_delete_eq, lookup_insert_ne, Ht, ct_eq_eqb, Hh, String.eqb_refl, Hx by done. done.
Qed.

(** ** Instances *)

#[export] Instance AdminScope_countable : Countable AdminScope.
Proof.
  refine (inj_countable' (λ s, match s with ScopeNone => 0%nat | ScopeView => 1%nat | ScopeAdmin => 2%nat end)
    (λ n, match n with O => ScopeNone | 1%nat => ScopeView | _ => ScopeAdmin end) _). by intros [].
Defined.
#[export] Instance StoredToken_eq_dec : EqDecision StoredToken.
Proof. solve_decision. Defined.
#[export] Instance TokenFile_eq_dec : EqDecision TokenFile.
Proof. solve_decision. Defined.
#[export] Instance StoredToken_countable : Countable StoredToken.
Proof.
  refine (inj_countable' (λ f, ((f_id f, f_name f, f_admin f, f_namespace f, f_deployments f),
      (f_created_at f, f_expires_at f, f_hash f, f_last_used_at f)))
    (λ '((a, b, c, d, e), (g, h, i, j)), {| f_id := a; f_name := b; f_admin := c; f_namespace := d;
       f_deployments := e; f_created_at := g; f_expires_at := h; f_hash := i; f_last_used_at := j |}) _).
  by intros [].
Defined.
#[export] Instance TokenFile_countable : Countable TokenFile.
Proof.
  refine (inj_countable' (λ f, (version f, file_tokens f))
    (λ '(v, l), {| version := v; file_tokens := l |}) _). by intros [].
Defined.

Definition enc (f : TokenFile) : result string string := Ok (Codec.to_text f).
Definition dec (s : string) : result string TokenFile := ok_or (Codec.of_text s) "not a token file".

Lemma dec_enc f b : enc f = Ok b → dec b = Ok f.
Proof. unfold enc, dec. intros [= <-]. by rewrite Codec.of_to_text. Qed.

(** A stand-in for the digest, and one for base64, with the lengths of a test. *)
Definition sha (s : string) : list N := N_of_ascii <$> list_ascii_of_string s.
Definition b64 (l : list N) : string := hex l.

Definition all_fine : Faults :=
  {| mkdir := Fine; create := Fine; chmod := Fine; write := Fine; rename := Fine |}.
Definition disk_full : Faults :=
  {| mkdir := Fine; create := Fine; chmod := Fine; write := Fails "no space left" 3; rename := Fine |}.

Definition agent_request : NewToken :=
  {| n_name := " agent "; n_admin := ScopeView; n_namespace := Some "acme";
     n_deployments := []; n_expires_in_secs := Some 3600%Z |}.
Definition draw : Entropy := {| for_id := [1; 2; 3; 4; 5; 255]%N; for_secret := [171; 205]%N |}.
Definition draw2 : Entropy := {| for_id := [9; 9; 9; 9; 9; 9]%N; for_secret := [18; 52]%N |}.

Abbreviation w_step := (step sha b64 enc dec).
Definition minted : World := snd (mint_token sha b64 enc fresh_world agent_request 100 draw all_fine).
Definition the_token : string := "applb_0102030405ff_abcd".

Definition one_mint : list Event := [EMint agent_request 100 draw all_fine].

Lemma minted_runs : runs sha b64 enc dec 0 fresh_world one_mint 100 minted.
Proof. eapply runs_cons; [done|split; reflexivity|reflexivity|apply runs_nil]. Qed.
Lemma minted_reachable : reachable sha b64 enc dec 100 minted.
Proof. exists 0%Z, one_mint. apply minted_runs. Qed.

Lemma restart_keeps_credentials_witness :
  is_some (fst (verify sha (store minted) the_token 200)) = true ∧
  ∃ w', start_up enc dec (disk minted) 150 disk_full = Some w' ∧
    ∀ presented later, (150 <= later)%Z →
      issued <$> fst (verify sha (store w') presented later) =
      issued <$> fst (verify sha (store minted) presented later).
Proof.
  split; [vm_compute; reflexivity|].
  exact (restart_keeps_credentials sha b64 enc dec dec_enc 100 minted 150 disk_full minted_reachable
           ltac:(lia)).
Defined.

Lemma revocation_is_final_witness :
  let '(r, w1) := revoke_token enc minted "0102030405ff" all_fine in
  r = NoContent ∧ ∀ w2, w_step w1 (ERestart 150 all_fine) = Some w2 →
    fst (verify sha (store w2) the_token 200) = None.
Proof.
  pose proof (revocation_is_final sha b64 enc dec dec_enc 100 minted "0102030405ff" all_fine
    NoContent (snd (revoke_token enc minted "0102030405ff" all_fine)) minted_reachable) as H.
  destruct (revoke_token enc minted "0102030405ff" all_fine) as [r w1] eqn:E.
  assert (r = NoContent) as Hr by (apply (f_equal fst) in E; vm_compute in E; by rewrite <- E).
  split; [exact Hr|]. intros w2 Hw2. cbn [snd] in H.
  apply (H ltac:(by rewrite Hr) [ERestart 150 all_fine] 150%Z w2) with (secret := "abcd").
  - eapply runs_cons; [cbn; lia|exact I|exact Hw2|apply runs_nil].
  - intros e. rewrite list_elem_of_singleton. by intros ->.
  - vm_compute. reflexivity.
Defined.

Lemma minted_token_authenticates_witness :
  is_some (fst (verify sha (store minted) the_token 200)) = true ∧
  fst (verify sha (store minted) the_token 3700) = None ∧
  fst (verify sha (store minted) "applb_0102030405ff_abce" 200) = None.
Proof.
  pose proof (minted_token_authenticates sha b64 enc dec dec_enc 0 fresh_world agent_request 100 draw
    all_fine) as H.
  destruct (mint_token sha b64 enc fresh_world agent_request 100 draw all_fine) as [r w1] eqn:E.
  assert (r = Minted (match r with Minted s _ => s | _ => {| s_id := ""; s_name := ""; s_admin := ScopeNone;
      s_namespace := None; s_deployments := []; s_created_at := 0; s_expires_at := None;
      s_last_used_at := None |} end) the_token) as Hr.
  { apply (f_equal fst) in E. vm_compute in E. rewrite <- E. reflexivity. }
  assert (reachable sha b64 enc dec 0 fresh_world) as Hreach by (exists 0%Z, []; apply runs_nil).
  destruct (H _ _ _ Hreach ltac:(split; reflexivity) ltac:(rewrite <- Hr; reflexivity)) as (Ht & _ & _).
  split_and!; vm_compute; reflexivity.
Defined.

Lemma tokens_wellformed_witness :
  (∀ i t, tokens (store minted) !! i = Some t → id t = i ∧ wf_token t) ∧
  ∃ st, loaded dec (disk minted) = Some st ∧ ∀ i t, tokens st !! i = Some t → id t = i ∧ wf_token t.
Proof. apply (tokens_wellformed sha b64 enc dec dec_enc 100 minted minted_reachable). Defined.
