(* ===== verification/LbAccess.v ===== *)
(** * The admin gate: [app-lb/src/admin.rs] and [app-lb/src/federated.rs]

    Who a request comes from and what that permits: the callers and their reach, the decision
    of the gate, and the federated grants with the cache of the resolver. *)
From Stdlib Require Import Ascii String ZArith Lia Bool.
From stdpp Require Import base option list strings gmap fin_maps.
From S2P Require Import Prelude LbTokens.
Open Scope string_scope.
Open Scope list_scope.

(** ** Federated grants *)

Record Subject : Type := {
  user_id : string; email : option string; account_id : option string; platform_role : option string;
}.

Record Grant : Type := {
  subject : Subject;
  namespaces : gmap string AdminScope;
  accounts : gmap string string;
  fleet : bool;
}.

Definition account_for (g : Grant) (ns : string) : option string :=
  match accounts g !! ns with
  | Some owner => Some owner
  | None => account_id (subject g)
  end.

Definition LOCAL_TOKEN_PREFIX : string := "applb_".

(** The tier a scope names. *)
Definition tier_of (tier : string) : option AdminScope :=
  if String.eqb tier "admin" then Some ScopeAdmin
  else if String.eqb tier "view" then Some ScopeView
  else None.

(** One scope: the stronger tier of a namespace stays. *)
Definition add_scope (acc : gmap string AdminScope * bool) (scope : string) :
    gmap string AdminScope * bool :=
  let '(m, fl) := acc in
  match Str.split ":" scope with
  | [a; b] => if String.eqb a "fleet" && String.eqb b "admin" then (m, true) else acc
  | [a; ns; tier] =>
    if String.eqb a "namespace" && is_valid_namespace ns then
      match tier_of tier with
      | Some granted =>
        let slot := default ScopeNone (m !! ns) in
        (<[ns := if satisfies granted slot then granted else slot]> m, fl)
      | None => acc
      end
    else acc
  | _ => acc
  end.

Definition parse_scopes (scopes : list string) : gmap string AdminScope * bool :=
  foldl add_scope (∅, false) scopes.

(** *** The resolver's cache *)

Inductive Entry : Type :=
| Hit (g : Grant) (at_ : Z)
| Miss (at_ : Z).

Definition expires (e : Entry) : Z := match e with Hit _ a | Miss a => a end.

Definition MISS_TTL : Z := 5.
Definition MAX_ENTRIES : nat := 4096.

Section resolver.
(** [sha2], and what the auth service answers: a grant and how long it says it lasts. *)
Context (digest : string → list N) (ttl : Z).

Abbreviation Cache := (gmap (list N) Entry).

(** [cached]: a remembered answer, which may be a refusal. *)
Definition cached (cache : Cache) (key : list N) (now : Z) : option (option Grant) :=
  match cache !! key with
  | Some e => if (now <? expires e)%Z then Some (match e with Hit g _ => Some g | Miss _ => None end)
              else None
  | None => None
  end.

Definition store_entry (cache : Cache) (key : list N) (e : Entry) (now : Z) : Cache :=
  <[key := e]> (if (MAX_ENTRIES <=? size cache)%nat
                then filter (λ kv, (now < expires (snd kv))%Z) cache else cache).

(** [fetch], from the answer of the service: the time to live it may name is capped. *)
Definition grant_ttl (expires_in : option Z) : Z :=
  match expires_in with Some e => Z.min e ttl | None => ttl end.

Definition resolve (cache : Cache) (bearer : string) (now : Z)
    (service : string → option (Grant * option Z)) : option Grant * Cache :=
  if String.eqb bearer "" || Str.starts_with LOCAL_TOKEN_PREFIX bearer then (None, cache)
  else
    let key := digest bearer in
    match cached cache key now with
    | Some answer => (answer, cache)
    | None =>
      match service bearer with
      | Some (g, e) => (Some g, store_entry cache key (Hit g (now + grant_ttl e)) now)
      | None => (None, store_entry cache key (Miss (now + Z.min MISS_TTL ttl)) now)
      end
    end.
End resolver.

(** ** Callers *)

Inductive Caller : Type :=
| Ungated
| Operator
| Token (t : AppToken)
| Federated (g : Grant).

Definition scopes_of (g : Grant) : list AdminScope := snd <$> map_to_list (namespaces g).

(** [Caller::satisfies]. *)
Definition caller_satisfies (c : Caller) (want : AdminScope) : bool :=
  match c with
  | Ungated | Operator => true
  | Token t => satisfies (admin t) want
  | Federated g => fleet g || existsb (λ s, satisfies s want) (scopes_of g)
  end.

Definition satisfies_in (c : Caller) (want : AdminScope) (ns : option string) : bool :=
  match c, ns with
  | Federated g, Some ns =>
    if negb (fleet g) then
      match namespaces g !! ns with Some s => satisfies s want | None => false end
    else caller_satisfies c want
  | _, _ => caller_satisfies c want
  end.

Definition may_touch (c : Caller) (deployment : string) (ns : option string) : bool :=
  match c with
  | Ungated | Operator => true
  | Token t =>
    match namespace t, ns with
    | None, _ => allows t deployment
    | Some _, Some ns => admits t deployment ns
    | Some _, None => false
    end
  | Federated g => fleet g || match ns with Some ns => is_some (namespaces g !! ns) | None => false end
  end.

Definition confined (c : Caller) : bool :=
  match c with
  | Ungated | Operator => false
  | Token t => is_some (namespace t)
  | Federated g => negb (fleet g)
  end.

Definition caller_covers_fleet (c : Caller) : bool :=
  match c with
  | Ungated | Operator => true
  | Token t => covers_fleet t
  | Federated g => fleet g
  end.

Definition reaches_namespace (c : Caller) (ns : string) : bool :=
  match c with
  | Ungated | Operator => true
  | Token t => match namespace t with Some own => String.eqb own ns | None => covers_fleet t end
  | Federated g => fleet g || is_some (namespaces g !! ns)
  end.

Definition may_view (c : Caller) (deployment ns : string) : bool :=
  match c with
  | Ungated | Operator => true
  | Token t => admits t deployment ns
  | Federated _ => reaches_namespace c ns
  end.

Definition visible (c : Caller) : option (list string) :=
  match c with
  | Ungated | Operator => None
  | Token t => if covers_fleet t then None else Some (deployments t)
  | Federated _ => None
  end.

Definition sole_namespace (c : Caller) : option string :=
  match c with
  | Ungated | Operator => None
  | Token t => namespace t
  | Federated g =>
    if negb (fleet g) && (size (namespaces g) =? 1)%nat
    then head (fst <$> map_to_list (namespaces g)) else None
  end.

(** The part of the registry the gate reads: each deployment's namespace. *)
Abbreviation Registry := (gmap string string).

Definition visible_ids (registry : Registry) (caller : option Caller) : option (list string) :=
  c ← caller;
  if confined c
  then Some (fst <$> List.filter (λ d, may_view c (fst d) (snd d)) (map_to_list registry))
  else visible c.

(** ** Routes *)

Definition one_of (l : list string) (s : string) : bool := existsb (String.eqb s) l.

Definition narrows_itself : string → bool :=
  one_of ["/"; "/metrics"; "/dashboard"; "/security"; "/siem"; "/ingress"; "/network";
          "/namespaces"; "/auth-providers"; "/whoami"].
Definition is_secret_route : string → bool := one_of ["/secrets"; "/secrets/:id"].
Definition is_auth_provider_route : string → bool :=
  one_of ["/auth-providers"; "/auth-providers/:namespace/:name"].
Definition is_fleet_namespace_route : string → bool :=
  one_of ["/fleet/deployments"; "/fleet/gateways/:id/metrics"].

(** [path.split('/').nth(2)]. *)
Definition third_segment (path : string) : option string := Str.split "/" path !! 2%nat.

Definition deployment_of (matched path : string) : option string :=
  if negb (String.eqb matched "/deployments/:id") &&
     negb (Str.starts_with "/deployments/:id/" matched) then None
  else s ← third_segment path; if negb (String.eqb s "") then Some s else None.

(** A double quote. *)
Definition dq : string := String "034" "".

Definition out_of_scope (i : string) : string :=
  "this token is not scoped to deployment " +:+ dq +:+ i +:+ dq.

Definition bearer (header : option string) : option string :=
  h ← header;
  rest ← Str.strip_prefix "Bearer " h;
  let raw := Chars.trim rest in
  if String.eqb raw "" then None else Some raw.

(** ** The gate *)

Inductive Verdict : Type :=
| Allow (c : Caller)
| Unauthorized
| Forbidden (detail : string).

Record Presented : Type := {
  header : option string;
  matched : option string;
  path : string;
  query : option string;
  target_namespace : option string;
  federated : option Grant;
}.

(** [DashboardAuth::accepts]. *)
Definition accepts (expected_header : string) (header_value : option string) : bool :=
  match header_value with Some got => ct_eq got expected_header | None => false end.

Definition shell_route : string := "/deployments/:id/shell".

(** [Option::or_else]. *)
Definition or_else {A} (o o' : option A) : option A := match o with Some a => Some a | None => o' end.

Section gate.
(** [sha2]; [base64]; [form_urlencoded::parse]. *)
Context (sha256 : string → list N) (b64_standard : string → string)
  (form_parse : string → list (string * string)).

(** [DashboardAuth::new]: the one header the operator's credential makes. *)
Definition dashboard_auth (user password : string) : string :=
  "Basic " +:+ b64_standard (user +:+ ":" +:+ password).

Definition ws_query_token (matched : string) (query : option string) : option string :=
  if negb (String.eqb matched shell_route) then None
  else
    q ← query;
    kv ← List.find (λ kv, String.eqb (fst kv) "app_token") (form_parse q);
    if String.eqb (snd kv) "" then None else Some (snd kv).

(** The credential a request presents, and the store after a use of it is recorded. *)
Definition identify (auth : string) (tokens : TokenStore) (req : Presented) (now : Z) :
    option Caller * TokenStore :=
  if accepts auth (header req) then (Some Operator, tokens)
  else
    match or_else (bearer (header req)) (ws_query_token (default "" (matched req)) (query req)) with
    | Some raw =>
      match verify sha256 tokens raw now with
      | (Some t, st) => (Some (Token t), st)
      | (None, st) => (Federated <$> federated req, st)
      end
    | None => (Federated <$> federated req, tokens)
    end.

(** The checks on the matched route, for a caller whose tier is enough. *)
Definition decide_route (c : Caller) (m path : string) (ns : option string) : Verdict :=
  match deployment_of m path with
  | Some i => if negb (may_touch c i ns) then Forbidden (out_of_scope i) else Allow c
  | None =>
    if String.eqb m "/feeds/:namespace" then
      let n := default "" (third_segment path) in
      let n := default n (Str.strip_suffix ".xml" n) in
      if negb (reaches_namespace c n)
      then Forbidden ("this token cannot read the " +:+ dq +:+ n +:+ dq +:+ " namespace feed")
      else Allow c
    else if String.eqb m "/deployments" && confined c then Allow c
    else if is_secret_route m && confined c then Allow c
    else if is_auth_provider_route m && confined c then Allow c
    else if is_fleet_namespace_route m && confined c then Allow c
    else if negb (narrows_itself m) && negb (caller_covers_fleet c)
         then Forbidden "this token is scoped to specific deployments, so it cannot use a fleet-wide route"
    else Allow c
  end.

Definition decide_access (auth : option string) (tokens : TokenStore) (req : Presented)
    (want : AdminScope) (now : Z) : Verdict * TokenStore :=
  match auth with
  | None => (Allow Ungated, tokens)
  | Some auth =>
    let '(caller, st) := identify auth tokens req now in
    (match caller with
     | None => Unauthorized
     | Some c =>
       if negb (satisfies_in c want (target_namespace req))
       then Forbidden (match want with
                       | ScopeAdmin => "this token's admin scope is not `admin`, which this route requires"
                       | _ => "this token has no admin scope, so it cannot read the admin API"
                       end)
       else match matched req with
            | Some m => decide_route c m (path req) (target_namespace req)
            | None => Allow c
            end
     end, st)
  end.

(** What [authorize] looks up before it asks for the decision: the namespace of the deployment
    the path names, and the grant of a foreign bearer. [resolve] is the resolver, when
    federation is configured. *)
Record Request : Type := {
  r_header : option string; r_matched : option string; r_path : string; r_query : option string;
}.

Definition present (auth : option string) (tokens : TokenStore) (registry : Registry)
    (resolve : option (string → option Grant)) (now : Z) (r : Request) : Presented :=
  {| header := r_header r; matched := r_matched r; path := r_path r; query := r_query r;
     target_namespace := m ← r_matched r; i ← deployment_of m (r_path r); registry !! i;
     federated :=
       match resolve, auth, bearer (r_header r) with
       | Some f, Some _, Some raw =>
         if negb (Str.starts_with LOCAL_TOKEN_PREFIX raw) && negb (is_some (fst (verify sha256 tokens raw now)))
         then f raw else None
       | _, _, _ => None
       end |}.

Definition authorize (auth : option string) (tokens : TokenStore) (registry : Registry)
    (resolve : option (string → option Grant)) (want : AdminScope) (now : Z) (r : Request) :
    Verdict * TokenStore :=
  decide_access auth tokens (present auth tokens registry resolve now r) want now.

(** The two tiers of routes; with the view gate off the view tier checks nothing. *)
Definition require_view_auth (gate_view : bool) (auth : option string) tokens registry resolve now r :=
  authorize (if gate_view then auth else None) tokens registry resolve ScopeView now r.
Definition require_crud_auth (auth : option string) tokens registry resolve now r :=
  authorize auth tokens registry resolve ScopeAdmin now r.
End gate.

(** ** What the gate lets through *)

Section policy.
Context (sha256 : string → list N) (form_parse : string → list (string * string)).

(** The credential string of a request: a bearer, or on the shell route alone a query
    parameter. *)
Definition carries (r : Request) (raw : string) : Prop :=
  bearer (r_header r) = Some raw ∨
  r_matched r = Some shell_route ∧ ∃ q, r_query r = Some q ∧ ("app_token", raw) ∈ form_parse q.

(** The caller is who the request proves it to be. *)
Definition genuine (auth : option string) (tokens : TokenStore) (resolve : option (string → option Grant))
    (now : Z) (r : Request) (c : Caller) : Prop :=
  match c with
  | Ungated => auth = None
  | Operator => ∃ a, auth = Some a ∧ r_header r = Some a
  | Token t => ∃ raw, carries r raw ∧ fst (verify sha256 tokens raw now) = Some t
  | Federated g => ∃ raw f, bearer (r_header r) = Some raw ∧ resolve = Some f ∧ f raw = Some g ∧
                            Str.starts_with LOCAL_TOKEN_PREFIX raw = false
  end.

Definition names (t : AppToken) (i : string) : Prop := "*" ∈ deployments t ∨ i ∈ deployments t.

(** A deployment [i] of namespace [ns] is the caller's to act on with tier [want]. *)
Definition reaches (c : Caller) (want : AdminScope) (i : string) (ns : option string) : Prop :=
  match c with
  | Ungated | Operator => True
  | Token t =>
    match namespace t with
    | None => names t i
    | Some own => ns = Some own ∧ (deployments t = [] ∨ names t i)
    end
  | Federated g =>
    fleet g = true ∨ ∃ n s, ns = Some n ∧ namespaces g !! n = Some s ∧ satisfies s want = true
  end.

(** The caller's reach is the whole fleet. *)
Definition whole_fleet (c : Caller) : Prop :=
  match c with
  | Ungated | Operator => True
  | Token t => namespace t = None ∧ "*" ∈ deployments t
  | Federated g => fleet g = true
  end.

(** The namespaces whose feed a caller may read. *)
Definition reads_feed (c : Caller) (n : string) : Prop :=
  whole_fleet c ∨
  match c with
  | Token t => namespace t = Some n
  | Federated g => is_Some (namespaces g !! n)
  | _ => True
  end.

(** Routes whose handlers check or narrow to a confined caller's namespaces. *)
Definition handler_walled (m : string) : Prop :=
  m ∈ ["/deployments"; "/secrets"; "/secrets/:id"; "/auth-providers";
       "/auth-providers/:namespace/:name"; "/fleet/deployments"; "/fleet/gateways/:id/metrics"].

Definition feed_of (path : string) : string :=
  let n := default "" (third_segment path) in default n (Str.strip_suffix ".xml" n).

Lemma allows_names t i : allows t i = true ↔ names t i.
Proof.
  unfold allows, names. rewrite existsb_exists. split.
  - intros (d & Hd%list_elem_of_In & [ ->%String.eqb_eq | ->%String.eqb_eq]%orb_true_iff); auto.
  - intros [H|H]; [exists "*"|exists i]; (split; [by apply list_elem_of_In|]);
      rewrite String.eqb_refl; [done|apply orb_true_r].
Qed.

Lemma covers_fleet_spec t : covers_fleet t = true ↔ namespace t = None ∧ "*" ∈ deployments t.
Proof. unfold covers_fleet. destruct (namespace t); [naive_solver|]. rewrite existsb_eqb. naive_solver. Qed.

Lemma caller_covers_fleet_spec c : caller_covers_fleet c = true ↔ whole_fleet c.
Proof. destruct c; [done|done|apply covers_fleet_spec|done]. Qed.

Lemma may_touch_spec c want i ns :
  satisfies_in c want ns = true → may_touch c i ns = true ↔ reaches c want i ns.
Proof.
  intros Ht. destruct c as [| |t|g]; [done|done|..]; cbn [may_touch reaches].
  - unfold admits. destruct (namespace t) as [own|]; [|by rewrite allows_names].
    destruct ns as [ns|]; [|naive_solver].
    rewrite andb_true_iff, orb_true_iff, String.eqb_eq, allows_names.
    destruct (deployments t); naive_solver.
  - unfold satisfies_in in Ht. destruct (fleet g); [naive_solver|]. cbn [negb orb] in *.
    destruct ns as [n|]; [|naive_solver].
    destruct (namespaces g !! n) as [s|] eqn:E; simpl; naive_solver.
Qed.

Lemma reaches_namespace_spec c n : reaches_namespace c n = true ↔ reads_feed c n.
Proof.
  unfold reads_feed. destruct c as [| |t|g]; cbn [reaches_namespace whole_fleet]; [naive_solver..| |].
  - destruct (namespace t) as [own|] eqn:E.
    + rewrite String.eqb_eq. naive_solver.
    + rewrite covers_fleet_spec, E. naive_solver.
  - rewrite orb_true_iff. destruct (namespaces g !! n); simpl; naive_solver.
Qed.

Lemma one_of_spec l s : one_of l s = true ↔ s ∈ l.
Proof. apply existsb_eqb. Qed.

Lemma decide_route_spec c m path ns want v :
  satisfies_in c want ns = true → decide_route c m path ns = v →
  match deployment_of m path with
  | Some i => v = Allow c ↔ reaches c want i ns
  | None =>
    if String.eqb m "/feeds/:namespace" then v = Allow c ↔ reads_feed c (feed_of path)
    else v = Allow c → handler_walled m ∨ narrows_itself m = true ∨ whole_fleet c
  end.
Proof.
  intros Ht <-. unfold decide_route. destruct (deployment_of m path) as [i|].
  { rewrite <- (may_touch_spec c want) by done. by destruct (may_touch c i ns). }
  destruct (String.eqb m "/feeds/:namespace").
  { fold (feed_of path). rewrite <- reaches_namespace_spec. by destruct (reaches_namespace c _). }
  assert (∀ l, one_of l m && confined c = true → (∀ x, x ∈ l → handler_walled x) → handler_walled m) as Hw.
  { intros l [Hm%one_of_spec _]%andb_true_iff Hl. by apply Hl. }
  unfold is_secret_route, is_auth_provider_route, is_fleet_namespace_route.
  destruct (String.eqb m "/deployments" && confined c) eqn:H1.
  { intros _. left. apply andb_true_iff in H1 as [->%String.eqb_eq _]. unfold handler_walled. set_solver. }
  repeat match goal with
  | |- (if one_of ?l m && confined c then _ else _) = _ → _ =>
    let H := fresh in destruct (one_of l m && confined c) eqn:H;
      [intros _; left; apply (Hw l H); unfold handler_walled; set_solver|]
  end.
  destruct (narrows_itself m); [auto|]. rewrite <- caller_covers_fleet_spec.
  destruct (caller_covers_fleet c); [auto|done].
Qed.

Lemma identify_spec auth tokens registry resolve now r c :
  fst (identify sha256 form_parse auth tokens (present sha256 (Some auth) tokens registry resolve now r) now)
    = Some c →
  genuine (Some auth) tokens resolve now r c.
Proof.
  unfold identify. cbn [header present query matched federated].
  assert (∀ g, (match resolve, bearer (r_header r) with
       | Some f, Some raw =>
         if negb (Str.starts_with LOCAL_TOKEN_PREFIX raw) && negb (is_some (fst (verify sha256 tokens raw now)))
         then f raw else None
       | _, _ => None
       end) = Some g → genuine (Some auth) tokens resolve now r (Federated g)) as Hfed.
  { intros g. destruct resolve as [f|]; [|done]. destruct (bearer (r_header r)) as [raw|] eqn:Hb; [|done].
    destruct (Str.starts_with LOCAL_TOKEN_PREFIX raw) eqn:Hp; [done|]. cbn [negb andb].
    destruct (negb _); [|done]. intros Hg. by exists raw, f. }
  unfold accepts. destruct (r_header r) as [h|] eqn:Hh; [rewrite ct_eq_eqb; destruct (String.eqb_spec h auth) as [->|]|].
  { intros [= <-]. exists auth. by rewrite Hh. }
  all: rewrite <- Hh in *.
  all: destruct (or_else _ _) as [raw|] eqn:Hraw; cbn [fst]; [|by intros (g & Hg & ->)%fmap_Some; apply Hfed].
  all: destruct (verify sha256 tokens raw now) as [[t|] st] eqn:Hv; cbn [fst];
    [|by intros (g & Hg & ->)%fmap_Some; apply Hfed].
  all: intros [= <-]; exists raw; split; [|by rewrite Hv].
  all: unfold carries; destruct (bearer (r_header r)) as [b|]; cbn [or_else] in Hraw; [left; congruence|right].
  all: unfold ws_query_token in Hraw; destruct (String.eqb_spec (default "" (r_matched r)) shell_route) as [Hm|];
    [|done]; cbn [negb] in Hraw.
  all: apply bind_Some in Hraw as (q & Hq & (kv & Hk & Hs)%bind_Some);
    apply find_some in Hk as [Hin Hkey%String.eqb_eq]; destruct (String.eqb _ _); [done|]; injection Hs as <-.
  all: split; [destruct (r_matched r) as [m|]; [by f_equal|done]|exists q; split; [done|]].
  all: rewrite <- Hkey; destruct kv; by apply list_elem_of_In.
Qed.

(** The caller's tier is at least [want], somewhere. *)
Definition has_tier (c : Caller) (want : AdminScope) : Prop :=
  match c with
  | Ungated | Operator => True
  | Token t => satisfies (admin t) want = true
  | Federated g => fleet g = true ∨ ∃ n s, namespaces g !! n = Some s ∧ satisfies s want = true
  end.

Lemma satisfies_in_tier c want ns : satisfies_in c want ns = true → has_tier c want.
Proof.
  destruct c as [| |t|g]; try done; unfold satisfies_in, caller_satisfies.
  destruct (fleet g) eqn:Hf; [left; done|]. cbn [negb orb has_tier]. intros H. right. destruct ns as [n|].
  - destruct (namespaces g !! n) as [s|] eqn:Hn; [by exists n, s|done].
  - apply existsb_exists in H as (s & Hin%list_elem_of_In & Hs). unfold scopes_of in Hin.
    apply list_elem_of_fmap in Hin as ([n s'] & -> & Hn%elem_of_map_to_list). by exists n, s'.
Qed.

(** C1. Nothing passes the admin gate beyond its credential: a request is allowed only as the
    caller it proves to be (nobody when no gate is configured, the operator for the exact
    configured header, a live app-token, or a grant the auth service gave for a bearer that is
    not a local token), with the tier the route wants; and on a route about a deployment,
    exactly within the namespace wall and the list of that caller, on a feed only that of its
    own namespaces, and on a fleet-wide route only with the whole fleet. *)
Theorem access_is_walled auth tokens registry resolve want now r c :
  fst (authorize sha256 form_parse auth tokens registry resolve want now r) = Allow c →
  genuine auth tokens resolve now r c ∧ has_tier c want ∧
  ∀ m, r_matched r = Some m →
    match deployment_of m (r_path r) with
    | Some i => reaches c want i (registry !! i)
    | None =>
      if String.eqb m "/feeds/:namespace" then reads_feed c (feed_of (r_path r))
      else handler_walled m ∨ narrows_itself m = true ∨ whole_fleet c
    end.
Proof.
  unfold authorize, decide_access. destruct auth as [a|].
  2: { intros [= <-]. split_and!; [done..|]. intros m _. destruct (deployment_of m _); [done|].
       destruct (String.eqb m _); [by left|by right; right]. }
  destruct (identify _ _ a tokens _ now) as [o st] eqn:Hid. cbn [fst].
  destruct o as [c'|]; [|done].
  pose proof (identify_spec a tokens registry resolve now r c' ltac:(by rewrite Hid)) as Hgen.
  cbn [target_namespace present matched path]. set (ns := _ ≫= _).
  destruct (satisfies_in c' want ns) eqn:Hsat; cbn [negb]; [|done].
  pose proof (satisfies_in_tier _ _ _ Hsat) as Htier. unfold ns in *. clear ns.
  destruct (r_matched r) as [m|]; [|by intros [= <-]]. cbn [mbind option_bind] in *.
  intros Hv. assert (c' = c) as ->.
  { unfold decide_route in Hv. repeat case_match; congruence. }
  split; [done|]. split; [done|]. intros m' [= <-].
  pose proof (decide_route_spec c m (r_path r) _ want _ Hsat Hv) as Hspec.
  destruct (deployment_of m (r_path r)) as [i|]; cbn [mbind option_bind] in *; [by apply Hspec|].
  destruct (String.eqb m _); by apply Hspec.
Qed.

(** The wall is exact for the deployments of a token: with a live app-token as its bearer
    and the tier of the route, a request about a deployment is allowed if and only if the
    deployment is in the token's namespace and its list, or, for a token of no namespace, in
    its list; otherwise the refusal is the same whether or not the deployment exists. *)
Theorem token_reach_is_exact a tokens registry resolve want now r m i raw t :
  r_header r ≠ Some a → bearer (r_header r) = Some raw →
  fst (verify sha256 tokens raw now) = Some t → satisfies (admin t) want = true →
  r_matched r = Some m → deployment_of m (r_path r) = Some i →
  let v := fst (authorize sha256 form_parse (Some a) tokens registry resolve want now r) in
  (v = Allow (Token t) ↔ reaches (Token t) want i (registry !! i)) ∧
  (v ≠ Allow (Token t) → v = Forbidden (out_of_scope i)).
Proof.
  intros Hh Hb Hv Hsat Hm Hi. cbv zeta. unfold authorize, decide_access, identify.
  assert (accepts a (r_header r) = false) as Hacc.
  { unfold accepts. destruct (r_header r) as [h|]; [|done]. rewrite ct_eq_eqb. apply String.eqb_neq. congruence. }
  cbn [header present query matched]. rewrite Hacc, Hb. cbn [or_else].
  destruct (verify sha256 tokens raw now) as [o st] eqn:E. cbn [fst] in Hv. subst o.
  cbn [fst target_namespace present path]. rewrite Hm. cbn [mbind option_bind]. rewrite Hi. cbn [mbind option_bind].
  assert (satisfies_in (Token t) want (registry !! i) = true) as Hs by done.
  rewrite Hs. cbn [negb].
  rewrite <- (may_touch_spec _ _ _ _ Hs). unfold decide_route. rewrite Hi.
  by destruct (may_touch (Token t) i (registry !! i)).
Qed.
End policy.

(** ** Scopes of a grant *)

Lemma satisfies_trans a b c : satisfies a b = true → satisfies b c = true → satisfies a c = true.
Proof. by destruct a, b, c. Qed.

(** A scope string grants tier [s] in namespace [ns]. *)
Definition names_scope (scope ns : string) (s : AdminScope) : Prop :=
  ∃ tier, Str.split ":" scope = ["namespace"; ns; tier] ∧ is_valid_namespace ns = true ∧ tier_of tier = Some s.

Lemma add_scope_spec m fl scope ns want :
  (∃ s, fst (add_scope (m, fl) scope) !! ns = Some s ∧ satisfies s want = true) ↔
  (∃ s, m !! ns = Some s ∧ satisfies s want = true) ∨ (∃ s, names_scope scope ns s ∧ satisfies s want = true).
Proof.
  unfold add_scope, names_scope.
  assert (∀ m' : gmap string AdminScope, (∀ ns' tier s, Str.split ":" scope = ["namespace"; ns'; tier] →
      is_valid_namespace ns' = true → tier_of tier = Some s → False) → m' = m →
    (∃ s, m' !! ns = Some s ∧ satisfies s want = true) ↔
    (∃ s, m !! ns = Some s ∧ satisfies s want = true) ∨
    (∃ s, (∃ tier, Str.split ":" scope = ["namespace"; ns; tier] ∧ is_valid_namespace ns = true ∧
                   tier_of tier = Some s) ∧ satisfies s want = true)) as Hno.
  { intros m' H ->. split; [by left|]. intros [?|(s & (tier & H1 & H2 & H3) & _)]; [done|]. by destruct (H _ _ _ H1 H2 H3). }
  destruct (Str.split ":" scope) as [|a [|b [|tier [|]]]] eqn:Hs; try (by apply Hno).
  - destruct (String.eqb a "fleet" && String.eqb b "admin"); by apply Hno.
  - destruct (String.eqb_spec a "namespace") as [->|Ha]; [|apply Hno; [congruence|done]].
    destruct (is_valid_namespace b) eqn:Hb; [|apply Hno; [congruence|done]]. cbn [andb].
    destruct (tier_of tier) as [g|] eqn:Ht; [|apply Hno; [congruence|done]]. cbn [fst].
    destruct (decide (ns = b)) as [->|Hne].
    + rewrite lookup_insert_eq. destruct (m !! b) as [slot|] eqn:Hm; cbn [default].
      * unfold from_option, Datatypes.id. destruct (satisfies g slot) eqn:Hg.
        -- split; [intros (s & [= <-] & Hs'); right; by exists g; split; [exists tier|]|].
           intros [(s & [= <-] & Hs')|(s & (tier' & [= <-] & _ & Ht') & Hs')].
           ++ exists g. split; [done|]. by eapply satisfies_trans.
           ++ exists g. split; [done|]. congruence.
        -- split; [intros (s & [= <-] & Hs'); left; by exists slot|].
           intros [(s & [= <-] & Hs')|(s & (tier' & [= <-] & _ & Ht') & Hs')]; [by exists slot|].
           exists slot. split; [done|]. assert (s = g) as -> by congruence.
           by destruct g, slot, want.
      * cbn [from_option satisfies]. split.
        -- intros (s & [= <-] & Hs'). right. exists g. split; [by exists tier|done].
        -- intros [(s & [=] & _)|(s & (tier' & [= <-] & _ & Ht') & Hs')]. exists g. split; [done|]. congruence.
    + rewrite lookup_insert_ne by done. split; [by left|].
      intros [?|(s & (tier' & [= <- <-] & _) & _)]; done.
Qed.

(** A namespace granted more than once keeps its strongest tier, and nothing else is granted:
    a grant satisfies a tier in a namespace exactly when one of its scopes does. *)
Theorem parse_scopes_strongest scopes ns want :
  (∃ s, fst (parse_scopes scopes) !! ns = Some s ∧ satisfies s want = true) ↔
  ∃ scope s, scope ∈ scopes ∧ names_scope scope ns s ∧ satisfies s want = true.
Proof.
  unfold parse_scopes.
  assert (∀ acc, (∃ s, fst (foldl add_scope acc scopes) !! ns = Some s ∧ satisfies s want = true) ↔
    (∃ s, fst acc !! ns = Some s ∧ satisfies s want = true) ∨
    ∃ scope s, scope ∈ scopes ∧ names_scope scope ns s ∧ satisfies s want = true) as H.
  { induction scopes as [|x scopes IH]; intros acc; cbn [foldl].
    - split; [by left|]. intros [?|(scope & s & []%not_elem_of_nil & _)]. done.
    - rewrite IH. destruct acc as [m fl]. rewrite add_scope_spec. cbn [fst].
      setoid_rewrite elem_of_cons. naive_solver. }
  rewrite H. cbn [fst]. split; [|by right]. intros [(s & Hs & _)|?]; [by rewrite lookup_empty in Hs|done].
Qed.

(** ** Instances *)

Definition no_form (q : string) : list (string * string) := [].
Definition sample_registry : Registry := {[ "web" := "acme"; "db" := "other" ]}.
Definition agent_get (p : string) : Request :=
  {| r_header := Some ("Bearer " +:+ the_token); r_matched := Some "/deployments/:id"; r_path := p;
     r_query := None |}.
Definition ask (p : string) : Verdict :=
  fst (authorize sha no_form (Some "Basic b3A6cHc=") (store minted) sample_registry None ScopeView 200
         (agent_get p)).

Lemma access_is_walled_witness :
  match ask "/deployments/web" with
  | Allow c => has_tier c ScopeView ∧ reaches c ScopeView "web" (Some "acme")
  | _ => False
  end.
Proof.
  pose proof (access_is_walled sha no_form (Some "Basic b3A6cHc=") (store minted) sample_registry None
    ScopeView 200 (agent_get "/deployments/web")) as H.
  fold (ask "/deployments/web") in H.
  destruct (ask "/deployments/web") as [c| |] eqn:E; [|vm_compute in E; discriminate E..].
  destruct (H c eq_refl) as (_ & Ht & Hr). split; [exact Ht|]. exact (Hr _ eq_refl).
Defined.

Lemma token_reach_is_exact_witness :
  ask "/deployments/db" = Forbidden (out_of_scope "db") ∧
  ask "/deployments/nowhere" = Forbidden (out_of_scope "nowhere").
Proof.
  split; (eapply (token_reach_is_exact sha no_form "Basic b3A6cHc=" (store minted) sample_registry None
      ScopeView 200 (agent_get _)); [discriminate|vm_compute; reflexivity..|vm_compute; discriminate]).
Defined.
