(* ===== verification/LbSpec.v ===== *)
(** * Deployment specs: the data of [app-lb/src/config.rs]

    What an operator may write about a deployment, and why a spec is refused.  The records have
    the source's fields; the part of [DeploymentSpec] that [LbRegistry] leaves open is [Rest].
    Beside them the checks on paths and names that several blocks share: a path as
    [std::path::Path] takes it apart, and where it leads. *)
From Stdlib Require Import Ascii String ZArith Lia Bool.
From stdpp Require Import base option list strings gmap fin_maps sets.
From S2P Require Import Prelude LbTokens LbRegional LbPool LbRegistry.
Open Scope string_scope.
Open Scope list_scope.

(** ** Paths *)

(** [std::path::Component] of a Unix path. *)
Inductive Component : Type := RootDir | CurDir | ParentDir | Normal (name : string).
#[global] Instance Component_eq_dec : EqDecision Component.
Proof. solve_decision. Defined.

Definition segment (s : string) : option Component :=
  if String.eqb s "" || String.eqb s "." then None
  else if String.eqb s ".." then Some ParentDir
  else Some (Normal s).

(** [Path::components]: repeated separators and inner dots vanish, a leading dot of a relative
    path stays. *)
Definition components (p : string) : list Component :=
  (if Str.starts_with "/" p then [RootDir]
   else if bool_decide (head (Str.split "/" p) = Some ".") then [CurDir] else [])
  ++ omap segment (Str.split "/" p).

Definition is_absolute (p : string) : bool := Str.starts_with "/" p.

(** Where a path leads from the directory [at_], the innermost name first; [None] above the root. *)
Fixpoint walk (at_ : list string) (cs : list Component) : option (list string) :=
  match cs with
  | [] => Some at_
  | RootDir :: cs => walk [] cs
  | CurDir :: cs => walk at_ cs
  | ParentDir :: cs => match at_ with [] => None | _ :: up => walk up cs end
  | Normal n :: cs => walk (n :: at_) cs
  end.

(** A path that is joined to a directory and followed leads into it. *)
Definition stays_inside (p : string) : Prop :=
  ∀ at_, ∃ names, walk at_ (components p) = Some (names ++ at_).

(** [s.trim_end_matches(c)] for an ASCII character [c]. *)
Fixpoint trim_end_matches (c : ascii) (s : string) : string :=
  match s with
  | "" => ""
  | String b s' =>
    match trim_end_matches c s' with
    | "" => if Ascii.eqb b c then "" else String b ""
    | t => String b t
    end
  end.

Definition has_whitespace (s : string) : bool := existsb Chars.is_whitespace (Chars.chars s).
(** [char::is_control]. *)
Definition is_control (ch : string) : bool :=
  match ch with
  | String c "" => Str.in_range 0 31 c || Ascii.eqb c "127"
  | String c (String d "") => Ascii.eqb c "194" && Str.in_range 128 159 d
  | _ => false
  end.
Definition nul : string := String "000" "".
Definition chars_in (l : list ascii) (c : ascii) : bool := existsb (Ascii.eqb c) l.
(** Letters, digits, and the given others. *)
Definition word_char (l : list ascii) (c : ascii) : bool := Str.is_ascii_alphanumeric c || chars_in l c.

(** The names of a path. *)
Definition names_of (cs : list Component) : list string :=
  omap (λ c, match c with Normal n => Some n | _ => None end) cs.

(** ** Text *)

Lemma take_append n s t : (n <= String.length s)%nat → Str.take n (s +:+ t) = Str.take n s.
Proof.
  revert n. induction s as [|c s IH]; intros n Hn; [by destruct n; [|cbn in Hn; lia]; destruct t|].
  destruct n as [|n]; [done|]. cbn in Hn. cbn [Str.take]. change (String c s +:+ t) with (String c (s +:+ t)). cbn [Str.take].
  rewrite IH by lia. done.
Qed.
Lemma take_all s : Str.take (String.length s) s = s.
Proof. induction s as [|c s IH]; [done|]. cbn [String.length Str.take]. by rewrite IH. Qed.
Lemma take_drop_append n s : Str.take n s +:+ Str.drop n s = s.
Proof.
  revert s. induction n as [|n IH]; intros s; [by destruct s|]. destruct s as [|c s]; [done|]. cbn [Str.take Str.drop].
  change (String c (Str.take n s +:+ Str.drop n s) = String c s). by rewrite IH.
Qed.

Lemma ends_with_spec p s : Str.ends_with p s = true ↔ ∃ t, s = t +:+ p.
Proof.
  split.
  - unfold Str.ends_with. rewrite andb_true_iff, String.eqb_eq. intros [_ H].
    exists (Str.take (String.length s - String.length p) s). rewrite <- H at 2. by rewrite take_drop_append.
  - intros [t ->]. apply ends_with_app.
Qed.

Lemma strip_suffix_spec p s t : Str.strip_suffix p s = Some t ↔ s = t +:+ p.
Proof.
  unfold Str.strip_suffix. split.
  - destruct (Str.ends_with p s) eqn:E; [|done]. apply ends_with_spec in E as [x ->]. intros [= <-].
    rewrite Trim.length_append. replace (String.length x + String.length p - String.length p)%nat with (String.length x) by lia.
    by rewrite take_append, take_all by lia.
  - intros ->. rewrite ends_with_app, Trim.length_append.
    replace (String.length t + String.length p - String.length p)%nat with (String.length t) by lia.
    by rewrite take_append, take_all by lia.
Qed.

Lemma all_app f s t : Str.all f (s +:+ t) = Str.all f s && Str.all f t.
Proof.
  induction s as [|c s IH]; [done|]. change (String c s +:+ t) with (String c (s +:+ t)). cbn [Str.all].
  by rewrite IH, andb_assoc.
Qed.

(** The first piece of a text that has none of the separators before one. *)
Lemma split_first c s t : Str.all (λ b, negb (Ascii.eqb b c)) s = true → Str.split c (s +:+ String c t) = s :: Str.split c t.
Proof.
  induction s as [|b s IH]; intros H.
  - change ("" +:+ String c t) with (String c t). cbn [Str.split]. by rewrite Ascii.eqb_refl.
  - change (String b s +:+ String c t) with (String b (s +:+ String c t)). cbn [Str.all Str.split] in *.
    apply andb_true_iff in H as [Hb%negb_true_iff H]. rewrite Hb, IH by done. done.
Qed.
Lemma split_whole c s : Str.all (λ b, negb (Ascii.eqb b c)) s = true → Str.split c s = [s].
Proof.
  induction s as [|b s IH]; intros H; [done|]. cbn [Str.all Str.split] in *.
  apply andb_true_iff in H as [Hb%negb_true_iff H]. by rewrite Hb, IH.
Qed.

(** [slice.join(sep)]. *)
Fixpoint join (sep : string) (l : list string) : string :=
  match l with [] => "" | [x] => x | x :: l => x +:+ sep +:+ join sep l end.

Lemma split_sep c s t : Str.split c (s +:+ String c t) = Str.split c s ++ Str.split c t.
Proof.
  induction s as [|b s IH].
  - change ("" +:+ String c t) with (String c t). cbn [Str.split]. by rewrite Ascii.eqb_refl.
  - change (String b s +:+ String c t) with (String b (s +:+ String c t)). cbn [Str.split]. rewrite IH.
    destruct (Ascii.eqb b c); [done|]. destruct (Str.split c s) as [|p ps] eqn:E; [by apply Str.split_not_nil in E|done].
Qed.
Lemma join_split c s : join (String c "") (Str.split c s) = s.
Proof.
  induction s as [|b s IH]; [done|]. cbn [Str.split]. pose proof (Str.split_not_nil c s) as Hn.
  destruct (Str.split c s) as [|p ps]; [done|]. destruct (Ascii.eqb_spec b c) as [->|].
  - cbn [join]. cbn [join] in IH. by rewrite IH.
  - cbn [join] in *. destruct ps as [|q ps]; [by rewrite <- IH|].
    change (String b (p +:+ String c "" +:+ join (String c "") (q :: ps)) = String b s). f_equal. exact IH.
Qed.
Lemma join_app c l m : l ≠ [] → m ≠ [] → join (String c "") (l ++ m) = join (String c "") l +:+ String c (join (String c "") m).
Proof.
  intros Hl Hm. induction l as [|x l IH]; [done|]. destruct l as [|y l].
  - destruct m as [|z m]; [done|]. done.
  - change (x +:+ String c (join (String c "") ((y :: l) ++ m)) = (x +:+ String c (join (String c "") (y :: l))) +:+ String c (join (String c "") m)).
    rewrite IH by done. rewrite Str.append_assoc. done.
Qed.
(** A text begins with another and the separator when its pieces begin with the other's. *)
Lemma split_prefix c s t : Str.starts_with (s +:+ String c "") t = true ↔ ∃ l, l ≠ [] ∧ Str.split c t = Str.split c s ++ l.
Proof.
  rewrite Str.starts_with_spec. split.
  - intros (r & ->). exists (Str.split c r). split; [apply Str.split_not_nil|]. rewrite Str.append_assoc. by rewrite <- split_sep.
  - intros (l & Hl & E). exists (join (String c "") l). rewrite <- (join_split c t), E, join_app, join_split; [|apply Str.split_not_nil|done].
    by rewrite Str.append_assoc.
Qed.

(** A case mapping that leaves the separator alone maps the pieces. *)
Lemma split_map c f s : (∀ b, Ascii.eqb (f b) c = Ascii.eqb b c) → Str.split c (Str.map f s) = Str.map f <$> Str.split c s.
Proof.
  intros Hf. induction s as [|b s IH]; [done|]. cbn [Str.map Str.split]. rewrite Hf, IH.
  destruct (Ascii.eqb b c); [done|]. by destruct (Str.split c s).
Qed.

Lemma lowered_dot b : Ascii.eqb (Str.lower b) "." = Ascii.eqb b ".".
Proof. by destruct b as [[] [] [] [] [] [] [] []]. Qed.

(** ** Paths that stay where they are put *)

Lemma walk_app at_ cs ds : walk at_ (cs ++ ds) = d ← walk at_ cs; walk d ds.
Proof.
  revert at_. induction cs as [|[| | |n] cs IH]; intros at_; cbn; try done.
  destruct at_; [done|apply IH].
Qed.

(** Without a way up or to the root a path only descends. *)
Lemma walk_descends at_ cs :
  RootDir ∉ cs → ParentDir ∉ cs → walk at_ cs = Some (rev (names_of cs) ++ at_).
Proof.
  revert at_. induction cs as [|c cs IH]; intros at_ H1 H2; [done|]. rewrite not_elem_of_cons in H1, H2.
  destruct H1 as [H1 H1'], H2 as [H2 H2'].
  destruct c as [| | |n]; try done; cbn; rewrite IH by done; [done|]. unfold names_of. cbn. by rewrite <- (assoc_L (++)).
Qed.

Lemma segment_parent s : segment s = Some ParentDir ↔ s = "..".
Proof.
  unfold segment. destruct (String.eqb_spec s ""), (String.eqb_spec s "."), (String.eqb_spec s ".."); cbn; split; intros; congruence.
Qed.
Lemma segment_not_root s : segment s ≠ Some RootDir.
Proof. unfold segment. by repeat case_match. Qed.

Lemma components_root p : RootDir ∈ components p ↔ is_absolute p = true.
Proof.
  unfold components, is_absolute. destruct (Str.starts_with "/" p).
  - split; [done|]. intros _. apply elem_of_app. left. constructor.
  - split; [|done]. rewrite elem_of_app, list_elem_of_omap. intros [H|(s & _ & H)]; [|by apply segment_not_root in H].
    case_match; set_solver.
Qed.

Lemma components_parent p : ParentDir ∈ components p ↔ ".." ∈ Str.split "/" p.
Proof.
  unfold components. rewrite elem_of_app, list_elem_of_omap. split.
  - intros [H|(s & Hs & H)].
    + repeat case_match; set_solver.
    + apply segment_parent in H as ->. done.
  - intros H. right. by exists "..".
Qed.

(** The check the source makes in three places: not rooted, no way up. *)
Lemma relative_stays_inside p :
  is_absolute p = false → existsb (String.eqb "..") (Str.split "/" p) = false → stays_inside p.
Proof.
  intros Ha Hp at_. exists (rev (names_of (components p))). apply walk_descends.
  - by rewrite components_root, Ha.
  - rewrite components_parent. by apply existsb_eqb_false.
Qed.

(** Where an empty piece comes from. *)
Lemma empty_piece c r :
  "" ∈ Str.split c r →
  r = "" ∨ Str.starts_with (String c "") r = true ∨ Str.ends_with (String c "") r = true ∨ Str.contains (String c (String c "")) r = true.
Proof.
  intros H. apply list_elem_of_split in H as (l1 & l2 & E). pose proof (join_split c r) as Hr. rewrite E in Hr.
  destruct l1 as [|x l1].
  - destruct l2 as [|y l2]; [by left|]. right. left. apply Str.starts_with_spec. eexists. rewrite <- Hr. reflexivity.
  - right. right. rewrite join_app in Hr by done. destruct l2 as [|y l2].
    + left. apply ends_with_spec. eexists. rewrite <- Hr. reflexivity.
    + right. apply Str.contains_spec. eexists _, _. rewrite <- Hr. reflexivity.
Qed.

(** A rooted path without empty and dotted segments is its names. *)
Lemma components_rooted p :
  is_absolute p = true → ParentDir ∉ components p → Str.contains "//" p = false →
  Str.ends_with "/" p = false → "." ∉ Str.split "/" p →
  Str.split "/" p = "" :: names_of (components p) ∧ names_of (components p) ≠ [] ∧ components p = RootDir :: (Normal <$> names_of (components p)).
Proof.
  unfold is_absolute. intros Ha Hp Hc He Hd. apply Str.starts_with_spec in Ha as Ha'. destruct Ha' as (r & ->).
  change ("/" +:+ r) with ("" +:+ String "/" r) in *. rewrite split_sep in Hd. rewrite components_parent, split_sep in Hp.
  cbn [Str.split app] in Hd, Hp. rewrite not_elem_of_cons in Hd, Hp. destruct Hd as [_ Hd], Hp as [_ Hp].
  assert ("" ∉ Str.split "/" r) as Hn.
  { intros H. apply empty_piece in H as [-> |[H|[H|H]]].
    - done.
    - apply Str.starts_with_spec in H as (t & ->). change ("" +:+ String "/" ("/" +:+ t)) with ("//" +:+ t) in Hc.
      assert (Str.contains "//" ("//" +:+ t) = true) by (apply Str.contains_spec; by exists "", t). congruence.
    - apply ends_with_spec in H as (t & ->).
      assert (Str.ends_with "/" ("" +:+ String "/" (t +:+ "/")) = true) by (apply ends_with_spec; by exists ("/" +:+ t)). congruence.
    - apply Str.contains_spec in H as (a & b & ->).
      assert (Str.contains "//" ("" +:+ String "/" (a +:+ "//" +:+ b)) = true) by (apply Str.contains_spec; by exists ("/" +:+ a), b).
      congruence. }
  assert (omap segment (Str.split "/" r) = Normal <$> Str.split "/" r) as Ho.
  { clear -Hn Hd Hp. induction (Str.split "/" r) as [|x l IH]; [done|]. rewrite not_elem_of_cons in Hn, Hd, Hp.
    destruct Hn as [Hn Hn'], Hd as [Hd Hd'], Hp as [Hp Hp']. cbn. unfold segment at 1.
    destruct (String.eqb_spec x ""), (String.eqb_spec x "."), (String.eqb_spec x ".."); try congruence. cbn. by rewrite IH. }
  assert (components ("" +:+ String "/" r) = RootDir :: (Normal <$> Str.split "/" r)) as Hcomp.
  { unfold components. rewrite Ha, split_sep. cbn [Str.split app]. cbn. by rewrite Ho. }
  assert (∀ l, names_of (Normal <$> l) = l) as Hnames.
  { intros l. unfold names_of. induction l as [|x l IH]; [done|]. cbn. by rewrite IH. }
  rewrite Hcomp. unfold names_of. cbn [omap list_omap]. fold (names_of (Normal <$> Str.split "/" r)). rewrite Hnames.
  split_and!; [by rewrite split_sep|apply Str.split_not_nil|done].
Qed.

Lemma trim_end_matches_length c s : (String.length (trim_end_matches c s) <= String.length s)%nat.
Proof.
  induction s as [|b s IH]; [done|]. cbn [trim_end_matches]. destruct (trim_end_matches c s); [|cbn in *; lia].
  destruct (Ascii.eqb b c); cbn; lia.
Qed.

(** Only what is trimmed is lost. *)
Lemma trim_end_matches_prefix c s : ∃ t, s = trim_end_matches c s +:+ t ∧ Str.all (Ascii.eqb c) t = true.
Proof.
  induction s as [|b s (t & Ht & Hall)]; [by exists ""|]. cbn [trim_end_matches].
  destruct (trim_end_matches c s) as [|x y] eqn:E.
  - destruct (Ascii.eqb_spec b c) as [->|].
    + exists (String c s). split; [done|]. cbn [Str.all]. rewrite Ascii.eqb_refl. cbn. by rewrite Ht.
    + exists s. split; [done|]. by rewrite Ht.
  - exists t. split; [|done]. change (String b (String x y) +:+ t) with (String b (String x y +:+ t)). by rewrite Ht at 1.
Qed.

Lemma trim_end_matches_end c s : Str.ends_with (String c "") (trim_end_matches c s) = false.
Proof.
  induction s as [|b s IH]; [done|]. cbn [trim_end_matches]. destruct (trim_end_matches c s) as [|x y] eqn:E.
  - destruct (Ascii.eqb b c) eqn:Eb; [done|]. unfold Str.ends_with. cbn. by rewrite Eb.
  - unfold Str.ends_with in *. cbn [String.length] in *. rewrite Nat.sub_succ in *. cbn [Str.drop Nat.leb] in *.
    rewrite Nat.sub_0_r in *. cbn in IH |- *. exact IH.
Qed.

(** ** What a spec holds *)

Inductive Driver : Type := Firecracker | Kvm | Lxc | Libvirt | FirecrackerContainerd.
#[global] Instance Driver_eq_dec : EqDecision Driver.
Proof. solve_decision. Defined.

(** [Driver::as_str]. *)
Definition driver_str (d : Driver) : string :=
  match d with
  | Firecracker => "firecracker" | Kvm => "kvm" | Lxc => "lxc" | Libvirt => "libvirt"
  | FirecrackerContainerd => "firecracker_containerd"
  end.

Inductive SandboxDriver : Type := SandboxFirecracker | SandboxKvm.
(** [Driver::heyvm]. *)
Definition heyvm (d : Driver) : option SandboxDriver :=
  match d with Firecracker => Some SandboxFirecracker | Kvm => Some SandboxKvm | _ => None end.

Inductive IdleAction : Type := Destroy | Retain.
#[global] Instance IdleAction_eq_dec : EqDecision IdleAction.
Proof. solve_decision. Defined.

(** [SandboxSize] of the SDK, as the source mirrors it. *)
Inductive SandboxSize : Type := Micro | Mini | Small | Medium | Large | Xlarge.
#[global] Instance SandboxSize_eq_dec : EqDecision SandboxSize.
Proof. solve_decision. Defined.

Record ExpectedHeader : Type := { eh_name : string; eh_value : string }.
#[global] Instance ExpectedHeader_eq_dec : EqDecision ExpectedHeader.
Proof. solve_decision. Defined.

Record HealthCheck : Type := {
  expected_header : option ExpectedHeader;
  hc_path : option string;
  hc_port : option Z;
  hc_timeout_secs : Z;
}.
#[global] Instance HealthCheck_eq_dec : EqDecision HealthCheck.
Proof. solve_decision. Defined.

Record WorkspaceArchive : Type := {
  archive_id : option string;
  s3_key : option string;
  wa_size_bytes : option Z;
}.
#[global] Instance WorkspaceArchive_eq_dec : EqDecision WorkspaceArchive.
Proof. solve_decision. Defined.

Record MountSpec : Type := {
  ms_path : string;
  ms_store : string;
  ms_artifact_ref : string;
  ms_auth : option SecretRef;
  ms_strip_components : option nat;
  read_only : bool;
  ms_digest : option string;
}.
#[global] Instance MountSpec_eq_dec : EqDecision MountSpec.
Proof. solve_decision. Defined.

Record WorkspaceSpec : Type := {
  ws_path : option string;
  ws_store : string;
  ws_artifact_ref : option string;
  ws_auth : option SecretRef;
  snapshot_interval_secs : option Z;
}.
#[global] Instance WorkspaceSpec_eq_dec : EqDecision WorkspaceSpec.
Proof. solve_decision. Defined.

Record SecretEnv : Type := {
  se_secret : string;
  se_key : string;
  se_env : option string;
  se_namespace : option string;
}.
#[global] Instance SecretEnv_eq_dec : EqDecision SecretEnv.
Proof. solve_decision. Defined.

Record VmSpec : Type := {
  driver : Driver;
  correlated_creates : bool;
  image : option string;
  port : Z;                                   (** u16 *)
  start_command : option string;
  size_class : option SandboxSize;
  disk_size_gb : option Z;
  working_directory : option string;
  env_vars : option (gmap string string);
  setup_hooks : option (list string);
  open_ports : list Z;
  mounts : list MountSpec;
  workspace : option WorkspaceSpec;
  vm_env_from : list SecretEnv;
  workspace_archive : option WorkspaceArchive;
  image_download_url : option string;
  image_size_bytes : option Z;
  image_sha256 : option string;
  ttl_seconds : Z;
}.
#[global] Instance VmSpec_eq_dec : EqDecision VmSpec.
Proof. solve_decision. Defined.

Record BuildSpec : Type := {
  repo : option string;
  bs_store : option string;
  source_ref : option string;
  dockerfile : option string;
  context : option string;
  bs_image_name : option string;
  image_size_mb : option Z;
  bs_auth : option SecretRef;
}.
#[global] Instance BuildSpec_eq_dec : EqDecision BuildSpec.
Proof. solve_decision. Defined.

Record ArtifactSpec : Type := {
  as_store : string;
  as_artifact_ref : string;
  as_auth : option SecretRef;
  grow_gb : option Z;
  as_image_name : option string;
  as_strip_components : option nat;
}.
#[global] Instance ArtifactSpec_eq_dec : EqDecision ArtifactSpec.
Proof. solve_decision. Defined.

Record UpdateSpec : Type := {
  working_dir : string;
  commands : list string;
  us_env : option (gmap string string);
  us_env_from : list SecretEnv;
  us_auth : option SecretRef;
  timeout_secs : option Z;
  verify_timeout_secs : option Z;
}.
#[global] Instance UpdateSpec_eq_dec : EqDecision UpdateSpec.
Proof. solve_decision. Defined.

Record SiteSpec : Type := {
  root : string;
  index_file : string;
  not_found : option string;
  spa : bool;
  cache_control : string;
}.
#[global] Instance SiteSpec_eq_dec : EqDecision SiteSpec.
Proof. solve_decision. Defined.

Record FeedSpec : Type := { announce : bool; issues : bool; expose : option string }.
#[global] Instance FeedSpec_eq_dec : EqDecision FeedSpec.
Proof. solve_decision. Defined.

Record IngressSpec : Type := { cloud : bool; is_public_ingress : bool }.
#[global] Instance IngressSpec_eq_dec : EqDecision IngressSpec.
Proof. solve_decision. Defined.

(** *** The sign-in gate *)

Inductive AuthProvider : Type := Google | AppToken | Jwt.
#[global] Instance AuthProvider_eq_dec : EqDecision AuthProvider.
Proof. solve_decision. Defined.

Inductive PathScope : Type := PathPublic | PathNone | PathView | PathAdmin.
#[global] Instance PathScope_eq_dec : EqDecision PathScope.
Proof. solve_decision. Defined.

Record PublicPath : Type := { pp_path : string; pp_scope : PathScope }.
#[global] Instance PublicPath_eq_dec : EqDecision PublicPath.
Proof. solve_decision. Defined.

Section with_json.
(** [serde_json::Value]: what a claim must hold. *)
Context {Json : Type} `{!EqDecision Json}.

Record JwtSpec : Type := {
  js_secret : option SecretRef;
  public_key : option string;
  jwks_url : option string;
  algorithms : list string;
  issuer : string;
  audience : option string;
  require : gmap string Json;
  subject_claim : string;
  email_claim : string;
  name_claim : string;
  leeway_secs : option Z;
  cookie : option string;
  login_endpoint : option string;
  login_url : option string;
  login_redirect_param : option string;
}.
#[global] Instance JwtSpec_eq_dec : EqDecision JwtSpec.
Proof using EqDecision0. solve_decision. Defined.

Record AuthGate : Type := {
  provider : list AuthProvider;
  client_id : option string;
  client_secret : option SecretRef;
  allowed_domains : list string;
  allowed_emails : list string;
  public_paths : list PublicPath;
  session_scope : option AdminScope;
  base_path : string;
  session_ttl_secs : Z;
  cookie_name : string;
  cookie_domain : option string;
  redirect_url : option string;
  forward_identity : bool;
  jwt : option JwtSpec;
  provider_ref : option string;
}.
#[global] Instance AuthGate_eq_dec : EqDecision AuthGate.
Proof using EqDecision0. solve_decision. Defined.

Record AuthProviderSpec : Type := {
  ap_name : string;
  ap_namespace : string;
  ap_description : option string;
  ap_created_at : Z;
  ap_provider : list AuthProvider;
  ap_client_id : option string;
  ap_client_secret : option SecretRef;
  ap_allowed_domains : list string;
  ap_allowed_emails : list string;
  ap_jwt : option JwtSpec;
  ap_cookie_domain : option string;
}.

(** What [LbRegistry.DeploymentSpec] leaves open, the rest of the scaling policy included. *)
Record Rest : Type := {
  account_id : option string;
  user_id : option string;
  vm : option VmSpec;
  health : HealthCheck;
  drain_timeout_secs : Z;
  boot_timeout_secs : Z;
  idle_action : IdleAction;
  build : option BuildSpec;
  artifact : option ArtifactSpec;
  update_spec : option UpdateSpec;
  gate : option AuthGate;
  feed : option FeedSpec;
  ingress : option IngressSpec;
}.
#[global] Instance Rest_eq_dec : EqDecision Rest.
Proof using EqDecision0. solve_decision. Defined.
End with_json.
Arguments JwtSpec : clear implicits.
Arguments AuthGate : clear implicits.
Arguments AuthProviderSpec : clear implicits.
Arguments Rest : clear implicits.

Record NamespaceSpec : Type := { nss_name : string; nss_description : option string; nss_created_at : Z }.

Record WorkflowSpec : Type := {
  wf_id : string;
  wf_repo : string;
  git_ref : string;
  wf_path : string;
  network : string;
  wf_auth : option SecretRef;
  secrets_prefix : option string;
  enabled : bool;
}.

(** ** Why a spec is refused *)

(** [secrets::SecretError], as far as a reference can meet it. *)
Inductive SecretError : Type := SecretEmptyId | SecretBadId (id : string) | SecretBadKey (key : string).

(** The shape of a gateway deployment, and [LbRegional]'s check of the transport. *)
Inductive GatewayRefusal : Type := GatewayShape | GatewayTransport (e : GatewayError).

(** The texts of [InvalidDiscoverySource]. *)
Inductive DiscoveryRefusal : Type :=
| RegionNotBounded | SourceUrl | SourceAuth (e : SecretError) | RegionalShape | RegionalNotBounded
| RegionalAuth (e : SecretError).

Inductive SpecError : Type :=
| EmptyId | ReservedNamespace | DescriptionTooLong | SpecBadNamespace (ns : string)
| BadFeedExpose (p : string) | FeedExposeWithoutRoutes | IngressWithoutVm
| BadWorkflowId (i : string) | EmptyWorkflowRepo | EmptyWorkflowRef | EmptyWorkflowNetwork | BadWorkflowPath (p : string)
| NoRoutes | EmptyRoute | StripPrefixWithoutPath | AuthWithoutRoutes
| UnsupportedDriver (d : Driver) | NotForLxc (what : string) | LxcNotYet (what : string) | LxcNeedsImage
| LxcBadImage (i : string) | BadLxcId (i why : string)
| BadReplicaRange (min max : Z) | ZeroTargetConcurrency | ZeroPort
| EmptySiteRoot | RelativeSiteRoot (p : string) | BadSitePath (field value : string) | SpaWithoutIndex
| SiteWithOtherBackend | NotForSites (what : string) | OnlyForSites (what : string) | BothSiteSources
| BothBackendKinds | NoBackendKind | EmptyDiscoveryServiceId | DiscoveryWithOtherBackend
| InvalidDiscoverySource (e : DiscoveryRefusal) | InvalidGateway (e : GatewayRefusal) | SpecBadUpstream (u : string)
| BuildOnStaticDeployment | ArtifactOnStaticDeployment | BothImageSources | UpdateOnManagedDeployment
| UnresolvedWorkspaceArchive (i : string) | ArchiveWithWorkspace
| EmptyWorkingDir | BadWorkingDir (d : string) | NoCommands | BadCommand (c : string) | BadEnvName (n : string) | ZeroTimeout
| EmptyClientId | NoAuthProvider | OauthWithoutGoogle | JwtWithoutPolicy | JwtPolicyWithoutProvider | AllowListOnJwtGate
| NoJwtKey | AmbiguousJwtKey (l : list string) | BadJwtPublicKey (e : string) | BadJwksUrl (u : string) | InsecureJwksUrl (u : string)
| NoJwtAlgorithms | BadJwtAlgorithm (a : string) | JwtAlgorithmKeyMismatch (algorithm : string) (symmetric_key : bool)
| BadJwtIssuer (i : string) | BadJwtAudience (a : string) | BadJwtLoginEndpoint | BadLoginUrl (u : string) | LoginUrlWithoutCookie
| EmptyJwtClaimName | JwtLeewayTooLarge (secs max : Z)
| EmptyAllowList | BadAllowedDomain (d : string) | BadAllowedEmail (e : string) | BadAuthBasePath (p : string)
| BadPublicPath (p : string) | ZeroSessionTtl | BadCookieName (n : string) | BadCookieDomain (d : string)
| AuthCallbackUnroutable (p : string) | ProviderRefWithInlineIdentity | BadAuthProviderName (n : string)
| UnknownAuthProvider (namespace name : string) | UnknownAuthPreset (p : string)
| EmptyRepo | UnsupportedRepoUrl (r : string) | BadBuildRef (r : string) | BadBuildPath (p : string) | BadImageName (n : string)
| BothBuildSources | NoBuildSource | EmptyBuildStore | UnsupportedBuildStore (s : string) | MissingBuildRef
| BadBuildArtifactRef (r : string) | OnlyForGitBuilds (what : string)
| EmptyArtifactStore | UnsupportedArtifactStore (s : string) | BadArtifactRef (r : string) | ZeroGrow
| BadMountPath (path why : string) | DuplicateMountPath (p : string) | NestedMountPath (outer inner : string)
| TooManyMounts (count max : nat) | BadMountStore (path store : string) | BadMountRef (path reference : string)
| BadMountDigest (path digest : string) | WritableMountOnKvm (path : string)
| BadSecretRef (field : string) (e : SecretError)
| WorkspaceDriver (d : Driver) | BadWorkspacePath (path why : string) | BadWorkspaceStore (s : string) | BadWorkspaceRef (r : string)
| WorkspaceReplicas (n : Z) | WorkspaceWarmPool (n : Z) | WorkspaceSnapshotInterval (n : Z)
| WorkspaceCollidesWithMount (workspace mount : string).

(** [SecretRef::validate]. *)
Definition validate_ref (r : SecretRef) : result SecretError unit :=
  bail_if (String.eqb (Chars.trim (sr_secret r)) "") SecretEmptyId ;;?
  bail_if (negb (valid_secret_id (sr_secret r))) (SecretBadId (sr_secret r)) ;;?
  bail_if (negb (valid_secret_key (sr_key r))) (SecretBadKey (sr_key r)).

(** [auth.validate().map_err(..)?] on a reference that may be absent. *)
Definition map_err {E F A} (f : E → F) (m : result E A) : result F A :=
  match m with Ok a => Ok a | Err e => Err (f e) end.
Definition validate_auth (field : string) (r : option SecretRef) : result SpecError unit :=
  match r with Some r => map_err (BadSecretRef field) (validate_ref r) | None => Ok tt end.

(** A loop that returns at the first failure. *)
Fixpoint all_ok {E A} (f : A → result E unit) (l : list A) : result E unit :=
  match l with [] => Ok tt | a :: l => f a ;;? all_ok f l end.

(** A loop that returns at the first field that is set. *)
Definition refuse_set {E} (f : string → E) (l : list (string * bool)) : result E unit :=
  all_ok (λ p, bail_if (snd p) (f (fst p))) l.

Lemma map_err_ok {E F A} (f : E → F) (m : result E A) a : map_err f m = Ok a ↔ m = Ok a.
Proof. destruct m; cbn; split; congruence. Qed.

Lemma all_ok_spec {E A} (f : A → result E unit) l : all_ok f l = Ok tt ↔ Forall (λ a, f a = Ok tt) l.
Proof.
  induction l as [|a l IH]; cbn; [by split|]. rewrite seq_ok, Forall_cons, IH. done.
Qed.

Lemma refuse_set_ok {E} (f : string → E) l : refuse_set f l = Ok tt ↔ Forall (λ p, snd p = false) l.
Proof. unfold refuse_set. rewrite all_ok_spec. apply Forall_proper; [|done]. intros p. apply bail_if_ok. Qed.
