(* ===== verification/LbGate.v ===== *)
(** * The sign-in gate of a deployment: [AuthGate], [JwtSpec], [AuthProviderSpec] of [app-lb/src/config.rs]

    Who a gate lets in, how its tokens are verified, which paths it leaves to other checks, how
    wide its cookie is, and when such a block is accepted.  The identity half may come from a
    provider of the namespace; it is checked by the same function either way. *)
From Stdlib Require Import Ascii String ZArith Lia Bool.
From stdpp Require Import base option list strings gmap fin_maps sets.
From S2P Require Import Prelude LbRoutes LbTokens LbRegional LbPool LbRegistry LbSpec.
Open Scope string_scope.
Open Scope list_scope.

(** ** Algorithms: [jwt.rs] *)

Inductive Algorithm : Type := Hs256 | Hs384 | Hs512 | Rs256 | Rs384 | Rs512 | Ps256 | Ps384 | Ps512 | Es256 | Es384.
#[global] Instance Algorithm_eq_dec : EqDecision Algorithm.
Proof. solve_decision. Defined.

Definition all_algorithms : list Algorithm := [Hs256; Hs384; Hs512; Rs256; Rs384; Rs512; Ps256; Ps384; Ps512; Es256; Es384].
(** [Algorithm::as_str]. *)
Definition alg_str (a : Algorithm) : string :=
  match a with
  | Hs256 => "HS256" | Hs384 => "HS384" | Hs512 => "HS512" | Rs256 => "RS256" | Rs384 => "RS384" | Rs512 => "RS512"
  | Ps256 => "PS256" | Ps384 => "PS384" | Ps512 => "PS512" | Es256 => "ES256" | Es384 => "ES384"
  end.
(** [Algorithm::parse]. *)
Definition alg_parse (name : string) : option Algorithm := List.find (λ a, String.eqb (alg_str a) name) all_algorithms.
(** [Algorithm::is_symmetric]. *)
Definition alg_symmetric (a : Algorithm) : bool := match a with Hs256 | Hs384 | Hs512 => true | _ => false end.

(** ** URLs and names *)

Inductive JwksUrlProblem : Type := Malformed | Plaintext.

(** The host of an authority, as the check reads it: up to the last colon. *)
Definition authority_host (rest : string) : string :=
  let authority := before_any ["/"; "?"; "#"]%char rest in
  match Chars.rsplit_once ":" authority with Some (h, _) => h | None => authority end.

Definition loopback_host (host : string) : bool :=
  existsb (String.eqb host) ["localhost"; "127.0.0.1"; "[::1]"; "::1"] || Str.starts_with "127." host.

(** [jwks_url_problem]. *)
Definition jwks_url_problem (url : string) : option JwksUrlProblem :=
  if has_whitespace url || Str.contains nul url then Some Malformed
  else
    match Str.strip_prefix "https://" url with
    | Some rest => if String.eqb rest "" then Some Malformed else None
    | None =>
      match Str.strip_prefix "http://" url with
      | None => Some Malformed
      | Some rest =>
        if String.eqb rest "" then Some Malformed
        else if negb (loopback_host (authority_host rest)) then Some Plaintext else None
      end
    end.

(** [is_valid_cookie_name]. *)
Definition is_valid_cookie_name (name : string) : bool :=
  negb (String.eqb name "")
  && Str.all (word_char ["!"; "#"; "$"; "%"; "&"; "'"; "*"; "+"; "-"; "."; "^"; "_"; "`"; "|"; "~"]%char) name.

Definition label_ok (l : string) : bool :=
  negb (String.eqb l "") && (String.length l <=? 63)%nat && negb (Str.starts_with "-" l) && negb (Str.ends_with "-" l)
  && Str.all (word_char ["-"]%char) l.

(** [normalize_cookie_domain]. *)
Definition normalize_cookie_domain (raw : string) : option string :=
  let d := trim_end_matches "." (Str.trim_start_matches "." (Chars.trim raw)) in
  if String.eqb d "" || (253 <? String.length d)%nat then None
  else if (length (Str.split "." d) <? 2)%nat then None
  else if forallb label_ok (Str.split "." d) then Some (Str.to_ascii_lowercase d) else None.

(** ** Gates *)

Definition DEFAULT_SUBJECT_CLAIM : string := "sub".
Definition DEFAULT_EMAIL_CLAIM : string := "email".
Definition DEFAULT_NAME_CLAIM : string := "name".
Definition MAX_JWT_LEEWAY_SECS : Z := 300.

(** [PathScope::required]. *)
Definition path_required (s : PathScope) : option AdminScope :=
  match s with PathPublic => None | PathNone => Some ScopeNone | PathView => Some ScopeView | PathAdmin => Some ScopeAdmin end.

(** [iter.max_by_key(f)]: the last of the maximal elements. *)
Fixpoint max_by_key {A} (key : A → nat) (l : list A) : option A :=
  match l with
  | [] => None
  | x :: l =>
    match max_by_key key l with
    | Some y => if (key x <=? key y)%nat then Some y else Some x
    | None => Some x
    end
  end.

(** A string that says nothing, or has blanks around it. *)
Definition blank (s : string) : bool := String.eqb (Chars.trim s) "".
Definition padded (s : string) : bool := negb (String.length (Chars.trim s) =? String.length s)%nat.

Section gate.
(** [serde_json::Value] with its [Display]; the URL parser, OpenSSL's parsers of a certificate and of a
    public key, and SHA-256. *)
Context {Json : Type} `{!EqDecision Json} (show_json : Json → string) (role : Json) (url_parse : string → option Url)
  (x509_key pem_key : string → result string unit) (sha256 : string → list N).
Local Abbreviation JwtSpec := (JwtSpec Json).
Local Abbreviation AuthGate := (AuthGate Json).
Local Abbreviation AuthProviderSpec := (AuthProviderSpec Json).

(** [JwtSpec::heyo]; [role] is the JSON of [["user", "admin"]]. *)
Definition heyo (secret : SecretRef) : JwtSpec :=
  {| js_secret := Some secret; public_key := None; jwks_url := None; algorithms := ["HS256"]; issuer := "auth-service";
     audience := Some "heyo-app"; require := {["role" := role]}; subject_claim := "userId";
     email_claim := DEFAULT_EMAIL_CLAIM; name_claim := DEFAULT_NAME_CLAIM; leeway_secs := None; cookie := None;
     login_endpoint := None; login_url := None; login_redirect_param := None |}.
(** [JwtSpec::heyo_jwks]. *)
Definition heyo_jwks (url : string) : JwtSpec :=
  {| js_secret := None; public_key := None; jwks_url := Some url; algorithms := ["RS256"]; issuer := "auth-service";
     audience := Some "heyo-gate"; require := {["role" := role]}; subject_claim := "userId";
     email_claim := DEFAULT_EMAIL_CLAIM; name_claim := DEFAULT_NAME_CLAIM; leeway_secs := None; cookie := None;
     login_endpoint := None; login_url := None; login_redirect_param := None |}.

(** [JwtSpec::accepts]. *)
Definition accepts_alg (j : JwtSpec) (a : Algorithm) : bool := existsb (String.eqb (alg_str a)) (algorithms j).
(** [JwtSpec::leeway_secs]. *)
Definition leeway (j : JwtSpec) : Z := Z.min (default 0%Z (leeway_secs j)) MAX_JWT_LEEWAY_SECS.
(** [JwtSpec::is_symmetric]. *)
Definition is_symmetric (j : JwtSpec) : bool := is_some (js_secret j).

(** The key sources a policy names. *)
Definition key_sources (j : JwtSpec) : list string :=
  omap (λ p, if snd p : bool then Some (fst p) else None)
    [("jwt.secret", is_some (js_secret j)); ("jwt.public_key", is_some (public_key j)); ("jwt.jwks_url", is_some (jwks_url j))].

(** One entry of [jwt.algorithms]. *)
Definition validate_algorithm (j : JwtSpec) (name : string) : result SpecError unit :=
  alg <-? ok_or (alg_parse name) (BadJwtAlgorithm name) ;;
  bail_if (negb (Bool.eqb (alg_symmetric alg) (is_symmetric j))) (JwtAlgorithmKeyMismatch name (is_symmetric j)).

Definition one_of_hosts (h : option string) : bool :=
  existsb (λ x, bool_decide (h = Some x)) ["localhost"; "127.0.0.1"; "[::1]"].
Definition endpoint_ok (endpoint : string) : bool :=
  match url_parse endpoint with
  | None => false
  | Some u =>
    (String.eqb (url_scheme u) "https" || (String.eqb (url_scheme u) "http" && one_of_hosts (url_host_str u)))
    && is_some (url_host_str u) && String.eqb (url_username u) "" && negb (is_some (url_password u))
    && negb (is_some (url_query u)) && negb (is_some (url_fragment u))
  end.

(** [jwt::public_key_from_pem]. *)
Definition public_key_from_pem (pem : string) : result string unit :=
  let pem := Chars.trim pem in
  if Str.contains "BEGIN CERTIFICATE" pem then map_err (λ e, "not a usable certificate: " +:+ e) (x509_key pem)
  else map_err (λ e, "not a usable PEM public key: " +:+ e) (pem_key pem).

(** [JwtSpec::validate]. *)
Definition validate_jwt (j : JwtSpec) : result SpecError unit :=
  match key_sources j with [] => Err NoJwtKey | [_] => Ok tt | many => Err (AmbiguousJwtKey many) end ;;?
  validate_auth "jwt.secret" (js_secret j) ;;?
  match public_key j with Some pem => map_err BadJwtPublicKey (public_key_from_pem pem) | None => Ok tt end ;;?
  match jwks_url j with
  | Some url =>
    match jwks_url_problem (Chars.trim url) with
    | None => Ok tt
    | Some Malformed => Err (BadJwksUrl (Chars.trim url))
    | Some Plaintext => Err (InsecureJwksUrl (Chars.trim url))
    end
  | None => Ok tt
  end ;;?
  bail_if (bool_decide (algorithms j = [])) NoJwtAlgorithms ;;?
  all_ok (validate_algorithm j) (algorithms j) ;;?
  bail_if (blank (issuer j) || padded (issuer j)) (BadJwtIssuer (issuer j)) ;;?
  match audience j with Some aud => bail_if (blank aud || padded aud) (BadJwtAudience aud) | None => Ok tt end ;;?
  all_ok (λ c, bail_if (blank c) EmptyJwtClaimName) [subject_claim j; email_claim j; name_claim j] ;;?
  bail_if (existsb (λ p, blank (fst p)) (map_to_list (require j))) EmptyJwtClaimName ;;?
  match leeway_secs j with Some n => bail_if (MAX_JWT_LEEWAY_SECS <? n)%Z (JwtLeewayTooLarge n MAX_JWT_LEEWAY_SECS) | None => Ok tt end ;;?
  match cookie j with Some c => bail_if (negb (is_valid_cookie_name c)) (BadCookieName c) | None => Ok tt end ;;?
  match login_endpoint j with
  | Some e => bail_if (negb (endpoint_ok e) || negb (is_some (cookie j))) BadJwtLoginEndpoint
  | None => Ok tt
  end ;;?
  match login_url j with
  | Some url =>
    bail_if (is_some (jwks_url_problem (Chars.trim url))) (BadLoginUrl (Chars.trim url)) ;;?
    bail_if (negb (is_some (cookie j))) LoginUrlWithoutCookie
  | None => Ok tt
  end.

(** [Providers::contains]. *)
Definition contains_provider (ps : list AuthProvider) (p : AuthProvider) : bool := existsb (λ q, bool_decide (q = p)) ps.

Definition domain_ok (d : string) : bool :=
  negb (padded d) && negb (String.eqb d "") && (String.eqb d "*" || Str.contains "." d).
Definition email_ok (e : string) : bool := Str.contains "@" e && negb (padded e).

(** [validate_identity]. *)
Definition validate_identity (provider : list AuthProvider) (client_id : option string) (client_secret : option SecretRef)
    (allowed_domains allowed_emails : list string) (jwt : option JwtSpec) : result SpecError unit :=
  let no_list := bool_decide (allowed_domains = []) && bool_decide (allowed_emails = []) in
  let accepts_google := contains_provider provider Google in
  bail_if (bool_decide (provider = [])) NoAuthProvider ;;?
  (if accepts_google then
     match client_id, client_secret with
     | None, _ => Err EmptyClientId
     | Some i, o =>
       bail_if (blank i) EmptyClientId ;;?
       match o with None => Err EmptyClientId | Some r => map_err (BadSecretRef "auth.client_secret") (validate_ref r) end ;;?
       bail_if no_list EmptyAllowList
     end
   else bail_if (is_some client_id || is_some client_secret) OauthWithoutGoogle) ;;?
  match contains_provider provider Jwt, jwt with
  | true, Some j => validate_jwt j ;;? bail_if (negb accepts_google && negb no_list) AllowListOnJwtGate
  | true, None => Err JwtWithoutPolicy
  | false, Some _ => Err JwtPolicyWithoutProvider
  | false, None => Ok tt
  end ;;?
  all_ok (λ d, bail_if (negb (domain_ok d)) (BadAllowedDomain d)) allowed_domains ;;?
  all_ok (λ e, bail_if (negb (email_ok e)) (BadAllowedEmail e)) allowed_emails.

(** [AuthGate::callback_path], [login_path], [logout_path]. *)
Definition base (g : AuthGate) : string := trim_end_matches "/" (base_path g).
Definition callback_path (g : AuthGate) : string := base g +:+ "/callback".
Definition login_path (g : AuthGate) : string := base g +:+ "/login".
Definition logout_path (g : AuthGate) : string := base g +:+ "/logout".

(** [AuthGate::public_scope], [is_public]. *)
Definition public_scope (g : AuthGate) (path : string) : option PathScope :=
  pp_scope <$> max_by_key (λ p, String.length (pp_path p)) (List.filter (λ p, Str.starts_with (pp_path p) path) (public_paths g)).
Definition is_public (g : AuthGate) (path : string) : bool := is_some (public_scope g path).

(** [AuthGate::allows]. *)
Definition allows (g : AuthGate) (email : string) (hosted_domain : option string) : bool :=
  let email := Str.to_ascii_lowercase email in
  existsb (λ e, Str.eq_ignore_ascii_case e email) (allowed_emails g)
  || existsb (λ d, String.eqb d "*"
                   || match hosted_domain with
                      | Some hd => Str.eq_ignore_ascii_case hd (Str.trim_start_matches "@" d)
                      | None => false
                      end) (allowed_domains g).

(** [AuthGate::cookie_domain_for]. *)
Definition cookie_domain_for (g : AuthGate) (host : string) : option string :=
  realm ← cookie_domain g ≫= normalize_cookie_domain;
  let host := Str.to_ascii_lowercase (before_any [":"%char] (trim_end_matches "." host)) in
  let covers :=
    String.eqb host realm || match Str.strip_suffix realm host with Some head => Str.ends_with "." head | None => false end in
  if covers then Some realm else None.

(** [AuthGate::accepts_google], [accepts_app_token], [accepts_jwt], [jwt_policy], [google_credentials]. *)
Definition accepts_google (g : AuthGate) : bool := contains_provider (provider g) Google.
Definition accepts_app_token (g : AuthGate) : bool := contains_provider (provider g) AppToken.
Definition accepts_jwt (g : AuthGate) : bool := contains_provider (provider g) Jwt.
Definition jwt_policy (g : AuthGate) : option JwtSpec := if accepts_jwt g then jwt g else None.
Definition google_credentials (g : AuthGate) : option (string * SecretRef) :=
  if accepts_google g then i ← client_id g; r ← client_secret g; Some (i, r) else None.

(** [AuthGate::has_inline_identity]. *)
Definition has_inline_identity (g : AuthGate) : bool :=
  is_some (client_id g) || is_some (client_secret g) || negb (bool_decide (allowed_domains g = []))
  || negb (bool_decide (allowed_emails g = [])) || is_some (jwt g) || is_some (cookie_domain g).

(** [AuthGate::validate]. *)
Definition validate_gate (g : AuthGate) (routes : list RouteRule) : result SpecError unit :=
  (if is_some (provider_ref g) then bail_if (has_inline_identity g) ProviderRefWithInlineIdentity
   else validate_identity (provider g) (client_id g) (client_secret g) (allowed_domains g) (allowed_emails g) (jwt g)) ;;?
  bail_if (negb (Str.starts_with "/" (base g)) || (String.length (base g) <? 2)%nat || has_whitespace (base g))
    (BadAuthBasePath (base_path g)) ;;?
  all_ok (λ p, bail_if (negb (Str.starts_with "/" (pp_path p))) (BadPublicPath (pp_path p))) (public_paths g) ;;?
  bail_if (session_ttl_secs g =? 0)%Z ZeroSessionTtl ;;?
  bail_if (negb (is_valid_cookie_name (cookie_name g))) (BadCookieName (cookie_name g)) ;;?
  match cookie_domain g with Some d => bail_if (negb (is_some (normalize_cookie_domain d))) (BadCookieDomain d) | None => Ok tt end ;;?
  bail_if (negb (existsb (λ r, match path_prefix r with Some p => Str.starts_with p (callback_path g) | None => true end) routes))
    (AuthCallbackUnroutable (callback_path g)).

(** [AuthProviderSpec::validate]. *)
Definition validate_provider (p : AuthProviderSpec) : result SpecError unit :=
  bail_if (negb (is_valid_namespace (ap_name p))) (BadAuthProviderName (ap_name p)) ;;?
  bail_if (negb (is_valid_namespace (ap_namespace p))) (SpecBadNamespace (ap_namespace p)) ;;?
  bail_if (match ap_description p with Some d => (400 <? String.length d)%nat | None => false end) DescriptionTooLong ;;?
  match ap_cookie_domain p with Some d => bail_if (negb (is_some (normalize_cookie_domain d))) (BadCookieDomain d) | None => Ok tt end ;;?
  validate_identity (ap_provider p) (ap_client_id p) (ap_client_secret p) (ap_allowed_domains p) (ap_allowed_emails p) (ap_jwt p).

Definition scope_jwt (ns : string) (j : JwtSpec) : JwtSpec :=
  {| js_secret := scope_to ns <$> js_secret j; public_key := public_key j; jwks_url := jwks_url j; algorithms := algorithms j;
     issuer := issuer j; audience := audience j; require := require j; subject_claim := subject_claim j;
     email_claim := email_claim j; name_claim := name_claim j; leeway_secs := leeway_secs j; cookie := cookie j;
     login_endpoint := login_endpoint j; login_url := login_url j; login_redirect_param := login_redirect_param j |}.

(** [AuthProviderSpec::normalize]. *)
Definition normalize_provider (p : AuthProviderSpec) : AuthProviderSpec :=
  {| ap_name := ap_name p; ap_namespace := ap_namespace p; ap_description := ap_description p; ap_created_at := ap_created_at p;
     ap_provider := ap_provider p; ap_client_id := ap_client_id p;
     ap_client_secret := scope_to (ap_namespace p) <$> ap_client_secret p;
     ap_allowed_domains := ap_allowed_domains p; ap_allowed_emails := ap_allowed_emails p;
     ap_jwt := scope_jwt (ap_namespace p) <$> ap_jwt p; ap_cookie_domain := ap_cookie_domain p |}.

(** [AuthProviderSpec::resolve]. *)
Definition resolve (p : AuthProviderSpec) (g : AuthGate) : AuthGate :=
  {| provider := ap_provider p; client_id := ap_client_id p; client_secret := ap_client_secret p;
     allowed_domains := ap_allowed_domains p; allowed_emails := ap_allowed_emails p; jwt := ap_jwt p;
     cookie_domain := ap_cookie_domain p; provider_ref := None;
     public_paths := public_paths g; session_scope := session_scope g; base_path := base_path g;
     session_ttl_secs := session_ttl_secs g; cookie_name := cookie_name g; redirect_url := redirect_url g;
     forward_identity := forward_identity g |}.

(** *** The fingerprint a session is signed under *)

(** [JwtSpec::fingerprint]. *)
Definition jwt_fingerprint (j : JwtSpec) : string :=
  let key :=
    match js_secret j, public_key j, jwks_url j with
    | Some r, _, _ => "secret:" +:+ sr_secret r +:+ "/" +:+ sr_key r
    | _, Some pem, _ => "pem:" +:+ Chars.trim pem
    | _, _, Some url => "jwks:" +:+ url
    | _, _, _ => ""
    end in
  let claims := sort_by (λ a b, String.compare (fst a) (fst b)) (map_to_list (require j)) in
  key +:+ "|" +:+ join "," (sort_by String.compare (algorithms j)) +:+ "|" +:+ issuer j +:+ "|" +:+ default "" (audience j)
  +:+ "|" +:+ join "," ((λ p, fst p +:+ "=" +:+ show_json (snd p)) <$> claims) +:+ "|" +:+ subject_claim j.

(** [Debug] of a provider and of several. *)
Definition debug_provider (p : AuthProvider) : string := match p with Google => "Google" | AppToken => "AppToken" | Jwt => "Jwt" end.
Definition debug_providers (ps : list AuthProvider) : string :=
  match ps with [p] => debug_provider p | _ => "[" +:+ join ", " (debug_provider <$> ps) +:+ "]" end.

(** What [AuthGate::policy_fingerprint] digests. *)
Definition policy_material (g : AuthGate) : string :=
  debug_providers (provider g) +:+ "|" +:+ default "" (client_id g)
  +:+ "|" +:+ join "," (sort_by String.compare (Str.to_ascii_lowercase <$> allowed_domains g))
  +:+ "|" +:+ join "," (sort_by String.compare (Str.to_ascii_lowercase <$> allowed_emails g))
  +:+ match cookie_domain g with Some realm => "|realm=" +:+ Str.to_ascii_lowercase realm | None => "" end
  +:+ match jwt g with Some j => "|jwt=" +:+ jwt_fingerprint j | None => "" end.
(** [AuthGate::policy_fingerprint]. *)
Definition policy_fingerprint (g : AuthGate) : string := hex (take 8 (sha256 (policy_material g))).

(** ** What an accepted gate is *)

Lemma alg_parse_spec name a : alg_parse name = Some a ↔ name = alg_str a.
Proof.
  unfold alg_parse. split.
  - intros H%find_some. destruct H as [_ H%String.eqb_eq]. done.
  - intros ->. by destruct a.
Qed.

Lemma alg_str_inj a b : alg_str a = alg_str b → a = b.
Proof. by destruct a, b. Qed.

Lemma contains_provider_spec ps p : contains_provider ps p = true ↔ p ∈ ps.
Proof.
  unfold contains_provider. rewrite existsb_exists. setoid_rewrite bool_decide_eq_true. setoid_rewrite <- list_elem_of_In. split.
  - by intros (x & Hx & ->).
  - eauto.
Qed.

(** A policy verifies with one key, and only by algorithms of that key's family. *)
Record sound_policy (j : JwtSpec) : Prop := {
  sp_key : ∃ source, key_sources j = [source];
  sp_some : ∃ a, accepts_alg j a = true;
  sp_family : ∀ a, accepts_alg j a = true → alg_symmetric a = is_some (js_secret j);
  sp_jwks : ∀ u, jwks_url j = Some u → jwks_url_problem (Chars.trim u) = None;
  sp_login : is_some (login_url j) || is_some (login_endpoint j) = true → is_some (cookie j) = true;
  sp_leeway : leeway j = default 0%Z (leeway_secs j) ∧ (leeway j <= 300)%Z;
}.

Lemma validate_jwt_sound j : validate_jwt j = Ok tt → sound_policy j.
Proof.
  unfold validate_jwt. rewrite !seq_ok.
  intros (Hk & _ & _ & Hu & Ha & Hal & _ & _ & _ & _ & Hl & _ & He & Hlu). apply all_ok_spec in Hal.
  apply bail_if_ok, bool_decide_eq_false in Ha.
  split.
  - destruct (key_sources j) as [|x [|]]; try done. by exists x.
  - destruct (algorithms j) as [|n l] eqn:E; [done|]. apply Forall_cons in Hal as [Hn _].
    unfold validate_algorithm in Hn. apply rbind_ok in Hn as (a & Hp & _). apply ok_or_ok in Hp.
    apply alg_parse_spec in Hp as ->. exists a. unfold accepts_alg. rewrite E. cbn. by rewrite String.eqb_refl.
  - intros a Hacc. unfold accepts_alg in Hacc. apply existsb_exists in Hacc as (n & Hn & Heq). apply String.eqb_eq in Heq as <-.
    rewrite Forall_forall in Hal. apply list_elem_of_In in Hn. specialize (Hal _ Hn). unfold validate_algorithm in Hal.
    apply rbind_ok in Hal as (b & Hp & Hb). apply ok_or_ok, alg_parse_spec, alg_str_inj in Hp as ->.
    apply bail_if_ok, negb_false_iff, Bool.eqb_prop in Hb. done.
  - intros u Eu. rewrite Eu in Hu. by destruct (jwks_url_problem (Chars.trim u)) as [[]|].
  - destruct (login_url j); cbn.
    + apply seq_ok in Hlu as [_ Hlu]. apply bail_if_ok, negb_false_iff in Hlu. done.
    + destruct (login_endpoint j); [|done]. apply bail_if_ok, orb_false_iff in He as [_ He%negb_false_iff]. done.
  - unfold leeway. destruct (leeway_secs j) as [n|]; cbn; [|done]. apply bail_if_ok, Z.ltb_ge in Hl. unfold MAX_JWT_LEEWAY_SECS in *. lia.
Qed.

Lemma identity_sound ps ci cs ds es j :
  validate_identity ps ci cs ds es j = Ok tt →
  ps ≠ [] ∧
  (if contains_provider ps Google then is_some ci = true ∧ is_some cs = true ∧ (ds ≠ [] ∨ es ≠ [])
   else ci = None ∧ cs = None) ∧
  (if contains_provider ps Jwt then ∃ p, j = Some p ∧ sound_policy p else j = None) ∧
  (contains_provider ps Google = false → contains_provider ps Jwt = true → ds = [] ∧ es = []).
Proof.
  unfold validate_identity. rewrite !seq_ok. intros (Hp & Hg & Hj & _). apply bail_if_ok, bool_decide_eq_false in Hp.
  split; [done|]. split; [|split].
  - destruct (contains_provider ps Google).
    + destruct ci as [i|]; [|done]. rewrite !seq_ok in Hg. destruct Hg as (_ & Hs & Hl). destruct cs; [|done].
      apply bail_if_ok, andb_false_iff in Hl. split_and!; [done..|]. destruct Hl as [H|H]; apply bool_decide_eq_false in H; auto.
    + apply bail_if_ok, orb_false_iff in Hg as [H1 H2]. by destruct ci, cs.
  - destruct (contains_provider ps Jwt), j as [p|]; try done. apply seq_ok in Hj as [Hj _]. exists p. split; [done|].
    by apply validate_jwt_sound.
  - intros E1 E2. rewrite E1, E2 in Hj. destruct j as [p|]; [|done]. apply seq_ok in Hj as [_ Hj].
    apply bail_if_ok in Hj. cbn in Hj. apply negb_false_iff, andb_true_iff in Hj as [H1 H2].
    by apply bool_decide_eq_true in H1, H2.
Qed.

(** A gate that names a provider resolves to an accepted one when both blocks are accepted. *)
Lemma resolve_validates p g routes :
  validate_provider p = Ok tt → validate_gate g routes = Ok tt → is_some (provider_ref g) = true →
  validate_gate (resolve p g) routes = Ok tt.
Proof.
  unfold validate_provider, validate_gate. intros Hp Hg Hr. rewrite Hr in Hg. rewrite !seq_ok in Hp. rewrite !seq_ok in Hg.
  destruct Hp as (_ & _ & _ & Hcd & Hi), Hg as (_ & Hb & Hpp & Ht & Hc & _ & Hcb).
  cbn [provider_ref resolve is_some]. rewrite !seq_ok. by split_and!.
Qed.

(** The gate a request meets: the deployment's own, or, when it names a provider, the one it
    resolves to with an accepted provider. *)
Definition effective (g g' : AuthGate) : Prop :=
  (provider_ref g = None ∧ g' = g) ∨
  (is_some (provider_ref g) = true ∧ ∃ p, validate_provider p = Ok tt ∧ g' = resolve p g).

Lemma effective_identity g g' routes :
  validate_gate g routes = Ok tt → effective g g' →
  validate_identity (provider g') (client_id g') (client_secret g') (allowed_domains g') (allowed_emails g') (jwt g') = Ok tt ∧
  existsb (λ r, match path_prefix r with Some p => Str.starts_with p (callback_path g') | None => true end) routes = true.
Proof.
  intros Hv He. assert (validate_gate g' routes = Ok tt ∧ provider_ref g' = None) as [Hv' Hr].
  { destruct He as [(Hr & ->)|(Hr & p & Hp & ->)]; [done|]. split; [by apply resolve_validates|done]. }
  unfold validate_gate in Hv'. rewrite Hr in Hv'. cbn [is_some] in Hv'. rewrite !seq_ok in Hv'.
  destruct Hv' as (Hi & _ & _ & _ & _ & _ & Hc). split; [done|]. by apply bail_if_ok, negb_false_iff in Hc.
Qed.

Lemma lists_let_someone_in g :
  (∃ e hd, allows g e hd = true) ↔ allowed_domains g ≠ [] ∨ allowed_emails g ≠ [].
Proof.
  unfold allows. cbv zeta. split.
  - intros (e & hd & H). destruct (allowed_domains g); [|by left]. destruct (allowed_emails g); [done|by right].
  - intros [Hl|Hl].
    + destruct (allowed_domains g) as [|d l]; [done|]. exists "", (Some (Str.trim_start_matches "@" d)).
      apply orb_true_iff. right. cbn. unfold Str.eq_ignore_ascii_case. by rewrite String.eqb_refl, orb_true_r.
    + destruct (allowed_emails g) as [|e l]; [done|]. exists e, None.
      apply orb_true_iff. left. cbn. unfold Str.eq_ignore_ascii_case. by rewrite Trim.lower_lower, String.eqb_refl.
Qed.

(** C16. A gate that is accepted can be enforced and passed, whether its identity is its own or
    that of an accepted provider it names.  It has at least one provider; it has Google credentials
    exactly when Google is one, and a token policy exactly when tokens are; where Google or tokens
    are a provider, its lists let someone in exactly when Google is one, so a list never seems to
    guard a gate for tokens (a gate for the app's tokens alone may carry lists: the check leaves
    them); its token policy has one key and verifies by algorithms of the key's own family only, so
    a public key can never be taken for a shared secret; and the callback of a sign-in is a path that
    one of the deployment's routes matches. *)
Theorem valid_gate_is_enforceable g g' routes :
  validate_gate g routes = Ok tt → effective g g' →
  (∃ p, p ∈ provider g') ∧
  is_some (google_credentials g') = accepts_google g' ∧
  (accepts_google g' || accepts_jwt g' = true → accepts_google g' = true ↔ ∃ e hd, allows g' e hd = true) ∧
  (is_some (jwt_policy g') = accepts_jwt g' ∧ jwt_policy g' = jwt g' ∧ ∀ j, jwt g' = Some j → sound_policy j) ∧
  (∃ r, r ∈ routes ∧ (∀ p, path_prefix r = Some p → Str.starts_with p (callback_path g') = true)).
Proof.
  intros Hv He. destruct (effective_identity _ _ _ Hv He) as [Hi Hc]. apply identity_sound in Hi as (Hp & Hg & Hj & Hno).
  split_and!.
  - destruct (provider g') as [|p l]; [done|]. exists p. constructor.
  - unfold google_credentials, accepts_google in *. destruct (contains_provider (provider g') Google); [|done].
    destruct Hg as (Hci & Hcs & _). by destruct (client_id g'), (client_secret g').
  - rewrite lists_let_someone_in. unfold accepts_google, accepts_jwt in *.
    destruct (contains_provider (provider g') Google); cbn [orb].
    + destruct Hg as (_ & _ & Hl). intros _. by split.
    + intros Hjw. destruct (Hno eq_refl Hjw) as [-> ->]. split; [done|]. by intros [H|H]; destruct H.
  - unfold jwt_policy, accepts_jwt in *. destruct (contains_provider (provider g') Jwt); [|done].
    by destruct Hj as (p & -> & _).
  - unfold jwt_policy, accepts_jwt in *. destruct (contains_provider (provider g') Jwt); [done|by rewrite Hj].
  - destruct (contains_provider (provider g') Jwt); [|by rewrite Hj]. destruct Hj as (p & -> & Hs). by intros j [= <-].
  - apply existsb_exists in Hc as (r & Hr' & Hm). exists r. split; [by apply list_elem_of_In|].
    intros p Ep. by rewrite Ep in Hm.
Qed.

(** ** A gate that inherits its identity *)

(** A gate that names a provider of its namespace is accepted with the provider's identity:
    when both blocks are accepted, so is the gate they resolve to, on the same routes; it lets in
    whom the provider lets in and nobody by its own lists, and what it leaves public and where its
    sign-in lives stay as the gate says. *)
Theorem resolved_gate_is_valid p g routes :
  validate_provider p = Ok tt → validate_gate g routes = Ok tt → is_some (provider_ref g) = true →
  validate_gate (resolve p g) routes = Ok tt ∧
  (∀ g' e hd, allows (resolve p g) e hd = allows (resolve p g') e hd) ∧
  (∀ path, public_scope (resolve p g) path = public_scope g path) ∧
  callback_path (resolve p g) = callback_path g.
Proof. intros Hp Hg Hr. split_and!; [by apply resolve_validates|done..]. Qed.

(** ** How wide the cookie is *)

Lemma label_nonempty l : label_ok l = true → l ≠ "".
Proof. unfold label_ok. intros H ->. done. Qed.

Lemma normalize_cookie_domain_spec raw realm :
  normalize_cookie_domain raw = Some realm →
  (2 <= length (Str.split "." realm))%nat ∧ Forall (λ l, l ≠ "") (Str.split "." realm) ∧
  Str.to_ascii_lowercase realm = realm.
Proof.
  unfold normalize_cookie_domain. cbv zeta. set (d := trim_end_matches _ _). repeat case_match; try done. intros [= <-].
  unfold Str.to_ascii_lowercase at 1 2. rewrite split_map by apply lowered_dot. rewrite length_fmap. split_and!.
  - by apply Nat.ltb_ge.
  - apply Forall_fmap. rewrite Forall_forall. intros l Hl. cbn. intros El.
    match goal with H : forallb _ _ = true |- _ => rewrite forallb_forall in H; apply list_elem_of_In, H, label_nonempty in Hl end.
    by destruct l.
  - apply Trim.lower_lower.
Qed.

(** A shared cookie covers the host that asked for it, cut at a label: the realm is the host or
    a parent of it, so no neighbour whose name merely ends alike receives the session, and it has at
    least two labels, so it is never a whole top-level domain; a gate without a realm, or whose realm
    does not cover the host, sets a cookie for the host alone. *)
Theorem cookie_realm_covers_the_host g host :
  let h := Str.to_ascii_lowercase (before_any [":"%char] (trim_end_matches "." host)) in
  match cookie_domain_for g host with
  | Some realm =>
    (h = realm ∨ ∃ sub, h = sub +:+ "." +:+ realm) ∧
    (2 <= length (Str.split "." realm))%nat ∧ Forall (λ l, l ≠ "") (Str.split "." realm) ∧
    cookie_domain g ≫= normalize_cookie_domain = Some realm
  | None => ∀ realm, cookie_domain g ≫= normalize_cookie_domain = Some realm →
    h ≠ realm ∧ ∀ sub, h ≠ sub +:+ "." +:+ realm
  end.
Proof.
  cbv zeta. unfold cookie_domain_for. cbv zeta.
  destruct (cookie_domain g ≫= normalize_cookie_domain) as [realm|] eqn:E; [|done]. cbn [mbind option_bind].
  set (h := Str.to_ascii_lowercase _). destruct (_ || _) eqn:Ec.
  - destruct (cookie_domain g) as [raw|]; [|done]. apply normalize_cookie_domain_spec in E as (H1 & H2 & _). split_and!; try done.
    apply orb_true_iff in Ec as [Ec|Ec]; [left; by apply String.eqb_eq|right].
    destruct (Str.strip_suffix realm h) as [head|] eqn:Es; [|done]. apply strip_suffix_spec in Es. apply ends_with_spec in Ec as [t ->].
    exists t. by rewrite Es, Str.append_assoc.
  - apply orb_false_iff in Ec as [E1 E2]. intros r [= <-]. split.
    + by apply String.eqb_neq.
    + intros sub Hs. rewrite (proj2 (strip_suffix_spec realm h (sub +:+ "."))) in E2; [|by rewrite Str.append_assoc].
      pose proof (proj2 (ends_with_spec "." (sub +:+ ".")) (ex_intro _ sub eq_refl)). congruence.
Qed.

(** ** Which public path decides *)

Lemma max_by_key_None {A} (key : A → nat) l : max_by_key key l = None ↔ l = [].
Proof. destruct l; cbn; [done|]. split; [|done]. by repeat case_match. Qed.
Lemma max_by_key_Some {A} (key : A → nat) l x :
  max_by_key key l = Some x → x ∈ l ∧ ∀ y, y ∈ l → (key y <= key x)%nat.
Proof.
  revert x. induction l as [|a l IH]; intros x; cbn; [done|]. destruct (max_by_key key l) as [m|] eqn:E.
  - specialize (IH _ eq_refl) as [Hm Hmax]. destruct (Nat.leb_spec (key a) (key m)); intros [= <-].
    + split; [by right|]. intros y [->|Hy]%elem_of_cons; [done|by apply Hmax].
    + split; [by left|]. intros y [->|Hy]%elem_of_cons; [done|]. specialize (Hmax _ Hy). lia.
  - intros [= <-]. apply max_by_key_None in E as ->. split; [by left|]. intros y Hy%list_elem_of_singleton. by subst.
Qed.

Lemma prefixes_of_one_length p q s :
  Str.starts_with p s = true → Str.starts_with q s = true → String.length p = String.length q → p = q.
Proof.
  rewrite !Str.starts_with_spec. intros (t & ->) (u & E) Hl. revert q E Hl. induction p as [|c p IH]; intros [|d q] E Hl; try done.
  change (String c (p +:+ t) = String d (q +:+ u)) in E. injection E as -> E. f_equal. apply (IH q); [done|]. by injection Hl.
Qed.

(** The longest public prefix of a path decides what it needs in the gate's place, and nothing
    else does: a path under no entry is gated; otherwise the answer is the scope of an entry that no
    matching entry is longer than; and the order of the list does not matter as long as no path is
    entered twice with different scopes. *)
Theorem longest_public_path_wins g g' path :
  match public_scope g path with
  | None => ∀ p, p ∈ public_paths g → Str.starts_with (pp_path p) path = false
  | Some s => ∃ p, p ∈ public_paths g ∧ pp_scope p = s ∧ Str.starts_with (pp_path p) path = true ∧
      ∀ q, q ∈ public_paths g → Str.starts_with (pp_path q) path = true → (String.length (pp_path q) <= String.length (pp_path p))%nat
  end ∧
  ((∀ p q, p ∈ public_paths g → q ∈ public_paths g → pp_path p = pp_path q → pp_scope p = pp_scope q) →
   public_paths g ≡ₚ public_paths g' → public_scope g path = public_scope g' path).
Proof.
  assert (∀ g, match public_scope g path with
    | None => ∀ p, p ∈ public_paths g → Str.starts_with (pp_path p) path = false
    | Some s => ∃ p, p ∈ public_paths g ∧ pp_scope p = s ∧ Str.starts_with (pp_path p) path = true ∧
      ∀ q, q ∈ public_paths g → Str.starts_with (pp_path q) path = true → (String.length (pp_path q) <= String.length (pp_path p))%nat
    end) as Hspec.
  { intros g0. unfold public_scope. destruct (max_by_key _ _) as [p|] eqn:E; cbn [fmap option_fmap option_map].
    - apply max_by_key_Some in E as [Hp Hmax]. apply list_elem_of_In, filter_In in Hp as [Hp Hs]. exists p.
      split_and!; try done; [by apply list_elem_of_In|]. intros q Hq Hqs. apply Hmax, list_elem_of_In, filter_In.
      split; [by apply list_elem_of_In|done].
    - apply max_by_key_None in E. intros p Hp. destruct (Str.starts_with (pp_path p) path) eqn:Es; [|done].
      assert (p ∈ List.filter (λ p, Str.starts_with (pp_path p) path) (public_paths g0)) as Hin
        by (apply list_elem_of_In, filter_In; split; [by apply list_elem_of_In|done]).
      rewrite E in Hin. by apply elem_of_nil in Hin. }
  split; [apply Hspec|]. intros Hu Hperm. pose proof (Hspec g) as H1. pose proof (Hspec g') as H2.
  destruct (public_scope g path) as [s|], (public_scope g' path) as [s'|]; try done.
  - destruct H1 as (p & Hp & <- & Hps & Hpm), H2 as (q & Hq & <- & Hqs & Hqm). rewrite <- Hperm in Hq. f_equal.
    apply Hu; try done. apply (prefixes_of_one_length _ _ path); try done.
    assert (String.length (pp_path q) <= String.length (pp_path p))%nat by by apply Hpm.
    assert (String.length (pp_path p) <= String.length (pp_path q))%nat by (apply Hqm; [by rewrite <- Hperm|done]). lia.
  - destruct H1 as (p & Hp & _ & Hps & _). rewrite Hperm in Hp. rewrite (H2 _ Hp) in Hps. done.
  - destruct H2 as (p & Hp & _ & Hps & _). rewrite <- Hperm in Hp. rewrite (H1 _ Hp) in Hps. done.
Qed.

(** ** What a fingerprint tells apart *)

Definition free_of (c : ascii) (s : string) : Prop := Str.all (λ b, negb (Ascii.eqb b c)) s = true.

Lemma free_of_app c s t : free_of c (s +:+ t) ↔ free_of c s ∧ free_of c t.
Proof. unfold free_of. rewrite all_app. apply andb_true_iff. Qed.
Lemma free_of_lower c s : Str.is_ascii_alphabetic c = false → free_of c s → free_of c (Str.to_ascii_lowercase s).
Proof.
  intros Hc. unfold free_of, Str.to_ascii_lowercase. induction s as [|b s IH]; [done|]. cbn [Str.map Str.all].
  intros [Hb H]%andb_true_iff. apply andb_true_iff. split; [|by apply IH]. apply negb_true_iff in Hb. apply negb_true_iff.
  apply Ascii.eqb_neq. intros Hl. apply Ascii.eqb_neq in Hb. apply Hb. subst c. clear -Hc.
  destruct b as [[] [] [] [] [] [] [] []]; vm_compute in *; congruence.
Qed.
Lemma free_of_join c sep l : free_of c sep → Forall (free_of c) l → free_of c (join sep l).
Proof.
  intros Hs. induction 1 as [|x l Hx Hl IH]; [done|]. cbn [join]. destruct l; [done|].
  by rewrite !free_of_app.
Qed.

(** Texts cut at the first separator. *)
Lemma cut_at c s s' t t' : free_of c s → free_of c s' → s +:+ String c t = s' +:+ String c t' → s = s' ∧ t = t'.
Proof.
  unfold free_of. revert s'. induction s as [|b s IH]; intros [|b' s'] H1 H2 E.
  - by injection E.
  - change (String c t = String b' (s' +:+ String c t')) in E. injection E as <- _. cbn [Str.all] in H2.
    by rewrite Ascii.eqb_refl in H2.
  - change (String b (s +:+ String c t) = String c t') in E. injection E as -> _. cbn [Str.all] in H1.
    by rewrite Ascii.eqb_refl in H1.
  - change (String b (s +:+ String c t) = String b' (s' +:+ String c t')) in E. injection E as -> E. cbn [Str.all] in H1, H2.
    apply andb_true_iff in H1 as [_ H1], H2 as [_ H2]. destruct (IH s' H1 H2 E) as [-> ->]. done.
Qed.
(** The last piece may end the text. *)
Lemma cut_last c s s' t t' :
  free_of c s → free_of c s' → (t = "" ∨ ∃ u, t = String c u) → (t' = "" ∨ ∃ u, t' = String c u) →
  s +:+ t = s' +:+ t' → s = s' ∧ t = t'.
Proof.
  assert (∀ x, x +:+ "" = x) as Hnil by (intros x; induction x as [|b x IH]; [done|]; change (String b (x +:+ "") = String b x); by rewrite IH).
  intros H1 H2 [-> |(u & ->)] [-> |(u' & ->)] E.
  - rewrite !Hnil in E. done.
  - rewrite Hnil in E. subst s. apply free_of_app in H1 as [_ H1]. unfold free_of in H1. cbn [Str.all] in H1. by rewrite Ascii.eqb_refl in H1.
  - rewrite Hnil in E. subst s'. apply free_of_app in H2 as [_ H2]. unfold free_of in H2. cbn [Str.all] in H2. by rewrite Ascii.eqb_refl in H2.
  - destruct (cut_at c s s' u u' H1 H2 E) as [-> ->]. done.
Qed.

Lemma str_app_inv (r s t : string) : r +:+ s = r +:+ t → s = t.
Proof. induction r as [|d r IH]; [done|]. intros E. apply IH. by injection E. Qed.

Lemma join_inj c r l l' :
  Forall (λ x, free_of c x ∧ x ≠ "") l → Forall (λ x, free_of c x ∧ x ≠ "") l' →
  join (String c r) l = join (String c r) l' → l = l'.
Proof.
  intros Hl. revert l'. induction Hl as [|x l [Hx Hx'] Hl IH]; intros [|y l'] Hl' E; try done.
  - apply Forall_cons in Hl' as [[_ Hy] _]. cbn [join] in E. destruct y; [done|]. by destruct l'.
  - cbn [join] in E. destruct x; [done|]. by destruct l.
  - apply Forall_cons in Hl' as [[Hy Hy'] Hl']. cbn [join] in E.
    assert (∀ z : list string, match z with [] => x | _ :: _ => x +:+ String c r +:+ join (String c r) z end
      = x +:+ match z with [] => "" | _ :: _ => String c (r +:+ join (String c r) z) end) as Hf.
    { intros [|]; [|done]. clear. induction x as [|b x IH]; [done|]. change (String b x = String b (x +:+ "")). by rewrite <- IH. }
    assert (∀ z : list string, match z with [] => y | _ :: _ => y +:+ String c r +:+ join (String c r) z end
      = y +:+ match z with [] => "" | _ :: _ => String c (r +:+ join (String c r) z) end) as Hg.
    { intros [|]; [|done]. clear. induction y as [|b x IH]; [done|]. change (String b x = String b (x +:+ "")). by rewrite <- IH. }
    rewrite Hf, Hg in E. apply (cut_last c) in E as [-> E]; [|done|done|by destruct l; eauto|by destruct l'; eauto].
    destruct l as [|a l], l' as [|b l']; try done. f_equal. apply IH; [done|]. injection E as E.
    by apply (str_app_inv r).
Qed.

(** A gate whose entries hold none of the separators of the material. *)
Record separable (g : AuthGate) : Prop := {
  sb_client : free_of "|" (default "" (client_id g));
  sb_lists : Forall (λ x, (free_of "," x ∧ x ≠ "") ∧ free_of "|" x) (allowed_domains g ++ allowed_emails g);
  sb_realm : free_of "|" (default "" (cookie_domain g));
}.

Definition lowered (l : list string) : list string := sort_by String.compare (Str.to_ascii_lowercase <$> l).

Lemma lowered_forall (P : string → Prop) l :
  (∀ x, P x → P (Str.to_ascii_lowercase x)) → Forall P l → Forall P (lowered l).
Proof.
  intros HP Hl. unfold lowered. rewrite sort_by_perm. apply Forall_fmap. eapply Forall_impl; [done|]. intros x Hx. by apply HP.
Qed.

Lemma separable_lowered l :
  Forall (λ x, (free_of "," x ∧ x ≠ "") ∧ free_of "|" x) l →
  Forall (λ x, free_of "," x ∧ x ≠ "") (lowered l) ∧ free_of "|" (join "," (lowered l)).
Proof.
  intros Hl. split.
  - apply lowered_forall; [|eapply Forall_impl; [done|]; naive_solver]. intros x [H1 H2]. split; [by apply free_of_lower|].
    by destruct x.
  - apply free_of_join; [done|]. apply lowered_forall; [intros x; by apply free_of_lower|]. eapply Forall_impl; [done|]. naive_solver.
Qed.

Lemma debug_provider_free c p : Str.is_ascii_alphabetic c = false → free_of c (debug_provider p).
Proof. destruct c as [[] [] [] [] [] [] [] []], p; vm_compute; congruence. Qed.

Lemma debug_providers_free ps : free_of "|" (debug_providers ps).
Proof.
  assert (Forall (free_of "|") (debug_provider <$> ps)) as Hl.
  { apply Forall_fmap. apply Forall_true. intros p. by apply debug_provider_free. }
  unfold debug_providers. destruct ps as [|p [|q ps]]; [done|by apply debug_provider_free|].
  rewrite !free_of_app. split_and!; [done| |done]. by apply free_of_join.
Qed.

#[local] Instance debug_provider_inj : Inj (=) (=) debug_provider.
Proof. by intros [] []. Qed.

Lemma debug_providers_inj ps qs : debug_providers ps = debug_providers qs → ps = qs.
Proof.
  assert (∀ l : list AuthProvider, Forall (λ x, free_of "," x ∧ x ≠ "") (debug_provider <$> l)) as Hl.
  { intros l. apply Forall_fmap, Forall_true. intros p. split; [by apply debug_provider_free|by destruct p]. }
  assert (∀ l m : list AuthProvider, "[" +:+ join ", " (debug_provider <$> l) +:+ "]" = "[" +:+ join ", " (debug_provider <$> m) +:+ "]" → l = m) as Hm.
  { intros l m E. apply str_app_inv in E. assert (join ", " (debug_provider <$> l) = join ", " (debug_provider <$> m)) as E'.
    { apply (cut_at "]") in E as [E _]; [done|..]; apply free_of_join; try done; apply Forall_fmap, Forall_true; intros p; by apply debug_provider_free. }
    apply join_inj in E'; [|apply Hl..]. by apply (inj (fmap debug_provider)) in E'. }
  assert (∀ p l, debug_provider p ≠ "[" +:+ join ", " (debug_provider <$> l) +:+ "]") as Hn by (by intros []).
  unfold debug_providers. destruct ps as [|p [|p' ps]], qs as [|q [|q' qs]]; intros E; try by apply Hm in E.
  - symmetry in E. by apply Hn in E.
  - by apply Hn in E.
  - by destruct p, q.
  - by apply Hn in E.
  - symmetry in E. by apply Hn in E.
Qed.

Lemma allows_lowered g e hd :
  allows g e hd =
  existsb (λ x, String.eqb x (Str.to_ascii_lowercase e)) (lowered (allowed_emails g))
  || existsb (λ d, String.eqb d "*"
       || match hd with Some h => String.eqb (Str.to_ascii_lowercase h) (Str.trim_start_matches "@" d) | None => false end)
     (lowered (allowed_domains g)).
Proof.
  assert (∀ (f f' : string → bool) l, (∀ x, f x = f' (Str.to_ascii_lowercase x)) → existsb f l = existsb f' (lowered l)) as Hex.
  { intros f f' l Hf. apply eq_true_iff_eq. rewrite !existsb_exists. unfold lowered. setoid_rewrite <- list_elem_of_In.
    setoid_rewrite sort_by_perm. setoid_rewrite list_elem_of_fmap. split.
    - intros (x & Hx & E). exists (Str.to_ascii_lowercase x). rewrite <- Hf. eauto.
    - intros (x & (y & -> & Hy) & E). exists y. by rewrite Hf. }
  unfold allows. cbv zeta. f_equal; apply Hex.
  - intros x. unfold Str.eq_ignore_ascii_case. by rewrite Trim.lower_lower.
  - intros d. f_equal.
    + apply eq_true_iff_eq. rewrite !String.eqb_eq. split; [by intros ->|]. destruct d as [|b [|? ?]]; cbn; try done.
      intros E. f_equal. injection E as E. destruct b as [[] [] [] [] [] [] [] []]; vm_compute in E |- *; congruence.
    + destruct hd as [h|]; [|done]. unfold Str.eq_ignore_ascii_case. f_equal. clear.
      assert (∀ b, Ascii.eqb (Str.lower b) "@" = Ascii.eqb b "@") as Hat by (by intros [[] [] [] [] [] [] [] []]).
      unfold Str.to_ascii_lowercase. induction d as [|b d IH]; [done|]. cbn [Str.map Str.trim_start_matches]. rewrite Hat.
      by destruct (Ascii.eqb b "@").
Qed.

Definition realm_part (r : option string) : string :=
  match r with Some realm => "|realm=" +:+ Str.to_ascii_lowercase realm | None => "" end.
Definition jwt_part (j : option JwtSpec) : string :=
  match j with Some j => "|jwt=" +:+ jwt_fingerprint j | None => "" end.

Lemma jwt_part_tail j : jwt_part j = "" ∨ ∃ u, jwt_part j = String "|" u.
Proof. destruct j; [right; by eexists|by left]. Qed.

Lemma realm_tail r r' j j' :
  free_of "|" (default "" r) → free_of "|" (default "" r') → realm_part r +:+ jwt_part j = realm_part r' +:+ jwt_part j' →
  Str.to_ascii_lowercase <$> r = Str.to_ascii_lowercase <$> r' ∧ jwt_fingerprint <$> j = jwt_fingerprint <$> j'.
Proof.
  assert (∀ j j', jwt_part j = jwt_part j' → jwt_fingerprint <$> j = jwt_fingerprint <$> j') as Hj.
  { intros [k|] [k'|] E; try done. apply str_app_inv in E. by apply (f_equal Some). }
  intros Hr Hr' E. destruct r as [r|], r' as [r'|].
  - apply (str_app_inv "|realm=" (Str.to_ascii_lowercase r +:+ jwt_part j)) in E. cbn [default] in *.
    apply (cut_last "|") in E as [E1 E2]; [|by apply free_of_lower|by apply free_of_lower|apply jwt_part_tail..].
    split; [|by apply Hj]. by apply (f_equal Some).
  - by destruct j'.
  - by destruct j.
  - split; [done|]. by apply Hj.
Qed.

(** What two gates of one fingerprint have in common. *)
Lemma fingerprint_determines g g' :
  separable g → separable g' →
  (policy_fingerprint g = policy_fingerprint g' → policy_material g = policy_material g') →
  policy_fingerprint g = policy_fingerprint g' →
  provider g = provider g' ∧ default "" (client_id g) = default "" (client_id g') ∧
  (∀ e hd, allows g e hd = allows g' e hd) ∧
  Str.to_ascii_lowercase <$> cookie_domain g = Str.to_ascii_lowercase <$> cookie_domain g' ∧
  jwt_fingerprint <$> jwt g = jwt_fingerprint <$> jwt g'.
Proof.
  intros [Hc Hl Hr] [Hc' Hl' Hr'] Hcol Hfp. specialize (Hcol Hfp). unfold policy_material in Hcol.
  apply Forall_app in Hl as [Hd He], Hl' as [Hd' He'].
  apply separable_lowered in Hd as [Hd Hdb], He as [He Heb], Hd' as [Hd' Hdb'], He' as [He' Heb'].
  fold (lowered (allowed_domains g)) (lowered (allowed_emails g)) (lowered (allowed_domains g')) (lowered (allowed_emails g')) in Hcol.
  apply cut_at in Hcol as [E1 Hcol]; [|apply debug_providers_free..]. apply debug_providers_inj in E1.
  apply cut_at in Hcol as [E2 Hcol]; [|done..]. apply cut_at in Hcol as [E3 Hcol]; [|done..].
  assert (∀ r j, realm_part r +:+ jwt_part j = "" ∨ ∃ u, realm_part r +:+ jwt_part j = String "|" u) as Htail.
  { intros [r|] j; [right; by eexists|apply jwt_part_tail]. }
  fold (realm_part (cookie_domain g)) (realm_part (cookie_domain g')) (jwt_part (jwt g)) (jwt_part (jwt g')) in Hcol.
  apply (cut_last "|") in Hcol as [E4 Hcol]; [|done|done|apply Htail..].
  apply join_inj in E3; [|done..]. apply join_inj in E4; [|done..].
  split_and!; [done|done|intros e hd; by rewrite !allows_lowered, E3, E4|..]; by apply realm_tail in Hcol as [? ?].
Qed.

(** Gates that share sessions let in the same people.  A session is signed under the fingerprint
    of its gate's policy; two gates of one fingerprint, whose entries hold none of the separators
    the fingerprint is built with and whose digests do not collide, name the same providers and the
    same client, let in the same identities, and share one realm and one token policy. *)
Theorem same_fingerprint_same_people g g' :
  separable g → separable g' →
  (policy_fingerprint g = policy_fingerprint g' → policy_material g = policy_material g') →
  policy_fingerprint g = policy_fingerprint g' →
  provider g = provider g' ∧ default "" (client_id g) = default "" (client_id g') ∧
  (∀ e hd, allows g e hd = allows g' e hd) ∧
  Str.to_ascii_lowercase <$> cookie_domain g = Str.to_ascii_lowercase <$> cookie_domain g' ∧
  jwt_fingerprint <$> jwt g = jwt_fingerprint <$> jwt g'.
Proof. apply fingerprint_determines. Qed.
End gate.

(** ** Examples *)

Module GateDemo.
(** JSON is text, a digest is the bytes, and the only key that parses is the one named here. *)
Definition show (j : string) : string := j.
Definition no_url (u : string) : option Url := None.
Definition a_key (pem : string) : result string unit := if String.eqb pem "KEY" then Ok tt else Err "no key".
Definition bytes_of (s : string) : list N := N_of_ascii <$> list_ascii_of_string s.

Definition client_ref : SecretRef := {| sr_secret := "google"; sr_key := "secret"; sr_username := None; sr_namespace := None |}.
Definition signing_ref : SecretRef := {| sr_secret := "jwt"; sr_key := "key"; sr_username := None; sr_namespace := None |}.

(** A gate for Google accounts of some domains and addresses, on a realm. *)
Definition google_gate (id : string) (domains emails : list string) (realm : option string) : AuthGate string :=
  {| provider := [Google]; client_id := Some id; client_secret := Some client_ref; allowed_domains := domains;
     allowed_emails := emails; public_paths := [{| pp_path := "/api/"; pp_scope := PathView |}]; session_scope := None;
     base_path := "/__applb/auth"; session_ttl_secs := 43200; cookie_name := "applb_session"; cookie_domain := realm;
     redirect_url := None; forward_identity := true; jwt := None; provider_ref := None |}.
(** A gate for tokens and Google, with the policy of [heyo]. *)
Definition token_gate : AuthGate string :=
  {| provider := [Google; Jwt]; client_id := Some "client"; client_secret := Some client_ref; allowed_domains := ["example.com"];
     allowed_emails := []; public_paths := []; session_scope := None; base_path := "/auth"; session_ttl_secs := 3600;
     cookie_name := "applb_session"; cookie_domain := None; redirect_url := None; forward_identity := false;
     jwt := Some (heyo "[]" signing_ref); provider_ref := None |}.
(** A gate that leaves its identity to a provider. *)
Definition inheriting_gate : AuthGate string :=
  {| provider := [Google]; client_id := None; client_secret := None; allowed_domains := []; allowed_emails := [];
     public_paths := [{| pp_path := "/health"; pp_scope := PathPublic |}]; session_scope := None; base_path := "/auth";
     session_ttl_secs := 60; cookie_name := "s"; cookie_domain := None; redirect_url := None; forward_identity := false;
     jwt := None; provider_ref := Some "staff" |}.
Definition staff : AuthProviderSpec string :=
  {| ap_name := "staff"; ap_namespace := "team"; ap_description := None; ap_created_at := 0; ap_provider := [Google];
     ap_client_id := Some "client"; ap_client_secret := Some client_ref; ap_allowed_domains := ["example.com"];
     ap_allowed_emails := []; ap_jwt := None; ap_cookie_domain := Some "example.com" |}.
Definition on_host (h : string) : list RouteRule :=
  [{| host := Some h; host_suffix := None; path_prefix := None; strip_prefix := false |}].

Definition check (g : AuthGate string) (routes : list RouteRule) : result SpecError unit := validate_gate no_url a_key a_key g routes.

Definition reordered (g : AuthGate string) (ps : list PublicPath) : AuthGate string :=
  {| provider := provider g; client_id := client_id g; client_secret := client_secret g; allowed_domains := allowed_domains g;
     allowed_emails := allowed_emails g; public_paths := ps; session_scope := session_scope g; base_path := base_path g;
     session_ttl_secs := session_ttl_secs g; cookie_name := cookie_name g; cookie_domain := cookie_domain g;
     redirect_url := redirect_url g; forward_identity := forward_identity g; jwt := jwt g; provider_ref := provider_ref g |}.
End GateDemo.
Import GateDemo.

(** The gate of [heyo]'s tokens, and one that leaves its identity to [staff]. *)
Lemma valid_gate_is_enforceable_witness :
  check token_gate (on_host "app.example.com") = Ok tt ∧ check inheriting_gate (on_host "app.example.com") = Ok tt ∧
  is_some (jwt_policy token_gate) = true ∧ (∃ e hd, allows token_gate e hd = true) ∧ (∀ j, jwt token_gate = Some j → sound_policy j) ∧
  provider_ref inheriting_gate = Some "staff" ∧ is_some (google_credentials inheriting_gate) = false ∧
  is_some (google_credentials (resolve staff inheriting_gate)) = true ∧ ∃ e hd, allows (resolve staff inheriting_gate) e hd = true.
Proof.
  set (r := on_host "app.example.com").
  assert (check token_gate r = Ok tt) as Hv by reflexivity. assert (check inheriting_gate r = Ok tt) as Hi by reflexivity.
  assert (effective no_url a_key a_key token_gate token_gate) as Ht by (left; split; reflexivity).
  assert (effective no_url a_key a_key inheriting_gate (resolve staff inheriting_gate)) as Hr
    by (right; split; [reflexivity|exists staff; split; reflexivity]).
  destruct (valid_gate_is_enforceable no_url a_key a_key token_gate token_gate r Hv Ht) as (_ & _ & H1 & (H2 & _ & H3) & _).
  destruct (valid_gate_is_enforceable no_url a_key a_key inheriting_gate (resolve staff inheriting_gate) r Hi Hr) as (_ & H4 & H5 & _).
  split; [exact Hv|]. split; [exact Hi|]. split; [exact H2|]. split; [exact (proj1 (H1 eq_refl) eq_refl)|]. split; [exact H3|].
  split; [reflexivity|]. split; [reflexivity|]. split; [exact H4|exact (proj1 (H5 eq_refl) eq_refl)].
Defined.

(** The lists of a gate for the app's tokens alone are accepted. *)
Example app_token_lists_are_accepted :
  let g := {| provider := [AppToken]; client_id := None; client_secret := None; allowed_domains := ["example.com"];
     allowed_emails := []; public_paths := []; session_scope := None; base_path := "/auth"; session_ttl_secs := 60;
     cookie_name := "s"; cookie_domain := None; redirect_url := None; forward_identity := false; jwt := None; provider_ref := None |} in
  check g (on_host "app.example.com") = Ok tt ∧ accepts_google g || accepts_jwt g = false ∧ allows g "x" (Some "example.com") = true.
Proof. by vm_compute. Qed.

Lemma resolved_gate_is_valid_witness :
  check (resolve staff inheriting_gate) (on_host "app.example.com") = Ok tt.
Proof.
  exact (proj1 (resolved_gate_is_valid no_url a_key a_key staff inheriting_gate (on_host "app.example.com") eq_refl eq_refl eq_refl)).
Defined.

(** The order of the domains, and their case, do not matter. *)
Lemma same_fingerprint_same_people_witness :
  let g := google_gate "client" ["example.com"; "Other.org"] [] None in
  let g' := google_gate "client" ["other.org"; "example.com"] [] None in
  policy_fingerprint show bytes_of g = policy_fingerprint show bytes_of g' ∧ ∀ e hd, allows g e hd = allows g' e hd.
Proof.
  set (g := google_gate "client" ["example.com"; "Other.org"] [] None).
  set (g' := google_gate "client" ["other.org"; "example.com"] [] None).
  assert (separable g) as Hg by (split; [reflexivity|by repeat constructor|reflexivity]).
  assert (separable g') as Hg' by (split; [reflexivity|by repeat constructor|reflexivity]).
  assert (policy_fingerprint show bytes_of g = policy_fingerprint show bytes_of g') as Hf by (vm_compute; reflexivity).
  assert (policy_material show g = policy_material show g') as Hm by (vm_compute; reflexivity).
  split; [exact Hf|].
  exact (proj1 (proj2 (proj2 (same_fingerprint_same_people show bytes_of g g' Hg Hg' (λ _, Hm) Hf)))).
Defined.

(** Entries with separators in them: both gates are accepted and sign their sessions alike, but
    only the first lets in everyone of the domain. *)
Example fingerprints_collide :
  let g := google_gate "x" ["a.com"] ["|e@x.org"] None in
  let g' := google_gate "x|a.com" [] ["e@x.org"] None in
  check g (on_host "app.example.com") = Ok tt ∧ check g' (on_host "app.example.com") = Ok tt ∧
  policy_material show g = policy_material show g' ∧
  allows g "anyone@a.com" (Some "a.com") = true ∧ allows g' "anyone@a.com" (Some "a.com") = false.
Proof. by vm_compute. Qed.

(** A plain HTTP endpoint on another machine that the check takes for this one: user information
    with a colon, and a name that begins like a loopback address. *)
Example loopback_check_is_fooled :
  jwks_url_problem "http://localhost:x@issuer.example/keys" = None ∧
  jwks_url_problem "http://127.issuer.example/keys" = None ∧
  jwks_url_problem "http://issuer.example/keys" = Some Plaintext.
Proof. by vm_compute. Qed.

(** A realm that does not cover the deployment's only host is accepted. *)
Example uncovered_realm_is_accepted :
  let g := google_gate "client" ["example.com"] [] (Some "example.com") in
  check g (on_host "app.other.org") = Ok tt ∧ cookie_domain_for g "app.other.org" = None ∧
  cookie_domain_for g "app.example.com" = Some "example.com".
Proof. by vm_compute. Qed.

(** The same path twice: the later entry decides. *)
Example order_decides_between_equals :
  let closed := {| pp_path := "/api/"; pp_scope := PathAdmin |} in
  let open_ := {| pp_path := "/api/"; pp_scope := PathPublic |} in
  let g := google_gate "client" ["example.com"] [] None in
  check (reordered g [closed; open_]) (on_host "app.example.com") = Ok tt ∧
  public_scope (reordered g [closed; open_]) "/api/x" = Some PathPublic ∧
  public_scope (reordered g [open_; closed]) "/api/x" = Some PathAdmin.
Proof. by vm_compute. Qed.
