(* ===== verification/LbConfig.v ===== *)
(** * Validation of deployment specs: [app-lb/src/config.rs]

    [DeploymentSpec::validate] and every check it makes, on the registry's specs with [LbSpec.Rest]
    in them, and [DeploymentSpec::normalize], which binds the secrets a spec names to its own
    namespace.  What is proved is what the rest of the program may rely on once a spec is accepted. *)
From Stdlib Require Import Ascii String ZArith Lia Bool Sorting.Sorted.
From stdpp Require Import base option list strings gmap fin_maps sets.
From S2P Require Import Prelude LbRoutes LbTokens LbRegional LbPool LbRegistry LbSpec LbGate.
Open Scope string_scope.
Open Scope list_scope.

(** ** Stores, references, names *)

(** [is_remote_store]. *)
Definition is_remote_store (s : string) : bool :=
  let s := Chars.trim s in Str.starts_with "http://" s || Str.starts_with "https://" s.

(** [is_supported_store]. *)
Definition is_supported_store (store : string) : bool :=
  let store := Chars.trim store in
  if String.eqb store "" then false
  else
    match (match Str.strip_prefix "http://" store with Some rest => Some rest | None => Str.strip_prefix "https://" store end) with
    | Some rest => negb (String.eqb rest "") && negb (has_whitespace rest)
    | None => is_absolute store && negb (Str.contains ".." store) && negb (Str.contains nul store)
    end.

(** [is_valid_artifact_ref]. *)
Definition is_valid_artifact_ref (r : string) : bool :=
  negb (String.eqb r "") && (String.length r <=? 128)%nat && negb (Str.starts_with "-" r) && negb (Str.starts_with "." r)
  && Str.all (word_char ["_"; "-"; "."]%char) r.

(** [is_sha256_hex]. *)
Definition is_sha256_hex (s : string) : bool :=
  (String.length s =? 64)%nat && Str.all (λ b, Str.is_ascii_digit b || Str.in_range 97 102 b) s.

Fixpoint skip_while {A} (f : A → bool) (l : list A) : list A :=
  match l with x :: l' => if f x then skip_while f l' else l | [] => [] end.

(** [sanitize_image_name]. *)
Definition sanitize_image_name (name : string) : string :=
  let plain ch :=
    match ch with
    | String c "" => if word_char ["."; "_"; "-"]%char c then c else "-"%char
    | _ => "-"%char
    end in
  let lowered := plain <$> Chars.chars (Str.to_ascii_lowercase name) in
  let start := skip_while (λ c, negb (Str.is_ascii_alphanumeric c)) lowered in
  let trimmed := rev (skip_while (chars_in ["-"; "."; "_"]%char) (rev start)) in
  string_of_list_ascii (firstn 64 trimmed).

Definition short_version (version : string) : string := Chars.concat (firstn 12 (Chars.chars version)).
(** [BuildSpec::image_for], [ArtifactSpec::image_for]. *)
Definition image_for (image_name : option string) (deployment_id version : string) : string :=
  let base := sanitize_image_name (default deployment_id image_name) in
  let short := short_version version in
  if String.eqb short "" then base else base +:+ "-" +:+ short.

(** [is_supported_repo_url]. *)
Definition is_supported_repo_url (repo : string) : bool :=
  let repo := Chars.trim repo in
  if Str.starts_with "-" repo || has_whitespace repo then false
  else
    match List.find (λ scheme, Str.starts_with scheme repo) ["https://"; "http://"; "ssh://"; "file://"] with
    | Some scheme => negb (bool_decide (Str.strip_prefix scheme repo = Some ""))
    | None =>
      if Str.starts_with "/" repo then true
      else
        match Chars.split_once "@" repo with
        | Some (user, rest) => negb (String.eqb user "") && Str.contains ":" rest && negb (Str.starts_with ":" rest)
        | None => false
        end
    end.

Definition dquote : string := String "034" "".

(** [is_safe_git_ref]. *)
Definition is_safe_git_ref (r : string) : bool :=
  negb (String.eqb r "") && (String.length r <=? 255)%nat && negb (Str.starts_with "-" r) && negb (Str.contains ".." r)
  && negb (Str.starts_with "/" r)
  && forallb (λ c, negb (Chars.is_whitespace c) && negb (is_control c)
                   && negb (existsb (String.eqb c) ["~"; "^"; ":"; "?"; "*"; "["; "\"; "'"; dquote])) (Chars.chars r).

(** [is_safe_relative_path]. *)
Definition is_safe_relative_path (p : string) : bool :=
  let p := Chars.trim p in
  negb (String.eqb p "") && negb (Str.starts_with "/" p) && negb (Str.starts_with "-" p) && negb (Str.contains nul p)
  && forallb (λ c, match c with Normal _ | CurDir => true | _ => false end) (components p).

(** ** Mounts and the workspace *)

Definition MAX_MOUNTS : nat := 8.
Definition RESERVED_MOUNT_PATHS : list string := ["/proc"; "/sys"; "/dev"; "/boot"; "/run"; "/workspace"].
Definition DEFAULT_WORKSPACE_PATH : string := "/workspace".
Definition MIN_SNAPSHOT_INTERVAL_SECS : Z := 300.

(** Whether a path is another one or lies under it, as the texts are compared. *)
Definition under (outer inner : string) : bool := Str.starts_with (outer +:+ "/") inner.

(** [mount_path_problem]. *)
Definition mount_path_problem (path : string) : option string :=
  let p := Chars.trim path in
  if String.eqb p "" then Some "must not be empty"
  else if negb (Str.starts_with "/" p) then Some "must be an absolute path inside the guest"
  else if (255 <? String.length p)%nat then Some "must be shorter than 256 characters"
  else
    let trimmed := trim_end_matches "/" p in
    if String.eqb trimmed "" then Some "cannot be the guest's root directory"
    else if negb (Str.all (word_char ["/"; "-"; "_"; "."]%char) trimmed) then
      Some "may contain only letters, digits, '/', '-', '_' and '.'; it is interpolated into the guest's mount command"
    else if existsb (λ c, match c with RootDir | Normal _ => false | _ => true end) (components trimmed) then
      Some "must not contain '.' or '..' segments"
    else if Str.contains "//" trimmed then Some "must not contain an empty path segment"
    else if existsb (λ r, String.eqb trimmed r || under r trimmed) RESERVED_MOUNT_PATHS then
      Some "is reserved: /proc, /sys, /dev, /boot and /run belong to the guest's own boot, and /workspace is heyvm's data disk"
    else None.

(** [workspace_path_problem]. *)
Definition workspace_path_problem (path : string) : option string :=
  if String.eqb (trim_end_matches "/" (Chars.trim path)) DEFAULT_WORKSPACE_PATH then None else mount_path_problem path.

(** [MountSpec::guest_path], [strip], [is_remote]. *)
Definition mount_path (m : MountSpec) : string := trim_end_matches "/" (Chars.trim (ms_path m)).
Definition mount_strip (m : MountSpec) : nat := default 0%nat (ms_strip_components m).
Definition mount_is_remote (m : MountSpec) : bool := is_remote_store (ms_store m).

(** [MountSpec::validate]. *)
Definition validate_mount (d : Driver) (m : MountSpec) : result SpecError unit :=
  match mount_path_problem (ms_path m) with Some why => Err (BadMountPath (ms_path m) why) | None => Ok tt end ;;?
  bail_if (negb (is_supported_store (ms_store m))) (BadMountStore (mount_path m) (ms_store m)) ;;?
  bail_if (negb (is_valid_artifact_ref (ms_artifact_ref m))) (BadMountRef (mount_path m) (ms_artifact_ref m)) ;;?
  validate_auth "vm.mounts[].auth" (ms_auth m) ;;?
  match ms_digest m with Some x => bail_if (negb (is_sha256_hex x)) (BadMountDigest (mount_path m) x) | None => Ok tt end ;;?
  bail_if (negb (read_only m) && bool_decide (d = Kvm)) (WritableMountOnKvm (mount_path m)).

(** The pairs of [validate_mounts]. *)
Fixpoint validate_pairs (ms : list MountSpec) : result SpecError unit :=
  match ms with
  | [] => Ok tt
  | a :: ms =>
    all_ok (λ b,
      let x := mount_path a in
      let y := mount_path b in
      bail_if (String.eqb x y) (DuplicateMountPath x) ;;?
      bail_if (under x y) (NestedMountPath x y) ;;?
      bail_if (under y x) (NestedMountPath y x)) ms ;;?
    validate_pairs ms
  end.

(** [validate_mounts]. *)
Definition validate_mounts (ms : list MountSpec) (d : Driver) : result SpecError unit :=
  bail_if (MAX_MOUNTS <? length ms)%nat (TooManyMounts (length ms) MAX_MOUNTS) ;;?
  all_ok (validate_mount d) ms ;;?
  validate_pairs ms.

(** [WorkspaceArchive::key], [WorkspaceArchive::validate]. *)
Definition archive_key (a : WorkspaceArchive) : option string :=
  k ← s3_key a; let k := Chars.trim k in if String.eqb k "" then None else Some k.
Definition validate_archive (a : WorkspaceArchive) : result SpecError unit :=
  bail_if (negb (is_some (archive_key a))) (UnresolvedWorkspaceArchive (default "" (archive_id a))).

Inductive WorkspaceStore : Type := S3 (bucket prefix : string) | Remote (url : string) | LocalRoot (path : string).

(** [WorkspaceSpec::guest_path], [tag], [backend]. *)
Definition workspace_path (w : WorkspaceSpec) : string :=
  match ws_path w with
  | Some p => let p := trim_end_matches "/" (Chars.trim p) in if String.eqb p "" then DEFAULT_WORKSPACE_PATH else p
  | None => DEFAULT_WORKSPACE_PATH
  end.
Definition workspace_tag (w : WorkspaceSpec) (deployment_id : string) : string :=
  match Chars.trim <$> ws_artifact_ref w with
  | Some r => if String.eqb r "" then "workspace-" +:+ deployment_id else r
  | None => "workspace-" +:+ deployment_id
  end.
Definition workspace_store (w : WorkspaceSpec) : option WorkspaceStore :=
  let store := Chars.trim (ws_store w) in
  match Str.strip_prefix "s3://" store with
  | Some rest =>
    let '(bucket, prefix) :=
      match Chars.split_once "/" rest with Some (b, p) => (b, Chars.trim_matches "/" p) | None => (rest, "") end in
    if negb (String.eqb bucket "")
       && Str.all (λ b, Str.is_ascii_lowercase b || Str.is_ascii_digit b || chars_in ["-"; "."]%char b) bucket
    then Some (S3 bucket prefix) else None
  | None =>
    if negb (is_supported_store store) then None
    else if is_remote_store store then Some (Remote (trim_end_matches "/" store)) else Some (LocalRoot store)
  end.

(** [WorkspaceSpec::validate]. *)
Definition validate_workspace (d : Driver) (scaling : ScalingPolicy) (ms : list MountSpec) (w : WorkspaceSpec) :
    result SpecError unit :=
  bail_if (negb (bool_decide (d = Firecracker))) (WorkspaceDriver d) ;;?
  match ws_path w with
  | Some p => match workspace_path_problem p with Some why => Err (BadWorkspacePath p why) | None => Ok tt end
  | None => Ok tt
  end ;;?
  bail_if (negb (is_some (workspace_store w))) (BadWorkspaceStore (ws_store w)) ;;?
  match ws_artifact_ref w with
  | Some r => bail_if (negb (is_valid_artifact_ref (Chars.trim r))) (BadWorkspaceRef r)
  | None => Ok tt
  end ;;?
  validate_auth "vm.workspace.auth" (ws_auth w) ;;?
  bail_if (1 <? max_replicas scaling)%Z (WorkspaceReplicas (max_replicas scaling)) ;;?
  bail_if (negb (warm_pool scaling =? 0)%Z) (WorkspaceWarmPool (warm_pool scaling)) ;;?
  match snapshot_interval_secs w with
  | Some n => bail_if (n <? MIN_SNAPSHOT_INTERVAL_SECS)%Z (WorkspaceSnapshotInterval n)
  | None => Ok tt
  end ;;?
  all_ok (λ m,
    let p := mount_path m in
    let ws := workspace_path w in
    bail_if (String.eqb p ws || under ws p || under p ws) (WorkspaceCollidesWithMount ws p)) ms.

(** ** Builds, artifacts, updates, sites, feeds *)

Inductive BuildSource : Type := GitSource (repo : string) (git_ref : option string) | DockerfileSource (store reference : string).

(** [BuildSpec::source], [store_is_remote]. *)
Definition build_source (b : BuildSpec) : option BuildSource :=
  match repo b, bs_store b with
  | Some r, None => Some (GitSource r (source_ref b))
  | None, Some s => DockerfileSource s <$> source_ref b
  | _, _ => None
  end.
Definition store_is_remote (b : BuildSpec) : bool := match bs_store b with Some s => is_remote_store s | None => false end.

Definition validate_image_name (name : option string) : result SpecError unit :=
  match name with Some n => bail_if (String.eqb (sanitize_image_name n) "") (BadImageName n) | None => Ok tt end.

(** [BuildSpec::validate]. *)
Definition validate_build (b : BuildSpec) : result SpecError unit :=
  match repo b, bs_store b with Some _, Some _ => Err BothBuildSources | None, None => Err NoBuildSource | _, _ => Ok tt end ;;?
  match repo b with
  | Some r =>
    bail_if (blank r) EmptyRepo ;;?
    bail_if (negb (is_supported_repo_url r)) (UnsupportedRepoUrl r) ;;?
    match source_ref b with Some g => bail_if (negb (is_safe_git_ref g)) (BadBuildRef g) | None => Ok tt end ;;?
    all_ok (λ p, bail_if (negb (is_safe_relative_path p)) (BadBuildPath p)) (omap Datatypes.id [dockerfile b; context b])
  | None => Ok tt
  end ;;?
  match bs_store b with
  | Some s =>
    bail_if (blank s) EmptyBuildStore ;;?
    bail_if (negb (is_supported_store s)) (UnsupportedBuildStore s) ;;?
    match source_ref b with
    | None => Err MissingBuildRef
    | Some r =>
      bail_if (negb (is_valid_artifact_ref r)) (BadBuildArtifactRef r) ;;?
      refuse_set OnlyForGitBuilds [("build.dockerfile", is_some (dockerfile b)); ("build.context", is_some (context b))]
    end
  | None => Ok tt
  end ;;?
  validate_image_name (bs_image_name b) ;;?
  validate_auth "build.auth" (bs_auth b).

(** [ArtifactSpec::is_remote], [strip]. *)
Definition artifact_is_remote (a : ArtifactSpec) : bool := is_remote_store (as_store a).
Definition artifact_strip (a : ArtifactSpec) : nat := default 0%nat (as_strip_components a).

(** [ArtifactSpec::validate]. *)
Definition validate_artifact (for_site : bool) (a : ArtifactSpec) : result SpecError unit :=
  bail_if (blank (as_store a)) EmptyArtifactStore ;;?
  bail_if (negb (is_supported_store (as_store a))) (UnsupportedArtifactStore (as_store a)) ;;?
  bail_if (negb (is_valid_artifact_ref (as_artifact_ref a))) (BadArtifactRef (as_artifact_ref a)) ;;?
  validate_auth "artifact.auth" (as_auth a) ;;?
  if for_site then
    refuse_set NotForSites [("artifact.grow_gb", is_some (grow_gb a)); ("artifact.image_name", is_some (as_image_name a))]
  else
    bail_if (is_some (as_strip_components a)) (OnlyForSites "artifact.strip_components") ;;?
    validate_image_name (as_image_name a) ;;?
    bail_if (bool_decide (grow_gb a = Some 0%Z)) ZeroGrow.

(** [SecretEnv::secret_ref], [env_name], [validate]. *)
Definition env_ref (e : SecretEnv) : SecretRef :=
  {| sr_secret := se_secret e; sr_key := se_key e; sr_username := None; sr_namespace := se_namespace e |}.
Definition env_name (e : SecretEnv) : string := default (Str.to_ascii_uppercase (se_key e)) (se_env e).
Definition usable_env_name (n : string) : bool :=
  negb (String.eqb n "") && negb (match n with String c _ => Str.is_ascii_digit c | "" => false end)
  && Str.all (word_char ["_"]%char) n.
Definition validate_env (field : string) (e : SecretEnv) : result SpecError unit :=
  map_err (BadSecretRef field) (validate_ref (env_ref e)) ;;?
  bail_if (negb (usable_env_name (env_name e))) (BadEnvName (env_name e)).

(** [UpdateSpec::verify_timeout], in seconds, and [UpdateSpec::validate]. *)
Definition verify_timeout (u : UpdateSpec) : Z := default 60%Z (verify_timeout_secs u).
Definition validate_update (u : UpdateSpec) : result SpecError unit :=
  let dir := Chars.trim (working_dir u) in
  bail_if (String.eqb dir "") EmptyWorkingDir ;;?
  bail_if (negb (Str.starts_with "/" dir) || Str.contains nul dir || bool_decide (ParentDir ∈ components dir))
    (BadWorkingDir (working_dir u)) ;;?
  bail_if (bool_decide (commands u = [])) NoCommands ;;?
  all_ok (λ c, bail_if (blank c || Str.contains nul c) (BadCommand c)) (commands u) ;;?
  all_ok (validate_env "update.env_from") (us_env_from u) ;;?
  validate_auth "update.auth" (us_auth u) ;;?
  bail_if (bool_decide (timeout_secs u = Some 0%Z)) ZeroTimeout.

(** Not a path inside a directory: rooted, or with a segment that leads up. *)
Definition climbs (p : string) : bool := Str.starts_with "/" p || existsb (String.eqb "..") (Str.split "/" p).

Definition validate_site_path (field : string) (value : option string) : result SpecError unit :=
  match value with
  | Some v => let v := Chars.trim v in bail_if (negb (String.eqb v "") && climbs v) (BadSitePath field v)
  | None => Ok tt
  end.
(** [SiteSpec::validate]. *)
Definition validate_site (s : SiteSpec) : result SpecError unit :=
  let r := Chars.trim (root s) in
  bail_if (String.eqb r "") EmptySiteRoot ;;?
  bail_if (negb (is_absolute r)) (RelativeSiteRoot r) ;;?
  validate_site_path "index" (Some (index_file s)) ;;?
  validate_site_path "not_found" (not_found s) ;;?
  bail_if (spa s && blank (index_file s)) SpaWithoutIndex.

(** [FeedSpec::validate]. *)
Definition validate_feed (routes : list RouteRule) (f : FeedSpec) : result SpecError unit :=
  match expose f with
  | None => Ok tt
  | Some e =>
    bail_if (negb (Str.starts_with "/" e) || existsb (String.eqb "..") (Str.split "/" e)) (BadFeedExpose e) ;;?
    bail_if (bool_decide (routes = [])) FeedExposeWithoutRoutes
  end.

(** [NamespaceSpec::validate], [WorkflowSpec::validate]. *)
Definition validate_namespace_spec (n : NamespaceSpec) : result SpecError unit :=
  bail_if (negb (is_valid_namespace (nss_name n))) (SpecBadNamespace (nss_name n)) ;;?
  bail_if (String.eqb (nss_name n) DEFAULT_NAMESPACE) ReservedNamespace ;;?
  bail_if (match nss_description n with Some d => (400 <? String.length d)%nat | None => false end) DescriptionTooLong.

Definition validate_workflow (w : WorkflowSpec) : result SpecError unit :=
  bail_if (String.eqb (wf_id w) "") EmptyId ;;?
  bail_if (negb (Str.all (word_char ["-"; "_"]%char) (wf_id w))) (BadWorkflowId (wf_id w)) ;;?
  bail_if (blank (wf_repo w)) EmptyWorkflowRepo ;;?
  bail_if (blank (git_ref w)) EmptyWorkflowRef ;;?
  bail_if (blank (network w)) EmptyWorkflowNetwork ;;?
  bail_if (blank (wf_path w) || climbs (Chars.trim (wf_path w))) (BadWorkflowPath (wf_path w)).

(** [Vec::dedup]: equal neighbours become one. *)
Fixpoint dedup (l : list string) : list string :=
  match l with
  | x :: ((y :: _) as l') => if String.eqb x y then dedup l' else x :: dedup l'
  | _ => l
  end.

(** ** Names of replicas: [vm.rs], [incus.rs] *)

Definition OWNER_PREFIX : string := "applb".
Definition MAX_NAME_LEN : nat := 63.
Definition MAX_LXC_DEPLOYMENT_ID : nat := MAX_NAME_LEN - 19.

Definition hex_char (n : N) : ascii := ascii_of_N (if (n <? 10)%N then 48 + n else 87 + n)%N.
(** The low hex digits of a number, most significant first. *)
Fixpoint hex_digits (k : nat) (n : N) : string :=
  match k with O => "" | S k => hex_digits k (n / 16)%N +:+ String (hex_char (n mod 16)) "" end.
(** [{n:012x}] of a [u64]: at least twelve digits, and no more than it needs. *)
Definition hex_width (n : N) : nat := Nat.max 12 (N.to_nat ((N.log2 n / 4) + 1)).
Definition hex12 (n : N) : string := hex_digits (hex_width n) n.

(** [vm::replica_name], [vm::owner_of]. *)
Definition replica_name (deployment_id : string) (nonce : N) : string :=
  OWNER_PREFIX +:+ "-" +:+ deployment_id +:+ "-" +:+ hex12 nonce.
Definition owner_of (sandbox_name : string) : option string :=
  rest ← Str.strip_prefix OWNER_PREFIX sandbox_name;
  rest ← Str.strip_prefix "-" rest;
  '(id, _) ← Chars.rsplit_once "-" rest;
  if String.eqb id "" then None else Some id.

(** [incus::is_legal_name]. *)
Definition is_legal_name (name : string) : bool :=
  negb (String.eqb name "") && (String.length name <=? MAX_NAME_LEN)%nat && Str.all (word_char ["-"]%char) name
  && negb (match name with String c _ => Str.is_ascii_digit c || Ascii.eqb c "-" | "" => false end)
  && negb (Str.ends_with "-" name) && negb (Str.all Str.is_ascii_digit name).

(** ** The whole spec *)

Section config.
Context {Json : Type} `{!EqDecision Json} (url_parse : string → option Url) (show_Z : Z → string)
  (socket_loopback : string → option bool) (x509_key pem_key : string → result string unit).
Local Abbreviation DeploymentSpec := (LbRegistry.DeploymentSpec (Rest Json) SiteSpec).

Definition vm_of (s : DeploymentSpec) : option VmSpec := vm (rest_of s).
Definition build_of (s : DeploymentSpec) : option BuildSpec := build (rest_of s).
Definition artifact_of (s : DeploymentSpec) : option ArtifactSpec := artifact (rest_of s).
Definition update_of (s : DeploymentSpec) : option UpdateSpec := update_spec (rest_of s).
Definition gate_of (s : DeploymentSpec) : option (AuthGate Json) := gate (rest_of s).

(** [DeploymentSpec::driver]; [vm_spec], which panics without a template; [has_host_route];
    [IngressSpec::wants_cloud]. *)
Definition driver_of (s : DeploymentSpec) : option Driver := driver <$> vm_of s.
Definition vm_spec (s : DeploymentSpec) : option VmSpec := vm_of s.
Definition has_host_route (s : DeploymentSpec) : bool := existsb (λ r, is_some (host r) || is_some (host_suffix r)) (routes s).
Definition wants_cloud (i : option IngressSpec) : bool := match i with Some i => cloud i | None => false end.

(** One exact-host route that keeps the path: what a gateway and a regional deployment need. *)
Definition one_exact_host (rs : list RouteRule) : bool :=
  match rs with [r] => is_some (host r) && negb (strip_prefix r) && negb (is_some (host_suffix r)) | _ => false end.

(** [u8::is_ascii_whitespace]. *)
Definition is_ascii_whitespace : ascii → bool := chars_in [" "; "009"; "010"; "012"; "013"]%char.
Definition lxc_image_char : ascii → bool := word_char ["."; "_"; "/"; ":"; "@"; "-"]%char.
Definition lxc_id_char (b : ascii) : bool := Str.is_ascii_lowercase b || Str.is_ascii_digit b || Ascii.eqb b "-".

(** [DeploymentSpec::validate_lxc]. *)
Definition validate_lxc (s : DeploymentSpec) (v : VmSpec) : result SpecError unit :=
  let img := default "" (Chars.trim <$> image v) in
  let i := Chars.trim (id s) in
  bail_if (String.eqb img "") LxcNeedsImage ;;?
  bail_if ((255 <? String.length img)%nat || Str.any is_ascii_whitespace img || negb (Str.all lxc_image_char img))
    (LxcBadImage img) ;;?
  bail_if (MAX_LXC_DEPLOYMENT_ID <? String.length i)%nat (BadLxcId i "too long") ;;?
  bail_if (negb (Str.all lxc_id_char i)) (BadLxcId i "contains something other than a lowercase letter, a digit or a dash") ;;?
  bail_if (Str.ends_with "-" i) (BadLxcId i "ends with a dash") ;;?
  bail_if (negb (is_legal_name (replica_name i 0))) (BadLxcId i "cannot form a legal container name") ;;?
  refuse_set NotForLxc
    [("vm.correlated_creates", correlated_creates v); ("vm.workspace_archive", is_some (workspace_archive v));
     ("vm.image_download_url", is_some (image_download_url v) || is_some (image_size_bytes v) || is_some (image_sha256 v));
     ("vm.setup_hooks", match setup_hooks v with Some h => negb (bool_decide (h = [])) | None => false end);
     ("vm.open_ports", negb (bool_decide (open_ports v = []))); ("build", is_some (build_of s));
     ("artifact", is_some (artifact_of s)); ("ingress", is_some (ingress (rest_of s)))] ;;?
  bail_if (negb (bool_decide (mounts v = []))) (LxcNotYet "vm.mounts").

(** The gateway block. *)
Definition validate_gateway_block (s : DeploymentSpec) (g : GatewaySpec) : result SpecError unit :=
  bail_if (is_some (vm_of s) || is_some (discovery s) || is_some (site s) || negb (one_exact_host (routes s)))
    (InvalidGateway GatewayShape) ;;?
  map_err (λ e, InvalidGateway (GatewayTransport e)) (validate_gateway url_parse show_Z socket_loopback g (upstreams s)).

(** [discovery::validate_source_url]. *)
Definition source_url_ok (value : string) : bool :=
  match url_parse value with
  | None => false
  | Some u =>
    (String.eqb (url_scheme u) "http" || String.eqb (url_scheme u) "https") && is_some (url_host_str u)
    && String.eqb (url_username u) "" && negb (is_some (url_password u)) && negb (is_some (url_query u))
    && negb (is_some (url_fragment u))
  end.

(** The discovery block. *)
Definition validate_discovery (s : DeploymentSpec) (d : DiscoverySpec) : result SpecError unit :=
  bail_if (blank (service_id d)) EmptyDiscoveryServiceId ;;?
  bail_if (match ds_region d with Some r => negb (bounded_identifier r) | None => false end) (InvalidDiscoverySource RegionNotBounded) ;;?
  match source d with
  | Some src =>
    bail_if (negb (source_url_ok (ds_url src))) (InvalidDiscoverySource SourceUrl) ;;?
    map_err (λ e, InvalidDiscoverySource (SourceAuth e)) (validate_ref (ds_auth src))
  | None => Ok tt
  end ;;?
  match ds_regional d with
  | Some r =>
    bail_if (negb (is_some (ds_region d)) || negb (is_some (source d)) || is_some (gateway s) || negb (one_exact_host (routes s)))
      (InvalidDiscoverySource RegionalShape) ;;?
    all_ok (λ v, bail_if (negb (bounded_identifier v)) (InvalidDiscoverySource RegionalNotBounded))
      [gateway_id r; rs_backend_server_id r; environment r; service_id d] ;;?
    map_err (λ e, InvalidDiscoverySource (RegionalAuth e)) (validate_ref (rs_auth r))
  | None => Ok tt
  end ;;?
  bail_if (is_some (vm_of s) || is_some (site s)) DiscoveryWithOtherBackend.

(** The site branch of [DeploymentSpec::validate]. *)
Definition validate_site_spec (s : DeploymentSpec) (st : SiteSpec) : result SpecError unit :=
  bail_if (is_some (vm_of s) || negb (bool_decide (upstreams s = [])) || is_some (discovery s)) SiteWithOtherBackend ;;?
  validate_site st ;;?
  match build_of s with
  | Some b =>
    bail_if (is_some (bs_store b)) (NotForSites "build.store") ;;?
    refuse_set NotForSites [("build.dockerfile", is_some (dockerfile b)); ("build.image_name", is_some (bs_image_name b));
                            ("build.image_size_mb", is_some (image_size_mb b))] ;;?
    validate_build b
  | None => Ok tt
  end ;;?
  bail_if (1 <? length (List.filter Datatypes.id [is_some (update_of s); is_some (artifact_of s); is_some (build_of s)]))%nat
    BothSiteSources ;;?
  match update_of s with Some u => validate_update u | None => Ok tt end ;;?
  match artifact_of s with Some a => validate_artifact true a | None => Ok tt end.

(** The managed branch. *)
Definition validate_vm (s : DeploymentSpec) (v : VmSpec) : result SpecError unit :=
  match driver v with
  | Firecracker | Kvm => Ok tt
  | Lxc => validate_lxc s v
  | d => Err (UnsupportedDriver d)
  end ;;?
  bail_if (port v =? 0)%Z ZeroPort ;;?
  validate_mounts (mounts v) (driver v) ;;?
  match workspace_archive v with
  | Some a => bail_if (is_some (workspace v)) ArchiveWithWorkspace ;;? validate_archive a
  | None => Ok tt
  end ;;?
  match workspace v with Some w => validate_workspace (driver v) (scaling s) (mounts v) w | None => Ok tt end ;;?
  all_ok (validate_env "vm.env_from") (vm_env_from v) ;;?
  bail_if (max_replicas (scaling s) <? min_replicas (scaling s))%Z
    (BadReplicaRange (min_replicas (scaling s)) (max_replicas (scaling s))) ;;?
  bail_if (target_concurrency (scaling s) =? 0)%Z ZeroTargetConcurrency ;;?
  bail_if (is_some (build_of s) && is_some (artifact_of s)) BothImageSources ;;?
  match build_of s with Some b => validate_build b | None => Ok tt end ;;?
  match artifact_of s with Some a => validate_artifact false a | None => Ok tt end ;;?
  bail_if (is_some (update_of s)) UpdateOnManagedDeployment.

(** The static branch. *)
Definition validate_static (s : DeploymentSpec) : result SpecError unit :=
  bail_if (is_some (build_of s)) BuildOnStaticDeployment ;;?
  bail_if (is_some (artifact_of s)) ArtifactOnStaticDeployment ;;?
  match update_of s with Some u => validate_update u | None => Ok tt end ;;?
  all_ok (λ u, bail_if (negb (is_some (parse_upstream url_parse show_Z u))) (SpecBadUpstream u)) (upstreams s).

(** [DeploymentSpec::validate]. *)
Definition validate (s : DeploymentSpec) : result SpecError unit :=
  bail_if (blank (id s)) EmptyId ;;?
  match gateway s with Some g => validate_gateway_block s g | None => Ok tt end ;;?
  bail_if (negb (is_valid_namespace (namespace s))) (SpecBadNamespace (namespace s)) ;;?
  match feed (rest_of s) with Some f => validate_feed (routes s) f | None => Ok tt end ;;?
  bail_if (existsb is_empty (routes s)) EmptyRoute ;;?
  bail_if (existsb (λ r, strip_prefix r && negb (is_some (path_prefix r))) (routes s)) StripPrefixWithoutPath ;;?
  bail_if (wants_cloud (ingress (rest_of s)) && negb (is_some (vm_of s))) IngressWithoutVm ;;?
  (if bool_decide (routes s = []) then
     bail_if (negb (is_some (vm_of s))) NoRoutes ;;? bail_if (is_some (gate_of s)) AuthWithoutRoutes
   else Ok tt) ;;?
  match gate_of s with Some g => validate_gate url_parse x509_key pem_key g (routes s) | None => Ok tt end ;;?
  match site s with
  | Some st => validate_site_spec s st
  | None =>
    match discovery s with Some d => validate_discovery s d | None => Ok tt end ;;?
    match vm_of s, bool_decide (upstreams s = []) && negb (is_some (discovery s)) with
    | Some _, false => Err BothBackendKinds
    | None, true => Err NoBackendKind
    | _, _ => Ok tt
    end ;;?
    match vm_of s with Some v => validate_vm s v | None => validate_static s end
  end.

(** *** Secrets *)

Definition scope_env (ns : string) (e : SecretEnv) : SecretEnv :=
  {| se_secret := se_secret e; se_key := se_key e; se_env := se_env e; se_namespace := Some ns |}.
Definition scope_mount (ns : string) (m : MountSpec) : MountSpec :=
  {| ms_path := ms_path m; ms_store := ms_store m; ms_artifact_ref := ms_artifact_ref m; ms_auth := scope_to ns <$> ms_auth m;
     ms_strip_components := ms_strip_components m; read_only := read_only m; ms_digest := ms_digest m |}.
Definition scope_workspace (ns : string) (w : WorkspaceSpec) : WorkspaceSpec :=
  {| ws_path := ws_path w; ws_store := ws_store w; ws_artifact_ref := ws_artifact_ref w; ws_auth := scope_to ns <$> ws_auth w;
     snapshot_interval_secs := snapshot_interval_secs w |}.
Definition scope_vm (ns : string) (v : VmSpec) : VmSpec :=
  {| driver := driver v; correlated_creates := correlated_creates v; image := image v; port := port v;
     start_command := start_command v; size_class := size_class v; disk_size_gb := disk_size_gb v;
     working_directory := working_directory v; env_vars := env_vars v; setup_hooks := setup_hooks v;
     open_ports := open_ports v; mounts := scope_mount ns <$> mounts v; workspace := scope_workspace ns <$> workspace v;
     vm_env_from := scope_env ns <$> vm_env_from v; workspace_archive := workspace_archive v;
     image_download_url := image_download_url v; image_size_bytes := image_size_bytes v; image_sha256 := image_sha256 v;
     ttl_seconds := ttl_seconds v |}.
Definition scope_build (ns : string) (b : BuildSpec) : BuildSpec :=
  {| repo := repo b; bs_store := bs_store b; source_ref := source_ref b; dockerfile := dockerfile b; context := context b;
     bs_image_name := bs_image_name b; image_size_mb := image_size_mb b; bs_auth := scope_to ns <$> bs_auth b |}.
Definition scope_artifact (ns : string) (a : ArtifactSpec) : ArtifactSpec :=
  {| as_store := as_store a; as_artifact_ref := as_artifact_ref a; as_auth := scope_to ns <$> as_auth a; grow_gb := grow_gb a;
     as_image_name := as_image_name a; as_strip_components := as_strip_components a |}.
Definition scope_update (ns : string) (u : UpdateSpec) : UpdateSpec :=
  {| working_dir := working_dir u; commands := commands u; us_env := us_env u; us_env_from := scope_env ns <$> us_env_from u;
     us_auth := scope_to ns <$> us_auth u; timeout_secs := timeout_secs u; verify_timeout_secs := verify_timeout_secs u |}.
Definition scope_gate (ns : string) (g : AuthGate Json) : AuthGate Json :=
  {| provider := provider g; client_id := client_id g; client_secret := scope_to ns <$> client_secret g;
     allowed_domains := allowed_domains g; allowed_emails := allowed_emails g; public_paths := public_paths g;
     session_scope := session_scope g; base_path := base_path g; session_ttl_secs := session_ttl_secs g;
     cookie_name := cookie_name g; cookie_domain := cookie_domain g; redirect_url := redirect_url g;
     forward_identity := forward_identity g; jwt := scope_jwt ns <$> jwt g; provider_ref := provider_ref g |}.

(** What [DeploymentSpec::normalize] does to the part of a spec the registry leaves open. *)
Definition normalize_rest (ns : string) (r : Rest Json) : Rest Json :=
  {| account_id := account_id r; user_id := user_id r; vm := scope_vm ns <$> vm r; health := health r;
     drain_timeout_secs := drain_timeout_secs r; boot_timeout_secs := boot_timeout_secs r; idle_action := idle_action r;
     build := scope_build ns <$> build r; artifact := scope_artifact ns <$> artifact r;
     update_spec := scope_update ns <$> update_spec r; gate := scope_gate ns <$> gate r; feed := feed r; ingress := ingress r |}.

(** [DeploymentSpec::normalize]. *)
Definition normalize (s : DeploymentSpec) : DeploymentSpec :=
  {| id := id s; namespace := namespace s; routes := routes s; maintenance := maintenance s; site := site s;
     scaling := scaling s; upstreams := upstreams s;
     discovery := normalize_discovery (namespace s) <$> discovery s;
     gateway := (λ g, {| service := service g; gs_region := gs_region g; auth := scope_to (namespace s) (auth g);
                         mode := mode g |}) <$> gateway s;
     rest_of := normalize_rest (namespace s) (rest_of s) |}.

(** [DeploymentSpec::secret_ids]: the references in its order, then the variables. *)
Definition option_refs (s : DeploymentSpec) : list (option SecretRef) :=
  [option_map auth (gateway s); d ← discovery s; option_map ds_auth (source d); d ← discovery s; option_map rs_auth (ds_regional d);
   b ← build_of s; bs_auth b; a ← artifact_of s; as_auth a; u ← update_of s; us_auth u; g ← gate_of s; client_secret g;
   g ← gate_of s; j ← jwt g; js_secret j; v ← vm_of s; w ← workspace v; ws_auth w]
  ++ match vm_of s with Some v => List.map ms_auth (mounts v) | None => [] end.
Definition env_vars_of (s : DeploymentSpec) : list SecretEnv :=
  match vm_of s with Some v => vm_env_from v | None => [] end
  ++ match update_of s with Some u => us_env_from u | None => [] end.
Definition secret_ids (s : DeploymentSpec) : list string :=
  dedup (sort_by String.compare
    (List.map sr_secret (omap (λ o, o) (option_refs s)) ++ List.map se_secret (env_vars_of s))).
End config.

(** ** Mounts *)

(** Where a mount leads, by name. *)
Definition guest_names (path : string) : list string := names_of (components path).

(** A rooted path that is its names. *)
Definition plain_path (q : string) : Prop := Str.split "/" q = "" :: guest_names q ∧ guest_names q ≠ [].

Lemma plain_prefix q q' :
  plain_path q → plain_path q' → guest_names q `prefix_of` guest_names q' ↔ q = q' ∨ under q q' = true.
Proof.
  intros [Hq Hn] [Hq' Hn']. unfold under. rewrite (split_prefix "/"). split.
  - intros [z Hz]. destruct z as [|x z].
    + left. rewrite <- (join_split "/" q), <- (join_split "/" q'), Hq, Hq', Hz. by rewrite (right_id_L [] (++)).
    + right. exists (x :: z). split; [done|]. by rewrite Hq, Hq', Hz.
  - intros [-> |(z & Hz & E)]; [done|]. rewrite Hq, Hq' in E. exists z. by injection E.
Qed.

Lemma mount_path_sound p :
  let q := trim_end_matches "/" (Chars.trim p) in
  mount_path_problem p = None → "." ∉ Str.split "/" q →
  plain_path q ∧ (∀ r, r ∈ RESERVED_MOUNT_PATHS → ¬ guest_names r `prefix_of` guest_names q) ∧
  Str.all (word_char ["/"; "-"; "_"; "."]%char) q = true.
Proof.
  cbv zeta. set (q := trim_end_matches "/" (Chars.trim p)). unfold mount_path_problem. cbv zeta. fold q.
  destruct (String.eqb (Chars.trim p) ""); [done|]. destruct (Str.starts_with "/" (Chars.trim p)) eqn:Ea; [|done]. cbn [negb].
  destruct (255 <? _)%nat; [done|]. destruct (String.eqb_spec q "") as [|Hne]; [done|].
  destruct (Str.all _ q) eqn:Eall; [|done]. cbn [negb].
  destruct (existsb _ (components q)) eqn:Ec; [done|]. destruct (Str.contains "//" q) eqn:E2; [done|].
  destruct (existsb _ RESERVED_MOUNT_PATHS) eqn:Er; [done|]. intros _ Hdot.
  assert (is_absolute q = true) as Hq.
  { unfold is_absolute. apply Str.starts_with_spec in Ea as (r & Er'). destruct (trim_end_matches_prefix "/" (Chars.trim p)) as (t & Ht & _).
    fold q in Ht. destruct q as [|b q']; [done|]. rewrite Er' in Ht. injection Ht as <- _. done. }
  assert (ParentDir ∉ components q) as Hp.
  { intros H. apply list_elem_of_In in H. assert (existsb (λ c, match c with RootDir | Normal _ => false | _ => true end) (components q) = true)
      by (apply existsb_exists; by exists ParentDir). congruence. }
  destruct (components_rooted q Hq Hp E2 (trim_end_matches_end "/" (Chars.trim p)) Hdot) as (H1 & H2 & _).
  assert (plain_path q) as Hplain by done. split_and!; [done| |done].
  intros r Hr Hpre. assert (plain_path r) as Hrp.
  { apply list_elem_of_In in Hr. cbn in Hr. destruct Hr as [<-|[<-|[<-|[<-|[<-|[<-|[]]]]]]]; by split. }
  apply (plain_prefix r q Hrp Hplain) in Hpre.
  assert (existsb (λ r, String.eqb q r || under r q) RESERVED_MOUNT_PATHS = true); [|congruence].
  apply existsb_exists. exists r. split; [by apply list_elem_of_In|]. apply orb_true_iff.
  destruct Hpre as [<-|]; [left; apply String.eqb_refl|by right].
Qed.

Lemma validate_pairs_spec ms :
  validate_pairs ms = Ok tt →
  ∀ i j a b, (i < j)%nat → ms !! i = Some a → ms !! j = Some b →
    mount_path a ≠ mount_path b ∧ under (mount_path a) (mount_path b) = false ∧ under (mount_path b) (mount_path a) = false.
Proof.
  induction ms as [|m ms IH]; cbn [validate_pairs]; [done|]. rewrite seq_ok. intros [Hm Hms]. apply all_ok_spec in Hm.
  intros [|i] [|j] a b Hij Ha Hb; try lia.
  - injection Ha as ->. cbn in Hb. rewrite Forall_forall in Hm. specialize (Hm b (list_elem_of_lookup_2 _ _ _ Hb)).
    cbv zeta beta in Hm. rewrite !seq_ok, !bail_if_ok in Hm. destruct Hm as (H1 & H2 & H3). apply String.eqb_neq in H1. done.
  - apply (IH Hms i j); [lia|done..].
Qed.

Section accepted.
Context {Json : Type} `{!EqDecision Json} (url_parse : string → option Url) (show_Z : Z → string)
  (socket_loopback : string → option bool) (x509_key pem_key : string → result string unit).
Local Abbreviation DeploymentSpec := (LbRegistry.DeploymentSpec (Rest Json) SiteSpec).
Local Abbreviation validate := (validate url_parse show_Z socket_loopback x509_key pem_key).

(** What an accepted spec with a template has passed. *)
Lemma validate_managed (s : DeploymentSpec) v :
  validate s = Ok tt → vm_of s = Some v →
  site s = None ∧ upstreams s = [] ∧ discovery s = None ∧ validate_vm s v = Ok tt.
Proof.
  intros H Hv. unfold LbConfig.validate in H. rewrite !seq_ok in H. destruct H as (_ & _ & _ & _ & _ & _ & _ & _ & _ & H).
  destruct (site s) as [st|].
  - unfold validate_site_spec in H. rewrite !seq_ok, Hv in H. destruct H as [H _]. by apply bail_if_ok in H.
  - rewrite !seq_ok, Hv in H. destruct H as (Hd & Hb & H). case_bool_decide; cbn [andb] in Hb; [|done].
    destruct (discovery s) as [d|]; [|done]. unfold validate_discovery in Hd. rewrite !seq_ok, Hv in Hd.
    destruct Hd as (_ & _ & _ & _ & Hd). by apply bail_if_ok in Hd.
Qed.

(** No dots in the mount paths of a spec. *)
Definition undotted (path : string) : Prop := "." ∉ Str.split "/" path.

(** C18. Where no mount path and no workspace path has a "." segment, the mounts of an accepted spec do
    not hide one another or the guest's own.  Followed name by
    name, no mount leads to where another does or into it, none leads to a directory the guest boots
    with or to heyvm's disk or into one, and none of them shares a place with the deployment's
    workspace; there are at most eight, and a shared tree is writable on no KVM guest.  The check does not
    see a "." segment, and with one in a path all of this but the last two may fail: see
    [dot_segments_are_not_seen]. *)
Theorem accepted_mounts_are_apart (s : DeploymentSpec) v :
  validate s = Ok tt → vm_of s = Some v →
  (∀ m, m ∈ mounts v → undotted (mount_path m)) →
  (∀ w, workspace v = Some w → undotted (workspace_path w)) →
  (length (mounts v) <= 8)%nat ∧
  (∀ i j a b, i ≠ j → mounts v !! i = Some a → mounts v !! j = Some b →
     ¬ guest_names (mount_path a) `prefix_of` guest_names (mount_path b)) ∧
  (∀ m r, m ∈ mounts v → r ∈ RESERVED_MOUNT_PATHS → ¬ guest_names r `prefix_of` guest_names (mount_path m)) ∧
  (∀ w m, workspace v = Some w → m ∈ mounts v →
     ¬ guest_names (workspace_path w) `prefix_of` guest_names (mount_path m) ∧
     ¬ guest_names (mount_path m) `prefix_of` guest_names (workspace_path w)) ∧
  (∀ m, m ∈ mounts v → read_only m = false → driver v ≠ Kvm).
Proof.
  intros Hs Hv Hdot Hdotw. destruct (validate_managed s v Hs Hv) as (_ & _ & _ & Hvm). unfold validate_vm in Hvm.
  rewrite !seq_ok in Hvm. destruct Hvm as (_ & _ & Hm & _ & Hw & _). unfold validate_mounts in Hm. rewrite !seq_ok in Hm.
  destruct Hm as (Hlen & Hall & Hpairs). apply bail_if_ok, Nat.ltb_ge in Hlen. apply all_ok_spec in Hall. rewrite Forall_forall in Hall.
  assert (∀ m, m ∈ mounts v → plain_path (mount_path m) ∧
    ∀ r, r ∈ RESERVED_MOUNT_PATHS → ¬ guest_names r `prefix_of` guest_names (mount_path m)) as Hpaths.
  { intros m Hin. pose proof (Hall m Hin) as Hok. unfold validate_mount in Hok. rewrite !seq_ok in Hok. destruct Hok as (Hp & _).
    destruct (mount_path_problem (ms_path m)) eqn:E; [done|]. destruct (mount_path_sound (ms_path m) E (Hdot m Hin)) as (H1 & H2 & _). done. }
  split_and!; [exact Hlen| | | |].
  - intros i j a b Hij Ha Hb Hpre. pose proof (list_elem_of_lookup_2 _ _ _ Ha) as Hina. pose proof (list_elem_of_lookup_2 _ _ _ Hb) as Hinb.
    apply plain_prefix in Hpre; [|by apply Hpaths..]. destruct (decide (i < j)%nat) as [Hlt|].
    + destruct (validate_pairs_spec _ Hpairs i j a b Hlt Ha Hb) as (H1 & H2 & _). destruct Hpre; congruence.
    + destruct (validate_pairs_spec _ Hpairs j i b a ltac:(lia) Hb Ha) as (H1 & _ & H3). destruct Hpre; congruence.
  - intros m r Hin Hr. by apply (proj2 (Hpaths m Hin)).
  - intros w m Ew Hin. rewrite Ew in Hw. unfold validate_workspace in Hw. rewrite !seq_ok in Hw.
    destruct Hw as (_ & Hwp & _ & _ & _ & _ & _ & _ & Hwm). apply all_ok_spec in Hwm. rewrite Forall_forall in Hwm.
    specialize (Hwm m Hin). cbv zeta beta in Hwm. apply bail_if_ok, orb_false_iff in Hwm as [Hwm H3]. apply orb_false_iff in Hwm as [H1 H2].
    apply String.eqb_neq in H1.
    assert (plain_path (workspace_path w)) as Hplain.
    { unfold workspace_path in *. destruct (ws_path w) as [p|] eqn:Ep; [|by split]. cbv zeta in *.
      specialize (Hdotw w Ew). unfold workspace_path in Hdotw. rewrite Ep in Hdotw. cbv zeta in Hdotw.
      destruct (String.eqb (trim_end_matches "/" (Chars.trim p)) "") eqn:E0; [by split|].
      unfold workspace_path_problem in Hwp. destruct (String.eqb_spec (trim_end_matches "/" (Chars.trim p)) DEFAULT_WORKSPACE_PATH) as [E|];
        [rewrite E; by split|]. destruct (mount_path_problem p) eqn:E; [done|]. by destruct (mount_path_sound p E Hdotw) as (? & _). }
    rewrite !plain_prefix by (done || by apply Hpaths). split; intros [|]; congruence.
  - intros m Hin Hro Hk. pose proof (Hall m Hin) as Hok. unfold validate_mount in Hok. rewrite !seq_ok in Hok.
    destruct Hok as (_ & _ & _ & _ & _ & Hok). apply bail_if_ok in Hok. rewrite Hro, Hk in Hok. done.
Qed.
End accepted.

(** ** What runs on an accepted spec *)

Section runs.
Context {Json : Type} `{!EqDecision Json} {J Bytes : Type} `{Ext : !Externals (Rest Json) SiteSpec J Bytes} {SandboxStatus : Type}.
Context (socket_loopback : string → option bool) (x509_key pem_key : string → result string unit).
Local Abbreviation DeploymentSpec := (LbRegistry.DeploymentSpec (Rest Json) SiteSpec).
Local Abbreviation World := (LbRegistry.World (Rest Json) SiteSpec SandboxStatus J Bytes).
Local Abbreviation accepted := (λ s : DeploymentSpec,
  validate LbRegistry.url_parse LbRegistry.show_Z socket_loopback x509_key pem_key s = Ok tt).

(** Every upstream of an accepted spec parses. *)
Lemma accepted_upstreams (s : DeploymentSpec) :
  accepted s → ∀ u, u ∈ upstreams s → is_some (parse_upstream LbRegistry.url_parse LbRegistry.show_Z u) = true.
Proof.
  intros H u Hu. destruct (vm_of s) as [v|] eqn:Ev.
  - apply (validate_managed _ _ _ _ _ s v) in H as (_ & H & _); [|done]. rewrite H in Hu. by apply elem_of_nil in Hu.
  - unfold LbConfig.validate in H. rewrite !seq_ok in H. destruct H as (_ & _ & _ & _ & _ & _ & _ & _ & _ & H).
    destruct (site s) as [st|].
    + unfold validate_site_spec in H. rewrite !seq_ok in H. destruct H as [H _]. apply bail_if_ok in H.
      rewrite Ev in H. cbn [is_some orb] in H. apply orb_false_iff in H as [H _]. apply negb_false_iff, bool_decide_eq_true in H.
      rewrite H in Hu. by apply elem_of_nil in Hu.
    + rewrite !seq_ok, Ev in H. destruct H as (_ & _ & H). unfold validate_static in H. rewrite !seq_ok in H.
      destruct H as (_ & _ & _ & H). apply all_ok_spec in H. rewrite Forall_forall in H. specialize (H u Hu).
      by apply bail_if_ok, negb_false_iff in H.
Qed.

Lemma bind_runs {A B} (m : Op A) (k : A → Op B) (w : World) a w1 : m w = Some (a, w1) → bind m k w = k a w1.
Proof. intros E. unfold bind. by rewrite E. Qed.

Lemma fresh_list_runs n (w : World) : ∃ ls w', fresh_list n w = Some (ls, w').
Proof.
  revert w. induction n as [|n IH]; intros w; [by exists [], w|]. cbn [fresh_list].
  rewrite (bind_runs fresh _ w (next w) (with_next (S (next w)) w)) by done.
  destruct (IH (with_next (S (next w)) w)) as (ls & w' & E). rewrite (bind_runs _ _ _ _ _ E). eexists _, _. reflexivity.
Qed.

Lemma desired_in_range now h (d : LbPool.Deployment (RetirementOperation (Rest Json) SiteSpec J) CreateAttempt
    (RolloutOperation (Rest Json) SiteSpec) (RouteHandoffRecord (Rest Json) SiteSpec) SandboxStatus) :
  let p := LbPool.scaling (LbPool.spec d) in
  (min_replicas p <= max_replicas p)%Z →
  ∃ n, desired_replicas now h d = Some n ∧ (min_replicas p <= n <= max_replicas p)%Z.
Proof.
  cbv zeta. intros Hp. unfold desired_replicas, clamp. cbv zeta. destruct (Z.ltb_spec (max_replicas (LbPool.scaling (LbPool.spec d)))
    (min_replicas (LbPool.scaling (LbPool.spec d)))); [lia|]. eexists. split; [reflexivity|]. repeat case_match; lia.
Qed.

(** C31. What is accepted runs.  An accepted spec has exactly one kind of backend, and the other kinds
    leave nothing behind; so whatever asks for the template of a managed deployment finds one.
    Creating the deployment never panics on an upstream, in any state of the process; and the
    autoscaler's target is a number in the range of the policy, for any load. *)
Theorem accepted_spec_runs (s : DeploymentSpec) :
  accepted s →
  match backend (pool_spec s) with
  | BVm => (∃ v, vm_spec s = Some v ∧ port v ≠ 0%Z) ∧ site s = None ∧ upstreams s = [] ∧ discovery s = None ∧ gateway s = None
  | BUpstreams => vm_spec s = None ∧ site s = None ∧ build_of s = None ∧ artifact_of s = None ∧ routes s ≠ []
  | BSite => vm_spec s = None ∧ upstreams s = [] ∧ discovery s = None ∧ gateway s = None ∧ routes s ≠ []
  end ∧
  (∀ w : World, ∃ d w', new_deployment s w = Some (d, w')) ∧
  (is_managed s = true → ∀ now h (d : LbPool.Deployment (RetirementOperation (Rest Json) SiteSpec J) CreateAttempt
      (RolloutOperation (Rest Json) SiteSpec) (RouteHandoffRecord (Rest Json) SiteSpec) SandboxStatus),
     LbPool.spec d = pool_spec s →
     ∃ n, desired_replicas now h d = Some n ∧ (min_replicas (scaling s) <= n <= max_replicas (scaling s))%Z).
Proof.
  intros Hs. pose proof (accepted_upstreams s Hs) as Hup. pose proof Hs as Hv. unfold LbConfig.validate in Hv.
  rewrite !seq_ok in Hv. destruct Hv as (_ & Hg & _ & _ & _ & _ & _ & Hr & _ & Hb).
  assert (vm_of s = None → routes s ≠ []) as Hroutes.
  { intros Ev Er. rewrite (bool_decide_true _ Er), Ev, seq_ok in Hr. destruct Hr as [Hr _]. by apply bail_if_ok in Hr. }
  assert (is_some (vm_of s) || is_some (site s) = true → gateway s = None) as Hgw.
  { intros E. destruct (gateway s) as [g|]; [|done]. unfold validate_gateway_block in Hg. rewrite seq_ok in Hg. destruct Hg as [Hg _].
    apply bail_if_ok in Hg. destruct (vm_of s), (site s), (discovery s); done. }
  split; [|split].
  - unfold backend, pool_spec, vm_spec. cbn [has_site has_discovery LbPool.upstreams].
    destruct (vm_of s) as [v|] eqn:Ev.
    + destruct (validate_managed _ _ _ _ _ s v Hs Ev) as (-> & -> & -> & Hvm). cbn.
      split_and!; try done; [|by apply Hgw]. exists v. split; [done|]. unfold validate_vm in Hvm. rewrite !seq_ok in Hvm.
      destruct Hvm as (_ & Hvm & _). apply bail_if_ok, Z.eqb_neq in Hvm. done.
    + destruct (site s) as [st|] eqn:Est; cbn [is_some].
      * unfold validate_site_spec in Hb. rewrite !seq_ok, Ev in Hb. destruct Hb as [Hb _]. apply bail_if_ok in Hb. cbn [is_some orb] in Hb.
        apply orb_false_iff in Hb as [H1 H2]. apply negb_false_iff, bool_decide_eq_true in H1.
        split_and!; [done|done|by destruct (discovery s)|by apply Hgw|by apply Hroutes].
      * rewrite !seq_ok in Hb. destruct Hb as (_ & Hk & Hst). unfold validate_static in Hst. rewrite !seq_ok in Hst.
        destruct Hst as (H1 & H2 & _). apply bail_if_ok in H1, H2.
        destruct (bool_decide (upstreams s = [])), (discovery s); cbn in *; try done;
          (split_and!; [done|done|by destruct (build_of s)|by destruct (artifact_of s)|by apply Hroutes]).
  - intros w. unfold new_deployment. rewrite (bind_runs fresh _ w (next w) (with_next (S (next w)) w)) by done.
    destruct (fresh_list_runs (length (upstreams s)) (with_next (S (next w)) w)) as (ls & w1 & E1).
    rewrite (bind_runs _ _ _ _ _ E1), (bind_runs (gets _) _ w1 w1 w1) by done.
    assert (∃ bs, mapM (for_upstream LbRegistry.url_parse LbRegistry.show_Z (now w1)) (upstreams s) = Some bs) as [bs Hbs].
    { apply mapM_is_Some, Forall_forall. intros u Hu. specialize (Hup u Hu). unfold for_upstream. cbn.
      destruct (parse_upstream _ _ u); [|done]. cbn. eauto. }
    unfold LbPool.new_deployment. cbn [LbPool.upstreams pool_spec]. rewrite Hbs. cbn [mbind option_bind].
    rewrite (bind_runs (expect _) _ w1 _ w1) by done. rewrite (bind_runs (modify _) _ w1 tt _) by done.
    destruct (discovery s ≫= ds_regional); unfold bind; cbn; eauto.
  - intros Hm now h d Hd. assert (LbPool.scaling (LbPool.spec d) = scaling s) as Hsc by (by rewrite Hd).
    rewrite <- Hsc. apply desired_in_range. rewrite Hsc. destruct (vm_of s) as [v|] eqn:Ev.
    + destruct (validate_managed _ _ _ _ _ s v Hs Ev) as (_ & _ & _ & Hvm). unfold validate_vm in Hvm. rewrite !seq_ok in Hvm.
      destruct Hvm as (_ & _ & _ & _ & _ & _ & Hvm & _). apply bail_if_ok, Z.ltb_ge in Hvm. lia.
    + exfalso. unfold is_managed, LbPool.is_managed, backend, pool_spec in Hm. cbn in Hm.
      destruct (site s); cbn in *; [done|]. rewrite !seq_ok in Hb. destruct Hb as (_ & Hk & _). apply bool_decide_eq_true in Hm.
      destruct (bool_decide (upstreams s = [])), (discovery s); done.
Qed.
End runs.

(** ** Secrets *)

Lemma elem_of_dedup x l : x ∈ dedup l ↔ x ∈ l.
Proof.
  induction l as [|a l IH]; [done|]. destruct l as [|b l]; [done|].
  change (dedup (a :: b :: l)) with (if String.eqb a b then dedup (b :: l) else a :: dedup (b :: l)).
  destruct (String.eqb_spec a b) as [->|].
  - rewrite IH. rewrite !elem_of_cons. tauto.
  - rewrite !(elem_of_cons _ _ a), IH. done.
Qed.

Section secrets.
Context {Json : Type} `{!EqDecision Json} (url_parse : string → option Url) (show_Z : Z → string)
  (socket_loopback : string → option bool) (x509_key pem_key : string → result string unit).
Local Abbreviation DeploymentSpec := (LbRegistry.DeploymentSpec (Rest Json) SiteSpec).
Local Abbreviation validate := (validate url_parse show_Z socket_loopback x509_key pem_key).

Lemma option_refs_normalize (s : DeploymentSpec) :
  option_refs (normalize s) = option_map (scope_to (namespace s)) <$> option_refs s.
Proof.
  unfold option_refs, vm_of, build_of, artifact_of, update_of, gate_of. rewrite fmap_app.
  destruct s as [i ns rs m st sc us d g r]. destruct r as [ai ui v h dt bt ia b a u ga f ing]. f_equal.
  - destruct g, d as [[? ? [] []]|], b as [[]|], a as [[]|], u as [[]|], ga as [[? ? ? ? ? ? ? ? ? ? ? ? ? [[]|] ?]|], v as [[? ? ? ? ? ? ? ? ? ? ? ? [[]|] ? ? ? ? ? ?]|]; reflexivity.
  - destruct v as [v|]; [|done]. cbn. rewrite <- !list_fmap_compose. done.
Qed.

Lemma env_vars_normalize (s : DeploymentSpec) : env_vars_of (normalize s) = scope_env (namespace s) <$> env_vars_of s.
Proof.
  unfold env_vars_of, vm_of, update_of. rewrite fmap_app. destruct s as [i ns rs m st sc us d g r]. destruct r as [ai ui v h dt bt ia b a u ga f ing].
  cbn [rest_of normalize normalize_rest vm update_spec namespace]. f_equal; [by destruct v|by destruct u].
Qed.

Lemma validate_auth_scope ns f o : validate_auth f (scope_to ns <$> o) = validate_auth f o.
Proof. by destruct o. Qed.
Lemma all_ok_fmap {E A B} (f : B → result E unit) (g : A → B) l : all_ok f (g <$> l) = all_ok (λ a, f (g a)) l.
Proof. induction l as [|a l IH]; [done|]. cbn [fmap list_fmap all_ok]. by rewrite <- IH. Qed.
Lemma all_ok_ext {E A} (f g : A → result E unit) l : (∀ a, f a = g a) → all_ok f l = all_ok g l.
Proof. intros H. induction l as [|a l IH]; [done|]. cbn [all_ok]. by rewrite H, IH. Qed.

Lemma validate_mounts_scope ns d ms : validate_mounts (scope_mount ns <$> ms) d = validate_mounts ms d.
Proof.
  assert (validate_pairs (scope_mount ns <$> ms) = validate_pairs ms) as Hp.
  { induction ms as [|m ms IH]; [done|]. cbn [fmap list_fmap validate_pairs]. rewrite <- IH. f_equal. by rewrite all_ok_fmap. }
  assert (all_ok (λ m, validate_mount d (scope_mount ns m)) ms = all_ok (validate_mount d) ms) as Hm.
  { apply all_ok_ext. intros m. unfold validate_mount. cbn [ms_auth scope_mount]. by rewrite validate_auth_scope. }
  unfold validate_mounts. by rewrite length_fmap, Hp, all_ok_fmap, Hm.
Qed.

Lemma validate_env_scope ns f es : all_ok (validate_env f) (scope_env ns <$> es) = all_ok (validate_env f) es.
Proof. rewrite all_ok_fmap. by apply all_ok_ext. Qed.

Lemma validate_workspace_scope ns d sc ms w :
  validate_workspace d sc (scope_mount ns <$> ms) (scope_workspace ns w) = validate_workspace d sc ms w.
Proof. unfold validate_workspace. cbn [ws_auth scope_workspace]. rewrite validate_auth_scope, all_ok_fmap. done. Qed.

Lemma validate_build_scope ns b : validate_build (scope_build ns b) = validate_build b.
Proof. unfold validate_build. cbn [bs_auth scope_build]. by rewrite validate_auth_scope. Qed.
Lemma validate_artifact_scope ns fs a : validate_artifact fs (scope_artifact ns a) = validate_artifact fs a.
Proof. unfold validate_artifact. cbn [as_auth scope_artifact]. by rewrite validate_auth_scope. Qed.
Lemma validate_update_scope ns u : validate_update (scope_update ns u) = validate_update u.
Proof. unfold validate_update. cbn [us_auth us_env_from scope_update]. by rewrite validate_auth_scope, validate_env_scope. Qed.

Lemma validate_identity_scope ns ps ci cs ds es (j : option (JwtSpec Json)) :
  validate_identity url_parse x509_key pem_key ps ci (scope_to ns <$> cs) ds es (scope_jwt ns <$> j)
  = validate_identity url_parse x509_key pem_key ps ci cs ds es j.
Proof.
  assert (∀ k : JwtSpec Json, validate_jwt url_parse x509_key pem_key (scope_jwt ns k) = validate_jwt url_parse x509_key pem_key k) as Hj.
  { intros k. unfold validate_jwt. cbn [js_secret scope_jwt]. rewrite validate_auth_scope. unfold key_sources. cbn [js_secret scope_jwt].
    assert (is_some (scope_to ns <$> js_secret k) = is_some (js_secret k)) as -> by (by destruct (js_secret k)).
    assert (∀ l, all_ok (validate_algorithm (scope_jwt ns k)) l = all_ok (validate_algorithm k) l) as Ha.
    { intros l. apply all_ok_ext. intros n. unfold validate_algorithm, is_symmetric. cbn. by destruct (js_secret k). }
    cbn. by rewrite Ha. }
  unfold validate_identity. cbv zeta. destruct cs, j; cbn [fmap option_fmap option_map is_some]; by rewrite ?Hj.
Qed.

Lemma validate_gate_scope ns (g : AuthGate Json) rs :
  validate_gate url_parse x509_key pem_key (scope_gate ns g) rs = validate_gate url_parse x509_key pem_key g rs.
Proof.
  unfold validate_gate. cbn [provider client_id client_secret allowed_domains allowed_emails jwt scope_gate].
  rewrite validate_identity_scope. unfold has_inline_identity. cbn [client_id client_secret allowed_domains allowed_emails jwt cookie_domain scope_gate].
  by destruct (client_secret g), (jwt g).
Qed.

Lemma is_some_fmap {A B} (f : A → B) (o : option A) : is_some (f <$> o) = is_some o.
Proof. by destruct o. Qed.

Lemma validate_vm_scope (s : DeploymentSpec) v : validate_vm (normalize s) (scope_vm (namespace s) v) = validate_vm s v.
Proof.
  assert (validate_lxc (normalize s) (scope_vm (namespace s) v) = validate_lxc s v) as Hl.
  { unfold validate_lxc, build_of, artifact_of. cbn. rewrite !is_some_fmap. by destruct (mounts v). }
  unfold validate_vm. rewrite Hl. cbn [driver port mounts workspace_archive workspace vm_env_from scope_vm].
  rewrite validate_mounts_scope, validate_env_scope. unfold build_of, artifact_of, update_of.
  cbn [rest_of normalize normalize_rest build artifact update_spec scaling]. rewrite !is_some_fmap.
  assert (match scope_workspace (namespace s) <$> workspace v with
          | Some w => validate_workspace (driver v) (scaling s) (scope_mount (namespace s) <$> mounts v) w | None => Ok tt end
        = match workspace v with Some w => validate_workspace (driver v) (scaling s) (mounts v) w | None => Ok tt end) as ->
    by (destruct (workspace v); [apply validate_workspace_scope|done]).
  assert (match scope_build (namespace s) <$> build (rest_of s) with Some b => validate_build b | None => Ok tt end
        = match build (rest_of s) with Some b => validate_build b | None => Ok tt end) as ->
    by (destruct (build (rest_of s)); [apply validate_build_scope|done]).
  assert (match scope_artifact (namespace s) <$> artifact (rest_of s) with Some a => validate_artifact false a | None => Ok tt end
        = match artifact (rest_of s) with Some a => validate_artifact false a | None => Ok tt end) as ->
    by (destruct (artifact (rest_of s)); [apply validate_artifact_scope|done]).
  done.
Qed.

Lemma validate_update_block ns (o : option UpdateSpec) :
  match scope_update ns <$> o with Some u => validate_update u | None => Ok tt end
  = match o with Some u => validate_update u | None => Ok tt end.
Proof. destruct o; [apply validate_update_scope|done]. Qed.

Lemma validate_site_scope (s : DeploymentSpec) st : validate_site_spec (normalize s) st = validate_site_spec s st.
Proof.
  unfold validate_site_spec, vm_of, build_of, artifact_of, update_of.
  cbn [rest_of normalize normalize_rest vm build artifact update_spec upstreams discovery]. rewrite !is_some_fmap, validate_update_block.
  assert (match scope_build (namespace s) <$> build (rest_of s) with
    | Some b => bail_if (is_some (bs_store b)) (NotForSites "build.store") ;;?
      refuse_set NotForSites [("build.dockerfile", is_some (dockerfile b)); ("build.image_name", is_some (bs_image_name b));
                              ("build.image_size_mb", is_some (image_size_mb b))] ;;? validate_build b
    | None => Ok tt end = match build (rest_of s) with
    | Some b => bail_if (is_some (bs_store b)) (NotForSites "build.store") ;;?
      refuse_set NotForSites [("build.dockerfile", is_some (dockerfile b)); ("build.image_name", is_some (bs_image_name b));
                              ("build.image_size_mb", is_some (image_size_mb b))] ;;? validate_build b
    | None => Ok tt end) as ->
    by (destruct (build (rest_of s)); [cbn [fmap option_fmap option_map]; by rewrite validate_build_scope|done]).
  assert (match scope_artifact (namespace s) <$> artifact (rest_of s) with Some a => validate_artifact true a | None => Ok tt end
        = match artifact (rest_of s) with Some a => validate_artifact true a | None => Ok tt end) as ->
    by (destruct (artifact (rest_of s)); [apply validate_artifact_scope|done]).
  done.
Qed.

Lemma validate_static_scope (s : DeploymentSpec) : validate_static url_parse show_Z (normalize s) = validate_static url_parse show_Z s.
Proof.
  unfold validate_static, build_of, artifact_of, update_of.
  cbn [rest_of normalize normalize_rest build artifact update_spec upstreams]. by rewrite !is_some_fmap, validate_update_block.
Qed.

Lemma validate_discovery_scope (s : DeploymentSpec) d :
  validate_discovery url_parse (normalize s) (normalize_discovery (namespace s) d) = validate_discovery url_parse s d.
Proof.
  unfold validate_discovery, vm_of. cbn [rest_of normalize normalize_rest vm gateway site routes]. rewrite !is_some_fmap.
  unfold normalize_discovery. cbn [service_id ds_region source ds_regional]. rewrite !is_some_fmap. by destruct (source d), (ds_regional d).
Qed.

Lemma validate_gateway_scope ns (g : GatewaySpec) us :
  validate_gateway url_parse show_Z socket_loopback
    {| service := service g; gs_region := gs_region g; auth := scope_to ns (auth g); mode := mode g |} us
  = validate_gateway url_parse show_Z socket_loopback g us.
Proof. done. Qed.

Lemma validate_normalize (s : DeploymentSpec) : validate (normalize s) = validate s.
Proof.
  assert (∀ g, validate_gateway_block url_parse show_Z socket_loopback (normalize s)
    {| service := service g; gs_region := gs_region g; auth := scope_to (namespace s) (auth g); mode := mode g |}
    = validate_gateway_block url_parse show_Z socket_loopback s g) as Hg.
  { intros g. unfold validate_gateway_block, vm_of. cbn [rest_of normalize normalize_rest vm discovery site routes upstreams].
    by rewrite !is_some_fmap, validate_gateway_scope. }
  unfold LbConfig.validate. unfold vm_of at 1 2, gate_of at 1 2.
  cbn [id namespace routes site upstreams discovery gateway rest_of normalize normalize_rest feed ingress vm gate].
  rewrite !is_some_fmap, validate_static_scope.
  unfold vm_of, gate_of. cbn [rest_of normalize normalize_rest vm gate].
  destruct (gateway s) as [gw|], (gate (rest_of s)) as [g|], (site s) as [st|], (discovery s) as [d|], (vm (rest_of s)) as [v|];
    cbn [fmap option_fmap option_map is_some];
    rewrite ?Hg, ?validate_gate_scope, ?validate_site_scope, ?validate_discovery_scope, ?validate_vm_scope; done.
Qed.

Lemma scope_to_idem ns (o : option SecretRef) : scope_to ns <$> (scope_to ns <$> o) = scope_to ns <$> o.
Proof. by destruct o. Qed.

Lemma normalize_idem (s : DeploymentSpec) : normalize (normalize s) = normalize s.
Proof.
  assert (∀ ns (es : list SecretEnv), scope_env ns <$> (scope_env ns <$> es) = scope_env ns <$> es) as He.
  { intros ns es. by rewrite <- list_fmap_compose. }
  assert (∀ ns (ms : list MountSpec), scope_mount ns <$> (scope_mount ns <$> ms) = scope_mount ns <$> ms) as Hm.
  { intros ns ms. rewrite <- list_fmap_compose. apply list_fmap_ext. intros _ m _. unfold compose, scope_mount. cbn. by rewrite scope_to_idem. }
  destruct s as [i ns rs m st sc us d g r]. destruct r as [ai ui v h dt bt ia b a u ga f ing]. unfold normalize, normalize_rest. cbn. f_equal.
  - destruct d as [[? ? [] []]|]; done.
  - by destruct g.
  - f_equal.
    + destruct v as [v|]; [|done]. cbn. f_equal. unfold scope_vm. cbn. rewrite He, Hm. f_equal.
      destruct (workspace v) as [[]|]; [|done]. cbn. f_equal. unfold scope_workspace. cbn. by rewrite scope_to_idem.
    + destruct b as [[]|]; [|done]. cbn. unfold scope_build. cbn. by rewrite scope_to_idem.
    + destruct a as [[]|]; [|done]. cbn. unfold scope_artifact. cbn. by rewrite scope_to_idem.
    + destruct u as [[]|]; [|done]. cbn. unfold scope_update. cbn. by rewrite scope_to_idem, He.
    + destruct ga as [g'|]; [|done]. cbn. unfold scope_gate. cbn. rewrite scope_to_idem. destruct (jwt g') as [[]|]; [|done].
      cbn. unfold scope_jwt. cbn. by rewrite scope_to_idem.
Qed.

(** The secrets a spec names: of its blocks, and of the variables of its processes. *)
Definition names_secret (s : DeploymentSpec) (r : SecretRef) : Prop :=
  Some r ∈ option_refs s ∨ ∃ e, e ∈ env_vars_of s ∧ r = env_ref e.

(** Everything a spec says but the namespaces of its references: each field of each record. *)
Definition ref_view (r : SecretRef) := (sr_secret r, sr_key r, sr_username r).
Definition env_view (e : SecretEnv) := (se_secret e, se_key e, se_env e).
Definition mount_view (m : MountSpec) :=
  (ms_path m, ms_store m, ms_artifact_ref m, ref_view <$> ms_auth m, ms_strip_components m, read_only m, ms_digest m).
Definition workspace_view (w : WorkspaceSpec) :=
  (ws_path w, ws_store w, ws_artifact_ref w, ref_view <$> ws_auth w, snapshot_interval_secs w).
Definition vm_view (v : VmSpec) :=
  ((driver v, correlated_creates v, image v, port v, start_command v, size_class v, disk_size_gb v, working_directory v),
   (env_vars v, setup_hooks v, open_ports v, mount_view <$> mounts v, workspace_view <$> workspace v, env_view <$> vm_env_from v),
   (workspace_archive v, image_download_url v, image_size_bytes v, image_sha256 v, ttl_seconds v)).
Definition build_view (b : BuildSpec) :=
  (repo b, bs_store b, source_ref b, dockerfile b, context b, bs_image_name b, image_size_mb b, ref_view <$> bs_auth b).
Definition artifact_view (a : ArtifactSpec) :=
  (as_store a, as_artifact_ref a, ref_view <$> as_auth a, grow_gb a, as_image_name a, as_strip_components a).
Definition update_view (u : UpdateSpec) :=
  (working_dir u, commands u, us_env u, env_view <$> us_env_from u, ref_view <$> us_auth u, timeout_secs u, verify_timeout_secs u).
Definition jwt_view (j : JwtSpec Json) :=
  ((ref_view <$> js_secret j, public_key j, jwks_url j, algorithms j, issuer j, audience j, require j),
   (subject_claim j, email_claim j, name_claim j, leeway_secs j, cookie j, login_endpoint j, login_url j, login_redirect_param j)).
Definition gate_view (g : AuthGate Json) :=
  ((provider g, client_id g, ref_view <$> client_secret g, allowed_domains g, allowed_emails g, public_paths g, session_scope g),
   (base_path g, session_ttl_secs g, cookie_name g, cookie_domain g, redirect_url g, forward_identity g),
   (jwt_view <$> jwt g, provider_ref g)).
Definition regional_view (r : RegionalSpec) := (gateway_id r, rs_backend_server_id r, environment r, ref_view (rs_auth r)).
Definition source_view (x : DiscoverySource) := (ds_url x, ref_view (ds_auth x)).
Definition discovery_view (d : DiscoverySpec) :=
  (service_id d, ds_region d, regional_view <$> ds_regional d, source_view <$> source d).
Definition gateway_view (g : GatewaySpec) := (service g, gs_region g, ref_view (auth g), mode g).
Definition rest_view (r : Rest Json) :=
  ((account_id r, user_id r, vm_view <$> vm r, health r, drain_timeout_secs r, boot_timeout_secs r, idle_action r),
   (build_view <$> build r, artifact_view <$> artifact r, update_view <$> update_spec r, gate_view <$> gate r),
   (feed r, ingress r)).
Definition spec_view (s : DeploymentSpec) :=
  ((id s, namespace s, routes s, maintenance s, site s, scaling s, upstreams s),
   (discovery_view <$> discovery s, gateway_view <$> gateway s, rest_view (rest_of s))).

Lemma fmap_same {A B} (v : A → B) (f : A → A) (l : list A) : (∀ x, v (f x) = v x) → v <$> (f <$> l) = v <$> l.
Proof. intros H. rewrite <- list_fmap_compose. apply list_fmap_ext. intros _ x _. apply H. Qed.
Lemma fmap_same_opt {A B} (v : A → B) (f : A → A) (o : option A) : (∀ x, v (f x) = v x) → v <$> (f <$> o) = v <$> o.
Proof. intros H. destruct o as [x|]; [|done]. cbn. by rewrite H. Qed.
Lemma ref_view_scope ns (o : option SecretRef) : ref_view <$> (scope_to ns <$> o) = ref_view <$> o.
Proof. by apply fmap_same_opt. Qed.
Lemma env_view_scope ns (es : list SecretEnv) : env_view <$> (scope_env ns <$> es) = env_view <$> es.
Proof. by apply fmap_same. Qed.
Lemma mount_view_scope ns m : mount_view (scope_mount ns m) = mount_view m.
Proof. unfold mount_view. cbn. by rewrite ref_view_scope. Qed.
Lemma workspace_view_scope ns w : workspace_view (scope_workspace ns w) = workspace_view w.
Proof. unfold workspace_view. cbn. by rewrite ref_view_scope. Qed.
Lemma vm_view_scope ns v : vm_view (scope_vm ns v) = vm_view v.
Proof.
  unfold vm_view. cbn. rewrite env_view_scope, (fmap_same mount_view) by apply mount_view_scope.
  by rewrite (fmap_same_opt workspace_view) by apply workspace_view_scope.
Qed.
Lemma jwt_view_scope ns (j : JwtSpec Json) : jwt_view (scope_jwt ns j) = jwt_view j.
Proof. unfold jwt_view. cbn. by rewrite ref_view_scope. Qed.
Lemma rest_view_normalize ns (r : Rest Json) : rest_view (normalize_rest ns r) = rest_view r.
Proof.
  unfold rest_view. cbn. rewrite (fmap_same_opt vm_view) by apply vm_view_scope.
  rewrite (fmap_same_opt build_view) by (intros x; unfold build_view; cbn; by rewrite ref_view_scope).
  rewrite (fmap_same_opt artifact_view) by (intros x; unfold artifact_view; cbn; by rewrite ref_view_scope).
  rewrite (fmap_same_opt update_view) by (intros x; unfold update_view; cbn; by rewrite ref_view_scope, env_view_scope).
  rewrite (fmap_same_opt gate_view); [done|]. intros x. unfold gate_view. cbn.
  by rewrite ref_view_scope, (fmap_same_opt jwt_view) by apply jwt_view_scope.
Qed.
Lemma spec_view_normalize (s : DeploymentSpec) : spec_view (normalize s) = spec_view s.
Proof.
  unfold spec_view. cbn. rewrite rest_view_normalize, (fmap_same_opt gateway_view) by done.
  rewrite (fmap_same_opt discovery_view); [done|]. intros d. unfold discovery_view. cbn.
  by rewrite (fmap_same_opt regional_view), (fmap_same_opt source_view) by done.
Qed.

(** *** A spec that is in its namespace already *)

Definition at_home (ns : string) (o : option SecretRef) : Prop := ∀ r, o = Some r → sr_namespace r = Some ns.
Lemma scope_at_home ns o : at_home ns o → scope_to ns <$> o = o.
Proof. intros H. destruct o as [r|]; [|done]. cbn. specialize (H r eq_refl). destruct r. cbn in *. by subst. Qed.
Lemma scope_to_home ns r : at_home ns (Some r) → scope_to ns r = r.
Proof. intros H%scope_at_home. by injection H. Qed.
Lemma scope_envs_home ns (es : list SecretEnv) : (∀ e, e ∈ es → se_namespace e = Some ns) → scope_env ns <$> es = es.
Proof.
  intros H. rewrite <- (list_fmap_id es) at 2. apply list_fmap_ext. intros i [x k v n] He%list_elem_of_lookup_2%H. cbn in He. by subst n.
Qed.
Lemma scope_mounts_home ns (ms : list MountSpec) : (∀ m, m ∈ ms → at_home ns (ms_auth m)) → scope_mount ns <$> ms = ms.
Proof.
  intros H. rewrite <- (list_fmap_id ms) at 2. apply list_fmap_ext. intros i m Hm%list_elem_of_lookup_2%H. unfold scope_mount.
  rewrite scope_at_home by done. by destruct m.
Qed.
Lemma fmap_home {A} (f : A → A) (o : option A) : (∀ x, o = Some x → f x = x) → f <$> o = o.
Proof. intros H. destruct o as [x|]; [|done]. cbn. by rewrite H. Qed.

(** The homes of a spec's references, block by block. *)
Record homely (ns : string) (s : DeploymentSpec) : Prop := {
  ho_gateway : ∀ g, gateway s = Some g → at_home ns (Some (auth g));
  ho_source : ∀ d x, discovery s = Some d → source d = Some x → at_home ns (Some (ds_auth x));
  ho_regional : ∀ d x, discovery s = Some d → ds_regional d = Some x → at_home ns (Some (rs_auth x));
  ho_build : ∀ b, build_of s = Some b → at_home ns (bs_auth b);
  ho_artifact : ∀ a, artifact_of s = Some a → at_home ns (as_auth a);
  ho_update : ∀ u, update_of s = Some u → at_home ns (us_auth u) ∧ ∀ e, e ∈ us_env_from u → se_namespace e = Some ns;
  ho_gate : ∀ g, gate_of s = Some g → at_home ns (client_secret g) ∧ ∀ j, jwt g = Some j → at_home ns (js_secret j);
  ho_vm : ∀ v, vm_of s = Some v → (∀ w, workspace v = Some w → at_home ns (ws_auth w)) ∧
    (∀ m, m ∈ mounts v → at_home ns (ms_auth m)) ∧ ∀ e, e ∈ vm_env_from v → se_namespace e = Some ns;
}.
Lemma names_homely (s : DeploymentSpec) ns : (∀ r, names_secret s r → sr_namespace r = Some ns) → homely ns s.
Proof.
  intros H. assert (∀ r, Some r ∈ option_refs s → sr_namespace r = Some ns) as Ho by (intros r Hr; apply H; by left).
  assert (∀ e, e ∈ env_vars_of s → se_namespace e = Some ns) as He by (intros e Hin; apply (H (env_ref e)); right; by exists e).
  clear H. unfold option_refs in Ho. unfold env_vars_of in He.
  assert (∀ r, In (Some r) _ → sr_namespace r = Some ns) as Ho' by (intros r Hr; apply Ho, list_elem_of_In; exact Hr). clear Ho.
  split.
  - intros g E r [= <-]. apply Ho'. rewrite E. cbn. tauto.
  - intros d x E Ex r [= <-]. apply Ho'. rewrite E. cbn. rewrite Ex. cbn. tauto.
  - intros d x E Ex r [= <-]. apply Ho'. rewrite E. cbn. rewrite Ex. cbn. tauto.
  - intros b E r Er. apply Ho'. rewrite E. cbn. rewrite Er. tauto.
  - intros b E r Er. apply Ho'. rewrite E. cbn. rewrite Er. tauto.
  - intros u E. rewrite E in *. split.
    + intros r Er. apply Ho'. cbn. rewrite Er. tauto.
    + intros e Hin. apply He, elem_of_app. by right.
  - intros g E. rewrite E in *. split.
    + intros r Er. apply Ho'. cbn. rewrite Er. tauto.
    + intros j Ej r Er. apply Ho'. cbn. rewrite Ej. cbn. rewrite Er. tauto.
  - intros v E. rewrite E in *. split_and!.
    + intros w Ew r Er. apply Ho'. cbn. rewrite Ew. cbn. rewrite Er. tauto.
    + intros m Hm r Er. apply Ho', in_or_app. right. apply in_map_iff. exists m. by rewrite <- list_elem_of_In.
    + intros e Hin. apply He, elem_of_app. by left.
Qed.

Lemma normalize_homely (s : DeploymentSpec) : homely (namespace s) s → normalize s = s.
Proof.
  intros []. unfold build_of, artifact_of, update_of, gate_of, vm_of in *. unfold normalize, normalize_rest.
  rewrite (fmap_home (normalize_discovery _)), (fmap_home (λ g, _)), (fmap_home (scope_vm _)), (fmap_home (scope_build _)),
    (fmap_home (scope_artifact _)), (fmap_home (scope_update _)), (fmap_home (scope_gate _)).
  { destruct s as [i ns rs m st sc us d g r]. by destruct r. }
  - intros g E. destruct (ho_gate0 g E) as [H1 H2]. unfold scope_gate. rewrite scope_at_home, (fmap_home (scope_jwt _)); [by destruct g| |done].
    intros j Ej. unfold scope_jwt. rewrite scope_at_home by by apply H2. by destruct j.
  - intros u E. destruct (ho_update0 u E) as [H1 H2]. unfold scope_update. rewrite scope_at_home, scope_envs_home by done. by destruct u.
  - intros a E. unfold scope_artifact. rewrite scope_at_home by by apply ho_artifact0. by destruct a.
  - intros b E. unfold scope_build. rewrite scope_at_home by by apply ho_build0. by destruct b.
  - intros v E. destruct (ho_vm0 v E) as (H1 & H2 & H3). unfold scope_vm. rewrite scope_mounts_home, scope_envs_home, (fmap_home (scope_workspace _)) by
      first [done|intros w Ew; unfold scope_workspace; rewrite scope_at_home by (by apply H1); by destruct w]. by destruct v.
  - intros g E. cbn. rewrite scope_to_home by by apply ho_gateway0. by destruct g.
  - intros d E. unfold normalize_discovery. rewrite (fmap_home (λ r : RegionalSpec, _)), (fmap_home (λ x : DiscoverySource, _)); [by destruct d|..].
    + intros x Ex. cbn. rewrite scope_to_home by by eapply ho_source0. by destruct x.
    + intros x Ex. cbn. rewrite scope_to_home by by eapply ho_regional0. by destruct x.
Qed.

(** *** The names are sorted *)

Lemma dedup_strict l : StronglySorted (le_by String.compare) l → StronglySorted (λ x y, String.compare x y = Lt) (dedup l).
Proof.
  intros Hl. induction Hl as [|x l Hl IH Hx]; [constructor|]. destruct l as [|y l]; [repeat constructor|].
  change (dedup (x :: y :: l)) with (if String.eqb x y then dedup (y :: l) else x :: dedup (y :: l)).
  destruct (String.eqb_spec x y) as [->|Hne]; [done|]. constructor; [done|].
  apply Forall_cons in Hx as [Hxy _]. apply StronglySorted_inv in Hl as [_ Hy]. rewrite Forall_forall. intros z Hz.
  rewrite elem_of_dedup in Hz. unfold le_by in Hxy.
  assert (String.compare x y = Lt) as Hlt by (destruct (String.compare x y) eqn:E; [by apply Str.compare_eq in E|done|done]).
  assert (le_by String.compare y z) as Hyz.
  { apply elem_of_cons in Hz as [->|Hz]; [unfold le_by; by rewrite Str.compare_refl|]. rewrite Forall_forall in Hy. by apply Hy. }
  pose proof (cmp_eq_trans String.compare x y z Hxy Hyz) as Hxz.
  destruct (String.compare x z) eqn:E; [|done|done]. apply Str.compare_eq in E as <-.
  unfold le_by in Hyz. rewrite String.compare_antisym, Hlt in Hyz. done.
Qed.

(** C30. A spec can only reach the secrets of its own namespace.  After [normalize], whatever namespace
    the client wrote on a reference, every reference of every block and every variable is resolved
    within the spec's namespace: two stores that hold the same secrets there resolve it alike,
    whatever they hold elsewhere.  Nothing else changes: all the spec says but the namespaces of its
    references it says as before, one whose references are of its namespace already is left as it
    is, it is accepted or refused for the same reason, and doing it twice changes nothing.  It names
    the same secrets, which are exactly those that [secret_ids] lists, in order and once each, and a
    deletion checks. *)
Theorem secrets_stay_in_the_namespace (s : DeploymentSpec) :
  (∀ secrets secrets' r, names_secret (normalize s) r →
     (∀ i, secrets !! store_key (namespace s) i = secrets' !! store_key (namespace s) i) →
     resolve_secret secrets r = resolve_secret secrets' r) ∧
  spec_view (normalize s) = spec_view s ∧
  ((∀ r, names_secret s r → sr_namespace r = Some (namespace s)) → normalize s = s) ∧
  validate (normalize s) = validate s ∧
  normalize (normalize s) = normalize s ∧
  secret_ids (normalize s) = secret_ids s ∧
  (∀ i, i ∈ secret_ids s ↔ ∃ r, names_secret s r ∧ sr_secret r = i) ∧
  StronglySorted (λ x y, String.compare x y = Lt) (secret_ids s).
Proof.
  split; [|split; [apply spec_view_normalize|split; [intros H; by apply normalize_homely, names_homely|
    split; [apply validate_normalize|split; [apply normalize_idem|split; [|split; [|exact (dedup_strict _ (sort_by_sorted String.compare _))]]]]]]].
  - intros secrets secrets' r Hr Heq. assert (sr_namespace r = Some (namespace s)) as Hns.
    { destruct Hr as [Hr|(e & He & ->)].
      - rewrite option_refs_normalize in Hr. apply list_elem_of_fmap in Hr as ([r'|] & E & _); [|done]. by injection E as ->.
      - rewrite env_vars_normalize in He. apply list_elem_of_fmap in He as (e' & -> & _). done. }
    unfold resolve_secret, ref_namespace. rewrite Hns. cbn [default]. by rewrite Heq.
  - unfold secret_ids. rewrite option_refs_normalize, env_vars_normalize. do 3 f_equal.
    + induction (option_refs s) as [|[r|] l IH]; [done| |done]. cbn. by rewrite <- IH.
    + induction (env_vars_of s) as [|e l IH]; [done|]. cbn. by rewrite <- IH.
  - intros i. unfold secret_ids. rewrite elem_of_dedup, sort_by_perm, elem_of_app, !list_elem_of_In, !in_map_iff.
    setoid_rewrite <- list_elem_of_In. split.
    + intros [(r & <- & Hr)|(e & <- & He)].
      * apply list_elem_of_omap in Hr as (o & Ho & ->). exists r. split; [by left|done].
      * exists (env_ref e). split; [right; by exists e|done].
    + intros (r & [Hr|(e & He & ->)] & <-); [left|right; by exists e]. exists r. split; [done|].
      apply list_elem_of_omap. by exists (Some r).
Qed.
End secrets.

(** The registry's [normalize] is this one. *)
Lemma registry_normalize {Json J Bytes} (Ext : Externals (Rest Json) SiteSpec J Bytes) (s : LbRegistry.DeploymentSpec (Rest Json) SiteSpec) :
  LbRegistry.normalize_rest = normalize_rest (Json := Json) → LbRegistry.normalize s = normalize s.
Proof. intros E. unfold LbRegistry.normalize, normalize. by rewrite E. Qed.

(** ** Names of replicas *)

Lemma hex_char_spec n : (n < 16)%N → Str.is_ascii_alphanumeric (hex_char n) = true ∧ Ascii.eqb (hex_char n) "-" = false.
Proof.
  intros Hn. assert (n ∈ (N.of_nat <$> seq 0 16)) as Hin.
  { apply list_elem_of_fmap. exists (N.to_nat n). split; [lia|]. apply elem_of_seq. lia. }
  repeat (apply elem_of_cons in Hin as [->|Hin]; [by vm_compute|]). by apply elem_of_nil in Hin.
Qed.

Lemma hex_digits_spec k n :
  String.length (hex_digits k n) = k ∧ free_of "-" (hex_digits k n) ∧ Str.all (word_char ["-"]%char) (hex_digits k n) = true.
Proof.
  revert n. induction k as [|k IH]; intros n; [done|]. cbn [hex_digits]. destruct (IH (n / 16)%N) as (H1 & H2 & H3).
  destruct (hex_char_spec (n mod 16) (N.mod_lt n 16 ltac:(done))) as [H4 H5]. split_and!.
  - rewrite Trim.length_append, H1. cbn. lia.
  - apply free_of_app. split; [done|]. unfold free_of. cbn. by rewrite H5.
  - rewrite all_app, H3. cbn. unfold word_char. by rewrite H4.
Qed.

Lemma hex_width_12 n : (n < 2 ^ 48)%N → hex_width n = 12%nat.
Proof.
  intros Hn. unfold hex_width. destruct (decide (n = 0%N)) as [->|H0]; [done|].
  assert (N.log2 n < 48)%N as Hl by (apply N.log2_lt_pow2; lia).
  pose proof (N.Div0.div_le_mono (N.log2 n) 47 4 ltac:(lia)). change (47 / 4)%N with 11%N in *. lia.
Qed.

Lemma rsplit_free c e : free_of c e → Chars.rsplit_once c e = None.
Proof.
  unfold free_of. induction e as [|b e IH]; [done|]. cbn [Str.all Chars.rsplit_once]. intros [Hb H]%andb_true_iff.
  rewrite IH by done. apply negb_true_iff in Hb. by rewrite Hb.
Qed.
Lemma rsplit_at c p e : free_of c e → Chars.rsplit_once c (p +:+ String c e) = Some (p, e).
Proof.
  intros He. induction p as [|b p IH].
  - change ("" +:+ String c e) with (String c e). cbn [Chars.rsplit_once]. by rewrite rsplit_free, Ascii.eqb_refl.
  - change (String b p +:+ String c e) with (String b (p +:+ String c e)). cbn [Chars.rsplit_once]. by rewrite IH.
Qed.

Lemma last_char s t a b : s +:+ String a "" = t +:+ String b "" → a = b.
Proof.
  revert t. induction s as [|x s IH]; intros [|y t] E.
  - by injection E.
  - injection E as _ E. by destruct t.
  - injection E as _ E. by destruct s.
  - apply (IH t). by injection E.
Qed.

(** A replica's name says whose it is, for any id and any nonce. *)
Lemma owner_of_replica_name i nonce : i ≠ "" → owner_of (replica_name i nonce) = Some i.
Proof.
  intros Hi. destruct (hex_digits_spec (hex_width nonce) nonce) as (_ & Hf & _).
  assert (∀ a b, Str.strip_prefix a (a +:+ b) = Some b) as Hstrip by (intros a b; by apply Str.strip_prefix_spec).
  unfold owner_of, replica_name. rewrite Hstrip. cbn [mbind option_bind]. rewrite Hstrip. cbn [mbind option_bind].
  change ("-" +:+ hex12 nonce) with (String "-" (hex12 nonce)). rewrite (rsplit_at "-" i (hex12 nonce)) by done. cbn [mbind option_bind]. by apply String.eqb_neq in Hi as ->.
Qed.

Section lxc.
Context {Json : Type} `{!EqDecision Json} (url_parse : string → option Url) (show_Z : Z → string)
  (socket_loopback : string → option bool) (x509_key pem_key : string → result string unit).
Local Abbreviation DeploymentSpec := (LbRegistry.DeploymentSpec (Rest Json) SiteSpec).
Local Abbreviation validate := (validate url_parse show_Z socket_loopback x509_key pem_key).

(** Every replica of an accepted container deployment can be named, and its name leads back.  The
    id was checked with one nonce; for each of the first 2^48, far beyond the seconds the counter
    starts from, the name is legal for Incus, and the owner parsed from it is this deployment and no
    other.  The id is taken without blanks around it: the check trims them, the name does not. *)
Theorem container_names_are_legal (s : DeploymentSpec) v nonce :
  validate s = Ok tt → vm_of s = Some v → driver v = Lxc → Chars.trim (id s) = id s → (nonce < 2 ^ 48)%N →
  is_legal_name (replica_name (id s) nonce) = true ∧
  owner_of (replica_name (id s) nonce) = Some (id s) ∧
  ∀ j n, j ≠ "" → replica_name j n = replica_name (id s) nonce → j = id s.
Proof.
  intros Hs Hv Hd Ht Hn. destruct (validate_managed _ _ _ _ _ s v Hs Hv) as (_ & _ & _ & Hvm). unfold validate_vm in Hvm.
  rewrite !seq_ok, Hd in Hvm. destruct Hvm as (Hl & _). unfold validate_lxc in Hl. cbv zeta in Hl. rewrite Ht in Hl.
  rewrite !seq_ok in Hl. destruct Hl as (_ & _ & H1 & H2 & _). apply bail_if_ok, Nat.ltb_ge in H1. apply bail_if_ok, negb_false_iff in H2.
  assert (id s ≠ "") as Hne.
  { intros E. unfold LbConfig.validate in Hs. rewrite seq_ok in Hs. destruct Hs as [Hs _]. apply bail_if_ok in Hs. unfold blank in Hs.
    by rewrite Ht, E in Hs. }
  split; [|split].
  - destruct (hex_digits_spec 12 nonce) as (Hlen & Hfree & Hall). unfold is_legal_name, replica_name, hex12. rewrite hex_width_12 by done.
    unfold MAX_LXC_DEPLOYMENT_ID, MAX_NAME_LEN in *. rewrite !Trim.length_append, Hlen.
    assert (Str.all (word_char ["-"]%char) (id s) = true) as Hid.
    { eapply Str.all_impl; [|exact H2]. intros b Hb. unfold lxc_id_char, word_char, chars_in in *. cbn. unfold Str.is_ascii_alphanumeric, Str.is_ascii_alphabetic.
      destruct (Str.is_ascii_lowercase b), (Str.is_ascii_digit b), (Ascii.eqb b "-"); rewrite ?orb_true_r; done. }
    rewrite !andb_true_iff. split_and!; [done|apply Nat.leb_le; cbn; lia| |done| |done].
    + rewrite !all_app, Hid, Hall. done.
    + apply negb_true_iff. destruct (Str.ends_with "-" _) eqn:E; [|done]. exfalso.
      apply ends_with_spec in E as (t & E). change (hex_digits 12 nonce)
        with (hex_digits 11 (nonce / 16) +:+ String (hex_char (nonce mod 16)) "") in E.
      destruct (hex_char_spec (nonce mod 16) (N.mod_lt nonce 16 ltac:(done))) as [_ Hc].
      rewrite <- !Str.append_assoc in E. apply last_char in E. by rewrite E in Hc.
  - by apply owner_of_replica_name.
  - intros j n Hj E. pose proof (owner_of_replica_name j n Hj) as H3. rewrite E, owner_of_replica_name in H3 by done. by injection H3.
Qed.
End lxc.

(** ** Paths and names that stay inside *)

(** A reference is one plain name of a path. *)
Lemma artifact_ref_is_a_name r : is_valid_artifact_ref r = true → components r = [Normal r].
Proof.
  unfold is_valid_artifact_ref. rewrite !andb_true_iff. intros ((((H1 & _) & _) & H4) & H5). apply negb_true_iff, String.eqb_neq in H1.
  apply negb_true_iff in H4.
  assert (free_of "/" r) as Hf.
  { eapply Str.all_impl; [|exact H5]. intros b Hb. apply negb_true_iff. clear -Hb. by destruct b as [[] [] [] [] [] [] [] []]. }
  assert (r ≠ "." ∧ r ≠ "..") as [Hd Hdd] by (split; intros ->; done).
  unfold components. rewrite (split_whole "/" r) by done.
  assert (Str.starts_with "/" r = false) as ->.
  { destruct (Str.starts_with "/" r) eqn:E; [|done]. apply Str.starts_with_spec in E as (t & ->). done. }
  rewrite bool_decide_false by (cbn; congruence). cbn. unfold segment.
  by destruct (String.eqb_spec r ""), (String.eqb_spec r "."), (String.eqb_spec r "..").
Qed.

Lemma safe_path_stays_inside p : is_safe_relative_path p = true → stays_inside (Chars.trim p).
Proof.
  unfold is_safe_relative_path. cbv zeta. rewrite !andb_true_iff. intros ((((_ & H) & _) & _) & Hc) at_.
  exists (rev (names_of (components (Chars.trim p)))). rewrite forallb_forall in Hc. apply walk_descends.
  - intros Hin. apply list_elem_of_In, Hc in Hin. done.
  - intros Hin. apply list_elem_of_In, Hc in Hin. done.
Qed.

Lemma climbs_not p : climbs p = false → stays_inside p.
Proof. unfold climbs. intros [H1 H2]%orb_false_iff. by apply relative_stays_inside. Qed.

(** A path that a spec or a workflow may name inside a directory of the host never leaves it:
    from wherever that directory is, following the path name by name only goes down.  That covers
    the index and the error page of a site, the Dockerfile and the context of a build from git, and
    the workflow file; and the name of an artifact is a single plain name, never a way up. *)
Theorem accepted_paths_stay_inside :
  (∀ s p, validate_site s = Ok tt → (p = index_file s ∨ not_found s = Some p) → Chars.trim p ≠ "" → stays_inside (Chars.trim p)) ∧
  (∀ b p, validate_build b = Ok tt → is_some (repo b) = true → (dockerfile b = Some p ∨ context b = Some p) → stays_inside (Chars.trim p)) ∧
  (∀ w, validate_workflow w = Ok tt → stays_inside (Chars.trim (wf_path w))) ∧
  (∀ a fs, validate_artifact fs a = Ok tt → components (as_artifact_ref a) = [Normal (as_artifact_ref a)]) ∧
  (∀ d m, validate_mount d m = Ok tt → components (ms_artifact_ref m) = [Normal (ms_artifact_ref m)]).
Proof.
  split_and!.
  - intros s p Hs Hp Hne. unfold validate_site in Hs. cbv zeta in Hs. rewrite !seq_ok in Hs. destruct Hs as (_ & _ & Hi & Hn & _).
    assert (validate_site_path "index" (Some p) = Ok tt ∨ validate_site_path "not_found" (Some p) = Ok tt) as [H|H]
      by (destruct Hp as [-> |Hp]; [by left|right; by rewrite <- Hp]);
      unfold validate_site_path in H; cbv zeta in H; apply bail_if_ok, andb_false_iff in H as [H|H];
      try (by apply negb_false_iff, String.eqb_eq in H); by apply climbs_not.
  - intros b p Hb Hr Hp. unfold validate_build in Hb. rewrite !seq_ok in Hb. destruct Hb as (_ & Hb & _).
    destruct (repo b) as [r|]; [|done]. rewrite !seq_ok in Hb. destruct Hb as (_ & _ & _ & Hb). apply all_ok_spec in Hb.
    rewrite Forall_forall in Hb. apply safe_path_stays_inside. specialize (Hb p). rewrite bail_if_ok, negb_false_iff in Hb. apply Hb.
    apply list_elem_of_omap. exists (Some p). split; [|done]. destruct Hp as [-> | ->]; set_solver.
  - intros w Hw. unfold validate_workflow in Hw. rewrite !seq_ok in Hw. destruct Hw as (_ & _ & _ & _ & _ & Hw).
    apply bail_if_ok, orb_false_iff in Hw as [_ Hw]. by apply climbs_not.
  - intros a fs Ha. unfold validate_artifact in Ha. rewrite !seq_ok in Ha. destruct Ha as (_ & _ & Ha & _).
    apply bail_if_ok, negb_false_iff in Ha. by apply artifact_ref_is_a_name.
  - intros d m Hm. unfold validate_mount in Hm. rewrite !seq_ok in Hm. destruct Hm as (_ & _ & Hm & _).
    apply bail_if_ok, negb_false_iff in Hm. by apply artifact_ref_is_a_name.
Qed.

(** ** Examples *)

Module ConfigDemo.
Definition ref_of (name : string) : SecretRef := {| sr_secret := name; sr_key := "token"; sr_username := None; sr_namespace := Some "elsewhere" |}.
Definition mount (path : string) : MountSpec :=
  {| ms_path := path; ms_store := "/srv/store"; ms_artifact_ref := "corpus-v3"; ms_auth := Some (ref_of "store");
     ms_strip_components := None; read_only := true; ms_digest := None |}.
Definition shared : WorkspaceSpec :=
  {| ws_path := None; ws_store := "s3://bucket/prefix"; ws_artifact_ref := None; ws_auth := None; snapshot_interval_secs := Some 600 |}.
Definition template (d : Driver) (ms : list MountSpec) (w : option WorkspaceSpec) : VmSpec :=
  {| driver := d; correlated_creates := false; image := Some "docker:nginx"; port := 8080; start_command := None; size_class := None;
     disk_size_gb := None; working_directory := None; env_vars := None; setup_hooks := None; open_ports := []; mounts := ms;
     workspace := w; vm_env_from := [{| se_secret := "db"; se_key := "password"; se_env := None; se_namespace := None |}];
     workspace_archive := None; image_download_url := None; image_size_bytes := None; image_sha256 := None; ttl_seconds := 3600 |}.
Definition policy (max : Z) : ScalingPolicy :=
  {| min_replicas := 0; max_replicas := max; warm_pool := 0; target_concurrency := 10; scale_to_zero_after_secs := 300;
     cold_start_timeout_secs := 120 |}.
Definition rest (v : option VmSpec) : Rest string :=
  {| account_id := None; user_id := None; vm := v;
     health := {| expected_header := None; hc_path := Some "/"; hc_port := None; hc_timeout_secs := 2 |};
     drain_timeout_secs := 30; boot_timeout_secs := 300; idle_action := Destroy; build := None; artifact := None;
     update_spec := None; gate := Some GateDemo.token_gate; feed := None; ingress := None |}.
Definition service_spec (i : string) (v : option VmSpec) (us : list string) (max : Z) : LbRegistry.DeploymentSpec (Rest string) SiteSpec :=
  {| id := i; namespace := "team"; routes := GateDemo.on_host "app.example.com"; maintenance := false; site := None;
     scaling := policy max; upstreams := us; discovery := None; gateway := None; rest_of := rest v |}.
Definition corpus : VmSpec := template Firecracker [mount "/data/corpus/"; mount "/data/models"] (Some shared).
Definition web : LbRegistry.DeploymentSpec (Rest string) SiteSpec := service_spec "web" (Some corpus) [] 1.
Definition box (i : string) : LbRegistry.DeploymentSpec (Rest string) SiteSpec := service_spec i (Some (template Lxc [] None)) [] 3.

Definition no_socket (s : string) : option bool := None.
Definition show_nat (z : Z) : string := "".
Definition check (s : LbRegistry.DeploymentSpec (Rest string) SiteSpec) : result SpecError unit :=
  validate GateDemo.no_url show_nat no_socket GateDemo.a_key GateDemo.a_key s.

(** The registry's interface on these specs, a file being what is written in it. *)
Abbreviation Spec := (LbRegistry.DeploymentSpec (Rest string) SiteSpec).
Abbreviation File := (option (Spec * LbPool.DeploymentState (RetirementOperation (Rest string) SiteSpec unit) CreateAttempt
  (RolloutOperation (Rest string) SiteSpec) (RouteHandoffRecord (Rest string) SiteSpec))).
#[export] Instance config_externals : Externals (Rest string) SiteSpec unit File := {
  LbRegistry.url_parse := GateDemo.no_url; LbRegistry.show_Z := show_nat; encode := λ s st, Some (s, st); decode := λ f, f;
  decode_legacy := λ f, match f with Some (s, _) => Some [s] | None => None end; empty := None;
  hash := λ s, if is_some (discovery s) then "discovered" else "plain"; hash_sorted := λ s, id s;
  LbRegistry.sha256 := λ f, match f with Some (s, _) => id s | None => "" end; read_dir := λ m, (map_to_list m).*1;
  revision := λ _, "r"; boot_id := λ _, "boot"; LbRegistry.normalize_rest := normalize_rest;
  LbRegistry.validate := λ s, is_ok (check s);
}.
Definition process : LbRegistry.World (Rest string) SiteSpec unit unit File :=
  {| now := 0; heap := ∅; deps := ∅; routers := ∅; deployments := ∅; index := LbRoutes.build ∅; retired_discovery := ∅; staged := ∅;
     load_skipped := false; disk := empty_disk; next := 0; faults := [] |}.
End ConfigDemo.

#[local] Existing Instance ConfigDemo.config_externals.
Lemma accepted_spec_runs_witness :
  ConfigDemo.check ConfigDemo.web = Ok tt ∧ backend (pool_spec ConfigDemo.web) = BVm ∧
  ∃ d w', new_deployment ConfigDemo.web ConfigDemo.process = Some (d, w').
Proof.
  assert (ConfigDemo.check ConfigDemo.web = Ok tt) as Hv by reflexivity. split; [exact Hv|]. split; [reflexivity|].
  exact (proj1 (proj2 (accepted_spec_runs ConfigDemo.no_socket GateDemo.a_key GateDemo.a_key ConfigDemo.web Hv)) ConfigDemo.process).
Defined.

Lemma accepted_mounts_are_apart_witness :
  ConfigDemo.check ConfigDemo.web = Ok tt ∧
  ¬ guest_names (mount_path (ConfigDemo.mount "/data/corpus/")) `prefix_of` guest_names (mount_path (ConfigDemo.mount "/data/models")).
Proof.
  assert (ConfigDemo.check ConfigDemo.web = Ok tt) as Hv by reflexivity. split; [exact Hv|].
  assert (∀ m, m ∈ mounts ConfigDemo.corpus → undotted (mount_path m)) as Hd.
  { intros m Hm. apply list_elem_of_In in Hm. destruct Hm as [<-|[<-|[]]]; apply (bool_decide_unpack _); exact I. }
  assert (∀ w, workspace ConfigDemo.corpus = Some w → undotted (workspace_path w)) as Hw.
  { intros w [= <-]. apply (bool_decide_unpack _). exact I. }
  destruct (accepted_mounts_are_apart GateDemo.no_url ConfigDemo.show_nat ConfigDemo.no_socket GateDemo.a_key GateDemo.a_key ConfigDemo.web ConfigDemo.corpus Hv eq_refl Hd Hw) as (_ & H & _).
  apply (H 0 1 _ _ ltac:(discriminate) eq_refl eq_refl)%nat.
Defined.

Lemma container_names_are_legal_witness :
  ConfigDemo.check (ConfigDemo.box "my-box") = Ok tt ∧ is_legal_name (replica_name "my-box" 1754000000) = true.
Proof.
  assert (ConfigDemo.check (ConfigDemo.box "my-box") = Ok tt) as Hv by reflexivity. split; [exact Hv|].
  exact (proj1 (container_names_are_legal GateDemo.no_url ConfigDemo.show_nat ConfigDemo.no_socket GateDemo.a_key GateDemo.a_key (ConfigDemo.box "my-box") _ 1754000000 Hv eq_refl eq_refl eq_refl eq_refl)).
Defined.

(** References to another namespace, and to none, are brought home; the store is named twice and listed once. *)
Lemma secrets_stay_in_the_namespace_witness :
  sr_namespace <$> omap (λ o, o) (option_refs ConfigDemo.web) = [None; None; Some "elsewhere"; Some "elsewhere"] ∧
  sr_namespace <$> omap (λ o, o) (option_refs (normalize ConfigDemo.web)) = replicate 4 (Some "team") ∧
  spec_view (normalize ConfigDemo.web) = spec_view ConfigDemo.web ∧
  secret_ids ConfigDemo.web = ["db"; "google"; "jwt"; "store"] ∧
  (∀ secrets secrets' : SecretStore, (∀ i, secrets !! store_key "team" i = secrets' !! store_key "team" i) →
     resolve_secret secrets (scope_to "team" (ConfigDemo.ref_of "store")) = resolve_secret secrets' (scope_to "team" (ConfigDemo.ref_of "store"))).
Proof.
  split; [reflexivity|]. split; [reflexivity|].
  destruct (secrets_stay_in_the_namespace GateDemo.no_url ConfigDemo.show_nat ConfigDemo.no_socket GateDemo.a_key GateDemo.a_key ConfigDemo.web) as (H1 & H2 & _).
  split; [exact H2|]. split; [reflexivity|]. intros secrets secrets' Heq. apply H1; [|exact Heq].
  left. apply list_elem_of_In. cbn. tauto.
Defined.

(** A mount over a directory of the guest's, and two mounts at one place: [Path::components] drops a
    "." that is not the first, so the check for dotted segments never sees it, and the texts differ. *)
Example dot_segments_are_not_seen :
  let ms := ConfigDemo.mount <$> ["/./proc"; "/data/./x"; "/data/x"] in
  ConfigDemo.check (ConfigDemo.service_spec "web" (Some (ConfigDemo.template Firecracker ms None)) [] 1) = Ok tt ∧
  guest_names <$> (mount_path <$> ms) = [["proc"]; ["data"; "x"]; ["data"; "x"]].
Proof. by vm_compute. Qed.

(** A remote that git runs a command for. *)
Example ext_remote_is_accepted : is_supported_repo_url "ext::/tmp/run@host:repo" = true ∧ is_supported_repo_url "ext::sh" = false.
Proof. by vm_compute. Qed.

(** A reference with two dots in it. *)
Example reference_with_dots : is_valid_artifact_ref "v1..2" = true ∧ components "v1..2" = [Normal "v1..2"].
Proof. by vm_compute. Qed.

(** Blanks around a container's id: the check trims them, the name that is created does not. *)
Example padded_id_names_nothing :
  let s := ConfigDemo.box " box" in
  ConfigDemo.check s = Ok tt ∧ is_legal_name (replica_name (id s) 0) = false ∧ is_legal_name (replica_name (Chars.trim (id s)) 0) = true.
Proof. by vm_compute. Qed.
