(* ===== verification/LbJwt.v ===== *)
(** * Tokens somebody else issued: [app-lb/src/jwt.rs]

    The verification of a JWT against the policy of a gate, and the cache of the issuers' key
    sets.  OpenSSL, base64 and the JSON reader are arguments; the order of the checks, what each
    compares, and when a key set is fetched again are what is proved about. *)
From Stdlib Require Import Ascii String ZArith Lia Bool.
From stdpp Require Import base option list strings gmap fin_maps sets.
From S2P Require Import Prelude LbTokens LbSpec LbGate.
Open Scope string_scope.
Open Scope list_scope.
Local Open Scope Z_scope.

(** ** JSON values: [serde_json::Value] *)

(** A number as serde_json holds it; a float is what its parser makes of one. *)
Inductive Number {Float : Type} : Type := PosInt (n : Z) | NegInt (n : Z) | FloatNum (f : Float).
Arguments Number : clear implicits.

(** An object is in the order of its keys. *)
#[warnings="-register-all"]
Inductive Value {Float : Type} : Type :=
| Null
| Bool (b : bool)
| Num (n : Number Float)
| Text (s : string)
| Array (l : list Value)
| Object (l : list (string * Value)).
Arguments Value : clear implicits.

(** [JWKS_TTL], [JWKS_MIN_REFETCH], [JWKS_MAX_BYTES]. *)
Definition JWKS_TTL : Z := 600.
Definition JWKS_MIN_REFETCH : Z := 60.
Definition JWKS_MAX_BYTES : nat := N.to_nat 262144.

Inductive Hash : Type := Sha256 | Sha384 | Sha512.
(** [Algorithm::digest]. *)
Definition digest (a : Algorithm) : Hash :=
  match a with
  | Hs256 | Rs256 | Ps256 | Es256 => Sha256
  | Hs384 | Rs384 | Ps384 | Es384 => Sha384
  | Hs512 | Rs512 | Ps512 => Sha512
  end.
(** [Algorithm::ecdsa_half]. *)
Definition ecdsa_half (a : Algorithm) : option nat :=
  match a with Es256 => Some 32%nat | Es384 => Some 48%nat | _ => None end.
(** Whether [verify_signature] asks for PSS padding. *)
Definition is_pss (a : Algorithm) : bool := match a with Ps256 | Ps384 | Ps512 => true | _ => false end.

(** [JwtError]. *)
Inductive JwtError : Type :=
| Malformed (what : string)
| AlgorithmRefused (alg : string)
| KeyMismatch
| UnknownKey (kid : string)
| JwksFailed (e : string)
| BadSignature
| Expiry (what : string)
| Claim (what : string)
| Require (claim : string)
| BadKey (e : string).

(** [Header]. *)
Record Header : Type := { h_alg : string; h_kid : option string }.

(** [Jwk]. *)
Record Jwk : Type := {
  kid : option string; kty : string; jwk_n : option string; jwk_e : option string;
  crv : option string; jwk_x : option string; jwk_y : option string;
}.
Inductive Curve : Type := P256 | P384.

(** [KeySet]. *)
Record KeySet : Type := { keys : list Jwk; fetched_at : Z; attempted_at : Z }.
Definition no_keys : KeySet := {| keys := []; fetched_at := 0; attempted_at := 0 |}.

(** What came of a GET: no answer, or the status and the body. *)
Inductive Fetched : Type := Unreachable (e : string) | Answered (success : bool) (status body : string).

(** ** Splitting *)

Lemma rsplit_once_spec c s a b : Chars.rsplit_once c s = Some (a, b) ↔ s = a +:+ String c b ∧ free_of c b.
Proof.
  unfold free_of. split.
  - revert a b. induction s as [|d s IH]; intros a b; cbn [Chars.rsplit_once]; [done|].
    destruct (Chars.rsplit_once c s) as [[x y]|] eqn:E.
    + intros [= <- <-]. destruct (IH _ _ eq_refl) as [-> Hy]. done.
    + destruct (Ascii.eqb_spec d c) as [->|]; [|done]. intros [= <- <-]. split; [done|]. clear IH. revert E.
      induction s as [|e s IH]; [done|]. cbn [Chars.rsplit_once Str.all]. destruct (Chars.rsplit_once c s) as [[x y]|]; [done|].
      destruct (Ascii.eqb e c); [done|]. intros _. by apply IH.
  - intros [-> Hb]. induction a as [|d a IH].
    + change ("" +:+ String c b) with (String c b). cbn [Chars.rsplit_once].
      assert (Chars.rsplit_once c b = None) as ->; [|by rewrite Ascii.eqb_refl].
      induction b as [|e b IH]; [done|]. cbn [Str.all Chars.rsplit_once] in *. apply andb_true_iff in Hb as [He Hb].
      rewrite (IH Hb). by destruct (Ascii.eqb e c).
    + change (String d a +:+ String c b) with (String d (a +:+ String c b)). cbn [Chars.rsplit_once]. by rewrite IH.
Qed.

Lemma split_once_spec c s a b : Chars.split_once (String c "") s = Some (a, b) ↔ s = a +:+ String c b ∧ free_of c a.
Proof.
  unfold free_of. revert a. induction s as [|d s IH]; intros a; cbn [Chars.split_once Str.strip_prefix].
  { split; [done|]. intros [E _]. by destruct a. }
  destruct (Ascii.eqb_spec c d) as [<-|Hd].
  - split; [by intros [= <- <-]|]. intros [E Ha]. destruct a as [|e a]; [by injection E as ->|].
    injection E as <- ->. cbn in Ha. by rewrite Ascii.eqb_refl in Ha.
  - destruct (Chars.split_once (String c "") s) as [[x y]|].
    + split.
      * intros [= <- <-]. destruct (proj1 (IH x) eq_refl) as [-> Hx]. split; [done|]. cbn. rewrite Hx.
        apply Ascii.eqb_neq in Hd. by rewrite Ascii.eqb_sym, Hd.
      * intros [E Ha]. destruct a as [|e a]; [by injection E as ->|]. injection E as -> E. cbn in Ha.
        apply andb_true_iff in Ha as [_ Ha]. by injection (proj2 (IH a) (conj E Ha)) as -> ->.
    + split; [done|]. intros [E Ha]. destruct a as [|e a]; [by injection E as ->|]. injection E as -> E. cbn in Ha.
      apply andb_true_iff in Ha as [_ Ha]. by discriminate (proj2 (IH a) (conj E Ha)).
Qed.

Lemma contains_free c s : Str.contains (String c "") s = false ↔ free_of c s.
Proof.
  unfold free_of. induction s as [|d s IH]; [done|]. cbn [Str.contains Str.all].
  assert (Str.starts_with (String c "") (String d s) = Ascii.eqb c d) as ->.
  { unfold Str.starts_with. cbn. by destruct (Ascii.eqb c d). }
  rewrite orb_false_iff, andb_true_iff, negb_true_iff, IH, Ascii.eqb_sym. done.
Qed.

Definition not_three : JwtError := Malformed "expected three dot-separated segments".

Section jwt.
(** Equality of floats, which JSON keeps free of NaN; how a number is printed; and [{:?}] of a text. *)
Context {Float : Type} (float_eqb : Float → Float → bool) (show_number : Number Float → string) (show_nat : nat → string)
  (debug : string → string).
Local Abbreviation Value := (Value Float).
(** [URL_SAFE_NO_PAD], and serde_json on a header, on a claim set and on a key set. *)
Context (b64_decode : string → option string) (header_of : string → option Header)
  (claims_of : string → option (gmap string Value)) (jwks_of : string → result string (list Jwk)).
(** OpenSSL: the MAC, the DER form of a pair of numbers, a signature checked with or without PSS,
    and keys from their numbers. *)
Context {PKey : Type} (hmac_sign : Hash → string → string → result string (option string))
  (der_of : string → string → option string) (check_signature : PKey → Hash → bool → string → string → result string bool)
  (rsa_key : string → string → result string PKey) (ec_key : Curve → string → string → result string PKey)
  (number_of : string → result string string).
Local Abbreviation JwtSpec := (LbSpec.JwtSpec Value).

(** ** Values and claims *)

Definition number_eqb (a b : Number Float) : bool :=
  match a, b with
  | PosInt m, PosInt n | NegInt m, NegInt n => (m =? n)%Z
  | FloatNum f, FloatNum g => float_eqb f g
  | _, _ => false
  end.
(** [Value::eq]. *)
Fixpoint value_eqb (a b : Value) {struct a} : bool :=
  match a, b with
  | Null, Null => true
  | Bool x, Bool y => Bool.eqb x y
  | Num m, Num n => number_eqb m n
  | Text s, Text t => String.eqb s t
  | Array l, Array m =>
    (fix all2 (l m : list Value) : bool :=
       match l, m with [], [] => true | x :: l, y :: m => value_eqb x y && all2 l m | _, _ => false end) l m
  | Object l, Object m =>
    (fix all2 (l m : list (string * Value)) : bool :=
       match l, m with
       | [], [] => true
       | (i, x) :: l, (j, y) :: m => String.eqb i j && value_eqb x y && all2 l m
       | _, _ => false
       end) l m
  | _, _ => false
  end.

Definition as_u64 (v : Value) : option Z := match v with Num (PosInt n) => Some n | _ => None end.
Definition as_str (v : Value) : option string := match v with Text s => Some s | _ => None end.

Local Abbreviation Claims := (gmap string Value).

(** [Claims::string]. *)
Definition claim_string (c : Claims) (name : string) : option string :=
  match c !! name with
  | Some (Text s) => Some s
  | Some (Num n) => Some (show_number n)
  | Some (Bool b) => Some (if b then "true" else "false")
  | _ => None
  end.

(** [satisfies]. *)
Definition satisfies (actual wanted : Value) : bool :=
  let wanted := match wanted with Array l => l | single => [single] end in
  match actual with
  | Array held => existsb (λ w, existsb (λ h, value_eqb h w) held) wanted
  | single => existsb (λ w, value_eqb w single) wanted
  end.

(** The [aud] claim, in either spelling. *)
Definition for_audience (c : Claims) (expected : string) : bool :=
  match c !! "aud" with
  | Some (Text s) => String.eqb s expected
  | Some (Array l) => existsb (λ v, bool_decide (as_str v = Some expected)) l
  | _ => false
  end.

(** The [require] entries, in the order of their names. *)
Fixpoint check_required (c : Claims) (required : list (string * Value)) : result JwtError unit :=
  match required with
  | [] => Ok tt
  | (claim, wanted) :: required =>
    match c !! claim with
    | None => Err (Require claim)
    | Some actual => if satisfies actual wanted then check_required c required else Err (Require claim)
    end
  end.
Definition required (spec : JwtSpec) : list (string * Value) :=
  sort_by (λ a b, String.compare (fst a) (fst b)) (map_to_list (require spec)).

(** [check_claims]. *)
Definition check_claims (c : Claims) (spec : JwtSpec) (now : Z) : result JwtError unit :=
  exp <-? ok_or (c !! "exp" ≫= as_u64)
    (Expiry "the token carries no exp claim, so it would never expire and this gate cannot revoke it") ;;
  bail_if (exp <=? U64.saturating_sub now (leeway spec)) (Expiry "the token has expired") ;;?
  match c !! "nbf" ≫= as_u64 with
  | Some nbf => bail_if (U64.wrapping_add now (leeway spec) <? nbf) (Expiry "the token is not valid yet")
  | None => Ok tt
  end ;;?
  bail_if (negb (bool_decide (claim_string c "iss" = Some (issuer spec))))
    (Claim "the token was issued by somebody other than this gate's issuer") ;;?
  match audience spec with
  | Some expected => bail_if (negb (for_audience c expected)) (Claim "the token is for a different audience")
  | None => Ok tt
  end ;;?
  check_required c (required spec).

(** ** Signatures *)

(** [Key]. *)
Inductive Key : Type := Secret (s : string) | Public (k : PKey).

(** [ecdsa_der]. *)
Definition ecdsa_der (signature : string) (half : nat) : result JwtError string :=
  bail_if (negb (String.length signature =? half * 2)%nat) BadSignature ;;?
  ok_or (der_of (Str.take half signature) (Str.drop half signature)) BadSignature.

Definition key_error {A} (r : result string A) : result JwtError A :=
  match r with Ok a => Ok a | Err e => Err (BadKey e) end.

(** [verify_signature]. *)
Definition verify_signature (alg : Algorithm) (key : Key) (signed signature : string) : result JwtError unit :=
  match alg_symmetric alg, key with
  | true, Secret secret =>
    mac <-? key_error (hmac_sign (digest alg) secret signed) ;;
    expected <-? ok_or mac BadSignature ;;
    bail_if (negb (ct_eq signature expected)) BadSignature
  | false, Public public =>
    signature <-? match ecdsa_half alg with Some half => ecdsa_der signature half | None => Ok signature end ;;
    ok <-? key_error (check_signature public (digest alg) (is_pss alg) signed signature) ;;
    bail_if (negb ok) BadSignature
  | _, _ => Err KeyMismatch
  end.

(** ** Key sets *)

(** [pick]. *)
Definition pick (ks : list Jwk) (k : option string) : option Jwk :=
  match k with
  | Some k => List.find (λ j, bool_decide (kid j = Some k)) ks
  | None => match ks with [only] => Some only | _ => None end
  end.

(** A number of a [Jwk]. *)
Definition jwk_number (field : string) (value : option string) : result JwtError string :=
  raw <-? ok_or value (BadKey ("the JWK has no " +:+ field)) ;;
  bytes <-? ok_or (b64_decode raw) (BadKey ("the JWK's " +:+ field +:+ " is not base64url")) ;;
  match number_of bytes with Ok n => Ok n | Err e => Err (BadKey ("the JWK's " +:+ field +:+ " is unusable: " +:+ e)) end.

(** [Jwk::to_public_key]. *)
Definition to_public_key (j : Jwk) : result JwtError PKey :=
  if String.eqb (kty j) "RSA" then
    n <-? jwk_number "n" (jwk_n j) ;; e <-? jwk_number "e" (jwk_e j) ;; key_error (rsa_key n e)
  else if String.eqb (kty j) "EC" then
    curve <-? (if bool_decide (crv j = Some "P-256") then Ok P256
               else if bool_decide (crv j = Some "P-384") then Ok P384
               else Err (BadKey ("unsupported EC curve " +:+ debug (default "(none)" (crv j))))) ;;
    x <-? jwk_number "x" (jwk_x j) ;; y <-? jwk_number "y" (jwk_y j) ;; key_error (ec_key curve x y)
  else Err (BadKey ("unsupported JWK key type " +:+ debug (kty j))).

(** [public_key_from_pem]: a certificate or a bare key. *)
Definition key_from_pem (x509_key pem_key : string → result string PKey) (pem : string) : result string PKey :=
  let pem := Chars.trim pem in
  if Str.contains "BEGIN CERTIFICATE" pem then map_err (λ e, "not a usable certificate: " +:+ e) (x509_key pem)
  else map_err (λ e, "not a usable PEM public key: " +:+ e) (pem_key pem).

(** [JwksCache::fetch], on what came of the request. *)
Definition fetch (url : string) (answer : Fetched) : result string (list Jwk) :=
  match answer with
  | Unreachable e => Err (url +:+ ": " +:+ e)
  | Answered success status body =>
    bail_if (negb success) (url +:+ ": HTTP " +:+ status) ;;?
    bail_if (JWKS_MAX_BYTES <? String.length body)%nat
      (url +:+ ": " +:+ show_nat (String.length body) +:+ " bytes is not a key set") ;;?
    ks <-? match jwks_of body with Ok ks => Ok ks | Err e => Err (url +:+ ": not a JWKS document: " +:+ e) end ;;
    bail_if (bool_decide (ks = [])) (url +:+ ": the key set is empty") ;;?
    Ok ks
  end.

(** [JwksCache]: the sets by URL. *)
Local Abbreviation Cache := (gmap string KeySet).

(** Whether [key_for] fetches. *)
Definition refetches (set : KeySet) (k : option string) (now : Z) : bool :=
  let stale := (JWKS_TTL <=? U64.saturating_sub now (fetched_at set))%Z in
  let missing := negb (is_some (pick (keys set) k)) in
  (stale || missing) && (JWKS_MIN_REFETCH <=? U64.saturating_sub now (attempted_at set))%Z.

(** [JwksCache::key_for], under the lock of the set, with what a fetch would answer. *)
Definition key_for (c : Cache) (url : string) (k : option string) (now : Z) (answer : Fetched) :
    result JwtError PKey * Cache :=
  let set := default no_keys (c !! url) in
  let found (set : KeySet) :=
    j <-? ok_or (pick (keys set) k) (UnknownKey (default "(the token names no kid)" k)) ;; to_public_key j in
  if refetches set k now then
    match fetch url answer with
    | Ok ks =>
      let set := {| keys := ks; fetched_at := now; attempted_at := now |} in (found set, <[url := set]> c)
    | Err e =>
      let set := {| keys := keys set; fetched_at := fetched_at set; attempted_at := now |} in
      (if bool_decide (keys set = []) then Err (JwksFailed e) else found set, <[url := set]> c)
    end
  else (found set, <[url := set]> c).

(** ** Tokens *)

(** [decode]. *)
Definition decode (segment what : string) : result JwtError string :=
  ok_or (b64_decode segment) (Malformed ("the " +:+ what +:+ " is not base64url")).

(** The three segments of a token. *)
Definition segments (token : string) : result JwtError (string * string * string * string) :=
  outer <-? ok_or (Chars.rsplit_once "." token) not_three ;;
  let '(signed, signature) := outer in
  inner <-? ok_or (Chars.split_once "." signed) not_three ;;
  let '(header, payload) := inner in
  bail_if (Str.contains "." payload) not_three ;;?
  Ok (signed, header, payload, signature).

(** The algorithm a header names, if the gate accepts it. *)
Definition accepted (spec : JwtSpec) (name : string) : result JwtError Algorithm :=
  ok_or (a ← alg_parse name; if accepts_alg spec a then Some a else None) (AlgorithmRefused name).

(** [verify], once the key is there. *)
Definition verify_with (spec : JwtSpec) (now : Z) (alg : Algorithm) (key : Key) (signed payload signature : string) :
    result JwtError Claims :=
  sig <-? decode signature "signature" ;;
  verify_signature alg key signed sig ;;?
  bytes <-? decode payload "payload" ;;
  claims <-? ok_or (claims_of bytes) (Malformed "the payload is not a JSON object") ;;
  check_claims claims spec now ;;?
  Ok claims.

(** [verify]. *)
Definition verify (token : string) (spec : JwtSpec) (key : option Key) (c : Cache) (now : Z)
    (answer : Fetched) : result JwtError Claims * Cache :=
  match (s <-? segments token ;;
         let '(signed, header, payload, signature) := s in
         bytes <-? decode header "header" ;;
         h <-? ok_or (header_of bytes) (Malformed "the header is not JSON") ;;
         alg <-? accepted spec (h_alg h) ;;
         Ok (h, alg, signed, payload, signature)) with
  | Err e => (Err e, c)
  | Ok (h, alg, signed, payload, signature) =>
    match key with
    | Some k => (verify_with spec now alg k signed payload signature, c)
    | None =>
      match key_for c (default "" (jwks_url spec)) (h_kid h) now answer with
      | (Ok k, c) => (verify_with spec now alg (Public k) signed payload signature, c)
      | (Err e, c) => (Err e, c)
      end
    end
  end.

(** ** What a verified token is *)

(** The values a claim or a requirement lists. *)
Definition values (v : Value) : list Value := match v with Array l => l | single => [single] end.
(** The symmetry of [==] on floats. *)
Context (float_sym : ∀ f g, float_eqb f g = float_eqb g f).

Fixpoint value_size (v : Value) : nat :=
  match v with
  | Array l => S (foldr (λ x n, value_size x + n)%nat 0%nat l)
  | Object l => S (foldr (λ x n, value_size (snd x) + n)%nat 0%nat l)
  | _ => 1%nat
  end.

Lemma value_eqb_sym a b : value_eqb a b = value_eqb b a.
Proof.
  assert (∀ n a b, (value_size a <= n)%nat → value_eqb a b = value_eqb b a) as H; [|by eapply H].
  clear a b. induction n as [|n IH]; intros a b Hn; [destruct a; cbn in Hn; lia|].
  destruct a as [|x|x|x|l|l], b as [|y|y|y|m|m]; cbn; try done.
  - by destruct x, y.
  - destruct x, y; cbn; try done; auto using Z.eqb_sym.
  - apply String.eqb_sym.
  - cbn in Hn. revert m. induction l as [|x l IHl]; intros [|y m]; try done. cbn in Hn. rewrite (IH x y), IHl by lia. done.
  - cbn in Hn. revert m. induction l as [|[i x] l IHl]; intros [|[j y] m]; try done. cbn in Hn.
    rewrite (IH x y), IHl, String.eqb_sym by lia. done.
Qed.

(** A claim meets a requirement: one of its values is one of those required. *)
Definition meets (actual wanted : Value) : Prop :=
  ∃ v w, v ∈ values actual ∧ w ∈ values wanted ∧ value_eqb v w = true.

Lemma satisfies_spec actual wanted : satisfies actual wanted = true ↔ meets actual wanted.
Proof.
  assert (∀ l, existsb (λ w, existsb (λ h, value_eqb h w) l) (values wanted) = true ↔
    ∃ v w, v ∈ l ∧ w ∈ values wanted ∧ value_eqb v w = true) as Hl.
  { intros l. rewrite existsb_exists. setoid_rewrite existsb_exists. setoid_rewrite <- list_elem_of_In. naive_solver. }
  assert (∀ x, existsb (λ w, value_eqb w x) (values wanted) = true ↔ ∃ v w, v ∈ [x] ∧ w ∈ values wanted ∧ value_eqb v w = true) as Hs.
  { intros x. rewrite existsb_exists. setoid_rewrite <- list_elem_of_In. split.
    - intros (w & Hw & E). exists x, w. rewrite value_eqb_sym. split; [by left|done].
    - intros (v & w & ->%list_elem_of_singleton & Hw & E). exists w. by rewrite value_eqb_sym. }
  unfold satisfies, meets. fold (values wanted). destruct actual; first [apply Hl|apply Hs].
Qed.

(** What a policy asks of the claims at a time. *)
Record claims_hold (spec : JwtSpec) (now : Z) (c : Claims) : Prop := {
  ch_exp : ∃ exp, c !! "exp" = Some (Num (PosInt exp)) ∧ U64.saturating_sub now (leeway spec) < exp;
  ch_nbf : ∀ nbf, c !! "nbf" = Some (Num (PosInt nbf)) → nbf <= U64.wrapping_add now (leeway spec);
  ch_iss : claim_string c "iss" = Some (issuer spec);
  ch_aud : ∀ a, audience spec = Some a → for_audience c a = true;
  ch_require : ∀ claim wanted, require spec !! claim = Some wanted → ∃ v, c !! claim = Some v ∧ meets v wanted;
}.

Lemma as_u64_spec o n : o ≫= as_u64 = Some n ↔ o = Some (Num (PosInt n)).
Proof. split; [|by intros ->]. destruct o as [[| |[]| | |]|]; cbn; congruence. Qed.

Lemma check_required_ok c l : check_required c l = Ok tt ↔ ∀ claim wanted, (claim, wanted) ∈ l → ∃ v, c !! claim = Some v ∧ meets v wanted.
Proof.
  induction l as [|[claim wanted] l IH]; cbn [check_required].
  { split; [|done]. intros _ ? ? []%not_elem_of_nil. }
  destruct (c !! claim) as [v|] eqn:Ev.
  - pose proof (satisfies_spec v wanted) as Hs. destruct (satisfies v wanted).
    + rewrite IH. setoid_rewrite elem_of_cons. split; [|naive_solver].
      intros H cl wa [[= -> ->]|]; [exists v; split; [done|by apply Hs]|auto].
    + split; [done|]. intros H. destruct (H claim wanted ltac:(by left)) as (v' & Hv' & Hm); naive_solver.
  - split; [done|]. intros H. destruct (H claim wanted ltac:(by left)) as (v' & Hv' & ?). congruence.
Qed.

Lemma check_claims_ok c spec now : check_claims c spec now = Ok tt ↔ claims_hold spec now c.
Proof.
  assert (∀ exp, bail_if (exp <=? U64.saturating_sub now (leeway spec)) (Expiry "the token has expired") = Ok tt ↔
    U64.saturating_sub now (leeway spec) < exp) as Hexp by (intros exp; rewrite bail_if_ok, Z.leb_gt; done).
  assert (∀ claim wanted, (claim, wanted) ∈ required spec ↔ require spec !! claim = Some wanted) as Hreq.
  { intros claim wanted. unfold required. rewrite sort_by_perm. apply elem_of_map_to_list. }
  assert (match c !! "nbf" ≫= as_u64 with
          | Some nbf => bail_if (U64.wrapping_add now (leeway spec) <? nbf) (Expiry "the token is not valid yet")
          | None => Ok tt end = Ok tt ↔
          ∀ nbf, c !! "nbf" = Some (Num (PosInt nbf)) → nbf <= U64.wrapping_add now (leeway spec)) as Hnbf.
  { setoid_rewrite <- as_u64_spec. destruct (c !! "nbf" ≫= as_u64) as [nbf|]; [|naive_solver].
    rewrite bail_if_ok, Z.ltb_ge. naive_solver. }
  assert (match audience spec with
          | Some expected => bail_if (negb (for_audience c expected)) (Claim "the token is for a different audience")
          | None => Ok tt end = Ok tt ↔ ∀ a, audience spec = Some a → for_audience c a = true) as Haud.
  { destruct (audience spec) as [a|]; [|naive_solver]. rewrite bail_if_ok, negb_false_iff. naive_solver. }
  unfold check_claims. rewrite rbind_ok. setoid_rewrite ok_or_ok. setoid_rewrite as_u64_spec. split.
  - intros (exp & He & H). rewrite !seq_ok, Hexp, Hnbf, Haud, check_required_ok, bail_if_ok, negb_false_iff, bool_decide_eq_true in H.
    setoid_rewrite Hreq in H. destruct H as (Hl & H1 & H2 & H3 & H4). split; eauto.
  - intros [(exp & He & Hl) H1 H2 H3 H4]. exists exp. split; [done|].
    rewrite !seq_ok, Hexp, Hnbf, Haud, check_required_ok, bail_if_ok, negb_false_iff, bool_decide_eq_true. setoid_rewrite Hreq. done.
Qed.

(** The signature that a key of the family of the algorithm accepts over the text as it arrived. *)
Definition signature_holds (alg : Algorithm) (key : Key) (signed signature : string) : Prop :=
  match key with
  | Secret s => alg_symmetric alg = true ∧ hmac_sign (digest alg) s signed = Ok (Some signature)
  | Public k =>
    alg_symmetric alg = false ∧ ∃ sig, check_signature k (digest alg) (is_pss alg) signed sig = Ok true ∧
      match ecdsa_half alg with
      | Some half => String.length signature = (half * 2)%nat ∧ der_of (Str.take half signature) (Str.drop half signature) = Some sig
      | None => sig = signature
      end
  end.

Lemma key_error_ok {A} (r : result string A) a : key_error r = Ok a ↔ r = Ok a.
Proof. destruct r; cbn; split; congruence. Qed.

Lemma verify_signature_ok alg key signed signature :
  verify_signature alg key signed signature = Ok tt ↔ signature_holds alg key signed signature.
Proof.
  unfold verify_signature, signature_holds. destruct key as [secret|k], (alg_symmetric alg); try (split; [done|by intros [? _]]).
  - rewrite rbind_ok. setoid_rewrite key_error_ok. setoid_rewrite rbind_ok. setoid_rewrite ok_or_ok. setoid_rewrite bail_if_ok.
    setoid_rewrite negb_false_iff. setoid_rewrite ct_eq_eqb. setoid_rewrite String.eqb_eq. naive_solver.
  - rewrite rbind_ok. setoid_rewrite rbind_ok. setoid_rewrite key_error_ok. setoid_rewrite bail_if_ok. setoid_rewrite negb_false_iff.
    assert (∀ sig, match ecdsa_half alg with Some half => ecdsa_der signature half | None => Ok signature end = Ok sig ↔
      match ecdsa_half alg with
      | Some half => String.length signature = (half * 2)%nat ∧ der_of (Str.take half signature) (Str.drop half signature) = Some sig
      | None => sig = signature
      end) as Hsig; [|naive_solver].
    intros sig. destruct (ecdsa_half alg) as [half|]; [|split; congruence].
    unfold ecdsa_der. by rewrite seq_ok, bail_if_ok, negb_false_iff, Nat.eqb_eq, ok_or_ok.
Qed.

(** A token, in parts: three segments without dots, whose header names an algorithm. *)
Definition token_parts (token : string) (h : Header) (signed payload : string) (signature : string) : Prop :=
  ∃ header sig bytes, token = header +:+ "." +:+ payload +:+ "." +:+ sig ∧ signed = header +:+ "." +:+ payload ∧
    free_of "." header ∧ free_of "." payload ∧ free_of "." sig ∧
    b64_decode header = Some bytes ∧ header_of bytes = Some h ∧ b64_decode sig = Some signature.

Lemma segments_ok token signed header payload sig :
  segments token = Ok (signed, header, payload, sig) ↔
  token = header +:+ "." +:+ payload +:+ "." +:+ sig ∧ signed = header +:+ "." +:+ payload ∧
  free_of "." header ∧ free_of "." payload ∧ free_of "." sig.
Proof.
  unfold segments. rewrite rbind_ok. setoid_rewrite ok_or_ok. split.
  - intros ([x y] & Hr & H). apply rbind_ok in H as ([u v] & Hs%ok_or_ok & H). apply seq_ok in H as [Hc%bail_if_ok%contains_free H].
    injection H as -> -> -> ->. apply rsplit_once_spec in Hr as [-> Hf]. apply split_once_spec in Hs as [-> Hu].
    split_and!; try done. by rewrite !Str.append_assoc.
  - intros (-> & -> & Hh & Hp & Hs). exists (header +:+ "." +:+ payload, sig). split.
    + apply rsplit_once_spec. split; [|done]. by rewrite !Str.append_assoc.
    + apply rbind_ok. exists (header, payload). split; [by apply ok_or_ok, split_once_spec|].
      apply seq_ok. split; [by apply bail_if_ok, contains_free|done].
Qed.

(** What makes a token one of this policy, under a key. *)
Definition authentic (spec : JwtSpec) (now : Z) (key : Key) (token : string) (c : Claims) : Prop :=
  ∃ h alg signed payload signature bytes, token_parts token h signed payload signature ∧
    alg_str alg = h_alg h ∧ alg_str alg ∈ algorithms spec ∧ signature_holds alg key signed signature ∧
    b64_decode payload = Some bytes ∧ claims_of bytes = Some c ∧ claims_hold spec now c.

Lemma accepted_ok (spec : JwtSpec) name alg : accepted spec name = Ok alg ↔ alg_str alg = name ∧ alg_str alg ∈ algorithms spec.
Proof.
  unfold accepted. rewrite ok_or_ok. assert (accepts_alg spec alg = true ↔ alg_str alg ∈ algorithms spec) as Ha.
  { unfold accepts_alg. rewrite existsb_exists. setoid_rewrite <- list_elem_of_In. setoid_rewrite String.eqb_eq. naive_solver. }
  destruct (alg_parse name) as [a|] eqn:E; cbn.
  - apply alg_parse_spec in E as ->. destruct (accepts_alg spec a) eqn:Ea.
    + split; [by intros [= ->]; split; [|apply Ha]|]. intros [E _]. f_equal. by apply alg_str_inj.
    + split; [done|]. intros [E Hin]. apply alg_str_inj in E as ->. apply Ha in Hin. congruence.
  - split; [done|]. intros [E' _]. assert (alg_parse name = Some alg) by (by apply alg_parse_spec). congruence.
Qed.

Lemma verify_with_ok spec now alg key signed payload sig c :
  verify_with spec now alg key signed payload sig = Ok c ↔
  ∃ signature bytes, b64_decode sig = Some signature ∧ signature_holds alg key signed signature ∧
    b64_decode payload = Some bytes ∧ claims_of bytes = Some c ∧ claims_hold spec now c.
Proof.
  unfold verify_with, decode. rewrite rbind_ok. setoid_rewrite ok_or_ok. split.
  - intros (signature & Hs & H). apply seq_ok in H as [Hv%verify_signature_ok H].
    apply rbind_ok in H as (bytes & Hb%ok_or_ok & H). apply rbind_ok in H as (c' & Hc%ok_or_ok & H).
    apply seq_ok in H as [Hh%check_claims_ok [= ->]]. by exists signature, bytes.
  - intros (signature & bytes & Hs & Hv & Hb & Hc & Hh). exists signature. split; [done|].
    apply seq_ok. split; [by apply verify_signature_ok|]. apply rbind_ok. exists bytes. split; [by apply ok_or_ok|].
    apply rbind_ok. exists c. split; [by apply ok_or_ok|]. apply seq_ok. split; [by apply check_claims_ok|done].
Qed.

Lemma verified_has_segments token spec key cache now answer c cache' :
  verify token spec key cache now answer = (Ok c, cache') →
  ∃ header payload sig, token = header +:+ "." +:+ payload +:+ "." +:+ sig ∧ free_of "." sig.
Proof.
  unfold verify. destruct (segments token) as [[[[signed header] payload] sig]|e] eqn:E; [|done]. intros _.
  apply segments_ok in E as (-> & _ & _ & _ & Hs). by exists header, payload, sig.
Qed.

(** A start time that is not a whole number is not a start time: the claims are judged as if the
    token named none, so one that is not valid yet is accepted. *)
Lemma fractional_nbf_is_ignored c (spec : JwtSpec) now f :
  LbSpec.require spec !! "nbf" = None →
  check_claims (<["nbf" := Num (FloatNum f)]> c) spec now = Ok tt ↔ check_claims (delete "nbf" c) spec now = Ok tt.
Proof.
  intros Hn. rewrite !check_claims_ok.
  assert (∀ k, k ≠ "nbf" → <["nbf" := Num (FloatNum f)]> c !! k = delete "nbf" c !! k) as Hk
    by (intros k Hk; by rewrite lookup_insert_ne, lookup_delete_ne by congruence).
  assert (∀ k, k ≠ "nbf" → claim_string (<["nbf" := Num (FloatNum f)]> c) k = claim_string (delete "nbf" c) k) as Hs
    by (intros k Hne; unfold claim_string; by rewrite Hk).
  assert (∀ e, for_audience (<["nbf" := Num (FloatNum f)]> c) e = for_audience (delete "nbf" c) e) as Ha
    by (intros e; unfold for_audience; by rewrite Hk).
  split; intros [H1 H2 H3 H4 H5]; split.
  all: try (first [setoid_rewrite <- Hk|setoid_rewrite Hk]; done).
  all: try (first [rewrite Hs|rewrite <- Hs]; done).
  all: try (intros a; first [rewrite Ha|rewrite <- Ha]; by auto).
  all: try (intros nbf Hx; first [by rewrite lookup_delete_eq in Hx|by rewrite lookup_insert_eq in Hx]).
  all: intros claim wanted Hr; destruct (H5 _ _ Hr) as (v & Hv & ?); exists v; split; [|done];
    first [rewrite Hk|rewrite <- Hk]; congruence.
Qed.

(** *** The cache of key sets over a run *)

(** What is asked of the cache: a URL, the name of a key, the time, and what a fetch would answer. *)
Record Ask : Type := { a_url : string; a_kid : option string; a_now : Z; a_answer : Fetched }.

Definition ask (c : Cache) (a : Ask) : Cache := snd (key_for c (a_url a) (a_kid a) (a_now a) (a_answer a)).
Definition fetches (c : Cache) (a : Ask) : bool := refetches (default no_keys (c !! a_url a)) (a_kid a) (a_now a).
(** When a URL is fetched over a run. *)
Fixpoint fetch_times (url : string) (c : Cache) (l : list Ask) : list Z :=
  match l with
  | [] => []
  | a :: l =>
    (if String.eqb (a_url a) url && fetches c a then [a_now a] else []) ++ fetch_times url (ask c a) l
  end.

Lemma key_for_other c u k now ans url : u ≠ url → snd (key_for c u k now ans) !! url = c !! url.
Proof.
  intros Hu. unfold key_for. destruct (refetches _ _ _); [destruct (fetch _ _)|]; cbn; by rewrite lookup_insert_ne.
Qed.

Lemma key_for_attempt c url k now ans :
  attempted_at <$> (snd (key_for c url k now ans) !! url) =
  Some (if refetches (default no_keys (c !! url)) k now then now else attempted_at (default no_keys (c !! url))).
Proof.
  unfold key_for. destruct (refetches _ _ _); [destruct (fetch _ _)|]; cbn; by rewrite lookup_insert_eq.
Qed.

Lemma fetch_times_late url c l t :
  attempted_at (default no_keys (c !! url)) = t → 0 <= t → Sorted.StronglySorted Z.le (a_now <$> l) → (∀ a, a ∈ l → t <= a_now a) →
  Sorted.StronglySorted (λ a b, a + JWKS_MIN_REFETCH <= b) (fetch_times url c l) ∧ ∀ t', t' ∈ fetch_times url c l → t + JWKS_MIN_REFETCH <= t'.
Proof.
  revert c t. induction l as [|a l IH]; intros c t Ht Ht0 Hs Hl; cbn [fetch_times]; [split; [constructor|by intros t' ?%not_elem_of_nil]|].
  cbn in Hs. apply Sorted.StronglySorted_inv in Hs as [Hs Ha]. rewrite Forall_fmap, Forall_forall in Ha.
  assert (t <= a_now a) as Hta by (apply Hl; by left).
  destruct (String.eqb_spec (a_url a) url) as [Hu|Hu]; cbn [andb].
  - unfold fetches. rewrite Hu. pose proof (key_for_attempt c url (a_kid a) (a_now a) (a_answer a)) as Hat.
    unfold ask. rewrite Hu. destruct (refetches (default no_keys (c !! url)) (a_kid a) (a_now a)) eqn:Er; cbn [app].
    + assert (t + JWKS_MIN_REFETCH <= a_now a) as Hm.
      { unfold refetches in Er. apply andb_true_iff in Er as [_ Er%Z.leb_le]. rewrite Ht in Er.
        unfold U64.saturating_sub, JWKS_MIN_REFETCH in *. lia. }
      destruct (IH (snd (key_for c url (a_kid a) (a_now a) (a_answer a))) (a_now a)) as [H1 H2]; [|lia|done|done|].
      { destruct (_ !! url) as [set|] in Hat |- *; [|done]. cbn in *. congruence. }
      split; [constructor; [done|by apply Forall_forall]|]. intros t' [->|Hin]%elem_of_cons; [done|].
      apply H2 in Hin. unfold JWKS_MIN_REFETCH in *. lia.
    + apply IH; [|done|done|intros x Hx; apply Hl; by right].
      destruct (_ !! url) as [set|] in Hat |- *; [|done]. cbn in *. congruence.
  - apply IH; [|done|done|intros x Hx; apply Hl; by right]. unfold ask. by rewrite key_for_other.
Qed.

(** C34. An issuer is not asked more than once a minute: over any run from an empty cache, on a clock
    that does not go back, whatever keys the tokens name and whatever the issuer answers, two
    fetches of one URL are at least a minute apart. *)
Theorem key_sets_are_fetched_once_a_minute url l :
  Sorted.StronglySorted Z.le (a_now <$> l) → (∀ a, a ∈ l → 0 <= a_now a) →
  Sorted.StronglySorted (λ a b, a + JWKS_MIN_REFETCH <= b) (fetch_times url ∅ l).
Proof.
  intros Hs Hl. destruct (fetch_times_late url ∅ l 0) as [H _]; [by rewrite lookup_empty|done..].
Qed.

(** What a run leaves of a key set came in one answer of its issuer. *)
Lemma key_set_published url l c set :
  c = foldl ask ∅ l → c !! url = Some set → keys set = [] ∨ ∃ a, a ∈ l ∧ a_url a = url ∧ fetch url (a_answer a) = Ok (keys set).
Proof.
  revert c set. induction l as [|a l IH] using rev_ind; intros c set ->; [cbn; by rewrite lookup_empty|].
  rewrite foldl_snoc. set (c0 := foldl ask ∅ l) in *. unfold ask. destruct (decide (a_url a = url)) as [Hu|Hu].
  - assert (∀ s, s = default no_keys (c0 !! url) → keys s = [] ∨ ∃ a, a ∈ l ∧ a_url a = url ∧ fetch url (a_answer a) = Ok (keys s)) as Hold.
    { intros s ->. destruct (c0 !! url) as [s|] eqn:Es; [by eapply IH|by left]. }
    rewrite Hu. unfold key_for. destruct (refetches _ _ _).
    + destruct (fetch url (a_answer a)) as [ks|] eqn:Ef; cbn; rewrite lookup_insert_eq; intros [= <-]; cbn [keys].
      * right. exists a. split; [apply elem_of_app; right; by left|done].
      * destruct (Hold _ eq_refl) as [?|(x & Hx & ?)]; [by left|right]. exists x. split; [apply elem_of_app; by left|done].
    + cbn. rewrite lookup_insert_eq. intros [= <-]. destruct (Hold _ eq_refl) as [?|(x & Hx & ?)]; [by left|right].
      exists x. split; [apply elem_of_app; by left|done].
  - rewrite key_for_other by done. intros Hs. destruct (IH _ _ eq_refl Hs) as [?|(x & Hx & ?)]; [by left|right].
    exists x. split; [apply elem_of_app; by left|done].
Qed.

Lemma key_for_found c url k now ans p c' :
  key_for c url k now ans = (Ok p, c') → ∃ set j, c' !! url = Some set ∧ pick (keys set) k = Some j ∧ to_public_key j = Ok p.
Proof.
  unfold key_for. destruct (refetches _ _ _); [destruct (fetch _ _) as [ks|]|]; intros H; injection H as H <-.
  - apply rbind_ok in H as (j & Hj%ok_or_ok & Hp). eexists _, j. by rewrite lookup_insert_eq.
  - case_bool_decide; [done|]. apply rbind_ok in H as (j & Hj%ok_or_ok & Hp). eexists _, j. by rewrite lookup_insert_eq.
  - apply rbind_ok in H as (j & Hj%ok_or_ok & Hp). eexists _, j. by rewrite lookup_insert_eq.
Qed.

(** A key that a run of the cache serves was published by the issuer: it is in a document that
    one of the fetches of this URL answered with, under the name the token gave or the only one
    of its document when the token gave none. *)
Theorem served_keys_are_published l url k now ans p c' :
  key_for (foldl ask ∅ l) url k now ans = (Ok p, c') →
  ∃ ks j answer, fetch url answer = Ok ks ∧ (answer = ans ∨ ∃ a, a ∈ l ∧ a_url a = url ∧ a_answer a = answer) ∧
    j ∈ ks ∧ to_public_key j = Ok p ∧ match k with Some k => kid j = Some k | None => ks = [j] end.
Proof.
  intros H. destruct (key_for_found _ _ _ _ _ _ _ H) as (set & j & Hset & Hj & Hp).
  assert (j ∈ keys set ∧ match k with Some k => kid j = Some k | None => keys set = [j] end) as [Hin Hk].
  { unfold pick in Hj. destruct k as [k|].
    - apply find_some in Hj as [Hin Hb%bool_decide_eq_true]. by rewrite list_elem_of_In.
    - destruct (keys set) as [|j' [|]]; try done. injection Hj as ->. split; [by left|done]. }
  destruct (key_set_published url (l ++ [{| a_url := url; a_kid := k; a_now := now; a_answer := ans |}]) c' set)
    as [He|(a & [Ha|Ha%list_elem_of_singleton]%elem_of_app & Hu & Hf)].
  - rewrite foldl_snoc. revert H. generalize (foldl ask ∅ l). intros c0 H. unfold ask. cbn [a_url a_kid a_now a_answer]. by rewrite H.
  - done.
  - rewrite He in Hin. by apply not_elem_of_nil in Hin.
  - exists (keys set), j, (a_answer a). split; [done|]. split; [right; by exists a|done].
  - subst a. exists (keys set), j, ans. split; [done|]. split; [by left|done].
Qed.
(** A document that an answer publishes. *)
Definition publishes (answer : Fetched) (ks : list Jwk) : Prop :=
  ∃ status body, answer = Answered true status body ∧ (String.length body ≤ JWKS_MAX_BYTES)%nat ∧ jwks_of body = Ok ks ∧ ks ≠ [].
(** The key that a token names in a document: the first of that name, or the only one. *)
Definition named (ks : list Jwk) (k : option string) (j : Jwk) : Prop :=
  match k with
  | Some k => ∃ l1 l2, ks = l1 ++ j :: l2 ∧ kid j = Some k ∧ ∀ x, x ∈ l1 → kid x ≠ Some k
  | None => ks = [j]
  end.
(** Where the key of a verification comes from, when the cache has been asked [l]: it is the gate's own;
    or the cache is asked once more, and the key is the one the header names in the document the cache
    then has of the issuer, which the issuer answered with to this question or to an earlier one. *)
Definition keyed (spec : JwtSpec) (key : option Key) (l : list Ask) (now : Z) (answer : Fetched) (h : Header) (k : Key) (c' : Cache) : Prop :=
  match key with
  | Some k0 => k = k0 ∧ c' = foldl ask ∅ l
  | None =>
    let a := {| a_url := default "" (jwks_url spec); a_kid := h_kid h; a_now := now; a_answer := answer |} in
    c' = ask (foldl ask ∅ l) a ∧
    ∃ set j p x, k = Public p ∧ c' !! a_url a = Some set ∧ x ∈ l ++ [a] ∧ a_url x = a_url a ∧ publishes (a_answer x) (keys set) ∧
      named (keys set) (h_kid h) j ∧ to_public_key j = Ok p
  end.

Lemma fetch_publishes url answer ks : fetch url answer = Ok ks ↔ publishes answer ks.
Proof.
  unfold fetch, publishes. destruct answer as [e|ok status body]; [split; [done|by intros (? & ? & [=] & _)]|].
  rewrite !seq_ok, !bail_if_ok, negb_false_iff. setoid_rewrite rbind_ok. setoid_rewrite seq_ok. setoid_rewrite bail_if_ok.
  rewrite Nat.ltb_ge. split.
  - intros (-> & Hl & ks' & Hk & Hne%bool_decide_eq_false & [= ->]). exists status, body.
    split_and!; [done|done| |done]. by destruct (jwks_of body); simplify_eq.
  - intros (st & b & [= -> -> ->] & Hl & Hk & Hne). split_and!; [done|done|]. exists ks. rewrite Hk.
    split_and!; [done|by apply bool_decide_eq_false|done].
Qed.
Lemma pick_named ks k j : pick ks k = Some j ↔ named ks k j.
Proof.
  unfold pick, named. destruct k as [k|]; [|by destruct ks as [|x [|]]; split; congruence].
  induction ks as [|x ks IH]; cbn [List.find]; [split; [done|by intros ([|] & ? & ? & _)]|].
  case_bool_decide as Hx.
  - split; [intros [= <-]; exists [], ks; split_and!; [done|done|by intros ? ?%not_elem_of_nil]|].
    intros ([|y l1] & l2 & E & Hj & Hn); injection E as -> ->; [done|]. destruct (Hn y); [by left|done].
  - rewrite IH. split.
    + intros (l1 & l2 & -> & Hj & Hn). exists (x :: l1), l2. split_and!; [done|done|]. by intros y [->|Hy]%elem_of_cons; [|apply Hn].
    + intros ([|y l1] & l2 & E & Hj & Hn); injection E as -> ->; [done|]. exists l1, l2. split_and!; [done|done|].
      intros y' Hy. apply Hn. by right.
Qed.
Lemma key_for_keyed (spec : JwtSpec) l now answer h p c' :
  key_for (foldl ask ∅ l) (default "" (jwks_url spec)) (h_kid h) now answer = (Ok p, c') ↔ keyed spec None l now answer h (Public p) c'.
Proof.
  set (url := default "" (jwks_url spec)). set (a := {| a_url := url; a_kid := h_kid h; a_now := now; a_answer := answer |}).
  assert (ask (foldl ask ∅ l) a = foldl ask ∅ (l ++ [a])) as Ha by by rewrite foldl_snoc.
  split.
  - intros H. assert (c' = ask (foldl ask ∅ l) a) as Hc by (change (c' = snd (key_for (foldl ask ∅ l) url (h_kid h) now answer)); by rewrite H). split; [done|].
    destruct (key_for_found _ _ _ _ _ _ _ H) as (set & j & Hset & Hj & Hp).
    destruct (key_set_published url (l ++ [a]) c' set) as [He|(x & Hx & Hu & Hf)]; [congruence|done| |].
    { rewrite He in Hj. by destruct (h_kid h). }
    exists set, j, p, x. apply fetch_publishes in Hf. apply pick_named in Hj. by split_and!.
  - intros (Hc & set & j & p' & x & [= <-] & Hset & _ & _ & _ & Hj%pick_named & Hp). fold url in Hc, Hset. fold a in Hc, Hset. cbn [a_url] in Hset.
    change (ask (foldl ask ∅ l) a) with (snd (key_for (foldl ask ∅ l) url (h_kid h) now answer)) in Hc. subst c'.
    revert Hset. fold url. generalize (foldl ask ∅ l). intros c0. unfold key_for.
    destruct (refetches _ _ _); [destruct (fetch _ _) as [ks|e]|]; cbn [snd]; rewrite lookup_insert_eq; intros [= <-];
      cbn [keys] in *; rewrite ?Hj; cbn [ok_or rbind]; rewrite ?Hp; try done.
    case_bool_decide as He; [|done]. rewrite He in Hj. by destruct (h_kid h).
Qed.

(** C9. A token is accepted exactly when it is authentic: three segments, whose header names an
    algorithm that the policy lists, signed over the bytes as they arrived by the gate's own key or
    by the key of the header's name in the document that the issuer has published, of the family of the
    algorithm, with claims that are not expired, not before a start that is a whole number, of the
    issuer, the audience and every requirement.  In particular no token says how it is to be
    verified: an unsigned one, or one signed with a public key as if it were a secret, is never
    accepted.  The cache of key sets is as any questions before have left it. *)
Theorem accepted_tokens_are_authentic token spec key l now answer c cache' :
  verify token spec key (foldl ask ∅ l) now answer = (Ok c, cache') ↔
  ∃ h k signed payload signature bytes alg,
    token_parts token h signed payload signature ∧ keyed spec key l now answer h k cache' ∧
    alg_str alg = h_alg h ∧ alg_str alg ∈ algorithms spec ∧ signature_holds alg k signed signature ∧
    b64_decode payload = Some bytes ∧ claims_of bytes = Some c ∧ claims_hold spec now c.
Proof.
  unfold verify, decode. split.
  - destruct (rbind (segments token) _) as [[[[[h alg] signed] payload] sig]|e] eqn:E; [|done].
    apply rbind_ok in E as ([[[signed' header] payload'] sig'] & Hseg%segments_ok & E).
    apply rbind_ok in E as (bytes & Hb%ok_or_ok & E). apply rbind_ok in E as (h' & Hh%ok_or_ok & E).
    apply rbind_ok in E as (alg' & Ha%accepted_ok & [= -> -> -> -> ->]). destruct Ha as [Ha Hin].
    intros H. assert (∃ k, keyed spec key l now answer h k cache' ∧ verify_with spec now alg k signed payload sig = Ok c)
      as (k & Hk & (signature & bytes' & H1 & H2 & H3 & H4 & H5)%verify_with_ok).
    { destruct key as [k|]; [injection H as H <-; by exists k|].
      destruct (key_for _ _ _ _ _) as [[p|] ?] eqn:Ek; [|done]. injection H as H <-. exists (Public p). split; [by apply key_for_keyed|done]. }
    exists h, k, signed, payload, signature, bytes', alg. split_and!; try done. destruct Hseg as (-> & -> & ? & ? & ?).
    exists header, sig, bytes. by split_and!.
  - intros (h & k & signed & payload & signature & bytes & alg & (header & sig & hb & -> & -> & F1 & F2 & F3 & Hb & Hh & Hs) &
      Hk & Ha & Hin & Hsig & Hp & Hc & Hcl).
    assert (segments (header +:+ "." +:+ payload +:+ "." +:+ sig) = Ok (header +:+ "." +:+ payload, header, payload, sig)) as ->
      by (by apply segments_ok).
    cbn [rbind]. rewrite Hb. cbn [ok_or rbind]. rewrite Hh. cbn [ok_or rbind].
    assert (accepted spec (h_alg h) = Ok alg) as -> by (by apply accepted_ok). cbn [rbind].
    assert (verify_with spec now alg k (header +:+ "." +:+ payload) payload sig = Ok c) as Hv
      by (apply verify_with_ok; by exists signature, bytes).
    destruct key as [k0|]; [destruct Hk as [-> ->]; by rewrite Hv|].
    assert (∃ p, k = Public p) as (p & ->) by (destruct Hk as (_ & ? & ? & p & ? & -> & _); by exists p).
    apply key_for_keyed in Hk as ->. by rewrite Hv.
Qed.
End jwt.

(** ** A concrete issuer: its arguments, and runs *)

Module Demo.
Definition float_eqb (a b : unit) : bool := true.
Lemma float_sym f g : float_eqb f g = float_eqb g f.
Proof. done. Qed.
Definition show_number (n : Number unit) : string := "7".
Definition show_nat (n : nat) : string := "9".
Definition debug (s : string) : string := s.
Definition b64 (s : string) : option string := Some s.
Definition header_of (s : string) : option Header :=
  if String.eqb s "rs1" then Some {| h_alg := "RS256"; h_kid := Some "one" |}
  else if String.eqb s "hs1" then Some {| h_alg := "HS256"; h_kid := Some "one" |} else None.
Definition claims_of (s : string) : option (gmap string (Value unit)) :=
  if String.eqb s "ada" then
    Some (<["exp" := Num (PosInt 2000)]> (<["iss" := Text "issuer"]> {["role" := Array [Text "dev"; Text "admin"]]}))
  else None.
Definition key_one : Jwk :=
  {| kid := Some "one"; kty := "RSA"; jwk_n := Some "77"; jwk_e := Some "3"; crv := None; jwk_x := None; jwk_y := None |}.
Definition jwks_of (s : string) : result string (list Jwk) := if String.eqb s "set" then Ok [key_one] else Err "eof".
(** A MAC and a signature are the key and the start of the text. *)
Definition hmac_sign (h : Hash) (k s : string) : result string (option string) := Ok (Some (k +:+ Str.take 3 s)).
Definition der_of (r s : string) : option string := Some (r +:+ s).
Definition check_signature (k : string) (h : Hash) (pss : bool) (signed sig : string) : result string bool :=
  Ok (String.eqb sig (k +:+ Str.take 3 signed)).
Definition rsa_key (n e : string) : result string string := Ok n.
Definition ec_key (c : Curve) (x y : string) : result string string := Err "no curves".
Definition number_of (s : string) : result string string := Ok s.

Definition spec : LbSpec.JwtSpec (Value unit) :=
  {| js_secret := None; public_key := None; jwks_url := Some "https://issuer"; algorithms := ["RS256"]; issuer := "issuer";
     audience := None; require := {["role" := Text "admin"]}; subject_claim := "sub"; email_claim := "email";
     name_claim := "name"; leeway_secs := None; cookie := None; login_endpoint := None; login_url := None;
     login_redirect_param := None |}.
Definition published : Fetched := Answered true "200" "set".
Definition verify_at := verify float_eqb show_number show_nat debug b64 header_of claims_of jwks_of
  hmac_sign der_of check_signature rsa_key ec_key number_of.
Definition key_at := key_for show_nat debug b64 jwks_of rsa_key ec_key number_of.

(** A token of the issuer is accepted; the same claims under a MAC made with its public key are not,
    nor is a token whose signature is of other bytes. *)
Example only_the_issuers_signature :
  is_ok (fst (verify_at "rs1.ada.77rs1" spec None ∅ 1000 published)) = true ∧
  is_ok (fst (verify_at "hs1.ada.77hs1" spec None ∅ 1000 published)) = false ∧
  is_ok (fst (verify_at "rs1.ada.77rs2" spec None ∅ 1000 published)) = false ∧
  is_ok (fst (verify_at "rs1.ada.77rs1" spec None ∅ 2000 published)) = false.
Proof. by vm_compute. Qed.

Local Abbreviation claims := (default ∅ (claims_of "ada")).
Local Abbreviation cache := {["https://issuer" := {| keys := [key_one]; fetched_at := 1000; attempted_at := 1000 |}]}.

Lemma accepted_tokens_are_authentic_witness :
  ∃ h k signed payload signature bytes alg,
    token_parts b64 header_of "rs1.ada.77rs1" h signed payload signature ∧
    keyed show_nat debug b64 jwks_of rsa_key ec_key number_of spec None [] 1000 published h k cache ∧
    alg_str alg = h_alg h ∧ alg_str alg ∈ algorithms spec ∧
    signature_holds hmac_sign der_of check_signature alg k signed signature ∧
    b64 payload = Some bytes ∧ claims_of bytes = Some claims ∧ claims_hold float_eqb show_number spec 1000 claims.
Proof.
  apply (accepted_tokens_are_authentic float_eqb show_number show_nat debug b64 header_of claims_of jwks_of
    hmac_sign der_of check_signature rsa_key ec_key number_of float_sym "rs1.ada.77rs1" spec None [] 1000 published).
  vm_compute. reflexivity.
Defined.

(** Three tokens of names nobody has published, within a minute and after: two fetches. *)
Definition probes : list Ask :=
  [ {| a_url := "u"; a_kid := Some "x"; a_now := 1000; a_answer := Unreachable "down" |};
    {| a_url := "u"; a_kid := Some "y"; a_now := 1059; a_answer := published |};
    {| a_url := "u"; a_kid := Some "z"; a_now := 1060; a_answer := published |} ].

Lemma key_sets_are_fetched_once_a_minute_witness :
  fetch_times show_nat debug b64 jwks_of rsa_key ec_key number_of "u" ∅ probes = [1000; 1060] ∧
  Sorted.StronglySorted (λ a b, a + JWKS_MIN_REFETCH <= b)
    (fetch_times show_nat debug b64 jwks_of rsa_key ec_key number_of "u" ∅ probes).
Proof.
  split; [by vm_compute|]. apply key_sets_are_fetched_once_a_minute.
  - cbn. repeat constructor; lia.
  - intros a [->|[->|[->|[]%not_elem_of_nil]%elem_of_cons]%elem_of_cons]%elem_of_cons; cbn; lia.
Defined.

Lemma served_keys_are_published_witness : ∃ ks j answer, fetch show_nat jwks_of "u" answer = Ok ks ∧
  (answer = Unreachable "down" ∨ ∃ a, a ∈ probes ∧ a_url a = "u" ∧ a_answer a = answer) ∧
  j ∈ ks ∧ to_public_key debug b64 rsa_key ec_key number_of j = Ok "77" ∧ kid j = Some "one".
Proof.
  apply (served_keys_are_published show_nat debug b64 jwks_of rsa_key ec_key number_of probes "u" (Some "one") 1070 (Unreachable "down")
    "77" {["u" := {| keys := [key_one]; fetched_at := 1060; attempted_at := 1060 |}]}).
  vm_compute. reflexivity.
Defined.
End Demo.
