(* ===== verification/LbSignin.v ===== *)
(** * The sign-in gate at work: [app-lb/src/auth.rs] and [app-lb/src/auth/heyo_login.rs]

    What the gate of a deployment decides about a request, the two cookies it signs, the sign-in
    round trip with the provider, the form in front of an issuer's login API, and signing out.
    A request is one step; the clock is read before and after the calls it waits for.  OpenSSL,
    base64, serde_json, the URL and form parsers and the HTTP calls are arguments. *)
From Stdlib Require Import Ascii String ZArith Lia Bool.
From stdpp Require Import base option list strings gmap fin_maps sets.
From S2P Require Import Prelude LbGuard LbTokens LbPool LbRegional LbSpec LbGate LbJwt.
Open Scope string_scope.
Open Scope list_scope.
Local Open Scope Z_scope.

(** ** Data *)

Definition GOOGLE_AUTHORIZE : string := "https://accounts.google.com/o/oauth2/v2/auth".
Definition GOOGLE_TOKEN : string := "https://oauth2.googleapis.com/token".
Definition GOOGLE_ISSUERS : list string := ["accounts.google.com"; "https://accounts.google.com"].
Definition FLOW_TTL : Z := 600.
Definition FLOW_COOKIE : string := "applb_auth_flow".
Definition IDENTITY_HEADERS : list string := ["x-auth-request-email"; "x-auth-request-user"; "x-auth-request-name"].

Record Identity : Type := {
  subject : string; email : string; name : option string; hosted_domain : option string; session_token : option string;
}.

(** [RequestInfo]. *)
Record RequestInfo : Type := {
  host : string; path : string; query : option string; cookies : list string; secure : bool; wants_html : bool;
  fronts_admin : bool; bearer : option string; client : option IpAddr;
}.

(** [Flow]. *)
Record Flow : Type := { nonce : string; return_to : string; verifier : string; fl_deployment : string; fl_exp : Z }.

(** [Session]. *)
Record Session : Type := {
  ss_subject : string; ss_email : string; ss_name : option string; ss_hosted_domain : option string;
  ss_deployment : string; ss_policy : string; ss_exp : Z; ss_token : option string; ss_token_id : option string;
}.

(** [BoolLike] and [IdClaims]. *)
Inductive BoolLike : Type := IsBool (b : bool) | IsStr (s : string) | Missing.
Definition is_true (b : BoolLike) : bool :=
  match b with IsBool b => b | IsStr s => Str.eq_ignore_ascii_case s "true" | Missing => false end.
Record IdClaims : Type := {
  iss : option string; aud : option string; sub : option string; id_email : option string;
  email_verified : BoolLike; hd : option string; id_name : option string; id_exp : option Z;
}.

(** A [Set-Cookie] value: what [set_cookie] and [clear_cookie] are given. *)
Record Cookie : Type := {
  ck_name : string; ck_value : string; ck_secure : bool; ck_max_age : option Z; ck_domain : option string; ck_clears : bool;
}.
Definition set_cookie (n value : string) (sec : bool) (max_age : option Z) (domain : option string) : Cookie :=
  {| ck_name := n; ck_value := value; ck_secure := sec; ck_max_age := max_age; ck_domain := domain; ck_clears := false |}.
Definition clear_cookie (n : string) (sec : bool) (domain : option string) : Cookie :=
  {| ck_name := n; ck_value := ""; ck_secure := sec; ck_max_age := Some 0; ck_domain := domain; ck_clears := true |}.

(** What a response says: a sentence, or one of the JSON bodies and the page by their parts. *)
Inductive Why : Type := NeedsTier (has wants : AdminScope) | NotAdmitted (deployment : string).
Inductive Body : Type :=
| Plain (s : string)
| SigninRequired (login_url : string)
| CredentialRequired (accepts detail : list string)
| InsufficientScope (t : LbTokens.AppToken) (deployment namespace : string)
| ScopedRefusal (why : Why) (wants : AdminScope)
| ScopedRequired (wants : AdminScope)
| LoginPage (issuer action nonce return_to : string).

Record Response : Type := { status : Z; body : Body; location : option string; set_cookies : list Cookie }.
Definition redirect (l : string) (cs : list Cookie) : Response :=
  {| status := 302; body := Plain ""; location := Some l; set_cookies := cs |}.
Definition reply (s : Z) (b : Body) : Response := {| status := s; body := b; location := None; set_cookies := [] |}.
Definition text (s : Z) (m : string) : Response := reply s (Plain (m +:+ String "010" "")).

(** [Decision]. *)
Inductive Decision : Type := Allow (who : option Identity) | Answered (r : Response).

(** The observations the gate makes: [siem::AuthAction], [AuthObs]. *)
Inductive AuthAction : Type := GateToken | GateJwt | SigninState | SigninExchange | SigninToken | SigninRefused.
Record AuthObs : Type := {
  ao_deployment : string; ao_path : string; ao_action : AuthAction; ao_bearer : bool; ao_subject : option string;
  ao_client : option IpAddr;
}.

(** [Authenticator], less the stores: the signing key, whether refusals are queued, and the address
    of the admin listener. *)
Record Authenticator : Type := { signing_key : string; security : bool; admin_addr : option string }.

(** ** Small helpers *)

(** [str::replace] of one character. *)
Fixpoint replace (c : ascii) (by_ : string) (s : string) : string :=
  match s with "" => "" | String b s => if Ascii.eqb b c then by_ +:+ replace c by_ s else String b (replace c by_ s) end.
(** [escape]. *)
Definition escape (s : string) : string :=
  replace "'" "&#39;" (replace "034" "&quot;" (replace ">" "&gt;" (replace "<" "&lt;" (replace "&" "&amp;" s)))).

(** [origin]. *)
Definition origin (req : RequestInfo) : string := (if secure req then "https" else "http") +:+ "://" +:+ host req.

(** [safe_return_path]. *)
Definition safe_path (p : string) : bool :=
  Str.starts_with "/" p && negb (Str.starts_with "//" p) && negb (Str.starts_with "/\" p)
  && negb (existsb is_control (Chars.chars p)) && (String.length p <=? 2048)%nat.
Definition safe_return_path (p : string) : string := if safe_path p then p else "/".

(** One [name=value] of a [Cookie] header. *)
Definition cookie_pair (pair : string) : option (string * string) :=
  '(k, v) ← Chars.split_once "=" (Chars.trim pair); Some (Chars.trim k, Chars.trim v).
(** [cookie_values]. *)
Definition cookie_values (headers : list string) (n : string) : list string :=
  omap (λ pair, '(k, v) ← cookie_pair pair; if String.eqb k n then Some v else None)
    (mjoin (Str.split ";" <$> headers)).

(** [header_safe]. *)
Definition header_safe (value : string) : string :=
  Chars.concat (take 256 (List.filter (λ ch, match ch with String c "" => Str.in_range 32 126 c | _ => false end) (Chars.chars value))).

(** [RequestInfo]'s return target: the path and the query. *)
Definition return_target (req : RequestInfo) : string :=
  match query req with
  | Some q => if String.eqb q "" then path req else path req +:+ "?" +:+ q
  | None => path req
  end.

(** *** Actions: what a handler reads and changes besides its answer *)

(** The stores a request meets: the tokens, the issuers' key sets, and the secrets. *)
Record World : Type := { tokens : option LbTokens.World; jwks : gmap string KeySet; secrets : SecretStore }.
Definition with_tokens (w : World) (t : LbTokens.World) : World := {| tokens := Some t; jwks := jwks w; secrets := secrets w |}.
Definition with_jwks (w : World) (c : gmap string KeySet) : World := {| tokens := tokens w; jwks := c; secrets := secrets w |}.

(** An action: a step on the world that may queue observations. *)
Definition Act (A : Type) : Type := World → A * (list AuthObs * World).
Definition ret {A} (a : A) : Act A := λ w, (a, ([], w)).
Definition bind {A B} (m : Act A) (k : A → Act B) : Act B :=
  λ w, let '(a, (o, w)) := m w in let '(b, (o', w)) := k a w in (b, (o ++ o', w)).
Declare Scope act_scope.
Delimit Scope act_scope with act.
Notation "x <-! m ;; k" := (bind m (λ x, k)) (at level 100, m at next level, right associativity) : act_scope.
Notation "m ;;! k" := (bind m (λ _, k)) (at level 100, right associativity) : act_scope.
Local Open Scope act_scope.

(** How the token endpoint answers a form, and how the login API answers an address and a password. *)
Inductive Exchanged : Type := NoAnswer (e : string) | Unread (e : string) | Replied (success : bool) (status body : string).
Inductive LoginAnswer : Type := LoginUnavailable | LoginRefused | LoginBody (chunks : list string) (ended : bool).

(** What a request meets from outside: the clock before and after it waits, the answers of the
    calls it makes, its random draws, and how the writes of the token file end. *)
Record Env : Type := {
  now : Z; later : Z;
  jwks_answer : Fetched;
  exchanged : list (string * string) → Exchanged;
  login_answer : string → string → string → LoginAnswer;
  nonce_draw : string; verifier_draw : string;
  token_draw : LbTokens.Entropy;
  faults : nat → LbTokens.Faults;
}.

(** What the gate uses of the verification of JWTs. *)
Class Verifier {Json Claims PKey : Type} : Type := {
  jv_verify : string → LbSpec.JwtSpec Json → option (@Key PKey) → gmap string KeySet → Z → Fetched →
    result JwtError Claims * gmap string KeySet;
  jv_claim : Claims → string → option string;
  jv_public_key : string → result string PKey;
}.
Arguments Verifier : clear implicits.
(** What it promises: an accepted token has dots in it, between texts without any. *)
Class VerifierLaws {Json Claims PKey} (V : Verifier Json Claims PKey) : Prop :=
  jv_shape t spec k c n a cl c' : jv_verify t spec k c n a = (Ok cl, c') →
    ∃ h p s, t = h +:+ "." +:+ p +:+ "." +:+ s ∧ free_of "." s.

(** [URL_SAFE_NO_PAD]. *)
Class Base64 : Type := { b64 : string → string; unb64 : string → option string }.
Definition url_safe (c : ascii) : bool := Str.is_ascii_alphanumeric c || Ascii.eqb c "-" || Ascii.eqb c "_".
Class Base64Laws (B : Base64) : Prop := {
  unb64_b64 x : unb64 (b64 x) = Some x;
  unb64_alphabet s x : unb64 s = Some x → Str.all url_safe s = true;
}.

(** serde_json on the two cookies.  An object with the fields of one lacks fields of the other. *)
Class CookieCodec : Type := {
  flow_encode : Flow → string; flow_decode : string → option Flow;
  session_encode : Session → string; session_decode : string → option Session;
}.
Class CookieCodecLaws (C : CookieCodec) : Prop := {
  flow_decode_encode f : U64.in_range (fl_exp f) → flow_decode (flow_encode f) = Some f;
  session_decode_encode s : U64.in_range (ss_exp s) → session_decode (session_encode s) = Some s;
  flow_of_session s : flow_decode (session_encode s) = None;
  session_of_flow f : session_decode (flow_encode f) = None;
}.

Section signin.
Context {Json Claims PKey : Type} {V : Verifier Json Claims PKey} {B : Base64} {C : CookieCodec}.
Local Abbreviation JwtSpec := (LbSpec.JwtSpec Json).
Local Abbreviation AuthGate := (LbSpec.AuthGate Json).
(** How JSON and numbers are printed, [{:?}] of a text, SHA-256 and HMAC, the base64 and the file of
    the token store, and serde_json on the provider's answers. *)
Context (show_json : Json → string) (show_Z : Z → string) (debug : string → string)
  (sha256 : string → list N) (hmac : string → string → string)
  (url_safe_no_pad : list N → string) (encode : TokenFile → result string string)
  (token_response_of : string → result string (option string)) (claims_of : string → result string IdClaims).
(** [form_urlencoded], the URL parser, an address's [FromStr]; what the login API's answer holds. *)
Context (form_encode : list (string * string) → string) (form_parse : string → list (string * string))
  (url_host : string → option string) {Origin : Type} `{!EqDecision Origin} (url_origin : string → option Origin)
  (ip_parse : string → option IpAddr).
Context (au : Authenticator).

(** [set_cookie] and [clear_cookie], as the header has it. *)
Definition cookie_text (c : Cookie) : string :=
  let domain := match ck_domain c with Some d => "; Domain=" +:+ d | None => "" end in
  let sec := if ck_secure c then "; Secure" else "" in
  let age := match ck_max_age c with Some n => "; Max-Age=" +:+ show_Z n | None => "" end in
  ck_name c +:+ "=" +:+ ck_value c +:+ "; Path=/; HttpOnly; SameSite=Lax"
  +:+ (if ck_clears c then age +:+ domain +:+ sec else domain +:+ sec +:+ age).

(** [query_pairs], and [get] on what it gives. *)
Definition query_pairs (q : option string) : list (string * string) := form_parse (default "" q).
Definition get_pair (k : string) (l : list (string * string)) : option string :=
  snd <$> List.find (λ p, String.eqb (fst p) k) l.

(** [observe_auth]. *)
Definition observe_auth (dep : string) (req : RequestInfo) (action : AuthAction) (subj : option string) : Act unit := λ w,
  (tt, (if security au then
          [{| ao_deployment := dep; ao_path := path req; ao_action := action; ao_bearer := is_some (bearer req);
              ao_subject := subj; ao_client := client req |}]
        else [], w)).

(** *** Signing *)

(** [sign]. *)
Definition sign (payload : string) : string :=
  let encoded := b64 payload in encoded +:+ "." +:+ b64 (hmac (signing_key au) encoded).
(** [verify]. *)
Definition verify (token : string) : option string :=
  '(encoded, mac) ← Chars.rsplit_once "." token;
  presented ← unb64 mac;
  if negb (ct_eq presented (hmac (signing_key au) encoded)) then None else unb64 encoded.

(** [random_token] on the 24 bytes drawn, and [pkce_challenge]. *)
Definition random_token (draw : string) : string := b64 draw.
Definition pkce_challenge (v : string) : string := b64 (Chars.bytes (sha256 v)).

(** *** The key *)

(** How a read ends. *)
Inductive ReadKey : Type := HasBytes (s : string) | NoFile | ReadFails (e : string).
(** [create_dir_private], then the key through a file that is private before it holds anything. *)
Definition write_key (key : string) (fs : Faults) (d : Disk) : result string unit * Disk :=
  match mkdir fs with
  | Fails e _ => (Err e, d)
  | Fine =>
    match create fs with
    | Fails e _ => (Err e, d)
    | Fine =>
      match chmod fs with
      | Fails e _ => (Err e, {| main := main d; tmp := Some ("", match tmp d with Some (_, r) => r | None => false end) |})
      | Fine =>
        match write fs with
        | Fails e k => (Err e, {| main := main d; tmp := Some (Str.take k key, true) |})
        | Fine =>
          match rename fs with
          | Fails e _ => (Err e, {| main := main d; tmp := Some (key, true) |})
          | Fine => (Ok tt, {| main := Some key; tmp := None |})
          end
        end
      end
    end
  end.
(** [load_key]; [drawn] is what the generator gives for 32 bytes. *)
Definition load_key (unreadable : option string) (drawn : result string string) (fs : Faults) (d : Disk) : result string string * Disk :=
  match (match unreadable with Some e => ReadFails e | None => match main d with Some s => HasBytes s | None => NoFile end end) with
  | HasBytes s => (if (32 <=? String.length s)%nat then Ok s else Err "is too short to be a signing key", d)
  | ReadFails e => (Err e, d)
  | NoFile =>
    match drawn with
    | Err e => (Err ("no entropy for a signing key: " +:+ e), d)
    | Ok key => let '(r, d) := write_key key fs d in (match r with Ok _ => Ok key | Err e => Err e end, d)
    end
  end.

(** *** The listener *)

Definition split_listener (s : string) : option (string * string) :=
  '(h, port) ← Chars.rsplit_once ":" (Chars.trim s);
  Some (Str.to_ascii_lowercase (trim_end_matches "]" (Str.trim_start_matches "[" (Chars.trim h))), Chars.trim port).
Definition is_loopback (ip : IpAddr) : bool :=
  match ip with V4 o => bool_decide (o !! 0%nat = Some 127) | V6 o => bool_decide (o = replicate 15 0 ++ [1]) end.
Definition loopback_name (h : string) : bool :=
  String.eqb h "localhost" || match ip_parse h with Some ip => is_loopback ip | None => false end.
(** [same_listener]. *)
Definition same_listener (admin upstream : string) : bool :=
  match split_listener admin, split_listener upstream with
  | Some (ah, ap), Some (uh, up) =>
    if negb (String.eqb ap up) then false
    else if existsb (String.eqb ah) ["0.0.0.0"; "::"; "*"; ""] then true
    else if String.eqb ah uh then true
    else if loopback_name ah && loopback_name uh then true
    else match ip_parse ah, ip_parse uh with Some x, Some y => bool_decide (x = y) | _, _ => false end
  | _, _ => false
  end.
(** [fronts_admin_api], on the upstreams of a spec. *)
Definition fronts_admin_api (upstreams : list string) : bool :=
  match admin_addr au with Some addr => existsb (same_listener addr) upstreams | None => false end.

(** *** The form in front of a login API *)

(** The flow a browser already has for a form, or none. *)
Definition verified_flows (req : RequestInfo) : list Flow :=
  omap (λ raw, bytes ← verify raw; flow_decode bytes) (cookie_values (cookies req) FLOW_COOKIE).
Definition open_form (t : Z) (dep : string) (f : Flow) : bool :=
  (t <? fl_exp f) && String.eqb (fl_deployment f) dep && String.eqb (verifier f) "".

(** [heyo_login_page]. *)
Definition heyo_login_page (e : Env) (t : Z) (gate : AuthGate) (dep : string) (req : RequestInfo) (target : string) : Response :=
  if negb (secure req) then text 403 "Browser sign-in requires HTTPS."
  else
    let n := match List.find (open_form t dep) (verified_flows req) with
             | Some f => nonce f | None => random_token (nonce_draw e) end in
    let flow := {| nonce := n; return_to := safe_return_path target; verifier := ""; fl_deployment := dep;
                   fl_exp := U64.wrapping_add t FLOW_TTL |} in
    let endpoint := default "" (p ← jwt_policy gate; login_endpoint p) in
    let issuer := default "" (url_host endpoint) in
    {| status := 200; body := LoginPage (escape issuer) (escape (login_path gate)) (escape (nonce flow)) (escape (return_to flow));
       location := None;
       set_cookies := [set_cookie FLOW_COOKIE (sign (flow_encode flow)) true (Some FLOW_TTL) None] |}.

(** *** Beginning a sign-in *)

(** [redirect_uri]. *)
Definition redirect_uri (gate : AuthGate) (req : RequestInfo) : string :=
  match redirect_url gate with Some u => u | None => origin req +:+ callback_path gate end.

(** The refusal of a gate with no sign-in to begin. *)
Definition no_signin (gate : AuthGate) (req : RequestInfo) (target : string) : Response :=
  match (if wants_html req then p ← jwt_policy gate; u ← login_url p; Some (p, u) else None) with
  | Some (p, u) =>
    let return_uri := origin req +:+ safe_return_path target in
    let sep := if Str.contains "?" u then "&" else "?" in
    redirect (u +:+ sep +:+ form_encode [(default "redirect_uri" (login_redirect_param p), return_uri)]) []
  | None =>
    reply 401 (CredentialRequired
      ((if accepts_app_token gate then ["app-token"] else []) ++ (if accepts_jwt gate then ["jwt"] else []))
      ((if accepts_app_token gate then ["an app-token as `Authorization: Bearer applb_…`"] else [])
       ++ (if accepts_jwt gate then ["a JWT from this deployment's issuer as `Authorization: Bearer …`"] else [])))
  end.

(** [start]. *)
Definition start (e : Env) (t : Z) (gate : AuthGate) (dep : string) (req : RequestInfo) (target : string) : Response :=
  if wants_html req && match jwt_policy gate with Some p => is_some (login_endpoint p) | None => false end then
    heyo_login_page e t gate dep req target
  else
    match google_credentials gate with
    | None => no_signin gate req target
    | Some (cid, _) =>
      if negb (wants_html req) then reply 401 (SigninRequired (origin req +:+ login_path gate))
      else
        let flow := {| nonce := random_token (nonce_draw e); return_to := safe_return_path target;
                       verifier := random_token (verifier_draw e); fl_deployment := dep;
                       fl_exp := U64.wrapping_add t FLOW_TTL |} in
        let url := GOOGLE_AUTHORIZE +:+ "?" +:+ form_encode
          [("client_id", cid); ("redirect_uri", redirect_uri gate req); ("response_type", "code");
           ("scope", "openid email profile"); ("state", nonce flow); ("code_challenge", pkce_challenge (verifier flow));
           ("code_challenge_method", "S256"); ("prompt", "select_account")] in
        redirect url [set_cookie FLOW_COOKIE (sign (flow_encode flow)) (secure req) (Some FLOW_TTL) None]
    end.

(** *** The provider's answer *)

(** [decode_id_token]. *)
Definition decode_id_token (token : string) : result string IdClaims :=
  match Str.split "." token with
  | _ :: payload :: _ =>
    bytes <-? ok_or (unb64 payload) "id_token payload is not base64url" ;;
    match claims_of bytes with Ok c => Ok c | Err e => Err ("id_token payload is not JSON: " +:+ e) end
  | _ => Err "id_token has no payload"
  end.

(** [exchange]: the form that is posted, and what is made of the answer. *)
Definition exchange_form (cid csecret code v uri : string) : list (string * string) :=
  [("code", code); ("client_id", cid); ("client_secret", csecret); ("redirect_uri", uri);
   ("grant_type", "authorization_code"); ("code_verifier", v)].
Definition exchange (e : Env) (cid csecret code v uri : string) : result string IdClaims :=
  match exchanged e (exchange_form cid csecret code v uri) with
  | NoAnswer x => Err ("could not reach the token endpoint: " +:+ x)
  | Unread x => Err ("could not read the token response: " +:+ x)
  | Replied success st b =>
    if negb success then
      Err ("the provider rejected the exchange (HTTP " +:+ st +:+ "): " +:+ Chars.concat (take 300 (Chars.chars b)))
    else
      match token_response_of b with
      | Err x => Err ("token response was not JSON: " +:+ x)
      | Ok idt => t <-? ok_or idt "the token response carried no id_token" ;; decode_id_token t
      end
  end.

(** [validate_claims], at a time. *)
Definition validate_claims (c : IdClaims) (cid : string) (t : Z) : result string Identity :=
  let issuer := default "" (iss c) in
  bail_if (negb (existsb (String.eqb issuer) GOOGLE_ISSUERS)) ("unexpected issuer " +:+ debug issuer) ;;?
  bail_if (negb match aud c with Some x => ct_eq x cid | None => false end)
    "the id token was issued for a different client" ;;?
  bail_if match id_exp c with Some x => x <=? t | None => true end "the id token has expired" ;;?
  em <-? ok_or (id_email c) "the id token carried no email address" ;;
  bail_if (negb (is_true (email_verified c))) (em +:+ " is not a verified address") ;;?
  Ok {| subject := default em (sub c); email := Str.to_ascii_lowercase em; name := id_name c; hosted_domain := hd c;
        session_token := None |}.

(** *** The callback *)

(** [mint_session_token]: the token and its id. *)
Definition mint_session_token (e : Env) (t : Z) (gate : AuthGate) (dep : string) (i : Identity) :
    Act (option string * option string) := λ w,
  match session_scope gate, tokens w with
  | Some scope, Some tw =>
    let req := {| n_name := "session " +:+ email i +:+ " @ " +:+ dep; n_admin := scope; n_namespace := None;
                  n_deployments := ["*"]; n_expires_in_secs := Some (session_ttl_secs gate) |} in
    match mint sha256 url_safe_no_pad (store tw) req t (token_draw e) with
    | (Ok (s, secret), st) =>
      let '(_, tw) := persist_tokens encode (with_store tw st) (faults e 0%nat) in
      ((Some secret, Some (s_id s)), ([], with_tokens w tw))
    | (Err _, st) => ((None, None), ([], with_tokens w (with_store tw st)))
    end
  | _, _ => ((None, None), ([], w))
  end.

(** The session cookie's content for an identity the gate lets in. *)
Definition new_session (gate : AuthGate) (dep : string) (i : Identity) (t : Z) (tok tok_id : option string) : Session :=
  {| ss_subject := subject i; ss_email := email i; ss_name := name i; ss_hosted_domain := hosted_domain i;
     ss_deployment := dep; ss_policy := policy_fingerprint show_json sha256 gate;
     ss_exp := U64.wrapping_add t (session_ttl_secs gate); ss_token := tok; ss_token_id := tok_id |}.

(** The answer to a sign-in that succeeded. *)
Definition welcome (gate : AuthGate) (req : RequestInfo) (flow : Flow) (s : Session) : Response :=
  redirect (origin req +:+ return_to flow)
    [set_cookie (cookie_name gate) (sign (session_encode s)) (secure req) (Some (session_ttl_secs gate))
       (cookie_domain_for gate (host req));
     clear_cookie FLOW_COOKIE (secure req) None].
(** What the callback does with an identity that the provider vouches for. *)
Definition admit_identity (e : Env) (gate : AuthGate) (dep : string) (req : RequestInfo) (flow : Flow) (i : Identity) : Act Response :=
  if negb (allows gate (email i) (hosted_domain i)) then
    observe_auth dep req SigninRefused (Some (email i)) ;;!
    ret (text 403 (email i +:+ " is not allowed to access this deployment." +:+ String "010" (String "010" "")
                   +:+ "Sign in with a different account: " +:+ origin req +:+ login_path gate))
  else
    minted <-! mint_session_token e (later e) gate dep i ;;
    ret (welcome gate req flow (new_session gate dep i (later e) (fst minted) (snd minted))).

(** The flow a callback is about: the one whose nonce came back, or the first. *)
Definition callback_flow (state : string) (flows : list Flow) : option Flow :=
  match List.find (λ f, ct_eq state (nonce f)) flows with Some f => Some f | None => hd_error flows end.

(** [callback]. *)
Definition callback (e : Env) (gate : AuthGate) (dep : string) (req : RequestInfo) : Act Response := λ w,
  let params := query_pairs (query req) in
  match get_pair "error" params with
  | Some error => ret (text 403 ("sign-in was not completed (" +:+ error +:+ ")")) w
  | None =>
    match get_pair "code" params, get_pair "state" params with
    | Some code, Some state =>
      if bool_decide (cookie_values (cookies req) FLOW_COOKIE = []) then ret (start e (now e) gate dep req "/") w
      else
        match callback_flow state (verified_flows req) with
        | None => ret (text 400 "the sign-in state could not be verified") w
        | Some flow =>
          if fl_exp flow <=? now e then ret (start e (now e) gate dep req (return_to flow)) w
          else if negb (String.eqb (fl_deployment flow) dep) || negb (ct_eq state (nonce flow)) then
            (observe_auth dep req SigninState None ;;! ret (text 400 "the sign-in state did not match")) w
          else
            match google_credentials gate with
            | None => ret (text 500 "the sign-in gate is misconfigured on the server") w
            | Some (cid, csecret) =>
              match resolve_secret (secrets w) csecret with
              | Err _ => ret (text 500 "the sign-in gate is misconfigured on the server") w
              | Ok secret =>
                match exchange e cid secret code (verifier flow) (redirect_uri gate req) with
                | Err _ =>
                  (observe_auth dep req SigninExchange None ;;!
                   ret (text 502 "could not complete sign-in with the provider")) w
                | Ok claims =>
                  match validate_claims claims cid (later e) with
                  | Err x =>
                    (observe_auth dep req SigninToken None ;;! ret (text 403 ("sign-in was rejected: " +:+ x))) w
                  | Ok i => admit_identity e gate dep req flow i w
                  end
                end
              end
            end
        end
    | _, _ => ret (text 400 "the sign-in callback is missing `code` or `state`") w
    end
  end.

(** *** Sessions *)

(** [session_from]. *)
Definition session_from (t : Z) (gate : AuthGate) (dep raw : string) : option Identity :=
  bytes ← verify raw;
  s ← session_decode bytes;
  if ss_exp s <=? t then None
  else if negb (String.eqb (ss_policy s) (policy_fingerprint show_json sha256 gate)) then None
  else if negb (String.eqb (ss_deployment s) dep) && negb (is_some (cookie_domain gate)) then None
  else Some {| subject := ss_subject s; email := ss_email s; name := ss_name s; hosted_domain := ss_hosted_domain s;
               session_token := ss_token s |}.
(** [session]. *)
Definition session (t : Z) (gate : AuthGate) (dep : string) (req : RequestInfo) : option Identity :=
  hd_error (omap (session_from t gate dep) (cookie_values (cookies req) (cookie_name gate))).

(** The loop of [logout]: the token of every session the browser presents is revoked. *)
Fixpoint revoke_sessions (e : Env) (n : nat) (raws : list string) : LbTokens.World → LbTokens.World := λ tw,
  match raws with
  | [] => tw
  | raw :: raws =>
    let tw :=
      match bytes ← verify raw; s ← session_decode bytes; ss_token_id s with
      | Some i =>
        match revoke (store tw) i with
        | (true, st) => snd (persist_tokens encode (with_store tw st) (faults e n))
        | (false, st) => with_store tw st
        end
      | None => tw
      end in
    revoke_sessions e (S n) raws tw
  end.
(** [logout]. *)
Definition logout (e : Env) (gate : AuthGate) (req : RequestInfo) : Act Response := λ w,
  let w := match tokens w with
           | Some tw => with_tokens w (revoke_sessions e 0 (cookie_values (cookies req) (cookie_name gate)) tw)
           | None => w
           end in
  let issuers := match p ← jwt_policy gate; if is_some (login_endpoint p) then cookie p else None with
                 | Some c => [clear_cookie c (secure req) None] | None => [] end in
  ret (redirect (origin req +:+ login_path gate)
    ([clear_cookie (cookie_name gate) (secure req) (cookie_domain_for gate (host req)); clear_cookie FLOW_COOKIE (secure req) None]
     ++ issuers)) w.

(** *** Bearers *)

(** [tokens.verify] on the bearer of a request. *)
Definition verify_bearer (t : Z) (req : RequestInfo) : Act (option LbTokens.AppToken) := λ w,
  match bearer req, tokens w with
  | Some p, Some tw =>
    let '(r, st) := LbTokens.verify sha256 (store tw) p t in (r, ([], with_tokens w (with_store tw st)))
  | _, _ => (None, ([], w))
  end.

(** [jwt_candidate]. *)
Definition jwt_candidate (p : JwtSpec) (req : RequestInfo) : option string :=
  match bearer req with
  | Some b => Some b
  | None =>
    n ← cookie p; v ← hd_error (cookie_values (cookies req) n); if String.eqb v "" then None else Some v
  end.

Definition show_resolve_error (e : ResolveError) : string :=
  match e with
  | NoSecret i => "no secret " +:+ debug i
  | NoKey i k => "secret " +:+ debug i +:+ " has no key " +:+ debug k
  end.
(** The key of a policy. *)
Definition policy_key (w : World) (p : JwtSpec) : result JwtError (option (@Key PKey)) :=
  match js_secret p, public_key p with
  | Some r, _ =>
    match resolve_secret (secrets w) r with Ok s => Ok (Some (Secret s)) | Err e => Err (BadKey (show_resolve_error e)) end
  | None, Some pem => match jv_public_key pem with Ok k => Ok (Some (Public k)) | Err e => Err (BadKey e) end
  | None, None => Ok None
  end.
(** The identity of a verified token. *)
Definition jwt_identity (p : JwtSpec) (c : Claims) : result JwtError Identity :=
  s <-? ok_or (jv_claim c (subject_claim p)) (Require (subject_claim p)) ;;
  Ok {| subject := s; email := default "" (jv_claim c (email_claim p)); name := jv_claim c (name_claim p);
        hosted_domain := None; session_token := None |}.
(** [verify_jwt], at a time. *)
Definition verify_jwt (e : Env) (t : Z) (p : JwtSpec) (token : string) : Act (result JwtError Identity) := λ w,
  match policy_key w p with
  | Err x => (Err x, ([], w))
  | Ok k =>
    let '(r, c) := jv_verify token p k (jwks w) t (jwks_answer e) in
    (c <-? r ;; jwt_identity p c, ([], with_jwks w c))
  end.

(** *** The decision *)

Definition reaches (t : LbTokens.AppToken) (dep ns : string) (req : RequestInfo) : bool := fronts_admin req || admits t dep ns.

(** The refusal of a scoped path: a recognised token hears what it lacks. *)
Definition refuse_scoped (e : Env) (dep : string) (req : RequestInfo) (want : AdminScope) : Act Decision :=
  known <-! verify_bearer (later e) req ;;
  (if is_some (bearer req) then observe_auth dep req GateToken None else ret tt) ;;!
  ret (Answered match known with
                | Some t =>
                  reply 403 (ScopedRefusal (if negb (LbTokens.satisfies (admin t) want) then NeedsTier (admin t) want else NotAdmitted dep) want)
                | None => reply 401 (ScopedRequired want)
                end).

(** [scoped_public]. *)
Definition scoped_public (e : Env) (gate : AuthGate) (dep ns : string) (req : RequestInfo) (want : AdminScope) : Act Decision :=
  token <-! verify_bearer (now e) req ;;
  if match token with Some t => reaches t dep ns req && LbTokens.satisfies (admin t) want | None => false end then ret (Allow None)
  else
    match (if bool_decide (want = ScopeNone) then p ← jwt_policy gate; v ← jwt_candidate p req; Some (p, v) else None) with
    | Some (p, v) =>
      r <-! verify_jwt e (now e) p v ;;
      match r with Ok i => ret (Allow (Some i)) | Err _ => refuse_scoped e dep req want end
    | None => refuse_scoped e dep req want
    end.

(** The end of [decide]: no credential was good. *)
Definition decide_session (e : Env) (gate : AuthGate) (dep ns : string) (req : RequestInfo) (reported : bool) : Act Decision :=
  (if accepts_app_token gate && is_some (bearer req) && negb reported then observe_auth dep req GateToken None else ret tt) ;;!
  match session (later e) gate dep req with
  | Some i => ret (Allow (Some i))
  | None =>
    known <-! (if accepts_app_token gate then verify_bearer (later e) req else ret None) ;;
    ret (Answered match known with
                  | Some t => reply 403 (InsufficientScope t dep ns)
                  | None => start e (later e) gate dep req (return_target req)
                  end)
  end.

(** [decide], on a path that needs a credential. *)
Definition decide_credential (e : Env) (gate : AuthGate) (dep ns : string) (req : RequestInfo) : Act Decision :=
  token <-! (if accepts_app_token gate then verify_bearer (now e) req else ret None) ;;
  if match token with Some t => reaches t dep ns req | None => false end then ret (Allow None)
  else
    match (p ← jwt_policy gate; v ← jwt_candidate p req; Some (p, v)) with
    | Some (p, v) =>
      r <-! verify_jwt e (now e) p v ;;
      match r with
      | Ok i => ret (Allow (Some i))
      | Err _ => observe_auth dep req GateJwt None ;;! decide_session e gate dep ns req true
      end
    | None => decide_session e gate dep ns req false
    end.

(** [Authenticator::decide]. *)
Definition decide_gate (e : Env) (gate : AuthGate) (dep ns : string) (req : RequestInfo) : Act Decision :=
  if String.eqb (path req) (callback_path gate) then r <-! callback e gate dep req ;; ret (Answered r)
  else if String.eqb (path req) (logout_path gate) then r <-! logout e gate req ;; ret (Answered r)
  else if String.eqb (path req) (login_path gate) then ret (Answered (start e (now e) gate dep req "/"))
  else
    match public_scope gate (path req) with
    | Some scope =>
      match path_required scope with
      | None => ret (Allow None)
      | Some want => scoped_public e gate dep ns req want
      end
    | None => decide_credential e gate dep ns req
    end.

(** *** Signing in with a password, at the issuer *)

(** The loop that reads the answer, up to 65536 bytes. *)
Fixpoint read_answer (acc : string) (chunks : list string) (ended : bool) : option string :=
  match chunks with
  | [] => if ended then Some acc else None
  | c :: chunks =>
    if (String.length acc + String.length c <=? N.to_nat 65536)%nat then read_answer (acc +:+ c) chunks ended else None
  end.

(** What the answer says. *)
Record LoginReply : Type := { lr_success : bool; lr_token : option string; lr_expires : option Z }.
Context (login_reply_of : string → option LoginReply).

(** [heyo_login_submit], with the [Origin] header and the body of the form. *)
Definition heyo_login_submit (e : Env) (gate : AuthGate) (dep : string) (req : RequestInfo) (request_origin : option string)
    (form : string) : Act Response := λ w,
  let same := match request_origin ≫= url_origin, url_origin (origin req) with
              | Some x, Some y => bool_decide (x = y) | _, _ => false end in
  if negb (secure req) || negb same then ret (text 403 "Sign-in must originate on this HTTPS site.") w
  else if (N.to_nat 8192 <? String.length form)%nat then ret (text 413 "Sign-in request is too large.") w
  else
    match jwt_policy gate with
    | None => ret (text 404 "Not found") w
    | Some policy =>
      match login_endpoint policy, cookie policy with
      | Some endpoint, Some ck =>
        let fields := form_parse form in
        match get_pair "state" fields with
        | None => ret (text 400 "Missing sign-in state.") w
        | Some state =>
          match List.find (λ f, (now e <? fl_exp f) && String.eqb (fl_deployment f) dep && ct_eq state (nonce f))
                  (verified_flows req) with
          | None => ret (text 403 "Sign-in expired or state did not match. Reload and try again.") w
          | Some flow =>
            match get_pair "email" fields, get_pair "password" fields with
            | Some em, Some pw =>
              if String.eqb (Chars.trim em) "" || (320 <? String.length em)%nat || String.eqb pw ""
                 || (N.to_nat 4096 <? String.length pw)%nat then ret (text 400 "Email or password is invalid.") w
              else
                match login_answer e endpoint (Chars.trim em) pw with
                | LoginUnavailable => ret (text 502 "Sign-in service unavailable.") w
                | LoginRefused =>
                  ret (text 401 "Sign-in was refused. Check your credentials or sign-in requirements and try again.") w
                | LoginBody chunks ended =>
                  match read_answer "" chunks ended ≫= login_reply_of with
                  | None => ret (text 502 "Invalid sign-in service response.") w
                  | Some lr =>
                    match (if lr_success lr then lr_token lr else None) with
                    | None => ret (text 401 "Sign-in was refused.") w
                    | Some token =>
                      (ok <-! (if (N.to_nat 3800 <? String.length token)%nat then ret false
                               else r <-! verify_jwt e (later e) policy token ;; ret (is_ok r)) ;;
                       if negb ok then
                         observe_auth dep req GateJwt None ;;!
                         ret (text 403 "This account is not permitted to access this application.")
                       else
                         let lifetime := Z.min (default 3600 (lr_expires lr)) 86400 in
                         ret (redirect (safe_return_path (default (return_to flow) (get_pair "return_to" fields)))
                           [set_cookie ck token true (Some lifetime) None; clear_cookie FLOW_COOKIE true None])) w
                    end
                  end
                end
            | _, _ => ret (text 400 "Email and password are required.") w
            end
          end
        end
      | _, _ => ret (text 404 "Browser sign-in is not configured.") w
      end
    end.

(** ** Signed texts *)

Context {BL : Base64Laws B} {CL : CookieCodecLaws C} {VL : VerifierLaws V}.

Lemma url_safe_free s : Str.all url_safe s = true → free_of "." s.
Proof.
  unfold free_of. apply Str.all_impl. intros c. destruct (Ascii.eqb_spec c ".") as [->|]; [|done]. by vm_compute.
Qed.
Lemma b64_url_safe x : Str.all url_safe (b64 x) = true.
Proof. eapply unb64_alphabet, unb64_b64. Qed.

Lemma verify_sign p : verify (sign p) = Some p.
Proof.
  unfold verify, sign. rewrite (proj2 (rsplit_once_spec "." _ (b64 p) (b64 (hmac (signing_key au) (b64 p))))).
  - cbn -[ct_eq]. rewrite !unb64_b64. cbn -[ct_eq]. by rewrite ct_eq_eqb, String.eqb_refl.
  - split; [done|]. apply url_safe_free, b64_url_safe.
Qed.

Lemma verify_shape raw x : verify raw = Some x → ∃ enc mac, raw = enc +:+ "." +:+ mac ∧ Str.all url_safe enc = true ∧ free_of "." mac.
Proof.
  unfold verify. intros ([enc mac] & [-> Hf]%rsplit_once_spec & H)%bind_Some. cbn in H.
  apply bind_Some in H as (m & Hm & H). destruct (negb _); [done|]. exists enc, mac. split_and!; [done| |done].
  by eapply unb64_alphabet.
Qed.

Lemma verify_empty : verify "" = None.
Proof. done. Qed.

(** A token of an issuer is no text of ours: it has a dot too many. *)
Lemma verify_jwt_shape h p s : free_of "." s → verify (h +:+ "." +:+ p +:+ "." +:+ s) = None.
Proof.
  intros Hs. destruct (verify _) as [x|] eqn:E; [|done]. apply verify_shape in E as (enc & mac & E & He & Hm).
  apply url_safe_free in He. exfalso.
  assert (h +:+ "." +:+ p = enc) as Hh.
  { assert (Chars.rsplit_once "." (h +:+ "." +:+ p +:+ "." +:+ s) = Some (h +:+ "." +:+ p, s)) as H1.
    { apply rsplit_once_spec. split; [by rewrite !Str.append_assoc|done]. }
    rewrite E in H1. rewrite (proj2 (rsplit_once_spec "." _ enc mac)) in H1 by done. congruence. }
  subst enc. apply free_of_app in He as [_ He]. by apply free_of_app in He as [He _].
Qed.

(** *** Actions *)

Lemma bind_ret_l {A B'} (x : A) (k : A → Act B') w : bind (ret x) k w = k x w.
Proof. unfold bind, ret. by destruct (k x w) as [? [? ?]]. Qed.
Lemma fst_bind {A B'} (m : Act A) (k : A → Act B') w : fst (bind m k w) = fst (k (fst (m w)) (snd (snd (m w)))).
Proof. unfold bind. destruct (m w) as [x [o w1]]. cbn. by destruct (k x w1) as [? [? ?]]. Qed.
Lemma fst_ret {A} (x : A) w : fst (ret x w) = x.
Proof. done. Qed.

(** A key that was loaded is the one that every later start loads, so a restart signs nobody out;
    one that could not be is not on the disk. *)
Lemma loaded_key_is_kept unreadable drawn fs d r d' :
  (∀ k, drawn = Ok k → String.length k = 32%nat) → load_key unreadable drawn fs d = (r, d') →
  match r with
  | Ok k => main d' = Some k ∧ ∀ drawn' fs', load_key None drawn' fs' d' = (Ok k, d')
  | Err _ => main d' = main d
  end.
Proof.
  intros Hk. unfold load_key. destruct unreadable as [e|]; [by intros [= <- <-]|]. destruct (main d) as [s|] eqn:Em.
  - destruct (32 <=? String.length s)%nat eqn:El; intros [= <- <-]; [|done]. split; [done|]. intros drawn' fs'. by rewrite Em, El.
  - destruct drawn as [k|e]; [|by intros [= <- <-]]. assert (String.length k = 32%nat) as Hl by auto. destruct (write_key k fs d) as [x d1] eqn:Ew. intros [= <- <-].
    unfold write_key in Ew.
    destruct (mkdir fs), (create fs), (chmod fs), (write fs), (rename fs); injection Ew as <- <-; try done.
    cbn [main]. split; [done|]. intros drawn' fs'. by rewrite Hl.
Qed.

(** ** What the gate answers *)

(** A request to the gate: at the front of a deployment, or a form posted to its login path. *)
Inductive Call : Type :=
| Decides (gate : AuthGate) (dep ns : string) (req : RequestInfo) (e : Env)
| Submits (gate : AuthGate) (dep : string) (req : RequestInfo) (request_origin : option string) (form : string) (e : Env).
Definition call_gate (c : Call) : AuthGate := match c with Decides g _ _ _ _ | Submits g _ _ _ _ _ => g end.
Definition call_dep (c : Call) : string := match c with Decides _ d _ _ _ | Submits _ d _ _ _ _ => d end.
Definition call_req (c : Call) : RequestInfo := match c with Decides _ _ _ r _ | Submits _ _ r _ _ _ => r end.
Definition call_env (c : Call) : Env := match c with Decides _ _ _ _ e | Submits _ _ _ _ _ e => e end.
Definition response (c : Call) (w : World) : option Response :=
  match c with
  | Decides g d ns r e => match fst (decide_gate e g d ns r w) with Answered r => Some r | Allow _ => None end
  | Submits g d r o f e => Some (fst (heyo_login_submit e g d r o f w))
  end.

(** A sign-in that succeeded: the browser holds a live flow of this deployment under the nonce that
    came back, the provider vouches, for this client and against the flow's verifier, for somebody on
    the list, and the session is theirs. *)
Record signed_in (gate : AuthGate) (dep : string) (req : RequestInfo) (e : Env) (w : World) (flow : Flow) (s : Session) : Prop := {
  si_path : path req = callback_path gate;
  si_flow : flow ∈ verified_flows req;
  si_live : now e < fl_exp flow;
  si_dep : fl_deployment flow = dep;
  si_state : get_pair "state" (query_pairs (query req)) = Some (nonce flow);
  si_vouched : ∃ code cid csecret secret claims i tok tok_id,
    get_pair "code" (query_pairs (query req)) = Some code ∧ google_credentials gate = Some (cid, csecret) ∧
    resolve_secret (secrets w) csecret = Ok secret ∧
    exchange e cid secret code (verifier flow) (redirect_uri gate req) = Ok claims ∧
    validate_claims claims cid (later e) = Ok i ∧ allows gate (email i) (hosted_domain i) = true ∧
    fst (mint_session_token e (later e) gate dep i w) = (tok, tok_id) ∧ s = new_session gate dep i (later e) tok tok_id;
}.

(** An answer that sends nobody anywhere and sets nothing. *)
Definition silent (r : Response) : Prop := location r = None ∧ set_cookies r = [].
Lemma silent_reply st b : silent (reply st b).
Proof. done. Qed.
Lemma silent_text st m : silent (text st m).
Proof. done. Qed.

Lemma callback_flow_in state l f : callback_flow state l = Some f → f ∈ l.
Proof.
  unfold callback_flow. destruct (List.find _ l) as [x|] eqn:E.
  - intros [= <-]. apply find_some in E as [E _]. by apply list_elem_of_In.
  - destruct l; [done|]. intros [= <-]. by left.
Qed.

Lemma callback_cases e gate dep req w r :
  path req = callback_path gate → fst (callback e gate dep req w) = r →
  silent r ∨ (∃ target, r = start e (now e) gate dep req target) ∨
  ∃ flow s, signed_in gate dep req e w flow s ∧ r = welcome gate req flow s.
Proof.
  intros Hp. unfold callback. cbv zeta.
  destruct (get_pair "error" _); [intros <-; left; apply silent_text|].
  destruct (get_pair "code" _) as [code|] eqn:Ec; [|intros <-; left; apply silent_text].
  destruct (get_pair "state" _) as [state|] eqn:Es; [|intros <-; left; apply silent_text].
  case_bool_decide; [intros <-; right; left; by eexists|].
  destruct (callback_flow state _) as [flow|] eqn:Ef; [|intros <-; left; apply silent_text].
  destruct (Z.leb_spec (fl_exp flow) (now e)); [intros <-; right; left; by eexists|].
  destruct (_ || _) eqn:Eb; [intros <-; left; rewrite fst_bind; apply silent_text|].
  apply orb_false_iff in Eb as [Ed%negb_false_iff%String.eqb_eq En%negb_false_iff].
  rewrite ct_eq_eqb in En. apply String.eqb_eq in En as ->.
  destruct (google_credentials gate) as [[cid cs]|] eqn:Eg; [|intros <-; left; apply silent_text].
  destruct (resolve_secret _ _) as [secret|] eqn:Er; [|intros <-; left; apply silent_text].
  destruct (exchange _ _ _ _ _ _) as [claims|] eqn:Ex; [|intros <-; left; rewrite fst_bind; apply silent_text].
  destruct (validate_claims _ _ _) as [i|] eqn:Ev; [|intros <-; left; rewrite fst_bind; apply silent_text].
  unfold admit_identity. destruct (allows gate _ _) eqn:Ea; cbn [negb]; [|intros <-; left; rewrite fst_bind; apply silent_text].
  rewrite fst_bind. intros <-. right; right. eexists flow, _. split; [|done].
  split; try done; [by eapply callback_flow_in|]. exists code, cid, cs, secret, claims, i. eexists _, _. split_and!; try done. apply surjective_pairing.
Qed.

(** The answer of signing out: both cookies of ours, and the issuer's where there is a form. *)
Definition farewell (gate : AuthGate) (req : RequestInfo) : Response :=
  fst (logout {| now := 0; later := 0; jwks_answer := Unreachable ""; exchanged := λ _, NoAnswer ""; login_answer := λ _ _ _, LoginUnavailable;
                 nonce_draw := ""; verifier_draw := ""; token_draw := {| for_id := []; for_secret := [] |};
                 faults := λ _, {| mkdir := Fine; create := Fine; chmod := Fine; write := Fine; rename := Fine |} |} gate req
         {| tokens := None; jwks := ∅; secrets := ∅ |}).
Lemma logout_farewell e gate req w : fst (logout e gate req w) = farewell gate req.
Proof. done. Qed.

(** Every way a request at the front of a deployment is answered. *)
Inductive answered (gate : AuthGate) (dep : string) (req : RequestInfo) (e : Env) (w : World) : Response → Prop :=
| an_silent r : silent r → answered gate dep req e w r
| an_start t target : t = now e ∨ t = later e → answered gate dep req e w (start e t gate dep req target)
| an_logout : answered gate dep req e w (farewell gate req)
| an_welcome flow s : signed_in gate dep req e w flow s → answered gate dep req e w (welcome gate req flow s).

Lemma fst_if {A} (b : bool) (m m' : Act A) w : fst ((if b then m else m') w) = if b then fst (m w) else fst (m' w).
Proof. by destruct b. Qed.

Lemma session_answered e gate dep ns req b w r :
  fst (decide_session e gate dep ns req b w) = Answered r → ∀ w', answered gate dep req e w' r.
Proof.
  unfold decide_session. rewrite fst_bind. destruct (session (later e) gate dep req); [done|].
  rewrite fst_bind, fst_ret. intros [= <-] w'. destruct (fst _); [apply an_silent, silent_reply|apply an_start; by right].
Qed.

Lemma refusal_answered e gate dep req want w r :
  fst (refuse_scoped e dep req want w) = Answered r → ∀ w', answered gate dep req e w' r.
Proof.
  unfold refuse_scoped. rewrite !fst_bind, fst_ret. intros [= <-] w'. destruct (fst _); apply an_silent, silent_reply.
Qed.

Lemma credential_answered e gate dep ns req w r :
  fst (decide_credential e gate dep ns req w) = Answered r → ∀ w', answered gate dep req e w' r.
Proof.
  unfold decide_credential. rewrite fst_bind. destruct (match fst _ with Some _ => _ | None => _ end); [done|].
  destruct (p ← jwt_policy gate; v ← jwt_candidate p req; Some (p, v)) as [[p v]|]; [|apply session_answered].
  rewrite fst_bind. destruct (fst (verify_jwt _ _ _ _ _)); [done|]. rewrite fst_bind. apply session_answered.
Qed.

Lemma scoped_answered e gate dep ns req want w r :
  fst (scoped_public e gate dep ns req want w) = Answered r → ∀ w', answered gate dep req e w' r.
Proof.
  unfold scoped_public. rewrite fst_bind. destruct (match fst _ with Some _ => _ | None => _ end); [done|].
  destruct (if bool_decide _ then _ else _) as [[p v]|]; [|apply refusal_answered].
  rewrite fst_bind. destruct (fst (verify_jwt _ _ _ _ _)); [done|]. apply refusal_answered.
Qed.

Lemma decide_answered e gate dep ns req w r :
  fst (decide_gate e gate dep ns req w) = Answered r → answered gate dep req e w r.
Proof.
  unfold decide_gate. destruct (String.eqb_spec (path req) (callback_path gate)) as [Hp|_].
  { rewrite fst_bind. intros [= <-]. destruct (callback_cases e gate dep req w _ Hp eq_refl) as [?|[[target ->]|(flow & s & Hs & ->)]].
    - by apply an_silent.
    - apply an_start. by left.
    - by apply an_welcome. }
  destruct (String.eqb _ _); [rewrite fst_bind, logout_farewell; intros [= <-]; apply an_logout|].
  destruct (String.eqb _ _); [intros [= <-]; apply an_start; by left|].
  destruct (public_scope gate (path req)) as [scope|]; [|intros H; by eapply credential_answered].
  destruct (path_required scope); [intros H; by eapply scoped_answered|done].
Qed.

(** A form is answered with the issuer's cookie only when its token was verified. *)
Lemma submit_answered e gate dep req ro form w r :
  fst (heyo_login_submit e gate dep req ro form w) = r →
  silent r ∨ ∃ p ck token age target i, jwt_policy gate = Some p ∧ cookie p = Some ck ∧
    fst (verify_jwt e (later e) p token w) = Ok i ∧ secure req = true ∧
    r = redirect (safe_return_path target) [set_cookie ck token true (Some age) None; clear_cookie FLOW_COOKIE true None].
Proof.
  unfold heyo_login_submit. cbv zeta.
  destruct (secure req) eqn:Esec; cbn [negb orb]; [|intros <-; left; apply silent_text].
  destruct (negb _); [intros <-; left; apply silent_text|].
  destruct (_ <? _)%nat; [intros <-; left; apply silent_text|].
  destruct (jwt_policy gate) as [p|]; [|intros <-; left; apply silent_text].
  destruct (login_endpoint p); [|intros <-; left; apply silent_text].
  destruct (cookie p) as [ck|] eqn:Eck; [|intros <-; left; apply silent_text].
  destruct (get_pair "state" _); [|intros <-; left; apply silent_text].
  destruct (List.find _ _) as [flow|]; [|intros <-; left; apply silent_text].
  destruct (get_pair "email" _) as [em|]; [|intros <-; left; apply silent_text].
  destruct (get_pair "password" _) as [pw|]; [|intros <-; left; apply silent_text].
  destruct (_ || _); [intros <-; left; apply silent_text|].
  destruct (login_answer _ _ _ _) as [| |chunks ended]; [intros <-; left; apply silent_text..|].
  destruct (_ ≫= login_reply_of) as [lr|]; [|intros <-; left; apply silent_text].
  destruct (if lr_success lr then _ else _) as [token|]; [|intros <-; left; apply silent_text].
  rewrite fst_bind. destruct (_ <? _)%nat; [intros <-; left; rewrite fst_ret; cbn [negb]; rewrite fst_bind; apply silent_text|].
  rewrite fst_bind, fst_ret. destruct (fst (verify_jwt e (later e) p token w)) as [i|] eqn:Ev; cbn [is_ok negb].
  - intros <-. right. exists p, ck, token. eexists _, _, i. by split_and!.
  - intros <-. left. rewrite fst_bind. apply silent_text.
Qed.

(** *** The cookies an answer sets *)

(** A flow that a request began. *)
Definition started (c : Call) (f : Flow) : Prop :=
  fl_deployment f = call_dep c ∧ safe_path (return_to f) = true ∧
  ∃ t, (t = now (call_env c) ∨ t = later (call_env c)) ∧ fl_exp f = U64.wrapping_add t FLOW_TTL.
Definition signed_in_by (c : Call) (w : World) (flow : Flow) (s : Session) : Prop :=
  match c with Decides gate dep _ req e => signed_in gate dep req e w flow s | Submits _ _ _ _ _ _ => False end.

Lemma safe_return_path_safe p : safe_path (safe_return_path p) = true.
Proof. unfold safe_return_path. by destruct (safe_path p) eqn:E. Qed.

Lemma start_cookies e t gate dep req target ck :
  ck ∈ set_cookies (start e t gate dep req target) →
  ∃ f, ck_value ck = sign (flow_encode f) ∧ fl_deployment f = dep ∧ safe_path (return_to f) = true ∧
    fl_exp f = U64.wrapping_add t FLOW_TTL.
Proof.
  assert (∀ f (sec : bool), fl_deployment f = dep → safe_path (return_to f) = true → fl_exp f = U64.wrapping_add t FLOW_TTL →
    ck ∈ [set_cookie FLOW_COOKIE (sign (flow_encode f)) sec (Some FLOW_TTL) None] →
    ∃ f, ck_value ck = sign (flow_encode f) ∧ fl_deployment f = dep ∧ safe_path (return_to f) = true ∧
      fl_exp f = U64.wrapping_add t FLOW_TTL) as Hone.
  { intros f sec H1 H2 H3 ->%list_elem_of_singleton. by exists f. }
  assert (∀ r, silent r → ck ∈ set_cookies r → False) as Hsilent.
  { intros r [_ ->]. apply not_elem_of_nil. }
  unfold start. destruct (_ && _).
  - unfold heyo_login_page. destruct (negb (secure req)); [by intros ?%(Hsilent _ (silent_text _ _))|].
    apply Hone; [done|apply safe_return_path_safe|done].
  - destruct (google_credentials gate) as [[cid cs]|].
    + destruct (negb (wants_html req)); [by intros ?%(Hsilent _ (silent_reply _ _))|].
      apply Hone; [done|apply safe_return_path_safe|done].
    + unfold no_signin. destruct (if wants_html req then _ else _) as [[p u]|];
        [by intros ?%not_elem_of_nil|by intros ?%(Hsilent _ (silent_reply _ _))].
Qed.

Lemma farewell_cookies gate req ck : ck ∈ set_cookies (farewell gate req) → ck_value ck = "".
Proof.
  unfold farewell, logout. cbn [fst ret redirect set_cookies]. intros Hck.
  assert (Forall (λ ck, ck_value ck = "") (set_cookies (farewell gate req))) as Hall.
  { unfold farewell, logout. cbn [fst ret redirect set_cookies]. repeat constructor.
    destruct (p ← jwt_policy gate; _); repeat constructor. }
  by eapply Forall_forall in Hall.
Qed.

Lemma verified_token_shape e t p token w i : fst (verify_jwt e t p token w) = Ok i → verify token = None.
Proof.
  unfold verify_jwt. destruct (policy_key w p) as [k|]; [|done].
  destruct (jv_verify token p k (jwks w) t (jwks_answer e)) as [[c|] c'] eqn:E; [|done]. intros _.
  apply jv_shape in E as (h & x & y & -> & Hy). by apply verify_jwt_shape.
Qed.

(** What a cookie that the gate sets can be: a flow it began, the session of a sign-in that
    succeeded, or nothing that reads as one of its own. *)
Lemma response_cookies c w r ck :
  response c w = Some r → ck ∈ set_cookies r →
  (∃ f, ck_value ck = sign (flow_encode f) ∧ started c f) ∨
  (∃ flow s, ck_value ck = sign (session_encode s) ∧ signed_in_by c w flow s) ∨ verify (ck_value ck) = None.
Proof.
  destruct c as [gate dep ns req e|gate dep req ro form e]; cbn [response].
  - destruct (fst (decide_gate e gate dep ns req w)) as [|r'] eqn:Ed; [done|]. intros [= ->].
    destruct (decide_answered _ _ _ _ _ _ _ Ed) as [r [_ Hs]|t target Ht| |flow s Hs].
    + rewrite Hs. by intros ?%not_elem_of_nil.
    + intros (f & Hv & Hd & Hp & Hx)%start_cookies. left. exists f. split; [done|]. split_and!; [done..|]. by exists t.
    + intros ->%farewell_cookies. right; right. apply verify_empty.
    + intros [-> | ->%list_elem_of_singleton]%elem_of_cons.
      * right; left. by exists flow, s.
      * right; right. apply verify_empty.
  - intros [= <-] Hck. destruct (submit_answered e gate dep req ro form w _ eq_refl) as [[_ Hs]|(p & ck' & token & age & target & i & _ & _ & Hv & _ & Hr)].
    + rewrite Hs in Hck. by apply not_elem_of_nil in Hck.
    + rewrite Hr in Hck. apply elem_of_cons in Hck as [-> | ->%list_elem_of_singleton]; right; right;
        [by eapply verified_token_shape|apply verify_empty].
Qed.

(** *** Histories *)

(** The requests that were answered so far, each with the stores it met; what happens to the stores
    in between is left open. *)
Local Abbreviation Past := (list (Call * World)).
Definition sets (x : Call * World) (raw : string) : Prop :=
  ∃ r ck, response (fst x) (snd x) = Some r ∧ ck ∈ set_cookies r ∧ ck_value ck = raw.
(** Nobody but the gate signs: a cookie that verifies was set by an earlier answer. *)
Definition unforged (past : Past) (req : RequestInfo) : Prop :=
  ∀ n raw, raw ∈ cookie_values (cookies req) n → verify raw ≠ None → ∃ x, x ∈ past ∧ sets x raw.
Inductive honest : Past → Prop :=
| honest_nil : honest []
| honest_snoc past x : honest past → unforged past (call_req (fst x)) → honest (past ++ [x]).

Lemma honest_split l x l' : honest (l ++ x :: l') → honest l ∧ unforged l (call_req (fst x)).
Proof.
  revert x. induction l' as [|y l' IH] using rev_ind; intros x H.
  - inversion H as [E|past z Hp Hu E]; [by destruct l|]. apply app_inj_tail in E as [-> ->]. done.
  - rewrite app_comm_cons, app_assoc in H. inversion H as [E|past z Hp Hu E]; [by destruct l|].
    apply app_inj_tail in E as [-> ->]. by apply IH.
Qed.

Lemma wrapping_add_in_range x y : U64.in_range (U64.wrapping_add x y).
Proof. unfold U64.in_range, U64.wrapping_add, U64.wrap, U64.max, U64.modulus. pose proof (Z.mod_pos_bound (x + y) (2 ^ 64)). lia. Qed.

(** A flow that a browser presents was begun here. *)
Lemma flow_was_started past req f :
  unforged past req → f ∈ verified_flows req → ∃ l c w l', past = l ++ (c, w) :: l' ∧ started c f.
Proof.
  intros Hu (raw & Hraw & Hf)%list_elem_of_omap. apply bind_Some in Hf as (bytes & Hv & Hd).
  destruct (Hu _ _ Hraw) as ([c w] & Hin & r & ck & Hr & Hck & E); [congruence|].
  apply list_elem_of_split in Hin as (l & l' & ->). exists l, c, w, l'. split; [done|]. cbn [fst snd] in Hr.
  subst raw. destruct (response_cookies _ _ _ _ Hr Hck) as [(f' & Ev & Hs)|[(flow & s & Ev & Hs)|Ev]].
  - rewrite Ev, verify_sign in Hv. injection Hv as <-.
    destruct Hs as (? & ? & t & Ht & Hx). rewrite flow_decode_encode in Hd by (rewrite Hx; apply wrapping_add_in_range).
    injection Hd as <-. split_and!; [done..|by exists t].
  - rewrite Ev, verify_sign in Hv. injection Hv as <-. by rewrite flow_of_session in Hd.
  - congruence.
Qed.

Lemma session_found t gate dep req who :
  session t gate dep req = Some who →
  ∃ raw, raw ∈ cookie_values (cookies req) (cookie_name gate) ∧ session_from t gate dep raw = Some who.
Proof.
  unfold session. intros H. assert (who ∈ omap (session_from t gate dep) (cookie_values (cookies req) (cookie_name gate))) as Hin.
  { destruct (omap _ _); [done|]. injection H as ->. by left. }
  apply list_elem_of_omap in Hin as (raw & Hr & Hs). by exists raw.
Qed.

Lemma session_from_spec t gate dep raw who :
  session_from t gate dep raw = Some who ↔
  ∃ bytes s, verify raw = Some bytes ∧ session_decode bytes = Some s ∧ t < ss_exp s ∧
    ss_policy s = policy_fingerprint show_json sha256 gate ∧ (ss_deployment s = dep ∨ is_some (cookie_domain gate) = true) ∧
    who = {| subject := ss_subject s; email := ss_email s; name := ss_name s; hosted_domain := ss_hosted_domain s;
             session_token := ss_token s |}.
Proof.
  unfold session_from. split.
  - intros (bytes & Hv & (s & Hd & H)%bind_Some)%bind_Some. exists bytes, s.
    destruct (Z.leb_spec (ss_exp s) t); [done|]. destruct (String.eqb_spec (ss_policy s) (policy_fingerprint show_json sha256 gate)); [|done].
    destruct (String.eqb_spec (ss_deployment s) dep), (is_some (cookie_domain gate)); cbn in H; try done; injection H as <-; split_and!; auto.
  - intros (bytes & s & -> & Hd & Hx & Hp & Hdep & ->). cbn [mbind option_bind]. rewrite Hd. cbn [mbind option_bind].
    destruct (Z.leb_spec (ss_exp s) t); [lia|]. rewrite Hp, String.eqb_refl. cbn [negb].
    destruct (String.eqb_spec (ss_deployment s) dep), (is_some (cookie_domain gate)); cbn; try done. by destruct Hdep.
Qed.

(** C4. A session is earned.  If nobody but the gate can sign, whoever is let in by a session
    cookie completed, some time before, a sign-in at a gate of the same policy: their browser
    brought back a live flow that this deployment had begun for it, the provider vouched for them
    against the verifier of that flow, and the list of that gate let them in; the session has not
    run out since, and is used at its own deployment unless the gate shares a realm.  The list of this
    gate lets them in too when no entry of the two gates holds a separator of the fingerprint's
    material and equal fingerprints come of equal material (the digest did not collide on them); that
    it needs the first, [LbGate.fingerprints_collide] shows. *)
Theorem sessions_are_earned past gate dep req t who :
  honest past → unforged past req → session t gate dep req = Some who →
  ∃ l gate' dep' ns' req' e' w' l' flow s,
    past = l ++ (Decides gate' dep' ns' req' e', w') :: l' ∧ signed_in gate' dep' req' e' w' flow s ∧
    (∃ l1 c w l2, l = l1 ++ (c, w) :: l2 ∧ started c flow) ∧
    who = {| subject := ss_subject s; email := ss_email s; name := ss_name s; hosted_domain := ss_hosted_domain s;
             session_token := ss_token s |} ∧
    t < U64.wrapping_add (later e') (session_ttl_secs gate') ∧ (dep' = dep ∨ is_some (cookie_domain gate) = true) ∧
    policy_fingerprint show_json sha256 gate' = policy_fingerprint show_json sha256 gate ∧
    (separable gate' → separable gate → policy_material show_json gate' = policy_material show_json gate →
     allows gate (email who) (hosted_domain who) = true).
Proof.
  intros Hh Hu (raw & Hraw & (bytes & s & Hv & Hd & Hx & Hp & Hdep & Hwho)%session_from_spec)%session_found.
  destruct (Hu _ _ Hraw) as ([c w] & Hin & r & ck & Hr & Hck & E); [congruence|]. cbn [fst snd] in Hr.
  apply list_elem_of_split in Hin as (l & l' & ->). subst raw.
  destruct (response_cookies _ _ _ _ Hr Hck) as [(f & Ev & _)|[(flow & s' & Ev & Hs)|Ev]]; [|..|congruence].
  { rewrite Ev, verify_sign in Hv. injection Hv as <-. by rewrite session_of_flow in Hd. }
  rewrite Ev, verify_sign in Hv. injection Hv as <-. destruct c as [gate' dep' ns' req' e'|]; [|done].
  pose proof (si_vouched _ _ _ _ _ _ _ Hs) as (code & cid & cs & secret & claims & i & tok & tok_id & _ & _ & _ & _ & _ & Ha & _ & Hns).
  rewrite session_decode_encode in Hd by (rewrite Hns; apply wrapping_add_in_range). injection Hd as ->.
  destruct (honest_split _ _ _ Hh) as [_ Hu']. destruct (flow_was_started _ _ _ Hu' (si_flow _ _ _ _ _ _ _ Hs)) as (l1 & c & w1 & l2 & -> & Hst).
  exists (l1 ++ (c, w1) :: l2), gate', dep', ns', req', e', w, l', flow, s. rewrite Hns in Hx, Hp, Hdep. cbn in Hx, Hp, Hdep.
  split_and!; try done; [by eexists l1, c, w1, l2|]. intros Hg Hg' Hm.
  destruct (fingerprint_determines show_json sha256 gate' gate Hg Hg' (λ _, Hm) Hp) as (_ & _ & Hall & _).
  rewrite <- Hall, Hwho, Hns. done.
Qed.

(** *** What lets a request pass *)

(** The token that the bearer of a request is, in the store. *)
Definition bearer_token (w : World) (t : Z) (req : RequestInfo) : option LbTokens.AppToken :=
  b ← bearer req; tw ← tokens w; fst (LbTokens.verify sha256 (store tw) b t).

(** A JWT that the policy of the gate accepts, and who it says its bearer is. *)
Definition good_jwt (e : Env) (gate : AuthGate) (req : RequestInfo) (w : World) (i : Identity) : Prop :=
  ∃ p v, jwt_policy gate = Some p ∧ jwt_candidate p req = Some v ∧ fst (verify_jwt e (now e) p v w) = Ok i.

(** The ways to pass, and as whom. *)
Inductive passes (e : Env) (gate : AuthGate) (dep ns : string) (req : RequestInfo) (w : World) : option Identity → Prop :=
| pass_public scope : public_scope gate (path req) = Some scope → path_required scope = None → passes e gate dep ns req w None
| pass_scoped_token scope want t :
    public_scope gate (path req) = Some scope → path_required scope = Some want → bearer_token w (now e) req = Some t →
    reaches t dep ns req = true → LbTokens.satisfies (admin t) want = true → passes e gate dep ns req w None
| pass_scoped_jwt scope i :
    public_scope gate (path req) = Some scope → path_required scope = Some ScopeNone → good_jwt e gate req w i →
    passes e gate dep ns req w (Some i)
| pass_token t :
    public_scope gate (path req) = None → accepts_app_token gate = true → bearer_token w (now e) req = Some t →
    reaches t dep ns req = true → passes e gate dep ns req w None
| pass_jwt i : public_scope gate (path req) = None → good_jwt e gate req w i → passes e gate dep ns req w (Some i)
| pass_session i :
    public_scope gate (path req) = None → session (later e) gate dep req = Some i → passes e gate dep ns req w (Some i).

Lemma verify_bearer_token t req w : fst (verify_bearer t req w) = bearer_token w t req.
Proof.
  unfold verify_bearer, bearer_token. destruct (bearer req); [|done]. destruct (tokens w) as [tw|]; [|done]. cbn.
  by destruct (LbTokens.verify _ _ _ _).
Qed.
Lemma verify_bearer_rest t req w :
  jwks (snd (snd (verify_bearer t req w))) = jwks w ∧ secrets (snd (snd (verify_bearer t req w))) = secrets w.
Proof.
  unfold verify_bearer. destruct (bearer req); [|done]. destruct (tokens w) as [tw|]; [|done].
  by destruct (LbTokens.verify _ _ _ _).
Qed.
Lemma verify_jwt_rest e t p v w w' : jwks w = jwks w' → secrets w = secrets w' → fst (verify_jwt e t p v w) = fst (verify_jwt e t p v w').
Proof. unfold verify_jwt, policy_key. intros -> ->. repeat case_match; done. Qed.

Definition own_path (gate : AuthGate) (p : string) : bool :=
  String.eqb p (callback_path gate) || String.eqb p (logout_path gate) || String.eqb p (login_path gate).

Lemma decide_not_own e gate dep ns req w :
  own_path gate (path req) = false →
  decide_gate e gate dep ns req w =
  match public_scope gate (path req) with
  | Some scope => match path_required scope with None => ret (Allow None) w | Some want => scoped_public e gate dep ns req want w end
  | None => decide_credential e gate dep ns req w
  end.
Proof.
  unfold own_path, decide_gate. intros [[-> ->]%orb_false_iff ->]%orb_false_iff.
  destruct (public_scope _ _) as [sc|]; [|done]. by destruct (path_required sc).
Qed.

Lemma decide_own e gate dep ns req w who : own_path gate (path req) = true → fst (decide_gate e gate dep ns req w) ≠ Allow who.
Proof.
  unfold own_path, decide_gate. destruct (String.eqb _ _); [by rewrite fst_bind|].
  destruct (String.eqb _ _); [by rewrite fst_bind|]. by destruct (String.eqb _ _).
Qed.

Lemma decide_session_allow e gate dep ns req b w who :
  fst (decide_session e gate dep ns req b w) = Allow who ↔ ∃ i, who = Some i ∧ session (later e) gate dep req = Some i.
Proof.
  unfold decide_session. rewrite fst_bind. destruct (session (later e) gate dep req) as [i|].
  - rewrite fst_ret. naive_solver.
  - rewrite fst_bind, fst_ret. naive_solver.
Qed.

Lemma refuse_scoped_allow e dep req want w who : fst (refuse_scoped e dep req want w) ≠ Allow who.
Proof. unfold refuse_scoped. by rewrite !fst_bind, fst_ret. Qed.

Lemma credential_allow e gate dep ns req w who :
  fst (decide_credential e gate dep ns req w) = Allow who ↔
  if accepts_app_token gate && match bearer_token w (now e) req with Some t => reaches t dep ns req | None => false end then who = None
  else match p ← jwt_policy gate; v ← jwt_candidate p req; Some (p, v) with
       | Some (p, v) =>
         match fst (verify_jwt e (now e) p v w) with
         | Ok i => who = Some i
         | Err _ => ∃ i, who = Some i ∧ session (later e) gate dep req = Some i
         end
       | None => ∃ i, who = Some i ∧ session (later e) gate dep req = Some i
       end.
Proof.
  unfold decide_credential. rewrite fst_bind.
  set (m := if accepts_app_token gate then verify_bearer (now e) req else ret None).
  assert (fst (m w) = if accepts_app_token gate then bearer_token w (now e) req else None) as ->.
  { unfold m. destruct (accepts_app_token gate); [apply verify_bearer_token|done]. }
  assert (jwks (snd (snd (m w))) = jwks w ∧ secrets (snd (snd (m w))) = secrets w) as [Hj Hs].
  { unfold m. destruct (accepts_app_token gate); [apply verify_bearer_rest|done]. }
  set (w' := snd (snd (m w))) in *. clearbody w'. clear m.
  assert ((match (if accepts_app_token gate then bearer_token w (now e) req else None) with
           | Some t => reaches t dep ns req | None => false end) =
          accepts_app_token gate && match bearer_token w (now e) req with Some t => reaches t dep ns req | None => false end) as ->
    by (by destruct (accepts_app_token gate)).
  destruct (accepts_app_token gate && _); [rewrite fst_ret; naive_solver|].
  destruct (p ← jwt_policy gate; _) as [[p v]|]; [|apply decide_session_allow].
  rewrite fst_bind, (verify_jwt_rest e (now e) p v w' w Hj Hs). destruct (fst (verify_jwt e (now e) p v w)) as [i|].
  - rewrite fst_ret. naive_solver.
  - rewrite fst_bind. apply decide_session_allow.
Qed.

Lemma scoped_allow e gate dep ns req want w who :
  fst (scoped_public e gate dep ns req want w) = Allow who ↔
  if match bearer_token w (now e) req with Some t => reaches t dep ns req && LbTokens.satisfies (admin t) want | None => false end
  then who = None
  else ∃ p v i, want = ScopeNone ∧ jwt_policy gate = Some p ∧ jwt_candidate p req = Some v ∧
       fst (verify_jwt e (now e) p v w) = Ok i ∧ who = Some i.
Proof.
  unfold scoped_public. rewrite fst_bind, verify_bearer_token. destruct (verify_bearer_rest (now e) req w) as [Hj Hs].
  destruct (match bearer_token w (now e) req with Some t => _ | None => false end); [rewrite fst_ret; naive_solver|].
  case_bool_decide as Hw.
  - destruct (jwt_policy gate) as [p|]; cbn [mbind option_bind].
    + destruct (jwt_candidate p req) as [v|] eqn:Ev; cbn [mbind option_bind].
      * rewrite fst_bind, (verify_jwt_rest e (now e) p v _ w Hj Hs). destruct (fst (verify_jwt e (now e) p v w)) as [i|] eqn:Er.
        -- rewrite fst_ret. split; [intros [= <-]; by exists p, v, i|].
           intros (p' & v' & i' & _ & [= <-] & Ev' & Er' & ->). congruence.
        -- split; [by intros ?%refuse_scoped_allow|]; intros (? & ? & ? & ? & ? & ? & ? & ?); congruence.
      * split; [by intros ?%refuse_scoped_allow|]; intros (? & ? & ? & ? & ? & ? & ? & ?); congruence.
    + split; [by intros ?%refuse_scoped_allow|]; intros (? & ? & ? & ? & ? & ? & ? & ?); congruence.
  - split; [by intros ?%refuse_scoped_allow|]; intros (? & ? & ? & ? & ? & ? & ? & ?); congruence.
Qed.

Lemma allow_passes e gate dep ns req w who :
  fst (decide_gate e gate dep ns req w) = Allow who → own_path gate (path req) = false ∧ passes e gate dep ns req w who.
Proof.
  intros H. destruct (own_path gate (path req)) eqn:Eo; [by apply decide_own in H|]. split; [done|].
  rewrite decide_not_own in H by done. destruct (public_scope gate (path req)) as [scope|] eqn:Ep.
  + destruct (path_required scope) as [want|] eqn:Er; [|injection H as <-; by eapply pass_public].
    apply scoped_allow in H. destruct (bearer_token w (now e) req) as [t|] eqn:Et.
    * destruct (_ && _) eqn:Eb; [subst who; apply andb_true_iff in Eb as [? ?]; by eapply pass_scoped_token|].
      destruct H as (p & v & i & -> & ? & ? & ? & ->). eapply pass_scoped_jwt; [done..|]. by exists p, v.
    * destruct H as (p & v & i & -> & ? & ? & ? & ->). eapply pass_scoped_jwt; [done..|]. by exists p, v.
  + apply credential_allow in H. destruct (accepts_app_token gate && _) eqn:Eb.
    * subst who. apply andb_true_iff in Eb as [? Eb]. destruct (bearer_token w (now e) req) as [t|] eqn:Et; [|done].
      by eapply pass_token.
    * destruct (jwt_policy gate) as [p|] eqn:Ejp; cbn [mbind option_bind] in H;
        [destruct (jwt_candidate p req) as [v|] eqn:Ev; cbn [mbind option_bind] in H|];
        [destruct (fst (verify_jwt e (now e) p v w)) as [i|] eqn:Er|..];
        [subst who; apply pass_jwt; [done|by exists p, v]|..];
        destruct H as (i & -> & Hi); by apply pass_session.
Qed.

Lemma passes_allow e gate dep ns req w who :
  own_path gate (path req) = false → passes e gate dep ns req w who → ∃ who, fst (decide_gate e gate dep ns req w) = Allow who.
Proof.
  intros Eo Hp. rewrite decide_not_own by done.
  destruct Hp as [scope -> ->|scope want t -> -> Ht Hr Hs|scope i -> -> (p & v & Hjp & Hv & Hi)|t -> Ha Ht Hr|i -> (p & v & Hjp & Hv & Hi)|i -> Hi].
  + by exists None.
  + exists None. apply scoped_allow. by rewrite Ht, Hr, Hs.
  + destruct (match bearer_token w (now e) req with Some t => reaches t dep ns req && LbTokens.satisfies (admin t) ScopeNone | None => false end) eqn:Eb;
      eexists; apply scoped_allow; rewrite Eb; [done|]. by exists p, v, i.
  + exists None. apply credential_allow. by rewrite Ha, Ht, Hr.
  + destruct (accepts_app_token gate && match bearer_token w (now e) req with Some t => reaches t dep ns req | None => false end) eqn:Eb;
      eexists; apply credential_allow; rewrite Eb; [done|]. rewrite Hjp. cbn [mbind option_bind]. rewrite Hv. cbn [mbind option_bind]. by rewrite Hi.
  + destruct (accepts_app_token gate && match bearer_token w (now e) req with Some t => reaches t dep ns req | None => false end) eqn:Eb;
      [exists None; apply credential_allow; by rewrite Eb|].
    destruct (p ← jwt_policy gate; v ← jwt_candidate p req; Some (p, v)) as [[p v]|] eqn:Ej;
      [destruct (fst (verify_jwt e (now e) p v w)) as [j|] eqn:Er|]; eexists; apply credential_allow; rewrite Eb, Ej, ?Er; eauto.
Qed.

(** C12. The gate lets a request pass exactly when it has something to pass with: outside the three
    paths of the gate itself, a path declared public, or on a scoped path a live app-token of the
    tier that reaches the deployment, or on the lowest one a JWT the policy accepts; and elsewhere
    an app-token that reaches it where the gate takes them, a JWT the policy accepts, or a session.
    The identity it passes with is the one that credential proves. *)
Theorem passing_needs_a_credential e gate dep ns req w :
  (∀ who, fst (decide_gate e gate dep ns req w) = Allow who → own_path gate (path req) = false ∧ passes e gate dep ns req w who) ∧
  (own_path gate (path req) = false → (∃ who, passes e gate dep ns req w who) →
   ∃ who, fst (decide_gate e gate dep ns req w) = Allow who).
Proof. split; [intros who; apply allow_passes|]. intros Eo [who Hp]. by eapply passes_allow. Qed.

(** *** Where an answer sends a browser *)

(** A path of the site it is given on, for a browser too: no second slash, of either kind, makes it
    the name of another, and no control character that a browser would drop hides one. *)
Definition stays (p : string) : Prop :=
  ∃ rest, p = String "/" rest ∧ Str.starts_with "/" rest = false ∧ Str.starts_with "\" rest = false ∧
    Forall (λ ch, is_control ch = false) (Chars.chars p).

Lemma safe_path_stays p : safe_path p = true → stays p.
Proof.
  unfold safe_path. intros [[[[Hs H2]%andb_true_iff H3]%andb_true_iff Hc]%andb_true_iff _]%andb_true_iff.
  apply Str.starts_with_spec in Hs as [rest ->]. exists rest. split; [done|]. split; [|split].
  - by apply negb_true_iff in H2.
  - by apply negb_true_iff in H3.
  - apply negb_true_iff in Hc. apply Forall_forall. intros ch Hch. destruct (is_control ch) eqn:E; [|done].
    rewrite <- Hc. symmetry. apply existsb_exists. exists ch. split; [by apply list_elem_of_In|done].
Qed.

(** A destination the configuration names: the provider's page, or the issuer's with a query. *)
Definition configured (gate : AuthGate) (l : string) : Prop :=
  (accepts_google gate = true ∧ ∃ q, l = GOOGLE_AUTHORIZE +:+ "?" +:+ q) ∨
  (∃ p u sep q, jwt_policy gate = Some p ∧ login_url p = Some u ∧ l = u +:+ sep +:+ q ∧ (sep = "?" ∨ sep = "&")).
(** A destination on this host. *)
Definition at_home (gate : AuthGate) (req : RequestInfo) (l : string) : Prop :=
  (∃ p, stays p ∧ (l = p ∨ l = origin req +:+ p)) ∨ l = origin req +:+ login_path gate.

Lemma start_location e t gate dep req target l : location (start e t gate dep req target) = Some l → configured gate l.
Proof.
  unfold start. destruct (_ && _).
  - unfold heyo_login_page. by destruct (negb (secure req)).
  - destruct (google_credentials gate) as [[cid cs]|] eqn:Eg.
    + destruct (negb (wants_html req)); [done|]. intros [= <-]. left. split; [|by eexists].
      unfold google_credentials in Eg. by destruct (accepts_google gate).
    + unfold no_signin. destruct (if wants_html req then _ else _) as [[p u]|] eqn:Ej; [|done]. intros [= <-]. right.
      destruct (wants_html req); [|done]. apply bind_Some in Ej as (p' & Hp & (u' & Hu & [= -> ->])%bind_Some).
      exists p, u. eexists _, _. split; [done|]. split; [done|]. split; [done|]. destruct (Str.contains "?" u); auto.
Qed.

(** C23. The gate is no open redirect.  If nobody but the gate can sign, every answer that sends a
    browser somewhere, at the front of a deployment or after a form, sends it to the provider's
    page, to the issuer's page that the policy names, or to a path of the host it came to. *)
Theorem redirects_stay_on_the_site past c w r l :
  unforged past (call_req c) → response c w = Some r → location r = Some l →
  configured (call_gate c) l ∨ at_home (call_gate c) (call_req c) l.
Proof.
  intros Hu Hr Hl. destruct c as [gate dep ns req e|gate dep req ro form e]; cbn [response call_gate call_req] in *.
  - destruct (fst (decide_gate e gate dep ns req w)) as [|r'] eqn:Ed; [done|]. injection Hr as ->.
    destruct (decide_answered _ _ _ _ _ _ _ Ed) as [r [Hn _]|t target Ht| |flow s Hs].
    + congruence.
    + left. by eapply start_location.
    + injection Hl as <-. right; by right.
    + injection Hl as <-. right; left. exists (return_to flow). split; [|by right].
      destruct (flow_was_started _ _ _ Hu (si_flow _ _ _ _ _ _ _ Hs)) as (l1 & c & w1 & l2 & _ & _ & Hp & _).
      by apply safe_path_stays.
  - injection Hr as Hr. destruct (submit_answered e gate dep req ro form w _ Hr) as [[Hn _]|(p & ck & token & age & target & i & _ & _ & _ & _ & ->)].
    + congruence.
    + injection Hl as <-. right; left. eexists. split; [apply safe_path_stays, safe_return_path_safe|by left].
Qed.

(** *** The cookies a browser sends back *)

(** A [Cookie] header, as a browser writes it: RFC 6265, section 5.4. *)
Definition cookie_header (l : list (string * string)) : string := join "; " ((λ p, fst p +:+ "=" +:+ snd p) <$> l).

Lemma trim_space s : Str.all Trim.is_graph s = true → Chars.trim (String " " s) = s.
Proof.
  intros Hs. destruct (Trim.graph_chars s Hs) as [Hw Hf].
  assert (Chars.chars (String " " s) = " " :: Chars.chars s) as Hc.
  { pose proof (Trim.chars_char " " "" s eq_refl Hf) as H. by change ("" +:+ s) with s in H. }
  rewrite Trim.trim_as_list, Hc.
  change (Trim.trim_list Chars.is_whitespace (" " :: Chars.chars s)) with (Trim.trim_list Chars.is_whitespace (Chars.chars s)).
  rewrite Trim.trim_list_none by done. apply Chars.concat_chars.
Qed.

Lemma split_free c s : free_of c s → Str.split c s = [s].
Proof.
  unfold free_of. induction s as [|b s IH]; [done|]. cbn [Str.all Str.split]. intros [Hb%negb_true_iff Hs]%andb_true_iff.
  by rewrite IH, Hb.
Qed.

Lemma split_header segs seg pre :
  Forall (free_of ";") segs → seg ∈ segs → free_of ";" pre →
  (pre +:+ seg) ∈ Str.split ";" (pre +:+ join "; " segs) ∨ (" " +:+ seg) ∈ Str.split ";" (pre +:+ join "; " segs).
Proof.
  revert pre. induction segs as [|x segs IH]; intros pre Hf Hin Hp; [by apply not_elem_of_nil in Hin|].
  apply Forall_cons in Hf as [Hx Hf]. destruct segs as [|y segs].
  - apply list_elem_of_singleton in Hin as ->. cbn [join]. rewrite split_free by (by apply free_of_app). left. by left.
  - change (join "; " (x :: y :: segs)) with (x +:+ String ";" (" " +:+ join "; " (y :: segs))).
    rewrite <- Str.append_assoc, split_sep, split_free by (by apply free_of_app).
    apply elem_of_cons in Hin as [->|Hin]; [left; by left|]. right. apply elem_of_app. right.
    destruct (IH " " Hf Hin) as [H|H]; done.
Qed.

Lemma cookie_pair_read n v pre :
  pre = "" ∨ pre = " " → Str.all Trim.is_graph n = true → free_of "=" n → Str.all Trim.is_graph v = true →
  cookie_pair (pre +:+ n +:+ "=" +:+ v) = Some (n, v).
Proof.
  intros Hpre Hn He Hv. unfold cookie_pair.
  assert (Str.all Trim.is_graph (n +:+ "=" +:+ v) = true) as Hg by (rewrite !all_app, Hn, Hv; done).
  assert (Chars.trim (pre +:+ n +:+ "=" +:+ v) = n +:+ "=" +:+ v) as ->.
  { destruct Hpre as [-> | ->]; [by apply Trim.trim_graph|by apply trim_space]. }
  rewrite (proj2 (split_once_spec "=" _ n v)) by done. cbn. by rewrite !Trim.trim_graph.
Qed.

Lemma cookie_header_read hs l n v :
  cookie_header l ∈ hs → (n, v) ∈ l → Forall (λ p, free_of ";" (fst p +:+ "=" +:+ snd p)) l →
  Str.all Trim.is_graph n = true → free_of "=" n → Str.all Trim.is_graph v = true → v ∈ cookie_values hs n.
Proof.
  intros Hh Hin Hf Hn He Hv. unfold cookie_values. apply list_elem_of_omap.
  assert (∃ pre, (pre = "" ∨ pre = " ") ∧ (pre +:+ n +:+ "=" +:+ v) ∈ Str.split ";" (cookie_header l)) as (pre & Hpre & Hs).
  { destruct (split_header ((λ p, fst p +:+ "=" +:+ snd p) <$> l) (n +:+ "=" +:+ v) "") as [H|H]; [..|done| |].
    - by apply Forall_fmap.
    - apply list_elem_of_fmap. by exists (n, v).
    - exists "". auto.
    - exists " ". auto. }
  exists (pre +:+ n +:+ "=" +:+ v). split.
  - apply list_elem_of_join. exists (Str.split ";" (cookie_header l)). split; [done|]. apply list_elem_of_fmap. by eexists.
  - rewrite cookie_pair_read by done. cbn. by rewrite String.eqb_refl.
Qed.

Lemma sign_graph p : Str.all Trim.is_graph (sign p) = true.
Proof.
  assert (∀ s, Str.all url_safe s = true → Str.all Trim.is_graph s = true) as H.
  { intros s. apply Str.all_impl. intros [[] [] [] [] [] [] [] []]; vm_compute; congruence. }
  unfold sign. rewrite !all_app, (H (b64 p)), (H (b64 _)) by apply b64_url_safe. done.
Qed.

(** C24. A browser that signed in gets in.  The session cookie of a sign-in that succeeded, sent
    back in a header among any other cookies of the host, those of other gates under the same name
    included, lets a request pass at the same gate until the session runs out: no neighbouring
    cookie sends the browser round the sign-in again. *)
Theorem signed_in_browsers_get_in gate dep req e w flow s ns' req' e' w' l :
  signed_in gate dep req e w flow s → is_valid_cookie_name (cookie_name gate) = true →
  cookie_header l ∈ cookies req' → (cookie_name gate, sign (session_encode s)) ∈ l →
  Forall (λ p, free_of ";" (fst p +:+ "=" +:+ snd p)) l →
  own_path gate (path req') = false → public_scope gate (path req') = None →
  later e' < U64.wrapping_add (later e) (session_ttl_secs gate) →
  ∃ who, fst (decide_gate e' gate dep ns' req' w') = Allow who.
Proof.
  intros Hs Hn Hh Hl Hf Ho Hp Ht.
  destruct (si_vouched _ _ _ _ _ _ _ Hs) as (code & cid & cs & secret & claims & i & tok & tok_id & _ & _ & _ & _ & _ & _ & _ & Hns).
  assert (∃ who, session (later e') gate dep req' = Some who) as [who Hwho].
  { assert (is_Some (session_from (later e') gate dep (sign (session_encode s)))) as [i' Hi'].
    { eexists. apply session_from_spec. exists (session_encode s), s. rewrite verify_sign, session_decode_encode.
      - rewrite Hns. split_and!; [done..|by left|done].
      - rewrite Hns. apply wrapping_add_in_range. }
    assert (i' ∈ omap (session_from (later e') gate dep) (cookie_values (cookies req') (cookie_name gate))) as Hin.
    { apply list_elem_of_omap. exists (sign (session_encode s)). split; [|done].
      unfold is_valid_cookie_name in Hn. apply andb_true_iff in Hn as [_ Hn].
      eapply cookie_header_read; [done..| | |apply sign_graph]; (eapply Str.all_impl; [|done]);
        intros [[] [] [] [] [] [] [] []]; vm_compute; congruence. }
    unfold session. destruct (omap _ _) as [|x ?]; [by apply not_elem_of_nil in Hin|by exists x]. }
  eapply passes_allow; [done|]. by apply pass_session.
Qed.

(** *** Signing out *)

(** The token that a session cookie names. *)
Definition cookie_token (raw : string) : option string := bytes ← verify raw; s ← session_decode bytes; ss_token_id s.

Lemma persist_keeps_store tw fs : store (snd (persist_tokens encode tw fs)) = store tw.
Proof. unfold persist_tokens. by destruct (persist _ _ _ _). Qed.

Lemma revoke_sessions_spec e n raws tw i :
  LbTokens.tokens (store (revoke_sessions e n raws tw)) !! i =
  if bool_decide (Some i ∈ cookie_token <$> raws) then None else LbTokens.tokens (store tw) !! i.
Proof.
  revert n tw. induction raws as [|raw raws IH]; intros n tw; cbn [revoke_sessions fmap list_fmap]; [done|].
  rewrite IH. fold (cookie_token raw). case_bool_decide as Hin.
  { rewrite bool_decide_eq_true_2 by (by right). done. }
  destruct (cookie_token raw) as [j|].
  - destruct (decide (j = i)) as [->|Hj].
    + rewrite bool_decide_eq_true_2 by (by left). unfold revoke. destruct (is_some _); cbn [fst snd];
        rewrite ?persist_keeps_store; cbn; by rewrite lookup_delete_eq.
    + rewrite (bool_decide_eq_false_2 (Some i ∈ Some j :: (cookie_token <$> raws))) by (intros [[= ->]|?]%elem_of_cons; done).
      unfold revoke. destruct (is_some _); cbn [fst snd]; rewrite ?persist_keeps_store; cbn; by rewrite lookup_delete_ne.
  - rewrite (bool_decide_eq_false_2 (Some i ∈ None :: (cookie_token <$> raws))) by (intros [?|?]%elem_of_cons; done). done.
Qed.

(** C25. Signing out ends the session.  The token of every session whose cookie the browser presents
    under this gate's name authenticates no request from then on, with any secret at any time;
    every other token is as it was; and the answer clears both cookies of the gate under the name
    and the domain that a sign-in on this host sets them with, so the browser drops them. *)
Theorem signing_out_ends_the_session e gate req w tw raw i :
  tokens w = Some tw → raw ∈ cookie_values (cookies req) (cookie_name gate) → cookie_token raw = Some i →
  let '(r, (_, w')) := logout e gate req w in
  ∃ tw', tokens w' = Some tw' ∧
    (∀ presented secret t, split presented = Some (i, secret) → fst (LbTokens.verify sha256 (store tw') presented t) = None) ∧
    (∀ j, (∀ raw, raw ∈ cookie_values (cookies req) (cookie_name gate) → cookie_token raw ≠ Some j) →
       LbTokens.tokens (store tw') !! j = LbTokens.tokens (store tw) !! j) ∧
    (∀ req' flow s ck, host req' = host req → ck ∈ set_cookies (welcome gate req' flow s) →
       ∃ ck', ck' ∈ set_cookies r ∧ ck_name ck' = ck_name ck ∧ ck_domain ck' = ck_domain ck ∧ ck_max_age ck' = Some 0).
Proof.
  intros Htw Hraw Hi. unfold logout. rewrite Htw. cbn [ret]. eexists. split; [done|]. split; [|split].
  - intros presented secret t Hs. unfold LbTokens.verify. rewrite Hs, revoke_sessions_spec, bool_decide_eq_true_2; [done|].
    apply list_elem_of_fmap. by exists raw.
  - intros j Hj. rewrite revoke_sessions_spec, bool_decide_eq_false_2; [done|].
    intros (raw' & E & Hr)%list_elem_of_fmap. by eapply Hj.
  - intros req' flow s ck Hh. cbn [welcome redirect set_cookies].
    intros [-> | ->%list_elem_of_singleton]%elem_of_cons; rewrite ?Hh.
    + eexists. split; [by left|done].
    + eexists. split; [right; by left|done].
Qed.
(** A revocation that could not be written is reported all the same: the answer does not depend on
    it, and the file, from which the next start loads, still has the token. *)
Lemma unsaved_revocations_come_back e n raws tw :
  (∀ k, ∃ x m, mkdir (faults e k) = Fails x m) → disk (revoke_sessions e n raws tw) = disk tw.
Proof.
  intros Hf. revert n tw. induction raws as [|raw raws IH]; intros n tw; [done|]. cbn [revoke_sessions]. rewrite IH.
  destruct (bytes ← verify raw; _) as [i|]; [|done]. unfold revoke. destruct (is_some _); [|done].
  unfold persist_tokens, persist. destruct (Hf n) as (x & m & ->). by destruct (encode _).
Qed.

(** A session gets no token when its name would be too long for one. *)
Lemma long_names_get_no_token e t gate dep i w :
  (128 < length (Chars.chars (Chars.trim ("session " +:+ email i +:+ " @ " +:+ dep))))%nat →
  fst (mint_session_token e t gate dep i w) = (None, None).
Proof.
  intros Hl. unfold mint_session_token. destruct (session_scope gate); [|done]. destruct (tokens w); [|done].
  unfold mint, validate_name. cbn [n_name]. destruct (bail_if (String.eqb _ "") EmptyName) as [u|x]; [|done]. cbn [rbind].
  apply Nat.ltb_lt in Hl. by rewrite Hl.
Qed.
End signin.

(** ** The verifier of [jwt.rs] *)

Section jwt_instance.
Context {Float PKey : Type} (float_eqb : Float → Float → bool) (show_number : Number Float → string) (show_nat : nat → string)
  (debug : string → string) (b64_decode : string → option string) (header_of : string → option Header)
  (jwt_claims_of : string → option (gmap string (Value Float))) (jwks_of : string → result string (list Jwk))
  (hmac_sign : Hash → string → string → result string (option string)) (der_of : string → string → option string)
  (check_signature : PKey → Hash → bool → string → string → result string bool)
  (rsa_key : string → string → result string PKey) (ec_key : Curve → string → string → result string PKey)
  (number_of : string → result string string) (x509_key pem_key : string → result string PKey).

#[export] Instance jwt_verifier : Verifier (Value Float) (gmap string (Value Float)) PKey := {|
  jv_verify := LbJwt.verify float_eqb show_number show_nat debug b64_decode header_of jwt_claims_of jwks_of hmac_sign der_of
    check_signature rsa_key ec_key number_of;
  jv_claim := claim_string show_number;
  jv_public_key := key_from_pem x509_key pem_key;
|}.
#[export] Instance jwt_verifier_laws : VerifierLaws jwt_verifier.
Proof. intros t spec k c n a cl c'. apply verified_has_segments. Qed.
End jwt_instance.

(** ** A concrete gate *)

Module SigninDemo.
(** Base64 is the text itself where it can be, and hexadecimal else. *)
Definition hi (c : ascii) : ascii := hex_digit (N_of_ascii c / 16).
Definition lo (c : ascii) : ascii := hex_digit (N_of_ascii c mod 16).
Definition dig (c : ascii) : N := let n := N_of_ascii c in if (n <? 58)%N then (n - 48)%N else (n - 87)%N.
Fixpoint hexs (s : string) : string := match s with "" => "" | String c s => String (hi c) (String (lo c) (hexs s)) end.
Fixpoint unhexs (s : string) : option string :=
  match s with
  | "" => Some ""
  | String x (String y s) => r ← unhexs s; Some (String (ascii_of_N (16 * dig x + dig y)) r)
  | _ => None
  end.
Definition to_b64 (s : string) : string := if Str.all url_safe s then String "A" s else String "B" (hexs s).
Definition of_b64 (s : string) : option string :=
  if Str.all url_safe s then
    match s with
    | String c s => if Ascii.eqb c "A" then Some s else unhexs s
    | "" => Some ""
    end
  else None.
#[global] Instance demo_b64 : Base64 := {| b64 := to_b64; unb64 := of_b64 |}.

Lemma hexs_safe s : Str.all url_safe (hexs s) = true.
Proof. induction s as [|c s IH]; [done|]. cbn [hexs Str.all]. rewrite IH. destruct c as [[] [] [] [] [] [] [] []]; reflexivity. Qed.
Lemma unhexs_hexs s : unhexs (hexs s) = Some s.
Proof. induction s as [|c s IH]; [done|]. cbn [hexs unhexs]. rewrite IH. destruct c as [[] [] [] [] [] [] [] []]; reflexivity. Qed.
#[global] Instance demo_b64_laws : Base64Laws demo_b64.
Proof.
  split.
  - intros x. cbn. unfold to_b64, of_b64. destruct (Str.all url_safe x) eqn:E.
    + cbn [Str.all]. by rewrite E.
    + cbn [Str.all]. by rewrite hexs_safe, <- (unhexs_hexs x).
  - intros s x. cbn. unfold of_b64. by destruct (Str.all url_safe s).
Qed.

(** A cookie's content is its texts and its end: a flow has four texts, a session eight. *)
Definition content : Type := list (option string) * Z.
Definition read_flow (s : string) : option Flow :=
  match Codec.of_text (A := content) s with
  | Some ([Some n; Some r; Some v; Some d], x) =>
    Some {| nonce := n; return_to := r; verifier := v; fl_deployment := d; fl_exp := x |}
  | _ => None
  end.
Definition read_session (s : string) : option Session :=
  match Codec.of_text (A := content) s with
  | Some ([Some su; Some em; n; h; Some d; Some p; t; i], x) =>
    Some {| ss_subject := su; ss_email := em; ss_name := n; ss_hosted_domain := h; ss_deployment := d; ss_policy := p;
            ss_exp := x; ss_token := t; ss_token_id := i |}
  | _ => None
  end.
#[global] Instance demo_codec : CookieCodec := {|
  flow_encode f :=
    Codec.to_text (A := content) ([Some (nonce f); Some (return_to f); Some (verifier f); Some (fl_deployment f)], fl_exp f);
  flow_decode := read_flow;
  session_encode s :=
    Codec.to_text (A := content)
      ([Some (ss_subject s); Some (ss_email s); ss_name s; ss_hosted_domain s; Some (ss_deployment s); Some (ss_policy s);
        ss_token s; ss_token_id s], ss_exp s);
  session_decode := read_session;
|}.
#[global] Instance demo_codec_laws : CookieCodecLaws demo_codec.
Proof.
  split; cbn; unfold read_flow, read_session; intros x; rewrite Codec.of_to_text; try done;
    destruct x as [? ? [?|] [?|] ? ? ? ? ?] || destruct x; done.
Qed.

(** A token of an issuer is accepted when it is this one. *)
#[global] Instance demo_verifier : Verifier string string string := {|
  jv_verify t _ _ c _ _ := if String.eqb t "head.body.sig" then (Ok "ada", c) else (Err LbJwt.BadSignature, c);
  jv_claim c _ := Some c;
  jv_public_key s := Ok s;
|}.
#[global] Instance demo_verifier_laws : VerifierLaws demo_verifier.
Proof.
  intros t spec k c n a cl c'. cbn. destruct (String.eqb_spec t "head.body.sig") as [->|]; [|done]. intros _.
  by exists "head", "body", "sig".
Qed.

Definition show (s : string) : string := s.
Definition sha (s : string) : list N := [1; 2; 3; 4; 5; 6; 7; 8]%N.
Definition hmac (k s : string) : string := k.
Definition b64_bytes (l : list N) : string := hex l.
Definition enc (f : TokenFile) : result string string := Ok "file".
Definition token_response (s : string) : result string (option string) := Ok (Some "h..s").
Definition claims (s : string) : result string IdClaims :=
  Ok {| iss := Some "accounts.google.com"; aud := Some "client"; sub := Some "1"; id_email := Some "Ada@example.com";
        email_verified := IsBool true; hd := Some "example.com"; id_name := None; id_exp := Some 2000 |}.
Definition form (l : list (string * string)) : string := "form".
(** A query is the state of a callback. *)
Definition parse_form (q : string) : list (string * string) := [("code", "c"); ("state", q)].
Definition no_host (u : string) : option string := None.
Definition origin_of (u : string) : option string := Some u.
Definition no_reply (s : string) : option LoginReply := None.
Definition me : Authenticator := {| signing_key := "key"; security := true; admin_addr := None |}.

Definition gate : LbSpec.AuthGate string := GateDemo.google_gate "client" ["example.com"] [] None.
Definition stores : World :=
  {| tokens := Some LbTokens.fresh_world; jwks := ∅; secrets := {["default/google" := {["secret" := "hush"]}]} |}.
Definition fine : LbTokens.Faults := {| mkdir := Fine; create := Fine; chmod := Fine; write := Fine; rename := Fine |}.
Definition env (t : Z) : Env :=
  {| now := t; later := t; jwks_answer := Unreachable ""; exchanged := λ _, Replied true "200" "answer";
     login_answer := λ _ _ _, LoginUnavailable; nonce_draw := "n"; verifier_draw := "v";
     token_draw := {| for_id := [1; 2; 3; 4; 5; 6]%N; for_secret := [7]%N |}; faults := λ _, fine |}.
Definition request (p : string) (q : option string) (cs : list string) : RequestInfo :=
  {| host := "app.example.com"; path := p; query := q; cookies := cs; secure := true; wants_html := true;
     fronts_admin := false; bearer := None; client := None |}.

Definition answer := response (V := demo_verifier) show show sha hmac b64_bytes enc token_response claims form parse_form no_host
  origin_of me no_reply.
Definition flow : Flow := {| nonce := "An"; return_to := "/x?q"; verifier := "Av"; fl_deployment := "app"; fl_exp := 1600 |}.
Definition flow_value : string := sign hmac me (flow_encode flow).
(** A visit, and the callback that the visit leads to. *)
Definition visit : Call := Decides gate "app" "default" (request "/x" (Some "q") []) (env 1000).
Definition back : Call :=
  Decides gate "app" "default" (request "/__applb/auth/callback" (Some "An") [FLOW_COOKIE +:+ "=" +:+ flow_value]) (env 1100).
Definition ada : Session :=
  {| ss_subject := "1"; ss_email := "ada@example.com"; ss_name := None; ss_hosted_domain := Some "example.com";
     ss_deployment := "app"; ss_policy := "0102030405060708"; ss_exp := 44300; ss_token := None; ss_token_id := None |}.
Definition session_value : string := sign hmac me (session_encode ada).

Lemma visit_begins : ∃ r, answer visit stores = Some r ∧ location r = Some (GOOGLE_AUTHORIZE +:+ "?form") ∧
  set_cookies r = [set_cookie FLOW_COOKIE flow_value true (Some 600) None].
Proof. exists (default (text 0 "") (answer visit stores)). refine (conj _ (conj _ _)); vm_compute; reflexivity. Qed.
Lemma back_admits : ∃ r, answer back stores = Some r ∧ location r = Some "https://app.example.com/x?q" ∧
  set_cookies r = [set_cookie "applb_session" session_value true (Some 43200) None; clear_cookie FLOW_COOKIE true None].
Proof. exists (default (text 0 "") (answer back stores)). refine (conj _ (conj _ _)); vm_compute; reflexivity. Qed.

Local Notation "f @demo" := (f show show sha hmac b64_bytes enc token_response claims form parse_form no_host) (at level 1).
Definition history : list (Call * World) := [(visit, stores); (back, stores)].
(** The browser comes back with the session among other cookies. *)
Definition jar : list (string * string) := [("theme", "dark"); ("applb_session", session_value)].
Definition returning : RequestInfo := request "/x" None [cookie_header jar].

Lemma presented_values hs n raw : raw ∈ cookie_values hs n → raw ∈ snd <$> omap cookie_pair (mjoin (Str.split ";" <$> hs)).
Proof.
  intros (pair & Hp & Hr)%list_elem_of_omap. apply list_elem_of_fmap.
  apply bind_Some in Hr as ([k v] & Hc & Hv). destruct (String.eqb k n); [|done]. injection Hv as ->.
  exists (k, raw). split; [done|]. apply list_elem_of_omap. by exists pair.
Qed.
Lemma checked_visit_sets : sets @demo origin_of me no_reply (visit, stores) flow_value.
Proof.
  destruct visit_begins as (r & Hr & _ & Hc). exists r, (set_cookie FLOW_COOKIE flow_value true (Some 600) None).
  split; [exact Hr|]. split; [|reflexivity]. rewrite Hc. by left.
Qed.
Lemma checked_back_sets : sets @demo origin_of me no_reply (back, stores) session_value.
Proof.
  destruct back_admits as (r & Hr & _ & Hc). exists r, (set_cookie "applb_session" session_value true (Some 43200) None).
  split; [exact Hr|]. split; [|reflexivity]. rewrite Hc. by left.
Qed.
Lemma checked_back_cookies : snd <$> omap cookie_pair (mjoin (Str.split ";" <$> cookies (call_req back))) = [flow_value].
Proof. vm_compute. reflexivity. Qed.
Lemma checked_returning_cookies : snd <$> omap cookie_pair (mjoin (Str.split ";" <$> cookies returning)) = ["dark"; session_value].
Proof. vm_compute. reflexivity. Qed.
Lemma checked_other_cookie : verify hmac me "dark" = None.
Proof. vm_compute. reflexivity. Qed.

Lemma back_is_unforged : unforged @demo origin_of me no_reply [(visit, stores)] (call_req back).
Proof.
  intros n raw Hr%presented_values _. rewrite checked_back_cookies in Hr. apply list_elem_of_singleton in Hr as ->.
  exists (visit, stores). split; [by left|apply checked_visit_sets].
Qed.
Lemma history_is_honest : honest @demo origin_of me no_reply history.
Proof.
  apply (honest_snoc @demo origin_of me no_reply [(visit, stores)] (back, stores)); [|exact back_is_unforged].
  apply (honest_snoc @demo origin_of me no_reply [] (visit, stores)); [constructor|].
  intros n raw Hr. by apply not_elem_of_nil in Hr.
Qed.
Lemma returning_is_unforged : unforged @demo origin_of me no_reply history returning.
Proof.
  intros n raw Hr%presented_values Hv. rewrite checked_returning_cookies in Hr.
  apply elem_of_cons in Hr as [-> | ->%list_elem_of_singleton].
  - by rewrite checked_other_cookie in Hv.
  - exists (back, stores). split; [right; by left|apply checked_back_sets].
Qed.

Definition ada_here : Identity :=
  {| subject := "1"; email := "ada@example.com"; name := None; hosted_domain := Some "example.com"; session_token := None |}.
Lemma checked_session : session show sha hmac me 2000 gate "app" returning = Some ada_here.
Proof. vm_compute. reflexivity. Qed.

Lemma sessions_are_earned_witness :
  session show sha hmac me 2000 gate "app" returning = Some ada_here ∧
  ∃ l gate' dep' ns' req' e' w' l' flow s, history = l ++ (Decides gate' dep' ns' req' e', w') :: l' ∧
    signed_in show show sha hmac b64_bytes enc token_response claims parse_form me gate' dep' req' e' w' flow s.
Proof.
  destruct (sessions_are_earned @demo origin_of me no_reply history gate "app" returning 2000 ada_here
    history_is_honest returning_is_unforged checked_session) as (l & g & d & n & r & e & w & l' & f & s & H1 & H2 & _).
  split; [exact checked_session|]. exists l, g, d, n, r, e, w, l', f, s. exact (conj H1 H2).
Defined.

Lemma redirects_stay_on_the_site_witness : ∃ r, answer back stores = Some r ∧
  (configured gate "https://app.example.com/x?q" ∨ at_home gate (call_req back) "https://app.example.com/x?q").
Proof.
  destruct back_admits as (r & Hr & Hl & _). exists r. split; [exact Hr|].
  exact (redirects_stay_on_the_site @demo origin_of me no_reply [(visit, stores)] back stores r _ back_is_unforged Hr Hl).
Defined.

Lemma checked_signed_in :
  signed_in show show sha hmac b64_bytes enc token_response claims parse_form me gate "app" (call_req back) (env 1100) stores flow ada.
Proof.
  split; [vm_compute; reflexivity| |vm_compute; reflexivity..|].
  - assert (verified_flows hmac me (call_req back) = [flow]) as -> by (vm_compute; reflexivity). by left.
  - exists "c", "client", GateDemo.client_ref, "hush". eexists _, ada_here, None, None.
    refine (conj _ (conj _ (conj _ (conj _ (conj _ (conj _ (conj _ _))))))); vm_compute; reflexivity.
Qed.
Lemma checked_jar : Forall (λ p, free_of ";" (fst p +:+ "=" +:+ snd p)) jar.
Proof. repeat constructor; vm_compute; reflexivity. Qed.
Lemma signed_in_browsers_get_in_witness :
  ∃ who, fst (decide_gate @demo me (env 2000) gate "app" "default" returning stores) = Allow who.
Proof.
  apply (signed_in_browsers_get_in show show sha hmac b64_bytes enc token_response claims form parse_form no_host
    origin_of (λ _, None) me no_reply gate "app" (call_req back) (env 1100) stores flow ada "default" returning (env 2000) stores jar checked_signed_in).
  - reflexivity.
  - by left.
  - right; by left.
  - exact checked_jar.
  - vm_compute; reflexivity.
  - vm_compute; reflexivity.
  - vm_compute; reflexivity.
Defined.

(** A session with a token, and signing out. *)
Definition with_token : Session :=
  {| ss_subject := "1"; ss_email := "ada@example.com"; ss_name := None; ss_hosted_domain := None; ss_deployment := "app";
     ss_policy := "0102030405060708"; ss_exp := 44300; ss_token := Some "applb_0102030405060708_07"; ss_token_id := Some "0102030405060708" |}.
Definition leaving : RequestInfo :=
  request "/__applb/auth/logout" None [cookie_header [("applb_session", sign hmac me (session_encode with_token))]].
Lemma checked_leaving : sign hmac me (session_encode with_token) ∈ cookie_values (cookies leaving) (cookie_name gate).
Proof.
  assert (cookie_values (cookies leaving) (cookie_name gate) = [sign hmac me (session_encode with_token)]) as -> by (vm_compute; reflexivity).
  by left.
Qed.
Lemma checked_leaving_token : cookie_token hmac me (sign hmac me (session_encode with_token)) = Some "0102030405060708".
Proof. vm_compute. reflexivity. Qed.
Lemma signing_out_ends_the_session_witness :
  let '(_, (_, w')) := logout hmac enc me (env 2000) gate leaving stores in
  ∃ tw', tokens w' = Some tw' ∧ ∀ presented secret t, split presented = Some ("0102030405060708", secret) →
    fst (LbTokens.verify sha (store tw') presented t) = None.
Proof.
  pose proof (signing_out_ends_the_session sha hmac enc me (env 2000) gate leaving stores LbTokens.fresh_world _ _ eq_refl
    checked_leaving checked_leaving_token) as H.
  destruct (logout hmac enc me (env 2000) gate leaving stores) as [r [o w']].
  destruct H as (tw' & H1 & H2 & _). exists tw'. exact (conj H1 H2).
Defined.

Lemma checked_returning : fst (decide_gate @demo me (env 2000) gate "app" "default" returning stores) = Allow (Some ada_here).
Proof. vm_compute. reflexivity. Qed.
Lemma passing_needs_a_credential_witness : passes show show sha hmac me (env 2000) gate "app" "default" returning stores (Some ada_here).
Proof.
  exact (proj2 (proj1 (passing_needs_a_credential show show sha hmac b64_bytes enc token_response claims form parse_form no_host
    origin_of (λ _, None) me no_reply (env 2000) gate "app" "default" returning stores) _ checked_returning)).
Defined.
End SigninDemo.
