(* ===== verification/LbSite.v ===== *)
(** * Static sites: [app-lb/src/site.rs] and [serve_site] of [app-lb/src/proxy.rs]

    A deployment with a [site] is answered out of a directory of the host.  [resolve] turns the
    path of a request into a file, after percent-decoding, a check of the segments, and a second
    check once every symbolic link is followed; [serve_site] puts HTTP around it: validators,
    ranges, and a loop that streams the file.  The file system is a tree of files, directories
    and links, and [std::fs] and [std::path] what the source uses of them on it. *)
From Stdlib Require Import Ascii String ZArith Lia Bool.
From stdpp Require Import base option list strings gmap.
From S2P Require Import Prelude LbRegistry LbSpec LbGate LbConfig LbJwt.
Open Scope string_scope.
Open Scope list_scope.
Local Open Scope Z_scope.

(** ** The file system *)

Record FileData : Type := { content : string; mtime : option Z (** seconds, when there is one after the epoch *) }.
Inductive Node : Type :=
| NFile (f : FileData)
| NDir (search list_ : bool)   (** whether the process may enter it, and read it *)
| NLink (target : string).

(** The nodes by where they are, the innermost name first, and the working directory.  [links] is how
    many links the kernel follows before it gives up. *)
Record FileSystem : Type := { nodes : gmap (list string) Node; cwd : list string; links : nat }.

Inductive IoError : Type := NotFound | NotADirectory | PermissionDenied | FilesystemLoop.

Section namei.
Context (fs : FileSystem).

(** Following a path from a directory, segment by segment. *)
Fixpoint follow (n : nat) : list string → list string → result IoError (list string) :=
  fix go (at_ : list string) (todo : list string) {struct todo} :=
    match todo with
    | [] => Ok at_
    | s :: todo =>
      match nodes fs !! at_ with
      | None => Err NotFound
      | Some (NDir search _) =>
        if String.eqb s "" then go at_ todo
        else if negb search then Err PermissionDenied
        else if String.eqb s "." then go at_ todo
        else if String.eqb s ".." then go (tail at_) todo
        else
          match nodes fs !! (s :: at_) with
          | None => Err NotFound
          | Some (NLink t) =>
            match n with
            | O => Err FilesystemLoop
            | S n => follow n (if is_absolute t then [] else at_) (Str.split "/" t ++ todo)
            end
          | Some _ => go (s :: at_) todo
          end
      | Some _ => Err NotADirectory
      end
    end.

Definition locate (p : string) : result IoError (list string) :=
  if String.eqb p "" then Err NotFound
  else follow (links fs) (if is_absolute p then [] else cwd fs) (Str.split "/" p).

(** [fs::metadata], [Path::is_file] and [Path::is_dir]. *)
Definition metadata (p : string) : result IoError Node :=
  c <-? locate p ;; ok_or (nodes fs !! c) NotFound.
Definition is_file (p : string) : bool := match metadata p with Ok (NFile _) => true | _ => false end.
Definition is_dir (p : string) : bool := match metadata p with Ok (NDir _ _) => true | _ => false end.

(** [fs::read_dir], as far as its first entry. *)
Definition read_dir (p : string) : result IoError bool :=
  c <-? locate p ;;
  match nodes fs !! c with
  | Some (NDir _ true) => Ok (existsb (λ k, bool_decide (tail k = c) && negb (bool_decide (k = []))) (map_to_list (nodes fs)).*1)
  | Some (NDir _ false) => Err PermissionDenied
  | Some _ => Err NotADirectory
  | None => Err NotFound
  end.
End namei.

(** The absolute path of a place. *)
Definition path_text (c : list string) : string := "/" +:+ join "/" (rev c).

(** [Path::join]. *)
Definition path_join (base rel : string) : string :=
  if is_absolute rel || String.eqb base "" then rel
  else if Str.ends_with "/" base then base +:+ rel
  else base +:+ "/" +:+ rel.

(** ** Percent-decoding *)

(** [char::to_digit(16)]. *)
Definition hex_value (c : ascii) : option N :=
  let n := N_of_ascii c in
  if Str.is_ascii_digit c then Some (n - 48)%N
  else if Str.in_range 65 70 c then Some (n - 55)%N
  else if Str.in_range 97 102 c then Some (n - 87)%N
  else None.

Fixpoint unescape (s : string) : option string :=
  match s with
  | "" => Some ""
  | String "%" s =>
    match s with
    | String h (String l s) =>
      hi ← hex_value h; lo ← hex_value l; rest ← unescape s; Some (String (ascii_of_N (hi * 16 + lo)) rest)
    | _ => None
    end
  | String c s => rest ← unescape s; Some (String c rest)
  end.

(** [String::from_utf8] accepts the bytes. *)
Fixpoint utf8 (s : string) : bool :=
  let cont := Str.in_range 128 191 in
  match s with
  | "" => true
  | String a s1 =>
    if Str.in_range 0 127 a then utf8 s1
    else
      match s1 with
      | "" => false
      | String b s2 =>
        if Str.in_range 194 223 a then cont b && utf8 s2
        else
          match s2 with
          | "" => false
          | String c s3 =>
            if Str.in_range 224 239 a then
              Str.in_range (if Ascii.eqb a "224" then 160 else 128) (if Ascii.eqb a "237" then 159 else 191) b
              && cont c && utf8 s3
            else
              match s3 with
              | "" => false
              | String d s4 =>
                Str.in_range 240 244 a
                && Str.in_range (if Ascii.eqb a "240" then 144 else 128) (if Ascii.eqb a "244" then 143 else 191) b
                && cont c && cont d && utf8 s4
              end
          end
      end
  end.

(** [percent_decode]. *)
Definition percent_decode (s : string) : option string :=
  if negb (Str.contains "%" s) then Some s
  else bytes ← unescape s; if utf8 bytes then Some bytes else None.

(** ** Which file *)

(** [safe_relative]. *)
Definition safe_relative (path : string) : option string :=
  if Str.contains nul path then None
  else
    let cs := components (Str.trim_start_matches "/" path) in
    if existsb (λ c, match c with ParentDir | RootDir => true | _ => false end) cs then None
    else Some (join "/" (names_of cs)).

(** [Resolved]. *)
Inductive Resolved : Type := File (p : string) | NoFile (page : option string) | Redirect (to : string).

(** [existing_page]. *)
Definition existing_page (fs : FileSystem) (root_ : string) (page : option string) : option string :=
  page ← page;
  let page := Chars.trim page in
  if String.eqb page "" then None
  else let path := path_join root_ page in if is_file fs path then Some path else None.

Definition is_under (outer inner : list string) : bool := bool_decide (outer `suffix_of` inner).

(** [resolve]. *)
Definition resolve (fs : FileSystem) (spec : SiteSpec) (request_path : string) : Resolved :=
  let missing := NoFile (existing_page fs (root spec) (not_found spec)) in
  match (decoded ← percent_decode request_path; safe_relative decoded) with
  | None => missing
  | Some relative =>
    match locate fs (path_join (root spec) relative) with
    | Err _ =>
      match (if spa spec then existing_page fs (root spec) (Some (index_file spec)) else None) with
      | Some index => File index
      | None => missing
      end
    | Ok c =>
      match locate fs (root spec) with
      | Err _ => missing
      | Ok r =>
        let canonical := path_text c in
        if negb (is_under r c) then missing
        else if is_dir fs canonical then
          if negb (Str.ends_with "/" request_path) then Redirect (request_path +:+ "/")
          else
            let index := Chars.trim (index_file spec) in
            if String.eqb index "" then missing
            else let file := path_join canonical index in if is_file fs file then File file else missing
        else if is_file fs canonical then File canonical
        else missing
      end
    end
  end.

(** [root_status], the hint by its parts. *)
Inductive RootState : Type := StOk | StMissing | StNotADirectory | StUnreadable | StEmpty.
Inductive Hint : Type :=
| Fill | Because (e : IoError) | NotDir | Unlistable (e : IoError) | NothingThere | NoIndex (index : string) (spa_too : bool).
Record RootStatus : Type := { rs_root : string; rs_status : RootState; index_present : option bool; hint : option Hint }.

Definition root_status (fs : FileSystem) (spec : SiteSpec) : RootStatus :=
  let at_ := Chars.trim (root spec) in
  let mk s i h := {| rs_root := root spec; rs_status := s; index_present := i; hint := h |} in
  match metadata fs at_ with
  | Err NotFound => mk StMissing None (Some Fill)
  | Err e => mk StUnreadable None (Some (Because e))
  | Ok m =>
    match m with
    | NDir _ _ =>
      match read_dir fs at_ with
      | Err e => mk StUnreadable None (Some (Unlistable e))
      | Ok false => mk StEmpty None (Some NothingThere)
      | Ok true =>
        let index := Chars.trim (index_file spec) in
        if String.eqb index "" then mk StOk None None
        else
          let present := is_file fs (path_join at_ index) in
          mk StOk (Some present) (if present then None else Some (NoIndex index (spa spec)))
      end
    | _ => mk StNotADirectory None (Some NotDir)
    end
  end.

(** ** Types, validators, ranges *)

(** [content_type]. *)
Definition content_types : list (list string * string) :=
  [(["html"; "htm"], "text/html; charset=utf-8"); (["css"], "text/css; charset=utf-8");
   (["js"; "mjs"], "text/javascript; charset=utf-8"); (["json"], "application/json; charset=utf-8");
   (["map"], "application/json; charset=utf-8"); (["txt"], "text/plain; charset=utf-8");
   (["xml"], "application/xml; charset=utf-8"); (["svg"], "image/svg+xml"); (["png"], "image/png");
   (["jpg"; "jpeg"], "image/jpeg"); (["gif"], "image/gif"); (["webp"], "image/webp"); (["avif"], "image/avif");
   (["ico"], "image/x-icon"); (["woff"], "font/woff"); (["woff2"], "font/woff2"); (["ttf"], "font/ttf");
   (["otf"], "font/otf"); (["wasm"], "application/wasm"); (["pdf"], "application/pdf"); (["zip"], "application/zip");
   (["gz"], "application/gzip"); (["mp4"], "video/mp4"); (["webm"], "video/webm"); (["mp3"], "audio/mpeg");
   (["csv"], "text/csv; charset=utf-8")].
Definition file_extension (p : string) : option string :=
  match last (components p) with Some (Normal n) => extension n | _ => None end.
Definition content_type (p : string) : string :=
  let ext := Str.to_ascii_lowercase (default "" (file_extension p)) in
  match List.find (λ t, existsb (String.eqb ext) (fst t)) content_types with
  | Some t => snd t
  | None => "application/octet-stream"
  end.

(** [etag], from the length and the modification time. *)
Record Meta : Type := { m_len : Z; m_mtime : option Z }.
Definition lower_hex (n : Z) : string := let n := Z.to_N n in hex_digits (N.to_nat (N.log2 n / 4 + 1)) n.
Definition etag (m : Meta) : string := dquote +:+ lower_hex (m_len m) +:+ "-" +:+ lower_hex (default 0 (m_mtime m)) +:+ dquote.

(** [trim_start_matches("W/")]. *)
Fixpoint unweaken (s : string) : string := match s with String "W" (String "/" s) => unweaken s | _ => s end.
(** [etag_matches]. *)
Definition etag_matches (if_none_match tag : string) : bool :=
  let want := unweaken (Chars.trim tag) in
  existsb (λ t, let t := Chars.trim t in String.eqb t "*" || String.eqb (unweaken t) want) (Str.split "," if_none_match).

Definition u64_of : string → option Z := ParseInt.unsigned U64.max.

(** [parse_range]. *)
Definition parse_range (header : string) (len : Z) : result unit (option (Z * Z)) :=
  match Str.strip_prefix "bytes=" (Chars.trim header) with
  | None => Ok None
  | Some spec =>
    if Str.contains "," spec then Ok None
    else if len =? 0 then Err tt
    else
      se <-? ok_or (Chars.split_once "-" spec) tt ;;
      let s := Chars.trim (fst se) in let e := Chars.trim (snd se) in
      fl <-?
        match String.eqb s "", String.eqb e "" with
        | true, false => n <-? ok_or (u64_of e) tt ;; if n =? 0 then Err tt else Ok (U64.saturating_sub len n, len - 1)
        | false, true => n <-? ok_or (u64_of s) tt ;; Ok (n, len - 1)
        | false, false => a <-? ok_or (u64_of s) tt ;; b <-? ok_or (u64_of e) tt ;; Ok (a, Z.min b (len - 1))
        | true, true => Err tt
        end ;;
      let '(first, last) := fl in
      if (len =? 0) || (last <? first) || (len <=? first) then Err tt else Ok (Some (first, last))
  end.

(** ** The response *)

Definition STREAM_CHUNK : Z := 64 * 1024.

(** What the session is told to write: the header, whether it ends the response, and the chunks of the
    body, each with the flag that says it is the last. *)
Record SiteResponse : Type := {
  sr_status : Z; sr_headers : list (string * string); sr_ends : bool; sr_body : list (string * bool);
}.

(** The file when it is opened: it is not there, its metadata cannot be had, or both are; then
    the seek, and the reads, by number, offset and buffer. *)
Inductive ReadEnd : Type := Got (s : string) | ReadFails.
Record Handle : Type := {
  opened : string → option (option Meta);
  seeks : bool;
  read : nat → Z → Z → ReadEnd;
}.

(** The loop that streams [remaining] bytes from an offset, through a buffer. *)
Fixpoint stream (fuel : nat) (rd : nat → Z → Z → ReadEnd) (i : nat) (off remaining buf : Z) : list (string * bool) :=
  match fuel with
  | O => []
  | S fuel =>
    if remaining <=? 0 then []
    else
      match rd i off (Z.min buf remaining) with
      | ReadFails => []
      | Got s =>
        let n := Z.of_nat (String.length s) in
        if n =? 0 then []
        else (s, remaining - n =? 0) :: stream fuel rd (S i) (off + n) (remaining - n) buf
      end
  end.

Section serve.
(** Numbers, as [to_string] has them. *)
Context (show_Z : Z → string).
Definition length_header (n : Z) : string * string := ("content-length", show_Z n).

(** [write_plain]. *)
Definition write_plain (code : Z) (message : string) : SiteResponse :=
  {| sr_status := code;
     sr_headers := [length_header (Z.of_nat (String.length message)); ("content-type", "text/plain; charset=utf-8")];
     sr_ends := false; sr_body := [(message, true)] |}.

Definition newline : string := String "010" "".
Definition state_name (s : RootState) : string :=
  match s with
  | StOk => "ok" | StMissing => "missing" | StNotADirectory => "not-a-directory" | StUnreadable => "unreadable" | StEmpty => "empty"
  end.

(** Nothing to serve: the root says why. *)
Definition refuse (fs : FileSystem) (spec : SiteSpec) : SiteResponse :=
  match rs_status (root_status fs spec) with
  | StOk => write_plain 404 ("not found" +:+ newline)
  | s =>
    let body := "not found: this site has no files deployed yet" +:+ newline in
    {| sr_status := 404;
       sr_headers := [("x-applb-site", "root-" +:+ state_name s); length_header (Z.of_nat (String.length body));
                      ("content-type", "text/plain; charset=utf-8")];
       sr_ends := false; sr_body := [(body, true)] |}
  end.

(** A file, from an offset. *)
Definition send_file (h : Handle) (spec : SiteSpec) (file tag : string) (head_only : bool) (status_ len offset count : Z) : SiteResponse :=
  {| sr_status := status_;
     sr_headers :=
       [("content-type", content_type file); length_header count; ("etag", tag); ("cache-control", cache_control spec);
        ("accept-ranges", "bytes")]
       ++ (if status_ =? 206 then
             [("content-range", "bytes " +:+ show_Z offset +:+ "-" +:+ show_Z (offset + count - 1) +:+ "/" +:+ show_Z len)]
           else []);
     sr_ends := head_only;
     sr_body := if head_only || ((0 <? offset) && negb (seeks h)) then []
                else stream (Z.to_nat count) (read h) 0 offset count (Z.min STREAM_CHUNK (Z.max count 1)) |}.

(** [serve_site]: the path, [If-None-Match], [Range], and whether the method is [HEAD]. *)
Definition serve_site (fs : FileSystem) (h : Handle) (spec : SiteSpec) (path : string)
    (if_none_match range : option string) (head_only : bool) : SiteResponse :=
  let target :=
    match resolve fs spec path with
    | File f => inl (f, 200)
    | NoFile (Some page) => inl (page, 404)
    | NoFile None => inr (refuse fs spec)
    | Redirect to =>
      inr {| sr_status := 301; sr_headers := [("location", to); ("content-length", "0")]; sr_ends := true; sr_body := [] |}
    end in
  match target with
  | inr r => r
  | inl (file, status_) =>
    match opened h file with
    | None | Some None => write_plain 404 ("not found" +:+ newline)
    | Some (Some m) =>
      let len := m_len m in
      let tag := etag m in
      if (status_ =? 200) && match if_none_match with Some v => etag_matches v tag | None => false end then
        {| sr_status := 304; sr_headers := [("etag", tag); ("cache-control", cache_control spec)]; sr_ends := true; sr_body := [] |}
      else
        match (if status_ =? 200 then match range with Some raw => parse_range raw len | None => Ok None end else Ok None) with
        | Err _ =>
          {| sr_status := 416; sr_headers := [("content-range", "bytes */" +:+ show_Z len); ("content-length", "0")];
             sr_ends := true; sr_body := [] |}
        | Ok (Some (first, last)) => send_file h spec file tag head_only 206 len first (last - first + 1)
        | Ok None => send_file h spec file tag head_only status_ len 0 len
        end
    end
  end.
End serve.

(** ** Following paths *)

(** A name of a directory's entry. *)
Definition plain_name (s : string) : Prop := s ≠ "" ∧ s ≠ "." ∧ s ≠ ".." ∧ free_of "/" s.

Lemma split_pieces c s : Forall (free_of c) (Str.split c s).
Proof.
  induction s as [|b s IH]; [by repeat constructor|]. cbn [Str.split]. destruct (Ascii.eqb b c) eqn:E.
  - by constructor.
  - assert (free_of c (String b "")) as Hb by (unfold free_of; cbn [Str.all]; by rewrite E).
    destruct (Str.split c s) as [|p ps]; [by repeat constructor|]. inversion IH; subst. constructor; [|done].
    change (String b p) with (String b "" +:+ p). by apply free_of_app.
Qed.

Lemma split_join c l : l ≠ [] → Forall (free_of c) l → Str.split c (join (String c "") l) = l.
Proof.
  intros Hl Hf. induction Hf as [|x l Hx Hf IH]; [done|]. destruct l as [|y l].
  - cbn [join]. by apply split_whole.
  - change (join (String c "") (x :: y :: l)) with (x +:+ String c (join (String c "") (y :: l))).
    rewrite split_first by done. by rewrite IH.
Qed.

Section following.
Context (fs : FileSystem).

Lemma follow_nil n at_ : follow fs n at_ [] = Ok at_.
Proof. by destruct n. Qed.
Lemma follow_cons n at_ s todo :
  follow fs n at_ (s :: todo) =
  match nodes fs !! at_ with
  | None => Err NotFound
  | Some (NDir search _) =>
    if String.eqb s "" then follow fs n at_ todo
    else if negb search then Err PermissionDenied
    else if String.eqb s "." then follow fs n at_ todo
    else if String.eqb s ".." then follow fs n (tail at_) todo
    else
      match nodes fs !! (s :: at_) with
      | None => Err NotFound
      | Some (NLink t) =>
        match n with
        | O => Err FilesystemLoop
        | S n => follow fs n (if is_absolute t then [] else at_) (Str.split "/" t ++ todo)
        end
      | Some _ => follow fs n (s :: at_) todo
      end
  | Some _ => Err NotADirectory
  end.
Proof. by destruct n. Qed.

(** A place that is there: no link, below directories that can be entered. *)
Inductive reached : list string → Prop :=
| reached_root b l : nodes fs !! [] = Some (NDir b l) → reached []
| reached_child s c l x : reached c → nodes fs !! c = Some (NDir true l) → plain_name s →
    nodes fs !! (s :: c) = Some x → (∀ t, x ≠ NLink t) → reached (s :: c).

Lemma reached_node c : reached c → ∃ x, nodes fs !! c = Some x ∧ ∀ t, x ≠ NLink t.
Proof. intros [b l H|s c' l x _ _ _ H Hx]; [by exists (NDir b l)|by exists x]. Qed.

Lemma reached_above names c : reached (names ++ c) → reached c.
Proof. induction names as [|s names IH]; [done|]. cbn. inversion 1; subst; auto. Qed.
Lemma reached_tail c : reached c → reached (tail c).
Proof. intros [b l H|s c' l x H _ _ _ _]; [by eapply reached_root|done]. Qed.

(** What the kernel finds is there. *)
Lemma follow_reached n at_ todo c :
  reached [] → reached at_ → Forall (free_of "/") todo → follow fs n at_ todo = Ok c → reached c.
Proof.
  intros H0. revert at_ todo. induction n as [n IHn] using lt_wf_ind. intros at_ todo. revert at_.
  induction todo as [|s todo IH]; intros at_ Ha Hf; [rewrite follow_nil; by intros [= <-]|].
  rewrite follow_cons. inversion_clear Hf as [|? ? Hs Hf'].
  destruct (nodes fs !! at_) as [[|search l|]|] eqn:Eat; try done.
  destruct (String.eqb_spec s ""); [by apply IH|]. destruct search; [|done]. cbn [negb].
  destruct (String.eqb_spec s "."); [by apply IH|].
  destruct (String.eqb_spec s ".."); [apply IH; [by apply reached_tail|done]|].
  destruct (nodes fs !! (s :: at_)) as [x|] eqn:Ex; [|done].
  assert (∀ y, x = y → (∀ t, y ≠ NLink t) → reached (s :: at_)) as Hchild.
  { intros y -> Hy. eapply reached_child; eauto. done. }
  destruct x as [f|b l'|t]; [by apply IH; [eapply Hchild|]..|].
  destruct n as [|n]; [done|]. apply IHn; [lia|by destruct (is_absolute t)|].
  apply Forall_app. split; [apply split_pieces|done].
Qed.

(** Going down the names of a place leads to it. *)
Lemma follow_names n at_ names : reached (rev names ++ at_) → follow fs n at_ names = Ok (rev names ++ at_).
Proof.
  revert at_. induction names as [|s names IH]; intros at_ H; [apply follow_nil|].
  cbn [rev] in *. rewrite <- (assoc_L (++)) in *. cbn in *. rewrite follow_cons.
  pose proof (reached_above _ _ H) as Hs. inversion Hs as [|? ? l x Ha Hat (Hn1 & Hn2 & Hn3 & _) Hx Hlink]; subst.
  rewrite Hat. destruct (String.eqb_spec s ""); [done|]. cbn [negb].
  destruct (String.eqb_spec s "."); [done|]. destruct (String.eqb_spec s ".."); [done|]. rewrite Hx.
  destruct x as [| |t]; [by apply IH..|by destruct (Hlink t)].
Qed.

Lemma reached_names c : reached c → Forall plain_name c.
Proof. induction 1; by constructor. Qed.

Lemma join_names_split l : Forall plain_name l → l ≠ [] → Str.split "/" (join "/" l) = l.
Proof. intros H Hl. apply (split_join "/"%char); [done|]. eapply Forall_impl; [done|]. by intros x (_ & _ & _ & ?). Qed.

(** The absolute path of what is there leads to it: resolving is done once. *)
Lemma locate_path_text c : reached c → locate fs (path_text c) = Ok c.
Proof.
  intros H. unfold locate, path_text. change (is_absolute ("/" +:+ join "/" (rev c))) with true.
  change (String.eqb ("/" +:+ join "/" (rev c)) "") with false. cbv iota.
  change ("/" +:+ join "/" (rev c)) with ("" +:+ String "/" (join "/" (rev c))). rewrite split_sep.
  change (Str.split "/" "" ++ Str.split "/" (join "/" (rev c))) with ("" :: Str.split "/" (join "/" (rev c))).
  assert (reached []) as H0 by (apply (reached_above c); by rewrite app_nil_r).
  inversion H0 as [b l Hroot|]; subst. rewrite follow_cons, Hroot. cbn [String.eqb].
  destruct (decide (c = [])) as [->|Hc].
  - cbn [rev join Str.split]. rewrite follow_cons, Hroot. cbn [String.eqb]. apply follow_nil.
  - rewrite join_names_split.
    + rewrite <- (app_nil_r c) at 2. rewrite <- (rev_involutive c) at 2. apply follow_names.
      by rewrite rev_involutive, app_nil_r.
    + apply Forall_rev. by apply reached_names.
    + intros E. apply Hc. by rewrite <- (rev_involutive c), E.
Qed.

(** Two stretches of a path, one after the other. *)
Lemma follow_app n at_ xs ys c :
  follow fs n at_ (xs ++ ys) = Ok c → ∃ m k, follow fs n at_ xs = Ok m ∧ (k <= n)%nat ∧ follow fs k m ys = Ok c.
Proof.
  revert at_ xs. induction n as [n IHn] using lt_wf_ind. intros at_ xs. revert at_.
  induction xs as [|s xs IH]; intros at_; [intros H; exists at_, n; by rewrite follow_nil|].
  cbn [app]. rewrite !follow_cons. destruct (nodes fs !! at_) as [[|search l|]|]; try done.
  destruct (String.eqb s ""); [apply IH|]. destruct (negb search); [done|].
  destruct (String.eqb s "."); [apply IH|]. destruct (String.eqb s ".."); [apply IH|].
  destruct (nodes fs !! (s :: at_)) as [[|?|t]|]; try done; try apply IH.
  destruct n as [|n]; [done|]. intros H. rewrite (assoc_L (++)) in H. apply IHn in H as (m & k & ? & ? & ?); [|lia].
  exists m, k. split_and!; [done|lia|done].
Qed.

(** Where there are no links, a path without a way up leads down. *)
Lemma follow_down n r at_ todo c :
  (∀ names t, nodes fs !! (names ++ r) ≠ Some (NLink t)) → r `suffix_of` at_ → ".." ∉ todo →
  follow fs n at_ todo = Ok c → r `suffix_of` c.
Proof.
  intros Hl. revert at_. induction todo as [|s todo IH]; intros at_ Hr Hu; [rewrite follow_nil; by intros [= <-]|].
  rewrite not_elem_of_cons in Hu. destruct Hu as [Hs Hu]. rewrite follow_cons.
  destruct (nodes fs !! at_) as [[|search l|]|]; try done.
  destruct (String.eqb s ""); [by apply IH|]. destruct (negb search); [done|].
  destruct (String.eqb s "."); [by apply IH|]. destruct (String.eqb_spec s ".."); [congruence|].
  destruct Hr as [names ->]. assert (r `suffix_of` s :: names ++ r) as Hr' by (by exists (s :: names)).
  destruct (nodes fs !! (s :: names ++ r)) as [[|?|t]|] eqn:E; try done; try by apply IH.
  by destruct (Hl (s :: names) t).
Qed.
End following.

(** ** Joined paths *)

Section joined.
Context (fs : FileSystem).

Lemma follow_split n at_ xs m : follow fs n at_ xs = Ok m → ∃ k, ∀ ys, follow fs n at_ (xs ++ ys) = follow fs k m ys.
Proof.
  revert at_ xs. induction n as [n IHn] using lt_wf_ind. intros at_ xs. revert at_.
  induction xs as [|s xs IH]; intros at_; [rewrite follow_nil; intros [= <-]; by exists n|].
  rewrite follow_cons. cbn [app]. intros H.
  assert (∀ a todo j, follow fs j a todo = Ok m → (∃ k, ∀ ys, follow fs j a (todo ++ ys) = follow fs k m ys) →
    (∀ ys, follow fs n at_ (s :: xs ++ ys) = follow fs j a (todo ++ ys)) → ∃ k, ∀ ys, follow fs n at_ (s :: xs ++ ys) = follow fs k m ys) as Hstep.
  { intros a todo j _ [k Hk] E. exists k. intros ys. by rewrite E. }
  destruct (nodes fs !! at_) as [[|search l|]|] eqn:Eat; try done.
  destruct (String.eqb s "") eqn:E1; [eapply Hstep; [exact H|by apply IH|]; intros ys; by rewrite follow_cons, Eat, E1|].
  destruct (negb search) eqn:E2; [done|].
  destruct (String.eqb s ".") eqn:E3; [eapply Hstep; [exact H|by apply IH|]; intros ys; by rewrite follow_cons, Eat, E1, E2, E3|].
  destruct (String.eqb s "..") eqn:E4; [eapply Hstep; [exact H|by apply IH|]; intros ys; by rewrite follow_cons, Eat, E1, E2, E3, E4|].
  destruct (nodes fs !! (s :: at_)) as [[|?|t]|] eqn:Ex; try done.
  - eapply Hstep; [exact H|by apply IH|]; intros ys; by rewrite follow_cons, Eat, E1, E2, E3, E4, Ex.
  - eapply Hstep; [exact H|by apply IH|]; intros ys; by rewrite follow_cons, Eat, E1, E2, E3, E4, Ex.
  - destruct n as [|n]; [done|]. eapply Hstep; [exact H|apply (IHn n); [lia|exact H]|].
    intros ys. by rewrite follow_cons, Eat, E1, E2, E3, E4, Ex, (assoc_L (++)).
Qed.

Lemma absolute_app base s : base ≠ "" → is_absolute (base +:+ s) = is_absolute base.
Proof.
  destruct base as [|c base]; [done|]. intros _. unfold is_absolute, Str.starts_with. change (String c base +:+ s) with (String c (base +:+ s)).
  cbn [Str.strip_prefix]. by destruct (Ascii.eqb _ _).
Qed.
Lemma append_nonempty base s : base ≠ "" → String.eqb (base +:+ s) "" = false.
Proof. by destruct base as [|c base]. Qed.

(** The segments of a directory, without the end of a path that says it is one. *)
Definition stem (base : string) : list string :=
  match Str.strip_suffix "/" base with Some t => Str.split "/" t | None => Str.split "/" base end.

Lemma stem_split base : Str.split "/" base = stem base ∨ Str.split "/" base = stem base ++ [""].
Proof.
  unfold stem. destruct (Str.strip_suffix "/" base) as [t|] eqn:E; [|by left].
  apply strip_suffix_spec in E as ->. right. change (t +:+ "/") with (t +:+ String "/" ""). by rewrite split_sep.
Qed.

Lemma join_segments base rel :
  base ≠ "" → is_absolute rel = false →
  Str.split "/" (path_join base rel) = stem base ++ Str.split "/" rel ∧
  is_absolute (path_join base rel) = is_absolute base ∧ String.eqb (path_join base rel) "" = false.
Proof.
  intros Hb Hr. unfold path_join, stem, Str.strip_suffix. rewrite Hr. destruct (String.eqb_spec base ""); [done|]. cbn [orb].
  destruct (Str.ends_with "/" base) eqn:E.
  - pose proof E as E'. apply ends_with_spec in E' as [t ->].
    replace (Str.take _ _) with t.
    2: { rewrite Trim.length_append, Nat.add_sub. by rewrite Str.take_app. }
    rewrite Str.append_assoc. change ("/" +:+ rel) with (String "/" rel). rewrite split_sep. split_and!; [done| |by destruct t].
    destruct (decide (t = "")) as [->|Ht]; [done|]. by rewrite !absolute_app.
  - change ("/" +:+ rel) with (String "/" rel). rewrite split_sep.
    split_and!; [done|by apply absolute_app|by apply append_nonempty].
Qed.

Lemma follow_stem n at_ base m : follow fs n at_ (Str.split "/" base) = Ok m → follow fs n at_ (stem base) = Ok m.
Proof.
  destruct (stem_split base) as [-> | ->]; [done|]. intros H. apply follow_app in H as (m' & k & H & _ & H').
  rewrite follow_cons in H'. destruct (nodes fs !! m') as [[]|]; try done. cbn in H'. rewrite follow_nil in H'. congruence.
Qed.

(** A path below a directory goes on from where the directory is. *)
Lemma locate_below base m :
  base ≠ "" → locate fs base = Ok m → ∃ k, ∀ rel, is_absolute rel = false → locate fs (path_join base rel) = follow fs k m (Str.split "/" rel).
Proof.
  intros Hb H. unfold locate in H. destruct (String.eqb_spec base ""); [done|].
  apply follow_stem, follow_split in H as [k Hk]. exists k. intros rel Hr.
  destruct (join_segments base rel Hb Hr) as (Hj & Ha & He). unfold locate. by rewrite He, Hj, Ha, <- Hk.
Qed.
(** And what is found there, is found below a directory. *)
Lemma locate_base base rel c :
  base ≠ "" → is_absolute rel = false → locate fs (path_join base rel) = Ok c → ∃ m, locate fs base = Ok m.
Proof.
  intros Hb Hr. destruct (join_segments base rel Hb Hr) as (Hj & Ha & He). unfold locate. rewrite He, Hj, Ha. intros H.
  destruct (String.eqb_spec base ""); [done|]. apply follow_app in H as (m & k & H & _ & H'). exists m.
  destruct (stem_split base) as [-> | ->]; [done|]. apply follow_split in H as [j Hj']. rewrite Hj', follow_cons.
  pose proof (Str.split_not_nil "/" rel). destruct (Str.split "/" rel) as [|y ys]; [done|]. rewrite follow_cons in H'.
  destruct (nodes fs !! m) as [[]|]; try done. apply follow_nil.
Qed.
End joined.

(** ** Which files are served *)

(** The places the process can be in. *)
Definition wf (fs : FileSystem) : Prop := reached fs [] ∧ reached fs (cwd fs).
Definition serves (fs : FileSystem) (spec : SiteSpec) (req p : string) : Prop :=
  resolve fs spec req = File p ∨ resolve fs spec req = NoFile (Some p).
(** The pages a spec names. *)
Inductive page_of (spec : SiteSpec) : string → Prop :=
| page_index : page_of spec (Chars.trim (index_file spec))
| page_missing v : not_found spec = Some v → page_of spec (Chars.trim v).

Lemma locate_reached fs p c : wf fs → locate fs p = Ok c → reached fs c.
Proof.
  intros [H0 Hc]. unfold locate. destruct (String.eqb p ""); [done|]. apply follow_reached; [done| |apply split_pieces].
  by destruct (is_absolute p).
Qed.

Lemma is_file_spec fs p : is_file fs p = true ↔ ∃ c f, locate fs p = Ok c ∧ nodes fs !! c = Some (NFile f).
Proof.
  unfold is_file, metadata. destruct (locate fs p) as [c|e]; cbn [rbind]; [|naive_solver].
  destruct (nodes fs !! c) as [[]|] eqn:E; cbn [ok_or]; split; try done; try naive_solver.
Qed.

Lemma existing_page_spec fs r v p :
  existing_page fs r (Some v) = Some p ↔ Chars.trim v ≠ "" ∧ p = path_join r (Chars.trim v) ∧ is_file fs p = true.
Proof.
  unfold existing_page. cbn. destruct (String.eqb_spec (Chars.trim v) ""); [naive_solver|].
  set (q := path_join r (Chars.trim v)). destruct (is_file fs q) eqn:E.
  - split; [intros [= <-]; done|intros (_ & -> & _); done].
  - split; [done|intros (_ & -> & H); congruence].
Qed.

(** Where what is served was found. *)
Inductive found_at (fs : FileSystem) (spec : SiteSpec) (p : string) : Prop :=
| found_file r c f : locate fs (root spec) = Ok r → r `suffix_of` c → locate fs p = Ok c → nodes fs !! c = Some (NFile f) → found_at fs spec p
| found_page base page c f :
    base = root spec ∨ (∃ r d, locate fs (root spec) = Ok r ∧ r `suffix_of` d ∧ reached fs d ∧ base = path_text d) →
    page_of spec page → page ≠ "" → p = path_join base page → locate fs p = Ok c → nodes fs !! c = Some (NFile f) → found_at fs spec p.

Lemma page_found fs spec v p :
  page_of spec (Chars.trim v) → existing_page fs (root spec) (Some v) = Some p → found_at fs spec p.
Proof.
  intros Hp (Hv & -> & (c & f & Hc & Hf)%is_file_spec)%existing_page_spec. eapply found_page; eauto.
Qed.

Lemma serves_found fs spec req p : wf fs → serves fs spec req p → found_at fs spec p.
Proof.
  intros Hwf. unfold serves, resolve. set (missing := NoFile (existing_page fs (root spec) (not_found spec))).
  assert (missing = File p ∨ missing = NoFile (Some p) → found_at fs spec p) as Hm.
  { unfold missing. intros [|[= H]]; [done|]. destruct (not_found spec) as [v|] eqn:E; [|done].
    eapply page_found; [by apply page_missing|done]. }
  clearbody missing. destruct (decoded ← percent_decode req; safe_relative decoded) as [rel|]; [|done].
  destruct (locate fs (path_join (root spec) rel)) as [c|e] eqn:Ec.
  - destruct (locate fs (root spec)) as [r|e] eqn:Er; [|done]. unfold is_under. case_bool_decide as Hrc; [|done]. cbn [negb].
    pose proof (locate_path_text fs c (locate_reached _ _ _ Hwf Ec)) as Hpt.
    destruct (is_dir fs (path_text c)).
    + destruct (negb _); [intros [|]; done|]. destruct (String.eqb_spec (Chars.trim (index_file spec)) ""); [done|].
      destruct (is_file fs (path_join (path_text c) _)) eqn:Ef; [|done]. intros [[= <-]|]; [|done].
      apply is_file_spec in Ef as (d & f & Hd & Hf). eapply found_page; [right| |done|done|done|done]; [|apply page_index].
      exists r, c. split_and!; [done|done|by eapply locate_reached|done].
    + destruct (is_file fs (path_text c)) eqn:Ef; [|done]. intros [[= <-]|]; [|done].
      apply is_file_spec in Ef as (d & f & Hd & Hf). rewrite Hpt in Hd. injection Hd as <-. by eapply found_file.
  - destruct (if spa spec then _ else None) as [i|] eqn:Ei; [|done]. intros [[= <-]|]; [|done].
    destruct (spa spec); [|done]. eapply page_found; [apply page_index|done].
Qed.

Lemma trim_nonempty s : Chars.trim s ≠ "" → s ≠ "".
Proof. by intros H ->. Qed.

(** What the validation of a spec says of its pages. *)
Lemma valid_pages spec page :
  validate_site spec = Ok tt → page_of spec page → page ≠ "" → root spec ≠ "" ∧ climbs page = false.
Proof.
  unfold validate_site. intros H Hp Hne. apply seq_ok in H as [H1%bail_if_ok H]. apply seq_ok in H as [_ H].
  apply seq_ok in H as [Hi H]. apply seq_ok in H as [Hn _]. split.
  - apply trim_nonempty. by destruct (String.eqb_spec (Chars.trim (root spec)) "").
  - assert (∀ v field, validate_site_path field (Some v) = Ok tt → Chars.trim v ≠ "" → climbs (Chars.trim v) = false) as Hv.
    { intros v field. unfold validate_site_path. rewrite bail_if_ok. intros E Hv. destruct (String.eqb_spec (Chars.trim v) ""); [done|]. exact E. }
    destruct Hp as [|v E]; [by apply (Hv _ "index")|]. rewrite E in Hn. by apply (Hv _ "not_found").
Qed.

(** C14. Nothing is served from outside the directory of a site: the file a request gets, the error
    page included, is a regular file in that directory, whatever the path of the request, percent
    signs, dots and symbolic links in it included; or it is a page the spec names, looked up in the
    directory of the site or in one below it.  Such a page may be a link: where no link lies below
    the directory, every file served is in it. *)
Theorem sites_serve_their_root fs spec req p :
  wf fs → validate_site spec = Ok tt → serves fs spec req p →
  ∃ r c f, locate fs (root spec) = Ok r ∧ locate fs p = Ok c ∧ nodes fs !! c = Some (NFile f) ∧
    (r `suffix_of` c ∨
     ∃ d page, r `suffix_of` d ∧ (locate fs (root spec) = Ok d ∧ p = path_join (root spec) page ∨ p = path_join (path_text d) page) ∧
       page_of spec page ∧ page ≠ "" ∧ climbs page = false) ∧
    ((∀ names t, nodes fs !! (names ++ r) ≠ Some (NLink t)) → r `suffix_of` c).
Proof.
  intros Hwf Hv Hs. destruct (serves_found _ _ _ _ Hwf Hs) as [r c f Hr Hrc Hc Hf|base page c f Hbase Hp Hne -> Hc Hf].
  - exists r, c, f. split_and!; auto.
  - destruct (valid_pages _ _ Hv Hp Hne) as [Hroot Hcl]. pose proof Hcl as [Ha Hup]%orb_false_iff. apply existsb_eqb_false in Hup.
    assert (∃ r d, locate fs (root spec) = Ok r ∧ r `suffix_of` d ∧ locate fs base = Ok d ∧ base ≠ "" ∧ (base = root spec ∨ base = path_text d))
      as (r & d & Hr & Hrd & Hd & Hb & Hbd).
    { destruct Hbase as [->|(r & d & Hr & Hrd & Hd & ->)].
      - destruct (locate_base _ _ _ _ Hroot Ha Hc) as [r Hr]. exists r, r. split_and!; auto.
      - exists r, d. split_and!; auto. by apply locate_path_text. }
    exists r, c, f. split_and!; [done|done|done| |].
    + right. exists d, page. split_and!; [done| |done|done|done]. destruct Hbd as [->| ->]; auto.
    + intros Hl. destruct (locate_below _ _ _ Hb Hd) as [k Hk]. rewrite Hk in Hc by done. by eapply follow_down.
Qed.

(** *** What is there is found *)

(** [%XX] of the bytes that [esc] picks. *)
Definition upper_digit (n : N) : ascii := ascii_of_N (if (n <? 10)%N then 48 + n else 55 + n)%N.
Fixpoint percent_encode (esc : ascii → bool) (s : string) : string :=
  match s with
  | "" => ""
  | String c s =>
    if esc c then String "%" (String (upper_digit (N_of_ascii c / 16)) (String (upper_digit (N_of_ascii c mod 16)) (percent_encode esc s)))
    else String c (percent_encode esc s)
  end.

Lemma hex_digits_back c :
  (hi ← hex_value (upper_digit (N_of_ascii c / 16)); lo ← hex_value (upper_digit (N_of_ascii c mod 16)); Some (ascii_of_N (hi * 16 + lo)))
  = Some c.
Proof. destruct c as [[] [] [] [] [] [] [] []]; vm_compute; reflexivity. Qed.

Lemma unescape_cons c s : Ascii.eqb c "%" = false → unescape (String c s) = rest ← unescape s; Some (String c rest).
Proof. destruct c as [[] [] [] [] [] [] [] []]; done. Qed.

Lemma unescape_encode esc s : esc "%"%char = true → unescape (percent_encode esc s) = Some s.
Proof.
  intros He. induction s as [|c s IH]; [done|]. cbn [percent_encode]. destruct (esc c) eqn:E.
  - cbn [unescape]. pose proof (hex_digits_back c) as Hc.
    destruct (hex_value (upper_digit (N_of_ascii c / 16))) as [hi|]; [|done]. cbn [mbind option_bind] in *.
    destruct (hex_value (upper_digit (N_of_ascii c mod 16))) as [lo|]; [|done]. cbn [mbind option_bind] in *.
    rewrite IH. cbn [mbind option_bind]. by injection Hc as ->.
  - rewrite unescape_cons; [by rewrite IH|]. destruct (Ascii.eqb_spec c "%"); [congruence|done].
Qed.

Lemma encode_plain esc s : esc "%"%char = true → Str.contains "%" (percent_encode esc s) = false → percent_encode esc s = s.
Proof.
  intros He. induction s as [|c s IH]; [done|]. cbn [percent_encode]. destruct (esc c).
  - cbn [Str.contains Str.starts_with Str.strip_prefix]. done.
  - change (Str.contains "%" (String c (percent_encode esc s))) with
      (Str.starts_with "%" (String c (percent_encode esc s)) || Str.contains "%" (percent_encode esc s)).
    intros [_ H]%orb_false_iff. by rewrite IH.
Qed.

(** Escaping any bytes of a text, the percent signs among them, is undone. *)
Lemma percent_decode_encode esc s : esc "%"%char = true → utf8 s = true → percent_decode (percent_encode esc s) = Some s.
Proof.
  intros He Hu. unfold percent_decode. destruct (Str.contains "%" (percent_encode esc s)) eqn:E; cbn [negb].
  - rewrite unescape_encode by done. cbn [mbind option_bind]. by rewrite Hu.
  - by rewrite (encode_plain _ _ He E).
Qed.

Lemma names_relative l : Forall plain_name l → is_absolute (join "/" l) = false.
Proof.
  intros Hl. destruct Hl as [|x l (H1 & _ & _ & Hf) Hl]; [done|]. destruct x as [|c x]; [done|].
  unfold free_of in Hf. cbn [Str.all] in Hf. apply andb_true_iff in Hf as [Hc%negb_true_iff _].
  assert (∃ t, join "/" (String c x :: l) = String c t) as [t ->] by (destruct l; by eexists).
  unfold is_absolute, Str.starts_with. cbn [Str.strip_prefix]. by rewrite Ascii.eqb_sym, Hc.
Qed.
Lemma trim_start_relative s : is_absolute s = false → Str.trim_start_matches "/" ("/" +:+ s) = s.
Proof.
  intros H. change ("/" +:+ s) with (String "/" s). cbn [Str.trim_start_matches]. rewrite Ascii.eqb_refl.
  destruct s as [|c s]; [done|]. revert H. unfold is_absolute, Str.starts_with. cbn [Str.strip_prefix Str.trim_start_matches].
  rewrite Ascii.eqb_sym. by destruct (Ascii.eqb c "/").
Qed.

Lemma components_names l : Forall plain_name l → l ≠ [] → components (join "/" l) = Normal <$> l.
Proof.
  intros Hl Hne. pose proof (names_relative l Hl) as Ha. unfold is_absolute in Ha.
  unfold components. rewrite Ha, join_names_split by done.
  assert (omap segment l = Normal <$> l) as ->.
  { clear Hne Ha. induction Hl as [|x l (H1 & H2 & H3 & _) Hl IH]; [done|]. cbn. unfold segment at 1.
    destruct (String.eqb_spec x ""), (String.eqb_spec x "."), (String.eqb_spec x ".."); try done. cbn. by rewrite IH. }
  destruct Hl as [|x l (_ & H2 & _) Hl]; [done|]. cbn [head]. rewrite bool_decide_false by congruence. done.
Qed.

Lemma names_of_normal l : names_of (Normal <$> l) = l.
Proof. unfold names_of. induction l as [|x l IH]; [done|]. cbn. by rewrite IH. Qed.

Lemma safe_relative_names l :
  Forall plain_name l → l ≠ [] → Str.contains nul ("/" +:+ join "/" l) = false → safe_relative ("/" +:+ join "/" l) = Some (join "/" l).
Proof.
  intros Hl Hne Hn. unfold safe_relative. rewrite Hn, trim_start_relative, components_names by (done || by apply names_relative). rewrite names_of_normal.
  assert (existsb (λ c, match c with ParentDir | RootDir => true | _ => false end) (Normal <$> l) = false) as ->; [|done].
  clear. induction l as [|x l IH]; done.
Qed.

(** Every file of a site can be asked for: a regular file below the directory of the site, down
    directories that the process may enter and through no link, is what the path of its names
    gets, with any bytes of it percent-encoded, the percent signs at least. *)
Theorem files_are_found fs spec esc r names f :
  wf fs → root spec ≠ "" → locate fs (root spec) = Ok r → names ≠ [] → reached fs (rev names ++ r) →
  nodes fs !! (rev names ++ r) = Some (NFile f) →
  esc "%"%char = true → utf8 ("/" +:+ join "/" names) = true → Str.contains nul ("/" +:+ join "/" names) = false →
  resolve fs spec (percent_encode esc ("/" +:+ join "/" names)) = File (path_text (rev names ++ r)).
Proof.
  intros Hwf Hroot Hr Hne Hre Hf He Hu Hn. unfold resolve. rewrite percent_decode_encode by done. cbn [mbind option_bind].
  assert (Forall plain_name names) as Hp.
  { rewrite <- (rev_involutive names). apply Forall_rev. apply reached_names in Hre. by apply Forall_app in Hre as [? _]. }
  rewrite safe_relative_names by done.
  pose proof (names_relative names Hp) as Ha.
  destruct (locate_below _ _ _ Hroot Hr) as [k Hk]. rewrite Hk, join_names_split, follow_names, Hr by done.
  unfold is_under. rewrite bool_decide_true by (by exists (rev names)). cbn [negb].
  pose proof (locate_path_text fs _ Hre) as Hl. unfold is_dir, is_file, metadata. rewrite Hl. cbn [rbind]. by rewrite Hf.
Qed.

(** ** What is sent *)

Lemma digits_nonneg acc s n : 0 <= acc → ParseInt.digits acc s = Some n → 0 <= n.
Proof.
  revert acc. induction s as [|c s IH]; intros acc Ha; cbn [ParseInt.digits]; [by intros [= <-]|].
  destruct (Str.is_ascii_digit c) eqn:E; [|done]. apply IH. unfold Str.is_ascii_digit, Str.in_range in E.
  apply andb_true_iff in E as [E%N.leb_le _]. lia.
Qed.
Lemma u64_of_range s n : u64_of s = Some n → 0 <= n <= U64.max.
Proof.
  unfold u64_of, ParseInt.unsigned. intros H.
  destruct (match s with String "+" s' => s' | _ => s end) as [|c t]; [done|].
  destruct (ParseInt.digits 0 (String c t)) as [m|] eqn:E; [|done]. apply digits_nonneg in E; [|done].
  destruct (m <=? U64.max) eqn:El; [|done]. injection H as <-. lia.
Qed.

(** A number in a range header, blanks around it allowed. *)
Definition numeral (t : string) (n : Z) : Prop := u64_of (Chars.trim t) = Some n.
Definition blank_text (t : string) : Prop := Chars.trim t = "".

(** Which bytes of a file of [len] bytes a [Range] header asks for: the last ones, those from one on, or
    those from one to another, as far as the file has them. *)
Inductive asks (len : Z) (header : string) : Z → Z → Prop :=
| asks_last s e n : Chars.trim header = "bytes=" +:+ s +:+ "-" +:+ e → free_of "-" s → free_of "," (s +:+ "-" +:+ e) →
    blank_text s → numeral e n → 0 < n → 0 < len → asks len header (Z.max 0 (len - n)) (len - 1)
| asks_from s e n : Chars.trim header = "bytes=" +:+ s +:+ "-" +:+ e → free_of "-" s → free_of "," (s +:+ "-" +:+ e) →
    numeral s n → blank_text e → n < len → asks len header n (len - 1)
| asks_both s e a b : Chars.trim header = "bytes=" +:+ s +:+ "-" +:+ e → free_of "-" s → free_of "," (s +:+ "-" +:+ e) →
    numeral s a → numeral e b → a <= b → a < len → asks len header a (Z.min b (len - 1)).
(** Another unit, or several ranges. *)
Definition declined (header : string) : Prop :=
  ∀ spec, Chars.trim header = "bytes=" +:+ spec → Str.contains "," spec = true.

Lemma asks_bounds len header a b : asks len header a b → 0 <= a <= b ∧ b < len.
Proof.
  destruct 1 as [s e n _ _ _ _ Hn ?|s e n _ _ _ Hn|s e a b _ _ _ Ha Hb]; unfold numeral in *;
    repeat match goal with H : u64_of _ = Some _ |- _ => apply u64_of_range in H end; lia.
Qed.

Lemma parse_range_None header len : parse_range header len = Ok None ↔ declined header.
Proof.
  unfold parse_range, declined. destruct (Str.strip_prefix "bytes=" (Chars.trim header)) as [spec|] eqn:E.
  - apply Str.strip_prefix_spec in E. destruct (Str.contains "," spec) eqn:Ec.
    + split; [|done]. intros _ spec' E'. rewrite E in E'. apply str_app_inv in E'. by subst.
    + split.
      * intros H. exfalso. destruct (len =? 0); [done|]. destruct (Chars.split_once "-" spec) as [[s e]|]; [|done].
        cbn [ok_or rbind fst snd] in H. apply rbind_ok in H as ([first last] & _ & H). by destruct (_ || _).
      * intros H. specialize (H spec E). congruence.
  - split; [|done]. intros _ spec E'. assert (Str.strip_prefix "bytes=" (Chars.trim header) = Some spec) as H by by apply Str.strip_prefix_spec.
    congruence.
Qed.

Lemma contains_comma s : Str.contains "," s = false ↔ free_of "," s.
Proof. apply contains_free. Qed.

Lemma blank_eqb t : String.eqb (Chars.trim t) "" = true ↔ blank_text t.
Proof. apply String.eqb_eq. Qed.
Lemma numeral_not_blank t n : numeral t n → String.eqb (Chars.trim t) "" = false.
Proof. unfold numeral. destruct (String.eqb_spec (Chars.trim t) "") as [->|]; [done|]. done. Qed.

Lemma parse_range_Some header len a b :
  0 <= len <= U64.max → parse_range header len = Ok (Some (a, b)) ↔ asks len header a b.
Proof.
  intros Hlen. split.
  - unfold parse_range. destruct (Str.strip_prefix "bytes=" (Chars.trim header)) as [spec|] eqn:E; [|done].
    apply Str.strip_prefix_spec in E. destruct (Str.contains "," spec) eqn:Ec; [done|]. apply contains_comma in Ec.
    destruct (Z.eqb_spec len 0) as [|Hl0]; [done|]. destruct (Chars.split_once "-" spec) as [[s e]|] eqn:Es; [|done].
    apply split_once_spec in Es as [-> Hs]. change (String "-" e) with ("-" +:+ e) in *. cbn [ok_or rbind fst snd].
    destruct (String.eqb (Chars.trim s) "") eqn:Bs, (String.eqb (Chars.trim e) "") eqn:Be; try done.
    + destruct (u64_of (Chars.trim e)) as [n|] eqn:En; [|done]. cbn [ok_or rbind]. destruct (Z.eqb_spec n 0); [done|]. cbn [rbind orb].
      pose proof (u64_of_range _ _ En). destruct (_ || _) eqn:Eb; [done|]. intros [= <- <-].
      unfold U64.saturating_sub. rewrite Z.max_comm. eapply asks_last; eauto; [by apply blank_eqb|lia|lia].
    + destruct (u64_of (Chars.trim s)) as [n|] eqn:En; [|done]. cbn [ok_or rbind orb].
      destruct (_ || _) eqn:Eb; [done|]. intros [= <- <-]. eapply asks_from; eauto; [by apply blank_eqb|lia].
    + destruct (u64_of (Chars.trim s)) as [n|] eqn:En; [|done]. destruct (u64_of (Chars.trim e)) as [m|] eqn:Em; [|done].
      cbn [ok_or rbind orb]. destruct (_ || _) eqn:Eb; [done|]. intros [= <- <-]. eapply asks_both; eauto; lia.
  - assert (∀ s e, Chars.trim header = "bytes=" +:+ s +:+ "-" +:+ e → free_of "-" s → free_of "," (s +:+ "-" +:+ e) →
      Str.strip_prefix "bytes=" (Chars.trim header) = Some (s +:+ "-" +:+ e) ∧ Str.contains "," (s +:+ "-" +:+ e) = false ∧
      Chars.split_once "-" (s +:+ "-" +:+ e) = Some (s, e)) as Hshape.
    { intros s e H1 H2 H3. split_and!; [by apply Str.strip_prefix_spec|by apply contains_comma|]. by apply split_once_spec. }
    intros Ha. pose proof (asks_bounds _ _ _ _ Ha) as [Hab Hb]. unfold parse_range.
    destruct Ha as [s e n H1 H2 H3 Hs Hn ?|s e n H1 H2 H3 Hn He|s e a b H1 H2 H3 Ha' Hb'];
      destruct (Hshape s e H1 H2 H3) as (-> & -> & ->); (destruct (Z.eqb_spec len 0); [lia|]); cbn [ok_or rbind fst snd].
    + rewrite (proj2 (blank_eqb s) Hs), (numeral_not_blank _ _ Hn), Hn. cbn [ok_or rbind]. destruct (Z.eqb_spec n 0); [lia|]. cbn [rbind orb].
      unfold U64.saturating_sub. rewrite (Z.max_comm (len - n)). destruct (_ || _) eqn:Eb; [lia|done].
    + rewrite (proj2 (blank_eqb e) He), (numeral_not_blank _ _ Hn), Hn. cbn [ok_or rbind orb]. destruct (_ || _) eqn:Eb; [lia|done].
    + rewrite (numeral_not_blank _ _ Ha'), (numeral_not_blank _ _ Hb'), Ha', Hb'. cbn [ok_or rbind orb]. destruct (_ || _) eqn:Eb; [lia|done].
Qed.

(** The reads of a file that keeps its content: each gives some of the bytes at its offset. *)
Definition stable (data : string) (rd : nat → Z → Z → ReadEnd) : Prop :=
  ∀ i off want, 0 <= off < Z.of_nat (String.length data) → 0 < want →
    ∃ s t, rd i off want = Got s ∧ s ≠ "" ∧ Z.of_nat (String.length s) <= want ∧ Str.drop (Z.to_nat off) data = s +:+ t.
Definition slice (data : string) (off count : Z) : string := Str.take (Z.to_nat count) (Str.drop (Z.to_nat off) data).

Lemma take_more s t n : Str.take (String.length s + n) (s +:+ t) = s +:+ Str.take n t.
Proof. induction s as [|c s IH]; [done|]. change (String c s +:+ t) with (String c (s +:+ t)). cbn [String.length Nat.add Str.take]. by rewrite IH. Qed.
Lemma drop_drop n m s : Str.drop n (Str.drop m s) = Str.drop (m + n) s.
Proof. revert s. induction m as [|m IH]; intros s; [done|]. destruct s as [|c s]; [by destruct n|]. apply IH. Qed.
Lemma length_drop n s : String.length (Str.drop n s) = (String.length s - n)%nat.
Proof. revert s. induction n as [|n IH]; intros s; [cbn; lia|]. destruct s as [|c s]; [done|]. apply IH. Qed.
Lemma take_none s : Str.take 0 s = "".
Proof. by destruct s. Qed.

Lemma take_length n s : String.length (Str.take n s) = (n `min` String.length s)%nat.
Proof. revert s. induction n as [|n IH]; intros s; [by destruct s|]. destruct s as [|c s]; [done|]. cbn. by rewrite IH. Qed.
Lemma slice_none data off : slice data off 0 = "".
Proof. unfold slice. by rewrite take_none. Qed.

(** The loop sends the bytes asked for, in order, and marks the last chunk. *)
Lemma stream_slice data rd buf fuel i off count :
  stable data rd → 0 < buf → 0 <= off → 0 <= count → off + count <= Z.of_nat (String.length data) → count <= Z.of_nat fuel →
  Chars.concat (fst <$> stream fuel rd i off count buf) = slice data off count ∧
  ∀ k x, stream fuel rd i off count buf !! k = Some x →
    snd x = bool_decide (S k = length (stream fuel rd i off count buf)) ∧ 0 < Z.of_nat (String.length (fst x)) <= buf.
Proof.
  intros Hst Hb. revert i off count. induction fuel as [|fuel IH]; intros i off count Ho Hc Hle Hf.
  { assert (count = 0) as -> by lia. by rewrite slice_none. }
  cbn [stream]. destruct (Z.leb_spec count 0) as [Hz|Hz].
  { assert (count = 0) as -> by lia. by rewrite slice_none. }
  destruct (Hst i off (Z.min buf count)) as (s & t & -> & Hs & Hw & Hd); [lia|lia|].
  assert (String.length s ≠ 0%nat) as Hn by (by destruct s).
  destruct (Z.eqb_spec (Z.of_nat (String.length s)) 0) as [|_]; [lia|]. cbn [fmap list_fmap fst Chars.concat].
  destruct (IH (S i) (off + Z.of_nat (String.length s)) (count - Z.of_nat (String.length s))) as [IH1 IH2]; [lia..|]. split.
  - rewrite IH1. unfold slice. rewrite Z2Nat.inj_add, Nat2Z.id, <- drop_drop, Hd, Str.drop_app by lia.
    replace (Z.to_nat count) with (String.length s + Z.to_nat (count - Z.of_nat (String.length s)))%nat by lia. by rewrite take_more.
  - intros [|k] x; cbn [lookup list_lookup]; [|intros H; apply IH2 in H as [-> ?]; split; [|done]].
    + intros [= <-]. cbn [fst snd length]. split; [|lia].
      set (m := count - Z.of_nat (String.length s)) in *. destruct (stream fuel rd (S i) _ m buf) as [|y l] eqn:El.
      * rewrite bool_decide_true by done. apply Z.eqb_eq. cbn in IH1. clear -IH1 Hle Ho Hw Hd.
        assert (String.length (slice data (off + Z.of_nat (String.length s)) m) = 0%nat) as H by (by rewrite <- IH1).
        unfold slice in H. rewrite take_length, length_drop in H. lia.
      * rewrite bool_decide_false by done. apply Z.eqb_neq. intros E. rewrite E in El. destruct fuel; done.
    + by apply bool_decide_ext; cbn [length]; lia.
Qed.

Lemma slice_whole data : slice data 0 (Z.of_nat (String.length data)) = data.
Proof. unfold slice. rewrite Nat2Z.id. cbn [Z.to_nat Str.drop]. destruct data; [done|]. apply take_all. Qed.

(** A file that opens, and keeps its content while it is read. *)
Definition holds_file (h : Handle) (file data : string) (m : Meta) : Prop :=
  opened h file = Some (Some m) ∧ m_len m = Z.of_nat (String.length data) ∧ seeks h = true ∧ stable data (read h) ∧
  Z.of_nat (String.length data) <= U64.max.

(** What a request for a file is owed: the status, and which bytes. *)
Inductive owed (len : Z) (tag : string) (if_none_match range : option string) : Z → Z → Z → Prop :=
| owed_nothing v : if_none_match = Some v → etag_matches v tag = true → owed len tag if_none_match range 304 0 0
| owed_all : (∀ v, if_none_match = Some v → etag_matches v tag = false) → (∀ raw, range = Some raw → declined raw) →
    owed len tag if_none_match range 200 0 len
| owed_part raw a b : (∀ v, if_none_match = Some v → etag_matches v tag = false) → range = Some raw → asks len raw a b →
    owed len tag if_none_match range 206 a (b - a + 1)
| owed_refusal raw : (∀ v, if_none_match = Some v → etag_matches v tag = false) → range = Some raw → ¬ declined raw →
    (∀ a b, ¬ asks len raw a b) → owed len tag if_none_match range 416 0 0.

Definition body (r : SiteResponse) : string := Chars.concat (fst <$> sr_body r).

Section responses.
Context (show_Z : Z → string).

Lemma sent_file h spec file data m tag head_only st off count :
  holds_file h file data m → 0 <= off → 0 <= count → off + count <= Z.of_nat (String.length data) →
  let r := send_file show_Z h spec file tag head_only st (m_len m) off count in
  sr_status r = st ∧ body r = (if head_only then "" else slice data off count) ∧
  ("content-length", show_Z count) ∈ sr_headers r ∧ ("content-type", content_type file) ∈ sr_headers r ∧
  (st = 206 → ("content-range", "bytes " +:+ show_Z off +:+ "-" +:+ show_Z (off + count - 1) +:+ "/" +:+ show_Z (m_len m)) ∈ sr_headers r).
Proof.
  intros (_ & _ & Hseek & Hst & Hmax) Ho Hc Hle. cbv zeta. unfold send_file, body. cbn [sr_status sr_headers sr_body].
  split; [done|]. split; [|split; [|split]].
  - rewrite Hseek, andb_false_r, orb_false_r. destruct head_only; [done|].
    apply (stream_slice data); [done|unfold STREAM_CHUNK; lia|done|done|done|lia].
  - apply elem_of_app. left. apply list_elem_of_further. apply list_elem_of_here.
  - apply elem_of_app. left. apply list_elem_of_here.
  - intros ->. apply elem_of_app. right. apply list_elem_of_here.
Qed.

(** A site answers with the bytes it is asked for.  When the file a request resolves to opens
    and keeps its content, the answer is 304 without a body for a client that has it, 416 for a
    range the file does not have, and otherwise the whole file or exactly the bytes of the range,
    clamped to its end, with their number as the content length; a page for what was not found is
    sent whole, under a 404.  HEAD gets the same headers and no body. *)
Theorem responses_carry_the_range fs h spec path inm range head_only file data m :
  holds_file h file data m →
  let r := serve_site show_Z fs h spec path inm range head_only in
  (resolve fs spec path = File file →
   ∃ off count, owed (m_len m) (etag m) inm range (sr_status r) off count ∧
     body r = (if head_only then "" else slice data off count) ∧
     (sr_status r = 200 ∨ sr_status r = 206 → ("content-length", show_Z count) ∈ sr_headers r) ∧
     (sr_status r = 206 →
      ("content-range", "bytes " +:+ show_Z off +:+ "-" +:+ show_Z (off + count - 1) +:+ "/" +:+ show_Z (m_len m)) ∈ sr_headers r)) ∧
  (resolve fs spec path = NoFile (Some file) →
   sr_status r = 404 ∧ body r = (if head_only then "" else data) ∧ ("content-length", show_Z (m_len m)) ∈ sr_headers r).
Proof.
  intros Hh. pose proof Hh as (Hop & Hlen & _ & _ & Hmax). cbv zeta. unfold serve_site. split; intros ->; rewrite Hop.
  - change (200 =? 200) with true. cbn [andb].
    assert ((if head_only then "" else slice data 0 0) = "") as Hempty by (destruct head_only; [done|]; apply slice_none).
    destruct (match inm with Some v => etag_matches v (etag m) | None => false end) eqn:Ei.
    { destruct inm as [v|]; [|done]. exists 0, 0. rewrite Hempty. split_and!; [by eapply owed_nothing|done|by intros [|]|done]. }
    assert (∀ v, inm = Some v → etag_matches v (etag m) = false) as Hinm by (by intros v ->).
    destruct (match range with Some raw => parse_range raw (m_len m) | None => Ok None end) as [[[a b]|]|[]] eqn:Er.
    + destruct range as [raw|]; [|done]. apply parse_range_Some in Er; [|lia]. pose proof (asks_bounds _ _ _ _ Er).
      destruct (sent_file h spec file data m (etag m) head_only 206 a (b - a + 1) Hh) as (-> & -> & ? & _ & Hr); [lia..|].
      exists a, (b - a + 1). split_and!; [by eapply owed_part|done|done|exact Hr].
    + destruct (sent_file h spec file data m (etag m) head_only 200 0 (m_len m) Hh) as (-> & -> & ? & _); [lia..|].
      exists 0, (m_len m). split_and!; [|done|done|done]. apply owed_all; [done|]. intros raw ->. by apply parse_range_None in Er.
    + destruct range as [raw|]; [|done]. exists 0, 0. rewrite Hempty. split_and!; [|done|by intros [|]|done].
      eapply owed_refusal; [done|done|intros Hd; apply (parse_range_None _ (m_len m)) in Hd; congruence|].
      intros a b Ha. apply parse_range_Some in Ha; [congruence|lia].
  - change (404 =? 200) with false. cbn [andb].
    destruct (sent_file h spec file data m (etag m) head_only 404 0 (m_len m) Hh) as (-> & -> & ? & _); [lia..|].
    split_and!; [done| |done]. destruct head_only; [done|]. by rewrite Hlen, slice_whole.
Qed.
End responses.

(** ** Examples *)

Module SiteDemo.
Definition file (s : string) : Node := NFile {| content := s; mtime := Some 1700000000 |}.
Definition dir : Node := NDir true true.
(** A site with a page, a directory whose index is a link out of the tree, and another link. *)
Definition host : FileSystem :=
  {| nodes := list_to_map
       [([], dir); (["etc"], dir); (["passwd"; "etc"], file "root:x:0"); (["srv"], dir); (["www"; "srv"], dir);
        (["index.html"; "www"; "srv"], file "hello"); (["a b"; "www"; "srv"], file "spaced");
        (["docs"; "www"; "srv"], dir); (["index.html"; "docs"; "www"; "srv"], NLink "/etc/passwd");
        (["pw"; "www"; "srv"], NLink "../../etc/passwd")];
     cwd := []; links := 40 |}.
Definition site : SiteSpec :=
  {| root := "/srv/www"; index_file := "index.html"; not_found := None; spa := false; cache_control := "no-cache" |}.

Lemma host_root : reached host [].
Proof. by apply (reached_root host true true). Qed.
Lemma host_wf : wf host.
Proof. split; apply host_root. Qed.
Ltac reach := repeat (first [exact host_root | eapply reached_child; [|reflexivity|by repeat split|reflexivity|done]]).
Lemma www_reached : reached host ["www"; "srv"].
Proof. reach. Qed.
Lemma page_reached : reached host ["a b"; "www"; "srv"].
Proof. reach. Qed.

(** Dots, encoded or not, and a link out of the tree find nothing. *)
Example no_way_out :
  (λ p, resolve host site p) <$> ["/../etc/passwd"; "/%2e%2e/etc/passwd"; "/docs/..%2f..%2f..%2fetc/passwd"; "/pw"; "/nothing%00"; "/%ff"]
  = replicate 6 (NoFile None).
Proof. vm_compute. reflexivity. Qed.

(** But the index of a directory may be such a link: what it points to is served. *)
Lemma index_link_leaves_the_root :
  resolve host site "/docs/" = File "/srv/www/docs/index.html" ∧
  locate host "/srv/www/docs/index.html" = Ok ["passwd"; "etc"] ∧ locate host (root site) = Ok ["www"; "srv"].
Proof. vm_compute. done. Qed.

(** The redirect of a directory repeats the path: with a second slash in front it names a host. *)
Lemma redirect_may_name_a_host : resolve host site "//docs" = Redirect "//docs/".
Proof. vm_compute. reflexivity. Qed.

(** A blank before the root passes validation and makes it relative. *)
Definition padded : SiteSpec :=
  {| root := " /srv/www"; index_file := "index.html"; not_found := None; spa := false; cache_control := "no-cache" |}.
Lemma padded_root_serves_nothing :
  validate_site padded = Ok tt ∧ rs_status (root_status host padded) = StOk ∧ resolve host padded "/" = NoFile None.
Proof. vm_compute. done. Qed.

(** A file read two bytes at a time. *)
Definition two_by_two (data : string) (i : nat) (off want : Z) : ReadEnd :=
  Got (Str.take (Z.to_nat (Z.min 2 want)) (Str.drop (Z.to_nat off) data)).
Definition greeting : Handle :=
  {| opened := λ _, Some (Some {| m_len := 5; m_mtime := Some 1700000000 |}); seeks := true; read := two_by_two "hello" |}.
Definition page : string := "/srv/www/index.html".
Definition meta : Meta := {| m_len := 5; m_mtime := Some 1700000000 |}.

Lemma two_by_two_stable data : stable data (two_by_two data).
Proof.
  intros i off want Ho Hw. unfold two_by_two. set (d := Str.drop (Z.to_nat off) data).
  assert (0 < String.length d)%nat as Hd by (unfold d; rewrite length_drop; lia).
  exists (Str.take (Z.to_nat (Z.min 2 want)) d), (Str.drop (Z.to_nat (Z.min 2 want)) d). split_and!; [done| | |by rewrite take_drop_append].
  - intros E. assert (String.length (Str.take (Z.to_nat (Z.min 2 want)) d) = 0%nat) as H by by rewrite E. rewrite take_length in H. lia.
  - rewrite take_length. lia.
Qed.
Lemma greeting_holds : holds_file greeting page "hello" meta.
Proof. split_and!; [done|done|done|apply two_by_two_stable|cbn; unfold U64.max, U64.modulus; lia]. Qed.

Definition show (z : Z) : string := lower_hex z.

Lemma sites_serve_their_root_witness :
  ∃ r c f, locate host (root site) = Ok r ∧ locate host page = Ok c ∧ nodes host !! c = Some (NFile f) ∧ content f = "hello".
Proof.
  assert (validate_site site = Ok tt) as Hv by (vm_compute; reflexivity).
  assert (serves host site "/index.html" page) as Hs by (left; vm_compute; reflexivity).
  destruct (sites_serve_their_root host site "/index.html" page host_wf Hv Hs) as (r & c & f & Hr & Hc & Hf & _).
  exists r, c, f. split_and!; [done..|].
  assert (locate host page = Ok ["index.html"; "www"; "srv"]) as E by (vm_compute; reflexivity).
  rewrite E in Hc. injection Hc as <-.
  assert (nodes host !! ["index.html"; "www"; "srv"] = Some (file "hello")) as E' by (vm_compute; reflexivity).
  rewrite E' in Hf. by injection Hf as <-.
Defined.

Lemma files_are_found_witness :
  resolve host site "/a%20b" = File "/srv/www/a b".
Proof.
  assert (locate host (root site) = Ok ["www"; "srv"]) as Hr by (vm_compute; reflexivity).
  assert (nodes host !! ["a b"; "www"; "srv"] = Some (file "spaced")) as Hf by (vm_compute; reflexivity).
  assert (root site ≠ "") as Hroot by discriminate.
  assert (["a b"] ≠ []) as Hne by discriminate.
  refine (files_are_found host site (λ c, Ascii.eqb c " " || Ascii.eqb c "%") ["www"; "srv"] ["a b"] _ host_wf Hroot Hr Hne page_reached Hf _ _ _);
    vm_compute; reflexivity.
Defined.

Lemma middle_of_the_page tag off count : owed 5 tag None (Some "bytes=1-3") 206 off count → off = 1 ∧ count = 3.
Proof.
  intros Ho. inversion Ho as [| |raw a b _ Hraw Hab|]. clear Ho. injection Hraw as <-.
  assert (0 <= 5 <= U64.max) as Hmax by (unfold U64.max, U64.modulus; lia).
  assert (parse_range "bytes=1-3" 5 = Ok (Some (1, 3))) as Hp by (vm_compute; reflexivity).
  apply (parse_range_Some _ _ _ _ Hmax) in Hab. rewrite Hp in Hab. by injection Hab as <- <-.
Qed.

Lemma responses_carry_the_range_witness :
  let r := serve_site show host greeting site "/" None (Some "bytes=1-3") false in
  sr_status r = 206 ∧ body r = "ell" ∧ ("content-length", "3") ∈ sr_headers r.
Proof.
  assert (resolve host site "/" = File page) as Hf by (vm_compute; reflexivity).
  destruct (proj1 (responses_carry_the_range show host greeting site "/" None (Some "bytes=1-3") false page "hello" meta greeting_holds) Hf)
    as (off & count & Ho & Hb & Hl & _). cbv zeta in *.
  set (r := serve_site show host greeting site "/" None (Some "bytes=1-3") false) in *.
  assert (sr_status r = 206) as Hs by (vm_compute; reflexivity). rewrite Hs in *.
  assert (parse_range "bytes=1-3" 5 = Ok (Some (1, 3))) as Hp by (vm_compute; reflexivity).
  destruct (middle_of_the_page _ _ _ Ho) as [-> ->].
  split; [done|]. split; [exact Hb|]. apply Hl. by right.
Defined.
End SiteDemo.
