(* ===== verification/LbFeed.v ===== *)
(** * The event feed: [app-lb/src/feed.rs]

    A ring of events for each namespace, which a deployment adds to only where its spec says so,
    and the RSS document made of it, dates included.  The lock makes each call one step. *)
From Stdlib Require Import Ascii String ZArith Lia Bool Sorted.
From stdpp Require Import base option list strings gmap fin_maps sets.
From S2P Require Import Prelude LbRegistry LbSpec LbConfig.
Open Scope string_scope.
Open Scope list_scope.
Local Open Scope Z_scope.

Definition RING_CAP : nat := 200.
Definition SUPPRESS_SECS : Z := 300.

Inductive FeedEventKind : Type := Deployed | Updated | Removed | Issue.
#[global] Instance FeedEventKind_eq_dec : EqDecision FeedEventKind.
Proof. solve_decision. Defined.
Definition label (k : FeedEventKind) : string :=
  match k with Deployed => "deployed" | Updated => "updated" | Removed => "removed" | Issue => "issue" end.

Record FeedEvent : Type := {
  fe_id : Z (** u64 *); ts : Z; last_ts : Z; count : Z; fe_namespace : string; fe_deployment : string;
  fe_kind : FeedEventKind; title : string; detail : string;
}.

(** The rings, the oldest event first, and the number of the next one. *)
Record Feed : Type := { rings : gmap string (list FeedEvent); next_id : Z }.
Definition feed_new : Feed := {| rings := ∅; next_id := 1 |}.

(** [push]: a repeat of the newest event, when that is the same issue, or a new event. *)
Definition repeats (dep : string) (k : FeedEventKind) (t : string) (now : Z) (e : FeedEvent) : bool :=
  bool_decide (k = Issue) && bool_decide (fe_kind e = Issue) && String.eqb (fe_deployment e) dep && String.eqb (title e) t
  && (U64.saturating_sub now (last_ts e) <? SUPPRESS_SECS).
Definition fold_in (d : string) (now : Z) (e : FeedEvent) : FeedEvent :=
  {| fe_id := fe_id e; ts := ts e; last_ts := now; count := U64.wrapping_add (count e) 1; fe_namespace := fe_namespace e;
     fe_deployment := fe_deployment e; fe_kind := fe_kind e; title := title e; detail := d |}.
Definition push (ns dep : string) (k : FeedEventKind) (t d : string) (now : Z) (f : Feed) : Feed :=
  let ring := default [] (rings f !! ns) in
  match (e ← last ring; if repeats dep k t now e then Some e else None) with
  | Some e => {| rings := <[ns := removelast ring ++ [fold_in d now e]]> (rings f); next_id := next_id f |}
  | None =>
    let kept := if (length ring =? RING_CAP)%nat then tail ring else ring in
    let e := {| fe_id := next_id f; ts := now; last_ts := now; count := 1; fe_namespace := ns; fe_deployment := dep;
                fe_kind := k; title := t; detail := d |} in
    {| rings := <[ns := kept ++ [e]]> (rings f); next_id := U64.wrapping_add (next_id f) 1 |}
  end.

Section feed.
Context {Json : Type} `{!EqDecision Json}.
Local Abbreviation DeploymentSpec := (LbRegistry.DeploymentSpec (Rest Json) SiteSpec).
Definition feed_of (s : DeploymentSpec) : option FeedSpec := feed (rest_of s).

(** [Feed::announce], [Feed::issue]. *)
Definition announces (s : DeploymentSpec) : bool := match feed_of s with Some f => announce f | None => false end.
Definition has_issues (s : DeploymentSpec) : bool := match feed_of s with Some f => issues f | None => false end.
Definition announce_event (s : DeploymentSpec) (k : FeedEventKind) (d : string) (now : Z) (f : Feed) : Feed :=
  if negb (announces s) then f else push (namespace s) (id s) k (id s +:+ " " +:+ label k) d now f.
Definition issue_event (s : DeploymentSpec) (t d : string) (now : Z) (f : Feed) : Feed :=
  if negb (has_issues s) then f else push (namespace s) (id s) Issue t d now f.
End feed.

(** [recent], [namespaces]. *)
Definition recent (ns : string) (limit : nat) (f : Feed) : list FeedEvent := take limit (rev (default [] (rings f !! ns))).
Definition feed_namespaces (f : Feed) : list string := sort_by String.compare (map_to_list (rings f)).*1.

(** ** The document *)

(** [xml_escape]. *)
Definition xml_char (c : ascii) : string :=
  if Ascii.eqb c "&" then "&amp;" else if Ascii.eqb c "<" then "&lt;" else if Ascii.eqb c ">" then "&gt;"
  else if Ascii.eqb c "034" then "&quot;" else if Ascii.eqb c "'" then "&apos;" else String c "".
Fixpoint xml_escape (s : string) : string :=
  match s with "" => "" | String c s => xml_char c +:+ xml_escape s end.

(** A day as the calendar has it. *)
Record Civil : Type := { year : Z; month : Z; mday : Z }.
#[global] Instance Civil_eq_dec : EqDecision Civil.
Proof. solve_decision. Defined.

(** The date of [rfc822], from the days since 1970-01-01. *)
Definition civil_from_days (days : Z) : Civil :=
  let z := days + 719468 in
  let era := z / 146097 in
  let doe := z mod 146097 in
  let yoe := (doe - doe / 1460 + doe / 36524 - doe / 146096) / 365 in
  let y := yoe + era * 400 in
  let doy := doe - (365 * yoe + yoe / 4 - yoe / 100) in
  let mp := (5 * doy + 2) / 153 in
  let d := doy - (153 * mp + 2) / 5 + 1 in
  let m := if mp <? 10 then mp + 3 else mp - 9 in
  {| year := if m <=? 2 then y + 1 else y; month := m; mday := d |}.

Definition WEEKDAYS : list string := ["Thu"; "Fri"; "Sat"; "Sun"; "Mon"; "Tue"; "Wed"].
Definition MONTHS : list string := ["Jan"; "Feb"; "Mar"; "Apr"; "May"; "Jun"; "Jul"; "Aug"; "Sep"; "Oct"; "Nov"; "Dec"].

(** [{n:02}], of a number with two digits at most. *)
Definition two_digits (n : Z) : string :=
  String (ascii_of_N (48 + Z.to_N (n / 10))) (String (ascii_of_N (48 + Z.to_N (n mod 10))) "").

Section rss.
Context (show_Z : Z → string).

(** [rfc822]; an index out of range panics, and stands here as the empty text. *)
Definition rfc822 (t : Z) : string :=
  let days := t / 86400 in
  let secs := t mod 86400 in
  let c := civil_from_days days in
  default "" (WEEKDAYS !! Z.to_nat (days mod 7)) +:+ ", " +:+ two_digits (mday c) +:+ " "
  +:+ default "" (MONTHS !! Z.to_nat (month c - 1)) +:+ " " +:+ show_Z (year c) +:+ " "
  +:+ two_digits (secs / 3600) +:+ ":" +:+ two_digits (secs / 60 mod 60) +:+ ":" +:+ two_digits (secs mod 60) +:+ " +0000".

Definition nl : string := String "010" "".
Definition element (n v : string) : string := "<" +:+ n +:+ ">" +:+ v +:+ "</" +:+ n +:+ ">" +:+ nl.
Definition quoted (s : string) : string := dquote +:+ s +:+ dquote.

Definition description (e : FeedEvent) : string :=
  if 1 <? count e then detail e +:+ " (repeated " +:+ show_Z (count e) +:+ " times)" else detail e.
Definition rss_item (e : FeedEvent) : string :=
  "<item>" +:+ nl +:+ element "title" (xml_escape (title e)) +:+ element "description" (xml_escape (description e))
  +:+ "<guid isPermaLink=" +:+ quoted "false" +:+ ">applb:" +:+ xml_escape (fe_namespace e) +:+ ":" +:+ show_Z (fe_id e) +:+ "</guid>" +:+ nl
  +:+ element "category" (label (fe_kind e)) +:+ element "pubDate" (rfc822 (ts e)) +:+ "</item>" +:+ nl.

(** [rss]. *)
Definition rss (ns link : string) (events : list FeedEvent) : string :=
  "<?xml version=" +:+ quoted "1.0" +:+ " encoding=" +:+ quoted "UTF-8" +:+ "?>" +:+ nl
  +:+ "<rss version=" +:+ quoted "2.0" +:+ ">" +:+ nl +:+ "<channel>" +:+ nl
  +:+ element "title" (xml_escape ns +:+ " — deployment events")
  +:+ element "link" (xml_escape link)
  +:+ element "description" ("Lifecycle and issue events for deployments in the " +:+ xml_escape ns +:+ " namespace")
  +:+ (match events with e :: _ => element "lastBuildDate" (rfc822 (last_ts e)) | [] => "" end)
  +:+ Chars.concat (rss_item <$> events)
  +:+ "</channel>" +:+ nl +:+ "</rss>" +:+ nl.
End rss.

(** ** Dates *)

Ltac div_lia := Z.to_euclidean_division_equations; lia.

(** The Gregorian calendar: the day after. *)
Definition leap (y : Z) : bool := (y mod 4 =? 0) && negb (y mod 100 =? 0) || (y mod 400 =? 0).
Definition month_length (y m : Z) : Z :=
  if m =? 2 then (if leap y then 29 else 28) else if existsb (Z.eqb m) [4; 6; 9; 11] then 30 else 31.
Definition next_day (c : Civil) : Civil :=
  if mday c <? month_length (year c) (month c) then {| year := year c; month := month c; mday := mday c + 1 |}
  else if month c <? 12 then {| year := year c; month := month c + 1; mday := 1 |}
  else {| year := year c + 1; month := 1; mday := 1 |}.

(** An era has 400 years, counted from the first of March; when its years begin. *)
Definition starts (y : Z) : Z := 365 * y + y / 4 - y / 100 + y / 400.
Definition year_of_era (doe : Z) : Z := (doe - doe / 1460 + doe / 36524 - doe / 146096) / 365.
Definition civil_of (era yoe doy : Z) : Civil :=
  let mp := (5 * doy + 2) / 153 in
  let m := if mp <? 10 then mp + 3 else mp - 9 in
  let y := yoe + era * 400 in
  {| year := if m <=? 2 then y + 1 else y; month := m; mday := doy - (153 * mp + 2) / 5 + 1 |}.

Lemma year_of_era_mono a b : 0 <= a <= b → year_of_era a <= year_of_era b.
Proof.
  intros H. unfold year_of_era. apply Z.div_le_mono; [done|].
  assert (∀ n, 0 <= n → n - n / 1460 + n / 36524 - n / 146096 <= n + 1 - (n + 1) / 1460 + (n + 1) / 36524 - (n + 1) / 146096) as Hstep.
  { intros n Hn. change 146096 with (36524 * 4). rewrite <- !Z.div_div by done.
    assert (n / 36524 <= (n + 1) / 36524 <= n / 36524 + 1) by div_lia. set (x := n / 36524) in *. set (x' := (n + 1) / 36524) in *. clearbody x x'. div_lia. }
  assert (∀ k, a - a / 1460 + a / 36524 - a / 146096 <= a + Z.of_nat k - (a + Z.of_nat k) / 1460 + (a + Z.of_nat k) / 36524 - (a + Z.of_nat k) / 146096) as Hk.
  { induction k as [|k IH]; [by rewrite Z.add_0_r|]. rewrite Nat2Z.inj_succ, <- Z.add_1_r, Z.add_assoc.
    etransitivity; [exact IH|]. apply Hstep. lia. }
  specialize (Hk (Z.to_nat (b - a))). rewrite Z2Nat.id in Hk by lia. by replace (a + (b - a)) with b in Hk by lia.
Qed.

Lemma checked_years : forallb (λ n, let y := Z.of_nat n in (year_of_era (starts y) =? y) && (year_of_era (starts (y + 1) - 1) =? y)) (seq 0 400) = true.
Proof. vm_compute. reflexivity. Qed.

(** The formula finds the year of a day of the era. *)
Lemma year_found y doe : 0 <= y < 400 → starts y <= doe < starts (y + 1) → year_of_era doe = y.
Proof.
  intros Hy Hd. pose proof checked_years as H. rewrite forallb_forall in H. specialize (H (Z.to_nat y)).
  rewrite Z2Nat.id in H by lia. cbv zeta in H. assert (In (Z.to_nat y) (seq 0 400)) as Hin by (apply in_seq; lia).
  apply H in Hin as [H1%Z.eqb_eq H2%Z.eqb_eq]%andb_true_iff. clear H.
  assert (0 <= starts y) by (unfold starts; div_lia).
  pose proof (year_of_era_mono (starts y) doe ltac:(lia)). pose proof (year_of_era_mono doe (starts (y + 1) - 1) ltac:(lia)). lia.
Qed.

Lemma year_exists n doe : 0 <= doe < starts (Z.of_nat n) → ∃ y, 0 <= y < Z.of_nat n ∧ starts y <= doe < starts (y + 1).
Proof.
  induction n as [|n IH]; intros H; [change (starts (Z.of_nat 0)) with 0 in H; lia|]. rewrite Nat2Z.inj_succ, <- Z.add_1_r in *.
  destruct (Z.lt_decidable doe (starts (Z.of_nat n))) as [Hlt|Hge].
  - destruct IH as (y & ? & ?); [lia|]. exists y. lia.
  - exists (Z.of_nat n). lia.
Qed.

(** A day is a day of a year of an era. *)
Lemma civil_split days :
  ∃ yoe, 0 <= yoe < 400 ∧ starts yoe <= (days + 719468) mod 146097 < starts (yoe + 1) ∧
    civil_from_days days = civil_of ((days + 719468) / 146097) yoe ((days + 719468) mod 146097 - starts yoe).
Proof.
  destruct (year_exists 400 ((days + 719468) mod 146097)) as (y & Hy & Hd).
  { change (starts (Z.of_nat 400)) with 146097. apply Z.mod_pos_bound. done. }
  exists y. split; [done|]. split; [done|]. unfold civil_from_days. fold (year_of_era ((days + 719468) mod 146097)).
  rewrite (year_found y) by done. unfold civil_of.
  assert (starts y = 365 * y + y / 4 - y / 100) as ->; [|done]. unfold starts. rewrite (Z.div_small y 400) by lia. lia.
Qed.

(** How long a year of an era is: its February is in the calendar's next year. *)
Lemma year_length era y : 0 <= y < 400 → starts (y + 1) - starts y = if leap (y + 1 + era * 400) then 366 else 365.
Proof.
  intros Hy. unfold starts, leap.
  assert ((y + 1 + era * 400) mod 4 = (y + 1) mod 4) as -> by (replace (y + 1 + era * 400) with (y + 1 + era * 100 * 4) by lia; by apply Z.mod_add).
  assert ((y + 1 + era * 400) mod 100 = (y + 1) mod 100) as -> by (replace (y + 1 + era * 400) with (y + 1 + era * 4 * 100) by lia; by apply Z.mod_add).
  rewrite Z.mod_add by done. destruct (_ || _) eqn:E; div_lia.
Qed.

(** The month and the day of a day of a year that begins in March, and the date in a year. *)
Definition month_day (doy : Z) : Z * Z :=
  let mp := (5 * doy + 2) / 153 in (if mp <? 10 then mp + 3 else mp - 9, doy - (153 * mp + 2) / 5 + 1).
Definition dated (y : Z) (p : Z * Z) : Civil := {| year := if fst p <=? 2 then y + 1 else y; month := fst p; mday := snd p |}.

Definition follows (doy : Z) : bool :=
  let '(m, d) := month_day doy in
  let '(m', d') := month_day (doy + 1) in
  if m =? 2 then (d <? 28) && (m' =? 2) && (d' =? d + 1)
  else if d <? (if existsb (Z.eqb m) [4; 6; 9; 11] then 30 else 31) then (m' =? m) && (d' =? d + 1)
  else (d' =? 1) && (if m <? 12 then (m' =? m + 1) && Bool.eqb (m <=? 2) (m' <=? 2) else (m =? 12) && (m' =? 1)).
Lemma checked_days : forallb (λ n, follows (Z.of_nat n)) (seq 0 364) = true.
Proof. vm_compute. reflexivity. Qed.

Lemma next_in_year y doy : 0 <= doy < 364 → next_day (dated y (month_day doy)) = dated y (month_day (doy + 1)).
Proof.
  intros Hd. pose proof checked_days as H. rewrite forallb_forall in H. specialize (H (Z.to_nat doy)).
  rewrite Z2Nat.id in H by lia. assert (In (Z.to_nat doy) (seq 0 364)) as Hin by (apply in_seq; lia). apply H in Hin. clear H.
  revert Hin. unfold follows, next_day, month_length, dated. destruct (month_day doy) as [m d], (month_day (doy + 1)) as [m' d'].
  cbn [fst snd year month mday]. destruct (Z.eqb_spec m 2) as [->|Hm].
  - intros [[H1%Z.ltb_lt ->%Z.eqb_eq]%andb_true_iff ->%Z.eqb_eq]%andb_true_iff.
    rewrite (proj2 (Z.ltb_lt _ _)); [done|]. destruct (leap _); lia.
  - destruct (d <? (if existsb (Z.eqb m) [4; 6; 9; 11] then 30 else 31)); [by intros [->%Z.eqb_eq ->%Z.eqb_eq]%andb_true_iff|].
    intros [->%Z.eqb_eq H]%andb_true_iff. destruct (Z.ltb_spec m 12).
    + apply andb_true_iff in H as [->%Z.eqb_eq ->%eqb_prop]. done.
    + apply andb_true_iff in H as [->%Z.eqb_eq ->%Z.eqb_eq]. done.
Qed.

(** The end of February. *)
Lemma february_28 y : next_day (dated y (month_day 364)) = if leap (y + 1) then dated y (month_day 365) else dated (y + 1) (month_day 0).
Proof.
  change (month_day 364) with (2, 28). unfold next_day, month_length, dated. cbn [fst snd year month mday]. cbn.
  by destruct (leap (y + 1)).
Qed.
Lemma february_29 y : leap (y + 1) = true → next_day (dated y (month_day 365)) = dated (y + 1) (month_day 0).
Proof. intros H. change (month_day 365) with (2, 29). unfold next_day, month_length, dated. cbn [fst snd year month mday]. cbn. by rewrite H. Qed.

Lemma next_of_era era yoe doy :
  0 <= yoe < 400 → 0 <= doy < starts (yoe + 1) - starts yoe →
  next_day (civil_of era yoe doy) =
  if doy + 1 <? starts (yoe + 1) - starts yoe then civil_of era yoe (doy + 1) else dated (yoe + era * 400 + 1) (month_day 0).
Proof.
  intros Hy Hd. rewrite (year_length era) in * by done.
  change (next_day (dated (yoe + era * 400) (month_day doy)) =
    if doy + 1 <? (if leap (yoe + 1 + era * 400) then 366 else 365) then dated (yoe + era * 400) (month_day (doy + 1))
    else dated (yoe + era * 400 + 1) (month_day 0)).
  replace (yoe + 1 + era * 400) with (yoe + era * 400 + 1) in * by lia. set (y := yoe + era * 400) in *. clearbody y.
  destruct (Z.lt_decidable doy 364); [|destruct (Z.eq_decidable doy 364) as [->|]].
  - rewrite next_in_year by lia. rewrite (proj2 (Z.ltb_lt _ _)); [done|]. destruct (leap _); lia.
  - rewrite february_28. by destruct (leap (y + 1)).
  - destruct (leap (y + 1)) eqn:E; [|lia]. assert (doy = 365) as -> by lia. by apply february_29.
Qed.

(** The dates of a feed are the calendar's, leap years and all: day 0 is the first of January of 1970,
    and the date of the day after is the calendar's next date. *)
Theorem dates_follow_the_calendar days :
  civil_from_days 0 = {| year := 1970; month := 1; mday := 1 |} ∧ civil_from_days (days + 1) = next_day (civil_from_days days).
Proof.
  split; [vm_compute; reflexivity|].
  destruct (civil_split days) as (y & Hy & Hd & ->), (civil_split (days + 1)) as (y' & Hy' & Hd' & ->).
  rewrite next_of_era by lia. set (z := days + 719468) in *. replace (days + 1 + 719468) with (z + 1) in * by (unfold z; lia). clearbody z.
  assert (starts 400 = 146097) as H400 by reflexivity.
  assert (∀ a b, 0 <= a < 400 → 0 <= b < 400 → ∀ doe, starts a <= doe < starts (a + 1) → starts b <= doe < starts (b + 1) → a = b) as Huniq.
  { intros a b Ha Hb doe H1 H2. apply (year_found a) in H1; [|done]. apply (year_found b) in H2; [|done]. congruence. }
  destruct (Z.eq_decidable (z mod 146097) 146096) as [He|He].
  - assert ((z + 1) mod 146097 = 0) as Hz by div_lia. assert ((z + 1) / 146097 = z / 146097 + 1) as -> by div_lia. rewrite Hz in *.
    rewrite He in *. assert (y = 399) as -> by (apply (Huniq y 399 Hy ltac:(lia) 146096); [done|by vm_compute]).
    assert (y' = 0) as -> by (apply (Huniq y' 0 Hy' ltac:(lia) 0); [done|by vm_compute]).
    change (starts (399 + 1)) with 146097. change (starts 0) with 0. rewrite (proj2 (Z.ltb_ge _ _)) by lia.
    change (civil_of (z / 146097 + 1) 0 (0 - 0)) with (dated (0 + (z / 146097 + 1) * 400) (month_day 0)). f_equal. lia.
  - pose proof (Z.mod_pos_bound z 146097 ltac:(done)).
    assert ((z + 1) mod 146097 = z mod 146097 + 1) as Hz by div_lia. assert ((z + 1) / 146097 = z / 146097) as -> by div_lia. rewrite Hz in *.
    set (doe := z mod 146097) in *. clearbody doe. destruct (Z.ltb_spec (doe - starts y + 1) (starts (y + 1) - starts y)).
    + assert (y' = y) as -> by (apply (Huniq y' y Hy' Hy (doe + 1)); [done|lia]). by replace (doe + 1 - starts y) with (doe - starts y + 1) by lia.
    + assert (y ≠ 399) as H399 by (intros ->; change (starts (399 + 1)) with 146097 in *; lia).
      assert (starts (y + 1) < starts (y + 1 + 1)) as Hmono by (unfold starts; div_lia).
      assert (y' = y + 1) as -> by (apply (Huniq y' (y + 1) Hy' ltac:(lia) (doe + 1)); [done|lia]).
      replace (doe + 1 - starts (y + 1)) with 0 by lia.
      change (civil_of (z / 146097) (y + 1) 0) with (dated (y + 1 + z / 146097 * 400) (month_day 0)). f_equal. lia.
Qed.

(** ** Rings *)

Section runs.
Context {Json : Type} `{!EqDecision Json}.
Local Abbreviation DeploymentSpec := (LbRegistry.DeploymentSpec (Rest Json) SiteSpec).

(** The calls, from a spec that is current when they are made. *)
Inductive FeedOp : Type :=
| Announce (s : DeploymentSpec) (k : FeedEventKind) (d : string) (now : Z)
| Report (s : DeploymentSpec) (t d : string) (now : Z).
Definition feed_step (f : Feed) (o : FeedOp) : Feed :=
  match o with Announce s k d now => announce_event s k d now f | Report s t d now => issue_event s t d now f end.
Definition feed_run : list FeedOp → Feed := foldl feed_step feed_new.

Definition op_spec (o : FeedOp) : DeploymentSpec := match o with Announce s _ _ _ | Report s _ _ _ => s end.
Definition op_kind (o : FeedOp) : FeedEventKind := match o with Announce _ k _ _ => k | Report _ _ _ _ => Issue end.
Definition op_title (o : FeedOp) : string := match o with Announce s k _ _ => id s +:+ " " +:+ label k | Report _ t _ _ => t end.
Definition op_detail (o : FeedOp) : string := match o with Announce _ _ d _ | Report _ _ d _ => d end.
Definition op_time (o : FeedOp) : Z := match o with Announce _ _ _ n | Report _ _ _ n => n end.
(** Whether its spec asks for it. *)
Definition opted_in (o : FeedOp) : bool :=
  match feed_of (op_spec o) with
  | Some f => match o with Announce _ _ _ _ => announce f | Report _ _ _ _ => issues f end
  | None => false
  end.

Lemma step_spec f o :
  feed_step f o = if opted_in o then push (namespace (op_spec o)) (id (op_spec o)) (op_kind o) (op_title o) (op_detail o) (op_time o) f else f.
Proof. destruct o as [s k d n|s t d n]; cbn; unfold announce_event, issue_event, announces, has_issues, opted_in; cbn;
    destruct (feed_of s) as [[[] [] ?]|]; reflexivity. Qed.

(** What an event says, and what call it repeats. *)
Record tells (o : FeedOp) (e : FeedEvent) : Prop := {
  tells_deployment : fe_deployment e = id (op_spec o);
  tells_namespace : fe_namespace e = namespace (op_spec o);
  tells_kind : fe_kind e = op_kind o;
  tells_title : title e = op_title o;
}.

Record ring_ok (ops : list FeedOp) (next : Z) (ns : string) (ring : list FeedEvent) : Prop := {
  ring_bounded : (length ring <= RING_CAP)%nat;
  ring_ids : StronglySorted Z.lt (fe_id <$> ring);
  ring_numbered : Forall (λ e, fe_id e < next) ring;
  ring_own : Forall (λ e, fe_namespace e = ns) ring;
  ring_told : Forall (λ e, ∃ o, o ∈ ops ∧ opted_in o = true ∧ tells o e ∧ detail e = op_detail o ∧ last_ts e = op_time o) ring;
}.

Lemma ring_ok_mono ops o next next' ns ring : next <= next' → ring_ok ops next ns ring → ring_ok (ops ++ [o]) next' ns ring.
Proof.
  intros Hn [H1 H2 H3 H4 H5]. split; [done|done| |done|].
  - eapply Forall_impl; [exact H3|]. intros e. cbn. lia.
  - eapply Forall_impl; [exact H5|]. intros e (o' & Ho & Hr). exists o'. split; [|done]. apply elem_of_app. by left.
Qed.

Lemma StronglySorted_snoc (l : list Z) x : StronglySorted Z.lt l → Forall (λ y, y < x) l → StronglySorted Z.lt (l ++ [x]).
Proof.
  induction 1 as [|y l Hs IH Hy]; intros Hx; cbn; [by repeat constructor|]. inversion_clear Hx as [|? ? Hyx Hx'].
  constructor; [by apply IH|]. apply Forall_app. split; [done|]. by repeat constructor.
Qed.
Lemma removelast_snoc {A} (l : list A) x : last l = Some x → l = removelast l ++ [x].
Proof. intros H. destruct l as [|y l] using rev_ind; [done|]. rewrite last_snoc in H. injection H as ->. by rewrite removelast_last. Qed.
Lemma ring_ok_suffix ops next ns e ring : ring_ok ops next ns (e :: ring) → ring_ok ops next ns ring.
Proof. intros [H1 H2 H3 H4 H5]. cbn in *. inversion H2; inversion H3; inversion H4; inversion H5; subst. split; try done. cbn in H1. lia. Qed.

(** A push keeps the rings, and puts what it is told last. *)
Lemma push_ok ops o f :
  opted_in o = true → 0 < next_id f < U64.max → (∀ ns, ring_ok ops (next_id f) ns (default [] (rings f !! ns))) →
  let ns := namespace (op_spec o) in
  let f' := push ns (id (op_spec o)) (op_kind o) (op_title o) (op_detail o) (op_time o) f in
  next_id f <= next_id f' <= next_id f + 1 ∧
  (∀ ns', ns' ≠ ns → rings f' !! ns' = rings f !! ns') ∧
  ring_ok (ops ++ [o]) (next_id f') ns (default [] (rings f' !! ns)) ∧
  ∃ e, last (default [] (rings f' !! ns)) = Some e ∧ tells o e ∧ detail e = op_detail o ∧ last_ts e = op_time o.
Proof.
  intros Ho Hn Hall. cbv zeta. set (ns := namespace (op_spec o)). pose proof (Hall ns) as Hr. unfold push.
  set (ring := default [] (rings f !! ns)) in *. assert (o ∈ ops ++ [o]) as Hin by (apply elem_of_app; right; by left).
  destruct (e ← last ring; if repeats (id (op_spec o)) (op_kind o) (op_title o) (op_time o) e then Some e else None) as [e|] eqn:El.
  - apply option.bind_Some in El as (e' & Hl & Hrep). destruct (repeats _ _ _ _ e') eqn:Er; [|done]. injection Hrep as ->.
    cbn [rings next_id]. rewrite lookup_insert_eq. cbn [from_option Datatypes.id]. apply removelast_snoc in Hl.
    unfold repeats in Er. apply andb_true_iff in Er as [[[[Hk%bool_decide_eq_true Hk'%bool_decide_eq_true]%andb_true_iff Hd%String.eqb_eq]%andb_true_iff Ht%String.eqb_eq]%andb_true_iff _].
    set (init := removelast ring) in *. clearbody init. assert (tells o (fold_in (op_detail o) (op_time o) e)) as Htells.
    { pose proof (ring_own _ _ _ _ Hr) as Hown. rewrite Hl in Hown. apply Forall_app in Hown as [_ Hown%Forall_inv].
      split; cbn [fold_in fe_deployment fe_namespace fe_kind title]; first [congruence|exact Hown]. }
    split; [lia|]. split; [intros ns' Hne; by rewrite lookup_insert_ne|]. split.
    + destruct Hr as [H1 H2 H3 H4 H5]. rewrite Hl in H1, H2, H3, H4, H5. rewrite length_app in H1.
      apply Forall_app in H3 as [H3 H3'], H4 as [H4 H4'], H5 as [H5 _]. rewrite fmap_app in H2.
      split.
      * rewrite length_app. exact H1.
      * rewrite fmap_app. exact H2.
      * apply Forall_app. split; [done|]. apply Forall_inv in H3'. by repeat constructor.
      * apply Forall_app. split; [done|]. apply Forall_inv in H4'. by repeat constructor.
      * apply Forall_app. split; [|constructor; [|done]; by exists o].
        eapply Forall_impl; [exact H5|]. intros x (o' & Ho' & Hx). exists o'. split; [|done]. apply elem_of_app. by left.
    + eexists. rewrite last_snoc. split_and!; [done|done|done|done].
  - clear El. cbn [rings next_id]. rewrite lookup_insert_eq. cbn [from_option Datatypes.id].
    assert (U64.wrapping_add (next_id f) 1 = next_id f + 1) as ->.
    { unfold U64.wrapping_add, U64.wrap. apply Z.mod_small. unfold U64.max in Hn. lia. }
    set (e := {| fe_id := next_id f |}). assert (tells o e) as Htells by done.
    split; [lia|]. split; [intros ns' Hne; by rewrite lookup_insert_ne|]. split.
    + set (kept := if (length ring =? RING_CAP)%nat then tail ring else ring).
      assert (ring_ok ops (next_id f) ns kept ∧ (length kept < RING_CAP)%nat) as [Hk Hlt].
      { unfold kept. destruct (Nat.eqb_spec (length ring) RING_CAP) as [E|E].
        - destruct ring as [|x ring']; [done|]. split; [by eapply ring_ok_suffix|]. cbn in *. lia.
        - split; [done|]. destruct Hr as [H1 _ _ _ _]. lia. }
      destruct Hk as [H1 H2 H3 H4 H5]. split.
      * rewrite length_app. cbn. lia.
      * rewrite fmap_app. apply StronglySorted_snoc; [done|]. by apply Forall_fmap.
      * apply Forall_app. split; [|repeat constructor; cbn; lia]. eapply Forall_impl; [exact H3|]. intros x. cbn. lia.
      * apply Forall_app. split; [done|]. by repeat constructor.
      * apply Forall_app. split; [|constructor; [|done]; by exists o].
        eapply Forall_impl; [exact H5|]. intros x (o' & Ho' & Hx). exists o'. split; [|done]. apply elem_of_app. by left.
    + exists e. rewrite last_snoc. by split_and!.
Qed.

Lemma feed_run_ok ops :
  Z.of_nat (length ops) + 1 < U64.max →
  1 <= next_id (feed_run ops) <= Z.of_nat (length ops) + 1 ∧
  ∀ ns, ring_ok ops (next_id (feed_run ops)) ns (default [] (rings (feed_run ops) !! ns)).
Proof.
  induction ops as [|o ops IH] using rev_ind; intros Hlen.
  - cbn. split; [lia|]. intros ns. rewrite lookup_empty. cbn. split; cbn; try constructor. lia.
  - rewrite length_app in Hlen. cbn in Hlen. destruct IH as [Hn Hr]; [lia|]. unfold feed_run in *. rewrite foldl_app. cbn [foldl].
    set (f := foldl feed_step feed_new ops) in *. rewrite step_spec, length_app. cbn [length]. destruct (opted_in o) eqn:Ho.
    + destruct (push_ok ops o f Ho) as (Hn' & Hother & Hown & _); [lia|done|]. cbv zeta in *. split; [lia|]. intros ns.
      destruct (decide (ns = namespace (op_spec o))) as [->|Hne]; [done|]. rewrite Hother by done. eapply ring_ok_mono; [|apply Hr]. lia.
    + split; [lia|]. intros ns. by eapply ring_ok_mono; [|apply Hr].
Qed.

(** C28. The feed says what it was asked to say, and nothing else.  After any calls, a namespace's feed
    has at most two hundred events, newest first, each of a call for a deployment of that namespace
    whose spec asked for it, with the latest of what it said; and the last such call is in front. *)
Theorem feed_says_what_was_asked ops o ns limit :
  Z.of_nat (length ops) + 2 < U64.max →
  (let l := recent ns limit (feed_run ops) in
   (length l <= RING_CAP `min` limit)%nat ∧ StronglySorted Z.gt (fe_id <$> l) ∧
   Forall (λ e, ∃ o, o ∈ ops ∧ opted_in o = true ∧ namespace (op_spec o) = ns ∧ tells o e ∧ detail e = op_detail o ∧ last_ts e = op_time o) l) ∧
  (opted_in o = true →
   ∃ e l, recent (namespace (op_spec o)) (S limit) (feed_run (ops ++ [o])) = e :: l ∧ tells o e ∧ detail e = op_detail o ∧ last_ts e = op_time o) ∧
  (opted_in o = false → feed_run (ops ++ [o]) = feed_run ops).
Proof.
  intros Hlen. destruct (feed_run_ok ops) as [Hn Hr]; [lia|]. split; [|split].
  - cbv zeta. unfold recent. destruct (Hr ns) as [H1 H2 _ H4 H5]. set (ring := default [] _) in *. clearbody ring. split_and!.
    + rewrite length_take, length_rev. lia.
    + rewrite fmap_take, <- Trim.rev_fmap. generalize (fe_id <$> ring) H2. clear. intros l H.
      assert (StronglySorted Z.gt (rev l)) as Hr.
      { induction H as [|x l Hs IH Hx]; [constructor|]. cbn [rev]. clear Hs.
        assert (Forall (λ y, y > x) (rev l)) as Hx' by (apply Forall_rev; eapply Forall_impl; [exact Hx|]; cbn; lia). clear Hx.
        induction IH as [|y m Hm IHm Hy]; [by repeat constructor|]. inversion_clear Hx'. cbn. constructor; [by apply IHm|].
        apply Forall_app. split; [done|]. by repeat constructor. }
      revert limit. induction Hr as [|y m Hm IHm Hy]; intros limit; [rewrite take_nil; constructor|]. destruct limit; cbn; [constructor|].
      constructor; [apply IHm|]. by apply Forall_take.
    + apply Forall_take, Forall_rev. rewrite Forall_forall in *. intros e He. destruct (H5 e He) as (o' & ? & ? & Ht & ? & ?). exists o'.
      split_and!; try done. rewrite <- (tells_namespace _ _ Ht). by apply H4.
  - intros Ho. destruct (push_ok ops o (feed_run ops) Ho ltac:(lia) Hr) as (_ & _ & _ & e & He & Ht). cbv zeta in *.
    unfold feed_run. rewrite foldl_app. cbn [foldl]. change (foldl feed_step feed_new ops) with (feed_run ops). rewrite step_spec, Ho.
    unfold recent. apply removelast_snoc in He. rewrite He, rev_app_distr. cbn [rev app take]. eauto.
  - intros Ho. unfold feed_run. rewrite foldl_app. cbn [foldl]. by rewrite step_spec, Ho.
Qed.
End runs.

(** ** Text in the document *)

Fixpoint occurrences (c : ascii) (s : string) : nat :=
  match s with "" => 0 | String b s => (if Ascii.eqb b c then 1 else 0) + occurrences c s end.
Lemma occurrences_app c s t : occurrences c (s +:+ t) = (occurrences c s + occurrences c t)%nat.
Proof. induction s as [|b s IH]; [done|]. change (String b s +:+ t) with (String b (s +:+ t)). cbn [occurrences]. rewrite IH. lia. Qed.

(** Escaped text has no markup of its own, and is not lost. *)
Lemma xml_escape_no_tags s : occurrences "<" (xml_escape s) = 0%nat ∧ occurrences ">" (xml_escape s) = 0%nat.
Proof.
  induction s as [|c s [IH1 IH2]]; [done|]. cbn [xml_escape]. rewrite !occurrences_app, IH1, IH2. clear.
  destruct c as [[] [] [] [] [] [] [] []]; done.
Qed.
Fixpoint xml_unescape (s : string) : string :=
  match s with
  | String "&" (String "a" (String "m" (String "p" (String ";" s)))) => String "&" (xml_unescape s)
  | String "&" (String "l" (String "t" (String ";" s))) => String "<" (xml_unescape s)
  | String "&" (String "g" (String "t" (String ";" s))) => String ">" (xml_unescape s)
  | String "&" (String "q" (String "u" (String "o" (String "t" (String ";" s))))) => String "034" (xml_unescape s)
  | String "&" (String "a" (String "p" (String "o" (String "s" (String ";" s))))) => String "'" (xml_unescape s)
  | String c s => String c (xml_unescape s)
  | "" => ""
  end.
Lemma xml_unescape_char c s : xml_unescape (xml_char c +:+ s) = String c (xml_unescape s).
Proof. by destruct c as [[] [] [] [] [] [] [] []]. Qed.
Lemma xml_unescape_escape s : xml_unescape (xml_escape s) = s.
Proof. induction s as [|c s IH]; [done|]. cbn [xml_escape]. by rewrite xml_unescape_char, IH. Qed.


(** ** Examples *)

Module FeedDemo.
Definition spec (i : string) (f : option FeedSpec) : LbRegistry.DeploymentSpec (Rest string) SiteSpec :=
  let r := ConfigDemo.rest None in
  let s := ConfigDemo.service_spec i None ["127.0.0.1:80"] 1 in
  {| id := id s; namespace := namespace s; routes := routes s; maintenance := maintenance s; site := site s; scaling := scaling s;
     upstreams := upstreams s; discovery := discovery s; gateway := gateway s;
     rest_of := {| account_id := account_id r; user_id := user_id r; vm := vm r; health := health r;
                   drain_timeout_secs := drain_timeout_secs r; boot_timeout_secs := boot_timeout_secs r;
                   idle_action := idle_action r; build := build r; artifact := artifact r; update_spec := update_spec r;
                   gate := gate r; feed := f; ingress := ingress r |} |}.
Definition loud : LbRegistry.DeploymentSpec (Rest string) SiteSpec :=
  spec "web" (Some {| LbSpec.announce := true; issues := true; expose := None |}).
Definition quiet : LbRegistry.DeploymentSpec (Rest string) SiteSpec := spec "api" None.
Definition show (z : Z) : string := if z =? 1970 then "1970" else "1".
Definition day : list FeedOp := [Announce loud Deployed "v1" 100; Report quiet "boot failed" "x" 110; Report loud "boot failed" "one" 120;
  Report loud "boot failed" "two" 130].

Lemma day_is_short : (Z.of_nat (length day) + 2 < U64.max)%Z.
Proof. vm_compute. reflexivity. Qed.
Lemma checked_day : title <$> recent "team" 10 (feed_run day) = ["boot failed"; "web deployed"] ∧ count <$> recent "team" 10 (feed_run day) = [2; 1].
Proof. vm_compute. done. Qed.

Lemma feed_says_what_was_asked_witness :
  ∃ e l, recent "team" 5 (feed_run (day ++ [Announce loud Removed "gone" 140])) = e :: l ∧ title e = "web removed" ∧ detail e = "gone".
Proof.
  assert (opted_in (Announce loud Removed "gone" 140) = true) as Ho by (vm_compute; reflexivity).
  destruct (feed_says_what_was_asked day (Announce loud Removed "gone" 140) "team" 4 day_is_short) as (_ & H & _).
  destruct (H Ho) as (e & l & Hr & Ht & Hd & _). exists e, l.
  refine (conj Hr (conj _ Hd)). rewrite (tells_title _ _ Ht). vm_compute. reflexivity.
Defined.

Example dates : rfc822 show 3661 = "Thu, 01 Jan 1970 01:01:01 +0000" ∧ civil_from_days 11016 = {| year := 2000; month := 2; mday := 29 |}.
Proof. vm_compute. done. Qed.

(** A control character, which XML does not have, goes through as it is. *)
Lemma control_characters_stay : xml_escape (String "027" "[31m") = String "027" "[31m".
Proof. reflexivity. Qed.
End FeedDemo.
