(* ===== verification/LbFront.v ===== *)
(** * What becomes of a request: [app-lb/src/request_control.rs]

    [RequestControl::decide] puts the parts together: the ACME challenges, the guard, the routes
    of the registry, the admission of peers and regions, probes, maintenance, the sign-in gate, the
    feed and the site of a deployment; [forwarding_modifications] is what the upstream sees of it,
    and [app-lb/src/proxy.rs] carries it out.  The decision of one request is a step on the stores;
    what follows it is in [LbRequest]. *)
From Stdlib Require Import Ascii String ZArith Lia Bool.
From stdpp Require Import base option list strings gmap fin_maps sets.
From S2P Require Import Prelude LbRoutes LbGuard LbRegional LbPool LbRegistry LbSpec LbGate LbConfig LbSignin LbFeed.
Open Scope string_scope.
Open Scope list_scope.
Local Open Scope Z_scope.

(** ** Data *)

Definition ACME_CHALLENGE_PREFIX : string := "/.well-known/acme-challenge/".
Definition MAX_SCANNED_UA : nat := 512.
Definition MAX_LOGIN_BODY : nat := N.to_nat 8192.
Definition FEED_PAGE : nat := 100.

(** What the code reads of a [http::Uri]. *)
Record Uri : Type := { authority : option string; uri_path : string; uri_query : option string }.

(** The body of a response: a sentence, what the gate says, the receipt of a probe, or the sentence
    about a provider that is not declared. *)
Inductive Content : Type :=
| Text (s : string) | GatePage (b : LbSignin.Body) | Receipt (r : ProbeRequest)
| ActiveReceipt (r : ActiveProbeRequest) (gateway_id boot_id backend_server_id url : string)
| NoProvider (name : string).

Record ResponseData : Type := {
  rd_status : Z; rd_body : Content; rd_content_type : string; rd_headers : list (string * string); rd_cache_control : option string;
}.
Definition plain (status : Z) (body : Content) : ResponseData :=
  {| rd_status := status; rd_body := body; rd_content_type := "text/plain; charset=utf-8"; rd_headers := []; rd_cache_control := None |}.

(** [ResponseData::auth]. *)
Definition page_type (b : LbSignin.Body) : string :=
  match b with
  | LbSignin.Plain _ => "text/plain; charset=utf-8"
  | LoginPage _ _ _ _ => "text/html; charset=utf-8"
  | _ => "application/json"
  end.
Definition auth_response (show_Z : Z → string) (r : LbSignin.Response) : ResponseData :=
  {| rd_status := LbSignin.status r; rd_body := GatePage (LbSignin.body r); rd_content_type := page_type (LbSignin.body r);
     rd_headers := (match location r with Some v => [("location", v)] | None => [] end)
                   ++ ((λ c, ("set-cookie", cookie_text show_Z c)) <$> set_cookies r)
                   ++ [("x-frame-options", "DENY"); ("referrer-policy", "same-origin")];
     rd_cache_control := Some "no-store" |}.

(** [RequestDecision], [HeaderModification]. *)
Inductive RequestDecision : Type :=
| Respond (r : ResponseData) | ReadLoginBody | ServeSite (spec : SiteSpec) (path : string) | Proxy.
Inductive HeaderModification : Type := Remove (name : string) | Set_ (name value : string) | RewriteUri (to : string).

(** ** What a deployment asks of the sign-in gate *)

Class Gatekeeper (Json : Type) : Type := {
  gk_decide : LbSignin.Env → LbSpec.AuthGate Json → string → string → RequestInfo → Act LbSignin.Decision;
  gk_submit : LbSignin.Env → LbSpec.AuthGate Json → string → RequestInfo → option string → string → Act LbSignin.Response;
  gk_fronts : list string → bool;
  gk_passes : LbSignin.Env → LbSpec.AuthGate Json → string → string → RequestInfo → LbSignin.World → option Identity → Prop;
}.
(** Who is let in had something to pass with. *)
Class GatekeeperLaws (Json : Type) `{!Gatekeeper Json} : Prop :=
  gk_sound e gate dep ns req w who : fst (gk_decide e gate dep ns req w) = LbSignin.Allow who →
    own_path gate (LbSignin.path req) = false ∧ gk_passes e gate dep ns req w who.

Section head.
Context {H : Type} `{!HeaderOps H}.

(** [RequestHead]; of the peer the code reads the address. *)
Record RequestHead : Type := {
  rh_method : string; rh_uri : Uri; rh_headers : H; rh_peer : option IpAddr; rh_tls : bool;
}.

(** [headers.get(name)] and its [to_str]. *)
Definition header_text (n : string) (h : H) : option string := v ← hd_error (get_all n h); text_of (H := H) v.

(** [RequestHead::host]. *)
Definition raw_host (hd : RequestHead) : option string :=
  match authority (rh_uri hd) with Some a => Some a | None => header_text "host" (rh_headers hd) end.
Definition host_of (hd : RequestHead) : option string :=
  raw ← raw_host hd;
  let h := match Chars.rsplit_once "@" raw with Some (_, h) => h | None => raw end in
  let h := match Chars.split_once "]" h with
           | Some (a, _) => a +:+ "]"
           | None => default h (hd_error (Str.split ":" h))
           end in
  if String.eqb h "" then None else Some (Str.to_ascii_lowercase h).

(** [RequestHead::secure]. *)
Definition is_secure (hd : RequestHead) : bool :=
  rh_tls hd || match header_text "x-forwarded-proto" (rh_headers hd) with
               | Some v => Str.eq_ignore_ascii_case v "https" | None => false end.

(** [request_facts]; a text of [to_str] is ASCII. *)
Definition request_facts (hd : RequestHead) (h : option string) (path : string) (dep : option string) : RequestFacts :=
  {| f_client := rh_peer hd; f_host := h; f_path := path; f_method := rh_method hd; f_deployment := dep;
     f_user_agent := (λ v, if (MAX_SCANNED_UA <=? String.length v)%nat then Str.take MAX_SCANNED_UA v else v)
                     <$> header_text "user-agent" (rh_headers hd) |}.

(** [owned_request_info]. *)
Definition bearer_of (hd : RequestHead) : option string :=
  v ← header_text "authorization" (rh_headers hd);
  v ← Str.strip_prefix "Bearer " v;
  if String.eqb (Chars.trim v) "" then None else Some (Chars.trim v).
Definition owned_request_info (hd : RequestHead) (h path : string) (fronts : bool) : RequestInfo :=
  {| LbSignin.host := h; LbSignin.path := path; LbSignin.query := uri_query (rh_uri hd);
     LbSignin.cookies := omap (text_of (H := H)) (get_all "cookie" (rh_headers hd));
     LbSignin.secure := is_secure hd;
     LbSignin.wants_html := match header_text "accept" (rh_headers hd) with Some v => Str.contains "text/html" v | None => false end;
     LbSignin.fronts_admin := fronts; LbSignin.bearer := bearer_of hd; LbSignin.client := rh_peer hd |}.

(** A header of another gateway, or a probe. *)
Definition nominates (hd : RequestHead) : bool :=
  existsb (λ n, contains_key n (rh_headers hd)) (HEADERS ++ [GENERATION; ENVIRONMENT; PROBE; ACTIVE_PROBE]).
Definition is_probe (hd : RequestHead) : bool :=
  contains_key PROBE (rh_headers hd) || contains_key ACTIVE_PROBE (rh_headers hd).
End head.
Arguments RequestHead : clear implicits.

(** [matched_strip_prefix]: the last of the most specific. *)
Fixpoint max_by_specificity (l : list RouteRule) : option RouteRule :=
  match l with
  | [] => None
  | r :: l =>
    match max_by_specificity l with
    | Some x => if (specificity r <=? specificity x)%N then Some x else Some r
    | None => Some r
    end
  end.
Definition matched_strip_prefix (rules : list RouteRule) (h : option string) (path : string) : option string :=
  r ← max_by_specificity (List.filter (λ r, strip_prefix r && LbRoutes.matches r h path) rules); LbRoutes.path_prefix r.

(** [strip_uri_prefix]. *)
Definition strip_uri_prefix (u : Uri) (prefix : string) : string :=
  let suffix := default (uri_path u) (Str.strip_prefix prefix (uri_path u)) in
  (if String.eqb suffix "" then "/" else if Str.starts_with "/" suffix then suffix else "/" +:+ suffix)
  +:+ match uri_query u with Some q => "?" +:+ q | None => "" end.

(** ** The decision *)

(** How a candidate answers a probe: whether it succeeded, its headers, and the chunks of its body, of
    which the last may be missing. *)
Record ProbeReply (H : Type) : Type := { pb_success : bool; pb_headers : H; pb_chunks : list string; pb_ended : bool }.
Arguments pb_success {H}. Arguments pb_headers {H}. Arguments pb_chunks {H}. Arguments pb_ended {H}.

(** What a decision meets from outside: the guard's clock, the random bytes of a region, the calls of
    the gate, and the answer to a GET on an address, a path and a port. *)
Record FrontEnv (H : Type) : Type := {
  fe_now : Z; fe_random : option N; fe_gate : LbSignin.Env; fe_probe : string → string → option Z → string → option (ProbeReply H);
}.
Arguments fe_now {H}. Arguments fe_random {H}. Arguments fe_gate {H}. Arguments fe_probe {H}.

Section front.
Context {H : Type} `{!HeaderOps H} {Json : Type} `{!EqDecision Json, !Gatekeeper Json} {J Bytes SandboxStatus : Type}
  `{Ext : !Externals (Rest Json) SiteSpec J Bytes}.
Local Abbreviation Registry := (LbRegistry.World (Rest Json) SiteSpec SandboxStatus J Bytes).
Local Abbreviation Dep := (LbRegistry.Dep (Rest Json) SiteSpec SandboxStatus J).
Local Abbreviation AuthGate := (LbSpec.AuthGate Json).
Local Abbreviation RequestHead := (RequestHead H).
(** [str::parse::<i64>], the parser of socket addresses, and serde_json on the two probes. *)
Context (parse_i64 : string → option Z) (socket_loopback : string → option bool)
  (probe_of : string → option ProbeRequest) (active_probe_of : string → option ActiveProbeRequest).

(** [PendingLogin]; and the fields of [RequestState] that the decision sets, the others being
    [LbRequest]'s. *)
Record PendingLogin : Type := { pl_gate : AuthGate; pl_deployment : string; pl_info : RequestInfo; pl_origin : option string }.
Record Admission : Type := {
  ad_deployment : option nat; ad_assignment : option Assignment; ad_identity : option Identity; ad_prefix : option string;
  ad_token : option string; ad_forward : bool; ad_pending : option PendingLogin;
}.
Definition nothing_yet : Admission :=
  {| ad_deployment := None; ad_assignment := None; ad_identity := None; ad_prefix := None; ad_token := None; ad_forward := false;
     ad_pending := None |}.
Definition for_deployment (l : nat) (a : Admission) : Admission :=
  {| ad_deployment := Some l; ad_assignment := ad_assignment a; ad_identity := ad_identity a; ad_prefix := ad_prefix a;
     ad_token := ad_token a; ad_forward := ad_forward a; ad_pending := ad_pending a |}.

(** The stores. *)
Record Front : Type := {
  registry : Registry; guard : Guard; challenges : gmap string string; providers : gmap (string * string) (AuthProviderSpec Json);
  gate_world : LbSignin.World; event_feed : Feed;
}.
Definition with_registry (r : Registry) (f : Front) : Front :=
  {| registry := r; guard := guard f; challenges := challenges f; providers := providers f; gate_world := gate_world f; event_feed := event_feed f |}.
Definition with_guard (g : Guard) (f : Front) : Front :=
  {| registry := registry f; guard := g; challenges := challenges f; providers := providers f; gate_world := gate_world f; event_feed := event_feed f |}.
Definition with_gate_world (g : LbSignin.World) (f : Front) : Front :=
  {| registry := registry f; guard := guard f; challenges := challenges f; providers := providers f; gate_world := g; event_feed := event_feed f |}.

(** What comes of a request: the decision, what it leaves in the state of the request, and the
    observations of the gate. *)
Record Outcome : Type := { decision : RequestDecision; admission : Admission; seen : list AuthObs }.
Definition finish (d : RequestDecision) (a : Admission) (o : list AuthObs) (f : Front) : option (Outcome * Front) :=
  Some ({| decision := d; admission := a; seen := o |}, f).

(** *** Admission *)

Definition put_router (r : nat) (st : RouterState) (hp : Heap) (w : Registry) : Registry :=
  LbRegistry.with_next (S (next w)) (LbRegistry.with_heap hp (LbRegistry.with_routers (<[r := st]> (routers w)) w)).

(** [RequestState::admit]; [None] is a panic. *)
Definition admit_head (e : FrontEnv H) (hd : RequestHead) (secrets : SecretStore) (d : Dep) (w : Registry) :
    option (result Z (option string * option Assignment) * Registry) :=
  match regional d with
  | Some r =>
    disc ← discovery (spec_of d); spec ← ds_regional disc; here ← ds_region disc; st ← routers w !! r;
    x ← admit_request url_parse show_Z parse_i64 spec (service_id disc) here (rh_headers hd) secrets (fe_random e)
          (LbRegistry.now w) (next w) (LbRegistry.heap w) st;
    match x with
    | Err s => Some (Err s, w)
    | Ok (a, st, hp) => Some (Ok (None, Some a), put_router r st hp w)
    end
  | None =>
    if contains_key GENERATION (rh_headers hd) || contains_key ENVIRONMENT (rh_headers hd) then Some (Err 403, w)
    else Some (t <-? gateway_admit (gateway (spec_of d)) (rh_headers hd) secrets ;; Ok (t, None), w)
  end.

(** *** Probes *)

(** What [probe_local] and [active_probe_local] ask of the request before they read it. *)
Definition probe_head_ok (hd : RequestHead) (spec : RegionalSpec) (health : HealthCheck) (name : string) : bool :=
  String.eqb (rh_method hd) "GET" && negb (is_some (uri_query (rh_uri hd))) && bool_decide (Some (uri_path (rh_uri hd)) = hc_path health)
  && (length (get_all name (rh_headers hd)) =? 1)%nat && (length (get_all ENVIRONMENT (rh_headers hd)) =? 1)%nat
  && bool_decide (header_text ENVIRONMENT (rh_headers hd) = Some (environment spec))
  && (length (get_all GENERATION (rh_headers hd)) =? 1)%nat.
Definition named_generation (hd : RequestHead) : option Z := t ← header_text GENERATION (rh_headers hd); parse_i64 t.

(** What they ask of the answer. *)
Definition reply_ok (active : bool) (revision : string) (health : HealthCheck) (r : ProbeReply H) : bool :=
  pb_success r
  && (negb active || match hd_error (get_all "age" (pb_headers r)) with Some v => String.eqb v "0" | None => true end)
  && (length (get_all "x-heyo-revision" (pb_headers r)) =? 1)%nat
  && bool_decide (header_text "x-heyo-revision" (pb_headers r) = Some revision)
  && match expected_header health with
     | Some x => bool_decide (get_all (eh_name x) (pb_headers r) = [eh_value x])
     | None => true
     end
  && is_some (read_answer "" (pb_chunks r) (pb_ended r)).

(** [Assignment::drop], on a router of the registry. *)
Definition give_back (r : nat) (a : Assignment) (w : Registry) : option Registry :=
  st ← routers w !! r; st ← drop_assignment a st; Some (LbRegistry.with_routers (<[r := st]> (routers w)) w).

(** [probe_local]: a step that ends with its assignment dropped. *)
Definition probe_local (e : FrontEnv H) (hd : RequestHead) (secrets : SecretStore) (r : nat) (spec : RegionalSpec) (service here h : string)
    (health : HealthCheck) (w : Registry) : option (result Z Content * Registry) :=
  match gateway_admit (Some {| service := service; gs_region := here; auth := rs_auth spec; mode := Local |}) (rh_headers hd) secrets with
  | Err s => Some (Err s, w)
  | Ok _ =>
    if negb (probe_head_ok hd spec health PROBE) then Some (Err 403, w)
    else
      match (v ← hd_error (get_all PROBE (rh_headers hd)); probe_of v) with
      | None => Some (Err 403, w)
      | Some q =>
        if negb (bool_decide (named_generation hd = Some (pr_generation q))) then Some (Err 403, w)
        else
          st ← routers w !! r;
          x ← probe_assignment url_parse show_Z socket_loopback (boot_id r) spec q true (LbRegistry.now w) (next w) (LbRegistry.heap w) st;
          match x with
          | Err s => Some (Err s, w)
          | Ok (a, st, hp) =>
            b ← hp !! a_backend a;
            w ← give_back r a (put_router r st hp w);
            match url_parse ("http://" +:+ address b), hc_path health with
            | Some _, Some p =>
              match fe_probe e (address b) p (hc_port health) h with
              | Some reply => Some (if reply_ok false (pr_revision q) health reply then Ok (Receipt q) else Err 502, w)
              | None => Some (Err 502, w)
              end
            | _, _ => Some (Err 409, w)
            end
          end
      end
  end.

(** A slot on a backend, taken and given back. *)
Definition hold_and_release (l : nat) (w : Registry) : option Registry :=
  b ← LbRegistry.heap w !! l;
  let '(ok, b) := try_acquire (LbRegistry.now w) b in
  if ok then Some (LbRegistry.with_heap (<[l := LbPool.release (LbRegistry.now w) b]> (LbRegistry.heap w)) w) else None.

(** [active_probe_local]. *)
Definition active_probe_local (e : FrontEnv H) (hd : RequestHead) (secrets : SecretStore) (r : nat) (spec : RegionalSpec)
    (service here h : string) (health : HealthCheck) (w : Registry) : option (result Z Content * Registry) :=
  match gateway_admit (Some {| service := service; gs_region := here; auth := rs_auth spec; mode := Local |}) (rh_headers hd) secrets with
  | Err s => Some (Err s, w)
  | Ok _ =>
    if contains_key PROBE (rh_headers hd) || negb (probe_head_ok hd spec health ACTIVE_PROBE) then Some (Err 403, w)
    else
      match (v ← hd_error (get_all ACTIVE_PROBE (rh_headers hd)); active_probe_of v) with
      | None => Some (Err 403, w)
      | Some q =>
        if negb (bool_decide (named_generation hd = Some (ap_generation q))) then Some (Err 403, w)
        else
          st ← routers w !! r;
          x ← active_probe_assignment url_parse show_Z socket_loopback (boot_id r) spec q true (LbRegistry.now w) (next w) (LbRegistry.heap w) st;
          match x with
          | Err s => Some (Err s, w)
          | Ok (a, st, hp) =>
            b ← hp !! a_backend a;
            w ← give_back r a (put_router r st hp w);
            match hold_and_release (a_backend a) w with
            | None => Some (Err 409, w)
            | Some w =>
              match url_parse ("http://" +:+ address b), hc_path health with
              | Some u, Some p =>
                if match hc_port health with Some port => negb (bool_decide (url_port_or_known_default u = Some port)) | None => false end
                then Some (Err 409, w)
                else
                  match fe_probe e (address b) p None h with
                  | Some reply =>
                    if negb (reply_ok true (ap_revision q) health reply) then Some (Err 502, w)
                    else
                      st ← routers w !! r;
                      y ← active_probe_backend url_parse show_Z socket_loopback (boot_id r) spec q true (LbRegistry.now w) (next w)
                            (LbRegistry.heap w) st;
                      Some (match y with
                            | Ok (_, _, Some u) => Ok (ActiveReceipt q (gateway_id spec) (boot_id r) (rs_backend_server_id spec) u)
                            | Ok (_, _, None) => Err 409
                            | Err s => Err s
                            end, w)
                  | None => Some (Err 502, w)
                  end
              | _, _ => Some (Err 409, w)
              end
            end
          end
      end
  end.

(** The answer to a probe. *)
Definition probe_result (e : FrontEnv H) (hd : RequestHead) (secrets : SecretStore) (d : Dep) (h : option string) (w : Registry) :
    option (result Z Content * Registry) :=
  if maintenance (spec_of d) then Some (Err 503, w)
  else
    match regional d, discovery (spec_of d) with
    | Some r, Some disc =>
      spec ← ds_regional disc; here ← ds_region disc;
      (if contains_key ACTIVE_PROBE (rh_headers hd) then active_probe_local else probe_local)
        e hd secrets r spec (service_id disc) here (default "" h) (health (rest_of (spec_of d))) w
    | _, _ => Some (Err 403, w)
    end.

(** *** [RequestControl::decide] *)

(** The end: the feed, the site, or a backend. *)
Definition serve_or_proxy (hd : RequestHead) (h : option string) (path : string) (l : nat) (d : Dep) (a : Admission) (o : list AuthObs)
    (f : Front) : option (Outcome * Front) :=
  let s := spec_of d in
  let a := for_deployment l a in
  match feed_of s ≫= expose with
  | Some x =>
    if String.eqb path x then
      let link := match h with
                  | Some h => (if is_secure hd then "https://" else "http://") +:+ h +:+ path
                  | None => path
                  end in
      let doc := rss show_Z (namespace s) link (recent (namespace s) FEED_PAGE (event_feed f)) in
      finish (Respond {| rd_status := 200; rd_body := Text doc; rd_content_type := "application/rss+xml; charset=utf-8"; rd_headers := [];
                         rd_cache_control := Some "public, max-age=300" |}) a o f
    else match site s with Some st => finish (ServeSite st path) a o f | None => finish Proxy a o f end
  | None => match site s with Some st => finish (ServeSite st path) a o f | None => finish Proxy a o f end
  end.

(** The gate a spec means: its own, or what it makes of the provider it names. *)
Definition resolved_gate (f : Front) (ns : string) (g : AuthGate) : result string AuthGate :=
  match provider_ref g with
  | None => Ok g
  | Some n => match providers f !! (ns, n) with Some p => Ok (LbGate.resolve p g) | None => Err n end
  end.
(** Whether it has a form in front of a login API. *)
Definition has_form (g : AuthGate) : bool := match jwt_policy g with Some p => is_some (login_endpoint p) | None => false end.

(** The gate of a deployment, and what follows when it lets the request through. *)
Definition gated (e : FrontEnv H) (hd : RequestHead) (h : option string) (path : string) (l : nat) (d : Dep) (a : Admission) (g : AuthGate)
    (f : Front) : option (Outcome * Front) :=
  let s := spec_of d in
  match resolved_gate f (namespace s) g with
  | Err n => finish (Respond (plain 500 (NoProvider n))) (for_deployment l a) [] f
  | Ok g =>
    match h with
    | None => finish (Respond (plain 400 (Text ("this deployment requires sign-in, which needs a Host header" +:+ nl)))) (for_deployment l a) [] f
    | Some route_host =>
      let auth_host := if has_form g then default route_host (raw_host hd) else route_host in
      let info := owned_request_info hd auth_host path (gk_fronts (upstreams s)) in
      let a := {| ad_deployment := ad_deployment a; ad_assignment := ad_assignment a; ad_identity := ad_identity a; ad_prefix := ad_prefix a;
                  ad_token := ad_token a; ad_forward := forward_identity g; ad_pending := ad_pending a |} in
      if String.eqb path (login_path g) && String.eqb (rh_method hd) "POST" && has_form g then
        let p := {| pl_gate := g; pl_deployment := id s; pl_info := info; pl_origin := header_text "origin" (rh_headers hd) |} in
        finish ReadLoginBody
          {| ad_deployment := Some l; ad_assignment := ad_assignment a; ad_identity := ad_identity a; ad_prefix := ad_prefix a;
             ad_token := ad_token a; ad_forward := ad_forward a; ad_pending := Some p |} [] f
      else
        let '(v, (o, gw)) := gk_decide (fe_gate e) g (id s) (namespace s) info (gate_world f) in
        let f := with_gate_world gw f in
        match v with
        | LbSignin.Answered r => finish (Respond (auth_response show_Z r)) (for_deployment l a) o f
        | LbSignin.Allow who =>
          serve_or_proxy hd h path l d
            {| ad_deployment := ad_deployment a; ad_assignment := ad_assignment a; ad_identity := who; ad_prefix := ad_prefix a;
               ad_token := ad_token a; ad_forward := ad_forward a; ad_pending := ad_pending a |} o f
        end
    end
  end.

(** A request that is for a deployment. *)
Definition routed_to (e : FrontEnv H) (hd : RequestHead) (h : option string) (path : string) (l : nat) (d : Dep) (f : Front) :
    option (Outcome * Front) :=
  let s := spec_of d in
  let secrets := LbSignin.secrets (gate_world f) in
  if is_probe hd then
    '(r, w) ← probe_result e hd secrets d h (registry f);
    finish (Respond (match r with
                     | Ok b => plain 200 b
                     | Err st => plain st (Text ("candidate probe refused or unhealthy" +:+ nl))
                     end)) (for_deployment l nothing_yet) [] (with_registry w f)
  else
    '(r, w) ← admit_head e hd secrets d (registry f);
    let f := with_registry w f in
    match r with
    | Err st => finish (Respond (plain st (Text ("gateway admission refused" +:+ nl)))) (for_deployment l nothing_yet) [] f
    | Ok (token, assigned) =>
      let a p := {| ad_deployment := None; ad_assignment := assigned; ad_identity := None; ad_prefix := p; ad_token := token;
                    ad_forward := false; ad_pending := None |} in
      if maintenance s then
        finish (Respond (plain 503 (Text ("deployment is under maintenance" +:+ nl)))) (for_deployment l (a None)) [] f
      else
        let a := a (matched_strip_prefix (routes s) h path) in
        match gate_of s with
        | Some g => gated e hd h path l d a g f
        | None => serve_or_proxy hd h path l d a [] f
        end
    end.

(** [RequestControl::decide]; [None] is a panic. *)
Definition decide (e : FrontEnv H) (hd : RequestHead) (f : Front) : option (Outcome * Front) :=
  let h := host_of hd in
  let path := uri_path (rh_uri hd) in
  match (token ← Str.strip_prefix ACME_CHALLENGE_PREFIX path; challenges f !! token) with
  | Some answer => finish (Respond (plain 200 (Text answer))) nothing_yet [] f
  | None =>
    let routed := LbRegistry.route h path (registry f) in
    let at_ l := deps (registry f) !! l in
    let facts := request_facts hd h path (l ← routed; d ← at_ l; Some (id (spec_of d))) in
    let '(v, g) := decide_request (guard f) facts (fe_now e) in
    let f := with_guard g f in
    match v with
    | Blocked _ =>
      finish (Respond (plain 403 (Text ("blocked" +:+ nl)))) (match routed with Some l => for_deployment l nothing_yet | None => nothing_yet end) [] f
    | _ =>
      match routed with
      | None => finish (Respond (plain 404 (Text ("no deployment matches this request" +:+ nl)))) nothing_yet [] f
      | Some l =>
        d ← at_ l;
        let l := if nominates hd then default l (staged (registry f) !! id (spec_of d)) else l in
        d ← at_ l;
        routed_to e hd h path l d f
      end
    end
  end.

(** [RequestControl::continue_login]. *)
Definition continue_login (e : LbSignin.Env) (body : string) (a : Admission) (f : Front) : RequestDecision * Admission * list AuthObs * Front :=
  if (MAX_LOGIN_BODY <? String.length body)%nat then
    (Respond (plain 413 (Text ("sign-in request is too large" +:+ nl))), a, [], f)
  else
    match ad_pending a with
    | None => (Respond (plain 500 (Text ("sign-in continuation is not pending" +:+ nl))), a, [], f)
    | Some p =>
      let '(r, (o, gw)) := gk_submit e (pl_gate p) (pl_deployment p) (pl_info p) (pl_origin p) body (gate_world f) in
      (Respond (auth_response show_Z r),
       {| ad_deployment := ad_deployment a; ad_assignment := ad_assignment a; ad_identity := ad_identity a; ad_prefix := ad_prefix a;
          ad_token := ad_token a; ad_forward := ad_forward a; ad_pending := None |}, o, with_gate_world gw f)
    end.

(** *** What the upstream sees *)

(** [value]: a header value, or an error. *)
Definition set_value (n v : string) : option HeaderModification := if value_ok (H := H) v then Some (Set_ n v) else None.
(** The headers of [write_forward_headers] on a map without any. *)
Definition forward_headers (g : GatewaySpec) (token : string) : option (list HeaderModification) :=
  mapM (λ nv, set_value (fst nv) (snd nv)) (peer_headers g token).
(** One of the identity headers, left out when it would be empty. *)
Definition set_unless_empty (n v : string) : option (list HeaderModification) :=
  if String.eqb v "" then Some [] else m ← set_value n v; Some [m].

Definition identity_headers (i : Identity) : option (list HeaderModification) :=
  u ← set_value "x-auth-request-user" (header_safe (subject i));
  m ← set_unless_empty "x-auth-request-email" (header_safe (email i));
  n ← match LbSignin.name i with Some n => set_unless_empty "x-auth-request-name" (header_safe n) | None => Some [] end;
  Some (u :: m ++ n).

(** [RequestState::forwarding_modifications], for the deployment the request is at by now; [None] is a
    value that is no header value. *)
Definition forwarding_modifications (spec : option (LbRegistry.DeploymentSpec (Rest Json) SiteSpec)) (a : Admission) (u : Uri) :
    option (list HeaderModification) :=
  region ← match ad_assignment a ≫= a_forward with
           | Some (g, token, env) =>
             l ← forward_headers g token;
             n ← set_value GENERATION (show_Z (match ad_assignment a with Some x => a_generation x | None => 0 end));
             m ← set_value ENVIRONMENT env;
             Some (l ++ [n; m])
           | None => Some []
           end;
  peer ← match (s ← spec; g ← gateway s; t ← ad_token a; Some (g, t)) with
         | Some (g, token) => forward_headers g token
         | None => Some []
         end;
  let rewrite := match ad_prefix a with Some p => [RewriteUri (strip_uri_prefix u p)] | None => [] end in
  auth ← (if match spec with Some s => is_some (gate_of s) | None => false end then
            t ← match ad_identity a ≫= session_token with
                | Some t => m ← set_value "authorization" ("Bearer " +:+ t); Some [m]
                | None => Some []
                end;
            i ← match (if ad_forward a then ad_identity a else None) with Some i => identity_headers i | None => Some [] end;
            Some ((Remove <$> IDENTITY_HEADERS) ++ t ++ i)
          else Some []);
  Some (region ++ peer ++ rewrite ++ auth).

(** [LbProxy::request_filter] takes the headers of gateways off the request, and
    [upstream_request_filter] carries the modifications out; the path is parsed again. *)
Definition TRANSPORT : list string := HEADERS ++ [GENERATION; ENVIRONMENT; PROBE; ACTIVE_PROBE].
Definition strip_transport (h : H) : H := foldl (λ h n, remove_header n h) h TRANSPORT.
Context (path_and_query : string → option (string * option string)).
Definition modify (x : option (H * Uri)) (m : HeaderModification) : option (H * Uri) :=
  '(h, u) ← x;
  match m with
  | Remove n => Some (remove_header n h, u)
  | Set_ n v => Some (set_header n v h, u)
  | RewriteUri to => '(p, q) ← path_and_query to; Some (h, {| authority := authority u; uri_path := p; uri_query := q |})
  end.
Definition upstream_request (spec : option (LbRegistry.DeploymentSpec (Rest Json) SiteSpec)) (a : Admission) (hd : RequestHead) : option (H * Uri) :=
  ms ← forwarding_modifications spec a (rh_uri hd);
  foldl modify (Some (strip_transport (rh_headers hd), rh_uri hd)) ms.

(** ** Who gets through *)

(** What a deployment itself serves: a backend, its site, or its feed. *)
Definition RSS : string := "application/rss+xml; charset=utf-8".
Definition is_served (d : RequestDecision) : Prop :=
  match d with Proxy => True | ServeSite _ _ => True | Respond r => rd_content_type r = RSS | ReadLoginBody => False end.

Lemma plain_not_served st b : ¬ is_served (Respond (plain st b)).
Proof. done. Qed.
Lemma auth_not_served r : ¬ is_served (Respond (auth_response show_Z r)).
Proof. unfold is_served, auth_response. cbn. by destruct (LbSignin.body r). Qed.

(** Which of the three, and what the state of the request says then. *)
Lemma serve_or_proxy_spec hd h path l d a o f r f' :
  serve_or_proxy hd h path l d a o f = Some (r, f') →
  admission r = for_deployment l a ∧ seen r = o ∧ f' = f ∧
  match site (spec_of d) with
  | Some st => decision r = ServeSite st path ∨ feed_of (spec_of d) ≫= expose = Some path
  | None => decision r = Proxy ∨ feed_of (spec_of d) ≫= expose = Some path
  end.
Proof.
  unfold serve_or_proxy, finish. destruct (feed_of (spec_of d) ≫= expose) as [x|].
  - destruct (String.eqb_spec path x) as [<-|].
    + intros [= <- <-]. destruct (site _); cbn; auto.
    + destruct (site _); intros [= <- <-]; cbn; auto.
  - destruct (site _); intros [= <- <-]; cbn; auto.
Qed.

(** What the gate is shown is what the client sent: under the host of the request, or the authority as it
    was written where there is a form, its path and query, its cookies, whether it came over TLS or is
    said to have, whether it takes HTML, the address of the peer; and a bearer token exactly if the
    first [Authorization] header is [Bearer] and a text, which is then the token. *)
Record presents (hd : RequestHead) (d : Dep) (g : AuthGate) (info : RequestInfo) : Prop := {
  presents_host : ∃ h, host_of hd = Some h ∧ LbSignin.host info = if has_form g then default h (raw_host hd) else h;
  presents_path : LbSignin.path info = uri_path (rh_uri hd) ∧ LbSignin.query info = uri_query (rh_uri hd);
  presents_cookies c : c ∈ LbSignin.cookies info ↔ ∃ v, v ∈ get_all "cookie" (rh_headers hd) ∧ text_of (H := H) v = Some c;
  presents_bearer t :
    LbSignin.bearer info = Some t ↔
    t ≠ "" ∧ ∃ v vs raw, get_all "authorization" (rh_headers hd) = v :: vs ∧ text_of (H := H) v = Some ("Bearer " +:+ raw) ∧ t = Chars.trim raw;
  presents_secure : LbSignin.secure info = true ↔
    rh_tls hd = true ∨ ∃ v vs x, get_all "x-forwarded-proto" (rh_headers hd) = v :: vs ∧ text_of (H := H) v = Some x ∧
      Str.to_ascii_lowercase x = "https";
  presents_html : LbSignin.wants_html info = true ↔
    ∃ v vs x, get_all "accept" (rh_headers hd) = v :: vs ∧ text_of (H := H) v = Some x ∧ Str.contains "text/html" x = true;
  presents_peer : LbSignin.client info = rh_peer hd ∧ LbSignin.fronts_admin info = gk_fronts (upstreams (spec_of d));
}.

Lemma header_text_Some n (h : H) x :
  header_text n h = Some x ↔ ∃ v vs, get_all n h = v :: vs ∧ text_of (H := H) v = Some x.
Proof.
  unfold header_text. destruct (get_all n h) as [|v vs]; cbn; [split; [done|by intros (v & vs & [=] & _)]|].
  split; [by exists v, vs|]. by intros (v' & vs' & [= <- <-] & Hx).
Qed.
Lemma request_presents hd (d : Dep) (g : AuthGate) h : host_of hd = Some h →
  presents hd d g (owned_request_info hd (if has_form g then default h (raw_host hd) else h) (uri_path (rh_uri hd)) (gk_fronts (upstreams (spec_of d)))).
Proof.
  intros Hh. unfold owned_request_info. split; cbn [LbSignin.host LbSignin.path LbSignin.query LbSignin.cookies LbSignin.secure
    LbSignin.wants_html LbSignin.fronts_admin LbSignin.bearer LbSignin.client].
  - by exists h.
  - done.
  - intros c. apply list_elem_of_omap.
  - intros t. unfold bearer_of. destruct (header_text "authorization" (rh_headers hd)) as [v|] eqn:E; cbn [mbind option_bind].
    + apply header_text_Some in E as (w & ws & Hw & Hv).
      destruct (Str.strip_prefix "Bearer " v) as [raw|] eqn:Ep; cbn [mbind option_bind].
      * apply Str.strip_prefix_spec in Ep as ->. destruct (String.eqb_spec (Chars.trim raw) "") as [Ee|Ee].
        -- split; [done|]. intros (Hne & w' & ws' & raw' & Hw' & Hv' & ->). rewrite Hw in Hw'. injection Hw' as <- <-.
           rewrite Hv in Hv'. by simplify_eq/=.
        -- split; [intros [= <-]; split; [done|]; by exists w, ws, raw|].
           intros (Hne & w' & ws' & raw' & Hw' & Hv' & ->). rewrite Hw in Hw'. injection Hw' as <- <-.
           rewrite Hv in Hv'. by simplify_eq/=.
      * split; [done|]. intros (Hne & w' & ws' & raw' & Hw' & Hv' & ->). rewrite Hw in Hw'. injection Hw' as <- <-.
        rewrite Hv in Hv'. injection Hv' as ->. by rewrite (proj2 (Str.strip_prefix_spec _ _ _) eq_refl) in Ep.
    + split; [done|]. intros (Hne & w' & ws' & raw' & Hw' & Hv' & ->).
      assert (header_text "authorization" (rh_headers hd) = Some ("Bearer " +:+ raw')) as E' by (apply header_text_Some; eauto).
      by rewrite E in E'.
  - unfold is_secure. rewrite orb_true_iff. destruct (header_text "x-forwarded-proto" (rh_headers hd)) as [v|] eqn:E.
    + pose proof E as E'. apply header_text_Some in E' as (w & ws & Hw & Hv). unfold Str.eq_ignore_ascii_case.
      change (Str.to_ascii_lowercase "https") with "https". rewrite String.eqb_eq. split.
      * intros [?|Hx]; [by left|right]. by exists w, ws, v.
      * intros [?|(w' & ws' & x & Hw' & Hx & Hl)]; [by left|right]. rewrite Hw in Hw'. injection Hw' as <- <-. congruence.
    + split; [intros [?|?]; [by left|done]|]. intros [?|(v & vs & x & Hv & Hx & _)]; [by left|].
      assert (header_text "x-forwarded-proto" (rh_headers hd) = Some x) as E' by (apply header_text_Some; eauto). by rewrite E in E'.
  - destruct (header_text "accept" (rh_headers hd)) as [v|] eqn:E.
    + pose proof E as E'. apply header_text_Some in E' as (w & ws & Hw & Hv). split; [intros Hx; by exists w, ws, v|].
      intros (w' & ws' & x & Hw' & Hx & Hl). rewrite Hw in Hw'. injection Hw' as <- <-. congruence.
    + split; [done|]. intros (v & vs & x & Hv & Hx & _).
      assert (header_text "accept" (rh_headers hd) = Some x) as E' by (apply header_text_Some; eauto). by rewrite E in E'.
  - done.
Qed.

(** What a request had to pass: not a probe, admitted, not under maintenance, and let in by the gate. *)
Record passed (e : FrontEnv H) (hd : RequestHead) (f : Front) (d : Dep) (a : Admission) : Prop := {
  passed_no_probe : is_probe hd = false;
  passed_admission :
    match regional d with
    | Some r => ∃ disc spec here st x st' hp, discovery (spec_of d) = Some disc ∧ ds_regional disc = Some spec ∧ ds_region disc = Some here ∧
        routers (registry f) !! r = Some st ∧
        admit_request url_parse show_Z parse_i64 spec (service_id disc) here (rh_headers hd) (LbSignin.secrets (gate_world f)) (fe_random e)
          (LbRegistry.now (registry f)) (next (registry f)) (LbRegistry.heap (registry f)) st = Some (Ok (x, st', hp)) ∧
        ad_assignment a = Some x ∧ ad_token a = None
    | None => contains_key GENERATION (rh_headers hd) = false ∧ contains_key ENVIRONMENT (rh_headers hd) = false ∧ ad_assignment a = None ∧
        gateway_admit (gateway (spec_of d)) (rh_headers hd) (LbSignin.secrets (gate_world f)) = Ok (ad_token a)
    end;
  passed_open : maintenance (spec_of d) = false;
  passed_prefix : ad_prefix a = matched_strip_prefix (routes (spec_of d)) (host_of hd) (uri_path (rh_uri hd));
  passed_gate :
    match gate_of (spec_of d) with
    | Some g => ∃ g' info, resolved_gate f (namespace (spec_of d)) g = Ok g' ∧ host_of hd ≠ None ∧
        presents hd d g' info ∧ own_path g' (uri_path (rh_uri hd)) = false ∧
        gk_passes (fe_gate e) g' (id (spec_of d)) (namespace (spec_of d)) info (gate_world f) (ad_identity a) ∧
        ad_forward a = forward_identity g'
    | None => ad_identity a = None ∧ ad_forward a = false
    end;
}.

Section laws.
Context {GL : GatekeeperLaws Json}.

Lemma gated_spec e hd l d a g f r f' (path := uri_path (rh_uri hd)) :
  gated e hd (host_of hd) path l d a g f = Some (r, f') → is_served (decision r) →
  ∃ g' info who o, resolved_gate f (namespace (spec_of d)) g = Ok g' ∧ host_of hd ≠ None ∧ presents hd d g' info ∧
    own_path g' path = false ∧ gk_passes (fe_gate e) g' (id (spec_of d)) (namespace (spec_of d)) info (gate_world f) who ∧
    ∃ f1, serve_or_proxy hd (host_of hd) path l d
      {| ad_deployment := ad_deployment a; ad_assignment := ad_assignment a; ad_identity := who; ad_prefix := ad_prefix a;
         ad_token := ad_token a; ad_forward := forward_identity g'; ad_pending := ad_pending a |} o f1 = Some (r, f').
Proof.
  unfold gated. destruct (resolved_gate f (namespace (spec_of d)) g) as [g'|n] eqn:Eg; [|by intros [= <- <-]].
  destruct (host_of hd) as [h|] eqn:Eh; [|by intros [= <- <-]].
  set (info := owned_request_info _ _ _ _). destruct (_ && _); [by intros [= <- <-]|].
  destruct (gk_decide (fe_gate e) g' (id (spec_of d)) (namespace (spec_of d)) info (gate_world f)) as [v [o gw]] eqn:Ed.
  destruct v as [who|resp]; [|intros [= <- <-]; cbn [decision]; by intros ?%auth_not_served].
  intros Hs _. pose proof (gk_sound (fe_gate e) g' (id (spec_of d)) (namespace (spec_of d)) info (gate_world f) who) as Hg.
  rewrite Ed in Hg. destruct (Hg eq_refl) as [Hown Hpass].
  exists g', info, who, o. split_and!; [done|done|by apply request_presents|exact Hown|exact Hpass|]. eexists. exact Hs.
Qed.

Lemma admit_spec e hd secrets d w token x w' :
  admit_head e hd secrets d w = Some (Ok (token, x), w') →
  match regional d with
  | Some r => ∃ disc spec here st y st' hp, discovery (spec_of d) = Some disc ∧ ds_regional disc = Some spec ∧ ds_region disc = Some here ∧
      routers w !! r = Some st ∧
      admit_request url_parse show_Z parse_i64 spec (service_id disc) here (rh_headers hd) secrets (fe_random e)
        (LbRegistry.now w) (next w) (LbRegistry.heap w) st = Some (Ok (y, st', hp)) ∧ x = Some y ∧ token = None
  | None => contains_key GENERATION (rh_headers hd) = false ∧ contains_key ENVIRONMENT (rh_headers hd) = false ∧ x = None ∧
      gateway_admit (gateway (spec_of d)) (rh_headers hd) secrets = Ok token
  end.
Proof.
  unfold admit_head. destruct (regional d) as [r|].
  - intros (disc & Hdisc & (spec & Hspec & (here & Hhere & (st & Hst & (res & Hres & Hout)%option.bind_Some)%option.bind_Some)%option.bind_Some)%option.bind_Some)%option.bind_Some.
    destruct res as [[[y st'] hp]|s]; [|done]. injection Hout as <- <- <-. by exists disc, spec, here, st, y, st', hp.
  - destruct (contains_key GENERATION _), (contains_key ENVIRONMENT _); try done. cbn [orb].
    destruct (gateway_admit _ _ _) as [t|s]; [|done]. intros [= <- <- <-]. done.
Qed.

Lemma routed_to_spec e hd l d f r f' :
  routed_to e hd (host_of hd) (uri_path (rh_uri hd)) l d f = Some (r, f') → is_served (decision r) →
  passed e hd f d (admission r) ∧ ad_deployment (admission r) = Some l ∧
  match site (spec_of d) with
  | Some st => decision r = ServeSite st (uri_path (rh_uri hd)) ∨ feed_of (spec_of d) ≫= expose = Some (uri_path (rh_uri hd))
  | None => decision r = Proxy ∨ feed_of (spec_of d) ≫= expose = Some (uri_path (rh_uri hd))
  end.
Proof.
  unfold routed_to. destruct (is_probe hd) eqn:Ep.
  { intros ([res w] & _ & Hf)%option.bind_Some. injection Hf as <- <-. cbn [decision]. by destruct res. }
  intros ([res w] & Ha & Hf)%option.bind_Some. destruct res as [[token x]|s]; [|by injection Hf as <- <-].
  apply admit_spec in Ha as Hadm. destruct (maintenance (spec_of d)) eqn:Em; [by injection Hf as <- <-|].
  destruct (gate_of (spec_of d)) as [g|] eqn:Eg.
  - intros Hs. apply gated_spec in Hf as (g' & info & who & o & Hg & Hh & Hp & Hown & Hpass & f1 & Hserve); [|done].
    apply serve_or_proxy_spec in Hserve as (-> & _ & _ & Hsite). cbn [ad_assignment ad_prefix ad_token ad_pending for_deployment ad_deployment].
    split; [|by split]. split; cbn [ad_assignment ad_identity ad_prefix ad_token ad_forward for_deployment]; try done.
    rewrite Eg. exists g', info. by split_and!.
  - intros _. apply serve_or_proxy_spec in Hf as (-> & _ & _ & Hsite).
    split; [|by split]. split; cbn [ad_assignment ad_identity ad_prefix ad_token ad_forward for_deployment]; try done.
    by rewrite Eg.
Qed.

(** The deployment a request goes to, and what is served of it: the one its host and path are routed
    to, unless a header of a peer asks for its staged successor. *)
Record goes_to (e : FrontEnv H) (hd : RequestHead) (f : Front) (r : Outcome) (l0 : nat) (d0 : Dep) (l : nat) (d : Dep) : Prop := {
  to_routed : LbRegistry.route (host_of hd) (uri_path (rh_uri hd)) (registry f) = Some l0 ∧ deps (registry f) !! l0 = Some d0;
  to_unblocked rule :
    fst (decide_request (guard f) (request_facts hd (host_of hd) (uri_path (rh_uri hd)) (Some (id (spec_of d0)))) (fe_now e)) ≠ Blocked rule;
  to_staged : l = l0 ∨ nominates hd = true ∧ staged (registry f) !! id (spec_of d0) = Some l;
  to_deployment : deps (registry f) !! l = Some d ∧ ad_deployment (admission r) = Some l;
  to_what :
    match site (spec_of d) with
    | Some st => decision r = ServeSite st (uri_path (rh_uri hd)) ∨ feed_of (spec_of d) ≫= expose = Some (uri_path (rh_uri hd))
    | None => decision r = Proxy ∨ feed_of (spec_of d) ≫= expose = Some (uri_path (rh_uri hd))
    end;
}.

(** C2. Nothing reaches a deployment that was not let through.  When a request is handed to a backend,
    to a site, or answered with a feed, no guard rule in force blocks it; the routes send its host and
    path to that deployment, or to the one whose staged successor it is and then only with a peer's
    header on it; it is no probe, the deployment is not under maintenance, and the gateway or the
    region admitted its headers; and where the deployment has a gate, with the provider it names, the
    gate was shown the cookies, the bearer token and the rest of what the client sent ([presents]),
    let the request in for something there, and the identity it goes on with is that one. *)
Theorem requests_go_through_the_gate e hd f r f' :
  decide e hd f = Some (r, f') → is_served (decision r) →
  ∃ l0 d0 l d, goes_to e hd f r l0 d0 l d ∧ passed e hd f d (admission r).
Proof.
  unfold decide. destruct (Str.strip_prefix ACME_CHALLENGE_PREFIX (uri_path (rh_uri hd)) ≫= _) as [answer|]; [by intros [= <- <-]|].
  destruct (LbRegistry.route (host_of hd) (uri_path (rh_uri hd)) (registry f)) as [l0|] eqn:El; cbn [mbind option_bind];
    [|destruct (decide_request _ _ _) as [v g]; by destruct v; intros [= <- <-]].
  destruct (deps (registry f) !! l0) as [d0|] eqn:Ed; cbn [mbind option_bind];
    [|destruct (decide_request _ _ _) as [v g]; by destruct v; [|intros [= <- <-]|]].
  destruct (decide_request (guard f) (request_facts hd (host_of hd) (uri_path (rh_uri hd)) (Some (id (spec_of d0)))) (fe_now e)) as [v g] eqn:Ev.
  set (l := if nominates hd then default l0 (staged (registry f) !! id (spec_of d0)) else l0).
  assert (l = l0 ∨ nominates hd = true ∧ staged (registry f) !! id (spec_of d0) = Some l) as Hl.
  { unfold l. destruct (nominates hd); [|by left]. destruct (staged _ !! _); [by right|by left]. }
  assert ((∀ rule, v ≠ Blocked rule) → (d ← deps (registry f) !! l; routed_to e hd (host_of hd) (uri_path (rh_uri hd)) l d (with_guard g f)) = Some (r, f') →
    is_served (decision r) → ∃ l0 d0 l d, goes_to e hd f r l0 d0 l d ∧ passed e hd f d (admission r)) as Hgo.
  { intros Hv (d & Hd & Hr)%option.bind_Some Hs. apply routed_to_spec in Hr as ([? ? ? ? ?] & Hdep & Hsite); [|done].
    exists l0, d0, l, d. split; [|by split]. split; [done| |done|done|done]. by rewrite Ev. }
  destruct v; [by apply Hgo|by intros [= <- <-]|by apply Hgo].
Qed.
End laws.

(** Without regions every request gets an answer: nothing in a decision panics. *)
Lemma routed_to_answers e hd h path l d f : regional d = None → is_Some (routed_to e hd h path l d f).
Proof.
  intros Hr. unfold routed_to, probe_result, admit_head. rewrite Hr. destruct (is_probe hd); [destruct (maintenance _); by eexists|].
  destruct (_ || _); [by eexists|]. cbn [mbind option_bind]. destruct (gateway_admit _ _ _) as [t|s]; cbn; [|by eexists].
  destruct (maintenance _); [by eexists|].
  assert (∀ a o f, is_Some (serve_or_proxy hd h path l d a o f)) as Hserve.
  { intros a o f0. unfold serve_or_proxy. destruct (_ ≫= expose); [destruct (String.eqb _ _)|]; [by eexists|..]; destruct (site _); by eexists. }
  destruct (gate_of _) as [g|]; [|done]. unfold gated. destruct (resolved_gate _ _ g) as [g'|n]; [|by eexists].
  destruct h as [h|]; [|by eexists]. destruct (_ && _); [by eexists|]. destruct (gk_decide _ _ _ _ _ _) as [[who|r] [o w]]; [done|by eexists].
Qed.
Lemma flat_requests_are_answered e hd f :
  LbRegistry.ok (registry f) → (∀ l d, deps (registry f) !! l = Some d → regional d = None) → is_Some (decide e hd f).
Proof.
  intros Hok Hflat. unfold decide. destruct (Str.strip_prefix _ _ ≫= _); [by eexists|].
  destruct (decide_request _ _ _) as [v g]. destruct (LbRegistry.route _ _ _) as [l0|] eqn:El; [|destruct v; by eexists].
  assert (∃ d0, deps (registry f) !! l0 = Some d0) as [d0 Hd].
  { unfold LbRegistry.route in El. apply option.bind_Some in El as (i & _ & Hi). apply (ok_dep _ Hok) in Hi as (d0 & ? & _). by exists d0. }
  rewrite Hd. cbn [mbind option_bind].
  set (l := if nominates hd then _ else l0).
  assert (∃ d, deps (registry f) !! l = Some d) as [d Hl].
  { unfold l. destruct (nominates hd); [|by exists d0]. destruct (staged _ !! _) as [k|] eqn:Es; [|by exists d0].
    apply (ok_staged _ Hok) in Es as (d & ? & _). by exists d. }
  rewrite Hl. cbn [mbind option_bind]. destruct v; [|by eexists|]; apply routed_to_answers; by eapply Hflat.
Qed.

(** ** What the upstream sees *)

Section headers.
Context {HL : HeaderLaws H}.

(** What a plan leaves of a header: the last word on it. *)
Definition touches (n : string) (m : HeaderModification) : option (list string) :=
  match m with
  | Remove x => if String.eqb x n then Some [] else None
  | Set_ x v => if String.eqb x n then Some [v] else None
  | RewriteUri _ => None
  end.
Fixpoint last_word (n : string) (ms : list HeaderModification) : option (list string) :=
  match ms with [] => None | m :: ms => match last_word n ms with Some x => Some x | None => touches n m end end.

Lemma last_word_app n l l' : last_word n (l ++ l') = match last_word n l' with Some x => Some x | None => last_word n l end.
Proof. induction l as [|m l IH]; cbn [app last_word]; [|rewrite IH]; by destruct (last_word n l'). Qed.

Lemma modify_none ms : foldl modify None ms = None.
Proof. by induction ms. Qed.
Lemma modified n ms h u h' u' : foldl modify (Some (h, u)) ms = Some (h', u') → get_all n h' = default (get_all n h) (last_word n ms).
Proof.
  revert h u. induction ms as [|m ms IH]; intros h u; cbn [foldl last_word]; [by intros [= <- _]|].
  unfold modify at 2. cbn [mbind option_bind]. destruct m as [x|x v|to]; intros Hr.
  - apply IH in Hr as ->. destruct (last_word n ms); [done|]. cbn. destruct (String.eqb_spec x n) as [->|Hx]; cbn; [apply get_remove|].
    by rewrite get_remove_ne by congruence.
  - apply IH in Hr as ->. destruct (last_word n ms); [done|]. cbn. destruct (String.eqb_spec x n) as [->|Hx]; cbn; [apply get_set|].
    by rewrite get_set_ne by congruence.
  - destruct (path_and_query to) as [[p q]|]; cbn [mbind option_bind] in Hr; [|by rewrite modify_none in Hr].
    apply IH in Hr as ->. by destruct (last_word n ms).
Qed.

Lemma stripped n l (h : H) : get_all n (foldl (λ h n, remove_header n h) h l) = if existsb (String.eqb n) l then [] else get_all n h.
Proof.
  revert h. induction l as [|x l IH]; intros h; [done|]. cbn [foldl existsb]. rewrite IH.
  destruct (existsb (String.eqb n) l); [by rewrite orb_true_r|]. rewrite orb_false_r.
  destruct (String.eqb_spec n x) as [->|Hx]; [apply get_remove|by apply get_remove_ne].
Qed.

(** The value a list of settings has for a name. *)
Definition setting (n : string) (l : list (string * string)) : option string := snd <$> List.find (λ p, String.eqb (fst p) n) l.

Lemma forward_headers_spec g token l : forward_headers g token = Some l → l = (λ nv, Set_ (fst nv) (snd nv)) <$> peer_headers g token.
Proof.
  unfold forward_headers. generalize (peer_headers g token). intros nvs. revert l. induction nvs as [|nv nvs IH]; intros l; cbn; [by intros [= <-]|].
  intros (m & Hm & (l' & Hl & [= <-])%option.bind_Some)%option.bind_Some. apply IH in Hl as ->. unfold set_value in Hm.
  by destruct (value_ok _); [injection Hm as <-|].
Qed.
Lemma last_word_settings n l : NoDup l.*1 → last_word n ((λ nv, Set_ (fst nv) (snd nv)) <$> l) = (λ v, [v]) <$> setting n l.
Proof.
  unfold setting. induction l as [|[x v] l IH]; intros Hnd; [done|]. cbn in Hnd. apply NoDup_cons in Hnd as [Hx Hnd].
  cbn [fmap list_fmap last_word List.find fst snd]. change ((λ nv, Set_ (fst nv) (snd nv)) <$> l) with (list_fmap _ _ (λ nv : string * string, Set_ (fst nv) (snd nv)) l) in *.
  rewrite IH by done. destruct (String.eqb_spec x n) as [->|Hne]; cbn [touches].
  - destruct (List.find _ l) as [p|] eqn:Ef; [|cbn; by rewrite String.eqb_refl]. apply find_some in Ef as [Hin Hp%String.eqb_eq]. exfalso. apply Hx.
    rewrite <- Hp. apply list_elem_of_In, in_map, Hin.
  - destruct (List.find _ l) as [p|]; [done|]. cbn. by destruct (String.eqb_spec x n).
Qed.
Lemma peer_names g token : (peer_headers g token).*1 = HEADERS.
Proof. done. Qed.

(** What the load balancer says to another gateway. *)
Definition to_gateway (spec : option (LbRegistry.DeploymentSpec (Rest Json) SiteSpec)) (a : Admission) : list (string * string) :=
  match ad_assignment a with
  | Some x => match a_forward x with
              | Some (g, token, env) => peer_headers g token ++ [(GENERATION, show_Z (a_generation x)); (ENVIRONMENT, env)]
              | None => []
              end
  | None => match (s ← spec; g ← gateway s; t ← ad_token a; Some (g, t)) with Some (g, token) => peer_headers g token | None => [] end
  end.
(** What it says of the visitor, of a deployment with a gate: nothing that is not in the identity. *)
Definition non_empty (v : string) : option string := if String.eqb v "" then None else Some v.
Definition of_visitor (a : Admission) : list (string * string) :=
  match (if ad_forward a then ad_identity a else None) with
  | Some i =>
    [("x-auth-request-user", header_safe (subject i))]
    ++ match non_empty (header_safe (email i)) with Some v => [("x-auth-request-email", v)] | None => [] end
    ++ match (n ← LbSignin.name i; non_empty (header_safe n)) with Some v => [("x-auth-request-name", v)] | None => [] end
  | None => []
  end.
Definition has_gate (spec : option (LbRegistry.DeploymentSpec (Rest Json) SiteSpec)) : bool :=
  match spec with Some s => is_some (gate_of s) | None => false end.

(** What the upstream finds under a name. *)
Definition upstream_header (spec : option (LbRegistry.DeploymentSpec (Rest Json) SiteSpec)) (a : Admission) (h : H) (n : string) : list string :=
  if existsb (String.eqb n) TRANSPORT then option_list (setting n (to_gateway spec a))
  else if has_gate spec && existsb (String.eqb n) IDENTITY_HEADERS then option_list (setting n (of_visitor a))
  else if has_gate spec && String.eqb n "authorization" then
    match ad_identity a ≫= session_token with Some t => ["Bearer " +:+ t] | None => get_all n h end
  else get_all n h.

Lemma setting_names n l : setting n l ≠ None → In n l.*1.
Proof.
  unfold setting. destruct (List.find _ l) as [p|] eqn:E; [|done]. apply find_some in E as [Hin <-%String.eqb_eq]. intros _. by apply in_map.
Qed.
Lemma existsb_name n l : existsb (String.eqb n) l = true ↔ In n l.
Proof. rewrite existsb_exists. setoid_rewrite String.eqb_eq. naive_solver. Qed.
Lemma last_word_removes n l : last_word n (Remove <$> l) = if existsb (String.eqb n) l then Some [] else None.
Proof.
  induction l as [|x l IH]; [done|]. cbn [fmap list_fmap last_word existsb touches]. change (list_fmap _ _ Remove l) with (Remove <$> l). rewrite IH.
  rewrite (String.eqb_sym n x). by destruct (String.eqb x n), (existsb _ l).
Qed.

(** The three parts of a plan. *)
Lemma gateway_part spec a l :
  ad_token a = None ∨ ad_assignment a = None →
  (region ← match ad_assignment a ≫= a_forward with
            | Some (g, token, env) =>
              l ← forward_headers g token;
              n ← set_value GENERATION (show_Z (match ad_assignment a with Some x => a_generation x | None => 0 end));
              m ← set_value ENVIRONMENT env;
              Some (l ++ [n; m])
            | None => Some []
            end;
   peer ← match (s ← spec; g ← gateway s; t ← ad_token a; Some (g, t)) with
          | Some (g, token) => forward_headers g token
          | None => Some []
          end;
   Some (region ++ peer)) = Some l →
  l = (λ nv, Set_ (fst nv) (snd nv)) <$> to_gateway spec a.
Proof.
  intros Ha (region & Hr & (peer & Hp & [= <-])%option.bind_Some)%option.bind_Some. unfold to_gateway.
  destruct (ad_assignment a) as [x|]; cbn [mbind option_bind] in Hr.
  - destruct Ha as [Ha|]; [|done]. rewrite Ha in Hp.
    assert (peer = []) as ->. { destruct spec as [s|]; [cbn in Hp; destruct (gateway s)|]; cbn in Hp; congruence. }
    rewrite app_nil_r. destruct (a_forward x) as [[[g token] env]|]; [|by injection Hr as <-].
    apply option.bind_Some in Hr as (l & ->%forward_headers_spec & (n & Hn & (m & Hm & [= <-])%option.bind_Some)%option.bind_Some).
    unfold set_value in *. destruct (value_ok _); [|done]. destruct (value_ok _); [|done]. injection Hn as <-. injection Hm as <-.
    by rewrite fmap_app.
  - injection Hr as <-. destruct (s ← spec; _) as [[g token]|]; [|by injection Hp as <-]. by apply forward_headers_spec.
Qed.
Lemma to_gateway_names spec a : NoDup (to_gateway spec a).*1 ∧ ∀ n, In n (to_gateway spec a).*1 → existsb (String.eqb n) TRANSPORT = true.
Proof.
  assert (∀ l, bool_decide (NoDup l) && forallb (λ n, existsb (String.eqb n) TRANSPORT) l = true →
    NoDup l ∧ ∀ n, In n l → existsb (String.eqb n) TRANSPORT = true) as Hl.
  { intros l [H1%bool_decide_eq_true H2]%andb_true_iff. split; [done|]. by apply forallb_forall. }
  apply Hl. unfold to_gateway.
  destruct (ad_assignment a) as [x|]; [destruct (a_forward x) as [[[g token] env]|]|destruct (s ← spec; _) as [[g token]|]]; reflexivity.
Qed.

Lemma identity_part a l i : identity_headers i = Some l → ad_forward a = true → ad_identity a = Some i →
  l = (λ nv, Set_ (fst nv) (snd nv)) <$> of_visitor a ∧ NoDup (of_visitor a).*1 ∧ ∀ n, In n (of_visitor a).*1 → In n IDENTITY_HEADERS.
Proof.
  intros Hl Hf Hi. unfold of_visitor. rewrite Hf, Hi. unfold identity_headers in Hl.
  apply option.bind_Some in Hl as (u & Hu & (m & Hm & (nm & Hn & [= <-])%option.bind_Some)%option.bind_Some).
  assert (∀ n v x, set_unless_empty n v = Some x → x = (λ nv, Set_ (fst nv) (snd nv)) <$> match non_empty v with Some v => [(n, v)] | None => [] end) as Hs.
  { intros n v x. unfold set_unless_empty, non_empty, set_value. destruct (String.eqb v ""); [by intros [= <-]|]. destruct (value_ok _); [|done]. by intros [= <-]. }
  unfold set_value in Hu. destruct (value_ok _); [|done]. injection Hu as <-. apply Hs in Hm as ->.
  assert (nm = (λ nv, Set_ (fst nv) (snd nv)) <$> match (n ← LbSignin.name i; non_empty (header_safe n)) with Some v => [("x-auth-request-name", v)] | None => [] end) as ->.
  { destruct (LbSignin.name i); [by apply Hs in Hn|by injection Hn as <-]. }
  destruct (non_empty (header_safe (email i))), (n ← LbSignin.name i; _); cbn [app fmap list_fmap fst snd].
  all: (split; [done|]); split; [by apply (bool_decide_eq_true_1 _)|]. all: intros n Hin; apply existsb_name; cbn in Hin; naive_solver.
Qed.
Lemma auth_part spec a l :
  (if match spec with Some s => is_some (gate_of s) | None => false end then
     t ← match ad_identity a ≫= session_token with
         | Some t => m ← set_value "authorization" ("Bearer " +:+ t); Some [m]
         | None => Some []
         end;
     i ← match (if ad_forward a then ad_identity a else None) with Some i => identity_headers i | None => Some [] end;
     Some ((Remove <$> IDENTITY_HEADERS) ++ t ++ i)
   else Some []) = Some l →
  ∀ n, last_word n l =
    if has_gate spec && existsb (String.eqb n) IDENTITY_HEADERS then Some (option_list (setting n (of_visitor a)))
    else if has_gate spec && String.eqb n "authorization" then (λ t, ["Bearer " +:+ t]) <$> (ad_identity a ≫= session_token)
    else None.
Proof.
  intros Hl n. fold (has_gate spec) in Hl. destruct (has_gate spec); [|by injection Hl as <-].
  apply option.bind_Some in Hl as (t & Ht & (i & Hi & <-%(inj Some))%option.bind_Some).
  rewrite !last_word_app, last_word_removes. cbn [andb].
  assert (last_word n i = (λ v, [v]) <$> setting n (of_visitor a) ∧ (setting n (of_visitor a) ≠ None → existsb (String.eqb n) IDENTITY_HEADERS = true)) as [-> Hin].
  { destruct (ad_forward a) eqn:Ef, (ad_identity a) as [w|] eqn:Ew.
    1: { destruct (identity_part a _ _ Hi Ef Ew) as (-> & Hnd & Hnames). split; [by apply last_word_settings|].
         intros Hs%setting_names%Hnames. by apply existsb_name. }
    all: injection Hi as <-; unfold of_visitor; rewrite ?Ef, ?Ew; done. }
  assert (last_word n t = if String.eqb n "authorization" then (λ t, ["Bearer " +:+ t]) <$> (ad_identity a ≫= session_token) else None) as ->.
  { destruct (ad_identity a ≫= session_token) as [x|]; [|injection Ht as <-; by destruct (String.eqb n _)].
    apply option.bind_Some in Ht as (m & Hm & [= <-]). unfold set_value in Hm. destruct (value_ok _); [|done]. injection Hm as <-.
    cbn [last_word touches]. by rewrite String.eqb_sym. }
  destruct (setting n (of_visitor a)) as [v|]; [by rewrite Hin|]. cbn.
  destruct (String.eqb_spec n "authorization") as [->|]; [by destruct (ad_identity a ≫= session_token)|]. by destruct (existsb _ _).
Qed.

(** C3. The upstream cannot be lied to. Of a request that is sent on, whatever headers the client wrote: the
    headers gateways speak to each other in are those the load balancer sets for this destination, or absent;
    behind a gate the identity headers are those of the person who signed in, if the gate forwards them, or
    absent, and a session's token takes the place of the [Authorization] header; every other header is as the
    client sent it. *)
Theorem upstream_sees_what_was_decided spec a hd h' u' :
  ad_token a = None ∨ ad_assignment a = None →
  upstream_request spec a hd = Some (h', u') →
  ∀ n, get_all n h' = upstream_header spec a (rh_headers hd) n.
Proof.
  intros Ha (ms & Hms & Hr)%option.bind_Some n. rewrite (modified _ _ _ _ _ _ Hr). clear Hr.
  unfold forwarding_modifications in Hms. apply option.bind_Some in Hms as (region & Hr & (peer & Hp & Hms)%option.bind_Some).
  assert (region ++ peer = (λ nv, Set_ (fst nv) (snd nv)) <$> to_gateway spec a) as Hg.
  { apply gateway_part; [done|]. by rewrite Hr; cbn [mbind option_bind]; rewrite Hp. }
  apply option.bind_Some in Hms as (auth & Hauth & <-%(inj Some)). pose proof (auth_part _ _ _ Hauth) as Hlast.
  rewrite app_assoc, Hg, !last_word_app, Hlast. destruct (to_gateway_names spec a) as [Hnd Hnames].
  rewrite last_word_settings by done. unfold strip_transport, upstream_header. rewrite stripped.
  assert (∀ p, last_word n match p with Some p => [RewriteUri (strip_uri_prefix (rh_uri hd) p)] | None => [] end = None) as -> by by intros [].
  destruct (existsb (String.eqb n) TRANSPORT) eqn:Et.
  - assert (existsb (String.eqb n) IDENTITY_HEADERS = false ∧ String.eqb n "authorization" = false) as [-> ->].
    { apply existsb_name in Et. cbn in Et. naive_solver. }
    rewrite !andb_false_r. by destruct (setting n _).
  - assert (setting n (to_gateway spec a) = None) as ->.
    { destruct (setting n _) eqn:Es; [|done]. rewrite (Hnames n) in Et; [done|]. apply setting_names. by rewrite Es. }
    destruct (has_gate spec); [|done]. cbn [andb]. destruct (existsb _ IDENTITY_HEADERS); [done|].
    destruct (String.eqb n "authorization"); [|done]. by destruct (ad_identity a ≫= session_token).
Qed.

End headers.

(** What a rule that strips its prefix does when another rule is the match. *)
Example a_rule_that_lost_strips :
  let strips := {| LbRoutes.host := None; host_suffix := None; LbRoutes.path_prefix := Some "/v1"; strip_prefix := true |} in
  let keeps := {| LbRoutes.host := None; host_suffix := None; LbRoutes.path_prefix := Some "/v1/raw"; strip_prefix := false |} in
  let best := max_by_specificity (List.filter (λ r, LbRoutes.matches r None "/v1/raw/x") [strips; keeps]) in
  best = Some keeps ∧ matched_strip_prefix [strips; keeps] None "/v1/raw/x" = Some "/v1"
  ∧ strip_uri_prefix {| authority := None; uri_path := "/v1/raw/x"; uri_query := None |} "/v1" = "/raw/x".
Proof. by vm_compute. Qed.
End front.

(** ** The gate of [auth.rs] *)

Section gatekeeper.
Context {Json Claims PKey : Type} {V : Verifier Json Claims PKey} {B : Base64} {C : CookieCodec}
  (show_json : Json → string) (debug : string → string) (sha256 : string → list N) (hmac : string → string → string)
  (url_safe_no_pad : list N → string) (encode : LbTokens.TokenFile → result string string)
  (token_response_of : string → result string (option string)) (claims_of : string → result string IdClaims)
  (form_encode : list (string * string) → string) (form_parse : string → list (string * string)) (url_host : string → option string)
  {Origin : Type} `{!EqDecision Origin} (url_origin : string → option Origin) (ip_parse : string → option IpAddr)
  (au : Authenticator) (login_reply_of : string → option LoginReply).

(** The [Authenticator] as the gatekeeper of a front end. *)
Definition authenticator : Gatekeeper Json := {|
  gk_decide := decide_gate show_json debug sha256 hmac url_safe_no_pad encode token_response_of claims_of form_encode form_parse url_host au;
  gk_submit := heyo_login_submit debug hmac form_parse url_origin au login_reply_of;
  gk_fronts := fronts_admin_api ip_parse au;
  gk_passes := passes show_json debug sha256 hmac au;
|}.
Lemma authenticator_laws : @GatekeeperLaws Json authenticator.
Proof. intros e gate dep ns req w who. by apply allow_passes with (url_origin := url_origin). Qed.
End gatekeeper.

(** ** Examples *)

Module FrontDemo.
Import SigninDemo.
#[local] Existing Instance ConfigDemo.config_externals.
#[local] Existing Instance HeaderList.ops.
#[local] Existing Instance HeaderList.laws.
#[local] Existing Instance demo_verifier.
#[global] Instance keeper : Gatekeeper string :=
  authenticator show show sha hmac b64_bytes enc token_response claims form parse_form no_host origin_of (λ _, None) me no_reply.
#[global] Instance keeper_laws : GatekeeperLaws string.
Proof. apply authenticator_laws. Qed.

(** An application behind Google, and the prefix its backend does not see. *)
Definition app : ConfigDemo.Spec :=
  {| id := "app"; namespace := "default"; routes := [{| LbRoutes.host := Some "app.example.com"; host_suffix := None; LbRoutes.path_prefix := Some "/x"; strip_prefix := true |}];
     maintenance := false; site := None; scaling := ConfigDemo.policy 1; upstreams := ["10.0.0.1:80"]; discovery := None;
     gateway := Some {| service := "app"; gs_region := "eu"; mode := Forward;
                        auth := {| sr_secret := "google"; sr_key := "secret"; sr_username := None; sr_namespace := Some "default" |} |};
     rest_of := {| account_id := None; user_id := None; vm := None; health := health (ConfigDemo.rest None);
                   drain_timeout_secs := 30; boot_timeout_secs := 300; idle_action := Destroy; build := None; artifact := None;
                   update_spec := None; LbSpec.gate := Some SigninDemo.gate; feed := None; ingress := None |} |}.
Definition front : option (Front (Json := string) (J := unit) (Bytes := ConfigDemo.File) (SandboxStatus := unit)) :=
  '(_, w) ← upsert app ConfigDemo.process;
  Some {| registry := w; guard := guard_new true LbGuard.NoFile; challenges := ∅; providers := ∅; gate_world := stores; event_feed := feed_new |}.

Definition nothing_parses {A} (s : string) : option A := None.
Definition decide_demo := decide (H := HeaderList.t) (Json := string) (J := unit) (Bytes := ConfigDemo.File) (SandboxStatus := unit)
  nothing_parses nothing_parses nothing_parses nothing_parses.
Definition world_outside : FrontEnv HeaderList.t :=
  {| fe_now := 2000; fe_random := None; fe_gate := env 2000; fe_probe := λ _ _ _ _, None |}.
(** Ada comes back, with the headers another gateway and a gate would have set. *)
Definition visitor : RequestHead HeaderList.t :=
  {| rh_method := "GET"; rh_uri := {| authority := None; uri_path := "/x"; uri_query := None |};
     rh_headers := [("host", "App.example.com:443"); ("cookie", cookie_header jar); ("x-auth-request-user", "root");
                    ("accept", "text/html")];
     rh_peer := None; rh_tls := true |}.
Definition run_demo := f ← front; decide_demo world_outside visitor f.
Definition admitted_as : option (RequestDecision * option Identity * option string) :=
  x ← run_demo; Some (decision (fst x), ad_identity (admission (fst x)), ad_prefix (admission (fst x))).
Example checked_front : admitted_as = Some (Proxy, Some ada_here, Some "/x").
Proof. vm_compute. reflexivity. Qed.
Lemma run_split : ∃ f r f', front = Some f ∧ decide_demo world_outside visitor f = Some (r, f') ∧ decision r = Proxy.
Proof.
  pose proof checked_front as H. unfold admitted_as, run_demo in H.
  destruct front as [f|]; cbn [mbind option_bind] in H; [|discriminate H].
  exists f. destruct (decide_demo world_outside visitor f) as [[r f']|]; cbn [mbind option_bind] in H; [|discriminate H].
  injection H as H _ _. by exists r, f'.
Qed.

Lemma requests_go_through_the_gate_witness : ∃ f r f', front = Some f ∧ decide_demo world_outside visitor f = Some (r, f') ∧ decision r = Proxy ∧
  ∃ l0 d0 l d, goes_to world_outside visitor f r l0 d0 l d ∧ passed nothing_parses world_outside visitor f d (admission r).
Proof.
  destruct run_split as (f & r & f' & Hf & Hr & Hp). exists f, r, f'. split; [exact Hf|]. split; [exact Hr|]. split; [exact Hp|].
  apply (requests_go_through_the_gate nothing_parses nothing_parses nothing_parses nothing_parses world_outside visitor f r f' Hr).
  rewrite Hp. exact I.
Defined.

(** What the backend of that request sees. *)
Definition upstream_demo := upstream_request (H := HeaderList.t) (Json := string) (λ s, Some (s, None)).
Definition ada_admitted : Admission (Json := string) :=
  {| ad_deployment := Some 2%nat; ad_assignment := None; ad_identity := Some ada_here; ad_prefix := Some "/x"; ad_token := Some "hush";
     ad_forward := true; ad_pending := None |}.
Example checked_admission : (x ← run_demo; Some (admission (fst x))) = Some ada_admitted.
Proof. vm_compute. reflexivity. Qed.
Definition seen_upstream : option (HeaderList.t * Uri) := upstream_demo (Some app) ada_admitted visitor.
Example checked_upstream :
  (λ x, (get_all "x-auth-request-user" (fst x), get_all "x-auth-request-email" (fst x), get_all TOKEN (fst x), get_all "accept" (fst x), uri_path (snd x)))
    <$> seen_upstream = Some (["1"], ["ada@example.com"], ["hush"], ["text/html"], "/").
Proof. vm_compute. reflexivity. Qed.
Lemma upstream_sees_what_was_decided_witness :
  match seen_upstream with
  | Some (h', u') => ∀ n, get_all n h' = upstream_header (Some app) ada_admitted (rh_headers visitor) n
  | None => False
  end.
Proof.
  destruct seen_upstream as [[h' u']|] eqn:E.
  - apply (upstream_sees_what_was_decided nothing_parses nothing_parses nothing_parses nothing_parses (λ s, Some (s, None)) (Some app) ada_admitted visitor h' u' (or_intror eq_refl) E).
  - pose proof checked_upstream as H. rewrite E in H. discriminate H.
Defined.
End FrontDemo.
