(* ===== verification/LbRollout.v ===== *)
(** * Candidate-first replacement: [app-lb/src/rollout.rs]

    A rollout prepares, creates and checks the VMs of a new generation, switches the deployment to
    it in one durable write, and only then stops the old ones.  The worker is asynchronous: it is
    a program ([Prog]) of atomic operations on the registry of [LbRegistry] and of calls of the
    runtime, which answers as it likes, while the rest of the controller goes on in between. *)
From Stdlib Require Import Ascii String ZArith Lia Bool.
From stdpp Require Import base option list strings gmap fin_maps sets.
From S2P Require Import Prelude LbRoutes LbRegional LbPool LbRegistry LbRetire LbSpec LbGate LbConfig.
Open Scope string_scope.
Open Scope list_scope.

Definition RUNNING : string := "running".
Definition FAILED : string := "failed".
Definition UNKNOWN : string := "reconciliation_required".
Definition SUCCEEDED : string := "succeeded".

(** The last element of a list, changed. *)
Fixpoint on_last {A} (f : A → A) (l : list A) : list A :=
  match l with [] => [] | [x] => [f x] | x :: l => x :: on_last f l end.

(** [digest]: a lowercase SHA-256. *)
Definition lower_hex (b : ascii) : bool := Str.is_ascii_hexdigit b && negb (Str.is_ascii_uppercase b).
Definition digest (s : string) : bool := (String.length s =? 64)%nat && Str.all lower_hex s.

(** The refusals of [validate] and of [admit]. *)
Inductive Refusal : Type :=
| InvalidSpec | ChangesIdentity | NotManaged | NotStateless | ArtifactNotPinned | MountNotPinned
| NoHealthOrCapacity | NoRevisionHeader.
Inductive AdmitError : Type :=
| OperationReused | BadOperationId | ReservedOrChanged | Refused (e : Refusal) | UnstablePool | NotSaved (e : IoError).
(** Why a write of the worker did not happen. *)
Inductive StepError : Type := DeploymentChanged | Unsaved (e : IoError).

Section rollout.
Context {Json SandboxStatus J Bytes : Type} `{!EqDecision Json, !EqDecision J, !EqDecision Bytes}.
Context `{Ext : !Externals (Rest Json) SiteSpec J Bytes}.
(** SHA-256 of a text in hex; the text of an I/O error; and whether a status is [Provisioning] or [Unknown]. *)
Context (sha256_text : string → string) (show_io : IoError → string) (undecided : SandboxStatus → bool).

Local Abbreviation DeploymentSpec := (LbRegistry.DeploymentSpec (Rest Json) SiteSpec).
Local Abbreviation Operation := (RolloutOperation (Rest Json) SiteSpec).
Local Abbreviation World := (LbRegistry.World (Rest Json) SiteSpec SandboxStatus J Bytes).
Local Abbreviation Dep := (LbRegistry.Dep (Rest Json) SiteSpec SandboxStatus J).
Local Abbreviation State := (DeploymentState (RetirementOperation (Rest Json) SiteSpec J) CreateAttempt Operation
                               (RouteHandoffRecord (Rest Json) SiteSpec)).
Local Abbreviation Op := (LbRegistry.Op (Rest := Rest Json) (Site := SiteSpec) (SandboxStatus := SandboxStatus) (Json := J) (Bytes := Bytes)).
Local Abbreviation base := LbRegistry.base.
Local Notation "x <-! m ;; k" := (bind m (λ x, k)) (at level 100, m at next level, right associativity).
Local Notation "m ;;! k" := (bind m (λ _, k)) (at level 100, right associativity).

(** ** Operations and states *)

(** [Request]. *)
Record Request : Type := { rq_operation_id : string; rq_expected_revision : string; rq_spec : DeploymentSpec }.

(** What a rollout changes of its operation: everything but what was admitted. *)
Definition progress (o : Operation) (st ph : string) (rv ps : bool) (e stage : option string) (prep : option DeploymentSpec)
    (al : list Allocation) (sp : list string) (dd : option Z) (re : list string) (fs : bool) : Operation :=
  {| ro_operation_id := ro_operation_id o; deployment := deployment o; source_revision := source_revision o;
     target_spec_sha256 := target_spec_sha256 o; status := st; ro_phase := ph; readiness_verified := rv;
     previous_stopped := ps; ro_error := e; preparation_stage := stage; ro_spec := ro_spec o; ro_prepared := prep;
     prefix := prefix o; allocations := al; previous := previous o; stopped := sp; deadline := deadline o;
     drain_deadline := dd; reclaimed_candidate_ids := re; failure_settled := fs |}.
Definition set_status (st : string) (e : option string) (o : Operation) : Operation :=
  progress o st (ro_phase o) (readiness_verified o) (previous_stopped o) e (preparation_stage o) (ro_prepared o)
    (allocations o) (stopped o) (drain_deadline o) (reclaimed_candidate_ids o) (failure_settled o).
Definition set_stage (stage : string) (o : Operation) : Operation :=
  progress o (status o) (ro_phase o) (readiness_verified o) (previous_stopped o) (ro_error o) (Some stage) (ro_prepared o)
    (allocations o) (stopped o) (drain_deadline o) (reclaimed_candidate_ids o) (failure_settled o).
Definition set_prepared (s : DeploymentSpec) (o : Operation) : Operation :=
  progress o (status o) "creating" (readiness_verified o) (previous_stopped o) (ro_error o) (preparation_stage o) (Some s)
    (allocations o) (stopped o) (drain_deadline o) (reclaimed_candidate_ids o) (failure_settled o).
Definition set_allocations (al : list Allocation) (o : Operation) : Operation :=
  progress o (status o) (ro_phase o) (readiness_verified o) (previous_stopped o) (ro_error o) (preparation_stage o)
    (ro_prepared o) al (stopped o) (drain_deadline o) (reclaimed_candidate_ids o) (failure_settled o).
Definition set_verifying (o : Operation) : Operation :=
  progress o (status o) "verifying" (readiness_verified o) (previous_stopped o) (ro_error o) (preparation_stage o)
    (ro_prepared o) (allocations o) (stopped o) (drain_deadline o) (reclaimed_candidate_ids o) (failure_settled o).
Definition set_ready (until : Z) (o : Operation) : Operation :=
  progress o (status o) "draining" true (previous_stopped o) (ro_error o) (preparation_stage o)
    (ro_prepared o) (allocations o) (stopped o) (Some until) (reclaimed_candidate_ids o) (failure_settled o).
Definition add_stopped (i : string) (o : Operation) : Operation :=
  progress o (status o) (ro_phase o) (readiness_verified o) (previous_stopped o) (ro_error o) (preparation_stage o)
    (ro_prepared o) (allocations o) (stopped o ++ [i]) (drain_deadline o) (reclaimed_candidate_ids o) (failure_settled o).
Definition set_complete (o : Operation) : Operation :=
  progress o SUCCEEDED "complete" (readiness_verified o) true (ro_error o) (preparation_stage o)
    (ro_prepared o) (allocations o) (stopped o) (drain_deadline o) (reclaimed_candidate_ids o) (failure_settled o).
Definition set_settlement (re : list string) (fs : bool) (o : Operation) : Operation :=
  progress o (status o) (ro_phase o) (readiness_verified o) (previous_stopped o) (ro_error o) (preparation_stage o)
    (ro_prepared o) (allocations o) (stopped o) (drain_deadline o) re fs.
Definition fail (e : string) (o : Operation) : Operation := set_status FAILED (Some e) o.
Definition suspect (e : string) (o : Operation) : Operation := set_status UNKNOWN (Some e) o.

Definition with_attempt (a : Allocation) : Allocation :=
  {| al_name := al_name a; al_sandbox_id := al_sandbox_id a; attempted := true |}.
Definition with_sandbox (i : string) (a : Allocation) : Allocation :=
  {| al_name := al_name a; al_sandbox_id := Some i; attempted := attempted a |}.
Definition allocate (k : nat) (f : Allocation → Allocation) (o : Operation) : Operation :=
  set_allocations (alter f k (allocations o)) o.

Definition with_rollouts (l : list Operation) (s : State) : State :=
  {| retirement := retirement s; create_attempts := create_attempts s;
     allocation_history_complete := allocation_history_complete s; rollout_revision := rollout_revision s;
     active_prefix := active_prefix s; rollouts := l; suspended := suspended s;
     upstream_drains := upstream_drains s; discovery_version := discovery_version s;
     discovery_source_url := discovery_source_url s; route_handoff := route_handoff s |}.
(** The state of the next generation. *)
Definition with_generation (rev : string) (p : string) (l : list Operation) (s : State) : State :=
  {| retirement := retirement s; create_attempts := create_attempts s;
     allocation_history_complete := allocation_history_complete s; rollout_revision := rev;
     active_prefix := Some p; rollouts := l; suspended := [];
     upstream_drains := upstream_drains s; discovery_version := discovery_version s;
     discovery_source_url := discovery_source_url s; route_handoff := route_handoff s |}.

Definition status_is (st : string) (o : Operation) : bool := String.eqb (status o) st.
Definition phase_is (ph : string) (o : Operation) : bool := String.eqb (ro_phase o) ph.
Definition unsettled (o : Operation) : bool := status_is FAILED o && negb (failure_settled o).

(** [reserved]. *)
Definition reserved (s : State) : bool :=
  is_some (retirement s)
  || existsb (λ o, status_is RUNNING o || status_is UNKNOWN o || unsettled o) (rollouts s)
  || existsb (λ a, is_some (allocation a) && negb (runtime_observed a)) (create_attempts s)
  || match route_handoff s with Some h => negb (bool_decide (phase h = Committed)) | None => false end.

(** [adoptable]. *)
Definition adoptable (s : State) (name i : string) : bool :=
  if is_some (retirement s) then false
  else if existsb (λ a, is_some (allocation a) && negb (runtime_observed a)) (create_attempts s) then false
  else
    match active_prefix s with
    | Some p => Str.starts_with p name
    | None =>
      negb (existsb (λ o, Str.starts_with (prefix o) name || bool_decide (i ∈ previous o) && readiness_verified o) (rollouts s))
    end.

(** One of the two specs [validate] looks at: a stateless Firecracker service. *)
Definition stateless (s : DeploymentSpec) : result Refusal unit :=
  v <-? ok_or (vm_of s) NotManaged ;;
  bail_if (negb (bool_decide (driver v = Firecracker)) || is_some (workspace v) || is_some (workspace_archive v)
           || existsb (λ m, negb (read_only m)) (mounts v) || wants_cloud (ingress (rest_of s))
           || existsb (λ p, negb (p =? port v)%Z) (open_ports v) || bool_decide (routes s = [])) NotStateless.

(** [validate]. *)
Definition validate (old next : DeploymentSpec) : result Refusal unit :=
  bail_if (negb (LbRegistry.validate next)) InvalidSpec ;;?
  bail_if (negb (String.eqb (id old) (id next)) || negb (String.eqb (namespace old) (namespace next))
           || negb (bool_decide (routes old = routes next)) || negb (bool_decide (gate_of old = gate_of next))
           || negb (bool_decide (account_id (rest_of old) = account_id (rest_of next)))
           || negb (bool_decide (user_id (rest_of old) = user_id (rest_of next)))
           || negb (Bool.eqb (maintenance old) (maintenance next))) ChangesIdentity ;;?
  stateless old ;;? stateless next ;;?
  bail_if (negb (match artifact_of next with
                 | Some a => digest (as_artifact_ref a) && Str.starts_with "https://" (as_store a)
                 | None => false
                 end)) ArtifactNotPinned ;;?
  bail_if (match vm_of next with
           | Some v => existsb (λ m, negb (digest (ms_artifact_ref m))
                                     || negb (bool_decide (ms_digest m = Some (ms_artifact_ref m)))) (mounts v)
           | None => false
           end) MountNotPinned ;;?
  bail_if (negb (is_some (hc_path (health (rest_of next)))) || (max_replicas (scaling next) =? 0)%Z) NoHealthOrCapacity ;;?
  bail_if (negb (match expected_header (health (rest_of next)) with
                 | Some h =>
                   Str.eq_ignore_ascii_case (eh_name h) "x-heyo-revision"
                   && ((String.length (eh_value h) =? 40)%nat || (String.length (eh_value h) =? 64)%nat)
                   && Str.all lower_hex (eh_value h)
                 | None => false
                 end)) NoRevisionHeader.

(** ** Writing *)

(** What stays in memory when the write may or may not have happened. *)
Definition mark_uncertain (e : IoError) (o : Operation) : Operation :=
  set_status (if status_is FAILED o then status o else UNKNOWN) (Some ("persistence outcome uncertain: " +:+ show_io e)) o.
Definition keep_settlement (before : list Operation) (o : Operation) : Operation :=
  match List.find (λ old, String.eqb (ro_operation_id old) (ro_operation_id o)) before with
  | Some old => if status_is FAILED o then set_settlement (reclaimed_candidate_ids old) (failure_settled old) o else o
  | None => o
  end.
Definition uncertain (e : IoError) (before after : State) : State :=
  with_rollouts (keep_settlement (rollouts before) <$> on_last (mark_uncertain e) (rollouts after)) after.

(** [Rollouts::save]. *)
Definition save (l : nat) (s : State) : Op (result IoError unit) :=
  d <-! deref l ;;
  r <-! persist_snapshot d s ;;
  match r with
  | Err e => d <-! deref l ;; set_state l (uncertain e (state_of d) s) ;;! ret (Err e)
  | Ok _ => set_state l s ;;! ret (Ok tt)
  end.

(** The clone of the state with one operation replaced, written. *)
Definition save_operation (l index : nat) (o : Operation) : Op (result IoError unit) :=
  d <-! deref l ;;
  _ <-! expect (rollouts (state_of d) !! index) ;;
  save l (with_rollouts (<[index := o]> (rollouts (state_of d))) (state_of d)).

(** Whether the registry still has this deployment. *)
Definition is_live (l : nat) : Op bool :=
  d <-! deref l ;; o <-! gets (get (id (spec_of d))) ;; ret (bool_decide (o = Some l)).

(** [Rollouts::record]. *)
Definition record (l index : nat) (o : Operation) : Op (result StepError unit) :=
  live <-! is_live l ;;
  if live : bool then
    r <-! save_operation l index o ;;
    ret (match r with Ok _ => Ok tt | Err e => Err (Unsaved e) end)
  else ret (Err DeploymentChanged).

(** ** Admission *)

Definition prefix_of (i rev operation : string) : string :=
  "applb-" +:+ i +:+ "-r" +:+ sha256_text (rev +:+ ":" +:+ operation).
Definition allocation_name (p : string) (k : nat) : string := p +:+ hex_digits 8 (N.of_nat k).
Definition new_allocation (p : string) (k : nat) : Allocation :=
  {| al_name := allocation_name p k; al_sandbox_id := None; attempted := false |}.

Definition operation_byte (b : ascii) : bool := Str.is_ascii_alphanumeric b || Ascii.eqb b "-" || Ascii.eqb b "_".

Definition new_operation (t : Z) (i : string) (prev : list string) (r : Request) : Operation :=
  let p := prefix_of i (rq_expected_revision r) (rq_operation_id r) in
  let policy := scaling (rq_spec r) in
  let count := Z.to_nat (Z.max (Z.max (min_replicas policy) (warm_pool policy)) 1) in
  {| ro_operation_id := rq_operation_id r; deployment := i; source_revision := rq_expected_revision r;
     target_spec_sha256 := fingerprint (rq_spec r); status := RUNNING; ro_phase := "preparing"; readiness_verified := false;
     previous_stopped := false; ro_error := None; preparation_stage := None; ro_spec := rq_spec r; ro_prepared := None;
     prefix := p; allocations := new_allocation p <$> seq 0 count; previous := prev; stopped := [];
     deadline := U64.wrapping_add t (Z.min (Z.max (boot_timeout_secs (rest_of (rq_spec r))) 30) 1800);
     drain_deadline := None; reclaimed_candidate_ids := []; failure_settled := false |}.

(** [Rollouts::admit]. *)
Definition admit_op (l : nat) (r : Request) : Op (result AdmitError Operation) :=
  d <-! deref l ;; w <-! gets (λ w, w) ;;
  let st := state_of d in
  let serving := omap (λ b, heap w !! b) (backends (base d)) in
  match List.find (λ o, String.eqb (ro_operation_id o) (rq_operation_id r)) (rollouts st) with
  | Some o =>
    ret (if String.eqb (source_revision o) (rq_expected_revision r)
            && String.eqb (target_spec_sha256 o) (fingerprint (rq_spec r)) then Ok o else Err OperationReused)
  | None =>
    if String.eqb (rq_operation_id r) "" || (128 <? String.length (rq_operation_id r))%nat
       || negb (Str.all operation_byte (rq_operation_id r)) then ret (Err BadOperationId)
    else if reserved st || negb (String.eqb (rollout_revision st) (rq_expected_revision r)) then ret (Err ReservedOrChanged)
    else
      match validate (spec_of d) (rq_spec r) with
      | Err e => ret (Err (Refused e))
      | Ok _ =>
        if negb (bool_decide (pending (base d) = [])) || bool_decide (backends (base d) = [])
           || existsb LbPool.is_draining serving then ret (Err UnstablePool)
        else
          let o := new_operation (now w) (id (spec_of d)) ((LbPool.sandbox_id <$> serving) ++ suspended st) r in
          s <-! save l (with_rollouts (rollouts st ++ [o]) st) ;;
          ret (match s with Ok _ => Ok o | Err e => Err (NotSaved e) end)
      end
  end.

(** [start_rollout], with what the provider registry and the running jobs say. *)
Inductive StartError : Type := WrongId | ProviderRefused | NoDeployment | SlotTaken | NotAdmitted (e : AdmitError).
Definition start_rollout (i : string) (r : Request) (provider_ok busy : bool) : Op (result StartError Operation) :=
  if negb (String.eqb (id (rq_spec r)) i) then ret (Err WrongId)
  else
    let r := {| rq_operation_id := rq_operation_id r; rq_expected_revision := rq_expected_revision r;
                rq_spec := LbRegistry.normalize (rq_spec r) |} in
    if negb provider_ok then ret (Err ProviderRefused)
    else
      o <-! gets (get i) ;;
      match o with
      | None => ret (Err NoDeployment)
      | Some l =>
        if busy then ret (Err SlotTaken)
        else a <-! admit_op l r ;; ret (match a with Ok o => Ok o | Err e => Err (NotAdmitted e) end)
      end.

(** [get_rollout]. *)
Definition get_rollout (i operation : string) (w : World) : option Operation :=
  d ← dep_at i w; List.find (λ o, String.eqb (ro_operation_id o) operation) (rollouts (state_of d)).

(** ** The runtime and the worker's programs *)

(** [heyo_sdk::SandboxInfo], as far as the worker reads it. *)
Record SandboxInfo : Type := { si_id : string; si_name : string; si_status : SandboxStatus; si_image : string }.

(** The methods of [Runtime], and what they answer; a call that timed out has answered with an error. *)
Inductive Call : Type :=
| ListFleet
| Prepare (s : DeploymentSpec) (generation : string)
| Create (s : DeploymentSpec) (name : string)
| Healthy (info : SandboxInfo) (s : DeploymentSpec)
| Stop (i : string)
| Reclaim (i name : string).

(** What comes of [prepare]: the stages the worker noticed on the way, the last stage, and the
    result, or none when the deadline came first. *)
Record Prepared : Type := { pr_stages : list string; pr_last : string; pr_result : option (option DeploymentSpec) }.

Definition Reply (c : Call) : Type :=
  match c with
  | ListFleet => option (list SandboxInfo)
  | Prepare _ _ => Prepared
  | Create _ _ => option string
  | Healthy _ _ => option string
  | Stop _ => bool
  | Reclaim _ _ => option bool
  end.

(** [Act] is an operation under the locks it takes, [Ask] a call; [held] says that the locks of the
    autoscaler and of the registry's writers are kept meanwhile. *)
#[warnings="-register-all"]
Inductive Prog : Type :=
| Done (retiring : gmap string (list nat))
| Act (held : bool) (m : World → option (Prog * World))
| Ask (held : bool) (c : Call) (k : Reply c → Prog).

Definition act {A} (held : bool) (m : Op A) (k : A → Prog) : Prog := Act held (a <-! m ;; ret (k a)).
(** [return self.record(&d, index, o).await]. *)
Definition finish (l index : nat) (o : Operation) (stop : Prog) : Prog := act false (record l index o) (λ _, stop).
(** [self.record(&d, index, o).await?]. *)
Definition record_or (l index : nat) (o : Operation) (stop next : Prog) : Prog :=
  act false (record l index o) (λ r, match r with Ok _ => next | Err _ => stop end).
(** [self.runtime.list().await?]. *)
Definition fleet_or (held : bool) (stop : Prog) (next : list SandboxInfo → Prog) : Prog :=
  Ask held ListFleet (λ r, match r with Some fleet => next fleet | None => stop end).

Definition named (n : string) (fleet : list SandboxInfo) : list SandboxInfo :=
  List.filter (λ i, String.eqb (si_name i) n) fleet.
Definition candidate (a : Allocation) (fleet : list SandboxInfo) : option SandboxInfo :=
  List.find (λ i, bool_decide (al_sandbox_id a = Some (si_id i)) && String.eqb (si_name i) (al_name a)) fleet.

(** [vm_spec().image] of a spec; [None] is [vm_spec] panicking. *)
Definition image_of (s : DeploymentSpec) : option (option string) := image <$> vm_of s.
Definition prepared_image (o : Operation) : option (option string) :=
  match ro_prepared o with Some s => image_of s | None => Some None end.

(** *** [advance], phase by phase: [stop] is what the worker does after it returns *)

(** Whether a replica of the source is running that nobody recorded. *)
Definition untracked (d : Dep) (o : Operation) (fleet : list SandboxInfo) : bool :=
  existsb (λ i, bool_decide (owner_of (si_name i) = Some (id (spec_of d))) && adoptable (state_of d) (si_name i) (si_id i)
                && negb (bool_decide (si_id i ∈ previous o))) fleet.

(** What became of the preparation, at the time [t] it ended. *)
Definition prepared_operation (p : Prepared) (t : Z) (o : Operation) : Operation :=
  let o := set_stage (pr_last p) o in
  let expired := fail ("candidate artifact preparation deadline expired during " +:+ pr_last p +:+ "; source retained") o in
  match pr_result p with
  | Some (Some s) => if (t <? deadline o)%Z then set_prepared s o else expired
  | Some None => fail ("candidate artifact preparation failed during " +:+ pr_last p +:+ "; source retained") o
  | None => expired
  end.

(** The stages the worker records while it prepares. *)
Fixpoint record_stages (l index : nat) (o : Operation) (stages : list string) (stop next : Prog) : Prog :=
  match stages with
  | [] => next
  | s :: stages => record_or l index (set_stage s o) stop (record_stages l index o stages stop next)
  end.

Definition preparing (l index : nat) (o : Operation) (stop : Prog) : Prog :=
  fleet_or false stop (λ fleet,
    act false (d <-! deref l ;; ret (untracked d o fleet)) (λ b,
      if b : bool then finish l index (suspect "untracked source allocations require reconciliation before rollout" o) stop
      else
        Ask false (Prepare (ro_spec o) (prefix o)) (λ p,
          record_stages l index o (pr_stages p) stop
            (act false (w <-! gets (λ w, w) ;; record l index (prepared_operation p (now w) o)) (λ _, stop))))).

(** The outcome of an attempt that was recorded before: found by its exact name, or unknown. *)
Definition recovered (k : nat) (a : Allocation) (fleet : list SandboxInfo) (o : Operation) : Operation :=
  match named (al_name a) fleet with
  | [i] => allocate k (with_sandbox (si_id i)) o
  | _ => suspect "allocation outcome unknown; create will not be repeated" o
  end.

Definition creating (l index : nat) (o : Operation) (stop : Prog) : Prog :=
  match list_find (λ a, al_sandbox_id a = None) (allocations o) with
  | None => finish l index (set_verifying o) stop
  | Some (k, a) =>
    if attempted a then fleet_or false stop (λ fleet, finish l index (recovered k a fleet o) stop)
    else
      let o := allocate k with_attempt o in
      record_or l index o stop
        match ro_prepared o with
        | None => stop
        | Some s =>
          Ask false (Create s (al_name a)) (λ r,
            finish l index (match r with Some i => allocate k (with_sandbox i) o | None => o end) stop)
        end
  end.

(** [Arc::new(VmBackend::new(..))] of each candidate. *)
Fixpoint new_backends (ready : list (string * string)) : Op (list nat) :=
  match ready with
  | [] => ret []
  | (i, addr) :: ready =>
    b <-! fresh ;;
    modify (λ w, with_heap (<[b := LbPool.new_backend (now w) i addr]> (heap w)) w) ;;!
    bs <-! new_backends ready ;; ret (b :: bs)
  end.

(** The switch, under both locks: the state and the spec of the next generation in one write, then
    the pool, the end of admission to the old backends, and the routes. *)
Definition cutover (l index : nat) (o : Operation) (ready : list (string * string)) (retiring : gmap string (list nat)) :
    Op (gmap string (list nat)) :=
  live <-! is_live l ;; d <-! deref l ;;
  if negb (String.eqb (rollout_revision (state_of d)) (source_revision o)) || negb live then ret retiring
  else
    match ro_prepared o with
    | None => ret retiring
    | Some s =>
      n <-! new_deployment s ;; nl <-! alloc n ;;
      bs <-! new_backends ready ;;
      rev <-! fresh ;; w <-! gets (λ w, w) ;;
      _ <-! expect (rollouts (state_of d) !! index) ;;
      let o := set_ready (U64.wrapping_add (now w) (drain_timeout_secs (rest_of (spec_of d)))) o in
      let st := with_generation (revision rev) (prefix o) (<[index := o]> (rollouts (state_of d))) (state_of d) in
      r <-! persist_snapshot n st ;;
      match r with
      | Err e =>
        d <-! deref l ;;
        set_state l (with_rollouts (alter (suspect ("cutover persistence uncertain: " +:+ show_io e)) index
                                          (rollouts (state_of d))) (state_of d)) ;;!
        ret retiring
      | Ok _ =>
        set_state nl st ;;! set_backends nl bs ;;!
        d <-! deref l ;;
        each (λ b, modify (λ w, with_heap (alter (λ x, set_draining x true) b (heap w)) w)) (backends (base d)) ;;!
        publish nl ;;!
        ret (<[prefix o := backends (base d)]> retiring)
      end
    end.

(** The candidates of [as_], each running under its name, of the prepared image, and answering. *)
Fixpoint verifying (l index : nat) (o : Operation) (retiring : gmap string (list nat)) (k : gmap string (list nat) → Prog)
    (fleet : list SandboxInfo) (as_ : list Allocation) (ready : list (string * string)) : Prog :=
  match as_ with
  | [] => act false (cutover l index o ready retiring) k
  | a :: as_ =>
    match candidate a fleet with
    | None => k retiring
    | Some i =>
      act false (expect (prepared_image o)) (λ image,
        if negb (bool_decide (Some (si_image i) = image))
        then finish l index (suspect "candidate image identity mismatch" o) (k retiring)
        else
          Ask false (Healthy i (ro_spec o)) (λ r,
            match r with
            | None => k retiring
            | Some addr => verifying l index o retiring k fleet as_ (ready ++ [(si_id i, addr)])
            end))
    end
  end.

(** The backend of a candidate in the pool, or a new one. *)
Definition active_backend (l : nat) (i addr : string) : Op nat :=
  d <-! deref l ;; w <-! gets (λ w, w) ;;
  match List.find (λ b, bool_decide (LbPool.sandbox_id <$> heap w !! b = Some i)) (backends (base d)) with
  | Some b => ret b
  | None =>
    b <-! fresh ;;
    modify (λ w, with_heap (<[b := LbPool.new_backend (now w) i addr]> (heap w)) w) ;;! ret b
  end.

(** The old VMs, one by one, each recorded as stopped; then the end. *)
Fixpoint stop_previous (l index : nat) (o : Operation) (ids : list string) (retiring : gmap string (list nat))
    (k : gmap string (list nat) → Prog) : Prog :=
  match ids with
  | [] => finish l index (set_complete o) (k (delete (prefix o) retiring))
  | i :: ids =>
    if bool_decide (i ∈ stopped o) then stop_previous l index o ids retiring k
    else
      Ask false (Stop i) (λ ok,
        if ok : bool then record_or l index (add_stopped i o) (k retiring) (stop_previous l index (add_stopped i o) ids retiring k)
        else k retiring)
  end.

(** Whether the old pool still serves requests before its deadline. *)
Definition old_pool_busy (o : Operation) (retiring : gmap string (list nat)) (w : World) : bool :=
  match retiring !! prefix o with
  | Some pool => existsb (λ b, negb (LbPool.in_flight b =? 0)%Z) (omap (λ b, heap w !! b) pool)
  | None => false
  end && (now w <? default U64.max (drain_deadline o))%Z.

(** The active generation, each VM running and answering, before the old one is stopped. *)
Fixpoint draining (l index : nat) (o : Operation) (retiring : gmap string (list nat)) (k : gmap string (list nat) → Prog)
    (fleet : list SandboxInfo) (as_ : list Allocation) (active : list nat) : Prog :=
  match as_ with
  | [] =>
    act false (set_backends l active) (λ _,
      act false (gets (old_pool_busy o retiring)) (λ busy,
        if busy : bool then k retiring else stop_previous l index o (previous o) retiring k))
  | a :: as_ =>
    match candidate a fleet with
    | None => k retiring
    | Some i =>
      act false (d <-! deref l ;; image <-! expect (image_of (spec_of d)) ;; ret (spec_of d, image)) (λ si,
        if negb (bool_decide (Some (si_image i) = snd si)) then k retiring
        else
          Ask false (Healthy i (fst si)) (λ r,
            match r with
            | None => k retiring
            | Some addr =>
              act false (active_backend l (si_id i) addr) (λ b, draining l index o retiring k fleet as_ (active ++ [b]))
            end))
    end
  end.

(** *** [settle_failure] *)

(** [reclamation_protected]. *)
Definition protects (deployment operation i name : string) (w : World) (d : Dep) : bool :=
  let st := state_of d in
  existsb (λ b, String.eqb (LbPool.sandbox_id b) i) (omap (λ b, heap w !! b) (backends (base d)))
  || existsb (λ p, String.eqb (pv_sandbox_id p) i) (pending (base d))
  || existsb (String.eqb i) (suspended st)
  || match active_prefix st with Some p => Str.starts_with p name | None => false end
  || is_some (route_handoff st)
  || allocation_protects i w
  || existsb (λ a, bool_decide (ca_sandbox_id a = Some i)) (create_attempts st)
  || match retirement st with
     | Some r => existsb (String.eqb i) (inventory r)
                 || existsb (λ t, String.eqb (backend_sandbox_id t) i) (targets_of (request r))
     | None => false
     end
  || existsb (λ other,
       existsb (String.eqb i) (previous other)
       || (negb (String.eqb (ro_operation_id other) operation) || negb (String.eqb (id (spec_of d)) deployment))
          && existsb (λ a, bool_decide (al_sandbox_id a = Some i)) (allocations other)) (rollouts st).
Definition reclamation_protected (deployment operation i name : string) (w : World) : bool :=
  existsb (protects deployment operation i name w) (all_deps w).

(** [self.save(d, state)?] under the lock. *)
Definition save_or (l index : nat) (o : Operation) (stop next : Prog) : Prog :=
  act true (save_operation l index o) (λ r, match r with Ok _ => next | Err _ => stop end).

(** One candidate that has an id: kept when anything protects it, and otherwise reclaimed once. *)
Definition reclaim_one (l index k : nat) (o : Operation) (i name : string) (fleet : list SandboxInfo)
    (stop : Prog) (next : Operation → Prog) : Prog :=
  if bool_decide (i ∈ reclaimed_candidate_ids o) then next o
  else if match List.find (λ s, String.eqb (si_id s) i) fleet with
          | Some s => negb (String.eqb (si_name s) name)
          | None => false
          end then stop
  else
    act true (gets (reclamation_protected (deployment o) (ro_operation_id o) i name)) (λ kept,
      if kept : bool then stop
      else
        Ask true (Reclaim i name) (λ r,
          match r with
          | Some true =>
            let o := set_settlement (reclaimed_candidate_ids o ++ [i]) (failure_settled o) o in
            save_or l index o stop (next o)
          | _ => stop
          end)).

Fixpoint settle (l index : nat) (fleet : list SandboxInfo) (stop : Prog) (n k : nat) (o : Operation) : Prog :=
  match n with
  | O =>
    let o := set_settlement (reclaimed_candidate_ids o) true o in
    act true (save_operation l index o) (λ _, stop)
  | S n =>
    match allocations o !! k with
    | None => stop
    | Some a =>
      if negb (attempted a) then
        if is_some (al_sandbox_id a) then stop else settle l index fleet stop n (S k) o
      else
        match al_sandbox_id a with
        | Some i => reclaim_one l index k o i (al_name a) fleet stop (settle l index fleet stop n (S k))
        | None =>
          match named (al_name a) fleet with
          | [s] =>
            if undecided (si_status s) then stop
            else
              let o := allocate k (with_sandbox (si_id s)) o in
              save_or l index o stop
                (reclaim_one l index k o (si_id s) (al_name a) fleet stop (settle l index fleet stop n (S k)))
          | _ => stop
          end
        end
    end
  end.

Definition settle_failure (l index : nat) (o : Operation) (stop : Prog) : Prog :=
  if readiness_verified o || negb (phase_is "preparing" o || phase_is "creating" o || phase_is "verifying" o) then stop
  else
    match validate (ro_spec o) (ro_spec o) with
    | Err _ => stop
    | Ok _ =>
      act false (is_live l) (λ live,
        if live : bool then
          fleet_or true stop (λ fleet, settle l index fleet stop (length (allocations o)) 0 o)
        else stop)
    end.

(** *** [advance] and [tick] *)

Definition advance (l index : nat) (retiring : gmap string (list nat)) (k : gmap string (list nat) → Prog) : Prog :=
  let stop := k retiring in
  act false (d <-! deref l ;; w <-! gets (λ w, w) ;; o <-! expect (rollouts (state_of d) !! index) ;; ret (o, now w)) (λ ot,
    let '(o, t) := ot in
    if unsettled o then settle_failure l index o stop
    else if negb (phase_is "draining" o) && (deadline o <=? t)%Z then
      finish l index
        (fail (if phase_is "preparing" o
               then "candidate artifact preparation deadline expired during "
                    +:+ default "initializing" (preparation_stage o) +:+ "; source retained"
               else "candidate readiness deadline elapsed; source retained") o) stop
    else if phase_is "preparing" o then preparing l index o stop
    else if phase_is "creating" o then creating l index o stop
    else if phase_is "verifying" o then
      fleet_or false stop (λ fleet, verifying l index o retiring k fleet (allocations o) [])
    else if phase_is "draining" o then
      if (U64.saturating_add (default 0%Z (drain_deadline o)) 300 <? t)%Z then
        finish l index (suspect "post-cutover verification/stop deadline elapsed; generations retained" o) stop
      else fleet_or false stop (λ fleet, draining l index o retiring k fleet (allocations o) [])
    else stop).

(** The operation a tick goes on with. *)
Definition open_operation (s : State) : option nat :=
  if is_some (retirement s) then None
  else fst <$> list_find (λ o, status_is RUNNING o = true ∨ unsettled o = true) (rollouts s).

(** [Rollouts::tick], over the deployments in the order of the map. *)
Fixpoint tick (ls : list nat) (retiring : gmap string (list nat)) : Prog :=
  match ls with
  | [] => Done retiring
  | l :: ls =>
    act false (d <-! deref l ;; ret (open_operation (state_of d))) (λ index,
      match index with
      | Some index => advance l index retiring (tick ls)
      | None => tick ls retiring
      end)
  end.

(** ** Runs *)

Local Abbreviation Event := (LbRegistry.Event (Rest Json) SiteSpec J).
Local Abbreviation Sys := (LbRegistry.Sys (Rest Json) SiteSpec SandboxStatus J Bytes).

(** What the runtime was asked and what it answered, and which texts were digested for a prefix. *)
Inductive Entry : Type :=
| Digested (text : string)
| Called (c : Call)
| Answered (c : Call) (r : Reply c).

(** The controller, its worker between two locks or inside a call, and the map the worker keeps. *)
Record Rollouts : Type := {
  controller : Sys;
  task : option Prog;
  retiring_of : gmap string (list nat);
  log : list Entry;
}.

(** The operations on record for a deployment. *)
Definition history (i : string) (w : World) : list Operation :=
  match dep_at i w with Some d => rollouts (state_of d) | None => [] end.

(** What the handlers and the other loops leave alone: [publish] is the worker's own, a deployment
    with a history is not deregistered and its record not replaced by a handoff, and nobody else
    writes the operations.  One way to deregister such a deployment is left out by that: the
    record-only removal of [admin.rs] with a history to archive ([deregister_retired_record]), which
    requires every operation to be settled, archives the record and unlinks its file.  What the
    rollout theorems say is said of runs without it. *)
Definition leaves (e : Event) (w : World) : bool :=
  match e with
  | EvPublish _ => false
  | EvRemove i | EvForget i | EvCommit i _ => bool_decide (history i w = [])
  | EvMutate l st =>
    match deps w !! l with Some d => bool_decide (rollouts st = rollouts (state_of d)) | None => true end
  | _ => true
  end.
(** What goes on while the locks are held: requests, probes, the clock; nobody makes a backend. *)
Definition under_locks (e : Event) (w : World) : bool :=
  match e with
  | EvOutside h _ _ _ => bool_decide (LbPool.sandbox_id <$> h = LbPool.sandbox_id <$> heap w)
  | _ => false
  end.

Definition holds_locks (p : Prog) : bool := match p with Done _ => false | Act h _ => h | Ask h _ _ => h end.
Definition locked (t : option Prog) : bool := match t with Some p => holds_locks p | None => false end.
(** The call a program goes on with is made at once. *)
Definition calls (p : Prog) : list Entry := match p with Ask _ c _ => [Called c] | _ => [] end.

(** The worker goes on as [p]; a tick that is over leaves its map behind. *)
Definition goes_on (p : Prog) (s : Sys) (entries : list Entry) (r : Rollouts) : Rollouts :=
  match p with
  | Done m => {| controller := s; task := None; retiring_of := m; log := log r ++ entries |}
  | _ => {| controller := s; task := Some p; retiring_of := retiring_of r; log := log r ++ entries ++ calls p |}
  end.

(** The numbers of replicas of a request are [u32]s, and what [prepare_candidate] returns is the spec
    it was given, under the id it was given. *)
Definition typed (q : Request) : bool :=
  (min_replicas (scaling (rq_spec q)) <=? U32.max)%Z && (warm_pool (scaling (rq_spec q)) <=? U32.max)%Z.
Definition faithful (c : Call) : Reply c → bool :=
  match c with
  | Prepare s _ => λ p, match pr_result p with Some (Some s') => String.eqb (id s') (id s) | _ => true end
  | _ => λ _, true
  end.

Inductive REvent : Type :=
| Outside (e : Event)
| Start_rollout (i : string) (r : Request) (provider_ok busy : bool)
| Tick (ls : list nat)
| Go
| Answer (f : ∀ c : Call, Reply c)
| Host_crash (kept : gset string)
| Start_up (fs : list bool).

(** One step; [None] is a panic. *)
Definition rstep (e : REvent) (r : Rollouts) : option Rollouts :=
  match e, controller r with
  | Outside e, Up w =>
    if leaves e w && (negb (locked (task r)) || under_locks e w) then
      '(_, w) ← LbRegistry.step e w;
      Some {| controller := Up w; task := task r; retiring_of := retiring_of r; log := log r |}
    else Some r
  | Start_rollout i q ok busy, Up w =>
    if locked (task r) || negb (typed q) then Some r
    else
      '(_, w) ← start_rollout i q ok busy w;
      Some {| controller := Up w; task := task r; retiring_of := retiring_of r;
              log := log r ++ [Digested (rq_expected_revision q +:+ ":" +:+ rq_operation_id q)] |}
  | Tick ls, Up w =>
    if negb (is_some (task r)) && bool_decide (ls ≡ₚ (map_to_list (deployments w)).*2)
    then Some (goes_on (tick ls (retiring_of r)) (Up w) [] r)
    else Some r
  | Go, Up w =>
    match task r with
    | Some (Act _ m) => '(p, w) ← m w; Some (goes_on p (Up w) [] r)
    | _ => Some r
    end
  | Answer f, Up w =>
    match task r with
    | Some (Ask _ c k) => if faithful c (f c) then Some (goes_on (k (f c)) (Up w) [Answered c (f c)] r) else Some r
    | _ => Some r
    end
  | Host_crash kept, Up w | Host_crash kept, Down w =>
    Some {| controller := Down (crash kept w); task := None; retiring_of := ∅; log := log r |}
  | Start_up fs, Down w =>
    '(a, w) ← start_up (with_faults fs w);
    Some {| controller := match a with Ok _ => Up w | Err _ => Down w end; task := None; retiring_of := ∅; log := log r |}
  | _, Down _ | Start_up _, Up _ => Some r
  end.

Fixpoint runs (es : list REvent) (r : Rollouts) : option Rollouts :=
  match es with [] => Some r | e :: es => r ← rstep e r; runs es r end.

(** A machine that holds at most a legacy file. *)
Definition installed (old : option Bytes) : Rollouts :=
  {| controller := machine {| visible := ∅; durable := ∅; legacy := old; archive := ∅ |};
     task := None; retiring_of := ∅; log := [] |}.
End rollout.
