(* ===== verification/LbRolloutRuns.v ===== *)
(** * Runs of the rollout worker

    What the programs of [LbRollout] do while the registry, its disk and its crashes do the rest.
    [grows] says what a step leaves of the operations on record, in memory and in every file;
    [grows eq] holds of all that others do, so what the worker has read stays true until it
    goes on ([safe]); and what a record says once it is on disk ([fixed]) stays true for good. *)
From Stdlib Require Import Ascii String ZArith Lia Bool.
From stdpp Require Import base option list strings gmap fin_maps sets.
From S2P Require Import Prelude LbRoutes LbRegional LbPool LbRegistry LbRetire LbSpec LbGate LbConfig LbRollout.
Open Scope string_scope.
Open Scope list_scope.

(** An order in which a history only goes on: nothing is taken from one that is not empty. *)
Class Growth {A} (R : list A → list A → Prop) : Prop := {
  growth_order :: PreOrder R;
  growth_nil : ∀ h, R h [] → h = [];
}.
#[global] Instance growth_eq {A} : Growth (A := A) eq.
Proof. split; [split; [done|by intros ??? -> ->]|done]. Qed.
Abbreviation extends := (λ h h', h `prefix_of` h').
#[global] Instance growth_prefix {A} : Growth (A := A) extends.
Proof. split; [apply _|]. intros h. apply prefix_nil_inv. Qed.

(** ** Names *)

Lemma append_tail s s' t t' : s +:+ t = s' +:+ t' → String.length t = String.length t' → s = s' ∧ t = t'.
Proof.
  revert s'. induction s as [|c s IH]; intros [|c' s'] E Hl.
  - done.
  - exfalso. change ("" +:+ t) with t in E. subst t. rewrite string_length_app in Hl. cbn in Hl. lia.
  - exfalso. change ("" +:+ t') with t' in E. subst t'. rewrite string_length_app in Hl. cbn in Hl. lia.
  - change (String c (s +:+ t) = String c' (s' +:+ t')) in E. injection E as -> E. by destruct (IH s' E Hl) as [-> ->].
Qed.

Lemma hex_char_inj a b : (a < 16)%N → (b < 16)%N → hex_char a = hex_char b → a = b.
Proof.
  intros Ha Hb E. unfold hex_char in E. apply (f_equal N_of_ascii) in E.
  destruct (N.ltb_spec a 10), (N.ltb_spec b 10); rewrite !N_ascii_embedding in E by lia; lia.
Qed.

Lemma hex_digits_inj k a b : (a < 16 ^ N.of_nat k)%N → (b < 16 ^ N.of_nat k)%N → hex_digits k a = hex_digits k b → a = b.
Proof.
  revert a b. induction k as [|k IH]; intros a b Ha Hb E; [cbn in Ha, Hb; lia|]. cbn [hex_digits] in E.
  apply append_tail in E as [E1 E2]; [|done]. injection E2 as E2.
  rewrite Nat2N.inj_succ, N.pow_succ_r' in Ha, Hb.
  apply IH in E1; [|apply N.Div0.div_lt_upper_bound; lia..].
  apply hex_char_inj in E2; [|apply N.mod_lt; lia..].
  rewrite (N.div_mod a 16), (N.div_mod b 16) by lia. congruence.
Qed.

Lemma operation_bytes_free s : Str.all operation_byte s = true → free_of ":" s.
Proof.
  unfold free_of. induction s as [|c s IH]; [done|]. cbn [Str.all]. intros [Hc Hs]%andb_true_iff. rewrite (IH Hs), andb_true_r.
  revert Hc. destruct (Ascii.eqb_spec c ":") as [->|]; [by vm_compute|done].
Qed.

Section rollouts.
Context {Json SandboxStatus J Bytes : Type} `{!EqDecision Json, !EqDecision J, !EqDecision Bytes}.
Context `{Ext : !Externals (Rest Json) SiteSpec J Bytes, Laws : !ExternalsLaws}.

Local Abbreviation DeploymentSpec := (LbRegistry.DeploymentSpec (Rest Json) SiteSpec).
Local Abbreviation Operation := (RolloutOperation (Rest Json) SiteSpec).
Local Abbreviation World := (LbRegistry.World (Rest Json) SiteSpec SandboxStatus J Bytes).
Local Abbreviation Dep := (LbRegistry.Dep (Rest Json) SiteSpec SandboxStatus J).
Local Abbreviation State := (DeploymentState (RetirementOperation (Rest Json) SiteSpec J) CreateAttempt Operation
                               (RouteHandoffRecord (Rest Json) SiteSpec)).
Local Abbreviation Op := (LbRegistry.Op (Rest := Rest Json) (Site := SiteSpec) (SandboxStatus := SandboxStatus) (Json := J) (Bytes := Bytes)).
Local Abbreviation base := LbRegistry.base.
Local Abbreviation calm := (quiet (λ _ : nat, False)).
Local Notation "x <-! m ;; k" := (bind m (λ x, k)) (at level 100, m at next level, right associativity).
Local Notation "m ;;! k" := (bind m (λ _, k)) (at level 100, right associativity).

(** ** What a step leaves of the operations on record *)

(** A file, as a reader sees it and as a crash may leave it. *)
Definition views (w : World) (f : string) (b : option Bytes) : Prop := b = visible (disk w) !! f ∨ b = durable (disk w) !! f.
(** A staged runtime is not live, and has no history of its own. *)
Definition unstaged (w : World) : Prop :=
  ∀ i l, staged w !! i = Some l → (∀ j, get j w ≠ Some l) ∧ ∀ d, deps w !! l = Some d → rollouts (state_of d) = [].

Section grows.
Context (R : list Operation → list Operation → Prop) `{!Growth R} (G : string → list Operation → Prop).

(** Histories go on as [R] says, and what is recorded anew satisfies [G]. *)
Record grows (w w' : World) : Prop := {
  g_history : ∀ i, R (history i w) (history i w');
  g_deps : ∀ l d, deps w !! l = Some d →
    ∃ d', deps w' !! l = Some d' ∧ id (spec_of d') = id (spec_of d) ∧ R (rollouts (state_of d)) (rollouts (state_of d')) ∧
      (retirement (state_of d) = None → retirement (state_of d') = None);
  g_new : ∀ l d', deps w' !! l = Some d' →
    (∃ d, deps w !! l = Some d ∧ id (spec_of d) = id (spec_of d') ∧ rollouts (state_of d) = rollouts (state_of d')) ∨
    rollouts (state_of d') = [] ∨ G (id (spec_of d')) (rollouts (state_of d'));
  g_files : ∀ f b, views w' f b →
    views w f b ∨
    (∃ s st, b = Some (encode s st) ∧ f = state_file_name (id s) ∧ R (history (id s) w) (rollouts st) ∧
       (rollouts st = [] ∨ G (id s) (rollouts st))) ∨
    (b = None ∧ ∀ i, f = state_file_name i → history i w = []);
  g_staged : unstaged w → unstaged w';
}.

#[global] Instance grows_order : PreOrder grows.
Proof.
  split.
  - intros w. split; [done| | |by left|done].
    + intros l d Hd. exists d. by split_and!.
    + intros l d Hd. left. by exists d.
  - intros w1 w2 w3 [H1 H2 H3 H4 H5] [K1 K2 K3 K4 K5]. split.
    + intros i. etrans; [apply H1|apply K1].
    + intros l d Hd. destruct (H2 _ _ Hd) as (d2 & Hd2 & Hi2 & Hr2 & Ht2).
      destruct (K2 _ _ Hd2) as (d3 & Hd3 & Hi3 & Hr3 & Ht3). exists d3. split_and!; [done|congruence|by etrans|auto].
    + intros l d3 Hd3. destruct (K3 _ _ Hd3) as [(d2 & Hd2 & Hi2 & Hr2)|]; [|by right].
      rewrite <- Hi2, <- Hr2. by apply (H3 l).
    + intros f b Hb. destruct (K4 _ _ Hb) as [Hv|[(s & st & -> & -> & Hr & Hg)|[-> Hn]]]; [by apply H4| |].
      * right; left. exists s, st. split_and!; [done|done| |done]. etrans; [apply H1|done].
      * right; right. split; [done|]. intros i Hi. apply growth_nil. rewrite <- (Hn i Hi). apply H1.
    + auto.
Qed.

Lemma history_at i (w w' : World) :
  deployments w' = deployments w → (∀ l d, deployments w !! i = Some l → deps w !! l = Some d → deps w' !! l = deps w !! l) →
  ok w → history i w' = history i w.
Proof.
  intros Hds Hd Hw. unfold history, dep_at, get. rewrite Hds. destruct (deployments w !! i) as [l|] eqn:El; [|done]. cbn.
  destruct (ok_dep _ Hw _ _ El) as (d & Hdl & _). by rewrite (Hd l d eq_refl Hdl).
Qed.

Lemma grows_same (w w' : World) :
  deps w' = deps w → deployments w' = deployments w → staged w' = staged w → disk w' = disk w → grows w w'.
Proof.
  intros H1 H2 H3 H4. split.
  - intros i. unfold history, dep_at, get. by rewrite H1, H2.
  - rewrite H1. intros l d Hd. exists d. by split_and!.
  - rewrite H1. intros l d Hd. left. by exists d.
  - unfold views. rewrite H4. by left.
  - unfold unstaged, get. by rewrite H1, H2, H3.
Qed.

Lemma grows_calm (w w' : World) : calm w w' → grows w w'.
Proof. intros Hc. apply grows_same; [by apply calm_deps|apply Hc..]. Qed.

Lemma grows_creates l d (w w' : World) :
  ok w → creates l d w w' → rollouts (state_of d) = [] ∨ G (id (spec_of d)) (rollouts (state_of d)) → grows w w'.
Proof.
  intros Hw Hc Hd. pose proof (c_quiet _ _ _ _ Hc) as Hq. pose proof (creates_keeps _ _ _ _ Hw Hc) as Hk. split.
  - intros i. rewrite (history_at i w w'); [done|apply Hq| |done]. intros k x _ Hx. by rewrite Hx, (Hk _ _ Hx).
  - intros k x Hx. exists x. split_and!; [by apply Hk|done..].
  - intros k x Hx. destruct (decide (k = l)) as [->|Hkl].
    + right. rewrite (c_dep _ _ _ _ Hc) in Hx. by injection Hx as <-.
    + left. exists x. by rewrite <- (q_deps _ _ _ Hq).
  - unfold views. rewrite (q_disk _ _ _ Hq). by left.
  - intros Hs i k Hi. rewrite (q_staged _ _ _ Hq) in Hi. destruct (Hs _ _ Hi) as [H1 H2]. unfold get.
    rewrite (q_deployments _ _ _ Hq). split; [done|]. intros x Hx. destruct (ok_staged _ Hw _ _ Hi) as (y & Hy & _).
    rewrite (Hk _ _ Hy) in Hx. injection Hx as <-. by apply H2.
Qed.

(** A new location is neither live nor staged. *)
Lemma fresh_apart l d (w w' : World) : ok w → creates l d w w' → (∀ j, get j w' ≠ Some l) ∧ ∀ j, staged w' !! j ≠ Some l.
Proof.
  intros Hw Hc. pose proof (c_quiet _ _ _ _ Hc) as Hq. pose proof (c_fresh _ _ _ _ Hc) as Hl. unfold get.
  rewrite (q_deployments _ _ _ Hq), (q_staged _ _ _ Hq).
  split; intros j Hj; [apply (ok_dep _ Hw) in Hj|apply (ok_staged _ Hw) in Hj]; destruct Hj as (x & Hx & _);
    apply (ok_fresh _ Hw) in Hx; lia.
Qed.

Lemma grows_install o i (w w' : World) u :
  (∀ l, o = Some l → (∀ j, staged w !! j ≠ Some l) ∧ ∃ d, deps w !! l = Some d ∧ R (history i w) (rollouts (state_of d))) →
  (o = None → history i w = []) → install o i w = Some (u, w') → grows w w'.
Proof.
  intros Ho Hn (Hd & Hds & _ & Hs & Hk & _)%install_Some. split.
  - intros j. unfold history, dep_at, get in *. rewrite Hd, Hds. destruct (decide (j = i)) as [->|Hj].
    + destruct o as [l|].
      * destruct (Ho l eq_refl) as (_ & d & Hdl & Hr). rewrite lookup_insert_eq. cbn. by rewrite Hdl.
      * rewrite lookup_delete_eq. cbn. rewrite (Hn eq_refl). done.
    + destruct o; [by rewrite lookup_insert_ne|by rewrite lookup_delete_ne].
  - rewrite Hd. intros l d Hl. exists d. by split_and!.
  - rewrite Hd. intros l d Hl. left. by exists d.
  - unfold views. rewrite Hk. by left.
  - unfold unstaged, get. rewrite Hd, Hs, Hds. intros Hu j k Hj. destruct (Hu j k Hj) as [H1 H2]. split; [|done].
    intros j' Hj'. destruct o as [l|].
    + apply lookup_insert_Some in Hj' as [[_ ->]|[_ Hj']]; [by apply (proj1 (Ho k eq_refl) j)|by apply (H1 j')].
    + apply lookup_delete_Some in Hj' as [_ Hj']. by apply (H1 j').
Qed.

Lemma grows_restates l d d' (w w' : World) :
  restates l d d' w w' → R (rollouts (state_of d)) (rollouts (state_of d')) →
  (retirement (state_of d) = None → retirement (state_of d') = None) →
  rollouts (state_of d') = rollouts (state_of d) ∨
    G (id (spec_of d')) (rollouts (state_of d')) ∧ (∀ i, staged w !! i ≠ Some l) → grows w w'.
Proof.
  intros (Hq & Hd & Hd' & Hs & _) HR HT HG. split.
  - intros i. unfold history, dep_at, get. rewrite (q_deployments _ _ _ Hq). destruct (deployments w !! i) as [k|]; [|done].
    cbn. destruct (decide (k = l)) as [->|Hk]; [by rewrite Hd, Hd'|by rewrite (q_deps _ _ _ Hq)].
  - intros k x Hx. destruct (decide (k = l)) as [->|Hk].
    + assert (x = d) as -> by congruence. exists d'. by rewrite Hs.
    + exists x. by rewrite (q_deps _ _ _ Hq).
  - intros k x Hx. destruct (decide (k = l)) as [->|Hk].
    + assert (x = d') as -> by congruence. destruct HG as [E|[Hg _]]; [left|by right; right].
      exists d. by rewrite Hs, E.
    + left. exists x. by rewrite <- (q_deps _ _ _ Hq).
  - unfold views. rewrite (q_disk _ _ _ Hq). by left.
  - intros Hu i k Hi. rewrite (q_staged _ _ _ Hq) in Hi. destruct (Hu _ _ Hi) as [H1 H2]. unfold get.
    rewrite (q_deployments _ _ _ Hq). split; [done|]. intros x Hx. destruct (decide (k = l)) as [->|Hk].
    + assert (x = d') as -> by congruence. destruct HG as [->|[_ Hn]]; [by apply H2|by destruct (Hn i)].
    + rewrite (q_deps _ _ _ Hq) in Hx by done. by apply H2.
Qed.

Lemma grows_stage i l d (w : World) :
  deps w !! l = Some d → rollouts (state_of d) = [] → (∀ j, get j w ≠ Some l) → grows w (with_staged (<[i := l]> (staged w)) w).
Proof.
  intros Hd Hr Hl. split; [done| | |by left|].
  - intros k x Hx. exists x. by split_and!.
  - intros k x Hx. left. by exists x.
  - intros Hu j k Hj. cbn in Hj. apply lookup_insert_Some in Hj as [[_ <-]|[_ Hj]]; [|by eapply Hu].
    split; [done|]. intros x Hx. cbn in Hx. congruence.
Qed.
Lemma grows_unstage i (w : World) : grows w (with_staged (delete i (staged w)) w).
Proof.
  split; [done| | |by left|].
  - intros k x Hx. exists x. by split_and!.
  - intros k x Hx. left. by exists x.
  - intros Hu j k Hj. cbn in Hj. apply lookup_delete_Some in Hj as [_ Hj]. by eapply Hu.
Qed.

(** *** Files *)

Definition record_ok (w : World) (d : Dep) (st : State) : Prop :=
  R (history (id (spec_of d)) w) (rollouts st) ∧ (rollouts st = [] ∨ G (id (spec_of d)) (rollouts st)).

Lemma grows_disk k (w w' : World) :
  on_file k w w' →
  (∀ f b, b = visible (k (disk w)) !! f ∨ b = durable (k (disk w)) !! f →
     views w f b ∨
     (∃ s st, b = Some (encode s st) ∧ f = state_file_name (id s) ∧ R (history (id s) w) (rollouts st) ∧
        (rollouts st = [] ∨ G (id s) (rollouts st))) ∨
     (b = None ∧ ∀ i, f = state_file_name i → history i w = [])) → grows w w'.
Proof.
  intros [fs ->] Hf. split; [done| | |done|done].
  - intros l d Hd. exists d. by split_and!.
  - intros l d Hd. left. by exists d.
Qed.

Lemma grows_record k d st (w w' : World) :
  on_file k w w' → record_ok w d st →
  k = (λ x, x) ∨ k = record_file d st ∨ k = (λ x, sync_dir (record_file d st x)) → grows w w'.
Proof.
  intros Hf [HR HG] Hk. apply (grows_disk k); [done|]. intros f b Hb.
  assert (b = <[state_file_name (id (spec_of d)) := encode (spec_of d) st]> (visible (disk w)) !! f ∨ views w f b) as [->|Hv]; [|auto|by left].
  { unfold views. destruct Hk as [-> |[-> | ->]]; cbn in Hb; tauto. }
  destruct (decide (f = state_file_name (id (spec_of d)))) as [->|Hne].
  - right; left. exists (spec_of d), st. by rewrite lookup_insert_eq.
  - left. left. by rewrite lookup_insert_ne.
Qed.

Lemma grows_persist d st (w w' : World) r : record_ok w d st → persist_snapshot d st w = Some (r, w') → grows w w'.
Proof.
  intros Hok (k & Hf & Hk)%persist_snapshot_Some. eapply grows_record; [exact Hf|exact Hok|].
  destruct r; [by subst k; auto|]. destruct Hk; auto.
Qed.

Lemma grows_unlink k i (w w' : World) :
  on_file k w w' → history i w = [] →
  k = (λ x, x) ∨ k = unlink_file (state_file_name i) ∨ k = (λ x, sync_dir (unlink_file (state_file_name i) x)) → grows w w'.
Proof.
  intros Hf Hn Hk. apply (grows_disk k); [done|]. intros f b Hb.
  assert (b = delete (state_file_name i) (visible (disk w)) !! f ∨ views w f b) as [->|Hv]; [|auto|by left].
  { unfold views. destruct Hk as [-> |[-> | ->]]; cbn in Hb; tauto. }
  destruct (decide (f = state_file_name i)) as [->|Hne].
  - right; right. rewrite lookup_delete_eq. split; [done|]. by intros j ->%state_file_inj.
  - left. left. by rewrite lookup_delete_ne.
Qed.

Lemma grows_sys (w w' : World) r : sys w = Some (r, w') → grows w w'.
Proof. intros [fs ->]%sys_Some. by apply grows_same. Qed.

(** ** What others do *)

(** Everything in memory is good, and nothing staged has a history. *)
Record clean (w : World) : Prop := {
  cl_inv : inv w;
  cl_staged : unstaged w;
  cl_deps : ∀ l d, deps w !! l = Some d → rollouts (state_of d) = [] ∨ G (id (spec_of d)) (rollouts (state_of d));
}.

Lemma live_clean i (w : World) d : clean w → dep_at i w = Some d →
  ∃ l, get i w = Some l ∧ deps w !! l = Some d ∧ id (spec_of d) = i ∧ history i w = rollouts (state_of d) ∧
    (rollouts (state_of d) = [] ∨ G i (rollouts (state_of d))).
Proof.
  intros Hw Hd. unfold history. rewrite Hd. apply dep_at_deps in Hd as (l & Hl & Hd).
  destruct (ok_dep _ (inv_ok _ (cl_inv _ Hw)) _ _ Hl) as (x & Hx & <-). assert (x = d) as -> by congruence.
  exists l. split_and!; try done. by eapply cl_deps.
Qed.

Lemma history_creates i l d (w w' : World) : ok w → creates l d w w' → history i w' = history i w.
Proof.
  intros Hw Hc. apply history_at; [apply (c_quiet _ _ _ _ Hc)| |done]. intros k x _ Hx.
  by rewrite Hx, (creates_keeps _ _ _ _ Hw Hc _ _ Hx).
Qed.

(** A new generation that carries the history of the old. *)
Lemma grows_replace l d i (w w1 w' : World) :
  clean w → creates l d w w1 → id (spec_of d) = i → rollouts (state_of d) = history i w →
  install (Some l) i w1 = Some (tt, w') → grows w w'.
Proof.
  intros Hw Hc Hi Hr Hin. etrans.
  - eapply grows_creates; [apply Hw|exact Hc|]. rewrite Hr, Hi. unfold history.
    destruct (dep_at i w) as [x|] eqn:Ex; [|by left]. by destruct (live_clean _ _ _ Hw Ex) as (_ & _ & _ & _ & _ & Hg).
  - eapply (grows_install (Some l)); [|done|exact Hin]. intros ? [= <-].
    destruct (fresh_apart _ _ _ _ (inv_ok _ (cl_inv _ Hw)) Hc) as [_ Hs]. split; [done|]. exists d. split; [apply Hc|].
    rewrite (history_creates _ _ _ _ _ (inv_ok _ (cl_inv _ Hw)) Hc), Hr. done.
Qed.

Lemma grows_upsert s (w w' : World) l : clean w → upsert s w = Some (l, w') → grows w w'.
Proof.
  intros Hw [(_ & _ & ->)|(_ & w1 & d & Hc & Hi & Hsp & Hr & _)]%upsert_spec; [done| |apply Hw].
  eapply grows_replace; [done|exact Hc|rewrite Hsp; apply scoped_spec_id| |exact Hi]. exact Hr.
Qed.

Lemma grows_update s (w w' : World) o : clean w → update s w = Some (o, w') → grows w w'.
Proof.
  intros Hw [[_ ->]|(l & old & w1 & d & -> & Hat & _ & Hc & Hi & Hsp & Hr & _)]%LbRegistry.update_spec; [done| |apply Hw].
  eapply grows_replace; [done|exact Hc|by rewrite Hsp| |exact Hi]. unfold history. by rewrite Hat.
Qed.

Lemma grows_remove i (w w' : World) o : clean w → history i w = [] → remove i w = Some (o, w') → grows w w'.
Proof.
  intros Hw Hn [[_ ->]|(l & d & w1 & -> & _ & _ & _ & Hc & Hi)]%remove_spec; [done| |apply Hw].
  etrans; [by apply grows_calm|]. eapply (grows_install None); [done| |exact Hi]. intros _. rewrite <- Hn.
  apply history_at; [apply Hc| |apply Hw]. intros. by rewrite (calm_deps _ _ Hc).
Qed.

Lemma live_record w i l d st : clean w → get i w = Some l → deps w !! l = Some d →
  rollouts st = rollouts (state_of d) → record_ok w d st.
Proof.
  intros Hw Hl Hd Hr. destruct (ok_dep _ (inv_ok _ (cl_inv _ Hw)) _ _ Hl) as (x & Hx & Hi). assert (x = d) as -> by congruence.
  unfold record_ok, history, dep_at. rewrite Hi, Hl, Hr. cbn. rewrite Hd. split; [done|]. rewrite <- Hi. by eapply cl_deps.
Qed.

Lemma on_file_record k (w w' : World) d st : on_file k w w' → record_ok w d st → record_ok w' d st.
Proof. by intros [fs ->]. Qed.

Lemma grows_prepare op expected s (w w' : World) r : clean w → prepare_handoff op expected s w = Some (r, w') → grows w w'.
Proof.
  intros Hw [[-> _]|(l & d & Hl & Hd & _ & _ & _ & H)]%prepare_spec; [done| |apply Hw]. cbv zeta in H.
  set (next := with_handoff (Some (new_record op expected s)) (state_of d)) in *.
  pose proof (live_record _ _ _ _ next Hw Hl Hd eq_refl) as Hc.
  destruct H as [(e & f & _ & Hf & Hk)|(w1 & d2 & w2 & sl & sd & w3 & _ & Hf & Hre & Hst & Hcr & _ & [rev Hin] & ->)].
  { eapply grows_record; [exact Hf|exact Hc|]. destruct Hk; auto. }
  assert (rollouts (state_of d2) = rollouts (state_of d)) as Hro by by rewrite Hst.
  etrans; [eapply grows_record; [exact Hf|exact Hc|auto]|]. etrans; [eapply grows_restates; [exact Hre|by rewrite Hro|by rewrite Hst|by left]|].
  assert (ok w2) as Hw2.
  { eapply restates_ok; [|exact Hre]. eapply on_file_ok; [apply Hw|exact Hf]. }
  etrans; [eapply grows_creates; [exact Hw2|exact Hcr|left; by rewrite Hin]|].
  eapply grows_stage; [apply Hcr|by rewrite Hin|by apply (fresh_apart _ _ _ _ Hw2 Hcr)].
Qed.

Lemma grows_mark i (w w' : World) r : clean w → mark_handoff_prepared i w = Some (r, w') → grows w w'.
Proof.
  intros Hw [[-> _]|(l & d & sl & s & p & rec & Hl & Hd & _ & _ & _ & _ & _ & H)]%mark_handoff_spec; [done| |apply Hw]. cbv zeta in H.
  set (next := with_handoff (Some (mark_record p rec)) (state_of d)) in *.
  pose proof (live_record _ _ _ _ next Hw Hl Hd eq_refl) as Hc.
  destruct H as [(e & f & _ & Hf & Hk)|(w1 & d2 & _ & Hf & Hre & Hst)].
  { eapply grows_record; [exact Hf|exact Hc|]. destruct Hk; auto. }
  assert (rollouts (state_of d2) = rollouts (state_of d)) as Hro by by rewrite Hst.
  etrans; [eapply grows_record; [exact Hf|exact Hc|auto]|]. eapply grows_restates; [exact Hre|by rewrite Hro|by rewrite Hst|by left].
Qed.

Lemma grows_commit i op (w w' : World) r : clean w → history i w = [] → commit_handoff i op w = Some (r, w') → grows w w'.
Proof.
  intros Hw Hn [[-> _]|(l & sl & d & s & p & rec & Hc & H)]%commit_spec; [done| |apply Hw]. cbv zeta in H.
  destruct (committable_ids _ _ _ _ _ _ _ _ _ (inv_ok _ (cl_inv _ Hw)) Hc) as [_ Hids].
  assert (rollouts (state_of s) = []) as Hs.
  { destruct (cl_staged _ Hw _ _ (cm_staged _ _ _ _ _ _ _ _ _ Hc)) as [_ Hs]. apply Hs, Hc. }
  assert (record_ok w s (commit_state p rec s)) as Hrc by (split; [rewrite Hids, Hn; cbn; by rewrite Hs|by left]).
  destruct H as [(e & f & _ & Hf & Hk)|(w1 & s2 & w2 & w3 & w4 & _ & Hf & Hre & Hst & _ & Hfence & Hi & ->)].
  { eapply grows_record; [exact Hf|exact Hrc|]. destruct Hk; auto. }
  apply fence_discovery_removals_calm in Hfence.
  assert (rollouts (state_of s2) = []) as Hs2 by (by rewrite Hst).
  etrans; [eapply grows_record; [exact Hf|exact Hrc|auto]|].
  etrans; [eapply grows_restates; [exact Hre|by rewrite Hs, Hs2|by rewrite Hst|left; congruence]|].
  etrans; [by apply grows_calm|]. etrans; [by apply (grows_unstage i)|].
  assert (install (Some sl) i (with_staged (delete i (staged w3)) w3) = Some (tt, with_staged (delete i (staged w4)) w4)) as Hi'
    by (unfold install in *; by injection Hi as <-).
  destruct Hre as (Hq & Hd & Hd2 & _).
  eapply (grows_install (Some sl) i); [|done|exact Hi']. intros ? [= <-]. split.
  { intros j Hj. cbn in Hj. apply lookup_delete_Some in Hj as [Hij Hj].
    rewrite (q_staged _ _ _ Hfence), (q_staged _ _ _ Hq) in Hj. destruct Hf as [fs ->]. cbn in Hj.
    destruct (ok_staged _ (inv_ok _ (cl_inv _ Hw)) _ _ Hj) as (x & Hx & <-).
    rewrite (cm_runtime _ _ _ _ _ _ _ _ _ Hc) in Hx. injection Hx as <-. by rewrite Hids in Hij. }
  exists s2. cbn [with_staged deps]. rewrite (calm_deps _ _ Hfence). split; [done|]. rewrite Hs2.
  change (R (history i w3) []).
  assert (history i w3 = []) as ->; [|done]. rewrite <- Hn. destruct Hf as [fs ->]. cbn [with_disk with_faults deps] in *.
  unfold history, dep_at, get. rewrite (q_deployments _ _ _ Hfence), (q_deployments _ _ _ Hq), (calm_deps _ _ Hfence).
  cbn [with_disk with_faults deployments]. destruct (deployments w !! i) as [k|]; [|done]. cbn.
  destruct (decide (k = sl)) as [->|Hk]; [by rewrite Hd2, (cm_runtime _ _ _ _ _ _ _ _ _ Hc), Hs, Hs2|by rewrite (q_deps _ _ _ Hq)].
Qed.

Lemma grows_archive i l d (w w' : World) r :
  clean w → get i w = Some l → deps w !! l = Some d → archive_record d w = Some (r, w') → grows w w'.
Proof.
  intros Hw Hl Hd H. unfold archive_record in H. apply try_Some in H as (x & w1 & Hp & H).
  etrans; [eapply grows_persist, Hp; by eapply live_record|]. destruct x as [[]|e]; [|by destruct H as [-> ->]].
  apply try_Some in H as (x & w2 & Hs & H). etrans; [by eapply grows_sys|]. destruct x as [[]|e]; [|by destruct H as [-> ->]].
  apply bind_Some in H as (w3 & w3' & Hg & H). apply gets_Some in Hg as [-> ->].
  destruct (visible _ !! _) as [bytes|]; [|by apply ret_Some in H as [-> ->]]. cbv zeta in H.
  apply try_Some in H as (x & w3 & Hs3 & H). etrans; [by eapply grows_sys|]. destruct x as [[]|e]; [|by destruct H as [-> ->]].
  destruct (archive _ !! _) as [old|].
  - destruct (bool_decide (old = bytes)); [by eapply grows_sys|by apply ret_Some in H as [-> ->]].
  - apply bind_Some in H as ([] & w4 & Hk & H). apply on_file_disk in Hk. etrans; [|by eapply grows_sys].
    eapply grows_disk; [exact Hk|]. intros f b Hb. left. exact Hb.
Qed.

Lemma grows_others e (w w' : World) u :
  clean w → leaves e w = true → LbRegistry.step e w = Some (u, w') → grows w w'.
Proof.
  intros Hw. destruct e; cbn [LbRegistry.step leaves]; rewrite ?quietly_Some; intros Hl H;
    try match type of H with ex _ => destruct H as [a H] end; try apply bool_decide_eq_true in Hl.
  - by eapply grows_upsert.
  - by eapply grows_update.
  - by eapply grows_remove.
  - done.
  - unfold apply_discovery_upstreams in H. apply bind_Some in H as (d & w1 & Hd & H). apply deref_Some in Hd as [_ ->].
    by eapply grows_upsert.
  - apply apply_staged_spec in H as [[_ ->]|(d & k & n & w1 & -> & Hd & Hs & Hc & Hsp & Hst & ->)]; [done| |apply Hw].
    assert (rollouts (state_of n) = []) as Hn by (rewrite Hst; by apply (cl_staged _ Hw _ _ Hs)).
    etrans; [eapply grows_creates; [apply Hw|exact Hc|by left]|].
    eapply grows_stage; [apply Hc|done|eapply fresh_apart, Hc; apply Hw].
  - eapply grows_calm, discovery_backends_inv, H.
  - by eapply grows_prepare.
  - by eapply grows_mark.
  - by eapply grows_commit.
  - apply persist_one_Some in H. destruct (dep_at i w) as [d|] eqn:Ed.
    + destruct (live_clean _ _ _ Hw Ed) as (k & Hk & Hd & _). eapply grows_persist, H. by eapply live_record.
    + apply forget_Some in H as [[_ ->]|(_ & k & Hf & Hk)]; [done|]. eapply grows_unlink; [exact Hf| |exact Hk].
      unfold history. by rewrite Ed.
  - apply forget_Some in H as [[_ ->]|(_ & k & Hf & Hk)]; [done|]. by eapply grows_unlink.
  - apply bind_Some in H as (d & w1 & Hg & H). apply gets_Some in Hg as [-> ->].
    destruct (dep_at i w) as [d|] eqn:Ed; [|apply ret_Some in H as [_ ->]; done]. apply quietly_Some in H as [r H].
    destruct (live_clean _ _ _ Hw Ed) as (k & Hk & Hd & _). by eapply grows_archive.
  - apply bind_Some in H as (d & w1 & Hd & H). apply deref_Some in Hd as [Hd ->]. rewrite Hd in Hl.
    destruct (bool_decide (retirement st = _) && _) eqn:Eb in H; cbn [when] in H; [|apply ret_Some in H as [_ ->]; done].
    apply andb_true_iff in Eb as [Er%bool_decide_eq_true _].
    apply mutate_state_Some in H as (x & x' & Hx & Hx' & Hq & Hs & Hr & Hst & _). assert (x = d) as -> by congruence.
    apply bool_decide_eq_true in Hl.
    eapply (grows_restates l d x'); [by split_and!|by rewrite Hst, Hl|by rewrite Hst, Er|left; congruence].
  - apply set_backends_Some in H as (x & x' & Hx & Hx' & Hq & Hs & Hr & Hst & _).
    eapply (grows_restates l x x'); [by split_and!|by rewrite Hst|by rewrite Hst|left; congruence].
  - apply modify_Some in H as ->. by apply grows_same.
Qed.
End grows.

(** ** What never changes again *)

(** An allocation keeps its name, that it was attempted, and its sandbox. *)
Record moved (a a' : Allocation) : Prop := {
  mv_name : al_name a' = al_name a;
  mv_attempted : attempted a = true → attempted a' = true;
  mv_sandbox : ∀ i, al_sandbox_id a = Some i → al_sandbox_id a' = Some i;
}.
(** An operation keeps its id, its names and its source, and that its candidates were verified. *)
Record later (o o' : Operation) : Prop := {
  lt_id : ro_operation_id o' = ro_operation_id o;
  lt_previous : previous o' = previous o;
  lt_allocations : ∀ j a, allocations o !! j = Some a → ∃ a', allocations o' !! j = Some a' ∧ moved a a';
  lt_ready : readiness_verified o = true → readiness_verified o' = true;
}.
Definition continues (h h' : list Operation) : Prop :=
  ∀ k o, h !! k = Some o → ∃ o', h' !! k = Some o' ∧ later o o'.

#[global] Instance moved_order : PreOrder moved.
Proof. split; [by split|]. intros a b c [] []. split; [congruence|auto|auto]. Qed.
#[global] Instance later_order : PreOrder later.
Proof.
  split.
  - intros o. split; try done. intros j a Ha. by exists a.
  - intros o1 o2 o3 [A1 A2 A3 A4] [B1 B2 B3 B4]. split; [congruence|congruence| |auto].
    intros j a Ha. destruct (A3 _ _ Ha) as (b & Hb & Hab). destruct (B3 _ _ Hb) as (c & Hc & Hbc).
    exists c. split; [done|by etrans].
Qed.
#[global] Instance continues_growth : Growth continues.
Proof.
  split; [split|].
  - intros h k o Ho. by exists o.
  - intros h1 h2 h3 H1 H2 k o Ho. destruct (H1 _ _ Ho) as (o2 & Ho2 & L2). destruct (H2 _ _ Ho2) as (o3 & Ho3 & L3).
    exists o3. split; [done|by etrans].
  - intros [|o h] Hh; [done|]. by destruct (Hh 0%nat o eq_refl) as (x & Hx & _).
Qed.

Lemma extends_continues h h' : extends h h' → continues h h'.
Proof. intros [t ->] k o Ho. exists o. split; [by apply lookup_app_l_Some|done]. Qed.

Lemma continues_insert h k (o o' : Operation) : h !! k = Some o → later o o' → continues h (<[k := o']> h).
Proof.
  intros Ho Hl j x Hx. destruct (decide (j = k)) as [->|Hj].
  - exists o'. rewrite list_lookup_insert_eq by (by eapply lookup_lt_Some). split; [done|]. congruence.
  - exists x. by rewrite list_lookup_insert_ne.
Qed.

(** The record of [i] says [Q]: in memory, and on disk whatever a crash leaves of the files. *)
Definition kept_on (i : string) (Q : list Operation → Prop) (v : gmap string Bytes) : Prop :=
  ∃ b s st, v !! state_file_name i = Some b ∧ decode b = Some (s, st) ∧ id s = i ∧ Q (rollouts st).
Definition kept (i : string) (Q : list Operation → Prop) (dk : Disk Bytes) : Prop :=
  kept_on i Q (visible dk) ∧ kept_on i Q (durable dk).
Definition fixed (i : string) (Q : list Operation → Prop) (w : World) : Prop := Q (history i w) ∧ kept i Q (disk w).

Lemma fixed_mono i (Q Q' : list Operation → Prop) (w : World) : (∀ h, Q h → Q' h) → fixed i Q w → fixed i Q' w.
Proof.
  intros HQ [Hh [(b & s & st & H1 & H2 & H3 & H4) (b' & s' & st' & H1' & H2' & H3' & H4')]].
  split; [by apply HQ|split]; [exists b, s, st|exists b', s', st']; by split_and!; auto.
Qed.

Lemma fixed_grows R `{!Growth R} G i Q (w w' : World) :
  (∀ h h', R h h' → Q h → Q h') → ¬ Q [] → grows R G w w' → fixed i Q w → fixed i Q w'.
Proof.
  intros HQ Hn Hg [Hh [Hv Hd]]. split; [by eapply HQ, Hh; apply (g_history _ _ _ _ Hg)|].
  assert (∀ v, v = visible (disk w') ∨ v = durable (disk w') → kept_on i Q v) as Hk; [|split; apply Hk; auto].
  intros v Hv'. assert (views w' (state_file_name i) (v !! state_file_name i)) as Hvw by (destruct Hv' as [-> | ->]; [by left|by right]).
  destruct (g_files _ _ _ _ Hg _ _ Hvw) as [[E|E]|[(s & st & E & Hf & Hr & _)|[_ Hnil]]].
  - unfold kept_on. by rewrite E.
  - unfold kept_on. by rewrite E.
  - apply state_file_inj in Hf as ->. exists (encode s st), s, st. split_and!; [done|by rewrite decode_encode|done|by eapply HQ].
  - rewrite (Hnil i eq_refl) in Hh. done.
Qed.

Lemma kept_crash i Q keep (w : World) : kept i Q (disk w) → kept i Q (disk (crash keep w)).
Proof.
  intros [Hv Hd]. assert (kept_on i Q (visible (disk (crash keep w)))) as Hk.
  { unfold kept_on. rewrite (proj1 (crash_lookup keep w (state_file_name i))). by destruct (bool_decide _). }
  split; [done|]. unfold kept_on. by rewrite (proj2 (crash_lookup keep w (state_file_name i))).
Qed.

(** A start brings it back, and one that is refused leaves it on disk. *)
Lemma kept_start_up i Q (w : World) r w' :
  i ≠ "" → disk_good (disk w) → kept i Q (disk w) → start_up w = Some (r, w') →
  kept i Q (disk w') ∧ (is_ok r = true → fixed i Q w').
Proof.
  intros Hi Hg [Hv Hd] H. destruct (start_up_files _ _ _ Hg H) as [Hdur Hvis].
  destruct Hv as (b & s & st & Hb & Hdec & Hid & HQ). destruct r as [[]|e]; cbn [is_ok] in *.
  - destruct (start_keeps_record _ _ _ _ _ _ _ Hg H Hi eq_refl Hb Hdec) as (d & Hdep & Hsp & Hst & Hb').
    assert (kept i Q (disk w')) as Hk by (split; [by exists b, s, st|by rewrite Hdur]).
    split; [done|intros _]. split; [|done]. unfold history. by rewrite Hdep, Hst.
  - split; [|done]. split; [|by rewrite Hdur]. exists b, s, st. split_and!; try done. by apply Hvis.
Qed.

(** ** Good records *)

Local Abbreviation Entry := (LbRollout.Entry (Json := Json) (SandboxStatus := SandboxStatus)).
Local Abbreviation Prog := (LbRollout.Prog (Json := Json) (SandboxStatus := SandboxStatus) (J := J) (Bytes := Bytes)).

(** A SHA-256 has 64 digits. *)
Context (sha256_text : string → string) (sha256_length : ∀ t, String.length (sha256_text t) = 64%nat).

(** The names of the candidates that the runtime was asked to create. *)
Definition created (log : list Entry) : list string :=
  flat_map (λ e, match e with Called (Create _ n) => [n] | _ => [] end) log.
(** No two of the texts that were digested for a prefix have the same digest. *)
Definition collision_free (log : list Entry) : Prop :=
  ∀ t t', Digested t ∈ log → Digested t' ∈ log → sha256_text t = sha256_text t' → t = t'.

(** The candidate was found running under its name, and answered. *)
Definition answering (log : list Entry) (a : Allocation) : Prop :=
  ∃ info spec addr, al_sandbox_id a = Some (si_id info) ∧ si_name info = al_name a ∧ Answered (Healthy info spec) (Some addr) ∈ log.
Definition deleted (log : list Entry) (i : string) : Prop := ∃ name, Answered (Reclaim i name) (Some true) ∈ log.

Definition admission_text (o : Operation) : string := source_revision o +:+ ":" +:+ ro_operation_id o.

Record good_op (log : list Entry) (i : string) (o : Operation) : Prop := {
  go_id : i ≠ "";
  go_bytes : Str.all operation_byte (ro_operation_id o) = true;
  go_admitted : Digested (admission_text o) ∈ log;
  go_deployment : deployment o = i;
  go_prefix : prefix o = prefix_of sha256_text i (source_revision o) (ro_operation_id o);
  go_names : ∀ j a, allocations o !! j = Some a → (N.of_nat j < 16 ^ 8)%N ∧ al_name a = allocation_name (prefix o) j;
  go_attempted : ∀ a, a ∈ allocations o → al_sandbox_id a ≠ None → attempted a = true;
  go_prepared : ∀ s, ro_prepared o = Some s → id s = i;
  go_spec : id (ro_spec o) = i;
  go_phase : ro_phase o = "draining" → readiness_verified o = true;
  go_ready : readiness_verified o = true → ∀ a, a ∈ allocations o → answering log a;
  go_reclaimed : ∀ s, s ∈ reclaimed_candidate_ids o → deleted log s;
  go_settled : failure_settled o = true → status o = FAILED ∧
    ∀ a, a ∈ allocations o → attempted a = true → ∃ s, al_sandbox_id a = Some s ∧ s ∈ reclaimed_candidate_ids o;
}.
Record good (log : list Entry) (i : string) (h : list Operation) : Prop := {
  gd_ops : ∀ o, o ∈ h → good_op log i o;
  gd_ids : NoDup (ro_operation_id <$> h);
}.

Lemma good_nil log i : good log i [].
Proof. split; [by intros o ?%not_elem_of_nil|constructor]. Qed.
Lemma good_op_mono log log' i o : log ⊆ log' → good_op log i o → good_op log' i o.
Proof.
  intros Hl [H1 H2 H3 H4 H5 H6 H7 H8 H9 Hp H10 H11 H12]. split; auto.
  - intros Hr a Ha. destruct (H10 Hr a Ha) as (info & spec & addr & Hi & Hn & Ha'). exists info, spec, addr. auto.
  - intros s Hs. destruct (H11 s Hs) as (n & Hn). exists n. auto.
Qed.
Lemma good_mono log log' i h : log ⊆ log' → good log i h → good log' i h.
Proof. intros Hl [H1 H2]. split; [|done]. intros o Ho. by eapply good_op_mono, H1. Qed.

(** A name leads back to its deployment, its operation and its place. *)
Lemma allocation_name_inj p p' k k' :
  (N.of_nat k < 16 ^ 8)%N → (N.of_nat k' < 16 ^ 8)%N → allocation_name p k = allocation_name p' k' → p = p' ∧ k = k'.
Proof.
  intros Hk Hk' E. unfold allocation_name in E. apply append_tail in E as [-> E].
  - split; [done|]. apply hex_digits_inj in E; [lia|done..].
  - by rewrite (proj1 (hex_digits_spec 8 (N.of_nat k))), (proj1 (hex_digits_spec 8 (N.of_nat k'))).
Qed.

Lemma prefix_inj log i i' o o' :
  collision_free log → good_op log i o → good_op log i' o' → prefix o = prefix o' →
  i = i' ∧ ro_operation_id o = ro_operation_id o'.
Proof.
  intros Hc Ho Ho' E. rewrite (go_prefix _ _ _ Ho), (go_prefix _ _ _ Ho') in E. unfold prefix_of in E.
  rewrite <- !Str.append_assoc in E. apply append_tail in E as [E1 E2]; [|by rewrite !sha256_length].
  apply append_tail in E1 as [E1 _]; [|done]. cbn in E1. injection E1 as E1. change (i = i') in E1. rewrite !Str.append_assoc in E2.
  split; [done|]. apply Hc in E2; [|apply Ho|apply Ho'].
  pose proof (rsplit_at ":" (source_revision o) _ (operation_bytes_free _ (go_bytes _ _ _ Ho))) as R1.
  pose proof (rsplit_at ":" (source_revision o') _ (operation_bytes_free _ (go_bytes _ _ _ Ho'))) as R2.
  change (source_revision o +:+ String ":" (ro_operation_id o) = source_revision o' +:+ String ":" (ro_operation_id o')) in E2.
  rewrite E2, R2 in R1. by injection R1.
Qed.

Lemma name_inj log i i' h h' k k' o o' j j' a a' :
  collision_free log → good log i h → good log i' h' →
  h !! k = Some o → h' !! k' = Some o' → allocations o !! j = Some a → allocations o' !! j' = Some a' →
  al_name a = al_name a' → i = i' ∧ j = j' ∧ (h = h' → k = k').
Proof.
  intros Hc Hh Hh' Ho Ho' Ha Ha' E.
  pose proof (gd_ops _ _ _ Hh o (list_elem_of_lookup_2 _ _ _ Ho)) as Go.
  pose proof (gd_ops _ _ _ Hh' o' (list_elem_of_lookup_2 _ _ _ Ho')) as Go'.
  destruct (go_names _ _ _ Go _ _ Ha) as [Hj Hn], (go_names _ _ _ Go' _ _ Ha') as [Hj' Hn'].
  rewrite Hn, Hn' in E. apply allocation_name_inj in E as [Ep ->]; [|done..].
  destruct (prefix_inj _ _ _ _ _ Hc Go Go' Ep) as [-> Eid]. split_and!; [done|done|]. intros ->.
  eapply (NoDup_lookup _ k k' (ro_operation_id o)); [apply Hh|by rewrite list_lookup_fmap, Ho|by rewrite list_lookup_fmap, Ho', Eid].
Qed.

(** ** The invariant *)

(** A candidate of the name was attempted. *)
Definition attempt_on (n : string) (h : list Operation) : Prop :=
  ∃ k o j a, h !! k = Some o ∧ allocations o !! j = Some a ∧ al_name a = n ∧ attempted a = true.

Lemma attempt_on_nil n : ¬ attempt_on n [].
Proof. by intros (k & o & j & a & Ho & _). Qed.
Lemma attempt_on_continues n h h' : continues h h' → attempt_on n h → attempt_on n h'.
Proof.
  intros Hc (k & o & j & a & Ho & Ha & Hn & Hat). destruct (Hc _ _ Ho) as (o' & Ho' & Hl).
  destruct (lt_allocations _ _ Hl _ _ Ha) as (a' & Ha' & Hm). exists k, o', j, a'. destruct Hm as [M1 M2 _].
  split_and!; [done|done|congruence|auto].
Qed.

Definition files_good (log : list Entry) (dk : Disk Bytes) : Prop :=
  ∀ f b s st, visible dk !! f = Some b ∨ durable dk !! f = Some b → decode b = Some (s, st) → good log (id s) (rollouts st).

(** An operation at [k] with the same source, whose candidates were verified. *)
Definition vouches (k : nat) (o : Operation) (h : list Operation) : Prop :=
  ∃ o', h !! k = Some o' ∧ readiness_verified o' = true ∧ previous o' = previous o.
(** What a history says of verified candidates is on disk for good. *)
Definition vouched (i : string) (h : list Operation) (w : World) : Prop :=
  ∀ k o, h !! k = Some o → readiness_verified o = true → fixed i (vouches k o) w.

Lemma vouches_nil k o : ¬ vouches k o [].
Proof. by intros (o' & Ho & _). Qed.
Lemma vouches_continues k o h h' : continues h h' → vouches k o h → vouches k o h'.
Proof.
  intros Hc (o' & Ho & Hr & Hp). destruct (Hc _ _ Ho) as (o2 & Ho2 & Hl). exists o2.
  split_and!; [done|by apply (lt_ready _ _ Hl)|rewrite <- Hp; apply Hl].
Qed.
Lemma vouched_grows R `{!Growth R} G i h (w w' : World) :
  (∀ h h', R h h' → continues h h') → grows R G w w' → vouched i h w → vouched i h w'.
Proof.
  intros HR Hg Hv k o Hk Hr. eapply (fixed_grows R); [|apply vouches_nil|exact Hg|by apply Hv].
  intros h1 h2 Hh. by apply vouches_continues, HR.
Qed.

Record Inv (log : list Entry) (w : World) : Prop := {
  iv_inv : inv w;
  iv_staged : unstaged w;
  iv_deps : ∀ l d, deps w !! l = Some d → good log (id (spec_of d)) (rollouts (state_of d));
  iv_ready : ∀ l d, deps w !! l = Some d → vouched (id (spec_of d)) (rollouts (state_of d)) w;
  iv_files : files_good log (disk w);
  iv_created : ∀ n, n ∈ created log → ∃ i, i ≠ "" ∧ fixed i (attempt_on n) w;
  iv_once : NoDup (created log);
}.

(** What may be recorded, but for the cutover. *)
Definition entry (log : list Entry) (w : World) (i : string) (h : list Operation) : Prop := good log i h ∧ vouched i h w.

Lemma Inv_clean log w : Inv log w → clean (entry log w) w.
Proof. intros [H1 H2 H3 H4 _ _ _]. split; [done|done|]. intros l d Hd. right. split; [by apply (H3 l)|by apply (H4 l)]. Qed.

Lemma Inv_history log w i : Inv log w → entry log w i (history i w).
Proof.
  intros Hw. unfold history. destruct (dep_at i w) as [d|] eqn:Ed; [|split; [apply good_nil|by intros k o Hk]].
  apply dep_at_deps in Ed as (l & Hl & Hd). destruct (ok_dep _ (inv_ok _ (iv_inv _ _ Hw)) _ _ Hl) as (x & Hx & <-).
  assert (x = d) as -> by congruence. split; [by eapply iv_deps|by eapply iv_ready].
Qed.

Lemma grows_weaken R `{!Growth R} (G G' : string → list Operation → Prop) (w w' : World) :
  (∀ i h, G i h → G' i h) → grows R G w w' → grows R G' w w'.
Proof.
  intros HG [H1 H2 H3 H4 H5]. split; [done|done| | |done].
  - intros l d Hd. destruct (H3 l d Hd) as [?|[?|?]]; [by left|by right; left|right; right; by apply HG].
  - intros f b Hb. destruct (H4 f b Hb) as [?|[(s & st & E1 & E2 & E3 & E4)|?]]; [by left| |by right; right].
    right; left. exists s, st. split_and!; [done|done|done|]. destruct E4; [by left|right; by apply HG].
Qed.

Lemma Inv_grows' R `{!Growth R} log log' (w w' : World) :
  Inv log w → grows R (good log') w w' → inv w' → (∀ h h', R h h' → continues h h') →
  (∀ l d, deps w' !! l = Some d → vouched (id (spec_of d)) (rollouts (state_of d)) w') →
  log ⊆ log' → created log' = created log → Inv log' w'.
Proof.
  intros [H1 H2 H3 Hv H4 H5 H6] Hg Hw' HR Hready Hl Hc. split; [done|by apply (g_staged _ _ _ _ Hg)| |done| | |by rewrite Hc].
  - intros l d Hd. destruct (g_new _ _ _ _ Hg _ _ Hd) as [(x & Hx & <- & <-)|[->|]]; [|apply good_nil|done].
    by eapply good_mono, H3.
  - intros f b s st Hf Hdec. assert (views w' f (Some b)) as Hview by (destruct Hf; [left|right]; done).
    destruct (g_files _ _ _ _ Hg _ _ Hview) as [Ho|[(s' & st' & [= ->] & _ & _ & Hgd)|[[=] _]]].
    + eapply good_mono; [done|]. eapply H4; [|done]. destruct Ho as [Ho|Ho]; [left|right]; done.
    + rewrite decode_encode in Hdec. injection Hdec as -> ->. destruct Hgd as [->|]; [apply good_nil|done].
  - rewrite Hc. intros n Hn. destruct (H5 n Hn) as (i & Hi & Hfx). exists i. split; [done|].
    eapply (fixed_grows R); [|apply attempt_on_nil|exact Hg|exact Hfx]. intros h h' Hh. by apply attempt_on_continues, HR.
Qed.

Lemma Inv_grows R `{!Growth R} log log' (w w' : World) :
  Inv log w → grows R (entry log' w) w w' → inv w' → (∀ h h', R h h' → continues h h') →
  log ⊆ log' → created log' = created log → Inv log' w'.
Proof.
  intros Hw Hg Hw' HR Hl Hc. apply (Inv_grows' R log log' w w'); try done.
  { eapply (grows_weaken R); [|exact Hg]. by intros i h [Hh _]. }
  intros l d Hd. destruct (g_new _ _ _ _ Hg _ _ Hd) as [(x & Hx & <- & <-)|[->|[_ Hv]]]; [|by intros k o Hk|].
  - by eapply (vouched_grows R), iv_ready.
  - by eapply (vouched_grows R).
Qed.

Lemma Inv_log log log' w : Inv log w → log ⊆ log' → created log' = created log → Inv log' w.
Proof.
  intros Hw Hl Hc. apply (Inv_grows eq log log' w w); [done|done|apply Hw|by intros h ? <-|done|done].
Qed.

Lemma created_app log log' : created (log ++ log') = created log ++ created log'.
Proof. apply flat_map_app. Qed.

Lemma log_app (log l : list Entry) : log ⊆ log ++ l.
Proof. intros e He. apply elem_of_app. by left. Qed.

(** A call, which repeats no name and comes after its attempt was recorded. *)
Lemma Inv_called log w c :
  Inv log w →
  (∀ s n, c = Create s n → n ∉ created log ∧ ∃ i, i ≠ "" ∧ fixed i (attempt_on n) w) → Inv (log ++ [Called c]) w.
Proof.
  intros Hw Hc. pose proof (log_app log [Called c]) as Hl.
  destruct c as [| |s n| | |]; try (apply (Inv_log log); [done|done|by rewrite created_app, app_nil_r]).
  destruct (Hc s n eq_refl) as [Hn Hfx]. destruct Hw as [H1 H2 H3 Hv H4 H5 H6].
  split; [done|done| |done| | |].
  - intros l d Hd. by eapply good_mono, H3.
  - intros f b s' st Hf Hdec. by eapply good_mono, H4.
  - intros m. rewrite created_app. cbn. rewrite elem_of_app, list_elem_of_singleton. intros [Hm| ->]; auto.
  - rewrite created_app. cbn. apply NoDup_app. split; [done|]. split; [|apply NoDup_singleton].
    intros m Hm ->%list_elem_of_singleton. done.
Qed.

(** *** What others do keeps it *)

Lemma Inv_others log e (w w' : World) u :
  Inv log w → leaves e w = true → LbRegistry.step e w = Some (u, w') → Inv log w' ∧ grows eq (good log) w w'.
Proof.
  intros Hw Hl H. assert (grows eq (entry log w) w w') as Hg by (eapply (grows_others eq); [by apply Inv_clean|done|exact H]).
  split; [|eapply (grows_weaken eq); [|exact Hg]; by intros i h [Hh _]].
  apply (Inv_grows eq log log w w'); [done|done|by eapply step_inv, H; apply Hw|by intros h ? <-|done|done].
Qed.

(** What a crash leaves. *)
Record Inv_down (log : list Entry) (dk : Disk Bytes) : Prop := {
  id_good : disk_good dk;
  id_files : files_good log dk;
  id_same : ∀ f b s st, visible dk !! f = Some b → decode b = Some (s, st) → rollouts st = [] ∨ durable dk !! f = Some b;
  id_created : ∀ n, n ∈ created log → ∃ i, i ≠ "" ∧ kept i (attempt_on n) dk;
  id_once : NoDup (created log);
}.

Lemma Inv_crash log keep (w : World) :
  disk_good (disk w) → files_good log (disk w) → NoDup (created log) →
  (∀ n, n ∈ created log → ∃ i, i ≠ "" ∧ kept i (attempt_on n) (disk w)) → Inv_down log (disk (crash keep w)).
Proof.
  intros H1 H2 H4 H3. split; [by apply good_crash| | | |done].
  - intros f b s st Hf. apply (H2 f). destruct (crash_lookup keep w f) as [E1 E2]. rewrite E2, E1 in Hf.
    destruct (bool_decide _); tauto.
  - intros f b s st Hf _. right. by rewrite (proj2 (crash_lookup keep w f)).
  - intros n Hn. destruct (H3 n Hn) as (i & Hi & Hk). exists i. split; [done|by apply kept_crash].
Qed.

Lemma Inv_up_crash log keep (w : World) : Inv log w → Inv_down log (disk (crash keep w)).
Proof.
  intros [H1 H2 H3 Hv H4 H5 H6]. apply Inv_crash; [apply H1|done|done|]. intros n Hn.
  destruct (H5 n Hn) as (i & Hi & _ & Hk). by exists i.
Qed.

(** ** Start-up *)

Lemma clean_grows R `{!Growth R} G (w w' : World) : clean G w → grows R G w w' → inv w' → clean G w'.
Proof.
  intros Hw Hg Hi. split; [done|by apply (g_staged _ _ _ _ Hg), Hw|]. intros l d Hd.
  destruct (g_new _ _ _ _ Hg _ _ Hd) as [(x & Hx & <- & <-)|]; [|done]. by eapply cl_deps.
Qed.

(** A live deployment that takes the state of a file. *)
Lemma clean_restates G i l d d' (w w' : World) :
  clean G w → get i w = Some l → restates l d d' w w' → handoff_ok (spec_of d') (state_of d') →
  rollouts (state_of d') = [] ∨ G (id (spec_of d')) (rollouts (state_of d')) → clean G w'.
Proof.
  intros Hw Hl Hre Hh HG. split; [by eapply inv_restates; [apply Hw|exact Hre|]| |]; destruct Hre as (Hq & Hd & Hd' & Hs & _).
  - intros j k Hj. rewrite (q_staged _ _ _ Hq) in Hj. destruct (cl_staged _ _ Hw _ _ Hj) as [H1 H2].
    unfold get. rewrite (q_deployments _ _ _ Hq). split; [done|]. intros x Hx. rewrite (q_deps _ _ _ Hq) in Hx; [by apply H2|].
    intros ->. by apply (H1 i).
  - intros k x Hx. destruct (decide (k = l)) as [->|Hk]; [rewrite Hd' in Hx; by injection Hx as <-|].
    rewrite (q_deps _ _ _ Hq) in Hx by done. by eapply cl_deps.
Qed.

Lemma clean_sys G (w w' : World) r : clean G w → sys w = Some (r, w') → clean G w'.
Proof.
  intros Hw H. eapply (clean_grows eq); [exact Hw|by eapply (grows_sys eq)|]. apply sys_Some in H.
  eapply keeps_disk; [apply Hw|exact H|done].
Qed.

Lemma restage_grows G d (w w' : World) u :
  clean G w → handoff_ok (spec_of d) (state_of d) → restage d w = Some (u, w') → grows eq G w w'.
Proof.
  intros Hw Hh H. unfold restage in H. destruct (route_handoff (state_of d)) as [rec|]; [|by apply ret_Some in H as [_ ->]].
  destruct (bool_decide _); [by apply ret_Some in H as [_ ->]|].
  apply bind_Some in H as (n & w4 & Hnew & H). apply new_deployment_calm in Hnew as (Hcalm & Hsp & [rev Hin] & Hrd).
  apply bind_Some in H as (sl & w5 & Halloc & H).
  apply (alloc_creates _ _ _ w) in Halloc as Hcr; [|done|by unfold router_ok; rewrite Hsp].
  apply modify_Some in H as ->. pose proof (inv_ok _ (cl_inv _ _ Hw)) as Hok.
  etrans; [eapply (grows_creates eq); [done|exact Hcr|left; by rewrite Hin]|].
  eapply (grows_stage eq); [apply Hcr|by rewrite Hin|by eapply fresh_apart].
Qed.

Lemma clean_load_file G b (w w' : World) skip :
  clean G w → (∀ s st, b ≫= decode = Some (s, st) → handoff_ok s st ∧ (rollouts st = [] ∨ G (id s) (rollouts st))) →
  load_file b w = Some (skip, w') → clean G w'.
Proof.
  intros Hw Hb H. unfold load_file in H. destruct (b ≫= decode) as [[s st]|]; [|by apply ret_Some in H as [_ ->]].
  destruct (Hb _ _ eq_refl) as [Hh HG]. cbv zeta in H. destruct (LbRegistry.validate (LbRegistry.normalize s)); cbn [negb] in H;
    [|by apply ret_Some in H as [_ ->]].
  apply bind_Some in H as (w0 & w0' & Hg & H). apply gets_Some in Hg as [-> ->]. rewrite normalize_id in H.
  destruct (retirement_frozen (id s) w) eqn:Ef; [by apply ret_Some in H as [_ ->]|].
  apply bind_Some in H as (l & w1 & Hu & H). pose proof (cl_inv _ _ Hw) as Hi.
  assert (clean G w1) as Hw1 by (eapply (clean_grows eq); [exact Hw|by eapply (grows_upsert eq)|by eapply upsert_inv]).
  apply upsert_spec in Hu as [(Hf & _)|(_ & w2 & d & Hc & Hin & Hsp & _)]; [rewrite normalize_id in Hf; congruence| |apply Hi].
  rewrite !normalize_id in *. apply install_Some in Hin as (Hi1 & Hi2 & _).
  apply bind_Some in H as ([] & w3 & Hset & H). apply set_state_restates in Hset as (x & d2 & Hre & Hst & _).
  assert (x = d) as ->.
  { destruct Hre as (_ & Hx & _). rewrite Hi1, (c_dep _ _ _ _ Hc) in Hx. by injection Hx as <-. }
  assert (id (spec_of d2) = id s) as Hid by (destruct Hre as (_ & _ & _ & -> & _); by rewrite Hsp, scoped_spec_id).
  assert (handoff_ok (spec_of d2) (state_of d2)) as Hh2 by (rewrite Hst; by eapply handoff_ok_same).
  assert (clean G w3) as Hw3.
  { eapply (clean_restates G (id s) l d d2); [exact Hw1|unfold get; rewrite Hi2; apply lookup_insert_eq|exact Hre|done|].
    by rewrite Hst, Hid. }
  destruct Hre as (_ & _ & Hd2 & _).
  apply bind_Some in H as (d' & w3' & Hd' & H). apply deref_Some in Hd' as [Hd' ->]. assert (d' = d2) as -> by congruence.
  apply bind_Some in H as ([] & w4 & Hrs & H). apply ret_Some in H as [_ ->].
  eapply (clean_grows eq); [exact Hw3|by eapply restage_grows|]. by eapply restage_spec; [apply Hw3|..].
Qed.

Lemma clean_load_loop G names n b (w w' : World) r :
  clean G w → (∀ f c s st, visible (disk w) !! f = Some c → decode c = Some (s, st) → rollouts st = [] ∨ G (id s) (rollouts st)) →
  load_loop names n b w = Some (r, w') → clean G w'.
Proof.
  revert n b w. induction names as [|name names IH]; intros n b w Hw Hk H; cbn [load_loop] in H; [by apply ret_Some in H as [_ ->]|].
  assert (∀ u v y, clean G u → sys u = Some (y, v) → clean G v ∧ disk v = disk u) as Hsys.
  { intros u v y Hu Hy. split; [by eapply clean_sys|]. apply sys_Some in Hy. apply (on_file_deps _ _ _ Hy). }
  apply try_Some in H as (x & w1 & Hs & H). destruct (Hsys w w1 x Hw Hs) as [Hw1 Hd1].
  destruct x as [[]|e]; [|by destruct H as [_ ->]].
  destruct (bool_decide (extension name = Some "json")); [|eapply (IH n b w1); [done|by rewrite Hd1|done]].
  apply bind_Some in H as (x & w2 & Hs2 & H). destruct (Hsys w1 w2 x Hw1 Hs2) as [Hw2 Hd2].
  apply bind_Some in H as (w3 & w3' & Hg & H). apply gets_Some in Hg as [-> ->].
  apply bind_Some in H as (skip & w4 & Hl & H).
  assert (∀ s st, (match x with Ok _ => visible (disk w2) !! name | Err _ => None end) ≫= decode = Some (s, st) →
            handoff_ok s st ∧ (rollouts st = [] ∨ G (id s) (rollouts st))) as Hb.
  { intros s st Hb. destruct x; [|done]. destruct (visible _ !! _) as [bytes|] eqn:Ev; [|done]. split.
    - by apply (inv_disk _ (cl_inv _ _ Hw2) _ _ _ _ (or_introl Ev) Hb).
    - rewrite Hd2, Hd1 in Ev. by eapply Hk. }
  pose proof (clean_load_file _ _ _ _ _ Hw2 Hb Hl) as Hw4.
  destruct (load_file_Some _ _ _ _ (cl_inv _ _ Hw2) (λ s st E, proj1 (Hb s st E)) Hl) as (_ & Hd4 & _).
  eapply (IH _ _ w4); [done|by rewrite Hd4, Hd2, Hd1|done].
Qed.

(** An import adds no history. *)
Lemma imports_history (w w' : World) f b s st :
  imports w w' → visible (disk w') !! f = Some b → decode b = Some (s, st) → rollouts st = [] ∨ visible (disk w) !! f = Some b.
Proof.
  intros (_ & _ & _ & _ & Hv) Hf Hdec. destruct (Hv _ _ Hf) as [Hold|[->|[s' ->]]]; [by right|by rewrite decode_empty in Hdec|].
  rewrite decode_encode in Hdec. injection Hdec as <- <-. by left.
Qed.

Lemma on_file_same (w : World) : on_file (λ x, x) w w.
Proof. exists (faults w). by destruct w. Qed.
Ltac chain := first [eassumption | eapply on_file_trans; [eassumption|chain]].
Lemma import_on_file specs (w w' : World) r : import_specs specs w = Some (r, w') → ∃ k, on_file k w w'.
Proof.
  revert w. induction specs as [|s specs IH]; intros w H; cbn [import_specs] in H.
  { apply ret_Some in H as [_ ->]. eexists. apply on_file_same. }
  apply bind_Some in H as (w1 & w1' & Hg & H). apply gets_Some in Hg as [-> ->]. destruct (is_some _); [by apply (IH w)|].
  apply sys_then in H as [(e & _ & Hf)|(w1 & Hf & H)]; [eexists; chain|].
  apply bind_Some in H as ([] & w2 & Hl & H). apply on_file_disk in Hl.
  apply sys_then in H as [(e & _ & Hf')|(w3 & Hf' & H)]; [eexists; chain|].
  apply bind_Some in H as ([] & w4 & Hl' & H). apply on_file_disk in Hl'. apply IH in H as [k Hk]. eexists; chain.
Qed.
Lemma migrate_staged (w w' : World) r : migrate_legacy_file w = Some (r, w') → staged w' = staged w.
Proof.
  intros H. assert (∃ k, on_file k w w') as [k Hk]; [|apply (on_file_deps _ _ _ Hk)].
  unfold migrate_legacy_file in H. apply bind_Some in H as (w1 & w1' & Hg & H). apply gets_Some in Hg as [-> ->].
  destruct (legacy (disk w)) as [bytes|]; [|apply ret_Some in H as [_ ->]; eexists; apply on_file_same].
  apply sys_then in H as [(e & _ & Hf)|(w1 & Hf & H)]; [eexists; chain|].
  destruct (decode_legacy bytes) as [specs|]; [|apply ret_Some in H as [_ ->]; eexists; chain].
  apply sys_then in H as [(e & _ & Hf')|(w2 & Hf' & H)]; [eexists; chain|].
  apply try_Some in H as (x & w3 & Hi & H). apply import_on_file in Hi as [k Hi].
  destruct x as [[]|e]; [|destruct H as [_ ->]; eexists; chain].
  apply sys_then in H as [(e & _ & Hf'')|(w4 & Hf'' & H)]; [eexists; chain|].
  apply bind_Some in H as ([] & w5 & Hl & H). apply on_file_disk in Hl. apply ret_Some in H as [_ ->]. eexists; chain.
Qed.

(** A load takes what is in the files, and adds no history to them. *)
Definition adds_none (w w' : World) : Prop :=
  durable (disk w') = durable (disk w) ∧
  ∀ f b s st, visible (disk w') !! f = Some b → decode b = Some (s, st) → rollouts st = [] ∨ visible (disk w) !! f = Some b.

Lemma clean_load G (w w' : World) r :
  inv w → deps w = ∅ → staged w = ∅ →
  (∀ f c s st, visible (disk w) !! f = Some c → decode c = Some (s, st) → rollouts st = [] ∨ G (id s) (rollouts st)) →
  load w = Some (r, w') → clean G w' ∧ adds_none w w'.
Proof.
  intros Hi Hd Hsg Hk H. unfold load in H. apply try_Some in H as (x & w1 & Hm & H).
  assert (inv w1) as Hi1 by (by eapply migrate_inv). pose proof (migrate_staged _ _ _ Hm) as Hsg1.
  apply migrate_imports in Hm as [Him _].
  assert (adds_none w w1) as Hn by (split; [apply Him|intros f b s st; by apply imports_history]).
  assert (∀ f c s st, visible (disk w1) !! f = Some c → decode c = Some (s, st) → rollouts st = [] ∨ G (id s) (rollouts st)) as Hk1.
  { intros f c s st Hf Hdec. destruct (proj2 Hn f c s st Hf Hdec) as [?|Hold]; [by left|by eapply Hk]. }
  assert (clean G w1) as Hw1.
  { split; [done|intros j l Hj; by rewrite Hsg1, Hsg, lookup_empty in Hj|].
    intros l d Hx. by rewrite (proj1 Him), Hd, lookup_empty in Hx. }
  destruct x as [[]|e]; [|by destruct H as [_ ->]].
  apply try_Some in H as (x & w2 & Hs & H). pose proof (clean_sys _ _ _ _ Hw1 Hs) as Hw2.
  apply sys_Some in Hs. assert (disk w2 = disk w1) as Hd2 by apply (on_file_deps _ _ _ Hs).
  assert (adds_none w w2) as Hn2 by (unfold adds_none; by rewrite Hd2). rewrite <- Hd2 in Hk1.
  destruct x as [[]|e]; [|by destruct H as [_ ->]].
  apply bind_Some in H as (w3 & w3' & Hg & H). apply gets_Some in Hg as [-> ->].
  apply try_Some in H as (y & w3 & Hl & H). pose proof (clean_load_loop _ _ _ _ _ _ _ Hw2 Hk1 Hl) as Hw3.
  destruct (load_loop_inv _ _ _ _ _ _ (cl_inv _ _ Hw2) Hl) as [_ Hd3].
  assert (adds_none w w3) as Hn3 by (unfold adds_none; by rewrite Hd3).
  destruct y as [[m sk]|e]; [|by destruct H as [_ ->]].
  apply bind_Some in H as ([] & w4 & Hm' & H). apply modify_Some in Hm' as ->. apply ret_Some in H as [_ ->].
  split; [|done]. eapply (clean_grows eq); [exact Hw3|by apply (grows_same eq)|]. by destruct Hw3 as [[[] ? ?] _ _].
Qed.

Lemma clean_start_up G (w w' : World) r :
  disk_good (disk w) →
  (∀ f c s st, visible (disk w) !! f = Some c → decode c = Some (s, st) → rollouts st = [] ∨ G (id s) (rollouts st)) →
  start_up w = Some (r, w') → clean G w' ∧ adds_none w w'.
Proof.
  intros Hg Hk H. destruct (start_up_Some _ _ _ Hg H) as (Hi & _).
  unfold start_up in H. apply bind_Some in H as ([] & w0 & Hm & H). apply modify_Some in Hm as ->.
  apply try_Some in H as (x & w1 & Hl & H). apply (clean_load G) in Hl as [Hw1 Hn]; [|by apply new_registry_inv|done..].
  destruct x as [n|e]; [|by destruct H as [_ ->]].
  apply bind_Some in H as (w4 & w4' & Hg' & H). apply gets_Some in Hg' as [-> ->].
  destruct (require_complete_load w1); [|by apply ret_Some in H as [_ ->]].
  apply bind_Some in H as (s & w5 & Hs & H). apply ret_Some in H as [_ ->].
  apply sweep_Some in Hs as (v & [fs ->] & Hv). split; [split; [done|apply Hw1|apply Hw1]|].
  split; [apply Hn|]. intros f b s' st Hf Hdec. cbn in Hf.
  destruct (Hv f) as [E|[E _]]; [|congruence]. apply (proj2 Hn f b s' st); [rewrite <- E; exact Hf|done].
Qed.

(** The history is in the file of its id, and synced. *)
Definition filed (dk : Disk Bytes) (i : string) (h : list Operation) : Prop :=
  ∃ b s st, visible dk !! state_file_name i = Some b ∧ durable dk !! state_file_name i = Some b ∧
    decode b = Some (s, st) ∧ id s = i ∧ rollouts st = h.

Lemma Inv_start log (w w' : World) r :
  Inv_down log (disk w) → start_up w = Some (r, w') → if is_ok r then Inv log w' else Inv_down log (disk w').
Proof.
  intros [H1 H2 Hsame H3 H4] H. destruct (start_up_Some _ _ _ H1 H) as (Hi & _).
  assert (∀ n, n ∈ created log → ∃ i, i ≠ "" ∧ kept i (attempt_on n) (disk w') ∧ (is_ok r = true → fixed i (attempt_on n) w')) as Hc.
  { intros n Hn. destruct (H3 n Hn) as (i & Hne & Hk). exists i. split; [done|]. by eapply kept_start_up. }
  destruct (clean_start_up (λ i h, good log i h ∧ filed (disk w) i h) w w' r H1) as [Hcl [Hdur Hadd]]; [|exact H|].
  { intros f b s st Hf Hdec. destruct (H1 _ _ _ _ (or_introl Hf) Hdec) as [-> _].
    destruct (Hsame _ _ _ _ Hf Hdec) as [?|Hd]; [by left|right]. split; [by eapply H2; [left|]|].
    by exists b, s, st. }
  assert (files_good log (disk w')) as Hf.
  { intros f b s st [Hf|Hf] Hdec; [|rewrite Hdur in Hf; by eapply H2; [right|]].
    destruct (Hadd _ _ _ _ Hf Hdec) as [->|Hold]; [apply good_nil|by eapply H2; [left|]]. }
  destruct r as [[]|e]; cbn [is_ok] in *.
  - split; [done|apply Hcl| | |done| |done].
    + intros l d Hd. destruct (cl_deps _ _ Hcl _ _ Hd) as [->|[Hg _]]; [apply good_nil|done].
    + intros l d Hd k o Hk Hr. destruct (cl_deps _ _ Hcl _ _ Hd) as [E|[Hg (b & s & st & Hb & Hb' & Hdec & Hid & Hst)]].
      { by rewrite E in Hk. }
      assert (id (spec_of d) ≠ "") as Hne by (eapply go_id, gd_ops; [exact Hg|by eapply list_elem_of_lookup_2]).
      eapply kept_start_up; [exact Hne|exact H1| |exact H|done]. rewrite <- Hst in Hk.
      split; exists b, s, st; (split_and!; [done|done|done|by exists o]).
    + intros n Hn. destruct (Hc n Hn) as (i & Hne & _ & Hfx). exists i. auto.
  - split; [apply Hi|done| | |done].
    + intros f b s st Hv Hdec. rewrite Hdur. destruct (Hadd _ _ _ _ Hv Hdec) as [?|Hold]; [by left|by eapply Hsame].
    + intros n Hn. destruct (Hc n Hn) as (i & Hne & Hk & _). by exists i.
Qed.
End rollouts.
