(* ===== verification/LbRolloutSafety.v ===== *)
(** * What the rollout worker cannot do

    The worker's programs, run between anything the rest of the controller does ([rely]), keep
    the invariant of [LbRolloutRuns] and make no call before what justifies it is on disk
    ([secure]); so over any run, with crashes and failed writes anywhere, no create is repeated, no
    source is stopped before a verified generation is durable, and nothing is reclaimed but
    failed candidates that nothing refers to. *)
From Stdlib Require Import Ascii String ZArith Lia Bool.
From stdpp Require Import base option list strings gmap fin_maps sets.
From S2P Require Import Prelude LbRoutes LbRegional LbPool LbRegistry LbRetire LbSpec LbGate LbConfig LbRollout LbRolloutRuns.
Open Scope string_scope.
Open Scope list_scope.

Lemma on_last_lookup {A} (f : A → A) l k : on_last f l !! k = l !! k ∨ on_last f l !! k = f <$> l !! k.
Proof.
  revert k. induction l as [|x l IH]; intros k; [by left|]. destruct l as [|y l].
  - destruct k; [by right|by left].
  - change (on_last f (x :: y :: l)) with (x :: on_last f (y :: l)). destruct k; [by left|apply IH].
Qed.

Lemma on_last_snoc {A} (f : A → A) l x : on_last f (l ++ [x]) = l ++ [f x].
Proof. induction l as [|y l IH]; [done|]. cbn. rewrite IH. by destruct l. Qed.

Section safety.
Context {Json SandboxStatus J Bytes : Type} `{!EqDecision Json, !EqDecision J, !EqDecision Bytes}.
Context `{Ext : !Externals (Rest Json) SiteSpec J Bytes, Laws : !ExternalsLaws}.
Context (sha256_text : string → string) (show_io : IoError → string) (undecided : SandboxStatus → bool).
Context (sha256_length : ∀ t, String.length (sha256_text t) = 64%nat).

Local Abbreviation DeploymentSpec := (LbRegistry.DeploymentSpec (Rest Json) SiteSpec).
Local Abbreviation Operation := (RolloutOperation (Rest Json) SiteSpec).
Local Abbreviation World := (LbRegistry.World (Rest Json) SiteSpec SandboxStatus J Bytes).
Local Abbreviation Dep := (LbRegistry.Dep (Rest Json) SiteSpec SandboxStatus J).
Local Abbreviation State := (DeploymentState (RetirementOperation (Rest Json) SiteSpec J) CreateAttempt Operation
                               (RouteHandoffRecord (Rest Json) SiteSpec)).
Local Abbreviation Op := (LbRegistry.Op (Rest := Rest Json) (Site := SiteSpec) (SandboxStatus := SandboxStatus) (Json := J) (Bytes := Bytes)).
Local Abbreviation base := LbRegistry.base.
Local Abbreviation calm := (quiet (λ _ : nat, False)).
Local Abbreviation Entry := (LbRollout.Entry (Json := Json) (SandboxStatus := SandboxStatus)).
Local Abbreviation Prog := (LbRollout.Prog (Json := Json) (SandboxStatus := SandboxStatus) (J := J) (Bytes := Bytes)).
Local Abbreviation good_op := (LbRolloutRuns.good_op sha256_text).
Local Abbreviation good := (LbRolloutRuns.good sha256_text).
Local Abbreviation Inv := (LbRolloutRuns.Inv sha256_text).
Local Abbreviation save := (LbRollout.save show_io).
Local Abbreviation record := (LbRollout.record show_io).
Local Abbreviation save_operation := (LbRollout.save_operation show_io).
Local Abbreviation uncertain := (LbRollout.uncertain show_io).
Local Abbreviation mark_uncertain := (LbRollout.mark_uncertain show_io).
Implicit Types (log : list Entry).

(** ** A write whose outcome is unknown *)

(** All that a settlement or a status leaves alone. *)
Record alike (o o' : Operation) : Prop := {
  al_id : ro_operation_id o' = ro_operation_id o;
  al_deployment : deployment o' = deployment o;
  al_source : source_revision o' = source_revision o;
  al_prefix : prefix o' = prefix o;
  al_previous : previous o' = previous o;
  al_allocations : allocations o' = allocations o;
  al_prepared : ro_prepared o' = ro_prepared o;
  al_spec : ro_spec o' = ro_spec o;
  al_ready : readiness_verified o' = readiness_verified o;
}.
#[local] Instance alike_order : PreOrder alike.
Proof. split; [by split|]. intros a b c [] []. split; congruence. Qed.

Lemma alike_later o o' : alike o o' → later o o'.
Proof. intros []. split; [done|done| |congruence]. intros j a Ha. exists a. by rewrite al_allocations0. Qed.

Lemma alike_good log i o o' :
  alike o o' → good_op log i o →
  (ro_phase o' = "draining" → readiness_verified o' = true) →
  (∀ s, s ∈ reclaimed_candidate_ids o' → deleted log s) →
  (failure_settled o' = true → status o' = FAILED ∧
     ∀ a, a ∈ allocations o' → attempted a = true → ∃ s, al_sandbox_id a = Some s ∧ s ∈ reclaimed_candidate_ids o') →
  good_op log i o'.
Proof.
  intros [] [] Hph H11 H12. split; rewrite ?al_id0, ?al_deployment0, ?al_prepared0, ?al_spec0, ?al_ready0; try done.
  - unfold admission_text in *. by rewrite al_id0, al_source0.
  - congruence.
  - rewrite al_allocations0, al_prefix0. done.
  - by rewrite al_allocations0.
  - by rewrite <- al_ready0.
  - by rewrite al_allocations0.
Qed.

Lemma mark_alike e o : alike o (mark_uncertain e o).
Proof. by split. Qed.
Lemma keep_alike before o : alike o (keep_settlement before o).
Proof. unfold keep_settlement. destruct (List.find _ _); [|done]. by destruct (status_is FAILED o). Qed.

Lemma mark_good log i e o : good_op log i o → good_op log i (mark_uncertain e o).
Proof.
  intros Ho. eapply alike_good; [apply mark_alike|done|apply Ho|apply Ho|]. intros Hs. destruct (go_settled _ _ _ _ Ho Hs) as [Hf Ha].
  split; [|done]. unfold LbRollout.mark_uncertain, status_is. rewrite Hf. done.
Qed.

Lemma find_id (h : list Operation) i o :
  List.find (λ old, String.eqb (ro_operation_id old) i) h = Some o → o ∈ h ∧ ro_operation_id o = i.
Proof. intros [Hin Hi]%find_some. split; [by apply list_elem_of_In|by apply String.eqb_eq]. Qed.

Lemma keep_good log i before o :
  good log i before → good_op log i o →
  (∀ old, old ∈ before → ro_operation_id old = ro_operation_id o → failure_settled old = true → allocations o = allocations old) →
  good_op log i (keep_settlement before o).
Proof.
  intros Hb Ho Hset. eapply alike_good; [apply keep_alike|done|..].
  { unfold keep_settlement. destruct (List.find _ _); [|apply Ho]. destruct (status_is FAILED o); apply Ho. }
  all: unfold keep_settlement; destruct (List.find _ before) as [old|] eqn:Ef; [|apply Ho].
  all: apply find_id in Ef as [Hin Hid]; pose proof (gd_ops _ _ _ _ Hb _ Hin) as Hold.
  all: destruct (status_is FAILED o) eqn:Es; [cbn|apply Ho].
  - apply Hold.
  - intros Hs. split; [by apply String.eqb_eq in Es|]. rewrite (Hset old Hin Hid Hs). by apply (go_settled _ _ _ _ Hold).
Qed.

Lemma uncertain_lookup e (before after : State) k :
  ∃ f, (∀ o, f o = o ∨ f o = mark_uncertain e o) ∧
    rollouts (uncertain e before after) !! k = (keep_settlement (rollouts before) ∘ f) <$> rollouts after !! k.
Proof.
  unfold LbRollout.uncertain. cbn [with_rollouts rollouts]. rewrite list_lookup_fmap.
  destruct (on_last_lookup (mark_uncertain e) (rollouts after) k) as [-> | ->].
  - exists (λ o, o). split; [by left|]. by destruct (rollouts after !! k).
  - exists (mark_uncertain e). split; [by right|]. by destruct (rollouts after !! k).
Qed.

Lemma alike_ids (h h' : list Operation) :
  (∀ k, ∃ f, (∀ o, alike o (f o)) ∧ h' !! k = f <$> h !! k) → ro_operation_id <$> h' = ro_operation_id <$> h.
Proof.
  intros Hk. apply list_eq. intros k. rewrite !list_lookup_fmap. destruct (Hk k) as (f & Hf & ->).
  destruct (h !! k); [|done]. cbn. f_equal. apply Hf.
Qed.

Lemma uncertain_good log i e (before after : State) :
  good log i (rollouts before) → good log i (rollouts after) →
  (∀ old o, old ∈ rollouts before → o ∈ rollouts after → ro_operation_id old = ro_operation_id o →
     failure_settled old = true → allocations o = allocations old) →
  good log i (rollouts (uncertain e before after)) ∧ continues (rollouts after) (rollouts (uncertain e before after)).
Proof.
  intros Hb Ha Hset.
  assert (∀ f o, (∀ o, f o = o ∨ f o = mark_uncertain e o) → alike o (keep_settlement (rollouts before) (f o))) as Hal.
  { intros f o Hf. etrans; [|apply keep_alike]. destruct (Hf o) as [-> | ->]; [done|apply mark_alike]. }
  split; [split|].
  - intros x [k Hk]%list_elem_of_lookup. destruct (uncertain_lookup e before after k) as (f & Hf & E). rewrite E in Hk.
    destruct (rollouts after !! k) as [o|] eqn:Eo; [|done]. cbn in Hk. injection Hk as <-.
    assert (o ∈ rollouts after) as Hin by (by eapply list_elem_of_lookup_2). pose proof (gd_ops _ _ _ _ Ha _ Hin) as Ho.
    apply keep_good; [done| |].
    + destruct (Hf o) as [-> | ->]; [done|by apply mark_good].
    + intros old Hold Hid Hs. destruct (Hf o) as [E' | E']; rewrite E' in Hid |- *; exact (Hset old o Hold Hin Hid Hs).
  - rewrite (alike_ids (rollouts after)); [apply Ha|]. intros k. destruct (uncertain_lookup e before after k) as (f & Hf & E).
    exists (keep_settlement (rollouts before) ∘ f). split; [by intros o; apply Hal|done].
  - intros k o Ho. destruct (uncertain_lookup e before after k) as (f & Hf & E). rewrite Ho in E.
    eexists. split; [exact E|]. by apply alike_later, Hal.
Qed.

(** ** Writing *)

Lemma vouched_alike i (h h' : list Operation) (w : World) :
  vouched i h w →
  (∀ k o', h' !! k = Some o' → readiness_verified o' = true →
     ∃ o, h !! k = Some o ∧ readiness_verified o = true ∧ previous o = previous o') → vouched i h' w.
Proof.
  intros Hv Hh k o' Hk Hr. destruct (Hh k o' Hk Hr) as (o & Ho & Hor & Hp). eapply fixed_mono; [|by apply Hv].
  intros x (y & Hy & Hyr & Hyp). exists y. split_and!; [done|done|congruence].
Qed.

Lemma save_Some l (s : State) (w w' : World) r d :
  deps w !! l = Some d → save l s w = Some (r, w') →
  ∃ f w1 d', on_file f w w1 ∧ restates l d d' w1 w' ∧
    match r with
    | Ok _ => f = (λ x, sync_dir (record_file d s x)) ∧ state_of d' = s
    | Err e => (f = (λ x, x) ∨ f = record_file d s) ∧ state_of d' = uncertain e (state_of d) s
    end.
Proof.
  intros Hd H. unfold LbRollout.save in H. apply bind_Some in H as (x & w0 & Hx & H). apply deref_Some in Hx as [Hx ->].
  assert (x = d) as -> by congruence. apply bind_Some in H as (y & w1 & Hp & H).
  apply persist_snapshot_Some in Hp as (f & Hf & Hk).
  assert (deps w1 !! l = Some d) as Hd1 by by rewrite (proj1 (on_file_deps _ _ _ Hf)).
  destruct y as [[]|e].
  - apply bind_Some in H as ([] & w2 & Hset & H). apply ret_Some in H as [-> ->].
    apply set_state_restates in Hset as (x & d' & Hre & Hst & _).
    assert (x = d) as -> by (destruct Hre as (_ & Hx' & _); congruence). by exists f, w1, d'.
  - apply bind_Some in H as (x & w2 & Hx' & H). apply deref_Some in Hx' as [Hx' ->]. assert (x = d) as -> by congruence.
    apply bind_Some in H as ([] & w2 & Hset & H). apply ret_Some in H as [-> ->].
    apply set_state_restates in Hset as (x & d' & Hre & Hst & _).
    assert (x = d) as -> by (destruct Hre as (_ & Hx'' & _); congruence). by exists f, w1, d'.
Qed.

Lemma uncertain_vouched i e (before after : State) (w : World) :
  vouched i (rollouts after) w → vouched i (rollouts (uncertain e before after)) w.
Proof.
  intros Hv. apply (vouched_alike _ _ _ _ Hv). intros k o' Hk Hr.
  destruct (uncertain_lookup e before after k) as (f & Hf & E). rewrite E in Hk.
  destruct (rollouts after !! k) as [o|] eqn:Eo; [|done]. cbn in Hk. injection Hk as <-. exists o. split; [done|].
  assert (alike o (keep_settlement (rollouts before) (f o))) as Hal.
  { etrans; [|apply keep_alike]. destruct (Hf o) as [-> | ->]; [done|apply mark_alike]. }
  destruct Hal. split; congruence.
Qed.

(** [l] is the deployment the registry has for [i], with the state [st]. *)
Definition live_at (l : nat) (i : string) (st : State) (w : World) : Prop :=
  get i w = Some l ∧ ∃ d, deps w !! l = Some d ∧ id (spec_of d) = i ∧ state_of d = st.

Lemma live_history l i st (w : World) : live_at l i st w → history i w = rollouts st.
Proof. intros (Hl & d & Hd & _ & <-). unfold history, dep_at. rewrite Hl. cbn. by rewrite Hd. Qed.

Lemma live_fixed l i st (w : World) b s :
  live_at l i st w → visible (disk w) !! state_file_name i = Some b → durable (disk w) !! state_file_name i = Some b →
  decode b = Some (s, st) → id s = i → fixed i (λ h, h = rollouts st) w.
Proof.
  intros Hl Hv Hd Hdec Hid. split; [by apply live_history in Hl|].
  split; exists b, s, st; by split_and!.
Qed.

Lemma save_grows R `{!Growth R} log log' l i (st s : State) (w w' : World) r :
  Inv log w → live_at l i st w → save l s w = Some (r, w') →
  (∀ h h', R h h' → continues h h') → log ⊆ log' → created log' = created log →
  route_handoff s = route_handoff st → retirement s = retirement st →
  (∀ h, h = rollouts s ∨ (∃ e, h = rollouts (uncertain e st s)) → R (rollouts st) h ∧ entry sha256_text log' w i h) →
  Inv log' w' ∧ grows R (good log') w w' ∧
  match r with
  | Ok _ => live_at l i s w' ∧ fixed i (λ h, h = rollouts s) w'
  | Err e => live_at l i (uncertain e st s) w'
  end.
Proof.
  intros Hw (Hl & d & Hd & Hid & Hst) H HR Hlog Hc Hho Hret HG. destruct (save_Some _ _ _ _ _ _ Hd H) as (f & w1 & d' & Hf & Hre & Hr).
  destruct (HG _ (or_introl eq_refl)) as [HRs HGs].
  assert (record_ok R (entry sha256_text log' w) w d s) as Hrec.
  { split; [|right; by rewrite Hid]. rewrite Hid. unfold history, dep_at. rewrite Hl. cbn. by rewrite Hd, Hst. }
  assert (state_of d' = match r with Ok _ => s | Err e => uncertain e st s end) as Est
    by (rewrite <- Hst; destruct r; apply Hr).
  assert (R (rollouts st) (rollouts (state_of d')) ∧ entry sha256_text log' w i (rollouts (state_of d'))) as [HRd HGd].
  { apply HG. rewrite Est. destruct r as [|e]; [by left|right; by exists e]. }
  assert (grows R (entry sha256_text log' w) w w1) as Hg1.
  { eapply (grows_record R); [exact Hf|exact Hrec|]. destruct r; [right; right; apply Hr|]. destruct Hr as [[-> | ->] _]; auto. }
  pose proof Hre as (Hq & Hd1 & Hd' & Hsp & _).
  destruct (on_file_deps _ _ _ Hf) as (E1 & E2 & E3 & _).
  assert (grows R (entry sha256_text log' w) w1 w') as Hg2.
  { eapply (grows_restates R); [exact Hre|by rewrite Hst|rewrite Est, Hst, <- Hret; by destruct r|right]. rewrite Hsp, Hid. split; [done|].
    intros j Hj. rewrite E3 in Hj. apply (iv_staged _ _ _ Hw) in Hj as [Hj _]. by apply (Hj i). }
  assert (grows R (entry sha256_text log' w) w w') as Hg by (by etrans).
  assert (handoff_ok (spec_of d) s) as Hh.
  { eapply handoff_ok_same; [done|by rewrite Hho, <- Hst|]. by eapply inv_handoff; [apply Hw|]. }
  assert (inv w') as Hi.
  { assert (inv w1) as Hw1.
    { eapply (state_change_inv d s f); [apply Hw|exact Hh|exact Hf|]. destruct r; [right; right; apply Hr|]. destruct Hr as [[-> | ->] _]; auto. }
    eapply inv_restates; [exact Hw1|exact Hre|]. eapply handoff_ok_same; [by rewrite Hsp| |exact Hh]. rewrite Est. by destruct r. }
  assert (∀ st', state_of d' = st' → live_at l i st' w') as Hlive.
  { intros st' Hst'. split; [unfold get; by rewrite (q_deployments _ _ _ Hq), E2|]. exists d'. by rewrite Hsp. }
  split.
  { apply (Inv_grows sha256_text R log log' w w'); done. }
  split; [eapply (grows_weaken R); [|exact Hg]; by intros j h [? _]|]. destruct r as [[]|e'].
  - destruct Hr as [-> Hst']. split; [by apply Hlive|].
    destruct Hf as [fs ->]. eapply (live_fixed l i s w' (encode (spec_of d) s) (spec_of d)); [by apply Hlive| | |apply decode_encode|done];
      rewrite (q_disk _ _ _ Hq); cbn; rewrite Hid; apply lookup_insert_eq.
  - destruct Hr as [_ Hst']. apply Hlive. by rewrite Hst', Hst.
Qed.

(** ** Admission *)

Lemma same_id log i h o o' : good log i h → o ∈ h → o' ∈ h → ro_operation_id o = ro_operation_id o' → o = o'.
Proof.
  intros Hh [k Hk]%list_elem_of_lookup [j Hj]%list_elem_of_lookup E. assert (k = j) as ->; [|congruence].
  eapply (NoDup_lookup (ro_operation_id <$> h)); [apply Hh|by rewrite list_lookup_fmap, Hk|by rewrite list_lookup_fmap, Hj, E].
Qed.

Lemma keep_self log i h o : good log i h → o ∈ h → keep_settlement h o = o.
Proof.
  intros Hh Ho. unfold keep_settlement. destruct (List.find _ h) as [old|] eqn:Ef; [|done].
  apply find_id in Ef as [Hold Hid]. assert (old = o) as -> by (by eapply same_id).
  destruct (status_is FAILED o); [|done]. by destruct o.
Qed.

Lemma uncertain_snoc log i e (st : State) o :
  good log i (rollouts st) →
  rollouts (uncertain e st (with_rollouts (rollouts st ++ [o]) st)) =
  rollouts st ++ [keep_settlement (rollouts st) (mark_uncertain e o)].
Proof.
  intros Hh. unfold LbRollout.uncertain. cbn [with_rollouts rollouts]. rewrite on_last_snoc, fmap_app. cbn [fmap list_fmap]. f_equal.
  set (h := rollouts st) in *. assert (∀ l, l ⊆ h → keep_settlement h <$> l = l) as Hk; [|by apply Hk].
  intros l Hl. induction l as [|x l IH]; [done|]. cbn. rewrite (keep_self log i), IH; [done| |done|].
  - intros y Hy. apply Hl. by right.
  - apply Hl. by left.
Qed.

Lemma good_snoc log i h o :
  good log i h → good_op log i o → List.find (λ x, String.eqb (ro_operation_id x) (ro_operation_id o)) h = None → good log i (h ++ [o]).
Proof.
  intros Hh Ho Hn. split.
  - intros x [Hx| ->%list_elem_of_singleton]%elem_of_app; [by apply Hh|done].
  - rewrite fmap_app. apply NoDup_app. split; [apply Hh|]. split; [|apply NoDup_singleton].
    intros x (y & -> & Hy)%list_elem_of_fmap Hx%list_elem_of_singleton.
    apply list_elem_of_In in Hy. pose proof (find_none _ _ Hn _ Hy) as Hne. cbn in Hne. by rewrite Hx, String.eqb_refl in Hne.
Qed.

Lemma validate_ok (old next : DeploymentSpec) u : LbRollout.validate old next = Ok u → LbRegistry.validate next = true ∧ id next = id old.
Proof.
  unfold LbRollout.validate. destruct (LbRegistry.validate next); [|done]. cbn.
  destruct (String.eqb_spec (id old) (id next)) as [->|]; [done|done].
Qed.

(** The new operation, of a request whose numbers are [u32]s. *)
Lemma new_operation_good log i t prev q :
  i ≠ "" → Str.all operation_byte (rq_operation_id q) = true → typed q = true → id (rq_spec q) = i →
  Digested (rq_expected_revision q +:+ ":" +:+ rq_operation_id q) ∈ log →
  good_op log i (new_operation sha256_text t i prev q).
Proof.
  intros Hi Hb [Hmin%Z.leb_le Hwarm%Z.leb_le]%andb_true_iff Hid Hlog. split; try done; cbn [new_operation allocations prefix].
  - intros j a Ha. rewrite list_lookup_fmap in Ha. destruct (seq 0 _ !! j) as [x|] eqn:Ex; [|done].
    apply lookup_seq in Ex as [-> Hj]. cbn in Ha. injection Ha as <-. split; [|done].
    unfold U32.max, U32.modulus in *. change (16 ^ 8)%N with 4294967296%N. change (2 ^ 32)%Z with 4294967296%Z in *. lia.
  - intros a (k & -> & _)%list_elem_of_fmap. done.
  - by intros s ?%not_elem_of_nil.
Qed.

Context (valid_id : ∀ s : DeploymentSpec, LbRegistry.validate s = true → id s ≠ "").

Lemma start_rollout_Inv log i q ok busy (w w' : World) a :
  Inv log w → typed q = true → start_rollout sha256_text show_io i q ok busy w = Some (a, w') →
  let log' := log ++ [Digested (rq_expected_revision q +:+ ":" +:+ rq_operation_id q)] in
  Inv log' w' ∧ grows extends (good log') w w'.
Proof.
  intros Hw Ht H log'. assert (log ⊆ log') as Hlog by apply log_app.
  assert (created log' = created log) as Hc by (unfold log'; by rewrite created_app, app_nil_r).
  assert (w' = w → Inv log' w' ∧ grows extends (good log') w w') as Hsame.
  { intros ->. split; [by eapply Inv_log|done]. }
  unfold start_rollout in H. destruct (String.eqb_spec (id (rq_spec q)) i) as [Hq|]; [|apply ret_Some in H as [_ ->]; by apply Hsame].
  cbn [negb] in H. destruct ok; [|apply ret_Some in H as [_ ->]; by apply Hsame]. cbn [negb] in H.
  apply bind_Some in H as (o & w0 & Ho & H). apply gets_Some in Ho as [-> ->].
  destruct (get i w) as [l|] eqn:El; [|apply ret_Some in H as [_ ->]; by apply Hsame].
  destruct busy; [apply ret_Some in H as [_ ->]; by apply Hsame|].
  apply bind_Some in H as (x & w1 & Ha & H). apply ret_Some in H as [_ ->].
  unfold admit_op in Ha. apply bind_Some in Ha as (d & w0 & Hd & H). apply deref_Some in Hd as [Hd ->].
  apply bind_Some in H as (y & w0 & Hg & H). apply gets_Some in Hg as [-> ->]. cbv zeta in H.
  destruct (ok_dep _ (inv_ok _ (iv_inv _ _ _ Hw)) _ _ El) as (x' & Hx' & Hid). assert (x' = d) as -> by congruence.
  destruct (List.find _ (rollouts (state_of d))) eqn:Ef; [apply ret_Some in H as [_ ->]; by apply Hsame|].
  cbn [rq_operation_id rq_expected_revision rq_spec] in H, Ef.
  destruct (_ || _ || negb (Str.all operation_byte (rq_operation_id q))) eqn:Eb; [apply ret_Some in H as [_ ->]; by apply Hsame|].
  apply orb_false_iff in Eb as [_ Eb%negb_false_iff].
  destruct (reserved _ || _); [apply ret_Some in H as [_ ->]; by apply Hsame|].
  destruct (LbRollout.validate _ _) as [[]|e] eqn:Ev; [|apply ret_Some in H as [_ ->]; by apply Hsame].
  apply validate_ok in Ev as [Ev Eid].
  destruct (_ || _ || existsb _ _) in H; [apply ret_Some in H as [_ ->]; by apply Hsame|].
  apply bind_Some in H as (z & w2 & Hs & H). apply ret_Some in H as [_ ->].
  set (o := new_operation _ _ _ _ _) in Hs.
  assert (good_op log' i o) as Ho.
  { unfold o. rewrite Hid. apply new_operation_good; try done.
    - rewrite <- Hq. by apply valid_id in Ev.
    - cbn [rq_expected_revision rq_operation_id]. unfold log'. apply elem_of_app. right. by left. }
  assert (good log' i (rollouts (state_of d))) as Hh.
  { rewrite <- Hid. eapply good_mono; [done|]. by eapply iv_deps. }
  assert (vouched i (rollouts (state_of d) ++ [o]) w) as Hv.
  { eapply (vouched_alike i (rollouts (state_of d))); [rewrite <- Hid; by eapply iv_ready|]. intros k y Hk Hr.
    apply lookup_app_Some in Hk as [Hk|[_ Hk]]; [by exists y|]. apply list_lookup_singleton_Some in Hk as [_ <-]. done. }
  assert (good log' i (rollouts (state_of d) ++ [o])) as Hho by (by apply good_snoc).
  destruct (save_grows extends log log' l i (state_of d)
    (with_rollouts (rollouts (state_of d) ++ [o]) (state_of d)) w w2 z Hw) as (H1 & H2 & _); [|exact Hs|by apply extends_continues|done|done|done|done| |done].
  { split; [done|]. by exists d. }
  intros h [->|[e ->]].
  - split; [by exists [o]|done].
  - split; [rewrite (uncertain_snoc log' i) by done; by eexists|]. split; [|by apply uncertain_vouched].
    apply uncertain_good; [done|done|].
    cbn [with_rollouts rollouts]. intros old y Hold [Hy| ->%list_elem_of_singleton]%elem_of_app Hi Hset.
    + by rewrite (same_id log' i _ _ _ Hh Hold Hy Hi).
    + apply list_elem_of_In in Hold. pose proof (find_none _ _ Ef _ Hold) as Hne. cbn in Hne.
      by rewrite Hi, String.eqb_refl in Hne.
Qed.

(** ** The worker's writes *)

Lemma good_insert log i h k o0 o :
  good log i h → h !! k = Some o0 → ro_operation_id o = ro_operation_id o0 → good_op log i o → good log i (<[k := o]> h).
Proof.
  intros Hh Hk Hid Ho. split.
  - intros x [j Hj]%list_elem_of_lookup. destruct (decide (j = k)) as [->|Hjk].
    + rewrite list_lookup_insert_eq in Hj by (by eapply lookup_lt_Some). by injection Hj as <-.
    + rewrite list_lookup_insert_ne in Hj by done. eapply gd_ops; [exact Hh|]. by eapply list_elem_of_lookup_2.
  - rewrite list_fmap_insert, list_insert_id; [apply Hh|]. by rewrite list_lookup_fmap, Hk, Hid.
Qed.

(** An operation that is not settled is replaced by a later one. *)
Lemma save_operation_spec log l i st k o0 o (w w' : World) r :
  Inv log w → live_at l i st w → rollouts st !! k = Some o0 → later o0 o → (readiness_verified o = true → readiness_verified o0 = true) → failure_settled o0 = false → good_op log i o →
  save_operation l k o w = Some (r, w') →
  Inv log w' ∧
  (is_ok r = true → live_at l i (with_rollouts (<[k := o]> (rollouts st)) st) w' ∧ fixed i (λ h, h !! k = Some o) w').
Proof.
  intros Hw Hl Hk Hlat Hrd Hset Ho H. unfold LbRollout.save_operation in H.
  apply bind_Some in H as (d & w0 & Hd & H). apply deref_Some in Hd as [Hd ->].
  apply bind_Some in H as (x & w0 & Hx & H). apply expect_Some in Hx as [_ ->].
  assert (state_of d = st) as Est by (destruct Hl as (_ & d' & Hd' & _ & Hst); congruence). rewrite Est in H.
  assert (entry sha256_text log w i (rollouts st)) as [Hh Hv] by (rewrite <- (live_history _ _ _ _ Hl); by apply Inv_history).
  assert (good log i (<[k := o]> (rollouts st))) as Hh' by (eapply good_insert; [done|exact Hk|apply Hlat|done]).
  assert (vouched i (<[k := o]> (rollouts st)) w) as Hv'.
  { eapply vouched_alike; [exact Hv|]. intros j y Hj Hr. destruct (decide (j = k)) as [->|Hjk].
    - rewrite list_lookup_insert_eq in Hj by (by eapply lookup_lt_Some). injection Hj as <-.
      exists o0. split_and!; [done|by apply Hrd|by rewrite (lt_previous _ _ Hlat)].
    - rewrite list_lookup_insert_ne in Hj by done. by exists y. }
  pose proof (continues_insert _ _ _ _ Hk Hlat) as Hcon.
  destruct (save_grows continues log log l i st (with_rollouts (<[k := o]> (rollouts st)) st) w w' r Hw Hl H) as (Hw' & _ & Hr);
    [done|done|done|done|done| |].
  { intros h [-> |[e ->]]; [done|].
    destruct (uncertain_good log i e st (with_rollouts (<[k := o]> (rollouts st)) st)) as [Hg Hc]; [done|done| |split; [by etrans|split; [done|by apply uncertain_vouched]]].
    intros old y Hold Hy Hid Hs. cbn [with_rollouts rollouts] in Hy. apply list_elem_of_lookup in Hy as [j Hj].
    destruct (decide (j = k)) as [->|Hjk].
    - rewrite list_lookup_insert_eq in Hj by (by eapply lookup_lt_Some). injection Hj as <-.
      rewrite (same_id log i _ old o0 Hh Hold) in Hs; [by rewrite Hset in Hs|by eapply list_elem_of_lookup_2|].
      rewrite Hid. apply Hlat.
    - rewrite list_lookup_insert_ne in Hj by done. apply list_elem_of_lookup_2 in Hj.
      by rewrite (same_id log i _ _ _ Hh Hold Hj Hid). }
  split; [done|]. destruct r as [[]|]; [|done]. intros _. destruct Hr as [Hl' Hf]. split; [done|].
  eapply fixed_mono; [|exact Hf]. intros h ->. cbn. apply list_lookup_insert_eq. by eapply lookup_lt_Some.
Qed.

(** What the worker has read: operation [k] of the deployment at [l], which may be gone. *)
Definition read_at (l : nat) (i : string) (k : nat) (o : Operation) (w : World) : Prop :=
  ∃ d, deps w !! l = Some d ∧ id (spec_of d) = i ∧ rollouts (state_of d) !! k = Some o ∧ retirement (state_of d) = None.

Lemma live_read l i st k o (w : World) : live_at l i st w → rollouts st !! k = Some o → retirement st = None → read_at l i k o w.
Proof. intros (_ & d & Hd & Hi & <-) Hk Hr. by exists d. Qed.

Lemma is_live_spec l b (w w' : World) :
  is_live l w = Some (b, w') → w' = w ∧ ∃ d, deps w !! l = Some d ∧ (b = true → live_at l (id (spec_of d)) (state_of d) w).
Proof.
  intros H. unfold is_live in H. apply bind_Some in H as (d & w0 & Hd & H). apply deref_Some in Hd as [Hd ->].
  apply bind_Some in H as (o & w0 & Ho & H). apply gets_Some in Ho as [-> ->]. apply ret_Some in H as [-> ->].
  split; [done|]. exists d. split; [done|]. intros Hb%bool_decide_eq_true. split; [done|]. by exists d.
Qed.

Lemma record_spec log l i k o0 o (w w' : World) r :
  Inv log w → read_at l i k o0 w → later o0 o → (readiness_verified o = true → readiness_verified o0 = true) →
  failure_settled o0 = false → good_op log i o → record l k o w = Some (r, w') →
  Inv log w' ∧ (is_ok r = true → history i w !! k = Some o0 ∧ read_at l i k o w' ∧ fixed i (λ h, h !! k = Some o) w').
Proof.
  intros Hw (d & Hd & Hid & Hk & Hret) Hlat Hrd Hset Ho H. unfold LbRollout.record in H. apply bind_Some in H as (b & w0 & Hb & H).
  apply is_live_spec in Hb as (-> & d' & Hd' & Hl). assert (d' = d) as -> by congruence.
  destruct b; [|by apply ret_Some in H as [-> ->]]. specialize (Hl eq_refl). rewrite Hid in Hl.
  apply bind_Some in H as (x & w1 & Hs & H). apply ret_Some in H as [-> ->].
  destruct (save_operation_spec _ _ _ _ _ _ _ _ _ _ Hw Hl Hk Hlat Hrd Hset Ho Hs) as [Hw' Hr]. split; [done|].
  destruct x as [[]|]; [|done]. intros _. destruct (Hr eq_refl) as [Hl' Hf]. split; [by rewrite (live_history _ _ _ _ Hl)|split; [|done]].
  eapply live_read; [exact Hl'| |done]. apply list_lookup_insert_eq. by eapply lookup_lt_Some.
Qed.

(** ** What goes on meanwhile *)

(** Requests, probes and the clock. *)
Definition outside (w w1 : World) : Prop :=
  deps w1 = deps w ∧ deployments w1 = deployments w ∧ disk w1 = disk w ∧
  LbPool.sandbox_id <$> heap w1 = LbPool.sandbox_id <$> heap w.

(** From one step of the worker to the next: with the locks held, that only; and otherwise all
    that [leaves] allows, and admissions. *)
Definition rely (held : bool) (log : list Entry) (w : World) (log1 : list Entry) (w1 : World) : Prop :=
  Inv log1 w1 ∧ collision_free sha256_text log1 ∧
  if held then log1 = log ∧ outside w w1 else log ⊆ log1 ∧ grows extends (good log1) w w1.

Lemma rely_refl held log w : Inv log w → collision_free sha256_text log → rely held log w log w.
Proof. intros Hw Hc. split; [done|]. split; [done|]. by destruct held. Qed.

Lemma rely_trans held log w log1 w1 log2 w2 :
  rely held log w log1 w1 → rely held log1 w1 log2 w2 → rely held log w log2 w2.
Proof.
  intros (_ & _ & H1) (H2 & H2' & H3). split; [done|]. split; [done|]. destruct held.
  - destruct H1 as (-> & A1 & A2 & A3 & A4), H3 as (-> & B1 & B2 & B3 & B4). split; [done|]. split_and!; congruence.
  - destruct H1 as [L1 G1], H3 as [L2 G2]. split; [by etrans|]. etrans; [|exact G2].
    eapply (grows_weaken extends); [|exact G1]. intros i h. by apply good_mono.
Qed.

Lemma rely_log held log w log1 w1 : rely held log w log1 w1 → log ⊆ log1.
Proof. intros (_ & _ & H). destruct held; [by destruct H as [-> _]|apply H]. Qed.

Lemma rely_read held log w log1 w1 l i k o : rely held log w log1 w1 → read_at l i k o w → read_at l i k o w1.
Proof.
  intros (_ & _ & H) (d & Hd & Hid & Hk & Ht). destruct held.
  - destruct H as (_ & E & _). exists d. by rewrite E.
  - destruct H as [_ Hg]. destruct (g_deps _ _ _ _ Hg _ _ Hd) as (d' & Hd' & Hid' & Hp & Ht'). exists d'.
    split_and!; [done|congruence|by eapply prefix_lookup_Some|auto].
Qed.

Lemma rely_live log w log1 w1 l i st : rely true log w log1 w1 → live_at l i st w → live_at l i st w1.
Proof. intros (_ & _ & _ & E1 & E2 & _). unfold live_at, get. by rewrite E1, E2. Qed.

(** ** Programs that make no call too early *)

(** A generation whose candidates were verified, and that [s] was the source of. *)
Definition replaced (s : string) (h : list Operation) : Prop :=
  ∃ k o, h !! k = Some o ∧ readiness_verified o = true ∧ s ∈ previous o.
(** A candidate of an operation that failed before the switch, that nothing refers to. *)
Definition reclaimable (s n : string) (w : World) : Prop :=
  ∃ i st k o a, history i w = rollouts st ∧ (∃ l, live_at l i st w) ∧ rollouts st !! k = Some o ∧ status o = FAILED ∧
    failure_settled o = false ∧ readiness_verified o = false ∧ a ∈ allocations o ∧ al_name a = n ∧ attempted a = true ∧
    al_sandbox_id a = Some s ∧ reclamation_protected (deployment o) (ro_operation_id o) s n w = false.

(** What holds while a call is going on. *)
Definition asked (held : bool) (c : Call (Json := Json) (SandboxStatus := SandboxStatus)) (w : World) : Prop :=
  match c with
  | Stop s => ∃ i, i ≠ "" ∧ fixed i (replaced s) w
  | Reclaim s n => held = true ∧ reclaimable s n w
  | _ => True
  end.

Inductive secure : Prog → World → list Entry → Prop :=
| secure_done m w log : secure (Done m) w log
| secure_act h m w log :
    (∀ w1 log1 p w2, rely h log w log1 w1 → m w1 = Some (p, w2) → Inv (log1 ++ calls p) w2) →
    (∀ w1 log1 p w2, rely h log w log1 w1 → m w1 = Some (p, w2) → secure p w2 (log1 ++ calls p)) → secure (Act h m) w log
| secure_ask h c k w log :
    (∀ w1 log1, rely h log w log1 w1 → asked h c w1) →
    (∀ w1 log1 r, rely h log w log1 w1 → faithful c r = true → Inv ((log1 ++ [Answered c r]) ++ calls (k r)) w1) →
    (∀ w1 log1 r, rely h log w log1 w1 → faithful c r = true → secure (k r) w1 ((log1 ++ [Answered c r]) ++ calls (k r))) →
    secure (Ask h c k) w log.

Lemma secure_rely p w log log1 w1 : secure p w log → rely (holds_locks p) log w log1 w1 → secure p w1 log1.
Proof.
  intros Hs Hr. destruct Hs as [m w log|h m w log H1 H2|h c k w log H1 H2 H3]; cbn [holds_locks] in Hr; constructor.
  - intros w2 log2 p w3 Hr2. eapply H1. by eapply rely_trans.
  - intros w2 log2 p w3 Hr2. eapply H2. by eapply rely_trans.
  - intros w2 log2 Hr2. eapply H1. by eapply rely_trans.
  - intros w2 log2 r Hr2. apply H2. by eapply rely_trans.
  - intros w2 log2 r Hr2. apply H3. by eapply rely_trans.
Qed.

(** The worker goes on as [p]. *)
Definition starts (p : Prog) (w : World) (log : list Entry) : Prop := Inv (log ++ calls p) w ∧ secure p w (log ++ calls p).
Definition stops (p : Prog) : Prop := ∀ w log, Inv log w → starts p w log.

Lemma starts_act {A} held (m : Op A) k w log :
  Inv log w →
  (∀ w1 log1 a w2, rely held log w log1 w1 → m w1 = Some (a, w2) → starts (k a) w2 log1) → starts (act held m k) w log.
Proof.
  intros Hw Hm. unfold starts. cbn [calls act]. rewrite app_nil_r. split; [done|].
  constructor; intros w1 log1 p w2 Hr H; apply bind_Some in H as (a & w3 & Ha & H); apply ret_Some in H as [-> ->];
    by destruct (Hm _ _ _ _ Hr Ha).
Qed.

Lemma starts_ask held c k w log :
  Inv (log ++ [Called c]) w →
  (∀ w1 log1, rely held (log ++ [Called c]) w log1 w1 → asked held c w1) →
  (∀ w1 log1 r, rely held (log ++ [Called c]) w log1 w1 → faithful c r = true →
     Inv (log1 ++ [Answered c r]) w1 → starts (k r) w1 (log1 ++ [Answered c r])) → starts (Ask held c k) w log.
Proof.
  intros Hw Ha Hk. split; [done|]. cbn [calls].
  assert (∀ w1 log1 r, rely held (log ++ [Called c]) w log1 w1 → faithful c r = true → starts (k r) w1 (log1 ++ [Answered c r])) as Hs.
  { intros w1 log1 r Hr Hf. apply Hk; [done|done|]. eapply Inv_log; [apply Hr|apply log_app|]. by rewrite created_app, app_nil_r. }
  constructor; [done|..]; intros w1 log1 r Hr Hf; by destruct (Hs w1 log1 r Hr Hf).
Qed.

(** Every call but a create may be made at once. *)
Lemma Inv_call log w c : Inv log w → (∀ s n, c ≠ Create s n) → Inv (log ++ [Called c]) w.
Proof. intros Hw Hc. apply Inv_called; [done|]. intros s n ->. by destruct (Hc s n). Qed.

(** An operation that the worker may still change. *)
Definition current (log : list Entry) (i : string) (o : Operation) : Prop := good_op log i o ∧ failure_settled o = false.
(** What it becomes, short of the cutover. *)
Record step (log : list Entry) (i : string) (o o' : Operation) : Prop := {
  st_later : later o o';
  st_ready : readiness_verified o' = true → readiness_verified o = true;
  st_from : current log i o;
  st_to : current log i o';
}.
Lemma step_mono log log' i o o' : log ⊆ log' → step log i o o' → step log' i o o'.
Proof. intros Hl [H1 H2 [H3 H4] [H5 H6]]. split; [done|done|split..]; try done; by eapply good_op_mono. Qed.

Lemma starts_finish log l i k o o' stop w :
  Inv log w → read_at l i k o w → step log i o o' → stops stop → starts (finish show_io l k o' stop) w log.
Proof.
  intros Hw Hr Hs Hstop. apply starts_act; [done|]. intros w1 log1 a w2 Hrel H. apply Hstop.
  apply (step_mono _ log1) in Hs as [H1 H2 [H3 H4] [H5 _]]; [|by eapply rely_log].
  eapply record_spec in H; [by destruct H|apply Hrel|by eapply rely_read|done..].
Qed.

Lemma starts_record_or log l i k o o' stop next w :
  Inv log w → read_at l i k o w → step log i o o' → stops stop →
  (∀ w0 w1 log1, log ⊆ log1 → Inv log1 w0 → collision_free sha256_text log1 → history i w0 !! k = Some o →
     Inv log1 w1 → read_at l i k o' w1 → fixed i (λ h, h !! k = Some o') w1 → starts next w1 log1) →
  starts (record_or show_io l k o' stop next) w log.
Proof.
  intros Hw Hr Hs Hstop Hnext. apply starts_act; [done|]. intros w1 log1 a w2 Hrel H.
  pose proof (rely_log _ _ _ _ _ Hrel) as Hlog. apply (step_mono _ log1) in Hs as [H1 H2 [H3 H4] [H5 _]]; [|done].
  eapply record_spec in H as [Hw2 Hok]; [|apply Hrel|by eapply rely_read|done..].
  destruct a as [[]|]; [|by apply Hstop]. destruct (Hok eq_refl) as (Hh & Hr2 & Hf).
  eapply Hnext; [done|apply Hrel|apply Hrel|done..].
Qed.

Lemma starts_fleet held log stop next w :
  Inv log w → stops stop →
  (∀ w1 log1 fleet, rely held (log ++ [Called ListFleet]) w log1 w1 → Inv (log1 ++ [Answered ListFleet (Some fleet)]) w1 →
     starts (next fleet) w1 (log1 ++ [Answered ListFleet (Some fleet)])) →
  starts (fleet_or held stop next) w log.
Proof.
  intros Hw Hstop Hnext. apply starts_ask; [by apply Inv_call|done|]. intros w1 log1 [fleet|] Hr _ Hw1; [by apply Hnext|by apply Hstop].
Qed.

(** *** Steps of an operation *)

#[local] Instance alike_symmetric : Symmetric alike.
Proof. intros a b []. by split. Qed.

(** The same but for its status, its phase, what was stopped or when it ends. *)
Lemma alike_current log i o o' :
  current log i o → alike o o' → (ro_phase o' = "draining" → readiness_verified o' = true) →
  reclaimed_candidate_ids o' = reclaimed_candidate_ids o → failure_settled o' = false → current log i o'.
Proof.
  intros [Ho _] Ha Hp Hr Hs. split; [|done]. eapply alike_good; [done|done|done|rewrite Hr; apply Ho|]. intros E. congruence.
Qed.
Lemma alike_step log i o o' : current log i o → current log i o' → alike o o' → step log i o o'.
Proof. intros Ho Ho' Ha. split; [by apply alike_later|by rewrite (al_ready _ _ Ha)|done|done]. Qed.
Lemma step_alike log i o o1 o' : alike o o1 → current log i o1 → step log i o o' → step log i o1 o'.
Proof.
  intros Ha Ho [H1 H2 H3 H4]. split; [|by rewrite (al_ready _ _ Ha)|done|done].
  etrans; [|exact H1]. by apply alike_later.
Qed.

Lemma status_step log i o st e : current log i o → step log i o (set_status st e o).
Proof. intros Ho. apply alike_step; [done| |by split]. eapply alike_current; [done|by split|apply Ho|done|apply Ho]. Qed.
Lemma stage_current log i o s : current log i o → current log i (set_stage s o).
Proof. intros Ho. eapply alike_current; [done|by split|apply Ho|done|apply Ho]. Qed.
Lemma verifying_step log i o : current log i o → step log i o (set_verifying o).
Proof. intros Ho. apply alike_step; [done| |by split]. eapply alike_current; [done|by split|done|done|apply Ho]. Qed.
Lemma stopped_step log i o s : current log i o → step log i o (add_stopped s o).
Proof. intros Ho. apply alike_step; [done| |by split]. eapply alike_current; [done|by split|apply Ho|done|apply Ho]. Qed.
Lemma finished_step log i o : current log i o → step log i o (set_complete o).
Proof. intros Ho. apply alike_step; [done| |by split]. eapply alike_current; [done|by split|done|done|apply Ho]. Qed.

Lemma prepared_step log i o s : current log i o → id s = i → step log i o (set_prepared s o).
Proof.
  intros [Ho Hs] Hid. split; [|done|done|].
  - split; try done. intros j a Ha. by exists a.
  - split; [|done]. destruct Ho. split; try done. by intros ? [= <-].
Qed.

Lemma prepared_operation_step log i o p t :
  current log i o → (∀ s, pr_result p = Some (Some s) → id s = i) → step log i o (prepared_operation p t o).
Proof.
  intros Ho Hp. pose proof (stage_current _ _ _ (pr_last p) Ho) as Ho1.
  apply (step_alike _ _ (set_stage (pr_last p) o)); [by split|done|].
  unfold prepared_operation; destruct (pr_result p) as [[s|]|] eqn:Ep; cbv zeta.
  - destruct (t <? _)%Z; [by apply prepared_step, Hp|by apply status_step].
  - by apply status_step.
  - by apply status_step.
Qed.

(** An allocation without a sandbox is attempted, or gets one. *)
Lemma unready log i o a : good_op log i o → a ∈ allocations o → al_sandbox_id a = None → readiness_verified o = false.
Proof.
  intros Ho Ha Hn. destruct (readiness_verified o) eqn:Er; [|done].
  destruct (go_ready _ _ _ _ Ho Er a Ha) as (x & y & z & E & _). congruence.
Qed.

Lemma alter_lookup (l : list Allocation) j f k a' :
  alter f j l !! k = Some a' → ∃ a, l !! k = Some a ∧ (k = j ∧ a' = f a ∨ k ≠ j ∧ a' = a).
Proof.
  intros Hk. destruct (decide (k = j)) as [->|Hkj].
  - rewrite list_lookup_alter_eq in Hk. destruct (l !! j) as [a|]; [|done]. injection Hk as <-. exists a. auto.
  - rewrite list_lookup_alter_ne in Hk by done. exists a'. auto.
Qed.

Lemma allocate_step log i o j f a :
  current log i o → allocations o !! j = Some a → al_sandbox_id a = None → moved a (f a) →
  (al_sandbox_id (f a) ≠ None → attempted (f a) = true) → step log i o (allocate j f o).
Proof.
  intros [Ho Hs] Ha Hn Hm Hat. pose proof (list_elem_of_lookup_2 _ _ _ Ha) as Hin.
  assert (readiness_verified o = false) as Hr by by eapply unready.
  split; [|done|done|split; [|done]].
  - split; try done. intros k b Hb. cbn. destruct (decide (k = j)) as [->|Hk].
    + assert (b = a) as -> by congruence. exists (f a). by rewrite list_lookup_alter_eq, Ha.
    + exists b. by rewrite list_lookup_alter_ne.
  - destruct Ho as [H1 H2 H3 H4 H5 H6 H7 H8 H9 H10 H11 H12 H13]. split; try done; cbn in *.
    + intros k b (c & Hc & [[-> ->]|[_ ->]])%alter_lookup; [|by apply H6].
      assert (c = a) as -> by congruence. rewrite (mv_name _ _ Hm). by apply H6.
    + intros b (k & (c & Hc & [[-> ->]|[_ ->]])%alter_lookup)%list_elem_of_lookup Hb.
      * assert (c = a) as -> by congruence. by apply Hat.
      * apply H7; [by eapply list_elem_of_lookup_2|done].
    + congruence.
    + congruence.
Qed.

(** *** Preparing and creating *)

Lemma starts_record_stages log l i k o ox stages stop next w :
  Inv log w → current log i o → read_at l i k ox w → alike o ox → current log i ox → stops stop →
  (∀ w1 log1 oy, log ⊆ log1 → Inv log1 w1 → read_at l i k oy w1 → alike o oy → current log1 i oy → starts next w1 log1) →
  starts (record_stages show_io l k o stages stop next) w log.
Proof.
  intros Hw Ho Hr Ha Hx Hstop Hnext. revert w log ox Hw Ho Hr Ha Hx Hnext.
  induction stages as [|s stages IH]; intros w log ox Hw Ho Hr Ha Hx Hnext; cbn [record_stages]; [by eapply Hnext|].
  assert (alike o (set_stage s o)) as Hs by by split.
  eapply starts_record_or; [done|exact Hr| |done|].
  - apply alike_step; [done|by apply stage_current|]. by rewrite <- Ha.
  - intros w0 w1 log1 Hlog _ _ _ Hw1 Hr1 _. assert (current log1 i o) as Ho1.
    { destruct Ho. split; [by eapply good_op_mono|done]. }
    eapply IH; [done|done|exact Hr1|done|by apply stage_current|].
    intros w2 log2 oy Hlog2. apply Hnext. by etrans.
Qed.

Lemma current_mono log log' i o : log ⊆ log' → current log i o → current log' i o.
Proof. intros Hl [H1 H2]. split; [by eapply good_op_mono|done]. Qed.

Lemma starts_preparing log l i k o stop w :
  Inv log w → read_at l i k o w → current log i o → stops stop → starts (preparing show_io l k o stop) w log.
Proof.
  intros Hw Hr Ho Hstop. apply starts_fleet; [done|done|]. intros w1 log1 fleet Hrel Hw1.
  pose proof (rely_read _ _ _ _ _ _ _ _ _ Hrel (ltac:(exact Hr))) as Hr1.
  assert (log ⊆ log1) as Hl1 by (etrans; [apply log_app|by eapply rely_log]).
  apply starts_act; [done|]. intros w2 log2 b w3 Hrel2 H.
  apply bind_Some in H as (d & w2' & Hd & H). apply deref_Some in Hd as [_ ->]. apply ret_Some in H as [-> ->].
  assert (log ⊆ log2) as Hl2 by (etrans; [exact Hl1|]; etrans; [apply log_app|by eapply rely_log]).
  pose proof (rely_read _ _ _ _ _ _ _ _ _ Hrel2 Hr1) as Hr2.
  destruct (untracked d o fleet).
  { eapply starts_finish; [apply Hrel2|exact Hr2| |done]. by apply status_step, (current_mono log). }
  apply starts_ask; [apply Inv_call; [apply Hrel2|done]|done|]. intros w4 log4 p Hrel4 Hf Hw4.
  assert (log ⊆ log4 ++ [Answered (Prepare (ro_spec o) (prefix o)) p]) as Hl4.
  { etrans; [exact Hl2|]. etrans; [apply log_app|]. etrans; [by eapply rely_log|]. apply log_app. }
  eapply starts_record_stages; [done|by eapply current_mono|by eapply rely_read|done|by eapply current_mono|done|].
  intros w5 log5 oy Hl5 Hw5 Hr5 Ha5 Hy5. apply starts_act; [done|]. intros w6 log6 r w7 Hrel6 H.
  apply bind_Some in H as (y & w6' & Hg & H). apply gets_Some in Hg as [-> ->]. apply Hstop.
  pose proof (rely_log _ _ _ _ _ Hrel6) as Hl6.
  assert (step log6 i oy (prepared_operation p (now w6) o)) as [H1 H2 [H3 H4] [H5 _]].
  { eapply step_alike; [exact Ha5|by eapply current_mono|]. apply prepared_operation_step.
    - eapply current_mono; [|exact Ho]. etrans; [exact Hl4|]. by etrans.
    - intros s' Ep. cbn in Hf. rewrite Ep in Hf. apply String.eqb_eq in Hf as ->. by destruct Ho as [[] _]. }
  eapply record_spec in H; [by destruct H|apply Hrel6|by eapply rely_read|done..].
Qed.

(** The name of an allocation that was not attempted was never asked for. *)
Lemma not_created log w i k o j a :
  Inv log w → collision_free sha256_text log → history i w !! k = Some o → allocations o !! j = Some a →
  attempted a = false → al_name a ∉ created log.
Proof.
  intros Hw Hc Hk Ha Hat Hin. destruct (iv_created _ _ _ Hw _ Hin) as (i' & _ & (k' & o' & j' & a' & Hk' & Ha' & Hn & Hat') & _).
  destruct (Inv_history _ _ _ i Hw) as [Hg _], (Inv_history _ _ _ i' Hw) as [Hg' _].
  destruct (name_inj _ sha256_length _ _ _ _ _ _ _ _ _ _ _ _ _ Hc Hg Hg' Hk Hk' Ha Ha' (eq_sym Hn)) as (-> & -> & Hkk).
  specialize (Hkk eq_refl) as ->. congruence.
Qed.

Lemma starts_creating log l i k o stop w :
  Inv log w → read_at l i k o w → current log i o → stops stop → starts (creating show_io l k o stop) w log.
Proof.
  intros Hw Hr Ho Hstop. unfold creating. destruct (list_find _ (allocations o)) as [[j a]|] eqn:Ef.
  2: { eapply starts_finish; [done|exact Hr| |done]. by apply verifying_step. }
  apply list_find_Some in Ef as (Hj & Hn & _). cbn in Hn. destruct (attempted a) eqn:Eat.
  { apply starts_fleet; [done|done|]. intros w1 log1 fleet Hrel Hw1.
    assert (log ⊆ log1 ++ [Answered ListFleet (Some fleet)]) as Hl1.
    { etrans; [apply log_app|]. etrans; [by eapply rely_log|]. apply log_app. }
    eapply starts_finish; [done|by eapply rely_read| |done]. eapply step_mono; [exact Hl1|]. unfold recovered.
    destruct (named (al_name a) fleet) as [|s [|]]; [by apply status_step| |by apply status_step].
    eapply allocate_step; [done|exact Hj|done|split; [done|done|congruence]|done]. }
  assert (step log i o (allocate j with_attempt o)) as Hs.
  { eapply allocate_step; [done|exact Hj|done|by split|done]. }
  eapply starts_record_or; [done|exact Hr|exact Hs|done|].
  intros w0 w1 log1 Hlog Hw0 Hc Hk Hw1 Hr1 Hfx.
  assert (allocations (allocate j with_attempt o) !! j = Some (with_attempt a)) as Hja by (cbn; by rewrite list_lookup_alter_eq, Hj).
  destruct (ro_prepared (allocate j with_attempt o)) as [s|]; [|by apply Hstop].
  apply starts_ask; [|done|].
  - apply Inv_called; [done|]. intros s' n [= _ <-]. split; [by apply (not_created log1 w0 i k o j a)|].
    exists i. split; [apply Ho|]. eapply fixed_mono; [|exact Hfx]. intros h Hh.
    by exists k, (allocate j with_attempt o), j, (with_attempt a).
  - intros w2 log2 r Hrel Hf Hw2. pose proof (rely_log _ _ _ _ _ Hrel) as Hl2.
    assert (current (log2 ++ [Answered (Create s (al_name a)) r]) i (allocate j with_attempt o)) as Ho2.
    { eapply current_mono; [|apply Hs]. etrans; [exact Hlog|]. etrans; [apply log_app|]. etrans; [exact Hl2|]. apply log_app. }
    eapply starts_finish; [done|by eapply rely_read| |done]. destruct r as [x|]; [|by apply alike_step].
    eapply allocate_step; [done|exact Hja|done|split; [done|done|cbn; congruence]|done].
Qed.

(** *** The switch *)

Lemma new_backends_calm ready (w w' : World) bs : new_backends ready w = Some (bs, w') → calm w w'.
Proof.
  revert w bs. induction ready as [|[i addr] ready IH]; intros w bs H; cbn [new_backends] in H; [apply ret_Some in H as [_ ->]; apply quiet_refl|].
  apply bind_Some in H as (b & w1 & Hb & H). apply fresh_calm in Hb as (_ & _ & Hc1 & _).
  apply bind_Some in H as ([] & w2 & Hm & H). apply modify_Some in Hm as ->.
  apply bind_Some in H as (bs' & w3 & Hbs & H). apply ret_Some in H as [_ ->]. apply IH in Hbs.
  eapply quiet_trans; [exact Hc1|]. eapply quiet_trans; [|exact Hbs]. by split.
Qed.

Lemma ready_good log i o until :
  current log i o → (∀ a, a ∈ allocations o → answering log a) → current log i (set_ready until o) ∧ later o (set_ready until o).
Proof.
  intros [Ho Hs] Ha. split; [split; [|done]|].
  - destruct Ho. by split.
  - split; try done. intros j a Hj. by exists a.
Qed.

(** A live generation, and one that is not. *)
Lemma history_restates i l d d' (w w' : World) : restates l d d' w w' → get i w ≠ Some l → history i w' = history i w.
Proof.
  intros (Hq & _) Hl. unfold history, dep_at, get in *. rewrite (q_deployments _ _ _ Hq).
  destruct (deployments w !! i) as [k|]; [|done]. cbn. rewrite (q_deps _ _ _ Hq); [done|]. by intros ->.
Qed.
Lemma history_file i k (w w' : World) : on_file k w w' → history i w' = history i w.
Proof. by intros [fs ->]. Qed.
Lemma history_calm i (w w' : World) : calm w w' → history i w' = history i w.
Proof. intros Hc. unfold history, dep_at, get. by rewrite (q_deployments _ _ _ Hc), (calm_deps _ _ Hc). Qed.

Lemma alter_insert {A} (f : A → A) (h : list A) k o : h !! k = Some o → alter f k h = <[k := f o]> h.
Proof.
  intros Hk. apply list_eq. intros j. destruct (decide (j = k)) as [->|Hj].
  - rewrite list_lookup_alter_eq, list_lookup_insert_eq, Hk by (by eapply lookup_lt_Some). done.
  - by rewrite list_lookup_alter_ne, list_lookup_insert_ne.
Qed.

(** What is written before the switch: the record of the next generation, under the same id. *)
Lemma written_Inv log l i k o o' (n : Dep) (st st' : State) f (w w' : World) :
  Inv log w → live_at l i st w → rollouts st !! k = Some o → later o o' → current log i o' → id (spec_of n) = i →
  rollouts st' = <[k := o']> (rollouts st) → route_handoff st' = route_handoff st →
  on_file f w w' → f = (λ x, x) ∨ f = record_file n st' ∨ f = (λ x, sync_dir (record_file n st' x)) →
  Inv log w' ∧ good log i (rollouts st') ∧ handoff_ok (spec_of n) st'.
Proof.
  intros Hw Hl Hk Hlat [Ho' _] Hn Hst' Hho Hf Hk'. pose proof (live_history _ _ _ _ Hl) as Hh.
  destruct (Inv_history _ _ _ i Hw) as [Hg _]. rewrite Hh in Hg.
  assert (good log i (rollouts st')) as Hg' by (rewrite Hst'; eapply good_insert; [done|exact Hk|apply Hlat|done]).
  assert (handoff_ok (spec_of n) st') as Hhok.
  { destruct Hl as (_ & d & Hd & Hid & <-). eapply handoff_ok_same; [|exact Hho|by eapply inv_handoff; [apply Hw|]]. congruence. }
  assert (grows continues (good log) w w') as Hgr.
  { eapply (grows_record continues); [exact Hf| |exact Hk']. split; [|right; by rewrite Hn].
    rewrite Hn, Hh, Hst'. by eapply continues_insert. }
  split; [|done]. apply (Inv_grows' sha256_text continues log log w w'); try done.
  - eapply (state_change_inv n st' f); [apply Hw|done|exact Hf|]. destruct Hk' as [->|[->| ->]]; auto.
  - intros k' x Hx. rewrite (proj1 (on_file_deps _ _ _ Hf)) in Hx.
    eapply (vouched_grows continues); [done|exact Hgr|]. by eapply iv_ready.
Qed.

(** The switch itself: the next generation takes the written state, and the routes. *)
Lemma switched_Inv log l i k o o' nl (n n' : Dep) (st st' : State) (w w1 w2 w3 : World) :
  Inv log w → live_at l i st w → rollouts st !! k = Some o → later o o' → current log i o' → id (spec_of n) = i →
  rollouts st' = <[k := o']> (rollouts st) → route_handoff st' = route_handoff st →
  deps w !! nl = Some n → rollouts (state_of n) = [] → get i w ≠ Some nl → (∀ j, staged w !! j ≠ Some nl) →
  on_file (λ x, sync_dir (record_file n st' x)) w w1 →
  restates nl n n' w1 w2 → state_of n' = st' → retirement st' = None →
  install (Some nl) i w2 = Some (tt, w3) → Inv log w3.
Proof.
  intros Hw Hl Hk Hlat Ho' Hn Hst' Hho Hnl Hempty Hget Hstg Hf Hre Hsn Hret Hi.
  edestruct (written_Inv log l i k o o' n st st') as (Hw1 & Hg & Hhok); [done..|exact Hf|by right; right|].
  destruct (on_file_deps _ _ _ Hf) as (E1 & E2 & E3 & _). pose proof (live_history _ _ _ _ Hl) as Hh.
  pose proof Hre as (Hq & Hn1 & Hn2 & Hsp & _).
  assert (get i w1 ≠ Some nl) as Hget1 by (unfold get; by rewrite E2).
  assert (history i w2 = rollouts st) as Hh2 by (rewrite (history_restates _ _ _ _ _ _ Hre Hget1), (history_file _ _ _ _ Hf); done).
  pose proof (install_Some _ _ _ _ _ Hi) as (F1 & F2 & _ & F4 & F5 & _).
  assert (grows continues (good log) w1 w2) as Hg2.
  { eapply (grows_restates continues); [exact Hre|by rewrite Hempty; intros ? ?|by rewrite Hsn|right].
    rewrite Hsp, Hn, Hsn. split; [done|]. by rewrite E3. }
  assert (grows continues (good log) w2 w3) as Hg3.
  { eapply (grows_install continues _ (Some nl) i); [|done|exact Hi]. intros ? [= <-]. rewrite (q_staged _ _ _ Hq), E3.
    split; [done|]. exists n'. split; [done|]. rewrite Hh2, Hsn, Hst'. by eapply continues_insert. }
  assert (grows continues (good log) w1 w3) as Hg13 by by etrans.
  assert (fixed i (λ h, h = rollouts st') w3) as Hfx.
  { split.
    - unfold history, dep_at, get. rewrite F1, F2, lookup_insert_eq. cbn. by rewrite Hn2, Hsn.
    - unfold kept. rewrite F5, (q_disk _ _ _ Hq). destruct Hf as [fs ->].
      split; exists (encode (spec_of n) st'), (spec_of n), st'; (split_and!; [cbn; rewrite Hn; apply lookup_insert_eq|apply decode_encode|done|done]). }
  apply (Inv_grows' sha256_text continues log log w1 w3); try done.
  - eapply (inv_install (Some nl) i); [|intros ? [= <-]; exists n'; split; [done|by rewrite Hsp]|exact Hi].
    eapply inv_restates; [apply Hw1|exact Hre|by rewrite Hsp, Hsn].
  - intros j x Hx. rewrite F1 in Hx. destruct (decide (j = nl)) as [->|Hj].
    + assert (x = n') as -> by congruence. rewrite Hsp, Hn, Hsn. intros k' y Hy Hr.
      eapply fixed_mono; [|exact Hfx]. intros h ->. by exists y.
    + rewrite (q_deps _ _ _ Hq) in Hx by done. eapply (vouched_grows continues); [done|exact Hg13|]. by eapply iv_ready.
Qed.

Lemma each_drain_calm (bs : list nat) (w w' : World) u :
  each (λ b, modify (λ w, with_heap (alter (λ x, LbPool.set_draining x true) b (heap w)) w)) bs w = Some (u, w') → calm w w'.
Proof.
  revert w. induction bs as [|b bs IH]; intros w H; cbn [each] in H; [apply ret_Some in H as [_ ->]; apply quiet_refl|].
  apply bind_Some in H as ([] & w1 & Hm & H). apply modify_Some in Hm as ->. eapply quiet_trans; [|by apply IH]. by split.
Qed.

Lemma calm_Inv log (w w' : World) : Inv log w → calm w w' → Inv log w'.
Proof.
  intros Hw Hc. apply (Inv_grows sha256_text eq log log w w'); [done|by apply (grows_calm eq)|by eapply inv_calm; [apply Hw|]|by intros h ? <-|done|done].
Qed.

(** The candidate generation, before anything is written. *)
Lemma generation_Inv log l i st (n : Dep) nl (w w1 : World) :
  Inv log w → live_at l i st w → creates nl n w w1 → (∃ r, state_of n = LbPool.initial_state r) →
  Inv log w1 ∧ live_at l i st w1 ∧ get i w1 ≠ Some nl ∧ (∀ j, staged w1 !! j ≠ Some nl) ∧ rollouts (state_of n) = [].
Proof.
  intros Hw (Hl & d & Hd & Hid & Hst) Hc [r Hr]. pose proof (inv_ok _ (iv_inv _ _ _ Hw)) as Hok.
  assert (rollouts (state_of n) = []) as Hn by by rewrite Hr.
  destruct (fresh_apart _ _ _ _ Hok Hc) as [Hf1 Hf2]. split; [|split; [|split; [apply Hf1|by split]]].
  - apply (Inv_grows sha256_text eq log log w w1); [done|eapply (grows_creates eq); [done|exact Hc|by left]| |by intros h ? <-|done|done].
    eapply inv_creates; [apply Hw|exact Hc|]. rewrite Hr. by apply handoff_ok_none.
  - split; [unfold get; by rewrite (q_deployments _ _ _ (c_quiet _ _ _ _ Hc))|].
    exists d. split; [|done]. by apply (creates_keeps _ _ _ _ Hok Hc).
Qed.

Lemma publish_unfrozen l d (w w' : World) u :
  publish l w = Some (u, w') → deps w !! l = Some d → retirement_frozen (id (spec_of d)) w = false →
  install (Some l) (id (spec_of d)) w = Some (tt, w').
Proof.
  intros H Hd Hf. unfold publish in H. apply bind_Some in H as (x & w0 & Hx & H). apply deref_Some in Hx as [Hx ->].
  assert (x = d) as -> by congruence. apply bind_Some in H as (w1 & w1' & Hg & H). apply gets_Some in Hg as [-> ->].
  rewrite Hf in H. by destruct u.
Qed.

Lemma live_unfrozen l i st (w : World) : live_at l i st w → retirement st = None → retirement_frozen i w = false.
Proof. intros (Hl & d & Hd & _ & <-) Hr. unfold retirement_frozen, dep_at. rewrite Hl. cbn. by rewrite Hd, Hr. Qed.

Lemma cutover_Inv log l i k o ready retiring m (w w' : World) :
  Inv log w → read_at l i k o w → current log i o → (∀ a, a ∈ allocations o → answering log a) →
  cutover show_io l k o ready retiring w = Some (m, w') → Inv log w'.
Proof.
  intros Hw (d & Hd & Hid & Hk & Hret) Ho Ha H. unfold cutover in H.
  apply bind_Some in H as (b & w0 & Hb & H). apply is_live_spec in Hb as (-> & d' & Hd' & Hlive).
  assert (d' = d) as -> by congruence. clear Hd'.
  apply bind_Some in H as (d' & w0 & Hd' & H). apply deref_Some in Hd' as [Hd' ->]. assert (d' = d) as -> by congruence.
  destruct (negb (String.eqb _ _) || negb b) eqn:Eb; [by apply ret_Some in H as [_ ->]|].
  apply orb_false_iff in Eb as [_ Eb%negb_false_iff]. subst b. specialize (Hlive eq_refl). rewrite Hid in Hlive.
  destruct (ro_prepared o) as [s|] eqn:Es; [|by apply ret_Some in H as [_ ->]].
  assert (id s = i) as Hs by (by apply (go_prepared _ _ _ _ (proj1 Ho))).
  apply bind_Some in H as (n & w1 & Hnew & H). apply new_deployment_calm in Hnew as (Hc1 & Hsp & Hinit & Hrd).
  apply bind_Some in H as (nl & w2 & Halloc & H).
  apply (alloc_creates _ _ _ w) in Halloc as Hcr; [|done|by unfold router_ok; rewrite Hsp].
  apply bind_Some in H as (bs & w3 & Hbs & H). apply new_backends_calm in Hbs.
  apply bind_Some in H as (rev & w4 & Hrev & H). apply fresh_calm in Hrev as (_ & _ & Hc4 & _).
  assert (creates nl n w w4) as Hcr4.
  { assert (calm w2 w4) as Hc by by eapply quiet_trans.
    eapply creates_on; [exact Hcr|by apply calm_quiet| |done..]. rewrite (calm_deps _ _ Hc). apply Hcr. }
  destruct (generation_Inv _ _ _ _ _ _ _ _ Hw Hlive Hcr4 Hinit) as (Hw4 & Hl4 & Hget & Hstg & Hempty).
  apply bind_Some in H as (x & w4' & Hg & H). apply gets_Some in Hg as [-> ->].
  apply bind_Some in H as (y & w4' & Hx & H). apply expect_Some in Hx as [_ ->]. cbv zeta in H.
  set (o' := set_ready _ o) in H. set (st := with_generation _ _ _ _) in H.
  destruct (ready_good _ _ _ (U64.wrapping_add (now w4) (drain_timeout_secs (rest_of (spec_of d)))) Ho Ha) as [Ho' Hlat]. fold o' in Ho', Hlat.
  apply bind_Some in H as (r & w5 & Hp & H). apply persist_snapshot_Some in Hp as (f & Hf & Hk').
  assert (id (spec_of n) = i) as Hn by congruence. pose proof (c_dep _ _ _ _ Hcr4) as Hnl.
  destruct r as [[]|e].
  - subst f. apply bind_Some in H as ([] & w6 & Hset & H). apply set_state_restates in Hset as (x & n1 & Hre1 & Hst1 & _).
    assert (x = n) as -> by (destruct Hre1 as (_ & Hx & _); rewrite (proj1 (on_file_deps _ _ _ Hf)) in Hx; congruence).
    apply bind_Some in H as ([] & w7 & Hset & H). apply set_backends_Some in Hset as (x & n2 & Hx & Hn2 & Hq2 & Hsp2 & Hrg2 & Hst2 & _).
    destruct Hre1 as (Hq1 & Hx1 & Hx1' & Hsp1 & Hrg1). assert (x = n1) as -> by congruence.
    apply bind_Some in H as (x & w7' & Hx' & H). apply deref_Some in Hx' as [_ ->].
    apply bind_Some in H as ([] & w8 & Hdr & H). apply each_drain_calm in Hdr.
    apply bind_Some in H as ([] & w9 & Hpub & H). apply ret_Some in H as [_ ->].
    assert (restates nl n n2 w5 w8) as Hre.
    { split; [eapply quiet_trans; [exact Hq1|]; eapply quiet_trans; [exact Hq2|by apply calm_quiet]|].
      rewrite (calm_deps _ _ Hdr). split_and!; congruence. }
    assert (live_at l i (state_of d) w8) as Hl8.
    { destruct Hre as (Hq & _), Hl4 as (Hg4 & d4 & Hd4 & Hid4 & Est4). destruct Hf as [fs ->].
      split; [unfold get in *; by rewrite (q_deployments _ _ _ Hq)|]. exists d4. rewrite (q_deps _ _ _ Hq); [done|].
      intros ->. done. }
    assert (deps w8 !! nl = Some n2) as Hn8 by by rewrite (calm_deps _ _ Hdr).
    assert (id (spec_of n2) = i) as Hn2' by congruence.
    eapply publish_unfrozen in Hpub; [|exact Hn8|rewrite Hn2'; by eapply live_unfrozen].
    rewrite Hn2' in Hpub. eapply (switched_Inv log l i k o o' nl n n2 (state_of d) st w4 w5 w8); try done. congruence.
  - edestruct (written_Inv log l i k o o' n (state_of d) st f w4 w5) as (Hw5 & _); [done..|destruct Hk' as [->| ->]; auto|].
    assert (live_at l i (state_of d) w5) as Hl5 by (by destruct Hf as [fs ->]).
    apply bind_Some in H as (d5 & w5' & Hd5 & H). apply deref_Some in Hd5 as [Hd5 ->].
    assert (state_of d5 = state_of d) as E5 by (destruct Hl5 as (_ & x & Hx & _ & <-); congruence). rewrite E5 in H.
    rewrite (alter_insert _ _ _ o) in H by done. set (o2 := suspect _ o) in H.
    apply bind_Some in H as ([] & w6 & Hset & H). apply ret_Some in H as [_ ->].
    apply set_state_restates in Hset as (x & d6 & Hre & Hst6 & _).
    assert (step log i o o2) as [H1 H2 _ [H3 _]] by (by apply status_step).
    destruct Hl5 as (Hl5 & x5 & Hx5 & Hid5 & Est5). pose proof Hre as (Hq & Hx & Hx' & Hsp6 & _).
    assert (x = x5) as -> by congruence. assert (x5 = d5) as -> by congruence.
    destruct (Inv_history _ _ _ i Hw5) as [Hg5 Hv5].
    assert (history i w5 = rollouts (state_of d)) as Hh5 by (eapply live_history; split; [done|by exists d5]). rewrite Hh5 in Hg5, Hv5.
    assert (handoff_ok (spec_of d6) (state_of d6)) as Hho.
    { eapply handoff_ok_same; [by rewrite Hsp6| |eapply inv_handoff; [apply Hw5|exact Hd5]]. by rewrite Hst6, E5. }
    apply (Inv_grows sha256_text continues log log w5 w6); [done| |by eapply inv_restates; [apply Hw5|exact Hre|]|done|done|done].
    eapply (grows_restates continues); [exact Hre|rewrite Hst6, E5; by eapply continues_insert|by rewrite Hst6, E5|right].
    rewrite Hsp6, Hst6, Hid5. split.
    + split; [by eapply good_insert; [|exact Hk|apply H1|]|]. eapply vouched_alike; [exact Hv5|]. cbn. intros j z Hj Hz.
      destruct (decide (j = k)) as [->|Hjk].
      * rewrite list_lookup_insert_eq in Hj by (by eapply lookup_lt_Some). injection Hj as <-. by exists o.
      * rewrite list_lookup_insert_ne in Hj by done. by exists z.
    + intros j Hj. apply (iv_staged _ _ _ Hw5) in Hj as [Hj _]. by apply (Hj i).
Qed.

(** *** Verifying and draining *)

Lemma candidate_named a fleet (x : SandboxInfo (SandboxStatus := SandboxStatus)) : candidate a fleet = Some x → al_sandbox_id a = Some (si_id x) ∧ si_name x = al_name a.
Proof.
  unfold candidate. intros [_ [H1%bool_decide_eq_true H2%String.eqb_eq]%andb_true_iff]%find_some. done.
Qed.

Lemma log_answer log log1 c c' (r : Reply c') held w w1 :
  rely held (log ++ [Called c]) w log1 w1 → log ⊆ log1 ++ [Answered c' r].
Proof. intros Hr. etrans; [apply log_app|]. etrans; [by eapply rely_log|]. apply log_app. Qed.

Lemma answering_mono log log' a : log ⊆ log' → answering log a → answering log' a.
Proof. intros Hl (x & y & z & H1 & H2 & H3). exists x, y, z. auto. Qed.

Lemma starts_verifying log l i k o retiring kk fleet as_ done_ ready w :
  Inv log w → read_at l i k o w → current log i o → allocations o = done_ ++ as_ → (∀ a, a ∈ done_ → answering log a) →
  (∀ m, stops (kk m)) → starts (verifying show_io l k o retiring kk fleet as_ ready) w log.
Proof.
  intros Hw Hr Ho Hal Hdone Hstop. revert w log done_ ready Hw Hr Ho Hal Hdone.
  induction as_ as [|a as_ IH]; intros w log done_ ready Hw Hr Ho Hal Hdone; cbn [verifying].
  - apply starts_act; [done|]. intros w1 log1 m w2 Hrel H. apply Hstop. pose proof (rely_log _ _ _ _ _ Hrel) as Hl.
    eapply cutover_Inv; [apply Hrel|by eapply rely_read|by eapply current_mono| |exact H].
    rewrite Hal, app_nil_r. intros a Ha. eapply answering_mono; [done|by apply Hdone].
  - destruct (candidate a fleet) as [x|] eqn:Ec; [|by apply Hstop]. apply candidate_named in Ec as [Hsb Hnm].
    apply starts_act; [done|]. intros w1 log1 image w2 Hrel H. apply expect_Some in H as [_ ->].
    pose proof (rely_log _ _ _ _ _ Hrel) as Hl1. pose proof (rely_read _ _ _ _ _ _ _ _ _ Hrel Hr) as Hr1.
    assert (current log1 i o) as Ho1 by by eapply current_mono.
    destruct (negb _); [eapply starts_finish; [apply Hrel|exact Hr1|by apply status_step|done]|].
    apply starts_ask; [apply Inv_call; [apply Hrel|done]|done|]. intros w3 log3 [addr|] Hrel3 _ Hw3; [|by apply Hstop].
    pose proof (log_answer _ _ _ (Healthy x (ro_spec o)) (Some addr) _ _ _ Hrel3) as Hl3.
    eapply (IH _ _ (done_ ++ [a])); [done|by eapply rely_read|by eapply current_mono|by rewrite <- app_assoc|].
    intros b [Hb| ->%list_elem_of_singleton]%elem_of_app.
    + eapply answering_mono; [|by apply Hdone]. by etrans.
    + exists x, (ro_spec o), addr. split_and!; [done|done|]. apply elem_of_app. right. by left.
Qed.

Lemma starts_stop_previous log l i k o ids retiring kk w :
  Inv log w → read_at l i k o w → current log i o → readiness_verified o = true → ids ⊆ previous o →
  (∀ m, stops (kk m)) → starts (stop_previous show_io l k o ids retiring kk) w log.
Proof.
  intros Hw Hr Ho Hrd Hids Hstop. revert w log o Hw Hr Ho Hrd Hids.
  induction ids as [|s ids IH]; intros w log o Hw Hr Ho Hrd Hids; cbn [stop_previous].
  { eapply starts_finish; [done|exact Hr|by apply finished_step|done]. }
  assert (s ∈ previous o ∧ ids ⊆ previous o) as [Hs Hids'] by (split; [apply Hids; by left|intros x Hx; apply Hids; by right]).
  destruct (bool_decide (s ∈ stopped o)); [by apply IH|].
  apply starts_ask; [by apply Inv_call| |].
  - intros w1 log1 Hrel. exists i. split; [apply Ho|].
    destruct (rely_read _ _ _ _ _ _ _ _ _ Hrel Hr) as (d & Hd & Hid & Hk & _).
    pose proof (iv_ready _ _ _ (proj1 Hrel) _ _ Hd _ _ Hk Hrd) as Hf. rewrite Hid in Hf.
    eapply fixed_mono; [|exact Hf]. intros h (o' & Ho' & Hr' & Hp). exists k, o'. by rewrite Hp.
  - intros w1 log1 ok Hrel _ Hw1. destruct ok; [|by apply Hstop].
    pose proof (log_answer _ _ _ (Stop s) true _ _ _ Hrel) as Hl1.
    eapply starts_record_or; [done|by eapply rely_read|by apply stopped_step, (current_mono log)|done|].
    intros w2 w3 log3 Hl3 _ _ _ Hw3 Hr3 _. apply IH; [done|done| |done|done].
    eapply st_to, stopped_step, (current_mono log); [by etrans|done].
Qed.

Lemma active_backend_calm l i addr (w w' : World) b : active_backend l i addr w = Some (b, w') → calm w w'.
Proof.
  intros H. unfold active_backend in H. apply bind_Some in H as (d & w0 & Hd & H). apply deref_Some in Hd as [_ ->].
  apply bind_Some in H as (x & w0 & Hg & H). apply gets_Some in Hg as [-> ->].
  destruct (List.find _ _); [apply ret_Some in H as [_ ->]; apply quiet_refl|].
  apply bind_Some in H as (c & w1 & Hf & H). apply fresh_calm in Hf as (_ & _ & Hc & _).
  apply bind_Some in H as ([] & w2 & Hm & H). apply modify_Some in Hm as ->. apply ret_Some in H as [_ ->].
  eapply quiet_trans; [exact Hc|]. by split.
Qed.

Lemma read_calm l i k o (w w' : World) : calm w w' → read_at l i k o w → read_at l i k o w'.
Proof. intros Hc (d & Hd & H). exists d. by rewrite (calm_deps _ _ Hc). Qed.

Lemma set_backends_keeps log l bs (w w' : World) u :
  Inv log w → set_backends l bs w = Some (u, w') → Inv log w' ∧ ∀ j i k o, read_at j i k o w → read_at j i k o w'.
Proof.
  intros Hw H. apply set_backends_Some in H as (x & x' & Hx & Hx' & Hq & Hs & Hr & Hst & _). split.
  - apply (Inv_grows sha256_text eq log log w w'); [done|..].
    + eapply (grows_restates eq _ l x x'); [by split_and!|by rewrite Hst|by rewrite Hst|left; by rewrite Hst].
    + eapply (inv_restates l x x'); [apply Hw|by split_and!|]. rewrite Hst. eapply handoff_ok_same; [by rewrite Hs|done|].
      by eapply inv_handoff; [apply Hw|].
    + by intros h ? <-.
    + done.
    + done.
  - intros j i k o (d & Hd & Hid & Hk & Ht). destruct (decide (j = l)) as [->|Hj].
    + assert (d = x) as -> by congruence. exists x'. by rewrite Hs, Hst.
    + exists d. by rewrite (q_deps _ _ _ Hq).
Qed.

Lemma starts_draining log l i k o retiring kk fleet as_ active w :
  Inv log w → read_at l i k o w → current log i o → readiness_verified o = true →
  (∀ m, stops (kk m)) → starts (draining show_io l k o retiring kk fleet as_ active) w log.
Proof.
  intros Hw Hr Ho Hrd Hstop. revert w log active Hw Hr Ho.
  induction as_ as [|a as_ IH]; intros w log active Hw Hr Ho; cbn [draining].
  - apply starts_act; [done|]. intros w1 log1 u w2 Hrel H. pose proof (rely_log _ _ _ _ _ Hrel) as Hl1.
    destruct (set_backends_keeps _ _ _ _ _ _ (proj1 Hrel) H) as [Hw2 Hk2].
    pose proof (Hk2 _ _ _ _ (rely_read _ _ _ _ _ _ _ _ _ Hrel Hr)) as Hr2.
    apply starts_act; [done|]. intros w3 log3 busy w4 Hrel3 H3. apply gets_Some in H3 as [-> ->].
    destruct (old_pool_busy _ _ _); [apply Hstop, Hrel3|].
    eapply starts_stop_previous; [apply Hrel3|by eapply rely_read|eapply current_mono; [|exact Ho]|done|done|done].
    etrans; [exact Hl1|by eapply rely_log].
  - destruct (candidate a fleet) as [x|]; [|by apply Hstop].
    apply starts_act; [done|]. intros w1 log1 si w2 Hrel H. assert (w2 = w1) as ->.
    { apply bind_Some in H as (d & w1' & Hd & H). apply deref_Some in Hd as [_ ->].
      apply bind_Some in H as (im & w1' & Him & H). apply expect_Some in Him as [_ ->]. by apply ret_Some in H as [_ ->]. }
    destruct (negb _); [apply Hstop, Hrel|]. pose proof (rely_log _ _ _ _ _ Hrel) as Hl1.
    apply starts_ask; [apply Inv_call; [apply Hrel|done]|done|]. intros w3 log3 [addr|] Hrel3 _ Hw3; [|by apply Hstop].
    pose proof (log_answer _ _ _ (Healthy x (fst si)) (Some addr) _ _ _ Hrel3) as Hl3.
    apply starts_act; [done|]. intros w4 log4 b w5 Hrel4 H4. apply active_backend_calm in H4.
    apply IH; [by eapply calm_Inv; [apply Hrel4|]| |].
    + eapply read_calm; [exact H4|]. eapply rely_read; [exact Hrel4|]. eapply rely_read; [exact Hrel3|]. by eapply rely_read.
    + eapply current_mono; [|exact Ho]. etrans; [exact Hl1|]. etrans; [exact Hl3|]. by eapply rely_log.
Qed.

(** *** Settling a failure, under the locks *)

(** The failed operation, at the deployment that the registry has. *)
Definition settling (log : list Entry) (l : nat) (i : string) (k : nat) (o : Operation) (w : World) : Prop :=
  ∃ st, live_at l i st w ∧ rollouts st !! k = Some o ∧ current log i o ∧ status o = FAILED ∧ readiness_verified o = false.

Lemma settling_rely log w log1 w1 l i k o : rely true log w log1 w1 → settling log l i k o w → settling log1 l i k o w1.
Proof.
  intros Hr (st & Hl & Hk & Ho & H). exists st. split; [by eapply rely_live|]. split; [done|].
  split; [|done]. eapply current_mono; [by eapply rely_log|done].
Qed.
Lemma settling_log log log1 l i k o w : log ⊆ log1 → settling log l i k o w → settling log1 l i k o w.
Proof. intros Hr (st & Hl & Hk & Ho & H). exists st. split; [done|]. split; [done|]. split; [by eapply current_mono|done]. Qed.

Lemma starts_save_or log l i k o o' stop next w :
  Inv log w → settling log l i k o w → step log i o o' → status o' = FAILED → stops stop →
  (∀ w1 log1, log ⊆ log1 → Inv log1 w1 → settling log1 l i k o' w1 → starts next w1 log1) →
  starts (save_or show_io l k o' stop next) w log.
Proof.
  intros Hw Hs Hst Hf Hstop Hnext. apply starts_act; [done|]. intros w1 log1 r w2 Hrel H.
  pose proof (rely_log _ _ _ _ _ Hrel) as Hl. apply (settling_rely _ _ _ _ _ _ _ _ Hrel) in Hs as (st & Hl1 & Hk & Ho & _ & Hrd).
  apply (step_mono _ log1) in Hst as [H1 H2 [_ H4] H5]; [|done].
  eapply save_operation_spec in H as [Hw2 Hok]; [|apply Hrel|exact Hl1|exact Hk|done|done|done|apply H5].
  destruct r as [[]|]; [|by apply Hstop]. destruct (Hok eq_refl) as [Hl2 _]. apply Hnext; [done|done|].
  eexists. split; [exact Hl2|]. split_and!; [|done|done|].
  - cbn. apply list_lookup_insert_eq. by eapply lookup_lt_Some.
  - destruct (readiness_verified o') eqn:E; [|done]. rewrite (H2 eq_refl) in Hrd. done.
Qed.

Lemma existsb_omap {A B} (g g' : A → option B) (f : B → bool) (p : B → string) (l : list A) :
  (∀ a, p <$> g' a = p <$> g a) → (∀ b b', p b = p b' → f b = f b') → existsb f (omap g' l) = existsb f (omap g l).
Proof.
  intros Hg Hf. induction l as [|a l IH]; [done|]. cbn. specialize (Hg a). destruct (g a) as [b|], (g' a) as [b'|]; try done.
  cbn in *. injection Hg as E. by rewrite IH, (Hf _ _ E).
Qed.

Lemma existsb_same {A} (f g : A → bool) (l : list A) : (∀ a, f a = g a) → existsb f l = existsb g l.
Proof. intros H. induction l as [|a l IH]; [done|]. cbn. by rewrite H, IH. Qed.

Lemma outside_protected dep op s n (w w1 : World) :
  outside w w1 → reclamation_protected dep op s n w1 = reclamation_protected dep op s n w.
Proof.
  intros (E1 & E2 & _ & E4). unfold reclamation_protected.
  assert (all_deps w1 = all_deps w) as Ea by (unfold all_deps; by rewrite E1, E2). rewrite Ea.
  apply existsb_same. intros d. unfold protects.
  assert (allocation_protects s w1 = allocation_protects s w) as -> by (unfold allocation_protects; by rewrite Ea).
  rewrite (existsb_omap (λ b, heap w !! b) (λ b, heap w1 !! b) _ LbPool.sandbox_id); [done| |by intros b b' ->].
  intros b. by rewrite <- !lookup_fmap, E4.
Qed.

Lemma deleted_step log i o s :
  current log i o → deleted log s → step log i o (set_settlement (reclaimed_candidate_ids o ++ [s]) (failure_settled o) o).
Proof.
  intros [Ho Hs] Hd. assert (alike o (set_settlement (reclaimed_candidate_ids o ++ [s]) (failure_settled o) o)) as Ha by by split.
  apply alike_step; [done| |done]. split; [|done]. eapply alike_good; [exact Ha|done|apply Ho| |cbn; congruence].
  cbn. intros x [Hx| ->%list_elem_of_singleton]%elem_of_app; [by apply Ho|done].
Qed.

Lemma starts_reclaim_one log l i k j o s a fleet stop next w :
  Inv log w → settling log l i k o w → a ∈ allocations o → al_sandbox_id a = Some s → attempted a = true → stops stop →
  (∀ w1 log1 o1, log ⊆ log1 → Inv log1 w1 → settling log1 l i k o1 w1 → allocations o1 = allocations o →
     reclaimed_candidate_ids o ⊆ reclaimed_candidate_ids o1 → s ∈ reclaimed_candidate_ids o1 → starts (next o1) w1 log1) →
  starts (reclaim_one show_io l k j o s (al_name a) fleet stop next) w log.
Proof.
  intros Hw Hs Ha Hsb Hat Hstop Hnext. unfold reclaim_one. case_bool_decide as Hin; [by apply Hnext|].
  destruct (match List.find _ _ with Some _ => _ | None => _ end); [by apply Hstop|].
  apply starts_act; [done|]. intros w1 log1 kept_ w2 Hrel H. apply gets_Some in H as [Ek ->].
  destruct kept_; [apply Hstop, Hrel|]. apply (settling_rely _ _ _ _ _ _ _ _ Hrel) in Hs.
  pose proof (rely_log _ _ _ _ _ Hrel) as Hl1.
  apply starts_ask; [apply Inv_call; [apply Hrel|done]| |].
  - intros w3 log3 Hrel3. split; [done|].
    assert (settling (log1 ++ [Called (Reclaim s (al_name a))]) l i k o w1) as Hs1 by (eapply settling_log; [apply log_app|done]).
    apply (settling_rely _ _ _ _ _ _ _ _ Hrel3) in Hs1 as (st & Hl & Hk & [_ Hset] & Hf & Hrd).
    exists i, st, k, o, a. split; [by eapply live_history|]. split; [by exists l|]. split_and!; try done.
    destruct Hrel3 as (_ & _ & _ & Hout). by rewrite (outside_protected _ _ _ _ _ _ Hout).
  - intros w3 log3 [[]|] Hrel3 _ Hw3; [|by apply Hstop..].
    pose proof (log_answer _ _ _ (Reclaim s (al_name a)) (Some true) _ _ _ Hrel3) as Hl3.
    assert (settling (log3 ++ [Answered (Reclaim s (al_name a)) (Some true)]) l i k o w3) as Hs3.
    { eapply settling_log; [apply log_app|]. eapply settling_rely; [exact Hrel3|]. eapply settling_log; [apply log_app|done]. }
    destruct Hs3 as (st & Hlv & Hk & Ho & Hf & Hrd).
    eapply starts_save_or; [done|by exists st| |done|done|].
    + apply deleted_step; [done|]. exists (al_name a). apply elem_of_app. right. by left.
    + intros w4 log4 Hl4 Hw4 Hs4. apply Hnext; [|done|done|done| |].
      * etrans; [exact Hl1|]. by etrans.
      * cbn. intros x Hx. apply elem_of_app. by left.
      * cbn. apply elem_of_app. right. by left.
Qed.

Lemma settled_good log i o :
  current log i o → status o = FAILED →
  (∀ a, a ∈ allocations o → attempted a = true → ∃ s, al_sandbox_id a = Some s ∧ s ∈ reclaimed_candidate_ids o) →
  good_op log i (set_settlement (reclaimed_candidate_ids o) true o).
Proof.
  intros [Ho _] Hf Ha. eapply alike_good; [|exact Ho|apply Ho|apply Ho|done]. by split.
Qed.

(** The allocations before [j] are dealt with. *)
Definition dealt (j : nat) (o : Operation) : Prop :=
  ∀ j' a, (j' < j)%nat → allocations o !! j' = Some a → attempted a = true →
    ∃ s, al_sandbox_id a = Some s ∧ s ∈ reclaimed_candidate_ids o.

Lemma dealt_skip j o a : dealt j o → allocations o !! j = Some a → attempted a = false → dealt (S j) o.
Proof.
  intros Hd Ha Hat j' b Hj Hb Hbt. destruct (decide (j' = j)) as [->|]; [congruence|]. eapply Hd; [|done|done]. lia.
Qed.
Lemma dealt_next j o o2 a s :
  dealt j o → allocations o !! j = Some a → al_sandbox_id a = Some s → allocations o2 = allocations o →
  reclaimed_candidate_ids o ⊆ reclaimed_candidate_ids o2 → s ∈ reclaimed_candidate_ids o2 → dealt (S j) o2.
Proof.
  intros Hd Ha Hs E Hsub Hin j' b Hj Hb Hbt. rewrite E in Hb. destruct (decide (j' = j)) as [->|]; [exists s; split; [congruence|done]|].
  destruct (Hd j' b) as (x & Hx & Hx'); [lia|done|done|]. exists x. auto.
Qed.
Lemma dealt_allocate j o f : dealt j o → dealt j (allocate j f o).
Proof. intros Hd j' a Hj Ha. cbn in Ha. rewrite list_lookup_alter_ne in Ha by lia. by eapply Hd. Qed.

Lemma starts_settle log l i k fleet stop n j o w :
  Inv log w → settling log l i k o w → stops stop → (n + j = length (allocations o))%nat → dealt j o →
  starts (settle show_io undecided l k fleet stop n j o) w log.
Proof.
  intros Hw Hs Hstop. revert w log j o Hw Hs. induction n as [|n IH]; intros w log j o Hw Hs Hn Hd; cbn [settle].
  { apply starts_act; [done|]. intros w1 log1 r w2 Hrel H. apply Hstop.
    apply (settling_rely _ _ _ _ _ _ _ _ Hrel) in Hs as (st & Hl & Hk & Ho & Hf & Hrd).
    eapply save_operation_spec in H; [by destruct H|apply Hrel|exact Hl|exact Hk|by apply alike_later|done|apply Ho|].
    apply settled_good; [done|done|]. intros a [j' Hj']%list_elem_of_lookup. eapply Hd; [|done].
    apply lookup_lt_Some in Hj'. lia. }
  destruct (allocations o !! j) as [a|] eqn:Ej; [|by apply Hstop].
  assert (a ∈ allocations o) as Ha by by eapply list_elem_of_lookup_2.
  destruct (attempted a) eqn:Eat; cbn [negb].
  2: { destruct (is_some _); [by apply Hstop|]. apply IH; [done|done|lia|by eapply dealt_skip]. }
  destruct (al_sandbox_id a) as [s|] eqn:Es.
  { eapply starts_reclaim_one; [done|exact Hs|done|done|done|done|]. intros w1 log1 o1 _ Hw1 Hs1 E1 Hsub Hin.
    apply IH; [done|done|rewrite E1; lia|by eapply dealt_next]. }
  destruct (named (al_name a) fleet) as [|x [|]]; [by apply Hstop| |by apply Hstop].
  destruct (undecided (si_status x)); [by apply Hstop|].
  pose proof Hs as (st & Hl & Hk & Ho & Hf & Hrd). set (o1 := allocate j (with_sandbox (si_id x)) o).
  assert (allocations o1 !! j = Some (with_sandbox (si_id x) a)) as Ej1 by (cbn; by rewrite list_lookup_alter_eq, Ej).
  eapply starts_save_or; [done|exact Hs| |done|done|].
  { eapply allocate_step; [done|exact Ej|done|split; [done|done|congruence]|done]. }
  intros w1 log1 Hl1 Hw1 Hs1. change (al_name a) with (al_name (with_sandbox (si_id x) a)).
  eapply starts_reclaim_one; [done|exact Hs1|by eapply list_elem_of_lookup_2|done|done|done|].
  intros w2 log2 o2 _ Hw2 Hs2 E2 Hsub Hin. apply IH; [done|done| |].
  - rewrite E2. cbn. rewrite length_alter. lia.
  - eapply (dealt_next j o1); [by apply dealt_allocate|exact Ej1|done|done|done|done].
Qed.

Lemma starts_settle_failure log l i k o stop w :
  Inv log w → read_at l i k o w → current log i o → status o = FAILED → stops stop →
  starts (settle_failure show_io undecided l k o stop) w log.
Proof.
  intros Hw Hr Ho Hf Hstop. unfold settle_failure. destruct (readiness_verified o) eqn:Erd; [by apply Hstop|]. cbn [orb].
  destruct (negb _); [by apply Hstop|]. destruct (LbRollout.validate _ _); [|by apply Hstop].
  apply starts_act; [done|]. intros w1 log1 live w2 Hrel H. apply is_live_spec in H as (-> & d & Hd & Hlive).
  destruct live; [|apply Hstop, Hrel]. specialize (Hlive eq_refl).
  pose proof (rely_log _ _ _ _ _ Hrel) as Hl1.
  destruct (rely_read _ _ _ _ _ _ _ _ _ Hrel Hr) as (d' & Hd' & Hid & Hk & _). assert (d' = d) as -> by congruence.
  assert (settling log1 l i k o w1) as Hs.
  { exists (state_of d). rewrite Hid in Hlive. split_and!; try done; by eapply current_mono. }
  apply starts_fleet; [apply Hrel|done|]. intros w3 log3 fleet Hrel3 Hw3.
  assert (settling (log3 ++ [Answered ListFleet (Some fleet)]) l i k o w3) as Hs3.
  { eapply settling_log; [apply log_app|]. eapply settling_rely; [exact Hrel3|]. eapply settling_log; [apply log_app|done]. }
  eapply starts_settle; [done|exact Hs3|done|lia|]. intros j' b Hj. lia.
Qed.

(** *** A tick *)

Lemma starts_advance log l i k o retiring kk w :
  Inv log w → read_at l i k o w → current log i o → (∀ m, stops (kk m)) →
  starts (LbRollout.advance show_io undecided l k retiring kk) w log.
Proof.
  intros Hw Hr Ho Hstop. apply starts_act; [done|]. intros w1 log1 ot w2 Hrel H.
  pose proof (rely_read _ _ _ _ _ _ _ _ _ Hrel Hr) as Hr1.
  assert (current log1 i o) as Ho1 by (eapply current_mono; [by eapply rely_log|done]).
  apply bind_Some in H as (d & w1' & Hd & H). apply deref_Some in Hd as [Hd ->].
  apply bind_Some in H as (x & w1' & Hg & H). apply gets_Some in Hg as [-> ->].
  apply bind_Some in H as (o1 & w1' & He & H). apply expect_Some in He as [He ->]. apply ret_Some in H as [-> ->].
  assert (o1 = o) as -> by (destruct Hr1 as (d' & Hd' & _ & Hk & _); congruence).
  assert (Inv log1 w1) as Hw1 by apply Hrel.
  destruct (unsettled o) eqn:Eu.
  { apply andb_true_iff in Eu as [Ef%String.eqb_eq _]. by eapply starts_settle_failure. }
  destruct (negb _ && _); [eapply starts_finish; [done|exact Hr1|by apply status_step|done]|].
  destruct (phase_is "preparing" o); [by eapply starts_preparing|].
  destruct (phase_is "creating" o); [by eapply starts_creating|].
  destruct (phase_is "verifying" o).
  { apply starts_fleet; [done|done|]. intros w3 log3 fleet Hrel3 Hw3.
    pose proof (log_answer _ _ _ ListFleet (Some fleet) _ _ _ Hrel3) as Hl3.
    eapply (starts_verifying _ _ i _ _ _ _ _ _ []); [done|by eapply rely_read|by eapply current_mono|done| |done].
    by intros a ?%not_elem_of_nil. }
  destruct (phase_is "draining" o) eqn:Ed; [|by apply Hstop]. apply String.eqb_eq in Ed.
  destruct (_ <? _)%Z; [eapply starts_finish; [done|exact Hr1|by apply status_step|done]|].
  apply starts_fleet; [done|done|]. intros w3 log3 fleet Hrel3 Hw3.
  pose proof (log_answer _ _ _ ListFleet (Some fleet) _ _ _ Hrel3) as Hl3.
  eapply starts_draining; [done|by eapply rely_read|by eapply current_mono|by apply (go_phase _ _ _ _ (proj1 Ho))|done].
Qed.

Lemma open_operation_spec st k :
  open_operation (J := J) st = Some k →
  retirement st = None ∧ ∃ o : Operation, rollouts st !! k = Some o ∧ (status o = RUNNING ∨ failure_settled o = false).
Proof.
  unfold open_operation. destruct (retirement st); [done|]. cbn [is_some]. intros ([k' o] & Hf & ->)%fmap_Some.
  apply list_find_Some in Hf as (Hk & Hs & _). split; [done|]. exists o. split; [done|].
  destruct Hs as [Hs%String.eqb_eq|[_ Hs%negb_true_iff]%andb_true_iff]; auto.
Qed.

Lemma starts_tick ls retiring : stops (tick show_io undecided ls retiring).
Proof.
  revert retiring. induction ls as [|l ls IH]; intros retiring w log Hw; cbn [tick].
  { split; cbn [calls]; rewrite app_nil_r; [done|constructor]. }
  apply starts_act; [done|]. intros w1 log1 index w2 Hrel H.
  apply bind_Some in H as (d & w1' & Hd & H). apply deref_Some in Hd as [Hd ->]. apply ret_Some in H as [-> ->].
  destruct (open_operation (state_of d)) as [k|] eqn:Ek; [|apply IH, Hrel].
  apply open_operation_spec in Ek as (Hret & o & Hk & Hopen).
  pose proof (iv_deps _ _ _ (proj1 Hrel) _ _ Hd) as Hg.
  pose proof (gd_ops _ _ _ _ Hg _ (list_elem_of_lookup_2 _ _ _ Hk)) as Ho.
  eapply (starts_advance _ _ (id (spec_of d)) _ o); [apply Hrel|by exists d| |intros m; apply IH].
  split; [done|]. destruct Hopen as [Hs|]; [|done]. destruct (failure_settled o) eqn:Ef; [|done].
  destruct (go_settled _ _ _ _ Ho Ef) as [Hs' _]. rewrite Hs in Hs'. done.
Qed.
End safety.
