(* ===== verification/LbRolloutSystem.v ===== *)
(** * Rollouts over any run

    The steps of [LbRollout.rstep] keep the invariant of [LbRolloutRuns] and the security of the
    worker's program, so that what [LbRolloutSafety] shows of one tick holds of every state that a
    run from an empty machine reaches: with crashes, refused starts, failed writes and lost
    answers anywhere in it.  In these runs no deployment with rollouts on record is deregistered:
    [deregister_retired_record] of [admin.rs], which archives and unlinks a settled history, is not
    among the steps, and after it a deployment of the same name starts with an empty record. *)
From Stdlib Require Import Ascii String ZArith Lia Bool.
From stdpp Require Import base option list strings gmap fin_maps sets.
From S2P Require Import Prelude LbRoutes LbRegional LbPool LbRegistry LbRetire LbSpec LbGate LbConfig LbRollout LbRolloutRuns LbRolloutSafety.
Open Scope string_scope.
Open Scope list_scope.

Section system.
Context {Json SandboxStatus J Bytes : Type} `{!EqDecision Json, !EqDecision J, !EqDecision Bytes}.
Context `{Ext : !Externals (Rest Json) SiteSpec J Bytes, Laws : !ExternalsLaws}.
Context (sha256_text : string → string) (show_io : IoError → string) (undecided : SandboxStatus → bool).
(** A SHA-256 has 64 digits, and a spec that is valid has a name. *)
Context (sha256_length : ∀ t, String.length (sha256_text t) = 64%nat).
Context (valid_id : ∀ s : LbRegistry.DeploymentSpec (Rest Json) SiteSpec, LbRegistry.validate s = true → id s ≠ "").

Local Abbreviation DeploymentSpec := (LbRegistry.DeploymentSpec (Rest Json) SiteSpec).
Local Abbreviation Operation := (RolloutOperation (Rest Json) SiteSpec).
Local Abbreviation World := (LbRegistry.World (Rest Json) SiteSpec SandboxStatus J Bytes).
Local Abbreviation Entry := (LbRollout.Entry (Json := Json) (SandboxStatus := SandboxStatus)).
Local Abbreviation Prog := (LbRollout.Prog (Json := Json) (SandboxStatus := SandboxStatus) (J := J) (Bytes := Bytes)).
Local Abbreviation Rollouts := (LbRollout.Rollouts (Json := Json) (SandboxStatus := SandboxStatus) (J := J) (Bytes := Bytes)).
Local Abbreviation Inv := (LbRolloutRuns.Inv sha256_text).
Local Abbreviation Inv_down := (LbRolloutRuns.Inv_down sha256_text).
Local Abbreviation secure := (LbRolloutSafety.secure sha256_text).
Local Abbreviation starts := (LbRolloutSafety.starts sha256_text).
Local Abbreviation rely := (LbRolloutSafety.rely sha256_text).
Local Abbreviation collision_free := (LbRolloutRuns.collision_free sha256_text).
Local Abbreviation rstep := (LbRollout.rstep sha256_text show_io undecided).
Local Abbreviation runs := (LbRollout.runs sha256_text show_io undecided).

(** ** The invariant of a run *)

Definition sound (r : Rollouts) : Prop :=
  match controller r with
  | Up w => Inv (log r) w ∧ match task r with Some p => secure p w (log r) | None => True end
  | Down w => Inv_down (log r) (disk w) ∧ task r = None
  end.

Lemma collision_free_mono (l l' : list Entry) : l ⊆ l' → collision_free l' → collision_free l.
Proof. intros Hl Hc t t' Ht Ht'. apply Hc; by apply Hl. Qed.

(** What a secure program is at once. *)
Lemma secure_now (p : Prog) (w : World) (log : list Entry) :
  secure p w log → Inv log w → collision_free log →
  match p with
  | Done _ => True
  | Act _ m => ∀ p' w', m w = Some (p', w') → starts p' w' log
  | Ask h c k => asked h c w ∧ ∀ r : Reply c, faithful c r = true → starts (k r) w (log ++ [Answered c r])
  end.
Proof.
  intros Hs Hw Hc. pose proof (λ h, rely_refl sha256_text h log w Hw Hc) as Hr.
  destruct Hs as [m w log|h m w log H1 H2|h c k w log H1 H2 H3]; [done|split; eauto|].
  split; [by apply (H1 w log)|]. intros r Hf. split; eauto.
Qed.

Lemma goes_on_sound p w entries r : starts p w (log r ++ entries) → sound (goes_on p (Up w) entries r).
Proof.
  intros [Hi Hs]. destruct p; unfold sound; cbn [goes_on controller task log calls] in *; rewrite ?app_nil_r, ?app_assoc in *; done.
Qed.

Lemma goes_on_log p s entries (r : Rollouts) : log r ++ entries ⊆ log (goes_on p s entries r).
Proof. destruct p; cbn [goes_on log]; [done|..]; rewrite app_assoc; apply log_app. Qed.

Lemma rstep_log e r r' : rstep e r = Some r' → log r ⊆ log r'.
Proof.
  intros H. destruct e, (controller r) as [w|w] eqn:Ec; unfold LbRollout.rstep in H; rewrite Ec in H; try by injection H as <-.
  - destruct (_ && _); [|by injection H as <-]. destruct (LbRegistry.step e w) as [[u w']|]; [|done]. by injection H as <-.
  - destruct (_ || _); [by injection H as <-|]. destruct (start_rollout _ _ _ _ _ _ _) as [[u w']|]; [|done].
    injection H as <-. apply log_app.
  - destruct (_ && _); injection H as <-; [|done]. etrans; [apply (log_app _ [])|apply goes_on_log].
  - destruct (task r) as [[]|]; [by injection H as <-| |by injection H as <-..].
    destruct (m w) as [[p w']|]; [|done]. injection H as <-. etrans; [apply (log_app _ [])|apply goes_on_log].
  - destruct (task r) as [[]|]; [by injection H as <-..| |by injection H as <-].
    destruct (faithful c (f c)); injection H as <-; [|done]. etrans; [apply log_app|apply goes_on_log].
  - destruct (start_up _) as [[a w']|]; [|done]. by injection H as <-.
Qed.

(** ** Every step keeps it *)

Lemma step_outside h rs t fs (w w' : World) u :
  LbRegistry.step (EvOutside h rs t fs) w = Some (u, w') → under_locks (EvOutside h rs t fs) w = true → outside w w'.
Proof. intros H Hl. apply modify_Some in H as ->. by apply bool_decide_eq_true in Hl. Qed.

Lemma grows_implies (R R' : list Operation → list Operation → Prop) G (w w' : World) :
  (∀ h h', R h h' → R' h h') → grows R G w w' → grows R' G w w'.
Proof.
  intros HR [H1 H2 H3 H4 H5]. split; [by intros i; apply HR| |done| |done].
  - intros l d Hd. destruct (H2 l d Hd) as (d' & E1 & E2 & E3 & E4). exists d'. split_and!; auto.
  - intros f b Hb. destruct (H4 f b Hb) as [?|[(s & st & E1 & E2 & E3 & E4)|?]]; [by left| |by right; right].
    right; left. exists s, st. split_and!; auto.
Qed.

(** What the others do is relied on. *)
Lemma others_rely held log e (w w' : World) u :
  Inv log w → collision_free log → leaves e w = true → negb held || under_locks e w = true →
  LbRegistry.step e w = Some (u, w') → rely held log w log w'.
Proof.
  intros Hw Hc Hl Ho H. destruct (Inv_others _ _ _ _ _ _ Hw Hl H) as [Hw' Hg]. split; [done|]. split; [done|].
  destruct held; cbn in Ho.
  - split; [done|]. destruct e; try done. by eapply step_outside.
  - split; [done|]. eapply (grows_implies eq); [|exact Hg]. by intros h ? <-.
Qed.

Lemma admission_rely log log' (w w' : World) :
  Inv log' w' → collision_free log' → log ⊆ log' → grows extends (good sha256_text log') w w' → rely false log w log' w'.
Proof. by intros Hw Hc Hl Hg. Qed.

Lemma rstep_sound e r r' : rstep e r = Some r' → collision_free (log r') → sound r → sound r'.
Proof.
  intros H Hc Hr. pose proof (collision_free_mono _ _ (rstep_log _ _ _ H) Hc) as Hc0. unfold sound in Hr.
  destruct e, (controller r) as [w|w] eqn:Ec; unfold LbRollout.rstep in H; rewrite Ec in H;
    try (injection H as <-; unfold sound; by rewrite Ec).
  - destruct (leaves e w && _) eqn:El; [|injection H as <-; unfold sound; by rewrite Ec].
    apply andb_true_iff in El as [El Eh].
    destruct (LbRegistry.step e w) as [[u w']|] eqn:Es; [|done]. injection H as <-. unfold sound; cbn [controller task log] in *.
    destruct Hr as [Hw Ht]. split; [by eapply Inv_others|]. destruct (task r) as [p|] eqn:Et; [|done].
    eapply secure_rely; [exact Ht|]. eapply others_rely; [exact Hw|done|exact El| |exact Es]. exact Eh.
  - destruct (_ || _) eqn:El; [injection H as <-; unfold sound; by rewrite Ec|].
    apply orb_false_iff in El as [El Et%negb_false_iff].
    destruct (start_rollout _ _ _ _ _ _ _) as [[u w']|] eqn:Es; [|done]. injection H as <-.
    unfold sound; cbn [controller task log] in *. destruct Hr as [Hw Ht].
    pose proof (start_rollout_Inv sha256_text show_io valid_id _ _ _ _ _ _ _ _ Hw Et Es) as [Hw' Hg].
    split; [done|]. destruct (task r) as [p|] eqn:Ep; [|done].
    eapply secure_rely; [exact Ht|]. cbn [locked] in El. rewrite El. apply admission_rely; [done|done|apply log_app|done].
  - destruct (_ && _); injection H as <-; [|unfold sound; by rewrite Ec]. destruct Hr as [Hw _].
    apply goes_on_sound. rewrite app_nil_r. by apply starts_tick.
  - destruct (task r) as [p|] eqn:Et; [|injection H as <-; unfold sound; by rewrite Ec, Et].
    destruct p as [m|h m|h c k]; [injection H as <-; unfold sound; by rewrite Ec, Et| |injection H as <-; unfold sound; by rewrite Ec, Et].
    destruct (m w) as [[p w']|] eqn:Em; [|done]. injection H as <-. destruct Hr as [Hw Hs].
    apply goes_on_sound. rewrite app_nil_r. by eapply (secure_now _ _ _ Hs Hw Hc0).
  - destruct (task r) as [p|] eqn:Et; [|injection H as <-; unfold sound; by rewrite Ec, Et].
    destruct p as [m|h m|h c k]; [injection H as <-; unfold sound; by rewrite Ec, Et..|].
    destruct (faithful c (f c)) eqn:Ef; injection H as <-; [|unfold sound; by rewrite Ec, Et].
    apply goes_on_sound. destruct Hr as [Hw Hs]. by apply (secure_now _ _ _ Hs Hw Hc0).
  - injection H as <-. split; [|done]. cbn. by eapply Inv_up_crash, Hr.
  - injection H as <-. split; [|done]. cbn. destruct Hr as [[] _]. by apply Inv_crash.
  - destruct (start_up _) as [[a w']|] eqn:Es; [|done]. injection H as <-. destruct Hr as [Hd _].
    apply (Inv_start sha256_text (log r)) in Es; [|done..]. by destruct a.
Qed.

Lemma runs_log es r r' : runs es r = Some r' → log r ⊆ log r'.
Proof.
  revert r. induction es as [|e es IH]; intros r H; cbn in H; [by injection H as <-|].
  destruct (rstep e r) as [r1|] eqn:E; [|done]. etrans; [by eapply rstep_log|by apply IH].
Qed.

Lemma runs_sound es r r' : runs es r = Some r' → collision_free (log r') → sound r → sound r'.
Proof.
  revert r. induction es as [|e es IH]; intros r H Hc Hr; cbn in H; [by injection H as <-|].
  destruct (rstep e r) as [r1|] eqn:E; [|done]. apply (IH r1); [done|done|]. eapply rstep_sound; [done| |done].
  eapply collision_free_mono; [by eapply runs_log|done].
Qed.

Lemma installed_sound old : sound (installed old).
Proof.
  split; [|done]. cbn. split; [by intros f b s st [Hf|Hf]; cbn in Hf|by intros f b s st [Hf|Hf]; cbn in Hf|done| |constructor].
  by intros n ?%not_elem_of_nil.
Qed.

(** ** What holds of every state a run reaches *)

Definition disk_of (c : LbRegistry.Sys (Rest Json) SiteSpec SandboxStatus J Bytes) : Disk Bytes :=
  match c with Up w | Down w => disk w end.

(** The states of some run of a machine that held at most a legacy file, over which no two digests
    of admissions were the same. *)
Definition reached (r : Rollouts) : Prop :=
  (∃ es old, runs es (installed old) = Some r) ∧ collision_free (log r).

Lemma reached_sound r : reached r → sound r.
Proof. intros [(es & old & H) Hc]. by eapply runs_sound, installed_sound. Qed.

Lemma reached_up r w : reached r → controller r = Up w → Inv (log r) w.
Proof. intros Hs%reached_sound Hw. unfold sound in Hs. rewrite Hw in Hs. apply Hs. Qed.

Lemma reached_asks r w h c k :
  reached r → controller r = Up w → task r = Some (Ask h c k) → Inv (log r) w ∧ asked h c w.
Proof.
  intros Hr Hw Ht. pose proof (reached_sound _ Hr) as Hs. unfold sound in Hs. rewrite Hw, Ht in Hs.
  destruct Hs as [Hi Hs]. split; [done|]. by apply (secure_now _ _ _ Hs Hi (proj2 Hr)).
Qed.

(** C5. While records with a history stay, a create is never repeated: over any run in which no
    deployment that has rollouts on record is deregistered, forgotten or handed over (see
    [LbRollout.leaves]), whatever the runtime answers or fails to answer, whichever writes fail and
    wherever the controller crashes, no two calls of the runtime's [create] have the same name; and the attempt of every one of them is on the disk, as
    a reader sees it and as a crash leaves it, from before the call on. *)
Theorem create_is_never_repeated r :
  reached r →
  NoDup (created (log r)) ∧
  ∀ n, n ∈ created (log r) → ∃ i, i ≠ "" ∧ kept i (attempt_on n) (disk_of (controller r)).
Proof.
  intros Hs%reached_sound. unfold sound in Hs.
  destruct (controller r) as [w|w]; destruct Hs as [Hs _]; split; try apply Hs.
  intros n Hn. destruct (iv_created _ _ _ Hs n Hn) as (i & Hi & _ & Hk). by exists i.
Qed.

(** C6. Candidate first: when the worker asks the runtime to stop an old VM, some operation on
    record has that VM among its sources, every one of its candidates had been found running
    under its name and had answered, and the record that says so is on the disk for good. *)
Theorem source_stops_after_durable_switch r w h s k :
  reached r → controller r = Up w → task r = Some (Ask h (Stop s) k) →
  ∃ i j o, history i w !! j = Some o ∧ s ∈ previous o ∧ readiness_verified o = true ∧
    (∀ a, a ∈ allocations o → answering (log r) a) ∧
    kept i (λ on_disk, ∃ o', on_disk !! j = Some o' ∧ readiness_verified o' = true ∧ s ∈ previous o') (disk w).
Proof.
  intros H Hw Ht. destruct (reached_asks _ _ _ _ _ H Hw Ht) as [Hi (i & _ & (j & o & Hj & Hr & Hs) & _)].
  destruct (Inv_history _ _ _ i Hi) as [Hg Hv]. exists i, j, o. split_and!; try done.
  - by apply (go_ready _ _ _ _ (gd_ops _ _ _ _ Hg _ (list_elem_of_lookup_2 _ _ _ Hj))).
  - eapply fixed_mono; [|by apply (Hv j o)]. intros h' (o' & Ho' & Hr' & Hp). exists o'. rewrite Hp. done.
Qed.

(** What is not protected is not protected by any deployment. *)
Lemma protected_each op i s n (w : World) :
  reclamation_protected i op s n w = false → ∀ d, d ∈ all_deps w → protects i op s n w d = false.
Proof.
  intros Hp d Hd. destruct (protects i op s n w d) eqn:E; [|done]. rewrite <- Hp. symmetry. apply existsb_exists. exists d.
  split; [by apply list_elem_of_In|done].
Qed.

Lemma serving_unprotected op i s n (w : World) d b x :
  reclamation_protected i op s n w = false → d ∈ all_deps w → b ∈ backends (LbRegistry.base d) → heap w !! b = Some x →
  LbPool.sandbox_id x ≠ s.
Proof.
  intros Hp Hd Hb Hx Es. pose proof (protected_each _ _ _ _ _ Hp d Hd) as Hpd. unfold protects in Hpd. rewrite !orb_false_iff in Hpd. destruct Hpd as [[[[[[[[Hpd _] _] _] _] _] _] _] _].
  rewrite <- not_true_iff_false, existsb_exists in Hpd. apply Hpd. exists x. split; [|by apply String.eqb_eq].
  apply list_elem_of_In, list_elem_of_omap. by exists b.
Qed.

Lemma source_unprotected op i s n (w : World) d o :
  reclamation_protected i op s n w = false → d ∈ all_deps w → o ∈ rollouts (state_of d) → s ∉ previous o.
Proof.
  intros Hp Hd Ho Hs. apply (protected_each _ _ _ _ _) with (d := d) in Hp; [|done]. unfold protects in Hp. apply orb_false_iff in Hp as [_ Hp].
  rewrite <- not_true_iff_false, existsb_exists in Hp. apply Hp. exists o. split; [by apply list_elem_of_In|].
  apply orb_true_iff. left. apply existsb_exists. exists s. split; [by apply list_elem_of_In|apply String.eqb_refl].
Qed.

(** C17. What the worker asks the runtime to reclaim is a candidate that was attempted for an
    operation that failed before its switch and is not settled yet; and while the call goes on,
    with the locks of the autoscaler and of the registry's writers held, no backend of any live
    deployment is that sandbox, and no operation on record has it among its sources. *)
Theorem only_failed_candidates_are_reclaimed r w h s n k :
  reached r → controller r = Up w → task r = Some (Ask h (Reclaim s n) k) →
  h = true ∧
  (∃ i j o a, history i w !! j = Some o ∧ status o = FAILED ∧ failure_settled o = false ∧ readiness_verified o = false ∧
     a ∈ allocations o ∧ al_name a = n ∧ attempted a = true ∧ al_sandbox_id a = Some s) ∧
  ∀ d, d ∈ all_deps w →
    (∀ b x, b ∈ backends (LbRegistry.base d) → heap w !! b = Some x → LbPool.sandbox_id x ≠ s) ∧
    ∀ o, o ∈ rollouts (state_of d) → s ∉ previous o.
Proof.
  intros H Hw Ht. destruct (reached_asks _ _ _ _ _ H Hw Ht) as
    [Hi [-> (i & st & j & o & a & Hst & _ & Hj & Hf & Hfs & Hr & Ha & Hn & Hat & Has & Hp)]].
  split; [done|]. split; [exists i, j, o, a; by rewrite Hst|]. intros d Hd. split.
  - intros b x. by eapply serving_unprotected.
  - intros o' Ho'. by eapply source_unprotected.
Qed.

(** A failure that is settled leaves nothing behind: the operation failed, and every one of its
    candidates that was attempted is known by its id and the runtime confirmed its deletion. *)
Theorem settled_failure_left_nothing r w i o :
  reached r → controller r = Up w → o ∈ history i w →
  failure_settled o = true →
  status o = FAILED ∧
  ∀ a, a ∈ allocations o → attempted a = true →
    ∃ s n, al_sandbox_id a = Some s ∧ Answered (Reclaim s n) (Some true) ∈ log r.
Proof.
  intros H Hw Ho Hs. pose proof (reached_up _ _ H Hw) as Hi. destruct (Inv_history _ _ _ i Hi) as [Hg _].
  pose proof (gd_ops _ _ _ _ Hg _ Ho) as Hop. destruct (go_settled _ _ _ _ Hop Hs) as [Hf Ha]. split; [done|].
  intros a Hin Hat. destruct (Ha a Hin Hat) as (s & Hsa & Hre). destruct (go_reclaimed _ _ _ _ Hop _ Hre) as [n Hn]. by exists s, n.
Qed.

(** A verified generation survives a crash: whatever the crash keeps of the files, and
    whatever happens to the system calls of a start that succeeds, the operation is back at its
    place with its candidates verified and its sources known. *)
Theorem verified_generation_survives r w i j o kept fs w' :
  reached r → controller r = Up w →
  history i w !! j = Some o → readiness_verified o = true →
  start_up (with_faults fs (crash kept w)) = Some (Ok tt, w') →
  ∃ o', history i w' !! j = Some o' ∧ readiness_verified o' = true ∧ previous o' = previous o.
Proof.
  intros H Hw Hj Hr Hs. pose proof (reached_up _ _ H Hw) as Hi. destruct (Inv_history _ _ _ i Hi) as [Hg Hv].
  pose proof (gd_ops _ _ _ _ Hg _ (list_elem_of_lookup_2 _ _ _ Hj)) as Hop.
  assert (disk_good (disk (crash kept w))) as Hd by (apply good_crash, Hi).
  destruct (kept_start_up i (vouches j o) (with_faults fs (crash kept w)) (Ok tt) w') as [_ Hk];
    [apply Hop|exact Hd| |exact Hs|by destruct (Hk eq_refl)].
  apply (kept_crash i (vouches j o) kept w), (Hv j o); done.
Qed.

(** ** Admission *)

Lemma find_snoc {A} (f : A → bool) (l : list A) (x : A) : List.find f l = None → f x = true → List.find f (l ++ [x]) = Some x.
Proof.
  intros Hl Hx. induction l as [|y l IH]; cbn in *; [by rewrite Hx|]. destruct (f y); [done|]. by apply IH.
Qed.

Lemma admit_op_get l i q (w w' : World) o :
  get i w = Some l → admit_op sha256_text show_io l q w = Some (Ok o, w') →
  get_rollout i (rq_operation_id q) w' = Some o ∧ source_revision o = rq_expected_revision q ∧
  target_spec_sha256 o = fingerprint (rq_spec q).
Proof.
  intros El H. unfold admit_op in H. apply bind_Some in H as (d & w0 & Hd & H). apply deref_Some in Hd as [Hd ->].
  apply bind_Some in H as (y & w0 & Hg & H). apply gets_Some in Hg as [-> ->]. cbv zeta in H.
  destruct (List.find _ (rollouts (state_of d))) as [o1|] eqn:Ef.
  { apply ret_Some in H as [Ho ->]. destruct (_ && _) eqn:Eb in Ho; [|done]. injection Ho as <-.
    apply andb_true_iff in Eb as [Eb1%String.eqb_eq Eb2%String.eqb_eq]. split; [|done].
    unfold get_rollout, dep_at. by rewrite El; cbn; rewrite Hd. }
  do 2 (destruct (_ || _) in H; [by apply ret_Some in H as [[=] _]|]).
  destruct (LbRollout.validate _ _); [|by apply ret_Some in H as [[=] _]].
  destruct (_ || _) in H; [by apply ret_Some in H as [[=] _]|].
  apply bind_Some in H as (r & w1 & Hs & H). apply ret_Some in H as [Ho ->]. destruct r as [u|]; [|done]. injection Ho as Ho. subst o.
  split; [|done]. apply (save_Some _ _ _ _ _ _ _ Hd) in Hs as (f & w2 & d' & Hf & (Hq & _ & Hd' & _) & _ & Hst).
  unfold get_rollout, dep_at, get. rewrite (q_deployments _ _ _ Hq), (proj1 (proj2 (on_file_deps _ _ _ Hf))).
  unfold get in El. rewrite El. cbn. rewrite Hd'. cbn. rewrite Hst. cbn. by apply find_snoc; [|apply String.eqb_refl].
Qed.

(** The handler, asked by a client whose provider is known while no job runs. *)
Definition ask_again (i : string) (q : Request) (w : World) := start_rollout sha256_text show_io i q true false w.

(** Admission is idempotent: a request that was admitted is answered with the operation it was
    admitted as when it comes again, whatever the deployment's pool and revision are by then as
    long as its record is there, and nothing changes. *)
Theorem admission_is_idempotent i q ok busy (w w' : World) o :
  start_rollout sha256_text show_io i q ok busy w = Some (Ok o, w') →
  get_rollout i (rq_operation_id q) w' = Some o ∧
  ∀ w2 : World, get_rollout i (rq_operation_id q) w2 = Some o → ask_again i q w2 = Some (Ok o, w2).
Proof.
  intros H. unfold ask_again, start_rollout in *. destruct (negb (String.eqb (id (rq_spec q)) i)); [done|]. destruct ok; [|done]. cbn [negb] in *.
  apply bind_Some in H as (x & w0 & Hx & H). apply gets_Some in Hx as [-> ->].
  destruct (get i w) as [l|] eqn:El; [|done]. destruct busy; [done|].
  apply bind_Some in H as (y & w1 & Ha & H). apply ret_Some in H as [Hy ->]. destruct y as [o1|]; [|done]. injection Hy as <-.
  assert (get_rollout i (rq_operation_id q) w1 = Some o ∧ source_revision o = rq_expected_revision q ∧
          target_spec_sha256 o = fingerprint (LbRegistry.normalize (rq_spec q))) as (Hget & Hsrc & Hfp).
  { exact (admit_op_get _ _ _ _ _ _ El Ha). }
  split; [done|]. intros w2 Hw2. unfold get_rollout, dep_at in Hw2. cbn in Hw2.
  destruct (get i w2) as [l2|] eqn:El2; [|done]. cbn in Hw2. destruct (deps w2 !! l2) as [d2|] eqn:Ed2; [|done]. cbn in Hw2.
  unfold bind, gets, admit_op, deref. cbn [mbind option_bind]. rewrite El2. cbn. rewrite Ed2. cbn. rewrite Hw2, Hsrc, Hfp.
  by rewrite !String.eqb_refl.
Qed.
End system.

(** ** A concrete rollout *)

#[local] Existing Instance ConfigDemo.config_externals.

Module RolloutDemo.
Definition pad (t : string) : string := string_of_list_ascii (take 64 (list_ascii_of_string t ++ repeat "0"%char 64)).
Definition revision40 : string := string_of_list_ascii (repeat "a"%char 40).
Definition hex64 : string := string_of_list_ascii (repeat "b"%char 64).
Definition service (next : bool) : ConfigDemo.Spec :=
  let s := ConfigDemo.service_spec "web" (Some (ConfigDemo.template Firecracker [] None)) [] 2 in
  {| id := id s; namespace := namespace s; routes := routes s; maintenance := maintenance s; site := site s; scaling := scaling s;
     upstreams := upstreams s; discovery := discovery s; gateway := gateway s;
     rest_of :=
       let r := rest_of s in
       {| account_id := account_id r; user_id := user_id r; vm := vm r;
          health := {| expected_header := if next then Some {| eh_name := "X-Heyo-Revision"; eh_value := revision40 |} else None;
                       hc_path := Some "/"; hc_port := None; hc_timeout_secs := 2 |};
          drain_timeout_secs := 30; boot_timeout_secs := 300; idle_action := Destroy; build := None;
          artifact := if next then Some {| as_artifact_ref := hex64; as_store := "https://store.example"; as_auth := None;
                         as_strip_components := None; grow_gb := None; as_image_name := None |} else None;
          update_spec := None; gate := gate r; feed := None; ingress := None |} |}.
Abbreviation REvent := (LbRollout.REvent (Json := string) (SandboxStatus := unit) (J := unit)).
Abbreviation State := (LbRollout.Rollouts (Json := string) (SandboxStatus := unit) (J := unit) (Bytes := ConfigDemo.File)).
Abbreviation Machine := (World (Rest string) SiteSpec unit unit ConfigDemo.File).
Definition info (i n : string) : SandboxInfo (SandboxStatus := unit) :=
  {| si_id := i; si_name := n; si_status := tt; si_image := "docker:nginx" |}.
Definition name : string := allocation_name (prefix_of pad "web" "r" "op1") 0.
Definition answers (healthy : bool) (c : Call (Json := string) (SandboxStatus := unit)) : Reply c :=
  match c with
  | ListFleet => Some [info "vm1" "web-1"; info "vm2" name]
  | Prepare s _ => {| pr_stages := ["fetch"]; pr_last := "image"; pr_result := Some (Some s) |}
  | Create _ _ => Some "vm2"
  | Healthy _ _ => if healthy then Some "10.0.0.2:80" else None
  | Stop _ => true
  | Reclaim _ _ => Some true
  end.
Definition no_error (e : IoError) : string := "i/o error".
Definition decided (s : unit) : bool := false.
Local Abbreviation go es := (runs pad no_error decided es (installed None : State)).
Definition request : Request := {| rq_operation_id := "op1"; rq_expected_revision := "r"; rq_spec := service true |}.
(** A deployment that serves from one VM. *)
Definition begin : list REvent :=
  [Start_up []; Outside (EvUpsert (LbRegistry.normalize (service false))); Outside (EvPersist "web");
   Outside (EvOutside {[ 100%nat := new_backend 0 "vm1" "10.0.0.1:80" ]} ∅ 5 []); Outside (EvSetBackends 1 [100%nat]);
   Start_rollout "web" request true false].
Definition drive (healthy : bool) (n : nat) : list REvent := concat (repeat [Go; Answer (answers healthy)] n).
Definition turn (l : nat) : list REvent := Tick [l] :: drive true 10.
(** The candidate is prepared, created and verified, the deployment switched to it; and the worker
    asks to stop the old VM. *)
Definition switched : list REvent := begin ++ turn 1 ++ turn 1 ++ turn 1 ++ turn 1.
Definition stopping : list REvent := switched ++ Tick [3%nat] :: take 11 (drive true 10).
(** The candidate never answers, and the worker asks to reclaim it; and then it is gone. *)
Definition failing : list REvent :=
  begin ++ turn 1 ++ turn 1 ++ turn 1 ++
  Outside (EvOutside {[ 100%nat := new_backend 0 "vm1" "10.0.0.1:80" ]} ∅ 500 []) :: Tick [1%nat] :: drive false 10.
Definition reclaiming : list REvent := failing ++ Tick [1%nat] :: take 7 (drive true 10).

Lemma pad_length t : String.length (pad t) = 64%nat.
Proof.
  assert (∀ l, String.length (string_of_list_ascii l) = length l) as Hl by (induction l as [|c l IH]; cbn; congruence).
  unfold pad. rewrite Hl, length_take, length_app. cbn [repeat length]. lia.
Qed.
#[export] Instance config_laws : ExternalsLaws (Rest := Rest string) (Site := SiteSpec) (Json := unit) (Bytes := ConfigDemo.File).
Proof. split; try done. intros s s'. cbn. by destruct (discovery s), (discovery s'). Qed.
Lemma checked_id (s : ConfigDemo.Spec) : LbRegistry.validate s = true → id s ≠ "".
Proof. intros H E. cbn in H. unfold ConfigDemo.check, LbConfig.validate in H. by rewrite E in H. Qed.

Definition admissions (r : State) : list string := flat_map (λ e, match e with Digested t => [t] | _ => [] end) (log r).
(** One admission collides with no other. *)
Lemma admissions_apart t (r : State) : admissions r = [t] → collision_free pad (log r).
Proof.
  intros E. assert (∀ t', Digested t' ∈ log r → t' = t) as H; [|by intros t1 t2 ->%H ->%H].
  intros t' Ht. apply list_elem_of_singleton. rewrite <- E. apply list_elem_of_In, in_flat_map. exists (Digested t').
  split; [by apply list_elem_of_In|by left].
Qed.

(** Runs that a check accepts. *)
Lemma checked_rollout es (P : State → bool) :
  match go es with Some r => P r | None => false end = true → ∃ r, go es = Some r ∧ P r = true.
Proof. destruct (go es) as [r|]; [|done]. intros HP. by exists r. Qed.
Lemma checked_up es (P : Machine → option Call → bool) :
  match go es with
  | Some r => bool_decide (admissions r = ["r:op1"])
              && match controller r with
                 | Up w => P w (match task r with Some (Ask _ c _) => Some c | _ => None end)
                 | Down _ => false
                 end
  | None => false
  end = true →
  ∃ r w, go es = Some r ∧ reached pad no_error decided r ∧ controller r = Up w ∧
    P w (match task r with Some (Ask _ c _) => Some c | _ => None end) = true.
Proof.
  destruct (go es) as [r|] eqn:Hgo; [|done]. intros [Ha%bool_decide_eq_true Hp]%andb_true_iff.
  destruct (controller r) as [w|w] eqn:Ew; [|done]. exists r, w. split; [done|].
  split; [split; [exists es, None; exact Hgo|by eapply admissions_apart]|]. by rewrite Ew.
Qed.
End RolloutDemo.

Section examples.
Import RolloutDemo.
Local Abbreviation go es := (runs pad no_error decided es (installed None : State)).

Example rollout_succeeds :
  match go (switched ++ turn 3) with
  | Some r =>
    (match controller r with
     | Up w => (λ o, (status o, ro_phase o, stopped o)) <$> history "web" w
     | Down _ => []
     end, created (log r))
  | None => ([], [])
  end = ([("succeeded", "complete", ["vm1"])], [name]).
Proof. vm_compute. reflexivity. Qed.

Example rollout_fails :
  match go (failing ++ turn 1) with
  | Some r =>
    match controller r with
    | Up w => (λ o, (status o, ro_phase o, reclaimed_candidate_ids o, failure_settled o)) <$> history "web" w
    | Down _ => []
    end
  | None => []
  end = [("failed", "verifying", ["vm2"], true)].
Proof. vm_compute. reflexivity. Qed.

Definition asks (c : Call (Json := string) (SandboxStatus := unit)) (o : option (Call (Json := string) (SandboxStatus := unit))) : bool :=
  match c, o with
  | Stop i, Some (Stop i') => String.eqb i i'
  | Reclaim i n, Some (Reclaim i' n') => String.eqb i i' && String.eqb n n'
  | _, _ => false
  end.
Definition asking (r : State) := match task r with Some (Ask _ c _) => Some c | _ => None end.
Lemma asks_stop i (r : State) : asks (Stop i) (asking r) = true → ∃ h k, task r = Some (Ask h (Stop i) k).
Proof.
  unfold asking. destruct (task r) as [[m|h m|h [] k]|]; try done. cbn. intros ->%String.eqb_eq. by exists h, k.
Qed.
Lemma asks_reclaim i n (r : State) : asks (Reclaim i n) (asking r) = true → ∃ h k, task r = Some (Ask h (Reclaim i n) k).
Proof.
  unfold asking. destruct (task r) as [[m|h m|h [] k]|]; try done. cbn.
  intros [->%String.eqb_eq ->%String.eqb_eq]%andb_true_iff. by exists h, k.
Qed.

Lemma create_is_never_repeated_witness :
  ∃ r, go stopping = Some r ∧ created (log r) = [name] ∧ NoDup (created (log r)).
Proof.
  destruct (checked_rollout stopping (λ r, bool_decide (admissions r = ["r:op1"]) && bool_decide (created (log r) = [name])))
    as (r & E & [Ha%bool_decide_eq_true Hn%bool_decide_eq_true]%andb_true_iff); [vm_compute; reflexivity|].
  exists r. split; [exact E|]. split; [exact Hn|].
  exact (proj1 (create_is_never_repeated pad no_error decided pad_length checked_id r
    (conj (ex_intro _ stopping (ex_intro _ None E)) (admissions_apart _ _ Ha)))).
Defined.

Lemma source_stops_after_durable_switch_witness :
  ∃ r w i o, go stopping = Some r ∧ controller r = Up w ∧ o ∈ history i w ∧ "vm1" ∈ previous o ∧ readiness_verified o = true.
Proof.
  destruct (checked_up stopping (λ _, asks (Stop "vm1"))) as (r & w & Hgo & Hc & Hw & (h & k & Ht)%asks_stop); [vm_compute; reflexivity|].
  destruct (source_stops_after_durable_switch pad no_error decided pad_length checked_id r w h "vm1" k Hc Hw Ht)
    as (i & j & o & Hj & Hp & Hr & _).
  exists r, w, i, o. exact (conj Hgo (conj Hw (conj (list_elem_of_lookup_2 _ _ _ Hj) (conj Hp Hr)))).
Defined.

Lemma only_failed_candidates_are_reclaimed_witness :
  ∃ r w i o, go reclaiming = Some r ∧ controller r = Up w ∧ o ∈ history i w ∧ status o = FAILED ∧ readiness_verified o = false.
Proof.
  destruct (checked_up reclaiming (λ _, asks (Reclaim "vm2" name))) as (r & w & Hgo & Hc & Hw & (h & k & Ht)%asks_reclaim);
    [vm_compute; reflexivity|].
  destruct (only_failed_candidates_are_reclaimed pad no_error decided pad_length checked_id r w h "vm2" name k Hc Hw Ht)
    as (_ & (i & j & o & a & Hj & Hf & _ & Hr & _) & _).
  exists r, w, i, o. exact (conj Hgo (conj Hw (conj (list_elem_of_lookup_2 _ _ _ Hj) (conj Hf Hr)))).
Defined.

Lemma settled_failure_left_nothing_witness :
  ∃ r w o a s n, go (failing ++ turn 1) = Some r ∧ controller r = Up w ∧ o ∈ history "web" w ∧ a ∈ allocations o ∧
    al_sandbox_id a = Some s ∧ Answered (Reclaim s n) (Some true) ∈ log r.
Proof.
  destruct (checked_up (failing ++ turn 1)
    (λ w _, match history "web" w with o :: _ => failure_settled o && existsb attempted (allocations o) | [] => false end))
    as (r & w & Hgo & Hc & Hw & Hp); [vm_compute; reflexivity|].
  destruct (history "web" w) as [|o h] eqn:Eh; [done|]. apply andb_true_iff in Hp as [Hs (a & Ha%list_elem_of_In & Hat)%existsb_exists].
  assert (o ∈ history "web" w) as Ho by (rewrite Eh; by left).
  destruct (settled_failure_left_nothing pad no_error decided pad_length checked_id r w "web" o Hc Hw Ho Hs)
    as [_ Hall].
  destruct (Hall a Ha Hat) as (s & n & Hsa & Hn). exists r, w, o, a, s, n. exact (conj Hgo (conj Hw (conj Ho (conj Ha (conj Hsa Hn))))).
Defined.

Lemma verified_generation_survives_witness :
  ∃ r w w' o, go switched = Some r ∧ controller r = Up w ∧ start_up (with_faults [] (crash ∅ w)) = Some (Ok tt, w') ∧
    history "web" w' !! 0%nat = Some o ∧ readiness_verified o = true.
Proof.
  destruct (checked_up switched
    (λ w _, match history "web" w with o :: _ => readiness_verified o | [] => false end
            && match start_up (with_faults [] (crash ∅ w)) with Some (Ok _, _) => true | _ => false end))
    as (r & w & Hgo & Hc & Hw & [Hp Hs]%andb_true_iff); [vm_compute; reflexivity|].
  destruct (history "web" w) as [|o h] eqn:Eh; [done|].
  destruct (start_up (with_faults [] (crash ∅ w))) as [[[[]|] w']|] eqn:Es; [|done..].
  assert (history "web" w !! 0%nat = Some o) as Ho by by rewrite Eh.
  destruct (verified_generation_survives pad no_error decided pad_length checked_id r w "web" 0 o ∅ [] w' Hc Hw Ho Hp Es)
    as (o' & Ho' & Hr' & _).
  exists r, w, w', o'. exact (conj Hgo (conj Hw (conj Es (conj Ho' Hr')))).
Defined.

Lemma admission_is_idempotent_witness :
  ∃ r w o w', go (removelast begin) = Some r ∧ controller r = Up w ∧
    start_rollout pad no_error "web" request true false w = Some (Ok o, w') ∧
    start_rollout pad no_error "web" request true false w' = Some (Ok o, w').
Proof.
  destruct (checked_rollout (removelast begin) (λ r,
    match controller r with
    | Up w => match start_rollout pad no_error "web" request true false w with Some (Ok _, _) => true | _ => false end
    | Down _ => false
    end)) as (r & E & H); [vm_compute; reflexivity|].
  destruct (controller r) as [w|w] eqn:Ew; [|done].
  destruct (start_rollout _ _ _ _ _ _ w) as [[[o|] w']|] eqn:Es; [|done..]. exists r, w, o, w'.
  split; [exact E|]. split; [exact Ew|]. split; [exact Es|]. destruct (admission_is_idempotent pad no_error "web" request true false w w' o Es) as [Hg Hi]. exact (Hi w' Hg).
Defined.
End examples.
